(* ===== verification/_CoqProject ===== *)
-Q . S2P
Prelude.v
Tokens.v
Ast.v
Eval.v
Implication.v
FacetCompare.v
SelectionEval.v
Rewrite.v
VarOrder.v
Partitioner.v
Bdd.v
BddLayout.v
BddBytes.v
CcmFormat.v
Emitter.v
Artifact.v
Backend.v
CuddBackend.v
MultiPart.v
MultiPartEmit.v
Session.v
SessionProps.v
SatBackend.v
Mus.v
Explain.v
ExplainProps.v
SessionTrace.v
MultiPartDisk.v
MultiPartLoads.v
Text.v
Schema.v
Resolver.v
ResolverProps.v
InterfaceSummary.v
LinkVerify.v
LinkGraph.v
LinkVerifyProps.v
SummaryProps.v
ParseContext.v
Lowering.v
LoweringProps.v
Ir.v
IrProps.v
Ingest.v
IngestProps.v
Object.v
Link.v
LinkProps.v
LinkModel.v
EndToEnd.v
Reverify.v
Attribution.v
Override.v
Runtime.v
RuntimeOps.v
RuntimeCommit.v
RuntimeProps.v
RuntimeCommitProps.v
RuntimeValid.v
RuntimeDemo.v
RuntimeSync.v
RuntimeSyncProps.v
RuntimeSyncDemo.v
CcmLoad.v
Enforce.v
EnforceProps.v
EnforceDemo.v
Loader.v
LoaderProps.v
LoaderAgree.v
LoaderResolve.v
LoaderOpen.v
LoaderPackage.v
LoaderDemo.v
Compose.v
ComposeProps.v
ComposeResolve.v
ComposeExplain.v
ComposeDemo.v
