(* ===== verification/Prelude.v ===== *)
(** * ConfigFlux: the constraint pipeline, modelled and verified

    ConfigFlux verifies and resolves configuration models, compiles their
    constraints into binary decision diagrams and answers configuration
    questions against them.  This library models that pipeline, from the
    documents of a model and the text of a condition to a resolved
    configuration and an answer of a session, and proves that the parts mean
    what they should and fit together.

    ** The program and its model

    The compiler ([src/compiler/src]) ingests the documents of a model, summarizes
    each unit's interface, verifies units and the linked whole, writes packages
    and objects, links objects, and resolves components and parameters under a
    selection.  It lowers what was declared to conditions, expands and checks
    them, and writes a compiled model: one or several directories with a diagram
    ([ccm.bdd.bin]), a symbol table ([ccm.symbols.json]) and a manifest whose
    hash chains over them.  The solver ([src/solver/src]) loads such a
    directory, starts a session with one backend per partition, and applies and
    retracts selections, lists valid options, resolves a configuration and
    explains rejections.  The runtime API ([src/compiler/src/runtime_api]) keeps
    a resolved configuration on a device as a snapshot: overrides with leases and
    a governance intent are written over it, committed, rolled back, ended by a
    lifecycle driver and synchronized with a backend.  The loader API
    ([src/compiler/src/loader_api]) opens a package, keeps selection states and
    resolves them; the commands of [src/session_compose] put a session of the
    solver in front of it, and the runtime binary ([src/runtime/src]) checks
    writes and commits against the model in the same way.

    Conditions ([compiler/src/conditions/]):
    - [Tokens]: [mod.rs], the tokeniser;
    - [Ast]: [ast.rs], expressions and their recursive-descent parser;
    - [Eval]: [eval.rs], the one-pass evaluator of condition texts;
    - [Implication]: [implication.rs], the exhaustive implication search;
    - [FacetCompare]: [facet_compare.rs], expansion of facet comparisons;
    - [SelectionEval]: [selection_eval.rs], evaluation under partial selections;
    - [Rewrite]: [rewrite.rs], identifiers, substitution and printing.

    Model documents ([compiler/src/]):
    - [Text]: the string operations of the standard library these files use;
    - [Schema]: [schema.rs] and [resolved_models.rs], authored and resolved models;
    - [Resolver], [ResolverProps]: [resolver.rs];
    - [InterfaceSummary]: [interface_summary.rs], what a unit exports and imports;
    - [LinkVerify], [LinkVerifyProps]: [link_verify.rs], the checks of a unit and
      of the linked model, with the graph search in [LinkGraph];
    - [Lowering], [LoweringProps]: [lowering.rs] and the part of
      [compiler_core.rs] that builds the condition model; [ParseContext] has what
      the parser does with texts put together from parts.

    Packages, objects and links ([compiler/src/]):
    - [SummaryProps]: what [summarize] collects, whatever the hash order;
    - [Ir], [IrProps]: [ir.rs] and [ingest_merge.rs], chunks, their addresses, the
      index and the integrity check;
    - [Ingest], [IngestProps]: the [Compiler] of [compiler_core.rs] and the package
      writer of [link_emit.rs];
    - [Object]: [object.rs], [object_compile.rs] and [link_lock.rs];
    - [Link], [LinkProps]: [link.rs] and [link_load.rs];
    - [LinkModel]: the merged summaries and headers describe the repository;
    - [EndToEnd]: ingestion, verification, lowering, emission and the solver's
      reader together;
    - [Reverify]: [verify_ir_dir] of [compiler_core.rs].

    The emitter ([compiler/src/ccm_emitter.rs] and [ccm_emitter/]):
    - [VarOrder]: [var_order.rs], the variable-order heuristics;
    - [Partitioner]: [partitioner.rs], the size-capped union-find;
    - [Bdd]: [bdd.rs], the diagram builder with its memo tables and its
      adaptation to memory pressure;
    - [BddLayout], [BddBytes]: [bdd.rs], the canonical node order and the bytes;
    - [Emitter]: [ccm_emitter.rs], lowering of conditions and the clause fold;
    - [Artifact]: [ccm_emitter.rs], the three files of a partition;
    - [MultiPartEmit], [MultiPartDisk]: [multi_part.rs], the directories of a
      partitioned model.

    The solver ([solver/src/]):
    - [CcmFormat]: [ccm_format.rs], the reader with its structural checks;
    - [MultiPart]: [ccm_multi_part.rs], [partition_manifest.rs] and [ccm.rs], the
      loader of a directory;
    - [Backend]: [backend.rs], the backend trait and the contract of a backend;
    - [CuddBackend]: [backend_cudd.rs] and [cudd_translate.rs], the CUDD backend;
    - [Session], [SessionProps]: [session.rs], [partition_session.rs] and
      [resolve.rs];
    - [SatBackend]: [sat_backend.rs], [sat_backend_batsat.rs], the SAT boundary;
    - [Mus]: the extraction of minimal unsatisfiable subsets of [explain.rs];
    - [Explain], [ExplainProps]: the rest of [explain.rs];
    - [SessionTrace]: what the formulas of a session have to do with the record
      of selections that explanations are computed from;
    - [MultiPartLoads]: emitter and loader together.

    The runtime ([compiler/src/runtime_api/]):
    - [Override]: [override_intent.rs] and [authority.rs], what becomes of an
      override at its end and who may do what;
    - [Runtime]: the data of [contracts.rs] and [shared_ops.rs], the snapshot with
      its normalization, validation, resets, events, log and identity;
    - [RuntimeOps]: [write_reset_ops.rs], writes, resets and reads;
    - [RuntimeCommit]: [commit_identity_ops.rs] and [lifecycle_driver_ops.rs];
    - [RuntimeSync]: [open_read_ops.rs], [sync_ops.rs] and [resolve_hash.rs];
    - [RuntimeProps], [RuntimeCommitProps], [RuntimeValid], [RuntimeSyncProps]:
      what the operations do to the values in effect, to the committed ones, to
      validity and between devices;
    - [RuntimeDemo], [RuntimeSyncDemo]: devices on which the theorems are applied.

    Packages in use ([compiler/src/loader_api/], [session_compose/src/lib.rs],
    [runtime/src/]):
    - [Attribution]: [unsat_attribution.rs], the declared constraints that a core
      is blamed on;
    - [CcmLoad]: finding the model of a package ([ccm.rs], [ccm_format.rs]);
    - [Enforce], [EnforceProps], [EnforceDemo]: [solver_validation.rs] and
      [write_enforcement.rs], and the conversion of cores of [lib.rs];
    - [Loader]: [open_model_ops.rs], [selection_ops.rs], [resolve_ops.rs] and the
      part of [shared_ops.rs] they use;
    - [LoaderProps], [LoaderAgree], [LoaderResolve]: selection states, the two
      models of a package, and resolution;
    - [LoaderOpen], [LoaderPackage], [LoaderDemo]: the loader between compiler and
      runtime;
    - [Compose]: the commands options, select, resolve and explain of [lib.rs];
    - [ComposeProps], [ComposeResolve], [ComposeExplain], [ComposeDemo]: what they
      guarantee over a model of one partition, the only kind they use.

    Rust's [Result] is the type [result] below, with its own error type per
    component; a panic is an error value of its own ([IndexPanic] and the like),
    so that theorems say that it does not happen.  Mutable state is passed
    explicitly.  A [u8] is an [ascii], wider integers are [N] with their
    wrap-around written out where the source casts.  Ordered maps and sets are
    stdpp's, read out in byte order.

    A Rust [HashMap] whose iteration order the code lets show is read through
    the class [HashOrder], any order of the entries; theorems hold for all.

    ** What is proved

    - Models.  Verification accepts only well-formed models and its refusals
      name real faults ([verify_complete_model_sound],
      [component_dependencies_decided], [definition_inheritance_decided]);
      resolution is exact and does not depend on hash order ([resolve_exact]),
      keeps declared metadata ([parameter_not_downgraded]) and is closed under
      dependencies in a verified model, when the selection binds the tags of the
      conditions and no dependency compares more than one pair of facets
      ([resolved_closed]).
    - Pipeline.  For sources that are ingested and verified, the table the solver
      reads holds at a selection exactly when what the sources declare does
      ([sources_to_table]).  Synthesized texts parse as what they are written for
      ([introduction_parses]).
    - Packages.  Ingestion accepts exactly the sources that fit together and does
      not depend on their order ([ingest_exact]), the identity of a package is
      that of its contents ([identity_of_contents]), a package that is written is
      accepted when it is checked again ([written_package_reverified]), and that
      check accepts exactly the coherent packages ([reverify_exact]).
    - Links.  The header stage accepts exactly the sets of objects that fit
      together ([link_accepts_exact]), splitting a model into units changes
      neither the checks of the merged declarations nor the constraint model, up
      to the order of its symbol clauses ([split_into_units]), a loaded
      header is the one its bodies give ([header_matches_bodies]) and a lockfile
      pins its set ([lock_pins_set]).
    - Meaning.  The bytes the emitter writes denote the conjunction of the
      model's conditions ([emission_denotes_model]); what is emitted is accepted
      by the loader ([artifact_loads]), and the partitions of a multi-part model
      together mean the model ([multi_part_means_model]).
    - Diagrams.  In every state it reaches the builder is canonical, and its
      operations are total and correct up to a full node table; memory pressure
      and memo caps change neither diagrams nor bytes ([bdd_canonical],
      [serialize_canonical], [emission_resource_independent]); the reader accepts
      what the writer writes and only canonical tables.
    - Partitioning.  The partitioner ends, loses no clause or variable, respects
      its size cap, and clusters without a bridge are independent.
    - Sessions.  Operations refine an abstract session of Boolean functions;
      [apply] is atomic; [retract] undoes it; valid options are exact per
      partition; [resolve] chooses among them.  The session is generic in the
      backend and proved against its contract, which the CUDD backend meets.
    - Explanations.  In every reachable session they are exact for the whole
      model and minimal, and confirm every conflict.
    - Runtime.  A write is in effect at its path and nowhere else and is refused
      only for its own faults ([set_parameter_in_effect], [write_refused_only]); a
      commit publishes the values in effect under a new identity, with a manifest
      of exactly the paths that changed ([commit_publishes]); a rollback restores the committed values
      ([rollback_restores]); the lifecycle driver never ends a compensating
      override ([driver_spares_compensating]), the resets of the other operations
      do ([resets_ignore_intent]); snapshots stay valid ([driver_keeps_valid]); a
      pull commits what it carries ([pull_in_effect]), so that devices with the
      same identity agree as long as SHA-256 tells apart the texts hashed for
      them ([replicas_agree]), and the log is uploaded once and in
      order ([push_uploads_in_order]).
    - Enforcement.  A write or commit is accepted only when the facet values then
      known contradict nothing in the model ([enforcement_decides],
      [accepted_write_satisfiable]); a snapshot is opened only with the model it
      is bound to ([open_has_model]); a constraint is named only when every
      configuration that a clause of the core forbids breaks it
      ([attribution_sound]).
    - Loader.  What the compiler writes, the loader opens
      ([emitted_package_opens]); a state it makes passes its own checks
      ([applied_state_accepted]), the options it lists are those it applies
      ([options_are_applicable]), the models for selecting and for resolving
      report the same violation ([same_first_violation]), a resolution obeys every
      constraint ([resolution_lawful]), and the runtime opens it
      ([resolved_opens]).
    - Commands.  Options are exactly those some configuration of the model has
      with the state ([composed_options_exact]), an accepted selection of a facet
      of the model has one ([composed_selection_satisfiable]), explanations agree
      with both ([composed_explanation_exact]); a resolution is of a state that
      has one, unless the model has none and the state names nothing in it, and
      adds only values that are forced ([composed_resolution]); the inference of
      those ends ([inference_ends]).
    - Conditions.  The two evaluators agree, printing and parsing are inverse up
      to the association of chains, and the expansions and searches keep and
      decide the meaning of conditions.

    ** Fuel and bounds

    Recursion that is not structural runs on fuel and running out is an error;
    the totality theorems show that the fuel the definitions pass is enough
    ([parse_condition_expr_total], [and_or_correct], [partition_total],
    [emission_total], [explain_rejection_exact], [inference_ends]).  Diagram operations run on a
    measure of the levels, parsers on the length of the text, walks over tables
    on the length of the table, whose children come before their parents.
    Emission theorems ask for fewer nodes and variables than a [u32] counts and
    for files below [2^30] bytes, far beyond what the emitter's own limits allow.

    ** Parameters

    SHA-256, [serde_json] and the TOML reader (with the round trip of the
    printing and reading of the structs at hand where a theorem needs it; classes
    [IrCodec] and [ObjectCodec] for packages and objects, [RuntimeCodec] and
    [SyncCodec] for the runtime, [CcmCodec] for compiled models, [LoaderCodec] for
    the loader), the clock, the CUDD library, the [batsat] SAT solver, the readings
    of the memory sampler and the contents of the disk are arguments; what is
    assumed of CUDD and [batsat] is a class with a concrete instance that meets
    it (the verified builder of [Bdd], and a solver that tries every assignment).

    ** Not modelled

    Progress reports, timings and telemetry of the emitter; the OxiDD backend and
    CUDD construction inside the compiler (wrappers of third-party diagrams); the
    grammars of JSON and TOML; the provenance sidecar of an object and the choice
    of an emitter entry point for a resource budget ([emit_ccm_sibling]); the
    texts of messages and the envelopes of the runtime, loader and command
    results, and the provenance lineage of rejections; the headers and the
    software bill of materials that the loader exports; the request handling and
    rendering of the product API and of the command-line tools. *)
From Stdlib Require Ascii.
Export Ascii (ascii(..), N_of_ascii, ascii_of_N).
Export (notations) Ascii.
From stdpp Require Export base numbers list gmap strings sorting fin_maps.

(** ** Notations *)

Declare Scope cfx_scope.
Delimit Scope cfx_scope with cfx.

(** ** Rust's [Result]

    [result E A] is Rust's [Result<A, E>].  The [MRet]/[MBind]/[FMap]
    instances give it stdpp's monadic notation, so that [x ← m; k] reads as
    Rust's [let x = m?; k]. *)

Inductive result (E A : Type) : Type :=
  | Ok (a : A)
  | Err (e : E).
Arguments Ok {_ _} _.
Arguments Err {_ _} _.

#[export] Instance result_ret E : MRet (result E) := λ A a, Ok a.
#[export] Instance result_bind E : MBind (result E) := λ A B f m,
  match m with Ok a => f a | Err e => Err e end.
#[export] Instance result_fmap E : FMap (result E) := λ A B f m,
  match m with Ok a => Ok (f a) | Err e => Err e end.

(** [.map_err(f)] and [ok_or]. *)
Definition map_err {E F A} (f : E → F) (m : result E A) : result F A :=
  match m with Ok a => Ok a | Err e => Err (f e) end.

Definition ok_or {E A} (o : option A) (e : E) : result E A :=
  match o with Some a => Ok a | None => Err e end.

(** [iter().map(f).collect::<Result<Vec<_>>>()]: left to right, stopping at
    the first error. *)
Fixpoint collect_results {E A B} (f : A → result E B) (l : list A)
    : result E (list B) :=
  match l with
  | [] => Ok []
  | a :: l => b ← f a; bs ← collect_results f l; Ok (b :: bs)
  end.

Lemma bind_Ok {E A B} (m : result E A) (f : A → result E B) b :
  (m ≫= f) = Ok b ↔ ∃ a, m = Ok a ∧ f a = Ok b.
Proof. destruct m; cbn; naive_solver. Qed.

Lemma bind_Some_iff {A B} (m : option A) (f : A → option B) b :
  (m ≫= f) = Some b ↔ ∃ a, m = Some a ∧ f a = Some b.
Proof. destruct m; cbn; naive_solver. Qed.

Lemma collect_results_Ok {E A B} (f : A → result E B) l bs :
  collect_results f l = Ok bs ↔ Forall2 (λ a b, f a = Ok b) l bs.
Proof.
  revert bs. induction l as [|a l IH]; intros bs; cbn.
  - split; [intros [= <-]; constructor | by inversion 1].
  - rewrite bind_Ok. split.
    + intros (b & Hb & (bs' & Hbs & [= <-])%bind_Ok).
      constructor; [done|]. by apply IH.
    + inversion 1; subst. eexists; split; [done|]. cbn.
      apply bind_Ok. eexists; split; [by apply IH|done].
Qed.

(** ** Strings and bytes

    A Rust [&str] is the sequence of its UTF-8 bytes: [string] here, with
    [bytes_of] for [as_bytes]. *)

Definition bytes_of (s : string) : list ascii := String.list_ascii_of_string s.
Definition string_of (l : list ascii) : string := String.string_of_list_ascii l.

Lemma string_of_bytes_of s : string_of (bytes_of s) = s.
Proof. apply String.string_of_list_ascii_of_string. Qed.
Lemma bytes_of_string_of l : bytes_of (string_of l) = l.
Proof. apply String.list_ascii_of_string_of_list_ascii. Qed.
Lemma bytes_of_app s t : bytes_of (s +:+ t) = bytes_of s ++ bytes_of t.
Proof.
  induction s as [|c s IH]; [done|].
  change (c :: bytes_of (s +:+ t) = c :: (bytes_of s ++ bytes_of t)). by rewrite IH.
Qed.

#[export] Instance bytes_of_inj : Inj (=) (=) bytes_of.
Proof. intros s t H. by rewrite <-(string_of_bytes_of s), H, string_of_bytes_of. Qed.

(** The number of leading elements that satisfy [p]: how far the source's
    [while i < len && p(bytes[i]) { i += 1 }] loops advance. *)
Fixpoint scan {A} (p : A → bool) (l : list A) : nat :=
  match l with
  | a :: l => if p a then S (scan p l) else 0
  | [] => 0
  end.

Lemma scan_le {A} (p : A → bool) l : scan p l ≤ length l.
Proof. induction l as [|a l IH]; cbn; [lia|]. destruct (p a); cbn; lia. Qed.

Lemma scan_app_stop {A} (p : A → bool) l a l' :
  Forall p l → p a = false → scan p (l ++ a :: l') = length l.
Proof.
  intros Hl Ha. induction Hl as [|b l Hb _ IH]; cbn; [by rewrite Ha|].
  apply Is_true_true in Hb. by rewrite Hb, IH.
Qed.

Lemma scan_all {A} (p : A → bool) l : Forall p l → scan p l = length l.
Proof.
  induction 1 as [|b l Hb _ IH]; cbn; [done|].
  apply Is_true_true in Hb. by rewrite Hb, IH.
Qed.

Lemma scan_stop {A} (p : A → bool) l a :
  l !! (scan p l) = Some a → p a = false.
Proof.
  induction l as [|b l IH]; cbn; [done|].
  destruct (p b) eqn:E; cbn; [done|]. by intros [= ->].
Qed.

Lemma scan_take {A} (p : A → bool) l : Forall p (take (scan p l) l).
Proof.
  induction l as [|b l IH]; cbn; [constructor|].
  destruct (p b) eqn:E; cbn; constructor; [by rewrite E|done].
Qed.

(** [&bytes[s..e]]. *)
Definition slice {A} (l : list A) (s e : nat) : list A := take (e - s) (drop s l).

(** UTF-8 validity, the check of [std::str::from_utf8]. *)
Definition utf8_cont (a : ascii) : bool :=
  let b := N_of_ascii a in ((128 <=? b) && (b <=? 191))%N.

Definition byte_in (lo hi : N) (a : ascii) : bool :=
  let b := N_of_ascii a in ((lo <=? b) && (b <=? hi))%N.

Fixpoint utf8_valid (l : list ascii) : bool :=
  match l with
  | [] => true
  | a :: r =>
      if byte_in 0 127 a then utf8_valid r
      else if byte_in 194 223 a then
        match r with b :: r => utf8_cont b && utf8_valid r | _ => false end
      else if byte_in 224 239 a then
        match r with
        | b :: c :: r =>
            (if byte_in 224 224 a then byte_in 160 191 b
             else if byte_in 237 237 a then byte_in 128 159 b
             else utf8_cont b)
            && utf8_cont c && utf8_valid r
        | _ => false
        end
      else if byte_in 240 244 a then
        match r with
        | b :: c :: d :: r =>
            (if byte_in 240 240 a then byte_in 144 191 b
             else if byte_in 244 244 a then byte_in 128 143 b
             else utf8_cont b)
            && utf8_cont c && utf8_cont d && utf8_valid r
        | _ => false
        end
      else false
  end.

(** [std::str::from_utf8(l).ok().map(|s| s.to_string())]. *)
Definition from_utf8 (l : list ascii) : option string :=
  if utf8_valid l then Some (string_of l) else None.

Lemma utf8_valid_ascii l : Forall (byte_in 0 127) l → utf8_valid l = true.
Proof.
  induction 1 as [|a l Ha _ IH]; cbn; [done|].
  apply Is_true_true in Ha. by rewrite Ha.
Qed.

Lemma from_utf8_ascii l :
  Forall (byte_in 0 127) l → from_utf8 l = Some (string_of l).
Proof. intros H. unfold from_utf8. by rewrite utf8_valid_ascii. Qed.

(** ** Ordered collections

    [BTreeSet<K>] is [gset K] and [BTreeMap<K, V>] is [gmap K V]; their
    iteration order, ascending by key, is the sort of the elements. *)

Definition string_sort (l : list string) : list string := merge_sort String.le l.

Definition bt_elements (s : gset string) : list string := string_sort (elements s).

Lemma elem_of_bt_elements s x : x ∈ bt_elements s ↔ x ∈ s.
Proof.
  unfold bt_elements, string_sort.
  rewrite (merge_sort_Permutation String.le). apply elem_of_elements.
Qed.

Lemma NoDup_bt_elements s : NoDup (bt_elements s).
Proof.
  unfold bt_elements, string_sort.
  rewrite (merge_sort_Permutation String.le). apply NoDup_elements.
Qed.

(** ** Proof automation *)

(** Take apart a hypothesis that says a chain of binds succeeded. *)
Ltac inv_ok :=
  repeat match goal with
  | H : mbind _ _ = Ok _ |- _ => apply bind_Ok in H as (? & ? & H)
  | H : mbind _ _ = Some _ |- _ => apply bind_Some_iff in H as (? & ? & H)
  | H : Ok _ = Ok _ |- _ => injection H as H; subst
  | H : Some _ = Some _ |- _ => injection H as H; subst
  | H : Err _ = Ok _ |- _ => discriminate H
  | H : Ok _ = Err _ |- _ => discriminate H
  | H : None = Some _ |- _ => discriminate H
  | H : Some _ = None |- _ => discriminate H
  | p : _ * _ |- _ => destruct p; cbn [fst snd] in *
  | H : (let '(_, _) := (_, _) in _) = _ |- _ => cbn beta iota in H
  | H : (let '(_, _) := ?x in _) = _ |- _ => destruct x eqn:?; cbn beta iota in H
  end.

(** Split on the scrutinee of a [match] or [if] in a hypothesis. *)
Ltac case_hyp H :=
  match type of H with
  | context [match ?x with _ => _ end] => destruct x eqn:?
  end.

Create HintDb cfx discriminated.
#[export] Hint Resolve scan_le : cfx.

Lemma bind_Err {E A B} (m : result E A) (f : A → result E B) e :
  (m ≫= f) = Err e ↔ m = Err e ∨ ∃ a, m = Ok a ∧ f a = Err e.
Proof. destruct m; cbn; naive_solver. Qed.

(** Take apart a hypothesis that says a chain of binds failed. *)
Ltac inv_err :=
  repeat match goal with
  | H : mbind _ _ = Err _ |- _ => apply bind_Err in H as [H | (? & ? & H)]
  | p : _ * _ |- _ => destruct p; cbn [fst snd] in *
  | H : (let '(_, _) := (_, _) in _) = _ |- _ => cbn beta iota in H
  | H : Ok _ = Err _ |- _ => discriminate H
  | H : Err _ = Err _ |- _ => injection H as H; subst
  end.

(** ** List predicates that agree pointwise *)

Section Congruence.
Context {A : Type} (f g : A → bool).

Lemma existsb_cong l : Forall (λ a, f a = g a) l → existsb f l = existsb g l.
Proof. induction 1 as [|a l H _ IH]; cbn; [done|]. by rewrite H, IH. Qed.

Lemma forallb_cong l : Forall (λ a, f a = g a) l → forallb f l = forallb g l.
Proof. induction 1 as [|a l H _ IH]; cbn; [done|]. by rewrite H, IH. Qed.

Lemma filter_cong l : Forall (λ a, f a = g a) l → List.filter f l = List.filter g l.
Proof. induction 1 as [|a l H _ IH]; cbn; [done|]. by rewrite H, IH. Qed.
End Congruence.

Lemma elem_of_flat_map {A B} (f : A → list B) l y :
  y ∈ flat_map f l ↔ ∃ x, x ∈ l ∧ y ∈ f x.
Proof.
  rewrite list_elem_of_In, in_flat_map.
  setoid_rewrite list_elem_of_In. naive_solver.
Qed.

Lemma forallb_elem {A} (f : A → bool) l : forallb f l = true ↔ ∀ x, x ∈ l → f x = true.
Proof. rewrite forallb_forall. by setoid_rewrite list_elem_of_In. Qed.

Lemma Forall_flat_map {A B} (P : B → Prop) (f : A → list B) l :
  Forall P (flat_map f l) ↔ Forall (λ a, Forall P (f a)) l.
Proof.
  rewrite !Forall_forall. setoid_rewrite Forall_forall.
  setoid_rewrite elem_of_flat_map. naive_solver.
Qed.

Lemma Forall2_elem_impl {A B} (P Q : A → B → Prop) l k :
  Forall2 P l k → (∀ x y, x ∈ l → P x y → Q x y) → Forall2 Q l k.
Proof. induction 1; intros HQ; constructor; [|apply IHForall2; intros]; apply HQ; set_solver. Qed.

Lemma forallb_same_elements {A} (f : A → bool) l k :
  (∀ x, x ∈ l ↔ x ∈ k) → forallb f l = forallb f k.
Proof. intros H. apply eq_true_iff_eq. rewrite !forallb_elem. by setoid_rewrite H. Qed.

Lemma map_err_Ok {E F A} (f : E → F) (m : result E A) a : map_err f m = Ok a → m = Ok a.
Proof. destruct m; cbn; congruence. Qed.

Lemma collect_results_total {E A C} (f : A → result E C) (P : E → Prop) l :
  Forall (λ a, match f a with Ok _ => True | Err e => P e end) l →
  match collect_results f l with Ok ys => Forall2 (λ a y, f a = Ok y) l ys | Err e => P e end.
Proof.
  induction 1 as [|a l Ha _ IH]; cbn; [constructor|]. destruct (f a) as [y|e] eqn:Ef; cbn; [|done].
  destruct (collect_results f l) as [ys|e]; cbn; [|done]. by constructor.
Qed.

Lemma forallb_elem_false {A} (f : A → bool) l :
  forallb f l = false → ∃ x, x ∈ l ∧ f x = false.
Proof.
  induction l as [|a l IH]; cbn; [done|]. destruct (f a) eqn:E; cbn.
  - intros (x & ? & ?)%IH. exists x. set_solver.
  - intros _. exists a. set_solver.
Qed.

(** ** Pairs of distinct positions

    The [(i, j)] with [i < j] that two nested loops enumerate, as the pairs of
    elements at those positions. *)
Fixpoint index_pairs {A} (l : list A) : list (A * A) :=
  match l with
  | [] => []
  | a :: l => ((λ b, (a, b)) <$> l) ++ index_pairs l
  end.

Lemma index_pairs_fmap {A B} (f : A → B) l :
  index_pairs (f <$> l) = prod_map f f <$> index_pairs l.
Proof.
  induction l as [|a l IH]; cbn; [done|]. rewrite fmap_app, IH. f_equal.
  by rewrite <-!list_fmap_compose.
Qed.

(** Exactly one element is true iff one is and no two are. *)
Lemma exactly_one_pairs (l : list bool) :
  (length (List.filter id l) =? 1) =
  existsb id l && forallb (λ '(a, b), negb (a && b)) (index_pairs l).
Proof.
  assert (Hm : ∀ (a : bool) l, forallb (λ '(a, b), negb (a && b)) ((λ b, (a, b)) <$> l) =
    negb (a && existsb id l)).
  { clear. intros a l. induction l as [|b l IH]; cbn; [by destruct a|].
    rewrite IH. by destruct a, b. }
  assert (Hz : ∀ l, (length (List.filter id l) =? 0) = negb (existsb id l)).
  { clear. induction l as [|b l IH]; cbn; [done|]. by destruct b. }
  induction l as [|a l IH]; cbn [index_pairs existsb List.filter id]; [done|].
  rewrite forallb_app, Hm. destruct a; cbn.
  - rewrite Hz. destruct (existsb id l) eqn:E; cbn; [done|].
    symmetry. clear -E. induction l as [|b l IH]; cbn in *; [done|].
    destruct b; cbn in E; [done|].
    rewrite forallb_app, IH by done. clear. rewrite andb_true_r.
    induction l; cbn; done.
  - by rewrite IH.
Qed.

(** ** Boolean list functions under [map] *)

Section BoolMap.
Context {A B : Type} (f : A → B) (p : B → bool).

Lemma existsb_mapped l : existsb p (map f l) = existsb (λ a, p (f a)) l.
Proof. induction l as [|a l IH]; cbn; [done|]. by rewrite IH. Qed.
Lemma forallb_mapped l : forallb p (map f l) = forallb (λ a, p (f a)) l.
Proof. induction l as [|a l IH]; cbn; [done|]. by rewrite IH. Qed.
Lemma length_filter_mapped l :
  length (List.filter p (map f l)) = length (List.filter (λ a, p (f a)) l).
Proof. induction l as [|a l IH]; cbn; [done|]. destruct (p (f a)); cbn; by rewrite IH. Qed.
End BoolMap.

(** ** A list seen from a cursor *)

Section Cursor.
Context {A : Type} (bs : list A).

Lemma drop_lookup idx b r : drop idx bs = b :: r → bs !! idx = Some b.
Proof. intros H. rewrite <-(Nat.add_0_r idx), <-lookup_drop, H. done. Qed.

Lemma drop_move idx s r : drop idx bs = s ++ r → drop (idx + length s) bs = r.
Proof. intros H. rewrite <-drop_drop, H. apply drop_app_length. Qed.

Lemma drop_step idx b r : drop idx bs = b :: r → drop (S idx) bs = r.
Proof.
  intros H. apply (drop_move idx [b]) in H. cbn in H. by rewrite Nat.add_1_r in H.
Qed.

Lemma drop_len idx s r : drop idx bs = s ++ r → length s + length r = length bs - idx.
Proof. intros H. by rewrite <-length_app, <-H, length_drop. Qed.

End Cursor.
