(* ===== verification/Tokens.v ===== *)
(** * The shared tokeniser

    Models [compiler/src/conditions/mod.rs]: the predicate and operator types
    and the tokeniser primitives that both the typed parser ([Ast]) and the
    string evaluator ([Eval]) call.  A primitive that takes [idx: &mut usize]
    returns the new cursor, also when it reports failure. *)
From S2P Require Import Prelude.

(** ** Data *)

Inductive ConditionPredicateOp : Type := OpEq | OpNotEq.
Inductive AtomOp : Type := AtomEq | AtomNotEq.

Record ConditionPredicate : Type := mkPredicate {
  p_tag : string;
  p_op : ConditionPredicateOp;
  p_value : string;
}.

Record ConditionAtom : Type := mkAtom {
  a_tag : string;
  a_op : AtomOp;
  a_value : string;
}.

#[export] Instance ConditionPredicateOp_eq_dec : EqDecision ConditionPredicateOp.
Proof. solve_decision. Defined.
#[export] Instance AtomOp_eq_dec : EqDecision AtomOp.
Proof. solve_decision. Defined.
#[export] Instance ConditionPredicate_eq_dec : EqDecision ConditionPredicate.
Proof. solve_decision. Defined.

Definition to_public_op (op : AtomOp) : ConditionPredicateOp :=
  match op with AtomEq => OpEq | AtomNotEq => OpNotEq end.

Definition to_public_atom (atom : ConditionAtom) : ConditionPredicate :=
  {| p_tag := a_tag atom; p_op := to_public_op (a_op atom); p_value := a_value atom |}.

(** The errors of the two recursive-descent parsers: one constructor per
    [bail!]/[with_context] site, with the position or name the message
    carries.  [OutOfFuel] is the model's own and never the outcome of the
    entry points ([Ast.parse_total], [Eval.eval_total_fuel]). *)
Inductive cond_error : Type :=
  | OutOfFuel
  | UnexpectedTrailing (pos : nat)
  | UnexpectedEnd
  | MissingCloseParen (pos : nat)
  | Unterminated (kw : string) (pos : nat)
  | TrailingComma (kw : string) (pos : nat)
  | ExpectedCommaOrParen (kw : string) (pos : nat) (found : ascii)
  | TooFewArgs (kw : string) (n : nat)
  | ExpectedIdentifier (pos : nat)
  | ExpectedOperator (pos : nat)
  | ExpectedRhs (pos : nat)
  | MissingTag (tag : string).

(** ** Primitives *)

Definition is_ascii_whitespace (b : ascii) : bool :=
  match b with
  | "009" | "010" | "012" | "013" | " " => true
  | _ => false
  end%char.

Definition is_ident_start (b : ascii) : bool := byte_in 97 122 b.

Definition is_ident_char (b : ascii) : bool :=
  byte_in 97 122 b || byte_in 48 57 b || Ascii.eqb b "_"%char.

Definition at_byte (bs : list ascii) (idx : nat) (c : ascii) : bool :=
  match bs !! idx with Some b => Ascii.eqb b c | None => false end.

Definition skip_ws (bs : list ascii) (idx : nat) : nat :=
  idx + scan is_ascii_whitespace (drop idx bs).

Definition parse_ident (bs : list ascii) (idx : nat) : option string * nat :=
  match bs !! idx with
  | Some b =>
      if is_ident_start b then
        let e := S idx + scan is_ident_char (drop (S idx) bs) in
        (from_utf8 (slice bs idx e), e)
      else (None, idx)
  | None => (None, idx)
  end.

Definition parse_operator (bs : list ascii) (idx : nat) : option AtomOp * nat :=
  if at_byte bs idx "="%char && at_byte bs (S idx) "="%char
  then (Some AtomEq, idx + 2)
  else if at_byte bs idx "!"%char && at_byte bs (S idx) "="%char
  then (Some AtomNotEq, idx + 2)
  else (None, idx).

Definition parse_quoted_literal (bs : list ascii) (idx : nat) : option string * nat :=
  match bs !! idx with
  | Some quote =>
      if Ascii.eqb quote "'"%char || Ascii.eqb quote "034"%char then
        let start := S idx in
        let e := start + scan (λ b, negb (Ascii.eqb b quote)) (drop start bs) in
        match bs !! e with
        | None => (None, e)
        | Some _ =>
            match from_utf8 (slice bs start e) with
            | Some value => (Some value, S e)
            | None => (None, e)
            end
        end
      else (None, idx)
  | None => (None, idx)
  end.

Definition consume_op2 (bs : list ascii) (idx : nat) (a b : ascii) : bool * nat :=
  if at_byte bs idx a && at_byte bs (S idx) b then (true, idx + 2) else (false, idx).

Definition starts_with_keyword (bs : list ascii) (idx : nat) (kw : string) : bool :=
  let k := bytes_of kw in
  bool_decide (idx + length k ≤ length bs)
  && bool_decide (slice bs idx (idx + length k) = k)
  && match bs !! (idx + length k) with
     | Some b => negb (is_ident_char b)
     | None => true
     end.

Definition try_consume_bool_literal (bs : list ascii) (idx : nat) : option (bool * nat) :=
  if starts_with_keyword bs idx "true" then Some (true, idx + 4)
  else if starts_with_keyword bs idx "false" then Some (false, idx + 5)
  else None.

#[global] Arguments at_byte : simpl never.
#[global] Arguments skip_ws : simpl never.
#[global] Arguments parse_ident : simpl never.
#[global] Arguments parse_operator : simpl never.
#[global] Arguments parse_quoted_literal : simpl never.
#[global] Arguments consume_op2 : simpl never.
#[global] Arguments starts_with_keyword : simpl never.
#[global] Arguments try_consume_bool_literal : simpl never.

(** ** Cursor bounds

    Every primitive moves the cursor forward and never past the end. *)

Section Cursor.
Context (bs : list ascii).

Lemma at_byte_lt idx c : at_byte bs idx c = true → idx < length bs.
Proof.
  unfold at_byte. destruct (bs !! idx) eqn:E; [|done].
  intros _. by eapply lookup_lt_Some.
Qed.

Lemma skip_ws_bounds idx :
  idx ≤ skip_ws bs idx ∧ (idx ≤ length bs → skip_ws bs idx ≤ length bs).
Proof.
  unfold skip_ws. pose proof (scan_le is_ascii_whitespace (drop idx bs)) as H.
  rewrite length_drop in H. lia.
Qed.

Lemma parse_ident_bounds idx s e :
  parse_ident bs idx = (Some s, e) → idx < e ∧ e ≤ length bs.
Proof.
  unfold parse_ident. destruct (bs !! idx) as [b|] eqn:E; [|done].
  destruct (is_ident_start b); [|done]. intros [= _ <-].
  apply lookup_lt_Some in E.
  pose proof (scan_le is_ident_char (drop (S idx) bs)) as H.
  rewrite length_drop in H. lia.
Qed.

Lemma parse_operator_bounds idx op e :
  parse_operator bs idx = (Some op, e) → idx < e ∧ e ≤ length bs.
Proof.
  unfold parse_operator.
  repeat match goal with |- context [if ?c then _ else _] => destruct c eqn:? end;
    intros; simplify_eq; repeat match goal with
    | H : _ && _ = true |- _ => apply andb_prop in H as [? H]; apply at_byte_lt in H
    end; lia.
Qed.

Lemma parse_quoted_literal_bounds idx s e :
  parse_quoted_literal bs idx = (Some s, e) → idx < e ∧ e ≤ length bs.
Proof.
  unfold parse_quoted_literal. destruct (bs !! idx) as [q|] eqn:E; [|done].
  destruct (_ || _); [|done]. cbn zeta. clear E.
  destruct (bs !! _) as [b|] eqn:Hq; [|done].
  apply lookup_lt_Some in Hq. destruct (from_utf8 _); intros; simplify_eq; lia.
Qed.

(** Also when the literal is not terminated. *)
Lemma parse_quoted_literal_fwd idx r e :
  parse_quoted_literal bs idx = (r, e) → idx ≤ length bs → idx ≤ e ∧ e ≤ length bs.
Proof.
  unfold parse_quoted_literal. destruct (bs !! idx) as [q|] eqn:E;
    [|intros [= _ <-]; lia].
  destruct (_ || _); [|intros [= _ <-]; lia]. cbn zeta.
  apply lookup_lt_Some in E. intros H Hi.
  pose proof (scan_le (λ b, negb (Ascii.eqb b q)) (drop (S idx) bs)) as Hs.
  rewrite length_drop in Hs.
  destruct (bs !! _) as [b|] eqn:Hq; [apply lookup_lt_Some in Hq|];
    [destruct (from_utf8 _)|]; injection H as _ <-; lia.
Qed.

Lemma consume_op2_true idx a b e :
  consume_op2 bs idx a b = (true, e) → e = idx + 2 ∧ e ≤ length bs.
Proof.
  unfold consume_op2. destruct (_ && _) eqn:E; intros [= <-].
  apply andb_prop in E as [_ E%at_byte_lt]. lia.
Qed.

Lemma consume_op2_false idx a b e :
  consume_op2 bs idx a b = (false, e) → e = idx.
Proof. unfold consume_op2. destruct (_ && _); by intros [= <-]. Qed.

Lemma starts_with_keyword_bounds idx kw :
  starts_with_keyword bs idx kw = true → idx + length (bytes_of kw) ≤ length bs.
Proof.
  unfold starts_with_keyword. intros [[H _]%andb_prop _]%andb_prop.
  by apply bool_decide_eq_true in H.
Qed.

Lemma try_consume_bool_literal_bounds idx v e :
  try_consume_bool_literal bs idx = Some (v, e) → idx < e ∧ e ≤ length bs.
Proof.
  unfold try_consume_bool_literal.
  repeat match goal with |- context [if ?c then _ else _] => destruct c eqn:? end;
    intros; simplify_eq; repeat match goal with
    | H : starts_with_keyword _ _ _ = true |- _ =>
        apply starts_with_keyword_bounds in H; cbn in H
    end; lia.
Qed.

End Cursor.

(** ** What an identifier is: [[a-z][a-z0-9_]*]. *)

Definition is_identifier (s : string) : bool :=
  match bytes_of s with
  | b :: r => is_ident_start b && forallb is_ident_char r
  | [] => false
  end.

Lemma ident_char_ascii b : is_ident_char b → byte_in 0 127 b.
Proof. destruct b as [[] [] [] [] [] [] [] []]; vm_compute; tauto. Qed.

Lemma ident_start_char b : is_ident_start b → is_ident_char b.
Proof. destruct b as [[] [] [] [] [] [] [] []]; vm_compute; tauto. Qed.

Lemma is_identifier_chars s : is_identifier s → Forall is_ident_char (bytes_of s).
Proof.
  unfold is_identifier. destruct (bytes_of s) as [|b r]; [done|].
  intros [H1 H2]%andb_True. constructor; [by apply ident_start_char|].
  apply Forall_forall. intros x Hx. apply Is_true_true in H2.
  rewrite forallb_forall in H2. apply Is_true_true, H2. by apply list_elem_of_In.
Qed.

Lemma parse_ident_identifier bs idx s e :
  parse_ident bs idx = (Some s, e) → is_identifier s.
Proof.
  unfold parse_ident. destruct (bs !! idx) as [b|] eqn:E; [|done].
  destruct (is_ident_start b) eqn:Hb; [|done]. cbn zeta. intros [= H <-].
  assert (Hs : slice bs idx (S idx + scan is_ident_char (drop (S idx) bs)) =
               b :: take (scan is_ident_char (drop (S idx) bs)) (drop (S idx) bs)).
  { unfold slice. rewrite (drop_S bs b idx) by done.
    replace (S idx + _ - idx) with (S (scan is_ident_char (drop (S idx) bs))) by lia.
    done. }
  cbn [Nat.add] in Hs. rewrite Hs in H. pose proof (scan_take is_ident_char (drop (S idx) bs)) as Ht.
  rewrite from_utf8_ascii in H.
  - apply (inj Some) in H as <-. unfold is_identifier. rewrite bytes_of_string_of, Hb. cbn.
    apply Is_true_true, forallb_forall. intros x Hx.
    rewrite Forall_forall in Ht. apply Is_true_true, Ht. by apply list_elem_of_In.
  - constructor; [by apply ident_char_ascii, ident_start_char; rewrite Hb|].
    eapply Forall_impl; [exact Ht|]. apply ident_char_ascii.
Qed.

Lemma skip_ws_idem bs idx : skip_ws bs (skip_ws bs idx) = skip_ws bs idx.
Proof.
  unfold skip_ws. set (k := scan is_ascii_whitespace (drop idx bs)).
  replace (drop (idx + k) bs) with (drop k (drop idx bs)) by (rewrite drop_drop; done).
  destruct (drop k (drop idx bs)) as [|b r] eqn:E; cbn; [lia|].
  assert (is_ascii_whitespace b = false) as ->; [|cbn; lia].
  apply (scan_stop _ (drop idx bs)). fold k.
  rewrite <-(Nat.add_0_r k), <-lookup_drop, E. done.
Qed.

(** A keyword at the cursor is exactly the identifier [parse_ident] reads. *)
Lemma keyword_ident bs idx kw :
  starts_with_keyword bs idx kw = true → is_identifier kw →
  parse_ident bs idx = (Some kw, idx + length (bytes_of kw)).
Proof.
  unfold starts_with_keyword. intros H Hid.
  apply andb_prop in H as [[H1%bool_decide_eq_true H2%bool_decide_eq_true]%andb_prop H3].
  set (k := bytes_of kw) in *. unfold slice in H2.
  replace (idx + length k - idx) with (length k) in H2 by lia.
  pose proof (take_drop (length k) (drop idx bs)) as Hd. rewrite H2, drop_drop in Hd.
  pose proof (is_identifier_chars kw Hid) as Hc. fold k in Hc.
  unfold is_identifier in Hid. fold k in Hid.
  destruct k as [|b r] eqn:Ek; [done|]. apply andb_True in Hid as [Hb _].
  assert (Hbi : bs !! idx = Some b).
  { rewrite <-(Nat.add_0_r idx), <-lookup_drop, <-Hd. done. }
  unfold parse_ident. rewrite Hbi. apply Is_true_true in Hb. rewrite Hb.
  assert (Hdr : drop (S idx) bs = r ++ drop (idx + S (length r)) bs).
  { rewrite (drop_S bs b idx Hbi) in Hd. cbn in Hd. by injection Hd. }
  inversion Hc as [|? ? Hcb Hcr]; subst.
  assert (Hs : scan is_ident_char (drop (S idx) bs) = length r).
  { rewrite Hdr. cbn [length] in H3.
    destruct (drop (idx + S (length r)) bs) as [|c t] eqn:Et.
    - rewrite app_nil_r. by apply scan_all.
    - apply scan_app_stop; [done|].
      assert (bs !! (idx + S (length r)) = Some c) as Hcs.
      { rewrite <-(Nat.add_0_r (idx + _)), <-lookup_drop, Et. done. }
      rewrite Hcs in H3. by apply negb_true_iff in H3. }
  rewrite Hs. cbn [length]. replace (S idx + length r) with (idx + S (length r)) by lia.
  f_equal. unfold slice. replace (idx + S (length r) - idx) with (S (length r)) by lia.
  cbn [length] in H2. rewrite H2, from_utf8_ascii.
  - f_equal. rewrite <-Ek. apply string_of_bytes_of.
  - eapply Forall_impl; [exact Hc|apply ident_char_ascii].
Qed.
