(* ===== verification/Ast.v ===== *)
(** * The typed condition AST and its recursive-descent parser

    Models [compiler/src/conditions/ast.rs].  The parser's methods on
    [&mut self] become functions of the cursor that return the new cursor;
    their mutual recursion and [loop]s run on fuel, and [parse_total] shows
    that the fuel [parse_condition_expr] supplies is never exhausted. *)
From S2P Require Import Prelude Tokens.

Inductive ConditionExpr : Type :=
  | Bool (b : bool)
  | Predicate (p : ConditionPredicate)
  | Not (e : ConditionExpr)
  | And (l r : ConditionExpr)
  | Or (l r : ConditionExpr)
  | AnyOf (args : list ConditionExpr)
  | AllOf (args : list ConditionExpr)
  | ExactlyOneOf (args : list ConditionExpr)
  | FacetCompare (left : string) (op : ConditionPredicateOp) (right : string).

(** The induction principle with a hypothesis for each cardinality argument. *)
Section ConditionExpr_ind.
Context (P : ConditionExpr → Prop).
Hypothesis HBool : ∀ b, P (Bool b).
Hypothesis HPred : ∀ p, P (Predicate p).
Hypothesis HNot : ∀ e, P e → P (Not e).
Hypothesis HAnd : ∀ l r, P l → P r → P (And l r).
Hypothesis HOr : ∀ l r, P l → P r → P (Or l r).
Hypothesis HAny : ∀ es, Forall P es → P (AnyOf es).
Hypothesis HAll : ∀ es, Forall P es → P (AllOf es).
Hypothesis HOne : ∀ es, Forall P es → P (ExactlyOneOf es).
Hypothesis HCmp : ∀ l o r, P (FacetCompare l o r).

Fixpoint ConditionExpr_ind' (e : ConditionExpr) : P e :=
  let go := fix go (es : list ConditionExpr) : Forall P es :=
    match es with
    | [] => Forall_nil_2 P
    | e :: es => Forall_cons_2 P e es (ConditionExpr_ind' e) (go es)
    end in
  match e with
  | Bool b => HBool b
  | Predicate p => HPred p
  | Not e => HNot e (ConditionExpr_ind' e)
  | And l r => HAnd l r (ConditionExpr_ind' l) (ConditionExpr_ind' r)
  | Or l r => HOr l r (ConditionExpr_ind' l) (ConditionExpr_ind' r)
  | AnyOf es => HAny es (go es)
  | AllOf es => HAll es (go es)
  | ExactlyOneOf es => HOne es (go es)
  | FacetCompare l o r => HCmp l o r
  end.
End ConditionExpr_ind.

Definition KEYWORDS : list string := ["any_of"; "all_of"; "exactly_one_of"].

(** The keyword the [for kw in KEYWORDS] loop of [try_parse_cardinality]
    stops at: both branches after the match return. *)
Definition find_keyword (bs : list ascii) (idx : nat) : option string :=
  List.find (starts_with_keyword bs idx) KEYWORDS.
#[global] Arguments find_keyword : simpl never.

(** The constructor a cardinality keyword denotes. *)
Definition cardinality_expr (kw : string) (args : list ConditionExpr) : ConditionExpr :=
  if decide (kw = "any_of") then AnyOf args
  else if decide (kw = "all_of") then AllOf args
  else ExactlyOneOf args.

Module AstParser.
Section Parser.
Context (bs : list ascii).

Definition parse_predicate (idx : nat) : result cond_error (ConditionExpr * nat) :=
  let idx := skip_ws bs idx in
  let start := idx in
  let '(tag, idx) := parse_ident bs idx in
  tag ← ok_or tag (ExpectedIdentifier start);
  let idx := skip_ws bs idx in
  let '(op, idx) := parse_operator bs idx in
  op ← ok_or op (ExpectedOperator idx);
  let idx := skip_ws bs idx in
  let '(value, idx) := parse_quoted_literal bs idx in
  match value with
  | Some value =>
      Ok (Predicate (to_public_atom {| a_tag := tag; a_op := op; a_value := value |}), idx)
  | None =>
      let rhs_start := idx in
      let '(rhs, idx) := parse_ident bs idx in
      rhs ← ok_or rhs (ExpectedRhs rhs_start);
      Ok (FacetCompare tag (to_public_op op) rhs, idx)
  end.

Fixpoint parse_or (fuel idx : nat) : result cond_error (ConditionExpr * nat) :=
  match fuel with
  | 0 => Err OutOfFuel
  | S fuel =>
      '(expr, idx) ← parse_and fuel idx;
      or_loop fuel expr idx
  end
with or_loop (fuel : nat) (expr : ConditionExpr) (idx : nat)
    : result cond_error (ConditionExpr * nat) :=
  match fuel with
  | 0 => Err OutOfFuel
  | S fuel =>
      let '(more, idx) := consume_op2 bs (skip_ws bs idx) "|"%char "|"%char in
      if more then
        '(rhs, idx) ← parse_and fuel idx;
        or_loop fuel (Or expr rhs) idx
      else Ok (expr, idx)
  end
with parse_and (fuel idx : nat) : result cond_error (ConditionExpr * nat) :=
  match fuel with
  | 0 => Err OutOfFuel
  | S fuel =>
      '(expr, idx) ← parse_unary fuel idx;
      and_loop fuel expr idx
  end
with and_loop (fuel : nat) (expr : ConditionExpr) (idx : nat)
    : result cond_error (ConditionExpr * nat) :=
  match fuel with
  | 0 => Err OutOfFuel
  | S fuel =>
      let '(more, idx) := consume_op2 bs (skip_ws bs idx) "&"%char "&"%char in
      if more then
        '(rhs, idx) ← parse_unary fuel idx;
        and_loop fuel (And expr rhs) idx
      else Ok (expr, idx)
  end
with parse_unary (fuel idx : nat) : result cond_error (ConditionExpr * nat) :=
  match fuel with
  | 0 => Err OutOfFuel
  | S fuel =>
      let idx := skip_ws bs idx in
      if at_byte bs idx "!"%char then
        if at_byte bs (S idx) "="%char then parse_primary fuel idx
        else '(e, idx) ← parse_unary fuel (S idx); Ok (Not e, idx)
      else parse_primary fuel idx
  end
with parse_primary (fuel idx : nat) : result cond_error (ConditionExpr * nat) :=
  match fuel with
  | 0 => Err OutOfFuel
  | S fuel =>
      let idx := skip_ws bs idx in
      if decide (length bs ≤ idx) then Err UnexpectedEnd
      else if at_byte bs idx "("%char then
        '(expr, idx) ← parse_or fuel (S idx);
        let idx := skip_ws bs idx in
        if at_byte bs idx ")"%char then Ok (expr, S idx) else Err (MissingCloseParen idx)
      else
        match try_consume_bool_literal bs idx with
        | Some (value, idx) => Ok (Bool value, idx)
        | None =>
            found ← try_parse_cardinality fuel idx;
            match found with
            | Some r => Ok r
            | None => parse_predicate idx
            end
        end
  end
with try_parse_cardinality (fuel idx : nat)
    : result cond_error (option (ConditionExpr * nat)) :=
  match fuel with
  | 0 => Err OutOfFuel
  | S fuel =>
      match find_keyword bs idx with
      | None => Ok None
      | Some kw =>
          let peek := skip_ws bs (idx + length (bytes_of kw)) in
          if at_byte bs peek "("%char then
            '(args, idx) ← parse_cardinality_args fuel kw [] (S peek);
            Ok (Some (cardinality_expr kw args, idx))
          else Ok None
      end
  end
with parse_cardinality_args (fuel : nat) (name : string) (args : list ConditionExpr)
    (idx : nat) : result cond_error (list ConditionExpr * nat) :=
  match fuel with
  | 0 => Err OutOfFuel
  | S fuel =>
      '(arg, idx) ← parse_or fuel idx;
      let args := args ++ [arg] in
      let idx := skip_ws bs idx in
      match bs !! idx with
      | None => Err (Unterminated name idx)
      | Some b =>
          if Ascii.eqb b ","%char then
            let idx := skip_ws bs (S idx) in
            if at_byte bs idx ")"%char then Err (TrailingComma name idx)
            else parse_cardinality_args fuel name args idx
          else if Ascii.eqb b ")"%char then
            if decide (length args < 2) then Err (TooFewArgs name (length args))
            else Ok (args, S idx)
          else Err (ExpectedCommaOrParen name idx b)
      end
  end.

End Parser.
End AstParser.

(** Fuel for an input of [n] bytes: at most eight nested calls separate two
    consumed bytes. *)
Definition parse_fuel (n : nat) : nat := 8 * n + 8.

Definition parse_condition_expr (condition : string) : result cond_error ConditionExpr :=
  let bs := bytes_of condition in
  '(expr, idx) ← AstParser.parse_or bs (parse_fuel (length bs)) 0;
  let idx := skip_ws bs idx in
  if decide (idx = length bs) then Ok expr else Err (UnexpectedTrailing idx).

Example parse_example :
  parse_condition_expr "any_of(a == 'x', !b != c) && true" =
  Ok (And (AnyOf [Predicate (mkPredicate "a" OpEq "x"); Not (FacetCompare "b" OpNotEq "c")])
          (Bool true)).
Proof. vm_compute. reflexivity. Qed.

(** ** Progress and totality *)

Section Bounds.
Import AstParser.
Context (bs : list ascii).

Lemma parse_predicate_bounds idx e i :
  idx ≤ length bs → parse_predicate bs idx = Ok (e, i) → idx < i ∧ i ≤ length bs.
Proof.
  intros Hi H. unfold parse_predicate in H.
  pose proof (skip_ws_bounds bs idx).
  destruct (parse_ident bs (skip_ws bs idx)) as [tag i1] eqn:E1.
  destruct tag as [tag|]; cbn in H; [|done]. apply parse_ident_bounds in E1.
  pose proof (skip_ws_bounds bs i1).
  destruct (parse_operator bs (skip_ws bs i1)) as [op i2] eqn:E2.
  destruct op as [op|]; cbn in H; [|done]. apply parse_operator_bounds in E2.
  pose proof (skip_ws_bounds bs i2).
  destruct (parse_quoted_literal bs (skip_ws bs i2)) as [v i3] eqn:E3.
  destruct v as [v|].
  - apply parse_quoted_literal_bounds in E3. inv_ok. lia.
  - apply parse_quoted_literal_fwd in E3; [|lia].
    destruct (parse_ident bs i3) as [rhs i4] eqn:E4.
    destruct rhs as [rhs|]; cbn in H; [|done]. apply parse_ident_bounds in E4.
    inv_ok. lia.
Qed.

Lemma find_keyword_Some idx kw :
  find_keyword bs idx = Some kw →
  starts_with_keyword bs idx kw = true ∧ kw ∈ KEYWORDS.
Proof.
  intros H. apply List.find_some in H as [H1 H2]. split; [done|].
  by apply list_elem_of_In.
Qed.

(** What a parsing function promises about the cursor, strictly or not. *)
Definition moves {A} (idx : nat) (r : result cond_error (A * nat)) : Prop :=
  ∀ a i, r = Ok (a, i) → idx < i ∧ i ≤ length bs.
Definition keeps {A} (idx : nat) (r : result cond_error (A * nat)) : Prop :=
  ∀ a i, r = Ok (a, i) → idx ≤ i ∧ i ≤ length bs.

Ltac pose_bounds :=
  repeat match goal with
  | H : context [skip_ws bs ?i] |- _ =>
      lazymatch goal with
      | _ : i ≤ skip_ws bs i ∧ _ |- _ => fail
      | _ => pose proof (skip_ws_bounds bs i)
      end
  end.

Lemma parser_bounds fuel :
  (∀ idx, idx ≤ length bs → moves idx (parse_or bs fuel idx)) ∧
  (∀ idx x, idx ≤ length bs → keeps idx (or_loop bs fuel x idx)) ∧
  (∀ idx, idx ≤ length bs → moves idx (parse_and bs fuel idx)) ∧
  (∀ idx x, idx ≤ length bs → keeps idx (and_loop bs fuel x idx)) ∧
  (∀ idx, idx ≤ length bs → moves idx (parse_unary bs fuel idx)) ∧
  (∀ idx, idx ≤ length bs → moves idx (parse_primary bs fuel idx)) ∧
  (∀ idx e i, idx ≤ length bs → try_parse_cardinality bs fuel idx = Ok (Some (e, i)) →
     idx < i ∧ i ≤ length bs) ∧
  (∀ idx kw args, idx ≤ length bs → moves idx (parse_cardinality_args bs fuel kw args idx)).
Proof.
  induction fuel as [|fuel (IHor & IHol & IHand & IHal & IHun & IHpr & IHtc & IHca)];
    [repeat split; done|].
  split_and!.
  - intros idx Hi e i H. cbn in H. inv_ok.
    apply IHand in H0; [|done]. apply IHol in H; lia.
  - intros idx x Hi e i H. cbn in H.
    destruct (consume_op2 _ _ _ _) as [[] j] eqn:Ec; pose_bounds.
    + apply consume_op2_true in Ec as [-> Ec]. inv_ok.
      apply IHand in H1; [|done]. apply IHol in H; lia.
    + apply consume_op2_false in Ec as ->. inv_ok. lia.
  - intros idx Hi e i H. cbn in H. inv_ok.
    apply IHun in H0; [|done]. apply IHal in H; lia.
  - intros idx x Hi e i H. cbn in H.
    destruct (consume_op2 _ _ _ _) as [[] j] eqn:Ec; pose_bounds.
    + apply consume_op2_true in Ec as [-> Ec]. inv_ok.
      apply IHun in H1; [|done]. apply IHal in H; lia.
    + apply consume_op2_false in Ec as ->. inv_ok. lia.
  - intros idx Hi e i H. cbn in H. pose_bounds.
    destruct (at_byte bs _ "!"%char) eqn:E1; [apply at_byte_lt in E1|].
    + destruct (at_byte bs _ "="%char).
      * apply IHpr in H; lia.
      * inv_ok. apply IHun in H1; lia.
    + apply IHpr in H; lia.
  - intros idx Hi e i H. cbn in H. pose_bounds.
    destruct (decide _); [done|].
    destruct (at_byte bs _ "("%char) eqn:E1; [apply at_byte_lt in E1|].
    + inv_ok. apply IHor in H1; [|lia]. pose_bounds.
      destruct (at_byte bs _ ")"%char) eqn:E2; [apply at_byte_lt in E2|done].
      inv_ok. lia.
    + destruct (try_consume_bool_literal bs _) as [[v j]|] eqn:Eb.
      * apply try_consume_bool_literal_bounds in Eb. inv_ok. lia.
      * inv_ok. destruct x as [r|]; inv_ok.
        -- apply IHtc in H1; lia.
        -- apply parse_predicate_bounds in H; lia.
  - intros idx e i Hi H. cbn in H.
    destruct (find_keyword _ _) as [kw|] eqn:Ef; [|done].
    apply find_keyword_Some in Ef as [Ef _]. apply starts_with_keyword_bounds in Ef.
    pose_bounds.
    destruct (at_byte bs _ "("%char) eqn:E1; [apply at_byte_lt in E1|done].
    inv_ok. apply IHca in H1; lia.
  - intros idx kw args Hi e i H. cbn in H. inv_ok.
    apply IHor in H0; [|done]. pose_bounds.
    destruct (bs !! _) as [b|] eqn:Eb; [apply lookup_lt_Some in Eb|done].
    destruct (Ascii.eqb b ","%char).
    + pose_bounds. destruct (at_byte bs _ ")"%char); [done|]. apply IHca in H; lia.
    + destruct (Ascii.eqb b ")"%char); [|done].
      destruct (decide _); inv_ok. lia.
Qed.

Lemma parse_predicate_fuel idx : parse_predicate bs idx ≠ Err OutOfFuel.
Proof.
  intros H. unfold parse_predicate in H.
  destruct (parse_ident bs _) as [[tag|] i1]; [cbn in H|done].
  destruct (parse_operator bs _) as [[op|] i2]; [cbn in H|done].
  destruct (parse_quoted_literal bs _) as [[v|] i3]; [done|].
  by destruct (parse_ident bs _) as [[rhs|] i4].
Qed.

(** Enough fuel for the bytes that are left: [OutOfFuel] is not an outcome. *)
Lemma parser_fuel fuel :
  (∀ idx, idx ≤ length bs → 8 * (length bs - idx) + 5 ≤ fuel →
     parse_or bs fuel idx ≠ Err OutOfFuel) ∧
  (∀ idx x, idx ≤ length bs → 8 * (length bs - idx) + 1 ≤ fuel →
     or_loop bs fuel x idx ≠ Err OutOfFuel) ∧
  (∀ idx, idx ≤ length bs → 8 * (length bs - idx) + 4 ≤ fuel →
     parse_and bs fuel idx ≠ Err OutOfFuel) ∧
  (∀ idx x, idx ≤ length bs → 8 * (length bs - idx) + 1 ≤ fuel →
     and_loop bs fuel x idx ≠ Err OutOfFuel) ∧
  (∀ idx, idx ≤ length bs → 8 * (length bs - idx) + 3 ≤ fuel →
     parse_unary bs fuel idx ≠ Err OutOfFuel) ∧
  (∀ idx, idx ≤ length bs → 8 * (length bs - idx) + 2 ≤ fuel →
     parse_primary bs fuel idx ≠ Err OutOfFuel) ∧
  (∀ idx, idx ≤ length bs → 8 * (length bs - idx) + 1 ≤ fuel →
     try_parse_cardinality bs fuel idx ≠ Err OutOfFuel) ∧
  (∀ idx kw args, idx ≤ length bs → 8 * (length bs - idx) + 6 ≤ fuel →
     parse_cardinality_args bs fuel kw args idx ≠ Err OutOfFuel).
Proof.
  induction fuel as [|fuel (IHor & IHol & IHand & IHal & IHun & IHpr & IHtc & IHca)];
    [split_and!; intros; lia|].
  destruct (parser_bounds fuel) as (Bor & Bol & Band & Bal & Bun & Bpr & Btc & Bca).
  split_and!.
  - intros idx Hi Hf H. cbn in H. inv_err.
    + by apply IHand in H; [| |lia].
    + apply Band in H0; [|done]. apply IHol in H; [done|lia..].
  - intros idx x Hi Hf H. cbn in H.
    destruct (consume_op2 _ _ _ _) as [[] j] eqn:Ec; pose_bounds; [|done].
    apply consume_op2_true in Ec as [-> Ec]. inv_err.
    + apply IHand in H; [done|lia..].
    + apply Band in H1; [|done]. apply IHol in H; [done|lia..].
  - intros idx Hi Hf H. cbn in H. inv_err.
    + by apply IHun in H; [| |lia].
    + apply Bun in H0; [|done]. apply IHal in H; [done|lia..].
  - intros idx x Hi Hf H. cbn in H.
    destruct (consume_op2 _ _ _ _) as [[] j] eqn:Ec; pose_bounds; [|done].
    apply consume_op2_true in Ec as [-> Ec]. inv_err.
    + apply IHun in H; [done|lia..].
    + apply Bun in H1; [|done]. apply IHal in H; [done|lia..].
  - intros idx Hi Hf H. cbn in H. pose_bounds.
    destruct (at_byte bs _ "!"%char) eqn:E1; [apply at_byte_lt in E1|].
    + destruct (at_byte bs _ "="%char).
      * apply IHpr in H; [done|lia..].
      * inv_err. apply IHun in H; [done|lia..].
    + apply IHpr in H; [done|lia..].
  - intros idx Hi Hf H. cbn in H. pose_bounds.
    destruct (decide _); [done|].
    destruct (at_byte bs _ "("%char) eqn:E1; [apply at_byte_lt in E1|].
    + inv_err; [apply IHor in H; [done|lia..]|].
      by destruct (at_byte bs _ ")"%char).
    + destruct (try_consume_bool_literal bs _) as [[v j]|] eqn:Eb; [done|].
      inv_err; [apply IHtc in H; [done|lia..]|].
      destruct x as [r|]; [done|]. by apply parse_predicate_fuel in H.
  - intros idx Hi Hf H. cbn in H.
    destruct (find_keyword _ _) as [kw|] eqn:Ef; [|done].
    apply find_keyword_Some in Ef as [Ef _]. apply starts_with_keyword_bounds in Ef.
    pose_bounds.
    destruct (at_byte bs _ "("%char) eqn:E1; [apply at_byte_lt in E1|done].
    inv_err. apply IHca in H; [done|lia..].
  - intros idx kw args Hi Hf H. cbn in H. inv_err.
    { apply IHor in H; [done|lia..]. }
    apply Bor in H0; [|done]. pose_bounds.
    destruct (bs !! _) as [b|] eqn:Eb; [apply lookup_lt_Some in Eb|done].
    destruct (Ascii.eqb b ","%char).
    + pose_bounds. destruct (at_byte bs _ ")"%char); [done|].
      apply IHca in H; [done|lia..].
    + destruct (Ascii.eqb b ")"%char); [|done].
      by destruct (decide _).
Qed.
End Bounds.

(** [parse_condition_expr] never runs out of fuel. *)
Lemma parse_total condition : parse_condition_expr condition ≠ Err OutOfFuel.
Proof.
  unfold parse_condition_expr. intros H. inv_err.
  - apply parser_fuel in H; [done|lia|unfold parse_fuel; lia].
  - by destruct (decide _).
Qed.

(** ** Well-formed expressions

    What the grammar guarantees of every parsed expression: tags and compared
    facets are identifiers and a cardinality operator has two arguments. *)
Fixpoint wf_expr (e : ConditionExpr) : bool :=
  match e with
  | Bool _ => true
  | Predicate p => is_identifier (p_tag p)
  | Not e => wf_expr e
  | And l r | Or l r => wf_expr l && wf_expr r
  | AnyOf es | AllOf es | ExactlyOneOf es => (2 <=? length es) && forallb wf_expr es
  | FacetCompare l _ r => is_identifier l && is_identifier r
  end.

Section Wf.
Import AstParser.
Context (bs : list ascii).

Lemma parse_predicate_wf idx e i : parse_predicate bs idx = Ok (e, i) → wf_expr e.
Proof.
  intros H. unfold parse_predicate in H.
  destruct (parse_ident bs _) as [[tag|] i1] eqn:E1; [cbn in H|done].
  apply parse_ident_identifier in E1.
  destruct (parse_operator bs _) as [[op|] i2]; [cbn in H|done].
  destruct (parse_quoted_literal bs _) as [[v|] i3]; [by inv_ok|].
  destruct (parse_ident bs i3) as [[rhs|] i4] eqn:E4; [cbn in H|done].
  apply parse_ident_identifier in E4. inv_ok. cbn. by apply andb_True.
Qed.

Lemma cardinality_expr_wf kw args :
  2 ≤ length args → forallb wf_expr args → wf_expr (cardinality_expr kw args).
Proof.
  intros H1 H2. unfold cardinality_expr.
  apply Nat.leb_le, Is_true_true in H1.
  repeat case_decide; cbn [wf_expr]; by apply andb_True.
Qed.

Definition yields_wf (r : result cond_error (ConditionExpr * nat)) : Prop :=
  ∀ e i, r = Ok (e, i) → wf_expr e.

Lemma parser_wf fuel :
  (∀ idx, yields_wf (parse_or bs fuel idx)) ∧
  (∀ idx x, wf_expr x → yields_wf (or_loop bs fuel x idx)) ∧
  (∀ idx, yields_wf (parse_and bs fuel idx)) ∧
  (∀ idx x, wf_expr x → yields_wf (and_loop bs fuel x idx)) ∧
  (∀ idx, yields_wf (parse_unary bs fuel idx)) ∧
  (∀ idx, yields_wf (parse_primary bs fuel idx)) ∧
  (∀ idx e i, try_parse_cardinality bs fuel idx = Ok (Some (e, i)) → wf_expr e) ∧
  (∀ idx kw args es i, forallb wf_expr args →
     parse_cardinality_args bs fuel kw args idx = Ok (es, i) →
     2 ≤ length es ∧ forallb wf_expr es).
Proof.
  induction fuel as [|fuel (IHor & IHol & IHand & IHal & IHun & IHpr & IHtc & IHca)];
    [repeat split; done|].
  split_and!.
  - intros idx e i H. cbn in H. inv_ok. apply IHand in H0. by eapply IHol.
  - intros idx x Hx e i H. cbn in H.
    destruct (consume_op2 _ _ _ _) as [[] j]; inv_ok; [|done].
    apply IHand in H0. eapply IHol; [|done]. by apply andb_True.
  - intros idx e i H. cbn in H. inv_ok. apply IHun in H0. by eapply IHal.
  - intros idx x Hx e i H. cbn in H.
    destruct (consume_op2 _ _ _ _) as [[] j]; inv_ok; [|done].
    apply IHun in H0. eapply IHal; [|done]. by apply andb_True.
  - intros idx e i H. cbn in H.
    destruct (at_byte bs _ "!"%char); [|by eapply IHpr].
    destruct (at_byte bs _ "="%char); [by eapply IHpr|]. inv_ok.
    by apply IHun in H0.
  - intros idx e i H. cbn in H. destruct (decide _); [done|].
    destruct (at_byte bs _ "("%char).
    + inv_ok. destruct (at_byte bs _ ")"%char); inv_ok. by apply IHor in H0.
    + destruct (try_consume_bool_literal bs _) as [[v j]|]; inv_ok; [done|].
      destruct x as [r|]; inv_ok; [by apply IHtc in H0|by apply parse_predicate_wf in H].
  - intros idx e i H. cbn in H. destruct (find_keyword _ _) as [kw|]; [|done].
    destruct (at_byte bs _ "("%char); inv_ok.
    apply IHca in H0 as [? ?]; [|done]. by apply cardinality_expr_wf.
  - intros idx kw args es i Ha H. cbn in H. inv_ok. apply IHor in H0.
    assert (Ha' : forallb wf_expr (args ++ [c])).
    { rewrite forallb_app. cbn. rewrite andb_true_r. by apply andb_True. }
    destruct (bs !! _) as [b|]; [|done]. destruct (Ascii.eqb b ","%char).
    + destruct (at_byte bs _ ")"%char); [done|]. by eapply IHca.
    + destruct (Ascii.eqb b ")"%char); [|done]. destruct (decide _); inv_ok.
      split; [lia|done].
Qed.
End Wf.

Lemma parse_wf condition e : parse_condition_expr condition = Ok e → wf_expr e.
Proof.
  unfold parse_condition_expr. intros H. inv_ok.
  destruct (decide _); inv_ok.
  destruct (parser_wf (bytes_of condition) (parse_fuel (length (bytes_of condition)))) as [Hor _].
  by apply Hor in H0.
Qed.

(** The typed parser is total and typed.  On every string it returns, and
    what it returns is an expression whose tags and compared facets are
    identifiers and whose cardinality operators have at least two arguments,
    or an error of the grammar. *)
Theorem parse_condition_expr_total condition :
  (∃ e, parse_condition_expr condition = Ok e ∧ wf_expr e) ∨
  (∃ err, parse_condition_expr condition = Err err ∧ err ≠ OutOfFuel).
Proof.
  pose proof (parse_wf condition) as Hw. pose proof (parse_total condition) as Ht.
  destruct (parse_condition_expr condition) as [e|err]; [left; eauto|right].
  exists err. split; [done|]. congruence.
Qed.
