(* ===== verification/Eval.v ===== *)
(** * The string evaluator

    Models [compiler/src/conditions/eval.rs] and [mod.rs::eval_condition]: the
    recursive-descent evaluator that reads a condition and decides it against
    a tag environment in one pass, skipping (but still checking the syntax of)
    the operands that short-circuiting makes irrelevant.

    [eval_strict] is the reference semantics over the typed AST; the two
    directions of their agreement are [eval_condition_complete] and
    [eval_condition_sound]. *)
From S2P Require Import Prelude Tokens Ast.

(** The right-hand side of an atom. *)
Inductive Rhs : Type :=
  | Literal (s : string)
  | Facet (s : string).

Module StrEval.
Section Evaluator.
Context (bs : list ascii) (tags : gmap string string).

Definition parse_rhs (idx : nat) : result cond_error (Rhs * nat) :=
  let start := idx in
  let '(literal, idx) := parse_quoted_literal bs idx in
  match literal with
  | Some literal => Ok (Literal literal, idx)
  | None =>
      let '(name, idx) := parse_ident bs idx in
      name ← ok_or name (ExpectedRhs start);
      Ok (Facet name, idx)
  end.

Definition eval_atom (idx : nat) : result cond_error (bool * nat) :=
  let idx := skip_ws bs idx in
  let start := idx in
  let '(tag, idx) := parse_ident bs idx in
  tag ← ok_or tag (ExpectedIdentifier start);
  let idx := skip_ws bs idx in
  let '(op, idx) := parse_operator bs idx in
  op ← ok_or op (ExpectedOperator idx);
  let idx := skip_ws bs idx in
  '(rhs, idx) ← parse_rhs idx;
  actual ← ok_or (tags !! tag) (MissingTag tag);
  expected ← match rhs with
             | Literal value => Ok value
             | Facet name => ok_or (tags !! name) (MissingTag name)
             end;
  Ok (match op with
      | AtomEq => bool_decide (actual = expected)
      | AtomNotEq => negb (bool_decide (actual = expected))
      end, idx).

Definition skip_atom (idx : nat) : result cond_error nat :=
  let idx := skip_ws bs idx in
  let start := idx in
  let '(tag, idx) := parse_ident bs idx in
  _ ← ok_or tag (ExpectedIdentifier start);
  let idx := skip_ws bs idx in
  let '(op, idx) := parse_operator bs idx in
  _ ← ok_or op (ExpectedOperator idx);
  let idx := skip_ws bs idx in
  '(_, idx) ← parse_rhs idx;
  Ok idx.

Fixpoint skip_condition (fuel idx : nat) : result cond_error nat :=
  match fuel with
  | 0 => Err OutOfFuel
  | S fuel => idx ← skip_expr_and fuel idx; skip_or_loop fuel idx
  end
with skip_or_loop (fuel idx : nat) : result cond_error nat :=
  match fuel with
  | 0 => Err OutOfFuel
  | S fuel =>
      let '(more, idx) := consume_op2 bs (skip_ws bs idx) "|"%char "|"%char in
      if more then idx ← skip_expr_and fuel idx; skip_or_loop fuel idx else Ok idx
  end
with skip_expr_and (fuel idx : nat) : result cond_error nat :=
  match fuel with
  | 0 => Err OutOfFuel
  | S fuel => idx ← skip_unary fuel idx; skip_and_loop fuel idx
  end
with skip_and_loop (fuel idx : nat) : result cond_error nat :=
  match fuel with
  | 0 => Err OutOfFuel
  | S fuel =>
      let '(more, idx) := consume_op2 bs (skip_ws bs idx) "&"%char "&"%char in
      if more then idx ← skip_unary fuel idx; skip_and_loop fuel idx else Ok idx
  end
with skip_unary (fuel idx : nat) : result cond_error nat :=
  match fuel with
  | 0 => Err OutOfFuel
  | S fuel =>
      let idx := skip_ws bs idx in
      if decide (length bs ≤ idx) then Err UnexpectedEnd
      else if at_byte bs idx "!"%char then
        if at_byte bs (S idx) "="%char then skip_atom idx
        else skip_unary fuel (S idx)
      else
        match fuel with
        | 0 => Err OutOfFuel
        | S fuel =>
            if at_byte bs idx "("%char then
              idx ← skip_condition fuel (S idx);
              let idx := skip_ws bs idx in
              if at_byte bs idx ")"%char then Ok (S idx) else Err (MissingCloseParen idx)
            else
              match try_consume_bool_literal bs idx with
              | Some (_, idx) => Ok idx
              | None => match fuel with 0 => Err OutOfFuel | S _ => skip_atom idx end
              end
        end
  end.

Fixpoint parse_or (fuel idx : nat) : result cond_error (bool * nat) :=
  match fuel with
  | 0 => Err OutOfFuel
  | S fuel => '(acc, idx) ← parse_and fuel idx; or_loop fuel acc idx
  end
with or_loop (fuel : nat) (acc : bool) (idx : nat) : result cond_error (bool * nat) :=
  match fuel with
  | 0 => Err OutOfFuel
  | S fuel =>
      let '(more, idx) := consume_op2 bs (skip_ws bs idx) "|"%char "|"%char in
      if more then
        if acc then idx ← skip_expr_and fuel idx; or_loop fuel acc idx
        else '(rhs, idx) ← parse_and fuel idx; or_loop fuel (acc || rhs) idx
      else Ok (acc, idx)
  end
with parse_and (fuel idx : nat) : result cond_error (bool * nat) :=
  match fuel with
  | 0 => Err OutOfFuel
  | S fuel => '(acc, idx) ← parse_unary fuel idx; and_loop fuel acc idx
  end
with and_loop (fuel : nat) (acc : bool) (idx : nat) : result cond_error (bool * nat) :=
  match fuel with
  | 0 => Err OutOfFuel
  | S fuel =>
      let '(more, idx) := consume_op2 bs (skip_ws bs idx) "&"%char "&"%char in
      if more then
        if negb acc then idx ← skip_unary fuel idx; and_loop fuel acc idx
        else '(rhs, idx) ← parse_unary fuel idx; and_loop fuel (acc && rhs) idx
      else Ok (acc, idx)
  end
with parse_unary (fuel idx : nat) : result cond_error (bool * nat) :=
  match fuel with
  | 0 => Err OutOfFuel
  | S fuel =>
      let idx := skip_ws bs idx in
      if at_byte bs idx "!"%char then
        if at_byte bs (S idx) "="%char then parse_primary fuel idx
        else '(inner, idx) ← parse_unary fuel (S idx); Ok (negb inner, idx)
      else parse_primary fuel idx
  end
with parse_primary (fuel idx : nat) : result cond_error (bool * nat) :=
  match fuel with
  | 0 => Err OutOfFuel
  | S fuel =>
      let idx := skip_ws bs idx in
      if decide (length bs ≤ idx) then Err UnexpectedEnd
      else if at_byte bs idx "("%char then
        '(inner, idx) ← parse_or fuel (S idx);
        let idx := skip_ws bs idx in
        if at_byte bs idx ")"%char then Ok (inner, S idx) else Err (MissingCloseParen idx)
      else
        match try_consume_bool_literal bs idx with
        | Some (literal, idx) => Ok (literal, idx)
        | None => match fuel with 0 => Err OutOfFuel | S _ => eval_atom idx end
        end
  end.

End Evaluator.
End StrEval.

Definition eval_condition (condition : string) (tags : gmap string string)
    : result cond_error bool :=
  let bs := bytes_of condition in
  '(value, idx) ← StrEval.parse_or bs tags (parse_fuel (length bs)) 0;
  let idx := skip_ws bs idx in
  if decide (idx = length bs) then Ok value else Err (UnexpectedTrailing idx).

(** ** Reference semantics

    Strict, left-to-right, short-circuiting evaluation of the typed AST: an
    operand that is needed and names an unbound tag is an error.  (The
    cardinality operators evaluate all their arguments.) *)

Definition lookup_tag (tags : gmap string string) (t : string) : result cond_error string :=
  ok_or (tags !! t) (MissingTag t).

Definition apply_op (op : ConditionPredicateOp) (a b : string) : bool :=
  match op with
  | OpEq => bool_decide (a = b)
  | OpNotEq => negb (bool_decide (a = b))
  end.

Fixpoint eval_strict (e : ConditionExpr) (tags : gmap string string)
    : result cond_error bool :=
  match e with
  | Bool b => Ok b
  | Predicate p => v ← lookup_tag tags (p_tag p); Ok (apply_op (p_op p) v (p_value p))
  | Not e => b ← eval_strict e tags; Ok (negb b)
  | And l r =>
      eval_strict l tags ≫= λ b : bool, if b then eval_strict r tags else Ok false
  | Or l r =>
      eval_strict l tags ≫= λ b : bool, if b then Ok true else eval_strict r tags
  | FacetCompare l op r =>
      a ← lookup_tag tags l; b ← lookup_tag tags r; Ok (apply_op op a b)
  | AnyOf es => bs ← collect_results (λ e, eval_strict e tags) es; Ok (existsb id bs)
  | AllOf es => bs ← collect_results (λ e, eval_strict e tags) es; Ok (forallb id bs)
  | ExactlyOneOf es =>
      bs ← collect_results (λ e, eval_strict e tags) es;
      Ok (length (List.filter id bs) =? 1)
  end.

(** The fragment the string evaluator's grammar covers. *)
Fixpoint no_cardinality (e : ConditionExpr) : bool :=
  match e with
  | Bool _ | Predicate _ | FacetCompare _ _ _ => true
  | Not e => no_cardinality e
  | And l r | Or l r => no_cardinality l && no_cardinality r
  | AnyOf _ | AllOf _ | ExactlyOneOf _ => false
  end.

Example eval_example :
  eval_condition "variant == 'heavy' && region != 'eu'"
    (list_to_map [("variant", "heavy"); ("region", "us")]) = Ok true.
Proof. vm_compute. reflexivity. Qed.

(** ** Agreement with the typed parser *)

Section Agreement.
Context (bs : list ascii) (tags : gmap string string).

(** A verdict with the cursor the evaluator stops at. *)
Definition with_idx (r : result cond_error bool) (i : nat) : result cond_error (bool * nat) :=
  b ← r; Ok (b, i).

Lemma parse_predicate_atom idx e i :
  AstParser.parse_predicate bs idx = Ok (e, i) →
  no_cardinality e ∧ StrEval.skip_atom bs idx = Ok i ∧
  StrEval.eval_atom bs tags idx = with_idx (eval_strict e tags) i.
Proof.
  unfold AstParser.parse_predicate, StrEval.skip_atom, StrEval.eval_atom, StrEval.parse_rhs.
  destruct (parse_ident bs _) as [[tag|] i1]; cbn; [|done].
  destruct (parse_operator bs _) as [[op|] i2]; cbn; [|done].
  destruct (parse_quoted_literal bs _) as [[v|] i3]; cbn.
  - intros H. inv_ok. split_and!; [done..|]. cbn. unfold lookup_tag.
    destruct (tags !! tag); [|done]. by destruct op.
  - destruct (parse_ident bs i3) as [[rhs|] i4]; cbn; [|done].
    intros H. inv_ok. split_and!; [done..|]. cbn. unfold lookup_tag.
    destruct (tags !! tag); [|done]. cbn. destruct (tags !! rhs); [|done]. by destruct op.
Qed.

Lemma skip_atom_predicate idx i :
  StrEval.skip_atom bs idx = Ok i → ∃ e, AstParser.parse_predicate bs idx = Ok (e, i).
Proof.
  unfold AstParser.parse_predicate, StrEval.skip_atom, StrEval.parse_rhs.
  destruct (parse_ident bs _) as [[tag|] i1]; cbn; [|done].
  destruct (parse_operator bs _) as [[op|] i2]; cbn; [|done].
  destruct (parse_quoted_literal bs _) as [[v|] i3]; cbn.
  - intros H. inv_ok. eauto.
  - destruct (parse_ident bs i3) as [[rhs|] i4]; cbn; [|done]. intros H. inv_ok. eauto.
Qed.

Lemma eval_atom_skip idx b i :
  StrEval.eval_atom bs tags idx = Ok (b, i) → StrEval.skip_atom bs idx = Ok i.
Proof.
  unfold StrEval.skip_atom, StrEval.eval_atom.
  destruct (parse_ident bs _) as [[tag|] i1]; cbn; [|done].
  destruct (parse_operator bs _) as [[op|] i2]; cbn; [|done].
  destruct (StrEval.parse_rhs bs _) as [[rhs j]|]; cbn; [|done].
  intros H. by inv_ok.
Qed.

(** An atom does not start at a byte that is not an identifier start. *)
Lemma parse_predicate_at idx e i c :
  at_byte bs (skip_ws bs idx) c = true → is_ident_start c = false →
  AstParser.parse_predicate bs idx ≠ Ok (e, i).
Proof.
  unfold AstParser.parse_predicate, parse_ident, at_byte.
  destruct (bs !! skip_ws bs idx) as [b|] eqn:E; [|done].
  intros ->%Ascii.eqb_eq ->. done.
Qed.

(** An atom that starts with a cardinality keyword is not a call. *)
Lemma atom_not_call idx e i kw :
  AstParser.parse_predicate bs idx = Ok (e, i) →
  find_keyword bs (skip_ws bs idx) = Some kw →
  at_byte bs (skip_ws bs (skip_ws bs idx + length (bytes_of kw))) "("%char = false.
Proof.
  intros H [Hk Hin]%find_keyword_Some. unfold AstParser.parse_predicate in H.
  assert (Hid : is_identifier kw).
  { unfold KEYWORDS in Hin. set_unfold in Hin. destruct_or! Hin; subst; done. }
  destruct (parse_ident bs _) as [[tag|] i1] eqn:E; cbn in H; [|done].
  pose proof (keyword_ident bs _ kw Hk Hid) as Hj. rewrite E in Hj. injection Hj as -> ->.
  unfold parse_operator in H. revert H.
  generalize (skip_ws bs (skip_ws bs idx + length (bytes_of kw))). intros k H.
  unfold at_byte in *. destruct (bs !! k) as [b|]; [|done].
  destruct (Ascii.eqb b "("%char) eqn:Eb; [|done].
  apply Ascii.eqb_eq in Eb as ->. done.
Qed.

(** A successful typed parse without cardinality operators: the skipping walk
    stops at the same place and the evaluating walk computes [eval_strict]. *)
Definition agrees_skip (e : ConditionExpr) (i : nat) (skip : result cond_error nat)
    (ev : result cond_error (bool * nat)) : Prop :=
  no_cardinality e → skip = Ok i ∧ ev = with_idx (eval_strict e tags) i.

(** The same for a loop entered with the operand [x] already read. *)
Definition agrees_loop (x e : ConditionExpr) (i : nat) (skip : result cond_error nat)
    (ev : bool → result cond_error (bool * nat)) : Prop :=
  no_cardinality e → no_cardinality x ∧ skip = Ok i ∧
    (eval_strict x tags ≫= ev) = with_idx (eval_strict e tags) i.

Lemma or_loop_step fuel x rhs e j i sk ev :
  agrees_skip rhs j sk ev →
  agrees_loop (Or x rhs) e i (StrEval.skip_or_loop bs fuel j)
    (λ acc, StrEval.or_loop bs tags fuel acc j) →
  agrees_loop x e i (idx ← sk; StrEval.skip_or_loop bs fuel idx)
    (λ acc, if acc then idx ← sk; StrEval.or_loop bs tags fuel acc idx
            else '(v, idx) ← ev; StrEval.or_loop bs tags fuel (acc || v) idx).
Proof.
  intros Hr Hl He. destruct (Hl He) as ([Hx Hrh]%andb_True & Hs & Hv).
  destruct (Hr Hrh) as [-> ->]. split_and!; [done|done|]. rewrite <-Hv. cbn.
  destruct (eval_strict x tags) as [[]|]; cbn; [done| |done].
  by destruct (eval_strict rhs tags).
Qed.

Lemma and_loop_step fuel x rhs e j i sk ev :
  agrees_skip rhs j sk ev →
  agrees_loop (And x rhs) e i (StrEval.skip_and_loop bs fuel j)
    (λ acc, StrEval.and_loop bs tags fuel acc j) →
  agrees_loop x e i (idx ← sk; StrEval.skip_and_loop bs fuel idx)
    (λ acc, if negb acc then idx ← sk; StrEval.and_loop bs tags fuel acc idx
            else '(v, idx) ← ev; StrEval.and_loop bs tags fuel (acc && v) idx).
Proof.
  intros Hr Hl He. destruct (Hl He) as ([Hx Hrh]%andb_True & Hs & Hv).
  destruct (Hr Hrh) as [-> ->]. split_and!; [done|done|]. rewrite <-Hv. cbn.
  destruct (eval_strict x tags) as [[]|]; cbn; [|done|done].
  by destruct (eval_strict rhs tags).
Qed.

Lemma seq_agrees x e j i sk ev skl (evl : bool → nat → result cond_error (bool * nat)) :
  agrees_skip x j sk ev →
  agrees_loop x e i (skl j) (λ acc, evl acc j) →
  agrees_skip e i (idx ← sk; skl idx) ('(acc, idx) ← ev; evl acc idx).
Proof.
  intros Hx Hl He. destruct (Hl He) as (Hnx & Hs & Hv).
  destruct (Hx Hnx) as [-> ->]. split; [done|]. rewrite <-Hv.
  by destruct (eval_strict x tags).
Qed.

(** Nothing but an operator starts at [!]. *)
Lemma no_keyword_at k c kw :
  at_byte bs k c = true → is_ident_start c = false → is_identifier kw →
  starts_with_keyword bs k kw = false.
Proof.
  intros Hc Hs Hk. destruct (starts_with_keyword bs k kw) eqn:E; [|done].
  apply keyword_ident in E; [|done]. unfold parse_ident, at_byte in *.
  destruct (bs !! k) as [b|]; [|done]. apply Ascii.eqb_eq in Hc as ->.
  by rewrite Hs in E.
Qed.

Lemma primary_not_bang fuel idx e i :
  at_byte bs (skip_ws bs idx) "!"%char = true →
  AstParser.parse_primary bs fuel idx ≠ Ok (e, i).
Proof.
  intros Hb H. destruct fuel as [|fuel]; cbn in H; [done|].
  destruct (decide _); [done|].
  assert (at_byte bs (skip_ws bs idx) "("%char = false) as Hp.
  { unfold at_byte in *. destruct (bs !! _); [|done]. by apply Ascii.eqb_eq in Hb as ->. }
  rewrite Hp in H. unfold try_consume_bool_literal in H.
  rewrite !(no_keyword_at _ "!"%char) in H by done. inv_ok.
  destruct x; inv_ok.
  - destruct fuel as [|fuel]; cbn in H0; [done|]. unfold find_keyword in H0. cbn in H0.
    by rewrite !(no_keyword_at _ "!"%char) in H0 by done.
  - eapply (parse_predicate_at _ _ _ "!"%char); [|done|done]. by rewrite skip_ws_idem.
Qed.

Lemma skip_unary_ws fuel idx :
  StrEval.skip_unary bs fuel (skip_ws bs idx) = StrEval.skip_unary bs fuel idx.
Proof. destruct fuel; cbn; by rewrite ?skip_ws_idem. Qed.

Lemma cardinality_expr_no kw args : no_cardinality (cardinality_expr kw args) = false.
Proof. unfold cardinality_expr. by repeat case_decide. Qed.

Lemma primary_step fuel idx e i :
  (∀ idx e i, AstParser.parse_or bs fuel idx = Ok (e, i) →
     agrees_skip e i (StrEval.skip_condition bs fuel idx) (StrEval.parse_or bs tags fuel idx)) →
  AstParser.parse_primary bs (S fuel) idx = Ok (e, i) →
  agrees_skip e i (StrEval.skip_unary bs (S (S fuel)) idx)
    (StrEval.parse_primary bs tags (S fuel) idx).
Proof.
  intros IHor H He.
  destruct (at_byte bs (skip_ws bs idx) "!"%char) eqn:Hb.
  { by apply primary_not_bang in H. }
  cbn in H. simpl. rewrite Hb. destruct (decide _); [done|].
  destruct (at_byte bs (skip_ws bs idx) "("%char).
  - inv_ok. destruct (at_byte bs (skip_ws bs _) ")"%char) eqn:Hc; inv_ok.
    destruct (IHor _ _ _ H0 He) as [-> ->]. cbn. rewrite Hc. split; [done|].
    destruct (eval_strict e tags); cbn; [by rewrite Hc|done].
  - destruct (try_consume_bool_literal bs _) as [[v j]|]; inv_ok; [done|].
    destruct x; inv_ok.
    + destruct fuel as [|fuel]; cbn in H0; [done|].
      destruct (find_keyword _ _) as [kw|]; [|done].
      destruct (at_byte bs (skip_ws bs _) "("%char); inv_ok.
      by rewrite cardinality_expr_no in He.
    + destruct fuel as [|fuel]; [done|].
      by apply parse_predicate_atom in H as (_ & -> & ->).
Qed.

Lemma parser_agrees fuel :
  (∀ idx e i, AstParser.parse_or bs fuel idx = Ok (e, i) →
     agrees_skip e i (StrEval.skip_condition bs fuel idx) (StrEval.parse_or bs tags fuel idx)) ∧
  (∀ idx x e i, AstParser.or_loop bs fuel x idx = Ok (e, i) →
     agrees_loop x e i (StrEval.skip_or_loop bs fuel idx)
       (λ acc, StrEval.or_loop bs tags fuel acc idx)) ∧
  (∀ idx e i, AstParser.parse_and bs fuel idx = Ok (e, i) →
     agrees_skip e i (StrEval.skip_expr_and bs fuel idx) (StrEval.parse_and bs tags fuel idx)) ∧
  (∀ idx x e i, AstParser.and_loop bs fuel x idx = Ok (e, i) →
     agrees_loop x e i (StrEval.skip_and_loop bs fuel idx)
       (λ acc, StrEval.and_loop bs tags fuel acc idx)) ∧
  (∀ idx e i, AstParser.parse_unary bs fuel idx = Ok (e, i) →
     agrees_skip e i (StrEval.skip_unary bs fuel idx) (StrEval.parse_unary bs tags fuel idx)) ∧
  (∀ idx e i, AstParser.parse_primary bs fuel idx = Ok (e, i) →
     agrees_skip e i (StrEval.skip_unary bs (S fuel) idx)
       (StrEval.parse_primary bs tags fuel idx)).
Proof.
  induction fuel as [|fuel (IHor & IHol & IHand & IHal & IHun & IHpr)];
    [repeat split; done|].
  split_and!.
  - intros idx e i H. cbn in H |- *. inv_ok.
    eapply (seq_agrees c); [by apply IHand|by apply IHol].
  - intros idx x e i H. cbn in H |- *.
    destruct (consume_op2 _ _ _ _) as [[] j]; inv_ok.
    + eapply or_loop_step; [by apply IHand|by apply IHol].
    + intros Hn. split_and!; [done..|]. by destruct (eval_strict e tags).
  - intros idx e i H. cbn in H |- *. inv_ok.
    eapply (seq_agrees c); [by apply IHun|by apply IHal].
  - intros idx x e i H. cbn in H |- *.
    destruct (consume_op2 _ _ _ _) as [[] j]; inv_ok.
    + eapply and_loop_step; [by apply IHun|by apply IHal].
    + intros Hn. split_and!; [done..|]. by destruct (eval_strict e tags).
  - intros idx e i H He. cbn in H.
    destruct (at_byte bs (skip_ws bs idx) "!"%char) eqn:Hb.
    + destruct (at_byte bs (S (skip_ws bs idx)) "="%char) eqn:Hq.
      { apply primary_not_bang in H; [done|]. by rewrite skip_ws_idem. }
      inv_ok. pose proof (at_byte_lt _ _ _ Hb).
      destruct (IHun _ _ _ H0 He) as [Hs Hv]. cbn. rewrite Hb, Hq, Hs, Hv.
      rewrite decide_False by lia. split; [done|]. by destruct (eval_strict c tags).
    + destruct (IHpr _ _ _ H He) as [Hs Hv]. rewrite skip_unary_ws in Hs.
      split; [done|]. cbn [StrEval.parse_unary]. by rewrite Hb.
  - intros idx e i H. by apply primary_step.
Qed.

(** The converse: whatever the skipping walk accepts, the typed parser parses,
    to the same place and without cardinality operators. *)
Definition parses {A} (f : A → Prop) (r : result cond_error (A * nat)) (i : nat) : Prop :=
  ∃ a, r = Ok (a, i) ∧ f a.

Lemma atom_primary fuel idx i :
  (length bs ≤ skip_ws bs idx → False) →
  at_byte bs (skip_ws bs idx) "("%char = false →
  try_consume_bool_literal bs (skip_ws bs idx) = None →
  StrEval.skip_atom bs (skip_ws bs idx) = Ok i →
  parses no_cardinality (AstParser.parse_primary bs (S (S fuel)) idx) i.
Proof.
  intros Hl Hp Ht Ha. apply skip_atom_predicate in Ha as [e Ha].
  exists e. cbn [AstParser.parse_primary AstParser.try_parse_cardinality].
  rewrite decide_False by done. rewrite Hp, Ht.
  destruct (find_keyword bs (skip_ws bs idx)) as [kw|] eqn:Hk; cbn [mbind result_bind].
  - pose proof (atom_not_call _ _ _ kw Ha) as Hn. rewrite !skip_ws_idem in Hn.
    rewrite Hn by done. cbn. split; [done|]. by apply parse_predicate_atom in Ha as [? _].
  - split; [done|]. by apply parse_predicate_atom in Ha as [? _].
Qed.


Lemma parses_paren fuel idx i j :
  (length bs ≤ skip_ws bs idx → False) →
  at_byte bs (skip_ws bs idx) "("%char = true →
  parses no_cardinality (AstParser.parse_or bs fuel (S (skip_ws bs idx))) j →
  at_byte bs (skip_ws bs j) ")"%char = true → i = S (skip_ws bs j) →
  parses no_cardinality (AstParser.parse_primary bs (S fuel) idx) i.
Proof.
  intros Hl Hp (e & He & Hn) Hc ->. exists e. simpl.
  rewrite decide_False by done. rewrite Hp, He. simpl. by rewrite Hc.
Qed.

Lemma parses_bool fuel idx v i :
  (length bs ≤ skip_ws bs idx → False) →
  at_byte bs (skip_ws bs idx) "("%char = false →
  try_consume_bool_literal bs (skip_ws bs idx) = Some (v, i) →
  parses no_cardinality (AstParser.parse_primary bs (S fuel) idx) i.
Proof.
  intros Hl Hp Ht. exists (Bool v). simpl. rewrite decide_False by done.
  by rewrite Hp, Ht.
Qed.

Lemma parses_unary_primary fuel idx i :
  at_byte bs (skip_ws bs idx) "!"%char = false →
  parses no_cardinality (AstParser.parse_primary bs fuel (skip_ws bs idx)) i →
  parses no_cardinality (AstParser.parse_unary bs (S fuel) idx) i.
Proof. intros Hb H. unfold parses. simpl. by rewrite Hb. Qed.

Lemma parses_not fuel idx i :
  at_byte bs (skip_ws bs idx) "!"%char = true →
  at_byte bs (S (skip_ws bs idx)) "="%char = false →
  parses no_cardinality (AstParser.parse_unary bs fuel (S (skip_ws bs idx))) i →
  parses no_cardinality (AstParser.parse_unary bs (S fuel) idx) i.
Proof.
  intros Hb Hq (e & He & Hn). exists (Not e). simpl. by rewrite Hb, Hq, He.
Qed.

(** Sequencing an operand and a loop, and one turn of a loop. *)
Lemma parses_seq (r : result cond_error (ConditionExpr * nat)) loop j i :
  parses no_cardinality r j →
  (∀ x : ConditionExpr, no_cardinality x → parses no_cardinality (loop x j) i) →
  parses no_cardinality ('(x, idx) ← r; loop x idx) i.
Proof. intros (e & -> & Hn) Hl. by apply Hl. Qed.

Lemma skip_atom_bang idx :
  at_byte bs (skip_ws bs idx) "!"%char = true → ∀ i, StrEval.skip_atom bs idx ≠ Ok i.
Proof.
  intros Hb i H. apply skip_atom_predicate in H as [e H].
  by eapply parse_predicate_at in H.
Qed.

Lemma skip_parses fuel :
  (∀ idx i, StrEval.skip_condition bs fuel idx = Ok i →
     parses no_cardinality (AstParser.parse_or bs fuel idx) i) ∧
  (∀ idx i x, StrEval.skip_or_loop bs fuel idx = Ok i → no_cardinality x →
     parses no_cardinality (AstParser.or_loop bs fuel x idx) i) ∧
  (∀ idx i, StrEval.skip_expr_and bs fuel idx = Ok i →
     parses no_cardinality (AstParser.parse_and bs fuel idx) i) ∧
  (∀ idx i x, StrEval.skip_and_loop bs fuel idx = Ok i → no_cardinality x →
     parses no_cardinality (AstParser.and_loop bs fuel x idx) i) ∧
  (∀ idx i, StrEval.skip_unary bs fuel idx = Ok i →
     parses no_cardinality (AstParser.parse_unary bs fuel idx) i).
Proof.
  induction fuel as [fuel IH] using lt_wf_ind.
  destruct fuel as [|fuel]; [repeat split; done|].
  destruct (IH fuel ltac:(lia)) as (IHor & IHol & IHand & IHal & IHun). split_and!.
  - intros idx i H. simpl in H |- *. inv_ok.
    eapply parses_seq; [by apply IHand|]. intros. by apply IHol.
  - intros idx i x H Hx. simpl in H |- *.
    destruct (consume_op2 _ _ _ _) as [[] j]; inv_ok; [|by exists x].
    eapply (parses_seq _ (λ rhs, AstParser.or_loop bs fuel (Or x rhs))); [by apply IHand|].
    intros. apply IHol; [done|]. by apply andb_True.
  - intros idx i H. simpl in H |- *. inv_ok.
    eapply parses_seq; [by apply IHun|]. intros. by apply IHal.
  - intros idx i x H Hx. simpl in H |- *.
    destruct (consume_op2 _ _ _ _) as [[] j]; inv_ok; [|by exists x].
    eapply (parses_seq _ (λ rhs, AstParser.and_loop bs fuel (And x rhs))); [by apply IHun|].
    intros. apply IHal; [done|]. by apply andb_True.
  - intros idx i H. simpl in H. destruct (decide _); [done|].
    destruct (at_byte bs (skip_ws bs idx) "!"%char) eqn:Hb.
    { destruct (at_byte bs (S _) "="%char) eqn:Hq.
      - apply skip_atom_bang in H; [done|]. by rewrite skip_ws_idem.
      - by apply parses_not; [..|apply IHun]. }
    apply parses_unary_primary; [done|]. destruct fuel as [|fuel]; [done|].
    destruct (at_byte bs (skip_ws bs idx) "("%char) eqn:Hp.
    { inv_ok. destruct (at_byte bs _ ")"%char) eqn:Hc; inv_ok.
      match type of Hc with at_byte bs (skip_ws bs ?j) _ = _ =>
        apply (parses_paren _ _ _ j) end; rewrite ?skip_ws_idem; [done|done| |done|done].
      by apply (IH fuel ltac:(lia)). }
    destruct (try_consume_bool_literal bs _) as [[v j]|] eqn:Ht; inv_ok.
    { eapply parses_bool; by rewrite ?skip_ws_idem. }
    destruct fuel as [|fuel]; [done|]. by apply atom_primary; rewrite ?skip_ws_idem.
Qed.

Lemma eval_parses fuel :
  (∀ idx b i, StrEval.parse_or bs tags fuel idx = Ok (b, i) →
     parses no_cardinality (AstParser.parse_or bs fuel idx) i) ∧
  (∀ idx acc b i x, StrEval.or_loop bs tags fuel acc idx = Ok (b, i) → no_cardinality x →
     parses no_cardinality (AstParser.or_loop bs fuel x idx) i) ∧
  (∀ idx b i, StrEval.parse_and bs tags fuel idx = Ok (b, i) →
     parses no_cardinality (AstParser.parse_and bs fuel idx) i) ∧
  (∀ idx acc b i x, StrEval.and_loop bs tags fuel acc idx = Ok (b, i) → no_cardinality x →
     parses no_cardinality (AstParser.and_loop bs fuel x idx) i) ∧
  (∀ idx b i, StrEval.parse_unary bs tags fuel idx = Ok (b, i) →
     parses no_cardinality (AstParser.parse_unary bs fuel idx) i) ∧
  (∀ idx b i, StrEval.parse_primary bs tags fuel idx = Ok (b, i) →
     parses no_cardinality (AstParser.parse_primary bs fuel idx) i).
Proof.
  induction fuel as [|fuel (IHor & IHol & IHand & IHal & IHun & IHpr)];
    [repeat split; done|].
  destruct (skip_parses fuel) as (Sor & Sol & Sand & Sal & Sun). split_and!.
  - intros idx b i H. simpl in H |- *. inv_ok.
    eapply parses_seq; [by eapply IHand|]. intros. by eapply IHol.
  - intros idx acc b i x H Hx. simpl in H |- *.
    destruct (consume_op2 _ _ _ _) as [[] j]; [|inv_ok; by exists x].
    destruct acc; inv_ok;
      eapply (parses_seq _ (λ rhs, AstParser.or_loop bs fuel (Or x rhs))).
    1,3: first [by eapply Sand|by eapply IHand].
    all: intros; eapply IHol; [exact H|by apply andb_True].
  - intros idx b i H. simpl in H |- *. inv_ok.
    eapply parses_seq; [by eapply IHun|]. intros. by eapply IHal.
  - intros idx acc b i x H Hx. simpl in H |- *.
    destruct (consume_op2 _ _ _ _) as [[] j]; [|inv_ok; by exists x].
    destruct acc; simpl in H; inv_ok;
      eapply (parses_seq _ (λ rhs, AstParser.and_loop bs fuel (And x rhs))).
    1,3: first [by eapply Sun|by eapply IHun].
    all: intros; eapply IHal; [exact H|by apply andb_True].
  - intros idx b i H. simpl in H.
    destruct (at_byte bs (skip_ws bs idx) "!"%char) eqn:Hb.
    + destruct (at_byte bs (S _) "="%char) eqn:Hq.
      * apply IHpr in H as (e & H & _). apply primary_not_bang in H; [done|].
        by rewrite skip_ws_idem.
      * inv_ok. apply parses_not; [done|done|by eapply IHun].
    + apply parses_unary_primary; [done|by eapply IHpr].
  - intros idx b i H. simpl in H. destruct (decide _); [done|].
    destruct (at_byte bs (skip_ws bs idx) "("%char) eqn:Hp.
    { inv_ok. destruct (at_byte bs _ ")"%char) eqn:Hc; inv_ok.
      match type of Hc with at_byte bs (skip_ws bs ?j) _ = _ =>
        apply (parses_paren _ _ _ j) end; [done|done| |done|done]. by eapply IHor. }
    destruct (try_consume_bool_literal bs _) as [[v j]|] eqn:Ht; inv_ok.
    { by eapply parses_bool. }
    destruct fuel as [|fuel]; [done|]. apply eval_atom_skip in H. by apply atom_primary.
Qed.
End Agreement.

(** ** Totality *)

Section Fuel.
Context (bs : list ascii) (tags : gmap string string).

(** The cursor of a successful walk, from the typed parse it mirrors. *)
Lemma skip_bounds fuel idx i :
  idx ≤ length bs →
  (StrEval.skip_condition bs fuel idx = Ok i → idx < i ∧ i ≤ length bs) ∧
  (StrEval.skip_expr_and bs fuel idx = Ok i → idx < i ∧ i ≤ length bs) ∧
  (StrEval.skip_unary bs fuel idx = Ok i → idx < i ∧ i ≤ length bs).
Proof.
  intros Hi. destruct (parser_bounds bs fuel) as (Bor & _ & Band & _ & Bun & _).
  destruct (skip_parses bs tags fuel) as (Sor & _ & Sand & _ & Sun).
  split_and!; [intros (e & He & _)%Sor|intros (e & He & _)%Sand|intros (e & He & _)%Sun];
    [by apply Bor in He|by apply Band in He|by apply Bun in He].
Qed.

Lemma eval_bounds fuel idx b i :
  idx ≤ length bs →
  (StrEval.parse_or bs tags fuel idx = Ok (b, i) → idx < i ∧ i ≤ length bs) ∧
  (StrEval.parse_and bs tags fuel idx = Ok (b, i) → idx < i ∧ i ≤ length bs) ∧
  (StrEval.parse_unary bs tags fuel idx = Ok (b, i) → idx < i ∧ i ≤ length bs).
Proof.
  intros Hi. destruct (parser_bounds bs fuel) as (Bor & _ & Band & _ & Bun & _).
  destruct (eval_parses bs tags fuel) as (Sor & _ & Sand & _ & Sun & _).
  split_and!; [intros (e & He & _)%Sor|intros (e & He & _)%Sand|intros (e & He & _)%Sun];
    [by apply Bor in He|by apply Band in He|by apply Bun in He].
Qed.

Lemma parse_rhs_fuel idx : StrEval.parse_rhs bs idx ≠ Err OutOfFuel.
Proof.
  unfold StrEval.parse_rhs. destruct (parse_quoted_literal bs _) as [[v|] j]; [done|].
  by destruct (parse_ident bs j) as [[r|] k].
Qed.

Lemma skip_atom_fuel idx : StrEval.skip_atom bs idx ≠ Err OutOfFuel.
Proof.
  unfold StrEval.skip_atom. destruct (parse_ident bs _) as [[tag|] i1]; cbn; [|done].
  destruct (parse_operator bs _) as [[op|] i2]; cbn; [|done].
  intros H. inv_err. by apply parse_rhs_fuel in H.
Qed.

Lemma eval_atom_fuel idx : StrEval.eval_atom bs tags idx ≠ Err OutOfFuel.
Proof.
  unfold StrEval.eval_atom. destruct (parse_ident bs _) as [[tag|] i1]; cbn; [|done].
  destruct (parse_operator bs _) as [[op|] i2]; cbn; [|done].
  intros H. inv_err; [by apply parse_rhs_fuel in H|..].
  - by destruct (tags !! tag).
  - destruct r; [done|]. by destruct (tags !! s).
Qed.

Ltac pose_ws :=
  repeat match goal with
  | H : context [skip_ws bs ?i] |- _ =>
      lazymatch goal with
      | _ : i ≤ skip_ws bs i ∧ _ |- _ => fail
      | _ => pose proof (skip_ws_bounds bs i)
      end
  end.

Lemma skip_fuel fuel :
  (∀ idx, idx ≤ length bs → 8 * (length bs - idx) + 5 ≤ fuel →
     StrEval.skip_condition bs fuel idx ≠ Err OutOfFuel) ∧
  (∀ idx, idx ≤ length bs → 8 * (length bs - idx) + 1 ≤ fuel →
     StrEval.skip_or_loop bs fuel idx ≠ Err OutOfFuel) ∧
  (∀ idx, idx ≤ length bs → 8 * (length bs - idx) + 4 ≤ fuel →
     StrEval.skip_expr_and bs fuel idx ≠ Err OutOfFuel) ∧
  (∀ idx, idx ≤ length bs → 8 * (length bs - idx) + 1 ≤ fuel →
     StrEval.skip_and_loop bs fuel idx ≠ Err OutOfFuel) ∧
  (∀ idx, idx ≤ length bs → 8 * (length bs - idx) + 3 ≤ fuel →
     StrEval.skip_unary bs fuel idx ≠ Err OutOfFuel).
Proof.
  induction fuel as [fuel IH] using lt_wf_ind.
  destruct fuel as [|fuel]; [split_and!; intros; lia|].
  destruct (IH fuel ltac:(lia)) as (IHor & IHol & IHand & IHal & IHun). split_and!.
  - intros idx Hi Hf H. simpl in H. inv_err; [apply IHand in H; [done|lia..]|].
    apply skip_bounds in H0; [|done]. apply IHol in H; [done|lia..].
  - intros idx Hi Hf H. simpl in H. pose_ws.
    destruct (consume_op2 _ _ _ _) as [[] j] eqn:Ec; [|done].
    apply consume_op2_true in Ec as [-> Ec]. inv_err; [apply IHand in H; [done|lia..]|].
    apply skip_bounds in H1; [|done]. apply IHol in H; [done|lia..].
  - intros idx Hi Hf H. simpl in H. inv_err; [apply IHun in H; [done|lia..]|].
    apply skip_bounds in H0; [|done]. apply IHal in H; [done|lia..].
  - intros idx Hi Hf H. simpl in H. pose_ws.
    destruct (consume_op2 _ _ _ _) as [[] j] eqn:Ec; [|done].
    apply consume_op2_true in Ec as [-> Ec]. inv_err; [apply IHun in H; [done|lia..]|].
    apply skip_bounds in H1; [|done]. apply IHal in H; [done|lia..].
  - intros idx Hi Hf H. simpl in H. pose_ws. destruct (decide _); [done|].
    destruct (at_byte bs (skip_ws bs idx) "!"%char).
    { destruct (at_byte bs _ "="%char); [by apply skip_atom_fuel in H|].
      apply IHun in H; [done|lia..]. }
    destruct fuel as [|fuel]; [lia|].
    destruct (at_byte bs (skip_ws bs idx) "("%char).
    { inv_err; [|by destruct (at_byte bs _ ")"%char)].
      apply (IH fuel ltac:(lia)) in H; [done|lia..]. }
    destruct (try_consume_bool_literal bs _) as [[v j]|]; [done|].
    destruct fuel as [|fuel]; [lia|]. by apply skip_atom_fuel in H.
Qed.

Lemma eval_fuel fuel :
  (∀ idx, idx ≤ length bs → 8 * (length bs - idx) + 5 ≤ fuel →
     StrEval.parse_or bs tags fuel idx ≠ Err OutOfFuel) ∧
  (∀ idx acc, idx ≤ length bs → 8 * (length bs - idx) + 1 ≤ fuel →
     StrEval.or_loop bs tags fuel acc idx ≠ Err OutOfFuel) ∧
  (∀ idx, idx ≤ length bs → 8 * (length bs - idx) + 4 ≤ fuel →
     StrEval.parse_and bs tags fuel idx ≠ Err OutOfFuel) ∧
  (∀ idx acc, idx ≤ length bs → 8 * (length bs - idx) + 1 ≤ fuel →
     StrEval.and_loop bs tags fuel acc idx ≠ Err OutOfFuel) ∧
  (∀ idx, idx ≤ length bs → 8 * (length bs - idx) + 3 ≤ fuel →
     StrEval.parse_unary bs tags fuel idx ≠ Err OutOfFuel) ∧
  (∀ idx, idx ≤ length bs → 8 * (length bs - idx) + 2 ≤ fuel →
     StrEval.parse_primary bs tags fuel idx ≠ Err OutOfFuel).
Proof.
  induction fuel as [|fuel (IHor & IHol & IHand & IHal & IHun & IHpr)];
    [split_and!; intros; lia|].
  destruct (skip_fuel fuel) as (_ & _ & Fand & _ & Fun). split_and!.
  - intros idx Hi Hf H. simpl in H. inv_err; [apply IHand in H; [done|lia..]|].
    apply eval_bounds in H0; [|done]. apply IHol in H; [done|lia..].
  - intros idx acc Hi Hf H. simpl in H. pose_ws.
    destruct (consume_op2 _ _ _ _) as [[] j] eqn:Ec; [|done].
    apply consume_op2_true in Ec as [-> Ec]. destruct acc; inv_err.
    + apply Fand in H; [done|lia..].
    + apply skip_bounds in H1; [|done]. apply IHol in H; [done|lia..].
    + apply IHand in H; [done|lia..].
    + apply eval_bounds in H1; [|done]. apply IHol in H; [done|lia..].
  - intros idx Hi Hf H. simpl in H. inv_err; [apply IHun in H; [done|lia..]|].
    apply eval_bounds in H0; [|done]. apply IHal in H; [done|lia..].
  - intros idx acc Hi Hf H. simpl in H. pose_ws.
    destruct (consume_op2 _ _ _ _) as [[] j] eqn:Ec; [|done].
    apply consume_op2_true in Ec as [-> Ec]. destruct acc; simpl in H; inv_err.
    + apply IHun in H; [done|lia..].
    + apply eval_bounds in H1; [|done]. apply IHal in H; [done|lia..].
    + apply Fun in H; [done|lia..].
    + apply skip_bounds in H1; [|done]. apply IHal in H; [done|lia..].
  - intros idx Hi Hf H. simpl in H. pose_ws.
    destruct (at_byte bs (skip_ws bs idx) "!"%char) eqn:E1; [apply at_byte_lt in E1|].
    + destruct (at_byte bs _ "="%char); [apply IHpr in H; [done|lia..]|].
      inv_err. apply IHun in H; [done|lia..].
    + apply IHpr in H; [done|lia..].
  - intros idx Hi Hf H. simpl in H. pose_ws. destruct (decide _); [done|].
    destruct (at_byte bs (skip_ws bs idx) "("%char).
    { inv_err; [|by destruct (at_byte bs _ ")"%char)]. apply IHor in H; [done|lia..]. }
    destruct (try_consume_bool_literal bs _) as [[v j]|]; [done|].
    destruct fuel as [|fuel]; [lia|]. by apply eval_atom_fuel in H.
Qed.
End Fuel.

(** [eval_condition] never runs out of fuel. *)
Lemma eval_total_fuel condition tags : eval_condition condition tags ≠ Err OutOfFuel.
Proof.
  unfold eval_condition. intros H. inv_err.
  - apply eval_fuel in H; [done|lia|unfold parse_fuel; lia].
  - by destruct (decide _).
Qed.

(** On a condition the typed parser accepts and that uses no cardinality
    operator, the string evaluator computes the reference semantics. *)
Lemma eval_condition_complete condition tags e :
  parse_condition_expr condition = Ok e → no_cardinality e →
  eval_condition condition tags = eval_strict e tags.
Proof.
  unfold parse_condition_expr, eval_condition. intros H He. inv_ok.
  destruct (decide _) as [Hd|]; inv_ok.
  destruct (parser_agrees (bytes_of condition) tags (parse_fuel (length (bytes_of condition))))
    as [Hor _].
  destruct (Hor _ _ _ H0 He) as [_ ->]. destruct (eval_strict e tags); cbn; [|done].
  by rewrite decide_True.
Qed.

Lemma eval_condition_sound condition tags b :
  eval_condition condition tags = Ok b →
  ∃ e, parse_condition_expr condition = Ok e ∧ no_cardinality e ∧ eval_strict e tags = Ok b.
Proof.
  intros H. pose proof H as H'. unfold eval_condition in H. inv_ok.
  destruct (decide _) as [Hd|]; inv_ok.
  destruct (eval_parses (bytes_of condition) tags (parse_fuel (length (bytes_of condition))))
    as [Hor _].
  destruct (Hor _ _ _ H0) as (e & He & Hn).
  assert (Hp : parse_condition_expr condition = Ok e).
  { unfold parse_condition_expr. rewrite He. cbn. by rewrite decide_True. }
  exists e. split_and!; [done|done|]. by rewrite <-(eval_condition_complete _ _ _ Hp Hn).
Qed.

(** The string evaluator and the typed parser agree.  Evaluation of a
    condition succeeds with [b] exactly when the condition parses to an
    expression without cardinality operators whose reference semantics, errors
    on unbound tags included, is [b]; and it never runs out of fuel. *)
Theorem eval_condition_agrees condition tags :
  eval_condition condition tags ≠ Err OutOfFuel ∧
  ∀ b, eval_condition condition tags = Ok b ↔
    ∃ e, parse_condition_expr condition = Ok e ∧ no_cardinality e ∧ eval_strict e tags = Ok b.
Proof.
  split; [apply eval_total_fuel|]. intros b. split; [apply eval_condition_sound|].
  intros (e & Hp & Hn & <-). by apply eval_condition_complete.
Qed.

(** The evaluator rejects a condition with a cardinality operator that the
    parser accepts. *)
Example evaluator_rejects_cardinality :
  (∃ e, parse_condition_expr "any_of(a == 'x', b == 'y')" = Ok e) ∧
  ∃ err, eval_condition "any_of(a == 'x', b == 'y')" {["a" := "x"; "b" := "y"]} = Err err.
Proof. split; eexists; vm_compute; reflexivity. Qed.
