(* ===== verification/Implication.v ===== *)
(** * The exhaustive implication check

    Models [compiler/src/conditions/implication.rs] and
    [mod.rs::condition_implies_typed]: two-valued evaluation of an expression
    under a total assignment, the finite domains the atoms of two expressions
    induce, and the search of their product that decides whether one component
    condition implies another.

    A visitor that calls [sink] on each node is modelled by the list of its
    calls, in order. *)
From stdpp Require Import pretty.
From S2P Require Import Prelude Tokens Ast.

(** ** Evaluation under a total assignment *)

Definition eval_total_predicate (p : ConditionPredicate) (asg : gmap string string) : bool :=
  match asg !! p_tag p with
  | Some value =>
      match p_op p with
      | OpEq => bool_decide (value = p_value p)
      | OpNotEq => bool_decide (value ≠ p_value p)
      end
  | None => false
  end.

Fixpoint eval_total (e : ConditionExpr) (asg : gmap string string) : bool :=
  match e with
  | Bool value => value
  | Predicate p => eval_total_predicate p asg
  | Not inner => negb (eval_total inner asg)
  | And l r => eval_total l asg && eval_total r asg
  | Or l r => eval_total l asg || eval_total r asg
  | AnyOf es => existsb (λ c, eval_total c asg) es
  | AllOf es => forallb (λ c, eval_total c asg) es
  | ExactlyOneOf es => length (List.filter (λ c, eval_total c asg) es) =? 1
  | FacetCompare l op r =>
      match asg !! l, asg !! r with
      | Some lhs, Some rhs =>
          match op with
          | OpEq => bool_decide (lhs = rhs)
          | OpNotEq => bool_decide (lhs ≠ rhs)
          end
      | _, _ => false
      end
  end.

(** ** Visitors *)

Fixpoint for_each_predicate (e : ConditionExpr) : list ConditionPredicate :=
  match e with
  | Bool _ | FacetCompare _ _ _ => []
  | Predicate p => [p]
  | Not inner => for_each_predicate inner
  | And l r | Or l r => for_each_predicate l ++ for_each_predicate r
  | AnyOf es | AllOf es | ExactlyOneOf es => flat_map for_each_predicate es
  end.

Fixpoint for_each_facet_comparison (e : ConditionExpr) : list (string * string) :=
  match e with
  | Bool _ | Predicate _ => []
  | FacetCompare l _ r => [(l, r)]
  | Not inner => for_each_facet_comparison inner
  | And l r | Or l r => for_each_facet_comparison l ++ for_each_facet_comparison r
  | AnyOf es | AllOf es | ExactlyOneOf es => flat_map for_each_facet_comparison es
  end.

(** ** Domains *)

(** [tag_values.entry(tag).or_default()]. *)
Definition entry (tv : gmap string (gset string)) (tag : string) : gset string :=
  default ∅ (tv !! tag).

Definition add_value (tv : gmap string (gset string)) (p : ConditionPredicate)
    : gmap string (gset string) :=
  <[p_tag p := {[p_value p]} ∪ entry tv (p_tag p)]> tv.

Definition collect_atom_values (e : ConditionExpr) (tv : gmap string (gset string))
    : gmap string (gset string) :=
  foldl add_value tv (for_each_predicate e).

(** One turn of the [for (left, right) in &pairs] loop, and of the [loop]
    around it: [changed] says whether a set grew. *)
Definition unify_pair (st : gmap string (gset string) * bool) (lr : string * string)
    : gmap string (gset string) * bool :=
  let '(tv, changed) := st in
  let union := entry tv (fst lr) ∪ entry tv (snd lr) in
  foldl (λ '(tv, changed) tag,
           if decide (entry tv tag = union) then (tv, changed)
           else (<[tag := union]> tv, true))
    (tv, changed) [fst lr; snd lr].

#[global] Arguments unify_pair : simpl never.

Definition unify_pass (pairs : list (string * string)) (tv : gmap string (gset string))
    : gmap string (gset string) * bool :=
  foldl unify_pair (tv, false) pairs.

Fixpoint unify_loop (fuel : nat) (pairs : list (string * string))
    (tv : gmap string (gset string)) : gmap string (gset string) :=
  match fuel with
  | 0 => tv
  | S fuel =>
      let '(tv, changed) := unify_pass pairs tv in
      if changed then unify_loop fuel pairs tv else tv
  end.

(** Every value set only grows, within the values present at the start. *)
Definition all_values (tv : gmap string (gset string)) : gset string :=
  ⋃ (map_to_list tv).*2.

Definition unify_fuel (pairs : list (string * string)) (tv : gmap string (gset string)) : nat :=
  S (2 * length pairs * size (all_values tv)).

Definition unify_compared_tag_domains (antecedent consequent : ConditionExpr)
    (tv : gmap string (gset string)) : gmap string (gset string) * gset string :=
  let pairs := for_each_facet_comparison antecedent ++ for_each_facet_comparison consequent in
  let tv := foldl (λ tv '(l, r),
      let tv := <[l := entry tv l]> tv in <[r := entry tv r]> tv) tv pairs in
  let compared := foldl (λ s '(l, r), {[r]} ∪ ({[l]} ∪ s)) ∅ pairs in
  (unify_loop (unify_fuel pairs tv) pairs tv, compared).

(** [format!("{base}{counter}")] for the counters the loop tries. *)
Definition sentinel_candidate (counter : nat) : string := "__other__" +:+ pretty counter.

Fixpoint sentinel_loop (fuel counter : nat) (values : list string) : string :=
  let candidate := sentinel_candidate counter in
  match fuel with
  | 0 => candidate
  | S fuel =>
      if decide (candidate ∈ values) then sentinel_loop fuel (S counter) values else candidate
  end.

Definition unique_sentinel (values : list string) : string :=
  if decide ("__other__" ∈ values) then sentinel_loop (length values) 1 values else "__other__".

(** A tag's domain: its observed values in order, a sentinel for any other
    value and, for a compared tag, a second one. *)
Definition tag_domain (compared : gset string) (tv : gmap string (gset string)) (tag : string)
    : list string :=
  let domain := bt_elements (entry tv tag) in
  let domain := domain ++ [unique_sentinel domain] in
  if decide (tag ∈ compared) then domain ++ [unique_sentinel domain] else domain.

(** ** The search *)

Fixpoint holds_for_all_assignments (tds : list (string * list string))
    (asg : gmap string string) (antecedent consequent : ConditionExpr) : bool :=
  match tds with
  | [] => negb (eval_total antecedent asg && negb (eval_total consequent asg))
  | (tag, domain) :: tds =>
      forallb (λ value,
        holds_for_all_assignments tds (<[tag := value]> asg) antecedent consequent) domain
  end.

Definition condition_expr_implies (antecedent consequent : ConditionExpr) : bool :=
  let tv := collect_atom_values consequent (collect_atom_values antecedent ∅) in
  let '(tv, compared) := unify_compared_tag_domains antecedent consequent tv in
  let tags := bt_elements (dom tv) in
  let tds := (λ tag, (tag, tag_domain compared tv tag)) <$> tags in
  holds_for_all_assignments tds ∅ antecedent consequent.

Definition condition_implies_typed (a b : option string) : result cond_error bool :=
  match b with
  | None => Ok true
  | Some b_cond =>
      consequent ← parse_condition_expr b_cond;
      antecedent ← match a with
                   | None => Ok (Bool true)
                   | Some a_cond => parse_condition_expr a_cond
                   end;
      Ok (condition_expr_implies antecedent consequent)
  end.

Example implies_subset :
  condition_implies_typed (Some "variant == 'heavy' && region == 'us'")
    (Some "variant == 'heavy'") = Ok true.
Proof. vm_compute. reflexivity. Qed.
Example implies_compare :
  condition_implies_typed (Some "a == b && a == 'x'") (Some "b == 'x'") = Ok true.
Proof. vm_compute. reflexivity. Qed.
Example implies_compare_not :
  condition_implies_typed (Some "a == 'x'") (Some "a == b") = Ok false.
Proof. vm_compute. reflexivity. Qed.

(** ** What an expression's value depends on *)

Definition compare_agrees (asg asg' : gmap string string) (lr : string * string) : Prop :=
  ∀ op, eval_total (FacetCompare (fst lr) op (snd lr)) asg =
        eval_total (FacetCompare (fst lr) op (snd lr)) asg'.

Lemma eval_total_agree e asg asg' :
  Forall (λ p, eval_total_predicate p asg = eval_total_predicate p asg')
    (for_each_predicate e) →
  Forall (compare_agrees asg asg') (for_each_facet_comparison e) →
  eval_total e asg = eval_total e asg'.
Proof.
  induction e as [b|p|e IH|l r IHl IHr|l r IHl IHr|es IH|es IH|es IH|l op r]
    using ConditionExpr_ind'; cbn [for_each_predicate for_each_facet_comparison];
    rewrite ?Forall_app, ?Forall_flat_map; intros Hp Hc.
  - done.
  - by inversion Hp.
  - cbn. by rewrite IH.
  - cbn. rewrite IHl, IHr; [done|naive_solver..].
  - cbn. rewrite IHl, IHr; [done|naive_solver..].
  - cbn. apply existsb_cong. rewrite !Forall_forall in *. eauto.
  - cbn. apply forallb_cong. rewrite !Forall_forall in *. eauto.
  - cbn. f_equal. f_equal. apply filter_cong. rewrite !Forall_forall in *. eauto.
  - inversion Hc as [|? ? H _]. apply H.
Qed.

(** The tags an expression refers to; a total assignment binds them all. *)
Definition expr_tags (e : ConditionExpr) : list string :=
  (p_tag <$> for_each_predicate e) ++
  flat_map (λ '(l, r), [l; r]) (for_each_facet_comparison e).

Definition total_for (e : ConditionExpr) (asg : gmap string string) : Prop :=
  ∀ t, t ∈ expr_tags e → is_Some (asg !! t).

(** ** The product of the domains *)

Fixpoint in_product (tds : list (string * list string)) (asg sigma : gmap string string) : Prop :=
  match tds with
  | [] => sigma = asg
  | (tag, domain) :: tds => ∃ v, v ∈ domain ∧ in_product tds (<[tag := v]> asg) sigma
  end.

Lemma holds_for_all_spec tds asg a c :
  holds_for_all_assignments tds asg a c = true ↔
  ∀ sigma, in_product tds asg sigma → eval_total a sigma = true → eval_total c sigma = true.
Proof.
  revert asg. induction tds as [|[t d] tds IH]; intros asg; cbn.
  - split.
    + intros H sigma -> Ha. rewrite Ha in H. by destruct (eval_total c asg).
    + intros H. specialize (H asg eq_refl). destruct (eval_total a asg); [|done].
      by rewrite H.
  - rewrite forallb_elem. setoid_rewrite IH. naive_solver.
Qed.

Lemma in_product_total tds asg sigma :
  in_product tds asg sigma →
  (∀ t, is_Some (asg !! t) → is_Some (sigma !! t)) ∧
  (∀ t, t ∈ tds.*1 → is_Some (sigma !! t)).
Proof.
  revert asg. induction tds as [|[t d] tds IH]; intros asg; cbn.
  - intros ->. split; [done|]. intros t Ht. by apply not_elem_of_nil in Ht.
  - intros (v & _ & [H1 H2]%IH). split.
    + intros t' Ht'. apply H1. destruct (decide (t = t')) as [->|]; simplify_map_eq; eauto.
    + intros t' [->|Ht']%elem_of_cons; [|by apply H2]. apply H1. simplify_map_eq. eauto.
Qed.

(** Pointwise choices from the domains give a member of the product. *)
Lemma in_product_choose tags (dm : string → list string) (f : string → string) asg :
  NoDup tags → (∀ t, t ∈ tags → f t ∈ dm t) →
  ∃ sigma, in_product ((λ t, (t, dm t)) <$> tags) asg sigma ∧
    (∀ t, t ∈ tags → sigma !! t = Some (f t)) ∧
    (∀ t, t ∉ tags → sigma !! t = asg !! t).
Proof.
  intros Hnd. revert asg. induction Hnd as [|t tags Hn Hnd IH]; intros asg Hf; cbn.
  - exists asg. split_and!; [done|intros t Ht; by apply not_elem_of_nil in Ht|done].
  - destruct (IH (<[t := f t]> asg)) as (sigma & H1 & H2 & H3); [set_solver|].
    exists sigma. split_and!.
    + exists (f t). split; [apply Hf; set_solver|done].
    + intros t' [->|Ht']%elem_of_cons; [|by apply H2]. rewrite H3 by done. by simplify_map_eq.
    + intros t' Ht'. rewrite H3 by set_solver. rewrite lookup_insert_ne; [done|set_solver].
Qed.

(** ** Collected values *)

Lemma entry_insert tv t s t' :
  entry (<[t := s]> tv) t' = if decide (t = t') then s else entry tv t'.
Proof. unfold entry. rewrite lookup_insert. by case_decide. Qed.

(** [tv'] extends [tv]: more tags, larger value sets. *)
Definition extends (tv tv' : gmap string (gset string)) : Prop :=
  dom tv ⊆ dom tv' ∧ ∀ t, entry tv t ⊆ entry tv' t.

#[export] Instance extends_preorder : PreOrder extends.
Proof.
  split.
  - by intros tv.
  - intros x y z [H1 H2] [H3 H4]. split; [set_solver|].
    intros t. specialize (H2 t). specialize (H4 t). set_solver.
Qed.

Lemma extends_insert tv t s : entry tv t ⊆ s → extends tv (<[t := s]> tv).
Proof.
  intros H. split; [set_solver|]. intros t'. rewrite entry_insert.
  case_decide; subst; set_solver.
Qed.

Lemma extends_foldl {A} (f : gmap string (gset string) → A → gmap string (gset string)) l tv :
  (∀ tv a, extends tv (f tv a)) → extends tv (foldl f tv l).
Proof.
  intros Hf. revert tv. induction l as [|a l IH]; intros tv; cbn; [done|].
  by rewrite (Hf tv a) at 1.
Qed.

Lemma add_value_extends tv p : extends tv (add_value tv p).
Proof. apply extends_insert. set_solver. Qed.

Lemma collect_extends e tv : extends tv (collect_atom_values e tv).
Proof. apply extends_foldl, add_value_extends. Qed.

(** [tv] knows the value an atom names. *)
Definition knows (tv : gmap string (gset string)) (p : ConditionPredicate) : Prop :=
  p_tag p ∈ dom tv ∧ p_value p ∈ entry tv (p_tag p).

Lemma knows_extends tv tv' p : extends tv tv' → knows tv p → knows tv' p.
Proof. intros [H1 H2] [H3 H4]. split; [by apply H1|by apply H2]. Qed.

Lemma collect_knows e tv : Forall (knows (collect_atom_values e tv)) (for_each_predicate e).
Proof.
  unfold collect_atom_values. generalize (for_each_predicate e). intros ps.
  revert tv. induction ps as [|p ps IH]; intros tv; [constructor|]. cbn. constructor; [|apply IH].
  eapply knows_extends; [apply extends_foldl, add_value_extends|].
  unfold knows, add_value. rewrite entry_insert, decide_True by done. set_solver.
Qed.

(** ** Unification of the compared tags *)

Section Unify.
Context (U : gset string).

Definition bounded (tv : gmap string (gset string)) : Prop := ∀ t, entry tv t ⊆ U.

(** What is left to add to the sets of a list of tags. *)
Definition weight (ts : list string) (tv : gmap string (gset string)) : nat :=
  sum_list ((λ t, size (entry tv t)) <$> ts).

Definition pair_tags (pairs : list (string * string)) : list string :=
  flat_map (λ '(l, r), [l; r]) pairs.

Lemma weight_mono ts tv tv' : extends tv tv' → weight ts tv ≤ weight ts tv'.
Proof.
  intros [_ H]. unfold weight. induction ts as [|t ts IH]; cbn; [lia|].
  pose proof (subseteq_size _ _ (H t)). lia.
Qed.

Lemma weight_strict ts tv tv' t :
  extends tv tv' → t ∈ ts → entry tv t ≠ entry tv' t → weight ts tv < weight ts tv'.
Proof.
  intros He Ht Hne. induction ts as [|t' ts IH]; [by apply not_elem_of_nil in Ht|].
  unfold weight in *. cbn. destruct He as [Hd H].
  apply elem_of_cons in Ht as [<-|Ht].
  - pose proof (weight_mono ts tv tv' (conj Hd H)). unfold weight in *.
    assert (entry tv t ⊂ entry tv' t) as Hs%subset_size by (pose proof (H t); set_solver). lia.
  - pose proof (subseteq_size _ _ (H t')). specialize (IH Ht). lia.
Qed.

Lemma weight_bound ts tv : bounded tv → weight ts tv ≤ length ts * size U.
Proof.
  intros H. unfold weight. induction ts as [|t ts IH]; cbn; [lia|].
  pose proof (subseteq_size _ _ (H t)). lia.
Qed.

Lemma unify_pair_spec tv ch lr tv' ch' :
  unify_pair (tv, ch) lr = (tv', ch') → bounded tv →
  extends tv tv' ∧ bounded tv' ∧
  ((tv' = tv ∧ ch' = ch ∧ entry tv (fst lr) = entry tv (snd lr)) ∨
   (ch' = true ∧ ∃ t, t ∈ [fst lr; snd lr] ∧ entry tv t ≠ entry tv' t)).
Proof.
  destruct lr as [l r]. unfold unify_pair. cbn [fst snd foldl].
  set (u := entry tv l ∪ entry tv r). intros H Hb.
  assert (Hu : u ⊆ U) by (pose proof (Hb l); pose proof (Hb r); set_solver).
  assert (Hbi : ∀ tv0 t, bounded tv0 → bounded (<[t := u]> tv0)).
  { intros tv0 t Ht t'. rewrite entry_insert. destruct (decide (t = t')); [exact Hu|apply Ht]. }
  destruct (decide (entry tv l = u)) as [El|El].
  - destruct (decide (entry tv r = u)) as [Er|Er]; injection H as <- <-.
    + split_and!; [done|done|]. left. split_and!; [done|done|congruence].
    + split_and!; [apply extends_insert; set_solver|by apply Hbi|]. right.
      split; [done|]. exists r. rewrite entry_insert, decide_True by done. set_solver.
  - assert (He1 : extends tv (<[l := u]> tv)) by (apply extends_insert; set_solver).
    destruct (decide (entry (<[l := u]> tv) r = u)) as [Er|Er]; injection H as <- <-.
    + split_and!; [done|by apply Hbi|]. right. split; [done|]. exists l.
      rewrite entry_insert, decide_True by done. set_solver.
    + assert (l ≠ r) by (intros ->; rewrite entry_insert, decide_True in Er by done; congruence).
      split_and!; [|by apply Hbi, Hbi|].
      * etrans; [exact He1|]. apply extends_insert. rewrite entry_insert.
        case_decide; [done|set_solver].
      * right. split; [done|]. exists l.
        rewrite !entry_insert, decide_False, decide_True by done. set_solver.
Qed.

Lemma unify_pair_flag tv lr : snd (unify_pair (tv, true) lr) = true.
Proof. unfold unify_pair. cbn. by repeat case_decide. Qed.

Lemma unify_pass_flag pairs tv : snd (foldl unify_pair (tv, true) pairs) = true.
Proof.
  revert tv. induction pairs as [|lr pairs IH]; intros tv; cbn; [done|].
  pose proof (unify_pair_flag tv lr) as H.
  destruct (unify_pair (tv, true) lr) as [tv1 ch1]. cbn in H. subst. apply IH.
Qed.

Lemma unify_pass_spec pairs tv tv' ch' :
  unify_pass pairs tv = (tv', ch') → bounded tv →
  extends tv tv' ∧ bounded tv' ∧
  (ch' = false → tv' = tv ∧ Forall (λ lr, entry tv (fst lr) = entry tv (snd lr)) pairs) ∧
  (ch' = true → weight (pair_tags pairs) tv < weight (pair_tags pairs) tv').
Proof.
  unfold unify_pass.
  cut (∀ ch, foldl unify_pair (tv, ch) pairs = (tv', ch') → bounded tv →
    extends tv tv' ∧ bounded tv' ∧
    (ch' = false → tv' = tv ∧ Forall (λ lr, entry tv (fst lr) = entry tv (snd lr)) pairs) ∧
    (ch' = true → ch = true ∨ weight (pair_tags pairs) tv < weight (pair_tags pairs) tv')).
  { intros H H1 H2. destruct (H false H1 H2) as (? & ? & ? & Ht). split_and!; [done..|].
    intros Hc. by destruct (Ht Hc). }
  revert tv. induction pairs as [|lr pairs IH]; intros tv ch H Hb; cbn in H.
  { injection H as <- <-. split_and!; [done|done|by intros|by left]. }
  destruct (unify_pair (tv, ch) lr) as [tv1 ch1] eqn:E.
  apply unify_pair_spec in E as (He1 & Hb1 & Hc1); [|done].
  pose proof (IH _ _ H Hb1) as (He2 & Hb2 & Hf & Ht). split_and!.
  - by etrans.
  - done.
  - intros ->. destruct (Hf eq_refl) as [-> Hall].
    destruct Hc1 as [(-> & -> & Hlr)|[-> _]]; [split; [done|by constructor]|].
    pose proof (unify_pass_flag pairs tv1) as Hfl. by rewrite H in Hfl.
  - intros Hc. destruct lr as [l r]. cbn in Hc1.
    change (pair_tags ((l, r) :: pairs)) with (l :: r :: pair_tags pairs).
    assert (Hm : weight (pair_tags pairs) tv ≤ weight (pair_tags pairs) tv1)
      by by apply weight_mono.
    destruct Hc1 as [(-> & -> & _)|(-> & t & Htin & Hne)].
    + destruct (Ht Hc) as [->|Hw]; [by left|]. right.
      unfold weight in *. cbn. pose proof (subseteq_size _ _ (proj2 He2 l)).
      pose proof (subseteq_size _ _ (proj2 He2 r)). lia.
    + right. eapply Nat.lt_le_trans; [|by apply weight_mono].
      apply (weight_strict _ _ _ t); [done|set_solver|done].
Qed.

Lemma unify_loop_spec fuel pairs tv :
  bounded tv → length (pair_tags pairs) * size U < weight (pair_tags pairs) tv + fuel →
  extends tv (unify_loop fuel pairs tv) ∧
  Forall (λ lr, entry (unify_loop fuel pairs tv) (fst lr) =
                entry (unify_loop fuel pairs tv) (snd lr)) pairs.
Proof.
  revert tv. induction fuel as [|fuel IH]; intros tv Hb Hf; cbn.
  { pose proof (weight_bound (pair_tags pairs) tv Hb). lia. }
  destruct (unify_pass pairs tv) as [tv1 ch] eqn:E.
  apply unify_pass_spec in E as (He & Hb1 & Hfalse & Htrue); [|done].
  destruct ch.
  - destruct (IH tv1) as [IH1 IH2]; [done|specialize (Htrue eq_refl); lia|].
    split; [by etrans|done].
  - by destruct (Hfalse eq_refl) as [-> ?].
Qed.
End Unify.

Lemma bounded_all_values tv : bounded (all_values tv) tv.
Proof.
  intros t. unfold entry, all_values. destruct (tv !! t) as [s|] eqn:E; cbn; [|set_solver].
  intros x Hx. apply elem_of_union_list. exists s. split; [|done].
  apply list_elem_of_fmap. exists (t, s). split; [done|]. by apply elem_of_map_to_list.
Qed.

Lemma length_pair_tags pairs : length (pair_tags pairs) = 2 * length pairs.
Proof. unfold pair_tags. induction pairs as [|[l r] pairs IH]; cbn; [done|]. lia. Qed.

(** The domains after unification: both sides of every comparison are known
    and have one value set, and nothing was lost. *)
Lemma unify_spec a c tv tv' compared :
  unify_compared_tag_domains a c tv = (tv', compared) →
  extends tv tv' ∧
  ∀ l r, (l, r) ∈ for_each_facet_comparison a ++ for_each_facet_comparison c →
    l ∈ dom tv' ∧ r ∈ dom tv' ∧ l ∈ compared ∧ r ∈ compared ∧ entry tv' l = entry tv' r.
Proof.
  unfold unify_compared_tag_domains.
  set (pairs := for_each_facet_comparison a ++ for_each_facet_comparison c).
  set (tv0 := foldl _ tv pairs). intros [= <- <-].
  destruct (unify_loop_spec (all_values tv0) (unify_fuel pairs tv0) pairs tv0) as [H1 H2].
  { apply bounded_all_values. }
  { rewrite length_pair_tags. unfold unify_fuel. lia. }
  assert (He0 : ∀ tv (lr : string * string), extends tv (let '(l, r) := lr in
      let tv := <[l := entry tv l]> tv in <[r := entry tv r]> tv)).
  { intros tv1 [l r]. etrans; [by apply (extends_insert _ l)|]. by apply extends_insert. }
  split; [etrans; [|exact H1]; by apply extends_foldl|].
  intros l r Hlr. rewrite Forall_forall in H2. specialize (H2 _ Hlr).
  assert (Hd : l ∈ dom tv0 ∧ r ∈ dom tv0).
  { unfold tv0. clear -Hlr He0. revert tv. induction pairs as [|[l' r'] pairs IH];
      intros tv; [by apply not_elem_of_nil in Hlr|]. cbn.
    apply elem_of_cons in Hlr as [[= -> ->]|Hlr]; [|by apply IH].
    pose proof (proj1 (extends_foldl _ pairs
      (<[r' := entry (<[l' := entry tv l']> tv) r']> (<[l' := entry tv l']> tv)) He0)).
    set_solver. }
  assert (Hc : ∀ s : gset string, l ∈ foldl (λ s '(l, r), {[r]} ∪ ({[l]} ∪ s)) s pairs ∧
                    r ∈ foldl (λ s '(l, r), {[r]} ∪ ({[l]} ∪ s)) s pairs).
  { clear -Hlr. intros s. assert (Hm : ∀ (ps : list (string * string)) (s : gset string),
      s ⊆ foldl (λ s '(l, r), {[r]} ∪ ({[l]} ∪ s)) s ps).
    { induction ps as [|[l' r'] ps IH]; intros s'; cbn; [done|]. etrans; [|apply IH]. set_solver. }
    revert s. induction pairs as [|[l' r'] pairs IH];
      intros s; [by apply not_elem_of_nil in Hlr|]. cbn.
    apply elem_of_cons in Hlr as [[= -> ->]|Hlr]; [|by apply IH].
    pose proof (Hm pairs ({[r']} ∪ ({[l']} ∪ s))). set_solver. }
  destruct (Hc ∅), Hd. destruct H1 as [H1 _]. split_and!; [set_solver..|done].
Qed.

(** ** Sentinels are fresh *)

Lemma sentinel_candidate_inj n m : sentinel_candidate n = sentinel_candidate m → n = m.
Proof. unfold sentinel_candidate. intros H%(inj (String.app _)). by apply (inj pretty) in H. Qed.

Lemma sentinel_loop_fresh fuel counter values :
  (∀ n, 1 ≤ n < counter → sentinel_candidate n ∈ values) →
  length values < counter + fuel →
  1 ≤ counter →
  sentinel_loop fuel counter values ∉ values.
Proof.
  revert counter. induction fuel as [|fuel IH]; intros counter Hin Hf Hc; cbn.
  - intros Hlast.
    assert (Hsub : sentinel_candidate <$> seq 1 counter ⊆+ values).
    { apply NoDup_submseteq.
      - apply NoDup_fmap_2_strong; [|apply NoDup_seq]. intros ? ? _ _. apply sentinel_candidate_inj.
      - intros x (n & -> & Hn)%list_elem_of_fmap. apply elem_of_seq in Hn.
        destruct (decide (n = counter)) as [->|]; [done|]. apply Hin. lia. }
    apply submseteq_length in Hsub. rewrite length_fmap, length_seq in Hsub. lia.
  - destruct (decide _); [|done]. apply IH; [|lia|lia].
    intros n Hn. destruct (decide (n = counter)) as [->|]; [done|]. apply Hin. lia.
Qed.

Lemma unique_sentinel_fresh values : unique_sentinel values ∉ values.
Proof.
  unfold unique_sentinel. destruct (decide _); [|done].
  apply sentinel_loop_fresh; lia.
Qed.

(** ** Correctness of the search

    An arbitrary total assignment is abstracted, without changing the value of
    either expression, into a member of the searched product. *)

Section Abstraction.
Context (tv : gmap string (gset string)) (compared : gset string).

Definition sentinel1 (t : string) : string := unique_sentinel (bt_elements (entry tv t)).
Definition sentinel2 (t : string) : string :=
  unique_sentinel (bt_elements (entry tv t) ++ [sentinel1 t]).

Lemma sentinel1_fresh t : sentinel1 t ∉ entry tv t.
Proof.
  rewrite <-elem_of_bt_elements. apply unique_sentinel_fresh.
Qed.

Lemma sentinel2_fresh t : sentinel2 t ∉ entry tv t ∧ sentinel2 t ≠ sentinel1 t.
Proof.
  pose proof (unique_sentinel_fresh (bt_elements (entry tv t) ++ [sentinel1 t])) as H.
  fold (sentinel2 t) in H. rewrite elem_of_app, elem_of_bt_elements in H. set_solver.
Qed.

Lemma elem_of_tag_domain t v :
  v ∈ tag_domain compared tv t ↔
  v ∈ entry tv t ∨ v = sentinel1 t ∨ (t ∈ compared ∧ v = sentinel2 t).
Proof.
  unfold tag_domain. fold (sentinel1 t). fold (sentinel2 t).
  destruct (decide _); rewrite !elem_of_app, elem_of_bt_elements, !list_elem_of_singleton;
    naive_solver.
Qed.

(** [w] stands for [v] among values of which only those in [S] are named. *)
Definition stands_for (S : gset string) (v w : string) : Prop :=
  (v ∈ S ∧ w = v) ∨ (v ∉ S ∧ w ∉ S).

Definition name_or (S : gset string) (other v : string) : string :=
  if decide (v ∈ S) then v else other.

Lemma name_or_stands S other v : other ∉ S → stands_for S v (name_or S other v).
Proof. intros H. unfold name_or, stands_for. case_decide; naive_solver. Qed.

Lemma eval_predicate_stands p sigma sigma' v w :
  knows tv p → sigma !! p_tag p = Some v → sigma' !! p_tag p = Some w →
  stands_for (entry tv (p_tag p)) v w →
  eval_total_predicate p sigma = eval_total_predicate p sigma'.
Proof.
  intros [_ Hk] Hv Hw Hs. unfold eval_total_predicate. rewrite Hv, Hw.
  assert (v = p_value p ↔ w = p_value p) as Hiff.
  { destruct Hs as [[? ->]|[? ?]]; [done|]. split; intros ->; done. }
  destruct (p_op p); apply bool_decide_ext; tauto.
Qed.

Lemma compare_agrees_intro sigma sigma' l r v1 v2 w1 w2 :
  sigma !! l = Some v1 → sigma !! r = Some v2 →
  sigma' !! l = Some w1 → sigma' !! r = Some w2 →
  (v1 = v2 ↔ w1 = w2) → compare_agrees sigma sigma' (l, r).
Proof.
  intros H1 H2 H3 H4 H op. cbn. rewrite H1, H2, H3, H4.
  destruct op; apply bool_decide_ext; tauto.
Qed.

(** The abstraction: named values stay; other values become the first
    sentinel, except that the right side of the compared pair becomes the
    second one where it differs from the left side. *)
Definition abstract_value (sigma : gmap string string) (l r t : string) : string :=
  name_or (entry tv t)
    (if decide (t = r ∧ r ∈ compared ∧ sigma !! l ≠ sigma !! r) then sentinel2 t else sentinel1 t)
    (default EmptyString (sigma !! t)).

Lemma abstract_value_domain sigma l r t :
  abstract_value sigma l r t ∈ tag_domain compared tv t.
Proof.
  rewrite elem_of_tag_domain. unfold abstract_value, name_or.
  repeat case_decide; naive_solver.
Qed.

Lemma abstract_value_stands sigma l r t v :
  sigma !! t = Some v → stands_for (entry tv t) v (abstract_value sigma l r t).
Proof.
  intros H. unfold abstract_value. rewrite H. cbn. apply name_or_stands.
  case_decide; [apply sentinel2_fresh|apply sentinel1_fresh].
Qed.

Lemma abstract_value_pair sigma l r v1 v2 :
  entry tv l = entry tv r → r ∈ compared → sigma !! l = Some v1 → sigma !! r = Some v2 →
  v1 = v2 ↔ abstract_value sigma l r l = abstract_value sigma l r r.
Proof.
  intros He Hc H1 H2.
  assert (Hs1 : sentinel1 l = sentinel1 r) by (unfold sentinel1; by rewrite He).
  assert (Hs2 : sentinel2 l = sentinel2 r) by (unfold sentinel2; by rewrite He, Hs1).
  unfold abstract_value. rewrite H1, H2. cbn. rewrite <-He, <-Hs1, <-Hs2. unfold name_or.
  rewrite (decide_False (P := l = r ∧ _)) by (intros (-> & _ & Hne); congruence).
  pose proof (sentinel1_fresh l). pose proof (sentinel2_fresh l) as [? ?].
  destruct (decide (v1 = v2)) as [<-|Hv].
  - rewrite (decide_False (P := r = r ∧ _)) by naive_solver. done.
  - rewrite (decide_True (P := r = r ∧ _)) by naive_solver.
    split; [done|]. repeat case_decide; congruence.
Qed.
End Abstraction.

(** All facet comparisons of the two expressions are between [l] and [r]. *)
Definition compares_only (l r : string) (a c : ConditionExpr) : Prop :=
  ∀ x y, (x, y) ∈ for_each_facet_comparison a ++ for_each_facet_comparison c →
    (x = l ∨ x = r) ∧ (y = l ∨ y = r).

(** The facts about the domains that both directions use. *)
Definition domains_for (a c : ConditionExpr) (tv : gmap string (gset string))
    (compared : gset string) : Prop :=
  Forall (knows tv) (for_each_predicate a ++ for_each_predicate c) ∧
  ∀ x y, (x, y) ∈ for_each_facet_comparison a ++ for_each_facet_comparison c →
    x ∈ dom tv ∧ y ∈ dom tv ∧ x ∈ compared ∧ y ∈ compared ∧ entry tv x = entry tv y.

Lemma domains_for_implies a c tv compared :
  unify_compared_tag_domains a c
    (collect_atom_values c (collect_atom_values a ∅)) = (tv, compared) →
  domains_for a c tv compared.
Proof.
  intros H. apply unify_spec in H as [He Hc]. split; [|done].
  apply Forall_app. split; (eapply Forall_impl; [apply collect_knows|]);
    intros p; apply knows_extends; [|done]. etrans; [apply collect_extends|done].
Qed.

Lemma domains_for_tags a c tv compared t :
  domains_for a c tv compared → t ∈ expr_tags a ++ expr_tags c → t ∈ dom tv.
Proof.
  intros [Hk Hc] Ht. unfold expr_tags in Ht. rewrite Forall_forall in Hk.
  repeat setoid_rewrite elem_of_app in Ht. setoid_rewrite list_elem_of_fmap in Ht.
  setoid_rewrite elem_of_flat_map in Ht.
  destruct Ht as [[(p & -> & Hp)|([x y] & Hxy & Ht)]|[(p & -> & Hp)|([x y] & Hxy & Ht)]];
    [apply Hk, elem_of_app; by left| |apply Hk, elem_of_app; by right|];
    (edestruct (Hc x y) as (? & ? & _); [apply elem_of_app; eauto|]);
    apply elem_of_cons in Ht as [->|Ht]; [done| |done|];
    by apply list_elem_of_singleton in Ht as ->.
Qed.

Lemma abstract_agrees a c tv compared l r sigma :
  domains_for a c tv compared → compares_only l r a c →
  total_for a sigma → total_for c sigma →
  ∃ sigma',
    in_product ((λ t, (t, tag_domain compared tv t)) <$> bt_elements (dom tv)) ∅ sigma' ∧
    eval_total a sigma = eval_total a sigma' ∧ eval_total c sigma = eval_total c sigma'.
Proof.
  intros Hdom Honly Ha Hc.
  destruct (in_product_choose (bt_elements (dom tv)) (tag_domain compared tv)
    (abstract_value tv compared sigma l r) ∅) as (sigma' & Hin & Hval & _).
  { apply NoDup_bt_elements. } { intros t _. apply abstract_value_domain. }
  exists sigma'. split; [done|].
  assert (Hv : ∀ t, t ∈ expr_tags a ++ expr_tags c →
    ∃ v, sigma !! t = Some v ∧ sigma' !! t = Some (abstract_value tv compared sigma l r t)).
  { intros t Ht. pose proof (domains_for_tags _ _ _ _ _ Hdom Ht).
    assert (is_Some (sigma !! t)) as [v Hv] by (apply elem_of_app in Ht as [?|?]; eauto).
    exists v. split; [done|]. apply Hval. by apply elem_of_bt_elements. }
  destruct Hdom as [Hk Hcmp]. rewrite Forall_forall in Hk.
  assert (Hp : ∀ p, p ∈ for_each_predicate a ++ for_each_predicate c →
    eval_total_predicate p sigma = eval_total_predicate p sigma').
  { intros p Hp. destruct (Hv (p_tag p)) as (v & H1 & H2).
    { unfold expr_tags. rewrite !elem_of_app, !list_elem_of_fmap.
      apply elem_of_app in Hp as [?|?]; naive_solver. }
    eapply eval_predicate_stands; eauto using abstract_value_stands. }
  assert (Hq : ∀ lr, lr ∈ for_each_facet_comparison a ++ for_each_facet_comparison c →
    compare_agrees sigma sigma' lr).
  { intros [x y] Hxy. destruct (Hcmp x y Hxy) as (_ & _ & Hx & Hy & He).
    assert (Ht : x ∈ expr_tags a ++ expr_tags c ∧ y ∈ expr_tags a ++ expr_tags c).
    { unfold expr_tags. rewrite !elem_of_app, !elem_of_flat_map.
      apply elem_of_app in Hxy as [?|?]; split; [left; right|left; right|right; right|right; right];
        exists (x, y); set_solver. }
    destruct (Hv x (proj1 Ht)) as (v1 & H1 & H1'), (Hv y (proj2 Ht)) as (v2 & H2 & H2').
    eapply compare_agrees_intro; [exact H1|exact H2|exact H1'|exact H2'|].
    destruct (Honly x y Hxy) as [[->| ->] [->| ->]];
      [simplify_eq; done|by apply abstract_value_pair| |simplify_eq; done].
    rewrite (eq_comm v1), (eq_comm (abstract_value _ _ _ _ _ r)).
    by apply abstract_value_pair. }
  split; apply eval_total_agree; apply Forall_forall; intros x Hx;
    [apply Hp|apply Hq|apply Hp|apply Hq]; apply elem_of_app; eauto.
Qed.

Lemma holds_for_all_false tds asg a c :
  holds_for_all_assignments tds asg a c = false →
  ∃ sigma, in_product tds asg sigma ∧ eval_total a sigma = true ∧ eval_total c sigma = false.
Proof.
  revert asg. induction tds as [|[t d] tds IH]; intros asg; cbn.
  - intros [H1 H2]%negb_false_iff%andb_prop. apply negb_true_iff in H2. eauto.
  - intros (v & Hv & (sigma & ? & ?)%IH)%forallb_elem_false. eauto.
Qed.

Lemma product_total a c tv compared sigma :
  domains_for a c tv compared →
  in_product ((λ t, (t, tag_domain compared tv t)) <$> bt_elements (dom tv)) ∅ sigma →
  total_for a sigma ∧ total_for c sigma.
Proof.
  intros E [_ Hin]%in_product_total.
  split; intros t Ht; apply Hin; rewrite <-list_fmap_compose;
    apply list_elem_of_fmap; exists t; (split; [done|]);
    apply elem_of_bt_elements; eapply domains_for_tags; eauto; apply elem_of_app; eauto.
Qed.

(** With at most one compared pair of facets, the check decides implication
    over all total assignments. *)
Lemma condition_expr_implies_correct a c l r :
  compares_only l r a c →
  condition_expr_implies a c = true ↔
  ∀ sigma, total_for a sigma → total_for c sigma →
    eval_total a sigma = true → eval_total c sigma = true.
Proof.
  intros Honly. unfold condition_expr_implies.
  destruct (unify_compared_tag_domains _ _ _) as [tv compared] eqn:E.
  apply domains_for_implies in E. rewrite holds_for_all_spec. split.
  - intros H sigma Ha Hc.
    destruct (abstract_agrees _ _ _ _ _ _ sigma E Honly Ha Hc) as (sigma' & Hin & -> & ->).
    by apply H.
  - intros H sigma Hin. apply (product_total _ _ _ _ _ E) in Hin as [? ?]. by apply H.
Qed.

(** Whatever it compares, a negative answer has a total counterexample. *)
Lemma condition_expr_implies_refutes a c :
  condition_expr_implies a c = false →
  ∃ sigma, total_for a sigma ∧ total_for c sigma ∧
    eval_total a sigma = true ∧ eval_total c sigma = false.
Proof.
  unfold condition_expr_implies.
  destruct (unify_compared_tag_domains _ _ _) as [tv compared] eqn:E.
  apply domains_for_implies in E. intros H.
  apply holds_for_all_false in H as (sigma & Hin & H1 & H2).
  apply (product_total _ _ _ _ _ E) in Hin as [? ?]. eauto.
Qed.

(** With three mutually compared facets the two sentinels are too few: the
    check answers that three pairwise different facets imply [false]. *)
Definition three_differ : ConditionExpr :=
  And (And (FacetCompare "a" OpNotEq "b") (FacetCompare "b" OpNotEq "c"))
      (FacetCompare "a" OpNotEq "c").

Lemma implies_unsound_three :
  condition_implies_typed (Some "a != b && b != c && a != c") (Some "false") = Ok true ∧
  ∃ sigma, total_for three_differ sigma ∧ eval_total three_differ sigma = true.
Proof.
  split; [vm_compute; reflexivity|].
  exists (list_to_map [("a", "x"); ("b", "y"); ("c", "z")]).
  split; [|vm_compute; reflexivity].
  intros t Ht. unfold expr_tags in Ht. cbn in Ht. set_unfold in Ht.
  destruct_or! Ht; subst; vm_compute; eauto.
Qed.

(** The implication check decides implication.  For two conditions whose
    comparisons relate at most one pair of facets, the answer is [true] exactly
    when every assignment that binds their tags and satisfies the first
    satisfies the second, although only the values named in the conditions and
    two stand-ins are searched. *)
Theorem implication_decides a b ea eb l r :
  parse_condition_expr a = Ok ea → parse_condition_expr b = Ok eb → compares_only l r ea eb →
  ∃ answer, condition_implies_typed (Some a) (Some b) = Ok answer ∧
    (answer = true ↔ ∀ sigma, total_for ea sigma → total_for eb sigma →
       eval_total ea sigma = true → eval_total eb sigma = true).
Proof.
  intros Ha Hb Honly. unfold condition_implies_typed. rewrite Hb, Ha. eexists. split; [done|].
  by apply (condition_expr_implies_correct _ _ l r).
Qed.

Lemma implication_decides_witness :
  ∃ answer, condition_implies_typed (Some "a == b && a == 'x'") (Some "b == 'x'") = Ok answer ∧
    (answer = true ↔ ∀ sigma,
       total_for (And (FacetCompare "a" OpEq "b")
         (Predicate {| p_tag := "a"; p_op := OpEq; p_value := "x" |})) sigma →
       total_for (Predicate {| p_tag := "b"; p_op := OpEq; p_value := "x" |}) sigma →
       eval_total (And (FacetCompare "a" OpEq "b")
         (Predicate {| p_tag := "a"; p_op := OpEq; p_value := "x" |})) sigma = true →
       eval_total (Predicate {| p_tag := "b"; p_op := OpEq; p_value := "x" |}) sigma = true).
Proof.
  apply (implication_decides _ _ _ _ "a" "b"); [vm_compute; reflexivity|vm_compute; reflexivity|].
  intros x y H. cbn in H. apply list_elem_of_singleton in H. injection H as -> ->. eauto.
Defined.

(** A negative answer is always right: whatever the conditions compare,
    when the check says the first does not imply the second there is an
    assignment binding their tags that satisfies the first and not the
    second. *)
Theorem implication_refutes a b ea eb :
  parse_condition_expr a = Ok ea → parse_condition_expr b = Ok eb →
  condition_implies_typed (Some a) (Some b) = Ok false →
  ∃ sigma, total_for ea sigma ∧ total_for eb sigma ∧
    eval_total ea sigma = true ∧ eval_total eb sigma = false.
Proof.
  intros Ha Hb H. unfold condition_implies_typed in H. rewrite Hb, Ha in H.
  injection H as H. by apply condition_expr_implies_refutes.
Qed.

Lemma implication_refutes_witness :
  ∃ sigma, total_for (Predicate {| p_tag := "a"; p_op := OpEq; p_value := "x" |}) sigma ∧
    total_for (FacetCompare "a" OpEq "b") sigma ∧
    eval_total (Predicate {| p_tag := "a"; p_op := OpEq; p_value := "x" |}) sigma = true ∧
    eval_total (FacetCompare "a" OpEq "b") sigma = false.
Proof.
  apply (implication_refutes "a == 'x'" "a == b"); vm_compute; reflexivity.
Defined.
