(* ===== verification/FacetCompare.v ===== *)
(** * Expansion of facet-to-facet comparisons

    Models [compiler/src/conditions/facet_compare.rs]: [a == b] is rewritten,
    against the declared domains, into a conjunction of literal comparisons
    before the expression reaches the BDD construction. *)
From S2P Require Import Prelude Tokens Ast Implication.

(** The one failure of the expansion. *)
Inductive expand_error : Type :=
  | UndeclaredDomain (name : string).

Definition declared_domain (name : string) (domains : gmap string (list string))
    : result expand_error (list string) :=
  ok_or (domains !! name) (UndeclaredDomain name).

Definition predicate (tag : string) (op : ConditionPredicateOp) (value : string)
    : ConditionExpr :=
  Predicate {| p_tag := tag; p_op := op; p_value := value |}.

Definition union_in_fold_order (left right : list string) : list string :=
  foldl (λ union value, if decide (value ∈ union) then union else union ++ [value])
    [] (left ++ right).

(** The term one value of the union contributes ([None] for the unreachable
    [continue]). *)
Definition equality_term (l r : string) (left_values right_values : list string)
    (value : string) : option ConditionExpr :=
  match decide (value ∈ left_values), decide (value ∈ right_values) with
  | left _, left _ =>
      Some (Or (And (predicate l OpEq value) (predicate r OpEq value))
               (And (predicate l OpNotEq value) (predicate r OpNotEq value)))
  | left _, right _ => Some (predicate l OpNotEq value)
  | right _, left _ => Some (predicate r OpNotEq value)
  | right _, right _ => None
  end.

Definition expand_equality (l r : string) (domains : gmap string (list string))
    : result expand_error ConditionExpr :=
  left_values ← declared_domain l domains;
  right_values ← declared_domain r domains;
  let folded :=
    foldl (λ folded value,
        match equality_term l r left_values right_values value with
        | None => folded
        | Some term =>
            Some (match folded with
                  | None => term
                  | Some previous => And previous term
                  end)
        end)
      None (union_in_fold_order left_values right_values) in
  Ok (default (Bool true) folded).

Fixpoint expand_facet_comparisons (e : ConditionExpr) (domains : gmap string (list string))
    : result expand_error ConditionExpr :=
  match e with
  | Bool _ | Predicate _ => Ok e
  | Not inner => inner ← expand_facet_comparisons inner domains; Ok (Not inner)
  | And l r =>
      l ← expand_facet_comparisons l domains;
      r ← expand_facet_comparisons r domains; Ok (And l r)
  | Or l r =>
      l ← expand_facet_comparisons l domains;
      r ← expand_facet_comparisons r domains; Ok (Or l r)
  | AnyOf es => es ← collect_results (λ e, expand_facet_comparisons e domains) es; Ok (AnyOf es)
  | AllOf es => es ← collect_results (λ e, expand_facet_comparisons e domains) es; Ok (AllOf es)
  | ExactlyOneOf es =>
      es ← collect_results (λ e, expand_facet_comparisons e domains) es; Ok (ExactlyOneOf es)
  | FacetCompare l op r =>
      equality ← expand_equality l r domains;
      Ok (match op with OpEq => equality | OpNotEq => Not equality end)
  end.

(** [for_each_condition_operand]: the operands in source order. *)
Inductive ConditionOperand : Type :=
  | Symbol (facet value : string)
  | ComparisonLeft (facet : string)
  | ComparisonRight (facet : string).

Fixpoint visit_operands (e : ConditionExpr) : list ConditionOperand :=
  match e with
  | Bool _ => []
  | Predicate p => [Symbol (p_tag p) (p_value p)]
  | FacetCompare l _ r => [ComparisonLeft l; ComparisonRight r]
  | Not inner => visit_operands inner
  | And l r | Or l r => visit_operands l ++ visit_operands r
  | AnyOf es | AllOf es | ExactlyOneOf es => flat_map visit_operands es
  end.

Definition for_each_condition_operand := visit_operands.

(** ** The union *)

Lemma elem_of_union_in_fold_order l r v :
  v ∈ union_in_fold_order l r ↔ v ∈ l ∨ v ∈ r.
Proof.
  unfold union_in_fold_order. rewrite <-elem_of_app.
  cut (∀ u, v ∈ foldl (λ union value, if decide (value ∈ union) then union else union ++ [value])
    u (l ++ r) ↔ v ∈ u ∨ v ∈ l ++ r); [intros ->; rewrite elem_of_nil; tauto|].
  induction (l ++ r) as [|x xs IH]; intros u; cbn; [rewrite elem_of_nil; tauto|].
  rewrite IH, elem_of_cons. destruct (decide (x ∈ u)); [naive_solver|].
  rewrite elem_of_app, list_elem_of_singleton. tauto.
Qed.

(** ** The expansion means equality *)

Lemma foldl_and_eval (term : string → option ConditionExpr) vs acc sigma :
  eval_total (default (Bool true)
    (foldl (λ folded value,
        match term value with
        | None => folded
        | Some t => Some (match folded with None => t | Some p => And p t end)
        end) acc vs)) sigma =
  eval_total (default (Bool true) acc) sigma &&
  forallb (λ v, match term v with Some t => eval_total t sigma | None => true end) vs.
Proof.
  revert acc. induction vs as [|v vs IH]; intros acc; cbn; [by rewrite andb_true_r|].
  rewrite IH. destruct (term v) as [t|]; cbn; [|done].
  destruct acc; cbn; by rewrite ?andb_assoc.
Qed.

Lemma eval_predicate_some sigma t op v w :
  sigma !! t = Some w →
  eval_total (predicate t op v) sigma =
  match op with OpEq => bool_decide (w = v) | OpNotEq => bool_decide (w ≠ v) end.
Proof. intros H. cbn. unfold eval_total_predicate. cbn. by rewrite H. Qed.

Lemma equality_term_eval l r lv rv v sigma a b :
  sigma !! l = Some a → sigma !! r = Some b → a ∈ lv → b ∈ rv → v ∈ lv ∨ v ∈ rv →
  match equality_term l r lv rv v with Some t => eval_total t sigma | None => true end =
  bool_decide (a = v ↔ b = v).
Proof.
  intros Ha Hb Hal Hbr Hv. unfold equality_term.
  destruct (decide (v ∈ lv)) as [Hl|Hl], (decide (v ∈ rv)) as [Hr|Hr]; [| | |naive_solver].
  - cbn [eval_total]. rewrite !(eval_predicate_some sigma l _ _ a) by done.
    rewrite !(eval_predicate_some sigma r _ _ b) by done.
    repeat case_bool_decide; cbn; naive_solver.
  - rewrite (eval_predicate_some sigma l _ _ a) by done.
    apply bool_decide_ext. naive_solver.
  - rewrite (eval_predicate_some sigma r _ _ b) by done.
    apply bool_decide_ext. naive_solver.
Qed.

Lemma expand_equality_eval l r domains e lv rv sigma a b :
  expand_equality l r domains = Ok e →
  domains !! l = Some lv → domains !! r = Some rv →
  sigma !! l = Some a → sigma !! r = Some b → a ∈ lv → b ∈ rv →
  eval_total e sigma = bool_decide (a = b).
Proof.
  unfold expand_equality, declared_domain. intros H Hl Hr Ha Hb Hal Hbr.
  rewrite Hl, Hr in H. cbn in H. injection H as <-.
  rewrite foldl_and_eval. cbn [default eval_total andb].
  apply eq_true_iff_eq. rewrite forallb_elem, bool_decide_eq_true. split.
  - intros H. specialize (H a). rewrite elem_of_union_in_fold_order in H.
    rewrite (equality_term_eval _ _ _ _ _ _ a b) in H by eauto.
    rewrite bool_decide_eq_true in H. naive_solver.
  - intros <- v Hv. apply elem_of_union_in_fold_order in Hv.
    rewrite (equality_term_eval _ _ _ _ _ _ a a) by done. by apply bool_decide_eq_true.
Qed.

(** No comparison is left. *)
Fixpoint no_comparison (e : ConditionExpr) : bool :=
  match e with
  | Bool _ | Predicate _ => true
  | FacetCompare _ _ _ => false
  | Not inner => no_comparison inner
  | And l r | Or l r => no_comparison l && no_comparison r
  | AnyOf es | AllOf es | ExactlyOneOf es => forallb no_comparison es
  end.

Lemma expand_equality_no_comparison l r domains e :
  expand_equality l r domains = Ok e → no_comparison e.
Proof.
  unfold expand_equality. intros H. inv_ok.
  assert (Ht : ∀ v t, equality_term l r x x0 v = Some t → no_comparison t).
  { unfold equality_term. intros v t. repeat case_match; by intros [= <-]. }
  generalize (union_in_fold_order x x0). intros vs.
  cut (∀ acc, no_comparison (default (Bool true) acc) →
    no_comparison (default (Bool true) (foldl (λ folded value,
      match equality_term l r x x0 value with
      | None => folded
      | Some t => Some (match folded with None => t | Some p => And p t end)
      end) acc vs))); [by intros H'; apply H'|].
  induction vs as [|v vs IH]; intros acc Hacc; cbn; [done|]. apply IH.
  destruct (equality_term _ _ _ _ v) as [t|] eqn:E; [|done]. apply Ht in E.
  destruct acc; cbn; [by apply andb_True|done].
Qed.

Lemma expand_list_no_comparison (f : ConditionExpr → result expand_error ConditionExpr) es es' :
  Forall (λ e, ∀ e', f e = Ok e' → no_comparison e') es →
  collect_results f es = Ok es' → forallb no_comparison es'.
Proof.
  intros HF H%collect_results_Ok. induction H as [|e e' es es' He H IH]; cbn; [done|].
  inversion HF; subst. apply andb_True. eauto.
Qed.

Lemma expand_no_comparison e domains e' :
  expand_facet_comparisons e domains = Ok e' → no_comparison e'.
Proof.
  revert e'. induction e as [b|p|e IH|l r IHl IHr|l r IHl IHr|es IH|es IH|es IH|l op r]
    using ConditionExpr_ind'; intros e' H; cbn in H; inv_ok; cbn; eauto;
    try (by apply andb_True; eauto);
    try (eapply expand_list_no_comparison; [exact IH|eassumption]).
  apply expand_equality_no_comparison in H0. by destruct op.
Qed.

(** Every compared facet of [e] is bound to a declared value. *)
Definition within_domains (domains : gmap string (list string)) (e : ConditionExpr)
    (sigma : gmap string string) : Prop :=
  Forall (λ '(l, r), ∃ lv rv a b, domains !! l = Some lv ∧ domains !! r = Some rv ∧
    sigma !! l = Some a ∧ sigma !! r = Some b ∧ a ∈ lv ∧ b ∈ rv)
    (for_each_facet_comparison e).

Lemma expand_list_eval (f : ConditionExpr → result expand_error ConditionExpr) es es' sigma :
  Forall (λ e, ∀ e', f e = Ok e' → eval_total e' sigma = eval_total e sigma) es →
  collect_results f es = Ok es' →
  Forall2 (λ e e', eval_total e' sigma = eval_total e sigma) es es'.
Proof.
  intros HF H%collect_results_Ok. induction H as [|e e' es es' He H IH]; [constructor|].
  inversion HF; subst. constructor; eauto.
Qed.

Lemma Forall2_eval_lists es es' sigma :
  Forall2 (λ e e', eval_total e' sigma = eval_total e sigma) es es' →
  existsb (λ c, eval_total c sigma) es' = existsb (λ c, eval_total c sigma) es ∧
  forallb (λ c, eval_total c sigma) es' = forallb (λ c, eval_total c sigma) es ∧
  length (List.filter (λ c, eval_total c sigma) es') =
    length (List.filter (λ c, eval_total c sigma) es).
Proof.
  induction 1 as [|e e' es es' He H (IH1 & IH2 & IH3)]; cbn; [done|].
  rewrite He, IH1, IH2. split_and!; [done..|]. destruct (eval_total e sigma); cbn; lia.
Qed.

Lemma expand_eval e domains e' sigma :
  expand_facet_comparisons e domains = Ok e' → within_domains domains e sigma →
  eval_total e' sigma = eval_total e sigma.
Proof.
  unfold within_domains. revert e'.
  induction e as [b|p|e IH|l r IHl IHr|l r IHl IHr|es IH|es IH|es IH|l op r]
    using ConditionExpr_ind'; cbn [for_each_facet_comparison];
    intros e' H Hw; rewrite ?Forall_app, ?Forall_flat_map in Hw; cbn in H; inv_ok.
  - done.
  - done.
  - cbn. by rewrite (IH x).
  - destruct Hw as [??]. cbn. by rewrite (IHl x), (IHr x0).
  - destruct Hw as [??]. cbn. by rewrite (IHl x), (IHr x0).
  - apply (expand_list_eval _ _ _ sigma) in H0; [by apply Forall2_eval_lists in H0 as (H0 & _ & _)|].
    rewrite !Forall_forall in *. eauto.
  - apply (expand_list_eval _ _ _ sigma) in H0; [by apply Forall2_eval_lists in H0 as (_ & H0 & _)|].
    rewrite !Forall_forall in *. eauto.
  - apply (expand_list_eval _ _ _ sigma) in H0.
    + apply Forall2_eval_lists in H0 as (_ & _ & H0). cbn. by rewrite H0.
    + rewrite !Forall_forall in *. eauto.
  - apply Forall_singleton in Hw as (lv & rv & a & b & Hl & Hr & Ha & Hb & ? & ?).
    eapply expand_equality_eval in H0; [|done..]. cbn. rewrite Ha, Hb.
    destruct op; cbn; rewrite H0; [done|]. by rewrite bool_decide_not.
Qed.

(** The expansion fails exactly on an operand without a declared domain. *)
Lemma expand_equality_Ok l r domains :
  is_Some (domains !! l) → is_Some (domains !! r) →
  ∃ e, expand_equality l r domains = Ok e.
Proof.
  intros [lv Hl] [rv Hr]. unfold expand_equality, declared_domain. rewrite Hl, Hr. cbn. eauto.
Qed.

Lemma expand_list_Ok (f : ConditionExpr → result expand_error ConditionExpr) es :
  Forall (λ e, ∃ e', f e = Ok e') es → ∃ es', collect_results f es = Ok es'.
Proof.
  induction 1 as [|e es [e' He] _ [es' IH]]; cbn; [eauto|]. rewrite He. cbn.
  rewrite IH. cbn. eauto.
Qed.

Lemma expand_total e domains :
  Forall (λ '(l, r), is_Some (domains !! l) ∧ is_Some (domains !! r))
    (for_each_facet_comparison e) →
  ∃ e', expand_facet_comparisons e domains = Ok e'.
Proof.
  induction e as [b|p|e IH|l r IHl IHr|l r IHl IHr|es IH|es IH|es IH|l op r]
    using ConditionExpr_ind'; cbn [for_each_facet_comparison];
    rewrite ?Forall_app, ?Forall_flat_map; intros H; cbn.
  - eauto.
  - eauto.
  - destruct IH as [e' ->]; [done|]. cbn. eauto.
  - destruct H as [[l' Hl]%IHl [r' Hr]%IHr]. rewrite Hl. cbn. rewrite Hr. cbn. eauto.
  - destruct H as [[l' Hl]%IHl [r' Hr]%IHr]. rewrite Hl. cbn. rewrite Hr. cbn. eauto.
  - edestruct (expand_list_Ok (λ e, expand_facet_comparisons e domains) es) as [es' ->];
      [rewrite !Forall_forall in *; eauto|cbn; eauto].
  - edestruct (expand_list_Ok (λ e, expand_facet_comparisons e domains) es) as [es' ->];
      [rewrite !Forall_forall in *; eauto|cbn; eauto].
  - edestruct (expand_list_Ok (λ e, expand_facet_comparisons e domains) es) as [es' ->];
      [rewrite !Forall_forall in *; eauto|cbn; eauto].
  - apply Forall_singleton in H as [H1 H2].
    destruct (expand_equality_Ok _ _ _ H1 H2) as [e ->]. cbn. eauto.
Qed.

Lemma expand_list_declared (f : ConditionExpr → result expand_error ConditionExpr) P es es' :
  Forall (λ e, ∀ e', f e = Ok e' → Forall P (for_each_facet_comparison e)) es →
  collect_results f es = Ok es' → Forall P (for_each_facet_comparison (AnyOf es)).
Proof.
  intros HF H%collect_results_Ok. cbn. rewrite Forall_flat_map.
  induction H as [|e e' es es' He H IH]; [constructor|]. inversion HF; subst. constructor; eauto.
Qed.

Definition declared (domains : gmap string (list string)) (lr : string * string) : Prop :=
  is_Some (domains !! lr.1) ∧ is_Some (domains !! lr.2).

Lemma expand_declared e domains e' :
  expand_facet_comparisons e domains = Ok e' →
  Forall (declared domains) (for_each_facet_comparison e).
Proof.
  revert e'. induction e as [b|p|e IH|l r IHl IHr|l r IHl IHr|es IH|es IH|es IH|l op r]
    using ConditionExpr_ind'; intros e' H; cbn in H; inv_ok; cbn [for_each_facet_comparison];
    rewrite ?Forall_app; eauto; try (eapply (expand_list_declared _ _ es); [exact IH|eassumption]).
  constructor; [|constructor]. unfold expand_equality, declared_domain in H0.
  destruct (domains !! l) eqn:El, (domains !! r) eqn:Er; cbn in H0; done.
Qed.

(** Expanding the facet comparisons keeps the meaning.  The result has no
    comparison left and the same value as the original under every assignment
    that gives the compared facets declared values. *)
Theorem expansion_preserves_meaning e domains e' :
  expand_facet_comparisons e domains = Ok e' →
  no_comparison e' ∧ ∀ sigma, within_domains domains e sigma → eval_total e' sigma = eval_total e sigma.
Proof.
  intros H. split; [by eapply expand_no_comparison|]. intros sigma. by apply expand_eval.
Qed.

Lemma expansion_preserves_meaning_witness :
  ∃ e', expand_facet_comparisons (FacetCompare "a" OpNotEq "b")
          {["a" := ["x"; "y"]; "b" := ["y"; "z"]]} = Ok e' ∧ no_comparison e' ∧
    eval_total e' {["a" := "x"; "b" := "y"]} = true.
Proof.
  assert (H : ∃ e', expand_facet_comparisons (FacetCompare "a" OpNotEq "b")
    {["a" := ["x"; "y"]; "b" := ["y"; "z"]]} = Ok e') by (eexists; vm_compute; reflexivity).
  destruct H as [e' H]. exists e'. split; [exact H|].
  destruct (expansion_preserves_meaning _ _ _ H) as [Hn He]. split; [exact Hn|].
  rewrite He; [vm_compute; reflexivity|]. constructor; [|constructor].
  exists ["x"; "y"], ["y"; "z"], "x", "y". split_and!; compute_done.
Defined.

(** The expansion fails exactly on a comparison whose side has no declared
    domain. *)
Theorem expansion_total e domains :
  (∃ e', expand_facet_comparisons e domains = Ok e') ↔
  Forall (declared domains) (for_each_facet_comparison e).
Proof.
  split; [intros [e' H]; by eapply expand_declared|]. intros H. apply expand_total.
  eapply Forall_impl; [exact H|]. by intros [l r].
Qed.
