(* ===== verification/SelectionEval.v ===== *)
(** * Partial evaluation against a selection

    Models [compiler/src/conditions/selection_eval.rs]: Kleene evaluation of a
    condition against incomplete knowledge of the facets ([FacetWorld]) and
    the predicate walkers built on the typed AST. *)
From S2P Require Import Prelude Tokens Ast Implication.

(** ** Three-valued logic *)

Inductive Ternary : Type := TTrue | TFalse | TUnknown.

#[export] Instance Ternary_eq_dec : EqDecision Ternary.
Proof. solve_decision. Defined.

Module Ternary.
Definition from_bool (b : bool) : Ternary := if b then TTrue else TFalse.
Definition not (t : Ternary) : Ternary :=
  match t with TTrue => TFalse | TFalse => TTrue | TUnknown => TUnknown end.
Definition and (a b : Ternary) : Ternary :=
  match a, b with
  | TFalse, _ | _, TFalse => TFalse
  | TUnknown, _ | _, TUnknown => TUnknown
  | _, _ => TTrue
  end.
Definition or (a b : Ternary) : Ternary :=
  match a, b with
  | TTrue, _ | _, TTrue => TTrue
  | TUnknown, _ | _, TUnknown => TUnknown
  | _, _ => TFalse
  end.
End Ternary.

(** ** Worlds *)

Inductive FacetWorld : Type :=
  | Bound (m : gmap string string)
  | Restricted (m : gmap string (gset string)).

Definition holds (w : FacetWorld) (facet value : string) : Ternary :=
  match w with
  | Bound m =>
      match m !! facet with
      | Some bound => Ternary.from_bool (bool_decide (bound = value))
      | None => TUnknown
      end
  | Restricted m =>
      match m !! facet with
      | Some open =>
          if decide (open = ∅) then TUnknown
          else if decide (value ∉ open) then TFalse
          else if decide (size open = 1) then TTrue
          else TUnknown
      | None => TUnknown
      end
  end.

Definition agree (w : FacetWorld) (l r : string) : Ternary :=
  match w with
  | Bound m =>
      match m !! l, m !! r with
      | Some a, Some b => Ternary.from_bool (bool_decide (a = b))
      | _, _ => TUnknown
      end
  | Restricted m =>
      match m !! l, m !! r with
      | Some a, Some b =>
          if decide (a ≠ ∅ ∧ b ≠ ∅) then
            if decide (a ## b) then TFalse
            else if decide (size a = 1 ∧ a = b) then TTrue
            else TUnknown
          else TUnknown
      | _, _ => TUnknown
      end
  end.

(** ** The evaluator *)

Definition eval_predicate (p : ConditionPredicate) (w : FacetWorld) : Ternary :=
  let h := holds w (p_tag p) (p_value p) in
  match p_op p with OpEq => h | OpNotEq => Ternary.not h end.

(** [eval_exactly_one_of] over the children's values: at least one, and not both of
    any pair [(i, j)], [i < j]. *)
Definition eval_exactly_one_of (evaluated : list Ternary) : Ternary :=
  let at_least_one := foldl Ternary.or TFalse evaluated in
  let at_most_one :=
    foldl (λ acc '(a, b), Ternary.and acc (Ternary.not (Ternary.and a b)))
      TTrue (index_pairs evaluated) in
  Ternary.and at_least_one at_most_one.

Fixpoint eval_partial (e : ConditionExpr) (w : FacetWorld) : Ternary :=
  match e with
  | Bool value => Ternary.from_bool value
  | Predicate p => eval_predicate p w
  | Not inner => Ternary.not (eval_partial inner w)
  | And l r => Ternary.and (eval_partial l w) (eval_partial r w)
  | Or l r => Ternary.or (eval_partial l w) (eval_partial r w)
  | AnyOf es => foldl Ternary.or TFalse (map (λ c, eval_partial c w) es)
  | AllOf es => foldl Ternary.and TTrue (map (λ c, eval_partial c w) es)
  | ExactlyOneOf es => eval_exactly_one_of (map (λ c, eval_partial c w) es)
  | FacetCompare l op r =>
      let a := agree w l r in
      match op with OpEq => a | OpNotEq => Ternary.not a end
  end.

Definition is_contradicted (e : ConditionExpr) (w : FacetWorld) : bool :=
  bool_decide (eval_partial e w = TFalse).

Definition not_contradicted (e : ConditionExpr) (assignments : gmap string string) : bool :=
  negb (is_contradicted e (Bound assignments)).

(** ** Walkers *)

Fixpoint is_pure_conjunction (e : ConditionExpr) : bool :=
  match e with
  | Predicate _ => true
  | And l r => is_pure_conjunction l && is_pure_conjunction r
  | Bool _ | Not _ | Or _ _ | AnyOf _ | AllOf _ | ExactlyOneOf _ | FacetCompare _ _ _ => false
  end.

Fixpoint visit_predicates (e : ConditionExpr) : list ConditionPredicate :=
  match e with
  | Bool _ | FacetCompare _ _ _ => []
  | Predicate p => [p]
  | Not inner => visit_predicates inner
  | And l r | Or l r => visit_predicates l ++ visit_predicates r
  | AnyOf es | AllOf es | ExactlyOneOf es => flat_map visit_predicates es
  end.

Definition mentions_eq (e : ConditionExpr) (tag value : string) : bool :=
  existsb (λ p, bool_decide (p = {| p_tag := tag; p_op := OpEq; p_value := value |}))
    (visit_predicates e).

Definition for_each_eq_predicate (e : ConditionExpr) : list (string * string) :=
  (λ p, (p_tag p, p_value p)) <$>
    List.filter (λ p, bool_decide (p_op p = OpEq)) (visit_predicates e).

Definition for_each_predicate_symbol (e : ConditionExpr) : list (string * string) :=
  (λ p, (p_tag p, p_value p)) <$> visit_predicates e.

(** ** Soundness of a determinate answer *)

(** [t] is right about [b] when it commits itself. *)
Definition approx (t : Ternary) (b : bool) : Prop :=
  match t with TTrue => b = true | TFalse => b = false | TUnknown => True end.

Lemma approx_from_bool b : approx (Ternary.from_bool b) b.
Proof. by destruct b. Qed.
Lemma approx_not t b : approx t b → approx (Ternary.not t) (negb b).
Proof. destruct t, b; cbn; done. Qed.
Lemma approx_and t b t' b' : approx t b → approx t' b' → approx (Ternary.and t t') (b && b').
Proof. destruct t, t', b, b'; cbn; done. Qed.
Lemma approx_or t b t' b' : approx t b → approx t' b' → approx (Ternary.or t t') (b || b').
Proof. destruct t, t', b, b'; cbn; done. Qed.
#[export] Hint Resolve approx_from_bool approx_not approx_and approx_or : cfx.

Lemma approx_foldl_or ts bs t b :
  approx t b → Forall2 approx ts bs → approx (foldl Ternary.or t ts) (b || existsb id bs).
Proof.
  intros H HF. revert t b H. induction HF as [|t' b' ts bs H' _ IH]; intros t b H; cbn.
  - by rewrite orb_false_r.
  - rewrite orb_assoc. apply IH. by apply approx_or.
Qed.

Lemma approx_foldl_and ts bs t b :
  approx t b → Forall2 approx ts bs → approx (foldl Ternary.and t ts) (b && forallb id bs).
Proof.
  intros H HF. revert t b H. induction HF as [|t' b' ts bs H' _ IH]; intros t b H; cbn.
  - by rewrite andb_true_r.
  - rewrite andb_assoc. apply IH. by apply approx_and.
Qed.

Lemma approx_index_pairs ts bs t b :
  approx t b → Forall2 approx ts bs →
  approx (foldl (λ acc '(x, y), Ternary.and acc (Ternary.not (Ternary.and x y)))
            t (index_pairs ts))
         (b && forallb (λ '(x, y), negb (x && y)) (index_pairs bs)).
Proof.
  intros H HF. assert (HP : Forall2 (λ p q, approx p.1 q.1 ∧ approx p.2 q.2)
    (index_pairs ts) (index_pairs bs)).
  { clear H t b. induction HF as [|t b ts bs H HF IH]; cbn; [constructor|].
    apply Forall2_app; [|done]. clear IH. induction HF; cbn; constructor; auto. }
  clear HF. revert t b H. induction HP as [|[x y] [x' y'] ps qs [H1 H2] _ IH]; intros t b H; cbn.
  - by rewrite andb_true_r.
  - rewrite andb_assoc. apply IH. cbn in *. auto with cfx.
Qed.

Lemma approx_exactly_one ts bs :
  Forall2 approx ts bs → approx (eval_exactly_one_of ts) (length (List.filter id bs) =? 1).
Proof.
  intros H. rewrite exactly_one_pairs. unfold eval_exactly_one_of. apply approx_and.
  - by apply (approx_foldl_or _ _ TFalse false).
  - by apply (approx_index_pairs _ _ TTrue true).
Qed.

(** [sigma] is a completion of the facts [w] holds. *)
Definition completes (w : FacetWorld) (sigma : gmap string string) : Prop :=
  match w with
  | Bound m => ∀ f v, m !! f = Some v → sigma !! f = Some v
  | Restricted m => ∀ f S, m !! f = Some S → S ≠ ∅ → ∃ v, sigma !! f = Some v ∧ v ∈ S
  end.

Lemma holds_approx w sigma f v x :
  completes w sigma → sigma !! f = Some x → approx (holds w f v) (bool_decide (x = v)).
Proof.
  destruct w as [m|m]; cbn; intros Hc Hx.
  - destruct (m !! f) as [y|] eqn:E; [|done]. apply Hc in E. simplify_eq. apply approx_from_bool.
  - destruct (m !! f) as [S|] eqn:E; [|done]. destruct (decide (S = ∅)); [done|].
    destruct (Hc f S E) as (y & Hy & HyS); [done|]. simplify_eq.
    destruct (decide (v ∉ S)).
    + cbn. apply bool_decide_eq_false. by intros ->.
    + destruct (decide (size S = 1)) as [Hs|]; [|done]. cbn.
      apply bool_decide_eq_true, (size_singleton_inv S); [done..|by apply dec_stable].
Qed.

Lemma agree_approx w sigma l r x y :
  completes w sigma → sigma !! l = Some x → sigma !! r = Some y →
  approx (agree w l r) (bool_decide (x = y)).
Proof.
  destruct w as [m|m]; cbn; intros Hc Hx Hy.
  - destruct (m !! l) as [a|] eqn:E1; [|done]. destruct (m !! r) as [b|] eqn:E2; [|done].
    apply Hc in E1, E2. simplify_eq. apply approx_from_bool.
  - destruct (m !! l) as [S|] eqn:E1; [|done]. destruct (m !! r) as [T|] eqn:E2; [|done].
    destruct (decide (S ≠ ∅ ∧ T ≠ ∅)) as [[HS HT]|]; [|done].
    destruct (Hc l S E1 HS) as (a & Ha & HaS), (Hc r T E2 HT) as (b & Hb & HbT). simplify_eq.
    destruct (decide (S ## T)).
    + cbn. apply bool_decide_eq_false. intros ->. eauto.
    + destruct (decide (size S = 1 ∧ S = T)) as [[Hs <-]|]; [|done]. cbn.
      by apply bool_decide_eq_true, (size_singleton_inv S).
Qed.

Lemma eval_predicate_approx w sigma p x :
  completes w sigma → sigma !! p_tag p = Some x →
  approx (eval_predicate p w) (eval_total_predicate p sigma).
Proof.
  intros Hc Hx. unfold eval_predicate, eval_total_predicate. rewrite Hx.
  pose proof (holds_approx w sigma (p_tag p) (p_value p) x Hc Hx) as H.
  destruct (p_op p); [done|]. rewrite bool_decide_not. by apply approx_not.
Qed.

Lemma total_for_sub e e' sigma :
  (∀ t, t ∈ expr_tags e' → t ∈ expr_tags e) → total_for e sigma → total_for e' sigma.
Proof. unfold total_for. eauto. Qed.

Lemma expr_tags_binary l r t :
  t ∈ expr_tags (And l r) ↔ t ∈ expr_tags l ∨ t ∈ expr_tags r.
Proof.
  unfold expr_tags. cbn. rewrite fmap_app, flat_map_app, !elem_of_app. tauto.
Qed.

Lemma expr_tags_list es e t : e ∈ es → t ∈ expr_tags e → t ∈ expr_tags (AnyOf es).
Proof.
  unfold expr_tags. cbn. rewrite !elem_of_app, !list_elem_of_fmap. intros He [(p & -> & Hp)|H].
  - left. exists p. split; [done|]. apply elem_of_flat_map. eauto.
  - right. apply elem_of_flat_map in H as (lr & H1 & H2). apply elem_of_flat_map.
    exists lr. split; [|done]. apply elem_of_flat_map. eauto.
Qed.

Lemma children_approx es w sigma :
  Forall (λ e, total_for e sigma → approx (eval_partial e w) (eval_total e sigma)) es →
  total_for (AnyOf es) sigma →
  Forall2 approx (map (λ c, eval_partial c w) es) (map (λ c, eval_total c sigma) es).
Proof.
  intros IH Ht. apply Forall2_fmap, Forall_Forall2_diag. rewrite Forall_forall in *.
  intros e He. apply IH; [done|]. intros t Hte. apply Ht. by eapply expr_tags_list.
Qed.

Lemma eval_partial_approx e w sigma :
  completes w sigma → total_for e sigma → approx (eval_partial e w) (eval_total e sigma).
Proof.
  intros Hc. induction e as [b|p|e IH|l r IHl IHr|l r IHl IHr|es IH|es IH|es IH|l op r]
    using ConditionExpr_ind'; intros Ht; cbn.
  - apply approx_from_bool.
  - destruct (Ht (p_tag p)) as [x Hx]; [by left|]. by eapply eval_predicate_approx.
  - by apply approx_not, IH.
  - apply approx_and; [apply IHl|apply IHr]; eapply total_for_sub; [|done| |done];
      intros t; rewrite expr_tags_binary; auto.
  - apply approx_or; [apply IHl|apply IHr]; eapply total_for_sub; [|done| |done];
      intros t H; apply (expr_tags_binary l r); auto.
  - pose proof (children_approx es w sigma IH Ht) as HF.
    apply (approx_foldl_or _ _ TFalse false) in HF; [|done].
    by rewrite existsb_mapped in HF.
  - pose proof (children_approx es w sigma IH Ht) as HF.
    apply (approx_foldl_and _ _ TTrue true) in HF; [|done].
    by rewrite forallb_mapped in HF.
  - pose proof (children_approx es w sigma IH Ht) as HF.
    apply approx_exactly_one in HF.
    by rewrite length_filter_mapped in HF.
  - destruct (Ht l) as [x Hx]; [by left|]. destruct (Ht r) as [y Hy]; [by right; left|].
    rewrite Hx, Hy. pose proof (agree_approx w sigma l r x y Hc Hx Hy) as H.
    destruct op; [done|]. rewrite bool_decide_not. by apply approx_not.
Qed.

(** ** The two world shapes agree *)

(** A bound value as a one-element restriction. *)
Definition as_restricted (m : gmap string string) : FacetWorld :=
  Restricted ((λ v, {[v]} : gset string) <$> m).

Lemma holds_as_restricted m f v : holds (as_restricted m) f v = holds (Bound m) f v.
Proof.
  cbn. rewrite lookup_fmap. destruct (m !! f) as [x|]; cbn; [|done].
  rewrite decide_False by set_solver. destruct (decide (x = v)) as [->|].
  - rewrite bool_decide_eq_true_2, decide_False by set_solver.
    by rewrite decide_True by apply size_singleton.
  - by rewrite bool_decide_eq_false_2, decide_True by set_solver.
Qed.

Lemma agree_as_restricted m l r : agree (as_restricted m) l r = agree (Bound m) l r.
Proof.
  cbn. rewrite !lookup_fmap.
  destruct (m !! l) as [x|]; cbn; [|done]. destruct (m !! r) as [y|]; cbn; [|done].
  rewrite decide_True by set_solver. destruct (decide (x = y)) as [->|].
  - rewrite bool_decide_eq_true_2, decide_False by set_solver.
    by rewrite decide_True by (split; [apply size_singleton|done]).
  - by rewrite bool_decide_eq_false_2, decide_True by set_solver.
Qed.

Lemma map_cong {A B} (f g : A → B) l : Forall (λ a, f a = g a) l → map f l = map g l.
Proof. induction 1 as [|a l H _ IH]; cbn; [done|]. by rewrite H, IH. Qed.

(** Evaluating against bound values is evaluating against the
    one-element restrictions to them, for every condition. *)
Theorem eval_partial_as_restricted e m :
  eval_partial e (as_restricted m) = eval_partial e (Bound m).
Proof.
  induction e as [b|p|e IH|l r IHl IHr|l r IHl IHr|es IH|es IH|es IH|l op r]
    using ConditionExpr_ind'; cbn -[holds agree as_restricted];
    try (by rewrite ?IH, ?IHl, ?IHr); try (by rewrite (map_cong _ _ _ IH)).
  - unfold eval_predicate. by rewrite holds_as_restricted.
  - by rewrite agree_as_restricted.
Qed.

(** ** Contradiction *)

(** A condition reported contradicted is false under every completion of
    the world's facts that assigns the facets it names. *)
Theorem is_contradicted_sound e w sigma :
  is_contradicted e w = true → completes w sigma → total_for e sigma →
  eval_total e sigma = false.
Proof.
  intros H Hc Ht. apply bool_decide_eq_true in H.
  pose proof (eval_partial_approx e w sigma Hc Ht) as Ha. by rewrite H in Ha.
Qed.

Lemma is_contradicted_sound_witness :
  eval_total (And (Predicate (mkPredicate "os" OpEq "linux")) (Bool true))
    {["os" := "mac"]} = false.
Proof.
  apply (is_contradicted_sound _ (Restricted {["os" := {["mac"; "win"]}]})).
  - vm_compute. reflexivity.
  - intros f S. rewrite lookup_singleton_Some. intros [<- <-] _.
    exists "mac". split; [reflexivity|set_solver].
  - intros t Ht. exists "mac". cbn in Ht. apply list_elem_of_singleton in Ht as ->. reflexivity.
Defined.

(** An assigned atom that is false. *)
Definition fails_under (m : gmap string string) (p : ConditionPredicate) : bool :=
  match m !! p_tag p with
  | Some x =>
      match p_op p with
      | OpEq => negb (bool_decide (x = p_value p))
      | OpNotEq => bool_decide (x = p_value p)
      end
  | None => false
  end.

Lemma eval_predicate_fails p m :
  bool_decide (eval_predicate p (Bound m) = TFalse) = fails_under m p.
Proof.
  unfold eval_predicate, fails_under. cbn. destruct (m !! p_tag p) as [x|]; cbn.
  - by destruct (p_op p), (bool_decide (x = p_value p)).
  - by destruct (p_op p).
Qed.

Lemma ternary_and_false a b :
  bool_decide (Ternary.and a b = TFalse) =
  bool_decide (a = TFalse) || bool_decide (b = TFalse).
Proof. by destruct a, b. Qed.

(** On the pure conjunctions option validity consults, the typed evaluator
    is the group walk: contradicted exactly when an assigned atom is false. *)
Theorem pure_conjunction_not_contradicted e m :
  is_pure_conjunction e = true →
  not_contradicted e m = forallb (λ p, negb (fails_under m p)) (visit_predicates e).
Proof.
  unfold not_contradicted, is_contradicted.
  induction e as [b|p|e IH|l r IHe1 IHe2|l r _ _|es _|es _|es _|l op r]
    using ConditionExpr_ind'; cbn -[eval_predicate]; intros H; try done.
  - by rewrite eval_predicate_fails, andb_true_r.
  - apply andb_prop in H as [H1 H2].
    rewrite ternary_and_false, negb_orb, forallb_app, IHe1, IHe2 by done. done.
Qed.

Lemma pure_conjunction_not_contradicted_witness :
  not_contradicted (And (Predicate (mkPredicate "os" OpEq "linux"))
                        (Predicate (mkPredicate "arch" OpNotEq "arm"))) {["arch" := "arm"]} =
  false.
Proof. rewrite pure_conjunction_not_contradicted; vm_compute; reflexivity. Defined.

(** The equality walk and the membership test see the same atoms. *)
Lemma mentions_eq_iff e tag value :
  mentions_eq e tag value = true ↔ (tag, value) ∈ for_each_eq_predicate e.
Proof.
  unfold mentions_eq, for_each_eq_predicate. rewrite existsb_exists, list_elem_of_fmap.
  setoid_rewrite bool_decide_eq_true. setoid_rewrite list_elem_of_In.
  setoid_rewrite filter_In. setoid_rewrite bool_decide_eq_true. split.
  - intros (p & Hp & ->). by exists (mkPredicate tag OpEq value).
  - intros ([t o v] & [= -> ->] & Hp & Ho). cbn in *. subst. eauto.
Qed.
