(* ===== verification/Rewrite.v ===== *)
(** * Identifier enumeration and rewriting

    Models [compiler/src/conditions/rewrite.rs]: the identifiers a condition
    references, substitution on the typed AST, and the serializer whose output
    the scrubber feeds back to the parser. *)
From S2P Require Import Prelude Tokens Ast Implication.

(** ** Enumeration *)

Record ConditionIdentifiers : Type := mkIdentifiers {
  tags : gset string;
  options : gset (string * string);
}.

Fixpoint collect (e : ConditionExpr) (acc : ConditionIdentifiers) : ConditionIdentifiers :=
  match e with
  | Bool _ => acc
  | Predicate p =>
      {| tags := {[p_tag p]} ∪ tags acc; options := {[(p_tag p, p_value p)]} ∪ options acc |}
  | Not inner => collect inner acc
  | And l r | Or l r => collect r (collect l acc)
  | AnyOf es | AllOf es | ExactlyOneOf es => foldl (λ acc c, collect c acc) acc es
  | FacetCompare l _ r =>
      {| tags := {[r]} ∪ ({[l]} ∪ tags acc); options := options acc |}
  end.

Definition condition_identifiers (condition : string) : result cond_error ConditionIdentifiers :=
  e ← parse_condition_expr condition;
  Ok (collect e {| tags := ∅; options := ∅ |}).

(** ** Substitution and serialization *)

Section Substitute.
Context (rename_tag : string → string) (rename_literal : string → string → string).

Fixpoint substitute (e : ConditionExpr) : ConditionExpr :=
  match e with
  | Bool b => Bool b
  | Predicate p =>
      Predicate {| p_tag := rename_tag (p_tag p); p_op := p_op p;
                   p_value := rename_literal (p_tag p) (p_value p) |}
  | Not inner => Not (substitute inner)
  | And l r => And (substitute l) (substitute r)
  | Or l r => Or (substitute l) (substitute r)
  | AnyOf es => AnyOf (map substitute es)
  | AllOf es => AllOf (map substitute es)
  | ExactlyOneOf es => ExactlyOneOf (map substitute es)
  | FacetCompare l op r => FacetCompare (rename_tag l) op (rename_tag r)
  end.
End Substitute.

Inductive Prec : Type := POr | PAnd | PUnary.

Definition prec_rank (p : Prec) : nat :=
  match p with POr => 0 | PAnd => 1 | PUnary => 2 end.

Definition wrap_if (s : string) (own parent : Prec) : string :=
  if prec_rank own <? prec_rank parent then "(" +:+ s +:+ ")" else s.

Definition op_text (op : ConditionPredicateOp) : string :=
  match op with OpEq => "==" | OpNotEq => "!=" end.

(** [args.join(", ")]. *)
Definition join (sep : string) (l : list string) : string := String.concat sep l.

Fixpoint serialize (e : ConditionExpr) (parent : Prec) : string :=
  match e with
  | Bool b => if b then "true" else "false"
  | Predicate p => p_tag p +:+ " " +:+ op_text (p_op p) +:+ " '" +:+ p_value p +:+ "'"
  | Not inner => "!" +:+ serialize inner PUnary
  | And l r => wrap_if (serialize l PAnd +:+ " && " +:+ serialize r PAnd) PAnd parent
  | Or l r => wrap_if (serialize l POr +:+ " || " +:+ serialize r POr) POr parent
  | AnyOf es => "any_of(" +:+ join ", " (map (λ c, serialize c POr) es) +:+ ")"
  | AllOf es => "all_of(" +:+ join ", " (map (λ c, serialize c POr) es) +:+ ")"
  | ExactlyOneOf es => "exactly_one_of(" +:+ join ", " (map (λ c, serialize c POr) es) +:+ ")"
  | FacetCompare l op r => l +:+ " " +:+ op_text op +:+ " " +:+ r
  end.

Definition rewrite_condition_identifiers (condition : string)
    (rename_tag : string → string) (rename_literal : string → string → string)
    : result cond_error string :=
  e ← parse_condition_expr condition;
  Ok (serialize (substitute rename_tag rename_literal e) POr).

Example rewrite_example :
  rewrite_condition_identifiers "(a=='x' || b != c)&&!(all_of(a == 'y', true))"
    (λ t, "tag_" +:+ t) (λ t v, "opt_" +:+ t +:+ "_" +:+ v) =
  Ok "(tag_a == 'opt_a_x' || tag_b != tag_c) && !all_of(tag_a == 'opt_a_y', true)".
Proof. vm_compute. reflexivity. Qed.

(** ** What enumeration collects *)

Definition expr_options (e : ConditionExpr) : list (string * string) :=
  (λ p, (p_tag p, p_value p)) <$> for_each_predicate e.

Lemma collect_list_spec es acc t o :
  Forall (λ e, ∀ acc,
    (t ∈ tags (collect e acc) ↔ t ∈ tags acc ∨ t ∈ expr_tags e) ∧
    (o ∈ options (collect e acc) ↔ o ∈ options acc ∨ o ∈ expr_options e)) es →
  (t ∈ tags (foldl (λ acc c, collect c acc) acc es) ↔ t ∈ tags acc ∨ t ∈ expr_tags (AnyOf es)) ∧
  (o ∈ options (foldl (λ acc c, collect c acc) acc es) ↔
   o ∈ options acc ∨ o ∈ expr_options (AnyOf es)).
Proof.
  intros HF. revert acc. induction HF as [|e es He _ IH]; intros acc; cbn.
  - unfold expr_tags, expr_options. cbn. set_solver.
  - destruct (IH (collect e acc)) as [-> ->], (He acc) as [-> ->].
    unfold expr_tags, expr_options. cbn.
    rewrite !fmap_app, !flat_map_app, !elem_of_app. tauto.
Qed.

Lemma collect_spec e acc t o :
  (t ∈ tags (collect e acc) ↔ t ∈ tags acc ∨ t ∈ expr_tags e) ∧
  (o ∈ options (collect e acc) ↔ o ∈ options acc ∨ o ∈ expr_options e).
Proof.
  revert acc. induction e as [b|p|e IH|l r IHl IHr|l r IHl IHr|es IH|es IH|es IH|l op r]
    using ConditionExpr_ind'; intros acc; try (by apply collect_list_spec); cbn.
  - unfold expr_tags, expr_options. cbn. set_solver.
  - unfold expr_tags, expr_options. cbn. set_solver.
  - apply IH.
  - destruct (IHr (collect l acc)) as [-> ->], (IHl acc) as [-> ->].
    unfold expr_tags, expr_options. cbn. rewrite !fmap_app, !flat_map_app, !elem_of_app. tauto.
  - destruct (IHr (collect l acc)) as [-> ->], (IHl acc) as [-> ->].
    unfold expr_tags, expr_options. cbn. rewrite !fmap_app, !flat_map_app, !elem_of_app. tauto.
  - unfold expr_tags, expr_options. cbn. set_solver.
Qed.

(** ** Reading a token back

    The primitives on an input whose suffix at the cursor is known. *)

(** The input at the cursor does not continue an identifier. *)
Definition stops (r : list ascii) : Prop :=
  match r with b :: _ => is_ident_char b = false | [] => True end.

Section TokensBack.
Context (bs : list ascii).

Lemma at_byte_drop idx c :
  at_byte bs idx c = match drop idx bs with b :: _ => Ascii.eqb b c | [] => false end.
Proof.
  unfold at_byte. destruct (drop idx bs) as [|b r] eqn:E.
  - rewrite <-(Nat.add_0_r idx), <-lookup_drop, E. done.
  - by rewrite (drop_lookup _ _ _ _ E).
Qed.

Lemma skip_ws_drop idx : skip_ws bs idx = idx + scan is_ascii_whitespace (drop idx bs).
Proof. done. Qed.

Lemma parse_ident_at idx s r :
  drop idx bs = bytes_of s ++ r → is_identifier s → stops r →
  parse_ident bs idx = (Some s, idx + length (bytes_of s)).
Proof.
  intros Hd Hid Hr. apply keyword_ident; [|done]. unfold starts_with_keyword.
  pose proof (drop_len _ _ _ _ Hd).
  assert (0 < length (bytes_of s)).
  { unfold is_identifier in Hid. destruct (bytes_of s); [done|]. cbn. lia. }
  rewrite bool_decide_eq_true_2 by lia. unfold slice.
  replace (idx + length (bytes_of s) - idx) with (length (bytes_of s)) by lia.
  rewrite Hd, take_app_length, bool_decide_eq_true_2 by done. cbn [andb].
  apply drop_move in Hd. destruct r as [|b r].
  - replace (bs !! _) with (@None ascii); [done|]. symmetry.
    apply lookup_ge_None. apply (f_equal length) in Hd. rewrite length_drop in Hd. cbn in Hd. lia.
  - rewrite (drop_lookup _ _ _ _ Hd). cbn beta iota delta [stops] in Hr. by rewrite Hr.
Qed.

Lemma keyword_at idx s r kw :
  drop idx bs = bytes_of s ++ r → is_identifier s → stops r → is_identifier kw →
  starts_with_keyword bs idx kw = bool_decide (s = kw).
Proof.
  intros Hd Hs Hr Hk. destruct (starts_with_keyword bs idx kw) eqn:E.
  - apply keyword_ident in E; [|done]. rewrite (parse_ident_at _ _ _ Hd Hs Hr) in E.
    injection E as -> _. by rewrite bool_decide_eq_true_2.
  - symmetry. apply bool_decide_eq_false. intros ->.
    pose proof (drop_len _ _ _ _ Hd) as Hl. unfold starts_with_keyword in E.
    assert (0 < length (bytes_of kw)).
    { unfold is_identifier in Hk. destruct (bytes_of kw); [done|]. cbn. lia. }
    rewrite bool_decide_eq_true_2 in E by lia. unfold slice in E.
    replace (idx + length (bytes_of kw) - idx) with (length (bytes_of kw)) in E by lia.
    rewrite Hd, take_app_length, bool_decide_eq_true_2 in E by done. cbn [andb] in E.
    apply drop_move in Hd. destruct (bs !! _) as [b|] eqn:Eb; [|done].
    apply drop_S in Eb. rewrite Hd in Eb. rewrite Eb in Hr. unfold stops in Hr. by rewrite Hr in E.
Qed.

Lemma parse_operator_at idx op r :
  drop idx bs = bytes_of (op_text op) ++ r →
  ∃ aop, parse_operator bs idx = (Some aop, idx + 2) ∧ to_public_op aop = op.
Proof.
  intros Hd. unfold parse_operator. rewrite !at_byte_drop.
  assert (Hn : ∃ b, drop (S idx) bs = b :: r ∧ b = "="%char).
  { destruct op; cbn in Hd; apply drop_step in Hd; eauto. }
  destruct Hn as (b & -> & ->). rewrite Hd. destruct op; cbn; eauto.
Qed.

Lemma parse_quoted_literal_at idx v r :
  drop idx bs = "'"%char :: bytes_of v ++ "'"%char :: r →
  "'"%char ∉ bytes_of v → utf8_valid (bytes_of v) = true →
  parse_quoted_literal bs idx = (Some v, idx + length (bytes_of v) + 2).
Proof.
  intros Hd Hq Hu. unfold parse_quoted_literal.
  rewrite (drop_lookup _ _ _ _ Hd). cbn [Ascii.eqb orb]. cbn -[drop slice].
  pose proof (drop_step _ _ _ _ Hd) as Hd'. rewrite Hd'.
  rewrite scan_app_stop; [|apply Forall_forall; intros x Hx|done].
  2:{ apply Is_true_true, negb_true_iff, Ascii.eqb_neq. by intros ->. }
  pose proof (drop_move _ _ _ _ Hd') as Hd''. cbn in Hd''.
  rewrite (drop_lookup _ _ _ _ Hd''). unfold slice.
  replace (S (idx + length (bytes_of v)) - S idx) with (length (bytes_of v)) by lia.
  rewrite Hd', take_app_length. unfold from_utf8. rewrite Hu, string_of_bytes_of.
  f_equal. lia.
Qed.

Lemma parse_quoted_literal_none idx b r :
  drop idx bs = b :: r → is_ident_char b → parse_quoted_literal bs idx = (None, idx).
Proof.
  intros Hd Hb. unfold parse_quoted_literal. rewrite (drop_lookup _ _ _ _ Hd).
  by destruct b as [[] [] [] [] [] [] [] []]; try done.
Qed.
End TokensBack.

(** ** The round trip *)

(** Chains of [&&] and [||] are re-read left-associatively. *)
Fixpoint rot_and (x y : ConditionExpr) : ConditionExpr :=
  match y with And y1 y2 => And (rot_and x y1) y2 | _ => And x y end.
Fixpoint rot_or (x y : ConditionExpr) : ConditionExpr :=
  match y with Or y1 y2 => Or (rot_or x y1) y2 | _ => Or x y end.

Fixpoint canon (e : ConditionExpr) : ConditionExpr :=
  match e with
  | Bool _ | Predicate _ | FacetCompare _ _ _ => e
  | Not e => Not (canon e)
  | And l r => rot_and (canon l) (canon r)
  | Or l r => rot_or (canon l) (canon r)
  | AnyOf es => AnyOf (map canon es)
  | AllOf es => AllOf (map canon es)
  | ExactlyOneOf es => ExactlyOneOf (map canon es)
  end.

Lemma rot_and_assoc x y z : rot_and (rot_and x y) z = rot_and x (rot_and y z).
Proof. induction z; cbn; congruence. Qed.
Lemma rot_or_assoc x y z : rot_or (rot_or x y) z = rot_or x (rot_or y z).
Proof. induction z; cbn; congruence. Qed.

Lemma canon_not_and e : (∀ l r, e ≠ And l r) → ∀ x, rot_and x (canon e) = And x (canon e).
Proof. destruct e; intros H x; cbn; try done; [by edestruct H|].
  destruct (canon e2); done. Qed.
Lemma canon_not_or e : (∀ l r, e ≠ Or l r) → ∀ x, rot_or x (canon e) = Or x (canon e).
Proof. destruct e; intros H x; cbn; try done; [|by edestruct H].
  destruct (canon e2); done. Qed.

(** Expressions whose names and literals the grammar can spell. *)
Definition facet_name (s : string) : bool :=
  is_identifier s && negb (bool_decide (s = "true")) && negb (bool_decide (s = "false")).
Definition literal_text (s : string) : bool :=
  bool_decide ("'"%char ∉ bytes_of s) && utf8_valid (bytes_of s).

Fixpoint spellable (e : ConditionExpr) : bool :=
  match e with
  | Bool _ => true
  | Predicate p => facet_name (p_tag p) && literal_text (p_value p)
  | Not e => spellable e
  | And l r | Or l r => spellable l && spellable r
  | AnyOf es | AllOf es | ExactlyOneOf es => (2 <=? length es) && forallb spellable es
  | FacetCompare l _ r => facet_name l && is_identifier r
  end.

(** What may follow an operand serialized at a given strength. *)
Inductive follows : Prec → list ascii → Prop :=
  | follows_end p : follows p []
  | follows_paren p r : follows p (")"%char :: r)
  | follows_comma p r : follows p (","%char :: r)
  | follows_or p r : p ≠ POr → follows p (" " :: "|" :: "|" :: r)%char
  | follows_and r : follows PUnary (" " :: "&" :: "&" :: r)%char.
#[export] Hint Constructors follows : cfx.

Lemma follows_stops p r : follows p r → stops r.
Proof. by destruct 1. Qed.
Lemma follows_weaken p r : follows p r → follows PUnary r.
Proof. destruct 1; try constructor; done. Qed.
Lemma follows_or_and r : follows POr r → follows PAnd r.
Proof. inversion 1; subst; try constructor; done. Qed.

(** The first byte of a serialized expression starts an operand. *)
Definition starts_operand (b : ascii) : bool :=
  is_ident_start b || Ascii.eqb b "!"%char || Ascii.eqb b "("%char.

Lemma identifier_head s : is_identifier s → ∃ b r, bytes_of s = b :: r ∧ is_ident_start b = true.
Proof.
  unfold is_identifier. destruct (bytes_of s) as [|b r]; [done|].
  intros [H _]%andb_True. apply Is_true_true in H. eauto.
Qed.

Lemma serialize_head e p :
  spellable e → ∃ b r, bytes_of (serialize e p) = b :: r ∧ starts_operand b = true.
Proof.
  revert p. induction e as [b|q|e IH|l r IHl IHr|l r IHl IHr|es IH|es IH|es IH|l op r]
    using ConditionExpr_ind'; intros p H; cbn -[bytes_of String.append] in *;
    try (eexists _, _; split; [reflexivity|reflexivity]).
  - destruct b; eexists _, _; split; reflexivity.
  - apply andb_True in H as [[[H _]%andb_True _]%andb_True _].
    apply identifier_head in H as (b & r & H & Hb). rewrite bytes_of_app, H.
    eexists _, _. split; [reflexivity|]. unfold starts_operand. by rewrite Hb.
  - apply andb_True in H as [Hl _]. unfold wrap_if. destruct (_ <? _).
    { eexists _, _; split; reflexivity. }
    rewrite bytes_of_app. destruct (IHl PAnd Hl) as (b & r' & Hbr & Hb). rewrite Hbr.
    eexists _, _. split; [reflexivity|done].
  - apply andb_True in H as [Hl _]. unfold wrap_if. destruct (_ <? _).
    { eexists _, _; split; reflexivity. }
    rewrite bytes_of_app. destruct (IHl POr Hl) as (b & r' & Hbr & Hb). rewrite Hbr.
    eexists _, _. split; [reflexivity|done].
  - apply andb_True in H as [[[H _]%andb_True _]%andb_True _].
    apply identifier_head in H as (b & r' & H & Hb). rewrite bytes_of_app, H.
    eexists _, _. split; [reflexivity|]. unfold starts_operand. by rewrite Hb.
Qed.

Section Roundtrip.
Import AstParser.
Context (bs : list ascii).

Notation left idx := (8 * (length bs - idx)) (only parsing).
Notation len s := (length (bytes_of s)) (only parsing).

(** One operand, then the loop that extends the chain [o] already read. *)
Definition and_from (o : option ConditionExpr) (fuel idx : nat) :=
  '(e, i) ← parse_unary bs fuel idx;
  and_loop bs fuel (match o with Some x => And x e | None => e end) i.
Definition or_from (o : option ConditionExpr) (fuel idx : nat) :=
  '(e, i) ← parse_and bs fuel idx;
  or_loop bs fuel (match o with Some x => Or x e | None => e end) i.

Definition chain (rot : ConditionExpr → ConditionExpr → ConditionExpr)
    (o : option ConditionExpr) (e : ConditionExpr) : ConditionExpr :=
  match o with Some x => rot x e | None => e end.

Definition reads_unary (e : ConditionExpr) : Prop := ∀ idx r fuel,
  drop idx bs = bytes_of (serialize e PUnary) ++ r → follows PUnary r →
  left idx + 3 ≤ fuel →
  parse_unary bs fuel idx = Ok (canon e, idx + len (serialize e PUnary)).

Definition reads_and (e : ConditionExpr) : Prop := ∀ o idx r fuel,
  drop idx bs = bytes_of (serialize e PAnd) ++ r → follows PUnary r →
  left idx + 3 ≤ fuel →
  ∃ fuel', left (idx + len (serialize e PAnd)) + 3 ≤ fuel' ∧
    and_from o fuel idx =
    and_loop bs fuel' (chain rot_and o (canon e)) (idx + len (serialize e PAnd)).

Definition reads_or (e : ConditionExpr) : Prop := ∀ o idx r fuel,
  drop idx bs = bytes_of (serialize e POr) ++ r → follows PAnd r →
  left idx + 4 ≤ fuel →
  ∃ fuel', left (idx + len (serialize e POr)) + 4 ≤ fuel' ∧
    or_from o fuel idx =
    or_loop bs fuel' (chain rot_or o (canon e)) (skip_ws bs (idx + len (serialize e POr))).

Lemma skip_ws_operand idx b r :
  drop idx bs = b :: r → starts_operand b = true → skip_ws bs idx = idx.
Proof.
  intros Hd Hb. rewrite skip_ws_drop, Hd. cbn.
  destruct (is_ascii_whitespace b) eqn:E; [|lia].
  by destruct b as [[] [] [] [] [] [] [] []].
Qed.

Lemma skip_ws_space idx b r :
  drop idx bs = " "%char :: b :: r → is_ascii_whitespace b = false → skip_ws bs idx = S idx.
Proof. intros Hd Hb. rewrite skip_ws_drop, Hd. cbn. rewrite Hb. lia. Qed.

Lemma parse_unary_skip fuel idx : parse_unary bs fuel (skip_ws bs idx) = parse_unary bs fuel idx.
Proof. destruct fuel; cbn; [done|]. by rewrite skip_ws_idem. Qed.
Lemma parse_and_skip fuel idx : parse_and bs fuel (skip_ws bs idx) = parse_and bs fuel idx.
Proof. destruct fuel; cbn; [done|]. by rewrite parse_unary_skip. Qed.

Lemma and_loop_stop fuel x idx r :
  drop idx bs = r → follows PAnd r → and_loop bs (S fuel) x idx = Ok (x, skip_ws bs idx).
Proof.
  intros E Hf. cbn. unfold consume_op2. rewrite !at_byte_drop.
  revert E. inversion Hf; subst p r; intros E;
    try (by rewrite skip_ws_drop, E; cbn; rewrite Nat.add_0_r, E).
  rewrite (skip_ws_space _ _ _ E) by done. by rewrite (drop_step _ _ _ _ E).
Qed.

Lemma or_loop_stop fuel x idx r :
  drop idx bs = r → follows POr r → or_loop bs (S fuel) x idx = Ok (x, skip_ws bs idx).
Proof.
  intros E Hf. cbn. unfold consume_op2. rewrite !at_byte_drop.
  revert E. inversion Hf; subst p r; intros E; try done;
    by rewrite skip_ws_drop, E; cbn; rewrite Nat.add_0_r, E.
Qed.

(** The loop on the operator that follows a chain. *)
Lemma and_loop_more fuel x idx r :
  drop idx bs = bytes_of " && " ++ r →
  and_loop bs (S fuel) x idx = and_from (Some x) fuel (idx + 3).
Proof.
  intros E. unfold and_from. cbn. rewrite (skip_ws_space _ _ _ E) by done.
  unfold consume_op2. rewrite !at_byte_drop.
  pose proof (drop_step _ _ _ _ E) as E1. pose proof (drop_step _ _ _ _ E1) as E2.
  rewrite E1, E2. cbn. by replace (S (idx + 2)) with (idx + 3) by lia.
Qed.

Lemma or_loop_more fuel x idx r :
  drop idx bs = bytes_of " || " ++ r →
  or_loop bs (S fuel) x (skip_ws bs idx) = or_from (Some x) fuel (idx + 3).
Proof.
  intros E. unfold or_from. cbn. rewrite skip_ws_idem, (skip_ws_space _ _ _ E) by done.
  unfold consume_op2. rewrite !at_byte_drop.
  pose proof (drop_step _ _ _ _ E) as E1. pose proof (drop_step _ _ _ _ E1) as E2.
  rewrite E1, E2. cbn. by replace (S (idx + 2)) with (idx + 3) by lia.
Qed.

(** The blank before an operand. *)
Lemma skip_ws_blank idx e p r :
  spellable e → drop idx bs = " "%char :: bytes_of (serialize e p) ++ r →
  skip_ws bs idx = S idx.
Proof.
  intros He Hd. destruct (serialize_head e p He) as (b & s & Hs & Hb).
  rewrite Hs in Hd. apply (skip_ws_space _ b (s ++ r)); [done|].
  by destruct b as [[] [] [] [] [] [] [] []].
Qed.

Lemma serialize_not_and e : (∀ l r, e ≠ And l r) → serialize e PAnd = serialize e PUnary.
Proof. destruct e; intros H; try done. by edestruct H. Qed.
Lemma serialize_not_or e : (∀ l r, e ≠ Or l r) → serialize e POr = serialize e PAnd.
Proof. destruct e; intros H; try done. by edestruct H. Qed.

Lemma reads_and_single e : (∀ l r, e ≠ And l r) → reads_unary e → reads_and e.
Proof.
  intros He Hu o idx r fuel Hd Hf Hfu. rewrite serialize_not_and in * by done.
  exists fuel. split; [lia|]. unfold and_from. rewrite (Hu idx r fuel) by done. cbn.
  destruct o; cbn; [|done]. by rewrite canon_not_and.
Qed.

Lemma reads_and_chain l r : spellable r → reads_and l → reads_and r → reads_and (And l r).
Proof.
  intros Hsp Hl Hr o idx rest fuel Hd Hf Hfu.
  change (serialize (And l r) PAnd) with (serialize l PAnd +:+ " && " +:+ serialize r PAnd) in *.
  rewrite !bytes_of_app in *. rewrite <-!(assoc_L (++)) in Hd.
  destruct (Hl o idx _ fuel Hd) as (f1 & Hf1 & ->); [by constructor|done|].
  apply drop_move in Hd. destruct f1 as [|f1]; [lia|].
  rewrite (and_loop_more f1 _ _ _ Hd).
  set (i := idx + len (serialize l PAnd)) in *.
  pose proof (drop_len _ _ _ _ Hd) as Hlen. cbn [length bytes_of] in Hlen.
  assert (Hd3 : drop (i + 3) bs = " "%char :: bytes_of (serialize r PAnd) ++ rest).
  { apply (drop_move _ i (bytes_of " &&")). by rewrite Hd. }
  assert (Hd4 : drop (i + 4) bs = bytes_of (serialize r PAnd) ++ rest).
  { replace (i + 4) with (S (i + 3)) by lia. by eapply drop_step. }
  unfold and_from. rewrite <-parse_unary_skip, (skip_ws_blank _ _ _ _ Hsp Hd3).
  replace (S (i + 3)) with (i + 4) by lia.
  destruct (Hr (Some (chain rot_and o (canon l))) (i + 4) rest f1) as (f2 & Hf2 & E);
    [done|done| |].
  { cbn in Hlen. lia. }
  unfold and_from in E. rewrite E. exists f2. rewrite !length_app. cbn [length].
  replace (idx + _) with (i + 4 + len (serialize r PAnd)) by (cbn; lia).
  split; [done|]. f_equal. destruct o; cbn; [|done]. by rewrite rot_and_assoc.
Qed.

Lemma reads_and_complete e idx r fuel :
  reads_and e → drop idx bs = bytes_of (serialize e PAnd) ++ r → follows PAnd r →
  left idx + 4 ≤ fuel →
  parse_and bs fuel idx = Ok (canon e, skip_ws bs (idx + len (serialize e PAnd))).
Proof.
  intros He Hd Hf Hfu. destruct fuel as [|fuel]; [lia|].
  change (parse_and bs (S fuel) idx) with (and_from None fuel idx).
  destruct (He None idx r fuel) as (f & Hf' & ->); [done|by eapply follows_weaken|lia|].
  destruct f as [|f]; [lia|]. by apply (and_loop_stop _ _ _ r); [apply drop_move|].
Qed.

Lemma reads_or_single e : (∀ l r, e ≠ Or l r) → reads_and e → reads_or e.
Proof.
  intros He Ha o idx r fuel Hd Hf Hfu. rewrite serialize_not_or in * by done.
  exists fuel. split; [lia|]. unfold or_from.
  rewrite (reads_and_complete e idx r fuel) by done. cbn.
  destruct o; cbn; [|done]. by rewrite canon_not_or.
Qed.

Lemma reads_or_chain l r : spellable r → reads_or l → reads_or r → reads_or (Or l r).
Proof.
  intros Hsp Hl Hr o idx rest fuel Hd Hf Hfu.
  change (serialize (Or l r) POr) with (serialize l POr +:+ " || " +:+ serialize r POr) in *.
  rewrite !bytes_of_app in *. rewrite <-!(assoc_L (++)) in Hd.
  destruct (Hl o idx _ fuel Hd) as (f1 & Hf1 & ->); [by constructor|done|].
  apply drop_move in Hd. destruct f1 as [|f1]; [lia|].
  rewrite (or_loop_more f1 _ _ _ Hd).
  set (i := idx + len (serialize l POr)) in *.
  pose proof (drop_len _ _ _ _ Hd) as Hlen. cbn [length bytes_of] in Hlen.
  assert (Hd3 : drop (i + 3) bs = " "%char :: bytes_of (serialize r POr) ++ rest).
  { apply (drop_move _ i (bytes_of " ||")). by rewrite Hd. }
  assert (Hd4 : drop (i + 4) bs = bytes_of (serialize r POr) ++ rest).
  { replace (i + 4) with (S (i + 3)) by lia. by eapply drop_step. }
  unfold or_from. rewrite <-parse_and_skip, (skip_ws_blank _ _ _ _ Hsp Hd3).
  replace (S (i + 3)) with (i + 4) by lia.
  destruct (Hr (Some (chain rot_or o (canon l))) (i + 4) rest f1) as (f2 & Hf2 & E);
    [done|done| |].
  { cbn in Hlen. lia. }
  unfold or_from in E. rewrite E. exists f2. rewrite !length_app. cbn [length].
  replace (idx + _) with (i + 4 + len (serialize r POr)) by (cbn; lia).
  split; [done|]. f_equal. destruct o; cbn; [|done]. by rewrite rot_or_assoc.
Qed.

Lemma reads_or_complete e idx r fuel :
  reads_or e → drop idx bs = bytes_of (serialize e POr) ++ r → follows POr r →
  left idx + 5 ≤ fuel →
  parse_or bs fuel idx = Ok (canon e, skip_ws bs (idx + len (serialize e POr))).
Proof.
  intros He Hd Hf Hfu. destruct fuel as [|fuel]; [lia|].
  change (parse_or bs (S fuel) idx) with (or_from None fuel idx).
  destruct (He None idx r fuel) as (f & Hf' & ->); [done|by apply follows_or_and|lia|].
  destruct f as [|f]; [lia|].
  transitivity (or_loop bs (S f) (canon e) (idx + len (serialize e POr))).
  { cbn. by rewrite skip_ws_idem. }
  by apply (or_loop_stop _ _ _ r); [apply drop_move|].
Qed.

(** *** Primaries *)

Lemma parse_unary_paren e idx r fuel :
  reads_or e → drop idx bs = "("%char :: bytes_of (serialize e POr) ++ ")"%char :: r →
  left idx + 3 ≤ fuel →
  parse_unary bs fuel idx = Ok (canon e, idx + S (S (len (serialize e POr)))).
Proof.
  intros He Hd Hfu. destruct fuel as [|[|fuel]]; [lia..|].
  pose proof (drop_len _ _ ("("%char :: bytes_of (serialize e POr)) _ Hd) as Hl.
  cbn [length] in Hl.
  cbn -[decide]. rewrite !(skip_ws_operand _ _ _ Hd) by done.
  rewrite !at_byte_drop, Hd. cbn -[decide]. rewrite decide_False by lia.
  rewrite (reads_or_complete e (S idx) (")"%char :: r) fuel);
    [|done|by eapply drop_step|constructor|lia].
  cbn. apply drop_step in Hd. apply drop_move in Hd.
  assert (Hw : skip_ws bs (S idx + len (serialize e POr)) = S idx + len (serialize e POr)).
  { rewrite skip_ws_drop, Hd. cbn. lia. }
  cbn in Hw, Hd. rewrite !Hw, at_byte_drop, Hd. cbn. do 2 f_equal. lia.
Qed.

(** An operand that starts with an identifier goes to the keyword tests. *)
Lemma parse_unary_ident idx s r fuel :
  drop idx bs = bytes_of s ++ r → is_identifier s →
  parse_unary bs (S (S fuel)) idx =
  match try_consume_bool_literal bs idx with
  | Some (value, idx) => Ok (Bool value, idx)
  | None =>
      found ← try_parse_cardinality bs fuel idx;
      match found with Some r => Ok r | None => parse_predicate bs idx end
  end.
Proof.
  intros Hd Hid. apply identifier_head in Hid as (b & s' & Hs & Hb).
  rewrite Hs in Hd. cbn in Hd.
  assert (Hn : starts_operand b = true) by (unfold starts_operand; by rewrite Hb).
  cbn -[decide try_consume_bool_literal]. rewrite !(skip_ws_operand _ _ _ Hd) by done.
  pose proof (drop_len _ _ [b] _ Hd) as Hl. cbn in Hl.
  rewrite !at_byte_drop, Hd, decide_False by lia.
  by destruct b as [[] [] [] [] [] [] [] []].
Qed.

Lemma bool_literal_at idx s r :
  drop idx bs = bytes_of s ++ r → is_identifier s → stops r →
  try_consume_bool_literal bs idx =
  if bool_decide (s = "true") then Some (true, idx + 4)
  else if bool_decide (s = "false") then Some (false, idx + 5) else None.
Proof.
  intros Hd Hs Hr. unfold try_consume_bool_literal.
  by rewrite !(keyword_at _ _ _ _ _ Hd Hs Hr).
Qed.

Lemma find_keyword_at idx s r :
  drop idx bs = bytes_of s ++ r → is_identifier s → stops r →
  find_keyword bs idx = if decide (s ∈ KEYWORDS) then Some s else None.
Proof.
  intros Hd Hs Hr. unfold find_keyword. cbn [List.find KEYWORDS].
  rewrite !(keyword_at _ _ _ _ _ Hd Hs Hr) by done.
  repeat case_bool_decide; subst; try done; rewrite ?decide_True by (vm_compute; set_solver);
    try done.
  rewrite decide_False; [done|]. unfold KEYWORDS. rewrite !elem_of_cons, elem_of_nil. tauto.
Qed.

(** The operator position of [tag op rhs], blank skipped. *)
Lemma skip_ws_operator idx op r :
  drop idx bs = " "%char :: bytes_of (op_text op) ++ r → skip_ws bs idx = S idx.
Proof. destruct op; intros Hd; by apply (skip_ws_space _ _ _ Hd). Qed.

Lemma parse_unary_predicate tag op r idx fuel :
  facet_name tag → drop idx bs = bytes_of tag ++ " "%char :: bytes_of (op_text op) ++ r →
  3 ≤ fuel → parse_unary bs fuel idx = parse_predicate bs idx.
Proof.
  intros Ht Hd Hfu. destruct fuel as [|[|[|fuel]]]; [lia..|].
  apply andb_True in Ht as [[Ht H1]%andb_True H2].
  apply Is_true_true, negb_true_iff in H1, H2.
  rewrite (parse_unary_ident _ _ _ _ Hd) by done.
  rewrite (bool_literal_at _ _ _ Hd), H1, H2 by done. cbn.
  rewrite (find_keyword_at _ _ _ Hd) by done.
  destruct (decide (tag ∈ KEYWORDS)); [|done]. cbn.
  apply drop_move in Hd. rewrite (skip_ws_operator _ _ _ Hd).
  apply drop_step in Hd. rewrite at_byte_drop, Hd. by destruct op.
Qed.

Lemma parse_predicate_prefix tag op b r idx :
  is_identifier tag →
  drop idx bs = bytes_of tag ++ " "%char :: bytes_of (op_text op) ++ " "%char :: b :: r →
  is_ascii_whitespace b = false →
  ∃ aop, to_public_op aop = op ∧
    parse_predicate bs idx =
    (let '(value, idx) := parse_quoted_literal bs (idx + len tag + 4) in
     match value with
     | Some value => Ok (Predicate (to_public_atom (mkAtom tag aop value)), idx)
     | None =>
         let '(rhs, i) := parse_ident bs idx in
         rhs ← ok_or rhs (ExpectedRhs idx); Ok (FacetCompare tag (to_public_op aop) rhs, i)
     end) ∧
    drop (idx + len tag + 4) bs = b :: r.
Proof.
  intros Ht Hd Hb. pose proof (identifier_head _ Ht) as (c & s & Hs & Hc).
  assert (Hw : skip_ws bs idx = idx).
  { apply (skip_ws_operand _ c (s ++ " "%char :: bytes_of (op_text op) ++ " "%char :: b :: r)).
    - by rewrite Hd, Hs.
    - unfold starts_operand. by rewrite Hc. }
  unfold parse_predicate. rewrite Hw, (parse_ident_at _ _ _ _ Hd) by done. cbn.
  apply drop_move in Hd. rewrite (skip_ws_operator _ _ _ Hd). apply drop_step in Hd.
  destruct (parse_operator_at _ _ _ _ Hd) as (aop & -> & Hop). cbn.
  assert (Hd2 : drop (S (idx + len tag) + 2) bs = " "%char :: b :: r).
  { apply drop_move in Hd. by destruct op. }
  cbn in Hd2. rewrite (skip_ws_space _ _ _ Hd2) by done.
  replace (S (S (idx + len tag + 2))) with (idx + len tag + 4) by lia.
  exists aop. split; [done|]. split; [done|].
  replace (idx + len tag + 4) with (S (S (idx + len tag + 2))) by lia. by eapply drop_step.
Qed.

Lemma reads_predicate p : spellable (Predicate p) → reads_unary (Predicate p).
Proof.
  intros H idx r fuel Hd Hf Hfu. cbn [spellable] in H. apply andb_True in H as [Ht Hv].
  apply andb_True in Hv as [Hq%bool_decide_unpack Hu%Is_true_true].
  cbn [serialize] in *. rewrite !bytes_of_app in Hd. rewrite <-!(assoc_L (++)) in Hd.
  rewrite (parse_unary_predicate _ _ _ _ _ Ht Hd) by lia.
  assert (Hid : is_identifier (p_tag p)) by (by apply andb_True in Ht as [[? _]%andb_True _]).
  destruct (parse_predicate_prefix _ _ _ _ _ Hid Hd) as (aop & Hop & -> & Hd'); [done|].
  rewrite (parse_quoted_literal_at _ _ _ _ Hd') by done.
  unfold to_public_atom. cbn [a_tag a_op a_value canon]. rewrite Hop.
  destruct p as [t o v]; cbn [p_tag p_op p_value]. do 2 f_equal.
  rewrite !bytes_of_app, !length_app. destruct o; cbn; lia.
Qed.

Lemma reads_compare l op r0 : spellable (FacetCompare l op r0) → reads_unary (FacetCompare l op r0).
Proof.
  intros H idx r fuel Hd Hf Hfu. cbn [spellable] in H. apply andb_True in H as [Ht Hr].
  cbn [serialize] in *. rewrite !bytes_of_app in Hd. rewrite <-!(assoc_L (++)) in Hd.
  rewrite (parse_unary_predicate _ _ _ _ _ Ht Hd) by lia.
  assert (Hid : is_identifier l) by (by apply andb_True in Ht as [[? _]%andb_True _]).
  pose proof (identifier_head _ Hr) as (b & s & Hs & Hb). rewrite Hs in Hd.
  destruct (parse_predicate_prefix l op b (s ++ r) idx Hid Hd) as (aop & <- & -> & Hd').
  { by destruct b as [[] [] [] [] [] [] [] []]. }
  rewrite (parse_quoted_literal_none _ _ _ _ Hd') by (apply ident_start_char; by rewrite Hb).
  rewrite (parse_ident_at bs _ r0 r); [|by rewrite Hd', Hs|done|by eapply follows_stops].
  cbn. do 2 f_equal.
  rewrite !bytes_of_app, !length_app. destruct aop; cbn; lia.
Qed.

Lemma reads_bool b : reads_unary (Bool b).
Proof.
  intros idx r fuel Hd Hf Hfu. destruct fuel as [|[|fuel]]; [lia..|].
  rewrite (parse_unary_ident _ _ _ _ Hd) by (by destruct b).
  rewrite (bool_literal_at _ _ _ Hd); [|by destruct b|by eapply follows_stops].
  by destruct b.
Qed.

Lemma reads_not e : spellable e → reads_unary e → reads_unary (Not e).
Proof.
  intros Hsp He idx r fuel Hd Hf Hfu. destruct fuel as [|fuel]; [lia|].
  change (bytes_of (serialize (Not e) PUnary)) with ("!"%char :: bytes_of (serialize e PUnary)) in *.
  pose proof (drop_len _ _ _ _ Hd) as Hl. cbn [length] in Hl.
  destruct (serialize_head e PUnary Hsp) as (b & s & Hs & Hb).
  pose proof (drop_step _ _ _ _ Hd) as Hd'.
  cbn [parse_unary]. rewrite (skip_ws_operand _ _ _ Hd) by done.
  rewrite !at_byte_drop, Hd, Hd', Hs. cbn [app Ascii.eqb]. cbn -[parse_unary].
  assert (Ascii.eqb b "="%char = false) as -> by (by destruct b as [[] [] [] [] [] [] [] []]).
  rewrite (He (S idx) r fuel) by (done || lia). cbn. rewrite Hs. do 2 f_equal. cbn. lia.
Qed.

(** *** Cardinality calls *)

Definition args_text (es : list ConditionExpr) : string :=
  join ", " (map (λ c, serialize c POr) es).

Lemma args_text_cons e e' es :
  args_text (e :: e' :: es) = serialize e POr +:+ ", " +:+ args_text (e' :: es).
Proof. done. Qed.

Lemma reads_args es kw read idx r fuel :
  Forall (λ e, spellable e ∧ reads_or e) es → es ≠ [] → 2 ≤ length (read ++ es) →
  drop idx bs = bytes_of (args_text es) ++ ")"%char :: r →
  left idx + 6 ≤ fuel →
  parse_cardinality_args bs fuel kw read idx =
  Ok (read ++ map canon es, S (idx + len (args_text es))).
Proof.
  intros HF. revert read idx fuel. induction HF as [|e es [Hsp He] HF IH]; [done|].
  intros read idx fuel _ Hn Hd Hfu. destruct fuel as [|fuel]; [lia|]. cbn [parse_cardinality_args].
  destruct es as [|e' es].
  - change (args_text [e]) with (serialize e POr) in *.
    rewrite (reads_or_complete e idx (")"%char :: r) fuel) by (done || constructor || lia). cbn.
    rewrite skip_ws_idem. apply drop_move in Hd.
    assert (skip_ws bs (idx + len (serialize e POr)) = idx + len (serialize e POr)) as ->.
    { rewrite skip_ws_drop, Hd. cbn. lia. }
    rewrite (drop_lookup _ _ _ _ Hd). cbn. rewrite length_app in *. cbn in *.
    by rewrite decide_False by lia.
  - rewrite args_text_cons, !bytes_of_app in *. rewrite <-!(assoc_L (++)) in Hd.
    pose proof (drop_len _ _ _ _ Hd) as Hl.
    rewrite (reads_or_complete e idx _ fuel He Hd) by (constructor || lia). cbn.
    rewrite skip_ws_idem. apply drop_move in Hd.
    set (i := idx + len (serialize e POr)) in *.
    assert (skip_ws bs i = i) as ->. { rewrite skip_ws_drop, Hd. cbn. lia. }
    rewrite (drop_lookup _ _ _ _ Hd). cbn -[parse_cardinality_args].
    pose proof (drop_step _ _ _ _ Hd) as Hd1. pose proof (drop_step _ _ _ _ Hd1) as Hd2.
    inversion HF as [|? ? [Hsp' He'] ?]; subst.
    destruct (serialize_head e' POr Hsp') as (b & s & Hs & Hb).
    assert (Hh : ∃ t, bytes_of (args_text (e' :: es)) = b :: t).
    { destruct es; [change (args_text [e']) with (serialize e' POr); eauto|].
      rewrite args_text_cons, bytes_of_app, Hs. eauto. }
    destruct Hh as [t Ht].
    assert (skip_ws bs (S i) = S (S i)) as ->.
    { eapply skip_ws_space; [by rewrite Hd1, Ht|]. by destruct b as [[] [] [] [] [] [] [] []]. }
    rewrite at_byte_drop, Hd2. cbn [bytes_of app]. rewrite Ht at 1. cbn [app].
    assert (Ascii.eqb b ")"%char = false) as -> by (by destruct b as [[] [] [] [] [] [] [] []]).
    rewrite (IH (read ++ [canon e]) (S (S i)) fuel); [|done| |done|].
    + rewrite <-(assoc_L (++)). cbn [map app]. do 2 f_equal. rewrite !length_app. subst i. cbn. lia.
    + rewrite !length_app in *. cbn in *. lia.
    + cbn in Hl. rewrite length_app in Hl. cbn in Hl. lia.
Qed.

Lemma reads_call kw es idx r fuel :
  kw ∈ KEYWORDS → Forall (λ e, spellable e ∧ reads_or e) es → 2 ≤ length es →
  drop idx bs = bytes_of kw ++ "("%char :: bytes_of (args_text es) ++ ")"%char :: r →
  left idx + 3 ≤ fuel →
  parse_unary bs fuel idx =
  Ok (cardinality_expr kw (map canon es), idx + len kw + len (args_text es) + 2).
Proof.
  intros Hk HF Hn Hd Hfu. destruct fuel as [|[|[|fuel]]]; [lia..|].
  assert (Hid : is_identifier kw ∧ kw ≠ "true" ∧ kw ≠ "false").
  { unfold KEYWORDS in Hk. rewrite !elem_of_cons, elem_of_nil in Hk.
    destruct Hk as [->|[->|[->|[]]]]; done. }
  destruct Hid as (Hid & H1 & H2).
  rewrite (parse_unary_ident _ _ _ _ Hd Hid), (bool_literal_at _ _ _ Hd Hid) by done.
  rewrite !bool_decide_eq_false_2 by done. cbn -[parse_cardinality_args].
  rewrite (find_keyword_at _ _ _ Hd Hid), decide_True by done.
  pose proof (drop_len _ _ _ _ Hd) as Hl.
  assert (0 < len kw). { apply identifier_head in Hid as (? & ? & -> & _). cbn. lia. }
  apply drop_move in Hd.
  assert (skip_ws bs (idx + len kw) = idx + len kw) as ->. { rewrite skip_ws_drop, Hd. cbn. lia. }
  rewrite at_byte_drop, Hd. cbn [Ascii.eqb]. cbn -[parse_cardinality_args].
  rewrite (reads_args es kw [] (S (idx + len kw)) r fuel); [|done| |done| |].
  - cbn. do 2 f_equal. lia.
  - intros ->. cbn in Hn. lia.
  - by eapply drop_step.
  - cbn [length] in Hl. lia.
Qed.
End Roundtrip.

(** An operand looser than its position is read through its parentheses. *)
Lemma reads_wrapped bs e :
  serialize e PUnary = "(" +:+ serialize e POr +:+ ")" → reads_or bs e → reads_unary bs e.
Proof.
  intros Hs Ho idx r fuel Hd Hf Hfu. rewrite Hs in *. clear Hs.
  rewrite !bytes_of_app in *. rewrite <-!(assoc_L (++)) in Hd.
  rewrite (parse_unary_paren bs _ _ r fuel Ho Hd) by done. do 2 f_equal.
  rewrite !length_app. cbn. lia.
Qed.

Lemma reads_single bs e :
  (∀ l r, e ≠ And l r) → (∀ l r, e ≠ Or l r) →
  reads_unary bs e → reads_unary bs e ∧ reads_and bs e ∧ reads_or bs e.
Proof.
  intros H1 H2 Hu. pose proof (reads_and_single bs e H1 Hu). eauto using reads_or_single.
Qed.

Lemma reads_cardinality bs kw es :
  kw ∈ KEYWORDS → 2 ≤ length es → Forall (λ e, spellable e ∧ reads_or bs e) es →
  (∀ p, serialize (cardinality_expr kw es) p = kw +:+ "(" +:+ args_text es +:+ ")") →
  canon (cardinality_expr kw es) = cardinality_expr kw (map canon es) →
  reads_unary bs (cardinality_expr kw es).
Proof.
  intros Hk Hn HF Hs Hc idx r fuel Hd Hf Hfu. rewrite Hs in *.
  rewrite !bytes_of_app in *. rewrite <-!(assoc_L (++)) in Hd.
  rewrite (reads_call bs kw es idx r fuel) by done. rewrite Hc. do 2 f_equal.
  rewrite !length_app. cbn. lia.
Qed.

Lemma spellable_args bs es :
  Forall (λ e, spellable e → reads_unary bs e ∧ reads_and bs e ∧ reads_or bs e) es →
  (2 <=? length es) && forallb spellable es →
  2 ≤ length es ∧ Forall (λ e, spellable e ∧ reads_or bs e) es.
Proof.
  intros IH [Hn%Is_true_true%Nat.leb_le Hs%Is_true_true]%andb_True. split; [done|].
  rewrite forallb_elem in Hs. rewrite !Forall_forall in *. intros e He.
  pose proof (Hs e He) as Hse. apply Is_true_true in Hse. split; [done|]. by apply IH.
Qed.

Lemma reads_all bs e :
  spellable e → reads_unary bs e ∧ reads_and bs e ∧ reads_or bs e.
Proof.
  induction e as [b|q|e IH|l r IHl IHr|l r IHl IHr|es IH|es IH|es IH|l op r]
    using ConditionExpr_ind'; intros H; cbn [spellable] in H.
  - apply reads_single; [done|done|]. apply reads_bool.
  - apply reads_single; [done|done|]. by apply reads_predicate.
  - apply reads_single; [done|done|]. apply reads_not; [done|]. by apply IH.
  - apply andb_True in H as [Hl Hr].
    assert (Ha : reads_and bs (And l r)) by (apply reads_and_chain; [done|by apply IHl|by apply IHr]).
    assert (Ho : reads_or bs (And l r)) by (by apply reads_or_single).
    split_and!; [by apply reads_wrapped|done..].
  - apply andb_True in H as [Hl Hr].
    assert (Ho : reads_or bs (Or l r)) by (apply reads_or_chain; [done|by apply IHl|by apply IHr]).
    assert (Hu : reads_unary bs (Or l r)) by (by apply reads_wrapped).
    split_and!; [done| |done]. by apply reads_and_single.
  - apply (spellable_args bs) in H as [Hn HF]; [|done]. apply reads_single; [done|done|].
    apply (reads_cardinality bs "any_of"); done || (unfold KEYWORDS; set_solver).
  - apply (spellable_args bs) in H as [Hn HF]; [|done]. apply reads_single; [done|done|].
    apply (reads_cardinality bs "all_of"); done || (unfold KEYWORDS; set_solver).
  - apply (spellable_args bs) in H as [Hn HF]; [|done]. apply reads_single; [done|done|].
    apply (reads_cardinality bs "exactly_one_of"); done || (unfold KEYWORDS; set_solver).
  - apply reads_single; [done|done|]. by apply reads_compare.
Qed.

Lemma parse_serialize e :
  spellable e → parse_condition_expr (serialize e POr) = Ok (canon e).
Proof.
  intros H. unfold parse_condition_expr. set (bs := bytes_of (serialize e POr)).
  destruct (reads_all bs e H) as (_ & _ & Ho).
  rewrite (reads_or_complete bs e 0 []); [|done|by rewrite app_nil_r|constructor|unfold parse_fuel; lia].
  cbn. rewrite skip_ws_idem, skip_ws_drop. rewrite drop_all. cbn. by rewrite Nat.add_0_r, decide_True.
Qed.

(** ** What re-association preserves *)

Lemma rot_and_eval x y asg : eval_total (rot_and x y) asg = eval_total x asg && eval_total y asg.
Proof. induction y; cbn; try done. by rewrite IHy1, andb_assoc. Qed.
Lemma rot_or_eval x y asg : eval_total (rot_or x y) asg = eval_total x asg || eval_total y asg.
Proof. induction y; cbn; try done. by rewrite IHy1, orb_assoc. Qed.
Lemma rot_and_predicates x y :
  for_each_predicate (rot_and x y) = for_each_predicate x ++ for_each_predicate y.
Proof. induction y; cbn; try done. by rewrite IHy1, (assoc_L (++)). Qed.
Lemma rot_or_predicates x y :
  for_each_predicate (rot_or x y) = for_each_predicate x ++ for_each_predicate y.
Proof. induction y; cbn; try done. by rewrite IHy1, (assoc_L (++)). Qed.

Lemma canon_eval e asg : eval_total (canon e) asg = eval_total e asg.
Proof.
  induction e as [b|q|e IH|l r IHl IHr|l r IHl IHr|es IH|es IH|es IH|l op r]
    using ConditionExpr_ind'; cbn; try done.
  - by rewrite IH.
  - by rewrite rot_and_eval, IHl, IHr.
  - by rewrite rot_or_eval, IHl, IHr.
  - rewrite existsb_mapped. by apply existsb_cong.
  - rewrite forallb_mapped. by apply forallb_cong.
  - rewrite length_filter_mapped. by rewrite (filter_cong _ _ _ IH).
Qed.

Lemma canon_predicates e : for_each_predicate (canon e) = for_each_predicate e.
Proof.
  assert (Hl : ∀ es, Forall (λ e, for_each_predicate (canon e) = for_each_predicate e) es →
    flat_map for_each_predicate (map canon es) = flat_map for_each_predicate es).
  { induction 1 as [|e' es He _ IH]; cbn; [done|]. by rewrite He, IH. }
  induction e as [b|q|e IH|l r IHl IHr|l r IHl IHr|es IH|es IH|es IH|l op r]
    using ConditionExpr_ind'; cbn; auto.
  - by rewrite rot_and_predicates, IHl, IHr.
  - by rewrite rot_or_predicates, IHl, IHr.
Qed.

Section Substitution.
Context (rename_tag : string → string) (rename_literal : string → string → string).

Lemma substitute_spellable e :
  (∀ t, facet_name (rename_tag t)) → (∀ t v, literal_text (rename_literal t v)) →
  wf_expr e → spellable (substitute rename_tag rename_literal e).
Proof.
  intros Ht Hv.
  assert (Hid : ∀ t, is_identifier (rename_tag t)).
  { intros t. pose proof (Ht t) as H. by apply andb_True in H as [[? _]%andb_True _]. }
  assert (Hl : ∀ es, Forall (λ e, wf_expr e → spellable (substitute rename_tag rename_literal e)) es →
    (2 <=? length es) && forallb wf_expr es →
    (2 <=? length (map (substitute rename_tag rename_literal) es)) &&
    forallb spellable (map (substitute rename_tag rename_literal) es)).
  { intros es IH [Hn Hw]%andb_True. rewrite length_map, forallb_mapped. apply andb_True.
    split; [done|]. apply Is_true_true, forallb_elem. intros x Hx.
    apply Is_true_true in Hw. rewrite forallb_elem in Hw. rewrite Forall_forall in IH.
    apply Is_true_true, IH; [done|]. by apply Is_true_true, Hw. }
  induction e as [b|q|e IH|l r IHl IHr|l r IHl IHr|es IH|es IH|es IH|l op r]
    using ConditionExpr_ind'; intros Hw; cbn [spellable substitute wf_expr p_tag p_value] in *; auto.
  - apply andb_True in Hw as [? ?]. apply andb_True; eauto.
  - apply andb_True in Hw as [? ?]. apply andb_True; eauto.
Qed.
End Substitution.

(** Renaming every facet by [rename_tag] and every value by an injective
    [rename_value] keeps every condition's truth value. *)
Lemma substitute_eval rename_tag rename_value e asg asg' :
  Inj (=) (=) rename_value →
  (∀ t, asg' !! rename_tag t = rename_value <$> asg !! t) →
  eval_total (substitute rename_tag (λ _, rename_value) e) asg' = eval_total e asg.
Proof.
  intros Hinj Ha.
  assert (Hb : ∀ x y, bool_decide (rename_value x = rename_value y) = bool_decide (x = y)).
  { intros x y. apply bool_decide_ext. split; [apply Hinj|by intros ->]. }
  induction e as [b|q|e IH|l r IHl IHr|l r IHl IHr|es IH|es IH|es IH|l op r]
    using ConditionExpr_ind'; cbn; try done.
  - unfold eval_total_predicate. cbn. rewrite Ha. destruct (asg !! p_tag q); cbn; [|done].
    destruct (p_op q); [done|]. by rewrite !bool_decide_not, Hb.
  - by rewrite IH.
  - by rewrite IHl, IHr.
  - by rewrite IHl, IHr.
  - rewrite existsb_mapped. by apply existsb_cong.
  - rewrite forallb_mapped. by apply forallb_cong.
  - rewrite length_filter_mapped. by rewrite (filter_cong _ _ _ IH).
  - rewrite !Ha. destruct (asg !! l), (asg !! r); cbn; try done.
    destruct op; [done|]. by rewrite !bool_decide_not, Hb.
Qed.

(** The serializer is inverted by the parser.  Every expression whose
    names and literals the grammar can spell prints to text that parses to the
    expression with its [&&] and [||] chains associated to the left. *)
Theorem serialize_parse_roundtrip e :
  spellable e = true → parse_condition_expr (serialize e POr) = Ok (canon e).
Proof. intros H. apply parse_serialize. by rewrite H. Qed.

Lemma serialize_parse_roundtrip_witness :
  parse_condition_expr (serialize
    (Or (Predicate (mkPredicate "a" OpEq "x"))
        (And (Not (FacetCompare "b" OpNotEq "c"))
             (ExactlyOneOf [Bool true; Predicate (mkPredicate "d" OpNotEq "y z")]))) POr) =
  Ok (Or (Predicate (mkPredicate "a" OpEq "x"))
        (And (Not (FacetCompare "b" OpNotEq "c"))
             (ExactlyOneOf [Bool true; Predicate (mkPredicate "d" OpNotEq "y z")]))).
Proof. apply serialize_parse_roundtrip. vm_compute. reflexivity. Defined.

(** Rewriting a condition that parses, with closures that return names
    the grammar can spell, yields text that parses; what it parses to has the
    predicates of the substituted expression in the same order and its truth
    value under every assignment. *)
Theorem rewrite_reparses condition rename_tag rename_literal e :
  (∀ t, facet_name (rename_tag t)) → (∀ t v, literal_text (rename_literal t v)) →
  parse_condition_expr condition = Ok e →
  ∃ text e', rewrite_condition_identifiers condition rename_tag rename_literal = Ok text ∧
    parse_condition_expr text = Ok e' ∧
    for_each_predicate e' = for_each_predicate (substitute rename_tag rename_literal e) ∧
    ∀ asg, eval_total e' asg = eval_total (substitute rename_tag rename_literal e) asg.
Proof.
  intros Ht Hv Hp. unfold rewrite_condition_identifiers. rewrite Hp. cbn.
  pose proof (substitute_spellable _ _ _ Ht Hv (parse_wf _ _ Hp)) as Hs.
  eexists _, _. split; [done|]. split; [by apply parse_serialize|].
  split; [apply canon_predicates|]. intros asg. apply canon_eval.
Qed.

Lemma rewrite_reparses_witness :
  ∃ text e',
    rewrite_condition_identifiers "a == 'x' && (b != 'y' && true)" (λ _, "tag_1") (λ _ _, "opt_1") =
      Ok text ∧ parse_condition_expr text = Ok e' ∧
    for_each_predicate e' =
      for_each_predicate (substitute (λ _, "tag_1") (λ _ _, "opt_1")
        (And (Predicate (mkPredicate "a" OpEq "x"))
             (And (Predicate (mkPredicate "b" OpNotEq "y")) (Bool true)))) ∧
    ∀ asg, eval_total e' asg = eval_total (substitute (λ _, "tag_1") (λ _ _, "opt_1")
        (And (Predicate (mkPredicate "a" OpEq "x"))
             (And (Predicate (mkPredicate "b" OpNotEq "y")) (Bool true)))) asg.
Proof. apply rewrite_reparses; [intros t|intros t v|]; vm_compute; done. Defined.

(** Pseudonymisation keeps the meaning of the constraint.  Under an
    injective renaming of values the substituted condition holds of a renamed
    configuration exactly when the original holds of the original one. *)
Theorem substitute_preserves_meaning rename_tag rename_value e asg asg' :
  Inj (=) (=) rename_value →
  (∀ t, asg' !! rename_tag t = rename_value <$> asg !! t) →
  eval_total (substitute rename_tag (λ _, rename_value) e) asg' = eval_total e asg.
Proof. apply substitute_eval. Qed.

Lemma substitute_preserves_meaning_witness :
  eval_total (substitute (λ t, t) (λ _ v, "opt_" +:+ v)
    (Predicate (mkPredicate "os" OpEq "linux"))) {["os" := "opt_linux"]} = true.
Proof.
  rewrite (substitute_preserves_meaning (λ t, t) (λ v, "opt_" +:+ v) _ {["os" := "linux"]}).
  - vm_compute. reflexivity.
  - intros x y H. by simplify_eq/=.
  - intros t. destruct (decide (t = "os")) as [->|]; [by vm_compute|].
    by rewrite !lookup_singleton_ne.
Defined.

(** Enumeration reports exactly the facets the condition names, on either
    side of a comparison, and exactly the option literals of its predicates. *)
Theorem condition_identifiers_complete condition ids e :
  condition_identifiers condition = Ok ids → parse_condition_expr condition = Ok e →
  (∀ t, t ∈ tags ids ↔ t ∈ expr_tags e) ∧ (∀ o, o ∈ options ids ↔ o ∈ expr_options e).
Proof.
  unfold condition_identifiers. intros Hc He. rewrite He in Hc. injection Hc as <-.
  pose proof (collect_spec e (mkIdentifiers ∅ ∅)) as H. split.
  - intros t. destruct (H t (EmptyString, EmptyString)) as [-> _]. cbn. set_solver.
  - intros o. destruct (H EmptyString o) as [_ ->]. cbn. set_solver.
Qed.

Lemma condition_identifiers_complete_witness :
  ∃ ids, condition_identifiers "a == 'x' && b != c" = Ok ids ∧
    ∀ t, t ∈ tags ids ↔ t ∈ ["a"; "b"; "c"].
Proof.
  eexists. split; [reflexivity|].
  exact (proj1 (condition_identifiers_complete "a == 'x' && b != c" _ _ eq_refl eq_refl)).
Defined.

(** Chains written with the parentheses to the right come back associated to
    the left: the text is not read back to the same tree. *)
Lemma serialize_reassociates :
  let a := Predicate (mkPredicate "a" OpEq "x") in
  parse_condition_expr "a == 'x' && (a == 'x' && a == 'x')" = Ok (And a (And a a)) ∧
  parse_condition_expr (serialize (And a (And a a)) POr) = Ok (And (And a a) a).
Proof. vm_compute. split; reflexivity. Qed.
