(* ===== verification/VarOrder.v ===== *)
(** * Variable-ordering heuristics

    Models [compiler/src/ccm_emitter/var_order.rs]: the three strategies that
    turn the parsed clauses into the BDD variable order.  The FORCE sweep
    computes with [f64]; here those are IEEE-754 binary64 values of the
    standard library's [SpecFloat] (53 bits of precision, exponent bound
    1024), so the sweep runs inside the logic.  [None] is a panic of the
    source (a failed [expect] or an index out of range); [var_order_complete]
    shows it is not an outcome. *)
From Stdlib Require Import SpecFloat.
From S2P Require Import Prelude Tokens Ast SelectionEval.

Inductive VarOrderHeuristic : Type := FacetNameAscending | ClauseGroupedDfs | Force.

Definition manifest_tag (h : VarOrderHeuristic) : string :=
  match h with
  | FacetNameAscending => "facet-name-ascending"
  | ClauseGroupedDfs => "clause-grouped-dfs"
  | Force => "force"
  end.

Notation symbol := (string * string)%type.

(** ** Facet-name order *)

Fixpoint collect_predicates_btree (e : ConditionExpr) (out : gset symbol) : gset symbol :=
  match e with
  | Bool _ => out
  | Predicate p => {[(p_tag p, p_value p)]} ∪ out
  | Not inner => collect_predicates_btree inner out
  | And l r | Or l r => collect_predicates_btree r (collect_predicates_btree l out)
  | AnyOf es | AllOf es | ExactlyOneOf es =>
      foldl (λ out c, collect_predicates_btree c out) out es
  | FacetCompare _ _ _ => out
  end.

(** The order of Rust's [(String, String)]. *)
Definition symbol_le (x y : symbol) : Prop :=
  (x.1 ≠ y.1 ∧ String.le x.1 y.1) ∨ (x.1 = y.1 ∧ String.le x.2 y.2).
#[export] Instance symbol_le_dec x y : Decision (symbol_le x y).
Proof. unfold symbol_le. apply _. Defined.

(** [symbols.into_iter().collect()] of a [BTreeSet]. *)
Definition bt_symbols (s : gset symbol) : list symbol := merge_sort symbol_le (elements s).

Definition facet_name_ascending (clauses : list ConditionExpr) : list symbol :=
  bt_symbols (foldl (λ out c, collect_predicates_btree c out) ∅ clauses).

(** ** Clause-grouped DFS *)

Definition emit (p : ConditionPredicate) (st : list symbol * gset symbol)
    : list symbol * gset symbol :=
  let key := (p_tag p, p_value p) in
  if decide (key ∈ st.2) then st else (st.1 ++ [key], {[key]} ∪ st.2).

Fixpoint collect_predicates_dfs (e : ConditionExpr) (st : list symbol * gset symbol)
    : list symbol * gset symbol :=
  match e with
  | Bool _ => st
  | Predicate p => emit p st
  | Not inner => collect_predicates_dfs inner st
  | And l r | Or l r => collect_predicates_dfs r (collect_predicates_dfs l st)
  | AnyOf es | AllOf es | ExactlyOneOf es =>
      foldl (λ st c, collect_predicates_dfs c st) st es
  | FacetCompare _ _ _ => st
  end.

Definition clause_grouped_dfs (clauses : list ConditionExpr) : list symbol :=
  (foldl (λ st c, collect_predicates_dfs c st) ([], ∅) clauses).1.

(** ** FORCE *)

Definition FORCE_MAX_SWEEPS : nat := 20.

Notation f64 := spec_float.
Definition as_f64 (n : nat) : f64 := binary_normalize 53 1024 (Z.of_nat n) 0 false.
Definition f64_add : f64 → f64 → f64 := SFadd 53 1024.
Definition f64_div : f64 → f64 → f64 := SFdiv 53 1024.

(** [sa.partial_cmp(&sb).unwrap_or(Equal).then(a.cmp(&b))] is not [Greater]. *)
Definition rank_le (score : list f64) (a b : nat) : Prop :=
  match score !! a, score !! b with
  | Some sa, Some sb =>
      match default Eq (SFcompare sa sb) with
      | Lt => True
      | Eq => a ≤ b
      | Gt => False
      end
  | _, _ => False
  end.
#[export] Instance rank_le_dec score a b : Decision (rank_le score a b).
Proof. unfold rank_le. repeat case_match; apply _. Defined.

Definition hyperedge (seed_of : gmap symbol nat) (clause : ConditionExpr)
    : option (list nat) :=
  indices ← mapM (λ k, seed_of !! k) (bt_symbols (collect_predicates_btree clause ∅));
  Some (merge_sort Nat.le indices).

Definition hyperedges (seed_of : gmap symbol nat) (clauses : list ConditionExpr)
    : option (list (list nat)) :=
  mapM (hyperedge seed_of)
    (filter (λ c, collect_predicates_btree c ∅ ≠ ∅) clauses).

(** [var_edges[v].push(eid)] for every member of every edge. *)
Definition var_edges (n : nat) (edges : list (list nat)) : list (list nat) :=
  foldl (λ ve '(eid, edge), foldl (λ ve v, alter (λ l, l ++ [eid]) v ve) ve edge)
    (replicate n []) (imap pair edges).

Definition centroid (pos : list nat) (edge : list nat) : f64 :=
  f64_div (as_f64 (sum_list ((λ v, default 0 (pos !! v)) <$> edge))) (as_f64 (length edge)).

Definition score_of (pos : list nat) (centroids : list f64) (v : nat) (edges : list nat) : f64 :=
  match edges with
  | [] => as_f64 (default 0 (pos !! v))
  | _ =>
      f64_div (foldl f64_add (S754_zero false)
                 ((λ eid, default (S754_zero false) (centroids !! eid)) <$> edges))
              (as_f64 (length edges))
  end.

(** [for (i, &v) in ranked.iter().enumerate() { pos[v] = i; }]. *)
Definition positions (ranked pos : list nat) : list nat :=
  foldl (λ pos '(i, v), <[v := i]> pos) pos (imap pair ranked).

Fixpoint sweep (fuel n : nat) (edges ve : list (list nat)) (pos perm : list nat) : list nat :=
  match fuel with
  | O => perm
  | S fuel =>
      let centroids := centroid pos <$> edges in
      let score := imap (λ v es, score_of pos centroids v es) ve in
      let ranked := merge_sort (rank_le score) (seq 0 n) in
      if decide (ranked = perm) then perm
      else sweep fuel n edges ve (positions ranked pos) ranked
  end.

Definition force (clauses : list ConditionExpr) : option (list symbol) :=
  let seed := clause_grouped_dfs clauses in
  let n := length seed in
  if decide (n ≤ 1) then Some seed
  else
    let seed_of := foldl (λ m '(i, k), <[k := i]> m) (∅ : gmap symbol nat) (imap pair seed) in
    edges ← hyperedges seed_of clauses;
    let perm := sweep FORCE_MAX_SWEEPS n edges (var_edges n edges) (seq 0 n) (seq 0 n) in
    mapM (λ i, seed !! i) perm.

Definition compute_variable_order (clauses : list ConditionExpr) (h : VarOrderHeuristic)
    : option (list symbol) :=
  match h with
  | FacetNameAscending => Some (facet_name_ascending clauses)
  | ClauseGroupedDfs => Some (clause_grouped_dfs clauses)
  | Force => force clauses
  end.

Example var_order_example :
  let p t v := Predicate (mkPredicate t OpEq v) in
  let cs := [And (p "z" "on") (p "m" "auto"); Or (p "a" "x") (p "z" "on"); Not (p "m" "auto");
             And (p "b" "q") (p "m" "auto")] in
  (λ h, compute_variable_order cs h) <$> [FacetNameAscending; ClauseGroupedDfs; Force] =
  [Some [("a", "x"); ("b", "q"); ("m", "auto"); ("z", "on")];
   Some [("z", "on"); ("m", "auto"); ("a", "x"); ("b", "q")];
   Some [("a", "x"); ("z", "on"); ("m", "auto"); ("b", "q")]].
Proof. vm_compute. reflexivity. Qed.

(** ** What an order contains *)

(** The [(tag, value)] pairs of the predicates of the clauses. *)
Definition symbol_universe (clauses : list ConditionExpr) : list symbol :=
  flat_map for_each_predicate_symbol clauses.

Lemma symbols_app l r :
  for_each_predicate_symbol (And l r) = for_each_predicate_symbol l ++ for_each_predicate_symbol r.
Proof. unfold for_each_predicate_symbol. cbn. apply fmap_app. Qed.

Lemma symbols_list es : for_each_predicate_symbol (AnyOf es) = symbol_universe es.
Proof.
  unfold for_each_predicate_symbol, symbol_universe. cbn.
  induction es as [|e es IH]; cbn; [done|]. by rewrite fmap_app, IH.
Qed.

(** A walk that adds the symbols of one expression adds those of a list. *)
Lemma walk_list {S} (step : ConditionExpr → S → S) (has : S → symbol → Prop) es s x :
  Forall (λ e, ∀ s, has (step e s) x ↔ has s x ∨ x ∈ for_each_predicate_symbol e) es →
  has (foldl (λ s c, step c s) s es) x ↔ has s x ∨ x ∈ symbol_universe es.
Proof.
  intros HF. revert s. induction HF as [|e es He _ IH]; intros s; cbn.
  - rewrite elem_of_nil. tauto.
  - rewrite IH, He. unfold symbol_universe. cbn. rewrite elem_of_app. tauto.
Qed.

Lemma collect_btree_spec e out x :
  x ∈ collect_predicates_btree e out ↔ x ∈ out ∨ x ∈ for_each_predicate_symbol e.
Proof.
  revert out. induction e as [b|p|e IH|l r IHl IHr|l r IHl IHr|es IH|es IH|es IH|l op r]
    using ConditionExpr_ind'; intros out; cbn [collect_predicates_btree].
  - rewrite elem_of_nil. tauto.
  - unfold for_each_predicate_symbol. cbn. set_solver.
  - apply IH.
  - rewrite IHr, IHl, symbols_app, elem_of_app. tauto.
  - rewrite IHr, IHl. change (for_each_predicate_symbol (Or l r)) with
      (for_each_predicate_symbol (And l r)). rewrite symbols_app, elem_of_app. tauto.
  - rewrite symbols_list. by apply (walk_list _ (λ s x, x ∈ s)).
  - change (for_each_predicate_symbol (AllOf es)) with (for_each_predicate_symbol (AnyOf es)).
    rewrite symbols_list. by apply (walk_list _ (λ s x, x ∈ s)).
  - change (for_each_predicate_symbol (ExactlyOneOf es)) with (for_each_predicate_symbol (AnyOf es)).
    rewrite symbols_list. by apply (walk_list _ (λ s x, x ∈ s)).
  - rewrite elem_of_nil. tauto.
Qed.

(** The DFS state: [seen] is the set of the emitted pairs. *)
Definition dfs_ok (st : list symbol * gset symbol) : Prop :=
  NoDup st.1 ∧ ∀ x, x ∈ st.2 ↔ x ∈ st.1.

Lemma emit_ok p st : dfs_ok st → dfs_ok (emit p st).
Proof.
  intros [Hd Hs]. unfold emit. case_decide as H; [done|]. split; cbn.
  - apply NoDup_app. split_and!; [done| |apply NoDup_singleton].
    intros x Hx ->%list_elem_of_singleton. apply H. by apply Hs.
  - intros x. rewrite elem_of_app, list_elem_of_singleton, elem_of_union, elem_of_singleton, Hs. tauto.
Qed.

Lemma dfs_list_ok es st :
  Forall (λ e, ∀ st, dfs_ok st → dfs_ok (collect_predicates_dfs e st)) es →
  dfs_ok st → dfs_ok (foldl (λ st c, collect_predicates_dfs c st) st es).
Proof. intros HF. revert st. induction HF as [|e es He _ IH]; intros st H; cbn; auto. Qed.

Lemma collect_dfs_ok e st : dfs_ok st → dfs_ok (collect_predicates_dfs e st).
Proof.
  revert st. induction e as [b|p|e IH|l r IHl IHr|l r IHl IHr|es IH|es IH|es IH|l op r]
    using ConditionExpr_ind'; intros st H; cbn; auto using emit_ok, dfs_list_ok.
Qed.

Lemma collect_dfs_spec e st x :
  dfs_ok st →
  x ∈ (collect_predicates_dfs e st).1 ↔ x ∈ st.1 ∨ x ∈ for_each_predicate_symbol e.
Proof.
  intros Hok.
  assert (H : x ∈ (collect_predicates_dfs e st).2 ↔ x ∈ st.2 ∨ x ∈ for_each_predicate_symbol e).
  { clear Hok. revert st.
    induction e as [b|p|e IH|l r IHl IHr|l r IHl IHr|es IH|es IH|es IH|l op r]
      using ConditionExpr_ind'; intros st; cbn [collect_predicates_dfs].
    - rewrite elem_of_nil. tauto.
    - unfold for_each_predicate_symbol, emit. cbn. case_decide; set_solver.
    - apply IH.
    - rewrite IHr, IHl, symbols_app, elem_of_app. tauto.
    - rewrite IHr, IHl. change (for_each_predicate_symbol (Or l r)) with
        (for_each_predicate_symbol (And l r)). rewrite symbols_app, elem_of_app. tauto.
    - rewrite symbols_list. by apply (walk_list _ (λ s x, x ∈ s.2)).
    - change (for_each_predicate_symbol (AllOf es)) with (for_each_predicate_symbol (AnyOf es)).
      rewrite symbols_list. by apply (walk_list _ (λ s x, x ∈ s.2)).
    - change (for_each_predicate_symbol (ExactlyOneOf es)) with
        (for_each_predicate_symbol (AnyOf es)).
      rewrite symbols_list. by apply (walk_list _ (λ s x, x ∈ s.2)).
    - rewrite elem_of_nil. tauto. }
  destruct (collect_dfs_ok e st Hok) as [_ <-], Hok as [_ <-]. done.
Qed.

Lemma dfs_walk_spec clauses st :
  dfs_ok st →
  dfs_ok (foldl (λ st c, collect_predicates_dfs c st) st clauses) ∧
  ∀ x, x ∈ (foldl (λ st c, collect_predicates_dfs c st) st clauses).1 ↔
    x ∈ st.1 ∨ x ∈ symbol_universe clauses.
Proof.
  revert st. induction clauses as [|c cs IH]; intros st Hok; cbn.
  - split; [done|]. intros x. rewrite elem_of_nil. tauto.
  - destruct (IH _ (collect_dfs_ok c st Hok)) as [H1 H2]. split; [done|]. intros x.
    rewrite H2, (collect_dfs_spec c st x Hok). unfold symbol_universe. cbn. rewrite elem_of_app. tauto.
Qed.

Lemma clause_grouped_dfs_spec clauses :
  NoDup (clause_grouped_dfs clauses) ∧
  ∀ x, x ∈ clause_grouped_dfs clauses ↔ x ∈ symbol_universe clauses.
Proof.
  destruct (dfs_walk_spec clauses ([], ∅)) as [[Hd _] Hx].
  { split; cbn; [constructor|]. set_solver. }
  split; [done|]. intros x. unfold clause_grouped_dfs. rewrite Hx. cbn. rewrite elem_of_nil. tauto.
Qed.

Lemma facet_name_ascending_spec clauses :
  NoDup (facet_name_ascending clauses) ∧
  ∀ x, x ∈ facet_name_ascending clauses ↔ x ∈ symbol_universe clauses.
Proof.
  unfold facet_name_ascending, bt_symbols. rewrite (merge_sort_Permutation symbol_le).
  split; [apply NoDup_elements|]. intros x.
  rewrite (merge_sort_Permutation symbol_le), elem_of_elements.
  rewrite (walk_list _ (λ s x, x ∈ s)); [set_solver|].
  apply Forall_forall. intros e _ s. apply collect_btree_spec.
Qed.

(** *** FORCE permutes its seed *)

Lemma sweep_permutation fuel n edges ve pos perm :
  perm ≡ₚ seq 0 n → sweep fuel n edges ve pos perm ≡ₚ seq 0 n.
Proof.
  revert pos perm. induction fuel as [|fuel IH]; intros pos perm H; cbn; [done|].
  case_decide; [done|]. apply IH. apply merge_sort_Permutation.
Qed.

Lemma mapM_lookup_permutation {A} (l : list A) perm :
  perm ≡ₚ seq 0 (length l) → ∃ l', mapM (λ i, l !! i) perm = Some l' ∧ l' ≡ₚ l.
Proof.
  intros Hp. assert (Hall : Forall (λ i, is_Some (l !! i)) perm).
  { apply Forall_forall. intros i. rewrite Hp, elem_of_seq, lookup_lt_is_Some. lia. }
  apply mapM_is_Some in Hall as [l' Hl']. exists l'. split; [done|].
  apply mapM_Some in Hl'.
  assert (Ho : ∀ xs js, Forall2 (λ i a, l !! i = Some a) xs js → omap (λ i, l !! i) xs = js).
  { induction 1 as [|i a xs js Hi _ IH]; cbn; [done|]. by rewrite Hi, IH. }
  rewrite <-(Ho _ _ Hl'), Hp.
  assert (E : omap (λ i, l !! i) (seq 0 (length l)) = l); [|by rewrite E].
  apply Ho. apply Forall2_same_length_lookup_2; [by rewrite length_seq|].
  intros i j a Hj Ha. by apply lookup_seq in Hj as [-> _].
Qed.

Lemma seed_of_lookup (seed : list symbol) (m : gmap symbol nat) (k : nat) (x : symbol) :
  x ∈ seed →
  is_Some (foldl (λ m '(i, k), <[k := i]> m) m (imap (λ i, pair (k + i)) seed) !! x).
Proof.
  assert (Hmono : ∀ l (m : gmap symbol nat), is_Some (m !! x) →
    is_Some (foldl (λ m '(i, k), <[k := i]> m) m l !! x)).
  { induction l as [|[i y] l IH]; intros m' H; cbn; [done|]. apply IH.
    destruct (decide (y = x)) as [->|]; [rewrite lookup_insert_eq; eauto|].
    by rewrite lookup_insert_ne. }
  revert m k. induction seed as [|y seed IH]; intros m k; [by intros ?%elem_of_nil|].
  rewrite imap_cons. cbn. intros [->|Hx]%elem_of_cons.
  - apply Hmono. rewrite lookup_insert_eq. eauto.
  - replace (imap _ seed) with (imap (λ i, pair (S k + i)) seed : list (nat * symbol)); [by apply IH|].
    apply imap_ext. intros i z _. cbn. f_equal. lia.
Qed.

Lemma hyperedges_total seed_of clauses :
  (∀ x, x ∈ symbol_universe clauses → is_Some (seed_of !! x)) →
  is_Some (hyperedges seed_of clauses).
Proof.
  intros Hs. unfold hyperedges. apply mapM_is_Some_2, Forall_forall.
  intros c [_ Hc]%list_elem_of_filter. unfold hyperedge.
  assert (Hm : is_Some (mapM (λ k, seed_of !! k) (bt_symbols (collect_predicates_btree c ∅)))).
  { apply mapM_is_Some_2, Forall_forall. intros x. unfold bt_symbols.
    rewrite (merge_sort_Permutation symbol_le), elem_of_elements, collect_btree_spec.
    intros [Hx|Hx]; [set_solver|]. apply Hs. unfold symbol_universe.
    apply elem_of_flat_map. eauto. }
  destruct Hm as [l Hl]. exists (merge_sort Nat.le l). apply bind_Some_iff.
  exists l. split; [exact Hl|done].
Qed.

Lemma force_spec clauses :
  ∃ order, force clauses = Some order ∧ order ≡ₚ clause_grouped_dfs clauses.
Proof.
  unfold force. case_decide; [by eexists|].
  destruct (clause_grouped_dfs_spec clauses) as [_ Hx].
  destruct (hyperedges_total
    (foldl (λ m '(i, k), <[k := i]> m) ∅ (imap pair (clause_grouped_dfs clauses))) clauses)
    as [edges E].
  { intros x Hin. apply Hx in Hin. exact (seed_of_lookup _ ∅ 0 x Hin). }
  rewrite E. change (Some edges ≫= ?k) with (k edges). cbn beta zeta.
  apply mapM_lookup_permutation, sweep_permutation. done.
Qed.

Lemma var_order_spec clauses h :
  ∃ order, compute_variable_order clauses h = Some order ∧ NoDup order ∧
    ∀ x, x ∈ order ↔ x ∈ symbol_universe clauses.
Proof.
  destruct h; cbn.
  - eexists. split; [done|]. apply facet_name_ascending_spec.
  - eexists. split; [done|]. apply clause_grouped_dfs_spec.
  - destruct (force_spec clauses) as (order & -> & Hp). eexists. split; [done|].
    setoid_rewrite Hp. apply clause_grouped_dfs_spec.
Qed.

(** Every heuristic returns an order without repetition of exactly the
    symbols the clauses mention, so the three differ only by a permutation and
    no predicate is left without a variable. *)
Theorem var_order_complete clauses h :
  ∃ order, compute_variable_order clauses h = Some order ∧ NoDup order ∧
    order ≡ₚ facet_name_ascending clauses ∧
    ∀ x, x ∈ order ↔ x ∈ symbol_universe clauses.
Proof.
  destruct (var_order_spec clauses h) as (order & E & Hd & Hx). exists order.
  split_and!; try done. destruct (facet_name_ascending_spec clauses) as [Hd' Hx'].
  apply NoDup_Permutation; [done|done|]. intros x. by rewrite Hx, Hx'.
Qed.
