(* ===== verification/Partitioner.v ===== *)
(** * The clause partitioner

    Models [compiler/src/ccm_emitter/partitioner.rs]: a size-capped union-find
    over the variables groups the clauses into clusters, and the clauses that
    span clusters become the bridge.  [None] is a panic of the source (an index
    out of range, a missing map key, a failed [expect]) or a [find] that does
    not end; [partition_total] shows neither happens. *)
From S2P Require Import Prelude Tokens Ast SelectionEval VarOrder.

(** ** Data *)

Record ClusterSpec : Type := mkCluster {
  cl_clauses : list nat;
  cl_variables : list symbol;
}.

Record BridgeSpec : Type := mkBridge {
  br_clauses : list nat;
  br_variables : list symbol;
}.

Record PartitionPlan : Type := mkPlan {
  clusters : list ClusterSpec;
  bridge : option BridgeSpec;
}.

Record UnionFind : Type := mkUF {
  parent : list nat;
  size : list nat;
}.

(** ** Union-find *)

Definition uf_new (n : nat) : UnionFind := mkUF (seq 0 n) (replicate n 1).

(** [while self.parent[x] != x { x = self.parent[x]; }]. *)
Fixpoint find_fuel (fuel : nat) (uf : UnionFind) (x : nat) : option nat :=
  match fuel with
  | O => None
  | S fuel =>
      p ← parent uf !! x;
      if decide (p = x) then Some x else find_fuel fuel uf p
  end.

Definition find (uf : UnionFind) (x : nat) : option nat := find_fuel (length (parent uf)) uf x.

Definition merge_roots (uf : UnionFind) (ra rb combined : nat) : option UnionFind :=
  sa ← size uf !! ra;
  sb ← size uf !! rb;
  let '(root, child) :=
    if decide (sb < sa) then (ra, rb)
    else if decide (sa < sb) then (rb, ra)
    else if decide (ra < rb) then (ra, rb)
    else (rb, ra) in
  Some (mkUF (<[child := root]> (parent uf)) (<[root := combined]> (size uf))).

Definition try_union (uf : UnionFind) (a b : nat) (cap : N) : option (bool * UnionFind) :=
  ra ← find uf a;
  rb ← find uf b;
  if decide (ra = rb) then Some (false, uf)
  else
    sa ← size uf !! ra;
    sb ← size uf !! rb;
    let combined := sa + sb in
    if decide ((cap < N.of_nat combined)%N ∧ (N.of_nat sa <= cap)%N ∧ (N.of_nat sb <= cap)%N)
    then Some (false, uf)
    else uf ← merge_roots uf ra rb combined; Some (true, uf).

Definition force_union (uf : UnionFind) (a b : nat) : option UnionFind :=
  ra ← find uf a;
  rb ← find uf b;
  if decide (ra = rb) then Some uf
  else
    sa ← size uf !! ra;
    sb ← size uf !! rb;
    merge_roots uf ra rb (sa + sb).

(** ** Variables *)

Fixpoint walk (e : ConditionExpr) (out : gset symbol) : gset symbol :=
  match e with
  | Bool _ => out
  | Predicate p => {[(p_tag p, p_value p)]} ∪ out
  | Not inner => walk inner out
  | And l r | Or l r => walk r (walk l out)
  | AnyOf es | AllOf es | ExactlyOneOf es => foldl (λ out c, walk c out) out es
  | FacetCompare _ _ _ => out
  end.

Definition collect_variables (e : ConditionExpr) : gset symbol := walk e ∅.

Definition count_distinct_variables (clauses : list ConditionExpr) : nat :=
  base.size (foldl (λ seen c, walk c seen) ∅ clauses).

(** [var_slot[v]]: the position in the sorted variables. *)
Definition slot_of (all : list symbol) (v : symbol) : option nat :=
  fst <$> list_find (λ x, x = v) all.

(** ** The phases *)

(** The inner loop of phase 2: unite the clause's slots with the first. *)
Fixpoint union_rest (force : bool) (cap : N) (anchor : nat) (slots : list nat) (uf : UnionFind)
    : option UnionFind :=
  match slots with
  | [] => Some uf
  | s :: slots =>
      uf ← (if force then force_union uf anchor s else snd <$> try_union uf anchor s cap);
      union_rest force cap anchor slots uf
  end.

Definition union_clause (all : list symbol) (cap : N) (vars : list symbol) (uf : UnionFind)
    : option UnionFind :=
  slots ← mapM (slot_of all) vars;
  match slots with
  | [] => Some uf
  | anchor :: rest => union_rest (bool_decide (cap < N.of_nat (length vars))%N) cap anchor rest uf
  end.

Fixpoint union_clauses (all : list symbol) (cap : N) (per_clause : list (list symbol))
    (uf : UnionFind) : option UnionFind :=
  match per_clause with
  | [] => Some uf
  | vars :: rest => uf ← union_clause all cap vars uf; union_clauses all cap rest uf
  end.

(** Allocate a cluster the first time a root is seen. *)
Fixpoint alloc_clusters (uf : UnionFind) (slots : list nat) (of_root : gmap nat nat)
    (cs : list ClusterSpec) : option (gmap nat nat * list ClusterSpec) :=
  match slots with
  | [] => Some (of_root, cs)
  | slot :: slots =>
      r ← find uf slot;
      match of_root !! r with
      | Some _ => alloc_clusters uf slots of_root cs
      | None => alloc_clusters uf slots (<[r := length cs]> of_root) (cs ++ [mkCluster [] []])
      end
  end.

Definition push_variable (v : symbol) (c : ClusterSpec) : ClusterSpec :=
  mkCluster (cl_clauses c) (cl_variables c ++ [v]).

Definition push_clause (i : nat) (c : ClusterSpec) : ClusterSpec :=
  mkCluster (cl_clauses c ++ [i]) (cl_variables c).

(** [clusters[ci]] updated, a panic when there is none. *)
Definition update_at (f : ClusterSpec → ClusterSpec) (ci : nat) (cs : list ClusterSpec)
    : option (list ClusterSpec) :=
  c ← cs !! ci; Some (<[ci := f c]> cs).

Fixpoint bin_variables (uf : UnionFind) (of_root : gmap nat nat) (slot : nat) (vars : list symbol)
    (cs : list ClusterSpec) : option (list ClusterSpec) :=
  match vars with
  | [] => Some cs
  | v :: vars =>
      r ← find uf slot;
      ci ← of_root !! r;
      cs ← update_at (push_variable v) ci cs;
      bin_variables uf of_root (S slot) vars cs
  end.

(** The cluster of a variable. *)
Definition cluster_of (all : list symbol) (uf : UnionFind) (of_root : gmap nat nat) (v : symbol)
    : option nat :=
  slot ← slot_of all v;
  r ← find uf slot;
  of_root !! r.

Record binned : Type := mkBinned {
  bn_clusters : list ClusterSpec;
  bn_bridge_clauses : list nat;
  bn_bridge_vars : gset symbol;
}.

Fixpoint bin_clauses (all : list symbol) (uf : UnionFind) (of_root : gmap nat nat) (i : nat)
    (per_clause : list (list symbol)) (st : binned) : option binned :=
  match per_clause with
  | [] => Some st
  | vars :: rest =>
      st ←
        match vars with
        | [] =>
            match bn_clusters st with
            | [] => Some st
            | _ =>
                cs ← update_at (push_clause i) 0 (bn_clusters st);
                Some (mkBinned cs (bn_bridge_clauses st) (bn_bridge_vars st))
            end
        | _ =>
            touched ← mapM (cluster_of all uf of_root) vars;
            match elements (list_to_set touched : gset nat) with
            | [ci] =>
                cs ← update_at (push_clause i) ci (bn_clusters st);
                Some (mkBinned cs (bn_bridge_clauses st) (bn_bridge_vars st))
            | _ =>
                Some (mkBinned (bn_clusters st) (bn_bridge_clauses st ++ [i])
                        (list_to_set vars ∪ bn_bridge_vars st))
            end
        end;
      bin_clauses all uf of_root (S i) rest st
  end.

Definition sort_clauses (c : ClusterSpec) : ClusterSpec :=
  mkCluster (merge_sort Nat.le (cl_clauses c)) (cl_variables c).

Definition partition (clauses : list ConditionExpr) (cluster_size : N) : option PartitionPlan :=
  let per_clause := (λ c, bt_symbols (collect_variables c)) <$> clauses in
  let all_vars := foldl (λ out vars, list_to_set vars ∪ out) (∅ : gset symbol) per_clause in
  let all := bt_symbols all_vars in
  if decide (N.of_nat (length all) <= cluster_size)%N then
    Some (mkPlan [mkCluster (seq 0 (length clauses)) all] None)
  else
    let n := length all in
    uf ← union_clauses all cluster_size per_clause (uf_new n);
    '(of_root, cs) ← alloc_clusters uf (seq 0 n) ∅ [];
    cs ← bin_variables uf of_root 0 all cs;
    st ← bin_clauses all uf of_root 0 per_clause (mkBinned cs [] ∅);
    Some (mkPlan (sort_clauses <$> bn_clusters st)
      (match merge_sort Nat.le (bn_bridge_clauses st) with
       | [] => None
       | idx => Some (mkBridge idx (bt_symbols (bn_bridge_vars st)))
       end)).

Example partition_example :
  let p t v := Predicate (mkPredicate t OpEq v) in
  let cs := [Or (p "a" "x") (p "os" "linux"); Or (p "b" "x") (p "os" "mac"); Bool true;
             Or (p "a" "x") (p "b" "x")] in
  partition cs 2 = Some (mkPlan
    [mkCluster [0; 2] [("a", "x"); ("os", "linux")]; mkCluster [1] [("b", "x"); ("os", "mac")]]
    (Some (mkBridge [3] [("a", "x"); ("b", "x")]))).
Proof. vm_compute. reflexivity. Qed.

(** ** The union-find invariant

    [rep] gives the representative of each slot.  The tree is no deeper than
    its sizes: a child's size is less than its parent's, which is what makes
    [find] end without path compression. *)

Definition class_size (n : nat) (rep : nat → nat) (r : nat) : nat :=
  length (filter (λ y, rep y = r) (seq 0 n)).

Record uf_wf (n : nat) (uf : UnionFind) (rep : nat → nat) : Prop := {
  uf_parents : length (parent uf) = n;
  uf_sizes : length (size uf) = n;
  uf_rep : ∀ x, x < n → rep x < n ∧ parent uf !! rep x = Some (rep x);
  uf_parent : ∀ x p, parent uf !! x = Some p → p < n ∧ rep p = rep x;
  uf_root : ∀ x, parent uf !! x = Some x → rep x = x;
  uf_deeper : ∀ x p sx sp, parent uf !! x = Some p → p ≠ x → size uf !! x = Some sx →
    size uf !! p = Some sp → sx < sp;
  uf_size_root : ∀ x s, parent uf !! x = Some x → size uf !! x = Some s → s = class_size n rep x;
  uf_size_bound : ∀ x s, size uf !! x = Some s → 1 ≤ s ≤ n;
}.

Lemma class_size_le n rep r : class_size n rep r ≤ n.
Proof.
  unfold class_size. etransitivity; [apply length_filter|]. by rewrite length_seq.
Qed.

Lemma uf_new_wf n : uf_wf n (uf_new n) id.
Proof.
  assert (Hp : ∀ x p, seq 0 n !! x = Some p ↔ p = x ∧ x < n) by (intros x p; apply lookup_seq).
  split; cbn; [by rewrite length_seq|by rewrite length_replicate|..]; unfold id.
  - intros x Hx. split; [done|]. by apply Hp.
  - intros x p [-> ?]%Hp. done.
  - done.
  - intros x p sx sp [-> _]%Hp. done.
  - intros x s [_ Hx]%Hp [-> _]%lookup_replicate_1. unfold class_size.
    assert (E : filter (λ y, y = x) (seq 0 n) ≡ₚ [x]); [|by rewrite E].
    apply NoDup_Permutation; [apply NoDup_filter, NoDup_seq|apply NoDup_singleton|]. intros y.
    rewrite list_elem_of_filter, elem_of_seq, list_elem_of_singleton. lia.
  - intros x s [-> ?]%lookup_replicate_1. lia.
Qed.

Section Find.
Context (n : nat) (uf : UnionFind) (rep : nat → nat) (Hwf : uf_wf n uf rep).

Lemma uf_size_lookup x : x < n → ∃ s, size uf !! x = Some s.
Proof. intros Hx. apply lookup_lt_is_Some. by rewrite (uf_sizes _ _ _ Hwf). Qed.

Lemma find_fuel_spec fuel x s :
  x < n → size uf !! x = Some s → n - s < fuel → find_fuel fuel uf x = Some (rep x).
Proof.
  revert x s. induction fuel as [|fuel IH]; intros x s Hx Hs Hf; [lia|]. cbn.
  destruct (lookup_lt_is_Some_2 (parent uf) x) as [p Hp]; [by rewrite (uf_parents _ _ _ Hwf)|].
  rewrite Hp. cbn. case_decide as Hpx; [subst; by rewrite (uf_root _ _ _ Hwf _ Hp)|].
  destruct (uf_parent _ _ _ Hwf _ _ Hp) as [Hpn <-].
  destruct (uf_size_lookup p Hpn) as [sp Hsp].
  pose proof (uf_deeper _ _ _ Hwf _ _ _ _ Hp Hpx Hs Hsp).
  pose proof (uf_size_bound _ _ _ Hwf _ _ Hsp). apply (IH p sp); [done|done|lia].
Qed.

Lemma find_spec x : x < n → find uf x = Some (rep x).
Proof.
  intros Hx. destruct (uf_size_lookup x Hx) as [s Hs]. unfold find.
  apply (find_fuel_spec _ x s); [done|done|]. pose proof (uf_size_bound _ _ _ Hwf _ _ Hs).
  rewrite (uf_parents _ _ _ Hwf). lia.
Qed.

(** A root and the size of its class. *)
Definition is_root (r s : nat) : Prop := parent uf !! r = Some r ∧ size uf !! r = Some s.

Lemma rep_is_root x : x < n → is_root (rep x) (class_size n rep (rep x)).
Proof.
  intros Hx. destruct (uf_rep _ _ _ Hwf x Hx) as [Hr Hp]. split; [done|].
  destruct (uf_size_lookup _ Hr) as [s Hs]. rewrite Hs. f_equal.
  by apply (uf_size_root _ _ _ Hwf).
Qed.
End Find.

(** ** Uniting two classes *)

Definition merged (rep : nat → nat) (root child y : nat) : nat :=
  if decide (rep y = child) then root else rep y.

Lemma class_size_merged n rep root child :
  root ≠ child →
  class_size n (merged rep root child) root = class_size n rep root + class_size n rep child.
Proof.
  intros Hne. unfold class_size, merged. induction (seq 0 n) as [|y l IH]; [done|].
  rewrite !filter_cons. repeat case_decide; cbn; try lia; congruence.
Qed.

Lemma class_size_merged_ne n rep root child r :
  r ≠ root → r ≠ child → class_size n (merged rep root child) r = class_size n rep r.
Proof.
  intros H1 H2. unfold class_size, merged. induction (seq 0 n) as [|y l IH]; [done|].
  rewrite !filter_cons. repeat case_decide; cbn; try congruence; lia.
Qed.

Section Merge.
Context (n : nat) (uf : UnionFind) (rep : nat → nat) (Hwf : uf_wf n uf rep).
Context (root child sr sc : nat) (Hne : root ≠ child).
Context (Hroot : is_root uf root sr) (Hchild : is_root uf child sc).

Definition linked : UnionFind :=
  mkUF (<[child := root]> (parent uf)) (<[root := sr + sc]> (size uf)).

Lemma linked_parent x p :
  parent linked !! x = Some p →
  x = child ∧ p = root ∨ x ≠ child ∧ parent uf !! x = Some p.
Proof.
  cbn. destruct (decide (x = child)) as [->|Hx].
  - rewrite list_lookup_insert_eq by (destruct Hchild as [H _]; by eapply lookup_lt_Some).
    intros [= <-]. by left.
  - rewrite list_lookup_insert_ne by done. by right.
Qed.

Lemma linked_size x s :
  size linked !! x = Some s → x = root ∧ s = sr + sc ∨ x ≠ root ∧ size uf !! x = Some s.
Proof.
  cbn. destruct (decide (x = root)) as [->|Hx].
  - rewrite list_lookup_insert_eq by (destruct Hroot as [_ H]; by eapply lookup_lt_Some).
    intros [= <-]. by left.
  - rewrite list_lookup_insert_ne by done. by right.
Qed.

Lemma linked_bounds : 1 ≤ sr ∧ 1 ≤ sc ∧ sr + sc = class_size n (merged rep root child) root.
Proof.
  destruct Hroot as [Hr1 Hr2], Hchild as [Hc1 Hc2].
  pose proof (uf_size_bound _ _ _ Hwf _ _ Hr2). pose proof (uf_size_bound _ _ _ Hwf _ _ Hc2).
  rewrite class_size_merged by done.
  rewrite <-(uf_size_root _ _ _ Hwf _ _ Hr1 Hr2), <-(uf_size_root _ _ _ Hwf _ _ Hc1 Hc2). lia.
Qed.

Lemma linked_wf : sc ≤ sr → uf_wf n linked (merged rep root child).
Proof.
  intros Hle. pose proof Hroot as [Hr1 Hr2]. pose proof Hchild as [Hc1 Hc2].
  pose proof (uf_root _ _ _ Hwf _ Hr1) as Rr. pose proof (uf_root _ _ _ Hwf _ Hc1) as Rc.
  destruct (uf_parent _ _ _ Hwf _ _ Hr1) as [Hrn _].
  destruct linked_bounds as (Hb1 & Hb2 & Hb3). pose proof (class_size_le n (merged rep root child) root) as Hn.
  split; unfold merged.
  - cbn. rewrite length_insert. apply Hwf.
  - cbn. rewrite length_insert. apply Hwf.
  - intros x Hx. destruct (uf_rep _ _ _ Hwf x Hx) as [Hr Hp]. cbn.
    case_decide as Hxc; (split; [done|]); rewrite list_lookup_insert_ne by done; done.
  - intros x p [[-> ->]|[Hx Hp]]%linked_parent; [by rewrite Rr, Rc, decide_False, decide_True|].
    destruct (uf_parent _ _ _ Hwf _ _ Hp) as [Hpn E]. by rewrite E.
  - intros x [[-> E]|[Hx Hp]]%linked_parent; [done|]. apply (uf_root _ _ _ Hwf) in Hp.
    by rewrite Hp, decide_False.
  - intros x p sx sp Hp Hpx Hsx Hsp. apply linked_parent in Hp as [[-> ->]|[Hx Hp]].
    + apply linked_size in Hsp as [[_ ->]|[? _]]; [|done].
      apply linked_size in Hsx as [[? _]|[_ Hsx]]; [done|]. simplify_eq. lia.
    + assert (x ≠ root) by (intros ->; congruence).
      apply linked_size in Hsx as [[? _]|[_ Hsx]]; [done|].
      apply linked_size in Hsp as [[-> ->]|[_ Hsp]].
      * pose proof (uf_deeper _ _ _ Hwf _ _ _ _ Hp Hpx Hsx Hr2). lia.
      * exact (uf_deeper _ _ _ Hwf _ _ _ _ Hp Hpx Hsx Hsp).
  - intros x s Hp Hs. apply linked_parent in Hp as [[-> E]|[Hx Hp]]; [done|].
    apply linked_size in Hs as [[-> ->]|[Hxr Hs]]; [done|].
    rewrite (uf_size_root _ _ _ Hwf _ _ Hp Hs). symmetry. by apply class_size_merged_ne.
  - intros x s [[-> ->]|[_ Hs]]%linked_size; [lia|]. by apply (uf_size_bound _ _ _ Hwf) in Hs.
Qed.
End Merge.

(** Classes only grow. *)
Definition coarser (rep rep' : nat → nat) : Prop := ∀ x y, rep x = rep y → rep' x = rep' y.

#[export] Instance coarser_refl : Reflexive coarser.
Proof. by intros rep x y. Qed.
#[export] Instance coarser_trans : Transitive coarser.
Proof. intros r1 r2 r3 H1 H2 x y E. by apply H2, H1. Qed.

Lemma coarser_merged rep root child : coarser rep (merged rep root child).
Proof. intros x y E. unfold merged. by rewrite E. Qed.

(** What a union of the classes of [a] and [b] leaves: one class for both, no
    other changed. *)
Record united (n : nat) (rep : nat → nat) (a b : nat) (uf' : UnionFind) (rep' : nat → nat) : Prop := {
  un_wf : uf_wf n uf' rep';
  un_coarser : coarser rep rep';
  un_same : rep' a = rep' b;
  un_sizes : ∀ x, class_size n rep' (rep' x) = class_size n rep (rep x) ∨
    class_size n rep' (rep' x) = class_size n rep (rep a) + class_size n rep (rep b);
}.

Lemma merge_roots_spec n uf rep a b :
  uf_wf n uf rep → a < n → b < n → rep a ≠ rep b →
  ∃ uf' rep', merge_roots uf (rep a) (rep b) (class_size n rep (rep a) + class_size n rep (rep b)) = Some uf' ∧
    united n rep a b uf' rep'.
Proof.
  intros Hwf Ha Hb Hne. pose proof (rep_is_root n uf rep Hwf a Ha) as HA.
  pose proof (rep_is_root n uf rep Hwf b Hb) as HB.
  assert (Hgo : ∀ root child sr sc, is_root uf root sr → is_root uf child sc → root ≠ child →
    sc ≤ sr → sr = class_size n rep root → sc = class_size n rep child →
    sr + sc = class_size n rep (rep a) + class_size n rep (rep b) →
    (rep a = root ∧ rep b = child ∨ rep a = child ∧ rep b = root) →
    united n rep a b (linked uf root child sr sc) (merged rep root child)).
  { intros root child sr sc Hr Hc Hrc Hle Er Ec Es Hab. split.
    - by apply linked_wf.
    - apply coarser_merged.
    - unfold merged. destruct Hab as [[-> ->]|[-> ->]]; repeat case_decide; congruence.
    - intros x. unfold merged at 2 4. case_decide as Hx.
      + right. rewrite class_size_merged by done. lia.
      + destruct (decide (rep x = root)) as [->|Hxr]; [right|left; by apply class_size_merged_ne].
        rewrite class_size_merged by done. lia. }
  unfold merge_roots. rewrite (proj2 HA), (proj2 HB). cbn [mbind option_bind].
  repeat case_decide; eexists _, _; (split; [reflexivity|]).
  - apply (Hgo _ _ _ _ HA HB); auto; lia.
  - rewrite Nat.add_comm. apply (Hgo _ _ _ _ HB HA); auto; lia.
  - apply (Hgo _ _ _ _ HA HB); auto; lia.
  - rewrite Nat.add_comm. apply (Hgo _ _ _ _ HB HA); auto; lia.
Qed.

(** Every class has at most [cap] members. *)
Definition bounded (cap : N) (n : nat) (rep : nat → nat) : Prop :=
  ∀ x, x < n → (N.of_nat (class_size n rep (rep x)) <= cap)%N.

Lemma united_self n uf rep a b : uf_wf n uf rep → rep a = rep b → united n rep a b uf rep.
Proof. intros Hwf E. split; [done|done|done|by left]. Qed.

Lemma try_union_spec cap n uf rep a b :
  uf_wf n uf rep → a < n → b < n →
  ∃ r uf' rep', try_union uf a b cap = Some (r, uf') ∧ uf_wf n uf' rep' ∧ coarser rep rep' ∧
    (bounded cap n rep → bounded cap n rep').
Proof.
  intros Hwf Ha Hb. unfold try_union. rewrite (find_spec n uf rep Hwf a Ha), (find_spec n uf rep Hwf b Hb).
  cbn [mbind option_bind]. case_decide as Hab; [by eexists _, uf, rep|].
  rewrite (proj2 (rep_is_root n uf rep Hwf a Ha)), (proj2 (rep_is_root n uf rep Hwf b Hb)).
  cbn [mbind option_bind]. case_decide as Hcap; [by eexists _, uf, rep|].
  destruct (merge_roots_spec n uf rep a b Hwf Ha Hb Hab) as (uf' & rep' & -> & [Hwf' Hc _ Hs]).
  eexists _, uf', rep'. cbn. split_and!; [done..|]. intros Hbd x Hx.
  pose proof (Hbd a Ha). pose proof (Hbd b Hb). destruct (Hs x) as [->| ->]; [by apply Hbd|]. lia.
Qed.

Lemma force_union_spec n uf rep a b :
  uf_wf n uf rep → a < n → b < n →
  ∃ uf' rep', force_union uf a b = Some uf' ∧ united n rep a b uf' rep'.
Proof.
  intros Hwf Ha Hb. unfold force_union.
  rewrite (find_spec n uf rep Hwf a Ha), (find_spec n uf rep Hwf b Hb).
  cbn [mbind option_bind]. case_decide as Hab; [exists uf, rep; by auto using united_self|].
  rewrite (proj2 (rep_is_root n uf rep Hwf a Ha)), (proj2 (rep_is_root n uf rep Hwf b Hb)).
  cbn [mbind option_bind]. by apply merge_roots_spec.
Qed.

Lemma union_rest_spec force cap n anchor slots uf rep :
  uf_wf n uf rep → anchor < n → Forall (λ s, s < n) slots →
  ∃ uf' rep', union_rest force cap anchor slots uf = Some uf' ∧ uf_wf n uf' rep' ∧ coarser rep rep' ∧
    (force = true → ∀ s, s ∈ slots → rep' s = rep' anchor) ∧
    (force = false → bounded cap n rep → bounded cap n rep').
Proof.
  intros Hwf Ha HF. revert uf rep Hwf. induction HF as [|s slots Hs _ IH]; intros uf rep Hwf; cbn.
  { exists uf, rep. split_and!; try done. intros _ s Hs. by apply not_elem_of_nil in Hs. }
  assert (Hstep : ∃ uf1 rep1,
    (if force then force_union uf anchor s else snd <$> try_union uf anchor s cap) = Some uf1 ∧
    uf_wf n uf1 rep1 ∧ coarser rep rep1 ∧ (force = true → rep1 s = rep1 anchor) ∧
    (force = false → bounded cap n rep → bounded cap n rep1)).
  { destruct force.
    - destruct (force_union_spec n uf rep anchor s Hwf Ha Hs) as (uf1 & rep1 & -> & [? ? ? _]). by exists uf1, rep1.
    - destruct (try_union_spec cap n uf rep anchor s Hwf Ha Hs) as (r & uf1 & rep1 & -> & ? & ? & ?).
      by exists uf1, rep1. }
  destruct Hstep as (uf1 & rep1 & -> & Hwf1 & Hc1 & Hf1 & Hb1). cbn [mbind option_bind].
  destruct (IH uf1 rep1 Hwf1) as (uf' & rep' & -> & Hwf' & Hc' & Hf' & Hb').
  exists uf', rep'. split_and!; [done|done|by etransitivity| |by auto].
  intros Hf t [->|Ht]%elem_of_cons; [by apply Hc', Hf1|by apply Hf'].
Qed.

(** ** Slots *)

Section Slots.
Context (all : list symbol) (Hnd : NoDup all).

Lemma slot_of_spec v i : slot_of all v = Some i ↔ all !! i = Some v.
Proof.
  unfold slot_of. rewrite fmap_Some. split.
  - intros ([j x] & Hf & ->). apply list_find_Some in Hf as (Hj & -> & _). done.
  - intros Hi. exists (i, v). split; [|done]. apply list_find_Some. split_and!; [done..|].
    intros j y Hy Hj ->. assert (i = j) by (by eapply NoDup_lookup). lia.
Qed.

Lemma slot_of_total v : v ∈ all → ∃ i, slot_of all v = Some i ∧ i < length all.
Proof.
  intros [i Hi]%list_elem_of_lookup. exists i. split; [by apply slot_of_spec|by eapply lookup_lt_Some].
Qed.

Lemma slots_total vars :
  Forall (λ v, v ∈ all) vars →
  ∃ slots, mapM (slot_of all) vars = Some slots ∧ Forall (λ s, s < length all) slots ∧
    Forall2 (λ v s, slot_of all v = Some s) vars slots.
Proof.
  intros HF. destruct (mapM_is_Some_2 (slot_of all) vars) as [slots Hs].
  { eapply Forall_impl; [exact HF|]. intros v (i & Hi & _)%slot_of_total. by exists i. }
  exists slots. split; [done|]. apply mapM_Some in Hs. split; [|done].
  clear HF. induction Hs as [|v s vars slots Hv _ IH]; constructor; [|done].
  apply slot_of_spec in Hv. by eapply lookup_lt_Some.
Qed.

Definition same_class (rep : nat → nat) (vars : list symbol) : Prop :=
  ∀ v w i j, v ∈ vars → w ∈ vars → slot_of all v = Some i → slot_of all w = Some j → rep i = rep j.

Lemma same_class_coarser rep rep' vars : coarser rep rep' → same_class rep vars → same_class rep' vars.
Proof. intros Hc Hs v w i j Hv Hw Hi Hj. exact (Hc i j (Hs v w i j Hv Hw Hi Hj)). Qed.

Lemma union_clause_spec cap vars uf rep :
  uf_wf (length all) uf rep → Forall (λ v, v ∈ all) vars →
  ∃ uf' rep', union_clause all cap vars uf = Some uf' ∧ uf_wf (length all) uf' rep' ∧ coarser rep rep' ∧
    ((cap < N.of_nat (length vars))%N → same_class rep' vars) ∧
    ((N.of_nat (length vars) <= cap)%N → bounded cap (length all) rep → bounded cap (length all) rep').
Proof.
  intros Hwf HF. unfold union_clause. destruct (slots_total vars HF) as (slots & -> & Hlt & H2).
  cbn [mbind option_bind]. destruct slots as [|anchor rest].
  { exists uf, rep. apply Forall2_nil_inv_r in H2 as ->. split_and!; try done.
    intros _ v w i j Hv. by apply not_elem_of_nil in Hv. }
  apply Forall_cons in Hlt as [Ha Hr].
  destruct (union_rest_spec (bool_decide (cap < N.of_nat (length vars))%N) cap _ anchor rest uf rep Hwf Ha Hr)
    as (uf' & rep' & -> & Hwf' & Hc & Hf & Hb).
  exists uf', rep'. split_and!; [done..| |intros Hle; apply Hb, bool_decide_eq_false; lia].
  intros Hcap. rewrite bool_decide_true in Hf by done.
  assert (Hone : ∀ v i, v ∈ vars → slot_of all v = Some i → rep' i = rep' anchor).
  { intros v i Hv Hi. apply list_elem_of_lookup in Hv as [k Hk].
    destruct (Forall2_lookup_l _ _ _ _ _ H2 Hk) as (s & Hs & E). simplify_eq.
    destruct k as [|k]; cbn in Hs; [by injection Hs as ->|]. apply Hf; [done|].
    by eapply list_elem_of_lookup_2. }
  intros v w i j Hv Hw Hi Hj. by rewrite (Hone v i), (Hone w j).
Qed.

Lemma union_clauses_spec cap per_clause uf rep :
  uf_wf (length all) uf rep → Forall (Forall (λ v, v ∈ all)) per_clause →
  ∃ uf' rep', union_clauses all cap per_clause uf = Some uf' ∧ uf_wf (length all) uf' rep' ∧
    coarser rep rep' ∧
    (∀ vars, vars ∈ per_clause → (cap < N.of_nat (length vars))%N → same_class rep' vars) ∧
    (Forall (λ vars, N.of_nat (length vars) <= cap)%N per_clause →
     bounded cap (length all) rep → bounded cap (length all) rep').
Proof.
  intros Hwf HF. revert uf rep Hwf. induction HF as [|vars per HV _ IH]; intros uf rep Hwf; cbn.
  { exists uf, rep. split_and!; try done. intros vars Hv. by apply not_elem_of_nil in Hv. }
  destruct (union_clause_spec cap vars uf rep Hwf HV) as (uf1 & rep1 & -> & Hwf1 & Hc1 & Hs1 & Hb1).
  cbn [mbind option_bind]. destruct (IH uf1 rep1 Hwf1) as (uf' & rep' & -> & Hwf' & Hc' & Hs' & Hb').
  exists uf', rep'. split_and!; [done|done|by etransitivity| |].
  - intros vs [->|Hv]%elem_of_cons Hcap; [eapply same_class_coarser; eauto|eauto].
  - intros [H1 H2]%Forall_cons Hbd. auto.
Qed.
End Slots.

(** ** Clusters *)

(** [color s] is the cluster of the slot [s]: the [k] clusters are the classes
    of [rep], each with a member. *)
Record coloring (n : nat) (rep : nat → nat) (of_root : gmap nat nat) (k : nat) (color : nat → nat)
    : Prop := {
  co_lookup : ∀ s, s < n → of_root !! rep s = Some (color s);
  co_lt : ∀ s, s < n → color s < k;
  co_inj : ∀ s t, s < n → t < n → color s = color t → rep s = rep t;
  co_onto : ∀ i, i < k → ∃ s, s < n ∧ color s = i;
}.

Definition empty_cluster : ClusterSpec := mkCluster [] [].

(** The map after the slots seen so far: it numbers their roots. *)
Record numbers (rep : nat → nat) (seen : list nat) (of_root : gmap nat nat) (k : nat) : Prop := {
  nu_lt : ∀ r i, of_root !! r = Some i → i < k;
  nu_inj : ∀ r r' i, of_root !! r = Some i → of_root !! r' = Some i → r = r';
  nu_onto : ∀ i, i < k → ∃ s, s ∈ seen ∧ of_root !! rep s = Some i;
  nu_total : ∀ s, s ∈ seen → is_Some (of_root !! rep s);
}.

Lemma numbers_insert rep seen of_root k s :
  numbers rep seen of_root k → of_root !! rep s = None →
  numbers rep (seen ++ [s]) (<[rep s := k]> of_root) (S k).
Proof.
  intros [H1 H2 H3 H4] Hn. split.
  - intros r i [[_ <-]|[_ Hr]]%lookup_insert_Some; [lia|]. apply H1 in Hr. lia.
  - intros r r' i [[<- <-]|[Hne Hr]]%lookup_insert_Some [[<- E]|[Hne' Hr']]%lookup_insert_Some; try done.
    + apply H1 in Hr'. lia.
    + subst. apply H1 in Hr. lia.
    + by eapply H2.
  - intros i Hi. destruct (decide (i = k)) as [->|Hk].
    + exists s. split; [set_solver|by rewrite lookup_insert_eq].
    + destruct (H3 i) as (t & Ht & Hit); [lia|]. exists t. split; [set_solver|].
      rewrite lookup_insert_ne; [done|]. intros E. rewrite E in Hn. congruence.
  - intros t [Ht| ->%list_elem_of_singleton]%elem_of_app.
    + destruct (decide (rep t = rep s)) as [->|Hne]; [by rewrite lookup_insert_eq|].
      rewrite lookup_insert_ne by done. by apply H4.
    + by rewrite lookup_insert_eq.
Qed.

Lemma numbers_seen rep seen of_root k s :
  numbers rep seen of_root k → is_Some (of_root !! rep s) → numbers rep (seen ++ [s]) of_root k.
Proof.
  intros [H1 H2 H3 H4] Hs. split; [done|done| |].
  - intros i Hi. destruct (H3 i Hi) as (t & Ht & E). exists t. split; [set_solver|done].
  - intros t [Ht| ->%list_elem_of_singleton]%elem_of_app; [by apply H4|done].
Qed.

Section Clusters.
Context (n : nat) (uf : UnionFind) (rep : nat → nat) (Hwf : uf_wf n uf rep).

Lemma alloc_clusters_spec slots : ∀ seen of_root cs,
  Forall (λ s, s < n) slots → numbers rep seen of_root (length cs) →
  ∃ of_root' k, alloc_clusters uf slots of_root cs = Some (of_root', cs ++ replicate k empty_cluster) ∧
    numbers rep (seen ++ slots) of_root' (length cs + k).
Proof.
  induction slots as [|s slots IH]; intros seen of_root cs HF Hnu; cbn.
  { exists of_root, 0. rewrite !app_nil_r, Nat.add_0_r. done. }
  apply Forall_cons in HF as [Hs HF]. rewrite (find_spec n uf rep Hwf s Hs). cbn [mbind option_bind].
  destruct (of_root !! rep s) as [i|] eqn:E.
  - destruct (IH (seen ++ [s]) of_root cs HF) as (of' & k & -> & Hn').
    { apply numbers_seen; [done|by rewrite E]. }
    exists of', k. rewrite <-app_assoc in Hn'. done.
  - destruct (IH (seen ++ [s]) (<[rep s := length cs]> of_root) (cs ++ [empty_cluster]) HF) as (of' & k & E' & Hn').
    { rewrite length_app, Nat.add_1_r. by apply numbers_insert. }
    exists of', (S k). rewrite <-!app_assoc in *. rewrite length_app in Hn'. cbn in Hn' |- *.
    split; [done|]. by rewrite Nat.add_succ_r, <-Nat.add_succ_l, <-Nat.add_1_r.
Qed.

Lemma alloc_spec :
  ∃ of_root k color, alloc_clusters uf (seq 0 n) ∅ [] = Some (of_root, replicate k empty_cluster) ∧
    coloring n rep of_root k color.
Proof.
  destruct (alloc_clusters_spec (seq 0 n) [] ∅ []) as (of_root & k & E & [H1 H2 H3 H4]).
  { apply Forall_forall. intros s Hs%elem_of_seq. lia. }
  { split; [intros r i Hr|intros r r' i Hr|intros i Hi|intros s Hs%not_elem_of_nil];
      [by rewrite lookup_empty in Hr..|cbn in Hi; lia|done]. }
  cbn in *. set (color s := default 0 (of_root !! rep s)).
  assert (Hc : ∀ s, s < n → of_root !! rep s = Some (color s)).
  { intros s Hs. destruct (H4 s) as [i Hi]; [apply elem_of_seq; lia|]. unfold color. by rewrite Hi. }
  exists of_root, k, color. split; [done|]. split.
  - done.
  - intros s Hs. by eapply H1, Hc.
  - intros s t Hs Ht Ect. apply Hc in Hs, Ht. rewrite Ect in Hs. by eapply H2.
  - intros i Hi. destruct (H3 i Hi) as (s & Hs%elem_of_seq & Es). exists s. split; [lia|].
    unfold color. by rewrite Es.
Qed.
End Clusters.

(** ** Binning *)

Lemma update_at_fmap upd (f g : nat → ClusterSpec) k ci :
  ci < k → g ci = upd (f ci) → (∀ i, i ≠ ci → g i = f i) →
  update_at upd ci (f <$> seq 0 k) = Some (g <$> seq 0 k).
Proof.
  intros Hci Hg Ho. unfold update_at. rewrite list_lookup_fmap, lookup_seq_lt by done. cbn. f_equal.
  apply list_eq. intros i.
  destruct (decide (i < k)) as [Hi|Hi].
  - rewrite (list_lookup_fmap g), lookup_seq_lt by done. cbn. destruct (decide (ci = i)) as [<-|Hne].
    + rewrite list_lookup_insert_eq; [by rewrite Hg|]. by rewrite length_fmap, length_seq.
    + rewrite list_lookup_insert_ne, list_lookup_fmap, lookup_seq_lt by done. cbn. by rewrite Ho.
  - rewrite !lookup_ge_None_2; [done|rewrite length_fmap, length_seq; lia|].
    rewrite length_insert, length_fmap, length_seq. lia.
Qed.

(** The elements below [s] at which [f] is [c]. *)
Definition class_below (f : nat → option nat) (c : option nat) (s : nat) : list nat :=
  filter (λ t, f t = c) (seq 0 s).

Lemma class_below_S f c s :
  class_below f c (S s) = class_below f c s ++ (if decide (f s = c) then [s] else []).
Proof. unfold class_below. rewrite seq_S, filter_app, filter_cons. cbn [Nat.add]. by case_decide. Qed.

(** Lists seen through their indices. *)

Lemma omap_flat_map {A B C} (g : B → option C) (h : A → list B) l :
  flat_map (λ a, omap g (h a)) l = omap g (flat_map h l).
Proof. induction l as [|a l IH]; cbn; [done|]. by rewrite omap_app, IH. Qed.

Lemma omap_lookup_seq {A} (pre l : list A) :
  omap (λ t, (pre ++ l) !! t) (seq (length pre) (length l)) = l.
Proof.
  revert pre. induction l as [|a l IH]; intros pre; cbn; [done|].
  rewrite lookup_app_r, Nat.sub_diag by lia. cbn. f_equal.
  specialize (IH (pre ++ [a])). rewrite length_app, Nat.add_1_r, <-app_assoc in IH. exact IH.
Qed.

Lemma length_omap_le {A B} (g : A → option B) l : length (omap g l) ≤ length l.
Proof. induction l as [|a l IH]; cbn; [lia|]. destruct (g a); cbn; lia. Qed.

Lemma filter_none (P : nat → Prop) `{∀ x, Decision (P x)} l : (∀ x, ¬ P x) → filter P l = [].
Proof. intros HP. induction l as [|a l IH]; [done|]. by rewrite filter_cons_False. Qed.

Lemma length_filter_mono (P Q : nat → Prop) `{∀ x, Decision (P x), ∀ x, Decision (Q x)} l :
  (∀ x, x ∈ l → P x → Q x) → length (filter P l) ≤ length (filter Q l).
Proof.
  induction l as [|a l IH]; intros HPQ; [done|]. rewrite !filter_cons.
  assert (IH' : length (filter P l) ≤ length (filter Q l)) by (apply IH; intros x Hx; apply HPQ; by right).
  repeat case_decide; cbn; try lia. exfalso. eauto using list_elem_of_here.
Qed.

(** Sorting by class loses nothing. *)
Definition class_of (f : nat → option nat) (c : option nat) (l : list nat) : list nat :=
  filter (λ t, f t = c) l.

Lemma class_of_cons f c j l :
  class_of f c (j :: l) = if decide (f j = c) then j :: class_of f c l else class_of f c l.
Proof. exact (filter_cons (λ t, f t = c) j l). Qed.

Lemma class_partition f (l : list nat) k :
  (∀ j i, j ∈ l → f j = Some i → i < k) →
  flat_map (λ i, class_of f (Some i) l) (seq 0 k) ++ class_of f None l ≡ₚ l.
Proof.
  induction l as [|j l IH]; intros Hf.
  { cbn. rewrite app_nil_r. induction (seq 0 k); done. }
  specialize (IH (λ j' i Hj', Hf j' i (list_elem_of_further j' j l Hj'))).
  assert (Hne : ∀ idx, (∀ i, i ∈ idx → f j ≠ Some i) →
    flat_map (λ i, class_of f (Some i) (j :: l)) idx = flat_map (λ i, class_of f (Some i) l) idx).
  { intros idx His. induction idx as [|i idx IHi]; [done|]. cbn [flat_map].
    rewrite class_of_cons, decide_False, IHi; [done| |]; [intros i' Hi'; apply His; by right|apply His; by left]. }
  destruct (f j) as [c|] eqn:E.
  - assert (Hc : c < k) by (apply (Hf j c); [by left|done]).
    assert (Hseq : seq 0 k = seq 0 c ++ c :: seq (S c) (k - S c)).
    { replace k with (c + S (k - S c)) at 1 by lia. by rewrite seq_app. }
    rewrite (class_of_cons f None), decide_False by congruence. etransitivity; [|apply perm_skip, IH].
    rewrite Hseq, !flat_map_app. cbn [flat_map].
    rewrite !Hne by (intros i Hi%elem_of_seq [= ->]; lia). rewrite class_of_cons, decide_True by done.
    solve_Permutation.
  - rewrite (class_of_cons f None), decide_True, Hne by done. etransitivity; [|apply perm_skip, IH].
    solve_Permutation.
Qed.

Section Binning.
Context (all : list symbol) (Hnd : NoDup all).
Context (uf : UnionFind) (rep : nat → nat) (Hwf : uf_wf (length all) uf rep).
Context (of_root : gmap nat nat) (k : nat) (color : nat → nat).
Context (Hco : coloring (length all) rep of_root k color).

Definition variables_of (i s : nat) : list symbol :=
  omap (λ t, all !! t) (class_below (λ t, Some (color t)) (Some i) s).

Lemma bin_variables_spec vars s :
  s ≤ length all → drop s all = vars →
  bin_variables uf of_root s vars ((λ i, mkCluster [] (variables_of i s)) <$> seq 0 k) =
  Some ((λ i, mkCluster [] (variables_of i (length all))) <$> seq 0 k).
Proof.
  revert s. induction vars as [|v vars IH]; intros s Hle Hd; cbn.
  { apply (f_equal length) in Hd. rewrite length_drop in Hd. cbn in Hd.
    by replace s with (length all) by lia. }
  pose proof (drop_lookup _ _ _ _ Hd) as Hv. pose proof (lookup_lt_Some _ _ _ Hv) as Hs.
  rewrite (find_spec _ _ _ Hwf s Hs). cbn [mbind option_bind]. rewrite (co_lookup _ _ _ _ _ Hco s Hs).
  cbn [mbind option_bind].
  rewrite (update_at_fmap _ _ (λ i, mkCluster [] (variables_of i (S s)))).
  - cbn [mbind option_bind]. apply IH; [lia|by eapply drop_step].
  - by apply (co_lt _ _ _ _ _ Hco).
  - unfold push_variable, variables_of. cbn [cl_clauses cl_variables]. f_equal. rewrite class_below_S, decide_True by done.
    rewrite omap_app. cbn. by rewrite Hv.
  - intros i Hi. unfold variables_of. rewrite class_below_S, decide_False by congruence.
    by rewrite app_nil_r.
Qed.

(** The cluster of a variable, and where a clause goes. *)
Definition vcolor (v : symbol) : nat := color (default 0 (slot_of all v)).

Definition place (vars : list symbol) : option nat :=
  match vars with
  | [] => Some 0
  | _ =>
      match elements (list_to_set (vcolor <$> vars) : gset nat) with
      | [ci] => Some ci
      | _ => None
      end
  end.

Lemma cluster_of_spec v : v ∈ all → cluster_of all uf of_root v = Some (vcolor v) ∧ vcolor v < k.
Proof.
  intros Hv. destruct (slot_of_total all Hnd v Hv) as (i & Hi & Hl). unfold cluster_of, vcolor.
  rewrite Hi. cbn [mbind option_bind default]. rewrite (find_spec _ _ _ Hwf i Hl). cbn [mbind option_bind].
  split; [by apply (co_lookup _ _ _ _ _ Hco)|by apply (co_lt _ _ _ _ _ Hco)].
Qed.

Lemma mapM_cluster_of vars :
  Forall (λ v, v ∈ all) vars → mapM (cluster_of all uf of_root) vars = Some (vcolor <$> vars).
Proof.
  induction 1 as [|v vars Hv _ IH]; cbn; [done|].
  by rewrite (proj1 (cluster_of_spec v Hv)), IH.
Qed.

Lemma place_lt vars ci : 0 < k → Forall (λ v, v ∈ all) vars → place vars = Some ci → ci < k.
Proof.
  intros Hk HF. destruct vars as [|v vars]; [by intros [= <-]|]. unfold place.
  destruct (elements _) as [|c [|c' cs]] eqn:E; [done| |done]. intros [= <-].
  assert (Hin : c ∈ (list_to_set (vcolor <$> v :: vars) : gset nat)).
  { apply elem_of_elements. rewrite E. by left. }
  apply elem_of_list_to_set, list_elem_of_fmap in Hin as (w & -> & Hw).
  rewrite Forall_forall in HF. apply cluster_of_spec. by apply HF.
Qed.

(** Clause [j] and where it goes. *)
Context (per_clause : list (list symbol)) (Hper : Forall (Forall (λ v, v ∈ all)) per_clause).
Context (Hk : 0 < k).

Definition place_at (j : nat) : option nat := place (default [] (per_clause !! j)).

Definition binned_at (j : nat) (vars : gset symbol) : binned :=
  mkBinned ((λ i, mkCluster (class_below place_at (Some i) j) (variables_of i (length all))) <$> seq 0 k)
    (class_below place_at None j) vars.

Lemma push_at j ci :
  place_at j = Some ci → ci < k →
  update_at (push_clause j) ci
    ((λ i, mkCluster (class_below place_at (Some i) j) (variables_of i (length all))) <$> seq 0 k) =
  Some ((λ i, mkCluster (class_below place_at (Some i) (S j)) (variables_of i (length all))) <$> seq 0 k) ∧
  class_below place_at None (S j) = class_below place_at None j.
Proof.
  intros Hp Hci. split.
  - apply update_at_fmap; [done| |].
    + unfold push_clause. cbn [cl_clauses cl_variables]. by rewrite class_below_S, decide_True.
    + intros i Hi. rewrite class_below_S, decide_False by congruence. by rewrite app_nil_r.
  - by rewrite class_below_S, Hp, decide_False, app_nil_r by done.
Qed.

Lemma binned_bridge j vars vars' :
  place_at j = None →
  mkBinned (bn_clusters (binned_at j vars)) (bn_bridge_clauses (binned_at j vars) ++ [j]) vars' =
  binned_at (S j) vars'.
Proof.
  intros Hp. unfold binned_at. cbn [bn_clusters bn_bridge_clauses]. f_equal.
  - apply list_fmap_ext. intros _ i _. by rewrite class_below_S, Hp, decide_False, app_nil_r by done.
  - by rewrite class_below_S, decide_True.
Qed.

Definition bridge_vars_at (j : nat) (vars : gset symbol) : Prop :=
  ∀ v, v ∈ vars ↔ ∃ i, i ∈ class_below place_at None j ∧ v ∈ default [] (per_clause !! i).

Lemma bin_clauses_spec rest : ∀ j vars,
  j ≤ length per_clause → drop j per_clause = rest → bridge_vars_at j vars →
  ∃ vars', bin_clauses all uf of_root j rest (binned_at j vars) = Some (binned_at (length per_clause) vars') ∧
    bridge_vars_at (length per_clause) vars'.
Proof.
  induction rest as [|vs rest IH]; intros j vars Hle Hd Hbv; cbn [bin_clauses].
  { apply (f_equal length) in Hd. rewrite length_drop in Hd. cbn in Hd.
    replace (length per_clause) with j by lia. by exists vars. }
  pose proof (drop_lookup _ _ _ _ Hd) as Hj. pose proof (lookup_lt_Some _ _ _ Hj) as Hlt.
  assert (Hp : place_at j = place vs) by (unfold place_at; by rewrite Hj).
  assert (HF : Forall (λ v, v ∈ all) vs) by (by eapply Forall_lookup_1).
  assert (Hgo : ∀ ci, place vs = Some ci → ∃ vars',
    (st ← (cs ← update_at (push_clause j) ci (bn_clusters (binned_at j vars));
           Some (mkBinned cs (bn_bridge_clauses (binned_at j vars)) (bn_bridge_vars (binned_at j vars))));
     bin_clauses all uf of_root (S j) rest st) = Some (binned_at (length per_clause) vars') ∧
    bridge_vars_at (length per_clause) vars').
  { intros ci Hc. destruct (push_at j ci) as [Hu Hb]; [congruence|by eapply place_lt|].
    unfold binned_at at 1 2 3. cbn [bn_clusters bn_bridge_clauses bn_bridge_vars]. rewrite Hu.
    cbn [mbind option_bind]. rewrite <-Hb. apply (IH (S j) vars); [lia|by eapply drop_step|].
    intros v. rewrite Hb. apply Hbv. }
  destruct vs as [|v0 vs']; [|set (vs := v0 :: vs') in *].
  - destruct (bn_clusters (binned_at j vars)) eqn:E.
    { exfalso. apply (f_equal length) in E. cbn in E. rewrite length_fmap, length_seq in E. lia. }
    by apply (Hgo 0).
  - rewrite mapM_cluster_of by done. cbn [mbind option_bind].
    unfold place in Hp, Hgo. fold vs in Hp, Hgo. 
    destruct (elements (list_to_set (vcolor <$> vs))) as [|c [|c' cs]] eqn:E; [|by apply Hgo|].
    all: rewrite (binned_bridge j vars) by done; apply IH; [lia|by eapply drop_step|].
    all: intros v; rewrite class_below_S, decide_True by done; rewrite elem_of_union, elem_of_list_to_set, (Hbv v).
    all: setoid_rewrite elem_of_app; setoid_rewrite list_elem_of_singleton; split;
      [intros [Hv|(i & Hi & Hv)]; [exists j; rewrite Hj; auto|eauto]
      |intros (i & [Hi| ->] & Hv); [eauto|left; by rewrite Hj in Hv]].
Qed.
(** What the clusters hold. *)

Lemma elem_variables_of i v : v ∈ variables_of i (length all) ↔ v ∈ all ∧ vcolor v = i.
Proof.
  unfold variables_of, class_below, vcolor. rewrite list_elem_of_omap.
  setoid_rewrite list_elem_of_filter. setoid_rewrite elem_of_seq. split.
  - intros (t & [[= <-] _] & Ht). split; [by eapply list_elem_of_lookup_2|].
    apply (slot_of_spec all Hnd) in Ht. by rewrite Ht.
  - intros [Hv <-]. destruct (slot_of_total all Hnd v Hv) as (t & Ht & Hl). rewrite Ht. cbn.
    exists t. split; [split; [done|lia]|]. by apply (slot_of_spec all Hnd).
Qed.

Lemma flat_variables : flat_map (λ i, variables_of i (length all)) (seq 0 k) ≡ₚ all.
Proof.
  unfold variables_of. rewrite omap_flat_map.
  pose proof (class_partition (λ t, Some (color t)) (seq 0 (length all)) k) as Hp.
  unfold class_of in Hp. rewrite (filter_none (λ t, Some (color t) = None)), app_nil_r in Hp by done.
  unfold class_below. rewrite Hp.
  - pose proof (omap_lookup_seq [] all) as E. cbn in E. by rewrite E.
  - intros j i Hj%elem_of_seq [= <-]. apply (co_lt _ _ _ _ _ Hco). lia.
Qed.

Lemma place_inside vars i v : place vars = Some i → v ∈ vars → vcolor v = i.
Proof.
  destruct vars as [|v0 vars]; [by intros _ ?%not_elem_of_nil|]. unfold place.
  destruct (elements _) as [|c [|c' cs]] eqn:E; [done| |done]. intros [= <-] Hv.
  assert (Hin : vcolor v ∈ (list_to_set (vcolor <$> v0 :: vars) : gset nat)).
  { apply elem_of_list_to_set, list_elem_of_fmap. eauto. }
  apply elem_of_elements in Hin. rewrite E in Hin. by apply list_elem_of_singleton in Hin.
Qed.

Lemma place_outside vars i : place vars = None → ∃ v, v ∈ vars ∧ vcolor v ≠ i.
Proof.
  intros Hp. destruct (decide (Exists (λ v, vcolor v ≠ i) vars)) as [He|He].
  { by apply Exists_exists in He. }
  exfalso. apply not_Exists_Forall in He; [|apply _].
  destruct vars as [|v0 vars]; [done|]. unfold place in Hp.
  assert (E : (list_to_set (vcolor <$> v0 :: vars) : gset nat) = {[i]}).
  { apply set_eq. intros c. rewrite elem_of_list_to_set, elem_of_singleton, list_elem_of_fmap. split.
    - intros (v & -> & Hv). rewrite Forall_forall in He. specialize (He v Hv). by apply dec_stable in He.
    - intros ->. exists v0. split; [|by left]. apply Forall_cons in He as [He _]. by apply dec_stable in He. }
  rewrite E, elements_singleton in Hp. done.
Qed.

Lemma variables_of_bounded cap i :
  bounded cap (length all) rep → (N.of_nat (length (variables_of i (length all))) <= cap)%N ∨ k ≤ i.
Proof.
  intros Hb. destruct (decide (i < k)) as [Hi|]; [|right; lia]. left.
  destruct (co_onto _ _ _ _ _ Hco i Hi) as (s & Hs & Es).
  assert (E : length (variables_of i (length all)) ≤ class_size (length all) rep (rep s)); [|specialize (Hb s Hs); lia].
  unfold variables_of, class_below, class_size. etransitivity; [apply length_omap_le|].
  apply length_filter_mono. intros t Ht%elem_of_seq [= Ec]. apply (co_inj _ _ _ _ _ Hco); [lia|done|congruence].
Qed.
End Binning.

(** ** The plan *)

Lemma walk_btree e out : walk e out = collect_predicates_btree e out.
Proof. reflexivity. Qed.

Definition clause_vars (e : ConditionExpr) : list symbol := bt_symbols (collect_variables e).

Lemma elem_clause_vars e x : x ∈ clause_vars e ↔ x ∈ for_each_predicate_symbol e.
Proof.
  unfold clause_vars, bt_symbols, collect_variables. rewrite (merge_sort_Permutation symbol_le).
  rewrite elem_of_elements, walk_btree, collect_btree_spec. set_solver.
Qed.

Definition all_variables (clauses : list ConditionExpr) : list symbol :=
  bt_symbols (foldl (λ out vars, list_to_set vars ∪ out) (∅ : gset symbol) (clause_vars <$> clauses)).

Lemma elem_all_variables clauses x :
  x ∈ all_variables clauses ↔ ∃ e, e ∈ clauses ∧ x ∈ for_each_predicate_symbol e.
Proof.
  unfold all_variables, bt_symbols. rewrite (merge_sort_Permutation symbol_le), elem_of_elements.
  assert (Hf : ∀ per (s : gset symbol), x ∈ foldl (λ out vars, list_to_set vars ∪ out) s per ↔
    x ∈ s ∨ ∃ vars, vars ∈ per ∧ x ∈ vars).
  { intros per. induction per as [|vars per IH]; intros s; cbn.
    - split; [auto|]. intros [?|(v & Hv & _)]; [done|by apply not_elem_of_nil in Hv].
    - rewrite IH, elem_of_union, elem_of_list_to_set. setoid_rewrite elem_of_cons. naive_solver. }
  rewrite Hf. split.
  - intros [Hx|(vars & (e & -> & He)%list_elem_of_fmap & Hx)]; [set_solver|]. exists e. split; [done|]. by apply elem_clause_vars.
  - intros (e & He & Hx). right. exists (clause_vars e).
    split; [apply list_elem_of_fmap; eauto|by apply elem_clause_vars].
Qed.

Lemma NoDup_all_variables clauses : NoDup (all_variables clauses).
Proof.
  unfold all_variables, bt_symbols. rewrite (merge_sort_Permutation symbol_le). apply NoDup_elements.
Qed.

Definition bridge_clauses (plan : PartitionPlan) : list nat :=
  match bridge plan with Some b => br_clauses b | None => [] end.

(** What a plan promises of the clauses. *)
Record plan_ok (clauses : list ConditionExpr) (plan : PartitionPlan) : Prop := {
  (** every variable is in one cluster *)
  pl_variables : flat_map cl_variables (clusters plan) ≡ₚ all_variables clauses;
  (** every clause is in one cluster or in the bridge *)
  pl_clauses : flat_map cl_clauses (clusters plan) ++ bridge_clauses plan ≡ₚ seq 0 (length clauses);
  (** a cluster's clauses mention its variables alone *)
  pl_inside : ∀ c i e x, c ∈ clusters plan → i ∈ cl_clauses c → clauses !! i = Some e →
    x ∈ for_each_predicate_symbol e → x ∈ cl_variables c;
  (** the bridge has the variables of its clauses *)
  pl_bridge : ∀ b x, bridge plan = Some b →
    x ∈ br_variables b ↔ ∃ i e, i ∈ br_clauses b ∧ clauses !! i = Some e ∧ x ∈ for_each_predicate_symbol e;
  (** and no clause of it fits a cluster *)
  pl_needed : ∀ c i e, c ∈ clusters plan → i ∈ bridge_clauses plan → clauses !! i = Some e →
    ∃ x, x ∈ for_each_predicate_symbol e ∧ x ∉ cl_variables c;
  pl_bridge_nonempty : ∀ b, bridge plan = Some b → br_clauses b ≠ [];
  pl_clusters : clusters plan ≠ [];
}.

Lemma clause_symbol_in_all clauses i e x :
  clauses !! i = Some e → x ∈ for_each_predicate_symbol e → x ∈ all_variables clauses.
Proof. intros Hi Hx. apply elem_all_variables. exists e. split; [by eapply list_elem_of_lookup_2|done]. Qed.

Lemma single_plan clauses :
  plan_ok clauses (mkPlan [mkCluster (seq 0 (length clauses)) (all_variables clauses)] None).
Proof.
  split; cbn; [by rewrite app_nil_r|by rewrite !app_nil_r| |done| |done|done].
  - intros c i e x ->%list_elem_of_singleton _ Hi Hx. cbn. by eapply clause_symbol_in_all.
  - intros c i e _ Hi. by apply not_elem_of_nil in Hi.
Qed.

Lemma elem_class_below f c s j : j ∈ class_below f c s ↔ f j = c ∧ j < s.
Proof. unfold class_below. rewrite list_elem_of_filter, elem_of_seq. split; intros [??]; split; try done; lia. Qed.

(** The clusters [partition] builds from a coloring. *)
Section Built.
Context (clauses : list ConditionExpr) (k : nat) (color : nat → nat) (bvars : gset symbol).
Let all := all_variables clauses.
Let per := clause_vars <$> clauses.
Let m := length clauses.
Let place_of (j : nat) := place_at all color per j.

Definition built_clusters : list ClusterSpec :=
  (λ i, sort_clauses (mkCluster (class_below place_of (Some i) m) (variables_of all color i (length all))))
  <$> seq 0 k.

Definition built_plan : PartitionPlan :=
  mkPlan built_clusters
    (match merge_sort Nat.le (class_below place_of None m) with
     | [] => None
     | idx => Some (mkBridge idx (bt_symbols bvars))
     end).

Lemma built_bridge_clauses : bridge_clauses built_plan ≡ₚ class_below place_of None m.
Proof.
  unfold bridge_clauses, built_plan. cbn.
  etransitivity; [|apply (merge_sort_Permutation Nat.le)].
  by destruct (merge_sort Nat.le (class_below place_of None m)).
Qed.

Lemma elem_built c :
  c ∈ built_clusters ↔ ∃ i, i < k ∧
    c = sort_clauses (mkCluster (class_below place_of (Some i) m) (variables_of all color i (length all))).
Proof.
  unfold built_clusters. rewrite list_elem_of_fmap. setoid_rewrite elem_of_seq.
  split; intros (i & ? & ?); exists i; (split; [|]); try done; lia.
Qed.

Lemma per_lookup j e : clauses !! j = Some e → per !! j = Some (clause_vars e).
Proof. intros Hj. unfold per. by rewrite list_lookup_fmap, Hj. Qed.

Lemma place_of_lookup j e : clauses !! j = Some e → place_of j = place all color (clause_vars e).
Proof. intros Hj. unfold place_of, place_at. by rewrite (per_lookup _ _ Hj). Qed.

Context (uf : UnionFind) (rep : nat → nat) (Hwf : uf_wf (length all) uf rep).
Context (of_root : gmap nat nat) (Hco : coloring (length all) rep of_root k color) (Hk : 0 < k).
Context (Hbv : bridge_vars_at all color per m bvars).

Lemma per_in_all : Forall (Forall (λ v, v ∈ all)) per.
Proof.
  apply Forall_forall. intros vars (e & -> & He)%list_elem_of_fmap. apply Forall_forall.
  intros v Hv%elem_clause_vars. apply elem_all_variables. eauto.
Qed.

Lemma built_ok : plan_ok clauses built_plan.
Proof.
  assert (Hnd : NoDup all) by apply NoDup_all_variables. split.
  - cbn. unfold built_clusters. rewrite flat_map_concat_map, <-list_fmap_compose.
    rewrite <-flat_map_concat_map. exact (flat_variables all rep of_root k color Hco Hk).
  - rewrite built_bridge_clauses. cbn. unfold built_clusters.
    rewrite flat_map_concat_map, <-list_fmap_compose, <-flat_map_concat_map.
    etransitivity; [|apply (class_partition place_of (seq 0 m) k)].
    + apply Permutation_app; [|done]. induction (seq 0 k) as [|i l IH]; cbn; [done|].
      apply Permutation_app; [apply (merge_sort_Permutation Nat.le)|done].
    + intros j i Hj%elem_of_seq. destruct (lookup_lt_is_Some_2 clauses j) as [e He]; [unfold m in *; lia|].
      rewrite (place_of_lookup _ _ He). eapply place_lt; [done..|].
      pose proof per_in_all as HF. eapply Forall_lookup_1; [exact HF|by apply per_lookup].
  - intros c i e x (ci & Hci & ->)%elem_built Hi He Hx. cbn in Hi |- *.
    rewrite (merge_sort_Permutation Nat.le) in Hi. apply elem_class_below in Hi as [Hp Hi].
    apply (elem_variables_of all Hnd k color Hk). split; [by eapply clause_symbol_in_all|].
    rewrite (place_of_lookup _ _ He) in Hp. eapply place_inside; [done|]. by apply elem_clause_vars.
  - intros b x Hb. cbn in Hb. pose proof built_bridge_clauses as Hbc. unfold bridge_clauses in Hbc. cbn in Hbc.
    destruct (merge_sort Nat.le (class_below place_of None m)) as [|j js]; [done|].
    injection Hb as <-. cbn [br_clauses br_variables]. cbn [br_clauses] in Hbc.
    unfold bt_symbols. rewrite (merge_sort_Permutation symbol_le), elem_of_elements, (Hbv x).
    setoid_rewrite Hbc. split.
    + intros (i & Hi & Hx). pose proof Hi as [_ Hl]%elem_class_below.
      destruct (lookup_lt_is_Some_2 clauses i Hl) as [e He]. exists i, e.
      rewrite (per_lookup _ _ He) in Hx. split_and!; [done|done|by apply elem_clause_vars].
    + intros (i & e & Hi & He & Hx). exists i. rewrite (per_lookup _ _ He).
      split; [done|by apply elem_clause_vars].
  - intros c i e (ci & Hci & ->)%elem_built Hi He. rewrite built_bridge_clauses in Hi.
    apply elem_class_below in Hi as [Hp _]. rewrite (place_of_lookup _ _ He) in Hp.
    destruct (place_outside all color _ ci Hp) as (v & Hv & Hc). exists v.
    split; [by apply elem_clause_vars|]. cbn. intros Hin.
    by apply (elem_variables_of all Hnd k color Hk) in Hin as [_ Hin].
  - intros b Hb. cbn in Hb. destruct (merge_sort _ _); [done|]. injection Hb as <-. done.
  - cbn. unfold built_clusters. destruct k; [lia|done].
Qed.

Lemma built_bounded cap :
  bounded cap (length all) rep →
  Forall (λ c, N.of_nat (length (cl_variables c)) <= cap)%N built_clusters.
Proof.
  intros Hb. apply Forall_forall. intros c (i & Hi & ->)%elem_built. cbn.
  destruct (variables_of_bounded all rep of_root k color Hco Hk cap i Hb); [done|lia].
Qed.
End Built.

Lemma new_bounded cap n : (1 <= cap)%N → bounded cap n id.
Proof.
  intros Hc x Hx. unfold class_size, id.
  assert (E : length (filter (λ y, y = x) (seq 0 n)) ≤ 1); [|lia].
  etransitivity; [apply (NoDup_incl_length (l' := [x]))|done].
  - apply NoDup_ListNoDup, NoDup_filter, NoDup_seq.
  - intros y Hy. apply list_elem_of_In, list_elem_of_filter in Hy as [-> _]. by left.
Qed.

(** A clause over the cap is kept together. *)
Lemma oversized_placed clauses color rep of_root k e i :
  coloring (length (all_variables clauses)) rep of_root k color → clauses !! i = Some e →
  same_class (all_variables clauses) rep (clause_vars e) →
  is_Some (place (all_variables clauses) color (clause_vars e)).
Proof.
  intros Hco Hi Hs. destruct (place _ color (clause_vars e)) as [c|] eqn:E; [done|]. exfalso.
  pose proof (NoDup_all_variables clauses) as Hnd.
  assert (Hall : ∀ v, v ∈ clause_vars e → v ∈ all_variables clauses).
  { intros v Hv%elem_clause_vars. by eapply clause_symbol_in_all. }
  destruct (place_outside _ _ _ 0 E) as (v & Hv & _).
  destruct (place_outside _ _ _ (vcolor (all_variables clauses) color v) E) as (w & Hw & Hne). apply Hne.
  destruct (slot_of_total _ Hnd v (Hall v Hv)) as (a & Ha & Hal).
  destruct (slot_of_total _ Hnd w (Hall w Hw)) as (b & Hb & Hbl).
  unfold vcolor. rewrite Ha, Hb. cbn. pose proof (Hs v w a b Hv Hw Ha Hb) as Er.
  pose proof (co_lookup _ _ _ _ _ Hco a Hal) as La. pose proof (co_lookup _ _ _ _ _ Hco b Hbl) as Lb.
  congruence.
Qed.

Lemma partition_spec clauses cap :
  ∃ plan, partition clauses cap = Some plan ∧ plan_ok clauses plan ∧
    (Forall (λ e, N.of_nat (length (clause_vars e)) <= cap)%N clauses →
     Forall (λ c, N.of_nat (length (cl_variables c)) <= cap)%N (clusters plan)) ∧
    (∀ i e, clauses !! i = Some e → (cap < N.of_nat (length (clause_vars e)))%N →
     i ∉ bridge_clauses plan).
Proof.
  unfold partition. change (λ c, bt_symbols (collect_variables c)) with clause_vars.
  change (bt_symbols (foldl _ ∅ (clause_vars <$> clauses))) with (all_variables clauses).
  case_decide as Hsmall.
  { eexists. split; [done|]. split; [apply single_plan|]. cbn. split; [by repeat constructor|].
    intros i e _ _. apply not_elem_of_nil. }
  pose proof (NoDup_all_variables clauses) as Hnd. pose proof (per_in_all clauses) as Hper.
  destruct (union_clauses_spec _ Hnd cap _ _ _ (uf_new_wf _) Hper) as (uf & rep & -> & Hwf & _ & Hsame & Hb).
  cbn [mbind option_bind]. destruct (alloc_spec _ _ _ Hwf) as (of_root & k & color & -> & Hco).
  cbn [mbind option_bind]. cbn beta iota.
  assert (Hk : 0 < k) by (pose proof (co_lt _ _ _ _ _ Hco 0 ltac:(lia)); lia).
  assert (Hrep : replicate k empty_cluster =
    (λ i, mkCluster [] (variables_of (all_variables clauses) color i 0)) <$> seq 0 k).
  { clear. generalize 0 at 2. induction k as [|k IH]; intros x; cbn; [done|]. by rewrite <-IH. }
  rewrite Hrep, (bin_variables_spec _ _ _ Hwf _ _ _ Hco) by (done || lia). cbn [mbind option_bind].
  destruct (bin_clauses_spec _ Hnd _ _ Hwf _ _ _ Hco _ Hper Hk (clause_vars <$> clauses) 0 ∅) as (bvars & E & Hbv).
  { lia. } { done. } { intros v. cbn. set_solver. }
  cbn in E. unfold binned_at at 1 in E. cbn in E. rewrite E. cbn [mbind option_bind].
  rewrite length_fmap in *. exists (built_plan clauses k color bvars). split; [|split; [|split]].
  - unfold built_plan, built_clusters, binned_at. cbn [bn_clusters bn_bridge_clauses bn_bridge_vars].
    by rewrite <-list_fmap_compose.
  - exact (built_ok clauses k color bvars uf rep Hwf of_root Hco Hk Hbv).
  - intros HF. apply (built_bounded clauses k color rep of_root Hco Hk). apply Hb; [by apply Forall_fmap|]. apply new_bounded.
    destruct (all_variables clauses) as [|x xs] eqn:Ea; [cbn in Hsmall; lia|].
    assert (Hx : x ∈ all_variables clauses) by (rewrite Ea; by left).
    apply elem_all_variables in Hx as (e & He & Hx). apply elem_clause_vars in Hx.
    rewrite Forall_forall in HF. specialize (HF e He). destruct (clause_vars e); [by apply not_elem_of_nil in Hx|].
    cbn in HF. lia.
  - intros i e Hi Hov. rewrite built_bridge_clauses. intros [Hp _]%elem_class_below.
    destruct (oversized_placed clauses color rep of_root k e i Hco Hi) as [c Hc].
    { apply Hsame; [|done]. apply list_elem_of_fmap. exists e. split; [done|by eapply list_elem_of_lookup_2]. }
    rewrite (place_of_lookup _ _ _ _ Hi) in Hp. congruence.
Qed.

(** C38: the partitioner divides the model.  For every list of clauses and every
    cluster size [partition] ends with a plan: each variable is in exactly one
    cluster, each clause in exactly one cluster or in the bridge, the clauses of
    a cluster mention its variables alone, the bridge has the variables of its
    clauses, and a clause is in the bridge only if no cluster holds all its
    variables. *)
Theorem partition_total clauses cap :
  ∃ plan, partition clauses cap = Some plan ∧ plan_ok clauses plan.
Proof. destruct (partition_spec clauses cap) as (plan & H & Hok & _). eauto. Qed.

(** C39: the cluster size is respected.  When no clause alone has more variables
    than the cap, no cluster has; and a clause that has is kept whole in a
    cluster, never put in the bridge. *)
Theorem partition_size_cap clauses cap plan :
  partition clauses cap = Some plan →
  (Forall (λ e, N.of_nat (length (clause_vars e)) <= cap)%N clauses →
   Forall (λ c, N.of_nat (length (cl_variables c)) <= cap)%N (clusters plan)) ∧
  ∀ i e, clauses !! i = Some e → (cap < N.of_nat (length (clause_vars e)))%N → i ∉ bridge_clauses plan.
Proof.
  intros H. destruct (partition_spec clauses cap) as (plan' & H' & _ & H1 & H2). by simplify_eq.
Qed.

Definition demo_clauses : list ConditionExpr :=
  let p t v := Predicate (mkPredicate t OpEq v) in
  [Or (p "a" "x") (p "os" "linux"); Or (p "b" "x") (p "os" "mac")].

Definition demo_plan : PartitionPlan :=
  mkPlan [mkCluster [0] [("a", "x"); ("os", "linux")]; mkCluster [1] [("b", "x"); ("os", "mac")]] None.

Lemma partition_size_cap_witness :
  partition demo_clauses 2 = Some demo_plan ∧
  Forall (λ c, N.of_nat (length (cl_variables c)) <= 2)%N (clusters demo_plan).
Proof.
  assert (E : partition demo_clauses 2 = Some demo_plan) by (vm_compute; reflexivity).
  split; [exact E|]. apply (proj1 (partition_size_cap demo_clauses 2 demo_plan E)).
  apply Forall_cons. split; [vm_compute; discriminate|].
  apply Forall_cons. split; [vm_compute; discriminate|]. apply Forall_nil. exact I.
Defined.
