(* ===== verification/Bdd.v ===== *)
(** * The reduced ordered BDD builder

    Models [compiler/src/ccm_emitter/bdd.rs]: the node arena, the canonical
    [unique] table, the three bounded apply memos with their clear-when-full
    eviction, the adaptive shrink of the memo cap, and the canonical layout of
    the nodes reachable from a root.  The byte encoding is in [BddBytes].

    A [u32] is an [N]; [&mut self] is explicit state passing.  Recursion over
    the arena runs on fuel taken from the node ids, and a panic of the source
    is a [bdd_fault]: the specifications below show that, from a well-formed
    state, running out of fuel, an out-of-range index and a failed [expect]
    are not outcomes. *)
From S2P Require Import Prelude.
Local Open Scope N_scope.

(** ** Data *)

Inductive bdd_fault : Type :=
  | NoFuel
  | IndexOutOfRange (id : N)
  | NodeTableFull
  | MissingChild (id : N)
  | Unreachable.

Definition TERMINAL_VAR_INDEX : N := 0xFFFFFFFF.
Definition TERMINAL_FALSE : N := 0xFFFFFFFF.
Definition TERMINAL_TRUE : N := 0xFFFFFFFE.
Definition FALSE_REF : N := 0.
Definition TRUE_REF : N := 1.
Definition DEFAULT_MEMO_CAP : N := N.shiftl 1 20.
Definition MEMO_CAP_FLOOR : N := 4096.
Definition RSS_SHRINK_TRIGGER_NUM : N := 85.
Definition RSS_SHRINK_TRIGGER_DEN : N := 100.
Definition U32_MAX : N := 0xFFFFFFFF.
Definition U64_MAX : N := 0xFFFFFFFFFFFFFFFF.

Record BddProfile : Type := mkProfile {
  peak_unique : nat;
  peak_nodes : nat;
  peak_not_memo : nat;
  peak_and_memo : nat;
  peak_or_memo : nat;
  clear_memos_count : N;
  per_table_clear_count : N;
  clause_count : N;
  first_clause_delta_unique : option Z;
  last_clause_delta_unique : option Z;
  peak_clause_delta_unique : Z;
  prev_clause_unique_len : nat;
}.

Record MemoAdaptation : Type := mkAdaptation {
  a_shrink_count : N;
  a_initial_memo_cap : N;
  a_final_memo_cap : N;
}.

Record RawNode : Type := mkRaw { var_index : N; low : N; high : N }.

#[export] Instance RawNode_eq_dec : EqDecision RawNode.
Proof. solve_decision. Defined.

Record BddBuilder : Type := mkBuilder {
  nodes : list RawNode;
  unique : gmap (N * N * N) N;
  not_memo : gmap N N;
  and_memo : gmap (N * N) N;
  or_memo : gmap (N * N) N;
  memo_cap : N;
  rss_budget_kib : option N;
  initial_memo_cap : N;
  shrink_count : N;
  profile : BddProfile;
}.

Definition default_profile : BddProfile :=
  {| peak_unique := 0; peak_nodes := 0; peak_not_memo := 0; peak_and_memo := 0;
     peak_or_memo := 0; clear_memos_count := 0; per_table_clear_count := 0;
     clause_count := 0; first_clause_delta_unique := None;
     last_clause_delta_unique := None; peak_clause_delta_unique := 0%Z;
     prev_clause_unique_len := 0 |}.

(** [with_memo_cap_and_rss_budget]; [with_memo_cap] is the [None] case. *)
Definition with_memo_cap_and_rss_budget (cap : N) (budget : option N) : BddBuilder :=
  let cap := N.max cap 1 in
  {| nodes := []; unique := ∅; not_memo := ∅; and_memo := ∅; or_memo := ∅;
     memo_cap := cap; rss_budget_kib := budget; initial_memo_cap := cap;
     shrink_count := 0; profile := default_profile |}.

Definition with_memo_cap (cap : N) : BddBuilder := with_memo_cap_and_rss_budget cap None.

Definition default_builder : BddBuilder := with_memo_cap DEFAULT_MEMO_CAP.

Definition adaptation (st : BddBuilder) : MemoAdaptation :=
  {| a_shrink_count := shrink_count st; a_initial_memo_cap := initial_memo_cap st;
     a_final_memo_cap := memo_cap st |}.

(** ** Field updates *)

Definition set_arena (st : BddBuilder) (ns : list RawNode) (u : gmap (N * N * N) N) : BddBuilder :=
  {| nodes := ns; unique := u; not_memo := not_memo st; and_memo := and_memo st;
     or_memo := or_memo st; memo_cap := memo_cap st; rss_budget_kib := rss_budget_kib st;
     initial_memo_cap := initial_memo_cap st; shrink_count := shrink_count st;
     profile := profile st |}.

Definition set_memos (st : BddBuilder) (n : gmap N N) (a o : gmap (N * N) N)
    (p : BddProfile) : BddBuilder :=
  {| nodes := nodes st; unique := unique st; not_memo := n; and_memo := a; or_memo := o;
     memo_cap := memo_cap st; rss_budget_kib := rss_budget_kib st;
     initial_memo_cap := initial_memo_cap st; shrink_count := shrink_count st;
     profile := p |}.

Definition set_cap (st : BddBuilder) (cap shrinks : N) : BddBuilder :=
  {| nodes := nodes st; unique := unique st; not_memo := not_memo st;
     and_memo := and_memo st; or_memo := or_memo st; memo_cap := cap;
     rss_budget_kib := rss_budget_kib st; initial_memo_cap := initial_memo_cap st;
     shrink_count := shrinks; profile := profile st |}.

(** The three per-table peaks, and one more per-table clear. *)
Definition bump_table (p : BddProfile) (n a o : nat) : BddProfile :=
  {| peak_unique := peak_unique p; peak_nodes := peak_nodes p;
     peak_not_memo := peak_not_memo p `max` n;
     peak_and_memo := peak_and_memo p `max` a;
     peak_or_memo := peak_or_memo p `max` o;
     clear_memos_count := clear_memos_count p;
     per_table_clear_count := per_table_clear_count p + 1;
     clause_count := clause_count p;
     first_clause_delta_unique := first_clause_delta_unique p;
     last_clause_delta_unique := last_clause_delta_unique p;
     peak_clause_delta_unique := peak_clause_delta_unique p;
     prev_clause_unique_len := prev_clause_unique_len p |}.

(** ** Adaptive memo cap *)

Definition saturating_mul_u64 (a b : N) : N := N.min (a * b) U64_MAX.

(** [sample] is what [rss_sampler] returns if it is called. *)
Definition maybe_shrink_memo_cap (st : BddBuilder) (sample : option N) : BddBuilder :=
  match rss_budget_kib st with
  | None => st
  | Some budget_kib =>
      if memo_cap st <=? MEMO_CAP_FLOOR then st
      else
        match sample with
        | None => st
        | Some rss_kib =>
            let trigger_kib :=
              saturating_mul_u64 budget_kib RSS_SHRINK_TRIGGER_NUM / RSS_SHRINK_TRIGGER_DEN in
            if trigger_kib <? rss_kib then
              set_cap st (N.max (memo_cap st / 2) MEMO_CAP_FLOOR)
                (N.min (shrink_count st + 1) U32_MAX)
            else st
        end
  end.

Definition clear_memos (st : BddBuilder) (sample : option N) : BddBuilder :=
  let p := profile st in
  let unique_now := size (unique st) in
  let delta := (Z.of_nat unique_now - Z.of_nat (prev_clause_unique_len p))%Z in
  let p' :=
    {| peak_unique := peak_unique p `max` unique_now;
       peak_nodes := peak_nodes p `max` length (nodes st);
       peak_not_memo := peak_not_memo p `max` size (not_memo st);
       peak_and_memo := peak_and_memo p `max` size (and_memo st);
       peak_or_memo := peak_or_memo p `max` size (or_memo st);
       clear_memos_count := clear_memos_count p + 1;
       per_table_clear_count := per_table_clear_count p;
       clause_count := clause_count p + 1;
       first_clause_delta_unique :=
         match first_clause_delta_unique p with None => Some delta | d => d end;
       last_clause_delta_unique := Some delta;
       peak_clause_delta_unique :=
         if (peak_clause_delta_unique p <? delta)%Z then delta else peak_clause_delta_unique p;
       prev_clause_unique_len := unique_now |} in
  maybe_shrink_memo_cap (set_memos st ∅ ∅ ∅ p') sample.

(** ** The arena *)

Definition terminal_value (node : N) : option bool :=
  if node =? FALSE_REF then Some false else if node =? TRUE_REF then Some true else None.

Definition bool_ref (value : bool) : N := if value then TRUE_REF else FALSE_REF.

Definition ordered_pair (a b : N) : N * N := if a <=? b then (a, b) else (b, a).

(** The arena slot of a node id; [raw] indexes it. *)
Definition node_at (ns : list RawNode) (node : N) : option RawNode :=
  if node <? 2 then None else ns !! N.to_nat (node - 2).

Definition raw (st : BddBuilder) (node : N) : result bdd_fault RawNode :=
  ok_or (node_at (nodes st) node) (IndexOutOfRange node).

Definition node_var_index (st : BddBuilder) (node : N) : result bdd_fault (option N) :=
  match terminal_value node with
  | Some _ => Ok None
  | None => r ← raw st node; Ok (Some (var_index r))
  end.

(** [self.nodes.len() as u32 + 2] is the next id; [NodeTableFull] where the
    addition leaves [u32]. *)
Definition mk_node (st : BddBuilder) (v l h : N) : result bdd_fault (N * BddBuilder) :=
  if l =? h then Ok (l, st)
  else
    match unique st !! (v, l, h) with
    | Some id => Ok (id, st)
    | None =>
        let id := N.of_nat (length (nodes st)) + 2 in
        if U32_MAX <? id then Err NodeTableFull
        else Ok (id, set_arena st (nodes st ++ [mkRaw v l h]) (<[(v, l, h) := id]> (unique st)))
    end.

Definition var (st : BddBuilder) (v : N) : result bdd_fault (N * BddBuilder) :=
  mk_node st v FALSE_REF TRUE_REF.

(** [insert] after the clear-when-full test, one per memo table. *)
Definition insert_not_memo (st : BddBuilder) (node out : N) : BddBuilder :=
  if memo_cap st <=? N.of_nat (size (not_memo st))
  then set_memos st {[node := out]} (and_memo st) (or_memo st)
         (bump_table (profile st) (size (not_memo st)) 0 0)
  else set_memos st (<[node := out]> (not_memo st)) (and_memo st) (or_memo st) (profile st).

(** The memo of [and] or of [or]. *)
Definition op_memo (is_and : bool) (st : BddBuilder) : gmap (N * N) N :=
  if is_and then and_memo st else or_memo st.

Definition set_op_memo (is_and : bool) (st : BddBuilder) (m : gmap (N * N) N)
    (p : BddProfile) : BddBuilder :=
  if is_and then set_memos st (not_memo st) m (or_memo st) p
  else set_memos st (not_memo st) (and_memo st) m p.

Definition insert_op_memo (is_and : bool) (st : BddBuilder) (k : N * N) (out : N) : BddBuilder :=
  let m := op_memo is_and st in
  if memo_cap st <=? N.of_nat (size m)
  then set_op_memo is_and st {[k := out]}
         (if is_and then bump_table (profile st) 0 (size m) 0
          else bump_table (profile st) 0 0 (size m))
  else set_op_memo is_and st (<[k := out]> m) (profile st).

Fixpoint not_fuel (fuel : nat) (st : BddBuilder) (node : N) : result bdd_fault (N * BddBuilder) :=
  match fuel with
  | O => Err NoFuel
  | S fuel =>
      if node =? FALSE_REF then Ok (TRUE_REF, st)
      else if node =? TRUE_REF then Ok (FALSE_REF, st)
      else
        match not_memo st !! node with
        | Some cached => Ok (cached, st)
        | None =>
            r ← raw st node;
            '(l, st) ← not_fuel fuel st (low r);
            '(h, st) ← not_fuel fuel st (high r);
            '(out, st) ← mk_node st (var_index r) l h;
            Ok (out, insert_not_memo st node out)
        end
  end.

Definition not (st : BddBuilder) (node : N) : result bdd_fault (N * BddBuilder) :=
  not_fuel (S (N.to_nat node)) st node.

Definition cofactor (st : BddBuilder) (node v : N) : result bdd_fault (N * N) :=
  nv ← node_var_index st node;
  if bool_decide (nv = Some v) then r ← raw st node; Ok (low r, high r)
  else Ok (node, node).

(** [apply], with the recursive [and]/[or] as the argument [self]. *)
Definition apply (self : BddBuilder → N → N → result bdd_fault (N * BddBuilder))
    (st : BddBuilder) (a b : N) (is_and : bool) : result bdd_fault (N * BddBuilder) :=
  match terminal_value a, terminal_value b with
  | Some av, Some bv => Ok (bool_ref (if is_and then av && bv else av || bv), st)
  | _, _ =>
      va ← node_var_index st a;
      vb ← node_var_index st b;
      top ← match va, vb with
            | Some x, Some y => Ok (N.min x y)
            | Some x, None | None, Some x => Ok x
            | None, None => Err Unreachable
            end;
      '(a_low, a_high) ← cofactor st a top;
      '(b_low, b_high) ← cofactor st b top;
      '(l, st) ← self st a_low b_low;
      '(h, st) ← self st a_high b_high;
      mk_node st top l h
  end.

(** [and] ([is_and]) and [or], which differ in their memo and in the flag
    they pass to [apply]. *)
Fixpoint op_fuel (is_and : bool) (fuel : nat) (st : BddBuilder) (a b : N)
    : result bdd_fault (N * BddBuilder) :=
  match fuel with
  | O => Err NoFuel
  | S fuel =>
      let '(a, b) := ordered_pair a b in
      match op_memo is_and st !! (a, b) with
      | Some cached => Ok (cached, st)
      | None =>
          '(out, st) ← apply (op_fuel is_and fuel) st a b is_and;
          Ok (out, insert_op_memo is_and st (a, b) out)
      end
  end.

Definition and (st : BddBuilder) (a b : N) : result bdd_fault (N * BddBuilder) :=
  op_fuel true (S (N.to_nat (a + b))) st a b.
Definition or (st : BddBuilder) (a b : N) : result bdd_fault (N * BddBuilder) :=
  op_fuel false (S (N.to_nat (a + b))) st a b.

(** ** Evaluation *)

(** [eval], for an assignment of the variables. *)
Fixpoint eval_fuel (fuel : nat) (ns : list RawNode) (node : N) (rho : N → bool) : bool :=
  match fuel with
  | O => false
  | S fuel =>
      match terminal_value node with
      | Some value => value
      | None =>
          match node_at ns node with
          | Some r => if rho (var_index r) then eval_fuel fuel ns (high r) rho
                      else eval_fuel fuel ns (low r) rho
          | None => false
          end
      end
  end.

Definition eval (ns : list RawNode) (node : N) (rho : N → bool) : bool :=
  eval_fuel (S (N.to_nat node)) ns node rho.

Example bdd_example :
  ('(x, st) ← var default_builder 0;
   '(y, st) ← var st 1;
   '(xy, st) ← and st x y;
   '(n, st) ← not st xy;
   '(r, st) ← or st n y;
   Ok (r, nodes st)) =
  Ok (1, [mkRaw 0 0 1; mkRaw 1 0 1; mkRaw 0 0 3; mkRaw 1 1 0; mkRaw 0 1 5]).
Proof. vm_compute. reflexivity. Qed.

(** ** The invariant *)

(** [id] is a terminal or an arena node. *)
Definition valid (ns : list RawNode) (id : N) : Prop := id < N.of_nat (length ns) + 2.

(** [id] is a terminal or its variable is at least [v]. *)
Definition above (ns : list RawNode) (v id : N) : Prop :=
  ∀ r, node_at ns id = Some r → v ≤ var_index r.

(** Reduced and ordered: the children of node [id] come before it, differ,
    and test later variables. *)
Record wf_node (ns : list RawNode) (id : N) (r : RawNode) : Prop := {
  wf_low : low r < id;
  wf_high : high r < id;
  wf_reduced : low r ≠ high r;
  wf_low_above : above ns (N.succ (var_index r)) (low r);
  wf_high_above : above ns (N.succ (var_index r)) (high r);
}.

Record wf_arena (ns : list RawNode) (u : gmap (N * N * N) N) : Prop := {
  wf_nodes : ∀ id r, node_at ns id = Some r → wf_node ns id r;
  wf_unique : ∀ v l h id, u !! (v, l, h) = Some id ↔ node_at ns id = Some (mkRaw v l h);
  wf_size : N.of_nat (length ns) + 1 ≤ U32_MAX;
}.

(** What a memo entry promises about its value. *)
Definition op_sem (is_and : bool) (x y : bool) : bool := if is_and then x && y else x || y.

Record is_not (ns : list RawNode) (node out : N) : Prop := {
  not_valid : valid ns out;
  not_eval : ∀ rho, eval ns out rho = negb (eval ns node rho);
  not_above : ∀ v, above ns v node → above ns v out;
}.

Record is_op (is_and : bool) (ns : list RawNode) (a b out : N) : Prop := {
  op_valid : valid ns out;
  op_eval : ∀ rho, eval ns out rho = op_sem is_and (eval ns a rho) (eval ns b rho);
  op_above : ∀ v, above ns v a → above ns v b → above ns v out;
}.

Record wf (st : BddBuilder) : Prop := {
  wf_ar : wf_arena (nodes st) (unique st);
  wf_not : ∀ n m, not_memo st !! n = Some m → valid (nodes st) n ∧ is_not (nodes st) n m;
  wf_op : ∀ is_and a b m, op_memo is_and st !! (a, b) = Some m →
    valid (nodes st) a ∧ valid (nodes st) b ∧ is_op is_and (nodes st) a b m;
}.

(** The arena only grows. *)
Definition extends (st st' : BddBuilder) : Prop := nodes st `prefix_of` nodes st'.

#[export] Instance extends_preorder : PreOrder extends.
Proof. split; [intros st; unfold extends; done|intros ? ? ?; unfold extends; by etransitivity]. Qed.

(** *** The arena *)

Lemma node_at_Some ns id r :
  node_at ns id = Some r → 2 ≤ id ∧ id < N.of_nat (length ns) + 2.
Proof.
  unfold node_at. destruct (N.ltb_spec id 2) as [|]; [done|].
  intros ?%lookup_lt_Some. lia.
Qed.

Lemma node_at_valid ns id : valid ns id → 2 ≤ id → ∃ r, node_at ns id = Some r.
Proof.
  unfold valid, node_at. intros Hv H2. destruct (N.ltb_spec id 2); [lia|].
  apply lookup_lt_is_Some. lia.
Qed.

Lemma node_at_terminal ns id : id < 2 → node_at ns id = None.
Proof. unfold node_at. intros H. by rewrite (proj2 (N.ltb_lt _ _) H). Qed.

Lemma node_at_prefix ns ns' id r :
  ns `prefix_of` ns' → node_at ns id = Some r → node_at ns' id = Some r.
Proof.
  unfold node_at. intros H. destruct (_ <? _); [done|]. intros Hr. by eapply prefix_lookup_Some.
Qed.

Lemma node_at_prefix_inv ns ns' id :
  ns `prefix_of` ns' → valid ns id → node_at ns' id = node_at ns id.
Proof.
  intros Hp Hv. destruct (N.ltb_spec id 2) as [H|H].
  - by rewrite !node_at_terminal.
  - destruct (node_at_valid ns id Hv H) as [r Hr]. by rewrite Hr, (node_at_prefix _ _ _ _ Hp Hr).
Qed.

Lemma terminal_value_None id : terminal_value id = None ↔ 2 ≤ id.
Proof.
  unfold terminal_value, FALSE_REF, TRUE_REF.
  destruct (N.eqb_spec id 0), (N.eqb_spec id 1); split; try done; lia.
Qed.

Lemma terminal_value_lt id : id < 2 → ∃ b, terminal_value id = Some b ∧ id = bool_ref b.
Proof.
  intros H. assert (id = 0 ∨ id = 1) as [-> | ->] by lia; [by exists false|by exists true].
Qed.

Lemma terminal_value_Some id b : terminal_value id = Some b → id = bool_ref b ∧ id < 2.
Proof.
  unfold terminal_value, FALSE_REF, TRUE_REF, bool_ref.
  destruct (N.eqb_spec id 0), (N.eqb_spec id 1); intros [= <-]; split; done || lia.
Qed.

Section Arena.
Context (ns : list RawNode).
Hypothesis Hwf : ∀ id r, node_at ns id = Some r → wf_node ns id r.

Lemma eval_fuel_enough fuel id rho :
  (N.to_nat id < fuel)%nat → eval_fuel fuel ns id rho = eval ns id rho.
Proof.
  unfold eval. remember (S (N.to_nat id)) as fuel' eqn:Ef.
  assert (H' : (N.to_nat id < fuel')%nat) by lia. clear Ef.
  revert id fuel' H'. induction fuel as [|fuel IH]; intros id [|fuel'] H' H; try lia. cbn.
  destruct (terminal_value id); [done|].
  destruct (node_at ns id) as [r|] eqn:E; [|done].
  pose proof (wf_low _ _ _ (Hwf _ _ E)). pose proof (wf_high _ _ _ (Hwf _ _ E)).
  destruct (rho _); apply IH; lia.
Qed.

Lemma eval_node id r rho :
  node_at ns id = Some r →
  eval ns id rho = if rho (var_index r) then eval ns (high r) rho else eval ns (low r) rho.
Proof.
  intros Hr. pose proof (node_at_Some _ _ _ Hr) as [H2 _].
  apply terminal_value_None in H2. unfold eval at 1. cbn. rewrite H2, Hr.
  pose proof (wf_low _ _ _ (Hwf _ _ Hr)). pose proof (wf_high _ _ _ (Hwf _ _ Hr)).
  destruct (rho _); apply eval_fuel_enough; lia.
Qed.
End Arena.

Lemma eval_terminal ns b rho : eval ns (bool_ref b) rho = b.
Proof. by destruct b. Qed.

(** Values of old nodes are unchanged in a larger arena. *)
Lemma eval_prefix ns ns' id rho :
  ns `prefix_of` ns' → (∀ id r, node_at ns id = Some r → wf_node ns id r) →
  valid ns id → eval ns' id rho = eval ns id rho.
Proof.
  intros Hp Hwf Hv. unfold eval. remember (S (N.to_nat id)) as fuel eqn:E. clear E.
  revert id Hv. induction fuel as [|fuel IH]; intros id Hv; cbn; [done|].
  destruct (terminal_value id); [done|]. rewrite (node_at_prefix_inv _ _ _ Hp Hv).
  destruct (node_at ns id) as [r|] eqn:E; [|done]. pose proof (Hwf _ _ E) as [Hl Hh _ _ _].
  unfold valid in *. destruct (rho _); apply IH; lia.
Qed.

Lemma above_prefix ns ns' v id :
  ns `prefix_of` ns' → valid ns id → above ns' v id ↔ above ns v id.
Proof. intros Hp Hv. unfold above. by rewrite (node_at_prefix_inv _ _ _ Hp Hv). Qed.

Lemma valid_prefix ns ns' id : ns `prefix_of` ns' → valid ns id → valid ns' id.
Proof. unfold valid. intros ?%prefix_length ?. lia. Qed.

Lemma above_terminal ns v b : above ns v (bool_ref b).
Proof. intros r. by destruct b. Qed.

Lemma above_weaken ns v v' id : v ≤ v' → above ns v' id → above ns v id.
Proof. intros H Ha r Hr. apply Ha in Hr. lia. Qed.

Lemma valid_terminal ns b : valid ns (bool_ref b).
Proof. unfold valid. destruct b; unfold bool_ref, TRUE_REF, FALSE_REF; lia. Qed.

Lemma wf_node_valid ns id r :
  valid ns id → wf_node ns id r → valid ns (low r) ∧ valid ns (high r).
Proof. unfold valid. intros Hv [? ? _ _ _]. lia. Qed.

Lemma is_not_prefix ns ns' n m :
  ns `prefix_of` ns' → (∀ id r, node_at ns id = Some r → wf_node ns id r) →
  valid ns n → is_not ns n m → is_not ns' n m.
Proof.
  intros Hp Hwf Hn [Hv He Ha]. split.
  - by eapply valid_prefix.
  - intros rho. by rewrite !(eval_prefix _ _ _ _ Hp Hwf).
  - intros v. rewrite !(above_prefix _ _ _ _ Hp) by done. apply Ha.
Qed.

Lemma is_op_prefix is_and ns ns' a b m :
  ns `prefix_of` ns' → (∀ id r, node_at ns id = Some r → wf_node ns id r) →
  valid ns a → valid ns b → is_op is_and ns a b m → is_op is_and ns' a b m.
Proof.
  intros Hp Hwf Hna Hnb [Hv He Ha]. split.
  - by eapply valid_prefix.
  - intros rho. by rewrite !(eval_prefix _ _ _ _ Hp Hwf).
  - intros v. rewrite !(above_prefix _ _ _ _ Hp) by done. apply Ha.
Qed.
#[export] Hint Resolve valid_prefix valid_terminal above_terminal : cfx.

(** *** [mk_node] *)

Lemma node_at_snoc ns r id :
  node_at (ns ++ [r]) id =
  if decide (id = N.of_nat (length ns) + 2) then Some r else node_at ns id.
Proof.
  unfold node_at. case_decide as H.
  - destruct (N.ltb_spec id 2); [lia|].
    replace (N.to_nat (id - 2)) with (length ns) by lia. by apply list_lookup_middle.
  - destruct (N.ltb_spec id 2); [done|].
    destruct (decide (N.to_nat (id - 2) < length ns)%nat).
    + by apply lookup_app_l.
    + rewrite lookup_ge_None_2 by (rewrite length_app; cbn; lia).
      by rewrite lookup_ge_None_2 by lia.
Qed.

Lemma wf_node_prefix ns ns' id r :
  ns `prefix_of` ns' → valid ns (low r) → valid ns (high r) → wf_node ns id r → wf_node ns' id r.
Proof. intros Hp Hl Hh [? ? ? ? ?]. split; try done; by rewrite (above_prefix _ _ _ _ Hp). Qed.

Lemma wf_arena_snoc ns u v l h :
  wf_arena ns u → valid ns l → valid ns h → l ≠ h →
  above ns (N.succ v) l → above ns (N.succ v) h → u !! (v, l, h) = None →
  N.of_nat (length ns) + 2 ≤ U32_MAX →
  wf_arena (ns ++ [mkRaw v l h]) (<[(v, l, h) := N.of_nat (length ns) + 2]> u).
Proof.
  intros [Hn Hu _] Hl Hh Hne Hla Hha Hnone Hsz.
  assert (Hp : ns `prefix_of` ns ++ [mkRaw v l h]) by apply prefix_app_r, reflexivity.
  split.
  - intros id r. rewrite node_at_snoc. case_decide as Hid.
    + intros [= <-]. split; cbn; unfold valid in *; try (lia || done);
        by rewrite (above_prefix _ _ _ _ Hp).
    + intros Hr. pose proof (Hn _ _ Hr) as Hw. apply node_at_Some in Hr as [_ Hv].
      destruct (wf_node_valid _ _ _ Hv Hw). by eapply wf_node_prefix.
  - intros v' l' h' id. rewrite node_at_snoc. case_decide as Hid.
    + subst id. split.
      * destruct (decide ((v, l, h) = (v', l', h'))) as [[= -> -> ->]|Hk]; [done|].
        rewrite lookup_insert_ne by done. rewrite Hu. intros [_ ?]%node_at_Some. lia.
      * intros [= -> -> ->]. apply lookup_insert_eq.
    + rewrite <-Hu. destruct (decide ((v, l, h) = (v', l', h'))) as [[= -> -> ->]|Hk].
      * rewrite lookup_insert_eq, Hnone. split; [|done]. by intros [= <-].
      * by rewrite lookup_insert_ne.
  - rewrite length_app. cbn. lia.
Qed.

Lemma wf_set_arena st ns u :
  wf st → nodes st `prefix_of` ns → wf_arena ns u → wf (set_arena st ns u).
Proof.
  intros [[Hn _ _] Hnot Hop] Hp Hu. split; cbn; [done| |].
  - intros n m H. destruct (Hnot _ _ H).
    split; [by eapply valid_prefix|by eapply is_not_prefix].
  - intros is_and a b m H. destruct (Hop is_and a b m H) as (? & ? & ?).
    split_and!; [by eapply valid_prefix..|by eapply is_op_prefix].
Qed.

(** The outcome of an operation: a state that extends the old one and an id
    with the promised property, or a full table. *)
Definition yields (st : BddBuilder) (m : result bdd_fault (N * BddBuilder))
    (Q : list RawNode → N → Prop) : Prop :=
  match m with
  | Ok (id, st') => wf st' ∧ extends st st' ∧ Q (nodes st') id
  | Err e => e = NodeTableFull
  end.

(** [id] tests [v] and continues with [h] or [l]. *)
Record is_ite (ns : list RawNode) (v l h id : N) : Prop := {
  ite_valid : valid ns id;
  ite_eval : ∀ rho, eval ns id rho = if rho v then eval ns h rho else eval ns l rho;
  ite_above : above ns v id;
}.

Lemma mk_node_spec st v l h :
  wf st → valid (nodes st) l → valid (nodes st) h →
  above (nodes st) (N.succ v) l → above (nodes st) (N.succ v) h →
  yields st (mk_node st v l h) (λ ns id, is_ite ns v l h id).
Proof.
  intros Hw Hl Hh Hla Hha. pose proof (wf_ar _ Hw) as Har. pose proof Har as [Hn Hu Hs].
  unfold mk_node. destruct (N.eqb_spec l h) as [->|Hne].
  { split; [done|]. split; [reflexivity|]. split; [done| |].
    - intros rho. by destruct (rho v).
    - eapply above_weaken; [|done]. lia. }
  destruct (unique st !! (v, l, h)) as [id|] eqn:E.
  { apply Hu in E. split; [done|]. split; [reflexivity|]. split.
    - apply node_at_Some in E. unfold valid. lia.
    - intros rho. by rewrite (eval_node _ Hn _ _ _ E).
    - intros r Hr. rewrite E in Hr. injection Hr as <-. cbn. lia. }
  destruct (N.ltb_spec U32_MAX (N.of_nat (length (nodes st)) + 2)) as [|Hsz]; [done|].
  assert (Hp : nodes st `prefix_of` nodes st ++ [mkRaw v l h]) by apply prefix_app_r, reflexivity.
  assert (Har' := wf_arena_snoc _ _ _ _ _ Har Hl Hh Hne Hla Hha E Hsz).
  split; [by apply wf_set_arena|]. split; [done|]. cbn [nodes set_arena].
  assert (Hid : node_at (nodes st ++ [mkRaw v l h]) (N.of_nat (length (nodes st)) + 2) =
                Some (mkRaw v l h)).
  { rewrite node_at_snoc. by rewrite decide_True. }
  split.
  - unfold valid. rewrite length_app. cbn. lia.
  - intros rho. by rewrite (eval_node _ (wf_nodes _ _ Har') _ _ _ Hid).
  - intros r Hr. rewrite Hid in Hr. injection Hr as <-. cbn. lia.
Qed.

Lemma yields_bind st m k Q R :
  yields st m Q →
  (∀ id st', wf st' → extends st st' → Q (nodes st') id →
     yields st' (k (id, st')) R) →
  yields st (m ≫= k) R.
Proof.
  unfold yields, extends. destruct m as [[id st']|e]; cbn; [|done].
  intros (Hw & Hx & HQ) Hk. specialize (Hk id st' Hw Hx HQ).
  destruct (k (id, st')) as [[id' st'']|e]; [|done].
  destruct Hk as (? & ? & ?). split_and!; [done| |done]. by etransitivity.
Qed.

(** *** Memo insertion *)

Lemma nodes_insert_not st n m : nodes (insert_not_memo st n m) = nodes st.
Proof. unfold insert_not_memo. by destruct (_ <=? _). Qed.
Lemma nodes_insert_op is_and st k m : nodes (insert_op_memo is_and st k m) = nodes st.
Proof. unfold insert_op_memo. destruct (_ <=? _), is_and; done. Qed.

Lemma wf_insert_not st n m :
  wf st → valid (nodes st) n → is_not (nodes st) n m → wf (insert_not_memo st n m).
Proof.
  intros [Har Hnot Hop] Hv Hm.
  assert (Hin : ∀ memo n' m', (∀ n m, memo !! n = Some m → valid (nodes st) n ∧ is_not (nodes st) n m) →
    (<[n := m]> memo : gmap N N) !! n' = Some m' → valid (nodes st) n' ∧ is_not (nodes st) n' m').
  { intros memo n' m' Hmemo [[<- <-]|[_ H]]%lookup_insert_Some; eauto. }
  unfold insert_not_memo. destruct (_ <=? _); (split; cbn; [done| |]); intros *.
  - apply Hin. by intros ? ?; rewrite lookup_empty.
  - apply (Hop is_and).
  - by apply Hin.
  - apply (Hop is_and).
Qed.

Lemma wf_insert_op is_and st a b m :
  wf st → valid (nodes st) a → valid (nodes st) b → is_op is_and (nodes st) a b m →
  wf (insert_op_memo is_and st (a, b) m).
Proof.
  intros [Har Hnot Hop] Ha Hb Hm.
  assert (Hin : ∀ memo a' b' m', (∀ a b m, memo !! (a, b) = Some m →
      valid (nodes st) a ∧ valid (nodes st) b ∧ is_op is_and (nodes st) a b m) →
    (<[(a, b) := m]> memo : gmap (N * N) N) !! (a', b') = Some m' →
    valid (nodes st) a' ∧ valid (nodes st) b' ∧ is_op is_and (nodes st) a' b' m').
  { intros memo a' b' m' Hmemo [[[= <- <-] <-]|[_ H]]%lookup_insert_Some; eauto. }
  unfold insert_op_memo. pose proof (Hop is_and) as Hop1. pose proof (Hop (negb is_and)) as Hop2.
  destruct (_ <=? _), is_and; (split; cbn; [done|done|]); intros [] a' b' m'; cbn; auto;
    apply Hin; auto; by intros ? ? ?; rewrite lookup_empty.
Qed.

(** *** [not] *)

Lemma not_fuel_spec fuel st node :
  wf st → valid (nodes st) node → (N.to_nat node < fuel)%nat →
  yields st (not_fuel fuel st node) (λ ns m, is_not ns node m).
Proof.
  revert st node. induction fuel as [|fuel IH]; intros st node Hw Hv Hf; [lia|]. cbn [not_fuel].
  unfold FALSE_REF at 1. destruct (N.eqb_spec node 0) as [->|H0].
  { split; [done|]. split; [reflexivity|]. split; [apply (valid_terminal _ true)|done|].
    intros v _. apply (above_terminal _ _ true). }
  unfold TRUE_REF at 1. destruct (N.eqb_spec node 1) as [->|H1].
  { split; [done|]. split; [reflexivity|]. split; [apply (valid_terminal _ false)|done|].
    intros v _. apply (above_terminal _ _ false). }
  destruct (not_memo st !! node) as [m|] eqn:Em.
  { apply (wf_not _ Hw) in Em as [_ Em]. split; [done|]. split; [reflexivity|done]. }
  destruct (node_at_valid _ _ Hv ltac:(lia)) as [r Hr]. unfold raw. rewrite Hr. cbn [ok_or].
  pose proof (wf_nodes _ _ (wf_ar _ Hw)) as Hn. pose proof (Hn _ _ Hr) as Hwn.
  destruct (wf_node_valid _ _ _ Hv Hwn) as [Hvl Hvh]. destruct Hwn as [Hl Hh _ Hal Hah].
  change (Ok r ≫= ?k) with (k r). cbn beta.
  eapply yields_bind; [apply IH; [done|done|lia]|]. intros l st1 Hw1 Hx1 Hnl. cbn beta iota.
  eapply yields_bind; [apply IH; [done|by eapply valid_prefix|lia]|].
  intros h st2 Hw2 Hx2 Hnh. cbn beta iota.
  assert (Hx : extends st st2) by (by etransitivity).
  apply (is_not_prefix _ _ _ _ Hx2) in Hnl;
    [|apply (wf_nodes _ _ (wf_ar _ Hw1))|by eapply valid_prefix].
  eapply yields_bind; [apply mk_node_spec; [done|apply Hnl|apply Hnh|apply Hnl|apply Hnh]|].
  1, 2: by apply (above_prefix _ _ _ _ Hx).
  intros out st3 Hw3 Hx3 [Hov Hoe Hoa]. cbn [yields].
  assert (Hx' : extends st st3) by (by etransitivity). unfold extends.
  rewrite nodes_insert_not.
  assert (Hout : is_not (nodes st3) node out).
  { split; [done| |].
    - intros rho. rewrite Hoe, (eval_prefix _ _ node _ Hx' Hn Hv), (eval_node _ Hn _ _ _ Hr).
      pose proof (wf_nodes _ _ (wf_ar _ Hw2)) as Hn2.
      rewrite !(eval_prefix _ _ _ rho Hx3 Hn2) by (apply Hnl || apply Hnh).
      rewrite (not_eval _ _ _ Hnl), (not_eval _ _ _ Hnh).
      rewrite !(eval_prefix _ _ _ rho Hx Hn) by done. by destruct (rho _).
    - intros v Ha. apply (above_prefix _ _ _ _ Hx' Hv) in Ha.
      eapply above_weaken, Hoa. by apply Ha. }
  split; [|done]. apply wf_insert_not; [done|by eapply valid_prefix|done].
Qed.

(** *** [and] and [or] *)

Lemma op_sem_comm is_and x y : op_sem is_and x y = op_sem is_and y x.
Proof. by destruct is_and, x, y. Qed.

Lemma is_op_comm is_and ns a b m : is_op is_and ns a b m → is_op is_and ns b a m.
Proof.
  intros [Hv He Ha]. split; [done| |eauto]. intros rho. by rewrite He, op_sem_comm.
Qed.

(** The cofactors of [node] by a variable no later than its own. *)
Record is_cofactor (ns : list RawNode) (node v l h : N) : Prop := {
  cof_low_valid : valid ns l;
  cof_high_valid : valid ns h;
  cof_low_above : above ns (N.succ v) l;
  cof_high_above : above ns (N.succ v) h;
  cof_eval : ∀ rho, eval ns node rho = if rho v then eval ns h rho else eval ns l rho;
  cof_le : l ≤ node ∧ h ≤ node;
}.

Lemma node_var_index_spec st node :
  valid (nodes st) node → node_var_index st node = Ok (var_index <$> node_at (nodes st) node).
Proof.
  intros Hv. unfold node_var_index, raw. destruct (terminal_value node) as [b|] eqn:E.
  - apply terminal_value_Some in E as [_ E]. by rewrite node_at_terminal.
  - apply terminal_value_None in E. destruct (node_at_valid _ _ Hv E) as [r ->]. done.
Qed.

Lemma cofactor_spec st node v :
  wf st → valid (nodes st) node → above (nodes st) v node →
  ∃ l h, cofactor st node v = Ok (l, h) ∧ is_cofactor (nodes st) node v l h ∧
    (var_index <$> node_at (nodes st) node = Some v → l < node ∧ h < node).
Proof.
  intros Hw Hv Ha. pose proof (wf_nodes _ _ (wf_ar _ Hw)) as Hn. unfold cofactor.
  rewrite node_var_index_spec by done. cbn. case_bool_decide as Hd.
  - unfold raw. destruct (node_at (nodes st) node) as [r|] eqn:Hr; [|done].
    cbn in Hd. injection Hd as <-. cbn. pose proof (Hn _ _ Hr) as Hwn.
    destruct (wf_node_valid _ _ _ Hv Hwn), Hwn as [Hl Hh _ Hla Hha].
    eexists _, _. split; [done|]. split; [|done].
    split; try done; [|lia]. intros rho. by apply eval_node.
  - eexists _, _. split; [done|]. split; [|done].
    assert (above (nodes st) (N.succ v) node).
    { intros r Hr. rewrite Hr in Hd. cbn in Hd. specialize (Ha r Hr).
      assert (var_index r ≠ v) by congruence. lia. }
    split; try done. intros rho. by destruct (rho v).
Qed.

Lemma is_cofactor_prefix ns ns' node v l h :
  ns `prefix_of` ns' → (∀ id r, node_at ns id = Some r → wf_node ns id r) →
  valid ns node → is_cofactor ns node v l h → is_cofactor ns' node v l h.
Proof.
  intros Hp Hn Hv [? ? ? ? He ?]. split; eauto using valid_prefix.
  - by apply (above_prefix _ _ _ _ Hp).
  - by apply (above_prefix _ _ _ _ Hp).
  - intros rho. by rewrite !(eval_prefix _ _ _ rho Hp Hn).
Qed.

(** The Shannon expansion of an operation by the top variable. *)
Lemma shannon_op is_and ns a b v al ah bl bh l h out :
  is_cofactor ns a v al ah → is_cofactor ns b v bl bh →
  is_op is_and ns al bl l → is_op is_and ns ah bh h → is_ite ns v l h out →
  (∀ w, above ns w a → above ns w b → w ≤ v) → is_op is_and ns a b out.
Proof.
  intros Ca Cb Hl Hh [Hv He Ha] Htop. split; [done| |].
  - intros rho. rewrite He, (cof_eval _ _ _ _ _ Ca), (cof_eval _ _ _ _ _ Cb).
    rewrite (op_eval _ _ _ _ _ Hl), (op_eval _ _ _ _ _ Hh). by destruct (rho v).
  - intros w Hwa Hwb. eapply above_weaken, Ha. by apply Htop.
Qed.

Definition top_var (va vb : option N) : result bdd_fault N :=
  match va, vb with
  | Some x, Some y => Ok (N.min x y)
  | Some x, None | None, Some x => Ok x
  | None, None => Err Unreachable
  end.

Lemma top_var_spec ns a b :
  is_Some (node_at ns a) ∨ is_Some (node_at ns b) →
  ∃ v, top_var (var_index <$> node_at ns a) (var_index <$> node_at ns b) = Ok v ∧
    above ns v a ∧ above ns v b ∧
    (var_index <$> node_at ns a = Some v ∨ var_index <$> node_at ns b = Some v).
Proof.
  unfold above, top_var.
  destruct (node_at ns a) as [ra|], (node_at ns b) as [rb|]; cbn; intros [[? ?]|[? ?]]; try done;
    (eexists; split; [done|]; split_and!; [intros r ?; simplify_eq; lia..|]); auto.
  all: destruct (N.min_spec (var_index ra) (var_index rb)) as [[_ ->]|[_ ->]]; auto.
Qed.

Section Apply.
Context (is_and : bool) (self : BddBuilder → N → N → result bdd_fault (N * BddBuilder)).
Context (n : nat).
Hypothesis Hself : ∀ st a b, wf st → valid (nodes st) a → valid (nodes st) b →
  (N.to_nat (a + b) < n)%nat → yields st (self st a b) (λ ns m, is_op is_and ns a b m).

(** The recursive case of [apply], once the top variable is known. *)
Lemma apply_at_spec st a b v :
  wf st → valid (nodes st) a → valid (nodes st) b → (N.to_nat (a + b) ≤ n)%nat →
  above (nodes st) v a → above (nodes st) v b →
  (var_index <$> node_at (nodes st) a = Some v ∨ var_index <$> node_at (nodes st) b = Some v) →
  yields st
    ('(a_low, a_high) ← cofactor st a v;
     '(b_low, b_high) ← cofactor st b v;
     '(l, st) ← self st a_low b_low;
     '(h, st) ← self st a_high b_high;
     mk_node st v l h) (λ ns m, is_op is_and ns a b m).
Proof.
  intros Hw Ha Hb Hn Hva Hvb Hv. pose proof (wf_nodes _ _ (wf_ar _ Hw)) as Hns.
  destruct (cofactor_spec st a v Hw Ha Hva) as (al & ah & Eal & Ca & Hla).
  destruct (cofactor_spec st b v Hw Hb Hvb) as (bl & bh & Ebl & Cb & Hlb).
  rewrite Eal, Ebl. change (Ok ?x ≫= ?k) with (k x). cbn beta iota.
  pose proof (cof_le _ _ _ _ _ Ca) as [? ?]. pose proof (cof_le _ _ _ _ _ Cb) as [? ?].
  assert (al + bl < a + b ∧ ah + bh < a + b) as [Hsl Hsh].
  { destruct Hv as [Hv|Hv]; [apply Hla in Hv|apply Hlb in Hv]; lia. }
  eapply yields_bind; [apply Hself; [done|apply Ca|apply Cb|lia]|].
  intros l st1 Hw1 Hx1 Hl. cbn beta iota.
  pose proof (wf_nodes _ _ (wf_ar _ Hw1)) as Hns1.
  apply (is_cofactor_prefix _ _ _ _ _ _ Hx1 Hns Ha) in Ca.
  apply (is_cofactor_prefix _ _ _ _ _ _ Hx1 Hns Hb) in Cb.
  eapply yields_bind; [apply Hself; [done|apply Ca|apply Cb|lia]|].
  intros h st2 Hw2 Hx2 Hh. cbn beta iota.
  assert (Hx : extends st st2) by (by etransitivity).
  assert (valid (nodes st1) a ∧ valid (nodes st1) b) as [Ha1 Hb1] by (eauto using valid_prefix).
  eapply is_op_prefix in Hl; [|done|done|apply Ca|apply Cb].
  apply (is_cofactor_prefix _ _ _ _ _ _ Hx2 Hns1 Ha1) in Ca.
  apply (is_cofactor_prefix _ _ _ _ _ _ Hx2 Hns1 Hb1) in Cb.
  assert (Hm := mk_node_spec st2 v l h Hw2 (op_valid _ _ _ _ _ Hl) (op_valid _ _ _ _ _ Hh)
    (op_above _ _ _ _ _ Hl _ (cof_low_above _ _ _ _ _ Ca) (cof_low_above _ _ _ _ _ Cb))
    (op_above _ _ _ _ _ Hh _ (cof_high_above _ _ _ _ _ Ca) (cof_high_above _ _ _ _ _ Cb))).
  destruct (mk_node st2 v l h) as [[out st3]|e]; [|done]. cbn in *.
  destruct Hm as (Hw3 & Hx3 & Hite). split_and!; [done|done|].
  pose proof (wf_nodes _ _ (wf_ar _ Hw2)) as Hns2.
  assert (valid (nodes st2) a ∧ valid (nodes st2) b) as [Ha2 Hb2] by (eauto using valid_prefix).
  eapply (shannon_op is_and _ a b v al ah bl bh l h out);
    [by eapply is_cofactor_prefix|by eapply is_cofactor_prefix| | |done|].
  - eapply is_op_prefix; [done|done|apply Ca|apply Cb|done].
  - eapply is_op_prefix; [done|done|apply Ca|apply Cb|done].
  - intros w Hwa Hwb. assert (Hx' : extends st st3) by (by etransitivity).
    rewrite (above_prefix _ _ _ _ Hx') in Hwa by done.
    rewrite (above_prefix _ _ _ _ Hx') in Hwb by done.
    destruct Hv as [Hv|Hv]; apply fmap_Some in Hv as (r & Hr & ->); eauto.
Qed.

Lemma apply_spec st a b :
  wf st → valid (nodes st) a → valid (nodes st) b → (N.to_nat (a + b) ≤ n)%nat →
  yields st (apply self st a b is_and) (λ ns m, is_op is_and ns a b m).
Proof.
  intros Hw Ha Hb Hn. unfold apply. rewrite !node_var_index_spec by done.
  assert (Hrec : is_Some (node_at (nodes st) a) ∨ is_Some (node_at (nodes st) b) → yields st
    (top ← top_var (var_index <$> node_at (nodes st) a) (var_index <$> node_at (nodes st) b);
     '(a_low, a_high) ← cofactor st a top;
     '(b_low, b_high) ← cofactor st b top;
     '(l, st) ← self st a_low b_low;
     '(h, st) ← self st a_high b_high;
     mk_node st top l h) (λ ns m, is_op is_and ns a b m)).
  { intros Hnt. destruct (top_var_spec _ _ _ Hnt) as (v & -> & Hva & Hvb & Hv).
    by apply apply_at_spec. }
  assert (Hnode : ∀ id, valid (nodes st) id → terminal_value id = None →
    is_Some (node_at (nodes st) id)).
  { intros id Hid Ht%terminal_value_None. by apply node_at_valid. }
  destruct (terminal_value a) as [x|] eqn:Ea; [|by apply Hrec; left; apply Hnode].
  destruct (terminal_value b) as [y|] eqn:Eb; [|by apply Hrec; right; apply Hnode].
  apply terminal_value_Some in Ea as [-> _], Eb as [-> _].
  split; [done|]. split; [reflexivity|].
  split; [apply valid_terminal| |intros; apply above_terminal].
  intros rho. by rewrite !eval_terminal.
Qed.
End Apply.

Lemma op_fuel_spec is_and fuel st a b :
  wf st → valid (nodes st) a → valid (nodes st) b → (N.to_nat (a + b) < fuel)%nat →
  yields st (op_fuel is_and fuel st a b) (λ ns m, is_op is_and ns a b m).
Proof.
  revert st a b. induction fuel as [|fuel IH]; intros st a b Hw Ha Hb Hf; [lia|].
  cbn [op_fuel].
  assert (Hord : ∀ x y, valid (nodes st) x → valid (nodes st) y → (N.to_nat (x + y) < S fuel)%nat →
    yields st
      (match op_memo is_and st !! (x, y) with
       | Some cached => Ok (cached, st)
       | None =>
           '(out, st) ← apply (op_fuel is_and fuel) st x y is_and;
           Ok (out, insert_op_memo is_and st (x, y) out)
       end) (λ ns m, is_op is_and ns x y m)).
  { intros x y Hx Hy Hxy. destruct (op_memo is_and st !! (x, y)) as [m|] eqn:Em.
    - apply (wf_op _ Hw) in Em as (_ & _ & Em). split; [done|]. split; [reflexivity|done].
    - eapply yields_bind; [apply (apply_spec _ _ fuel); [done|done|done|done|lia]|].
      intros out st' Hw' Hx' Hop. cbn [yields]. unfold extends. rewrite nodes_insert_op.
      split; [|done]. apply wf_insert_op; [done|by eapply valid_prefix..|done]. }
  unfold ordered_pair. destruct (a <=? b); [by apply Hord|].
  specialize (Hord b a Hb Ha ltac:(lia)). unfold yields in *.
  destruct (match op_memo is_and st !! (b, a) with Some _ => _ | None => _ end) as [[m st']|e];
    [|done].
  destruct Hord as (? & ? & ?). split_and!; [done|done|]. by apply is_op_comm.
Qed.

(** ** Canonicity *)

(** Evaluation ignores the variables before the node's own. *)
Lemma eval_above ns id v rho rho' :
  (∀ id r, node_at ns id = Some r → wf_node ns id r) →
  above ns v id → (∀ w, v ≤ w → rho w = rho' w) → eval ns id rho = eval ns id rho'.
Proof.
  intros Hn Ha Hr. revert Ha. induction (N.lt_wf_0 id) as [id _ IH]. intros Ha.
  destruct (node_at ns id) as [r|] eqn:E.
  - rewrite !(eval_node ns Hn _ _ _ E). pose proof (Hn _ _ E) as [Hl Hh _ Hla Hha].
    pose proof (Ha r E). rewrite (Hr (var_index r)) by done.
    destruct (rho' _); apply IH; try done; (eapply above_weaken; [|done]; lia).
  - unfold eval. cbn. rewrite E. by destruct (terminal_value id).
Qed.

(** The same tree in two arenas. *)
Inductive iso (ns1 ns2 : list RawNode) : N → N → Prop :=
  | iso_terminal b : iso ns1 ns2 (bool_ref b) (bool_ref b)
  | iso_node a b r1 r2 :
      node_at ns1 a = Some r1 → node_at ns2 b = Some r2 → var_index r1 = var_index r2 →
      iso ns1 ns2 (low r1) (low r2) → iso ns1 ns2 (high r1) (high r2) → iso ns1 ns2 a b.

(** Within one arena hash-consing makes equal trees the same id. *)
Lemma iso_eq ns u a b : wf_arena ns u → iso ns ns a b → a = b.
Proof.
  intros Hw. induction 1 as [|a b [v1 l1 h1] [v2 l2 h2] H1 H2 Hv _ IHl _ IHh]; [done|].
  cbn in *. subst. apply (wf_unique _ _ Hw) in H1, H2. congruence.
Qed.

Lemma iso_eval ns1 ns2 a b rho :
  (∀ id r, node_at ns1 id = Some r → wf_node ns1 id r) →
  (∀ id r, node_at ns2 id = Some r → wf_node ns2 id r) →
  iso ns1 ns2 a b → eval ns1 a rho = eval ns2 b rho.
Proof.
  intros Hn1 Hn2. induction 1 as [x|a b r1 r2 H1 H2 Hv _ IHl _ IHh].
  - by rewrite !eval_terminal.
  - by rewrite (eval_node ns1 Hn1 _ _ _ H1), (eval_node ns2 Hn2 _ _ _ H2), Hv, IHl, IHh.
Qed.

Lemma iso_sym ns1 ns2 a b : iso ns1 ns2 a b → iso ns2 ns1 b a.
Proof. induction 1; [constructor|]. by econstructor. Qed.

(** Set one variable. *)
Definition upd (rho : N → bool) (v : N) (x : bool) : N → bool :=
  λ w, if w =? v then x else rho w.

(** The branch of a node, as a function of the variables after its own. *)
Lemma eval_branch ns id r rho x :
  (∀ id r, node_at ns id = Some r → wf_node ns id r) → node_at ns id = Some r →
  eval ns id (upd rho (var_index r) x) =
  eval ns (if x then high r else low r) rho.
Proof.
  intros Hn Hr. rewrite (eval_node ns Hn _ _ _ Hr). unfold upd at 1. rewrite N.eqb_refl.
  pose proof (Hn _ _ Hr) as [_ _ _ Hla Hha].
  destruct x; (eapply eval_above; [done|done|]); intros w Hw; unfold upd;
    destruct (N.eqb_spec w (var_index r)); done || lia.
Qed.

(** A node whose function ignores its variable would not be reduced. *)
Lemma branches_differ ns u id r :
  wf_arena ns u → node_at ns id = Some r →
  (∀ a b, a < id → b < id → (∀ rho, eval ns a rho = eval ns b rho) → iso ns ns a b) →
  ¬ ∀ rho x, eval ns id (upd rho (var_index r) x) = eval ns id rho.
Proof.
  intros Hw Hr IH H. pose proof (wf_nodes _ _ Hw) as Hn.
  pose proof (Hn _ _ Hr) as [Hl Hh Hne _ _]. apply Hne, (iso_eq ns u); [done|].
  apply IH; [done|done|]. intros rho.
  rewrite <-(eval_branch ns id r rho false Hn Hr), <-(eval_branch ns id r rho true Hn Hr).
  by rewrite !H.
Qed.

Lemma eval_ignores ns id v rho x :
  (∀ id r, node_at ns id = Some r → wf_node ns id r) → above ns (N.succ v) id →
  eval ns id (upd rho v x) = eval ns id rho.
Proof.
  intros Hn Ha. eapply eval_above; [done|done|]. intros w Hw. unfold upd.
  destruct (N.eqb_spec w v); done || lia.
Qed.

(** Equal functions are equal trees. *)
Lemma eval_iso n : ∀ ns1 u1 ns2 u2 a b,
  N.max a b < n → wf_arena ns1 u1 → wf_arena ns2 u2 → valid ns1 a → valid ns2 b →
  (∀ rho, eval ns1 a rho = eval ns2 b rho) → iso ns1 ns2 a b.
Proof.
  induction (N.lt_wf_0 n) as [n _ IHn]. intros ns1 u1 ns2 u2 a b Hm Hw1 Hw2 Ha Hb He.
  pose proof (wf_nodes _ _ Hw1) as Hn1. pose proof (wf_nodes _ _ Hw2) as Hn2.
  assert (Hself1 : ∀ x y, x < a → y < a → (∀ rho, eval ns1 x rho = eval ns1 y rho) → iso ns1 ns1 x y).
  { intros x y Hx Hy Hxy. unfold valid in *.
    apply (IHn (N.succ (N.max x y)) ltac:(lia) ns1 u1 ns1 u1); unfold valid; done || lia. }
  assert (Hself2 : ∀ x y, x < b → y < b → (∀ rho, eval ns2 x rho = eval ns2 y rho) → iso ns2 ns2 x y).
  { intros x y Hx Hy Hxy. unfold valid in *.
    apply (IHn (N.succ (N.max x y)) ltac:(lia) ns2 u2 ns2 u2); unfold valid; done || lia. }
  destruct (node_at ns1 a) as [r1|] eqn:E1, (node_at ns2 b) as [r2|] eqn:E2.
  - destruct (N.lt_trichotomy (var_index r1) (var_index r2)) as [Hlt|[Heq|Hgt]].
    + exfalso. eapply (branches_differ ns1 u1 a r1 Hw1 E1 Hself1). intros rho x. rewrite !He.
      apply eval_ignores; [done|]. intros r Hr. rewrite E2 in Hr. injection Hr as <-. lia.
    + econstructor; [done|done|done| |].
      all: pose proof (Hn1 _ _ E1) as [? ? _ _ _]; pose proof (Hn2 _ _ E2) as [? ? _ _ _].
      * apply (IHn (N.succ (N.max (low r1) (low r2))) ltac:(lia) ns1 u1 ns2 u2);
          unfold valid in *; try done || lia.
        intros rho. rewrite <-(eval_branch ns1 a r1 rho false Hn1 E1).
        rewrite <-(eval_branch ns2 b r2 rho false Hn2 E2), He. by rewrite Heq.
      * apply (IHn (N.succ (N.max (high r1) (high r2))) ltac:(lia) ns1 u1 ns2 u2);
          unfold valid in *; try done || lia.
        intros rho. rewrite <-(eval_branch ns1 a r1 rho true Hn1 E1).
        rewrite <-(eval_branch ns2 b r2 rho true Hn2 E2), He. by rewrite Heq.
    + exfalso. eapply (branches_differ ns2 u2 b r2 Hw2 E2 Hself2). intros rho x. rewrite <-!He.
      apply eval_ignores; [done|]. intros r Hr. rewrite E1 in Hr. injection Hr as <-. lia.
  - exfalso. eapply (branches_differ ns1 u1 a r1 Hw1 E1 Hself1). intros rho x. rewrite !He.
    apply eval_ignores; [done|]. intros r Hr. congruence.
  - exfalso. eapply (branches_differ ns2 u2 b r2 Hw2 E2 Hself2). intros rho x. rewrite <-!He.
    apply eval_ignores; [done|]. intros r Hr. congruence.
  - assert (Ht : ∀ ns id, valid ns id → node_at ns id = None → ∃ x, id = bool_ref x).
    { intros ns id Hv Hnone. destruct (N.ltb_spec id 2) as [H|H].
      - apply terminal_value_lt in H as (x & _ & ->). eauto.
      - destruct (node_at_valid _ _ Hv H). congruence. }
    destruct (Ht _ _ Ha E1) as [x ->], (Ht _ _ Hb E2) as [y ->].
    specialize (He (λ _, false)). rewrite !eval_terminal in He. subst. constructor.
Qed.

(** ** The variables in use *)

Definition vars_below (n : N) (ns : list RawNode) : Prop :=
  ∀ id r, node_at ns id = Some r → var_index r < n.

Section VarsBelow.
Context (n : N).

Lemma mk_node_vars st v l h id st' :
  vars_below n (nodes st) → v < n → mk_node st v l h = Ok (id, st') → vars_below n (nodes st').
Proof.
  unfold mk_node. intros Hb Hv H. destruct (l =? h); [by inv_ok|].
  destruct (unique st !! _); [by inv_ok|]. destruct (_ <? _); inv_ok.
  intros id r. cbn. rewrite node_at_snoc. case_decide; [by intros [= <-]|apply Hb].
Qed.

Lemma raw_vars st id r : vars_below n (nodes st) → raw st id = Ok r → var_index r < n.
Proof.
  unfold raw. intros Hb H. destruct (node_at _ _) eqn:E; cbn in H; inv_ok. by eapply Hb.
Qed.

Lemma not_fuel_vars fuel st node id st' :
  vars_below n (nodes st) → not_fuel fuel st node = Ok (id, st') → vars_below n (nodes st').
Proof.
  revert st node id st'. induction fuel as [|fuel IH]; intros st node id st' Hb H; cbn in H; [done|].
  destruct (node =? _); [by inv_ok|]. destruct (node =? _); [by inv_ok|].
  destruct (not_memo st !! node); [by inv_ok|]. inv_ok.
  rewrite nodes_insert_not. pose proof (raw_vars _ _ _ Hb H0) as Hv.
  eapply mk_node_vars; [|exact Hv|done]. eauto.
Qed.

Lemma node_var_index_vars st node v :
  vars_below n (nodes st) → node_var_index st node = Ok (Some v) → v < n.
Proof.
  unfold node_var_index. intros Hb H. destruct (terminal_value node); [done|]. inv_ok.
  by eapply raw_vars.
Qed.

Lemma op_fuel_vars is_and fuel st a b id st' :
  vars_below n (nodes st) → op_fuel is_and fuel st a b = Ok (id, st') → vars_below n (nodes st').
Proof.
  revert st a b id st'. induction fuel as [|fuel IH]; intros st a b id st' Hb H; cbn in H; [done|].
  destruct (ordered_pair a b) as [x y]. destruct (op_memo is_and st !! (x, y)); [by inv_ok|].
  inv_ok. rewrite nodes_insert_op. unfold apply in H0.
  assert (Hrec : ∀ m, (va ← node_var_index st x; vb ← node_var_index st y;
      top ← top_var va vb; '(al, ah) ← cofactor st x top; '(bl, bh) ← cofactor st y top;
      '(l, st) ← op_fuel is_and fuel st al bl; '(h, st) ← op_fuel is_and fuel st ah bh;
      mk_node st top l h) = Ok m → vars_below n (nodes m.2)).
  { intros m Hm. inv_ok.
    eapply mk_node_vars; [| |done]; [eauto|].
    unfold top_var in *. repeat case_match; simplify_eq.
    all: repeat match goal with H : node_var_index _ _ = Ok (Some _) |- _ =>
      apply (node_var_index_vars _ _ _ Hb) in H end; lia. }
  destruct (terminal_value x), (terminal_value y);
    first [by inv_ok | by apply (Hrec (id, b0)) | by apply Hrec in H0].
Qed.
End VarsBelow.

(** ** Executions of the builder *)

Lemma wf_init cap budget : wf (with_memo_cap_and_rss_budget cap budget).
Proof.
  split; [split|..]; cbn.
  - intros id r. unfold node_at. by destruct (_ <? _).
  - intros v l h id. rewrite lookup_empty. unfold node_at. by destruct (_ <? _).
  - by vm_compute.
  - intros n m. by rewrite lookup_empty.
  - intros [] a b m; cbn; by rewrite lookup_empty.
Qed.

Lemma wf_set_cap st cap shrinks : wf st → wf (set_cap st cap shrinks).
Proof. intros [Har Hn Ho]. split; [done|done|]. intros is_and. exact (Ho is_and). Qed.

Lemma wf_maybe_shrink st sample : wf st → wf (maybe_shrink_memo_cap st sample).
Proof.
  intros H. unfold maybe_shrink_memo_cap. destruct (rss_budget_kib st); [|done].
  destruct (_ <=? _); [done|]. destruct sample; [|done]. cbn zeta.
  destruct (_ <? _); [|done]. by apply wf_set_cap.
Qed.

Lemma wf_clear st sample : wf st → wf (clear_memos st sample).
Proof.
  intros [Har _ _]. apply wf_maybe_shrink. split; cbn; [done| |].
  - intros n m. by rewrite lookup_empty.
  - intros [] a b m; cbn; by rewrite lookup_empty.
Qed.

Lemma nodes_clear st sample : nodes (clear_memos st sample) = nodes st.
Proof.
  unfold clear_memos, maybe_shrink_memo_cap. cbn.
  destruct (rss_budget_kib st); [|done]. destruct (_ <=? _); [done|]. destruct sample; [|done].
  by destruct (_ <? _).
Qed.

(** One call on the builder by its client, on ids it was given. *)
Inductive bdd_step : BddBuilder → BddBuilder → Prop :=
  | step_var st v id st' : var st v = Ok (id, st') → bdd_step st st'
  | step_not st a id st' : valid (nodes st) a → not st a = Ok (id, st') → bdd_step st st'
  | step_and st a b id st' : valid (nodes st) a → valid (nodes st) b →
      and st a b = Ok (id, st') → bdd_step st st'
  | step_or st a b id st' : valid (nodes st) a → valid (nodes st) b →
      or st a b = Ok (id, st') → bdd_step st st'
  | step_clear st sample : bdd_step st (clear_memos st sample).

Lemma yields_Ok st m id st' Q :
  yields st m Q → m = Ok (id, st') → wf st' ∧ extends st st' ∧ Q (nodes st') id.
Proof. by intros H ->. Qed.

Lemma var_spec st v : wf st → yields st (var st v) (λ ns id, is_ite ns v FALSE_REF TRUE_REF id).
Proof.
  intros Hw. apply mk_node_spec; [done|apply (valid_terminal _ false)|apply (valid_terminal _ true)|..].
  - apply (above_terminal _ _ false).
  - apply (above_terminal _ _ true).
Qed.

Lemma not_spec st a :
  wf st → valid (nodes st) a → yields st (not st a) (λ ns m, is_not ns a m).
Proof. intros Hw Ha. apply not_fuel_spec; [done|done|lia]. Qed.

Lemma op_spec is_and st a b :
  wf st → valid (nodes st) a → valid (nodes st) b →
  yields st (op_fuel is_and (S (N.to_nat (a + b))) st a b) (λ ns m, is_op is_and ns a b m).
Proof. intros Hw Ha Hb. apply op_fuel_spec; [done|done|done|lia]. Qed.

Lemma step_wf st st' : bdd_step st st' → wf st → wf st'.
Proof.
  intros [st1 v id st2 H|st1 a id st2 Ha H|st1 a b id st2 Ha Hb H|st1 a b id st2 Ha Hb H|st1 s] Hw.
  - by eapply yields_Ok in H as [? _]; [|apply var_spec].
  - by eapply yields_Ok in H as [? _]; [|apply not_spec].
  - by eapply yields_Ok in H as [? _]; [|apply (op_spec true)].
  - by eapply yields_Ok in H as [? _]; [|apply (op_spec false)].
  - by apply wf_clear.
Qed.

Lemma wf_reachable cap budget st :
  rtc bdd_step (with_memo_cap_and_rss_budget cap budget) st → wf st.
Proof.
  remember (with_memo_cap_and_rss_budget cap budget) as st0 eqn:E. intros H.
  assert (Hw : wf st0) by (rewrite E; apply wf_init). clear E.
  induction H; eauto using step_wf.
Qed.

(** Every state the builder can reach, whatever the memo cap, the RSS
    budget, the samples and the calls, is a reduced ordered hash-consed arena
    whose memo entries are right about the nodes they name. *)
Theorem reachable_wf cap budget st :
  rtc bdd_step (with_memo_cap_and_rss_budget cap budget) st → wf st.
Proof. apply wf_reachable. Qed.

Lemma reachable_wf_witness :
  ∃ st, rtc bdd_step (with_memo_cap_and_rss_budget 1 None) st ∧ length (nodes st) = 2%nat ∧ wf st.
Proof.
  assert (H : rtc bdd_step (with_memo_cap_and_rss_budget 1 None)
    (match '(x, st) ← var (with_memo_cap_and_rss_budget 1 None) 0; not st x with
     | Ok (_, st) => st | Err _ => with_memo_cap_and_rss_budget 1 None end)).
  { eapply rtc_l; [eapply (step_var _ 0); vm_compute; reflexivity|].
    eapply rtc_l; [|apply rtc_refl].
    eapply (step_not _ 2); [by vm_compute|vm_compute; reflexivity]. }
  eexists. split; [exact H|]. split; [vm_compute; reflexivity|].
  exact (reachable_wf _ _ _ H).
Defined.

(** On a well-formed state [and] and [or] return: the id denotes the
    conjunction or disjunction of the operands in an arena that extends the
    old one, unless the node table is full. *)
Theorem and_or_correct st a b :
  wf st → valid (nodes st) a → valid (nodes st) b →
  (and st a b = Err NodeTableFull ∨ ∃ m st', and st a b = Ok (m, st') ∧ wf st' ∧ extends st st' ∧
     valid (nodes st') m ∧
     ∀ rho, eval (nodes st') m rho = eval (nodes st) a rho && eval (nodes st) b rho) ∧
  (or st a b = Err NodeTableFull ∨ ∃ m st', or st a b = Ok (m, st') ∧ wf st' ∧ extends st st' ∧
     valid (nodes st') m ∧
     ∀ rho, eval (nodes st') m rho = eval (nodes st) a rho || eval (nodes st) b rho).
Proof.
  intros Hw Ha Hb. pose proof (wf_nodes _ _ (wf_ar _ Hw)) as Hn. unfold and, or.
  pose proof (op_spec true st a b Hw Ha Hb) as H1. pose proof (op_spec false st a b Hw Ha Hb) as H2.
  unfold yields in H1, H2. split.
  - destruct (op_fuel true _ st a b) as [[m st']|e]; [right|left; by subst].
    destruct H1 as (Hw' & Hx & [Hv He _]). exists m, st'. split_and!; try done.
    intros rho. by rewrite He, !(eval_prefix _ _ _ rho Hx Hn).
  - destruct (op_fuel false _ st a b) as [[m st']|e]; [right|left; by subst].
    destruct H2 as (Hw' & Hx & [Hv He _]). exists m, st'. split_and!; try done.
    intros rho. by rewrite He, !(eval_prefix _ _ _ rho Hx Hn).
Qed.

Lemma and_or_correct_witness :
  let st := set_arena default_builder [mkRaw 0 0 1; mkRaw 1 0 1]
              {[(0, 0, 1) := 2; (1, 0, 1) := 3]} in
  (and st 2 3 = Err NodeTableFull ∨ ∃ m st', and st 2 3 = Ok (m, st') ∧ wf st' ∧ extends st st' ∧
     valid (nodes st') m ∧
     ∀ rho, eval (nodes st') m rho = eval (nodes st) 2 rho && eval (nodes st) 3 rho).
Proof.
  intros st. refine (proj1 (and_or_correct st 2 3 _ _ _)); [|by vm_compute|by vm_compute].
  assert (H0 : bdd_step default_builder (set_arena default_builder [mkRaw 0 0 1] {[(0, 0, 1) := 2]})).
  { eapply (step_var _ 0). vm_compute. reflexivity. }
  assert (H1 : bdd_step (set_arena default_builder [mkRaw 0 0 1] {[(0, 0, 1) := 2]}) st).
  { eapply (step_var _ 1). vm_compute. reflexivity. }
  eapply step_wf; [exact H1|]. eapply step_wf; [exact H0|]. apply wf_init.
Defined.

(** [not] returns the complement, and [var] the projection, unless the
    node table is full. *)
Theorem not_var_correct st a v :
  wf st → valid (nodes st) a →
  (not st a = Err NodeTableFull ∨ ∃ m st', not st a = Ok (m, st') ∧ wf st' ∧ extends st st' ∧
     valid (nodes st') m ∧ ∀ rho, eval (nodes st') m rho = negb (eval (nodes st) a rho)) ∧
  (var st v = Err NodeTableFull ∨ ∃ m st', var st v = Ok (m, st') ∧ wf st' ∧ extends st st' ∧
     valid (nodes st') m ∧ ∀ rho, eval (nodes st') m rho = rho v).
Proof.
  intros Hw Ha. pose proof (wf_nodes _ _ (wf_ar _ Hw)) as Hn.
  pose proof (not_spec st a Hw Ha) as H1. pose proof (var_spec st v Hw) as H2. split.
  - unfold yields in H1. destruct (not st a) as [[m st']|e]; [right|left; by subst].
    destruct H1 as (Hw' & Hx & [Hv He _]). exists m, st'. split_and!; try done.
    intros rho. by rewrite He, !(eval_prefix _ _ _ rho Hx Hn).
  - unfold yields in H2. destruct (var st v) as [[m st']|e]; [right|left; by subst].
    destruct H2 as (Hw' & Hx & [Hv He _]). exists m, st'. split_and!; try done.
    intros rho. rewrite He. by destruct (rho v).
Qed.

Lemma not_var_correct_witness :
  let st := default_builder in
  not st 0 = Err NodeTableFull ∨ ∃ m st', not st 0 = Ok (m, st') ∧ wf st' ∧ extends st st' ∧
     valid (nodes st') m ∧ ∀ rho, eval (nodes st') m rho = negb (eval (nodes st) 0 rho).
Proof.
  intros st. refine (proj1 (not_var_correct st 0 7 _ _)); [apply wf_init|by vm_compute].
Defined.

(** In a well-formed state two ids denote the same Boolean function only if
    they are the same id. *)
Lemma wf_canonical st a b :
  wf st → valid (nodes st) a → valid (nodes st) b →
  (∀ rho, eval (nodes st) a rho = eval (nodes st) b rho) → a = b.
Proof.
  intros Hw Ha Hb He. eapply (iso_eq (nodes st) (unique st)); [apply Hw|].
  eapply (eval_iso (N.succ (N.max a b))); [lia|apply Hw|apply Hw|done..].
Qed.

(** A call [m] made in [st] that answers the function [f]: it only ever stops
    on a full node table; otherwise the id it returns denotes [f], the ids of
    [st] keep their meaning, and the id is the one of [st] that already
    denoted [f], when there is one. *)
Definition answers (st : BddBuilder) (m : result bdd_fault (N * BddBuilder))
    (f : (N → bool) → bool) : Prop :=
  m = Err NodeTableFull ∨
  ∃ id st', m = Ok (id, st') ∧ bdd_step st st' ∧ valid (nodes st') id ∧
    (∀ rho, eval (nodes st') id rho = f rho) ∧
    (∀ c, valid (nodes st) c → valid (nodes st') c ∧
       (∀ rho, eval (nodes st') c rho = eval (nodes st) c rho) ∧
       (c = id ↔ ∀ rho, eval (nodes st) c rho = f rho)).

Lemma answers_intro st m f :
  wf st → (∀ id st', m = Ok (id, st') → bdd_step st st') →
  (m = Err NodeTableFull ∨ ∃ id st', m = Ok (id, st') ∧ wf st' ∧ extends st st' ∧
     valid (nodes st') id ∧ ∀ rho, eval (nodes st') id rho = f rho) →
  answers st m f.
Proof.
  intros Hw Hs [?|(id & st' & Hm & Hw' & Hx & Hv & He)]; [by left|right].
  pose proof (wf_nodes _ _ (wf_ar _ Hw)) as Hn.
  exists id, st'. split_and!; [done|by apply (Hs id)|done|done|].
  intros c Hc. assert (Hc' : valid (nodes st') c) by (by eapply valid_prefix).
  assert (Hk : ∀ rho, eval (nodes st') c rho = eval (nodes st) c rho)
    by (intros rho; by apply eval_prefix).
  split_and!; [done..|]. split.
  - intros -> rho. by rewrite <-Hk.
  - intros Hf. apply (wf_canonical st'); try done. intros rho. by rewrite Hk, He.
Qed.

(** C37: Canonicity.  In every state the builder reaches from an empty one,
    whatever the memo cap, the RSS budget, the samples and the calls, two of
    its ids denote the same Boolean function exactly when they are the same
    id; and [and], [or], [not] and [var] called there only ever stop on a
    full node table, and otherwise return an id that denotes the conjunction,
    the disjunction, the complement or the variable, which is the id already
    in the arena when one denotes that function. *)
Theorem bdd_canonical cap budget st a b v :
  rtc bdd_step (with_memo_cap_and_rss_budget cap budget) st →
  valid (nodes st) a → valid (nodes st) b →
  ((∀ rho, eval (nodes st) a rho = eval (nodes st) b rho) ↔ a = b) ∧
  answers st (and st a b) (λ rho, eval (nodes st) a rho && eval (nodes st) b rho) ∧
  answers st (or st a b) (λ rho, eval (nodes st) a rho || eval (nodes st) b rho) ∧
  answers st (not st a) (λ rho, negb (eval (nodes st) a rho)) ∧
  answers st (var st v) (λ rho, rho v).
Proof.
  intros Hr Ha Hb. pose proof (wf_reachable _ _ _ Hr) as Hw.
  destruct (and_or_correct st a b Hw Ha Hb) as [Hand Hor].
  destruct (not_var_correct st a v Hw Ha) as [Hnot Hvar].
  split; [split; [by apply wf_canonical|by intros ->]|].
  split; [|split; [|split]]; (apply answers_intro; [done|intros id st' E|done]).
  - exact (step_and _ _ _ _ _ Ha Hb E).
  - exact (step_or _ _ _ _ _ Ha Hb E).
  - exact (step_not _ _ _ _ Ha E).
  - exact (step_var _ _ _ _ E).
Qed.

(** The builder after [x0], [x1], [x0 ∧ x1] and the complement of the latter:
    asking for [x1 ∧ x0], with the memos cleared, gives the node of
    [x0 ∧ x1]. *)
Definition canonical_demo : BddBuilder :=
  match '(x, st) ← var (with_memo_cap_and_rss_budget 8 None) 0; '(y, st) ← var st 1;
        '(c, st) ← and st x y; not st c with
  | Ok (_, st) => clear_memos st None
  | Err _ => default_builder
  end.

Lemma bdd_canonical_witness :
  length (nodes canonical_demo) = 5%nat ∧
  (match and canonical_demo 3 2 with Ok (m, _) => Some m | Err _ => None end) = Some 4 ∧
  ((∀ rho, eval (nodes canonical_demo) 3 rho = eval (nodes canonical_demo) 2 rho) ↔ 3 = 2) ∧
  answers canonical_demo (and canonical_demo 3 2)
    (λ rho, eval (nodes canonical_demo) 3 rho && eval (nodes canonical_demo) 2 rho).
Proof.
  split; [by vm_compute|]. split; [by vm_compute|].
  destruct (bdd_canonical 8 None canonical_demo 3 2 7) as (H1 & H2 & _);
    [|by vm_compute|by vm_compute|by split].
  eapply rtc_l; [eapply (step_var _ 0); vm_compute; reflexivity|].
  eapply rtc_l; [eapply (step_var _ 1); vm_compute; reflexivity|].
  eapply rtc_l; [eapply (step_and _ 2 3); [by vm_compute..|vm_compute; reflexivity]|].
  eapply rtc_l; [eapply (step_not _ 4); [by vm_compute|vm_compute; reflexivity]|].
  eapply rtc_l; [eapply (step_clear _ None)|]. apply rtc_refl.
Defined.

(** ** The memo cap *)

(** The caps only move in [clear_memos]. *)
Definition same_caps (st st' : BddBuilder) : Prop := adaptation st' = adaptation st.

Lemma mk_node_caps st v l h id st' : mk_node st v l h = Ok (id, st') → same_caps st st'.
Proof.
  unfold mk_node, same_caps. intros H. destruct (l =? h); [by inv_ok|].
  destruct (unique st !! _); [by inv_ok|]. destruct (_ <? _); by inv_ok.
Qed.

Lemma insert_not_caps st n m : same_caps st (insert_not_memo st n m).
Proof. unfold insert_not_memo, same_caps. by destruct (_ <=? _). Qed.
Lemma insert_op_caps is_and st k m : same_caps st (insert_op_memo is_and st k m).
Proof. unfold insert_op_memo, same_caps. destruct (_ <=? _), is_and; done. Qed.

Lemma not_fuel_caps fuel st node id st' :
  not_fuel fuel st node = Ok (id, st') → same_caps st st'.
Proof.
  revert st node id st'. induction fuel as [|fuel IH]; intros st node id st' H; cbn in H; [done|].
  destruct (node =? _); [by inv_ok|]. destruct (node =? _); [by inv_ok|].
  destruct (not_memo st !! node); [by inv_ok|]. inv_ok.
  apply IH in H1, H2. apply mk_node_caps in H3. unfold same_caps in *.
  by rewrite insert_not_caps, H3, H2, H1.
Qed.

Lemma op_fuel_caps is_and fuel st a b id st' :
  op_fuel is_and fuel st a b = Ok (id, st') → same_caps st st'.
Proof.
  revert st a b id st'. induction fuel as [|fuel IH]; intros st a b id st' H; cbn in H; [done|].
  destruct (ordered_pair a b) as [x y]. destruct (op_memo is_and st !! (x, y)); [by inv_ok|].
  apply bind_Ok in H as ([out st1] & Hap & H). injection H as <- <-.
  assert (same_caps st st1); [|unfold same_caps in *; by rewrite insert_op_caps].
  unfold apply in Hap.
  destruct (terminal_value x), (terminal_value y); [by inv_ok|..]; inv_ok;
    repeat match goal with H : op_fuel _ _ _ _ _ = Ok _ |- _ => apply IH in H end;
    apply mk_node_caps in Hap; unfold same_caps in *; congruence.
Qed.

(** What the compile summary reports of the cap. *)
Record cap_bounds (a : MemoAdaptation) : Prop := {
  cap_floor : N.min (a_initial_memo_cap a) MEMO_CAP_FLOOR ≤ a_final_memo_cap a;
  cap_ceiling : a_final_memo_cap a ≤ a_initial_memo_cap a;
  cap_shrunk : 0 < a_shrink_count a ↔ a_final_memo_cap a < a_initial_memo_cap a;
}.

Lemma shrink_bounds st sample :
  cap_bounds (adaptation st) → cap_bounds (adaptation (clear_memos st sample)).
Proof.
  intros [H1 H2 H3]. unfold clear_memos, maybe_shrink_memo_cap. cbn in *.
  destruct (rss_budget_kib st) as [kib|]; [|done].
  destruct (N.leb_spec (memo_cap st) MEMO_CAP_FLOOR) as [|Hgt]; [done|].
  destruct sample as [rss|]; [|done]. destruct (_ <? rss); [|done].
  assert (memo_cap st / 2 < memo_cap st) by (apply N.div_lt; unfold MEMO_CAP_FLOOR in *; lia).
  split; cbn; unfold MEMO_CAP_FLOOR, U32_MAX in *; lia.
Qed.

(** The adaptive shrink never lifts the cap, never takes it below the
    floor (or below its start, when that is lower), and the summary reports a
    shrink exactly when the final cap is smaller than the initial one. *)
Theorem adaptation_bounds cap budget st :
  rtc bdd_step (with_memo_cap_and_rss_budget cap budget) st → cap_bounds (adaptation st).
Proof.
  remember (with_memo_cap_and_rss_budget cap budget) as st0 eqn:E. intros H.
  assert (Hw : cap_bounds (adaptation st0)) by (subst; split; cbn; lia). clear E.
  induction H as [|st0 st1 st2 Hs _ IH]; [done|]. apply IH.
  destruct Hs as [s v id s' H|s a id s' Ha H|s a b id s' Ha Hb H|s a b id s' Ha Hb H|s sm].
  - unfold var in H. by rewrite (mk_node_caps _ _ _ _ _ _ H).
  - unfold not in H. by rewrite (not_fuel_caps _ _ _ _ _ H).
  - unfold and in H. by rewrite (op_fuel_caps _ _ _ _ _ _ _ H).
  - unfold or in H. by rewrite (op_fuel_caps _ _ _ _ _ _ _ H).
  - by apply shrink_bounds.
Qed.

Lemma adaptation_bounds_witness :
  let st := clear_memos (clear_memos (with_memo_cap_and_rss_budget 10000 (Some 100)) (Some 86))
              (Some 500) in
  adaptation st = mkAdaptation 2 10000 4096 ∧ cap_bounds (adaptation st).
Proof.
  split; [vm_compute; reflexivity|]. apply (adaptation_bounds 10000 (Some 100)).
  eapply rtc_l; [apply step_clear|]. eapply rtc_l; [apply step_clear|]. apply rtc_refl.
Defined.
