(* ===== verification/BddLayout.v ===== *)
(** * The canonical node order

    Models [BddBuilder::ordered_nodes], [collect_reachable] and [child_id] of
    [compiler/src/ccm_emitter/bdd.rs]: the nodes reachable from a root are
    grouped by variable, the groups are emitted from the last variable to the
    first, and within a group nodes are sorted by their children's new ids.
    The result depends only on the function the root denotes
    ([layout_canonical]), which is what makes the artifact byte-stable. *)
From S2P Require Import Prelude Bdd.
Local Open Scope N_scope.

(** ** Definitions *)

Fixpoint collect_reachable_fuel (fuel : nat) (st : BddBuilder) (node : N)
    (out : gmap N (list N)) : result bdd_fault (gmap N (list N)) :=
  match fuel with
  | O => Err NoFuel
  | S fuel =>
      match terminal_value node with
      | Some _ => Ok out
      | None =>
          r ← raw st node;
          let ids := default [] (out !! var_index r) in
          let out := <[var_index r := ids]> out in
          if bool_decide (node ∈ ids) then Ok out
          else
            out ← collect_reachable_fuel fuel st (low r) out;
            out ← collect_reachable_fuel fuel st (high r) out;
            Ok (<[var_index r := default [] (out !! var_index r) ++ [node]]> out)
      end
  end.

Definition collect_reachable (st : BddBuilder) (node : N) (out : gmap N (list N))
    : result bdd_fault (gmap N (list N)) :=
  collect_reachable_fuel (S (N.to_nat node)) st node out.

Definition child_id (id : N) (remap : gmap N N) : result bdd_fault N :=
  if id =? FALSE_REF then Ok 0
  else if id =? TRUE_REF then Ok 1
  else ok_or (remap !! id) (MissingChild id).

(** The [(low, high)] key of a node under the ids assigned so far. *)
Definition node_key (st : BddBuilder) (remap : gmap N N) (id : N) : result bdd_fault (N * N) :=
  r ← raw st id;
  l ← child_id (low r) remap;
  h ← child_id (high r) remap;
  Ok (l, h).

(** The lexicographic order of Rust's pairs. *)
Definition key_le (k k' : N * N) : Prop := k.1 < k'.1 ∨ (k.1 = k'.1 ∧ k.2 ≤ k'.2).
#[export] Instance key_le_dec k k' : Decision (key_le k k').
Proof. unfold key_le. apply _. Defined.

Definition keyed_le (x y : (N * N) * N) : Prop := key_le x.1 y.1.
#[export] Instance keyed_le_dec x y : Decision (keyed_le x y).
Proof. unfold keyed_le. apply _. Defined.

(** [ids.sort_by_key(..)]. *)
Definition sort_ids (st : BddBuilder) (remap : gmap N N) (ids : list N)
    : result bdd_fault (list N) :=
  keyed ← collect_results (λ id, k ← node_key st remap id; Ok (k, id)) ids;
  Ok ((merge_sort keyed_le keyed).*2).

(** The inner [for id in ids] loop. *)
Fixpoint emit_ids (st : BddBuilder) (ids : list N) (remap : gmap N N) (out : list RawNode)
    : result bdd_fault (gmap N N * list RawNode) :=
  match ids with
  | [] => Ok (remap, out)
  | id :: ids =>
      r ← raw st id;
      l ← child_id (low r) remap;
      h ← child_id (high r) remap;
      emit_ids st ids (<[id := N.of_nat (length out) + 2]> remap)
        (out ++ [mkRaw (var_index r) l h])
  end.

(** The outer loop over the groups. *)
Fixpoint emit_levels (st : BddBuilder) (levels : list (N * list N)) (remap : gmap N N)
    (out : list RawNode) : result bdd_fault (gmap N N * list RawNode) :=
  match levels with
  | [] => Ok (remap, out)
  | (_, ids) :: levels =>
      ids ← sort_ids st remap ids;
      '(remap, out) ← emit_ids st ids remap out;
      emit_levels st levels remap out
  end.

Definition entry_le (x y : N * list N) : Prop := y.1 ≤ x.1.
#[export] Instance entry_le_dec x y : Decision (entry_le x y).
Proof. unfold entry_le. apply _. Defined.

(** [reachable.iter().rev()]: descending by variable. *)
Definition levels_of (m : gmap N (list N)) : list (N * list N) :=
  merge_sort entry_le (map_to_list m).

Definition ordered_nodes (st : BddBuilder) (root : N) : result bdd_fault (list RawNode * N) :=
  if root =? FALSE_REF then Ok ([], TERMINAL_FALSE)
  else if root =? TRUE_REF then Ok ([], TERMINAL_TRUE)
  else
    reachable ← collect_reachable st root ∅;
    '(remap, out) ← emit_levels st (levels_of reachable) ∅ [];
    root_id ← ok_or (remap !! root) (MissingChild root);
    Ok (out, root_id).

Example layout_example :
  ('(x, st) ← var default_builder 0;
   '(y, st) ← var st 1;
   '(z, st) ← var st 2;
   '(xz, st) ← and st x z;
   '(r, st) ← or st xz y;
   ordered_nodes st r) =
  Ok ([mkRaw 2 0 1; mkRaw 1 0 1; mkRaw 1 2 1; mkRaw 0 3 4], 5).
Proof. vm_compute. reflexivity. Qed.

(** ** Reachability *)

(** [id] is a node reached from [a] along children. *)
Inductive sub (ns : list RawNode) : N → N → Prop :=
  | sub_refl a r : node_at ns a = Some r → sub ns a a
  | sub_low a r id : node_at ns a = Some r → sub ns (low r) id → sub ns a id
  | sub_high a r id : node_at ns a = Some r → sub ns (high r) id → sub ns a id.

Definition reached (out : gmap N (list N)) (id : N) : Prop :=
  ∃ v ids, out !! v = Some ids ∧ id ∈ ids.

(** What [collect_reachable] maintains: groups by variable, without
    duplicates, closed under children. *)
Record collected (ns : list RawNode) (out : gmap N (list N)) : Prop := {
  col_var : ∀ v ids id, out !! v = Some ids → id ∈ ids →
    ∃ r, node_at ns id = Some r ∧ var_index r = v;
  col_nodup : ∀ v ids, out !! v = Some ids → NoDup ids;
  col_closed : ∀ id r, reached out id → node_at ns id = Some r →
    (∀ c, c = low r ∨ c = high r → c < 2 ∨ reached out c);
}.

(** What a call for [node] adds. *)
Record collects (ns : list RawNode) (node : N) (out out' : gmap N (list N)) : Prop := {
  cls_wf : collected ns out';
  cls_mono : ∀ id, reached out id → reached out' id;
  cls_node : node < 2 ∨ reached out' node;
  cls_only : ∀ id, reached out' id → reached out id ∨ sub ns node id;
  cls_full : ∀ v ids, out' !! v = Some ids → ids ≠ [] ∨ is_Some (out !! v);
}.

Lemma reached_at ns out id r :
  collected ns out → node_at ns id = Some r →
  reached out id ↔ id ∈ default [] (out !! var_index r).
Proof.
  intros Hc Hr. split.
  - intros (v & ids & Ho & Hid). destruct (col_var _ _ Hc _ _ _ Ho Hid) as (r' & Hr' & <-).
    simplify_eq. by rewrite Ho.
  - destruct (out !! var_index r) as [ids|] eqn:E; cbn; [|by intros ?%elem_of_nil].
    by exists (var_index r), ids.
Qed.

Lemma sub_le ns a id :
  (∀ id r, node_at ns id = Some r → wf_node ns id r) → sub ns a id → id ≤ a.
Proof.
  intros Hn. induction 1 as [a r Hr|a r id Hr _ IH|a r id Hr _ IH]; [lia|..];
    destruct (Hn _ _ Hr); lia.
Qed.

Lemma sub_node ns a id : sub ns a id → ∃ r, node_at ns id = Some r.
Proof. induction 1; eauto. Qed.

Lemma reached_touch out v id :
  reached (<[v := default [] (out !! v)]> out) id ↔ reached out id.
Proof.
  unfold reached. split.
  - intros (w & ids & [[<- <-]|[? ?]]%lookup_insert_Some & Hid); [|eauto].
    destruct (out !! v) as [l|] eqn:E; cbn in Hid; [eauto|by apply elem_of_nil in Hid].
  - intros (w & ids & Ho & Hid). exists w. destruct (decide (v = w)) as [->|].
    + exists ids. rewrite lookup_insert_eq, Ho. done.
    + exists ids. by rewrite lookup_insert_ne.
Qed.

Lemma reached_push out v node id :
  reached (<[v := default [] (out !! v) ++ [node]]> out) id ↔ reached out id ∨ id = node.
Proof.
  unfold reached. split.
  - intros (w & ids & [[<- <-]|[? ?]]%lookup_insert_Some & Hid); [|eauto].
    apply elem_of_app in Hid as [Hid|Hid%list_elem_of_singleton]; [|by right].
    destruct (out !! v) as [l|] eqn:E; cbn in Hid; [eauto|by apply elem_of_nil in Hid].
  - intros [(w & ids & Ho & Hid)| ->].
    + exists w. destruct (decide (v = w)) as [->|].
      * exists (ids ++ [node]). rewrite lookup_insert_eq, Ho. split; [done|].
        apply elem_of_app. by left.
      * exists ids. by rewrite lookup_insert_ne.
    + exists v, (default [] (out !! v) ++ [node]). rewrite lookup_insert_eq. split; [done|].
      apply elem_of_app. right. by apply list_elem_of_singleton.
Qed.

Lemma collected_touch ns out v :
  collected ns out → collected ns (<[v := default [] (out !! v)]> out).
Proof.
  intros [Hv Hd Hc]. split.
  - intros w ids id [[<- <-]|[? ?]]%lookup_insert_Some Hid; [|eauto].
    destruct (out !! v) eqn:E; cbn in Hid; [eauto|by apply elem_of_nil in Hid].
  - intros w ids [[<- <-]|[? ?]]%lookup_insert_Some; [|eauto].
    destruct (out !! v) eqn:E; cbn; [eauto|constructor].
  - intros id r Hid Hr c Hcc. rewrite reached_touch in *. eauto.
Qed.

Lemma collected_push ns out node r :
  collected ns out → node_at ns node = Some r → ¬ reached out node →
  (∀ c, c = low r ∨ c = high r → c < 2 ∨ reached out c) →
  collected ns (<[var_index r := default [] (out !! var_index r) ++ [node]]> out).
Proof.
  intros Hcol Hr Hnew Hch. pose proof Hcol as [Hv Hd Hc]. split.
  - intros w ids id [[<- <-]|[? ?]]%lookup_insert_Some Hid; [|eauto].
    apply elem_of_app in Hid as [Hid| ->%list_elem_of_singleton]; [|eauto].
    destruct (out !! var_index r) eqn:E; cbn in Hid; [eauto|by apply elem_of_nil in Hid].
  - intros w ids [[<- <-]|[? ?]]%lookup_insert_Some; [|eauto].
    apply NoDup_app. rewrite (reached_at _ _ _ _ Hcol Hr) in Hnew. split_and!.
    + destruct (out !! var_index r) eqn:E; cbn; [eauto|constructor].
    + intros x Hx ->%list_elem_of_singleton. done.
    + apply NoDup_singleton.
  - intros id r' Hid Hr' c Hcc. rewrite reached_push in *.
    destruct Hid as [Hid| ->]; [destruct (Hc _ _ Hid Hr' c Hcc); auto|].
    simplify_eq. destruct (Hch c Hcc); auto.
Qed.

Lemma collects_trans_step ns out0 out1 out2 node r :
  let v := var_index r in
  node_at ns node = Some r → ¬ reached out0 node →
  (∀ id r, node_at ns id = Some r → wf_node ns id r) →
  collects ns (low r) (<[v := default [] (out0 !! v)]> out0) out1 →
  collects ns (high r) out1 out2 →
  collects ns node out0 (<[v := default [] (out2 !! v) ++ [node]]> out2).
Proof.
  intros v Hr Hnew Hn [W1 M1 N1 O1 F1] [W2 M2 N2 O2 F2]. destruct (Hn _ _ Hr) as [Hl Hh _ _ _].
  assert (Honly : ∀ id, reached out2 id → reached out0 id ∨ sub ns (low r) id ∨ sub ns (high r) id).
  { intros id [Hid|?]%O2; [|auto]. apply O1 in Hid as [Hid|?]; [|auto].
    rewrite reached_touch in Hid. auto. }
  assert (Hnew2 : ¬ reached out2 node).
  { intros [?|[H|H]]%Honly; [done|apply (sub_le _ _ _ Hn) in H; lia..]. }
  assert (Hch : ∀ c, c = low r ∨ c = high r → c < 2 ∨ reached out2 c).
  { intros c [-> | ->]; [destruct N1; auto|done]. }
  split.
  - by apply collected_push.
  - intros id Hid. apply reached_push. left. by apply M2, M1, reached_touch.
  - right. apply reached_push. by right.
  - intros id [Hid| ->]%reached_push; [|right; by econstructor].
    destruct (Honly id Hid) as [?|[?|?]]; [by left|right; by eapply sub_low|right; by eapply sub_high].
  - intros w ids [[<- <-]|[Hne Hw]]%lookup_insert_Some; [left; by intros [_ ?]%app_nil|].
    destruct (F2 _ _ Hw) as [?|[ids1 H1]]; [by left|].
    destruct (F1 _ _ H1) as [Hne1|[ids0 H0]].
    + destruct ids as [|i ids]; [|by left]. exfalso.
      assert (Hx : ∃ x, x ∈ ids1) by (destruct ids1; [done|eexists; by left]).
      destruct Hx as [x Hx]. assert (Hrx : reached out2 x) by (apply M2; by exists w, ids1).
      destruct (col_var _ _ W1 _ _ _ H1 Hx) as (rx & Hrx' & <-).
      apply (reached_at _ _ _ _ W2 Hrx') in Hrx. rewrite Hw in Hrx. by apply elem_of_nil in Hrx.
    + right. rewrite lookup_insert_ne in H0 by done. eauto.
Qed.

Lemma collect_reachable_spec fuel st node out :
  wf st → valid (nodes st) node → (N.to_nat node < fuel)%nat → collected (nodes st) out →
  ∃ out', collect_reachable_fuel fuel st node out = Ok out' ∧ collects (nodes st) node out out'.
Proof.
  intros Hw. pose proof (wf_nodes _ _ (wf_ar _ Hw)) as Hn.
  revert node out. induction fuel as [|fuel IH]; intros node out Hv Hf Hc; [lia|].
  cbn [collect_reachable_fuel]. destruct (terminal_value node) as [x|] eqn:Et.
  - apply terminal_value_Some in Et as [_ Et]. exists out. split; [done|].
    split; try done; eauto.
  - apply terminal_value_None in Et. destruct (node_at_valid _ _ Hv Et) as [r Hr].
    destruct (Hn _ _ Hr) as [Hl Hh _ _ _].
    unfold raw. rewrite Hr. cbn [ok_or]. change (Ok r ≫= ?k) with (k r). cbn beta zeta.
    case_bool_decide as Hin.
    + eexists. split; [done|]. rewrite <-(reached_at _ _ _ _ Hc Hr) in Hin. split.
      * by apply collected_touch.
      * intros id. by rewrite reached_touch.
      * rewrite reached_touch. by right.
      * intros id. rewrite reached_touch. by left.
      * intros w ids [[<- <-]|[? ?]]%lookup_insert_Some; [|eauto].
        rewrite (reached_at _ _ _ _ Hc Hr) in Hin.
        destruct (out !! var_index r); cbn in *; [eauto|by apply elem_of_nil in Hin].
    + rewrite <-(reached_at _ _ _ _ Hc Hr) in Hin. unfold valid in *.
      destruct (IH (low r) (<[var_index r := default [] (out !! var_index r)]> out))
        as (out1 & -> & C1); [lia|lia|by apply collected_touch|].
      destruct (IH (high r) out1) as (out2 & E2 & C2); [lia|lia|apply C1|].
      change (Ok out1 ≫= ?k) with (k out1). cbn beta. rewrite E2.
      change (Ok out2 ≫= ?k) with (k out2). cbn beta.
      eexists. split; [done|]. by eapply collects_trans_step.
Qed.

(** The nodes collected from a root are those below it. *)
Lemma collect_reachable_root st root :
  wf st → valid (nodes st) root → 2 ≤ root →
  ∃ m, collect_reachable st root ∅ = Ok m ∧ collected (nodes st) m ∧
    (∀ id, reached m id ↔ sub (nodes st) root id) ∧
    (∀ v ids, m !! v = Some ids → ids ≠ []).
Proof.
  intros Hw Hv H2. pose proof (wf_nodes _ _ (wf_ar _ Hw)) as Hn.
  assert (Hempty : ∀ id, ¬ reached ∅ id).
  { intros id (v & ids & H & _). by rewrite lookup_empty in H. }
  destruct (collect_reachable_spec (S (N.to_nat root)) st root ∅) as (m & E & [W M R O F]);
    [done|done|lia| |].
  { split; [intros ? ? ? H; by rewrite lookup_empty in H|intros ? ? H; by rewrite lookup_empty in H|].
    intros id r Hid. by apply Hempty in Hid. }
  exists m. split_and!; [done|done| |].
  - intros id. split.
    + intros [Hid|?]%O; [by apply Hempty in Hid|done].
    + assert (Hstep : ∀ c, c < 2 ∨ reached m c → sub (nodes st) c id → reached m c).
      { intros c [Hc|?] Hs; [|done]. exfalso.
        inversion Hs; subst; rewrite node_at_terminal in *; done. }
      assert (Hsub : ∀ a, reached m a → sub (nodes st) a id → reached m id).
      { intros a Ha Hs. induction Hs as [a r Hr|a r id Hr Hs IH|a r id Hr Hs IH]; [done|..].
        - apply IH; [done|]. apply Hstep; [|done]. apply (col_closed _ _ W _ _ Ha Hr). by left.
        - apply IH; [done|]. apply Hstep; [|done]. apply (col_closed _ _ W _ _ Ha Hr). by right. }
      apply Hsub. destruct R; [lia|done].
  - intros v ids Hm. destruct (F _ _ Hm) as [?|[? H]]; [done|]. by rewrite lookup_empty in H.
Qed.

(** ** Labels *)

(** The new id of a child: terminals keep theirs. *)
Definition label (remap : gmap N N) (c : N) : option N :=
  if c <? 2 then Some c else remap !! c.

Lemma child_id_label c remap k : child_id c remap = Ok k ↔ label remap c = Some k.
Proof.
  unfold child_id, label, FALSE_REF, TRUE_REF.
  destruct (N.eqb_spec c 0) as [->|H0]; [cbn; naive_solver|].
  destruct (N.eqb_spec c 1) as [->|H1]; [cbn; naive_solver|].
  destruct (N.ltb_spec c 2); [lia|]. destruct (remap !! c); cbn; naive_solver.
Qed.

Lemma node_key_label st remap id r l h :
  node_at (nodes st) id = Some r → label remap (low r) = Some l → label remap (high r) = Some h →
  node_key st remap id = Ok (l, h).
Proof.
  intros Hr Hl%child_id_label Hh%child_id_label. unfold node_key, raw. rewrite Hr. cbn.
  rewrite Hl. cbn. by rewrite Hh.
Qed.

(** The key a node is sorted by and emitted with. *)
Definition has_key (ns : list RawNode) (remap : gmap N N) (v id : N) (k : N * N) : Prop :=
  ∃ r, node_at ns id = Some r ∧ var_index r = v ∧
    label remap (low r) = Some k.1 ∧ label remap (high r) = Some k.2.

Lemma has_key_node_key st remap v id k :
  has_key (nodes st) remap v id k → node_key st remap id = Ok k.
Proof.
  intros (r & Hr & _ & Hl & Hh). rewrite (node_key_label _ _ _ _ _ _ Hr Hl Hh). by destruct k.
Qed.

Lemma label_insert remap x k c : c ≠ x → label (<[x := k]> remap) c = label remap c.
Proof. intros H. unfold label. destruct (c <? 2); [done|]. by rewrite lookup_insert_ne. Qed.

(** A child of a node at [v] is not itself at [v]. *)
Lemma child_not_level ns v x rx y ry :
  (∀ id r, node_at ns id = Some r → wf_node ns id r) →
  node_at ns x = Some rx → node_at ns y = Some ry →
  var_index rx = v → var_index ry = v → low rx ≠ y ∧ high rx ≠ y.
Proof.
  intros Hn Hx Hy <- Hv. destruct (Hn _ _ Hx) as [_ _ _ Hl Hh].
  split; intros E; rewrite E in *; [specialize (Hl _ Hy)|specialize (Hh _ Hy)]; lia.
Qed.

Lemma emit_ids_spec st v ids keys remap out :
  wf st → Forall2 (has_key (nodes st) remap v) ids keys → NoDup ids →
  ∃ remap', emit_ids st ids remap out =
      Ok (remap', out ++ ((λ k, mkRaw v k.1 k.2) <$> keys)) ∧
    (∀ x, x ∉ ids → remap' !! x = remap !! x) ∧
    (∀ i x, ids !! i = Some x → remap' !! x = Some (N.of_nat (length out + i) + 2)).
Proof.
  intros Hw HF. pose proof (wf_nodes _ _ (wf_ar _ Hw)) as Hn. revert keys remap out HF.
  induction ids as [|x ids IH]; intros keys remap out HF Hd; inversion HF as [|? k ? keys' Hk HF']; subst.
  - exists remap. cbn. rewrite app_nil_r. split_and!; [done|done|]. intros i y H. done.
  - inversion Hd as [|? ? Hx Hd']; subst. pose proof Hk as (r & Hr & Hv & Hl & Hh). cbn [emit_ids].
    unfold raw. rewrite Hr. cbn [ok_or]. change (Ok r ≫= ?k) with (k r). cbn beta.
    rewrite (proj2 (child_id_label _ _ _) Hl). change (Ok ?k ≫= ?f) with (f k). cbn beta.
    rewrite (proj2 (child_id_label _ _ _) Hh). change (Ok ?k ≫= ?f) with (f k). cbn beta.
    destruct (IH keys' (<[x := N.of_nat (length out) + 2]> remap)
      (out ++ [mkRaw (var_index r) k.1 k.2])) as (remap' & -> & Hold & Hnew); [|done|].
    { eapply Forall2_impl; [exact HF'|]. intros y k' (ry & Hry & Hvy & Hly & Hhy).
      destruct (child_not_level _ _ _ _ _ _ Hn Hry Hr Hvy Hv) as [N1 N2].
      exists ry. by rewrite !label_insert. }
    exists remap'. rewrite <-(assoc_L (++)), Hv. split_and!; [done| |].
    + intros y Hy. rewrite Hold, lookup_insert_ne; set_solver.
    + intros [|i] y Hi; cbn in Hi.
      * injection Hi as <-. rewrite Hold by done. rewrite lookup_insert_eq. do 2 f_equal. lia.
      * rewrite (Hnew i y Hi), length_app. cbn. do 2 f_equal. lia.
Qed.

(** *** The sort *)

#[export] Instance key_le_total : Total key_le.
Proof. intros [a b] [c d]. unfold key_le. cbn. lia. Qed.
#[export] Instance key_le_trans : Transitive key_le.
Proof. intros [a b] [c d] [e f]. unfold key_le. cbn. lia. Qed.
#[export] Instance key_le_antisymm : AntiSymm (=) key_le.
Proof. intros [a b] [c d]. unfold key_le. cbn. intros. f_equal; lia. Qed.
#[export] Instance keyed_le_total : Total keyed_le.
Proof. intros x y. unfold keyed_le. apply (total key_le). Qed.
#[export] Instance keyed_le_trans : Transitive keyed_le.
Proof. intros x y z. unfold keyed_le. by etransitivity. Qed.

Lemma StronglySorted_fmap_key (l : list ((N * N) * N)) :
  StronglySorted keyed_le l → StronglySorted key_le l.*1.
Proof.
  induction 1 as [|x l _ IH HF]; cbn; constructor; [done|]. by apply Forall_fmap.
Qed.

Lemma sort_ids_spec st remap v ids :
  Forall (λ id, ∃ k, has_key (nodes st) remap v id k) ids →
  ∃ ids' keys, sort_ids st remap ids = Ok ids' ∧ ids' ≡ₚ ids ∧
    Forall2 (has_key (nodes st) remap v) ids' keys ∧ StronglySorted key_le keys.
Proof.
  intros HF.
  assert (Hk : ∃ keyed, collect_results (λ id, k ← node_key st remap id; Ok (k, id)) ids = Ok keyed ∧
    keyed.*2 = ids ∧ Forall (λ p, has_key (nodes st) remap v p.2 p.1) keyed).
  { induction HF as [|id ids [k Hk] _ (keyed & E & Hs & HF)]; cbn.
    - by exists [].
    - rewrite (has_key_node_key _ _ _ _ _ Hk). cbn. rewrite E. cbn.
      eexists. split; [done|]. cbn. rewrite Hs. split; [done|]. by constructor. }
  destruct Hk as (keyed & E & <- & Hkeyed). unfold sort_ids. rewrite E. cbn.
  pose proof (merge_sort_Permutation keyed_le keyed) as Hp.
  exists (merge_sort keyed_le keyed).*2, (merge_sort keyed_le keyed).*1. split_and!; [done| | |].
  - by rewrite Hp.
  - rewrite <-Hp in Hkeyed. clear -Hkeyed.
    induction Hkeyed as [|p l Hk _ IH]; cbn; [constructor|by constructor].
  - apply StronglySorted_fmap_key. apply StronglySorted_merge_sort; apply _.
Qed.

(** ** One run *)

(** The nodes emitted so far are a copy of the labelled part of the arena. *)
Record laid (ns : list RawNode) (remap : gmap N N) (out : list RawNode) : Prop := {
  laid_rng : ∀ x k, remap !! x = Some k → 2 ≤ k ∧ k < N.of_nat (length out) + 2;
  laid_iso : ∀ x k, remap !! x = Some k → iso ns out x k;
  laid_inj : ∀ x y k, remap !! x = Some k → remap !! y = Some k → x = y;
  laid_surj : ∀ k r, node_at out k = Some r → ∃ x, remap !! x = Some k;
  laid_lt : ∀ k r, node_at out k = Some r → low r < k ∧ high r < k;
}.

Lemma laid_empty ns : laid ns ∅ [].
Proof.
  split; intros *; try (by rewrite lookup_empty); unfold node_at; by destruct (_ <? _).
Qed.

Lemma iso_prefix ns out out' a b : out `prefix_of` out' → iso ns out a b → iso ns out' a b.
Proof. intros Hp. induction 1; [constructor|]. econstructor; eauto using node_at_prefix. Qed.

#[export] Instance bool_ref_inj : Inj (=) (=) bool_ref.
Proof. by intros [] []. Qed.

Lemma iso_trans_r ns1 ns2 out a b c :
  iso ns1 out a c → iso ns2 out b c → iso ns1 ns2 a b.
Proof.
  intros H. revert b. induction H as [x|a c r1 r2 H1 H2 Hv _ IHl _ IHh]; intros b Hb.
  - inversion Hb as [y E1 E2|? ? ? ? ? Hc]; subst.
    + apply (inj bool_ref) in E2 as ->. constructor.
    + by destruct x.
  - inversion Hb as [y E1 E2|? ? r3 r4 H3 H4 Hv' Hl Hh]; subst.
    + by destruct y.
    + simplify_eq. econstructor; [done|done|congruence|eauto|eauto].
Qed.

Lemma label_iso ns remap out c k :
  laid ns remap out → label remap c = Some k →
  iso ns out c k ∧ k < N.of_nat (length out) + 2.
Proof.
  intros HL. unfold label. destruct (N.ltb_spec c 2) as [Hc|Hc].
  - intros [= <-]. split; [|lia]. apply terminal_value_lt in Hc as (b & _ & ->). constructor.
  - intros Hk. split; [by apply (laid_iso _ _ _ HL)|]. by apply (laid_rng _ _ _ HL _ _ Hk).
Qed.

Lemma label_inj ns remap out c d k :
  laid ns remap out → label remap c = Some k → label remap d = Some k → c = d.
Proof.
  intros HL. unfold label. destruct (N.ltb_spec c 2), (N.ltb_spec d 2).
  - congruence.
  - intros [= <-] [? ?]%(laid_rng _ _ _ HL). lia.
  - intros [? ?]%(laid_rng _ _ _ HL) [= <-]. lia.
  - apply (laid_inj _ _ _ HL).
Qed.

Lemma has_key_inj ns u remap out v x y k :
  wf_arena ns u → laid ns remap out → has_key ns remap v x k → has_key ns remap v y k → x = y.
Proof.
  intros Hw HL ([v1 l1 h1] & Hx & Hv1 & Hl1 & Hh1) ([v2 l2 h2] & Hy & Hv2 & Hl2 & Hh2).
  cbn in *. subst. pose proof (label_inj _ _ _ _ _ _ HL Hl1 Hl2) as ->.
  pose proof (label_inj _ _ _ _ _ _ HL Hh1 Hh2) as ->.
  apply (wf_unique _ _ Hw) in Hx, Hy. congruence.
Qed.

Section Level.
Context (ns : list RawNode) (v : N) (ids : list N) (keys : list (N * N)).
Context (remap remap' : gmap N N) (out : list RawNode).
Hypothesis Hkeys : Forall2 (has_key ns remap v) ids keys.
Hypothesis Hdup : NoDup ids.
Hypothesis Hfresh : ∀ x, x ∈ ids → remap !! x = None.
Hypothesis Hold : ∀ x, x ∉ ids → remap' !! x = remap !! x.
Hypothesis Hnew : ∀ i x, ids !! i = Some x → remap' !! x = Some (N.of_nat (length out + i) + 2).
Let out' := out ++ ((λ k, mkRaw v k.1 k.2) <$> keys).

(** An entry after the level: an old one, or the [i]-th of the level. *)
Lemma level_entry x k :
  remap' !! x = Some k →
  (x ∉ ids ∧ remap !! x = Some k) ∨
  (∃ i key, ids !! i = Some x ∧ keys !! i = Some key ∧ has_key ns remap v x key ∧
     k = N.of_nat (length out + i) + 2).
Proof.
  intros Hk. destruct (decide (x ∈ ids)) as [Hx|Hx].
  - right. apply list_elem_of_lookup in Hx as [i Hi]. rewrite (Hnew i x Hi) in Hk.
    destruct (Forall2_lookup_l _ _ _ _ _ Hkeys Hi) as (key & Hkey & Hh).
    exists i, key. split_and!; [done..|congruence].
  - left. by rewrite <-Hold.
Qed.

Lemma level_node_old k r : node_at out k = Some r → node_at out' k = Some r.
Proof. apply node_at_prefix. by apply prefix_app_r. Qed.

Lemma level_node_new i key :
  keys !! i = Some key → node_at out' (N.of_nat (length out + i) + 2) = Some (mkRaw v key.1 key.2).
Proof.
  intros Hk. unfold node_at. destruct (N.ltb_spec (N.of_nat (length out + i) + 2) 2); [lia|].
  replace (N.to_nat _) with (length out + i)%nat by lia. unfold out'.
  rewrite lookup_app_r by lia. replace (length out + i - length out)%nat with i by lia.
  by rewrite list_lookup_fmap, Hk.
Qed.

Lemma level_node_inv k r :
  node_at out' k = Some r →
  node_at out k = Some r ∨
  ∃ i key, keys !! i = Some key ∧ r = mkRaw v key.1 key.2 ∧ k = N.of_nat (length out + i) + 2.
Proof.
  unfold node_at, out'. destruct (N.ltb_spec k 2); [done|].
  intros [Hl|[Hge Hl]]%lookup_app_Some; [by left|]. right.
  rewrite list_lookup_fmap in Hl. apply fmap_Some in Hl as (key & Hkey & ->).
  eexists _, key. split; [done|]. split; [done|]. lia.
Qed.

Lemma level_laid : laid ns remap out → laid ns remap' out'.
Proof.
  intros HL. assert (Hp : out `prefix_of` out') by (by apply prefix_app_r).
  assert (Hlen : length out' = (length out + length keys)%nat).
  { unfold out'. by rewrite length_app, length_fmap. }
  split.
  - intros x k [[_ Hk]|(i & key & Hi & Hkey & _ & ->)]%level_entry.
    + apply (laid_rng _ _ _ HL) in Hk. lia.
    + apply lookup_lt_Some in Hkey. lia.
  - intros x k [[_ Hk]|(i & key & Hi & Hkey & (r & Hr & Hv & Hl & Hh) & ->)]%level_entry.
    + by eapply iso_prefix, (laid_iso _ _ _ HL).
    + apply (iso_node _ _ _ _ r (mkRaw v key.1 key.2)); [done|by apply level_node_new|done|..]; cbn.
      * eapply iso_prefix; [done|]. by eapply label_iso.
      * eapply iso_prefix; [done|]. by eapply label_iso.
  - intros x y k [[_ Hx]|(i & key & Hi & _ & _ & ->)]%level_entry
      [[_ Hy]|(j & key' & Hj & _ & _ & E)]%level_entry.
    + by eapply (laid_inj _ _ _ HL).
    + apply (laid_rng _ _ _ HL) in Hx. lia.
    + apply (laid_rng _ _ _ HL) in Hy. lia.
    + assert (i = j) as -> by lia. congruence.
  - intros k r [Hk|(i & key & Hkey & _ & ->)]%level_node_inv.
    + destruct (laid_surj _ _ _ HL _ _ Hk) as [x Hx]. exists x. rewrite Hold; [done|].
      intros Hin%Hfresh. congruence.
    + destruct (Forall2_lookup_r _ _ _ _ _ Hkeys Hkey) as (x & Hx & _). exists x. eauto.
  - intros k r [Hk|(i & key & Hkey & -> & ->)]%level_node_inv.
    + by apply (laid_lt _ _ _ HL) in Hk.
    + destruct (Forall2_lookup_r _ _ _ _ _ Hkeys Hkey) as (x & Hx & r & _ & _ & Hl & Hh).
      apply (label_iso _ _ _ _ _ HL) in Hl as [_ Hl], Hh as [_ Hh]. cbn. lia.
Qed.
End Level.

(** The groups still to be emitted, for the set [R] of reachable nodes. *)
Record pending (ns : list RawNode) (R : N → Prop) (remap : gmap N N)
    (L : list (N * list N)) : Prop := {
  pend_sorted : StronglySorted (λ x y, y.1 < x.1) L;
  pend_level : ∀ v ids, (v, ids) ∈ L → NoDup ids ∧
    ∀ x, x ∈ ids → R x ∧ ∃ r, node_at ns x = Some r ∧ var_index r = v;
  pend_done : ∀ x k, remap !! x = Some k → R x ∧
    ∃ r, node_at ns x = Some r ∧ ∀ v ids, (v, ids) ∈ L → v < var_index r;
  pend_all : ∀ x, R x → is_Some (remap !! x) ∨ ∃ v ids, (v, ids) ∈ L ∧ x ∈ ids;
}.

(** [R] is closed under children. *)
Definition closed (ns : list RawNode) (R : N → Prop) : Prop :=
  ∀ x r, R x → node_at ns x = Some r → ∀ c, c = low r ∨ c = high r → c < 2 ∨ R c.

Section Step.
Context (st : BddBuilder) (Hw : wf st) (R : N → Prop) (HR : closed (nodes st) R).
Context (v : N) (ids : list N) (L : list (N * list N)) (remap : gmap N N) (out : list RawNode).
Hypothesis HP : pending (nodes st) R remap ((v, ids) :: L).

Lemma pending_child x r c :
  x ∈ ids → node_at (nodes st) x = Some r → c = low r ∨ c = high r →
  is_Some (label remap c).
Proof.
  intros Hx Hr Hc. destruct (pend_level _ _ _ _ HP v ids) as [_ Hl]; [by left|].
  destruct (Hl x Hx) as (HRx & r' & Hr' & Hv). simplify_eq.
  unfold label. destruct (N.ltb_spec c 2) as [|Hge]; [done|].
  destruct (HR _ _ HRx Hr c Hc) as [|HRc]; [lia|].
  destruct (pend_all _ _ _ _ HP c HRc) as [|(w & ids' & Hin & Hcin)]; [done|]. exfalso.
  destruct (pend_level _ _ _ _ HP w ids' Hin) as [_ Hl'].
  destruct (Hl' c Hcin) as (_ & rc & Hrc & <-).
  assert (var_index rc ≤ var_index r) as Hle.
  { apply elem_of_cons in Hin as [[= -> ->]|Hin]; [lia|].
    pose proof (pend_sorted _ _ _ _ HP) as Hs. inversion Hs as [|? ? _ HF]; subst.
    rewrite Forall_forall in HF. apply HF in Hin. cbn in Hin. lia. }
  destruct (wf_nodes _ _ (wf_ar _ Hw) _ _ Hr) as [_ _ _ Hla Hha].
  destruct Hc as [-> | ->]; [apply Hla in Hrc|apply Hha in Hrc]; lia.
Qed.

Lemma pending_keys : Forall (λ id, ∃ k, has_key (nodes st) remap v id k) ids.
Proof.
  apply Forall_forall. intros x Hx. destruct (pend_level _ _ _ _ HP v ids) as [_ Hl]; [by left|].
  destruct (Hl x Hx) as (_ & r & Hr & Hv).
  destruct (pending_child x r (low r) Hx Hr) as [l Hll]; [by left|].
  destruct (pending_child x r (high r) Hx Hr) as [h Hh]; [by right|].
  exists (l, h), r. done.
Qed.

Lemma pending_fresh x : x ∈ ids → remap !! x = None.
Proof.
  intros Hx. destruct (remap !! x) as [k|] eqn:E; [|done]. exfalso.
  destruct (pend_done _ _ _ _ HP x k E) as (_ & r & Hr & Hlt).
  destruct (pend_level _ _ _ _ HP v ids) as [_ Hl]; [by left|].
  destruct (Hl x Hx) as (_ & r' & Hr' & Hv). simplify_eq.
  specialize (Hlt (var_index r) ids). rewrite elem_of_cons in Hlt. specialize (Hlt (or_introl eq_refl)).
  lia.
Qed.

Lemma pending_next remap' :
  (∀ x, x ∉ ids → remap' !! x = remap !! x) → (∀ x, x ∈ ids → is_Some (remap' !! x)) →
  pending (nodes st) R remap' L.
Proof.
  intros Hold Hnew. pose proof (pend_sorted _ _ _ _ HP) as Hs. inversion Hs as [|? ? Hs' HF]; subst.
  split.
  - done.
  - intros w ids' Hin. apply (pend_level _ _ _ _ HP). by right.
  - intros x k Hk. destruct (decide (x ∈ ids)) as [Hx|Hx].
    + destruct (pend_level _ _ _ _ HP v ids) as [_ Hl]; [by left|].
      destruct (Hl x Hx) as (HRx & r & Hr & <-). split; [done|]. exists r. split; [done|].
      intros w ids' Hin. rewrite Forall_forall in HF. by apply HF in Hin.
    + rewrite Hold in Hk by done. destruct (pend_done _ _ _ _ HP x k Hk) as (? & r & ? & Hlt).
      split; [done|]. exists r. split; [done|]. intros w ids' Hin. apply (Hlt w ids'). by right.
  - intros x HRx. destruct (decide (x ∈ ids)) as [Hx|Hx]; [left; by apply Hnew|].
    rewrite Hold by done. destruct (pend_all _ _ _ _ HP x HRx) as [|(w & ids' & Hin & Hxin)]; [by left|].
    apply elem_of_cons in Hin as [[= -> ->]|Hin]; [done|]. right. eauto.
Qed.

(** One iteration of the outer loop. *)
Lemma emit_level :
  laid (nodes st) remap out →
  ∃ ids' keys remap', sort_ids st remap ids = Ok ids' ∧
    emit_ids st ids' remap out = Ok (remap', out ++ ((λ k, mkRaw v k.1 k.2) <$> keys)) ∧
    ids' ≡ₚ ids ∧ Forall2 (has_key (nodes st) remap v) ids' keys ∧ StronglySorted key_le keys ∧
    (∀ x, x ∉ ids' → remap' !! x = remap !! x) ∧
    (∀ i x, ids' !! i = Some x → remap' !! x = Some (N.of_nat (length out + i) + 2)) ∧
    laid (nodes st) remap' (out ++ ((λ k, mkRaw v k.1 k.2) <$> keys)) ∧
    pending (nodes st) R remap' L.
Proof.
  intros HL. destruct (sort_ids_spec _ _ _ _ pending_keys) as (ids' & keys & E & Hp & HF & Hs).
  destruct (pend_level _ _ _ _ HP v ids) as [Hd _]; [by left|].
  assert (Hd' : NoDup ids') by (by rewrite Hp).
  destruct (emit_ids_spec st v ids' keys remap out Hw HF Hd') as (remap' & E' & Hold & Hnew).
  exists ids', keys, remap'. split_and!; try done.
  - eapply level_laid; try done. intros x. rewrite Hp. apply pending_fresh.
  - apply pending_next; [intros x; rewrite <-Hp; apply Hold|].
    intros x. rewrite <-Hp. intros [i Hi]%list_elem_of_lookup. eauto.
Qed.
End Step.

(** ** Two runs *)

Section TwoRuns.
Context (st1 st2 : BddBuilder) (Hw1 : wf st1) (Hw2 : wf st2).
Context (R1 R2 : N → Prop) (HR1 : closed (nodes st1) R1) (HR2 : closed (nodes st2) R2).
Notation ns1 := (nodes st1).
Notation ns2 := (nodes st2).

Definition matched (x y : N * list N) : Prop :=
  x.1 = y.1 ∧ (∀ a, a ∈ x.2 → ∃ b, b ∈ y.2 ∧ iso ns1 ns2 a b) ∧
  (∀ b, b ∈ y.2 → ∃ a, a ∈ x.2 ∧ iso ns1 ns2 a b).

(** The same trees got the same labels. *)
Definition agree (remap1 remap2 : gmap N N) : Prop :=
  ∀ x y, iso ns1 ns2 x y → remap1 !! x = remap2 !! y.

Lemma iso_unique_r a b b' : iso ns1 ns2 a b → iso ns1 ns2 a b' → b = b'.
Proof.
  intros H H'. eapply (iso_eq ns2 (unique st2)); [apply Hw2|].
  eapply iso_trans_r; apply iso_sym; done.
Qed.
Lemma iso_unique_l a a' b : iso ns1 ns2 a b → iso ns1 ns2 a' b → a = a'.
Proof.
  intros H H'. eapply (iso_eq ns1 (unique st1)); [apply Hw1|]. by eapply iso_trans_r.
Qed.

Lemma agree_label remap1 remap2 c d :
  agree remap1 remap2 → iso ns1 ns2 c d → label remap1 c = label remap2 d.
Proof.
  intros Ha Hi. pose proof (Ha c d Hi) as E. unfold label.
  inversion Hi as [x|? ? r1 r2 H1 H2]; subst.
  - by destruct x.
  - apply node_at_Some in H1 as [H1 _], H2 as [H2 _].
    destruct (N.ltb_spec c 2), (N.ltb_spec d 2); done || lia.
Qed.

Lemma agree_key remap1 remap2 v x y k k' :
  agree remap1 remap2 → iso ns1 ns2 x y → has_key ns1 remap1 v x k → has_key ns2 remap2 v y k' →
  k = k'.
Proof.
  intros Ha Hi (r1 & H1 & _ & Hl1 & Hh1) (r2 & H2 & _ & Hl2 & Hh2).
  inversion Hi as [b|? ? r1' r2' H1' H2' _ Hl Hh]; subst; [by destruct b|]. simplify_eq.
  rewrite (agree_label _ _ _ _ Ha Hl) in Hl1. rewrite (agree_label _ _ _ _ Ha Hh) in Hh1.
  destruct k, k'. cbn in *. congruence.
Qed.

(** The group's keys are strictly sorted, so they are determined by the set
    of trees in the group. *)
Lemma keys_nodup ns u remap out v ids keys :
  wf_arena ns u → laid ns remap out → Forall2 (has_key ns remap v) ids keys → NoDup ids →
  NoDup keys.
Proof.
  intros Hw HL HF Hd. apply NoDup_alt. intros i j k Hi Hj.
  destruct (Forall2_lookup_r _ _ _ _ _ HF Hi) as (x & Hx & Hkx).
  destruct (Forall2_lookup_r _ _ _ _ _ HF Hj) as (y & Hy & Hky).
  pose proof (has_key_inj _ _ _ _ _ _ _ _ Hw HL Hkx Hky) as ->.
  by eapply NoDup_lookup.
Qed.

Lemma keys_agree remap1 remap2 out v ids1 ids2 keys1 keys2 :
  agree remap1 remap2 → laid ns1 remap1 out → laid ns2 remap2 out →
  Forall2 (has_key ns1 remap1 v) ids1 keys1 → Forall2 (has_key ns2 remap2 v) ids2 keys2 →
  NoDup ids1 → NoDup ids2 → StronglySorted key_le keys1 → StronglySorted key_le keys2 →
  (∀ a, a ∈ ids1 → ∃ b, b ∈ ids2 ∧ iso ns1 ns2 a b) →
  (∀ b, b ∈ ids2 → ∃ a, a ∈ ids1 ∧ iso ns1 ns2 a b) → keys1 = keys2.
Proof.
  intros Ha L1 L2 F1 F2 D1 D2 S1 S2 M1 M2. apply (StronglySorted_unique key_le); [done..|].
  apply NoDup_Permutation;
    [by eapply keys_nodup; [apply Hw1|..]|by eapply keys_nodup; [apply Hw2|..]|].
  intros k. rewrite !list_elem_of_lookup. split.
  - intros [i Hi]. destruct (Forall2_lookup_r _ _ _ _ _ F1 Hi) as (x & Hx & Hkx).
    destruct (M1 x) as (y & Hy & Hxy); [by eapply list_elem_of_lookup_2|].
    apply list_elem_of_lookup in Hy as [j Hj].
    destruct (Forall2_lookup_l _ _ _ _ _ F2 Hj) as (k' & Hk' & Hky).
    exists j. by rewrite (agree_key _ _ _ _ _ _ _ Ha Hxy Hkx Hky).
  - intros [i Hi]. destruct (Forall2_lookup_r _ _ _ _ _ F2 Hi) as (y & Hy & Hky).
    destruct (M2 y) as (x & Hx & Hxy); [by eapply list_elem_of_lookup_2|].
    apply list_elem_of_lookup in Hx as [j Hj].
    destruct (Forall2_lookup_l _ _ _ _ _ F1 Hj) as (k' & Hk' & Hkx).
    exists j. by rewrite <-(agree_key _ _ _ _ _ _ _ Ha Hxy Hkx Hky).
Qed.

Lemma agree_level remap1 remap2 remap1' remap2' (out : list RawNode) v ids1 ids2 keys :
  agree remap1 remap2 → laid ns1 remap1 out → laid ns2 remap2 out →
  Forall2 (has_key ns1 remap1 v) ids1 keys → Forall2 (has_key ns2 remap2 v) ids2 keys →
  NoDup keys →
  (∀ a, a ∈ ids1 → ∃ b, b ∈ ids2 ∧ iso ns1 ns2 a b) →
  (∀ b, b ∈ ids2 → ∃ a, a ∈ ids1 ∧ iso ns1 ns2 a b) →
  (∀ x, x ∉ ids1 → remap1' !! x = remap1 !! x) → (∀ x, x ∉ ids2 → remap2' !! x = remap2 !! x) →
  (∀ i x, ids1 !! i = Some x → remap1' !! x = Some (N.of_nat (length out + i) + 2)) →
  (∀ i x, ids2 !! i = Some x → remap2' !! x = Some (N.of_nat (length out + i) + 2)) →
  agree remap1' remap2'.
Proof.
  intros Ha L1 L2 F1 F2 Dk M1 M2 O1 O2 N1 N2 x y Hxy.
  destruct (decide (x ∈ ids1)) as [Hx|Hx].
  - destruct (M1 x Hx) as (y' & Hy & Hxy'). pose proof (iso_unique_r _ _ _ Hxy Hxy') as <-.
    apply list_elem_of_lookup in Hx as [i Hi], Hy as [j Hj]. rewrite (N1 i x Hi), (N2 j y Hj).
    destruct (Forall2_lookup_l _ _ _ _ _ F1 Hi) as (k & Hk & Hkx).
    destruct (Forall2_lookup_l _ _ _ _ _ F2 Hj) as (k' & Hk' & Hky).
    pose proof (agree_key _ _ _ _ _ _ _ Ha Hxy Hkx Hky) as <-.
    by rewrite (NoDup_lookup _ _ _ _ Dk Hk Hk').
  - assert (Hy : y ∉ ids2).
    { intros (x' & Hx' & Hxy')%M2. by rewrite (iso_unique_l _ _ _ Hxy Hxy') in Hx. }
    rewrite O1, O2 by done. by apply Ha.
Qed.

Lemma emit_levels_agree L1 L2 remap1 remap2 out :
  Forall2 matched L1 L2 → pending ns1 R1 remap1 L1 → pending ns2 R2 remap2 L2 →
  agree remap1 remap2 → laid ns1 remap1 out → laid ns2 remap2 out →
  ∃ remap1' remap2' out',
    emit_levels st1 L1 remap1 out = Ok (remap1', out') ∧
    emit_levels st2 L2 remap2 out = Ok (remap2', out') ∧
    agree remap1' remap2' ∧ laid ns1 remap1' out' ∧ laid ns2 remap2' out' ∧
    pending ns1 R1 remap1' [] ∧ pending ns2 R2 remap2' [].
Proof.
  intros HF. revert remap1 remap2 out.
  induction HF as [|[v ids1] [v' ids2] L1 L2 (E & M1 & M2) _ IH];
    intros remap1 remap2 out P1 P2 Ha HL1 HL2.
  { by exists remap1, remap2, out. }
  cbn in E, M1, M2. subst v'.
  destruct (emit_level st1 Hw1 R1 HR1 v ids1 L1 remap1 out P1 HL1)
    as (ids1' & keys1 & remap1' & ES1 & EE1 & Hp1 & F1 & S1 & O1 & N1 & HL1' & P1').
  destruct (emit_level st2 Hw2 R2 HR2 v ids2 L2 remap2 out P2 HL2)
    as (ids2' & keys2 & remap2' & ES2 & EE2 & Hp2 & F2 & S2 & O2 & N2 & HL2' & P2').
  assert (D1 : NoDup ids1'). { rewrite Hp1. apply (pend_level _ _ _ _ P1 v). by left. }
  assert (D2 : NoDup ids2'). { rewrite Hp2. apply (pend_level _ _ _ _ P2 v). by left. }
  setoid_rewrite <-Hp1 in M1. setoid_rewrite <-Hp2 in M1.
  setoid_rewrite <-Hp1 in M2. setoid_rewrite <-Hp2 in M2.
  assert (keys1 = keys2) as <-.
  { exact (keys_agree _ _ out v _ _ _ _ Ha HL1 HL2 F1 F2 D1 D2 S1 S2 M1 M2). }
  assert (Ha' : agree remap1' remap2').
  { eapply (agree_level remap1 remap2 _ _ out v ids1' ids2' keys1); try done.
    apply (keys_nodup ns1 (unique st1) remap1 out v ids1'); [apply Hw1|done..]. }
  destruct (IH _ _ _ P1' P2' Ha' HL1' HL2') as (r1 & r2 & out' & E1 & E2 & H).
  exists r1, r2, out'. cbn [emit_levels]. rewrite ES1, ES2.
  change (Ok ?x ≫= ?k) with (k x). cbn beta. rewrite EE1, EE2.
  change (Ok ?x ≫= ?k) with (k x). cbn beta iota. done.
Qed.
End TwoRuns.

(** ** The groups of a root *)

#[export] Instance entry_le_total : Total entry_le.
Proof. intros x y. unfold entry_le. lia. Qed.
#[export] Instance entry_le_trans : Transitive entry_le.
Proof. intros x y z. unfold entry_le. lia. Qed.

Lemma elem_of_levels m v ids : (v, ids) ∈ levels_of m ↔ m !! v = Some ids.
Proof.
  unfold levels_of. rewrite (merge_sort_Permutation entry_le). apply elem_of_map_to_list.
Qed.

Lemma levels_nodup m : NoDup (levels_of m).*1.
Proof.
  unfold levels_of. rewrite (merge_sort_Permutation entry_le). apply NoDup_fst_map_to_list.
Qed.

Lemma levels_strict m : StronglySorted (λ x y, y.1 < x.1) (levels_of m).
Proof.
  pose proof (levels_nodup m) as Hd.
  assert (Hs : StronglySorted entry_le (levels_of m)) by (apply StronglySorted_merge_sort; apply _).
  induction Hs as [|x l _ IH HF]; [constructor|]. cbn in Hd. inversion Hd as [|? ? Hx Hd']; subst.
  constructor; [by apply IH|]. apply Forall_forall. intros y Hy. rewrite Forall_forall in HF.
  specialize (HF y Hy). unfold entry_le in HF.
  assert (y.1 ≠ x.1); [|lia]. intros E. apply Hx. rewrite <-E. by apply list_elem_of_fmap_2.
Qed.

Section Root.
Context (st : BddBuilder) (Hw : wf st) (root : N) (m : gmap N (list N)).
Hypothesis Hc : collected (nodes st) m.
Hypothesis Hsub : ∀ id, reached m id ↔ sub (nodes st) root id.
Hypothesis Hfull : ∀ v ids, m !! v = Some ids → ids ≠ [].

Lemma sub_closed : closed (nodes st) (sub (nodes st) root).
Proof. intros x r Hx Hr c Hcc. rewrite <-Hsub in *. by eapply (col_closed _ _ Hc). Qed.

Lemma level_pending : pending (nodes st) (sub (nodes st) root) ∅ (levels_of m).
Proof.
  split.
  - apply levels_strict.
  - intros v ids Hin%elem_of_levels. split; [by eapply (col_nodup _ _ Hc)|].
    intros x Hx. split; [apply Hsub; by exists v, ids|]. by eapply (col_var _ _ Hc).
  - intros x k H. by rewrite lookup_empty in H.
  - intros x Hx%Hsub. destruct Hx as (v & ids & Hm & Hx). right. exists v, ids.
    by rewrite elem_of_levels.
Qed.

(** A variable has a group iff a node below the root tests it. *)
Lemma level_vars v :
  v ∈ (levels_of m).*1 ↔ ∃ x r, sub (nodes st) root x ∧ node_at (nodes st) x = Some r ∧ var_index r = v.
Proof.
  rewrite list_elem_of_fmap. split.
  - intros ([v' ids] & -> & Hin). rewrite elem_of_levels in Hin. cbn.
    assert (Hx : ∃ x, x ∈ ids).
    { destruct ids as [|x l]; [by apply Hfull in Hin|]. exists x. by left. }
    destruct Hx as [x Hx]. destruct (col_var _ _ Hc _ _ _ Hin Hx) as (r & Hr & Hv).
    exists x, r. split_and!; [|done|done]. apply Hsub. by exists v', ids.
  - intros (x & r & Hx & Hr & <-). apply Hsub in Hx as (v & ids & Hm & Hx).
    destruct (col_var _ _ Hc _ _ _ Hm Hx) as (r' & Hr' & <-). simplify_eq.
    exists (var_index r, ids). by rewrite elem_of_levels.
Qed.

Lemma level_mem v ids x r :
  m !! v = Some ids → sub (nodes st) root x → node_at (nodes st) x = Some r → var_index r = v →
  x ∈ ids.
Proof.
  intros Hm Hx Hr <-. apply Hsub in Hx. apply (reached_at _ _ _ _ Hc Hr) in Hx. by rewrite Hm in Hx.
Qed.
End Root.

Lemma sub_iso ns1 ns2 a b x :
  iso ns1 ns2 a b → sub ns1 a x → ∃ y, sub ns2 b y ∧ iso ns1 ns2 x y.
Proof.
  intros Hi Hs. revert b Hi.
  induction Hs as [a r Hr|a r x Hr _ IH|a r x Hr _ IH]; intros b Hi;
    (inversion Hi as [z|? ? r1 r2 H1 H2 Hv Hl Hh]; subst; [by destruct z|]); simplify_eq.
  - exists b. split; [by econstructor|done].
  - destruct (IH _ Hl) as (y & ? & ?). exists y. split; [by eapply sub_low|done].
  - destruct (IH _ Hh) as (y & ? & ?). exists y. split; [by eapply sub_high|done].
Qed.

Lemma iso_var ns1 ns2 x y r1 :
  iso ns1 ns2 x y → node_at ns1 x = Some r1 →
  ∃ r2, node_at ns2 y = Some r2 ∧ var_index r2 = var_index r1.
Proof.
  intros Hi Hx. inversion Hi as [z|? ? r1' r2' H1 H2 Hv]; subst; [by destruct z|].
  simplify_eq. eauto.
Qed.

Section Matching.
Context (st1 st2 : BddBuilder) (Hw1 : wf st1) (Hw2 : wf st2) (root1 root2 : N).
Context (m1 m2 : gmap N (list N)).
Hypothesis Hi : iso (nodes st1) (nodes st2) root1 root2.
Hypothesis Hc1 : collected (nodes st1) m1.
Hypothesis Hc2 : collected (nodes st2) m2.
Hypothesis Hs1 : ∀ id, reached m1 id ↔ sub (nodes st1) root1 id.
Hypothesis Hs2 : ∀ id, reached m2 id ↔ sub (nodes st2) root2 id.
Hypothesis Hf1 : ∀ v ids, m1 !! v = Some ids → ids ≠ [].
Hypothesis Hf2 : ∀ v ids, m2 !! v = Some ids → ids ≠ [].

Lemma levels_vars_eq : (levels_of m1).*1 = (levels_of m2).*1.
Proof.
  assert (Hs : ∀ m, StronglySorted (λ x y : N, y ≤ x) (levels_of m).*1).
  { intros m. pose proof (levels_strict m) as Hs.
    induction Hs as [|x l _ IH HF]; cbn; constructor; [done|]. apply Forall_fmap.
    eapply Forall_impl; [done|]. intros y Hy. cbn in *. lia. }
  assert (Ha : AntiSymm (=) (λ x y : N, y ≤ x)) by (intros x y; lia).
  apply (StronglySorted_unique (λ x y : N, y ≤ x)); [done|done|].
  apply NoDup_Permutation; [apply levels_nodup..|]. intros v.
  rewrite (level_vars st1 root1 m1 Hc1 Hs1 Hf1), (level_vars st2 root2 m2 Hc2 Hs2 Hf2). split.
  - intros (x & r & Hx & Hr & <-). destruct (sub_iso _ _ _ _ _ Hi Hx) as (y & Hy & Hxy).
    destruct (iso_var _ _ _ _ _ Hxy Hr) as (r2 & ? & ?). eauto.
  - intros (x & r & Hx & Hr & <-).
    destruct (sub_iso _ _ _ _ _ (iso_sym _ _ _ _ Hi) Hx) as (y & Hy & Hxy).
    destruct (iso_var _ _ _ _ _ Hxy Hr) as (r2 & ? & ?). eauto.
Qed.

Lemma levels_matched : Forall2 (matched st1 st2) (levels_of m1) (levels_of m2).
Proof.
  assert (Hkeys : Forall2 (λ x y, x.1 = y.1) (levels_of m1) (levels_of m2)).
  { pose proof levels_vars_eq as E. revert E. generalize (levels_of m2).
    induction (levels_of m1) as [|x l IH]; intros [|y l'] E; try done; constructor.
    - by injection E.
    - apply IH. by injection E. }
  apply Forall2_same_length_lookup_2; [by eapply Forall2_length|].
  intros i [v ids1] [v' ids2] H1 H2.
  assert (v = v') as <- by exact (Forall2_lookup_lr _ _ _ _ _ _ Hkeys H1 H2).
  apply list_elem_of_lookup_2, elem_of_levels in H1, H2. split_and!; cbn; [done| |].
  - intros a Ha. destruct (col_var _ _ Hc1 _ _ _ H1 Ha) as (r & Hr & Hv).
    assert (Hsa : sub (nodes st1) root1 a) by (apply Hs1; by exists v, ids1).
    destruct (sub_iso _ _ _ _ _ Hi Hsa) as (b & Hb & Hab).
    destruct (iso_var _ _ _ _ _ Hab Hr) as (r2 & Hr2 & Hv2). exists b. split; [|done].
    eapply (level_mem st2 root2 m2); try done. congruence.
  - intros b Hb. destruct (col_var _ _ Hc2 _ _ _ H2 Hb) as (r & Hr & Hv).
    assert (Hsb : sub (nodes st2) root2 b) by (apply Hs2; by exists v, ids2).
    destruct (sub_iso _ _ _ _ _ (iso_sym _ _ _ _ Hi) Hsb) as (a & Ha & Hba).
    destruct (iso_var _ _ _ _ _ Hba Hr) as (r2 & Hr2 & Hv2). exists a.
    split; [|by apply iso_sym]. eapply (level_mem st1 root1 m1); try done. congruence.
Qed.
End Matching.

(** ** The layout of a root *)

Record robdd (ns : list RawNode) : Prop := {
  robdd_nodes : ∀ id r, node_at ns id = Some r → wf_node ns id r;
  robdd_unique : ∀ id id' r, node_at ns id = Some r → node_at ns id' = Some r → id = id';
}.

(** The emitted table is itself a reduced ordered BDD. *)
Lemma laid_robdd ns u remap out : wf_arena ns u → laid ns remap out → robdd out.
Proof.
  intros Hw HL. pose proof (wf_nodes _ _ Hw) as Hn.
  assert (Hback : ∀ k r, node_at out k = Some r → ∃ x rx, remap !! x = Some k ∧
    node_at ns x = Some rx ∧ var_index rx = var_index r ∧
    iso ns out (low rx) (low r) ∧ iso ns out (high rx) (high r)).
  { intros k r Hk. destruct (laid_surj _ _ _ HL _ _ Hk) as [x Hx].
    pose proof (laid_iso _ _ _ HL _ _ Hx) as Hi.
    inversion Hi as [z|? ? rx r' H1 H2 Hv Hl Hh]; subst; [by destruct z|]. simplify_eq. eauto 10. }
  assert (Habove : ∀ v c k, iso ns out c k → above ns v c → above out v k).
  { intros v c k Hi Ha r Hk. inversion Hi as [z|? ? rx r' H1 H2 Hv]; subst; [by destruct z|].
    simplify_eq. rewrite <-Hv. by apply Ha. }
  split.
  - intros k r Hk. destruct (Hback k r Hk) as (x & rx & Hx & Hrx & Hv & Hl & Hh).
    destruct (Hn _ _ Hrx) as [_ _ Hne Hla Hha]. destruct (laid_lt _ _ _ HL _ _ Hk).
    split; try done; [|rewrite <-Hv; by eapply Habove..].
    intros E. rewrite E in Hl. apply Hne. eapply (iso_eq ns u); [done|]. by eapply iso_trans_r.
  - intros k k' r Hk Hk'. destruct (Hback _ _ Hk) as (x & rx & Hx & Hrx & Hv & Hl & Hh).
    destruct (Hback _ _ Hk') as (y & ry & Hy & Hry & Hv' & Hl' & Hh').
    assert (Hxy : iso ns ns x y).
    { apply (iso_node _ _ _ _ rx ry); [done|done|congruence|by eapply iso_trans_r..]. }
    apply (iso_eq ns u _ _ Hw) in Hxy as ->. congruence.
Qed.

(** The layout is no longer than the arena, so its [u32] ids are exact. *)
Lemma laid_length ns remap out :
  laid ns remap out → (∀ x k, remap !! x = Some k → is_Some (node_at ns x)) →
  (length out ≤ length ns)%nat.
Proof.
  intros HL Hdom. pose (id := λ i : nat, N.of_nat i + 2).
  assert (Hxs : ∃ xs, Forall2 (λ k x, remap !! x = Some k) (id <$> seq 0 (length out)) xs).
  { assert (HF : Forall (λ k, ∃ x, remap !! x = Some k) (id <$> seq 0 (length out))).
    { apply Forall_fmap, Forall_forall. intros i [_ Hi]%elem_of_seq. cbn in *.
      destruct (lookup_lt_is_Some_2 out i Hi) as [r Hr]. apply (laid_surj _ _ _ HL _ r).
      unfold node_at, id. destruct (N.ltb_spec (N.of_nat i + 2) 2); [lia|].
      by replace (N.to_nat (N.of_nat i + 2 - 2)) with i by lia. }
    induction HF as [|k ks [x Hx] _ [xs IH]]; [by exists []|]. exists (x :: xs). by constructor. }
  destruct Hxs as [xs HF]. pose proof (Forall2_length _ _ _ HF) as Hlen.
  rewrite length_fmap, length_seq in Hlen.
  assert (Hd : NoDup xs).
  { apply NoDup_alt. intros i j x Hi Hj.
    destruct (Forall2_lookup_r _ _ _ _ _ HF Hi) as (k & Hki & Hk).
    destruct (Forall2_lookup_r _ _ _ _ _ HF Hj) as (k' & Hkj & Hk').
    simplify_eq. rewrite list_lookup_fmap in Hki, Hkj.
    apply fmap_Some in Hki as (i' & [-> _]%lookup_seq & ->), Hkj as (j' & [-> _]%lookup_seq & E).
    unfold id in E. lia. }
  rewrite Hlen, <-(length_seq (length ns) 0), <-(length_fmap id). apply submseteq_length.
  apply NoDup_submseteq; [done|]. intros x [i Hi]%list_elem_of_lookup.
  destruct (Forall2_lookup_r _ _ _ _ _ HF Hi) as (k & _ & [r Hr]%Hdom).
  apply node_at_Some in Hr as [H2 Hlt]. apply list_elem_of_fmap. exists (N.to_nat (x - 2)).
  split; [unfold id; lia|]. apply elem_of_seq. lia.
Qed.

(** Two roots with the same tree have the same layout; the layout holds that
    tree. *)
Lemma ordered_nodes_iso st1 st2 root1 root2 :
  wf st1 → wf st2 → valid (nodes st1) root1 → valid (nodes st2) root2 → 2 ≤ root1 →
  iso (nodes st1) (nodes st2) root1 root2 →
  ∃ out id, ordered_nodes st1 root1 = Ok (out, id) ∧ ordered_nodes st2 root2 = Ok (out, id) ∧
    iso (nodes st1) out root1 id ∧ robdd out ∧ valid out id ∧ 2 ≤ id ∧
    (length out ≤ length (nodes st1))%nat ∧
    ∀ k r, node_at out k = Some r → ∃ x rx, node_at (nodes st1) x = Some rx ∧
      var_index rx = var_index r.
Proof.
  intros Hw1 Hw2 Hv1 Hv2 H1 Hi.
  assert (H2 : 2 ≤ root2).
  { inversion Hi as [z|? ? r1 r2 _ Hr2]; subst; [by destruct z|].
    by destruct (node_at_Some _ _ _ Hr2). }
  destruct (collect_reachable_root st1 root1 Hw1 Hv1 H1) as (m1 & E1 & C1 & S1 & F1).
  destruct (collect_reachable_root st2 root2 Hw2 Hv2 H2) as (m2 & E2 & C2 & S2 & F2).
  pose proof (level_pending st1 root1 m1 C1 S1) as P1.
  pose proof (level_pending st2 root2 m2 C2 S2) as P2.
  pose proof (levels_matched st1 st2 root1 root2 m1 m2 Hi C1 C2 S1 S2 F1 F2) as HM.
  destruct (emit_levels_agree st1 st2 Hw1 Hw2 _ _ (sub_closed st1 root1 m1 C1 S1)
    (sub_closed st2 root2 m2 C2 S2) _ _ ∅ ∅ [] HM P1 P2) as
    (remap1 & remap2 & out & Em1 & Em2 & Ha & L1 & L2 & Q1 & Q2); [|apply laid_empty..|].
  { intros x y _. by rewrite !lookup_empty. }
  destruct (node_at_valid _ _ Hv1 H1) as [r1 Hr1].
  destruct (pend_all _ _ _ _ Q1 root1) as [[id Hid]|(v & ids & Hnil & _)];
    [by econstructor| |by apply elem_of_nil in Hnil].
  exists out, id. unfold ordered_nodes, FALSE_REF, TRUE_REF.
  destruct (N.eqb_spec root1 0), (N.eqb_spec root1 1), (N.eqb_spec root2 0), (N.eqb_spec root2 1);
    try lia.
  rewrite E1, E2. change (Ok ?x ≫= ?k) with (k x). cbn beta. rewrite Em1, Em2.
  change (Ok ?x ≫= ?k) with (k x). cbn beta iota. rewrite <-(Ha _ _ Hi), Hid.
  destruct (laid_rng _ _ _ L1 _ _ Hid). split_and!; try done.
  - by apply (laid_iso _ _ _ L1).
  - eapply laid_robdd; [apply Hw1|done].
  - eapply laid_length; [done|]. intros x k Hx.
    apply (pend_done _ _ _ _ Q1) in Hx as (_ & r & Hr & _). eauto.
  - intros k r Hk. destruct (laid_surj _ _ _ L1 _ _ Hk) as [x Hx].
    pose proof (laid_iso _ _ _ L1 _ _ Hx) as Hxk.
    inversion Hxk as [z|? ? rx r' Hx1 Hx2 Hv]; subst; [by destruct z|]. simplify_eq. eauto.
Qed.
