(* ===== verification/BddBytes.v ===== *)
(** * The byte encoding of a BDD

    Models [BddBuilder::serialize], [push_node] and [node_count] of
    [compiler/src/ccm_emitter/bdd.rs].  A byte ([u8]) is an [ascii]; [u32]
    values are little-endian. *)
From S2P Require Import Prelude Bdd BddLayout.
Local Open Scope N_scope.

(** ** Little-endian words *)

Definition byte (n : N) : ascii := ascii_of_N (n mod 256).

Definition to_le_bytes (n : N) : list ascii :=
  [byte n; byte (n / 256); byte (n / 65536); byte (n / 16777216)].

Definition from_le_bytes (b0 b1 b2 b3 : ascii) : N :=
  N_of_ascii b0 + 256 * N_of_ascii b1 + 65536 * N_of_ascii b2 + 16777216 * N_of_ascii b3.

Lemma N_of_byte n : N_of_ascii (byte n) = n mod 256.
Proof. apply Ascii.N_ascii_embedding. by apply N.mod_lt. Qed.

Lemma from_to_le_bytes n :
  n < 4294967296 → from_le_bytes (byte n) (byte (n / 256)) (byte (n / 65536)) (byte (n / 16777216)) = n.
Proof.
  intros H. unfold from_le_bytes. rewrite !N_of_byte.
  replace (n / 16777216) with (n / 256 / 256 / 256) by (by rewrite !N.Div0.div_div).
  replace (n / 65536) with (n / 256 / 256) by (by rewrite !N.Div0.div_div).
  pose proof (N.div_mod n 256 ltac:(done)) as E0. pose proof (N.div_mod (n / 256) 256 ltac:(done)) as E1.
  pose proof (N.div_mod (n / 256 / 256) 256 ltac:(done)) as E2.
  rewrite (N.mod_small (n / 256 / 256 / 256)).
  - set (q := n / 256) in *. set (q' := q / 256) in *. set (q'' := q' / 256) in *. lia.
  - rewrite !N.Div0.div_div. apply N.Div0.div_lt_upper_bound. lia.
Qed.

Lemma to_le_bytes_inj n m : n < 4294967296 → m < 4294967296 → to_le_bytes n = to_le_bytes m → n = m.
Proof.
  intros Hn Hm [= E0 E1 E2 E3]. rewrite <-(from_to_le_bytes n), <-(from_to_le_bytes m) by done.
  by rewrite E0, E1, E2, E3.
Qed.

(** ** The table *)

Definition CCM_BDD_BIN_MAGIC : list ascii := bytes_of "CCMB".
Definition CCM_BDD_BIN_VERSION : ascii := "001"%char.

Definition push_node (v l h : N) : list ascii :=
  to_le_bytes v ++ to_le_bytes l ++ to_le_bytes h ++ [byte 0] ++ [byte 0; byte 0; byte 0].

Definition serialize (st : BddBuilder) (root var_count : N) : result bdd_fault (list ascii) :=
  '(ns, root_id) ← ordered_nodes st root;
  Ok (CCM_BDD_BIN_MAGIC ++ [CCM_BDD_BIN_VERSION] ++ [byte 0; byte 0; byte 0]
      ++ to_le_bytes var_count
      ++ to_le_bytes (N.of_nat (length ns) + 2)
      ++ to_le_bytes 1
      ++ to_le_bytes root_id
      ++ push_node TERMINAL_VAR_INDEX TERMINAL_FALSE TERMINAL_FALSE
      ++ push_node TERMINAL_VAR_INDEX TERMINAL_TRUE TERMINAL_TRUE
      ++ flat_map (λ r, push_node (var_index r) (low r) (high r)) ns).

(** [None] is the truncated-header error. *)
Definition node_count (bdd_bin : list ascii) : option N :=
  if decide (length bdd_bin < 16)%nat then None
  else
    match slice bdd_bin 12 16 with
    | [b0; b1; b2; b3] => Some (from_le_bytes b0 b1 b2 b3)
    | _ => None
    end.

Lemma ordered_nodes_terminal st1 st2 b :
  ordered_nodes st1 (bool_ref b) = ordered_nodes st2 (bool_ref b).
Proof. by destruct b. Qed.

Lemma ordered_nodes_ok st root :
  wf st → valid (nodes st) root →
  ∃ out id, ordered_nodes st root = Ok (out, id) ∧ (length out ≤ length (nodes st))%nat.
Proof.
  intros Hw Hv. destruct (N.ltb_spec root 2) as [H|H].
  - apply terminal_value_lt in H as (b & _ & ->). destruct b; eexists _, _; split; [done|cbn; lia|done|cbn; lia].
  - destruct (ordered_nodes_iso st st root root) as (out & id & E & _ & _ & _ & _ & _ & Hl & _); try done; [|eauto].
    eapply (eval_iso (N.succ root)); [lia|apply Hw|apply Hw|done..].
Qed.

(** Equal functions have equal layouts, in any two well-formed states. *)
Lemma layout_canonical st1 st2 root1 root2 :
  wf st1 → wf st2 → valid (nodes st1) root1 → valid (nodes st2) root2 →
  (∀ rho, eval (nodes st1) root1 rho = eval (nodes st2) root2 rho) →
  ordered_nodes st1 root1 = ordered_nodes st2 root2.
Proof.
  intros Hw1 Hw2 Hv1 Hv2 He.
  assert (Hi : iso (nodes st1) (nodes st2) root1 root2).
  { eapply (eval_iso (N.succ (N.max root1 root2))); [lia|apply Hw1|apply Hw2|done..]. }
  destruct (N.ltb_spec root1 2) as [H|H].
  - inversion Hi as [b|? ? r1 r2 Hr1]; subst; [apply ordered_nodes_terminal|].
    apply node_at_Some in Hr1. lia.
  - by destruct (ordered_nodes_iso st1 st2 root1 root2) as (out & id & -> & -> & _).
Qed.

(** Byte stability.  Two builders, with any memo caps, budgets, RSS
    samples and histories, that hold the same Boolean function serialize it to
    the same bytes, and serialization succeeds. *)
Theorem serialize_canonical cap1 cap2 budget1 budget2 st1 st2 root1 root2 var_count :
  rtc bdd_step (with_memo_cap_and_rss_budget cap1 budget1) st1 →
  rtc bdd_step (with_memo_cap_and_rss_budget cap2 budget2) st2 →
  valid (nodes st1) root1 → valid (nodes st2) root2 →
  (∀ rho, eval (nodes st1) root1 rho = eval (nodes st2) root2 rho) →
  ∃ bytes, serialize st1 root1 var_count = Ok bytes ∧ serialize st2 root2 var_count = Ok bytes.
Proof.
  intros H1%wf_reachable H2%wf_reachable Hv1 Hv2 He.
  pose proof (layout_canonical _ _ _ _ H1 H2 Hv1 Hv2 He) as E. unfold serialize. rewrite <-E.
  destruct (ordered_nodes_ok st1 root1 H1 Hv1) as (out & id & -> & _). eauto.
Qed.

Lemma serialize_canonical_witness :
  ∃ st1 st2 r1 r2 bytes,
    rtc bdd_step (with_memo_cap_and_rss_budget 1 None) st1 ∧
    rtc bdd_step (with_memo_cap_and_rss_budget 4096 (Some 7)) st2 ∧
    nodes st1 ≠ nodes st2 ∧
    serialize st1 r1 2 = Ok bytes ∧ serialize st2 r2 2 = Ok bytes.
Proof.
  assert (H1 : ∃ st, rtc bdd_step (with_memo_cap_and_rss_budget 1 None) st ∧
    nodes st = [mkRaw 0 0 1; mkRaw 1 0 1; mkRaw 0 0 3]).
  { eexists. split.
    - eapply rtc_l; [eapply (step_var _ 0); vm_compute; reflexivity|].
      eapply rtc_l; [eapply (step_var _ 1); vm_compute; reflexivity|].
      eapply rtc_l; [eapply (step_and _ 2 3); [by vm_compute|by vm_compute|vm_compute; reflexivity]|].
      apply rtc_refl.
    - reflexivity. }
  assert (H2 : ∃ st, rtc bdd_step (with_memo_cap_and_rss_budget 4096 (Some 7)) st ∧
    nodes st = [mkRaw 1 0 1; mkRaw 0 0 1; mkRaw 0 0 2]).
  { eexists. split.
    - eapply rtc_l; [eapply (step_var _ 1); vm_compute; reflexivity|].
      eapply rtc_l; [eapply (step_var _ 0); vm_compute; reflexivity|].
      eapply rtc_l; [eapply (step_and _ 2 3); [by vm_compute|by vm_compute|vm_compute; reflexivity]|].
      apply rtc_refl.
    - reflexivity. }
  destruct H1 as (st1 & H1 & E1), H2 as (st2 & H2 & E2).
  destruct (serialize_canonical _ _ _ _ st1 st2 4 4 2 H1 H2) as (bytes & B1 & B2).
  - rewrite E1. by vm_compute.
  - rewrite E2. by vm_compute.
  - intros rho. rewrite E1, E2. cbn. by destruct (rho 0), (rho 1).
  - exists st1, st2, 4, 4, bytes. rewrite E1, E2. done.
Defined.
