(* ===== verification/CcmFormat.v ===== *)
(** * The solver's reader of the compiled artifact

    Models [solver/src/ccm_format.rs] (the [ccm.bdd.bin] parser with every
    structural check, the symbol-table check, the hex codec and the load
    pipeline) and [encode_canonical_to_bytes] of [solver/src/cudd_translate.rs].
    SHA-256 and [serde_json] are parameters. *)
From S2P Require Import Prelude Bdd BddLayout BddBytes.
Local Open Scope N_scope.

(** ** Data *)

(** [SlicePanic] is the model's own: an index or slice out of range, which the
    length checks exclude ([parse_bdd_bin_no_panic]). *)
Inductive ParseError : Type :=
  | Io (msg : string)
  | ManifestParse (msg : string)
  | BddBinParse (msg : string)
  | UnsupportedSchemaVersion
  | UnknownAlgorithm
  | HashMismatch
  | SlicePanic.

Definition CCM_MANIFEST_SCHEMA_MAX : N := 2.
Definition CCM_MANIFEST_SCHEMA_MIN : N := 2.
Definition CCM_SYMBOLS_SCHEMA_MAX : N := 2.
Definition CCM_SYMBOLS_SCHEMA_MIN : N := 2.
Definition NODE_RECORD_BYTES : nat := 16.
Definition BDD_BIN_HEADER_BYTES : nat := 20.
Definition RECOGNIZED_ALGORITHMS : list string := ["robdd-handrolled-v1"; "robdd-cudd-v1"].
Definition USIZE_MAX : N := 0xFFFFFFFFFFFFFFFF.

Record BddNode : Type := mkBddNode {
  bn_var_index : N;
  bn_low_id : N;
  bn_high_id : N;
  bn_flags : N;
}.

#[export] Instance BddNode_eq_dec : EqDecision BddNode.
Proof. solve_decision. Defined.

Record BddPayload : Type := mkPayload {
  bp_var_count : N;
  bp_node_count : N;
  bp_roots : list N;
  bp_nodes : list BddNode;
}.

(** ** Reading *)

Definition read_u32_le (b : list ascii) : result ParseError N :=
  match b with
  | b0 :: b1 :: b2 :: b3 :: _ => Ok (from_le_bytes b0 b1 b2 b3)
  | _ => Err SlicePanic
  end.

(** [bytes[i]]. *)
Definition read_u8 (bs : list ascii) (i : nat) : result ParseError N :=
  match bs !! i with Some b => Ok (N_of_ascii b) | None => Err SlicePanic end.

(** [if c { return Err(..) }]. *)
Definition reject_if (c : bool) (e : ParseError) : result ParseError unit :=
  if c then Err e else Ok tt.

Definition checked (n : N) (msg : string) : result ParseError N :=
  if n <=? USIZE_MAX then Ok n else Err (BddBinParse msg).

(** One iteration of the record loop. *)
Definition parse_record (bs : list ascii) (off : nat) : result ParseError BddNode :=
  v ← read_u32_le (slice bs off (off + 4));
  l ← read_u32_le (slice bs (off + 4) (off + 8));
  h ← read_u32_le (slice bs (off + 8) (off + 12));
  flags ← read_u8 bs (off + 12);
  _ ← reject_if (negb (N.land flags 254 =? 0)) (BddBinParse "node flags: reserved bit set");
  p0 ← read_u8 bs (off + 13);
  p1 ← read_u8 bs (off + 14);
  p2 ← read_u8 bs (off + 15);
  _ ← reject_if (negb (p0 =? 0) || negb (p1 =? 0) || negb (p2 =? 0))
        (BddBinParse "node pad: nonzero byte in reserved padding");
  Ok (mkBddNode v l h flags).

(** The child test of the structural loop. *)
Definition check_child (i : nat) (child : N) : result ParseError unit :=
  if (child =? TERMINAL_FALSE) || (child =? TERMINAL_TRUE) then Ok tt
  else reject_if (N.of_nat i <=? child) (BddBinParse "non-post-order: child index >= parent index").

Definition check_node (var_count : N) (i : nat) (node : BddNode) : result ParseError unit :=
  if bn_var_index node =? TERMINAL_VAR_INDEX then
    match i with
    | O => reject_if (negb (bn_low_id node =? TERMINAL_FALSE) || negb (bn_high_id node =? TERMINAL_FALSE))
             (BddBinParse "terminal FALSE backpointers not 0xFFFFFFFF")
    | 1%nat => reject_if (negb (bn_low_id node =? TERMINAL_TRUE) || negb (bn_high_id node =? TERMINAL_TRUE))
             (BddBinParse "terminal TRUE backpointers not 0xFFFFFFFE")
    | _ => Err (BddBinParse "terminal-tagged node at unexpected index")
    end
  else
    _ ← reject_if (var_count <=? bn_var_index node) (BddBinParse "node var_index out of range");
    _ ← reject_if (bn_low_id node =? bn_high_id node) (BddBinParse "non-reduced: low_id == high_id");
    _ ← check_child i (bn_low_id node);
    check_child i (bn_high_id node).

Fixpoint check_nodes (var_count : N) (i : nat) (nodes : list BddNode) : result ParseError unit :=
  match nodes with
  | [] => Ok tt
  | node :: nodes => _ ← check_node var_count i node; check_nodes var_count (S i) nodes
  end.

(** The duplicate test of the second loop: [a] against the earlier nodes. *)
Definition same_record (a b : BddNode) : bool :=
  negb (bn_var_index b =? TERMINAL_VAR_INDEX)
  && (bn_var_index a =? bn_var_index b) && (bn_low_id a =? bn_low_id b)
  && (bn_high_id a =? bn_high_id b) && (bn_flags a =? bn_flags b).

Fixpoint check_duplicates (seen nodes : list BddNode) : result ParseError unit :=
  match nodes with
  | [] => Ok tt
  | a :: nodes =>
      _ ← (if bn_var_index a =? TERMINAL_VAR_INDEX then Ok tt
           else reject_if (existsb (same_record a) seen)
                  (BddBinParse "non-reduced: duplicate (var_index, low_id, high_id, flags)"));
      check_duplicates (seen ++ [a]) nodes
  end.

Definition parse_bdd_bin (bs : list ascii) (manifest_var_count manifest_node_count : N)
    : result ParseError BddPayload :=
  _ ← reject_if (bool_decide (length bs < BDD_BIN_HEADER_BYTES)%nat) (BddBinParse "header truncated");
  _ ← reject_if (negb (bool_decide (slice bs 0 4 = CCM_BDD_BIN_MAGIC)))
        (BddBinParse "bad magic: expected CCMB");
  version ← read_u8 bs 4;
  _ ← reject_if (negb (version =? N_of_ascii CCM_BDD_BIN_VERSION))
        (BddBinParse "unsupported ccm.bdd.bin version");
  r5 ← read_u8 bs 5;
  r6 ← read_u8 bs 6;
  r7 ← read_u8 bs 7;
  _ ← reject_if (negb (r5 =? 0) || negb (r6 =? 0) || negb (r7 =? 0))
        (BddBinParse "reserved header byte is nonzero");
  var_count ← read_u32_le (slice bs 8 12);
  node_count ← read_u32_le (slice bs 12 16);
  root_count ← read_u32_le (slice bs 16 20);
  _ ← reject_if (negb (var_count =? manifest_var_count))
        (BddBinParse "ccm.bdd.bin var_count does not match manifest.var_count");
  _ ← reject_if (negb (node_count =? manifest_node_count))
        (BddBinParse "ccm.bdd.bin node_count does not match manifest.node_count");
  _ ← reject_if (root_count <? 1) (BddBinParse "ccm.bdd.bin root_count must be >= 1");
  roots_bytes ← checked (4 * root_count) "root_count * 4 overflow";
  roots_end ← checked (N.of_nat BDD_BIN_HEADER_BYTES + roots_bytes) "root table offset overflow";
  _ ← reject_if (N.of_nat (length bs) <? roots_end) (BddBinParse "root table truncated");
  roots ← collect_results
    (λ i, let off := (BDD_BIN_HEADER_BYTES + i * 4)%nat in read_u32_le (slice bs off (off + 4)))
    (seq 0 (N.to_nat root_count));
  nodes_bytes ← checked (N.of_nat NODE_RECORD_BYTES * node_count) "node_count * 16 overflow";
  nodes_end ← checked (roots_end + nodes_bytes) "node table offset overflow";
  _ ← reject_if (negb (N.of_nat (length bs) =? nodes_end))
        (BddBinParse "ccm.bdd.bin has trailing or missing bytes after node table");
  nodes ← collect_results
    (λ i, parse_record bs (N.to_nat roots_end + i * NODE_RECORD_BYTES)%nat)
    (seq 0 (N.to_nat node_count));
  _ ← check_nodes var_count 0 nodes;
  _ ← check_duplicates [] nodes;
  Ok (mkPayload var_count node_count roots nodes).

(** ** Writing *)

Definition encode_node (node : BddNode) : list ascii :=
  to_le_bytes (bn_var_index node) ++ to_le_bytes (bn_low_id node) ++ to_le_bytes (bn_high_id node)
  ++ [byte (bn_flags node)] ++ [byte 0; byte 0; byte 0].

Definition encode_canonical_to_bytes (var_count : N) (nodes : list BddNode) (root : N) : list ascii :=
  CCM_BDD_BIN_MAGIC ++ [CCM_BDD_BIN_VERSION] ++ [byte 0; byte 0; byte 0]
  ++ to_le_bytes var_count ++ to_le_bytes (N.of_nat (length nodes)) ++ to_le_bytes 1
  ++ to_le_bytes root ++ flat_map encode_node nodes.

(** ** Reading is total *)

Lemma slice_read bs off :
  (off + 4 ≤ length bs)%nat → ∃ n, read_u32_le (slice bs off (off + 4)) = Ok n.
Proof.
  intros H. unfold slice. replace (off + 4 - off)%nat with 4%nat by lia.
  assert (Hl : (4 ≤ length (drop off bs))%nat) by (rewrite length_drop; lia).
  destruct (drop off bs) as [|b0 [|b1 [|b2 [|b3 r]]]]; cbn in Hl; try lia. by eexists.
Qed.

Lemma read_u8_ok bs i : (i < length bs)%nat → ∃ n, read_u8 bs i = Ok n.
Proof.
  intros H. unfold read_u8. destruct (lookup_lt_is_Some_2 bs i H) as [b ->]. by eexists.
Qed.

Lemma reject_if_panic c msg : reject_if c (BddBinParse msg) ≠ Err SlicePanic.
Proof. by destruct c. Qed.

Lemma collect_results_Err {E A B} (f : A → result E B) l e :
  collect_results f l = Err e → ∃ a, a ∈ l ∧ f a = Err e.
Proof.
  induction l as [|a l IH]; cbn; [done|]. destruct (f a) as [b|e'] eqn:Ef; cbn.
  - destruct (collect_results f l) as [bs|e'']; cbn; [done|]. intros [= ->].
    destruct (IH eq_refl) as (x & ? & ?). exists x. split; [by right|done].
  - intros [= ->]. exists a. split; [by left|done].
Qed.

(** Discharge the reads that a length bound covers. *)
Ltac read_ok :=
  repeat match goal with
  | H : read_u32_le (slice ?bs ?a ?b) = Err _ |- _ =>
      exfalso; let n := fresh in let E := fresh in
      destruct (slice_read bs a) as [n E]; [lia|];
      replace (a + 4)%nat with b in E by lia; congruence
  | H : read_u8 ?bs ?i = Err _ |- _ =>
      exfalso; let n := fresh in let E := fresh in
      destruct (read_u8_ok bs i) as [n E]; [lia|]; congruence
  | H : reject_if _ (BddBinParse _) = Err SlicePanic |- _ => by apply reject_if_panic in H
  | H : checked _ _ = Err SlicePanic |- _ => unfold checked in H; by destruct (_ <=? _)
  end.

Lemma parse_record_no_panic bs off :
  (off + 16 ≤ length bs)%nat → parse_record bs off ≠ Err SlicePanic.
Proof. intros Hl H. unfold parse_record in H. inv_err; read_ok. Qed.

Lemma check_node_no_panic var_count i node : check_node var_count i node ≠ Err SlicePanic.
Proof.
  unfold check_node, check_child, reject_if. intros H.
  repeat (case_match; cbn in H; try done).
Qed.

Lemma check_nodes_no_panic var_count i nodes : check_nodes var_count i nodes ≠ Err SlicePanic.
Proof.
  revert i. induction nodes as [|node nodes IH]; intros i H; cbn in H; [done|]. inv_err.
  - by apply check_node_no_panic in H.
  - by apply IH in H.
Qed.

Lemma check_duplicates_no_panic seen nodes : check_duplicates seen nodes ≠ Err SlicePanic.
Proof.
  revert seen. induction nodes as [|a nodes IH]; intros seen H; cbn in H; [done|]. inv_err.
  - destruct (_ =? _); [done|]. by apply reject_if_panic in H.
  - by apply IH in H.
Qed.

Lemma reject_if_Ok c e u : reject_if c e = Ok u → c = false.
Proof. by destruct c. Qed.

Lemma checked_Ok n msg m : checked n msg = Ok m → m = n ∧ n ≤ USIZE_MAX.
Proof. unfold checked. destruct (N.leb_spec n USIZE_MAX); [|done]. by intros [= <-]. Qed.

(** Turn the checks passed so far into facts. *)
Ltac learn_checks :=
  repeat match goal with
  | H : reject_if _ _ = Ok _ |- _ => apply reject_if_Ok in H
  | H : checked _ _ = Ok _ |- _ => apply checked_Ok in H as [? ?]; subst
  | H : (_ <? _) = false |- _ => apply N.ltb_ge in H
  | H : (_ <=? _) = false |- _ => apply N.leb_gt in H
  | H : (_ =? _) = false |- _ => apply N.eqb_neq in H
  | H : negb _ = false |- _ => apply negb_false_iff in H
  | H : (_ =? _) = true |- _ => apply N.eqb_eq in H
  | H : bool_decide _ = false |- _ => apply bool_decide_eq_false in H
  | H : bool_decide _ = true |- _ => apply bool_decide_eq_true in H
  | H : _ || _ = false |- _ => apply orb_false_iff in H as [? H]
  end.

(** No input makes the reader index out of range: every read the parser
    performs is covered by the length checks before it. *)
Theorem parse_bdd_bin_no_panic bs var_count node_count :
  parse_bdd_bin bs var_count node_count ≠ Err SlicePanic.
Proof.
  intros H. unfold parse_bdd_bin in H. apply bind_Err in H as [H|(u & Hlen & H)]; [read_ok|].
  learn_checks. unfold BDD_BIN_HEADER_BYTES, NODE_RECORD_BYTES in *.
  inv_err; learn_checks; read_ok.
  - apply collect_results_Err in H as (i & [_ Hi]%elem_of_seq & H). read_ok.
  - apply collect_results_Err in H as (i & [_ Hi]%elem_of_seq & H).
    apply parse_record_no_panic in H; [done|]. lia.
  - by apply check_nodes_no_panic in H.
  - by apply check_duplicates_no_panic in H.
Qed.

(** ** What an accepted table satisfies *)

Definition child_ok (i : nat) (c : N) : Prop :=
  c = TERMINAL_FALSE ∨ c = TERMINAL_TRUE ∨ c < N.of_nat i.

(** The structural rule for the record at index [i]. *)
Definition node_ok (var_count : N) (i : nat) (n : BddNode) : Prop :=
  if decide (bn_var_index n = TERMINAL_VAR_INDEX) then
    (i = 0%nat ∧ bn_low_id n = TERMINAL_FALSE ∧ bn_high_id n = TERMINAL_FALSE) ∨
    (i = 1%nat ∧ bn_low_id n = TERMINAL_TRUE ∧ bn_high_id n = TERMINAL_TRUE)
  else
    bn_var_index n < var_count ∧ bn_low_id n ≠ bn_high_id n ∧
    child_ok i (bn_low_id n) ∧ child_ok i (bn_high_id n).

Lemma check_child_ok i c : check_child i c = Ok tt ↔ child_ok i c.
Proof.
  unfold check_child, child_ok, reject_if.
  destruct (N.eqb_spec c TERMINAL_FALSE); cbn; [naive_solver|].
  destruct (N.eqb_spec c TERMINAL_TRUE); cbn; [naive_solver|].
  destruct (N.leb_spec (N.of_nat i) c); split; try done; [|by auto]. intros [?|[?|?]]; [done..|lia].
Qed.

Lemma reject_if_iff c e : reject_if c e = Ok tt ↔ c = false.
Proof. by destruct c. Qed.

Lemma bind_unit_Ok {E A} (m : result E unit) (k : result E A) a :
  (m ≫= λ _, k) = Ok a ↔ m = Ok tt ∧ k = Ok a.
Proof. destruct m as [[]|]; cbn; naive_solver. Qed.

Lemma check_node_ok var_count i n : check_node var_count i n = Ok tt ↔ node_ok var_count i n.
Proof.
  unfold check_node, node_ok. destruct (N.eqb_spec (bn_var_index n) TERMINAL_VAR_INDEX) as [E|E].
  - rewrite decide_True by done. destruct i as [|[|i]].
    + rewrite reject_if_iff, orb_false_iff, !negb_false_iff, !N.eqb_eq. split; [auto|].
      intros [?|[? _]]; [tauto|done].
    + rewrite reject_if_iff, orb_false_iff, !negb_false_iff, !N.eqb_eq. split; [auto|].
      intros [[? _]|?]; [done|tauto].
    + split; [done|]. by intros [[? _]|[? _]].
  - rewrite decide_False by done.
    rewrite !bind_unit_Ok, !reject_if_iff, N.leb_gt, N.eqb_neq, !check_child_ok. tauto.
Qed.

Lemma check_nodes_ok var_count nodes : ∀ k,
  check_nodes var_count k nodes = Ok tt ↔
  ∀ i n, nodes !! i = Some n → node_ok var_count (k + i) n.
Proof.
  induction nodes as [|n nodes IH]; intros k; cbn.
  - split; [done|]. done.
  - rewrite bind_unit_Ok, check_node_ok, IH. split.
    + intros [H0 HS] [|i] m Hm; cbn in Hm.
      * injection Hm as <-. by rewrite Nat.add_0_r.
      * replace (k + S i)%nat with (S k + i)%nat by lia. by apply HS.
    + intros H. split.
      * specialize (H 0%nat n eq_refl). by rewrite Nat.add_0_r in H.
      * intros i m Hm. replace (S k + i)%nat with (k + S i)%nat by lia. by apply H.
Qed.

Lemma same_record_spec a b :
  same_record a b = true ↔ a = b ∧ bn_var_index b ≠ TERMINAL_VAR_INDEX.
Proof.
  unfold same_record. rewrite !andb_true_iff, negb_true_iff, N.eqb_neq, !N.eqb_eq.
  destruct a, b; cbn. naive_solver.
Qed.

Lemma check_duplicates_ok nodes : ∀ seen,
  check_duplicates seen nodes = Ok tt ↔
  ∀ i a, nodes !! i = Some a → bn_var_index a ≠ TERMINAL_VAR_INDEX →
    a ∉ seen ∧ a ∉ take i nodes.
Proof.
  induction nodes as [|n nodes IH]; intros seen; cbn [check_duplicates]; [done|].
  rewrite bind_unit_Ok, IH. split.
  - intros [H0 HS] [|i] a Ha Ht; cbn in Ha.
    + injection Ha as ->. split; [|apply not_elem_of_nil].
      destruct (N.eqb_spec (bn_var_index a) TERMINAL_VAR_INDEX); [done|].
      apply reject_if_Ok in H0. intros Hin.
      assert (existsb (same_record a) seen = true); [|congruence].
      apply existsb_exists. exists a. split; [by apply list_elem_of_In|by apply same_record_spec].
    + destruct (HS i a Ha Ht) as [Hs Hn]. cbn. rewrite elem_of_cons. split.
      * intros Hin. apply Hs, elem_of_app. by left.
      * intros [-> |Hin]; [|done]. apply Hs, elem_of_app. right. by left.
  - intros H. split.
    + destruct (N.eqb_spec (bn_var_index n) TERMINAL_VAR_INDEX); [done|].
      apply reject_if_iff. destruct (existsb (same_record n) seen) eqn:E; [|done]. exfalso.
      apply existsb_exists in E as (b & Hb & [-> _]%same_record_spec).
      destruct (H 0%nat b eq_refl) as [Hns _]; [done|]. by apply Hns, list_elem_of_In.
    + intros i a Ha Ht. destruct (H (S i) a Ha Ht) as [Hs Hn]. cbn in Hn.
      rewrite elem_of_cons in Hn. split; [|by auto].
      intros [Hin|Hin%list_elem_of_singleton]%elem_of_app; [done|]. by auto.
Qed.

(** The table rules of the format: records obey [node_ok] and no two
    non-terminals are the same. *)
Record canonical_table (var_count : N) (nodes : list BddNode) : Prop := {
  ct_node : ∀ i n, nodes !! i = Some n → node_ok var_count i n;
  ct_unique : ∀ i j n, nodes !! i = Some n → nodes !! j = Some n →
    bn_var_index n ≠ TERMINAL_VAR_INDEX → i = j;
}.

Lemma checks_canonical var_count nodes :
  check_nodes var_count 0 nodes = Ok tt ∧ check_duplicates [] nodes = Ok tt ↔
  canonical_table var_count nodes.
Proof.
  rewrite check_nodes_ok, check_duplicates_ok. split.
  - intros [Hn Hd]. split; [done|]. intros i j n Hi Hj Ht.
    assert (Hlt : ∀ i j, nodes !! i = Some n → nodes !! j = Some n → ¬ (i < j)%nat).
    { intros a b Ha Hb Hab. destruct (Hd b n Hb Ht) as [_ Hnot]. apply Hnot.
      apply (list_elem_of_lookup_2 _ a). by rewrite lookup_take_lt. }
    pose proof (Hlt _ _ Hi Hj). pose proof (Hlt _ _ Hj Hi). lia.
  - intros [Hn Hu]. split; [done|]. intros i a Ha Ht. split; [apply not_elem_of_nil|].
    intros [j Hj]%list_elem_of_lookup. apply lookup_take_Some in Hj as [Hj Hlt].
    pose proof (Hu _ _ _ Ha Hj Ht). lia.
Qed.

Lemma parse_bdd_bin_spec bs var_count node_count p :
  parse_bdd_bin bs var_count node_count = Ok p →
  bp_var_count p = var_count ∧ bp_node_count p = node_count ∧
  N.of_nat (length (bp_nodes p)) = node_count ∧ (1 ≤ length (bp_roots p))%nat ∧
  canonical_table var_count (bp_nodes p).
Proof.
  intros H. unfold parse_bdd_bin in H. inv_ok. cbn. learn_checks. subst.
  repeat match goal with H : collect_results _ _ = Ok _ |- _ =>
    apply collect_results_Ok, Forall2_length in H; rewrite length_seq in H end.
  split_and!; [done|done|lia|lia|]. apply checks_canonical.
  repeat match goal with u : unit |- _ => destruct u end. done.
Qed.

(** An accepted [ccm.bdd.bin] has the counts its manifest states, at least
    one root, terminals only at 0 and 1, variables in range, reduced and
    pairwise distinct records, and children before their parents. *)
Theorem parse_bdd_bin_sound bs var_count node_count p :
  parse_bdd_bin bs var_count node_count = Ok p →
  bp_var_count p = var_count ∧ bp_node_count p = node_count ∧
  N.of_nat (length (bp_nodes p)) = node_count ∧ (1 ≤ length (bp_roots p))%nat ∧
  canonical_table var_count (bp_nodes p).
Proof. apply parse_bdd_bin_spec. Qed.

(** ** The round trip *)

Definition u32 (n : N) : Prop := n < 4294967296.

Lemma read_at bs off n r :
  drop off bs = to_le_bytes n ++ r → u32 n → read_u32_le (slice bs off (off + 4)) = Ok n.
Proof.
  intros Hd Hn. unfold slice. replace (off + 4 - off)%nat with 4%nat by lia.
  rewrite Hd. cbn. by rewrite from_to_le_bytes.
Qed.

Lemma read_u8_at bs off n r : drop off bs = byte n :: r → n < 256 → read_u8 bs off = Ok n.
Proof.
  intros Hd Hn. unfold read_u8. rewrite (drop_lookup _ _ _ _ Hd).
  by rewrite N_of_byte, N.mod_small.
Qed.

(** The fields of a record fit their widths. *)
Record node_fits (n : BddNode) : Prop := {
  fits_var : u32 (bn_var_index n);
  fits_low : u32 (bn_low_id n);
  fits_high : u32 (bn_high_id n);
  fits_flags : bn_flags n ≤ 1;
}.

Lemma parse_record_at bs off n r :
  drop off bs = encode_node n ++ r → node_fits n → parse_record bs off = Ok n.
Proof.
  intros Hd [Hv Hl Hh Hf]. unfold encode_node in Hd. rewrite <-!(assoc_L (++)) in Hd.
  pose proof (drop_move _ _ _ _ Hd) as H4. pose proof (drop_move _ _ _ _ H4) as H8.
  pose proof (drop_move _ _ _ _ H8) as H12.
  cbn [length to_le_bytes] in H4, H8, H12.
  replace (off + 4 + 4)%nat with (off + 8)%nat in H8, H12 by lia.
  replace (off + 8 + 4)%nat with (off + 12)%nat in H12 by lia.
  pose proof (drop_step _ _ _ _ H12) as H13. pose proof (drop_step _ _ _ _ H13) as H14.
  pose proof (drop_step _ _ _ _ H14) as H15.
  replace (S (off + 12)) with (off + 13)%nat in H13, H14, H15 by lia.
  replace (S (off + 13)) with (off + 14)%nat in H14, H15 by lia.
  replace (S (off + 14)) with (off + 15)%nat in H15 by lia.
  unfold parse_record. rewrite (read_at _ _ _ _ Hd Hv). cbn [mbind result_bind].
  replace (off + 8)%nat with (off + 4 + 4)%nat at 1 by lia. rewrite (read_at _ _ _ _ H4 Hl).
  cbn [mbind result_bind].
  replace (off + 12)%nat with (off + 8 + 4)%nat at 1 by lia. rewrite (read_at _ _ _ _ H8 Hh).
  cbn [mbind result_bind]. rewrite (read_u8_at _ _ _ _ H12) by lia. cbn [mbind result_bind].
  rewrite (read_u8_at _ _ _ _ H13), (read_u8_at _ _ _ _ H14), (read_u8_at _ _ _ _ H15) by done.
  assert (bn_flags n = 0 ∨ bn_flags n = 1) as [E|E] by lia; destruct n; cbn in *; by subst.
Qed.

Lemma length_encode_node n : length (encode_node n) = 16%nat.
Proof. done. Qed.

Lemma drop_records bs base ns i n :
  drop base bs = flat_map encode_node ns → ns !! i = Some n →
  ∃ r, drop (base + i * 16) bs = encode_node n ++ r.
Proof.
  revert base i. induction ns as [|m ns IH]; intros base i Hd Hi; [done|].
  cbn [flat_map] in Hd. destruct i as [|i]; cbn in Hi.
  - injection Hi as ->. exists (flat_map encode_node ns). by rewrite Nat.mul_0_l, Nat.add_0_r.
  - apply drop_move in Hd. rewrite length_encode_node in Hd.
    replace (base + S i * 16)%nat with (base + 16 + i * 16)%nat by lia. by apply IH.
Qed.

Lemma parse_records bs base ns :
  drop base bs = flat_map encode_node ns → Forall node_fits ns →
  collect_results (λ i, parse_record bs (base + i * 16)%nat) (seq 0 (length ns)) = Ok ns.
Proof.
  intros Hd HF. apply collect_results_Ok, Forall2_same_length_lookup_2; [by rewrite length_seq|].
  intros i j n Hj Hn. apply lookup_seq in Hj as [-> _]. cbn.
  destruct (drop_records _ _ _ _ _ Hd Hn) as [r Hr]. eapply parse_record_at; [done|].
  rewrite Forall_forall in HF. apply HF. by eapply list_elem_of_lookup_2.
Qed.

Lemma length_encoded vc ns root :
  length (encode_canonical_to_bytes vc ns root) = (24 + length ns * 16)%nat.
Proof.
  unfold encode_canonical_to_bytes. cbn -[Nat.mul]. do 24 f_equal.
  induction ns as [|n ns IH]; [done|]. cbn [flat_map]. rewrite length_app, IH. cbn. lia.
Qed.

Lemma pass {A} c e (k : unit → result ParseError A) :
  c = false → (reject_if c e ≫= k) = k tt.
Proof. by intros ->. Qed.

Lemma got {E A B} (m : result E A) a (k : A → result E B) : m = Ok a → (m ≫= k) = k a.
Proof. by intros ->. Qed.

Lemma parse_encode vc ns root :
  u32 vc → u32 root → N.of_nat (length ns) < 4294967296 → Forall node_fits ns →
  canonical_table vc ns →
  parse_bdd_bin (encode_canonical_to_bytes vc ns root) vc (N.of_nat (length ns)) =
  Ok (mkPayload vc (N.of_nat (length ns)) [root] ns).
Proof.
  intros Hvc Hroot Hlen HF Hct. apply checks_canonical in Hct as [Hn Hd].
  pose proof (length_encoded vc ns root) as HL.
  assert (H24 : drop 24 (encode_canonical_to_bytes vc ns root) = flat_map encode_node ns) by done.
  assert (H8 : read_u32_le (slice (encode_canonical_to_bytes vc ns root) 8 12) = Ok vc)
    by (by eapply (read_at _ 8)).
  assert (H12 : read_u32_le (slice (encode_canonical_to_bytes vc ns root) 12 16) =
                Ok (N.of_nat (length ns))) by (by eapply (read_at _ 12)).
  assert (H16 : read_u32_le (slice (encode_canonical_to_bytes vc ns root) 16 20) = Ok 1)
    by (by eapply (read_at _ 16)).
  assert (H20 : read_u32_le (slice (encode_canonical_to_bytes vc ns root) 20 24) = Ok root)
    by (by eapply (read_at _ 20)).
  assert (Hm : slice (encode_canonical_to_bytes vc ns root) 0 4 = CCM_BDD_BIN_MAGIC) by done.
  assert (Hb : ∀ i, (4 ≤ i < 8)%nat → read_u8 (encode_canonical_to_bytes vc ns root) i =
    Ok (if decide (i = 4%nat) then 1 else 0)).
  { intros i Hi. destruct i as [|[|[|[|[|[|[|[|i]]]]]]]]; done || lia. }
  unfold parse_bdd_bin. generalize dependent (encode_canonical_to_bytes vc ns root).
  intros bs HL H24 H8 H12 H16 H20 Hm Hb.
  rewrite pass by (apply bool_decide_eq_false_2; unfold BDD_BIN_HEADER_BYTES; lia).
  rewrite pass by (by rewrite bool_decide_eq_true_2).
  rewrite (got _ _ _ (Hb 4%nat ltac:(lia))), pass by done.
  rewrite (got _ _ _ (Hb 5%nat ltac:(lia))), (got _ _ _ (Hb 6%nat ltac:(lia))).
  rewrite (got _ _ _ (Hb 7%nat ltac:(lia))), pass by done.
  rewrite (got _ _ _ H8), (got _ _ _ H12), (got _ _ _ H16).
  rewrite !pass by (by rewrite ?N.eqb_refl).
  rewrite (got _ (4 * 1)) by done. rewrite (got _ 24) by done.
  rewrite pass by (apply N.ltb_ge; lia).
  rewrite (got _ [root]).
  2:{ change (seq 0 (N.to_nat 1)) with [0%nat]. cbn [collect_results].
      change (BDD_BIN_HEADER_BYTES + 0 * 4)%nat with 20%nat. change (20 + 4)%nat with 24%nat.
      by rewrite H20. }
  rewrite (got _ (16 * N.of_nat (length ns))).
  2:{ unfold checked, USIZE_MAX, NODE_RECORD_BYTES. by rewrite (proj2 (N.leb_le _ _)) by lia. }
  rewrite (got _ (24 + 16 * N.of_nat (length ns))).
  2:{ unfold checked, USIZE_MAX, NODE_RECORD_BYTES. by rewrite (proj2 (N.leb_le _ _)) by lia. }
  rewrite pass by (apply negb_false_iff, N.eqb_eq; lia).
  rewrite (got _ ns) by (rewrite Nat2N.id; by apply parse_records).
  by rewrite (got _ _ _ Hn), (got _ _ _ Hd).
Qed.

(** ** The compiler's bytes, read back *)

(** The records of a layout, behind the two terminals. *)
Definition table_of (out : list RawNode) : list BddNode :=
  mkBddNode TERMINAL_VAR_INDEX TERMINAL_FALSE TERMINAL_FALSE 0 ::
  mkBddNode TERMINAL_VAR_INDEX TERMINAL_TRUE TERMINAL_TRUE 0 ::
  ((λ r, mkBddNode (var_index r) (low r) (high r) 0) <$> out).

Lemma length_table_of out : N.of_nat (length (table_of out)) = N.of_nat (length out) + 2.
Proof. cbn [table_of length]. rewrite length_fmap. lia. Qed.

Lemma flat_map_table out :
  flat_map encode_node ((λ r, mkBddNode (var_index r) (low r) (high r) 0) <$> out) =
  flat_map (λ r, push_node (var_index r) (low r) (high r)) out.
Proof. induction out as [|r out IH]; cbn [fmap list_fmap flat_map]; [done|]. by rewrite <-IH. Qed.

(** The two encoders of the format agree. *)
Lemma serialize_encode st root var_count out id :
  ordered_nodes st root = Ok (out, id) →
  serialize st root var_count = Ok (encode_canonical_to_bytes var_count (table_of out) id).
Proof.
  intros E. unfold serialize. rewrite E. cbn [mbind result_bind]. f_equal.
  unfold encode_canonical_to_bytes. rewrite length_table_of. do 7 f_equal.
  unfold table_of. cbn [flat_map]. by rewrite flat_map_table.
Qed.

(** Record [i] of the table is node [i] of the layout. *)
Lemma table_lookup out i n :
  table_of out !! i = Some n →
  (i = 0%nat ∧ n = mkBddNode TERMINAL_VAR_INDEX TERMINAL_FALSE TERMINAL_FALSE 0) ∨
  (i = 1%nat ∧ n = mkBddNode TERMINAL_VAR_INDEX TERMINAL_TRUE TERMINAL_TRUE 0) ∨
  ∃ r, (2 ≤ i)%nat ∧ node_at out (N.of_nat i) = Some r ∧ n = mkBddNode (var_index r) (low r) (high r) 0.
Proof.
  destruct i as [|[|i]]; [cbn; naive_solver..|].
  change (table_of out !! S (S i)) with
    (((λ r, mkBddNode (var_index r) (low r) (high r) 0) <$> out) !! i).
  rewrite list_lookup_fmap. intros (r & Hr & ->)%fmap_Some. right; right. exists r.
  split; [lia|]. split; [|done]. unfold node_at. destruct (N.ltb_spec (N.of_nat (S (S i))) 2); [lia|].
  by replace (N.to_nat (N.of_nat (S (S i)) - 2)) with i by lia.
Qed.

Lemma table_canonical var_count out :
  robdd out → vars_below var_count out → u32 var_count → canonical_table var_count (table_of out).
Proof.
  intros [Hn Hu] Hv Hvc. split.
  - intros i n Hi. unfold node_ok.
    apply table_lookup in Hi as [[-> ->]|[[-> ->]|(r & H2 & Hr & ->)]]; cbn.
    + by left.
    + by right.
    + pose proof (Hv _ _ Hr) as Hlt. destruct (Hn _ _ Hr) as [Hl Hh Hne _ _].
      rewrite decide_False by (unfold u32, TERMINAL_VAR_INDEX in *; lia).
      split_and!; [done|done|right; right; lia..].
  - intros i j n Hi Hj Ht.
    apply table_lookup in Hi as [[-> ->]|[[-> ->]|(r & H2 & Hr & ->)]]; [done..|].
    apply table_lookup in Hj as [[-> Hn']|[[-> Hn']|(r' & H2' & Hr' & E)]];
      [by injection Hn' as E _ _|by injection Hn' as E _ _|].
    assert (r = r') as <- by (destruct r, r'; cbn in E; congruence).
    pose proof (Hu _ _ _ Hr Hr'). lia.
Qed.

(** The function a table and a root denote. *)
Fixpoint table_eval_fuel (fuel : nat) (nodes : list BddNode) (id : N) (rho : N → bool) : bool :=
  match fuel with
  | O => false
  | S fuel =>
      if id =? TERMINAL_FALSE then false
      else if id =? TERMINAL_TRUE then true
      else
        match nodes !! N.to_nat id with
        | Some n =>
            if bn_var_index n =? TERMINAL_VAR_INDEX then bn_low_id n =? TERMINAL_TRUE
            else if rho (bn_var_index n) then table_eval_fuel fuel nodes (bn_high_id n) rho
            else table_eval_fuel fuel nodes (bn_low_id n) rho
        | None => false
        end
  end.

Definition table_eval (nodes : list BddNode) (id : N) (rho : N → bool) : bool :=
  table_eval_fuel (S (length nodes)) nodes id rho.

Lemma table_eval_layout var_count out id rho :
  robdd out → vars_below var_count out → u32 var_count →
  N.of_nat (length out) + 2 < TERMINAL_TRUE → valid out id →
  table_eval (table_of out) id rho = eval out id rho.
Proof.
  intros [Hn _] Hv Hvc Hlen Hid. unfold table_eval.
  assert (Hf : (N.to_nat id < S (length (table_of out)))%nat).
  { unfold valid in Hid. cbn [table_of length]. rewrite length_fmap. lia. }
  revert id Hid Hf. generalize (S (length (table_of out))).
  intros fuel. induction fuel as [|fuel IH]; intros id Hid Hf; [lia|]. cbn [table_eval_fuel].
  unfold valid in Hid. unfold TERMINAL_FALSE, TERMINAL_TRUE in *.
  destruct (N.eqb_spec id 0xFFFFFFFF); [lia|]. destruct (N.eqb_spec id 0xFFFFFFFE); [lia|].
  destruct (table_of out !! N.to_nat id) as [rec|] eqn:E.
  - apply table_lookup in E as [[E ->]|[[E ->]|(r & H2 & Hr & ->)]].
    + by assert (id = 0) as -> by lia.
    + by assert (id = 1) as -> by lia.
    + rewrite N2Nat.id in Hr. pose proof (Hv _ _ Hr). destruct (Hn _ _ Hr) as [Hl Hh _ _ _].
      cbn [bn_var_index bn_low_id bn_high_id]. unfold u32 in Hvc.
      destruct (N.eqb_spec (var_index r) TERMINAL_VAR_INDEX); [unfold TERMINAL_VAR_INDEX in *; lia|].
      rewrite (eval_node out Hn _ _ _ Hr). destruct (rho _); apply IH; unfold valid; lia.
  - apply lookup_ge_None in E. cbn [table_of length] in E. rewrite length_fmap in E. lia.
Qed.

(** The layout of a root uses the variables of the arena. *)
Lemma layout_spec st root n :
  wf st → valid (nodes st) root → vars_below n (nodes st) → n ≤ TERMINAL_VAR_INDEX →
  ∃ out id, ordered_nodes st root = Ok (out, id) ∧ robdd out ∧ vars_below n out ∧
    (length out ≤ length (nodes st))%nat ∧
    (id = TERMINAL_TRUE ∨ id = TERMINAL_FALSE ∨ id < N.of_nat (length (table_of out))) ∧
    (N.of_nat (length out) + 2 < TERMINAL_TRUE →
     u32 id ∧ ∀ rho, table_eval (table_of out) id rho = eval (nodes st) root rho).
Proof.
  intros Hw Hv Hb Hn. destruct (N.ltb_spec root 2) as [H|H].
  - apply terminal_value_lt in H as (b & _ & ->).
    exists [], (if b then TERMINAL_TRUE else TERMINAL_FALSE).
    assert (Hnil : ∀ id r, node_at [] id ≠ Some r).
    { intros id r. unfold node_at. by destruct (_ <? _). }
    split_and!; [by destruct b|split; intros; exfalso; by eapply Hnil| |cbn; lia|by destruct b; auto|].
    + intros id r Hr. exfalso. by eapply Hnil.
    + intros _. split; [by destruct b|]. intros rho. by destruct b.
  - assert (Hi : iso (nodes st) (nodes st) root root).
    { eapply (eval_iso (N.succ root)); [lia|apply Hw|apply Hw|done..]. }
    destruct (ordered_nodes_iso st st root root Hw Hw Hv Hv H Hi)
      as (out & id & E & _ & Hio & Hr & Hvi & H2 & Hl & Hback).
    assert (Hvb : vars_below n out).
    { intros k r Hk. destruct (Hback k r Hk) as (x & rx & Hx & <-). by eapply Hb. }
    exists out, id. split_and!; try done; [rewrite length_table_of; unfold valid in Hvi; lia|]. intros Hlen.
    assert (Hu : u32 n ∧ u32 id).
    { unfold u32, valid, TERMINAL_VAR_INDEX, TERMINAL_TRUE in *. lia. }
    destruct Hu as [Hun Hui]. split; [done|]. intros rho.
    rewrite (table_eval_layout n out id rho Hr Hvb) by (done || lia).
    symmetry. apply iso_eval; [apply (wf_nodes _ _ (wf_ar _ Hw))|apply Hr|done].
Qed.

Lemma table_fits n out :
  robdd out → vars_below n out → n ≤ TERMINAL_VAR_INDEX →
  N.of_nat (length out) + 2 < TERMINAL_TRUE → Forall node_fits (table_of out).
Proof.
  intros [Hn _] Hb Hvc Hlen. unfold TERMINAL_VAR_INDEX, TERMINAL_TRUE in *.
  apply Forall_lookup. intros i m Hi.
  apply table_lookup in Hi as [[-> ->]|[[-> ->]|(r & H2 & Hr & ->)]]; [by split..|].
  pose proof (Hb _ _ Hr). destruct (Hn _ _ Hr) as [Hl Hh _ _ _].
  apply node_at_Some in Hr. split; cbn; unfold u32; lia.
Qed.

(** The round trip of a layout that fits its indices. *)
Lemma roundtrip_layout st root var_count out id :
  wf st → valid (nodes st) root → vars_below var_count (nodes st) →
  var_count ≤ TERMINAL_VAR_INDEX → ordered_nodes st root = Ok (out, id) →
  N.of_nat (length out) + 2 < TERMINAL_TRUE →
  ∃ bytes count p,
    serialize st root var_count = Ok bytes ∧ node_count bytes = Some count ∧
    parse_bdd_bin bytes var_count count = Ok p ∧ bp_roots p = [id] ∧
    (id = TERMINAL_TRUE ∨ id = TERMINAL_FALSE ∨ id < N.of_nat (length (bp_nodes p))) ∧
    ∀ rho, table_eval (bp_nodes p) id rho = eval (nodes st) root rho.
Proof.
  intros Hw Hv Hb Hvc Hout Hlen.
  destruct (layout_spec st root var_count Hw Hv Hb Hvc) as
    (out' & id' & E & Hr & Hvb & Hl & Hrange & He). rewrite Hout in E. injection E as <- <-. destruct (He Hlen) as [Hid He'].
  assert (Hu : u32 var_count) by (unfold u32, TERMINAL_VAR_INDEX in *; lia).
  pose proof (length_table_of out) as HL.
  assert (Hlt : N.of_nat (length (table_of out)) < 4294967296).
  { unfold TERMINAL_TRUE in *. lia. }
  pose proof (parse_encode var_count (table_of out) id Hu Hid Hlt
    (table_fits _ _ Hr Hvb Hvc Hlen) (table_canonical _ _ Hr Hvb Hu)) as Hp.
  eexists _, _, _. split_and!; [by apply serialize_encode| |exact Hp|done|exact Hrange|exact He'].
  unfold node_count. rewrite length_encoded, decide_False by (cbn [table_of length]; lia).
  change (slice (encode_canonical_to_bytes var_count (table_of out) id) 12 16) with
    (to_le_bytes (N.of_nat (length (table_of out)))).
  cbn [to_le_bytes]. by rewrite from_to_le_bytes.
Qed.

Lemma roundtrip_spec st root var_count :
  wf st → valid (nodes st) root → vars_below var_count (nodes st) →
  var_count ≤ TERMINAL_VAR_INDEX → N.of_nat (length (nodes st)) + 2 < TERMINAL_TRUE →
  ∃ bytes count p root_id,
    serialize st root var_count = Ok bytes ∧ node_count bytes = Some count ∧
    parse_bdd_bin bytes var_count count = Ok p ∧ bp_roots p = [root_id] ∧
    ∀ rho, table_eval (bp_nodes p) root_id rho = eval (nodes st) root rho.
Proof.
  intros Hw Hv Hb Hvc Hlen.
  destruct (layout_spec st root var_count Hw Hv Hb Hvc) as (out & id & E & _ & _ & Hl & _).
  destruct (roundtrip_layout st root var_count out id Hw Hv Hb Hvc E) as
    (bytes & count & p & ? & ? & ? & ? & _ & ?); [lia|]. by exists bytes, count, p, id.
Qed.

(** A file small enough to be read has such a layout. *)
Lemma roundtrip_file st root var_count bytes :
  wf st → valid (nodes st) root → vars_below var_count (nodes st) →
  var_count ≤ TERMINAL_VAR_INDEX → serialize st root var_count = Ok bytes →
  N.of_nat (length bytes) ≤ 0x40000000 →
  ∃ count p root_id,
    node_count bytes = Some count ∧ parse_bdd_bin bytes var_count count = Ok p ∧
    bp_roots p = [root_id] ∧
    (root_id = TERMINAL_TRUE ∨ root_id = TERMINAL_FALSE ∨ root_id < N.of_nat (length (bp_nodes p))) ∧
    ∀ rho, table_eval (bp_nodes p) root_id rho = eval (nodes st) root rho.
Proof.
  intros Hw Hv Hb Hvc Hs Hlen.
  destruct (layout_spec st root var_count Hw Hv Hb Hvc) as (out & id & E & _ & _ & Hl & _).
  pose proof (serialize_encode st root var_count out id E) as Hs'. rewrite Hs in Hs'. injection Hs' as ->.
  rewrite length_encoded in Hlen. pose proof (length_table_of out).
  destruct (roundtrip_layout st root var_count out id Hw Hv Hb Hvc E) as
    (bytes & count & p & Hb' & ? & ? & ? & ? & ?); [unfold TERMINAL_TRUE; lia|].
  rewrite Hs in Hb'. injection Hb' as <-. by exists count, p, id.
Qed.

(** The artifact round trip.  The bytes the compiler writes for a root are
    accepted by the solver's reader, with the node count the compiler's
    manifest takes from them, and the table read back with its root denotes
    the function the root has in the compiler's builder. *)
Theorem compiled_bdd_roundtrip st root var_count :
  wf st → valid (nodes st) root → vars_below var_count (nodes st) →
  var_count ≤ TERMINAL_VAR_INDEX → N.of_nat (length (nodes st)) + 2 < TERMINAL_TRUE →
  ∃ bytes count p root_id,
    serialize st root var_count = Ok bytes ∧ node_count bytes = Some count ∧
    parse_bdd_bin bytes var_count count = Ok p ∧ bp_roots p = [root_id] ∧
    ∀ rho, table_eval (bp_nodes p) root_id rho = eval (nodes st) root rho.
Proof. apply roundtrip_spec. Qed.

Lemma compiled_bdd_roundtrip_witness :
  ∃ st bytes count p root_id, var default_builder 0 = Ok (2, st) ∧
    serialize st 2 1 = Ok bytes ∧ node_count bytes = Some count ∧
    parse_bdd_bin bytes 1 count = Ok p ∧ bp_roots p = [root_id] ∧
    ∀ rho, table_eval (bp_nodes p) root_id rho = rho 0.
Proof.
  assert (H : var default_builder 0 = Ok (2, set_arena default_builder [mkRaw 0 0 1] {[(0, 0, 1) := 2]}))
    by (vm_compute; reflexivity).
  destruct (compiled_bdd_roundtrip (set_arena default_builder [mkRaw 0 0 1] {[(0, 0, 1) := 2]}) 2 1)
    as (bytes & count & p & root_id & H1 & H2 & H3 & H4 & H5).
  - eapply step_wf; [by eapply step_var|apply wf_init].
  - by vm_compute.
  - eapply (mk_node_vars 1 default_builder 0); [|by vm_compute|exact H]. intros id r. unfold node_at. by destruct (_ <? _).
  - by vm_compute.
  - by vm_compute.
  - eexists _, bytes, count, p, root_id. split_and!; [exact H|done..|].
    intros rho. rewrite H5. transitivity (if rho 0 then true else false); [reflexivity|by destruct (rho 0)].
Defined.

(** The two encoders of the format, the compiler's [serialize] and the
    solver's [encode_canonical_to_bytes], write the same bytes for the same
    table. *)
Theorem encoders_agree st root var_count out id :
  ordered_nodes st root = Ok (out, id) →
  serialize st root var_count = Ok (encode_canonical_to_bytes var_count (table_of out) id).
Proof. apply serialize_encode. Qed.

Lemma encoders_agree_witness :
  serialize default_builder 1 0 = Ok (encode_canonical_to_bytes 0 (table_of []) TERMINAL_TRUE).
Proof. apply encoders_agree. vm_compute. reflexivity. Defined.

(** ** Hex digests *)

Definition HEX : list ascii := bytes_of "0123456789abcdef".

(** [HEX[i]]; the nibbles the encoder passes are below 16. *)
Definition hex_char (n : N) : ascii := default "0"%char (HEX !! N.to_nat n).

Definition encode_hex32 (bs : list ascii) : list ascii :=
  flat_map (λ b, [hex_char (N.shiftr (N_of_ascii b) 4); hex_char (N.land (N_of_ascii b) 15)]) bs.

Definition hex_digit_lower (b : ascii) : option N :=
  let n := N_of_ascii b in
  if byte_in 48 57 b then Some (n - 48)
  else if byte_in 97 102 b then Some (n - 97 + 10)
  else None.

(** The [for i in 0..32] loop over the digit pairs. *)
Fixpoint decode_pairs (fuel : nat) (s : list ascii) : option (list ascii) :=
  match fuel with
  | O => Some []
  | S fuel =>
      match s with
      | a :: b :: s =>
          hi ← hex_digit_lower a;
          lo ← hex_digit_lower b;
          rest ← decode_pairs fuel s;
          Some (byte (N.lor (N.shiftl hi 4) lo) :: rest)
      | _ => None
      end
  end.

Definition decode_hex32 (s : list ascii) : option (list ascii) :=
  if decide (length s = 64%nat) then decode_pairs 32 s else None.

Lemma hex_byte_roundtrip b :
  hex_digit_lower (hex_char (N.shiftr (N_of_ascii b) 4)) = Some (N.shiftr (N_of_ascii b) 4) ∧
  hex_digit_lower (hex_char (N.land (N_of_ascii b) 15)) = Some (N.land (N_of_ascii b) 15) ∧
  byte (N.lor (N.shiftl (N.shiftr (N_of_ascii b) 4) 4) (N.land (N_of_ascii b) 15)) = b.
Proof. destruct b as [[] [] [] [] [] [] [] []]; vm_compute; done. Qed.

Lemma hex_pair_inverse a b hi lo :
  hex_digit_lower a = Some hi → hex_digit_lower b = Some lo →
  let c := byte (N.lor (N.shiftl hi 4) lo) in
  hex_char (N.shiftr (N_of_ascii c) 4) = a ∧ hex_char (N.land (N_of_ascii c) 15) = b.
Proof.
  assert (Hd : ∀ c n, hex_digit_lower c = Some n → n < 16 ∧ hex_char n = c).
  { intros [[] [] [] [] [] [] [] []] n; vm_compute; intros H; by simplify_eq. }
  intros [Ha <-]%Hd [Hb <-]%Hd. cbn zeta.
  assert (Hn : ∀ n, n < 16 → ∃ i, (i < 16)%nat ∧ n = N.of_nat i).
  { intros n Hn. exists (N.to_nat n). lia. }
  destruct (Hn hi Ha) as (i & Hi & ->), (Hn lo Hb) as (j & Hj & ->). clear -Hi Hj.
  do 16 (destruct i as [|i]; [do 16 (destruct j as [|j]; [by vm_compute|]); lia|]). lia.
Qed.

Lemma decode_encode bs : decode_pairs (length bs) (encode_hex32 bs) = Some bs.
Proof.
  induction bs as [|b bs IH]; [done|].
  unfold encode_hex32 in *. cbn [flat_map app length decode_pairs].
  destruct (hex_byte_roundtrip b) as (H1 & H2 & H3). rewrite H1, H2. cbn [mbind option_bind].
  rewrite IH. cbn [mbind option_bind]. by rewrite H3.
Qed.

Lemma encode_decode n s bs :
  length s = (2 * n)%nat → decode_pairs n s = Some bs → encode_hex32 bs = s ∧ length bs = n.
Proof.
  revert s bs. induction n as [|n IH]; intros s bs Hl H; cbn in H.
  - simplify_eq. by destruct s.
  - destruct s as [|a [|b s]]; cbn in Hl; [lia..|]. inv_ok.
    destruct (IH s x1) as [E1 E2]; [lia|done|].
    destruct (hex_pair_inverse a b x x0) as [Ea Eb]; [done|done|].
    unfold encode_hex32 in *. cbn [flat_map length]. by rewrite E1, E2, Ea, Eb.
Qed.

Lemma decode_encode32 bs : length bs = 32%nat → decode_hex32 (encode_hex32 bs) = Some bs.
Proof.
  intros Hl. unfold decode_hex32. rewrite decide_True; [rewrite <-Hl; apply decode_encode|].
  assert (H : ∀ l, length (encode_hex32 l) = (2 * length l)%nat); [|rewrite H; lia].
  induction l as [|b l IH]; [done|]. unfold encode_hex32 in *. cbn [flat_map].
  rewrite length_app, IH. cbn. lia.
Qed.

(** The hex codec of digests round-trips both ways: decoding inverts
    encoding, and a string decodes only if it is the lowercase 64-character
    encoding of the result. *)
Theorem hex32_roundtrip :
  (∀ bs, length bs = 32%nat → decode_hex32 (encode_hex32 bs) = Some bs) ∧
  (∀ s bs, decode_hex32 s = Some bs → encode_hex32 bs = s ∧ length bs = 32%nat).
Proof.
  split; [exact decode_encode32|].
  intros s bs. unfold decode_hex32. case_decide; [|done]. by apply encode_decode.
Qed.

(** ** Symbols *)

Record Symbols : Type := mkSymbols {
  sy_schema_version : N;
  variable_order : list string;
  facet_to_var : gmap string N;
  var_to_label : list string;
}.

(** The [for (i, facet) in variable_order.iter().enumerate()] loop. *)
Fixpoint check_order (m : gmap string N) (i : nat) (order : list string) : result ParseError unit :=
  match order with
  | [] => Ok tt
  | facet :: order =>
      match m !! facet with
      | Some idx =>
          if idx =? N.of_nat i then check_order m (S i) order
          else Err (ManifestParse
                 ("ccm.symbols.json: facet_to_var[" +:+ facet +:+
                  "] does not equal its variable_order index"))
      | None => Err (ManifestParse
                 ("ccm.symbols.json: facet_to_var missing entry for " +:+ facet))
      end
  end.

Definition verify_symbols_consistency (symbols : Symbols) (manifest_var_count : N)
    : result ParseError unit :=
  _ ← reject_if (negb (N.of_nat (length (variable_order symbols)) =? manifest_var_count))
        (ManifestParse "ccm.symbols.json: variable_order length does not match manifest.var_count");
  _ ← reject_if (negb (N.of_nat (length (var_to_label symbols)) =? manifest_var_count))
        (ManifestParse "ccm.symbols.json: var_to_label length does not match manifest.var_count");
  _ ← reject_if (negb (N.of_nat (size (facet_to_var symbols)) =? manifest_var_count))
        (ManifestParse "ccm.symbols.json: facet_to_var length does not match manifest.var_count");
  check_order (facet_to_var symbols) 0 (variable_order symbols).

Lemma check_order_ok m order : ∀ k,
  check_order m k order = Ok tt →
  ∀ i f, order !! i = Some f → m !! f = Some (N.of_nat (k + i)).
Proof.
  induction order as [|f order IH]; intros k H i g Hi; cbn in H; [done|].
  destruct (m !! f) as [idx|] eqn:E; [|done].
  destruct (N.eqb_spec idx (N.of_nat k)) as [->|]; [|done].
  destruct i as [|i]; cbn in Hi.
  - injection Hi as <-. by rewrite Nat.add_0_r.
  - rewrite (IH (S k) H i g Hi). do 2 f_equal. lia.
Qed.

Lemma symbols_spec symbols n :
  verify_symbols_consistency symbols n = Ok tt →
  NoDup (variable_order symbols) ∧ N.of_nat (length (variable_order symbols)) = n ∧
  ∀ f i, facet_to_var symbols !! f = Some i ↔ variable_order symbols !! N.to_nat i = Some f.
Proof.
  unfold verify_symbols_consistency. intros H.
  rewrite !bind_unit_Ok in H. destruct H as (H1 & H2 & H3 & H4). learn_checks.
  pose proof (check_order_ok _ _ _ H4) as Hf. cbn in Hf.
  destruct symbols as [sv order m labels]; cbn in *.
  assert (Hd : NoDup order).
  { apply NoDup_alt. intros i j f Hi Hj. apply Hf in Hi, Hj. simplify_eq. lia. }
  assert (Hsub : list_to_set order ⊆ dom m).
  { intros f Hin. apply elem_of_list_to_set, list_elem_of_lookup in Hin as [i Hi].
    apply elem_of_dom. eauto. }
  assert (Heq : dom m ⊆ list_to_set order).
  { destruct (decide (dom m ⊆ list_to_set order)) as [|Hns]; [done|]. exfalso.
    assert (Hss : (list_to_set order : gset string) ⊂ dom m) by done.
    apply subset_size in Hss. rewrite size_list_to_set, size_dom in Hss by done. lia. }
  split_and!; [done|done|]. intros f i. split.
  - intros Hi. assert (Hin : f ∈ dom m) by (apply elem_of_dom; eauto).
    apply Heq, elem_of_list_to_set, list_elem_of_lookup in Hin as [j Hj].
    pose proof (Hf _ _ Hj). simplify_eq. by rewrite Nat2N.id.
  - intros Hi. rewrite (Hf _ _ Hi). f_equal. lia.
Qed.

(** A symbol table that passes the consistency check is a bijection: the
    names are distinct, and [facet_to_var] maps a name to an index exactly
    when [variable_order] has that name at that index. *)
Theorem symbols_bijection symbols n :
  verify_symbols_consistency symbols n = Ok tt →
  NoDup (variable_order symbols) ∧ N.of_nat (length (variable_order symbols)) = n ∧
  ∀ f i, facet_to_var symbols !! f = Some i ↔ variable_order symbols !! N.to_nat i = Some f.
Proof. apply symbols_spec. Qed.

Lemma symbols_bijection_witness :
  NoDup ["os.linux"; "os.mac"].
Proof.
  refine (proj1 (symbols_bijection (mkSymbols 2 ["os.linux"; "os.mac"]
    {["os.mac" := 1; "os.linux" := 0]} ["os.linux"; "os.mac"]) 2 _)).
  vm_compute. reflexivity.
Defined.

(** ** Loading *)

Record ConstraintRosterEntry : Type := mkRosterEntry {
  ce_condition : string;
  ce_id : string;
  ce_root_index : N;
}.

Record Manifest : Type := mkManifest {
  mf_schema_version : N;
  mf_ccm_hash : string;
  mf_bound_model_hash : string;
  mf_algorithm : string;
  mf_algorithm_params : gmap string string;
  mf_var_count : N;
  mf_node_count : N;
  mf_construction_wall_time_us : N;
  mf_emitted_at : string;
  mf_partition_manifest : option string;
  mf_constraints : list ConstraintRosterEntry;
}.

Record PreImageManifest : Type := mkPreImage {
  pi_algorithm : string;
  pi_algorithm_params : gmap string string;
  pi_bound_model_hash : string;
  pi_node_count : N;
  pi_schema_version : N;
  pi_var_count : N;
}.

Record ParsedCcm : Type := mkParsedCcm {
  pc_manifest : Manifest;
  pc_symbols : Symbols;
  pc_bdd : BddPayload;
  pc_ccm_hash_bytes : list ascii;
  pc_bound_model_hash_bytes : list ascii;
}.

Definition CCM_HASH_DOMAIN_TAG : list ascii := bytes_of "configflux.ccm.v2" ++ ["010"%char].

Definition pre_image (m : Manifest) : PreImageManifest :=
  {| pi_algorithm := mf_algorithm m; pi_algorithm_params := mf_algorithm_params m;
     pi_bound_model_hash := mf_bound_model_hash m; pi_node_count := mf_node_count m;
     pi_schema_version := mf_schema_version m; pi_var_count := mf_var_count m |}.

Section Load.
(** [sha2] and [serde_json]. *)
Context (sha256 : list ascii → list ascii).
Context (to_vec : PreImageManifest → result ParseError (list ascii)).
Context (parse_manifest : list ascii → result ParseError Manifest).
Context (parse_symbols : list ascii → result ParseError Symbols).

Definition compute_ccm_hash (manifest : Manifest) (symbols_bytes bdd_bytes : list ascii)
    : result ParseError (list ascii) :=
  manifest_canon ← to_vec (pre_image manifest);
  Ok (sha256 (CCM_HASH_DOMAIN_TAG ++ manifest_canon ++ ["010"%char]
              ++ sha256 bdd_bytes ++ sha256 symbols_bytes)).

Definition out_of_range (v lo hi : N) : bool := (v <? lo) || (hi <? v).

(** [load_ccm_from_dir] after its three reads. *)
Definition load_ccm (manifest_bytes symbols_bytes bdd_bytes : list ascii)
    : result ParseError ParsedCcm :=
  manifest ← parse_manifest manifest_bytes;
  _ ← reject_if (out_of_range (mf_schema_version manifest) CCM_MANIFEST_SCHEMA_MIN
                   CCM_MANIFEST_SCHEMA_MAX) UnsupportedSchemaVersion;
  _ ← reject_if (negb (bool_decide (mf_algorithm manifest ∈ RECOGNIZED_ALGORITHMS))) UnknownAlgorithm;
  _ ← reject_if (bool_decide (is_Some (mf_partition_manifest manifest)))
        (ManifestParse "per-partition ccm.manifest.json must not carry the partition_manifest field");
  _ ← reject_if (negb (bool_decide (length (mf_constraints manifest) = 0%nat)))
        (ManifestParse "per-partition ccm.manifest.json must not carry the constraints roster");
  symbols ← parse_symbols symbols_bytes;
  _ ← reject_if (out_of_range (sy_schema_version symbols) CCM_SYMBOLS_SCHEMA_MIN
                   CCM_SYMBOLS_SCHEMA_MAX) UnsupportedSchemaVersion;
  _ ← verify_symbols_consistency symbols (mf_var_count manifest);
  bdd ← parse_bdd_bin bdd_bytes (mf_var_count manifest) (mf_node_count manifest);
  computed ← compute_ccm_hash manifest symbols_bytes bdd_bytes;
  claimed ← ok_or (decode_hex32 (bytes_of (mf_ccm_hash manifest)))
              (ManifestParse "ccm_hash: not 64-char lowercase hex");
  _ ← reject_if (negb (bool_decide (computed = claimed))) HashMismatch;
  bound ← ok_or (decode_hex32 (bytes_of (mf_bound_model_hash manifest)))
            (ManifestParse "bound_model_hash: not 64-char lowercase hex");
  Ok (mkParsedCcm manifest symbols bdd computed bound).

(** What a loaded partition guarantees: the schema is the supported one,
    the algorithm is whitelisted, the file carries no top-level field, the
    digest of the artifact is the one the manifest claims, and the BDD table is
    canonical for the variables the symbol table names. *)
Theorem load_ccm_sound mb sb bb p :
  load_ccm mb sb bb = Ok p →
  mf_schema_version (pc_manifest p) = 2 ∧ sy_schema_version (pc_symbols p) = 2 ∧
  mf_algorithm (pc_manifest p) ∈ RECOGNIZED_ALGORITHMS ∧
  mf_partition_manifest (pc_manifest p) = None ∧ mf_constraints (pc_manifest p) = [] ∧
  compute_ccm_hash (pc_manifest p) sb bb = Ok (pc_ccm_hash_bytes p) ∧
  encode_hex32 (pc_ccm_hash_bytes p) = bytes_of (mf_ccm_hash (pc_manifest p)) ∧
  canonical_table (N.of_nat (length (variable_order (pc_symbols p)))) (bp_nodes (pc_bdd p)).
Proof.
  intros H. unfold load_ccm, out_of_range in H. inv_ok. cbn -[encode_hex32 compute_ccm_hash]. learn_checks.
  unfold CCM_MANIFEST_SCHEMA_MIN, CCM_MANIFEST_SCHEMA_MAX, CCM_SYMBOLS_SCHEMA_MIN,
    CCM_SYMBOLS_SCHEMA_MAX in *.
  repeat match goal with u : unit |- _ => destruct u end.
  assert (Hsym : N.of_nat (length (variable_order x4)) = mf_var_count x).
  { unfold verify_symbols_consistency in *. inv_ok. learn_checks. done. }
  assert (Hbdd : canonical_table (mf_var_count x) (bp_nodes x7)).
  { match goal with H : parse_bdd_bin _ _ _ = Ok _ |- _ => unfold parse_bdd_bin in H; inv_ok end.
    repeat match goal with u : unit |- _ => destruct u end. learn_checks. subst. cbn.
    by apply checks_canonical. }
  split_and!; try lia; try done.
  - destruct (mf_partition_manifest x) eqn:E; [|done]. exfalso. eauto.
  - by apply nil_length_inv.
  - destruct (decode_hex32 (bytes_of (mf_ccm_hash x))) as [c|] eqn:E; [|done].
    match goal with H : ok_or (Some c) _ = Ok _ |- _ => injection H as -> end. subst.
    unfold decode_hex32 in E. case_decide as Hl; [|done].
    apply encode_decode in E as [E _]; [exact E|done].
  - by rewrite Hsym.
Qed.

(** The two consistency checks a loaded partition has passed. *)
Lemma load_ccm_checks mb sb bb p :
  load_ccm mb sb bb = Ok p →
  verify_symbols_consistency (pc_symbols p) (mf_var_count (pc_manifest p)) = Ok tt ∧
  parse_bdd_bin bb (mf_var_count (pc_manifest p)) (mf_node_count (pc_manifest p)) = Ok (pc_bdd p).
Proof.
  intros H. unfold load_ccm in H. inv_ok. cbn.
  repeat match goal with u : unit |- _ => destruct u end. done.
Qed.
End Load.

(** A digest and a JSON codec to evaluate the pipeline with: the digest is the
    first 32 bytes of its input, padded, and the manifest and symbol files
    decode to fixed values. *)
Definition toy_sha (bs : list ascii) : list ascii := take 32 (bs ++ repeat "000"%char 32).

Definition toy_manifest : Manifest :=
  {| mf_schema_version := 2;
     mf_ccm_hash := string_of (encode_hex32 (toy_sha CCM_HASH_DOMAIN_TAG));
     mf_bound_model_hash := string_of (encode_hex32 (repeat "000"%char 32));
     mf_algorithm := "robdd-handrolled-v1"; mf_algorithm_params := ∅;
     mf_var_count := 0; mf_node_count := 2; mf_construction_wall_time_us := 0;
     mf_emitted_at := EmptyString; mf_partition_manifest := None; mf_constraints := [] |}.

Definition toy_symbols : Symbols := mkSymbols 2 [] ∅ [].

Lemma load_ccm_sound_witness :
  ∃ p, load_ccm toy_sha (λ _, Ok (repeat "000"%char 32)) (λ _, Ok toy_manifest) (λ _, Ok toy_symbols)
         [] [] (encode_canonical_to_bytes 0 (table_of []) TERMINAL_TRUE) = Ok p ∧
    encode_hex32 (pc_ccm_hash_bytes p) = bytes_of (mf_ccm_hash (pc_manifest p)).
Proof.
  assert (H : ∃ p, load_ccm toy_sha (λ _, Ok (repeat "000"%char 32)) (λ _, Ok toy_manifest)
    (λ _, Ok toy_symbols) [] [] (encode_canonical_to_bytes 0 (table_of []) TERMINAL_TRUE) = Ok p).
  { eexists. vm_compute. reflexivity. }
  destruct H as [p H]. exists p. split; [exact H|].
  exact (proj1 (proj2 (proj2 (proj2 (proj2 (proj2 (proj2 (load_ccm_sound _ _ _ _ _ _ _ _ H)))))))).
Defined.

Lemma parse_bdd_bin_sound_witness :
  ∃ p, parse_bdd_bin (encode_canonical_to_bytes 1 (table_of [mkRaw 0 0 1]) 2) 1 3 = Ok p ∧
    canonical_table 1 (bp_nodes p).
Proof.
  assert (H : ∃ p, parse_bdd_bin (encode_canonical_to_bytes 1 (table_of [mkRaw 0 0 1]) 2) 1 3 = Ok p).
  { eexists. vm_compute. reflexivity. }
  destruct H as [p H]. exists p. split; [exact H|].
  exact (proj2 (proj2 (proj2 (proj2 (parse_bdd_bin_sound _ _ _ _ H))))).
Defined.
