(* ===== verification/Emitter.v ===== *)
(** * Lowering conditions to the compiled artifact

    Models [compiler/src/ccm_emitter.rs]: the condition model and its parsing,
    the lowering of a condition to a BDD, the clause AND-fold with its memo
    clears, and the symbol and manifest records of the artifact.  JSON and
    SHA-256 are parameters; the CUDD construction is the fail-closed arm of the
    default build. *)
From S2P Require Import Prelude Tokens Ast Implication FacetCompare SelectionEval VarOrder.
From S2P Require Import Bdd BddLayout BddBytes CcmFormat.
Local Open Scope N_scope.

(** ** Data *)

Inductive emit_error : Type :=
  | ParseFailed (clause : string) (e : cond_error)
  | ExpandFailed (e : expand_error)
  | InvalidModelHash
  | MissingSymbol (name : string)
  | UnexpandedComparison (left right : string)
  | BuilderFault (f : bdd_fault)
  | OrderPanic
  | UnknownHeuristic (tag : string)
  | UnknownConstruction (tag : string)
  | CuddPathUnavailable
  | TruncatedHeader
  | JsonFailed.

Record ConditionModel : Type := mkModel {
  bound_model_hash : string;
  clauses : list string;
  constraints : list (string * string);
  cardinality : list string;
  facet_domains : gmap string (list string);
}.

Definition from_clauses (hash : string) (cs : list string) : ConditionModel :=
  {| bound_model_hash := hash; clauses := cs; constraints := []; cardinality := [];
     facet_domains := ∅ |}.

Inductive Construction : Type := InCrate | Cudd.

Definition algorithm_tag (c : Construction) : string :=
  match c with InCrate => "robdd-handrolled-v1" | Cudd => "robdd-cudd-v1" end.

Definition parse_construction_tag (tag : string) : result emit_error Construction :=
  if decide (tag = "in-crate") then Ok InCrate
  else if decide (tag = "cudd") then Ok Cudd
  else Err (UnknownConstruction tag).

Definition parse_heuristic_tag (tag : string) : result emit_error VarOrderHeuristic :=
  if decide (tag = "facet-name-ascending") then Ok FacetNameAscending
  else if decide (tag = "clause-grouped-dfs") then Ok ClauseGroupedDfs
  else if decide (tag = "force") then Ok Force
  else Err (UnknownHeuristic tag).

(** ** Parsing the model *)

Definition validate_hash (hash : string) : result emit_error unit :=
  let bs := bytes_of hash in
  if bool_decide (length bs ≠ 64%nat) || negb (forallb (λ b, byte_in 48 57 b || byte_in 97 102 b) bs)
  then Err InvalidModelHash else Ok tt.

Definition parse_clause (text : string) : result emit_error ConditionExpr :=
  map_err (ParseFailed text) (parse_condition_expr text).

Definition parse_clauses (cs : list string) : result emit_error (list ConditionExpr) :=
  collect_results parse_clause cs.

Definition parse_condition_model (model : ConditionModel)
    : result emit_error (list ConditionExpr) :=
  _ ← validate_hash (bound_model_hash model);
  exprs ← parse_clauses (clauses model);
  cons ← collect_results (λ c, parse_clause c.2) (constraints model);
  cards ← collect_results parse_clause (cardinality model);
  collect_results (λ e, map_err ExpandFailed (expand_facet_comparisons e (facet_domains model)))
    (exprs ++ cons ++ cards).

(** ** Lowering *)

Definition symbol_name (tag value : string) : string := tag +:+ "." +:+ value.

Definition u32_cast (n : N) : N := n mod 4294967296.

(** [symbols.iter().enumerate().map(..).collect()]: a later pair with the same
    name replaces an earlier one. *)
Definition index_insert (m : gmap string N) (entry : nat * symbol) : gmap string N :=
  <[symbol_name entry.2.1 entry.2.2 := u32_cast (N.of_nat entry.1)]> m.

Definition symbol_index (symbols : list symbol) : gmap string N :=
  foldl index_insert ∅ (imap pair symbols).

Notation lowered := (result emit_error (N * BddBuilder)).

(** A builder call inside the emitter. *)
Definition lift (m : result bdd_fault (N * BddBuilder)) : lowered := map_err BuilderFault m.

Definition compile_predicate (index : gmap string N) (st : BddBuilder) (p : ConditionPredicate)
    : lowered :=
  let name := symbol_name (p_tag p) (p_value p) in
  v ← ok_or (index !! name) (MissingSymbol name);
  '(node, st) ← lift (var st v);
  match p_op p with
  | OpEq => Ok (node, st)
  | OpNotEq => lift (not st node)
  end.

(** [acc = Some(match acc { None => c, Some(prev) => op(prev, c) })]. *)
Definition accumulate (op : BddBuilder → N → N → result bdd_fault (N * BddBuilder))
    (acc : option N) (st : BddBuilder) (c : N) : lowered :=
  match acc with
  | None => Ok (c, st)
  | Some prev => lift (op st prev c)
  end.

Section Lower.
Context (compile : BddBuilder → ConditionExpr → lowered).
Context (op : BddBuilder → N → N → result bdd_fault (N * BddBuilder)).

(** The loop of [any_of]/[all_of]: lower a child, fold it in. *)
Fixpoint lower_fold (acc : option N) (st : BddBuilder) (args : list ConditionExpr)
    : result emit_error (option N * BddBuilder) :=
  match args with
  | [] => Ok (acc, st)
  | child :: args =>
      '(c, st) ← compile st child;
      '(acc, st) ← accumulate op acc st c;
      lower_fold (Some acc) st args
  end.

(** Lower every child first. *)
Fixpoint lower_all (st : BddBuilder) (args : list ConditionExpr)
    : result emit_error (list N * BddBuilder) :=
  match args with
  | [] => Ok ([], st)
  | child :: args =>
      '(c, st) ← compile st child;
      '(cs, st) ← lower_all st args;
      Ok (c :: cs, st)
  end.
End Lower.

(** The at-least-one loop over the lowered children. *)
Fixpoint fold_nodes (op : BddBuilder → N → N → result bdd_fault (N * BddBuilder))
    (acc : option N) (st : BddBuilder) (cs : list N) : result emit_error (option N * BddBuilder) :=
  match cs with
  | [] => Ok (acc, st)
  | c :: cs => '(acc, st) ← accumulate op acc st c; fold_nodes op (Some acc) st cs
  end.

(** The at-most-one loops over the pairs [i < j]. *)
Fixpoint fold_mutex (acc : option N) (st : BddBuilder) (pairs : list (N * N))
    : result emit_error (option N * BddBuilder) :=
  match pairs with
  | [] => Ok (acc, st)
  | (ci, cj) :: pairs =>
      '(pair_and, st) ← lift (and st ci cj);
      '(mutex, st) ← lift (not st pair_and);
      '(acc, st) ← accumulate and acc st mutex;
      fold_mutex (Some acc) st pairs
  end.

Fixpoint compile_expr (index : gmap string N) (st : BddBuilder) (e : ConditionExpr) : lowered :=
  match e with
  | Bool value => Ok (if value then TRUE_REF else FALSE_REF, st)
  | Predicate p => compile_predicate index st p
  | Not inner =>
      '(compiled, st) ← compile_expr index st inner;
      lift (not st compiled)
  | And lhs rhs =>
      '(l, st) ← compile_expr index st lhs;
      '(r, st) ← compile_expr index st rhs;
      lift (and st l r)
  | Or lhs rhs =>
      '(l, st) ← compile_expr index st lhs;
      '(r, st) ← compile_expr index st rhs;
      lift (or st l r)
  | AnyOf args =>
      '(acc, st) ← lower_fold (compile_expr index) or None st args;
      Ok (default FALSE_REF acc, st)
  | AllOf args =>
      '(acc, st) ← lower_fold (compile_expr index) and None st args;
      Ok (default TRUE_REF acc, st)
  | ExactlyOneOf args =>
      '(children, st) ← lower_all (compile_expr index) st args;
      '(alo, st) ← fold_nodes or None st children;
      '(amo, st) ← fold_mutex None st (index_pairs children);
      lift (and st (default FALSE_REF alo) (default TRUE_REF amo))
  | FacetCompare l _ r => Err (UnexpandedComparison l r)
  end.

(** The clause loop: lower, conjoin, clear.  [samples i] is what the RSS
    sampler returns at the boundary after clause [i]. *)
Fixpoint fold_clauses (index : gmap string N) (samples : nat → option N) (i : nat)
    (root : N) (st : BddBuilder) (exprs : list ConditionExpr) : lowered :=
  match exprs with
  | [] => Ok (root, st)
  | e :: exprs =>
      '(clause, st) ← compile_expr index st e;
      '(root, st) ← lift (and st root clause);
      fold_clauses index samples (S i) root (clear_memos st (samples i)) exprs
  end.

Definition build_bdd_bin_with_builder (exprs : list ConditionExpr) (symbols : list symbol)
    (builder : BddBuilder) (samples : nat → option N) : result emit_error (list ascii * BddBuilder) :=
  '(root, st) ← fold_clauses (symbol_index symbols) samples 0 TRUE_REF builder exprs;
  bytes ← map_err BuilderFault (serialize st root (u32_cast (N.of_nat (length symbols))));
  Ok (bytes, st).

Definition build_bdd_bin_with_memo_cap_rss (exprs : list ConditionExpr) (symbols : list symbol)
    (cap budget : option N) (samples : nat → option N)
    : result emit_error (list ascii * MemoAdaptation) :=
  let builder :=
    match cap, budget with
    | None, None => default_builder
    | Some cap, None => with_memo_cap cap
    | cap, budget => with_memo_cap_and_rss_budget (default DEFAULT_MEMO_CAP cap) budget
    end in
  '(bytes, st) ← build_bdd_bin_with_builder exprs symbols builder samples;
  Ok (bytes, adaptation st).

Definition build_bdd_bin_via_construction (exprs : list ConditionExpr) (symbols : list symbol)
    (c : Construction) (cap budget : option N) (samples : nat → option N)
    : result emit_error (list ascii * MemoAdaptation) :=
  match c with
  | InCrate => build_bdd_bin_with_memo_cap_rss exprs symbols cap budget samples
  | Cudd => Err CuddPathUnavailable
  end.

(** ** What lowering denotes *)

(** A Boolean function of the BDD variables. *)
Notation bfun := ((N → bool) → bool).

Definition is_fun (ns : list RawNode) (id : N) (f : bfun) : Prop :=
  valid ns id ∧ ∀ rho, eval ns id rho = f rho.

Lemma is_fun_prefix st st' id f :
  wf st → extends st st' → is_fun (nodes st) id f → is_fun (nodes st') id f.
Proof.
  intros Hw Hx [Hv He]. split; [by eapply valid_prefix|]. intros rho.
  by rewrite (eval_prefix _ _ _ rho Hx (wf_nodes _ _ (wf_ar _ Hw)) Hv).
Qed.

Lemma is_fun_terminal ns b : is_fun ns (bool_ref b) (λ _, b).
Proof. split; [apply valid_terminal|]. intros rho. apply eval_terminal. Qed.

Section Lowering.
(** The number of variables. *)
Context (n : N).

(** The outcome of a lowering step: a well-formed extension of the arena over
    the same variables and a result with the promised property; the only
    failure is a full node table. *)
Definition gives {A} (st : BddBuilder) (m : result emit_error (A * BddBuilder))
    (Q : list RawNode → A → Prop) : Prop :=
  match m with
  | Ok (a, st') =>
      wf st' ∧ extends st st' ∧ (vars_below n (nodes st) → vars_below n (nodes st')) ∧
      Q (nodes st') a
  | Err e => e = BuilderFault NodeTableFull
  end.
#[local] Arguments gives {A} st m Q : simpl never.

Lemma gives_bind {A B} st (m : result emit_error (A * BddBuilder))
    (k : A * BddBuilder → result emit_error (B * BddBuilder)) Q R :
  gives st m Q →
  (∀ a st', wf st' → extends st st' → Q (nodes st') a → gives st' (k (a, st')) R) →
  gives st (m ≫= k) R.
Proof.
  unfold gives. destruct m as [[a st']|e]; cbn; [|done]. intros (Hw & Hx & Hv & HQ) Hk.
  specialize (Hk a st' Hw Hx HQ). destruct (k (a, st')) as [[b st'']|e]; [|done].
  destruct Hk as (? & ? & ? & ?). split_and!; [done|by etransitivity|auto|done].
Qed.

Lemma gives_ret {A} st (a : A) (Q : list RawNode → A → Prop) :
  wf st → Q (nodes st) a → gives st (Ok (a, st)) Q.
Proof. intros Hw HQ. split_and!; [done|reflexivity|done|done]. Qed.

Lemma gives_lift st m P (Q : list RawNode → N → Prop) :
  yields st m P →
  (∀ id st', m = Ok (id, st') → vars_below n (nodes st) → vars_below n (nodes st')) →
  (∀ id st', wf st' → extends st st' → P (nodes st') id → Q (nodes st') id) →
  gives st (lift m) Q.
Proof.
  unfold yields, gives, lift. destruct m as [[id st']|e]; cbn; [|by intros ->].
  intros (Hw & Hx & HP) Hv HQ. split_and!; eauto.
Qed.

Lemma gives_var st v :
  wf st → v < n → gives st (lift (var st v)) (λ ns id, is_fun ns id (λ rho, rho v)).
Proof.
  intros Hw Hv. eapply gives_lift; [by apply var_spec| |].
  - intros id st' H Hb. by eapply mk_node_vars.
  - intros id st' _ _ [Hval He _]. split; [done|]. intros rho. rewrite He. by destruct (rho v).
Qed.

Lemma gives_not st a f :
  wf st → is_fun (nodes st) a f →
  gives st (lift (not st a)) (λ ns id, is_fun ns id (λ rho, negb (f rho))).
Proof.
  intros Hw Hf. eapply gives_lift; [apply not_spec; [done|apply Hf]| |].
  - intros id st' H Hb. by eapply not_fuel_vars.
  - intros id st' Hw' Hx [Hval He _]. split; [done|]. intros rho.
    by rewrite He, (proj2 (is_fun_prefix _ _ _ _ Hw Hx Hf)).
Qed.

Definition op_of (is_and : bool) := if is_and then and else or.

Lemma gives_op is_and st a b f g :
  wf st → is_fun (nodes st) a f → is_fun (nodes st) b g →
  gives st (lift (op_of is_and st a b))
    (λ ns id, is_fun ns id (λ rho, op_sem is_and (f rho) (g rho))).
Proof.
  intros Hw Hf Hg.
  assert (E : op_of is_and st a b = op_fuel is_and (S (N.to_nat (a + b))) st a b) by (by destruct is_and).
  rewrite E. eapply gives_lift; [apply op_spec; [done|apply Hf|apply Hg]| |].
  - intros id st' H Hb. by eapply op_fuel_vars.
  - intros id st' Hw' Hx [Hval He _]. split; [done|]. intros rho.
    by rewrite He, (proj2 (is_fun_prefix _ _ _ _ Hw Hx Hf)), (proj2 (is_fun_prefix _ _ _ _ Hw Hx Hg)).
Qed.

(** *** Folds *)

(** An accumulator and the function it stands for. *)
Definition acc_fun (ns : list RawNode) (acc : option N) (F : option bfun) : Prop :=
  match acc, F with
  | None, None => True
  | Some id, Some f => is_fun ns id f
  | _, _ => False
  end.

Definition fold_step (is_and : bool) (F : option bfun) (g : bfun) : option bfun :=
  Some (match F with None => g | Some f => λ rho, op_sem is_and (f rho) (g rho) end).

Lemma acc_fun_prefix st st' acc F :
  wf st → extends st st' → acc_fun (nodes st) acc F → acc_fun (nodes st') acc F.
Proof. destruct acc, F; cbn; eauto using is_fun_prefix. Qed.

Lemma gives_accumulate is_and acc F st c g :
  wf st → acc_fun (nodes st) acc F → is_fun (nodes st) c g →
  gives st (accumulate (op_of is_and) acc st c)
    (λ ns id, acc_fun ns (Some id) (fold_step is_and F g)).
Proof.
  intros Hw Ha Hc. destruct acc as [prev|], F as [f|]; cbn in Ha |- *;
    [by apply gives_op|done|done|by apply gives_ret].
Qed.

Lemma gives_fold_nodes is_and acc F st cs gs :
  wf st → acc_fun (nodes st) acc F → Forall2 (is_fun (nodes st)) cs gs →
  gives st (fold_nodes (op_of is_and) acc st cs)
    (λ ns acc', acc_fun ns acc' (foldl (fold_step is_and) F gs)).
Proof.
  intros Hw Ha HF. revert acc F st gs Hw Ha HF. induction cs as [|c cs IH]; intros acc F st gs Hw Ha HF;
    inversion HF as [|? g ? gs' Hg HF']; subst; cbn.
  - by apply gives_ret.
  - eapply gives_bind; [by apply gives_accumulate|]. intros id st' Hw' Hx Hid. cbn beta iota.
    apply IH; [done|done|]. eapply Forall2_impl; [exact HF'|]. intros c' g' H. exact (is_fun_prefix _ _ _ _ Hw Hx H).
Qed.

Lemma gives_lower_fold is_and compile (sem : ConditionExpr → bfun) args :
  Forall (λ e, ∀ st, wf st → gives st (compile st e) (λ ns id, is_fun ns id (sem e))) args →
  ∀ acc F st, wf st → acc_fun (nodes st) acc F →
  gives st (lower_fold compile (op_of is_and) acc st args)
    (λ ns acc', acc_fun ns acc' (foldl (fold_step is_and) F (sem <$> args))).
Proof.
  induction 1 as [|e args He _ IH]; intros acc F st Hw Ha; cbn.
  - by apply gives_ret.
  - eapply gives_bind; [by apply He|]. intros c st1 Hw1 Hx1 Hc. cbn beta iota.
    eapply gives_bind; [apply gives_accumulate; [done|exact (acc_fun_prefix _ _ _ _ Hw Hx1 Ha)|exact Hc]|].
    intros id st2 Hw2 Hx2 Hid. cbn beta iota. by apply IH.
Qed.

Lemma gives_lower_all compile (sem : ConditionExpr → bfun) args :
  Forall (λ e, ∀ st, wf st → gives st (compile st e) (λ ns id, is_fun ns id (sem e))) args →
  ∀ st, wf st →
  gives st (lower_all compile st args) (λ ns cs, Forall2 (is_fun ns) cs (sem <$> args)).
Proof.
  induction 1 as [|e args He _ IH]; intros st Hw; cbn.
  - apply gives_ret; [done|constructor].
  - eapply gives_bind; [by apply He|]. intros c st1 Hw1 Hx1 Hc. cbn beta iota.
    eapply gives_bind; [by apply IH|]. intros cs st2 Hw2 Hx2 Hcs. cbn beta iota.
    apply gives_ret; [done|]. constructor; [exact (is_fun_prefix _ _ _ _ Hw1 Hx2 Hc)|done].
Qed.

Definition mutex_fun (p : bfun * bfun) : bfun := λ rho, negb (p.1 rho && p.2 rho).

Lemma gives_fold_mutex acc F st pairs gs :
  wf st → acc_fun (nodes st) acc F →
  Forall2 (λ c g, is_fun (nodes st) c.1 g.1 ∧ is_fun (nodes st) c.2 g.2) pairs gs →
  gives st (fold_mutex acc st pairs)
    (λ ns acc', acc_fun ns acc' (foldl (fold_step true) F (mutex_fun <$> gs))).
Proof.
  intros Hw Ha HF. revert acc F st gs Hw Ha HF. induction pairs as [|[ci cj] pairs IH];
    intros acc F st gs Hw Ha HF; inversion HF as [|? [gi gj] ? gs' [Hi Hj] HF']; subst; cbn.
  - by apply gives_ret.
  - eapply gives_bind; [by apply (gives_op true _ _ _ gi gj)|].
    intros pa st1 Hw1 Hx1 Hpa. cbn beta iota.
    eapply gives_bind; [eapply gives_not; [done|exact Hpa]|]. intros mx st2 Hw2 Hx2 Hmx. cbn beta iota.
    assert (Hx : extends st st2) by (by etransitivity).
    eapply gives_bind.
    { apply (gives_accumulate true _ F _ _ (mutex_fun (gi, gj))); [done| |exact Hmx].
      exact (acc_fun_prefix _ _ _ _ Hw Hx Ha). }
    intros id st3 Hw3 Hx3 Hid. cbn beta iota. apply IH; [done|done|].
    assert (Hx' : extends st st3) by (by etransitivity).
    eapply Forall2_impl; [exact HF'|]. intros c g [H1 H2].
    split; [exact (is_fun_prefix _ _ _ _ Hw Hx' H1)|exact (is_fun_prefix _ _ _ _ Hw Hx' H2)].
Qed.
End Lowering.
#[global] Arguments gives n {A} st m Q : simpl never.

(** *** Expressions *)

(** A condition as a Boolean function of its atoms [tag = value]. *)
Fixpoint eval_atoms (atom : string → string → bool) (e : ConditionExpr) : bool :=
  match e with
  | Bool value => value
  | Predicate p =>
      match p_op p with
      | OpEq => atom (p_tag p) (p_value p)
      | OpNotEq => negb (atom (p_tag p) (p_value p))
      end
  | Not inner => negb (eval_atoms atom inner)
  | And l r => eval_atoms atom l && eval_atoms atom r
  | Or l r => eval_atoms atom l || eval_atoms atom r
  | AnyOf es => existsb (eval_atoms atom) es
  | AllOf es => forallb (eval_atoms atom) es
  | ExactlyOneOf es => (length (List.filter (eval_atoms atom) es) =? 1)%nat
  | FacetCompare _ _ _ => false
  end.

(** The atoms an assignment makes true: the facet has that value. *)
Definition atoms_of (sigma : gmap string string) (t v : string) : bool :=
  bool_decide (sigma !! t = Some v).

Lemma eval_atoms_total e sigma :
  no_comparison e → total_for e sigma → eval_atoms (atoms_of sigma) e = eval_total e sigma.
Proof.
  induction e as [b|p|e IH|l r IHl IHr|l r IHl IHr|es IH|es IH|es IH|l op r]
    using ConditionExpr_ind'; cbn [no_comparison eval_atoms eval_total]; intros Hn Ht.
  - done.
  - unfold eval_total_predicate, atoms_of. destruct (Ht (p_tag p)) as [w Hw]; [cbn; set_solver|].
    rewrite Hw. destruct (p_op p); [apply bool_decide_ext; naive_solver|].
    rewrite <-bool_decide_not. apply bool_decide_ext; naive_solver.
  - f_equal. by apply IH.
  - apply andb_True in Hn as [??]. f_equal; [apply IHl|apply IHr]; try done;
      intros t Ht'; apply Ht, expr_tags_binary; eauto.
  - apply andb_True in Hn as [??]. f_equal; [apply IHl|apply IHr]; try done;
      intros t Ht'; apply Ht, expr_tags_binary; eauto.
  - apply existsb_cong. rewrite !Forall_forall in *. intros e He.
    apply IH; [done|by eapply forallb_True, Forall_forall in Hn|].
    intros t Ht'. eapply Ht, expr_tags_list; eauto.
  - apply forallb_cong. rewrite !Forall_forall in *. intros e He.
    apply IH; [done|by eapply forallb_True, Forall_forall in Hn|].
    intros t Ht'. eapply Ht, expr_tags_list; eauto.
  - do 2 f_equal. apply filter_cong. rewrite !Forall_forall in *. intros e He.
    apply IH; [done|by eapply forallb_True, Forall_forall in Hn|].
    intros t Ht'. eapply Ht, expr_tags_list; eauto.
  - done.
Qed.

Lemma is_fun_ext ns id (f g : bfun) :
  (∀ rho, f rho = g rho) → is_fun ns id f → is_fun ns id g.
Proof. intros Hfg [Hv He]. split; [done|]. intros rho. by rewrite He. Qed.

Lemma acc_fun_default ns b acc F :
  acc_fun ns acc F → is_fun ns (default (bool_ref b) acc) (default (λ _, b) F).
Proof. destruct acc, F; cbn; [done..|]. intros _. apply is_fun_terminal. Qed.

(** What the folds compute, from the neutral element. *)
Lemma fold_step_sem is_and gs rho F :
  default (λ _, is_and) (foldl (fold_step is_and) F gs) rho =
  op_sem is_and (default (λ _, is_and) F rho)
    (if is_and then forallb (λ g, g rho) gs else existsb (λ g, g rho) gs).
Proof.
  revert F. induction gs as [|g gs IH]; intros F; cbn [foldl].
  - destruct is_and; cbn; by rewrite ?andb_true_r, ?orb_false_r.
  - rewrite IH. destruct is_and, F as [f|]; cbn; rewrite ?andb_assoc, ?orb_assoc; done.
Qed.

Lemma forallb_fmap {A B} (f : A → B) (P : B → bool) l :
  forallb P (f <$> l) = forallb (λ a, P (f a)) l.
Proof. induction l as [|a l IH]; cbn; [done|by rewrite IH]. Qed.

Lemma existsb_fmap {A B} (f : A → B) (P : B → bool) l :
  existsb P (f <$> l) = existsb (λ a, P (f a)) l.
Proof. induction l as [|a l IH]; cbn; [done|by rewrite IH]. Qed.

Lemma length_filter_fmap {A} (f : A → bool) l :
  length (List.filter id (f <$> l)) = length (List.filter f l).
Proof. induction l as [|a l IH]; cbn; [done|]. destruct (f a); cbn; by rewrite IH. Qed.

(** At least one of the functions and no two of them: exactly one. *)
Lemma alo_amo_sem (gs : list bfun) rho :
  default (λ _, false) (foldl (fold_step false) None gs) rho &&
  default (λ _, true) (foldl (fold_step true) None (mutex_fun <$> index_pairs gs)) rho =
  (length (List.filter (λ g, g rho) gs) =? 1)%nat.
Proof.
  rewrite !fold_step_sem. cbn [op_sem default]. rewrite andb_true_l, orb_false_l.
  rewrite <-(length_filter_fmap (λ g : bfun, g rho)), exactly_one_pairs, index_pairs_fmap.
  rewrite existsb_fmap, !forallb_fmap. f_equal.
Qed.

Lemma Forall2_index_pairs {A B} (R : A → B → Prop) l k :
  Forall2 R l k → Forall2 (λ x y, R x.1 y.1 ∧ R x.2 y.2) (index_pairs l) (index_pairs k).
Proof.
  induction 1 as [|a b l k Hab H IH]; cbn; [constructor|]. apply Forall2_app; [|done].
  apply Forall2_fmap. eapply Forall2_impl; [exact H|]. done.
Qed.

Section CompileExpr.
Context (index : gmap string N) (n : N).

(** The variable of an atom. *)
Definition var_of (t v : string) : N := default 0 (index !! symbol_name t v).

(** Every atom of the expression has a variable in range. *)
Definition indexed (e : ConditionExpr) : Prop :=
  Forall (λ s, ∃ v, index !! symbol_name s.1 s.2 = Some v ∧ v < n) (for_each_predicate_symbol e).

Definition sem (e : ConditionExpr) : bfun := λ rho, eval_atoms (λ t v, rho (var_of t v)) e.

Lemma indexed_binary l r : indexed (And l r) → indexed l ∧ indexed r.
Proof. unfold indexed, for_each_predicate_symbol. cbn. by rewrite fmap_app, Forall_app. Qed.

Lemma indexed_list es : indexed (AnyOf es) → Forall indexed es.
Proof.
  unfold indexed, for_each_predicate_symbol. cbn.
  induction es as [|e es IH]; cbn; [constructor|]. rewrite fmap_app, Forall_app.
  intros [??]. constructor; auto.
Qed.

Lemma gives_weaken {A} st (m : result emit_error (A * BddBuilder)) (Q R : list RawNode → A → Prop) :
  (∀ ns a, Q ns a → R ns a) → gives n st m Q → gives n st m R.
Proof. intros H. unfold gives. destruct m as [[]|]; naive_solver. Qed.

Lemma compile_predicate_spec st p :
  wf st → indexed (Predicate p) →
  gives n st (compile_predicate index st p) (λ ns id, is_fun ns id (sem (Predicate p))).
Proof.
  intros Hw Hi. apply Forall_singleton in Hi as (v & Hv & Hlt). cbn in Hv.
  unfold compile_predicate. rewrite Hv. cbn -[var not].
  eapply gives_bind; [by apply gives_var|]. intros id st' Hw' Hx Hid. cbn beta iota.
  assert (Hid' : is_fun (nodes st') id (λ rho, rho (var_of (p_tag p) (p_value p)))).
  { unfold var_of. rewrite Hv. exact Hid. }
  unfold sem. cbn. destruct (p_op p); [by apply gives_ret|by apply gives_not].
Qed.

Lemma compile_children es :
  Forall (λ e, no_comparison e → indexed e → ∀ st, wf st →
    gives n st (compile_expr index st e) (λ ns id, is_fun ns id (sem e))) es →
  forallb no_comparison es → Forall indexed es →
  Forall (λ e, ∀ st, wf st → gives n st (compile_expr index st e) (λ ns id, is_fun ns id (sem e))) es.
Proof.
  rewrite forallb_True, !Forall_forall. eauto.
Qed.

(** One arm of the n-ary folds. *)
Lemma gives_nary (is_and : bool) es e st :
  Forall (λ e, ∀ st, wf st → gives n st (compile_expr index st e) (λ ns id, is_fun ns id (sem e))) es →
  wf st →
  (∀ rho, (if is_and then forallb (λ g, g rho) (sem <$> es) else existsb (λ g, g rho) (sem <$> es)) =
    sem e rho) →
  gives n st (lower_fold (compile_expr index) (op_of is_and) None st es ≫=
    λ '(acc, st), Ok (default (bool_ref is_and) acc, st)) (λ ns id, is_fun ns id (sem e)).
Proof.
  intros HF Hw He. eapply gives_bind; [by eapply (gives_lower_fold n is_and _ sem _ HF None None)|].
  intros acc st' Hw' Hx Hacc. cbn beta iota in *. apply gives_ret; [done|].
  eapply is_fun_ext; [|by apply acc_fun_default]. intros rho. rewrite fold_step_sem, <-He.
  by destruct is_and.
Qed.

Lemma gives_exactly_one es st :
  Forall (λ e, ∀ st, wf st → gives n st (compile_expr index st e) (λ ns id, is_fun ns id (sem e))) es →
  wf st → gives n st (compile_expr index st (ExactlyOneOf es)) (λ ns id, is_fun ns id (sem (ExactlyOneOf es))).
Proof.
  intros HF Hw. cbn -[and or not].
  eapply gives_bind; [by apply (gives_lower_all n _ sem)|]. intros cs st1 Hw1 Hx1 Hcs. cbn beta iota in *.
  eapply gives_bind; [by apply (gives_fold_nodes n false None None _ _ _ Hw1 I Hcs)|].
  intros alo st2 Hw2 Hx2 Halo. cbn beta iota in *.
  assert (Hcs2 : Forall2 (is_fun (nodes st2)) cs (sem <$> es)).
  { eapply Forall2_impl; [exact Hcs|]. intros c g. by apply is_fun_prefix. }
  eapply gives_bind; [by apply (gives_fold_mutex n None None _ _ _ Hw2 I (Forall2_index_pairs _ _ _ Hcs2))|].
  intros amo st3 Hw3 Hx3 Hamo. cbn beta iota in *.
  eapply gives_weaken; [|apply (gives_op n true)]; [|done| |].
  3: { apply acc_fun_default with (b := true). exact Hamo. }
  2: { apply acc_fun_default with (b := false). exact (acc_fun_prefix _ _ _ _ Hw2 Hx3 Halo). }
  intros ns id. cbn beta. apply is_fun_ext. intros rho. cbn [op_sem]. rewrite alo_amo_sem.
  unfold sem. cbn [eval_atoms]. rewrite <-length_filter_fmap, <-list_fmap_compose, length_filter_fmap.
  done.
Qed.

Lemma compile_expr_spec e : no_comparison e → indexed e → ∀ st, wf st →
  gives n st (compile_expr index st e) (λ ns id, is_fun ns id (sem e)).
Proof.
  induction e as [b|p|e IH|l r IHl IHr|l r IHl IHr|es IH|es IH|es IH|l op r]
    using ConditionExpr_ind'; intros Hn Hi st Hw.
  - apply gives_ret; [done|]. apply is_fun_terminal.
  - by apply compile_predicate_spec.
  - cbn -[not]. eapply gives_bind; [by apply IH|]. intros c st' Hw' Hx Hc. cbn beta iota in *.
    by apply gives_not.
  - apply andb_True in Hn as [Hnl Hnr]. apply indexed_binary in Hi as [Hil Hir]. cbn -[and].
    eapply gives_bind; [by apply IHl|]. intros cl st1 Hw1 Hx1 Hl. cbn beta iota in *.
    eapply gives_bind; [by apply IHr|]. intros cr st2 Hw2 Hx2 Hr. cbn beta iota in *.
    exact (gives_op n true _ _ _ _ _ Hw2 (is_fun_prefix _ _ _ _ Hw1 Hx2 Hl) Hr).
  - apply andb_True in Hn as [Hnl Hnr]. apply (indexed_binary l r) in Hi as [Hil Hir]. cbn -[or].
    eapply gives_bind; [by apply IHl|]. intros cl st1 Hw1 Hx1 Hl. cbn beta iota in *.
    eapply gives_bind; [by apply IHr|]. intros cr st2 Hw2 Hx2 Hr. cbn beta iota in *.
    exact (gives_op n false _ _ _ _ _ Hw2 (is_fun_prefix _ _ _ _ Hw1 Hx2 Hl) Hr).
  - apply indexed_list in Hi. apply (gives_nary false es); [by apply compile_children|done|].
    intros rho. by rewrite existsb_fmap.
  - apply (indexed_list es) in Hi. apply (gives_nary true es); [by apply compile_children|done|].
    intros rho. by rewrite forallb_fmap.
  - apply (indexed_list es) in Hi. apply gives_exactly_one; [by apply compile_children|done].
  - done.
Qed.

Lemma fold_clauses_spec samples exprs : Forall no_comparison exprs → Forall indexed exprs →
  ∀ i root (f : bfun) st, wf st → is_fun (nodes st) root f →
  gives n st (fold_clauses index samples i root st exprs)
    (λ ns id, is_fun ns id (λ rho, f rho && forallb (λ e, sem e rho) exprs)).
Proof.
  intros Hn Hi. induction exprs as [|e exprs IH]; intros i root f st Hw Hf;
    [|inversion Hn; inversion Hi; subst]; cbn -[and].
  - apply gives_ret; [done|]. eapply is_fun_ext; [|exact Hf]. intros rho. by rewrite andb_true_r.
  - eapply gives_bind; [by apply compile_expr_spec|]. intros c st1 Hw1 Hx1 Hc. cbn beta iota in *.
    eapply gives_bind; [exact (gives_op n true _ _ _ _ _ Hw1 (is_fun_prefix _ _ _ _ Hw Hx1 Hf) Hc)|].
    intros root' st2 Hw2 Hx2 Hr. cbn beta iota in *.
    assert (Hcl : wf (clear_memos st2 (samples i))) by (by apply wf_clear).
    pose proof (nodes_clear st2 (samples i)) as En.
    rewrite <-En in Hr. specialize (IH ltac:(done) ltac:(done) (S i) root' _ _ Hcl Hr). unfold gives, extends in *. rewrite En in IH.
    destruct (fold_clauses _ _ _ _ _ exprs) as [[r st3]|]; [|done].
    destruct IH as (? & ? & ? & HQ). split_and!; [done..|].
    eapply is_fun_ext; [|exact HQ]. intros rho. cbn. by rewrite andb_assoc.
Qed.
End CompileExpr.

(** ** The variable of a symbol *)

Definition names (symbols : list symbol) : list string := (λ s, symbol_name s.1 s.2) <$> symbols.

Lemma symbol_index_spec symbols :
  NoDup (names symbols) →
  ∀ i t v, symbols !! i = Some (t, v) →
    symbol_index symbols !! symbol_name t v = Some (u32_cast (N.of_nat i)).
Proof.
  intros Hd. unfold symbol_index.
  cut (∀ k m, (∀ i t v, symbols !! i = Some (t, v) →
      foldl index_insert m (imap (λ i, pair (k + i)%nat) symbols) !! symbol_name t v =
      Some (u32_cast (N.of_nat (k + i)))) ∧
    (∀ x, x ∉ names symbols →
      foldl index_insert m (imap (λ i, pair (k + i)%nat) symbols) !! x = m !! x)).
  { intros H. intros i t v Hi. destruct (H 0%nat ∅) as [H' _]. exact (H' i t v Hi). }
  induction symbols as [|[t v] symbols IH]; intros k m; [done|].
  inversion Hd as [|? ? Hnin Hd']; subst. cbn [imap foldl].
  destruct (IH Hd' (S k) (index_insert m ((k + 0)%nat, (t, v)))) as [IH1 IH2].
  assert (E : imap (λ i, pair (S k + i)%nat) symbols =
    imap ((λ i, pair (k + i)%nat) ∘ S) symbols).
  { apply imap_ext. intros i x _. cbn. f_equal. lia. }
  rewrite E in IH1, IH2. split.
  - intros [|i] t' v' Hi; cbn in Hi.
    + injection Hi as <- <-. rewrite IH2 by done. apply lookup_insert_eq.
    + rewrite (IH1 i t' v' Hi). do 2 f_equal. lia.
  - intros x [Hx1 Hx2]%not_elem_of_cons. rewrite IH2 by done. by apply lookup_insert_ne.
Qed.

(** ** The tags of a model *)

Definition tags_in (P : string → Prop) (e : ConditionExpr) : Prop := Forall P (expr_tags e).

Section TagsIn.
Context (P : string → Prop).

Lemma tags_in_binary l r : tags_in P (And l r) ↔ tags_in P l ∧ tags_in P r.
Proof.
  unfold tags_in. rewrite !Forall_forall. setoid_rewrite expr_tags_binary. naive_solver.
Qed.

Lemma tags_in_list es : tags_in P (AnyOf es) ↔ Forall (tags_in P) es.
Proof.
  unfold tags_in. rewrite Forall_forall. split.
  - intros H. apply Forall_forall. intros e He. apply Forall_forall. intros t Ht.
    eapply H, expr_tags_list; eauto.
  - intros H t Ht. unfold expr_tags in Ht. cbn in Ht.
    rewrite elem_of_app, list_elem_of_fmap, elem_of_flat_map in Ht.
    destruct Ht as [(p & -> & (e & He & Hp)%elem_of_flat_map)|(lr & (e & He & Hl)%elem_of_flat_map & Ht)];
      (eapply Forall_forall in H; [|exact He]); eapply Forall_forall; try exact H;
      apply elem_of_app; [left; by apply list_elem_of_fmap_2|right; apply elem_of_flat_map; eauto].
Qed.

Lemma expand_equality_tags l r domains e :
  P l → P r → expand_equality l r domains = Ok e → tags_in P e.
Proof.
  unfold expand_equality. intros Hl Hr H. inv_ok.
  assert (Ht : ∀ v t, equality_term l r x x0 v = Some t → tags_in P t).
  { unfold equality_term, tags_in. intros v t. repeat case_match; intros [= <-]; cbn; by repeat constructor. }
  generalize (union_in_fold_order x x0). intros vs.
  cut (∀ acc, tags_in P (default (Bool true) acc) →
    tags_in P (default (Bool true) (foldl (λ folded value,
      match equality_term l r x x0 value with
      | None => folded
      | Some t => Some (match folded with None => t | Some p => And p t end)
      end) acc vs))); [by intros H'; apply H'; constructor|].
  induction vs as [|v vs IH]; intros acc Hacc; cbn; [done|]. apply IH.
  destruct (equality_term _ _ _ _ v) as [t|] eqn:E; [|done]. apply Ht in E.
  destruct acc; cbn; [by apply tags_in_binary|done].
Qed.

Lemma expand_list_tags (f : ConditionExpr → result expand_error ConditionExpr) es es' :
  Forall (λ e, ∀ e', f e = Ok e' → tags_in P e → tags_in P e') es →
  collect_results f es = Ok es' → tags_in P (AnyOf es) → tags_in P (AnyOf es').
Proof.
  rewrite !tags_in_list. intros HF H%collect_results_Ok.
  induction H as [|e e' es es' He H IH]; intros Ht; [done|].
  inversion HF; inversion Ht; subst. constructor; eauto.
Qed.

Lemma expand_tags e domains e' :
  expand_facet_comparisons e domains = Ok e' → tags_in P e → tags_in P e'.
Proof.
  revert e'. induction e as [b|p|e IH|l r IHl IHr|l r IHl IHr|es IH|es IH|es IH|l op r]
    using ConditionExpr_ind'; intros e' H Ht; cbn in H; inv_ok; try done;
    try (eapply (expand_list_tags _ es); [exact IH|eassumption|exact Ht]).
  - change (tags_in P x). eauto.
  - apply tags_in_binary in Ht as [??]. apply tags_in_binary. eauto.
  - apply (tags_in_binary l r) in Ht as [??]. apply (tags_in_binary x x0). eauto.
  - unfold tags_in, expr_tags in Ht. cbn in Ht. inversion Ht as [|? ? ? Ht']; inversion Ht'; subst.
    apply expand_equality_tags in H0; [|done..]. by destruct op.
Qed.
End TagsIn.

Lemma wf_expr_tags e : wf_expr e → tags_in is_identifier e.
Proof.
  induction e as [b|p|e IH|l r IHl IHr|l r IHl IHr|es IH|es IH|es IH|l op r]
    using ConditionExpr_ind'; cbn [wf_expr]; intros H;
    try (apply andb_True in H as [H1 H2]).
  - constructor.
  - by repeat constructor.
  - by apply IH.
  - apply tags_in_binary. eauto.
  - apply (tags_in_binary _ l r). eauto.
  - apply tags_in_list. apply forallb_True in H2. rewrite !Forall_forall in *. eauto.
  - apply (tags_in_list _ es). apply forallb_True in H2. rewrite !Forall_forall in *. eauto.
  - apply (tags_in_list _ es). apply forallb_True in H2. rewrite !Forall_forall in *. eauto.
  - by repeat constructor.
Qed.

Lemma symbol_tags e s : s ∈ for_each_predicate_symbol e → s.1 ∈ expr_tags e.
Proof.
  assert (E : visit_predicates e = for_each_predicate e).
  { induction e as [b|p|e IH|l r IHl IHr|l r IHl IHr|es IH|es IH|es IH|l op r]
      using ConditionExpr_ind'; cbn; try congruence;
      induction IH as [|e es He _ IH']; cbn; congruence. }
  unfold for_each_predicate_symbol, expr_tags. rewrite E, elem_of_app.
  intros (p & -> & Hp)%list_elem_of_fmap. left. apply list_elem_of_fmap. eauto.
Qed.

(** A tag has no dot, so the name of a symbol determines it. *)
Lemma identifier_no_dot t : is_identifier t → "."%char ∉ bytes_of t.
Proof.
  unfold is_identifier. destruct (bytes_of t) as [|b bs]; [done|].
  intros [Hb Hbs]%andb_True Hin. apply elem_of_cons in Hin as [<-|Hin]; [by vm_compute in Hb|].
  by eapply forallb_True, Forall_forall in Hbs; [|exact Hin]; vm_compute in Hbs.
Qed.

Lemma split_at_first {A} (x : A) l l' r r' :
  x ∉ l → x ∉ l' → l ++ x :: r = l' ++ x :: r' → l = l' ∧ r = r'.
Proof.
  revert l'. induction l as [|a l IH]; intros [|a' l'] Hl Hl' E; cbn in E; simplify_eq; try set_solver.
  destruct (IH l') as [-> ->]; [set_solver..|done|done].
Qed.

Lemma symbol_name_inj t t' v v' :
  is_identifier t → is_identifier t' → symbol_name t v = symbol_name t' v' → (t, v) = (t', v').
Proof.
  intros Ht Ht' E. apply (f_equal bytes_of) in E. unfold symbol_name in E.
  rewrite !bytes_of_app in E. change (bytes_of ".") with ["."%char] in E. cbn [app] in E.
  apply split_at_first in E as [E1 E2]; [|by apply identifier_no_dot..].
  apply (inj bytes_of) in E1, E2. by subst.
Qed.

Lemma names_NoDup symbols :
  NoDup symbols → Forall (λ s, is_identifier s.1) symbols → NoDup (names symbols).
Proof.
  intros Hd HF. unfold names. induction Hd as [|[t v] symbols Hnin Hd IH]; [constructor|].
  inversion HF; subst. cbn. constructor; [|by apply IH].
  intros ([t' v'] & E & Hin)%list_elem_of_fmap. apply symbol_name_inj in E.
  - cbn in E. injection E as <- <-. done.
  - done.
  - by eapply (Forall_forall (λ s : symbol, is_identifier s.1)) in Hin; [|done].
Qed.

(** ** The conditions of a model *)

(** The texts in the order they are folded. *)
Definition condition_texts (model : ConditionModel) : list string :=
  clauses model ++ (snd <$> constraints model) ++ cardinality model.

Definition lower_hex (b : ascii) : bool := byte_in 48 57 b || byte_in 97 102 b.

Lemma validate_hash_Ok hash u :
  validate_hash hash = Ok u ↔ length (bytes_of hash) = 64%nat ∧ Forall lower_hex (bytes_of hash).
Proof.
  unfold validate_hash. destruct u. rewrite <-forallb_True. change (λ b : ascii, _) with lower_hex.
  destruct (decide (length (bytes_of hash) = 64%nat)) as [E|E].
  - rewrite (bool_decide_false (length _ ≠ _)) by naive_solver. cbn.
    destruct (forallb _ _); naive_solver.
  - rewrite (bool_decide_true (length _ ≠ _)) by done. cbn. naive_solver.
Qed.

Lemma parse_clause_Ok text e : parse_clause text = Ok e ↔ parse_condition_expr text = Ok e.
Proof. unfold parse_clause. destruct (parse_condition_expr text); cbn; naive_solver. Qed.

Lemma expand_clause_Ok d e e' :
  map_err ExpandFailed (expand_facet_comparisons e d) = Ok e' ↔ expand_facet_comparisons e d = Ok e'.
Proof. destruct (expand_facet_comparisons e d); cbn; naive_solver. Qed.

Lemma parse_clauses_Ok texts es :
  collect_results parse_clause texts = Ok es ↔ Forall2 (λ t e, parse_condition_expr t = Ok e) texts es.
Proof.
  rewrite collect_results_Ok. split; intros H; (eapply Forall2_impl; [exact H|]);
    intros ? ?; apply parse_clause_Ok.
Qed.

Lemma parse_constraints_Ok (cs : list (string * string)) es :
  collect_results (λ c, parse_clause c.2) cs = Ok es ↔
  Forall2 (λ t e, parse_condition_expr t = Ok e) (snd <$> cs) es.
Proof.
  rewrite collect_results_Ok, Forall2_fmap_l. split; intros H; (eapply Forall2_impl; [exact H|]);
    intros ? ?; apply parse_clause_Ok.
Qed.

Lemma parse_condition_model_Ok model exprs :
  parse_condition_model model = Ok exprs ↔
  (length (bytes_of (bound_model_hash model)) = 64%nat ∧
   Forall lower_hex (bytes_of (bound_model_hash model))) ∧
  ∃ raw, Forall2 (λ t e, parse_condition_expr t = Ok e) (condition_texts model) raw ∧
    Forall2 (λ e e', expand_facet_comparisons e (facet_domains model) = Ok e') raw exprs.
Proof.
  unfold parse_condition_model, condition_texts, parse_clauses. split.
  - intros H. inv_ok.
    repeat match goal with
    | H : validate_hash _ = Ok _ |- _ => apply validate_hash_Ok in H
    | H : collect_results parse_clause _ = Ok _ |- _ => apply parse_clauses_Ok in H
    | H : collect_results (λ c, parse_clause c.2) _ = Ok _ |- _ => apply parse_constraints_Ok in H
    end.
    split; [done|]. eexists. split; [by repeat apply Forall2_app|].
    apply collect_results_Ok in H. eapply Forall2_impl; [exact H|].
    intros ? ?. apply expand_clause_Ok.
  - intros (Hh & raw & Hp & He).
    apply Forall2_app_inv_l in Hp as (r1 & r23 & H1 & (r2 & r3 & H2 & H3 & ->)%Forall2_app_inv_l & ->).
    apply (validate_hash_Ok _ tt) in Hh. rewrite Hh. cbn.
    apply parse_clauses_Ok in H1, H3. apply parse_constraints_Ok in H2. rewrite H1. cbn.
    rewrite H2. cbn. rewrite H3. cbn. apply collect_results_Ok.
    eapply Forall2_impl; [exact He|]. intros ? ?. apply expand_clause_Ok.
Qed.

(** What the emitter relies on: no comparison is left and every tag is an
    identifier. *)
Lemma model_exprs_ok model exprs :
  parse_condition_model model = Ok exprs →
  Forall no_comparison exprs ∧ Forall (tags_in is_identifier) exprs.
Proof.
  intros (_ & raw & Hp & He)%parse_condition_model_Ok.
  revert Hp. generalize (condition_texts model).
  induction He as [|e e' raw exprs H He IH]; intros texts Hp; [split; constructor|].
  inversion Hp as [|t ? texts' ? Ht Hp']; subst. destruct (IH _ Hp') as [IH1 IH2].
  split; constructor; try done.
  - by eapply expand_no_comparison.
  - eapply expand_tags; [done|]. by eapply wf_expr_tags, parse_wf.
Qed.

(** ** The emitted bytes *)

(** The symbols are an order of the model's atoms with a [u32] count. *)
Definition orders (exprs : list ConditionExpr) (symbols : list symbol) : Prop :=
  NoDup symbols ∧ (∀ s, s ∈ symbols ↔ s ∈ symbol_universe exprs) ∧
  N.of_nat (length symbols) < U32_MAX.

(** The BDD variables under an assignment of the facets. *)
Definition assignment (symbols : list symbol) (sigma : gmap string string) (i : N) : bool :=
  match symbols !! N.to_nat i with
  | Some (t, v) => atoms_of sigma t v
  | None => false
  end.

Lemma u32_cast_small i : i < U32_MAX → u32_cast i = i.
Proof. intros H. apply N.mod_small. unfold U32_MAX in H. lia. Qed.

Lemma orders_lookup exprs symbols e s :
  orders exprs symbols → Forall (tags_in is_identifier) exprs →
  e ∈ exprs → s ∈ for_each_predicate_symbol e →
  ∃ i, symbols !! i = Some s ∧ N.of_nat i < N.of_nat (length symbols) ∧
    symbol_index symbols !! symbol_name s.1 s.2 = Some (N.of_nat i).
Proof.
  intros (Hd & Hx & Hn) Ht He Hs.
  assert (Hin : s ∈ symbols) by (apply Hx, elem_of_flat_map; eauto).
  apply list_elem_of_lookup in Hin as [i Hi]. exists i.
  assert (Hl : (i < length symbols)%nat) by (by eapply lookup_lt_Some).
  split_and!; [done|lia|]. destruct s as [t v].
  rewrite (symbol_index_spec symbols) with (i := i); [|apply names_NoDup; [done|]|done].
  - f_equal. apply u32_cast_small. lia.
  - apply Forall_forall. intros s Hs'%Hx. apply elem_of_flat_map in Hs' as (e' & He' & Hs').
    apply symbol_tags in Hs'. eapply Forall_forall in Ht; [|exact He'].
    by eapply Forall_forall in Ht.
Qed.

Lemma orders_indexed exprs symbols :
  orders exprs symbols → Forall (tags_in is_identifier) exprs →
  Forall (indexed (symbol_index symbols) (N.of_nat (length symbols))) exprs.
Proof.
  intros Ho Ht. apply Forall_forall. intros e He. apply Forall_forall. intros s Hs.
  destruct (orders_lookup exprs symbols e s) as (i & _ & Hl & E); eauto.
Qed.

Lemma eval_atoms_cong e atom atom' :
  Forall (λ s, atom s.1 s.2 = atom' s.1 s.2) (for_each_predicate_symbol e) →
  eval_atoms atom e = eval_atoms atom' e.
Proof.
  induction e as [b|p|e IH|l r IHl IHr|l r IHl IHr|es IH|es IH|es IH|l op r]
    using ConditionExpr_ind'; cbn [eval_atoms].
  - done.
  - intros H. inversion_clear H as [|? ? H' _]. cbn in H'. by rewrite H'.
  - intros H. by rewrite IH.
  - rewrite symbols_app, Forall_app. intros [Hl Hr]. by rewrite (IHl Hl), (IHr Hr).
  - change (for_each_predicate_symbol (Or l r)) with (for_each_predicate_symbol (And l r)).
    rewrite symbols_app, Forall_app. intros [Hl Hr]. by rewrite (IHl Hl), (IHr Hr).
  - rewrite symbols_list. unfold symbol_universe. rewrite Forall_flat_map. intros H.
    apply existsb_cong. rewrite !Forall_forall in *. eauto.
  - change (for_each_predicate_symbol (AllOf es)) with (for_each_predicate_symbol (AnyOf es)).
    rewrite symbols_list. unfold symbol_universe. rewrite Forall_flat_map. intros H.
    apply forallb_cong. rewrite !Forall_forall in *. eauto.
  - change (for_each_predicate_symbol (ExactlyOneOf es)) with (for_each_predicate_symbol (AnyOf es)).
    rewrite symbols_list. unfold symbol_universe. rewrite Forall_flat_map. intros H.
    do 2 f_equal. apply filter_cong. rewrite !Forall_forall in *. eauto.
  - done.
Qed.

Lemma sem_assignment exprs symbols e sigma :
  orders exprs symbols → Forall (tags_in is_identifier) exprs → e ∈ exprs →
  sem (symbol_index symbols) e (assignment symbols sigma) = eval_atoms (atoms_of sigma) e.
Proof.
  intros Ho Ht He. apply eval_atoms_cong, Forall_forall. intros s Hs.
  destruct (orders_lookup exprs symbols e s) as (i & Hi & Hl & E); [done..|].
  unfold var_of, assignment. rewrite E. cbn. rewrite Nat2N.id, Hi. by destruct s.
Qed.

(** The whole build: only a full table stops it; otherwise the bytes are the
    layout of a root that denotes the conjunction. *)
Lemma build_spec exprs symbols st samples :
  wf st → nodes st = [] → Forall no_comparison exprs → Forall (tags_in is_identifier) exprs →
  orders exprs symbols →
  match build_bdd_bin_with_builder exprs symbols st samples with
  | Ok (bytes, st') => ∃ root,
      serialize st' root (N.of_nat (length symbols)) = Ok bytes ∧ wf st' ∧
      vars_below (N.of_nat (length symbols)) (nodes st') ∧
      is_fun (nodes st') root (λ rho, forallb (λ e, sem (symbol_index symbols) e rho) exprs)
  | Err e => e = BuilderFault NodeTableFull
  end.
Proof.
  intros Hw H0 Hn Ht Ho.
  pose proof (fold_clauses_spec (symbol_index symbols) (N.of_nat (length symbols)) samples exprs Hn
    (orders_indexed _ _ Ho Ht) 0 TRUE_REF _ st Hw (is_fun_terminal (nodes st) true)) as H.
  unfold build_bdd_bin_with_builder, gives in *.
  destruct (fold_clauses _ _ _ _ _ _) as [[root st']|e]; cbn; [|done].
  destruct H as (Hw' & _ & Hb & Hf). rewrite u32_cast_small by apply Ho.
  destruct (ordered_nodes_ok st' root Hw' (proj1 Hf)) as (out & id & E & _).
  rewrite (serialize_encode _ _ _ _ _ E). cbn. exists root.
  split_and!; [by apply serialize_encode|done| |exact Hf].
  apply Hb. rewrite H0. intros i r. unfold node_at. by destruct (_ <? _).
Qed.

Lemma order_orders exprs h symbols :
  compute_variable_order exprs h = Some symbols → N.of_nat (length symbols) < U32_MAX →
  orders exprs symbols.
Proof.
  intros E Hl. destruct (var_order_spec exprs h) as (order & E' & Hd & Hx). simplify_eq. by split.
Qed.

(** C40: Emission succeeds on every model that parses.  With any variable-order
    heuristic, memo cap, memory budget and sampler readings the build returns
    the bytes, or stops because the node table is full; a missing symbol, a
    leftover comparison, an index out of range or a child missing from the
    layout is not possible. *)
Theorem emission_total model exprs h cap budget samples :
  parse_condition_model model = Ok exprs →
  ∃ symbols, compute_variable_order exprs h = Some symbols ∧
    (N.of_nat (length symbols) < U32_MAX →
     build_bdd_bin_via_construction exprs symbols InCrate cap budget samples =
       Err (BuilderFault NodeTableFull) ∨
     ∃ bytes adapt, build_bdd_bin_via_construction exprs symbols InCrate cap budget samples =
       Ok (bytes, adapt)).
Proof.
  intros [Hn Ht]%model_exprs_ok. destruct (var_order_spec exprs h) as (symbols & E & _).
  exists symbols. split; [done|]. intros Hl%(order_orders _ _ _ E). cbn.
  unfold build_bdd_bin_with_memo_cap_rss.
  match goal with |- context [build_bdd_bin_with_builder _ _ ?b _] =>
    pose proof (build_spec exprs symbols b samples) as H; destruct (build_bdd_bin_with_builder _ _ b _)
      as [[bytes st]|e] end.
  - right. cbn. eauto.
  - left. cbn. f_equal. apply H; [|by destruct cap, budget|done..].
    destruct cap, budget; apply wf_init.
Qed.

(** A model with a comparison, a disjunction and a cardinality, to evaluate the
    pipeline on. *)
Definition sample_model : ConditionModel :=
  {| bound_model_hash := string_of (repeat "a"%char 64);
     clauses := ["env == 'prod' || region == 'eu'"];
     constraints := [("same", "primary == backup")];
     cardinality := ["exactly_one_of(tier == 'a', tier == 'b')"];
     facet_domains := {["primary" := ["x"; "y"]; "backup" := ["x"; "y"]]} |}.

Definition sample_exprs : list ConditionExpr :=
  match parse_condition_model sample_model with Ok es => es | Err _ => [] end.

Lemma sample_model_parses : parse_condition_model sample_model = Ok sample_exprs.
Proof. vm_compute. reflexivity. Qed.

Lemma emission_total_witness :
  ∃ symbols, compute_variable_order sample_exprs Force = Some symbols ∧
    (N.of_nat (length symbols) < U32_MAX →
     build_bdd_bin_via_construction sample_exprs symbols InCrate (Some 1) None (λ _, None) =
       Err (BuilderFault NodeTableFull) ∨
     ∃ bytes adapt, build_bdd_bin_via_construction sample_exprs symbols InCrate (Some 1) None
       (λ _, None) = Ok (bytes, adapt)).
Proof.
  exact (emission_total sample_model sample_exprs Force (Some 1) None (λ _, None) sample_model_parses).
Defined.

(** The conjunction of the parsed conditions, comparisons included. *)
Definition model_holds (raw : list ConditionExpr) (sigma : gmap string string) : bool :=
  forallb (λ e, eval_total e sigma) raw.

(** An assignment the compiled form speaks about: every tag of the conditions
    has a value and compared facets have declared ones. *)
Definition covers (model : ConditionModel) (raw : list ConditionExpr) (sigma : gmap string string)
    : Prop :=
  Forall (λ e, total_for e sigma ∧ within_domains (facet_domains model) e sigma) raw.

Lemma model_exprs_atoms model raw exprs sigma :
  Forall2 (λ e e', expand_facet_comparisons e (facet_domains model) = Ok e') raw exprs →
  covers model raw sigma → forallb (eval_atoms (atoms_of sigma)) exprs = model_holds raw sigma.
Proof.
  intros He Hc. unfold model_holds. induction He as [|e e' raw exprs H He IH]; [done|].
  inversion Hc as [|? ? [Htot Hw] Hc']; subst. cbn. f_equal; [|by apply IH].
  rewrite eval_atoms_total; [by eapply expand_eval|by eapply expand_no_comparison|].
  intros t. apply (Forall_forall (λ t, is_Some (sigma !! t)) (expr_tags e')).
  eapply (expand_tags (λ t, is_Some (sigma !! t))); [done|]. by apply Forall_forall.
Qed.

Lemma model_exprs_denote model raw exprs symbols sigma :
  Forall2 (λ e e', expand_facet_comparisons e (facet_domains model) = Ok e') raw exprs →
  Forall (tags_in is_identifier) exprs → orders exprs symbols → covers model raw sigma →
  forallb (λ e, sem (symbol_index symbols) e (assignment symbols sigma)) exprs = model_holds raw sigma.
Proof.
  intros He Ht Ho Hc. rewrite <-(model_exprs_atoms _ _ _ _ He Hc).
  apply forallb_cong, Forall_forall. intros e Hin. by eapply sem_assignment.
Qed.

(** The emitted table read back. *)
Lemma emitted_table model exprs h symbols cap budget samples bytes st :
  parse_condition_model model = Ok exprs →
  compute_variable_order exprs h = Some symbols → N.of_nat (length symbols) < U32_MAX →
  build_bdd_bin_with_builder exprs symbols (with_memo_cap_and_rss_budget cap budget) samples =
    Ok (bytes, st) →
  N.of_nat (length (nodes st)) + 2 < TERMINAL_TRUE →
  ∃ raw count p root,
    Forall2 (λ t e, parse_condition_expr t = Ok e) (condition_texts model) raw ∧
    node_count bytes = Some count ∧
    parse_bdd_bin bytes (N.of_nat (length symbols)) count = Ok p ∧ bp_roots p = [root] ∧
    ∀ sigma, covers model raw sigma →
      table_eval (bp_nodes p) root (assignment symbols sigma) = model_holds raw sigma.
Proof.
  intros Hm Hord Hlen Hb Hl. apply order_orders in Hord; [|done]. destruct (model_exprs_ok _ _ Hm) as [Hn Ht].
  apply parse_condition_model_Ok in Hm as (_ & raw & Hp & He).
  pose proof (build_spec exprs symbols _ samples (wf_init cap budget) eq_refl Hn Ht Hord) as Hs.
  rewrite Hb in Hs. destruct Hs as (root & Hser & Hw & Hv & Hval & Hf).
  destruct (roundtrip_spec st root (N.of_nat (length symbols)) Hw Hval Hv) as
    (bytes' & count & p & id & Es & Ec & Epp & Er & Het); [|done|].
  { destruct Hord as (_ & _ & Hlt). unfold U32_MAX, TERMINAL_VAR_INDEX in *. lia. }
  rewrite Hser in Es. injection Es as <-. exists raw, count, p, id. split_and!; try done.
  intros sigma Hc. rewrite Het, Hf. by eapply model_exprs_denote.
Qed.

(** C1: The artifact means what the model says.  When the emitter returns bytes
    for a model, the solver's reader accepts them with the node count taken
    from them, and the table it reads, evaluated at the variables of an
    assignment of the facets, is the conjunction of the model's clauses,
    constraints and cardinality conditions at that assignment. *)
Theorem emission_denotes_model model exprs h symbols cap budget samples bytes st :
  parse_condition_model model = Ok exprs →
  compute_variable_order exprs h = Some symbols → N.of_nat (length symbols) < U32_MAX →
  build_bdd_bin_with_builder exprs symbols (with_memo_cap_and_rss_budget cap budget) samples =
    Ok (bytes, st) →
  N.of_nat (length (nodes st)) + 2 < TERMINAL_TRUE →
  ∃ raw count p root,
    Forall2 (λ t e, parse_condition_expr t = Ok e) (condition_texts model) raw ∧
    node_count bytes = Some count ∧
    parse_bdd_bin bytes (N.of_nat (length symbols)) count = Ok p ∧ bp_roots p = [root] ∧
    ∀ sigma, covers model raw sigma →
      table_eval (bp_nodes p) root (assignment symbols sigma) = model_holds raw sigma.
Proof. apply emitted_table. Qed.

(** The values of a witness assignment. *)
Definition sample_sigma : gmap string string :=
  {["env" := "prod"; "region" := "us"; "primary" := "x"; "backup" := "x"; "tier" := "b"]}.

Definition sample_symbols : list symbol := default [] (compute_variable_order sample_exprs Force).

Definition sample_raw : list ConditionExpr :=
  match collect_results parse_clause (condition_texts sample_model) with Ok es => es | Err _ => [] end.

Lemma sample_covers raw :
  Forall2 (λ t e, parse_condition_expr t = Ok e) (condition_texts sample_model) raw →
  covers sample_model raw sample_sigma ∧ model_holds raw sample_sigma = true.
Proof.
  intros H%parse_clauses_Ok.
  assert (E : collect_results parse_clause (condition_texts sample_model) = Ok sample_raw)
    by (vm_compute; reflexivity).
  rewrite E in H. apply (f_equal (λ r, match r with Ok x => x | Err _ => [] end)) in H.
  cbn beta iota in H. rewrite <-H. clear E H. split; [|vm_compute; reflexivity].
  assert (Ht : Forall (λ e, Forall (λ t, is_Some (sample_sigma !! t)) (expr_tags e)) sample_raw)
    by compute_done.
  assert (Hw : Forall (λ e, within_domains (facet_domains sample_model) e sample_sigma) sample_raw).
  { let r := eval vm_compute in sample_raw in change sample_raw with r.
    unfold within_domains. rewrite !Forall_cons, !Forall_nil. cbn [for_each_facet_comparison flat_map app].
    rewrite !Forall_cons, !Forall_nil. split_and!; [exact I| |exact I|exact I|exact I].
    exists ["x"; "y"], ["x"; "y"], "x", "x". split_and!; compute_done. }
  unfold covers, total_for. rewrite Forall_and. split; [|exact Hw].
  eapply Forall_impl; [exact Ht|]. intros e He. by apply Forall_forall.
Qed.

Lemma emission_denotes_model_witness :
  ∃ bytes st raw count p root,
    build_bdd_bin_with_builder sample_exprs sample_symbols (with_memo_cap_and_rss_budget 1 None)
      (λ _, None) = Ok (bytes, st) ∧
    node_count bytes = Some count ∧
    parse_bdd_bin bytes (N.of_nat (length sample_symbols)) count = Ok p ∧ bp_roots p = [root] ∧
    covers sample_model raw sample_sigma ∧
    table_eval (bp_nodes p) root (assignment sample_symbols sample_sigma) = true.
Proof.
  assert (Hb : ∃ bytes st, build_bdd_bin_with_builder sample_exprs sample_symbols
    (with_memo_cap_and_rss_budget 1 None) (λ _, None) = Ok (bytes, st) ∧
    N.of_nat (length (nodes st)) = 37).
  { eexists _, _. split; vm_compute; reflexivity. }
  destruct Hb as (bytes & st & Hb & Hn).
  destruct (emission_denotes_model sample_model sample_exprs Force sample_symbols 1 None
    (λ _, None) bytes st) as (raw & count & p & root & Hraw & Hc & Hp & Hr & He).
  - exact sample_model_parses.
  - vm_compute. reflexivity.
  - vm_compute. reflexivity.
  - exact Hb.
  - rewrite Hn. vm_compute. reflexivity.
  - exists bytes, st, raw, count, p, root.
    destruct (sample_covers raw Hraw) as [Hcov Hh].
    exact (conj Hb (conj Hc (conj Hp (conj Hr (conj Hcov (eq_trans (He _ Hcov) Hh)))))).
Defined.

(** The bytes do not depend on the resources.  Two builds of the same
    conditions with any memo caps, memory budgets and sampler readings that
    both return give the same bytes. *)
Theorem emission_resource_independent model exprs h symbols cap1 budget1 samples1 cap2 budget2
    samples2 bytes1 adapt1 bytes2 adapt2 :
  parse_condition_model model = Ok exprs →
  compute_variable_order exprs h = Some symbols → N.of_nat (length symbols) < U32_MAX →
  build_bdd_bin_via_construction exprs symbols InCrate cap1 budget1 samples1 = Ok (bytes1, adapt1) →
  build_bdd_bin_via_construction exprs symbols InCrate cap2 budget2 samples2 = Ok (bytes2, adapt2) →
  bytes1 = bytes2.
Proof.
  intros Hm Hord Hlen H1 H2. apply order_orders in Hord; [|done].
  destruct (model_exprs_ok _ _ Hm) as [Hn Ht].
  assert (Hrun : ∀ cap budget samples bytes adapt,
    build_bdd_bin_via_construction exprs symbols InCrate cap budget samples = Ok (bytes, adapt) →
    ∃ st root, serialize st root (N.of_nat (length symbols)) = Ok bytes ∧ wf st ∧
      is_fun (nodes st) root (λ rho, forallb (λ e, sem (symbol_index symbols) e rho) exprs)).
  { intros cap budget samples bytes adapt H. cbn in H. unfold build_bdd_bin_with_memo_cap_rss in H.
    inv_ok. match goal with H : build_bdd_bin_with_builder _ _ ?b _ = Ok _ |- _ =>
      assert (Hs := build_spec exprs symbols b samples); rewrite H in Hs end.
    destruct Hs as (root & ? & ? & _ & ?); [by destruct cap, budget; apply wf_init
      |by destruct cap, budget|done..|]. eauto 6. }
  destruct (Hrun _ _ _ _ _ H1) as (st1 & r1 & E1 & Hw1 & Hv1 & He1).
  destruct (Hrun _ _ _ _ _ H2) as (st2 & r2 & E2 & Hw2 & Hv2 & He2).
  assert (E : ordered_nodes st1 r1 = ordered_nodes st2 r2).
  { apply layout_canonical; try done. intros rho. by rewrite He1, He2. }
  unfold serialize in E1, E2. rewrite E, E2 in E1. by injection E1.
Qed.

Lemma emission_resource_independent_witness :
  ∃ bytes adapt1 adapt2,
    build_bdd_bin_via_construction sample_exprs sample_symbols InCrate (Some 1) None (λ _, None) =
      Ok (bytes, adapt1) ∧
    build_bdd_bin_via_construction sample_exprs sample_symbols InCrate None (Some 7)
      (λ _, Some 100) = Ok (bytes, adapt2) ∧ a_shrink_count adapt1 < a_shrink_count adapt2.
Proof.
  assert (H1 : ∃ bytes adapt, build_bdd_bin_via_construction sample_exprs sample_symbols InCrate
    (Some 1) None (λ _, None) = Ok (bytes, adapt) ∧ a_shrink_count adapt = 0).
  { eexists _, _. split; vm_compute; reflexivity. }
  assert (H2 : ∃ bytes adapt, build_bdd_bin_via_construction sample_exprs sample_symbols InCrate
    None (Some 7) (λ _, Some 100) = Ok (bytes, adapt) ∧ 0 < a_shrink_count adapt).
  { eexists _, _. split; vm_compute; reflexivity. }
  destruct H1 as (b1 & ad1 & H1 & E1), H2 as (b2 & ad2 & H2 & E2).
  assert (E : b1 = b2).
  { refine (emission_resource_independent sample_model sample_exprs Force sample_symbols
      _ _ _ _ _ _ _ _ _ _ sample_model_parses _ _ H1 H2); vm_compute; reflexivity. }
  rewrite E in H1. exists b2, ad1, ad2. rewrite E1. exact (conj H1 (conj H2 E2)).
Defined.

(** A model parses exactly when its hash is 64 lowercase hex digits, each
    clause, constraint and cardinality condition parses, and each comparison in
    them expands; the result is the expansions in that order. *)
Theorem model_parses_iff model exprs :
  parse_condition_model model = Ok exprs ↔
  (length (bytes_of (bound_model_hash model)) = 64%nat ∧
   Forall lower_hex (bytes_of (bound_model_hash model))) ∧
  ∃ raw, Forall2 (λ t e, parse_condition_expr t = Ok e) (condition_texts model) raw ∧
    Forall2 (λ e e', expand_facet_comparisons e (facet_domains model) = Ok e') raw exprs.
Proof. apply parse_condition_model_Ok. Qed.
