(* ===== verification/Artifact.v ===== *)
(** * The emitted artifact

    Models the second half of [compiler/src/ccm_emitter.rs]: the symbol table,
    the manifest with its hash, and [build_ccm_artifact], which puts the three
    files together.  SHA-256 and [serde_json] are parameters; what is used of
    them are the hypotheses of the section below.  The main theorem closes the
    loop with [solver/src/ccm_format.rs]: what the compiler writes, the solver
    loads. *)
From S2P Require Import Prelude Tokens Ast Implication FacetCompare SelectionEval VarOrder.
From S2P Require Import Bdd BddLayout BddBytes CcmFormat Emitter.
Local Open Scope N_scope.

Definition CCM_SCHEMA_VERSION : N := 2.
Definition CCM_SYMBOLS_SCHEMA_VERSION : N := 2.

Record CcmEmission : Type := mkEmission {
  manifest_json : list ascii;
  symbols_json : list ascii;
  bdd_bin : list ascii;
}.

Record ManifestOut : Type := mkManifestOut {
  mo_algorithm : string;
  mo_algorithm_params : gmap string string;
  mo_bound_model_hash : string;
  mo_ccm_hash : string;
  mo_construction_wall_time_us : N;
  mo_emitted_at : string;
  mo_node_count : N;
  mo_schema_version : N;
  mo_var_count : N;
}.

Definition algorithm_params (h : VarOrderHeuristic) (c : Construction) : gmap string string :=
  let '(apply_cache, manager) :=
    match c with
    | InCrate => ("hashmap-default", "in-crate-v1")
    | Cudd => ("cudd-default", "cudd-3.0")
    end in
  list_to_map [("apply_cache", apply_cache); ("manager", manager); ("reorder", "static");
               ("threads", "1"); ("var_order_heuristic", manifest_tag h)].

(** [variable_order.iter().enumerate()...collect()]. *)
Definition order_index (order : list string) : gmap string N :=
  foldl (λ m e, <[e.2 := u32_cast (N.of_nat e.1)]> m) ∅ (imap pair order).

Definition symbols_out (symbols : list symbol) : Symbols :=
  let order := (λ s, symbol_name s.1 s.2) <$> symbols in
  {| sy_schema_version := CCM_SYMBOLS_SCHEMA_VERSION;
     variable_order := order;
     facet_to_var := order_index order;
     var_to_label := (λ s, s.1 +:+ "=" +:+ s.2) <$> symbols |}.

Section Artifact.
(** [sha2] and [serde_json]. *)
Context (sha256 : list ascii → list ascii).
Context (to_vec : PreImageManifest → result ParseError (list ascii)).
Context (manifest_to_vec : ManifestOut → list ascii).
Context (symbols_to_vec : Symbols → list ascii).

Definition json_line (bytes : list ascii) : list ascii := bytes ++ ["010"%char].

Definition serialize_symbols (symbols : list symbol) : list ascii :=
  json_line (symbols_to_vec (symbols_out symbols)).

Definition serialize_per_partition_manifest (hash : string) (var_count node_count : N)
    (symbols_json bdd_bin : list ascii) (h : VarOrderHeuristic) (c : Construction)
    : result emit_error (list ascii * list ascii) :=
  let algorithm := algorithm_tag c in
  let params := algorithm_params h c in
  let pre := {| pi_algorithm := algorithm; pi_algorithm_params := params;
                pi_bound_model_hash := hash; pi_node_count := node_count;
                pi_schema_version := CCM_SCHEMA_VERSION; pi_var_count := var_count |} in
  manifest_canon ← map_err (λ _, JsonFailed) (to_vec pre);
  let raw := sha256 (CCM_HASH_DOMAIN_TAG ++ manifest_canon ++ ["010"%char]
                     ++ sha256 bdd_bin ++ sha256 symbols_json) in
  Ok (json_line (manifest_to_vec
        {| mo_algorithm := algorithm; mo_algorithm_params := params; mo_bound_model_hash := hash;
           mo_ccm_hash := string_of (encode_hex32 raw); mo_construction_wall_time_us := 0;
           mo_emitted_at := "1970-01-01T00:00:00Z"; mo_node_count := node_count;
           mo_schema_version := CCM_SCHEMA_VERSION; mo_var_count := var_count |}), raw).

Definition serialize_manifest (hash : string) (var_count node_count : N)
    (symbols_json bdd_bin : list ascii) (h : VarOrderHeuristic) (c : Construction)
    : result emit_error (list ascii) :=
  '(bytes, _) ← serialize_per_partition_manifest hash var_count node_count symbols_json bdd_bin h c;
  Ok bytes.

Definition build_bdd_bin_with_memo_cap (exprs : list ConditionExpr) (symbols : list symbol)
    (cap : option N) : result emit_error (list ascii) :=
  let builder := match cap with Some cap => with_memo_cap cap | None => default_builder end in
  '(bytes, _) ← build_bdd_bin_with_builder exprs symbols builder (λ _, None);
  Ok bytes.

Definition build_bdd_bin (exprs : list ConditionExpr) (symbols : list symbol)
    : result emit_error (list ascii) := build_bdd_bin_with_memo_cap exprs symbols None.

Definition build_ccm_artifact_inner (model : ConditionModel) (h : VarOrderHeuristic)
    (c : Construction) : result emit_error CcmEmission :=
  parsed ← parse_condition_model model;
  symbols ← ok_or (compute_variable_order parsed h) OrderPanic;
  bdd_bin ← match c with
            | InCrate => build_bdd_bin parsed symbols
            | Cudd => Err CuddPathUnavailable
            end;
  let symbols_json := serialize_symbols symbols in
  count ← ok_or (node_count bdd_bin) TruncatedHeader;
  manifest_json ← serialize_manifest (bound_model_hash model)
                    (u32_cast (N.of_nat (length symbols))) count symbols_json bdd_bin h c;
  Ok (mkEmission manifest_json symbols_json bdd_bin).

Definition build_ccm_artifact (model : ConditionModel) : result emit_error CcmEmission :=
  build_ccm_artifact_inner model FacetNameAscending InCrate.

Definition build_ccm_artifact_with_heuristic (model : ConditionModel) (heuristic_tag : string)
    : result emit_error CcmEmission :=
  h ← parse_heuristic_tag heuristic_tag;
  build_ccm_artifact_inner model h InCrate.

Definition build_ccm_artifact_with_construction (model : ConditionModel)
    (heuristic_tag construction_tag : string) : result emit_error CcmEmission :=
  h ← parse_heuristic_tag heuristic_tag;
  c ← parse_construction_tag construction_tag;
  build_ccm_artifact_inner model h c.

(** ** What the solver's side needs of the two libraries *)

Context (parse_manifest : list ascii → result ParseError Manifest).
Context (parse_symbols : list ascii → result ParseError Symbols).

(** The manifest the solver's [serde] derives read from the compiler's record:
    the fields absent from it take their defaults. *)
Definition manifest_read (o : ManifestOut) : Manifest :=
  {| mf_schema_version := mo_schema_version o; mf_ccm_hash := mo_ccm_hash o;
     mf_bound_model_hash := mo_bound_model_hash o; mf_algorithm := mo_algorithm o;
     mf_algorithm_params := mo_algorithm_params o; mf_var_count := mo_var_count o;
     mf_node_count := mo_node_count o;
     mf_construction_wall_time_us := mo_construction_wall_time_us o;
     mf_emitted_at := mo_emitted_at o; mf_partition_manifest := None; mf_constraints := [] |}.

(** A digest has 32 bytes; JSON text written by [serde_json] reads back. *)
Record libraries : Prop := {
  sha256_length : ∀ bs, length (sha256 bs) = 32%nat;
  manifest_reads : ∀ o, parse_manifest (json_line (manifest_to_vec o)) = Ok (manifest_read o);
  symbols_reads : ∀ s, parse_symbols (json_line (symbols_to_vec s)) = Ok s;
}.
End Artifact.

(** ** The symbol table is consistent *)

Lemma order_index_names symbols : order_index (names symbols) = symbol_index symbols.
Proof.
  unfold order_index, symbol_index, names. generalize (∅ : gmap string N).
  cut (∀ k m, foldl (λ m e, <[e.2 := u32_cast (N.of_nat e.1)]> m) m
      (imap (λ i, pair (k + i)%nat) ((λ s : symbol, symbol_name s.1 s.2) <$> symbols)) =
    foldl index_insert m (imap (λ i, pair (k + i)%nat) symbols)); [intros H m; apply (H 0%nat)|].
  induction symbols as [|s symbols IH]; intros k m; [done|]. cbn [fmap list_fmap imap foldl].
  assert (E : ∀ A (l : list A), imap ((λ i, pair (k + i)%nat) ∘ S) l = imap (λ i, pair (S k + i)%nat) l).
  { intros A l. apply imap_ext. intros i x _. cbn. f_equal. lia. }
  rewrite !E. apply IH.
Qed.

Lemma dom_symbol_index symbols : dom (symbol_index symbols) = list_to_set (names symbols).
Proof.
  unfold symbol_index.
  cut (∀ m (l : list (nat * symbol)), dom (foldl index_insert m l) =
    dom m ∪ list_to_set ((λ e, symbol_name e.2.1 e.2.2) <$> l)).
  { intros H. rewrite H, dom_empty_L, union_empty_l_L. f_equal. unfold names.
    assert (E : ∀ g : nat → nat, (λ e, symbol_name e.2.1 e.2.2) <$> imap (λ i, pair (g i)) symbols =
      (λ s, symbol_name s.1 s.2) <$> symbols); [|apply (E id)].
    clear H. induction symbols as [|s symbols IH]; intros g; [done|]. cbn. f_equal. apply IH. }
  intros m l. revert m. induction l as [|e l IH]; intros m; cbn; [set_solver|].
  rewrite IH. unfold index_insert. rewrite dom_insert_L. set_solver.
Qed.

Lemma check_order_spec m order k :
  (∀ i f, order !! i = Some f → m !! f = Some (N.of_nat (k + i))) → check_order m k order = Ok tt.
Proof.
  revert k. induction order as [|f order IH]; intros k H; [done|]. cbn.
  rewrite (H 0%nat f) by done. rewrite Nat.add_0_r, N.eqb_refl. apply IH.
  intros i g Hi. rewrite (H (S i) g Hi). do 2 f_equal. lia.
Qed.

Lemma symbols_out_consistent symbols :
  NoDup (names symbols) → N.of_nat (length symbols) < U32_MAX →
  verify_symbols_consistency (symbols_out symbols) (N.of_nat (length symbols)) = Ok tt.
Proof.
  intros Hd Hl. unfold verify_symbols_consistency, symbols_out. cbn [variable_order var_to_label facet_to_var].
  assert (Hn : length (names symbols) = length symbols) by apply length_fmap.
  fold (names symbols). rewrite order_index_names, Hn, length_fmap, N.eqb_refl. cbn.
  rewrite <-size_dom, dom_symbol_index, size_list_to_set, Hn, N.eqb_refl by done. cbn.
  apply check_order_spec. intros i f Hi. unfold names in Hi.
  apply list_lookup_fmap_Some in Hi as ([t v] & -> & Hi). cbn.
  assert (Hlt : (i < length symbols)%nat) by (by eapply lookup_lt_Some).
  rewrite (symbol_index_spec _ Hd _ _ _ Hi). f_equal. rewrite u32_cast_small; [done|lia].
Qed.

Lemma orders_names exprs symbols :
  orders exprs symbols → Forall (tags_in is_identifier) exprs → NoDup (names symbols).
Proof.
  intros (Hd & Hx & _) Ht. apply names_NoDup; [done|]. apply Forall_forall. intros s Hs%Hx.
  apply elem_of_flat_map in Hs as (e & He & Hs%symbol_tags).
  eapply Forall_forall in Ht; [|exact He]. by eapply Forall_forall in Ht.
Qed.

(** ** What the compiler writes, the solver loads *)

Section Loads.
Context (sha256 : list ascii → list ascii).
Context (to_vec : PreImageManifest → result ParseError (list ascii)).
Context (manifest_to_vec : ManifestOut → list ascii).
Context (symbols_to_vec : Symbols → list ascii).
Context (parse_manifest : list ascii → result ParseError Manifest).
Context (parse_symbols : list ascii → result ParseError Symbols).
Context (Hlib : libraries sha256 manifest_to_vec symbols_to_vec parse_manifest parse_symbols).

Lemma decode_digest bs :
  decode_hex32 (bytes_of (string_of (encode_hex32 (sha256 bs)))) = Some (sha256 bs).
Proof. rewrite bytes_of_string_of. apply decode_encode32, Hlib. Qed.

#[local] Ltac load_step_in H := cbn -[algorithm_params] in H.

#[local] Ltac load_step :=
  cbn -[compute_ccm_hash decode_hex32 encode_hex32 json_line symbols_out serialize_symbols parse_bdd_bin
        verify_symbols_consistency CCM_HASH_DOMAIN_TAG bytes_of algorithm_params].

(** The loader on a consistent triple of files. *)
Lemma load_manifest hash vc count h symbols bdd payload mbytes raw :
  serialize_per_partition_manifest sha256 to_vec manifest_to_vec hash vc count
    (serialize_symbols symbols_to_vec symbols) bdd h InCrate = Ok (mbytes, raw) →
  is_Some (decode_hex32 (bytes_of hash)) →
  verify_symbols_consistency (symbols_out symbols) vc = Ok tt →
  parse_bdd_bin bdd vc count = Ok payload →
  ∃ p, load_ccm sha256 to_vec parse_manifest parse_symbols mbytes
         (serialize_symbols symbols_to_vec symbols) bdd = Ok p ∧
    pc_symbols p = symbols_out symbols ∧ pc_bdd p = payload ∧ pc_ccm_hash_bytes p = raw ∧
    mf_bound_model_hash (pc_manifest p) = hash ∧
    decode_hex32 (bytes_of hash) = Some (pc_bound_model_hash_bytes p).
Proof.
  intros H [bound Hb] Hs Hp. unfold serialize_per_partition_manifest in H.
  apply bind_Ok in H as (canon & Hc & [= <- <-]).
  assert (Hc' : to_vec {| pi_algorithm := algorithm_tag InCrate;
    pi_algorithm_params := algorithm_params h InCrate; pi_bound_model_hash := hash;
    pi_node_count := count; pi_schema_version := CCM_SCHEMA_VERSION; pi_var_count := vc |} = Ok canon).
  { destruct (to_vec _); cbn in Hc; congruence. }
  unfold load_ccm. rewrite (manifest_reads _ _ _ _ _ Hlib). load_step.
  assert (Hr : parse_symbols (serialize_symbols symbols_to_vec symbols) = Ok (symbols_out symbols))
    by apply (symbols_reads _ _ _ _ _ Hlib).
  rewrite Hr. load_step.
  rewrite Hs. load_step.
  rewrite Hp. unfold compute_ccm_hash, pre_image. load_step.
  load_step_in Hc'. rewrite Hc'. load_step.
  rewrite decode_digest. load_step.
  rewrite bool_decide_true by done. load_step.
  assert (Ha : bool_decide (algorithm_tag InCrate ∈ RECOGNIZED_ALGORITHMS) = true) by reflexivity.
  cbn in Ha. rewrite Ha, Hb. eexists. split; [reflexivity|]. done.
Qed.

Lemma lower_hex_decodes n s : length s = (2 * n)%nat → Forall lower_hex s → is_Some (decode_pairs n s).
Proof.
  assert (Hd : ∀ c, lower_hex c → is_Some (hex_digit_lower c)).
  { intros c Hc. unfold lower_hex, hex_digit_lower in *. destruct (byte_in 48 57 c), (byte_in 97 102 c); done. }
  revert s. induction n as [|n IH]; intros s Hl HF; [done|].
  destruct s as [|a [|b s]]; cbn in Hl; [lia..|].
  inversion HF as [|? ? [x Hx]%Hd HF']; inversion HF' as [|? ? [y Hy]%Hd HF'']; subst.
  destruct (IH s) as [r Hr]; [lia|done|]. cbn. rewrite Hx, Hy. cbn. rewrite Hr. done.
Qed.

(** C26: What the compiler writes, the solver loads.  When the JSON encoder
    serializes the pre-image, [build_ccm_artifact] of a model that parses
    yields three files that the solver's loader accepts; the loaded partition
    names the model's symbols, is bound to the model's hash, and its table
    denotes the model's conditions. *)
Theorem artifact_loads model exprs h symbols bytes st :
  (∀ pre, ∃ canon, to_vec pre = Ok canon) →
  parse_condition_model model = Ok exprs →
  compute_variable_order exprs h = Some symbols → N.of_nat (length symbols) < U32_MAX →
  build_bdd_bin_with_builder exprs symbols default_builder (λ _, None) = Ok (bytes, st) →
  N.of_nat (length (nodes st)) + 2 < TERMINAL_TRUE →
  ∃ e p raw root,
    build_ccm_artifact_inner sha256 to_vec manifest_to_vec symbols_to_vec model h InCrate = Ok e ∧
    load_ccm sha256 to_vec parse_manifest parse_symbols (manifest_json e) (symbols_json e)
      (bdd_bin e) = Ok p ∧
    variable_order (pc_symbols p) = names symbols ∧
    mf_bound_model_hash (pc_manifest p) = bound_model_hash model ∧
    Forall2 (λ t e, parse_condition_expr t = Ok e) (condition_texts model) raw ∧
    bp_roots (pc_bdd p) = [root] ∧
    ∀ sigma, covers model raw sigma →
      table_eval (bp_nodes (pc_bdd p)) root (assignment symbols sigma) = model_holds raw sigma.
Proof.
  intros Hvec Hm Hord Hlen Hb Hl.
  destruct (emitted_table model exprs h symbols DEFAULT_MEMO_CAP None (λ _, None) bytes st) as
    (raw & count & p & root & Hraw & Hc & Hp & Hr & He); try done.
  destruct (model_exprs_ok _ _ Hm) as [_ Ht].
  pose proof (orders_names _ _ (order_orders _ _ _ Hord Hlen) Ht) as Hd.
  pose proof (proj1 (parse_condition_model_Ok _ _) Hm) as [[Hh1 Hh2] _].
  unfold build_ccm_artifact_inner, build_bdd_bin, build_bdd_bin_with_memo_cap, serialize_manifest.
  rewrite Hm. cbn [mbind result_bind]. rewrite Hord. cbn [mbind result_bind ok_or].
  rewrite Hb. cbn [mbind result_bind]. rewrite Hc. cbn [mbind result_bind ok_or].
  rewrite u32_cast_small by done.
  destruct (serialize_per_partition_manifest sha256 to_vec manifest_to_vec _ _ count _ bytes h InCrate)
    as [[mbytes hash]|] eqn:Em.
  2: { unfold serialize_per_partition_manifest in Em. exfalso.
       match type of Em with context [to_vec ?pre] => destruct (Hvec pre) as [canon Ec]; rewrite Ec in Em end.
       done. }
  cbn [mbind result_bind].
  destruct (load_manifest _ _ _ _ _ _ p _ _ Em) as (q & Hq & Hs & Hpb & _ & Hbound & _).
  - unfold decode_hex32. rewrite decide_True by done. by apply (lower_hex_decodes 32).
  - by apply symbols_out_consistent.
  - done.
  - eexists _, q, raw, root. split; [reflexivity|]. cbn [manifest_json symbols_json bdd_bin].
    rewrite Hs, Hpb. split_and!; try done.
Qed.
End Loads.

(** ** Concrete libraries

    A codec that writes a value as the bits of its number, to run the theorem
    with. *)

Fixpoint bits (p : positive) : list ascii :=
  match p with
  | xH => []
  | xO p => "0"%char :: bits p
  | xI p => "1"%char :: bits p
  end.

Fixpoint unbits (l : list ascii) : positive :=
  match l with
  | c :: l =>
      if Ascii.eqb c "0"%char then xO (unbits l)
      else if Ascii.eqb c "1"%char then xI (unbits l) else xH
  | [] => xH
  end.

Lemma unbits_bits p : unbits (json_line (bits p)) = p.
Proof.
  unfold json_line. induction p as [p IH|p IH|]; cbn; [by rewrite IH|by rewrite IH|done].
Qed.

#[export] Instance Symbols_eq_dec : EqDecision Symbols.
Proof. solve_decision. Defined.
#[export] Instance ManifestOut_eq_dec : EqDecision ManifestOut.
Proof. solve_decision. Defined.

#[export] Instance Symbols_countable : Countable Symbols.
Proof.
  refine (inj_countable' (λ s, (sy_schema_version s, variable_order s, facet_to_var s, var_to_label s))
    (λ '(v, o, f, l), mkSymbols v o f l) _). by intros [].
Defined.

#[export] Instance ManifestOut_countable : Countable ManifestOut.
Proof.
  refine (inj_countable' (λ o, (mo_algorithm o, mo_algorithm_params o, mo_bound_model_hash o,
      mo_ccm_hash o, mo_construction_wall_time_us o, mo_emitted_at o, mo_node_count o,
      mo_schema_version o, mo_var_count o))
    (λ '(a, b, c, d, e, f, g, h, i), mkManifestOut a b c d e f g h i) _). by intros [].
Defined.

Definition toy_write {A} `{Countable A} (a : A) : list ascii := bits (encode a).

Definition toy_read {A} `{Countable A} (l : list ascii) : result ParseError A :=
  ok_or (decode (unbits l)) (ManifestParse "not a value").

Lemma toy_libraries :
  libraries toy_sha toy_write toy_write (λ l, manifest_read <$> toy_read l) toy_read.
Proof.
  split.
  - intros bs. unfold toy_sha. rewrite length_take, length_app, repeat_length. lia.
  - intros o. unfold toy_read, toy_write. by rewrite unbits_bits, countable.decode_encode.
  - intros s. unfold toy_read, toy_write. by rewrite unbits_bits, countable.decode_encode.
Qed.

Lemma artifact_loads_witness :
  ∃ e p, build_ccm_artifact_inner toy_sha (λ _, Ok []) toy_write toy_write sample_model Force InCrate =
      Ok e ∧
    load_ccm toy_sha (λ _, Ok []) (λ l, manifest_read <$> toy_read l) toy_read (manifest_json e)
      (symbols_json e) (bdd_bin e) = Ok p ∧
    variable_order (pc_symbols p) = names sample_symbols.
Proof.
  assert (Hb : ∃ bytes st, build_bdd_bin_with_builder sample_exprs sample_symbols default_builder
    (λ _, None) = Ok (bytes, st) ∧ N.of_nat (length (nodes st)) = 37).
  { eexists _, _. split; vm_compute; reflexivity. }
  destruct Hb as (bytes & st & Hb & Hn).
  destruct (artifact_loads toy_sha (λ _, Ok []) toy_write toy_write
    (λ l, manifest_read <$> toy_read l) toy_read toy_libraries sample_model sample_exprs Force
    sample_symbols bytes st) as (e & p & raw & root & He & Hp & Hv & _).
  - intros pre. exists []. reflexivity.
  - exact sample_model_parses.
  - vm_compute. reflexivity.
  - vm_compute. reflexivity.
  - exact Hb.
  - rewrite Hn. vm_compute. reflexivity.
  - exists e, p. exact (conj He (conj Hp Hv)).
Defined.
