(* ===== verification/Backend.v ===== *)
(** * The backend interface of the solver

    Models [solver/src/backend.rs]: the [SolverBackend] trait as a class of
    operations on a backend state, its default methods and [NullBackend].  The
    trait's documented contract is a second class, [BackendContract]: the
    session of [Session.v] is proved against it and the CUDD backend of
    [CuddBackend.v] discharges it. *)
From S2P Require Import Prelude CcmFormat.
From S2P Require Import Bdd.
Local Open Scope N_scope.

Inductive BackendError : Type :=
  | OutOfCapacity
  | Unsat
  | Invariant (msg : string)
  | Serialization (msg : string).

Definition VariableOrder : Type := list string.

Record CapacityHints : Type := mkHints {
  max_nodes : N;
  threads : option N;
}.

Definition default_hints : CapacityHints := mkHints 0 None.

(** A handle is the index the backend gave out. *)
Definition FormulaHandle : Type := nat.

(** The trait.  [&mut self] methods return the new state with their result,
    which they may change also when they fail. *)
Class SolverBackend (B : Type) : Type := {
  new_session : VariableOrder → CapacityHints → result BackendError B;
  mk_const : B → bool → FormulaHandle * B;
  is_false : B → FormulaHandle → bool;
  is_true : B → FormulaHandle → bool;
  is_var_sat_under : B → FormulaHandle → N → result BackendError bool;
  apply_and : B → FormulaHandle → N → result BackendError FormulaHandle * B;
  deserialize_bdd : B → N → list BddNode → N → result BackendError FormulaHandle * B;
}.

(** ** The default methods *)

Definition default_is_var_sat_under {B} (_ : B) (_ : FormulaHandle) (_ : N)
    : result BackendError bool :=
  Err (Invariant "backend does not implement is_var_sat_under(); cannot cofactor").

Definition default_apply_and {B} (b : B) (_ : FormulaHandle) (_ : N)
    : result BackendError FormulaHandle * B :=
  (Err (Invariant "backend does not implement apply_and(); cannot conjoin"), b).

Definition default_deserialize_bdd {B} (const : B → bool → FormulaHandle * B) (b : B) (_ : N)
    (_ : list BddNode) (root : N) : result BackendError FormulaHandle * B :=
  if root =? TERMINAL_TRUE then let '(h, b) := const b true in (Ok h, b)
  else if root =? TERMINAL_FALSE then let '(h, b) := const b false in (Ok h, b)
  else (Err (Serialization
          "backend lacks deserialize_bdd override; cannot rebuild variable-valued BDD"), b).

(** ** [NullBackend] *)

Record NullBackend : Type := mkNull {
  null_order : VariableOrder;
  null_hints : CapacityHints;
}.

Definition null_mk_const (b : NullBackend) (value : bool) : FormulaHandle * NullBackend :=
  ((if value then 1 else 0)%nat, b).

#[export] Instance NullBackend_backend : SolverBackend NullBackend := {|
  new_session order hints := Ok (mkNull order hints);
  mk_const := null_mk_const;
  is_false _ f := (f =? 0)%nat;
  is_true _ f := (f =? 1)%nat;
  is_var_sat_under := default_is_var_sat_under;
  apply_and := default_apply_and;
  deserialize_bdd := default_deserialize_bdd null_mk_const;
|}.

(** ** The contract *)

(** A Boolean function of the variables. *)
Notation bfun := ((N → bool) → bool).

(** Some assignment makes the function true, in its constructive form. *)
Definition satisfiable_fun (f : bfun) : Prop := ¬ ∀ rho, f rho = false.

(** [denotes b h f]: the handle stands for the function.  [var_limit b] is the
    number of variables the backend has materialized.  A state change [keeps]
    what the old handles stand for. *)
Class BackendContract (B : Type) `{SolverBackend B} : Type := {
  ready : B → Prop;
  denotes : B → FormulaHandle → bfun → Prop;
  var_limit : B → N;

  denotes_ready b h f : denotes b h f → ready b;

  denotes_ext b h f g : denotes b h f → (∀ rho, f rho = g rho) → denotes b h g;

  new_session_ok order hints :
    match new_session order hints with
    | Ok b => ready b
    | Err e => e = OutOfCapacity
    end;

  mk_const_ok b v :
    ready b →
    let '(h, b') := mk_const b v in
    denotes b' h (λ _, v) ∧ ∀ h f, denotes b h f → denotes b' h f;

  is_false_ok b h f : denotes b h f → (is_false b h = true ↔ ∀ rho, f rho = false);

  is_true_ok b h f : denotes b h f → (is_true b h = true ↔ ∀ rho, f rho = true);

  is_var_sat_under_ok b h f v :
    denotes b h f → v < var_limit b →
    match is_var_sat_under b h v with
    | Ok s => s = true ↔ satisfiable_fun (λ rho, f rho && rho v)
    | Err e => e = OutOfCapacity
    end;

  apply_and_ok b h f v :
    denotes b h f → v < var_limit b →
    let '(r, b') := apply_and b h v in
    var_limit b' = var_limit b ∧ (∀ h f, denotes b h f → denotes b' h f) ∧
    match r with
    | Ok h' => denotes b' h' (λ rho, f rho && rho v)
    | Err e => e = OutOfCapacity
    end;

  deserialize_bdd_ok b var_count nodes root :
    ready b → canonical_table var_count nodes → var_count ≤ 4294967296 →
    root = TERMINAL_TRUE ∨ root = TERMINAL_FALSE ∨ root < N.of_nat (length nodes) →
    let '(r, b') := deserialize_bdd b var_count nodes root in
    match r with
    | Ok h => denotes b' h (table_eval nodes root) ∧ var_limit b' = var_count
    | Err e => e = OutOfCapacity
    end;
}.
