(* ===== verification/CuddBackend.v ===== *)
(** * The CUDD backend

    Models [solver/src/backend_cudd.rs] and the forward direction of
    [solver/src/cudd_translate.rs].  The CUDD library is a parameter: the class
    [DdManager] has the functions the sources call, with [None] for [NULL], and
    [DdContract] what the CUDD manual says of them.  Reference counts
    ([Cudd_Ref], [Cudd_RecursiveDeref], [Drop]) are left out: a node that was
    returned stays usable.

    The backend meets the contract of [Backend.v]; a manager made of the
    compiler's own builder shows that the assumed laws can hold. *)
From S2P Require Import Prelude Bdd BddLayout BddBytes CcmFormat Emitter Backend.
Local Open Scope N_scope.

(** ** The library *)

Class DdManager (M Node : Type) : Type := {
  dd_node_eq :: EqDecision Node;
  Cudd_Init : option M;
  Cudd_ReadLogicZero : M → option Node;
  Cudd_ReadOne : M → option Node;
  Cudd_bddIthVar : M → Z → option Node * M;
  Cudd_bddIte : M → Node → Node → Node → option Node * M;
  Cudd_bddAnd : M → Node → Node → option Node * M;
}.

(** ** [cudd_translate.rs] *)

(** [i as c_int]. *)
Definition as_c_int (i : N) : Z :=
  let z := Z.of_N (i mod 4294967296) in
  if (z <? 2147483648)%Z then z else (z - 4294967296)%Z.

Section Translate.
Context {M Node : Type} `{DdManager M Node}.

(** The result of a call that may have changed the manager. *)
Notation call A := (result BackendError A * M)%type.

Record CanonicalToCuddOutput : Type := mkOutput {
  out_root : Node;
  out_var_functions : list Node;
}.

(** Step 1: [for i in 0..var_count]. *)
Fixpoint alloc_vars (m : M) (n : nat) (i : N) : call (list Node) :=
  match n with
  | O => (Ok [], m)
  | S n =>
      match Cudd_bddIthVar m (as_c_int i) with
      | (None, m) => (Err OutOfCapacity, m)
      | (Some v, m) =>
          let '(r, m) := alloc_vars m n (N.succ i) in
          ((λ vs, v :: vs) <$> r, m)
      end
  end.

Definition lookup_child (id : N) (rebuilt : list (option Node)) (false_node true_node : Node)
    : result BackendError Node :=
  if id =? TERMINAL_FALSE then Ok false_node
  else if id =? TERMINAL_TRUE then Ok true_node
  else
    match rebuilt !! N.to_nat id with
    | None => Err (Serialization "canonical_to_cudd: child index out of range")
    | Some slot =>
        ok_or slot (Serialization "canonical_to_cudd: child references an unprocessed node slot")
    end.

(** Step 3: the walk over [nodes[i..]]. *)
Fixpoint rebuild (m : M) (vars : list Node) (false_node true_node : Node) (i : nat)
    (nodes : list BddNode) (rebuilt : list (option Node)) : call (list (option Node)) :=
  match nodes with
  | [] => (Ok rebuilt, m)
  | node :: nodes =>
      if bn_var_index node =? TERMINAL_VAR_INDEX then
        match i with
        | 0%nat => rebuild m vars false_node true_node 1 nodes (<[0%nat := Some false_node]> rebuilt)
        | 1%nat => rebuild m vars false_node true_node 2 nodes (<[1%nat := Some true_node]> rebuilt)
        | _ => (Err (Serialization "canonical_to_cudd: terminal-tagged node at unexpected index"), m)
        end
      else
        match vars !! N.to_nat (bn_var_index node) with
        | None => (Err (Serialization "canonical_to_cudd: node var_index out of range"), m)
        | Some var =>
            match lookup_child (bn_low_id node) rebuilt false_node true_node,
                  lookup_child (bn_high_id node) rebuilt false_node true_node with
            | Ok low, Ok high =>
                match Cudd_bddIte m var high low with
                | (None, m) => (Err OutOfCapacity, m)
                | (Some built, m) =>
                    rebuild m vars false_node true_node (S i) nodes (<[i := Some built]> rebuilt)
                end
            | Err e, _ => (Err e, m)
            | _, Err e => (Err e, m)
            end
        end
  end.

Definition canonical_to_cudd (m : M) (var_count : N) (nodes : list BddNode) (root : N)
    : call CanonicalToCuddOutput :=
  match alloc_vars m (N.to_nat var_count) 0 with
  | (Err e, m) => (Err e, m)
  | (Ok vars, m) =>
      match Cudd_ReadLogicZero m, Cudd_ReadOne m with
      | None, _ => (Err (Invariant "canonical_to_cudd: Cudd_ReadLogicZero returned NULL"), m)
      | Some _, None => (Err (Invariant "canonical_to_cudd: Cudd_ReadOne returned NULL"), m)
      | Some false_node, Some true_node =>
          if root =? TERMINAL_TRUE then (Ok (mkOutput true_node vars), m)
          else if root =? TERMINAL_FALSE then (Ok (mkOutput false_node vars), m)
          else
            match rebuild m vars false_node true_node 0 nodes (repeat None (length nodes)) with
            | (Err e, m) => (Err e, m)
            | (Ok rebuilt, m) =>
                match rebuilt !! N.to_nat root with
                | None => (Err (Serialization "canonical_to_cudd: root index out of range"), m)
                | Some None =>
                    (Err (Serialization "canonical_to_cudd: root references an unprocessed node slot"), m)
                | Some (Some root_node) => (Ok (mkOutput root_node vars), m)
                end
            end
      end
  end.

(** ** [backend_cudd.rs] *)

Definition FALSE_SLOT : nat := 0.
Definition TRUE_SLOT : nat := 1.

Record CuddBackend : Type := mkCudd {
  manager : M;
  formulas : list Node;
  var_functions : list Node;
}.

Definition lookup (b : CuddBackend) (handle : FormulaHandle) : option Node := formulas b !! handle.

Definition push_referenced (b : CuddBackend) (node : Node) : FormulaHandle * CuddBackend :=
  (length (formulas b), mkCudd (manager b) (formulas b ++ [node]) (var_functions b)).

Definition cudd_new_session (order : VariableOrder) (hints : CapacityHints)
    : result BackendError CuddBackend :=
  m ← ok_or Cudd_Init OutOfCapacity;
  false_node ← ok_or (Cudd_ReadLogicZero m)
                 (Invariant "Cudd_ReadLogicZero returned NULL on a fresh manager");
  true_node ← ok_or (Cudd_ReadOne m)
                (Invariant "Cudd_ReadOne returned NULL on a fresh manager");
  Ok (mkCudd m [false_node; true_node] []).

Definition cudd_mk_const (b : CuddBackend) (value : bool) : FormulaHandle * CuddBackend :=
  (if value then TRUE_SLOT else FALSE_SLOT, b).

Definition cudd_is_false (b : CuddBackend) (f : FormulaHandle) : bool :=
  match lookup b f with
  | None => false
  | Some stored => bool_decide (Some stored = Cudd_ReadLogicZero (manager b))
  end.

Definition cudd_is_true (b : CuddBackend) (f : FormulaHandle) : bool :=
  match lookup b f with
  | None => false
  | Some stored => bool_decide (Some stored = Cudd_ReadOne (manager b))
  end.

(** [&self]: the manager the conjunction leaves behind, its caches and
    unreferenced nodes, is not kept. *)
Definition cudd_is_var_sat_under (b : CuddBackend) (current : FormulaHandle) (var_idx : N)
    : result BackendError bool :=
  current_node ← ok_or (lookup b current) (Invariant "is_var_sat_under(): current handle out of range");
  var_node ← ok_or (var_functions b !! N.to_nat var_idx)
               (Invariant "is_var_sat_under(): var_idx out of range");
  let '(conj_node, m) := Cudd_bddAnd (manager b) current_node var_node in
  conj_node ← ok_or conj_node OutOfCapacity;
  Ok (negb (bool_decide (Some conj_node = Cudd_ReadLogicZero m))).

Definition cudd_apply_and (b : CuddBackend) (current : FormulaHandle) (var_idx : N)
    : result BackendError FormulaHandle * CuddBackend :=
  match lookup b current with
  | None => (Err (Invariant "apply_and(): current handle out of range"), b)
  | Some current_node =>
      match var_functions b !! N.to_nat var_idx with
      | None => (Err (Invariant "apply_and(): var_idx out of range"), b)
      | Some var_node =>
          let '(conj_node, m) := Cudd_bddAnd (manager b) current_node var_node in
          let b := mkCudd m (formulas b) (var_functions b) in
          match conj_node with
          | None => (Err OutOfCapacity, b)
          | Some conj_node => let '(h, b) := push_referenced b conj_node in (Ok h, b)
          end
      end
  end.

Definition cudd_deserialize_bdd (b : CuddBackend) (var_count : N) (nodes : list BddNode) (root : N)
    : result BackendError FormulaHandle * CuddBackend :=
  match canonical_to_cudd (manager b) var_count nodes root with
  | (Err e, m) => (Err e, mkCudd m (formulas b) (var_functions b))
  | (Ok translated, m) =>
      let '(h, b) := push_referenced (mkCudd m (formulas b) (out_var_functions translated))
                       (out_root translated) in
      (Ok h, b)
  end.

#[export] Instance CuddBackend_backend : SolverBackend CuddBackend := {|
  new_session := cudd_new_session;
  mk_const := cudd_mk_const;
  is_false := cudd_is_false;
  is_true := cudd_is_true;
  is_var_sat_under := cudd_is_var_sat_under;
  apply_and := cudd_apply_and;
  deserialize_bdd := cudd_deserialize_bdd;
|}.
End Translate.
#[global] Arguments CuddBackend M Node : clear implicits.
#[global] Arguments CanonicalToCuddOutput Node : clear implicits.

(** ** The laws of the library *)

Class DdContract (M Node : Type) `{DdManager M Node} : Type := {
  live : M → Prop;
  den : M → Node → bfun → Prop;

  den_live m x f : den m x f → live m;

  den_ext m x f g : den m x f → (∀ rho, f rho = g rho) → den m x g;

  (** BDDs are canonical: two nodes are equal iff they are the same function. *)
  den_canonical m x y f g : den m x f → den m y g → (x = y ↔ ∀ rho, f rho = g rho);

  init_live m : Cudd_Init = Some m → live m;

  zero_den m : live m → ∃ x, Cudd_ReadLogicZero m = Some x ∧ den m x (λ _, false);

  one_den m : live m → ∃ x, Cudd_ReadOne m = Some x ∧ den m x (λ _, true);

  (** A negative or too large index gives [NULL]. *)
  ith_var_den m i :
    live m →
    let '(r, m') := Cudd_bddIthVar m i in
    live m' ∧ (∀ x f, den m x f → den m' x f) ∧
    ∀ x, r = Some x → (0 ≤ i)%Z ∧ den m' x (λ rho, rho (Z.to_N i));

  ite_den m v h l f g k :
    den m v f → den m h g → den m l k →
    let '(r, m') := Cudd_bddIte m v h l in
    live m' ∧ (∀ x f, den m x f → den m' x f) ∧
    ∀ x, r = Some x → den m' x (λ rho, if f rho then g rho else k rho);

  and_den m a b f g :
    den m a f → den m b g →
    let '(r, m') := Cudd_bddAnd m a b in
    live m' ∧ (∀ x f, den m x f → den m' x f) ∧
    ∀ x, r = Some x → den m' x (λ rho, f rho && g rho);
}.

(** ** What a table denotes, node by node *)

Section Table.
Context (var_count : N) (nodes : list BddNode) (Hct : canonical_table var_count nodes).

Definition sentinel (id : N) : Prop := id = TERMINAL_FALSE ∨ id = TERMINAL_TRUE.

Lemma table_eval_fuel_enough fuel fuel' id rho :
  sentinel id ∨ (S (N.to_nat id) < fuel)%nat ∧ (S (N.to_nat id) < fuel')%nat →
  (0 < fuel)%nat → (0 < fuel')%nat →
  table_eval_fuel fuel nodes id rho = table_eval_fuel fuel' nodes id rho.
Proof.
  revert fuel' id. induction fuel as [|fuel IH]; intros [|fuel'] id Hid H1 H2; try lia. cbn.
  destruct (N.eqb_spec id TERMINAL_FALSE) as [|Hf]; [done|].
  destruct (N.eqb_spec id TERMINAL_TRUE) as [|Ht]; [done|].
  destruct (nodes !! N.to_nat id) as [n|] eqn:E; [|done].
  destruct (N.eqb_spec (bn_var_index n) TERMINAL_VAR_INDEX) as [|Hv]; [done|].
  apply Hct in E. unfold node_ok in E. rewrite decide_False in E by done.
  destruct E as (_ & _ & Hl & Hh). destruct Hid as [[?|?]|[H3 H4]]; [done..|].
  assert (Hc : ∀ c, child_ok (N.to_nat id) c →
    table_eval_fuel fuel nodes c rho = table_eval_fuel fuel' nodes c rho).
  { intros c Hc. apply IH; [|lia|lia]. destruct Hc as [?|[?|?]]; [by left; left|by left; right|right; lia]. }
  destruct (rho _); auto.
Qed.

Lemma table_eval_sentinel id rho :
  sentinel id → table_eval nodes id rho = bool_decide (id = TERMINAL_TRUE).
Proof. by intros [-> | ->]. Qed.

Lemma table_eval_terminal i n rho :
  nodes !! i = Some n → bn_var_index n = TERMINAL_VAR_INDEX → ¬ sentinel (N.of_nat i) →
  table_eval nodes (N.of_nat i) rho = bool_decide (i = 1%nat).
Proof.
  intros Hi Hv Hs. unfold table_eval. cbn.
  destruct (N.eqb_spec (N.of_nat i) TERMINAL_FALSE); [by destruct Hs; left|].
  destruct (N.eqb_spec (N.of_nat i) TERMINAL_TRUE); [by destruct Hs; right|].
  rewrite Nat2N.id, Hi, Hv. cbn. pose proof (ct_node _ _ Hct _ _ Hi) as Ho. unfold node_ok in Ho.
  rewrite decide_True in Ho by done. destruct Ho as [(-> & -> & _)|(-> & -> & _)]; done.
Qed.

Lemma table_eval_node i n rho :
  nodes !! i = Some n → bn_var_index n ≠ TERMINAL_VAR_INDEX → ¬ sentinel (N.of_nat i) →
  table_eval nodes (N.of_nat i) rho =
  if rho (bn_var_index n) then table_eval nodes (bn_high_id n) rho
  else table_eval nodes (bn_low_id n) rho.
Proof.
  intros Hi Hv Hs. pose proof (lookup_lt_Some _ _ _ Hi) as Hlt.
  pose proof (ct_node _ _ Hct _ _ Hi) as Ho. unfold node_ok in Ho. rewrite decide_False in Ho by done.
  destruct Ho as (_ & _ & Hl & Hh).
  assert (Hc : ∀ c, child_ok i c →
    table_eval_fuel (length nodes) nodes c rho = table_eval_fuel (S (length nodes)) nodes c rho).
  { intros c Hc. apply table_eval_fuel_enough; [|lia|lia].
    destruct Hc as [?|[?|?]]; [by left; left|by left; right|right; lia]. }
  unfold table_eval. rewrite <-(Hc _ Hl), <-(Hc _ Hh). cbn [table_eval_fuel].
  destruct (N.eqb_spec (N.of_nat i) TERMINAL_FALSE); [by destruct Hs; left|].
  destruct (N.eqb_spec (N.of_nat i) TERMINAL_TRUE); [by destruct Hs; right|].
  rewrite Nat2N.id, Hi. by destruct (N.eqb_spec (bn_var_index n) TERMINAL_VAR_INDEX).
Qed.
End Table.

(** ** The translation is correct *)

Section TranslateSpec.
Context {M Node : Type} `{DdContract M Node}.

Definition grows (m m' : M) : Prop := live m' ∧ ∀ x f, den m x f → den m' x f.

Lemma grows_trans m m' m'' : grows m m' → grows m' m'' → grows m m''.
Proof. intros [_ H1] [Hl H2]. split; [done|]. eauto. Qed.

Lemma as_c_int_nonneg i : (0 ≤ as_c_int i)%Z → i < 4294967296 → Z.to_N (as_c_int i) = i.
Proof.
  unfold as_c_int. intros Hp Hi. rewrite N.mod_small in * by done.
  destruct (Z.ltb_spec (Z.of_N i) 2147483648); lia.
Qed.

Lemma alloc_vars_spec n : ∀ m i, live m → i + N.of_nat n ≤ 4294967296 →
  let '(r, m') := alloc_vars m n i in
  grows m m' ∧
  match r with
  | Ok vs => length vs = n ∧
      ∀ k x, vs !! k = Some x → den m' x (λ rho, rho (i + N.of_nat k))
  | Err e => e = OutOfCapacity
  end.
Proof.
  induction n as [|n IH]; intros m i Hm Hi; cbn;
    [split; [by split|]; split; [done|]; intros k x Hx; by rewrite lookup_nil in Hx|].
  pose proof (ith_var_den m (as_c_int i) Hm) as Hv.
  destruct (Cudd_bddIthVar m (as_c_int i)) as [[v|] m1]; destruct Hv as (Hl1 & Hk1 & Hd1);
    [|split; [by split|done]].
  specialize (IH m1 (N.succ i) Hl1 ltac:(lia)).
  destruct (alloc_vars m1 n (N.succ i)) as [r m2]. destruct IH as [Hg IH].
  assert (Hg' : grows m m2) by (eapply grows_trans; [by split|done]).
  destruct r as [vs|e]; cbn; [|done]. destruct IH as [IHl IHd]. split_and!; [done|lia|].
  intros [|k] x Hx; cbn in Hx.
  - injection Hx as <-. destruct (Hd1 v eq_refl) as [Hpos Hd]. apply Hg in Hd.
    rewrite as_c_int_nonneg in Hd by (done || lia). by rewrite N.add_0_r.
  - apply IHd in Hx. by replace (i + N.of_nat (S k)) with (N.succ i + N.of_nat k) by lia.
Qed.

(** The slots below [i] hold the nodes of the table. *)
Definition filled (m : M) (nodes : list BddNode) (i : nat) (rebuilt : list (option Node)) : Prop :=
  length rebuilt = length nodes ∧
  ∀ j, (j < i)%nat → (j < length nodes)%nat →
    ∃ x, rebuilt !! j = Some (Some x) ∧
      (sentinel (N.of_nat j) ∨ den m x (table_eval nodes (N.of_nat j))).

Lemma filled_grows m m' nodes i rebuilt :
  grows m m' → filled m nodes i rebuilt → filled m' nodes i rebuilt.
Proof.
  intros [_ Hg] [Hl Hf]. split; [done|]. intros j Hj Hj'.
  destruct (Hf j Hj Hj') as (x & Hx & [?|?]); exists x; eauto.
Qed.

Lemma filled_insert m nodes i rebuilt x :
  filled m nodes i rebuilt → (i < length nodes)%nat →
  (sentinel (N.of_nat i) ∨ den m x (table_eval nodes (N.of_nat i))) →
  filled m nodes (S i) (<[i := Some x]> rebuilt).
Proof.
  intros [Hl Hf] Hi Hx. split; [by rewrite length_insert|]. intros j Hj Hj'.
  destruct (decide (i = j)) as [<-|Hne].
  - exists x. split; [|done]. apply list_lookup_insert_eq. lia.
  - rewrite list_lookup_insert_ne by done. apply Hf; lia.
Qed.

Lemma lookup_child_spec m nodes i rebuilt zero one c :
  filled m nodes i rebuilt → (i < length nodes)%nat → child_ok i c →
  den m zero (λ _, false) → den m one (λ _, true) →
  ∃ x f, lookup_child c rebuilt zero one = Ok x ∧ den m x f ∧
    ∀ rho, f rho = table_eval nodes c rho.
Proof.
  intros [Hl Hf] Hi Hc Hz Ho. unfold lookup_child.
  destruct (N.eqb_spec c TERMINAL_FALSE) as [->|H1]; [eauto 6|].
  destruct (N.eqb_spec c TERMINAL_TRUE) as [->|H2]; [eauto 6|].
  destruct Hc as [?|[?|Hc]]; [done..|].
  destruct (Hf (N.to_nat c)) as (x & Hx & Hd); [lia|lia|]. rewrite Hx. cbn.
  rewrite N2Nat.id in Hd. destruct Hd as [[?|?]|Hd]; [done..|]. eauto.
Qed.

Lemma rebuild_spec var_count nodes vars zero one :
  canonical_table var_count nodes → N.of_nat (length vars) = var_count →
  ∀ rest i m rebuilt,
  drop i nodes = rest → live m → filled m nodes i rebuilt →
  den m zero (λ _, false) → den m one (λ _, true) →
  (∀ k x, vars !! k = Some x → den m x (λ rho, rho (N.of_nat k))) →
  let '(r, m') := rebuild m vars zero one i rest rebuilt in
  grows m m' ∧
  match r with
  | Ok rebuilt' => filled m' nodes (length nodes) rebuilt'
  | Err e => e = OutOfCapacity
  end.
Proof.
  intros Hct Hvl. induction rest as [|n rest IH]; intros i m rebuilt Hd Hm Hf Hz Ho Hv.
  { cbn. split; [by split|]. destruct Hf as [Hl Hf]. split; [done|]. intros j Hj Hj'. apply Hf; [|done].
    apply (f_equal length) in Hd. rewrite length_drop in Hd. cbn in Hd. lia. }
  assert (Hi : nodes !! i = Some n) by (by rewrite <-(Nat.add_0_r i), <-lookup_drop, Hd).
  assert (Hd' : drop (S i) nodes = rest) by (by rewrite <-Nat.add_1_r, <-drop_drop, Hd).
  pose proof (lookup_lt_Some _ _ _ Hi) as Hlt.
  pose proof (ct_node _ _ Hct _ _ Hi) as Hn. unfold node_ok in Hn. cbn [rebuild].
  destruct (N.eqb_spec (bn_var_index n) TERMINAL_VAR_INDEX) as [Ht|Ht].
  - rewrite decide_True in Hn by done.
    destruct Hn as [(-> & _)|(-> & _)]; (apply IH; [done|done| |done..]); apply filled_insert; try done;
      right; (eapply den_ext; [eassumption|]); intros rho;
      symmetry; eapply (table_eval_terminal _ _ Hct); try done; intros [?|?]; done.
  - rewrite decide_False in Hn by done. destruct Hn as (Hvar & _ & Hlo & Hhi).
    destruct (lookup_lt_is_Some_2 vars (N.to_nat (bn_var_index n))) as [v Hvv]; [lia|].
    rewrite Hvv. apply Hv in Hvv. rewrite N2Nat.id in Hvv.
    destruct (lookup_child_spec m nodes i rebuilt zero one _ Hf Hlt Hlo Hz Ho) as (lo & fl & -> & Dl & El).
    destruct (lookup_child_spec m nodes i rebuilt zero one _ Hf Hlt Hhi Hz Ho) as (hi & fh & -> & Dh & Eh).
    pose proof (ite_den m v hi lo _ _ _ Hvv Dh Dl) as Hite.
    destruct (Cudd_bddIte m v hi lo) as [[x|] m1]; destruct Hite as (Hl1 & Hk1 & Hx1);
      [|split; [by split|done]].
    assert (Hg : grows m m1) by (by split).
    specialize (IH (S i) m1 (<[i := Some x]> rebuilt) Hd' Hl1).
    destruct (rebuild m1 vars zero one (S i) rest _) as [r m2].
    destruct IH as [Hg2 IH]; [|eauto..|split; [by eapply grows_trans|done]].
    apply filled_insert; [by eapply filled_grows|done|].
    destruct (decide (N.of_nat i = TERMINAL_FALSE)) as [?|Hs1]; [by left; left|].
    destruct (decide (N.of_nat i = TERMINAL_TRUE)) as [?|Hs2]; [by left; right|].
    right. eapply den_ext; [by apply Hx1|]. intros rho. cbn. rewrite El, Eh. symmetry.
    apply (table_eval_node _ _ Hct); [done|done|]. intros [?|?]; done.
Qed.

Lemma canonical_to_cudd_spec m var_count nodes root :
  live m → canonical_table var_count nodes → var_count ≤ 4294967296 →
  root = TERMINAL_TRUE ∨ root = TERMINAL_FALSE ∨ root < N.of_nat (length nodes) →
  let '(r, m') := canonical_to_cudd m var_count nodes root in
  grows m m' ∧
  match r with
  | Ok out => den m' (out_root out) (table_eval nodes root) ∧
      N.of_nat (length (out_var_functions out)) = var_count ∧
      ∀ k x, out_var_functions out !! k = Some x → den m' x (λ rho, rho (N.of_nat k))
  | Err e => e = OutOfCapacity
  end.
Proof.
  intros Hm Hct Hvc Hroot. unfold canonical_to_cudd.
  pose proof (alloc_vars_spec (N.to_nat var_count) m 0 Hm ltac:(lia)) as Ha.
  destruct (alloc_vars m (N.to_nat var_count) 0) as [[vars|e] m1]; destruct Ha as [Hg1 Ha]; [|done].
  destruct Ha as [Hvl Hvd]. destruct (zero_den m1 (proj1 Hg1)) as (zero & -> & Hz).
  destruct (one_den m1 (proj1 Hg1)) as (one & -> & Ho).
  assert (Hvl' : N.of_nat (length vars) = var_count) by lia.
  destruct (N.eqb_spec root TERMINAL_TRUE) as [->|Hr1].
  { split; [done|]. cbn. split_and!; [by eapply den_ext|done|done]. }
  destruct (N.eqb_spec root TERMINAL_FALSE) as [->|Hr2].
  { split; [done|]. cbn. split_and!; [by eapply den_ext|done|done]. }
  destruct Hroot as [?|[?|Hroot]]; [done..|].
  pose proof (rebuild_spec var_count nodes vars zero one Hct Hvl' nodes 0 m1
    (repeat None (length nodes)) eq_refl (proj1 Hg1)) as Hb.
  destruct (rebuild m1 vars zero one 0 nodes _) as [r m2].
  destruct Hb as [Hg2 Hb]; [split; [by rewrite repeat_length|intros; lia]|done..|].
  pose proof (grows_trans _ _ _ Hg1 Hg2) as Hg. destruct r as [rebuilt|e]; [|done].
  destruct Hb as [_ Hb]. destruct (Hb (N.to_nat root)) as (x & -> & Hx); [lia|lia|].
  split; [done|]. cbn. rewrite N2Nat.id in Hx. destruct Hx as [[?|?]|Hx]; [done..|].
  split_and!; [done|done|]. intros k y Hy. apply Hg2. by apply Hvd.
Qed.
End TranslateSpec.

(** ** The backend meets its contract *)

Section BackendSpec.
Context {M Node : Type} `{DdContract M Node}.

Record cudd_ready (b : CuddBackend M Node) : Prop := {
  cr_live : live (manager b);
  cr_false : ∃ x, formulas b !! FALSE_SLOT = Some x ∧ den (manager b) x (λ _, false);
  cr_true : ∃ x, formulas b !! TRUE_SLOT = Some x ∧ den (manager b) x (λ _, true);
  cr_vars : ∀ k x, var_functions b !! k = Some x → den (manager b) x (λ rho, rho (N.of_nat k));
}.

Definition cudd_denotes (b : CuddBackend M Node) (h : FormulaHandle) (f : bfun) : Prop :=
  cudd_ready b ∧ ∃ x, formulas b !! h = Some x ∧ den (manager b) x f.

Definition cudd_var_limit (b : CuddBackend M Node) : N := N.of_nat (length (var_functions b)).

Lemma cudd_ready_grows b m' fs vars :
  cudd_ready b → grows (manager b) m' → formulas b `prefix_of` fs →
  (∀ k x, vars !! k = Some x → den m' x (λ rho, rho (N.of_nat k))) →
  cudd_ready (mkCudd m' fs vars).
Proof.
  intros [Hl (x & Hx & Dx) (y & Hy & Dy) Hv] [Hl' Hg] Hp Hv'. split; cbn; [done| | |done].
  - exists x. split; [by eapply prefix_lookup_Some|auto].
  - exists y. split; [by eapply prefix_lookup_Some|auto].
Qed.

Lemma cudd_keeps b m' fs vars h f :
  grows (manager b) m' → formulas b `prefix_of` fs → cudd_ready (mkCudd m' fs vars) →
  cudd_denotes b h f → cudd_denotes (mkCudd m' fs vars) h f.
Proof.
  intros [_ Hg] Hp Hr [_ (x & Hx & Dx)]. split; [done|]. exists x. cbn.
  split; [by eapply prefix_lookup_Some|auto].
Qed.

Lemma cudd_new_session_ok order hints :
  match cudd_new_session order hints with Ok b => cudd_ready b | Err e => e = OutOfCapacity end.
Proof.
  unfold cudd_new_session. destruct Cudd_Init as [m|] eqn:E; cbn; [|done].
  apply init_live in E. destruct (zero_den m E) as (x & -> & Hx). cbn.
  destruct (one_den m E) as (y & -> & Hy). cbn.
  split; cbn; [done|eauto..|]. intros k z Hz. by rewrite lookup_nil in Hz.
Qed.

(** A constant is recognized by pointer equality. *)
Lemma cudd_is_const b h f c (get : M → option Node) :
  (∀ m, live m → ∃ x, get m = Some x ∧ den m x (λ _, c)) →
  cudd_denotes b h f →
  match lookup b h with
  | None => false
  | Some stored => bool_decide (Some stored = get (manager b))
  end = true ↔ ∀ rho, f rho = c.
Proof.
  intros Hget [Hr (x & Hx & Dx)]. unfold lookup. rewrite Hx.
  destruct (Hget (manager b) (cr_live _ Hr)) as (z & -> & Dz). rewrite bool_decide_eq_true.
  rewrite <-(den_canonical (manager b) x z f (λ _, c) Dx Dz). split; congruence.
Qed.

Lemma cudd_var_node b v :
  cudd_ready b → v < cudd_var_limit b →
  ∃ x, var_functions b !! N.to_nat v = Some x ∧ den (manager b) x (λ rho, rho v).
Proof.
  intros Hr Hv. unfold cudd_var_limit in Hv.
  destruct (lookup_lt_is_Some_2 (var_functions b) (N.to_nat v)) as [x Hx]; [lia|].
  exists x. split; [done|]. apply (cr_vars _ Hr) in Hx. by rewrite N2Nat.id in Hx.
Qed.

Lemma cudd_is_var_sat_under_ok b h f v :
  cudd_denotes b h f → v < cudd_var_limit b →
  match cudd_is_var_sat_under b h v with
  | Ok s => s = true ↔ satisfiable_fun (λ rho, f rho && rho v)
  | Err e => e = OutOfCapacity
  end.
Proof.
  intros [Hr (x & Hx & Dx)] Hv. unfold cudd_is_var_sat_under, lookup. rewrite Hx. cbn.
  destruct (cudd_var_node b v Hr Hv) as (y & -> & Dy). cbn.
  pose proof (and_den (manager b) x y _ _ Dx Dy) as Ha.
  destruct (Cudd_bddAnd (manager b) x y) as [[z|] m]; cbn; [|done]. destruct Ha as (Hl & _ & Hz).
  specialize (Hz z eq_refl). destruct (zero_den m Hl) as (w & -> & Dw).
  rewrite negb_true_iff, bool_decide_eq_false.
  assert (E : Some z = Some w ↔ ∀ rho, f rho && rho v = false).
  { rewrite <-(den_canonical m z w _ _ Hz Dw). split; congruence. }
  by rewrite E.
Qed.

Lemma cudd_apply_and_ok b h f v :
  cudd_denotes b h f → v < cudd_var_limit b →
  let '(r, b') := cudd_apply_and b h v in
  cudd_var_limit b' = cudd_var_limit b ∧ (∀ h f, cudd_denotes b h f → cudd_denotes b' h f) ∧
  match r with
  | Ok h' => cudd_denotes b' h' (λ rho, f rho && rho v)
  | Err e => e = OutOfCapacity
  end.
Proof.
  intros [Hr (x & Hx & Dx)] Hv. unfold cudd_apply_and, lookup. rewrite Hx.
  destruct (cudd_var_node b v Hr Hv) as (y & -> & Dy).
  pose proof (and_den (manager b) x y _ _ Dx Dy) as Ha.
  destruct (Cudd_bddAnd (manager b) x y) as [r m]; destruct Ha as (Hl & Hk & Hz).
  assert (Hg : grows (manager b) m) by (by split).
  assert (Hr' : ∀ fs, formulas b `prefix_of` fs → cudd_ready (mkCudd m fs (var_functions b))).
  { intros fs Hp. apply (cudd_ready_grows b); [done|done|done|].
    intros k z Hz'. apply Hk. by apply (cr_vars _ Hr). }
  destruct r as [z|]; cbn.
  - assert (Hp : formulas b `prefix_of` formulas b ++ [z]) by (by apply prefix_app_r).
    split_and!; [done|intros h' g Hd; apply (cudd_keeps b); [done|done|by apply Hr'|done]|].
    split; [by apply Hr'|]. exists z. cbn. split; [|by apply Hz].
    rewrite lookup_app_r by done. by rewrite Nat.sub_diag.
  - split_and!; [done|intros h' g Hd; apply (cudd_keeps b); [done|done|by apply Hr'|done]|done].
Qed.

Lemma cudd_deserialize_bdd_ok b var_count nodes root :
  cudd_ready b → canonical_table var_count nodes → var_count ≤ 4294967296 →
  root = TERMINAL_TRUE ∨ root = TERMINAL_FALSE ∨ root < N.of_nat (length nodes) →
  let '(r, b') := cudd_deserialize_bdd b var_count nodes root in
  match r with
  | Ok h => cudd_denotes b' h (table_eval nodes root) ∧ cudd_var_limit b' = var_count
  | Err e => e = OutOfCapacity
  end.
Proof.
  intros Hr Hct Hvc Hroot. unfold cudd_deserialize_bdd.
  pose proof (canonical_to_cudd_spec (manager b) var_count nodes root (cr_live _ Hr) Hct Hvc Hroot) as Hc.
  destruct (canonical_to_cudd _ _ _ _) as [[out|e] m]; destruct Hc as [Hg Hc]; cbn; [|done].
  destruct Hc as (Dr & Hl & Hv). split; [|done]. split.
  - apply (cudd_ready_grows b); [done|done|by apply prefix_app_r|done].
  - exists (out_root out). cbn. split; [|done]. rewrite lookup_app_r by done. by rewrite Nat.sub_diag.
Qed.

(** The CUDD backend discharges the contract the session relies on. *)
#[export] Program Instance CuddBackend_contract : BackendContract (CuddBackend M Node) := {|
  ready := cudd_ready;
  denotes := cudd_denotes;
  var_limit := cudd_var_limit;
|}.
Next Obligation. by intros b h f [Hr _]. Qed.
Next Obligation.
  intros b h f g [Hr (x & Hx & Dx)] Hfg. split; [done|]. exists x. split; [done|].
  by eapply den_ext.
Qed.
Next Obligation. apply cudd_new_session_ok. Qed.
Next Obligation.
  intros b v Hr. cbn. split; [|done]. split; [done|].
  destruct v; [apply (cr_true _ Hr)|apply (cr_false _ Hr)].
Qed.
Next Obligation. intros b h f Hd. by apply (cudd_is_const b h f false _ zero_den). Qed.
Next Obligation. intros b h f Hd. by apply (cudd_is_const b h f true _ one_den). Qed.
Next Obligation. apply cudd_is_var_sat_under_ok. Qed.
Next Obligation. apply cudd_apply_and_ok. Qed.
Next Obligation. apply cudd_deserialize_bdd_ok. Qed.
End BackendSpec.

(** ** A manager for the laws

    The compiler's builder as a manager: a node is an id of its arena, [NULL]
    is a full node table. *)

Section InCrateManager.

Definition incrate_call (st : BddBuilder) (m : lowered) : option N * BddBuilder :=
  match m with Ok (x, st') => (Some x, st') | Err _ => (None, st) end.

Definition incrate_ite (st : BddBuilder) (v h l : N) : lowered :=
  '(a, st) ← lift (and st v h);
  '(nv, st) ← lift (not st v);
  '(b, st) ← lift (and st nv l);
  lift (or st a b).

#[export] Instance InCrate_manager : DdManager BddBuilder N := {|
  Cudd_Init := Some default_builder;
  Cudd_ReadLogicZero _ := Some FALSE_REF;
  Cudd_ReadOne _ := Some TRUE_REF;
  Cudd_bddIthVar st i :=
    if (i <? 0)%Z then (None, st) else incrate_call st (lift (var st (Z.to_N i)));
  Cudd_bddIte st v h l := incrate_call st (incrate_ite st v h l);
  Cudd_bddAnd st a b := incrate_call st (lift (and st a b));
|}.

Definition incrate_den (st : BddBuilder) (x : N) (f : bfun) : Prop := wf st ∧ is_fun (nodes st) x f.

Lemma incrate_call_spec n st m f :
  wf st → gives n st m (λ ns x, is_fun ns x f) →
  let '(r, st') := incrate_call st m in
  wf st' ∧ (∀ x g, incrate_den st x g → incrate_den st' x g) ∧
  ∀ x, r = Some x → incrate_den st' x f.
Proof.
  intros Hw Hg. unfold gives, incrate_call in *. destruct m as [[x st']|e]; [|done].
  destruct Hg as (Hw' & Hx & _ & Hf). split_and!; [done| |].
  - intros y g [_ Hy]. split; [done|]. exact (is_fun_prefix _ _ _ _ Hw Hx Hy).
  - intros y [= <-]. by split.
Qed.

Lemma incrate_ite_spec st v h l f g k :
  wf st → is_fun (nodes st) v f → is_fun (nodes st) h g → is_fun (nodes st) l k →
  gives 0 st (incrate_ite st v h l) (λ ns x, is_fun ns x (λ rho, if f rho then g rho else k rho)).
Proof.
  intros Hw Hv Hh Hl. unfold incrate_ite.
  eapply gives_bind; [exact (gives_op 0 true _ _ _ _ _ Hw Hv Hh)|].
  intros a st1 Hw1 Hx1 Ha. cbn beta iota in *.
  eapply gives_bind; [exact (gives_not 0 _ _ _ Hw1 (is_fun_prefix _ _ _ _ Hw Hx1 Hv))|].
  intros nv st2 Hw2 Hx2 Hnv. cbn beta iota in *.
  assert (Hx02 : extends st st2) by (by etransitivity).
  eapply gives_bind;
    [exact (gives_op 0 true _ _ _ _ _ Hw2 Hnv (is_fun_prefix _ _ _ _ Hw Hx02 Hl))|].
  intros b st3 Hw3 Hx3 Hb. cbn beta iota in *.
  assert (Hx13 : extends st1 st3) by (by etransitivity).
  eapply gives_weaken; [|exact (gives_op 0 false _ _ _ _ _ Hw3 (is_fun_prefix _ _ _ _ Hw1 Hx13 Ha) Hb)].
  intros ns x. apply is_fun_ext. intros rho. cbn. destruct (f rho), (g rho), (k rho); done.
Qed.

#[export] Program Instance InCrate_contract : DdContract BddBuilder N := {|
  live := wf;
  den := incrate_den;
|}.
Next Obligation. by intros st x f [Hw _]. Qed.
Next Obligation. intros st x f g [Hw Hf] Hfg. split; [done|]. by eapply is_fun_ext. Qed.
Next Obligation.
  intros st x y f g [Hw [Vx Ex]] [_ [Vy Ey]]. split.
  - intros -> rho. by rewrite <-Ex, <-Ey.
  - intros Hfg. eapply (iso_eq (nodes st) (unique st)); [apply Hw|].
    eapply (eval_iso (N.succ (N.max x y))); [lia|apply Hw|apply Hw|done..|].
    intros rho. by rewrite Ex, Ey, Hfg.
Qed.
Next Obligation. intros m [= <-]. apply wf_init. Qed.
Next Obligation.
  intros st Hw. exists FALSE_REF. split; [done|]. split; [done|]. apply (is_fun_terminal _ false).
Qed.
Next Obligation.
  intros st Hw. exists TRUE_REF. split; [done|]. split; [done|]. apply (is_fun_terminal _ true).
Qed.
Next Obligation.
  intros st i Hw. cbn -[var]. destruct (Z.ltb_spec i 0) as [Hi|Hi]; [by split_and!|].
  pose proof (incrate_call_spec (N.succ (Z.to_N i)) st (lift (var st (Z.to_N i))) _ Hw
    (gives_var _ st _ Hw (N.lt_succ_diag_r _))) as H.
  destruct (incrate_call _ _) as [r st']. destruct H as (? & ? & Hr). split_and!; [done..|].
  intros x Hx. split; [done|]. by apply Hr.
Qed.
Next Obligation.
  intros st v h l f g k [Hw Hv] [_ Hh] [_ Hl].
  exact (incrate_call_spec 0 st _ _ Hw (incrate_ite_spec _ _ _ _ _ _ _ Hw Hv Hh Hl)).
Qed.
Next Obligation.
  intros st a b f g [Hw Ha] [_ Hb].
  exact (incrate_call_spec 0 st _ _ Hw (gives_op 0 true _ _ _ _ _ Hw Ha Hb)).
Qed.
End InCrateManager.

(** ** Rebuilding an accepted file *)

(** The backend rebuilds what the file says.  For a file the parser accepts
    and a root inside its table, rebuilding in a CUDD manager gives a node that
    is the function of the table and one function per variable, whatever was in
    the manager keeps its meaning, and the only failure is a [NULL] from the
    library: none of the structural errors of the translation can occur. *)
Theorem cudd_rebuild_correct {M Node} `{DdContract M Node} m bs var_count node_count p root :
  live m → parse_bdd_bin bs var_count node_count = Ok p → var_count ≤ 4294967296 →
  root = TERMINAL_TRUE ∨ root = TERMINAL_FALSE ∨ root < node_count →
  let '(r, m') := canonical_to_cudd m var_count (bp_nodes p) root in
  grows m m' ∧
  match r with
  | Ok out => den m' (out_root out) (table_eval (bp_nodes p) root) ∧
      N.of_nat (length (out_var_functions out)) = var_count ∧
      ∀ k x, out_var_functions out !! k = Some x → den m' x (λ rho, rho (N.of_nat k))
  | Err e => e = OutOfCapacity
  end.
Proof.
  intros Hm Hp Hv Hr. apply parse_bdd_bin_spec in Hp as (_ & _ & Hl & _ & Hct).
  apply canonical_to_cudd_spec; [done..|]. by rewrite Hl.
Qed.

Definition demo_table : list BddNode := table_of [mkRaw 0 0 1].

Lemma cudd_rebuild_correct_witness :
  ∃ out m', canonical_to_cudd (M := BddBuilder) default_builder 1 demo_table 2 = (Ok out, m') ∧
    den m' (out_root out) (table_eval demo_table 2).
Proof.
  pose proof (cudd_rebuild_correct (M := BddBuilder) (Node := N) default_builder
    (encode_canonical_to_bytes 1 demo_table 2) 1 3 (mkPayload 1 3 [2] demo_table) 2 (wf_init _ _)) as Hc.
  specialize (Hc ltac:(vm_compute; reflexivity) ltac:(lia) ltac:(lia)). cbn [bp_nodes] in Hc.
  assert (E : ∃ out m', canonical_to_cudd (M := BddBuilder) default_builder 1 demo_table 2 = (Ok out, m')).
  { eexists _, _. vm_compute. reflexivity. }
  destruct E as (out & m' & E). exists out, m'. split; [exact E|]. rewrite E in Hc.
  exact (proj1 (proj2 Hc)).
Defined.
