(* ===== verification/MultiPart.v ===== *)
(** * The multi-part loader

    Models [solver/src/ccm_multi_part.rs], the file reads and the top-level
    hash of [solver/src/ccm_format.rs], [solver/src/partition_manifest.rs] and
    the [Ccm] value of [solver/src/ccm.rs].

    The directory is untrusted, so the reads matter: the loader runs in a small
    monad that keeps the list of paths it opened.  The file system maps a path
    to what [stat] and [read] see; JSON and SHA-256 are parameters, as in
    [CcmFormat.v]. *)
From S2P Require Import Prelude Bdd CcmFormat.
Local Open Scope N_scope.

(** ** Reading *)

Record file_entry : Type := mkFile {
  fe_is_file : bool;
  fe_len : N;
  fe_content : list ascii;
}.

(** [None]: [stat] fails. *)
Definition file_system : Type := string → option file_entry.

Definition CCM_FILE_SIZE_LIMIT_BYTES : N := N.shiftl 1 30.

(** [file.take(limit).read_to_end(..)]. *)
Definition read_capped (limit : N) (content : list ascii) : list ascii :=
  if N.of_nat (length content) <=? limit then content else take (N.to_nat limit) content.

Definition read_ccm_file (fs : file_system) (path : string) : result ParseError (list ascii) :=
  metadata ← ok_or (fs path) (Io ("read " +:+ path));
  _ ← reject_if (negb (fe_is_file metadata)) (Io ("read " +:+ path +:+ ": not a regular file"));
  _ ← reject_if (CCM_FILE_SIZE_LIMIT_BYTES <? fe_len metadata)
        (Io ("read " +:+ path +:+ ": exceeds the limit"));
  let bytes := read_capped (CCM_FILE_SIZE_LIMIT_BYTES + 1) (fe_content metadata) in
  _ ← reject_if (CCM_FILE_SIZE_LIMIT_BYTES <? N.of_nat (length bytes))
        (Io ("read " +:+ path +:+ ": exceeds the limit"));
  Ok bytes.

(** A computation that opens files: the paths opened so far are its state. *)
Definition io (A : Type) : Type := list string → result ParseError A * list string.

#[export] Instance io_ret : MRet io := λ A a log, (Ok a, log).
#[export] Instance io_bind : MBind io := λ A B k m log,
  match m log with
  | (Ok a, log) => k a log
  | (Err e, log) => (Err e, log)
  end.

Definition pure_io {A} (r : result ParseError A) : io A := λ log, (r, log).

Definition open_file (fs : file_system) (path : string) : io (list ascii) := λ log,
  (read_ccm_file fs path, log ++ [path]).

(** ** Paths *)

Definition has_byte (c : ascii) (s : string) : bool := existsb (Ascii.eqb c) (bytes_of s).

(** [Path::join]: an absolute argument replaces the base. *)
Definition join (base name : string) : string :=
  match bytes_of name with
  | "/"%char :: _ => name
  | _ => base +:+ "/" +:+ name
  end.

(** One [Component::Normal] and nothing else. *)
Definition is_plain_filename (name : string) : bool :=
  negb (bool_decide (name = EmptyString) || has_byte "/"%char name || has_byte "\"%char name) &&
  negb (bool_decide (name = ".") || bool_decide (name = "..")).

(** ** Data *)

Record PartitionManifest : Type := mkPartitionManifest {
  pm_schema_version : N;
  pm_partitions : list string;
  pm_has_bridge : bool;
  pm_top_level_ccm_hash : string;
}.

Definition PARTITION_MANIFEST_SCHEMA_MAX : N := 2.

Record PartitionCcm : Type := mkPartition {
  pt_symbols : Symbols;
  pt_bdd : BddPayload;
  pt_ccm_hash : list ascii;
}.

Record MultiPartCcm : Type := mkMultiPart {
  mp_top_level_ccm_hash : list ascii;
  mp_bound_model_hash : list ascii;
  mp_schema_version : N;
  mp_constraints : list ConstraintRosterEntry;
  mp_clusters : list PartitionCcm;
  mp_bridge : option PartitionCcm;
}.

Definition partition_count (m : MultiPartCcm) : nat :=
  length (mp_clusters m) + (if mp_bridge m then 1 else 0).

Record TopLevelPreImage : Type := mkTopPre {
  tp_algorithm : string;
  tp_algorithm_params : gmap string string;
  tp_bound_model_hash : string;
  tp_constraints : list ConstraintRosterEntry;
  tp_node_count : N;
  tp_partition_manifest : string;
  tp_schema_version : N;
  tp_var_count : N;
}.

Record PartitionManifestPreImage : Type := mkPmPre {
  pp_has_bridge : bool;
  pp_partitions : list string;
  pp_schema_version : N;
}.

(** ** The loader *)

Section Loader.
Context (fs : file_system).
Context (sha256 : list ascii → list ascii).
Context (to_vec : PreImageManifest → result ParseError (list ascii)).
Context (top_to_vec : TopLevelPreImage → result ParseError (list ascii)).
Context (pm_to_vec : PartitionManifestPreImage → result ParseError (list ascii)).
Context (parse_manifest : list ascii → result ParseError Manifest).
Context (parse_symbols : list ascii → result ParseError Symbols).
Context (parse_partition_manifest : list ascii → result ParseError PartitionManifest).

Definition load_ccm_from_dir (dir : string) : io ParsedCcm :=
  manifest_bytes ← open_file fs (join dir "ccm.manifest.json");
  symbols_bytes ← open_file fs (join dir "ccm.symbols.json");
  bdd_bytes ← open_file fs (join dir "ccm.bdd.bin");
  pure_io (load_ccm sha256 to_vec parse_manifest parse_symbols manifest_bytes symbols_bytes bdd_bytes).

Definition compute_top_level_ccm_hash (manifest : Manifest) (pm_schema : N) (partitions : list string)
    (has_bridge : bool) (hashes : list (list ascii)) : result ParseError (list ascii) :=
  path ← ok_or (mf_partition_manifest manifest)
           (ManifestParse "top-level manifest missing required partition_manifest field");
  top_canon ← top_to_vec
    {| tp_algorithm := mf_algorithm manifest; tp_algorithm_params := mf_algorithm_params manifest;
       tp_bound_model_hash := mf_bound_model_hash manifest; tp_constraints := mf_constraints manifest;
       tp_node_count := mf_node_count manifest; tp_partition_manifest := path;
       tp_schema_version := mf_schema_version manifest; tp_var_count := mf_var_count manifest |};
  pm_canon ← pm_to_vec
    {| pp_has_bridge := has_bridge; pp_partitions := partitions; pp_schema_version := pm_schema |};
  Ok (sha256 (CCM_HASH_DOMAIN_TAG ++ top_canon ++ ["010"%char] ++ pm_canon ++ ["010"%char]
              ++ concat hashes)).

Definition load_partition (sub_dir : string) (top : Manifest) : io PartitionCcm :=
  parsed ← load_ccm_from_dir sub_dir;
  top_bound ← pure_io (ok_or (decode_hex32 (bytes_of (mf_bound_model_hash top)))
                (ManifestParse "top-level bound_model_hash invalid; per-partition cross-check skipped"));
  _ ← pure_io (reject_if (negb (bool_decide (pc_bound_model_hash_bytes parsed = top_bound)))
        (ManifestParse "bound_model_hash differs from top-level"));
  pure_io (Ok (mkPartition (pc_symbols parsed) (pc_bdd parsed) (pc_ccm_hash_bytes parsed))).

(** The cluster loop. *)
Fixpoint load_partitions (dir : string) (top : Manifest) (names : list string)
    : io (list PartitionCcm) :=
  match names with
  | [] => pure_io (Ok [])
  | name :: names =>
      part ← load_partition (join dir name) top;
      parts ← load_partitions dir top names;
      pure_io (Ok (part :: parts))
  end.

Definition load_multi_part (dir : string) : io MultiPartCcm :=
  top_bytes ← open_file fs (join dir "ccm.manifest.json");
  top ← pure_io (parse_manifest top_bytes);
  _ ← pure_io (reject_if (out_of_range (mf_schema_version top) CCM_MANIFEST_SCHEMA_MIN
                            CCM_MANIFEST_SCHEMA_MAX) UnsupportedSchemaVersion);
  _ ← pure_io (reject_if (negb (bool_decide (mf_algorithm top ∈ RECOGNIZED_ALGORITHMS)))
        UnknownAlgorithm);
  pm_filename ← pure_io (ok_or (mf_partition_manifest top)
    (ManifestParse "top-level ccm.manifest.json missing required v2 field 'partition_manifest'"));
  _ ← pure_io (reject_if (negb (is_plain_filename pm_filename))
        (ManifestParse ("top-level ccm.manifest.json field 'partition_manifest' must be a plain filename, got "
                        +:+ pm_filename)));
  pm_bytes ← open_file fs (join dir pm_filename);
  pm ← pure_io (parse_partition_manifest pm_bytes);
  _ ← pure_io (reject_if (PARTITION_MANIFEST_SCHEMA_MAX <? pm_schema_version pm)
        UnsupportedSchemaVersion);
  let last_is_bridge := bool_decide (last (pm_partitions pm) = Some "partition-bridge") in
  _ ← pure_io (reject_if (negb (Bool.eqb (pm_has_bridge pm) last_is_bridge))
        (ManifestParse "partition-manifest.has_bridge disagrees with last-entry name"));
  _ ← pure_io (reject_if (bool_decide (pm_partitions pm = []))
        (ManifestParse "partition-manifest.partitions is empty (v2 always has at least 1)"));
  _ ← pure_io (reject_if (negb (forallb is_plain_filename (pm_partitions pm)))
        (ManifestParse "partition-manifest.json field 'partitions' entry must be a plain filename"));
  let n := length (pm_partitions pm) in
  let '(cluster_names, bridge_name) :=
    if pm_has_bridge pm then (take (n - 1) (pm_partitions pm), pm_partitions pm !! (n - 1)%nat)
    else (pm_partitions pm, None) in
  clusters ← load_partitions dir top cluster_names;
  bridge ← match bridge_name with
           | Some bname => b ← load_partition (join dir bname) top; pure_io (Ok (Some b))
           | None => pure_io (Ok None)
           end;
  let hashes := (pt_ccm_hash <$> clusters) ++ (pt_ccm_hash <$> option_list bridge) in
  computed ← pure_io (compute_top_level_ccm_hash top (pm_schema_version pm) (pm_partitions pm)
                        (pm_has_bridge pm) hashes);
  claimed ← pure_io (ok_or (decode_hex32 (bytes_of (mf_ccm_hash top)))
              (ManifestParse "top-level ccm_hash: not 64-char lowercase hex"));
  _ ← pure_io (reject_if (negb (bool_decide (computed = claimed))) HashMismatch);
  pm_top ← pure_io (ok_or (decode_hex32 (bytes_of (pm_top_level_ccm_hash pm)))
             (ManifestParse "partition-manifest.top_level_ccm_hash: not 64-char lowercase hex"));
  _ ← pure_io (reject_if (negb (bool_decide (pm_top = claimed))) HashMismatch);
  bound ← pure_io (ok_or (decode_hex32 (bytes_of (mf_bound_model_hash top)))
            (ManifestParse "top-level bound_model_hash: not 64-char lowercase hex"));
  pure_io (Ok (mkMultiPart claimed bound (mf_schema_version top) (mf_constraints top) clusters bridge)).
End Loader.

(** ** The loaded model *)

Record CcmSymbols : Type := mkCcmSymbols {
  cs_variable_order : list string;
  cs_var_to_label : list string;
}.

Record Ccm : Type := mkCcm {
  ccm_hash : list ascii;
  schema_version : N;
  bound_model_hash : list ascii;
  payload : option MultiPartCcm;
  symbols : option CcmSymbols;
  bdd : option BddPayload;
}.

Definition CCM_SCHEMA_VERSION_V1 : N := 1.

Definition zero_hash : list ascii := repeat "000"%char 32.

Definition empty_ccm : Ccm := mkCcm zero_hash CCM_SCHEMA_VERSION_V1 zero_hash None None None.

Definition from_multi_part (p : MultiPartCcm) : Ccm :=
  let '(symbols, bdd) :=
    match mp_bridge p, mp_clusters p with
    | None, [p0] =>
        (Some (mkCcmSymbols (variable_order (pt_symbols p0)) (var_to_label (pt_symbols p0))),
         Some (pt_bdd p0))
    | _, _ => (None, None)
    end in
  mkCcm (mp_top_level_ccm_hash p) (mp_schema_version p) (mp_bound_model_hash p) (Some p) symbols bdd.

(** The roster, sorted by root index and then id. *)
Definition roster_le (a b : ConstraintRosterEntry) : Prop :=
  ce_root_index a < ce_root_index b ∨
  ce_root_index a = ce_root_index b ∧ String.leb (ce_id a) (ce_id b).

#[export] Instance roster_le_dec : RelDecision roster_le.
Proof. intros a b. unfold roster_le. apply _. Defined.

Definition constraint_roster (c : Ccm) : list ConstraintRosterEntry :=
  match payload c with
  | None => []
  | Some p => merge_sort roster_le (mp_constraints p)
  end.

(** ** Confinement *)

(** Every path [m] opens satisfies [P], whatever it returns. *)
Definition opens {A} (P : string → Prop) (m : io A) : Prop :=
  ∀ log, Forall P log → Forall P (m log).2.

Lemma opens_pure {A} P (r : result ParseError A) : opens P (pure_io r).
Proof. by intros log. Qed.

Lemma opens_file P fs path : P path → opens P (open_file fs path).
Proof. intros Hp log Hl. cbn. apply Forall_app. split; [done|]. by constructor. Qed.

Lemma opens_bind {A B} P (m : io A) (k : A → io B) :
  opens P m → (∀ a log log', m log = (Ok a, log') → opens P (k a)) → opens P (m ≫= k).
Proof.
  intros Hm Hk log Hl. specialize (Hm log Hl). unfold mbind, io_bind in *.
  destruct (m log) as [[a|e] log'] eqn:E; [|done]. by eapply Hk.
Qed.

Lemma reject_pure c e log u log' : pure_io (reject_if c e) log = (Ok u, log') → c = false.
Proof. by destruct c. Qed.

Create HintDb opens.
#[local] Hint Resolve opens_pure opens_file : opens.

(** The paths the loader may open: a file of the directory with a plain name,
    or one of the three artifact files in a subdirectory with a plain name. *)
Definition artifact_files : list string := ["ccm.manifest.json"; "ccm.symbols.json"; "ccm.bdd.bin"].

Definition confined (dir path : string) : Prop :=
  ∃ name, is_plain_filename name ∧
    (path = join dir name ∨ ∃ file, file ∈ artifact_files ∧ path = join (join dir name) file).

Section Confinement.
Context (fs : file_system).
Context (sha256 : list ascii → list ascii).
Context (to_vec : PreImageManifest → result ParseError (list ascii)).
Context (top_to_vec : TopLevelPreImage → result ParseError (list ascii)).
Context (pm_to_vec : PartitionManifestPreImage → result ParseError (list ascii)).
Context (parse_manifest : list ascii → result ParseError Manifest).
Context (parse_symbols : list ascii → result ParseError Symbols).
Context (parse_partition_manifest : list ascii → result ParseError PartitionManifest).

Lemma load_partition_opens dir name top :
  is_plain_filename name →
  opens (confined dir)
    (load_partition fs sha256 to_vec parse_manifest parse_symbols (join dir name) top).
Proof.
  intros Hn. unfold load_partition, load_ccm_from_dir.
  repeat (apply opens_bind; [|intros ? ? ? _]); auto with opens;
    apply opens_file; exists name; (split; [done|]); right; eexists; (split; [|reflexivity]);
    unfold artifact_files; set_solver.
Qed.

Lemma load_partitions_opens dir top names :
  Forall is_plain_filename names →
  opens (confined dir)
    (load_partitions fs sha256 to_vec parse_manifest parse_symbols dir top names).
Proof.
  induction 1 as [|name names Hn _ IH]; cbn; [auto with opens|].
  apply opens_bind; [by apply load_partition_opens|]. intros ? ? ? _.
  apply opens_bind; [done|]. auto with opens.
Qed.

(** The loader stays inside the model directory.  Whatever the manifests
    say, every file the loader opens, in runs that fail too, is a file of the
    directory or of a direct subdirectory, under a name without separators and
    other than [.] and [..]. *)
Theorem load_multi_part_confined dir :
  Forall (confined dir)
    (load_multi_part fs sha256 to_vec top_to_vec pm_to_vec parse_manifest parse_symbols
       parse_partition_manifest dir []).2.
Proof.
  assert (H : opens (confined dir) (load_multi_part fs sha256 to_vec top_to_vec pm_to_vec
    parse_manifest parse_symbols parse_partition_manifest dir)); [|by apply (H [])].
  unfold load_multi_part.
  apply opens_bind; [apply opens_file; exists "ccm.manifest.json"; by vm_compute; auto|intros ? ? ? _].
  do 4 (apply opens_bind; [auto with opens|intros ? ? ? _]).
  apply opens_bind; [auto with opens|]. intros ? ? ? Hpm%reject_pure. apply negb_false_iff in Hpm.
  apply opens_bind; [apply opens_file; eexists; split; [by apply Is_true_true_2 in Hpm|by left]|intros ? ? ? _].
  do 4 (apply opens_bind; [auto with opens|intros ? ? ? _]).
  apply opens_bind; [auto with opens|]. intros ? ? ? Hnames%reject_pure.
  apply negb_false_iff, Is_true_true_2, forallb_True in Hnames.
  case_match eqn:E.
  assert (Hn : Forall is_plain_filename l ∧ ∀ b, o = Some b → is_plain_filename b).
  { destruct (pm_has_bridge _); simplify_eq; split; try done; [by apply Forall_take|].
    intros b Hb. exact (Forall_lookup_1 _ _ _ _ Hnames Hb). }
  destruct Hn as [Hn Hb].
  apply opens_bind; [by apply load_partitions_opens|intros ? ? ? _].
  apply opens_bind; [|intros ? ? ? _].
  { destruct o; [|auto with opens]. apply opens_bind; [by apply load_partition_opens, Hb|auto with opens]. }
  repeat (apply opens_bind; [auto with opens|intros ? ? ? _]). auto with opens.
Qed.
End Confinement.

(** ** What a loaded model satisfies *)

(** A partition whose table is canonical for the variables its symbols name. *)
Record partition_ok (part : PartitionCcm) : Prop := {
  po_table : canonical_table (bp_var_count (pt_bdd part)) (bp_nodes (pt_bdd part));
  po_vars : bp_var_count (pt_bdd part) = N.of_nat (length (variable_order (pt_symbols part)));
  po_names : NoDup (variable_order (pt_symbols part));
  po_root : (1 ≤ length (bp_roots (pt_bdd part)))%nat;
}.

Definition partitions_of (p : MultiPartCcm) : list PartitionCcm :=
  mp_clusters p ++ option_list (mp_bridge p).

Lemma io_bind_Ok {A B} (m : io A) (k : A → io B) log b log' :
  (m ≫= k) log = (Ok b, log') → ∃ a log1, m log = (Ok a, log1) ∧ k a log1 = (Ok b, log').
Proof. unfold mbind, io_bind. destruct (m log) as [[a|e] log1]; [eauto|done]. Qed.

Lemma pure_io_Ok {A} (r : result ParseError A) log a log' :
  pure_io r log = (Ok a, log') → r = Ok a ∧ log' = log.
Proof. unfold pure_io. naive_solver. Qed.

Ltac inv_io :=
  repeat match goal with
  | H : (_ ≫= _) _ = (Ok _, _) |- _ => apply io_bind_Ok in H as (? & ? & ? & H); cbn beta in H
  | H : pure_io _ _ = (Ok _, _) |- _ => apply pure_io_Ok in H as [H ->]
  | H : reject_if _ _ = Ok _ |- _ => apply reject_if_Ok in H
  | H : Ok _ = Ok _ |- _ => injection H as H; subst
  end.

Lemma decode_hex32_encode s bs : decode_hex32 s = Some bs → encode_hex32 bs = s.
Proof. unfold decode_hex32. case_decide; [|done]. intros H'. by apply encode_decode in H' as [? _]. Qed.

Lemma ok_or_Ok {E A} (o : option A) (e : E) a : ok_or o e = Ok a → o = Some a.
Proof. destruct o; cbn; congruence. Qed.

Section Sound.
Context (fs : file_system).
Context (sha256 : list ascii → list ascii).
Context (to_vec : PreImageManifest → result ParseError (list ascii)).
Context (top_to_vec : TopLevelPreImage → result ParseError (list ascii)).
Context (pm_to_vec : PartitionManifestPreImage → result ParseError (list ascii)).
Context (parse_manifest : list ascii → result ParseError Manifest).
Context (parse_symbols : list ascii → result ParseError Symbols).
Context (parse_partition_manifest : list ascii → result ParseError PartitionManifest).

Lemma load_partition_ok sub top log part log' :
  load_partition fs sha256 to_vec parse_manifest parse_symbols sub top log = (Ok part, log') →
  partition_ok part.
Proof.
  unfold load_partition, load_ccm_from_dir. intros H. inv_io.
  match goal with H : load_ccm _ _ _ _ _ _ _ = Ok _ |- _ => apply load_ccm_checks in H as [Hs Hb] end.
  apply symbols_spec in Hs as (Hd & Hl & _). apply parse_bdd_bin_spec in Hb as (Hv & _ & _ & Hr & Hct).
  split; cbn; [by rewrite Hv|by rewrite Hv|done|done].
Qed.

Lemma load_partitions_ok dir top names log parts log' :
  load_partitions fs sha256 to_vec parse_manifest parse_symbols dir top names log = (Ok parts, log') →
  Forall partition_ok parts ∧ length parts = length names.
Proof.
  revert log parts log'. induction names as [|name names IH]; intros log parts log' H; cbn in H.
  - inv_io. by split.
  - inv_io. match goal with H : load_partitions _ _ _ _ _ _ _ _ _ = _ |- _ => apply IH in H as [? ?] end.
    match goal with H : load_partition _ _ _ _ _ _ _ _ = _ |- _ => apply load_partition_ok in H end.
    split; [by constructor|cbn; lia].
Qed.

Lemma load_bridge_ok dir top bn log bridge log' :
  (match bn with
   | Some bname =>
       b ← load_partition fs sha256 to_vec parse_manifest parse_symbols (join dir bname) top;
       pure_io (Ok (Some b))
   | None => pure_io (Ok None)
   end) log = (Ok bridge, log') →
  Forall partition_ok (option_list bridge) ∧ length (option_list bridge) = length (option_list bn).
Proof.
  destruct bn as [bname|]; intros H; inv_io; cbn; [|done].
  match goal with H : load_partition _ _ _ _ _ _ _ _ = _ |- _ => apply load_partition_ok in H end.
  split; [by constructor|done].
Qed.

(** What a loaded model guarantees.  The loader accepts a directory only if
    the top-level manifest has the supported schema and a known algorithm, the
    digest of the manifest, the partition list and every partition's own digest
    is the one both manifests claim, there is one partition per listed name,
    and each partition's table is canonical for the distinct names of its
    symbol table; the roster is the top-level manifest's. *)
Theorem load_multi_part_sound dir log p log' :
  load_multi_part fs sha256 to_vec top_to_vec pm_to_vec parse_manifest parse_symbols
    parse_partition_manifest dir log = (Ok p, log') →
  ∃ top pm,
    mf_schema_version top = 2 ∧ mf_algorithm top ∈ RECOGNIZED_ALGORITHMS ∧
    compute_top_level_ccm_hash sha256 top_to_vec pm_to_vec top (pm_schema_version pm)
      (pm_partitions pm) (pm_has_bridge pm) (pt_ccm_hash <$> partitions_of p) =
      Ok (mp_top_level_ccm_hash p) ∧
    encode_hex32 (mp_top_level_ccm_hash p) = bytes_of (mf_ccm_hash top) ∧
    pm_top_level_ccm_hash pm = mf_ccm_hash top ∧
    mp_constraints p = mf_constraints top ∧
    length (pm_partitions pm) = length (partitions_of p) ∧
    Forall partition_ok (partitions_of p).
Proof.
  unfold load_multi_part. intros H. apply io_bind_Ok in H as (tb & log0 & Htb & H).
  apply io_bind_Ok in H as (top & log1 & Htop & H). inv_io.
  match type of H with (let '(_, _) := ?c in _) _ = _ => destruct c as [cn bn] eqn:Ec end.
  inv_io.
  repeat match goal with H : ok_or _ _ = Ok _ |- _ => apply ok_or_Ok in H end.
  repeat match goal with H : negb _ = false |- _ => apply negb_false_iff in H end.
  repeat match goal with H : bool_decide _ = true |- _ => apply bool_decide_eq_true in H end.
  match goal with H : parse_partition_manifest _ = Ok ?pm |- _ => exists top, pm end.
  match goal with H : load_partitions _ _ _ _ _ _ _ _ _ = _ |- _ =>
    apply load_partitions_ok in H as [Hcl Hlen] end.
  match goal with H : (match bn with Some _ => _ | None => _ end) _ = _ |- _ =>
    apply load_bridge_ok in H as [Hbr Hblen] end.
  repeat match goal with H : decode_hex32 _ = Some _ |- _ => apply decode_hex32_encode in H end.
  unfold partitions_of. cbn [mp_clusters mp_bridge mp_top_level_ccm_hash mp_constraints].
  rewrite fmap_app, length_app, Forall_app. split_and!; try done.
  - match goal with H : out_of_range _ _ _ = false |- _ =>
      apply orb_false_iff in H as [?%N.ltb_ge ?%N.ltb_ge] end.
    unfold CCM_MANIFEST_SCHEMA_MIN, CCM_MANIFEST_SCHEMA_MAX in *. lia.
  - by subst.
  - apply (inj bytes_of). congruence.
  - apply (f_equal (λ c, length c.1 + length (option_list c.2))%nat) in Ec. cbn in Ec.
    rewrite Hlen, Hblen, <-Ec. destruct (pm_has_bridge _); cbn; [|lia].
    match goal with H : bool_decide (pm_partitions ?pm = []) = false |- _ =>
      apply bool_decide_eq_false in H; destruct (pm_partitions pm) as [|n ns] eqn:En; [done|] end.
    rewrite length_take. destruct (lookup_lt_is_Some_2 (n :: ns) (length (n :: ns) - 1)) as [z ->];
      cbn; lia.
Qed.
End Sound.

(** A directory with one partition, to run the loader on. *)
Definition toy_top : Manifest :=
  {| mf_schema_version := 2; mf_ccm_hash := mf_ccm_hash toy_manifest;
     mf_bound_model_hash := mf_bound_model_hash toy_manifest;
     mf_algorithm := "robdd-handrolled-v1"; mf_algorithm_params := ∅; mf_var_count := 0;
     mf_node_count := 2; mf_construction_wall_time_us := 0; mf_emitted_at := EmptyString;
     mf_partition_manifest := Some "partition-manifest.json";
     mf_constraints := [mkRosterEntry "a == 'x'" "c0" 0] |}.

Definition toy_fs : file_system := λ path,
  Some (mkFile true 0
    (if decide (path = "d/ccm.manifest.json") then bytes_of "top"
     else if decide (path = "d/partition-0000/ccm.bdd.bin")
     then encode_canonical_to_bytes 0 (table_of []) TERMINAL_TRUE else [])).

Definition toy_load : result ParseError MultiPartCcm * list string :=
  load_multi_part toy_fs toy_sha (λ _, Ok zero_hash) (λ _, Ok zero_hash) (λ _, Ok [])
    (λ bs, Ok (if decide (bs = bytes_of "top") then toy_top else toy_manifest))
    (λ _, Ok toy_symbols)
    (λ _, Ok (mkPartitionManifest 2 ["partition-0000"] false (mf_ccm_hash toy_manifest))) "d" [].

Lemma load_multi_part_sound_witness :
  ∃ p, toy_load.1 = Ok p ∧ Forall partition_ok (partitions_of p) ∧ length (partitions_of p) = 1%nat.
Proof.
  assert (H : ∃ p log, toy_load = (Ok p, log) ∧ length (partitions_of p) = 1%nat).
  { eexists _, _. split; vm_compute; reflexivity. }
  destruct H as (p & log & H & Hl). exists p. split; [by rewrite H|]. split; [|exact Hl].
  destruct (load_multi_part_sound _ _ _ _ _ _ _ _ _ _ _ _ H) as
    (top & pm & _ & _ & _ & _ & _ & _ & _ & HF). exact HF.
Defined.
