(* ===== verification/MultiPartEmit.v ===== *)
(** * Multi-part emission

    Models [compiler/src/ccm_emitter/multi_part.rs]: the partitioner's plan is
    written out as one directory per cluster and one for the bridge, each with
    its three files, under a top-level manifest whose hash chains over theirs.

    The disk is the state: a map from paths to bytes, which keeps what was
    written when a later step fails.  Progress reporting, stage timings and the
    telemetry line are left out; the readings of the memory sampler, SHA-256
    and [serde_json] are parameters.  [MultiPartLoads.v] closes the loop:
    the solver loads the directory, and the loaded partitions together mean what
    the model says. *)
From S2P Require Import Prelude Tokens Ast Implication FacetCompare SelectionEval VarOrder Partitioner.
From S2P Require Import MultiPart Bdd BddLayout BddBytes CcmFormat Emitter Artifact.
Local Open Scope N_scope.

(** ** The disk *)

Notation disk := (gmap string (list ascii)).

Inductive write_error : Type :=
  | EmitFailed (e : emit_error)
  | PartitionPanic
  | CreateDirFailed (path : string)
  | WriteFailed (path : string).

(** A computation that writes files. *)
Definition writes (A : Type) : Type := disk → result write_error A * disk.

#[export] Instance writes_ret : MRet writes := λ A a d, (Ok a, d).
#[export] Instance writes_bind : MBind writes := λ A B k m d,
  match m d with
  | (Ok a, d) => k a d
  | (Err e, d) => (Err e, d)
  end.

Definition pure_w {A} (r : result emit_error A) : writes A := λ d, (map_err EmitFailed r, d).

(** ** Names *)

(** [{i}] and [{i:04}]: decimal digits, padded with zeros to four. *)
Fixpoint dec_digits (fuel : nat) (n : N) (acc : list ascii) : list ascii :=
  match fuel with
  | O => acc
  | S fuel =>
      let acc := byte (48 + n mod 10) :: acc in
      if n <? 10 then acc else dec_digits fuel (n / 10) acc
  end.

Definition decimal (n : N) : list ascii := dec_digits (S (N.to_nat (N.log2 n))) n [].

Definition pad4 (ds : list ascii) : list ascii := repeat "0"%char (4 - length ds) ++ ds.

Definition partition_dir (i : nat) : string :=
  "partition-" +:+ string_of (pad4 (decimal (N.of_nat i))).

Definition PARTITION_MANIFEST_FILENAME : string := "partition-manifest.json".
Definition BRIDGE_PARTITION_DIR : string := "partition-bridge".
Definition CCM_PARTITION_MANIFEST_SCHEMA_VERSION : N := 2.

Definition partition_names (n : nat) (has_bridge : bool) : list string :=
  (partition_dir <$> seq 0 n) ++ (if has_bridge then [BRIDGE_PARTITION_DIR] else []).

(** ** Data *)

Record EmitBudgetOutcome : Type := mkOutcome {
  memo_shrink_count : N;
  min_final_memo_cap : option N;
  cluster_size_too_large : bool;
  effective_cluster_size : option N;
}.

Definition default_outcome : EmitBudgetOutcome := mkOutcome 0 None false None.

Definition ADVISORY_TRIGGER_NUM : N := 85.
Definition ADVISORY_TRIGGER_DEN : N := 100.

Record PartitionDigest : Type := mkDigest {
  ccm_hash_raw : list ascii;
  pd_var_count : N;
  pd_node_count : N;
  pd_adaptation : MemoAdaptation;
  post_build_rss_kib : option N;
}.

Record TopLevelManifestOut : Type := mkTopOut {
  to_algorithm : string;
  to_algorithm_params : gmap string string;
  to_bound_model_hash : string;
  to_ccm_hash : string;
  to_constraints : list ConstraintRosterEntry;
  to_construction_wall_time_us : N;
  to_emitted_at : string;
  to_node_count : N;
  to_partition_manifest : string;
  to_schema_version : N;
  to_var_count : N;
}.

Record PartitionManifestOut : Type := mkPmOut {
  po_has_bridge : bool;
  po_partitions : list string;
  po_schema_version : N;
  po_top_level_ccm_hash : string;
}.

Definition saturating_add (limit a b : N) : N := N.min (a + b) limit.
Definition U64_MAX : N := 0xFFFFFFFFFFFFFFFF.

Definition fold_partition_outcome (o : EmitBudgetOutcome) (d : PartitionDigest)
    (trigger : option N) : EmitBudgetOutcome :=
  let a := pd_adaptation d in
  {| memo_shrink_count := saturating_add U32_MAX (memo_shrink_count o) (a_shrink_count a);
     min_final_memo_cap :=
       if 0 <? a_shrink_count a then
         Some (match min_final_memo_cap o with
               | Some prev => N.min prev (a_final_memo_cap a)
               | None => a_final_memo_cap a
               end)
       else min_final_memo_cap o;
     cluster_size_too_large :=
       match trigger, post_build_rss_kib d with
       | Some trigger, Some rss => (trigger <=? rss) || cluster_size_too_large o
       | _, _ => cluster_size_too_large o
       end;
     effective_cluster_size := effective_cluster_size o |}.

(** [model.constraints.iter().enumerate()..]. *)
Definition roster (model : ConditionModel) : list ConstraintRosterEntry :=
  imap (λ i c, mkRosterEntry c.2 c.1 (u32_cast (N.of_nat i))) (constraints model).

Section Emit.
Context (sha256 : list ascii → list ascii).
Context (to_vec : PreImageManifest → result ParseError (list ascii)).
Context (top_to_vec : TopLevelPreImage → result ParseError (list ascii)).
Context (pm_to_vec : PartitionManifestPreImage → result ParseError (list ascii)).
Context (manifest_to_vec : ManifestOut → list ascii).
Context (symbols_to_vec : Symbols → list ascii).
Context (top_out_to_vec : TopLevelManifestOut → list ascii).
Context (pm_out_to_vec : PartitionManifestOut → list ascii).
(** The operating system: which directories and files can be made, and the
    memory sampler, per partition. *)
Context (creatable writable : string → bool).
Context (samples : nat → nat → option N) (post_rss : nat → option N).

Definition create_dir_all (dir : string) : writes unit := λ d,
  if creatable dir then (Ok tt, d) else (Err (CreateDirFailed dir), d).

Definition write_file (dir name : string) (bytes : list ascii) : writes unit := λ d,
  let path := join dir name in
  if writable path then (Ok tt, <[path := bytes]> d) else (Err (WriteFailed path), d).

(** One partition: [idx] numbers it for the sampler. *)
Definition emit_partition_inner (model : ConditionModel) (sub_clauses : list ConditionExpr)
    (sub_dir : string) (h : VarOrderHeuristic) (c : Construction) (memo_cap budget : option N)
    (idx : nat) : writes PartitionDigest :=
  symbols ← pure_w (ok_or (compute_variable_order sub_clauses h) OrderPanic);
  built ← pure_w (build_bdd_bin_via_construction sub_clauses symbols c memo_cap budget (samples idx));
  let '(bdd_bin, adaptation) := built in
  let rss := match budget with Some _ => post_rss idx | None => None end in
  let symbols_json := serialize_symbols symbols_to_vec symbols in
  let var_count := u32_cast (N.of_nat (length symbols)) in
  node_count ← pure_w (ok_or (node_count bdd_bin) TruncatedHeader);
  manifest ← pure_w (serialize_per_partition_manifest sha256 to_vec manifest_to_vec
               (bound_model_hash model) var_count node_count symbols_json bdd_bin h c);
  let '(manifest_json, raw) := manifest in
  _ ← create_dir_all sub_dir;
  _ ← write_file sub_dir "ccm.bdd.bin" bdd_bin;
  _ ← write_file sub_dir "ccm.symbols.json" symbols_json;
  _ ← write_file sub_dir "ccm.manifest.json" manifest_json;
  mret (mkDigest raw var_count node_count adaptation rss).

(** [clause_indices.iter().map(|&i| all_clauses[i].clone())]. *)
Definition select_clauses (all_clauses : list ConditionExpr) (idx : list nat)
    : option (list ConditionExpr) := mapM (λ i, all_clauses !! i) idx.

Definition emit_selected (model : ConditionModel) (all_clauses : list ConditionExpr)
    (indices : list nat) (sub_dir : string) (h : VarOrderHeuristic) (c : Construction)
    (memo_cap budget : option N) (idx : nat) : writes PartitionDigest := λ d,
  match select_clauses all_clauses indices with
  | None => (Err PartitionPanic, d)
  | Some sub => emit_partition_inner model sub sub_dir h c memo_cap budget idx d
  end.

(** What the partition loop accumulates. *)
Record emit_acc : Type := mkAcc {
  ea_outcome : EmitBudgetOutcome;
  ea_hashes : list (list ascii);
  ea_var_count : N;
  ea_node_count : N;
  ea_symbols : list symbol;
}.

Definition add_digest (acc : emit_acc) (d : PartitionDigest) (trigger : option N)
    (variables : list symbol) : emit_acc :=
  {| ea_outcome := fold_partition_outcome (ea_outcome acc) d trigger;
     ea_hashes := ea_hashes acc ++ [ccm_hash_raw d];
     ea_var_count := saturating_add U64_MAX (ea_var_count acc) (pd_var_count d);
     ea_node_count := saturating_add U64_MAX (ea_node_count acc) (pd_node_count d);
     ea_symbols := ea_symbols acc ++ variables |}.

Fixpoint emit_clusters (model : ConditionModel) (parsed : list ConditionExpr) (dir : string)
    (h : VarOrderHeuristic) (c : Construction) (memo_cap budget trigger : option N) (idx : nat)
    (cs : list ClusterSpec) (acc : emit_acc) : writes emit_acc :=
  match cs with
  | [] => mret acc
  | cluster :: cs =>
      digest ← emit_selected model parsed (cl_clauses cluster) (join dir (partition_dir idx)) h c
                 memo_cap budget idx;
      emit_clusters model parsed dir h c memo_cap budget trigger (S idx) cs
        (add_digest acc digest trigger (cl_variables cluster))
  end.

(** The top-level files and their hash. *)
Definition top_level_files (model : ConditionModel) (h : VarOrderHeuristic) (c : Construction)
    (clusters : nat) (has_bridge : bool) (acc : emit_acc)
    : result emit_error (list ascii * list ascii * list ascii) :=
  let union_symbols := bt_symbols (list_to_set (ea_symbols acc)) in
  let top_symbols_json := serialize_symbols symbols_to_vec union_symbols in
  let names := partition_names clusters has_bridge in
  let var_count := u32_cast (ea_var_count acc) in
  top_canon ← map_err (λ _, JsonFailed) (top_to_vec
    {| tp_algorithm := algorithm_tag c; tp_algorithm_params := algorithm_params h c;
       tp_bound_model_hash := bound_model_hash model; tp_constraints := roster model;
       tp_node_count := ea_node_count acc; tp_partition_manifest := PARTITION_MANIFEST_FILENAME;
       tp_schema_version := CCM_SCHEMA_VERSION; tp_var_count := var_count |});
  pm_canon ← map_err (λ _, JsonFailed) (pm_to_vec
    {| pp_has_bridge := has_bridge; pp_partitions := names;
       pp_schema_version := CCM_PARTITION_MANIFEST_SCHEMA_VERSION |});
  let raw := sha256 (CCM_HASH_DOMAIN_TAG ++ top_canon ++ ["010"%char] ++ pm_canon ++ ["010"%char]
                     ++ concat (ea_hashes acc)) in
  let hash := string_of (encode_hex32 raw) in
  Ok (json_line (top_out_to_vec
        {| to_algorithm := algorithm_tag c; to_algorithm_params := algorithm_params h c;
           to_bound_model_hash := bound_model_hash model; to_ccm_hash := hash;
           to_constraints := roster model; to_construction_wall_time_us := 0;
           to_emitted_at := "1970-01-01T00:00:00Z"; to_node_count := ea_node_count acc;
           to_partition_manifest := PARTITION_MANIFEST_FILENAME;
           to_schema_version := CCM_SCHEMA_VERSION; to_var_count := var_count |}),
      top_symbols_json,
      json_line (pm_out_to_vec
        {| po_has_bridge := has_bridge; po_partitions := names;
           po_schema_version := CCM_PARTITION_MANIFEST_SCHEMA_VERSION;
           po_top_level_ccm_hash := hash |})).

Definition emit_multi_part (model : ConditionModel) (dir : string) (h : VarOrderHeuristic)
    (c : Construction) (cluster_size : N) (memo_cap budget : option N) : writes EmitBudgetOutcome :=
  parsed ← pure_w (parse_condition_model model);
  plan ← (λ d, (ok_or (partition parsed cluster_size) PartitionPanic, d));
  _ ← create_dir_all dir;
  let trigger := (λ b, N.min (b * ADVISORY_TRIGGER_NUM) U64_MAX / ADVISORY_TRIGGER_DEN) <$> budget in
  acc ← emit_clusters model parsed dir h c memo_cap budget trigger 0 (clusters plan)
          (mkAcc default_outcome [] 0 0 []);
  let n := length (clusters plan) in
  acc ← match bridge plan with
        | None => mret acc
        | Some b =>
            digest ← emit_selected model parsed (br_clauses b) (join dir BRIDGE_PARTITION_DIR) h c
                       memo_cap budget n;
            mret (add_digest acc digest trigger (br_variables b))
        end;
  files ← pure_w (top_level_files model h c n (if bridge plan then true else false) acc);
  let '(top_manifest, top_symbols, pm) := files in
  _ ← write_file dir "ccm.manifest.json" top_manifest;
  _ ← write_file dir "ccm.symbols.json" top_symbols;
  _ ← write_file dir PARTITION_MANIFEST_FILENAME pm;
  mret (ea_outcome acc).
End Emit.
