(* ===== verification/Session.v ===== *)
(** * The configuration session

    Models [solver/src/partition_session.rs], [solver/src/session.rs] and
    [solver/src/resolve.rs]: a session holds one backend per partition of the
    loaded model and a shared undo stack; [apply] stages a selection on every
    partition that owns its symbol and commits all or none, [retract] pops one
    undo entry, [valid_options] intersects what the partitions allow.

    The operations are generic in the backend, and proved against the contract
    of [Backend.v]: an abstract session with a Boolean function per partition is
    refined by the concrete one. *)
From S2P Require Import Prelude BddBytes CcmFormat Backend MultiPart.
Local Open Scope N_scope.

(** ** Data *)

Inductive session_error : Type :=
  | BackendFailed (e : BackendError)
  | UnknownFacet (facet : string)
  | UnknownOption (facet value : string)
  | Conflict (facet value : string)
  | SessionInvariant (msg : string)
  | IndexPanic.

Definition BRIDGE_PARTITION_INDEX : N := 0xFFFFFFFF.

Record PartitionFormulaHandle : Type := mkPartitionHandle {
  ph_partition_index : N;
  ph_handle : FormulaHandle;
}.

Record UndoEntry : Type := mkUndo { prior : PartitionFormulaHandle }.

Record StagedApply : Type := mkStaged {
  sa_prior : PartitionFormulaHandle;
  sa_new_handle : FormulaHandle;
  sa_is_false : bool;
}.

Record CommittedSelection : Type := mkCommitted {
  compound : string;
  undo_entries : nat;
}.

Record ValidOptions : Type := mkValidOptions {
  count : nat;
  options : list string;
}.

Record ResolveResult : Type := mkResolve {
  rr_satisfiable : bool;
  resolved_output : gmap string string;
  resolve_hash : list ascii;
}.

(** [s.strip_prefix(p)]. *)
Fixpoint strip_bytes (p s : list ascii) : option (list ascii) :=
  match p, s with
  | [], s => Some s
  | a :: p, b :: s => if Ascii.eqb a b then strip_bytes p s else None
  | _ :: _, [] => None
  end.

Definition strip_prefix (p s : string) : option string :=
  string_of <$> strip_bytes (bytes_of p) (bytes_of s).

(** [s.rsplit_once('.')]: the parts around the last dot. *)
Fixpoint rsplit_dot (s : list ascii) : option (list ascii * list ascii) :=
  match s with
  | [] => None
  | c :: s =>
      match rsplit_dot s with
      | Some (l, r) => Some (c :: l, r)
      | None => if Ascii.eqb c "."%char then Some ([], s) else None
      end
  end.

Definition rsplit_once (s : string) : option (string * string) :=
  prod_map string_of string_of <$> rsplit_dot (bytes_of s).

Section Operations.
Context {B : Type} `{SolverBackend B}.

Record PartitionSession : Type := mkPart {
  partition_index : N;
  backend : B;
  current : FormulaHandle;
  part_order : list string;
}.

Record Session : Type := mkSession {
  ccm : Ccm;
  parts : list PartitionSession;
  undo : list UndoEntry;
  committed : list CommittedSelection;
}.

(** ** [partition_session.rs] *)

Definition from_partition (index : N) (part : PartitionCcm) : result session_error PartitionSession :=
  let hints := mkHints (bp_node_count (pt_bdd part)) None in
  b ← map_err BackendFailed (new_session (variable_order (pt_symbols part)) hints);
  root ← ok_or (bp_roots (pt_bdd part) !! 0%nat) IndexPanic;
  let '(r, b) := deserialize_bdd b (bp_var_count (pt_bdd part)) (bp_nodes (pt_bdd part)) root in
  h ← map_err BackendFailed r;
  Ok (mkPart index b h (variable_order (pt_symbols part))).

Definition empty_constant_true : result session_error PartitionSession :=
  b ← map_err BackendFailed (new_session [] default_hints);
  let '(h, b) := mk_const b true in
  Ok (mkPart 0 b h []).

(** [.iter().position(|s| s == compound).map(|i| i as u32)]. *)
Definition var_for_symbol (p : PartitionSession) (compound : string) : option N :=
  (λ '(i, _), N.of_nat i mod 4294967296) <$> list_find (λ s, s = compound) (part_order p).

(** The loop over the variable order from index [i]. *)
Fixpoint collect_options (b : B) (h : FormulaHandle) (prefix : string) (i : nat)
    (order : list string) : result BackendError (bool * list string) :=
  match order with
  | [] => Ok (false, [])
  | sym :: order =>
      match strip_prefix prefix sym with
      | None => collect_options b h prefix (S i) order
      | Some suffix =>
          sat ← is_var_sat_under b h (N.of_nat i mod 4294967296);
          '(_, rest) ← collect_options b h prefix (S i) order;
          Ok (true, if sat : bool then suffix :: rest else rest)
      end
  end.

Definition valid_options_for (p : PartitionSession) (prefix : string)
    : result BackendError (option (list string)) :=
  '(saw_any, options) ← collect_options (backend p) (current p) prefix 0 (part_order p);
  Ok (if saw_any : bool then Some options else None).

Definition stage_apply (p : PartitionSession) (var_idx : N)
    : result BackendError StagedApply * PartitionSession :=
  let '(r, b) := apply_and (backend p) (current p) var_idx in
  let p' := mkPart (partition_index p) b (current p) (part_order p) in
  ((λ new_handle, mkStaged (mkPartitionHandle (partition_index p) (current p)) new_handle
                    (is_false b new_handle)) <$> r, p').

Definition commit_apply (p : PartitionSession) (staged : StagedApply) : PartitionSession :=
  mkPart (partition_index p) (backend p) (sa_new_handle staged) (part_order p).

Definition restore (p : PartitionSession) (h : PartitionFormulaHandle) : PartitionSession :=
  mkPart (partition_index p) (backend p) (ph_handle h) (part_order p).

(** ** [session.rs] *)

(** The cluster loop of [Session::new], from index [i]. *)
Fixpoint new_clusters (i : nat) (clusters : list PartitionCcm)
    : result session_error (list PartitionSession) :=
  match clusters with
  | [] => Ok []
  | c :: clusters =>
      p ← from_partition (N.of_nat i mod 4294967296) c;
      ps ← new_clusters (S i) clusters;
      Ok (p :: ps)
  end.

Definition new (c : Ccm) : result session_error Session :=
  ps ← match payload c with
       | Some m =>
           clusters ← new_clusters 0 (mp_clusters m);
           match mp_bridge m with
           | Some bridge => b ← from_partition BRIDGE_PARTITION_INDEX bridge; Ok (clusters ++ [b])
           | None => Ok clusters
           end
       | None => p ← empty_constant_true; Ok [p]
       end;
  Ok (mkSession c ps [] []).

(** [self.ccm.symbols().is_none() && self.ccm.multi_part().is_none()]. *)
Definition unsymbolled (s : Session) : bool :=
  match symbols (ccm s), payload (ccm s) with None, None => true | _, _ => false end.

Definition intersect_preserving_order (first next : list string) : list string :=
  filter (λ v, v ∈ next) first.

(** The partition loop of [valid_options]. *)
Fixpoint gather_options (prefix : string) (acc : option (list string)) (ps : list PartitionSession)
    : result session_error (option (list string)) :=
  match ps with
  | [] => Ok acc
  | p :: ps =>
      contrib ← map_err BackendFailed (valid_options_for p prefix);
      match contrib with
      | None => gather_options prefix acc ps
      | Some contrib =>
          gather_options prefix
            (Some (match acc with
                   | None => contrib
                   | Some prior => intersect_preserving_order prior contrib
                   end)) ps
      end
  end.

Definition valid_options (s : Session) (facet : string) : result session_error ValidOptions :=
  if unsymbolled s then Ok (mkValidOptions 0 [])
  else
    acc ← gather_options (facet +:+ ".") None (parts s);
    match acc with
    | None => Err (UnknownFacet facet)
    | Some options => Ok (mkValidOptions (length options) options)
    end.

(** The partitions that own the symbol: position, variable, whether the bridge. *)
Fixpoint find_touched (compound : string) (i : nat) (ps : list PartitionSession)
    : list (nat * N * bool) :=
  match ps with
  | [] => []
  | p :: ps =>
      match var_for_symbol p compound with
      | Some v => (i, v, partition_index p =? BRIDGE_PARTITION_INDEX)
                  :: find_touched compound (S i) ps
      | None => find_touched compound (S i) ps
      end
  end.

(** The staging loop: it stops at the first failure, with the backends it has
    touched so far. *)
Fixpoint stage_all (facet value : string) (touched : list (nat * N * bool))
    (ps : list PartitionSession) : result session_error (list StagedApply) * list PartitionSession :=
  match touched with
  | [] => (Ok [], ps)
  | (idx, v, _) :: touched =>
      match ps !! idx with
      | None => (Err IndexPanic, ps)
      | Some p =>
          let '(r, p) := stage_apply p v in
          let ps := <[idx := p]> ps in
          match r with
          | Err e => (Err (BackendFailed e), ps)
          | Ok s =>
              if sa_is_false s then (Err (Conflict facet value), ps)
              else
                let '(r, ps) := stage_all facet value touched ps in
                (cons s <$> r, ps)
          end
      end
  end.

(** The commit loop. *)
Fixpoint commit_all (touched : list (nat * N * bool)) (staged : list StagedApply)
    (ps : list PartitionSession) (u : list UndoEntry)
    : option (list PartitionSession * list UndoEntry) :=
  match touched, staged with
  | [], _ => Some (ps, u)
  | (idx, _, _) :: touched, s :: staged =>
      p ← ps !! idx;
      commit_all touched staged (<[idx := commit_apply p s]> ps) (u ++ [mkUndo (sa_prior s)])
  | _ :: _, [] => None
  end.

Definition cluster_owners (touched : list (nat * N * bool)) : nat :=
  length (List.filter (λ t, negb t.2) touched).

Definition apply (s : Session) (facet value : string) : result session_error unit * Session :=
  if unsymbolled s then (Ok tt, s)
  else
    let compound := facet +:+ "." +:+ value in
    let touched := find_touched compound 0 (parts s) in
    match touched with
    | [] => (Err (UnknownOption facet value), s)
    | _ =>
        if (1 <? cluster_owners touched)%nat then
          (Err (SessionInvariant
             "apply symbol lives in two cluster partitions; expected disjoint clusters"), s)
        else
          let '(r, ps) := stage_all facet value touched (parts s) in
          match r with
          | Err e => (Err e, mkSession (ccm s) ps (undo s) (committed s))
          | Ok staged =>
              match commit_all touched staged ps (undo s) with
              | None => (Err IndexPanic, mkSession (ccm s) ps (undo s) (committed s))
              | Some (ps, u) =>
                  (Ok tt, mkSession (ccm s) ps u
                            (committed s ++ [mkCommitted compound (length touched)]))
              end
          end
    end.

(** The committed-selection bookkeeping of [retract]. *)
Definition retract_committed (cs : list CommittedSelection) : list CommittedSelection :=
  match last cs with
  | None => cs
  | Some top =>
      let rest := take (length cs - 1) cs in
      let n := (undo_entries top - 1)%nat in
      if (n =? 0)%nat then rest else rest ++ [mkCommitted (compound top) n]
  end.

Definition retract (s : Session) (facet : string) : result session_error unit * Session :=
  match last (undo s) with
  | None => (Ok tt, s)
  | Some entry =>
      let u := take (length (undo s) - 1) (undo s) in
      match list_find (λ p, partition_index p = ph_partition_index (prior entry)) (parts s) with
      | None =>
          (Err (SessionInvariant "retract: undo entry references unknown partition_index"),
           mkSession (ccm s) (parts s) u (committed s))
      | Some (i, p) =>
          (Ok tt, mkSession (ccm s) (<[i := restore p (prior entry)]> (parts s)) u
                    (retract_committed (committed s)))
      end
  end.

(** [u32::to_be_bytes]. *)
Definition to_be_bytes (n : N) : list ascii := rev (to_le_bytes n).

Definition undo_contribution (u : list UndoEntry) (index : N) : N :=
  N.of_nat (length (List.filter (λ e, ph_partition_index (prior e) =? index) u)) mod 4294967296.

Section Hashing.
(** [sha2] and [serde_json]. *)
Context (sha256 : list ascii → list ascii).
Context (output_to_vec : gmap string string → list ascii).

Definition state_hash (s : Session) : list ascii :=
  if bool_decide (ccm_hash (ccm s) = zero_hash) && bool_decide (bound_model_hash (ccm s) = zero_hash)
  then zero_hash
  else
    sha256 (bytes_of "configflux.session-state.v2" ++ ["010"%char] ++ ccm_hash (ccm s) ++
            bound_model_hash (ccm s) ++
            flat_map (λ p, to_be_bytes (partition_index p) ++
                           to_be_bytes (undo_contribution (undo s) (partition_index p))) (parts s)).

(** ** [resolve.rs] *)

Definition compute_resolve_hash (s : Session) (out : gmap string string) : list ascii :=
  sha256 (bytes_of "configflux.resolve.v1" ++ ["010"%char] ++ ccm_hash (ccm s) ++
          bound_model_hash (ccm s) ++ output_to_vec out).

(** The two loops: the symbols of the partitions, in order. *)
Fixpoint resolve_symbols (s : Session) (syms : list string) (seen : gset string)
    (out : gmap string string) : result session_error (gmap string string) :=
  match syms with
  | [] => Ok out
  | sym :: syms =>
      match rsplit_once sym with
      | None => resolve_symbols s syms seen out
      | Some (facet, _) =>
          if decide (facet ∈ seen) then resolve_symbols s syms seen out
          else
            vo ← valid_options s facet;
            resolve_symbols s syms ({[facet]} ∪ seen)
              (match options vo with
               | choice :: _ => <[facet := choice]> out
               | [] => out
               end)
      end
  end.

Definition resolve (s : Session) : result session_error ResolveResult :=
  if unsymbolled s then Ok (mkResolve true ∅ (compute_resolve_hash s ∅))
  else
    let satisfiable := negb (existsb (λ p, is_false (backend p) (current p)) (parts s)) in
    out ← (if satisfiable then resolve_symbols s (flat_map part_order (parts s)) ∅ ∅ else Ok ∅);
    Ok (mkResolve satisfiable out (compute_resolve_hash s out)).
End Hashing.
End Operations.
#[global] Arguments PartitionSession B : clear implicits.
#[global] Arguments Session B : clear implicits.

(** ** The abstract session

    A partition is its index, its names and the Boolean function of the
    selections made so far; the undo stack holds the functions to go back to. *)

Record apart : Type := mkApart {
  a_index : N;
  a_order : list string;
  a_fun : bfun;
}.

Record asession : Type := mkAsession {
  a_parts : list apart;
  a_undo : list (N * bfun);
}.

(** The variable of a symbol. *)
Definition a_var (p : apart) (compound : string) : option N :=
  (λ '(i, _), N.of_nat i) <$> list_find (λ s, s = compound) (a_order p).

(** Selecting a symbol in a partition that owns it. *)
Definition a_select (compound : string) (p : apart) : apart :=
  match a_var p compound with
  | Some v => mkApart (a_index p) (a_order p) (λ rho, a_fun p rho && rho v)
  | None => p
  end.

Definition a_owners (a : asession) (compound : string) : list apart :=
  List.filter (λ p, bool_decide (is_Some (a_var p compound))) (a_parts a).

Definition a_apply (a : asession) (compound : string) : asession :=
  mkAsession (a_select compound <$> a_parts a)
    (a_undo a ++ ((λ p, (a_index p, a_fun p)) <$> a_owners a compound)).

(** Going back one entry. *)
Definition a_restore (index : N) (f : bfun) (p : apart) : apart :=
  if decide (a_index p = index) then mkApart (a_index p) (a_order p) f else p.

Definition a_retract (a : asession) : asession :=
  match last (a_undo a) with
  | None => a
  | Some (index, f) =>
      mkAsession (a_restore index f <$> a_parts a) (take (length (a_undo a) - 1) (a_undo a))
  end.

(** ** The simulation relation *)

Section Refinement.
Context {B : Type} `{BackendContract B}.

Record rel_part (p : PartitionSession B) (ap : apart) : Prop := {
  rp_index : partition_index p = a_index ap;
  rp_order : part_order p = a_order ap;
  rp_current : denotes (backend p) (current p) (a_fun ap);
  rp_vars : N.of_nat (length (part_order p)) ≤ var_limit (backend p);
  rp_names : NoDup (part_order p);
  rp_u32 : N.of_nat (length (part_order p)) < 4294967296;
}.

(** An undo entry names a partition whose backend still knows the handle. *)
Definition rel_undo (ps : list (PartitionSession B)) (e : UndoEntry) (ae : N * bfun) : Prop :=
  ph_partition_index (prior e) = ae.1 ∧
  ∃ p, p ∈ ps ∧ partition_index p = ae.1 ∧ denotes (backend p) (ph_handle (prior e)) ae.2.

Record refines (s : Session B) (a : asession) : Prop := {
  rf_parts : Forall2 rel_part (parts s) (a_parts a);
  rf_undo : Forall2 (rel_undo (parts s)) (undo s) (a_undo a);
  rf_indices : NoDup (partition_index <$> parts s);
}.

(** A partition after backend calls that left its selection alone. *)
Record evolves (p p' : PartitionSession B) : Prop := {
  ev_index : partition_index p' = partition_index p;
  ev_order : part_order p' = part_order p;
  ev_current : current p' = current p;
  ev_keeps : ∀ h f, denotes (backend p) h f → denotes (backend p') h f;
  ev_vars : var_limit (backend p') = var_limit (backend p);
}.

#[local] Instance evolves_refl : Reflexive evolves.
Proof. by intros p. Qed.
#[local] Instance evolves_trans : Transitive evolves.
Proof. intros p q r [] []. split; [congruence..|auto|congruence]. Qed.

Lemma evolves_rel p p' ap : evolves p p' → rel_part p ap → rel_part p' ap.
Proof. intros [Hi Ho Hc Hk Hv] []. split; rewrite ?Hi, ?Ho, ?Hc, ?Hv; auto. Qed.

Lemma Forall2_refl_evolves ps : Forall2 evolves ps ps.
Proof. induction ps; by constructor. Qed.

Lemma Forall2_evolves_trans ps ps' ps'' :
  Forall2 evolves ps ps' → Forall2 evolves ps' ps'' → Forall2 evolves ps ps''.
Proof.
  intros Hpq. revert ps''. induction Hpq; intros ps'' Hqr; inversion Hqr; subst; constructor; [|auto].
  by etransitivity.
Qed.

(** What the undo stack needs of a step: indices stay and handles keep their
    meaning. *)
Definition keeps_part (p p' : PartitionSession B) : Prop :=
  partition_index p' = partition_index p ∧ ∀ h f, denotes (backend p) h f → denotes (backend p') h f.

Lemma rel_undo_keeps ps ps' e ae :
  Forall2 keeps_part ps ps' → rel_undo ps e ae → rel_undo ps' e ae.
Proof.
  intros HF [Hi (p & Hp & Hpi & Hd)]. split; [done|].
  apply list_elem_of_lookup in Hp as [i Hp]. 
  destruct (Forall2_lookup_l _ _ _ _ _ HF Hp) as (p' & Hp' & [Hk1 Hk2]).
  exists p'. split_and!; [by eapply list_elem_of_lookup_2|congruence|auto].
Qed.

Lemma keeps_indices ps ps' :
  Forall2 keeps_part ps ps' → partition_index <$> ps' = partition_index <$> ps.
Proof. induction 1 as [|p p' ps ps' [Hi _] _ IH]; cbn; [done|]. by rewrite Hi, IH. Qed.

(** *** Owners *)

Lemma var_for_symbol_rel p ap c : rel_part p ap → var_for_symbol p c = a_var ap c.
Proof.
  intros Hr. unfold var_for_symbol, a_var. rewrite <-(rp_order _ _ Hr).
  destruct (list_find _ _) as [[i x]|] eqn:E; cbn; [|done].
  apply list_find_Some in E as (Hi & _). apply lookup_lt_Some in Hi. pose proof (rp_u32 _ _ Hr).
  rewrite N.mod_small; [done|lia].
Qed.

Lemma a_var_bound ap c v : a_var ap c = Some v → v < N.of_nat (length (a_order ap)).
Proof.
  unfold a_var. destruct (list_find _ _) as [[i x]|] eqn:E; cbn; [|done]. intros [= <-].
  apply list_find_Some in E as (Hi & _). apply lookup_lt_Some in Hi. lia.
Qed.

Definition owns (c : string) (full : list apart) (t : nat * N * bool) (ap : apart) : Prop :=
  full !! t.1.1 = Some ap ∧ a_var ap c = Some t.1.2.

Lemma find_touched_owners c full ps aps k :
  Forall2 rel_part ps aps → (∀ j, full !! (k + j)%nat = aps !! j) →
  Forall2 (owns c full) (find_touched c k ps)
    (List.filter (λ p, bool_decide (is_Some (a_var p c))) aps).
Proof.
  intros HF. revert k. induction HF as [|p ap ps aps Hp HF IH]; intros k Hk; cbn; [constructor|].
  rewrite (var_for_symbol_rel _ _ _ Hp).
  assert (Hk' : ∀ j, full !! (S k + j)%nat = aps !! j).
  { intros j. specialize (Hk (S j)). cbn in Hk. by rewrite Nat.add_succ_r in Hk. }
  specialize (IH (S k) Hk'). destruct (a_var ap c) as [v|] eqn:E; cbn.
  - constructor; [|done]. split; cbn; [|done]. specialize (Hk 0%nat). by rewrite Nat.add_0_r in Hk.
  - done.
Qed.

Lemma find_touched_ge c k (ps : list (PartitionSession B)) t : t ∈ find_touched c k ps → (k ≤ t.1.1)%nat.
Proof.
  revert k. induction ps as [|p ps IH]; intros k Ht; cbn in Ht; [by apply not_elem_of_nil in Ht|].
  destruct (var_for_symbol p c); [apply elem_of_cons in Ht as [->|Ht]; [done|]|]; apply IH in Ht; lia.
Qed.

Lemma find_touched_NoDup c k (ps : list (PartitionSession B)) : NoDup ((λ t, t.1.1) <$> find_touched c k ps).
Proof.
  revert k. induction ps as [|p ps IH]; intros k; cbn; [constructor|].
  destruct (var_for_symbol p c); [|apply IH]. constructor; [|apply IH].
  intros (t & Ht & Hin)%list_elem_of_fmap. apply find_touched_ge in Hin. cbn in Ht. lia.
Qed.

Lemma find_touched_all c k ps aps j ap :
  Forall2 rel_part ps aps → aps !! j = Some ap → is_Some (a_var ap c) →
  (k + j)%nat ∈ (λ t, t.1.1) <$> find_touched c k ps.
Proof.
  intros HF. revert k j. induction HF as [|p ap' ps aps Hp HF IH]; intros k j Hj Hv; [done|]. cbn.
  rewrite (var_for_symbol_rel _ _ _ Hp). destruct j as [|j]; cbn in Hj.
  - injection Hj as ->. destruct Hv as [v ->]. cbn. rewrite Nat.add_0_r. by left.
  - specialize (IH (S k) j Hj Hv). rewrite Nat.add_succ_comm in IH.
    destruct (a_var ap' c); [|done]. cbn. by right.
Qed.

(** *** Staging *)

Lemma Forall2_insert_evolves ps i p p' :
  ps !! i = Some p → evolves p p' → Forall2 evolves ps (<[i := p']> ps).
Proof.
  intros Hi He. apply Forall2_same_length_lookup_2; [by rewrite length_insert|].
  intros j x y Hx Hy. destruct (decide (i = j)) as [<-|Hne].
  - rewrite list_lookup_insert_eq in Hy by (by eapply lookup_lt_Some). by simplify_eq.
  - rewrite list_lookup_insert_ne in Hy by done. by simplify_eq.
Qed.

Lemma Forall2_evolves_rel ps ps' aps :
  Forall2 evolves ps ps' → Forall2 rel_part ps aps → Forall2 rel_part ps' aps.
Proof.
  intros He Hr. revert ps' He. induction Hr as [|p ap ps aps Hp Hr IH]; intros ps' He;
    inversion He; subst; constructor; [by eapply evolves_rel|auto].
Qed.

(** A staged transition, in the partitions the staging left. *)
Definition staged_ok (ps : list (PartitionSession B)) (aps : list apart) (t : nat * N * bool)
    (st : StagedApply) : Prop :=
  ∃ p ap, ps !! t.1.1 = Some p ∧ aps !! t.1.1 = Some ap ∧
    sa_prior st = mkPartitionHandle (partition_index p) (current p) ∧
    denotes (backend p) (sa_new_handle st) (λ rho, a_fun ap rho && rho t.1.2) ∧
    satisfiable_fun (λ rho, a_fun ap rho && rho t.1.2).

Lemma staged_ok_evolves ps ps' aps t st :
  Forall2 evolves ps ps' → staged_ok ps aps t st → staged_ok ps' aps t st.
Proof.
  intros HF (p & ap & Hp & Hap & Hpr & Hd & Hs).
  destruct (Forall2_lookup_l _ _ _ _ _ HF Hp) as (p' & Hp' & He).
  exists p', ap. split_and!; [done|done| |by apply (ev_keeps _ _ He)|done].
  by rewrite (ev_index _ _ He), (ev_current _ _ He).
Qed.

(** The staging of one partition. *)
Lemma stage_apply_spec p ap v :
  rel_part p ap → v < N.of_nat (length (a_order ap)) →
  let '(r, p') := stage_apply p v in
  evolves p p' ∧
  match r with
  | Ok st => sa_prior st = mkPartitionHandle (partition_index p') (current p') ∧
      denotes (backend p') (sa_new_handle st) (λ rho, a_fun ap rho && rho v) ∧
      (sa_is_false st = true ↔ ∀ rho, a_fun ap rho && rho v = false)
  | Err e => e = OutOfCapacity
  end.
Proof.
  intros Hr Hv. unfold stage_apply.
  assert (Hv' : v < var_limit (backend p)).
  { pose proof (rp_vars _ _ Hr) as Hl. rewrite (rp_order _ _ Hr) in Hl. lia. }
  pose proof (apply_and_ok (backend p) (current p) (a_fun ap) v (rp_current _ _ Hr) Hv') as Ha.
  destruct (apply_and _ _ _) as [r b]. destruct Ha as (Hlim & Hk & Hres).
  split; [by split|]. destruct r as [h|e]; cbn; [|done]. split_and!; [done|done|].
  exact (is_false_ok b h _ Hres).
Qed.

Definition stage_outcome (facet value : string) (ps' : list (PartitionSession B)) (aps : list apart)
    (touched : list (nat * N * bool)) (r : result session_error (list StagedApply)) : Prop :=
  match r with
  | Ok staged => Forall2 (staged_ok ps' aps) touched staged
  | Err (Conflict f v) => f = facet ∧ v = value ∧
      ∃ t ap, t ∈ touched ∧ aps !! t.1.1 = Some ap ∧ ∀ rho, a_fun ap rho && rho t.1.2 = false
  | Err (BackendFailed e) => e = OutOfCapacity
  | Err _ => False
  end.

Lemma stage_all_spec facet value c full touched owners :
  Forall2 (owns c full) touched owners →
  ∀ ps, Forall2 rel_part ps full →
  let '(r, ps') := stage_all facet value touched ps in
  Forall2 evolves ps ps' ∧ stage_outcome facet value ps' full touched r.
Proof.
  induction 1 as [|[[i v] b] ap touched owners [Hi Hv] _ IH]; intros ps HF.
  { cbn. split; [by apply Forall2_refl_evolves|constructor]. }
  cbn in Hi, Hv. destruct (Forall2_lookup_r _ _ _ _ _ HF Hi) as (p & Hp & Hr). cbn [stage_all].
  rewrite Hp. pose proof (stage_apply_spec p ap v Hr (a_var_bound _ _ _ Hv)) as Hs.
  destruct (stage_apply p v) as [r p']. destruct Hs as [He Hs].
  pose proof (Forall2_insert_evolves _ _ _ _ Hp He) as Hev. destruct r as [st|e]; [|done].
  destruct Hs as (Hpr & Hd & Hfalse). destruct (sa_is_false st).
  { split; [done|]. cbn. split_and!; [done..|]. exists (i, v, b), ap. cbn.
    split_and!; [by left|done|by apply Hfalse]. }
  assert (HF' : Forall2 rel_part (<[i := p']> ps) full) by (by eapply Forall2_evolves_rel).
  specialize (IH _ HF'). destruct (stage_all facet value touched _) as [r ps'].
  destruct IH as [Hev' Ho]. split; [by eapply Forall2_evolves_trans|].
  destruct r as [staged|e]; cbn in Ho |- *.
  - constructor; [|done]. eapply staged_ok_evolves; [exact Hev'|]. exists p', ap. cbn.
    split_and!; [apply list_lookup_insert_eq; by eapply lookup_lt_Some|done|done|done|].
    intros Hall. apply Hfalse in Hall. done.
  - destruct e; try done. destruct Ho as (? & ? & t & ap' & Ht & Ho). split_and!; [done..|].
    exists t, ap'. split; [by right|done].
Qed.

(** *** Committing *)

Definition committed_at (ps ps' : list (PartitionSession B)) (t : nat * N * bool) (st : StagedApply)
    : Prop :=
  ∃ p, ps !! t.1.1 = Some p ∧ ps' !! t.1.1 = Some (commit_apply p st).

Lemma commit_all_spec touched staged :
  Forall2 (λ _ _, True) touched staged → NoDup ((λ t, t.1.1) <$> touched) →
  ∀ (ps : list (PartitionSession B)) u, (∀ t, t ∈ touched → is_Some (ps !! t.1.1)) →
  ∃ ps', commit_all touched staged ps u = Some (ps', u ++ ((λ st, mkUndo (sa_prior st)) <$> staged)) ∧
    length ps' = length ps ∧
    (∀ j, j ∉ (λ t, t.1.1) <$> touched → ps' !! j = ps !! j) ∧
    Forall2 (committed_at ps ps') touched staged.
Proof.
  induction 1 as [|[[i v] b] st touched staged _ HF IH]; intros Hd ps u Hin.
  { exists ps. cbn. rewrite app_nil_r. split_and!; [done..|constructor]. }
  cbn in Hd. apply NoDup_cons in Hd as [Hni Hd].
  destruct (Hin (i, v, b)) as [p Hp]; [by left|]. cbn in Hp. cbn [commit_all]. rewrite Hp.
  pose proof (lookup_lt_Some _ _ _ Hp) as Hlt.
  destruct (IH Hd (<[i := commit_apply p st]> ps) (u ++ [mkUndo (sa_prior st)])) as
    (ps' & E & Hl & Hother & Hcom).
  { intros t Ht. apply lookup_lt_is_Some. rewrite length_insert. apply lookup_lt_is_Some, Hin. by right. }
  exists ps'. cbn. rewrite E, <-app_assoc. rewrite length_insert in Hl. split_and!; [done|done| |].
  - intros j [Hj1 Hj2]%not_elem_of_cons. rewrite (Hother j Hj2). by apply list_lookup_insert_ne.
  - constructor.
    + exists p. cbn. split; [done|]. rewrite (Hother i Hni). by apply list_lookup_insert_eq.
    + assert (Hne : ∀ t, t ∈ touched → t.1.1 ≠ i).
      { intros t Ht Et. apply Hni. rewrite <-Et. apply list_elem_of_fmap. eauto. }
      clear -Hcom Hne. induction Hcom as [|t st' touched staged (q & Hq1 & Hq2) _ IH]; constructor.
      * exists q. split; [|done]. rewrite list_lookup_insert_ne in Hq1; [done|].
        intros Et. apply (Hne t); [by left|done].
      * apply IH. intros t' Ht'. apply Hne. by right.
Qed.

(** *** [apply] *)

Lemma Forall2_evolves_keeps ps ps' : Forall2 evolves ps ps' → Forall2 keeps_part ps ps'.
Proof. intros HF. eapply Forall2_impl; [exact HF|]. intros p p' []. by split. Qed.

Lemma refines_keeps s s' a :
  refines s a → Forall2 evolves (parts s) (parts s') → undo s' = undo s → refines s' a.
Proof.
  intros [Hp Hu Hi] He Eu. pose proof (Forall2_evolves_keeps _ _ He) as Hk. split.
  - by eapply Forall2_evolves_rel.
  - rewrite Eu. eapply Forall2_impl; [exact Hu|]. intros e ae. by apply rel_undo_keeps.
  - by rewrite (keeps_indices _ _ Hk).
Qed.

Lemma evolves_currents ps ps' : Forall2 evolves ps ps' → current <$> ps' = current <$> ps.
Proof. induction 1 as [|p p' ps ps' He _ IH]; cbn; [done|]. by rewrite IH, (ev_current _ _ He). Qed.

(** The partitions after the commit: the owners have the selection conjoined. *)
Lemma commit_rel c full ps ps' touched owners staged :
  Forall2 rel_part ps full → Forall2 (owns c full) touched owners →
  (∀ j ap, full !! j = Some ap → is_Some (a_var ap c) → j ∈ (λ t, t.1.1) <$> touched) →
  Forall2 (staged_ok ps full) touched staged → length ps' = length ps →
  (∀ j, j ∉ (λ t, t.1.1) <$> touched → ps' !! j = ps !! j) →
  Forall2 (committed_at ps ps') touched staged →
  Forall2 rel_part ps' (a_select c <$> full) ∧ Forall2 keeps_part ps ps'.
Proof.
  intros Hr Hown Hall Hst Hlen Hother Hcom.
  assert (Hpt : ∀ j p ap, ps !! j = Some p → full !! j = Some ap →
    ∃ p', ps' !! j = Some p' ∧ rel_part p' (a_select c ap) ∧ keeps_part p p').
  { intros j p ap Hp Hap. pose proof (Forall2_lookup_lr _ _ _ _ _ _ Hr Hp Hap) as Hrel.
    destruct (decide (j ∈ (λ t, t.1.1) <$> touched)) as [(t & -> & Ht)%list_elem_of_fmap|Hj].
    - apply list_elem_of_lookup in Ht as [k Hk].
      destruct (Forall2_lookup_l _ _ _ _ _ Hown Hk) as (ap' & _ & [Hap' Hv]).
      destruct (Forall2_lookup_l _ _ _ _ _ Hst Hk) as (st & Hstk & Hok).
      destruct (Forall2_lookup_lr _ _ _ _ _ _ Hcom Hk Hstk) as (q & Hq & Hq').
      destruct Hok as (q' & ap'' & Hq'' & Hap'' & _ & Hd & _). simplify_eq.
      exists (commit_apply p st). split; [done|]. split; [|by split].
      unfold a_select. rewrite Hv. destruct Hrel. by split.
    - exists p. rewrite (Hother j Hj). split; [done|]. split; [|by split].
      unfold a_select. destruct (a_var ap c) as [v|] eqn:E; [|done]. exfalso. apply Hj.
      eapply Hall; [done|]. rewrite E. eauto. }
  pose proof (Forall2_length _ _ _ Hr) as Hlf.
  split; apply Forall2_same_length_lookup_2; try (rewrite ?length_fmap; lia).
  - intros j p' ap' Hp' Hap'. apply list_lookup_fmap_Some in Hap' as (ap & -> & Hap).
    destruct (Forall2_lookup_r _ _ _ _ _ Hr Hap) as (p & Hp & _).
    destruct (Hpt j p ap Hp Hap) as (p'' & Hp'' & Hrel & _). by simplify_eq.
  - intros j p p' Hp Hp'. destruct (Forall2_lookup_l _ _ _ _ _ Hr Hp) as (ap & Hap & _).
    destruct (Hpt j p ap Hp Hap) as (p'' & Hp'' & _ & Hk). by simplify_eq.
Qed.

(** The undo entries of the commit. *)
Lemma commit_undo c full ps ps' touched owners staged :
  Forall2 rel_part ps full → Forall2 (owns c full) touched owners →
  Forall2 (staged_ok ps full) touched staged → Forall2 (committed_at ps ps') touched staged →
  Forall2 (rel_undo ps') ((λ st, mkUndo (sa_prior st)) <$> staged)
    ((λ p, (a_index p, a_fun p)) <$> owners).
Proof.
  intros Hr Hown. revert staged. induction Hown as [|t ap touched owners [Hap Hv] _ IH];
    intros staged Hst Hcom; inversion Hst as [|? st ? staged' Hok Hst']; subst;
    inversion Hcom as [|? ? ? ? Hc Hcom']; subst; cbn; constructor; [|by apply IH].
  destruct Hok as (p & ap' & Hp & Hap' & Hpr & _). destruct Hc as (q & Hq & Hq'). simplify_eq.
  pose proof (Forall2_lookup_lr _ _ _ _ _ _ Hr Hp Hap) as Hrel. split; cbn; rewrite Hpr; cbn.
  - apply Hrel.
  - exists (commit_apply p st). split_and!; [by eapply list_elem_of_lookup_2|apply Hrel|apply Hrel].
Qed.

(** A rejected selection leaves the session as it was. *)
Definition unchanged (s s' : Session B) (a : asession) : Prop :=
  refines s' a ∧ current <$> parts s' = current <$> parts s ∧ undo s' = undo s ∧
  committed s' = committed s.

Definition selectable (c : string) (p : apart) : Prop :=
  ∀ v, a_var p c = Some v → satisfiable_fun (λ rho, a_fun p rho && rho v).

Definition apply_outcome (s s' : Session B) (a : asession) (facet value : string)
    (r : result session_error unit) : Prop :=
  let c := facet +:+ "." +:+ value in
  match r with
  | Ok _ =>
      refines s' (a_apply a c) ∧ a_owners a c ≠ [] ∧ Forall (selectable c) (a_owners a c) ∧
      committed s' = committed s ++ [mkCommitted c (length (a_owners a c))]
  | Err e =>
      unchanged s s' a ∧
      match e with
      | UnknownOption f v => f = facet ∧ v = value ∧ a_owners a c = []
      | SessionInvariant _ => (1 < length (a_owners a c))%nat
      | Conflict f v => f = facet ∧ v = value ∧
          ∃ p v, p ∈ a_owners a c ∧ a_var p c = Some v ∧ ∀ rho, a_fun p rho && rho v = false
      | BackendFailed e => e = OutOfCapacity
      | _ => False
      end
  end.

Lemma owns_elem c full touched owners t ap :
  Forall2 (owns c full) touched owners → t ∈ touched → full !! t.1.1 = Some ap →
  ap ∈ owners ∧ a_var ap c = Some t.1.2.
Proof.
  intros HF Ht Hap. apply list_elem_of_lookup in Ht as [k Hk].
  destruct (Forall2_lookup_l _ _ _ _ _ HF Hk) as (ap' & Hk' & [Hap' Hv]). simplify_eq.
  split; [by eapply list_elem_of_lookup_2|done].
Qed.

Lemma staged_selectable c full ps touched owners staged :
  Forall2 (owns c full) touched owners → Forall2 (staged_ok ps full) touched staged →
  Forall (selectable c) owners.
Proof.
  intros Hown Hst. apply Forall_lookup. intros k ap Hk v Hv.
  destruct (Forall2_lookup_r _ _ _ _ _ Hown Hk) as (t & Ht & [Hap Hv']).
  destruct (Forall2_lookup_l _ _ _ _ _ Hst Ht) as (st & _ & (p & ap' & _ & Hap' & _ & _ & Hs)).
  by simplify_eq.
Qed.

Lemma unchanged_refl s a : refines s a → unchanged s s a.
Proof. intros Hr. by split_and!. Qed.

Lemma session_apply_spec s a facet value :
  refines s a → unsymbolled s = false →
  let '(r, s') := apply s facet value in apply_outcome s s' a facet value r.
Proof.
  intros Hr Hs. unfold apply, apply_outcome. rewrite Hs.
  set (c := facet +:+ "." +:+ value).
  assert (Hown : Forall2 (owns c (a_parts a)) (find_touched c 0 (parts s)) (a_owners a c)).
  { apply find_touched_owners; [apply Hr|done]. }
  pose proof (find_touched_NoDup c 0 (parts s)) as Hnd.
  assert (Hall : ∀ j ap, a_parts a !! j = Some ap → is_Some (a_var ap c) →
    j ∈ (λ t, t.1.1) <$> find_touched c 0 (parts s)).
  { intros j ap. apply (find_touched_all c 0), Hr. }
  pose proof (Forall2_length _ _ _ Hown) as Hlen.
  destruct (find_touched c 0 (parts s)) as [|t0 ts].
  { split; [by apply unchanged_refl|]. split_and!; [done..|]. by apply Forall2_nil_inv_l in Hown. }
  assert (Hne : length (t0 :: ts) ≠ 0%nat) by done. generalize dependent (t0 :: ts).
  intros touched Hown Hnd Hall Hlen Hne.
  destruct (Nat.ltb_spec 1 (cluster_owners touched)) as [Hc|Hc].
  { split; [by apply unchanged_refl|]. rewrite <-Hlen. unfold cluster_owners in Hc.
    pose proof (List.filter_length_le (λ t : nat * N * bool, negb t.2) touched). lia. }
  pose proof (stage_all_spec facet value c (a_parts a) touched (a_owners a c) Hown (parts s)
    (rf_parts _ _ Hr)) as Hst.
  destruct (stage_all facet value touched (parts s)) as [r ps]. destruct Hst as [Hev Hst].
  destruct r as [staged|e].
  2: { assert (Hun : unchanged s (mkSession (ccm s) ps (undo s) (committed s)) a).
       { split_and!; [by eapply refines_keeps|by apply evolves_currents|done|done]. }
       split; [done|]. destruct e; try done; cbn in Hst.
       destruct Hst as (-> & -> & t & ap & Ht & Hap & Hun'). split_and!; [done..|].
       destruct (owns_elem _ _ _ _ _ _ Hown Ht Hap) as [? ?]. exists ap, t.1.2. done. }
  cbn in Hst. pose proof (Forall2_evolves_rel _ _ _ Hev (rf_parts _ _ Hr)) as Hrel.
  destruct (commit_all_spec touched staged) with (ps := ps) (u := undo s) as
    (ps' & -> & Hl & Hother & Hcom).
  { eapply Forall2_impl; [exact Hst|done]. }
  { done. }
  { intros t Ht. apply list_elem_of_lookup in Ht as [k Hk].
    destruct (Forall2_lookup_l _ _ _ _ _ Hst Hk) as (st & _ & (p & ap & Hp & _)). eauto. }
  destruct (commit_rel c (a_parts a) ps ps' touched (a_owners a c) staged) as [Hrel' Hk]; try done.
  pose proof (commit_undo c (a_parts a) ps ps' touched (a_owners a c) staged Hrel Hown Hst Hcom) as Hu.
  split; [|split_and!; [|by eapply staged_selectable|by rewrite Hlen]].
  - split; cbn; [done| |].
    + apply Forall2_app; [|done]. eapply Forall2_impl; [apply Hr|]. intros e ae.
      intros Hue. eapply rel_undo_keeps; [exact Hk|]. eapply rel_undo_keeps; [|exact Hue].
      by apply Forall2_evolves_keeps.
    + rewrite (keeps_indices _ _ Hk), (keeps_indices _ _ (Forall2_evolves_keeps _ _ Hev)). apply Hr.
  - intros Hnil. rewrite Hnil in Hlen. done.
Qed.
End Refinement.
