(* ===== verification/SessionProps.v ===== *)
(** * What the configuration session guarantees

    The theorems about [Session.v]: applying and retracting refine the abstract
    session, retracting undoes applying, the valid options are the selections
    every partition can still make, and a new session stands for the model that
    was loaded. *)
From S2P Require Import Prelude Bdd BddBytes CcmFormat Backend CuddBackend MultiPart Session.
Local Open Scope N_scope.

(** ** Retracting *)

Section Retract.
Context {B : Type} `{BackendContract B}.

Lemma keeps_restore (ps : list (PartitionSession B)) i p h :
  ps !! i = Some p → Forall2 keeps_part ps (<[i := restore p h]> ps).
Proof.
  intros Hi. apply Forall2_same_length_lookup_2; [by rewrite length_insert|].
  intros j x y Hx Hy. destruct (decide (i = j)) as [<-|Hne].
  - rewrite list_lookup_insert_eq in Hy by (by eapply lookup_lt_Some). simplify_eq. by split.
  - rewrite list_lookup_insert_ne in Hy by done. simplify_eq. by split.
Qed.

Lemma same_index (ps : list (PartitionSession B)) i j p q :
  NoDup (partition_index <$> ps) → ps !! i = Some p → ps !! j = Some q →
  partition_index p = partition_index q → i = j.
Proof.
  intros Hnd Hi Hj E. eapply NoDup_lookup; [exact Hnd|..]; rewrite list_lookup_fmap.
  - by rewrite Hi.
  - by rewrite Hj, E.
Qed.

(** Restoring the one partition an entry names is restoring by index. *)
Lemma restore_rel ps aps i p h f :
  NoDup (partition_index <$> ps) → Forall2 rel_part ps aps → ps !! i = Some p →
  denotes (backend p) (ph_handle h) f →
  Forall2 rel_part (<[i := restore p h]> ps) (a_restore (partition_index p) f <$> aps).
Proof.
  intros Hnd HF Hi Hd. apply Forall2_same_length_lookup_2.
  { by rewrite length_insert, length_fmap, (Forall2_length _ _ _ HF). }
  intros j x y Hx Hy. apply list_lookup_fmap_Some in Hy as (ap & -> & Hap).
  destruct (Forall2_lookup_r _ _ _ _ _ HF Hap) as (q & Hq & Hrel).
  unfold a_restore. rewrite <-(rp_index _ _ Hrel). destruct (decide (i = j)) as [<-|Hne].
  - rewrite list_lookup_insert_eq in Hx by (by eapply lookup_lt_Some). simplify_eq.
    rewrite decide_True by done. destruct Hrel. by split.
  - rewrite list_lookup_insert_ne in Hx by done. simplify_eq.
    rewrite decide_False; [done|]. intros E. apply Hne. by eapply same_index.
Qed.

Lemma last_take_app {A} (l : list A) x : last l = Some x → l = take (length l - 1) l ++ [x].
Proof.
  intros (l' & ->)%last_Some. rewrite length_app. cbn. rewrite Nat.add_sub. by rewrite take_app_length.
Qed.

Lemma retract_spec s a facet :
  refines s a →
  (retract s facet).1 = Ok tt ∧ refines (retract s facet).2 (a_retract a).
Proof.
  intros Hr. unfold retract, a_retract. pose proof (rf_undo _ _ Hr) as Hu.
  destruct (last (undo s)) as [entry|] eqn:El.
  2: { apply last_None in El. rewrite El in Hu. apply Forall2_nil_inv_l in Hu. by rewrite Hu. }
  apply last_take_app in El. pose proof (Forall2_length _ _ _ Hu) as Hlen. rewrite <-Hlen.
  set (u := take (length (undo s) - 1) (undo s)) in *. rewrite El in Hu.
  apply Forall2_app_inv_l in Hu as (au & ae' & Hu & He & Eau).
  apply Forall2_cons_inv_l in He as ([index f] & ? & [Hi (p & Hp & Hpi & Hd)] & ->%Forall2_nil_inv_l & ->).
  rewrite Eau, last_snoc. cbn in Hi, Hpi, Hd.
  apply list_elem_of_lookup in Hp as [i Hp].
  assert (Hf : list_find (λ p, partition_index p = ph_partition_index (prior entry)) (parts s) = Some (i, p)).
  { apply list_find_Some. split_and!; [done|congruence|]. intros j q Hq Hj E. 
    assert (i = j); [|lia]. eapply same_index; [apply Hr|done..|congruence]. }
  rewrite Hf. cbn. split; [done|].
  assert (Eu : take (length (undo s) - 1) (au ++ [(index, f)]) = au).
  { rewrite take_app_le; [apply take_ge|]; pose proof (Forall2_length _ _ _ Hu) as Hl;
      unfold u in Hl; rewrite length_take in Hl; lia. }
  rewrite Eu. pose proof (keeps_restore (parts s) i p (prior entry) Hp) as Hk. split; cbn.
  - rewrite <-Hpi. apply restore_rel; [apply Hr|apply Hr|done|done].
  - eapply Forall2_impl; [exact Hu|]. intros e ae. by apply rel_undo_keeps.
  - rewrite (keeps_indices _ _ Hk). apply Hr.
Qed.
End Retract.

(** ** Retracting undoes applying *)

Section Inverse.
Context {B : Type} `{SolverBackend B}.

(** [p] is [p0], but for the backend's state and, where an entry can restore
    it, the selection. *)
Definition restorable (entries : list UndoEntry) (p0 p : PartitionSession B) : Prop :=
  partition_index p = partition_index p0 ∧ part_order p = part_order p0 ∧
  (current p = current p0 ∨
   mkUndo (mkPartitionHandle (partition_index p0) (current p0)) ∈ entries).

Definition names_part (ps0 : list (PartitionSession B)) (e : UndoEntry) : Prop :=
  ∃ p0, p0 ∈ ps0 ∧ prior e = mkPartitionHandle (partition_index p0) (current p0).

Lemma stage_all_shape facet value touched (ps0 : list (PartitionSession B)) :
  ∀ ps staged ps', Forall2 (restorable []) ps0 ps →
  stage_all facet value touched ps = (Ok staged, ps') →
  Forall2 (restorable []) ps0 ps' ∧
  Forall2 (λ t st, ∃ p0, ps0 !! t.1.1 = Some p0 ∧
    sa_prior st = mkPartitionHandle (partition_index p0) (current p0)) touched staged.
Proof.
  induction touched as [|[[i v] b] touched IH]; intros ps staged ps' HF; cbn; [intros [= <- <-]; done|].
  destruct (ps !! i) as [p|] eqn:Hp; [|done].
  destruct (Forall2_lookup_r _ _ _ _ _ HF Hp) as (p0 & Hp0 & (Hi & Ho & Hc)).
  unfold stage_apply. destruct (apply_and _ _ _) as [[h|e] b']; cbn; [|done].
  destruct (is_false b' h); [done|].
  set (p' := mkPart (partition_index p) b' (current p) (part_order p)).
  destruct (stage_all _ _ _ _) as [[st|] ps1] eqn:Es; cbn; intros [= <- <-].
  apply IH in Es as [HF' Hst].
  - split; [done|]. constructor; [|done]. exists p0. cbn. split; [done|].
    destruct Hc as [Hc|Hc]; [by rewrite Hi, Hc|by apply not_elem_of_nil in Hc].
  - rewrite <-(list_insert_id ps0 i p0 Hp0). by apply Forall2_insert.
Qed.

Lemma commit_all_shape touched staged (ps0 : list (PartitionSession B)) :
  Forall2 (λ t st, ∃ p0, ps0 !! t.1.1 = Some p0 ∧
    sa_prior st = mkPartitionHandle (partition_index p0) (current p0)) touched staged →
  ∀ ps es u ps' u', Forall2 (restorable es) ps0 ps →
  commit_all touched staged ps u = Some (ps', u') →
  ∃ es', u' = u ++ es' ∧ length es' = length touched ∧ Forall (names_part ps0) es' ∧
    Forall2 (restorable (es ++ es')) ps0 ps'.
Proof.
  induction 1 as [|[[i v] b] st touched staged (p0 & Hp0 & Hpr) _ IH]; intros ps es u ps' u' HF; cbn.
  { intros [= <- <-]. exists []. rewrite !app_nil_r. by split_and!. }
  cbn in Hp0. destruct (Forall2_lookup_l _ _ _ _ _ HF Hp0) as (p & Hp & (Hi & Ho & Hc)).
  rewrite Hp. cbn. set (e := mkUndo (sa_prior st)). intros Hcom.
  apply (IH _ (es ++ [e])) in Hcom as (es' & -> & Hl & Hn & HF').
  - exists (e :: es'). rewrite <-!app_assoc in *. split_and!; [done|cbn; lia| |done].
    constructor; [|done]. exists p0. split; [by eapply list_elem_of_lookup_2|done].
  - rewrite <-(list_insert_id ps0 i p0 Hp0). apply Forall2_insert.
    + eapply Forall2_impl; [exact HF|]. intros x y (? & ? & Hxy). split_and!; [done..|].
      destruct Hxy; [by left|right; set_solver].
    + split_and!; [done..|]. right. rewrite <-Hpr. set_solver.
Qed.

(** What a successful [apply] adds. *)
Lemma apply_shape s facet value s' :
  unsymbolled s = false → apply s facet value = (Ok tt, s') →
  ∃ es, undo s' = undo s ++ es ∧ es ≠ [] ∧ Forall (names_part (parts s)) es ∧
    Forall2 (restorable es) (parts s) (parts s') ∧ ccm s' = ccm s ∧
    committed s' = committed s ++ [mkCommitted (facet +:+ "." +:+ value) (length es)].
Proof.
  intros Hs. unfold apply. rewrite Hs. destruct (find_touched _ 0 _) as [|t ts]; [done|].
  destruct (1 <? cluster_owners _)%nat; [done|].
  destruct (stage_all _ _ _ _) as [[staged|e] ps] eqn:Es; [|done].
  apply (stage_all_shape _ _ _ (parts s)) in Es as [HF Hst].
  2: { clear. induction (parts s); constructor; [|done]. split_and!; try done. by left. }
  destruct (commit_all _ _ _ _) as [[ps' u]|] eqn:Ec; [|done]. intros [= <-].
  apply (commit_all_shape _ _ _ Hst _ [] _ _ _ HF) in Ec as (es & -> & Hl & Hn & HF').
  exists es. cbn in Hl |- *. split_and!; [done| |done|done|done|by rewrite Hl].
  intros ->. done.
Qed.

Fixpoint retracts (n : nat) (s : Session B) (facet : string) : Session B :=
  match n with O => s | S n => retracts n (retract s facet).2 facet end.

(** One step back. *)
Lemma retract_shape ps0 s u es e facet :
  NoDup (partition_index <$> ps0) → undo s = u ++ es ++ [e] →
  Forall (names_part ps0) (es ++ [e]) → Forall2 (restorable (es ++ [e])) ps0 (parts s) →
  let s' := (retract s facet).2 in
  undo s' = u ++ es ∧ Forall2 (restorable es) ps0 (parts s') ∧ ccm s' = ccm s ∧
  committed s' = retract_committed (committed s).
Proof.
  intros Hnd Hu Hn HF s'. apply Forall_app in Hn as [_ (p0 & Hp0 & Hpr)%Forall_singleton].
  apply list_elem_of_lookup in Hp0 as [i Hi0].
  destruct (Forall2_lookup_l _ _ _ _ _ HF Hi0) as (p & Hi & (Hpi & Hpo & _)).
  assert (Hidx : partition_index <$> parts s = partition_index <$> ps0).
  { clear -HF. induction HF as [|x y ? ? (E & _) _ IH]; cbn; [done|]. by rewrite IH, E. }
  assert (Hf : list_find (λ p, partition_index p = ph_partition_index (prior e)) (parts s) = Some (i, p)).
  { apply list_find_Some. split_and!; [done|by rewrite Hpr|]. intros j q Hq Hj E.
    assert (i = j); [|lia]. eapply same_index; [by rewrite Hidx|done..|]. rewrite Hpr in E. by cbn in *; congruence. }
  assert (Es' : s' = mkSession (ccm s) (<[i := restore p (prior e)]> (parts s)) (u ++ es)
    (retract_committed (committed s))).
  { unfold s', retract. rewrite Hu, app_assoc, last_snoc, Hf, length_app. cbn.
    by rewrite Nat.add_sub, take_app_length. }
  rewrite Es'. cbn. split_and!; [done| |done|done].
  apply Forall2_same_length_lookup_2; [by rewrite length_insert, (Forall2_length _ _ _ HF)|].
  intros j x y Hx Hy. destruct (decide (i = j)) as [<-|Hne].
  - rewrite list_lookup_insert_eq in Hy by (by eapply lookup_lt_Some). simplify_eq.
    split_and!; [done..|]. left. cbn. by rewrite Hpr.
  - rewrite list_lookup_insert_ne in Hy by done.
    destruct (Forall2_lookup_lr _ _ _ _ _ _ HF Hx Hy) as (? & ? & Hc). split_and!; [done..|].
    destruct Hc as [?|Hc]; [by left|]. apply elem_of_app in Hc as [?|Hc%list_elem_of_singleton]; [by right|].
    exfalso. apply Hne. rewrite <-Hc in Hpr. cbn in Hpr.
    eapply same_index; [exact Hnd|done..|]. by injection Hpr.
Qed.

Lemma retract_committed_step cs c n :
  retract_committed (cs ++ [mkCommitted c (S (S n))]) = cs ++ [mkCommitted c (S n)].
Proof. unfold retract_committed. rewrite last_snoc, length_app. cbn. by rewrite Nat.add_sub, take_app_length. Qed.

Lemma retract_committed_last cs c : retract_committed (cs ++ [mkCommitted c 1]) = cs.
Proof. unfold retract_committed. rewrite last_snoc, length_app. cbn. by rewrite Nat.add_sub, take_app_length. Qed.

Lemma retracts_shape ps0 u cs c facet es :
  NoDup (partition_index <$> ps0) →
  ∀ s, undo s = u ++ es → Forall (names_part ps0) es → Forall2 (restorable es) ps0 (parts s) →
  committed s = (if decide (es = []) then cs else cs ++ [mkCommitted c (length es)]) →
  let s' := retracts (length es) s facet in
  undo s' = u ∧ Forall2 (restorable []) ps0 (parts s') ∧ ccm s' = ccm s ∧ committed s' = cs.
Proof.
  intros Hnd. induction es as [|e es IH] using rev_ind; intros s Hu Hn HF Hc.
  { cbn. rewrite app_nil_r in Hu. by split_and!. }
  destruct (retract_shape ps0 s u es e facet Hnd Hu Hn HF) as (Hu' & HF' & Hm & Hc').
  rewrite length_app, Nat.add_comm. cbn [length Nat.add retracts].
  apply Forall_app in Hn as [Hn _]. rewrite <-Hm. apply IH; [done..|]. rewrite Hc', Hc.
  rewrite decide_False by (by destruct es). rewrite length_app, Nat.add_comm. cbn.
  destruct es as [|e' es]; [apply retract_committed_last|apply retract_committed_step].
Qed.

Lemma restorable_nil ps0 ps :
  Forall2 (restorable []) ps0 ps →
  current <$> ps = current <$> ps0 ∧ partition_index <$> ps = partition_index <$> ps0.
Proof.
  induction 1 as [|p0 p ? ? (E1 & _ & E2) _ [IH1 IH2]]; cbn; [done|]. rewrite E1, IH1, IH2.
  destruct E2 as [->|E2]; [done|by apply not_elem_of_nil in E2].
Qed.

Lemma state_hash_ext sha256 (s s' : Session B) :
  ccm s' = ccm s → undo s' = undo s → partition_index <$> parts s' = partition_index <$> parts s →
  state_hash sha256 s' = state_hash sha256 s.
Proof.
  intros Ec Eu Ei. unfold state_hash. rewrite Ec, Eu.
  assert (E : ∀ (g : N → list ascii) (ps : list (PartitionSession B)),
    flat_map (λ p, g (partition_index p)) ps = flat_map g (partition_index <$> ps)).
  { intros g ps. induction ps as [|p ps IH]; cbn; [done|]. by rewrite IH. }
  pose proof (E (λ i, to_be_bytes i ++ to_be_bytes (undo_contribution (undo s) i))) as Eg.
  cbn beta in Eg. by rewrite !Eg, Ei.
Qed.
End Inverse.

(** ** Valid options *)

(** The partition can still make the selection. *)
Definition a_allows (c : string) (p : apart) : Prop :=
  ∃ v, a_var p c = Some v ∧ satisfiable_fun (λ rho, a_fun p rho && rho v).

(** The partition has a symbol of the facet. *)
Definition a_has_facet (prefix : string) (p : apart) : Prop :=
  ∃ value, prefix +:+ value ∈ a_order p.

Lemma strip_bytes_spec p s v : strip_bytes p s = Some v ↔ s = p ++ v.
Proof.
  revert s. induction p as [|a p IH]; intros [|b s]; cbn; [naive_solver..|].
  destruct (Ascii.eqb_spec a b) as [->|Hne]; [rewrite IH|]; naive_solver.
Qed.

Lemma strip_prefix_spec p s v : strip_prefix p s = Some v ↔ s = p +:+ v.
Proof.
  unfold strip_prefix. rewrite fmap_Some. setoid_rewrite strip_bytes_spec. split.
  - intros (bs & E & ->). apply (inj bytes_of). rewrite bytes_of_app, E. by rewrite bytes_of_string_of.
  - intros ->. exists (bytes_of v). rewrite bytes_of_app, string_of_bytes_of. done.
Qed.

Lemma a_var_lookup ap c i : NoDup (a_order ap) → a_order ap !! i = Some c → a_var ap c = Some (N.of_nat i).
Proof.
  intros Hnd Hi. unfold a_var.
  assert (E : list_find (λ s, s = c) (a_order ap) = Some (i, c)).
  { apply list_find_Some. split_and!; [done..|]. intros j y Hy Hj ->.
    assert (i = j) by (by eapply NoDup_lookup). lia. }
  by rewrite E.
Qed.

Lemma a_var_Some ap c v : a_var ap c = Some v → a_order ap !! N.to_nat v = Some c.
Proof.
  unfold a_var. destruct (list_find _ _) as [[i x]|] eqn:E; cbn; [|done]. intros [= <-].
  apply list_find_Some in E as (Hi & -> & _). by rewrite Nat2N.id.
Qed.

Section Options.
Context {B : Type} `{BackendContract B}.

Lemma collect_options_spec (b : B) h f prefix :
  denotes b h f →
  ∀ order i, N.of_nat (i + length order) ≤ var_limit b → N.of_nat (i + length order) < 4294967296 →
  match collect_options b h prefix i order with
  | Ok (saw, opts) =>
      (saw = true ↔ ∃ value, prefix +:+ value ∈ order) ∧
      ∀ value, value ∈ opts ↔
        ∃ j, order !! j = Some (prefix +:+ value) ∧
          satisfiable_fun (λ rho, f rho && rho (N.of_nat (i + j)))
  | Err e => e = OutOfCapacity
  end.
Proof.
  intros Hd. induction order as [|sym order IH]; intros i Hl Hu; cbn [collect_options].
  { split; [split; [done|intros (? & Hin); by apply not_elem_of_nil in Hin]|].
    intros value. split; [intros Hin; by apply not_elem_of_nil in Hin|by intros (j & Hj & _)]. }
  cbn [length] in Hl, Hu. rewrite Nat.add_succ_r in Hl, Hu. specialize (IH (S i) Hl Hu).
  destruct (strip_prefix prefix sym) as [suffix|] eqn:Es.
  - apply strip_prefix_spec in Es as ->.
    rewrite N.mod_small by lia. pose proof (is_var_sat_under_ok b h f (N.of_nat i) Hd ltac:(lia)) as Hs.
    destruct (is_var_sat_under b h (N.of_nat i)) as [sat|e]; cbn; [|done].
    destruct (collect_options b h prefix (S i) order) as [[saw opts]|e]; cbn; [|done].
    destruct IH as [_ IH]. split; [split; [intros _; exists suffix; by left|done]|]. intros value.
    assert (Hcons : value ∈ (if sat then suffix :: opts else opts) ↔
      value = suffix ∧ sat = true ∨ value ∈ opts).
    { destruct sat; [rewrite elem_of_cons|]; naive_solver. }
    rewrite Hcons, IH, Hs. split.
    + intros [[-> Hsat]|(j & Hj & Hsat)]; [exists 0%nat; by rewrite Nat.add_0_r|].
      exists (S j). by rewrite Nat.add_succ_r.
    + intros ([|j] & Hj & Hsat); cbn in Hj.
      * left. rewrite Nat.add_0_r in Hsat. injection Hj as Hj.
        split; [|done]. apply (f_equal bytes_of) in Hj. rewrite !bytes_of_app in Hj.
        by apply (inj (app _)), (inj bytes_of) in Hj.
      * right. exists j. by rewrite Nat.add_succ_r in Hsat.
  - assert (Hno : ∀ value, sym ≠ prefix +:+ value).
    { intros value ->. rewrite (proj2 (strip_prefix_spec prefix _ value)) in Es; done. }
    destruct (collect_options b h prefix (S i) order) as [[saw opts]|e]; [|done].
    destruct IH as [IH1 IH2]. split.
    + rewrite IH1. setoid_rewrite elem_of_cons. naive_solver.
    + intros value. rewrite IH2. split.
      * intros (j & Hj & Hs). exists (S j). by rewrite Nat.add_succ_r.
      * intros ([|j] & Hj & Hs); cbn in Hj; [injection Hj as Hj; by apply Hno in Hj|].
        exists j. by rewrite Nat.add_succ_r in Hs.
Qed.

Lemma valid_options_for_spec p ap prefix :
  rel_part p ap →
  match valid_options_for p prefix with
  | Ok None => ¬ a_has_facet prefix ap
  | Ok (Some opts) => a_has_facet prefix ap ∧ ∀ value, value ∈ opts ↔ a_allows (prefix +:+ value) ap
  | Err e => e = OutOfCapacity
  end.
Proof.
  intros [_ Ho Hc Hv Hn Hu]. unfold valid_options_for.
  pose proof (collect_options_spec (backend p) (current p) (a_fun ap) prefix Hc (part_order p) 0 Hv Hu) as Hs.
  destruct (collect_options _ _ _ _ _) as [[saw opts]|e]; cbn; [|done]. destruct Hs as [Hs1 Hs2].
  rewrite Ho in *. destruct saw; [|intros Hf; by apply Hs1 in Hf]. split; [by apply Hs1|].
  intros value. rewrite Hs2. split.
  - intros (j & Hj & Hs). exists (N.of_nat j). split; [by apply a_var_lookup|done].
  - intros (v & Hv' & Hs). exists (N.to_nat v). split; [by apply a_var_Some|]. cbn [Nat.add]. by rewrite N2Nat.id.
Qed.

Lemma gather_options_spec prefix ps aps :
  Forall2 rel_part ps aps → ∀ acc,
  match gather_options prefix acc ps with
  | Ok None => acc = None ∧ Forall (λ p, ¬ a_has_facet prefix p) aps
  | Ok (Some opts) =>
      (is_Some acc ∨ Exists (a_has_facet prefix) aps) ∧
      ∀ value, value ∈ opts ↔
        (∀ l, acc = Some l → value ∈ l) ∧
        Forall (λ p, a_has_facet prefix p → a_allows (prefix +:+ value) p) aps
  | Err e => e = BackendFailed OutOfCapacity
  end.
Proof.
  induction 1 as [|p ap ps aps Hp _ IH]; intros acc; cbn.
  { destruct acc as [l|]; [|done]. split; [by left; eauto|]. intros value.
    split; [intros; split; [by intros ? [= <-]|constructor]|intros [Hl _]; by apply Hl]. }
  pose proof (valid_options_for_spec p ap prefix Hp) as Hs.
  destruct (valid_options_for p prefix) as [[contrib|]|e]; cbn; [| |by rewrite Hs].
  - destruct Hs as [Hf Hc]. match goal with |- context [gather_options prefix ?acc' ps] =>
      specialize (IH acc') end.
    destruct (gather_options _ _ ps) as [[opts|]|e]; [|by destruct IH as [? _]; destruct acc|done].
    destruct IH as [_ IH]. split; [by right; left|]. intros value. rewrite IH, Forall_cons, <-Hc.
    destruct acc as [l|]; [|naive_solver].
    assert (Hi : value ∈ intersect_preserving_order l contrib ↔ value ∈ l ∧ value ∈ contrib).
    { unfold intersect_preserving_order. rewrite list_elem_of_filter. naive_solver. }
    naive_solver.
  - specialize (IH acc). destruct (gather_options prefix acc ps) as [[opts|]|e]; [| |done].
    + destruct IH as [IH1 IH2]. split; [rewrite Exists_cons; naive_solver|]. intros value.
      rewrite IH2, Forall_cons. naive_solver.
    + rewrite Forall_cons. naive_solver.
Qed.

Lemma valid_options_lemma s a facet :
  refines s a → unsymbolled s = false →
  match valid_options s facet with
  | Ok vo => count vo = length (options vo) ∧ Exists (a_has_facet (facet +:+ ".")) (a_parts a) ∧
      ∀ value, value ∈ options vo ↔
        Forall (λ p, a_has_facet (facet +:+ ".") p → a_allows (facet +:+ "." +:+ value) p) (a_parts a)
  | Err e => e = UnknownFacet facet ∧ Forall (λ p, ¬ a_has_facet (facet +:+ ".") p) (a_parts a) ∨
      e = BackendFailed OutOfCapacity
  end.
Proof.
  intros Hr Hs. unfold valid_options. rewrite Hs.
  pose proof (gather_options_spec (facet +:+ ".") _ _ (rf_parts _ _ Hr) None) as Hg.
  destruct (gather_options _ _ _) as [[opts|]|e]; cbn; [|left; naive_solver|by right].
  destruct Hg as [Hex Hg]. split; [done|]. split; [by destruct Hex as [[? ?]|]|]. intros value.
  rewrite Hg. assert (E : (facet +:+ ".") +:+ value = facet +:+ "." +:+ value).
  { apply (inj bytes_of). by rewrite !bytes_of_app, <-app_assoc. }
  rewrite E. naive_solver.
Qed.
End Options.

(** ** New sessions *)

Definition root_of (part : PartitionCcm) : N := default 0 (bp_roots (pt_bdd part) !! 0%nat).

Definition apart_of (index : N) (part : PartitionCcm) : apart :=
  mkApart index (variable_order (pt_symbols part)) (table_eval (bp_nodes (pt_bdd part)) (root_of part)).

(** The abstract session of a loaded model. *)
Definition a_initial (m : MultiPartCcm) : asession :=
  mkAsession (imap (λ i, apart_of (N.of_nat i)) (mp_clusters m) ++
              (apart_of BRIDGE_PARTITION_INDEX <$> option_list (mp_bridge m))) [].

(** What a partition needs beyond what the loader checks: the root it starts
    from is a node of the table. *)
Record loadable (part : PartitionCcm) : Prop := {
  la_ok : partition_ok part;
  la_root : root_of part = TERMINAL_TRUE ∨ root_of part = TERMINAL_FALSE ∨
            root_of part < N.of_nat (length (bp_nodes (pt_bdd part)));
  la_u32 : N.of_nat (length (variable_order (pt_symbols part))) < 4294967296;
}.

Section New.
Context {B : Type} `{BackendContract B}.

Lemma from_partition_spec index part :
  loadable part →
  match from_partition index part with
  | Ok p => rel_part p (apart_of index part)
  | Err e => e = BackendFailed OutOfCapacity
  end.
Proof.
  intros [[Hct Hv Hn Hr] Hroot Hu]. unfold from_partition, apart_of.
  match goal with |- context [new_session ?o ?h] => pose proof (new_session_ok o h) as Hb;
    destruct (new_session o h) as [b|e]; cbn; [|by rewrite Hb] end.
  unfold root_of in *. destruct (bp_roots (pt_bdd part)) as [|root roots]; cbn in *; [lia|].
  pose proof (deserialize_bdd_ok b (bp_var_count (pt_bdd part)) (bp_nodes (pt_bdd part)) root Hb Hct
    ltac:(lia) Hroot) as Hd.
  destruct (deserialize_bdd _ _ _ _) as [[h|e] b']; cbn; [|by rewrite Hd].
  destruct Hd as [Hd Hl]. split; cbn; [done|done|done|lia|done|done].
Qed.

Lemma new_clusters_spec clusters i :
  Forall loadable clusters → N.of_nat (i + length clusters) < 4294967296 →
  match new_clusters i clusters with
  | Ok ps => Forall2 rel_part ps (imap (λ j, apart_of (N.of_nat (i + j))) clusters)
  | Err e => e = BackendFailed OutOfCapacity
  end.
Proof.
  intros HF. revert i. induction HF as [|c clusters Hc _ IH]; intros i Hi; cbn; [constructor|].
  cbn in Hi. rewrite N.mod_small by lia. pose proof (from_partition_spec (N.of_nat i) c Hc) as Hp.
  destruct (from_partition _ c) as [p|e]; cbn; [|done].
  specialize (IH (S i) ltac:(rewrite Nat.add_succ_r in Hi; done)).
  destruct (new_clusters (S i) clusters) as [ps|e]; cbn; [|done].
  constructor; [by rewrite Nat.add_0_r|]. erewrite imap_ext; [exact IH|].
  intros j x _. cbn. by rewrite Nat.add_succ_r.
Qed.

Lemma rel_indices ps aps : Forall2 rel_part ps aps → partition_index <$> ps = a_index <$> aps.
Proof. induction 1 as [|p ap ? ? Hp _ IH]; cbn; [done|]. by rewrite IH, (rp_index _ _ Hp). Qed.

Lemma initial_indices m :
  N.of_nat (length (mp_clusters m)) ≤ BRIDGE_PARTITION_INDEX →
  NoDup (a_index <$> a_parts (a_initial m)).
Proof.
  intros Hl. cbn. rewrite fmap_app, fmap_imap. apply NoDup_app.
  assert (Hin : ∀ n, n ∈ imap (λ i, a_index ∘ apart_of (N.of_nat i)) (mp_clusters m) →
    n < BRIDGE_PARTITION_INDEX).
  { intros n (i & x & -> & Hi)%elem_of_lookup_imap. apply lookup_lt_Some in Hi. cbn. lia. }
  split_and!.
  - apply NoDup_alt. intros i j n Hi Hj. rewrite list_lookup_imap in Hi, Hj.
    apply fmap_Some in Hi as (? & _ & ->). apply fmap_Some in Hj as (? & _ & Hij). cbn in Hij. lia.
  - intros n Hn Hb. apply Hin in Hn. destruct (mp_bridge m); cbn in Hb;
      [apply list_elem_of_singleton in Hb; lia|by apply not_elem_of_nil in Hb].
  - destruct (mp_bridge m); cbn; [apply NoDup_singleton|constructor].
Qed.

Lemma new_spec c m :
  payload c = Some m → Forall loadable (partitions_of m) →
  N.of_nat (length (mp_clusters m)) ≤ BRIDGE_PARTITION_INDEX →
  match new c with
  | Ok s => refines s (a_initial m) ∧ unsymbolled s = false ∧ committed s = []
  | Err e => e = BackendFailed OutOfCapacity
  end.
Proof.
  intros Hm HF Hl. unfold new. rewrite Hm. apply Forall_app in HF as [Hc Hb].
  pose proof (new_clusters_spec (mp_clusters m) 0 Hc) as Hcl. unfold BRIDGE_PARTITION_INDEX in Hl.
  cbn [Nat.add] in Hcl. specialize (Hcl ltac:(lia)).
  assert (Hfin : ∀ ps, Forall2 rel_part ps (a_parts (a_initial m)) →
    refines (mkSession c ps [] []) (a_initial m) ∧ unsymbolled (mkSession c ps [] []) = false ∧
    committed (mkSession c ps [] []) = []).
  { intros ps Hps. split_and!; [|unfold unsymbolled; cbn; rewrite Hm; by destruct (symbols c)|done].
    split; cbn; [done|constructor|]. rewrite (rel_indices _ _ Hps). by apply initial_indices. }
  destruct (new_clusters 0 (mp_clusters m)) as [ps|e]; cbn; [|done].
  destruct (mp_bridge m) as [bridge|] eqn:Eb; cbn in Hb |- *.
  - apply Forall_cons_1 in Hb as [Hb _]. pose proof (from_partition_spec BRIDGE_PARTITION_INDEX bridge Hb) as Hp.
    destruct (from_partition _ bridge) as [p|e]; cbn; [|done]. apply Hfin.
    cbn. rewrite Eb. apply Forall2_app; [done|]. by constructor.
  - apply Hfin. cbn. by rewrite Eb, app_nil_r.
Qed.
End New.

(** ** Resolving *)

Section Resolving.
Context {B : Type} `{BackendContract B}.

(** The facet [resolve] reads off a symbol. *)
Definition facet_of (sym : string) : option string := fst <$> rsplit_once sym.

Lemma rsplit_dot_spec s l r : rsplit_dot s = Some (l, r) → s = l ++ "."%char :: r.
Proof.
  revert l. induction s as [|c s IH]; intros l; cbn; [done|].
  destruct (rsplit_dot s) as [[l' r']|].
  - intros [= <- ->]. cbn. f_equal. by apply IH.
  - destruct (Ascii.eqb_spec c "."%char) as [->|]; [|done]. by intros [= <- ->].
Qed.

Lemma facet_of_spec sym facet : facet_of sym = Some facet → ∃ value, sym = (facet +:+ ".") +:+ value.
Proof.
  unfold facet_of, rsplit_once. destruct (rsplit_dot (bytes_of sym)) as [[l r]|] eqn:E; cbn; [|done].
  intros [= <-]. apply rsplit_dot_spec in E. exists (string_of r). apply (inj bytes_of).
  by rewrite !bytes_of_app, !bytes_of_string_of, E, <-app_assoc.
Qed.

(** The facets in [P] have been read: their choices are the output. *)
Definition resolved (s : Session B) (P : string → Prop) (out : gmap string string) : Prop :=
  (∀ f, P f → ∃ vo, valid_options s f = Ok vo ∧ out !! f = head (options vo)) ∧
  (∀ f, is_Some (out !! f) → P f).

Lemma resolved_ext (s : Session B) (P Q : string → Prop) out :
  (∀ f, P f ↔ Q f) → resolved s P out → resolved s Q out.
Proof. intros E [H1 H2]. split; intros f Hf; [by apply H1, E|by apply E, H2]. Qed.

Lemma resolved_add (s : Session B) seen out facet vo :
  resolved s (λ f, f ∈ seen) out → facet ∉ seen → valid_options s facet = Ok vo →
  resolved s (λ f, f ∈ ({[facet]} ∪ seen : gset string))
    (match options vo with choice :: _ => <[facet := choice]> out | [] => out end).
Proof.
  intros [H1 H2] Hn Hvo. match goal with |- resolved _ _ ?o => set (out' := o) end.
  assert (Hne : ∀ f, f ≠ facet → out' !! f = out !! f).
  { intros f Hf. unfold out'. destruct (options vo); [done|]. by rewrite lookup_insert_ne. }
  split; intros f Hf; destruct (decide (f = facet)) as [->|Hfn].
  - exists vo. split; [done|]. unfold out'. destruct (options vo); cbn; [|by rewrite lookup_insert_eq].
    apply eq_None_not_Some. intros Hs. by apply H2 in Hs.
  - rewrite Hne by done. apply H1. clear -Hf Hfn. set_solver.
  - clear. set_solver.
  - rewrite Hne in Hf by done. apply H2 in Hf. clear -Hf. set_solver.
Qed.

Lemma resolve_symbols_spec (s : Session B) syms : ∀ seen out,
  resolved s (λ f, f ∈ seen) out →
  match resolve_symbols s syms seen out with
  | Ok out' => resolved s (λ f, f ∈ seen ∨ Some f ∈ facet_of <$> syms) out'
  | Err e => ∃ f, Some f ∈ facet_of <$> syms ∧ valid_options s f = Err e
  end.
Proof.
  induction syms as [|sym syms IH]; intros seen out Hout; cbn [resolve_symbols].
  { eapply resolved_ext, Hout. intros f. cbn. rewrite elem_of_nil. naive_solver. }
  assert (Hstep : ∀ seen' out', resolved s (λ f, f ∈ seen') out' →
    (∀ f, f ∈ seen' ↔ f ∈ seen ∨ Some f = facet_of sym) →
    match resolve_symbols s syms seen' out' with
    | Ok out'' => resolved s (λ f, f ∈ seen ∨ Some f ∈ facet_of <$> sym :: syms) out''
    | Err e => ∃ f, Some f ∈ facet_of <$> sym :: syms ∧ valid_options s f = Err e
    end).
  { intros seen' out' Hout' Hseen. specialize (IH seen' out' Hout').
    destruct (resolve_symbols s syms seen' out') as [o|e]; cbn [fmap list_fmap].
    - eapply resolved_ext, IH. intros f. cbn beta. rewrite elem_of_cons, Hseen. naive_solver.
    - destruct IH as (f & Hf & He). exists f. by rewrite elem_of_cons; auto. }
  unfold facet_of at 1 in Hstep. destruct (rsplit_once sym) as [[facet v]|] eqn:E; cbn in Hstep.
  2: { apply Hstep; [done|]. naive_solver. }
  destruct (decide (facet ∈ seen)) as [Hin|Hin]; [apply Hstep; [done|]; naive_solver|].
  destruct (valid_options s facet) as [vo|e] eqn:Ev; cbn.
  - apply Hstep; [by apply resolved_add|set_solver].
  - exists facet. split; [|done]. unfold facet_of. rewrite E. by left.
Qed.

Lemma parts_satisfiable s a :
  refines s a →
  negb (existsb (λ p, is_false (backend p) (current p)) (parts s)) = true ↔
  Forall (λ p, satisfiable_fun (a_fun p)) (a_parts a).
Proof.
  intros Hr. rewrite negb_true_iff. pose proof (rf_parts _ _ Hr) as HF. clear Hr.
  induction HF as [|p ap ps aps Hp _ IH]; cbn; [by split|].
  rewrite orb_false_iff, IH, Forall_cons. unfold satisfiable_fun.
  rewrite <-(is_false_ok _ _ _ (rp_current _ _ Hp)), not_true_iff_false. done.
Qed.

Lemma order_has_facet s a f :
  refines s a → Some f ∈ facet_of <$> flat_map part_order (parts s) →
  Exists (a_has_facet (f +:+ ".")) (a_parts a).
Proof.
  intros Hr (sym & Hsym & Hin)%list_elem_of_fmap. symmetry in Hsym. apply facet_of_spec in Hsym as [value ->].
  apply list_elem_of_In, in_flat_map in Hin as (p & Hp & Hin).
  apply list_elem_of_In, list_elem_of_lookup in Hp as [i Hp].
  destruct (Forall2_lookup_l _ _ _ _ _ (rf_parts _ _ Hr) Hp) as (ap & Hap & Hrel).
  apply Exists_exists. exists ap. split; [by eapply list_elem_of_lookup_2|]. exists value.
  rewrite <-(rp_order _ _ Hrel). by apply list_elem_of_In.
Qed.
End Resolving.

(** ** A session to run

    One cluster with two exclusive options, on the CUDD backend over the
    in-crate manager. *)

Definition demo_part : PartitionCcm :=
  mkPartition (mkSymbols 2 ["os.linux"; "os.mac"] {["os.linux" := 0; "os.mac" := 1]} ["os.linux"; "os.mac"])
    (mkPayload 2 4 [3] (table_of [mkRaw 1 1 0; mkRaw 0 1 2])) (repeat "001"%char 32).

Definition demo_model : MultiPartCcm :=
  mkMultiPart (repeat "001"%char 32) (repeat "002"%char 32) 2 [] [demo_part] None.

Definition demo_session : Session (CuddBackend BddBuilder N) :=
  match new (from_multi_part demo_model) with
  | Ok s => s
  | Err _ => mkSession empty_ccm [] [] []
  end.

Lemma demo_loadable : Forall loadable (partitions_of demo_model).
Proof.
  constructor; [|constructor]. split; [split|..].
  - apply checks_canonical. split; vm_compute; reflexivity.
  - reflexivity.
  - cbn. apply NoDup_cons. split; [set_solver|apply NoDup_singleton].
  - cbn. lia.
  - cbn. lia.
  - cbn. lia.
Qed.

Lemma demo_new : new (from_multi_part demo_model) = Ok demo_session.
Proof. vm_compute. reflexivity. Qed.

(** ** The guarantees *)

Section Guarantees.
Context {B : Type} `{BackendContract B}.

(** A new session stands for the loaded model.  For a model whose
    partitions start from a node of their tables and with fewer clusters than
    the bridge's sentinel index, [Session::new] either gives a session with one
    partition per table, in order, under distinct indices, whose function is
    the one the table denotes and with nothing to undo, or fails for lack of
    memory. *)
Theorem new_session_refines c m :
  payload c = Some m → Forall loadable (partitions_of m) →
  N.of_nat (length (mp_clusters m)) ≤ BRIDGE_PARTITION_INDEX →
  match new c with
  | Ok s => refines s (a_initial m) ∧ unsymbolled s = false ∧ committed s = []
  | Err e => e = BackendFailed OutOfCapacity
  end.
Proof. apply new_spec. Qed.

(** C31: [apply] is atomic.  It succeeds with the selection conjoined in every
    partition that owns the symbol, each still satisfiable, one undo entry per
    owner and one record of the selection; otherwise no selection, undo entry
    or record changes and the error says why: no partition owns the symbol, the
    selection contradicts some owner, two clusters own it, or memory ran out. *)
Theorem apply_refines s a facet value :
  refines s a → unsymbolled s = false →
  let '(r, s') := apply s facet value in apply_outcome s s' a facet value r.
Proof. apply session_apply_spec. Qed.

(** [retract] never fails on a session the API can reach and restores, in
    the one partition the last undo entry names, the function that entry
    remembers; with nothing to undo it changes nothing. *)
Theorem retract_refines s a facet :
  refines s a → (retract s facet).1 = Ok tt ∧ refines (retract s facet).2 (a_retract a).
Proof. apply retract_spec. Qed.

(** The valid options of a facet are exact.  A value is listed iff every
    partition with a symbol of the facet owns the value and can still take it;
    the count is the length of the list; the facet is unknown iff no partition
    has a symbol of it, and the only other failure is lack of memory. *)
Theorem valid_options_exact s a facet :
  refines s a → unsymbolled s = false →
  match valid_options s facet with
  | Ok vo => count vo = length (options vo) ∧ Exists (a_has_facet (facet +:+ ".")) (a_parts a) ∧
      ∀ value, value ∈ options vo ↔
        Forall (λ p, a_has_facet (facet +:+ ".") p → a_allows (facet +:+ "." +:+ value) p) (a_parts a)
  | Err e => e = UnknownFacet facet ∧ Forall (λ p, ¬ a_has_facet (facet +:+ ".") p) (a_parts a) ∨
      e = BackendFailed OutOfCapacity
  end.
Proof. apply valid_options_lemma. Qed.

Lemma var_has_facet facet value p :
  is_Some (a_var p (facet +:+ "." +:+ value)) → a_has_facet (facet +:+ ".") p.
Proof.
  intros [v Hv]. exists value. apply a_var_Some, list_elem_of_lookup_2 in Hv.
  assert (E : (facet +:+ ".") +:+ value = facet +:+ "." +:+ value); [|by rewrite E].
  apply (inj bytes_of). by rewrite !bytes_of_app, <-app_assoc.
Qed.

Lemma owners_elem a c p : p ∈ a_owners a c ↔ p ∈ a_parts a ∧ is_Some (a_var p c).
Proof.
  unfold a_owners. rewrite !list_elem_of_In, List.filter_In, bool_decide_eq_true.
  by rewrite <-list_elem_of_In.
Qed.

(** A listed option can be applied.  Applying a value [valid_options] lists
    is never rejected as unknown or as a conflict: it succeeds, unless memory
    runs out or the model gives the symbol to two clusters. *)
Theorem valid_option_applies s a facet value vo :
  refines s a → unsymbolled s = false → valid_options s facet = Ok vo → value ∈ options vo →
  match (apply s facet value).1 with
  | Ok _ => True
  | Err e => e = BackendFailed OutOfCapacity ∨
      (1 < length (a_owners a (facet +:+ "." +:+ value)))%nat ∧ ∃ msg, e = SessionInvariant msg
  end.
Proof.
  intros Hr Hs Hvo Hin. pose proof (valid_options_lemma s a facet Hr Hs) as Hv. rewrite Hvo in Hv.
  destruct Hv as (_ & Hex & Hv). apply Hv in Hin. rewrite Forall_forall in Hin.
  pose proof (session_apply_spec s a facet value Hr Hs) as Ha.
  destruct (apply s facet value) as [[u|e] s']; cbn; [done|].
  destruct Ha as [_ Ha]. destruct e; try done.
  - left. by rewrite Ha.
  - destruct Ha as (_ & _ & Hno). exfalso. apply Exists_exists in Hex as (p & Hp & Hf).
    destruct (Hin p Hp Hf) as (v & Hpv & _).
    assert (Hown : p ∈ a_owners a (facet +:+ "." +:+ value)) by (apply owners_elem; eauto).
    rewrite Hno in Hown. by apply not_elem_of_nil in Hown.
  - destruct Ha as (_ & _ & p & v & Hp & Hpv & Hun). exfalso. apply owners_elem in Hp as [Hp Hv'].
    destruct (Hin p Hp (var_has_facet _ _ _ Hv')) as (v' & Hv'' & Hsat). simplify_eq. by apply Hsat.
  - right. eauto.
Qed.

(** What [resolve] returns.  The configuration is satisfiable iff every
    partition is; the output has a choice only for facets of the model's
    symbols, each one a value every partition with that facet can still take;
    a facet without a choice in a satisfiable model has no such value.  The
    only failure is lack of memory. *)
Theorem resolve_sound sha256 to_vec s a :
  refines s a → unsymbolled s = false →
  match resolve sha256 to_vec s with
  | Ok rr =>
      (rr_satisfiable rr = true ↔ Forall (λ p, satisfiable_fun (a_fun p)) (a_parts a)) ∧
      (∀ facet choice, resolved_output rr !! facet = Some choice →
        Exists (a_has_facet (facet +:+ ".")) (a_parts a) ∧
        Forall (λ p, a_has_facet (facet +:+ ".") p → a_allows (facet +:+ "." +:+ choice) p) (a_parts a)) ∧
      (∀ facet, rr_satisfiable rr = true → Some facet ∈ facet_of <$> flat_map part_order (parts s) →
        resolved_output rr !! facet = None →
        ∀ value, ¬ Forall (λ p, a_has_facet (facet +:+ ".") p →
                             a_allows (facet +:+ "." +:+ value) p) (a_parts a)) ∧
      resolve_hash rr = compute_resolve_hash sha256 to_vec s (resolved_output rr)
  | Err e => e = BackendFailed OutOfCapacity
  end.
Proof.
  intros Hr Hs. unfold resolve. rewrite Hs. pose proof (parts_satisfiable s a Hr) as Hsat.
  destruct (negb (existsb _ (parts s))) eqn:Eb; cbn.
  2: { split_and!; [done| |done|done]. intros f c Hf. by rewrite lookup_empty in Hf. }
  pose proof (resolve_symbols_spec s (flat_map part_order (parts s)) ∅ ∅) as Hres.
  assert (Hemp : resolved s (λ f, f ∈ (∅ : gset string)) ∅).
  { split; [set_solver|]. intros f [? Hf]. by rewrite lookup_empty in Hf. }
  specialize (Hres Hemp). destruct (resolve_symbols _ _ _ _) as [out|e]; cbn.
  - destruct Hres as [Hres1 Hres2]. split_and!; [done| | |done].
    + intros f c Hf. destruct (Hres1 f) as (vo & Hvo & Hh); [apply Hres2; eauto|].
      pose proof (valid_options_lemma s a f Hr Hs) as Hv. rewrite Hvo in Hv.
      destruct Hv as (_ & Hex & Hv). split; [done|]. apply Hv. rewrite Hf in Hh.
      destruct (options vo); [done|]. injection Hh as ->. by left.
    + intros f _ Hin Hf value Hall. destruct (Hres1 f) as (vo & Hvo & Hh); [by right|].
      pose proof (valid_options_lemma s a f Hr Hs) as Hv. rewrite Hvo in Hv.
      destruct Hv as (_ & _ & Hv). apply Hv in Hall. rewrite Hf in Hh.
      destruct (options vo); [by apply not_elem_of_nil in Hall|done].
  - destruct Hres as (f & Hf & He). pose proof (valid_options_lemma s a f Hr Hs) as Hv. rewrite He in Hv.
    destruct Hv as [[_ Hno]|Hv]; [|done]. exfalso.
    pose proof (order_has_facet s a f Hr Hf) as Hex. apply Exists_exists in Hex as (p & Hp & Hpf).
    rewrite Forall_forall in Hno. by apply (Hno p Hp).
Qed.
End Guarantees.

(** C33: Retracting undoes applying.  After a successful [apply], as many
    [retract] calls as it pushed undo entries, for whatever facet names they are
    given, bring back every partition's handle, the undo stack, the record of
    selections and the state hash. *)
Theorem retracts_undo_apply {B} `{SolverBackend B} sha256 (s : Session B) facet value s1 facet' :
  NoDup (partition_index <$> parts s) → unsymbolled s = false →
  apply s facet value = (Ok tt, s1) →
  let s2 := retracts (length (undo s1) - length (undo s)) s1 facet' in
  undo s2 = undo s ∧ committed s2 = committed s ∧ ccm s2 = ccm s ∧
  current <$> parts s2 = current <$> parts s ∧
  state_hash sha256 s2 = state_hash sha256 s.
Proof.
  intros Hnd Hs Ha. destruct (apply_shape _ _ _ _ Hs Ha) as (es & Hu & Hne & Hn & HF & Hm & Hc).
  replace (length (undo s1) - length (undo s))%nat with (length es) by (rewrite Hu, length_app; lia).
  destruct (retracts_shape (parts s) (undo s) (committed s) (facet +:+ "." +:+ value) facet' es Hnd s1 Hu Hn HF)
    as (Hu2 & HF2 & Hm2 & Hc2); [by rewrite decide_False|].
  destruct (restorable_nil _ _ HF2) as [Hcur Hidx]. rewrite Hm in Hm2. split_and!; try done.
  by apply state_hash_ext.
Qed.

(** ** The guarantees at work *)

Lemma demo_small : N.of_nat (length (mp_clusters demo_model)) ≤ BRIDGE_PARTITION_INDEX.
Proof. by vm_compute. Qed.

Lemma demo_refines : refines demo_session (a_initial demo_model) ∧ unsymbolled demo_session = false.
Proof.
  pose proof (new_spec (B := CuddBackend BddBuilder N) (from_multi_part demo_model) demo_model eq_refl
    demo_loadable demo_small) as Hn.
  rewrite demo_new in Hn. exact (conj (proj1 Hn) (proj1 (proj2 Hn))).
Qed.

Lemma new_session_refines_witness : refines demo_session (a_initial demo_model).
Proof.
  pose proof (new_session_refines (B := CuddBackend BddBuilder N) (from_multi_part demo_model) demo_model
    eq_refl demo_loadable demo_small) as Hn.
  rewrite demo_new in Hn. exact (proj1 Hn).
Defined.

Lemma apply_refines_witness :
  (apply demo_session "os" "linux").1 = Ok tt ∧
  refines (apply demo_session "os" "linux").2 (a_apply (a_initial demo_model) "os.linux").
Proof.
  assert (E : (apply demo_session "os" "linux").1 = Ok tt) by (vm_compute; reflexivity).
  split; [exact E|]. pose proof (apply_refines demo_session (a_initial demo_model) "os" "linux"
    (proj1 demo_refines) (proj2 demo_refines)) as Ha.
  destruct (apply demo_session "os" "linux") as [r s']. cbn in E. rewrite E in Ha. exact (proj1 Ha).
Defined.

Lemma retract_refines_witness : (retract demo_session "os").1 = Ok tt.
Proof. exact (proj1 (retract_refines demo_session (a_initial demo_model) "os" (proj1 demo_refines))). Defined.

Lemma valid_options_exact_witness :
  ∃ vo, valid_options demo_session "os" = Ok vo ∧ options vo = ["linux"; "mac"] ∧
    Forall (λ p, a_has_facet "os." p → a_allows "os.mac" p) (a_parts (a_initial demo_model)).
Proof.
  pose proof (valid_options_exact demo_session (a_initial demo_model) "os"
    (proj1 demo_refines) (proj2 demo_refines)) as Hv.
  assert (E : valid_options demo_session "os" = Ok (mkValidOptions 2 ["linux"; "mac"]))
    by (vm_compute; reflexivity).
  rewrite E in Hv. exists (mkValidOptions 2 ["linux"; "mac"]). split; [exact E|]. split; [reflexivity|].
  apply (proj2 (proj2 Hv) "mac"). apply list_elem_of_In. cbn. right. left. reflexivity.
Defined.

Lemma valid_option_applies_witness :
  match (apply demo_session "os" "mac").1 with
  | Ok _ => True
  | Err e => e = BackendFailed OutOfCapacity ∨
      (1 < length (a_owners (a_initial demo_model) "os.mac"))%nat ∧ ∃ msg, e = SessionInvariant msg
  end.
Proof.
  apply (valid_option_applies demo_session (a_initial demo_model) "os" "mac"
    (mkValidOptions 2 ["linux"; "mac"]) (proj1 demo_refines) (proj2 demo_refines)).
  - vm_compute. reflexivity.
  - cbn. set_solver.
Defined.

Lemma resolve_sound_witness :
  ∃ rr, resolve (λ bs, bs) (λ _, []) demo_session = Ok rr ∧ resolved_output rr !! "os" = Some "linux" ∧
    Forall (λ p, satisfiable_fun (a_fun p)) (a_parts (a_initial demo_model)).
Proof.
  pose proof (resolve_sound (λ bs, bs) (λ _, []) demo_session (a_initial demo_model)
    (proj1 demo_refines) (proj2 demo_refines)) as Hv.
  assert (E : ∃ rr, resolve (λ bs, bs) (λ _, []) demo_session = Ok rr ∧
    resolved_output rr !! "os" = Some "linux" ∧ rr_satisfiable rr = true).
  { eexists. split; [|split]; vm_compute; reflexivity. }
  destruct E as (rr & E & Ho & Hs). rewrite E in Hv. exists rr. split; [exact E|]. split; [exact Ho|].
  exact (proj1 (proj1 Hv) Hs).
Defined.

Lemma retracts_undo_apply_witness :
  let s1 := (apply demo_session "os" "linux").2 in
  undo s1 ≠ [] ∧ undo (retracts (length (undo s1) - length (undo demo_session)) s1 "os") = undo demo_session.
Proof.
  split; [vm_compute; discriminate|].
  refine (proj1 (retracts_undo_apply (λ bs, bs) demo_session "os" "linux" _ "os" _ (proj2 demo_refines) _)).
  - apply (rf_indices _ _ (proj1 demo_refines)).
  - vm_compute. reflexivity.
Defined.

(** ** Two facts about the interface *)

(** The state hash does not see the selections.  It covers the model and
    how many undo entries each partition has, so two sessions that picked
    different options of a partition have the same hash. *)
Example state_hash_ignores_selection sha256 :
  let linux := (apply demo_session "os" "linux").2 in
  let mac := (apply demo_session "os" "mac").2 in
  valid_options linux "os" = Ok (mkValidOptions 1 ["linux"]) ∧
  valid_options mac "os" = Ok (mkValidOptions 1 ["mac"]) ∧
  state_hash sha256 linux = state_hash sha256 mac.
Proof. split; [|split]; vm_compute; reflexivity. Qed.

(** A model that gives two options of a facet to different clusters, with no
    constraint between them. *)
Definition free_part (sym : string) : PartitionCcm :=
  mkPartition (mkSymbols 2 [sym] {[sym := 0]} [sym])
    (mkPayload 1 2 [TERMINAL_TRUE] (table_of [])) (repeat "001"%char 32).

Definition split_session : result session_error (Session (CuddBackend BddBuilder N)) :=
  new (from_multi_part (mkMultiPart (repeat "001"%char 32) (repeat "002"%char 32) 2 []
    [free_part "os.linux"; free_part "os.mac"] None)).

(** A facet whose options lie in different clusters has no valid options,
    since each cluster contributes its own and the contributions are
    intersected, although every option can be applied. *)
Example split_facet_has_no_options :
  match split_session with
  | Ok s => valid_options s "os" = Ok (mkValidOptions 0 []) ∧
      (apply s "os" "linux").1 = Ok tt ∧ (apply s "os" "mac").1 = Ok tt
  | Err _ => False
  end.
Proof. vm_compute. split; [|split]; reflexivity. Qed.
