(* ===== verification/SatBackend.v ===== *)
(** * The SAT boundary of the solver

    Models [solver/src/sat_backend.rs], the trait behind which the SAT library
    is used, and [solver/src/sat_backend_batsat.rs], its one implementation.
    The [batsat] crate is a parameter: the class [BasicSolver] has the functions
    the source calls and [BasicContract] what the crate documents of them.

    [SatContract] is the documented contract of the trait; the explanations of
    [Explain.v] are proved against it and [BatsatBackend] meets it.  A solver
    that tries every assignment shows that the assumed laws can hold. *)
From S2P Require Import Prelude.
Local Open Scope N_scope.

(** ** Data *)

Record SatVar : Type := mkSatVar { index : N }.

Record SatLit : Type := mkSatLit { lit_var : SatVar; polarity : bool }.

Definition positive (v : SatVar) : SatLit := mkSatLit v true.
Definition negative (v : SatVar) : SatLit := mkSatLit v false.

Inductive SatOutcome : Type := OutcomeSat | OutcomeUnsat | OutcomeUnknown.

Inductive SatError : Type :=
  | TopLevelUnsat
  | NoCoreAvailable
  | SatInvariant (msg : string).

#[export] Instance SatOutcome_eq_dec : EqDecision SatOutcome.
Proof. solve_decision. Defined.
#[export] Instance SatVar_eq_dec : EqDecision SatVar.
Proof. solve_decision. Defined.
#[export] Instance SatLit_eq_dec : EqDecision SatLit.
Proof. solve_decision. Defined.

(** ** The trait *)

Class SatBackend (S : Type) : Type := {
  new_solver : S;
  new_var : S → SatVar * S;
  add_clause : S → list SatLit → result SatError unit * S;
  solve_with_assumptions : S → list SatLit → result SatError SatOutcome * S;
  unsat_core : S → result SatError (list SatLit);
  core_contains : S → SatLit → result SatError bool;
  backend_id : S → string;
}.

(** ** What clauses mean *)

Definition lit_holds (rho : N → bool) (l : SatLit) : bool := Bool.eqb (rho (index (lit_var l))) (polarity l).
Definition clause_holds (rho : N → bool) (c : list SatLit) : bool := existsb (lit_holds rho) c.
Definition db_holds (rho : N → bool) (db : list (list SatLit)) : bool := forallb (clause_holds rho) db.

(** The clauses of [db] and the literals of [asm] hold. *)
Definition models (rho : N → bool) (db : list (list SatLit)) (asm : list SatLit) : Prop :=
  db_holds rho db = true ∧ forallb (lit_holds rho) asm = true.

Definition below (n : N) (l : SatLit) : Prop := index (lit_var l) < n.

(** ** The contract

    [sat_state s n db]: [n] variables have been issued and [db] are the clauses
    added.  Indices are [u32]s in allocation order. *)
Class SatContract (S : Type) `{SatBackend S} : Type := {
  sat_state : S → N → list (list SatLit) → Prop;

  new_solver_ok : sat_state new_solver 0 [];

  new_var_ok s n db :
    sat_state s n db → n < 4294967296 →
    let '(v, s') := new_var s in v = mkSatVar n ∧ sat_state s' (n + 1) db;

  add_clause_ok s n db c :
    sat_state s n db → Forall (below n) c →
    let '(r, s') := add_clause s c in
    match r with
    | Ok _ => sat_state s' n (db ++ [c])
    | Err e => e = TopLevelUnsat ∧ ∀ rho, db_holds rho (db ++ [c]) = false
    end;

  solve_ok s n db asm :
    sat_state s n db → Forall (below n) asm →
    let '(r, s') := solve_with_assumptions s asm in
    sat_state s' n db ∧
    match r with
    | Ok OutcomeSat => ∃ rho, models rho db asm
    | Ok OutcomeUnsat => ∀ rho, ¬ models rho db asm
    | Ok OutcomeUnknown => True
    | Err _ => False
    end;
}.

(** ** [batsat] *)

Inductive lbool : Type := LTRUE | LFALSE | LUNDEF.

(** [batsat::Lit]: a variable and its sign. *)
Record Lit : Type := mkLit { lit_idx : N; sign : bool }.

Class BasicSolver (S : Type) : Type := {
  default_solver : S;
  new_var_default : S → N * S;
  add_clause_reuse : S → list Lit → bool * S;
  solve_limited : S → list Lit → lbool * S;
  solver_unsat_core : S → list Lit;
  unsat_core_contains_lit : S → Lit → bool;
}.

Definition to_lit (l : Lit) : SatLit := mkSatLit (mkSatVar (lit_idx l)) (sign l).

Class BasicContract (S : Type) `{BasicSolver S} : Type := {
  solver_state : S → N → list (list Lit) → Prop;
  default_solver_ok : solver_state default_solver 0 [];
  new_var_default_ok s n db :
    solver_state s n db → let '(v, s') := new_var_default s in v = n ∧ solver_state s' (n + 1) db;
  add_clause_reuse_ok s n db c :
    solver_state s n db → Forall (λ l, lit_idx l < n) c →
    let '(ok, s') := add_clause_reuse s c in
    if ok then solver_state s' n (db ++ [c]) else ∀ rho, db_holds rho (map to_lit <$> (db ++ [c])) = false;
  solve_limited_ok s n db asm :
    solver_state s n db → Forall (λ l, lit_idx l < n) asm →
    let '(r, s') := solve_limited s asm in
    solver_state s' n db ∧
    match r with
    | LTRUE => ∃ rho, models rho (map to_lit <$> db) (to_lit <$> asm)
    | LFALSE => ∀ rho, ¬ models rho (map to_lit <$> db) (to_lit <$> asm)
    | LUNDEF => True
    end;
}.

(** ** [BatsatBackend] *)

Section Batsat.
Context {S : Type} `{BasicSolver S}.

Record BatsatBackend : Type := mkBatsat {
  solver : S;
  vars : list N;
  last_outcome : option SatOutcome;
}.

Definition lookup_var (b : BatsatBackend) (v : SatVar) : option N := vars b !! N.to_nat (index v).

Definition to_batsat_lit (b : BatsatBackend) (l : SatLit) : result SatError Lit :=
  v ← ok_or (lookup_var b (lit_var l))
        (SatInvariant "sat literal references a variable this backend never issued");
  Ok (mkLit v (polarity l)).

Definition assumption_from_core_lit (l : Lit) : SatLit :=
  let v := mkSatVar (lit_idx l) in
  if sign l then negative v else positive v.

Definition batsat_new_solver : BatsatBackend := mkBatsat default_solver [] None.

Definition batsat_new_var (b : BatsatBackend) : SatVar * BatsatBackend :=
  let '(v, s) := new_var_default (solver b) in
  let idx := N.of_nat (length (vars b)) mod 4294967296 in
  (mkSatVar idx, mkBatsat s (vars b ++ [v]) (last_outcome b)).

Definition batsat_add_clause (b : BatsatBackend) (literals : list SatLit) : result SatError unit * BatsatBackend :=
  let b := mkBatsat (solver b) (vars b) None in
  match collect_results (to_batsat_lit b) literals with
  | Err e => (Err e, b)
  | Ok clause =>
      let '(still_ok, s) := add_clause_reuse (solver b) clause in
      (if still_ok then Ok tt else Err TopLevelUnsat, mkBatsat s (vars b) None)
  end.

Definition batsat_solve (b : BatsatBackend) (assumptions : list SatLit)
    : result SatError SatOutcome * BatsatBackend :=
  match collect_results (to_batsat_lit b) assumptions with
  | Err e => (Err e, b)
  | Ok assumps =>
      let '(result, s) := solve_limited (solver b) assumps in
      let outcome :=
        match result with LTRUE => OutcomeSat | LFALSE => OutcomeUnsat | LUNDEF => OutcomeUnknown end in
      (Ok outcome, mkBatsat s (vars b) (Some outcome))
  end.

Definition batsat_unsat_core (b : BatsatBackend) : result SatError (list SatLit) :=
  if decide (last_outcome b ≠ Some OutcomeUnsat) then Err NoCoreAvailable
  else Ok (assumption_from_core_lit <$> solver_unsat_core (solver b)).

Definition batsat_core_contains (b : BatsatBackend) (l : SatLit) : result SatError bool :=
  if decide (last_outcome b ≠ Some OutcomeUnsat) then Err NoCoreAvailable
  else
    bl ← to_batsat_lit b l;
    Ok (unsat_core_contains_lit (solver b) (mkLit (lit_idx bl) (negb (sign bl)))).

Definition BATSAT_BACKEND_ID : string := "batsat-v0.6".

#[export] Instance BatsatBackend_backend : SatBackend BatsatBackend := {|
  new_solver := batsat_new_solver;
  new_var := batsat_new_var;
  add_clause := batsat_add_clause;
  solve_with_assumptions := batsat_solve;
  unsat_core := batsat_unsat_core;
  core_contains := batsat_core_contains;
  backend_id _ := BATSAT_BACKEND_ID;
|}.
End Batsat.
#[global] Arguments BatsatBackend S : clear implicits.

(** ** The wrapper meets the contract *)

Section BatsatContract.
Context {S : Type} `{BasicContract S}.

(** Handles are the library's variables, in order. *)
Definition batsat_state (b : BatsatBackend S) (n : N) (db : list (list SatLit)) : Prop :=
  vars b = N.of_nat <$> seq 0 (N.to_nat n) ∧
  ∃ ldb, solver_state (solver b) n ldb ∧ db = map to_lit <$> ldb.

Lemma translated_lit b n db l :
  batsat_state b n db → below n l → to_batsat_lit b l = Ok (mkLit (index (lit_var l)) (polarity l)).
Proof.
  intros [Hv _] Hl. unfold below in Hl. unfold to_batsat_lit, lookup_var.
  rewrite Hv, list_lookup_fmap, lookup_seq_lt by lia. cbn. by rewrite N2Nat.id.
Qed.

Lemma translated b n db ls :
  batsat_state b n db → Forall (below n) ls →
  ∃ bls, collect_results (to_batsat_lit b) ls = Ok bls ∧ to_lit <$> bls = ls ∧
    Forall (λ l, lit_idx l < n) bls.
Proof.
  intros Hst HF. induction HF as [|l ls Hl _ IH]; [by exists []|].
  destruct IH as (bls & E & Em & Hb). eexists. cbn [collect_results].
  rewrite (translated_lit _ _ _ _ Hst Hl). cbn [mbind result_bind]. rewrite E.
  split_and!; [reflexivity|cbn; rewrite Em; by destruct l as [[]]|by constructor].
Qed.

#[export] Program Instance BatsatBackend_contract : SatContract (BatsatBackend S) := {|
  sat_state := batsat_state;
|}.
Next Obligation. split; [done|]. exists []. split; [apply default_solver_ok|done]. Qed.
Next Obligation.
  intros b n db [Hv (ldb & Hs & ->)] Hn. cbn. unfold batsat_new_var.
  pose proof (new_var_default_ok _ _ _ Hs) as Hnew. destruct (new_var_default (solver b)) as [v s'].
  destruct Hnew as [-> Hs']. rewrite Hv, length_fmap, length_seq, N2Nat.id, N.mod_small by done.
  split; [done|]. split; [|eauto]. cbn. rewrite N.add_1_r, N2Nat.inj_succ, seq_S, fmap_app. cbn.
  by rewrite N2Nat.id.
Qed.
Next Obligation.
  intros b n db c [Hv (ldb & Hs & ->)] Hc. cbn. unfold batsat_add_clause.
  destruct (translated (mkBatsat (solver b) (vars b) None) n (map to_lit <$> ldb) c) as (bls & -> & Em & Hb);
    [split; eauto|done|]. cbn.
  pose proof (add_clause_reuse_ok _ _ _ _ Hs Hb) as Hadd. destruct (add_clause_reuse _ _) as [[] s'].
  - split; [done|]. exists (ldb ++ [bls]). split; [done|]. rewrite fmap_app. cbn. by rewrite <-Em.
  - split; [done|]. intros rho. rewrite <-(Hadd rho), fmap_app. cbn. by rewrite <-Em.
Qed.
Next Obligation.
  intros b n db asm Hst Ha. pose proof Hst as [Hv (ldb & Hs & ->)]. cbn. unfold batsat_solve.
  destruct (translated b n _ asm Hst Ha) as (bls & -> & Em & Hb).
  pose proof (solve_limited_ok _ _ _ _ Hs Hb) as Hsolve. destruct (solve_limited _ _) as [r s'].
  destruct Hsolve as [Hs' Hr]. split; [by split; eauto|]. rewrite Em in Hr. by destruct r.
Qed.
End BatsatContract.

(** ** A solver that tries every assignment *)

Record BruteSolver : Type := mkBrute { br_vars : N; br_db : list (list Lit) }.

Definition upd (rho : N → bool) (k : N) (b : bool) : N → bool := λ i, if i =? k then b else rho i.

(** Some assignment of the first [n] variables, on top of [rho]. *)
Fixpoint search (n : nat) (f : (N → bool) → bool) (rho : N → bool) : bool :=
  match n with
  | O => f rho
  | S n => search n f (upd rho (N.of_nat n) true) || search n f (upd rho (N.of_nat n) false)
  end.

Lemma search_sound n f rho : search n f rho = true → ∃ rho', f rho' = true.
Proof. revert rho. induction n as [|n IH]; intros rho; cbn; [eauto|]. intros [?|?]%orb_true_iff; eauto. Qed.

Lemma search_complete n f rho rho' :
  (∀ r, (∀ i, i < N.of_nat n → r i = rho' i) → (∀ i, N.of_nat n ≤ i → r i = rho i) → f r = true) →
  search n f rho = true.
Proof.
  revert rho. induction n as [|n IH]; intros rho Hf; cbn.
  - apply Hf; [lia|done].
  - assert (Hone : search n f (upd rho (N.of_nat n) (rho' (N.of_nat n))) = true).
    { apply IH. intros r Hlo Hhi. apply Hf.
      - intros i Hi. destruct (decide (i = N.of_nat n)) as [->|]; [|apply Hlo; lia].
        rewrite Hhi by lia. unfold upd. by rewrite N.eqb_refl.
      - intros i Hi. rewrite Hhi by lia. unfold upd. rewrite (proj2 (N.eqb_neq _ _)); [done|lia]. }
    destruct (rho' (N.of_nat n)); rewrite Hone; [done|by rewrite orb_true_r].
Qed.

Definition brute_models (db : list (list Lit)) (asm : list Lit) (rho : N → bool) : bool :=
  db_holds rho (map to_lit <$> db) && forallb (lit_holds rho) (to_lit <$> asm).

#[export] Instance BruteSolver_solver : BasicSolver BruteSolver := {|
  default_solver := mkBrute 0 [];
  new_var_default s := (br_vars s, mkBrute (br_vars s + 1) (br_db s));
  add_clause_reuse s c := (true, mkBrute (br_vars s) (br_db s ++ [c]));
  solve_limited s asm :=
    (if search (N.to_nat (br_vars s)) (brute_models (br_db s) asm) (λ _, false) then LTRUE else LFALSE, s);
  solver_unsat_core _ := [];
  unsat_core_contains_lit _ _ := false;
|}.

Lemma lits_agree n r rho (ls : list Lit) :
  Forall (λ l, lit_idx l < n) ls → (∀ i, i < n → r i = rho i) →
  lit_holds r <$> (to_lit <$> ls) = lit_holds rho <$> (to_lit <$> ls).
Proof.
  intros HF Hr. induction HF as [|l ls Hl _ IH]; [done|]. cbn. rewrite IH. f_equal.
  unfold lit_holds. cbn. by rewrite Hr.
Qed.

Lemma brute_agree n r rho db asm :
  Forall (Forall (λ l, lit_idx l < n)) db → Forall (λ l, lit_idx l < n) asm → (∀ i, i < n → r i = rho i) →
  brute_models db asm r = brute_models db asm rho.
Proof.
  intros Hdb Ha Hr. unfold brute_models, db_holds. f_equal.
  - induction Hdb as [|c db Hc _ IH]; [done|]. cbn. rewrite IH. f_equal.
    unfold clause_holds. pose proof (lits_agree _ _ _ _ Hc Hr) as E. clear -E.
    change (map to_lit c) with (to_lit <$> c). generalize dependent (to_lit <$> c). intros l E.
    induction l as [|x l IH]; [done|]. cbn in *. injection E as E1 E2. by rewrite E1, (IH E2).
  - pose proof (lits_agree _ _ _ _ Ha Hr) as E. generalize dependent (to_lit <$> asm). intros l E.
    induction l as [|x l IH]; [done|]. cbn in *. injection E as E1 E2. by rewrite E1, (IH E2).
Qed.

#[export] Program Instance BruteSolver_contract : BasicContract BruteSolver := {|
  solver_state s n db := s = mkBrute n db ∧ Forall (Forall (λ l, lit_idx l < n)) db;
|}.
Next Obligation. done. Qed.
Next Obligation.
  intros s n db [-> HF]. split_and!; [done|done|].
  eapply Forall_impl; [exact HF|]. intros c Hc. eapply Forall_impl; [exact Hc|]. cbn. lia.
Qed.
Next Obligation. intros s n db c [-> HF] Hc. split; [done|]. apply Forall_app. split; [done|by constructor]. Qed.
Next Obligation.
  intros s n db asm [-> HF] Ha. cbn. split; [done|].
  destruct (search _ _ _) eqn:E; cbn.
  - apply search_sound in E as [rho Hr]. exists rho. by apply andb_true_iff.
  - intros rho [H1 H2]. apply not_true_iff_false in E. apply E.
    apply (search_complete _ _ _ rho). intros r Hr _.
    rewrite (brute_agree n r rho); [unfold brute_models; by rewrite H1, H2|done|done|].
    intros i Hi. apply Hr. lia.
Qed.
