(* ===== verification/Mus.v ===== *)
(** * Minimal unsatisfiable subsets

    Models [extract_indexed_mus] of [solver/src/explain.rs]: the clauses of the
    model are added under fresh selectors, the candidate is assumed, and the
    selectors are dropped one by one as long as the rest stays unsatisfiable.

    The extraction is generic in the SAT solver and proved against the contract
    of [SatBackend.v].  A panic of the source is [IndexPanic]; the theorem shows
    that neither it nor running out of fuel happens. *)
From S2P Require Import Prelude SatBackend Backend Session.
Local Open Scope N_scope.

(** One clause over global symbol indices. *)
Record ModelClause : Type := mkModelClause { literals : list (N * bool) }.

#[export] Instance ModelClause_eq_dec : EqDecision ModelClause.
Proof. solve_decision. Defined.

Record IndexedCore : Type := mkIndexedCore {
  rejected_global : N;
  core_clauses : list ModelClause;
}.

Definition sat_fault (msg : string) : session_error := BackendFailed (Invariant msg).

Section Extract.
Context {S : Type} `{SatBackend S}.

(** [max_global] over the clauses. *)
Definition max_global (rejected : N) (clauses : list ModelClause) : N :=
  foldl (λ m c, foldl (λ m l, N.max m l.1) m (literals c)) rejected clauses.

Fixpoint alloc_symbols (n : nat) (s : S) : list SatVar * S :=
  match n with
  | O => ([], s)
  | Datatypes.S n =>
      let '(v, s) := new_var s in
      let '(vs, s) := alloc_symbols n s in
      (v :: vs, s)
  end.

(** The literals of a clause, behind the negated selector. *)
Definition guarded (symbol_vars : list SatVar) (selector : SatVar) (c : ModelClause) : option (list SatLit) :=
  lits ← mapM (λ l, v ← symbol_vars !! N.to_nat l.1;
                    Some (if l.2 : bool then positive v else negative v)) (literals c);
  Some (negative selector :: lits).

Fixpoint seed_clauses (symbol_vars : list SatVar) (clauses : list ModelClause) (s : S)
    : result session_error (list SatVar) * S :=
  match clauses with
  | [] => (Ok [], s)
  | c :: clauses =>
      let '(selector, s) := new_var s in
      match guarded symbol_vars selector c with
      | None => (Err IndexPanic, s)
      | Some lits =>
          match add_clause s lits with
          | (Err _, s) => (Err (sat_fault "add_clause failed while seeding model clauses"), s)
          | (Ok _, s) =>
              let '(r, s) := seed_clauses symbol_vars clauses s in
              (cons selector <$> r, s)
          end
      end
  end.

(** The deletion loop; running out of fuel is [IndexPanic]. *)
Fixpoint shrink (fuel : nat) (candidate : SatLit) (kept : list SatVar) (i : nat) (s : S)
    : result session_error (list SatVar) :=
  match fuel with
  | O => Err IndexPanic
  | Datatypes.S fuel =>
      if decide (i < length kept)%nat then
        let trial := (positive <$> (delete i kept)) ++ [candidate] in
        match solve_with_assumptions s trial with
        | (Err _, _) => Err (sat_fault "shrink solve_with_assumptions failed")
        | (Ok OutcomeUnsat, s) => shrink fuel candidate (delete i kept) i s
        | (Ok OutcomeSat, s) => shrink fuel candidate kept (Datatypes.S i) s
        | (Ok OutcomeUnknown, _) => Err (sat_fault "shrink solve was inconclusive (resource limit)")
        end
      else Ok kept
  end.

(** [if kept_set.contains(&selector.index())], over clauses and selectors. *)
Definition surviving (kept : list SatVar) (clauses : list ModelClause) (selectors : list SatVar)
    : list ModelClause :=
  let kept_set : gset N := list_to_set (index <$> kept) in
  fst <$> filter (λ cs, index cs.2 ∈ kept_set) (zip clauses selectors).

Definition extract_indexed_mus (clauses : list ModelClause) (rejected : N)
    : result session_error (option IndexedCore) :=
  let '(symbol_vars, s) :=
    alloc_symbols (Datatypes.S (N.to_nat (max_global rejected clauses))) new_solver in
  let '(r, s) := seed_clauses symbol_vars clauses s in
  selectors ← r;
  cv ← ok_or (symbol_vars !! N.to_nat rejected) IndexPanic;
  let candidate := positive cv in
  match solve_with_assumptions s ((positive <$> selectors) ++ [candidate]) with
  | (Err _, _) => Err (sat_fault "initial solve_with_assumptions failed")
  | (Ok OutcomeSat, _) => Ok None
  | (Ok OutcomeUnknown, _) => Err (sat_fault "initial solve was inconclusive (resource limit)")
  | (Ok OutcomeUnsat, s) =>
      kept ← shrink (Datatypes.S (length selectors)) candidate selectors 0 s;
      Ok (Some (mkIndexedCore rejected (surviving kept clauses selectors)))
  end.
End Extract.

(** ** Meaning *)

(** An assignment of the global symbols satisfies a clause. *)
Definition sat_clause (g : N → bool) (c : ModelClause) : bool :=
  existsb (λ l, Bool.eqb (g l.1) l.2) (literals c).

Definition sat_clauses (g : N → bool) (cs : list ModelClause) : bool := forallb (sat_clause g) cs.

(** The clauses of [core] with the candidate are unsatisfiable, and every
    clause is needed. *)
Record is_mus (clauses core : list ModelClause) (rejected : N) : Prop := {
  mus_subset : core ⊆ clauses;
  mus_unsat : ∀ g, g rejected = true → sat_clauses g core = false;
  mus_minimal : ∀ i c, core !! i = Some c →
    ∃ g, g rejected = true ∧ ∀ j c', core !! j = Some c' → j ≠ i → sat_clause g c' = true;
}.

(** ** The selectors *)

Definition sel (m : N) (j : nat) : SatVar := mkSatVar (m + N.of_nat j).

Definition glit (l : N * bool) : SatLit := mkSatLit (mkSatVar l.1) l.2.

(** The clause database after seeding: clause [j] behind selector [m + j]. *)
Definition gclause (m : N) (j : nat) (c : ModelClause) : list SatLit :=
  negative (sel m j) :: (glit <$> literals c).

Definition seeded (m : N) (clauses : list ModelClause) : list (list SatLit) := imap (gclause m) clauses.

Definition bounded_clause (m : N) (c : ModelClause) : Prop := Forall (λ l, l.1 < m) (literals c).

Lemma clause_holds_guarded rho m j c :
  clause_holds rho (gclause m j c) = true ↔ (rho (m + N.of_nat j) = true → sat_clause rho c = true).
Proof.
  assert (E : existsb (lit_holds rho) (glit <$> literals c) = sat_clause rho c).
  { unfold sat_clause. induction (literals c) as [|l ls IH]; [done|]. cbn. by rewrite IH. }
  unfold clause_holds, gclause. cbn [existsb]. rewrite E. unfold lit_holds. cbn.
  destruct (rho (m + N.of_nat j)), (sat_clause rho c); cbn; naive_solver.
Qed.

Lemma db_holds_seeded rho m clauses :
  db_holds rho (seeded m clauses) = true ↔
  ∀ j c, clauses !! j = Some c → rho (m + N.of_nat j) = true → sat_clause rho c = true.
Proof.
  unfold db_holds. rewrite forallb_elem. split.
  - intros H j c Hj. apply clause_holds_guarded, H, elem_of_lookup_imap. eauto.
  - intros H x (j & c & -> & Hj)%elem_of_lookup_imap. apply clause_holds_guarded. eauto.
Qed.

(** The clauses with the indices [ks] can be met with the candidate. *)
Definition meets (clauses : list ModelClause) (rejected : N) (ks : list nat) (g : N → bool) : Prop :=
  g rejected = true ∧ ∀ j c, j ∈ ks → clauses !! j = Some c → sat_clause g c = true.

Lemma sat_clause_agree g h m c :
  bounded_clause m c → (∀ i, i < m → g i = h i) → sat_clause g c = sat_clause h c.
Proof.
  unfold bounded_clause, sat_clause. intros HF E. induction HF as [|l ls Hl _ IH]; [done|].
  cbn. by rewrite IH, E.
Qed.

Lemma models_seeded m clauses rejected ks :
  rejected < m → Forall (bounded_clause m) clauses →
  (∃ rho, models rho (seeded m clauses) ((positive <$> (sel m <$> ks)) ++ [positive (mkSatVar rejected)])) ↔
  ∃ g, meets clauses rejected ks g.
Proof.
  intros Hr Hb.
  assert (Ha : ∀ rho, forallb (lit_holds rho) ((positive <$> (sel m <$> ks)) ++ [positive (mkSatVar rejected)]) = true ↔
    rho rejected = true ∧ ∀ j, j ∈ ks → rho (m + N.of_nat j) = true).
  { intros rho. rewrite forallb_elem. split.
    - intros H. split.
      + specialize (H (positive (mkSatVar rejected)) ltac:(set_solver)). cbv [lit_holds] in H. cbn in H.
        by destruct (rho rejected).
      + intros j Hj. specialize (H (positive (sel m j)) ltac:(set_solver)). unfold lit_holds in H. cbn in H.
        by destruct (rho _).
    - intros [H1 H2] l [(v & -> & (j & -> & Hj)%list_elem_of_fmap)%list_elem_of_fmap|
        ->%list_elem_of_singleton]%elem_of_app; unfold lit_holds; cbn; [by rewrite H2|by rewrite H1]. }
  split.
  - intros (rho & Hdb & [H1 H2]%Ha). exists rho. split; [done|]. intros j c Hj Hc.
    eapply db_holds_seeded in Hdb; eauto.
  - intros (g & H1 & H2). exists (λ i, if i <? m then g i else bool_decide (N.to_nat (i - m) ∈ ks)).
    assert (Hlo : ∀ i, i < m → (if i <? m then g i else bool_decide (N.to_nat (i - m) ∈ ks)) = g i)
      by (intros i Hi; by rewrite (proj2 (N.ltb_lt _ _) Hi)).
    assert (Hhi : ∀ j, (if m + N.of_nat j <? m then g (m + N.of_nat j)
      else bool_decide (N.to_nat (m + N.of_nat j - m) ∈ ks)) = bool_decide (j ∈ ks)).
    { intros j. rewrite (proj2 (N.ltb_ge _ _)) by lia. by replace (N.to_nat (m + N.of_nat j - m)) with j by lia. }
    split.
    + apply db_holds_seeded. intros j c Hc. cbn beta. rewrite Hhi, bool_decide_eq_true. intros Hj.
      rewrite (sat_clause_agree _ g m); [eauto| |done]. eapply Forall_lookup_1; eauto.
    + apply Ha. cbn beta. rewrite Hlo by done. split; [done|]. intros j Hj. rewrite Hhi.
      by apply bool_decide_eq_true.
Qed.

(** ** The phases *)

Lemma elem_delete {A} (l : list A) i x : x ∈ delete i l ↔ ∃ j, j ≠ i ∧ l !! j = Some x.
Proof.
  rewrite delete_take_drop, elem_of_app. split.
  - intros [[j [Hj Hlt]%lookup_take_Some]%list_elem_of_lookup|[j Hj]%list_elem_of_lookup].
    + exists j. split; [lia|done].
    + rewrite lookup_drop in Hj. eexists. split; [|exact Hj]. lia.
  - intros (j & Hne & Hj). destruct (decide (j < i)%nat).
    + left. apply (list_elem_of_lookup_2 _ j). by rewrite lookup_take_lt.
    + right. apply (list_elem_of_lookup_2 _ (j - Datatypes.S i)). rewrite lookup_drop.
      by replace (Datatypes.S i + (j - Datatypes.S i))%nat with j by lia.
Qed.

Section Phases.
Context {S : Type} `{SatContract S}.

Lemma alloc_symbols_spec k s n db :
  sat_state s n db → n + N.of_nat k ≤ 4294967296 →
  let '(vs, s') := alloc_symbols k s in
  vs = sel n <$> seq 0 k ∧ sat_state s' (n + N.of_nat k) db.
Proof.
  revert s n. induction k as [|k IH]; intros s n Hs Hn; cbn [alloc_symbols].
  { split; [done|]. by rewrite N.add_0_r. }
  pose proof (new_var_ok _ _ _ Hs ltac:(lia)) as Hv. destruct (new_var s) as [v s1]. destruct Hv as [-> Hs1].
  specialize (IH s1 (n + 1) Hs1 ltac:(lia)). destruct (alloc_symbols k s1) as [vs s2].
  destruct IH as [-> Hs2]. split.
  - cbn. f_equal; [unfold sel; f_equal; lia|]. rewrite <-fmap_S_seq, <-list_fmap_compose.
    apply list_fmap_ext. intros i j _. unfold sel. cbn. f_equal. lia.
  - by replace (n + N.of_nat (Datatypes.S k)) with (n + 1 + N.of_nat k) by lia.
Qed.

Lemma guarded_spec m vs j c :
  vs = sel 0 <$> seq 0 (N.to_nat m) → bounded_clause m c → guarded vs (sel m j) c = Some (gclause m j c).
Proof.
  intros -> Hb. unfold guarded, gclause.
  assert (E : mapM (λ l, v ← (sel 0 <$> seq 0 (N.to_nat m)) !! N.to_nat l.1;
      Some (if l.2 : bool then positive v else negative v)) (literals c) = Some (glit <$> literals c)).
  { apply mapM_Some. unfold bounded_clause in Hb. induction Hb as [|[g p] ls Hl _ IH]; cbn; constructor; [|done].
    cbn in *. rewrite list_lookup_fmap, lookup_seq_lt by lia. cbn. unfold sel. rewrite N2Nat.id. by destruct p. }
  by rewrite E.
Qed.

Lemma gclause_below m j c n :
  bounded_clause m c → m + N.of_nat j < n → Forall (below n) (gclause m j c).
Proof.
  intros Hb Hn. unfold gclause, below. constructor; [exact Hn|]. apply Forall_fmap.
  eapply Forall_impl; [exact Hb|]. intros l Hl. cbn in *. lia.
Qed.

(** Seeding never fails: with the selectors off every clause holds. *)
Lemma seed_spec m vs clauses pre s :
  vs = sel 0 <$> seq 0 (N.to_nat m) → Forall (bounded_clause m) clauses →
  sat_state s (m + N.of_nat (length pre)) (seeded m pre) →
  m + N.of_nat (length pre + length clauses) ≤ 4294967296 →
  let '(r, s') := seed_clauses vs clauses s in
  r = Ok (sel m <$> seq (length pre) (length clauses)) ∧
  sat_state s' (m + N.of_nat (length pre + length clauses)) (seeded m (pre ++ clauses)).
Proof.
  intros Hvs HF. revert pre s. induction HF as [|c clauses Hc _ IH]; intros pre s Hs Hn; cbn [seed_clauses].
  { rewrite Nat.add_0_r, app_nil_r. done. }
  cbn [length] in *. pose proof (new_var_ok _ _ _ Hs ltac:(lia)) as Hv. destruct (new_var s) as [v s1].
  destruct Hv as [-> Hs1]. change (mkSatVar (m + N.of_nat (length pre))) with (sel m (length pre)).
  rewrite (guarded_spec m) by done.
  assert (Hseed : seeded m pre ++ [gclause m (length pre) c] = seeded m (pre ++ [c])).
  { unfold seeded. rewrite imap_app. cbn. by rewrite Nat.add_0_r. }
  pose proof (add_clause_ok _ _ _ (gclause m (length pre) c) Hs1 ltac:(apply gclause_below; [done|lia])) as Ha.
  rewrite Hseed in Ha. destruct (add_clause s1 _) as [[[]|e] s2].
  - replace (m + N.of_nat (length pre) + 1) with (m + N.of_nat (length (pre ++ [c]))) in Ha
      by (rewrite length_app; cbn; lia).
    specialize (IH (pre ++ [c]) s2 Ha). rewrite length_app in IH. cbn [length] in IH.
    specialize (IH ltac:(lia)). destruct (seed_clauses vs clauses s2) as [r s3]. destruct IH as [-> Hs3].
    rewrite <-app_assoc in Hs3. cbn [app] in Hs3. split.
    + cbn. rewrite Nat.add_1_r. done.
    + by replace (length pre + Datatypes.S (length clauses))%nat with (length pre + 1 + length clauses)%nat by lia.
  - exfalso. destruct Ha as [_ Hu]. specialize (Hu (λ _, false)). apply not_true_iff_false in Hu.
    apply Hu, db_holds_seeded. done.
Qed.

Context (clauses : list ModelClause) (rejected m : N).
Context (Hr : rejected < m) (Hb : Forall (bounded_clause m) clauses).
Let total := m + N.of_nat (length clauses).
Let candidate := positive (mkSatVar rejected).

Lemma solve_spec s ks :
  sat_state s total (seeded m clauses) → Forall (λ j, (j < length clauses)%nat) ks →
  match solve_with_assumptions s ((positive <$> (sel m <$> ks)) ++ [candidate]) with
  | (Ok o, s') => sat_state s' total (seeded m clauses) ∧
      match o with
      | OutcomeSat => ∃ g, meets clauses rejected ks g
      | OutcomeUnsat => ¬ ∃ g, meets clauses rejected ks g
      | OutcomeUnknown => True
      end
  | (Err _, _) => False
  end.
Proof.
  intros Hs Hk. set (asm := (positive <$> (sel m <$> ks)) ++ [candidate]).
  assert (Hbelow : Forall (below total) asm).
  { apply Forall_app. split.
    - do 2 apply Forall_fmap. eapply Forall_impl; [exact Hk|]. intros j Hj. cbn in Hj. unfold below, total. cbn. lia.
    - constructor; [unfold below, total; cbn; lia|constructor]. }
  pose proof (solve_ok _ _ _ _ Hs Hbelow) as Hok.
  destruct (solve_with_assumptions s asm) as [[[]|e] s']; [..|by destruct Hok].
  - destruct Hok as [? Hm]. split; [done|]. by apply (models_seeded m clauses rejected ks).
  - destruct Hok as [? Hm]. split; [done|]. intros (rho & Hrho)%(models_seeded m clauses rejected ks); [|done..]. by apply (Hm rho).
  - by destruct Hok.
Qed.

Lemma meets_subset ks ks' g : ks' ⊆ ks → meets clauses rejected ks g → meets clauses rejected ks' g.
Proof. intros Hsub [H1 H2]. split; [done|]. intros j c Hj. apply H2. by apply Hsub. Qed.

Lemma needed_delete ks i j :
  (j < i)%nat → (∃ g, meets clauses rejected (delete j ks) g) →
  ∃ g, meets clauses rejected (delete j (delete i ks)) g.
Proof.
  intros Hj [g Hg]. exists g. eapply meets_subset, Hg.
  intros x (k & Hk1 & Hk2)%elem_delete. apply elem_delete. destruct (decide (k < i)%nat).
  - exists k. split; [done|]. by rewrite list_lookup_delete_lt in Hk2.
  - exists (Datatypes.S k). split; [lia|]. by rewrite list_lookup_delete_ge in Hk2 by lia.
Qed.

(** What is left after a run of the loop cannot be met, and every index below
    the cursor is needed. *)
Lemma shrink_spec fuel ks i s :
  sat_state s total (seeded m clauses) → Forall (λ j, (j < length clauses)%nat) ks →
  (length ks - i < fuel)%nat → (i ≤ length ks)%nat →
  (¬ ∃ g, meets clauses rejected ks g) →
  (∀ j, (j < i)%nat → ∃ g, meets clauses rejected (delete j ks) g) →
  match shrink fuel candidate (sel m <$> ks) i s with
  | Ok kept => ∃ ks', kept = sel m <$> ks' ∧ ks' `sublist_of` ks ∧
      (¬ ∃ g, meets clauses rejected ks' g) ∧
      ∀ j, (j < length ks')%nat → ∃ g, meets clauses rejected (delete j ks') g
  | Err e => e = sat_fault "shrink solve was inconclusive (resource limit)"
  end.
Proof.
  revert ks i s. induction fuel as [|fuel IH]; intros ks i s Hs Hk Hf Hi Hun Hmin; [lia|]. cbn [shrink].
  rewrite length_fmap. case_decide as Hlt.
  2: { exists ks. split_and!; [done|done|done|]. intros j Hj. apply Hmin. lia. }
  rewrite <-list_fmap_delete. pose proof (solve_spec s (delete i ks) Hs) as Hsolve.
  assert (Hk' : Forall (λ j, (j < length clauses)%nat) (delete i ks)) by (by apply Forall_delete).
  specialize (Hsolve Hk'). destruct (solve_with_assumptions s _) as [[[]|e] s']; [..|done].
  - destruct Hsolve as [Hs' Hsat]. apply IH; [done|done|lia|lia|done|].
    intros j Hj. destruct (decide (j = i)) as [->|]; [done|]. apply Hmin. lia.
  - destruct Hsolve as [Hs' Hunsat].
    pose proof (length_delete _ _ (lookup_lt_is_Some_2 _ _ Hlt)) as Hlen.
    specialize (IH (delete i ks) i s' Hs' Hk' ltac:(lia) ltac:(lia) Hunsat
      (λ j Hj, needed_delete ks i j Hj (Hmin j Hj))).
    destruct (shrink fuel candidate _ i s') as [kept|e]; [|done].
    destruct IH as (ks' & -> & Hsub & H1 & H2). exists ks'. split_and!; [done| |done|done].
    etransitivity; [exact Hsub|]. apply sublist_delete.
  - by destruct Hsolve.
Qed.
End Phases.

(** ** The surviving clauses *)

Lemma picked (full : list ModelClause) m (K : gset N) l : ∀ o ks,
  ks `sublist_of` seq o (length l) → (∀ i, full !! (o + i)%nat = l !! i) →
  (∀ j, j ∈ seq o (length l) → index (sel m j) ∈ K ↔ j ∈ ks) →
  Forall2 (λ j c, full !! j = Some c) ks
    (fst <$> filter (λ cs : ModelClause * SatVar, index cs.2 ∈ K) (zip l (sel m <$> seq o (length l)))).
Proof.
  induction l as [|c l IH]; intros o ks Hsub Hfull HK; cbn [length seq] in Hsub |- *.
  { apply sublist_nil_r in Hsub as ->. constructor. }
  change (zip (c :: l) (sel m <$> o :: seq (Datatypes.S o) (length l))) with
    ((c, sel m o) :: zip l (sel m <$> seq (Datatypes.S o) (length l))).
  assert (Hfull' : ∀ i, full !! (Datatypes.S o + i)%nat = l !! i).
  { intros i. rewrite Nat.add_succ_l, <-Nat.add_succ_r. apply Hfull. }
  apply sublist_cons_r in Hsub as [Hsub|(ks' & -> & Hsub)].
  - assert (Ho : o ∉ ks).
    { intros Hin. eapply elem_of_submseteq in Hin; [|by apply sublist_submseteq].
      apply elem_of_seq in Hin. lia. }
    rewrite filter_cons_False.
    + apply IH; [done|done|]. intros j Hj. apply HK. cbn. set_solver.
    + cbn [snd]. rewrite HK; [done|]. cbn. set_solver.
  - rewrite filter_cons_True by (cbn [snd]; apply HK; cbn; set_solver). cbn [fmap list_fmap fst].
    constructor; [by rewrite <-(Nat.add_0_r o), (Hfull 0%nat)|]. apply IH; [done|done|].
    intros j Hj. rewrite HK by (cbn; set_solver). apply elem_of_seq in Hj.
    rewrite elem_of_cons. split; [intros [->|?]; [lia|done]|by right].
Qed.

Lemma surviving_spec m clauses ks :
  ks `sublist_of` seq 0 (length clauses) →
  Forall2 (λ j c, clauses !! j = Some c) ks
    (surviving (sel m <$> ks) clauses (sel m <$> seq 0 (length clauses))).
Proof.
  intros Hsub. apply picked; [done|done|]. intros j _.
  rewrite elem_of_list_to_set, <-list_fmap_compose, list_elem_of_fmap. split.
  - intros (i & E & Hi). cbn in E. by replace j with i by lia.
  - intros Hj. by exists j.
Qed.

Lemma indices_mus clauses rejected ks core :
  ks `sublist_of` seq 0 (length clauses) → Forall2 (λ j c, clauses !! j = Some c) ks core →
  (¬ ∃ g, meets clauses rejected ks g) →
  (∀ j, (j < length ks)%nat → ∃ g, meets clauses rejected (delete j ks) g) →
  is_mus clauses core rejected.
Proof.
  intros Hsub HF Hun Hmin. split.
  - intros c [i Hi]%list_elem_of_lookup. destruct (Forall2_lookup_r _ _ _ _ _ HF Hi) as (j & _ & Hj).
    by eapply list_elem_of_lookup_2.
  - intros g Hg. apply not_true_iff_false. intros Hs. apply Hun. exists g. split; [done|].
    intros j c [i Hi]%list_elem_of_lookup Hc. destruct (Forall2_lookup_l _ _ _ _ _ HF Hi) as (c' & Hi' & Hc').
    simplify_eq. unfold sat_clauses in Hs. rewrite forallb_elem in Hs.
    apply Hs. by eapply list_elem_of_lookup_2.
  - intros i c Hi. destruct (Hmin i) as (g & Hg & Hrest).
    { rewrite (Forall2_length _ _ _ HF). by eapply lookup_lt_Some. }
    exists g. split; [done|]. intros j c' Hj Hne.
    destruct (Forall2_lookup_r _ _ _ _ _ HF Hj) as (k & Hk & Hc'). eapply Hrest; [|exact Hc'].
    apply (elem_delete ks i k). eauto.
Qed.

(** ** The bound on the indices *)

Lemma max_global_ge rejected clauses :
  rejected ≤ max_global rejected clauses ∧
  Forall (bounded_clause (max_global rejected clauses + 1)) clauses.
Proof.
  assert (Hin : ∀ ls m, m ≤ foldl (λ m l, N.max m l.1) m ls ∧
    Forall (λ l : N * bool, l.1 ≤ foldl (λ m l, N.max m l.1) m ls) ls).
  { induction ls as [|l ls IH]; intros m; cbn; [by split|]. destruct (IH (N.max m l.1)) as [H1 H2].
    split; [lia|]. constructor; [lia|done]. }
  unfold max_global. revert rejected. induction clauses as [|c clauses IH]; intros rejected; cbn; [by split|].
  destruct (IH (foldl (λ m l, N.max m l.1) rejected (literals c))) as [H1 H2].
  destruct (Hin (literals c) rejected) as [H3 H4]. split; [lia|]. constructor; [|done].
  eapply Forall_impl; [exact H4|]. intros l Hl. cbn in *. lia.
Qed.

Section Extraction.
Context {S : Type} `{SatContract S}.

(** The outcomes of the extraction: the candidate fits, or a minimal
    unsatisfiable subset, or the SAT solver gave up. *)
Lemma extract_spec clauses rejected :
  max_global rejected clauses + 1 + N.of_nat (length clauses) ≤ 4294967296 →
  match extract_indexed_mus (S := S) clauses rejected with
  | Ok None => ∃ g, g rejected = true ∧ sat_clauses g clauses = true
  | Ok (Some core) => rejected_global core = rejected ∧ is_mus clauses (core_clauses core) rejected
  | Err e => e = sat_fault "initial solve was inconclusive (resource limit)" ∨
      e = sat_fault "shrink solve was inconclusive (resource limit)"
  end.
Proof.
  intros Hsize. destruct (max_global_ge rejected clauses) as [Hr Hb]. unfold extract_indexed_mus.
  set (m := max_global rejected clauses + 1) in *.
  replace (Datatypes.S (N.to_nat (max_global rejected clauses))) with (N.to_nat m) by lia.
  pose proof (alloc_symbols_spec (N.to_nat m) new_solver 0 [] new_solver_ok ltac:(lia)) as Ha.
  destruct (alloc_symbols _ new_solver) as [vs s]. destruct Ha as [Hvs Hs].
  rewrite N.add_0_l, N2Nat.id in Hs.
  pose proof (seed_spec m vs clauses [] s Hvs Hb) as Hseed. cbn [length Nat.add app] in Hseed.
  rewrite N.add_0_r in Hseed. specialize (Hseed Hs ltac:(lia)).
  destruct (seed_clauses vs clauses s) as [r s1]. destruct Hseed as [-> Hs1]. cbn [mbind result_bind].
  rewrite Hvs, list_lookup_fmap, lookup_seq_lt by lia. cbn [fmap option_fmap option_map ok_or mbind result_bind].
  replace (sel 0 (0 + N.to_nat rejected)) with (mkSatVar rejected) by (unfold sel; f_equal; lia).
  assert (Hk : Forall (λ j, (j < length clauses)%nat) (seq 0 (length clauses))).
  { apply Forall_forall. intros j Hj%elem_of_seq. lia. }
  pose proof (solve_spec clauses rejected m ltac:(lia) Hb s1 _ Hs1 Hk) as Hsolve.
  destruct (solve_with_assumptions s1 _) as [[[]|e] s2]; [..|done].
  - destruct Hsolve as (_ & g & Hg & Hall). exists g. split; [done|]. apply forallb_elem.
    intros c [j Hj]%list_elem_of_lookup. eapply Hall; [|exact Hj]. apply elem_of_seq.
    apply lookup_lt_Some in Hj. lia.
  - destruct Hsolve as [Hs2 Hun].
    pose proof (shrink_spec clauses rejected m ltac:(lia) Hb (Datatypes.S (length (sel m <$> seq 0 (length clauses))))
      (seq 0 (length clauses)) 0 s2 Hs2 Hk) as Hsh.
    rewrite length_fmap, length_seq in *. specialize (Hsh ltac:(lia) ltac:(lia) Hun ltac:(lia)).
    destruct (shrink _ _ _ _ _) as [kept|e]; cbn; [|by right].
    destruct Hsh as (ks & -> & Hsub & H1 & H2). split; [done|].
    eapply indices_mus; [exact Hsub|by apply surviving_spec|done|done].
  - by left.
Qed.
End Extraction.
