(* ===== verification/Explain.v ===== *)
(** * Why an option is rejected

    Models [solver/src/explain.rs] around the extraction of [Mus.v]: the table
    of each partition is turned into clauses by walking its falsifying paths,
    the selections of the session are added as unit clauses, and the minimal
    core is put back into facet and option names.

    The walk recurses over the node table on fuel; a table the loader accepts
    has its children before their parents, so the fuel is enough.  A panic of
    the source, and a walk that would not end, are [IndexPanic]. *)
From S2P Require Import Prelude Bdd BddLayout BddBytes CcmFormat Backend MultiPart Session SessionProps.
From S2P Require Import CuddBackend SatBackend Mus.
Local Open Scope N_scope.

(** ** Labels *)

Record LabeledAtom : Type := mkAtom { la_facet : string; la_value : string }.

Inductive CoreConstraintKind : Type := Selection | ModelRule.

Record LabeledLiteral : Type := mkLabeledLiteral { ll_atom : LabeledAtom; asserted : bool }.

Record LabeledConstraint : Type := mkConstraint {
  lc_kind : CoreConstraintKind;
  lc_atoms : list LabeledAtom;
  lc_forbidden : list LabeledLiteral;
}.

Record LabeledCore : Type := mkLabeledCore {
  rejected : LabeledAtom;
  conflicting_constraints : list LabeledConstraint;
  minimal : bool;
}.

Record RejectionExplanation : Type := mkExplanation {
  would_reject : bool;
  ex_core : option LabeledCore;
}.

#[export] Instance LabeledAtom_eq_dec : EqDecision LabeledAtom.
Proof. solve_decision. Defined.
#[export] Instance CoreConstraintKind_eq_dec : EqDecision CoreConstraintKind.
Proof. solve_decision. Defined.
#[export] Instance LabeledLiteral_eq_dec : EqDecision LabeledLiteral.
Proof. solve_decision. Defined.
#[export] Instance LabeledConstraint_eq_dec : EqDecision LabeledConstraint.
Proof. solve_decision. Defined.

(** The derived orders: field by field. *)
Definition atom_cmp (a b : LabeledAtom) : comparison :=
  match String.compare (la_facet a) (la_facet b) with
  | Eq => String.compare (la_value a) (la_value b)
  | c => c
  end.

Definition bool_cmp (a b : bool) : comparison :=
  match a, b with
  | false, true => Lt
  | true, false => Gt
  | _, _ => Eq
  end.

Definition literal_cmp (a b : LabeledLiteral) : comparison :=
  match atom_cmp (ll_atom a) (ll_atom b) with
  | Eq => bool_cmp (asserted a) (asserted b)
  | c => c
  end.

(** [Vec]'s lexicographic order. *)
Fixpoint list_cmp {A} (cmp : A → A → comparison) (l k : list A) : comparison :=
  match l, k with
  | [], [] => Eq
  | [], _ :: _ => Lt
  | _ :: _, [] => Gt
  | x :: l, y :: k => match cmp x y with Eq => list_cmp cmp l k | c => c end
  end.

Definition kind_rank (k : CoreConstraintKind) : nat := match k with Selection => 0 | ModelRule => 1 end.

Definition constraint_cmp (a b : LabeledConstraint) : comparison :=
  match Nat.compare (kind_rank (lc_kind a)) (kind_rank (lc_kind b)) with
  | Eq =>
      match list_cmp atom_cmp (lc_atoms a) (lc_atoms b) with
      | Eq => list_cmp literal_cmp (lc_forbidden a) (lc_forbidden b)
      | c => c
      end
  | c => c
  end.

(** [sort] by a comparison, and [dedup] of neighbours. *)
Definition cmp_le {A} (cmp : A → A → comparison) (a b : A) : Prop := cmp a b ≠ Gt.

#[export] Instance cmp_le_dec {A} (cmp : A → A → comparison) a b : Decision (cmp_le cmp a b).
Proof. unfold cmp_le. apply _. Defined.

Definition sort_by {A} (cmp : A → A → comparison) (l : list A) : list A := merge_sort (cmp_le cmp) l.

Fixpoint dedup {A} `{EqDecision A} (l : list A) : list A :=
  match l with
  | [] => []
  | x :: l =>
      match l with
      | y :: _ => if decide (x = y) then dedup l else x :: dedup l
      | [] => [x]
      end
  end.

(** ** The global symbol index *)

Record GlobalSymbolIndex : Type := mkIndex {
  gs_names : list string;
  by_name : gmap string N;
}.

Definition index_of_names (names : list string) : GlobalSymbolIndex :=
  mkIndex names (list_to_map (reverse (imap (λ i s, (s, N.of_nat i mod 4294967296)) names))).

Definition index_of (x : GlobalSymbolIndex) (symbol : string) : option N := by_name x !! symbol.

Definition name_of (x : GlobalSymbolIndex) (global : N) : option string := gs_names x !! N.to_nat global.

Definition any_with_prefix (x : GlobalSymbolIndex) (prefix : string) : bool :=
  existsb (λ k, bool_decide (is_Some (strip_prefix prefix k))) (elements (dom (by_name x))).

(** ** Falsifying paths *)

Definition MAX_FALSIFYING_PATHS_PER_PARTITION : N := 100000.

Definition fault (msg : string) : session_error := BackendFailed (Invariant msg).

Definition resolve_terminal_ref (nodes : list BddNode) (id : N) : result session_error (option bool) :=
  if id =? TERMINAL_TRUE then Ok (Some true)
  else if id =? TERMINAL_FALSE then Ok (Some false)
  else
    match nodes !! N.to_nat id with
    | Some node =>
        if bn_var_index node =? TERMINAL_VAR_INDEX then
          if id =? 0 then Ok (Some false)
          else if id =? 1 then Ok (Some true)
          else Err (fault "explain: terminal-tagged node at an index other than 0 or 1")
        else Ok None
    | None => Err (fault "explain: BDD child index out of range during path walk")
    end.

Definition clause_from_assignment (assignment : list (N * bool)) (local_to_global : list N)
    : result session_error ModelClause :=
  lits ← collect_results (λ a : N * bool,
    global ← ok_or (local_to_global !! N.to_nat a.1)
               (fault "explain: assignment variable out of range vs symbol table");
    Ok (global, negb a.2)) assignment;
  Ok (mkModelClause lits).

Fixpoint walk_node (fuel : nat) (nodes : list BddNode) (local_to_global : list N) (node_id : N)
    (assignment : list (N * bool)) (out : list ModelClause) (paths_emitted : N)
    : result session_error (list ModelClause * N) :=
  match fuel with
  | O => Err IndexPanic
  | S fuel =>
      t ← resolve_terminal_ref nodes node_id;
      match t with
      | Some true => Ok (out, paths_emitted)
      | Some false =>
          c ← clause_from_assignment assignment local_to_global;
          if decide (MAX_FALSIFYING_PATHS_PER_PARTITION < paths_emitted + 1)
          then Err (fault "explain: BDD falsifying-path enumeration exceeded the safety cap")
          else Ok (out ++ [c], paths_emitted + 1)
      | None =>
          node ← ok_or (nodes !! N.to_nat node_id)
                   (fault "explain: BDD child index out of range during path walk");
          if decide (N.of_nat (length local_to_global) ≤ bn_var_index node) then
            Err (fault "explain: BDD node var_index out of range vs symbol table")
          else
            let var := bn_var_index node in
            '(out, paths_emitted) ← walk_node fuel nodes local_to_global (bn_low_id node)
                                      (assignment ++ [(var, false)]) out paths_emitted;
            walk_node fuel nodes local_to_global (bn_high_id node) (assignment ++ [(var, true)]) out paths_emitted
      end
  end.

Definition enumerate_falsifying_clauses (nodes : list BddNode) (root : N) (local_to_global : list N)
    (out : list ModelClause) : result session_error (list ModelClause) :=
  t ← resolve_terminal_ref nodes root;
  match t with
  | Some true => Ok out
  | Some false => Ok (out ++ [mkModelClause []])
  | None =>
      '(out, _) ← walk_node (S (length nodes)) nodes local_to_global root [] out 0;
      Ok out
  end.

(** ** The clauses of the session *)

Section Session.
Context {B : Type} `{SolverBackend B}.

Definition from_session (s : Session B) : GlobalSymbolIndex :=
  index_of_names (bt_elements (list_to_set (flat_map part_order (parts s)))).

(** [Some (order, nodes, root)] per partition; [roots[0]] may panic. *)
Definition bdd_source (p : PartitionCcm) : result session_error (option (list string * list BddNode * N)) :=
  root ← ok_or (bp_roots (pt_bdd p) !! 0%nat) IndexPanic;
  Ok (Some (variable_order (pt_symbols p), bp_nodes (pt_bdd p), root)).

Definition partition_bdd_sources (s : Session B)
    : result session_error (list (option (list string * list BddNode * N))) :=
  match payload (ccm s) with
  | None => Ok [None]
  | Some m => collect_results bdd_source (mp_clusters m ++ option_list (mp_bridge m))
  end.

Definition pinned_symbols (s : Session B) : gset string := list_to_set (compound <$> committed s).

Fixpoint source_clauses (x : GlobalSymbolIndex) (sources : list (option (list string * list BddNode * N)))
    (out : list ModelClause) : result session_error (list ModelClause) :=
  match sources with
  | [] => Ok out
  | None :: sources => source_clauses x sources out
  | Some (order, nodes, root) :: sources =>
      local_to_global ← collect_results (λ sym, ok_or (index_of x sym)
        (fault "explain: partition symbol missing from the global union index")) order;
      out ← enumerate_falsifying_clauses nodes root local_to_global out;
      source_clauses x sources out
  end.

Definition serialize_composite_cnf (s : Session B) (x : GlobalSymbolIndex)
    : result session_error (list ModelClause) :=
  sources ← partition_bdd_sources s;
  clauses ← source_clauses x sources [];
  units ← collect_results (λ c, g ← ok_or (index_of x c)
    (fault "explain: pinned selection missing from the global union index");
    Ok (mkModelClause [(g, true)])) (bt_elements (pinned_symbols s));
  Ok (clauses ++ units).

(** ** Labelling *)

Definition atom_from_symbol (symbol : string) : result session_error LabeledAtom :=
  '(facet, value) ← ok_or (rsplit_once symbol) (fault "explain: symbol is not in {facet}.{value} form");
  Ok (mkAtom facet value).

Definition label_literal (x : GlobalSymbolIndex) (l : N * bool) : result session_error LabeledLiteral :=
  name ← ok_or (name_of x l.1) (fault "explain: MUS clause variable index has no symbol-table label");
  atom ← atom_from_symbol name;
  Ok (mkLabeledLiteral atom (negb l.2)).

Definition classify (pinned : gset string) (atoms : list LabeledAtom) : CoreConstraintKind :=
  match atoms with
  | [only] => if decide ((la_facet only +:+ "." +:+ la_value only) ∈ pinned) then Selection else ModelRule
  | _ => ModelRule
  end.

Definition label_clause (x : GlobalSymbolIndex) (pinned : gset string) (c : ModelClause)
    : result session_error LabeledConstraint :=
  forbidden ← collect_results (label_literal x) (literals c);
  let atoms := dedup (sort_by atom_cmp (ll_atom <$> forbidden)) in
  Ok (mkConstraint (classify pinned atoms) atoms (dedup (sort_by literal_cmp forbidden))).

Definition label_indexed_core (s : Session B) (x : GlobalSymbolIndex) (core : IndexedCore)
    : result session_error LabeledCore :=
  name ← ok_or (name_of x (rejected_global core))
           (fault "explain: rejected candidate index has no symbol-table label");
  atom ← atom_from_symbol name;
  constraints ← collect_results (label_clause x (pinned_symbols s)) (core_clauses core);
  Ok (mkLabeledCore atom (dedup (sort_by constraint_cmp constraints)) true).

Context {T : Type} `{SatBackend T}.

Definition explain_rejection (s : Session B) (facet option : string)
    : result session_error RejectionExplanation :=
  if unsymbolled s then Err (UnknownOption facet option)
  else
    let compound := facet +:+ "." +:+ option in
    let x := from_session s in
    match index_of x compound with
    | None =>
        if any_with_prefix x (facet +:+ ".") then Err (UnknownOption facet option) else Err (UnknownFacet facet)
    | Some g =>
        clauses ← serialize_composite_cnf s x;
        indexed ← extract_indexed_mus (S := T) clauses g;
        match indexed with
        | None => Ok (mkExplanation false None)
        | Some core => c ← label_indexed_core s x core; Ok (mkExplanation true (Some c))
        end
    end.
End Session.

(** ** The clauses of a table *)

(** A variable of a table under an assignment of the global symbols. *)
Definition local_of (l2g : list N) (g : N → bool) (i : N) : bool := default false (g <$> l2g !! N.to_nat i).

(** The assignment agrees with a path. *)
Definition on_path (rho : N → bool) (asg : list (N * bool)) : bool := forallb (λ a, Bool.eqb (rho a.1) a.2) asg.

Lemma on_path_snoc rho asg v b : on_path rho (asg ++ [(v, b)]) = on_path rho asg && Bool.eqb (rho v) b.
Proof. unfold on_path. rewrite forallb_app. cbn. by rewrite andb_true_r. Qed.

Definition cap_fault : session_error := fault "explain: BDD falsifying-path enumeration exceeded the safety cap".

(** The literals of a clause are in [l2g]. *)
Definition over (l2g : list N) (c : ModelClause) : Prop := Forall (λ l, l.1 ∈ l2g) (literals c).

Lemma path_clause l2g asg :
  Forall (λ a, a.1 < N.of_nat (length l2g)) asg →
  ∃ c, clause_from_assignment asg l2g = Ok c ∧ over l2g c ∧
    ∀ g, sat_clause g c = negb (on_path (local_of l2g g) asg).
Proof.
  intros HF. unfold clause_from_assignment.
  assert (H : ∃ lits, collect_results (λ a : N * bool,
      global ← ok_or (l2g !! N.to_nat a.1) (fault "explain: assignment variable out of range vs symbol table");
      Ok (global, negb a.2)) asg = Ok lits ∧ over l2g (mkModelClause lits) ∧
    ∀ g, sat_clause g (mkModelClause lits) = negb (on_path (local_of l2g g) asg)).
  { induction HF as [|[v b] asg Hv _ (lits & E & Ho & Hs)]; [exists []; by repeat constructor|]. cbn in Hv.
    destruct (lookup_lt_is_Some_2 l2g (N.to_nat v)) as [gv Hg]; [lia|].
    exists ((gv, negb b) :: lits). cbn [collect_results fst snd]. rewrite Hg. cbn [ok_or mbind result_bind].
    rewrite E. cbn [mbind result_bind]. split; [done|]. split.
    { constructor; [by eapply list_elem_of_lookup_2|done]. }
    intros g. specialize (Hs g).
    unfold sat_clause, on_path in *. cbn in *. rewrite Hs. unfold local_of at 2. rewrite Hg. cbn.
    by destruct (g gv), b, (forallb _ asg). }
  destruct H as (lits & -> & Ho & Hs). by exists (mkModelClause lits).
Qed.

Section Walk.
Context (nodes : list BddNode) (l2g : list N).
Context (Hct : canonical_table (N.of_nat (length l2g)) nodes).

(** A reference the walk may follow. *)
Definition known_id (id : N) : Prop := sentinel id ∨ id < N.of_nat (length nodes).

Lemma resolve_terminal_spec id :
  known_id id →
  (∃ b, resolve_terminal_ref nodes id = Ok (Some b) ∧ ∀ rho, table_eval nodes id rho = b) ∨
  ∃ n, resolve_terminal_ref nodes id = Ok None ∧ ¬ sentinel id ∧ nodes !! N.to_nat id = Some n ∧
    bn_var_index n < N.of_nat (length l2g) ∧
    child_ok (N.to_nat id) (bn_low_id n) ∧ child_ok (N.to_nat id) (bn_high_id n) ∧
    ∀ rho, table_eval nodes id rho =
      if rho (bn_var_index n) then table_eval nodes (bn_high_id n) rho else table_eval nodes (bn_low_id n) rho.
Proof.
  intros Hk. unfold resolve_terminal_ref.
  destruct (N.eqb_spec id TERMINAL_TRUE) as [->|Ht]; [left; by exists true|].
  destruct (N.eqb_spec id TERMINAL_FALSE) as [->|Hf]; [left; by exists false|].
  destruct Hk as [[?|?]|Hlt]; [done..|].
  destruct (lookup_lt_is_Some_2 nodes (N.to_nat id)) as [n Hn]; [lia|]. rewrite Hn.
  assert (Hs : ¬ sentinel (N.of_nat (N.to_nat id))) by (rewrite N2Nat.id; by intros [?|?]).
  destruct (N.eqb_spec (bn_var_index n) TERMINAL_VAR_INDEX) as [Hv|Hv].
  - left. pose proof (ct_node _ _ Hct _ _ Hn) as Ho. unfold node_ok in Ho. rewrite decide_True in Ho by done.
    assert (He : ∀ rho, table_eval nodes id rho = bool_decide (N.to_nat id = 1%nat)).
    { intros rho. rewrite <-(N2Nat.id id) at 1. by apply (table_eval_terminal _ _ Hct _ n). }
    destruct Ho as [(Hi & _)|(Hi & _)].
    + exists false. assert (id = 0) as -> by lia. split; [done|]. intros rho. by rewrite He.
    + exists true. assert (id = 1) as -> by lia. split; [done|]. intros rho. by rewrite He.
  - right. exists n. pose proof (ct_node _ _ Hct _ _ Hn) as Ho. unfold node_ok in Ho. rewrite decide_False in Ho by done.
    destruct Ho as (Hvar & _ & Hl & Hh). split_and!; try done; [by intros [?|?]|]. intros rho.
    rewrite <-(N2Nat.id id) at 1. by apply (table_eval_node _ _ Hct).
Qed.

Lemma child_known i c : child_ok i c → (i < length nodes)%nat → known_id c.
Proof. intros [->|[->|?]] Hi; [left; by left|left; by right|right; lia]. Qed.

(** Fuel for a walk from [id]. *)
Definition enough (fuel : nat) (id : N) : Prop := (sentinel id ∧ 0 < fuel ∨ S (N.to_nat id) < fuel)%nat.

Lemma child_enough i c fuel : child_ok i c → (S i < S fuel)%nat → enough fuel c.
Proof. intros [->|[->|?]] Hi; [left; split; [by left|lia]|left; split; [by right|lia]|right; lia]. Qed.

(** The clauses a walk adds hold exactly when, on the path, the table does. *)
Lemma walk_spec fuel id asg out k :
  known_id id → enough fuel id → Forall (λ a, a.1 < N.of_nat (length l2g)) asg →
  match walk_node fuel nodes l2g id asg out k with
  | Ok (out', _) => ∃ new, out' = out ++ new ∧ Forall (over l2g) new ∧
      ∀ g, sat_clauses g new = negb (on_path (local_of l2g g) asg) || table_eval nodes id (local_of l2g g)
  | Err e => e = cap_fault
  end.
Proof.
  revert id asg out k. induction fuel as [|fuel IH]; intros id asg out k Hid Hf Ha.
  { destruct Hf as [[_ ?]|?]; lia. }
  cbn [walk_node].
  destruct (resolve_terminal_spec id Hid) as [([] & -> & He)|(n & -> & Hsent & Hn & Hv & Hl & Hh & He)];
    cbn [mbind result_bind].
  - exists []. rewrite app_nil_r. split_and!; [done..|]. intros g. by rewrite He, orb_true_r.
  - destruct (path_clause l2g asg Ha) as (c & -> & Ho & Hc). cbn [mbind result_bind].
    case_decide; [done|]. exists [c]. split_and!; [done|by constructor|]. intros g. unfold sat_clauses. cbn [forallb].
    by rewrite Hc, He, andb_true_r, orb_false_r.
  - rewrite Hn. cbn [ok_or mbind result_bind]. rewrite decide_False by lia.
    pose proof (lookup_lt_Some _ _ _ Hn) as Hlt.
    assert (Hfuel : (S (N.to_nat id) < S fuel)%nat).
    { by destruct Hf as [[? _]|?]. }
    assert (Ha' : ∀ b, Forall (λ a, a.1 < N.of_nat (length l2g)) (asg ++ [(bn_var_index n, b)])).
    { intros b. apply Forall_app. split; [done|]. by repeat constructor. }
    pose proof (IH (bn_low_id n) (asg ++ [(bn_var_index n, false)]) out k (child_known _ _ Hl Hlt)
      (child_enough _ _ _ Hl Hfuel) (Ha' false)) as IHl.
    destruct (walk_node fuel nodes l2g (bn_low_id n) _ out k) as [[out1 k1]|e]; cbn [mbind result_bind]; [|done].
    destruct IHl as (new1 & -> & Ho1 & Hn1).
    pose proof (IH (bn_high_id n) (asg ++ [(bn_var_index n, true)]) (out ++ new1) k1 (child_known _ _ Hh Hlt)
      (child_enough _ _ _ Hh Hfuel) (Ha' true)) as IHh.
    destruct (walk_node fuel nodes l2g (bn_high_id n) _ _ k1) as [[out2 k2]|e]; [|done].
    destruct IHh as (new2 & -> & Ho2 & Hn2). exists (new1 ++ new2).
    split_and!; [by rewrite app_assoc|by apply Forall_app|].
    intros g. unfold sat_clauses in *. rewrite forallb_app, Hn1, Hn2, !on_path_snoc, He.
    by destruct (on_path _ asg), (local_of l2g g (bn_var_index n)), (table_eval nodes (bn_low_id n) _),
      (table_eval nodes (bn_high_id n) _).
Qed.

Lemma enumerate_spec root out :
  known_id root →
  match enumerate_falsifying_clauses nodes root l2g out with
  | Ok out' => ∃ new, out' = out ++ new ∧ Forall (over l2g) new ∧
      ∀ g, sat_clauses g new = table_eval nodes root (local_of l2g g)
  | Err e => e = cap_fault
  end.
Proof.
  intros Hr. unfold enumerate_falsifying_clauses.
  destruct (resolve_terminal_spec root Hr) as [([] & -> & He)|(n & -> & Hsent & Hn & _)];
    cbn [mbind result_bind].
  - exists []. rewrite app_nil_r. split_and!; [done..|]. intros g. by rewrite He.
  - exists [mkModelClause []]. split_and!; [done|by repeat constructor|]. intros g. by rewrite He.
  - pose proof (walk_spec (S (length nodes)) root [] out 0 Hr) as Hw.
    destruct (walk_node _ _ _ _ _ _ _) as [[out' k]|e]; cbn [mbind result_bind];
      [|apply Hw; [right; apply lookup_lt_Some in Hn; lia|constructor]].
    destruct Hw as (new & -> & Ho & Hs); [right; apply lookup_lt_Some in Hn; lia|constructor|].
    exists new. split_and!; [done..|]. intros g. by rewrite Hs.
Qed.
End Walk.

(** ** Names and indices *)

Lemma index_of_spec names s g :
  NoDup names → N.of_nat (length names) ≤ 4294967296 →
  index_of (index_of_names names) s = Some g ↔ names !! N.to_nat g = Some s.
Proof.
  intros Hd Hl. unfold index_of, index_of_names. cbn.
  assert (Hnd : NoDup ((reverse (imap (λ i s, (s, N.of_nat i mod 4294967296)) names)).*1)).
  { rewrite fmap_reverse, fmap_imap. cbn. rewrite reverse_Permutation.
    assert (E : imap (λ n, fst ∘ (λ s, (s, N.of_nat n mod 4294967296))) names = names); [|by rewrite E].
    clear. generalize 0%nat as k. intros _. apply list_eq. intros i. rewrite list_lookup_imap. by destruct (names !! i). }
  rewrite <-elem_of_list_to_map by done. rewrite elem_of_reverse, elem_of_lookup_imap. split.
  - intros (i & x & [= <- ->] & Hi). pose proof (lookup_lt_Some _ _ _ Hi).
    rewrite N.mod_small by lia. by rewrite Nat2N.id.
  - intros Hg. exists (N.to_nat g), s. pose proof (lookup_lt_Some _ _ _ Hg).
    split; [|done]. f_equal. rewrite N2Nat.id, N.mod_small; [done|lia].
Qed.

Lemma index_of_elem names s :
  NoDup names → N.of_nat (length names) ≤ 4294967296 →
  is_Some (index_of (index_of_names names) s) ↔ s ∈ names.
Proof.
  intros Hd Hl. split.
  - intros [g Hg%index_of_spec]; [|done..]. by eapply list_elem_of_lookup_2.
  - intros [i Hi]%list_elem_of_lookup. exists (N.of_nat i). apply index_of_spec; [done..|]. by rewrite Nat2N.id.
Qed.

(** Assignments by name and by index. *)
Definition named (x : GlobalSymbolIndex) (g : N → bool) (s : string) : bool := default false (g <$> index_of x s).
Definition indexed (x : GlobalSymbolIndex) (tau : string → bool) (i : N) : bool := default false (tau <$> name_of x i).

(** A partition's table under an assignment of the names. *)
Definition part_holds (p : PartitionCcm) (tau : string → bool) : bool :=
  table_eval (bp_nodes (pt_bdd p)) (root_of p)
    (λ i, default false (tau <$> variable_order (pt_symbols p) !! N.to_nat i)).

(** The tables of the model hold, and the selected symbols. *)
Definition feasible (m : MultiPartCcm) (pins : gset string) (tau : string → bool) : Prop :=
  Forall (λ p, part_holds p tau = true) (partitions_of m) ∧ ∀ c, c ∈ pins → tau c = true.

Lemma table_eval_ext nodes root rho rho' :
  (∀ i, rho i = rho' i) → table_eval nodes root rho = table_eval nodes root rho'.
Proof.
  intros E. unfold table_eval. generalize (S (length nodes)). intros fuel. revert root.
  induction fuel as [|fuel IH]; intros root; cbn; [done|].
  destruct (nodes !! _); [|done]. by rewrite E, !IH.
Qed.

Lemma feasible_ext m pins tau tau' :
  (∀ s, (∃ p, p ∈ partitions_of m ∧ s ∈ variable_order (pt_symbols p)) ∨ s ∈ pins → tau s = tau' s) →
  feasible m pins tau → feasible m pins tau'.
Proof.
  intros E [H1 H2]. split.
  - apply Forall_forall. intros p Hp. rewrite Forall_forall in H1. rewrite <-(H1 p Hp).
    apply table_eval_ext. intros i. destruct (_ !! N.to_nat i) as [s|] eqn:Es; cbn; [|done].
    symmetry. apply E. left. exists p. split; [done|]. by eapply list_elem_of_lookup_2.
  - intros c Hc. rewrite <-E by auto. by apply H2.
Qed.

(** What the explanation relies on of a session: its tables are loaded ones,
    its partitions have their names, and selections are of known symbols. *)
Record explainable {B} (s : Session B) (m : MultiPartCcm) : Prop := {
  xp_payload : payload (ccm s) = Some m;
  xp_loadable : Forall loadable (partitions_of m);
  xp_orders : part_order <$> parts s = (variable_order ∘ pt_symbols) <$> partitions_of m;
  xp_pins : Forall (λ c, ∃ p, p ∈ partitions_of m ∧ compound c ∈ variable_order (pt_symbols p)) (committed s);
}.

(** The symbols of a model. *)
Definition model_symbols (m : MultiPartCcm) : list string :=
  bt_elements (list_to_set (flat_map (variable_order ∘ pt_symbols) (partitions_of m))).

Lemma elem_model_symbols m s :
  s ∈ model_symbols m ↔ ∃ p, p ∈ partitions_of m ∧ s ∈ variable_order (pt_symbols p).
Proof. unfold model_symbols. by rewrite elem_of_bt_elements, elem_of_list_to_set, elem_of_flat_map. Qed.

Lemma NoDup_model_symbols m : NoDup (model_symbols m).
Proof. apply NoDup_bt_elements. Qed.

Lemma from_session_spec {B} (s : Session B) m : explainable s m → from_session s = index_of_names (model_symbols m).
Proof.
  intros Hx. unfold from_session, model_symbols. do 3 f_equal.
  rewrite !flat_map_concat_map. f_equal. exact (xp_orders _ _ Hx).
Qed.

(** ** The composite formula *)

Section Cnf.
Context (m : MultiPartCcm) (Hload : Forall loadable (partitions_of m)).
Context (Hsize : N.of_nat (length (model_symbols m)) ≤ 4294967296).
Let x := index_of_names (model_symbols m).
Let M := N.of_nat (length (model_symbols m)).

Lemma symbol_index_lt s g : index_of x s = Some g → g < M.
Proof.
  intros Hg%index_of_spec; [|apply NoDup_model_symbols|done]. apply lookup_lt_Some in Hg. unfold M. lia.
Qed.

Lemma known_index s : s ∈ model_symbols m → ∃ g, index_of x s = Some g.
Proof. intros Hs. apply index_of_elem; [apply NoDup_model_symbols|done|done]. Qed.

(** The remap of a partition's variables. *)
Lemma local_to_global_spec order :
  (∀ s, s ∈ order → s ∈ model_symbols m) →
  ∃ l2g, collect_results (λ sym, ok_or (index_of x sym)
      (fault "explain: partition symbol missing from the global union index")) order = Ok l2g ∧
    length l2g = length order ∧ Forall (λ g, g < M) l2g ∧
    ∀ g i, local_of l2g g i = default false (named x g <$> order !! N.to_nat i).
Proof.
  intros Hin.
  assert (H : ∃ l2g, Forall2 (λ s g, index_of x s = Some g) order l2g).
  { induction order as [|s order IH]; [by exists []|].
    destruct (known_index s) as [g Hg]; [apply Hin; by left|].
    destruct IH as [l2g HF]; [intros; apply Hin; by right|]. exists (g :: l2g). by constructor. }
  destruct H as [l2g HF]. exists l2g. split_and!.
  - apply collect_results_Ok. eapply Forall2_impl; [exact HF|]. intros s g Hg. cbn beta. by rewrite Hg.
  - by rewrite (Forall2_length _ _ _ HF).
  - apply Forall_forall. intros g [i Hi]%list_elem_of_lookup.
    destruct (Forall2_lookup_r _ _ _ _ _ HF Hi) as (s & _ & Hs). by eapply symbol_index_lt.
  - intros g i. unfold local_of. destruct (l2g !! N.to_nat i) as [v|] eqn:E.
    + destruct (Forall2_lookup_r _ _ _ _ _ HF E) as (s & -> & Hs). cbn. unfold named. by rewrite Hs.
    + destruct (order !! N.to_nat i) as [s|] eqn:Es; [|done].
      destruct (Forall2_lookup_l _ _ _ _ _ HF Es) as (v & Hv & _). congruence.
Qed.

Definition source (p : PartitionCcm) : option (list string * list BddNode * N) :=
  Some (variable_order (pt_symbols p), bp_nodes (pt_bdd p), root_of p).

Lemma over_bounded l2g c : Forall (λ g, g < M) l2g → over l2g c → bounded_clause M c.
Proof.
  intros HF Ho. unfold bounded_clause. eapply Forall_impl; [exact Ho|]. intros l Hl.
  by eapply Forall_forall in HF.
Qed.

Lemma source_clauses_spec ps out :
  (∀ p, p ∈ ps → p ∈ partitions_of m) →
  match source_clauses x (source <$> ps) out with
  | Ok out' => ∃ new, out' = out ++ new ∧ Forall (bounded_clause M) new ∧
      ∀ g, sat_clauses g new = forallb (λ p, part_holds p (named x g)) ps
  | Err e => e = cap_fault
  end.
Proof.
  revert out. induction ps as [|p ps IH]; intros out Hin; cbn [source_clauses fmap list_fmap source].
  { exists []. by rewrite app_nil_r. }
  assert (Hp : p ∈ partitions_of m) by (apply Hin; by left).
  destruct (proj1 (Forall_forall _ _) Hload p Hp) as [[Hct Hv Hn _] Hroot _].
  destruct (local_to_global_spec (variable_order (pt_symbols p))) as (l2g & -> & Hlen & HM & Hloc).
  { intros s Hs. apply elem_model_symbols. eauto. }
  cbn [mbind result_bind]. rewrite Hv, <-Hlen in Hct.
  assert (Hk : known_id (bp_nodes (pt_bdd p)) (root_of p)).
  { destruct Hroot as [->|[->|?]]; [left; by right|left; by left|by right]. }
  pose proof (enumerate_spec (bp_nodes (pt_bdd p)) l2g Hct (root_of p) out Hk) as He.
  destruct (enumerate_falsifying_clauses _ _ _ _) as [out1|e]; cbn [mbind result_bind]; [|done].
  destruct He as (new1 & -> & Ho1 & Hs1).
  specialize (IH (out ++ new1) ltac:(intros; apply Hin; by right)).
  destruct (source_clauses x _ _) as [out2|e]; [|done]. destruct IH as (new2 & -> & Ho2 & Hs2).
  exists (new1 ++ new2). split_and!; [by rewrite app_assoc| |].
  - apply Forall_app. split; [|done]. eapply Forall_impl; [exact Ho1|]. intros c Hc. by eapply over_bounded.
  - intros g. unfold sat_clauses in *. rewrite forallb_app, Hs1, Hs2. cbn [forallb]. f_equal.
    apply table_eval_ext, Hloc.
Qed.

Lemma pin_units_spec pins :
  (∀ c, c ∈ pins → c ∈ model_symbols m) →
  ∃ units, collect_results (λ c, g ← ok_or (index_of x c)
      (fault "explain: pinned selection missing from the global union index");
      Ok (mkModelClause [(g, true)])) pins = Ok units ∧
    Forall (bounded_clause M) units ∧
    ∀ g, sat_clauses g units = forallb (named x g) pins.
Proof.
  intros Hin. induction pins as [|c pins IH]; [by exists []|].
  destruct (known_index c) as [v Hv]; [apply Hin; by left|].
  destruct IH as (units & E & Hb & Hs); [intros; apply Hin; by right|].
  exists (mkModelClause [(v, true)] :: units). cbn [collect_results]. rewrite Hv. cbn [ok_or mbind result_bind].
  rewrite E. cbn [mbind result_bind]. split_and!; [done| |].
  - constructor; [|done]. unfold bounded_clause. cbn. by repeat constructor; eapply symbol_index_lt.
  - intros g. cbn. rewrite <-Hs. f_equal. unfold sat_clause, named. cbn. rewrite Hv. cbn. by destruct (g v).
Qed.
End Cnf.

(** The clauses of a session hold exactly at its feasible assignments. *)
Lemma composite_spec {B} (s : Session B) m :
  explainable s m → N.of_nat (length (model_symbols m)) ≤ 4294967296 →
  match serialize_composite_cnf s (from_session s) with
  | Ok clauses => Forall (bounded_clause (N.of_nat (length (model_symbols m)))) clauses ∧
      ∀ g, sat_clauses g clauses = true ↔ feasible m (pinned_symbols s) (named (from_session s) g)
  | Err e => e = cap_fault
  end.
Proof.
  intros Hx Hsize. rewrite (from_session_spec _ _ Hx). unfold serialize_composite_cnf, partition_bdd_sources.
  rewrite (xp_payload _ _ Hx). pose proof (xp_loadable _ _ Hx) as Hload.
  assert (Hsrc : collect_results bdd_source (partitions_of m) = Ok (source <$> partitions_of m)).
  { apply collect_results_Ok, Forall2_fmap_r. apply Forall_Forall2_diag. eapply Forall_impl; [exact Hload|].
    intros p [[_ _ _ Hr] _ _]. unfold bdd_source, source, root_of.
    destruct (bp_roots (pt_bdd p)) eqn:E; cbn in *; [lia|]. by rewrite E. }
  change (mp_clusters m ++ option_list (mp_bridge m)) with (partitions_of m). rewrite Hsrc. cbn [mbind result_bind].
  pose proof (source_clauses_spec m Hload Hsize (partitions_of m) [] (λ p Hp, Hp)) as Hc.
  destruct (source_clauses _ _ _) as [clauses|e]; cbn [mbind result_bind]; [|done].
  destruct Hc as (new & -> & Hb & Hs). cbn [app].
  destruct (pin_units_spec m Hsize (bt_elements (pinned_symbols s))) as (units & -> & Hbu & Hsu).
  { intros c Hc. rewrite elem_of_bt_elements in Hc. unfold pinned_symbols in Hc.
    apply elem_of_list_to_set, list_elem_of_fmap in Hc as (cs & -> & Hcs). apply elem_model_symbols.
    pose proof (xp_pins _ _ Hx) as HF. by eapply Forall_forall in HF. }
  cbn [mbind result_bind]. split; [by apply Forall_app|]. intros g. unfold sat_clauses in *.
  rewrite forallb_app, Hs, Hsu, andb_true_iff, !forallb_elem. unfold feasible. rewrite Forall_forall.
  by setoid_rewrite elem_of_bt_elements.
Qed.

(** ** How many clauses there are *)

Lemma collect_results_length {E A C} (f : A → result E C) l r : collect_results f l = Ok r → length r = length l.
Proof. intros HF%collect_results_Ok. symmetry. by eapply Forall2_length. Qed.

Lemma walk_count fuel nodes l2g id asg out k out' k' :
  walk_node fuel nodes l2g id asg out k = Ok (out', k') → k ≤ MAX_FALSIFYING_PATHS_PER_PARTITION →
  k' ≤ MAX_FALSIFYING_PATHS_PER_PARTITION ∧ N.of_nat (length out') + k = N.of_nat (length out) + k'.
Proof.
  revert id asg out k out' k'. induction fuel as [|fuel IH]; intros id asg out k out' k'; cbn [walk_node]; [done|].
  intros (t & _ & E)%bind_Ok Hk. destruct t as [[]|].
  - by injection E as <- <-.
  - apply bind_Ok in E as (c & _ & E). case_decide; [done|]. injection E as <- <-. rewrite length_app. cbn. lia.
  - apply bind_Ok in E as (n & _ & E). case_decide; [done|].
    apply bind_Ok in E as ([out1 k1] & E1 & E2). apply IH in E1 as [? ?]; [|done]. apply IH in E2 as [? ?]; [|done]. lia.
Qed.

Lemma enumerate_count nodes root l2g out out' :
  enumerate_falsifying_clauses nodes root l2g out = Ok out' →
  N.of_nat (length out') ≤ N.of_nat (length out) + MAX_FALSIFYING_PATHS_PER_PARTITION.
Proof.
  unfold enumerate_falsifying_clauses. intros (t & _ & E)%bind_Ok. destruct t as [[]|].
  - injection E as <-. lia.
  - injection E as <-. rewrite length_app. unfold MAX_FALSIFYING_PATHS_PER_PARTITION. cbn. lia.
  - apply bind_Ok in E as ([out1 k] & E & [= <-]). apply walk_count in E; [lia|].
    unfold MAX_FALSIFYING_PATHS_PER_PARTITION. lia.
Qed.

Lemma source_count x sources out out' :
  source_clauses x sources out = Ok out' →
  N.of_nat (length out') ≤ N.of_nat (length out) + MAX_FALSIFYING_PATHS_PER_PARTITION * N.of_nat (length sources).
Proof.
  revert out. induction sources as [|[[[order nodes] root]|] sources IH]; intros out; cbn [source_clauses length].
  - intros [= <-]. lia.
  - intros (l2g & _ & (out1 & E1 & E2)%bind_Ok)%bind_Ok. apply enumerate_count in E1. apply IH in E2. lia.
  - intros E%IH. lia.
Qed.

(** At most the cap per partition and one per selected symbol. *)
Lemma composite_count {B} (s : Session B) m x clauses :
  explainable s m → serialize_composite_cnf s x = Ok clauses →
  N.of_nat (length clauses) ≤
    MAX_FALSIFYING_PATHS_PER_PARTITION * N.of_nat (length (partitions_of m)) + N.of_nat (length (model_symbols m)).
Proof.
  intros Hx (sources & Es & (cs & Ec & (us & Eu & [= <-])%bind_Ok)%bind_Ok)%bind_Ok.
  unfold partition_bdd_sources in Es. rewrite (xp_payload _ _ Hx) in Es.
  apply collect_results_length in Es, Eu. apply source_count in Ec. cbn [length] in Ec. rewrite Es in Ec.
  assert (Hp : (length (bt_elements (pinned_symbols s)) ≤ length (model_symbols m))%nat).
  { apply submseteq_length, NoDup_submseteq; [apply NoDup_bt_elements|]. intros c Hc.
    rewrite elem_of_bt_elements in Hc. unfold pinned_symbols in Hc.
    apply elem_of_list_to_set, list_elem_of_fmap in Hc as (sel & -> & Hsel). apply elem_model_symbols.
    pose proof (xp_pins _ _ Hx) as HF. by eapply Forall_forall in HF. }
  rewrite length_app. unfold partitions_of. lia.
Qed.
