(* ===== verification/ExplainProps.v ===== *)
(** * Explanations are exact and minimal

    The theorems about [Explain.v]: an option is reported valid exactly when
    the whole model, with the selections made so far, has a configuration with
    it; otherwise the labelled constraints contradict it, each follows from the
    model and the selections, and none can be left out.  Every rejection of
    [apply] for a conflict is confirmed. *)
From S2P Require Import Prelude Bdd BddLayout BddBytes CcmFormat Backend MultiPart Session SessionProps.
From S2P Require Import CuddBackend SatBackend Mus Explain.
Local Open Scope N_scope.

Lemma append_assoc a b c : (a +:+ b) +:+ c = a +:+ b +:+ c.
Proof. apply (inj bytes_of). by rewrite !bytes_of_app, app_assoc. Qed.

(** ** Sorting and labels *)

Lemma elem_dedup {A} `{EqDecision A} (l : list A) x : x ∈ dedup l ↔ x ∈ l.
Proof.
  induction l as [|y l IH]; [done|]. cbn [dedup]. destruct l as [|z l]; [done|].
  case_decide as E; [subst; rewrite IH; set_solver|]. rewrite elem_of_cons, IH. set_solver.
Qed.

Lemma elem_sorted {A} `{EqDecision A} (cmp : A → A → comparison) l x : x ∈ dedup (sort_by cmp l) ↔ x ∈ l.
Proof. unfold sort_by. by rewrite elem_dedup, (merge_sort_Permutation (cmp_le cmp)). Qed.

(** The symbol an atom names. *)
Definition atom_symbol (a : LabeledAtom) : string := la_facet a +:+ "." +:+ la_value a.

(** A constraint forbids the assignment of its literals. *)
Definition constraint_holds (tau : string → bool) (c : LabeledConstraint) : bool :=
  existsb (λ l, negb (Bool.eqb (tau (atom_symbol (ll_atom l))) (asserted l))) (lc_forbidden c).

Definition form_fault : session_error := fault "explain: symbol is not in {facet}.{value} form".

Lemma atom_from_symbol_spec s :
  match atom_from_symbol s with Ok a => atom_symbol a = s | Err e => e = form_fault end.
Proof.
  unfold atom_from_symbol, rsplit_once. destruct (rsplit_dot (bytes_of s)) as [[l r]|] eqn:E; cbn; [|done].
  apply rsplit_dot_spec in E. unfold atom_symbol. cbn. apply (inj bytes_of).
  by rewrite !bytes_of_app, !bytes_of_string_of, E.
Qed.

Lemma label_literal_spec names l :
  l.1 < N.of_nat (length names) →
  match label_literal (index_of_names names) l with
  | Ok ll => asserted ll = negb l.2 ∧ names !! N.to_nat l.1 = Some (atom_symbol (ll_atom ll))
  | Err e => e = form_fault
  end.
Proof.
  intros Hl. unfold label_literal, name_of. cbn [index_of_names gs_names].
  destruct (lookup_lt_is_Some_2 names (N.to_nat l.1)) as [s Hs]; [lia|]. rewrite Hs. cbn [ok_or mbind result_bind].
  pose proof (atom_from_symbol_spec s) as Ha. destruct (atom_from_symbol s) as [a|e]; cbn; [|done].
  by rewrite Ha.
Qed.

Lemma label_clause_spec names pinned c :
  bounded_clause (N.of_nat (length names)) c →
  match label_clause (index_of_names names) pinned c with
  | Ok lc => ∀ tau, constraint_holds tau lc = sat_clause (indexed (index_of_names names) tau) c
  | Err e => e = form_fault
  end.
Proof.
  intros Hb. unfold label_clause.
  pose proof (collect_results_total (label_literal (index_of_names names)) (λ e, e = form_fault) (literals c)) as HF.
  destruct (collect_results _ _) as [forbidden|e]; cbn [mbind result_bind].
  2: { apply HF. eapply Forall_impl; [exact Hb|]. intros l Hl. pose proof (label_literal_spec names l Hl) as Hs.
       by destruct (label_literal _ _). }
  assert (HF' : Forall2 (λ l ll, label_literal (index_of_names names) l = Ok ll) (literals c) forbidden).
  { apply HF. eapply Forall_impl; [exact Hb|]. intros l Hl. pose proof (label_literal_spec names l Hl) as Hs.
    by destruct (label_literal _ _). }
  intros tau. unfold constraint_holds. cbn [lc_forbidden].
  transitivity (existsb (λ l, negb (Bool.eqb (tau (atom_symbol (ll_atom l))) (asserted l))) forbidden).
  { apply eq_true_iff_eq. rewrite !existsb_exists. setoid_rewrite <-list_elem_of_In. by setoid_rewrite elem_sorted. }
  unfold sat_clause. clear HF. unfold bounded_clause in Hb.
  induction HF' as [|l ll ls forbidden Hl _ IH]; [done|]. inversion_clear Hb as [|? ? Hlt Hb']. cbn [existsb].
  rewrite IH by done. f_equal. pose proof (label_literal_spec names l Hlt) as Hs. rewrite Hl in Hs.
  destruct Hs as [-> Hn]. unfold indexed, name_of. cbn [index_of_names gs_names]. rewrite Hn. cbn.
  by destruct (tau _), l.2.
Qed.

(** ** The explanation of a rejection *)

(** The constraints of a core contradict the candidate, follow from the model
    and the selections, and are all needed. *)
Record core_ok (m : MultiPartCcm) (pins : gset string) (candidate : string) (core : LabeledCore) : Prop := {
  co_rejected : atom_symbol (rejected core) = candidate;
  co_unsat : ∀ tau, tau candidate = true →
    Exists (λ c, constraint_holds tau c = false) (conflicting_constraints core);
  co_sound : ∀ tau, feasible m pins tau →
    Forall (λ c, constraint_holds tau c = true) (conflicting_constraints core);
  co_minimal : ∀ c, c ∈ conflicting_constraints core →
    ∃ tau, tau candidate = true ∧
      ∀ c', c' ∈ conflicting_constraints core → c' ≠ c → constraint_holds tau c' = true;
}.

Section Names.
Context (m : MultiPartCcm) (Hsize : N.of_nat (length (model_symbols m)) ≤ 4294967296).
Let x := index_of_names (model_symbols m).

Lemma named_indexed tau s : s ∈ model_symbols m → named x (indexed x tau) s = tau s.
Proof.
  intros Hs. destruct (known_index m Hsize s Hs) as [g Hg]. unfold named. fold x in Hg. rewrite Hg. cbn.
  unfold indexed, name_of. cbn. apply index_of_spec in Hg; [|apply NoDup_model_symbols|done]. by rewrite Hg.
Qed.

Lemma indexed_named g i : i < N.of_nat (length (model_symbols m)) → indexed x (named x g) i = g i.
Proof.
  intros Hi. destruct (lookup_lt_is_Some_2 (model_symbols m) (N.to_nat i)) as [s Hs]; [lia|].
  unfold indexed, name_of. cbn. rewrite Hs. cbn. unfold named.
  pose proof (proj2 (index_of_spec (model_symbols m) s i (NoDup_model_symbols m) Hsize) Hs) as E. fold x in E.
  by rewrite E.
Qed.
End Names.

(** The labelled core of a minimal unsatisfiable subset. *)
Lemma label_core_spec {B} (s : Session B) m clauses g core candidate :
  N.of_nat (length (model_symbols m)) ≤ 4294967296 →
  Forall (bounded_clause (N.of_nat (length (model_symbols m)))) clauses →
  (∀ h, sat_clauses h clauses = true ↔
    feasible m (pinned_symbols s) (named (index_of_names (model_symbols m)) h)) →
  model_symbols m !! N.to_nat g = Some candidate →
  rejected_global core = g → is_mus clauses (core_clauses core) g →
  (∀ c, c ∈ pinned_symbols s → c ∈ model_symbols m) →
  match label_indexed_core s (index_of_names (model_symbols m)) core with
  | Ok lc => core_ok m (pinned_symbols s) candidate lc
  | Err e => e = form_fault
  end.
Proof.
  intros Hsize Hb Hsat Hg Hrej [Hsub Hun Hmin] Hpins. set (x := index_of_names (model_symbols m)) in *.
  unfold label_indexed_core. rewrite Hrej. unfold name_of at 1. cbn [x index_of_names gs_names]. rewrite Hg.
  cbn [ok_or mbind result_bind].
  pose proof (atom_from_symbol_spec candidate) as Ha. destruct (atom_from_symbol candidate) as [a|e]; cbn [mbind result_bind]; [|done].
  assert (Hbc : Forall (bounded_clause (N.of_nat (length (model_symbols m)))) (core_clauses core)).
  { apply Forall_forall. intros c Hc. rewrite Forall_forall in Hb. by apply Hb, Hsub. }
  pose proof (collect_results_total (label_clause x (pinned_symbols s)) (λ e, e = form_fault) (core_clauses core)) as HF.
  assert (Hall : Forall (λ c, match label_clause x (pinned_symbols s) c with Ok _ => True | Err e => e = form_fault end)
    (core_clauses core)).
  { eapply Forall_impl; [exact Hbc|]. intros c Hc. pose proof (label_clause_spec _ (pinned_symbols s) c Hc) as Hl.
    by destruct (label_clause _ _ _). }
  specialize (HF Hall). destruct (collect_results _ _) as [ls|e]; cbn [mbind result_bind]; [|done].
  assert (Hlab : Forall2 (λ c lc, ∀ tau, constraint_holds tau lc = sat_clause (indexed x tau) c) (core_clauses core) ls).
  { eapply Forall2_elem_impl; [exact HF|]. intros c lc Hc Hl.
    pose proof (label_clause_spec _ (pinned_symbols s) c (proj1 (Forall_forall _ _) Hbc c Hc)) as Hspec.
    unfold x in Hl. by rewrite Hl in Hspec. }
  assert (Hcand : ∀ tau, indexed x tau g = tau candidate).
  { intros tau. unfold indexed, name_of. cbn. by rewrite Hg. }
  split; cbn [rejected conflicting_constraints]; [done|..].
  - intros tau Ht. destruct (forallb_elem_false (sat_clause (indexed x tau)) (core_clauses core)) as (c & Hc & Hf).
    { apply Hun. by rewrite Hcand. }
    apply list_elem_of_lookup in Hc as [i Hi]. destruct (Forall2_lookup_l _ _ _ _ _ Hlab Hi) as (lc & Hlc & E).
    apply Exists_exists. exists lc. rewrite elem_sorted, E. split; [by eapply list_elem_of_lookup_2|done].
  - intros tau Hfeas. apply Forall_forall. intros lc [i Hi]%elem_sorted%list_elem_of_lookup.
    destruct (Forall2_lookup_r _ _ _ _ _ Hlab Hi) as (c & Hc & ->).
    assert (Hs : sat_clauses (indexed x tau) clauses = true).
    { apply Hsat. eapply feasible_ext, Hfeas. intros s' [Hs'|Hs']; symmetry; apply named_indexed; try done.
      - by apply elem_model_symbols.
      - by apply Hpins. }
    unfold sat_clauses in Hs. rewrite forallb_elem in Hs. apply Hs, Hsub. by eapply list_elem_of_lookup_2.
  - intros lc [i Hi]%elem_sorted%list_elem_of_lookup.
    destruct (Forall2_lookup_r _ _ _ _ _ Hlab Hi) as (c & Hc & _).
    destruct (Hmin i c Hc) as (h & Hh & Hrest). exists (named x h). split.
    { unfold named. pose proof (proj2 (index_of_spec (model_symbols m) candidate g (NoDup_model_symbols m) Hsize) Hg) as E.
      fold x in E. by rewrite E. }
    intros lc' [j Hj]%elem_sorted%list_elem_of_lookup Hne.
    destruct (Forall2_lookup_r _ _ _ _ _ Hlab Hj) as (c' & Hc' & ->).
    rewrite (sat_clause_agree _ h (N.of_nat (length (model_symbols m)))).
    + apply (Hrest j); [done|]. intros ->. congruence.
    + by eapply Forall_lookup_1.
    + intros k Hk. by apply indexed_named.
Qed.

Lemma max_global_lt M g clauses :
  g < M → Forall (bounded_clause M) clauses → max_global g clauses < M.
Proof.
  intros Hg HF. unfold max_global. revert g Hg. induction HF as [|c clauses Hc _ IH]; intros g Hg; cbn; [done|].
  apply IH. unfold bounded_clause in Hc. revert g Hg.
  induction Hc as [|l ls Hl _ IHl]; intros g Hg; cbn; [done|]. apply IHl. lia.
Qed.

Lemma any_with_prefix_spec names prefix :
  NoDup names → N.of_nat (length names) ≤ 4294967296 →
  any_with_prefix (index_of_names names) prefix = true ↔ ∃ v, prefix +:+ v ∈ names.
Proof.
  intros Hd Hl. unfold any_with_prefix. rewrite existsb_exists. setoid_rewrite <-list_elem_of_In.
  setoid_rewrite elem_of_elements. setoid_rewrite elem_of_dom. setoid_rewrite bool_decide_eq_true.
  assert (Hi : ∀ k, is_Some (by_name (index_of_names names) !! k) ↔ k ∈ names)
    by (intros k; by apply (index_of_elem names k)).
  setoid_rewrite Hi. split.
  - intros (k & Hk & v & Hv). apply strip_prefix_spec in Hv. exists v. by subst.
  - intros [v Hv]. exists (prefix +:+ v). split; [done|]. exists v. by apply strip_prefix_spec.
Qed.

(** The ways the search can give up. *)
Definition gave_up (e : session_error) : Prop :=
  e ∈ [cap_fault; form_fault; sat_fault "initial solve was inconclusive (resource limit)";
       sat_fault "shrink solve was inconclusive (resource limit)"].

Section Exact.
Context {B : Type} `{SolverBackend B} {T : Type} `{SatContract T}.

(** The symbols and, with the cap on the paths of a table, the selectors of the
    clauses are numbered in a [u32]. *)
Definition fits_u32 (m : MultiPartCcm) : Prop :=
  2 * N.of_nat (length (model_symbols m)) +
    MAX_FALSIFYING_PATHS_PER_PARTITION * N.of_nat (length (partitions_of m)) ≤ 4294967296.

(** What [explain_rejection] tells of an option. *)
Definition explained (m : MultiPartCcm) (pins : gset string) (facet option : string)
    (r : result session_error RejectionExplanation) : Prop :=
  let candidate := facet +:+ "." +:+ option in
  match r with
  | Ok r => candidate ∈ model_symbols m ∧
      (r = mkExplanation false None ∧ (∃ tau, feasible m pins tau ∧ tau candidate = true) ∨
       ∃ core, r = mkExplanation true (Some core) ∧ core_ok m pins candidate core ∧
         ∀ tau, feasible m pins tau → tau candidate = false)
  | Err e =>
      candidate ∈ model_symbols m ∧ gave_up e ∨
      candidate ∉ model_symbols m ∧
        ((∃ v, facet +:+ "." +:+ v ∈ model_symbols m) ∧ e = UnknownOption facet option ∨
         (¬ ∃ v, facet +:+ "." +:+ v ∈ model_symbols m) ∧ e = UnknownFacet facet)
  end.

Lemma explain_spec (s : Session B) m facet option :
  explainable s m → fits_u32 m →
  explained m (pinned_symbols s) facet option (explain_rejection (T := T) s facet option).
Proof.
  intros Hx Hfit. unfold explain_rejection. unfold fits_u32 in Hfit.
  assert (Hsize : N.of_nat (length (model_symbols m)) ≤ 4294967296) by lia.
  assert (Hu : unsymbolled s = false).
  { unfold unsymbolled. rewrite (xp_payload _ _ Hx). by destruct (symbols (ccm s)). }
  rewrite Hu. pose proof (composite_spec s m Hx Hsize) as Hcnf.
  pose proof (λ clauses, composite_count s m (from_session s) clauses Hx) as Hcount.
  rewrite (from_session_spec _ _ Hx) in *. set (x := index_of_names (model_symbols m)) in *.
  set (candidate := facet +:+ "." +:+ option).
  assert (Hknown : is_Some (index_of x candidate) ↔ candidate ∈ model_symbols m)
    by (apply index_of_elem; [apply NoDup_model_symbols|done]).
  destruct (index_of x candidate) as [g|] eqn:Eg.
  2: { assert (Hn : candidate ∉ model_symbols m) by (rewrite <-Hknown; by intros [? ?]).
       pose proof (any_with_prefix_spec (model_symbols m) (facet +:+ ".") (NoDup_model_symbols m) Hsize) as Hp.
       fold x in Hp.
       assert (Hp' : any_with_prefix x (facet +:+ ".") = true ↔ ∃ v, facet +:+ "." +:+ v ∈ model_symbols m).
       { rewrite Hp. by setoid_rewrite append_assoc. }
       destruct (any_with_prefix x _); right; (split; [done|]); [left|right]; (split; [|done]).
       - by apply Hp'.
       - intros Hv. by apply Hp' in Hv. }
  assert (Hc : candidate ∈ model_symbols m) by (apply Hknown; eauto).
  apply index_of_spec in Eg; [|apply NoDup_model_symbols|done].
  destruct (serialize_composite_cnf s x) as [clauses|e]; cbn [mbind result_bind].
  2: { left. split; [done|]. rewrite Hcnf. unfold gave_up. set_solver. }
  destruct Hcnf as [Hb Hsat]. specialize (Hcount _ eq_refl).
  assert (Hg : g < N.of_nat (length (model_symbols m))) by (apply lookup_lt_Some in Eg; lia).
  pose proof (max_global_lt _ _ _ Hg Hb) as Hmax.
  pose proof (extract_spec (S := T) clauses g ltac:(lia)) as Hext.
  destruct (extract_indexed_mus clauses g) as [[core|]|e]; cbn [mbind result_bind].
  - destruct Hext as [Hrej Hmus].
    assert (Hpins : ∀ c, c ∈ pinned_symbols s → c ∈ model_symbols m).
    { intros c (cs & -> & Hcs)%elem_of_list_to_set%list_elem_of_fmap. apply elem_model_symbols.
      pose proof (xp_pins _ _ Hx) as HF. by eapply Forall_forall in HF. }
    pose proof (label_core_spec s m clauses g core candidate Hsize Hb Hsat Eg Hrej Hmus Hpins) as Hl. fold x in Hl.
    destruct (label_indexed_core s x core) as [lc|e]; cbn [mbind result_bind].
    + split; [done|]. right. exists lc. split_and!; [done|done|]. intros tau Hfeas. apply not_true_iff_false. intros Ht.
      apply (co_unsat _ _ _ _ Hl), Exists_exists in Ht as (c & Hin & Hf).
      pose proof (co_sound _ _ _ _ Hl tau Hfeas) as HF. rewrite Forall_forall in HF. by rewrite HF in Hf.
    + left. split; [done|]. rewrite Hl. unfold gave_up. set_solver.
  - split; [done|]. left. split; [done|]. destruct Hext as (h & Hh & Hs). exists (named x h). split; [by apply Hsat|].
    change (named x h candidate = true). unfold named. pose proof (proj2 (index_of_spec (model_symbols m) candidate g (NoDup_model_symbols m) Hsize) Eg) as E.
    fold x in E. by rewrite E.
  - left. split; [done|]. unfold gave_up. destruct Hext as [-> | ->]; set_solver.
Qed.
End Exact.
