(* ===== verification/SessionTrace.v ===== *)
(** * The selections behind a session

    [explain_rejection] does not read the formulas of the backends: it rebuilds
    them from the loaded tables and the record of committed selections.  This
    file shows that it may: in every session reached by [apply] and [retract]
    the formula of a partition follows from its table and the selections, also
    between the retracts that undo one selection. *)
From S2P Require Import Prelude Bdd BddLayout BddBytes CcmFormat Backend MultiPart Session SessionProps.
From S2P Require Import CuddBackend SatBackend Mus Explain ExplainProps.
Local Open Scope N_scope.

(** ** Justified formulas *)

(** The variables of a partition under an assignment of the names. *)
Definition locals (p : PartitionCcm) (tau : string → bool) (i : N) : bool :=
  default false (tau <$> variable_order (pt_symbols p) !! N.to_nat i).

(** The partitions with their indices. *)
Definition numbered (m : MultiPartCcm) : list (N * PartitionCcm) :=
  imap (λ i, pair (N.of_nat i)) (mp_clusters m) ++ (pair BRIDGE_PARTITION_INDEX <$> option_list (mp_bridge m)).

(** [f] follows from the table of partition [index] and the selections [pins]. *)
Definition implied (ids : list (N * PartitionCcm)) (index : N) (f : bfun) (pins : list string) : Prop :=
  ∀ p tau, (index, p) ∈ ids → part_holds p tau = true → Forall (λ c, tau c = true) pins → f (locals p tau) = true.

Lemma implied_more ids index f pins pins' : pins ⊆ pins' → implied ids index f pins → implied ids index f pins'.
Proof.
  intros Hsub Hi p tau Hp Ht Hpins. apply Hi; [done|done|]. apply Forall_forall. intros c Hc.
  rewrite Forall_forall in Hpins. by apply Hpins, Hsub.
Qed.

(** The undo entries of the first [j] selections. *)
Definition entries (cs : list CommittedSelection) (j : nat) : nat := sum_list_with undo_entries (take j cs).

(** [f] was the formula of partition [index] when the stack was [u]: it follows
    from the first [j] selections if no later one has touched the partition. *)
Definition justified ids (cs : list CommittedSelection) (u : list (N * bfun)) (index : N) (f : bfun) : Prop :=
  ∀ j, (j ≤ length cs)%nat → (∀ e, e ∈ drop (entries cs j) u → e.1 ≠ index) →
    implied ids index f (compound <$> take j cs).

Record traced (ids : list (N * PartitionCcm)) (cs : list CommittedSelection) (a : asession) : Prop := {
  tr_parts : ∀ ap, ap ∈ a_parts a → justified ids cs (a_undo a) (a_index ap) (a_fun ap);
  tr_undo : ∀ q e, a_undo a !! q = Some e → justified ids cs (take q (a_undo a)) e.1 e.2;
  tr_length : length (a_undo a) = entries cs (length cs);
  tr_positive : Forall (λ c, (0 < undo_entries c)%nat) cs;
}.

Lemma entries_snoc cs c j : (j ≤ length cs)%nat → entries (cs ++ [c]) j = entries cs j.
Proof. intros Hj. unfold entries. by rewrite take_app_le. Qed.

Lemma entries_all cs c : entries (cs ++ [c]) (S (length cs)) = (entries cs (length cs) + undo_entries c)%nat.
Proof.
  unfold entries. rewrite take_app, take_ge, firstn_all by lia.
  replace (S (length cs) - length cs)%nat with 1%nat by lia. rewrite sum_list_with_app. cbn. lia.
Qed.

Lemma entries_le cs j : (entries cs j ≤ entries cs (length cs))%nat.
Proof.
  unfold entries. rewrite firstn_all. rewrite <-(take_drop j cs) at 2. rewrite sum_list_with_app. lia.
Qed.

(** Looking at fewer entries, or at the selections with one more. *)
Lemma justified_snoc ids cs c u index f :
  (length u ≤ entries cs (length cs))%nat → justified ids cs u index f → justified ids (cs ++ [c]) u index f.
Proof.
  intros Hl Hj j Hle Hno. rewrite length_app in Hle. cbn in Hle.
  destruct (decide (j ≤ length cs)%nat) as [Hj'|Hj'].
  - rewrite take_app_le by done. rewrite entries_snoc in Hno by done. by apply Hj.
  - rewrite take_ge by (rewrite length_app; cbn; lia). rewrite fmap_app.
    eapply implied_more; [|apply (Hj (length cs)); [done|]].
    + rewrite firstn_all. set_solver.
    + rewrite drop_ge by done. intros e He. by apply not_elem_of_nil in He.
Qed.

(** ** [apply] *)

Section Apply.
Context (ids : list (N * PartitionCcm)) (cs : list CommittedSelection) (a : asession) (c : string).
Context (Htr : traced ids cs a).
Context (Hids : ∀ ap p, ap ∈ a_parts a → (a_index ap, p) ∈ ids → a_order ap = variable_order (pt_symbols p)).

Let new := (λ p, (a_index p, a_fun p)) <$> a_owners a c.
Let cs' := cs ++ [mkCommitted c (length (a_owners a c))].

Lemma new_length : length new = length (a_owners a c).
Proof. apply length_fmap. Qed.

Lemma owner_entry ap : ap ∈ a_parts a → is_Some (a_var ap c) → (a_index ap, a_fun ap) ∈ new.
Proof. intros Hp Hv. apply list_elem_of_fmap. exists ap. split; [done|]. by apply owners_elem. Qed.

Lemma select_justified ap :
  ap ∈ a_parts a → justified ids cs' (a_undo a ++ new) (a_index (a_select c ap)) (a_fun (a_select c ap)).
Proof.
  intros Hp j Hle Hno. unfold cs' in *. rewrite length_app in Hle. cbn in Hle.
  pose proof (tr_parts _ _ _ Htr ap Hp) as Hj. pose proof (tr_length _ _ _ Htr) as Hlen.
  pose proof (entries_le cs j) as Hel.
  assert (Hidx : a_index (a_select c ap) = a_index ap) by (unfold a_select; by destruct (a_var ap c)).
  rewrite Hidx in *. destruct (decide (j ≤ length cs)%nat) as [Hj'|Hj'].
  - rewrite take_app_le by done. rewrite entries_snoc, drop_app_le in Hno by (done || lia).
    destruct (a_var ap c) as [v|] eqn:Ev.
    + exfalso. apply (Hno (a_index ap, a_fun ap)); [|done]. apply elem_of_app. right. apply owner_entry; eauto.
    + unfold a_select. rewrite Ev. apply Hj; [done|]. intros e He. apply Hno, elem_of_app. by left.
  - rewrite take_ge by (rewrite length_app; cbn; lia). rewrite fmap_app.
    assert (Hall : implied ids (a_index ap) (a_fun ap) (compound <$> cs)).
    { rewrite <-(firstn_all cs) at 1. apply Hj; [done|]. rewrite drop_ge by lia.
      intros e He. by apply not_elem_of_nil in He. }
    intros p tau Hp' Ht [Hpins Hc]%Forall_app. cbn in Hc. apply Forall_cons_1 in Hc as [Hc _].
    specialize (Hall p tau Hp' Ht Hpins). unfold a_select. destruct (a_var ap c) as [v|] eqn:Ev; [|done].
    cbn. rewrite Hall. cbn. apply a_var_Some in Ev. unfold locals. rewrite <-(Hids _ _ Hp Hp'), Ev. done.
Qed.

Lemma traced_apply : a_owners a c ≠ [] → traced ids cs' (a_apply a c).
Proof.
  intros Hne. pose proof (tr_length _ _ _ Htr) as Hlen. split.
  - cbn. intros ap' (ap & -> & Hp)%list_elem_of_fmap. by apply select_justified.
  - cbn. fold new. intros q e [Hq|[Hq He]]%lookup_app_Some.
    + rewrite take_app_le by (apply lookup_lt_Some in Hq; lia). apply justified_snoc.
      * rewrite length_take. lia.
      * by apply (tr_undo _ _ _ Htr).
    + apply list_lookup_fmap_Some in He as (ap & -> & Hap). cbn [fst snd].
      assert (Hp : ap ∈ a_parts a) by (by eapply owners_elem, list_elem_of_lookup_2).
      rewrite take_app_ge by lia. intros j Hle Hno. unfold cs' in *.
      pose proof (justified_snoc ids cs (mkCommitted c (length (a_owners a c))) (a_undo a) (a_index ap) (a_fun ap)) as Hs.
      apply Hs; [lia|by apply (tr_parts _ _ _ Htr)|done|]. intros e He. apply Hno.
      destruct (decide (entries (cs ++ [mkCommitted c (length (a_owners a c))]) j ≤ length (a_undo a))%nat).
      * rewrite drop_app_le by done. apply elem_of_app. by left.
      * rewrite drop_ge in He by lia. by apply not_elem_of_nil in He.
  - cbn. fold new. unfold cs'. rewrite !length_app, new_length. cbn [length].
    rewrite Nat.add_1_r, entries_all. cbn [undo_entries]. lia.
  - unfold cs'. apply Forall_app. split; [apply Htr|]. constructor; [|done]. cbn.
    destruct (a_owners a c); [done|cbn; lia].
Qed.
End Apply.

(** ** [retract] *)

(** One undo entry fewer: the selections are the same but for the last one,
    which loses an entry and, with its last entry, goes away. *)
Lemma retract_committed_cases cs :
  Forall (λ c, (0 < undo_entries c)%nat) cs → cs ≠ [] →
  ∃ cs0 top, cs = cs0 ++ [top] ∧ (0 < undo_entries top)%nat ∧
    (undo_entries top = 1%nat ∧ retract_committed cs = cs0 ∨
     (1 < undo_entries top)%nat ∧
       retract_committed cs = cs0 ++ [mkCommitted (compound top) (undo_entries top - 1)]).
Proof.
  intros Hpos Hne. destruct (last cs) as [top|] eqn:El; [|by apply last_None in El].
  exists (take (length cs - 1) cs), top. pose proof (last_take_app _ _ El) as E. split; [done|].
  rewrite E in Hpos. apply Forall_app in Hpos as [_ Hpos]. apply Forall_cons_1 in Hpos as [Hpos _].
  split; [done|]. unfold retract_committed. rewrite El. destruct (Nat.eqb_spec (undo_entries top - 1) 0).
  - left. split; [lia|done].
  - right. split; [lia|done].
Qed.

Lemma justified_retract ids cs u index f :
  Forall (λ c, (0 < undo_entries c)%nat) cs → (length u < entries cs (length cs))%nat →
  justified ids cs u index f → justified ids (retract_committed cs) u index f.
Proof.
  intros Hpos Hl Hj. destruct (decide (cs = [])) as [->|Hne]; [cbn in Hl; lia|].
  destruct (retract_committed_cases cs Hpos Hne) as (cs0 & top & -> & _ & [[Htop ->]|[Htop ->]]); intros j Hle Hno.
  - rewrite <-(take_app_le cs0 [top]) by done. apply Hj; [rewrite length_app; lia|]. by rewrite entries_snoc.
  - rewrite length_app in Hle. cbn in Hle. destruct (decide (j ≤ length cs0)%nat) as [Hj'|Hj'].
    + rewrite entries_snoc in Hno by done. rewrite take_app_le by done. rewrite <-(take_app_le cs0 [top]) by done.
      apply Hj; [rewrite length_app; lia|]. by rewrite entries_snoc.
    + assert (E : compound <$> take j (cs0 ++ [mkCommitted (compound top) (undo_entries top - 1)]) =
        compound <$> take (length (cs0 ++ [top])) (cs0 ++ [top])).
      { rewrite firstn_all, take_ge by (rewrite length_app; cbn; lia). by rewrite !fmap_app. }
      rewrite E. apply Hj; [done|]. rewrite drop_ge by lia. intros e He. by apply not_elem_of_nil in He.
Qed.

Lemma entries_retract cs :
  Forall (λ c, (0 < undo_entries c)%nat) cs → cs ≠ [] →
  S (entries (retract_committed cs) (length (retract_committed cs))) = entries cs (length cs) ∧
  Forall (λ c, (0 < undo_entries c)%nat) (retract_committed cs).
Proof.
  intros Hpos Hne. destruct (retract_committed_cases cs Hpos Hne) as (cs0 & top & -> & Ht & [[Htop ->]|[Htop ->]]);
    apply Forall_app in Hpos as [Hpos _]; rewrite !length_app; cbn [length]; rewrite Nat.add_1_r, !entries_all.
  - split; [lia|done].
  - split; [cbn; lia|]. apply Forall_app. split; [done|]. constructor; [cbn; lia|done].
Qed.

Lemma traced_retract ids cs a : traced ids cs a → a_undo a ≠ [] → traced ids (retract_committed cs) (a_retract a).
Proof.
  intros Htr Hne. unfold a_retract. destruct (last (a_undo a)) as [[index f]|] eqn:El; [|by apply last_None in El].
  pose proof (last_take_app _ _ El) as E. set (u0 := take (length (a_undo a) - 1) (a_undo a)) in *.
  pose proof (tr_length _ _ _ Htr) as Hlen. pose proof (tr_positive _ _ _ Htr) as Hpos.
  assert (Hl0 : length (a_undo a) = S (length u0)) by (rewrite E, length_app; cbn; lia).
  assert (Hcs : cs ≠ []) by (intros ->; cbn in Hlen; lia).
  destruct (entries_retract cs Hpos Hcs) as [Hent Hpos']. split; cbn [a_parts a_undo]; [..|lia|done].
  - intros ap' (ap & -> & Hp)%list_elem_of_fmap. unfold a_restore. case_decide as Hi; cbn [a_index a_fun].
    + apply justified_retract; [done|lia|]. rewrite Hi.
      pose proof (tr_undo _ _ _ Htr (length u0) (index, f)) as Hu. cbn in Hu.
      assert (Ht : take (length u0) (a_undo a) = u0) by (rewrite E; apply take_app_length).
      rewrite Ht in Hu. apply Hu. rewrite E. by apply list_lookup_middle.
    + apply justified_retract; [done|lia|]. intros j Hj Hno. apply (tr_parts _ _ _ Htr ap Hp); [done|].
      rewrite E, drop_app. intros e [He|He]%elem_of_app; [by apply Hno|].
      assert (e = (index, f)) as ->; [|done]. destruct (entries cs j - length u0)%nat; cbn in He; [set_solver|].
      rewrite drop_nil in He. by apply not_elem_of_nil in He.
  - intros q e Hq. pose proof (lookup_lt_Some _ _ _ Hq) as Hlt.
    assert (Ht : take q u0 = take q (a_undo a)) by (rewrite E, take_app_le by lia; done).
    apply justified_retract; [done|rewrite length_take; lia|]. rewrite Ht.
    apply (tr_undo _ _ _ Htr). rewrite E. by apply lookup_app_l_Some.
Qed.

(** ** Reachable sessions *)

Section Reachable.
Context {B : Type} `{BackendContract B}.

(** The sessions of a model the API can reach. *)
Inductive reaches (m : MultiPartCcm) : Session B → Prop :=
  | reach_new c s : payload c = Some m → new c = Ok s → reaches m s
  | reach_apply s facet value : reaches m s → reaches m (apply s facet value).2
  | reach_retract s facet : reaches m s → reaches m (retract s facet).2.

(** Each partition of the session is one of the model's. *)
Definition of_partition (ap : apart) (ip : N * PartitionCcm) : Prop :=
  a_index ap = ip.1 ∧ a_order ap = variable_order (pt_symbols ip.2).

Record tracks (m : MultiPartCcm) (s : Session B) (a : asession) : Prop := {
  tk_refines : refines s a;
  tk_explainable : explainable s m;
  tk_parts : Forall2 of_partition (a_parts a) (numbered m);
  tk_traced : traced (numbered m) (committed s) a;
}.

Lemma numbered_partitions m : (numbered m).*2 = partitions_of m.
Proof.
  unfold numbered, partitions_of. rewrite fmap_app, fmap_imap, <-list_fmap_compose. f_equal.
  - apply list_eq. intros i. rewrite list_lookup_imap. by destruct (_ !! i).
  - by rewrite list_fmap_id.
Qed.

Lemma tracks_unsymbolled m s a : tracks m s a → unsymbolled s = false.
Proof. intros Ht. unfold unsymbolled. rewrite (xp_payload _ _ (tk_explainable _ _ _ Ht)). by destruct (symbols _). Qed.

Lemma of_partition_orders m (s : Session B) a :
  refines s a → Forall2 of_partition (a_parts a) (numbered m) →
  part_order <$> parts s = (variable_order ∘ pt_symbols) <$> partitions_of m.
Proof.
  intros Hr HF. rewrite <-numbered_partitions, <-list_fmap_compose. pose proof (rf_parts _ _ Hr) as Hp.
  revert HF. generalize (numbered m). induction Hp as [|p ap ps aps Hp _ IH]; intros l HF;
    inversion HF as [|? ip ? l' [_ Ho] HF']; subst; [done|]. cbn. rewrite (rp_order _ _ Hp), Ho. by rewrite (IH l').
Qed.

(** The partition of an index is the only one with it. *)
Lemma numbered_unique m (s : Session B) a index p q :
  refines s a → Forall2 of_partition (a_parts a) (numbered m) →
  (index, p) ∈ numbered m → (index, q) ∈ numbered m → p = q.
Proof.
  intros Hr HF Hp Hq.
  assert (E : (numbered m).*1 = partition_index <$> parts s).
  { pose proof (rf_parts _ _ Hr) as Hps. clear Hp Hq. revert HF. generalize (numbered m).
    induction Hps as [|x ap ps aps Hx _ IH]; intros l HF; inversion HF as [|? ip ? l' [Hi _] HF']; subst; [done|].
    cbn. by rewrite (rp_index _ _ Hx), Hi, (IH l'). }
  assert (Hnd : NoDup (numbered m).*1) by (rewrite E; apply Hr).
  apply (elem_of_list_to_map_1 (M := gmap N)) in Hp, Hq; [|done..]. congruence.
Qed.

Lemma of_partition_elem aps l ap :
  Forall2 of_partition aps l → ap ∈ aps →
  ∃ p, (a_index ap, p) ∈ l ∧ a_order ap = variable_order (pt_symbols p).
Proof.
  intros HF [i Hi]%list_elem_of_lookup. destruct (Forall2_lookup_l _ _ _ _ _ HF Hi) as ([j p] & Hip & [E Ho]).
  exists p. cbn in E. rewrite E. split; [by eapply list_elem_of_lookup_2|done].
Qed.

Lemma tracks_ids m s a ap p :
  tracks m s a → ap ∈ a_parts a → (a_index ap, p) ∈ numbered m → a_order ap = variable_order (pt_symbols p).
Proof.
  intros Ht Hap Hp. destruct (of_partition_elem _ _ _ (tk_parts _ _ _ Ht) Hap) as (q & Hq & ->).
  by rewrite (numbered_unique m s a _ p q (tk_refines _ _ _ Ht) (tk_parts _ _ _ Ht) Hp Hq).
Qed.

(** *** New sessions *)

Lemma new_ccm c (s : Session B) : new c = Ok s → ccm s = c.
Proof. unfold new. intros (ps & _ & E)%bind_Ok. by injection E as <-. Qed.

Lemma initial_parts m : a_parts (a_initial m) = (λ ip, apart_of ip.1 ip.2) <$> numbered m.
Proof.
  unfold a_initial, numbered. cbn [a_parts]. rewrite fmap_app, fmap_imap, <-list_fmap_compose. done.
Qed.

Lemma tracks_new c m s :
  payload c = Some m → Forall loadable (partitions_of m) →
  N.of_nat (length (mp_clusters m)) ≤ BRIDGE_PARTITION_INDEX → new c = Ok s → tracks m s (a_initial m).
Proof.
  intros Hm Hload Hl Hn. pose proof (new_spec c m Hm Hload Hl) as Hs. rewrite Hn in Hs.
  destruct Hs as (Hr & _ & Hcs).
  assert (HF : Forall2 of_partition (a_parts (a_initial m)) (numbered m)).
  { rewrite initial_parts, Forall2_fmap_l. by apply Forall_Forall2_diag, Forall_true. }
  split; [done| |done|].
  - split; [by rewrite (new_ccm _ _ Hn)|done|by eapply of_partition_orders|by rewrite Hcs].
  - rewrite Hcs. split; [| |done|done].
    + intros ap Hap j Hj _ p tau Hp Ht _. pose proof Hap as Hap'. rewrite initial_parts in Hap'.
      apply list_elem_of_fmap in Hap' as ([i q] & -> & Hq). cbn in *.
      by rewrite <-(numbered_unique m s (a_initial m) i p q Hr HF Hp Hq).
    + intros q e Hq. done.
Qed.

(** *** Steps *)

Lemma apply_ccm (s : Session B) facet value : ccm (apply s facet value).2 = ccm s.
Proof.
  unfold apply. destruct (unsymbolled s); [done|]. destruct (find_touched _ _ _); [done|].
  destruct (_ <? _)%nat; [done|]. destruct (stage_all _ _ _ _) as [[staged|e] ps]; [|done].
  by destruct (commit_all _ _ _ _) as [[? ?]|].
Qed.

Lemma retract_ccm (s : Session B) facet : ccm (retract s facet).2 = ccm s.
Proof. unfold retract. destruct (last _); [|done]. by destruct (list_find _ _) as [[? ?]|]. Qed.

Lemma retract_commits (s : Session B) facet :
  (retract s facet).1 = Ok tt → undo s ≠ [] → committed (retract s facet).2 = retract_committed (committed s).
Proof.
  unfold retract. destruct (last (undo s)) eqn:El; [|by apply last_None in El]. by destruct (list_find _ _) as [[? ?]|].
Qed.

Lemma retract_committed_pins (P : string → Prop) cs :
  Forall (λ c, (0 < undo_entries c)%nat) cs → Forall (λ c, P (compound c)) cs →
  Forall (λ c, P (compound c)) (retract_committed cs).
Proof.
  intros Hpos HF. destruct (decide (cs = [])) as [->|Hne]; [done|].
  destruct (retract_committed_cases cs Hpos Hne) as (cs0 & top & -> & _ & [[_ ->]|[_ ->]]);
    apply Forall_app in HF as [HF Ht]; [done|]. apply Forall_cons_1 in Ht as [Ht _].
  apply Forall_app. split; [done|]. by constructor.
Qed.

Lemma a_select_partition c ap ip : of_partition ap ip → of_partition (a_select c ap) ip.
Proof. intros [? ?]. unfold a_select, of_partition. by destruct (a_var ap c). Qed.

Lemma a_restore_partition i f ap ip : of_partition ap ip → of_partition (a_restore i f ap) ip.
Proof. intros [? ?]. unfold a_restore, of_partition. by case_decide. Qed.

Lemma tracks_step m (s s' : Session B) a a' cs :
  tracks m s a → refines s' a' → ccm s' = ccm s → committed s' = cs →
  Forall2 of_partition (a_parts a') (numbered m) → traced (numbered m) cs a' →
  Forall (λ c, ∃ p, p ∈ partitions_of m ∧ compound c ∈ variable_order (pt_symbols p)) cs →
  tracks m s' a'.
Proof.
  intros Ht Hr Hc <- Hp Htr Hpins. pose proof (tk_explainable _ _ _ Ht) as Hx. split; [done| |done|done].
  split; [by rewrite Hc, (xp_payload _ _ Hx)|apply Hx|by eapply of_partition_orders|done].
Qed.

Lemma tracks_apply m s a facet value : tracks m s a → ∃ a', tracks m (apply s facet value).2 a'.
Proof.
  intros Ht. pose proof (session_apply_spec s a facet value (tk_refines _ _ _ Ht) (tracks_unsymbolled _ _ _ Ht)) as Ha.
  pose proof (apply_ccm s facet value) as Hccm. pose proof (xp_pins _ _ (tk_explainable _ _ _ Ht)) as Hpins.
  destruct (apply s facet value) as [[u|e] s']; cbn [snd] in *; cbn in Ha.
  - destruct Ha as (Hr & Hne & _ & Hcs). eexists. eapply tracks_step; [done|done|done|done|..].
    + cbn. rewrite Forall2_fmap_l. eapply Forall2_impl; [apply Ht|]. intros ap ip. apply a_select_partition.
    + apply traced_apply; [apply Ht| |done]. intros ap p. by eapply tracks_ids.
    + apply Forall_app. split; [done|]. constructor; [|done]. cbn [compound].
      destruct (a_owners a _) as [|ap owners] eqn:Eo; [done|].
      assert (Hown : ap ∈ a_owners a (facet +:+ "." +:+ value)) by (rewrite Eo; by left).
      apply owners_elem in Hown as [Hap [v Hv]]. apply a_var_Some, list_elem_of_lookup_2 in Hv.
      destruct (of_partition_elem _ _ _ (tk_parts _ _ _ Ht) Hap) as (p & Hp & Ho). exists p. rewrite <-Ho. split; [|done].
      rewrite <-numbered_partitions. apply list_elem_of_fmap. by exists (a_index ap, p).
  - destruct Ha as [(Hr & _ & _ & Hcs) _]. exists a. eapply tracks_step; [done|done|done|done|apply Ht..|done].
Qed.

Lemma tracks_retract m s a facet : tracks m s a → ∃ a', tracks m (retract s facet).2 a'.
Proof.
  intros Ht. destruct (retract_spec s a facet (tk_refines _ _ _ Ht)) as [Hok Hr].
  pose proof (retract_ccm s facet) as Hccm. pose proof (rf_undo _ _ (tk_refines _ _ _ Ht)) as Hu.
  destruct (decide (a_undo a = [])) as [E|E].
  - rewrite E in Hu. apply Forall2_nil_inv_r in Hu. unfold retract. rewrite Hu. by exists a.
  - assert (Hne : undo s ≠ []) by (intros Hn; rewrite Hn in Hu; by apply Forall2_nil_inv_l in Hu).
    exists (a_retract a). eapply tracks_step; [done|done|done|by apply retract_commits|..].
    + unfold a_retract. destruct (last (a_undo a)) as [[i f]|]; [|apply Ht]. cbn.
      rewrite Forall2_fmap_l. eapply Forall2_impl; [apply Ht|]. intros ap ip. apply a_restore_partition.
    + apply traced_retract; [apply Ht|done].
    + apply (retract_committed_pins (λ c, ∃ p, p ∈ partitions_of m ∧ c ∈ variable_order (pt_symbols p)));
        [apply Ht|apply Ht].
Qed.

(** Every reachable session tracks its model. *)
Lemma reaches_tracks m s :
  Forall loadable (partitions_of m) → N.of_nat (length (mp_clusters m)) ≤ BRIDGE_PARTITION_INDEX →
  reaches m s → ∃ a, tracks m s a.
Proof.
  intros Hload Hl. induction 1 as [c s Hm Hn|s facet value _ [a Ha]|s facet _ [a Ha]].
  - exists (a_initial m). by eapply tracks_new.
  - by eapply tracks_apply.
  - by eapply tracks_retract.
Qed.

(** A session's formulas hold at every feasible assignment. *)
Lemma feasible_funs m s a tau ap :
  tracks m s a → feasible m (pinned_symbols s) tau → ap ∈ a_parts a →
  ∃ p, a_order ap = variable_order (pt_symbols p) ∧ a_fun ap (locals p tau) = true.
Proof.
  intros Ht [Hparts Hpins] Hap. destruct (of_partition_elem _ _ _ (tk_parts _ _ _ Ht) Hap) as (p & Hp & Ho).
  exists p. split; [done|].
  apply (tr_parts _ _ _ (tk_traced _ _ _ Ht) ap Hap (length (committed s))) with (p := p).
  - done.
  - rewrite drop_ge by (by rewrite (tr_length _ _ _ (tk_traced _ _ _ Ht))). intros e He. by apply not_elem_of_nil in He.
  - done.
  - rewrite Forall_forall in Hparts. apply Hparts. rewrite <-numbered_partitions. apply list_elem_of_fmap.
    by exists (a_index ap, p).
  - rewrite firstn_all. apply Forall_fmap, Forall_forall. intros c Hc. apply Hpins.
    apply elem_of_list_to_set, list_elem_of_fmap. by exists c.
Qed.

(** A conflict is one of the whole model. *)
Lemma conflict_infeasible m s a facet value s' tau :
  tracks m s a → apply s facet value = (Err (Conflict facet value), s') →
  feasible m (pinned_symbols s) tau → tau (facet +:+ "." +:+ value) = false.
Proof.
  intros Ht Ha Hf. pose proof (session_apply_spec s a facet value (tk_refines _ _ _ Ht) (tracks_unsymbolled _ _ _ Ht)) as Hs.
  rewrite Ha in Hs. destruct Hs as (_ & _ & _ & ap & v & Hown & Hv & Hno).
  apply owners_elem in Hown as [Hap _]. destruct (feasible_funs m s a tau ap Ht Hf Hap) as (p & Ho & Hfun).
  specialize (Hno (locals p tau)). rewrite Hfun in Hno. cbn in Hno. unfold locals in Hno.
  apply a_var_Some in Hv. rewrite Ho in Hv. by rewrite Hv in Hno.
Qed.

Context {T : Type} `{SatContract T}.

(** C32: Explanations are exact and minimal.  In every session [apply] and
    [retract] reach from a loaded model, [explain_rejection] says an option is
    valid exactly when the whole model, bridge included, has a configuration
    with the option and the selections made so far.  Otherwise it returns
    constraints that contradict the option, each of which holds in every
    configuration of the model and the selections and none of which can be left
    out.  It fails only for a symbol the model does not have, for one without a
    facet, when a table has more falsifying paths than the cap, or when the SAT
    solver gives up. *)
Theorem explain_rejection_exact m s facet option :
  Forall loadable (partitions_of m) → N.of_nat (length (mp_clusters m)) ≤ BRIDGE_PARTITION_INDEX →
  fits_u32 m → reaches m s →
  explained m (pinned_symbols s) facet option (explain_rejection (T := T) s facet option).
Proof.
  intros Hload Hl Hfit Hs. destruct (reaches_tracks m s Hload Hl Hs) as [a Ha]. apply explain_spec; [apply Ha|done].
Qed.

(** A conflict is always confirmed.  When [apply] rejects a selection
    because a partition contradicts it, no configuration of the model and the
    selections has it, in whatever order selections were made and retracted, one
    undo entry at a time; so [explain_rejection] never calls it valid. *)
Theorem conflict_confirmed m s facet value s' :
  Forall loadable (partitions_of m) → N.of_nat (length (mp_clusters m)) ≤ BRIDGE_PARTITION_INDEX →
  fits_u32 m → reaches m s → apply s facet value = (Err (Conflict facet value), s') →
  (∀ tau, feasible m (pinned_symbols s) tau → tau (facet +:+ "." +:+ value) = false) ∧
  explain_rejection (T := T) s facet value ≠ Ok (mkExplanation false None).
Proof.
  intros Hload Hl Hfit Hs Ha. destruct (reaches_tracks m s Hload Hl Hs) as [a Ht].
  assert (Hno : ∀ tau, feasible m (pinned_symbols s) tau → tau (facet +:+ "." +:+ value) = false)
    by (intros tau; by apply (conflict_infeasible m s a facet value s')).
  split; [done|]. intros E. pose proof (explain_spec (T := T) s m facet value (tk_explainable _ _ _ Ht) Hfit) as Hx.
  rewrite E in Hx. destruct Hx as [_ [(_ & tau & Hf & Htau)|(core & ? & _)]]; [|done]. by rewrite Hno in Htau.
Qed.
End Reachable.

(** ** Explanations at work *)

Definition demo_sat : Type := BatsatBackend BruteSolver.

Lemma demo_fits : fits_u32 demo_model.
Proof. by vm_compute. Qed.

Lemma demo_reaches : reaches demo_model (apply demo_session "os" "linux").2.
Proof. apply reach_apply. by apply reach_new with (c := from_multi_part demo_model), demo_new. Qed.

Lemma explain_rejection_exact_witness :
  let s := (apply demo_session "os" "linux").2 in
  ∃ core, explain_rejection (T := demo_sat) s "os" "mac" = Ok (mkExplanation true (Some core)) ∧
    length (conflicting_constraints core) = 2%nat ∧
    core_ok demo_model (pinned_symbols s) "os.mac" core.
Proof.
  pose proof (explain_rejection_exact (T := demo_sat) demo_model (apply demo_session "os" "linux").2 "os" "mac"
    demo_loadable demo_small demo_fits demo_reaches) as Hx.
  assert (E : ∃ core, explain_rejection (T := demo_sat) (apply demo_session "os" "linux").2 "os" "mac" =
    Ok (mkExplanation true (Some core)) ∧ length (conflicting_constraints core) = 2%nat).
  { eexists. split; vm_compute; reflexivity. }
  destruct E as (core & E & El). exists core. split; [exact E|]. split; [exact El|].
  rewrite E in Hx. destruct Hx as [_ [[Hc _]|(core' & Hc & Hok & _)]]; [discriminate Hc|].
  injection Hc as ->. exact Hok.
Defined.

Lemma conflict_confirmed_witness :
  let s := (apply demo_session "os" "linux").2 in
  (apply s "os" "mac").1 = Err (Conflict "os" "mac") ∧
  explain_rejection (T := demo_sat) s "os" "mac" ≠ Ok (mkExplanation false None).
Proof.
  assert (E : (apply (apply demo_session "os" "linux").2 "os" "mac").1 = Err (Conflict "os" "mac"))
    by (vm_compute; reflexivity).
  split; [exact E|].
  apply (proj2 (conflict_confirmed (T := demo_sat) demo_model (apply demo_session "os" "linux").2 "os" "mac"
    (apply (apply demo_session "os" "linux").2 "os" "mac").2 demo_loadable demo_small demo_fits demo_reaches
    ltac:(rewrite <-E; apply surjective_pairing))).
Defined.

(** Two clusters and a bridge: [a.x] needs [c.x], which needs [b.x], which is
    forbidden. *)
Definition chain_part (syms : list string) (index : gmap string N) (raw : list RawNode) (root : N) : PartitionCcm :=
  mkPartition (mkSymbols 2 syms index syms)
    (mkPayload 2 (2 + N.of_nat (length raw)) [root] (table_of raw)) (repeat "001"%char 32).

Definition chain_model : MultiPartCcm :=
  mkMultiPart (repeat "001"%char 32) (repeat "002"%char 32) 2 []
    [chain_part ["a.x"; "c.x"] {["a.x" := 0; "c.x" := 1]} [mkRaw 1 0 1; mkRaw 0 1 2] 3;
     chain_part ["b.x"; "d.x"] {["b.x" := 0; "d.x" := 1]} [mkRaw 0 1 0] 2]
    (Some (chain_part ["b.x"; "c.x"] {["b.x" := 0; "c.x" := 1]} [mkRaw 1 1 0; mkRaw 0 2 1] 3)).

Definition chain_session : result session_error (Session (CuddBackend BddBuilder N)) := new (from_multi_part chain_model).

(** The bridge is not propagated.  Selections are checked partition by
    partition, explanations against the whole model: an option the model
    excludes through the bridge is listed and accepted, and explained as
    rejected. *)
Example bridge_not_propagated :
  match chain_session with
  | Ok s =>
      valid_options s "a" = Ok (mkValidOptions 1 ["x"]) ∧ (apply s "a" "x").1 = Ok tt ∧
      match explain_rejection (T := demo_sat) s "a" "x" with
      | Ok r => would_reject r = true
      | Err _ => False
      end
  | Err _ => False
  end.
Proof. vm_compute. split_and!; reflexivity. Qed.
