(* ===== verification/MultiPartDisk.v ===== *)
(** * What an emission leaves on the disk

    Lemmas about [MultiPartEmit.v]: partition directories have distinct plain
    names, and a successful emission leaves every partition's three files and
    the top-level files on the disk, later writes included. *)
From S2P Require Import Prelude Tokens Ast Implication FacetCompare SelectionEval VarOrder Partitioner.
From S2P Require Import MultiPart Bdd BddLayout BddBytes CcmFormat Emitter Artifact MultiPartEmit.
Local Open Scope N_scope.

(** ** Names of partition directories *)

Definition is_digit (c : ascii) : Prop := byte_in 48 57 c = true.

(** The number a string of digits denotes. *)
Definition digits_value (ds : list ascii) : N := foldl (λ v c, v * 10 + (N_of_ascii c - 48)) 0 ds.

Lemma digit_byte d : d < 10 → is_digit (byte (48 + d)) ∧ N_of_ascii (byte (48 + d)) - 48 = d.
Proof.
  intros Hd. unfold is_digit, byte_in. rewrite !N_of_byte, !N.mod_small by lia. split; [|lia].
  apply andb_true_iff. split; apply N.leb_le; lia.
Qed.

Lemma dec_digits_spec fuel n acc :
  n < 2 ^ N.of_nat fuel →
  ∃ ds, dec_digits fuel n acc = ds ++ acc ∧ digits_value ds = n ∧ Forall is_digit ds.
Proof.
  revert n acc. induction fuel as [|fuel IH]; intros n acc Hn.
  { exists []. cbn in Hn. split_and!; [done|cbn; lia|constructor]. }
  cbn [dec_digits]. destruct (N.ltb_spec n 10) as [H|H].
  - destruct (digit_byte (n mod 10)) as [Hd Hv]; [rewrite N.mod_small; lia|].
    exists [byte (48 + n mod 10)]. split_and!; [done| |by constructor].
    unfold digits_value. cbn [foldl]. rewrite Hv, N.mod_small; lia.
  - destruct (digit_byte (n mod 10)) as [Hd Hv]; [by apply N.mod_lt|].
    destruct (IH (n / 10) (byte (48 + n mod 10) :: acc)) as (ds & -> & E & HF).
    { rewrite Nat2N.inj_succ, N.pow_succ_r' in Hn. apply N.Div0.div_lt_upper_bound. lia. }
    exists (ds ++ [byte (48 + n mod 10)]). rewrite <-app_assoc. split_and!; [done| |].
    + unfold digits_value in *. rewrite foldl_app, E. cbn [foldl]. rewrite Hv.
      pose proof (N.div_mod n 10 ltac:(done)). lia.
    + apply Forall_app. split; [done|by constructor].
Qed.

Lemma padded_spec n :
  digits_value (pad4 (decimal n)) = n ∧ Forall is_digit (pad4 (decimal n)).
Proof.
  unfold decimal. destruct (dec_digits_spec (S (N.to_nat (N.log2 n))) n []) as (ds & -> & E & HF).
  { rewrite Nat2N.inj_succ, N2Nat.id. destruct (N.eq_dec n 0) as [->|Hn]; [done|].
    apply N.log2_spec. lia. }
  rewrite app_nil_r. unfold pad4. split.
  - unfold digits_value in *. rewrite foldl_app. generalize (4 - length ds)%nat as k.
    induction k as [|k IH]; cbn; [done|]. exact IH.
  - apply Forall_app. split; [|done]. induction (4 - length ds)%nat; cbn; constructor; done.
Qed.

Lemma bytes_partition_dir i :
  bytes_of (partition_dir i) = bytes_of "partition-" ++ pad4 (decimal (N.of_nat i)).
Proof. unfold partition_dir. by rewrite bytes_of_app, bytes_of_string_of. Qed.

#[export] Instance partition_dir_inj : Inj (=) (=) partition_dir.
Proof.
  intros i j E. apply (f_equal bytes_of) in E. rewrite !bytes_partition_dir in E.
  apply (inj (app _)) in E. apply Nat2N.inj.
  by rewrite <-(proj1 (padded_spec (N.of_nat i))), <-(proj1 (padded_spec (N.of_nat j))), E.
Qed.

Lemma partition_dir_bridge i : partition_dir i ≠ BRIDGE_PARTITION_DIR.
Proof.
  intros E. apply (f_equal bytes_of) in E. rewrite bytes_partition_dir in E.
  change (bytes_of BRIDGE_PARTITION_DIR) with (bytes_of "partition-" ++ bytes_of "bridge") in E.
  apply (inj (app _)) in E. pose proof (proj2 (padded_spec (N.of_nat i))) as HF. rewrite E in HF.
  by inversion HF.
Qed.

(** A name with no path separator. *)
Definition slashless (s : string) : Prop := "/"%char ∉ bytes_of s.

Lemma partition_dir_slashless i : slashless (partition_dir i).
Proof.
  unfold slashless. rewrite bytes_partition_dir. intros [H|H]%elem_of_app.
  - cbn in H. set_solver.
  - pose proof (proj2 (padded_spec (N.of_nat i))) as HF. rewrite Forall_forall in HF.
    by apply HF in H.
Qed.

Lemma plain_names n has_bridge :
  forallb is_plain_filename (partition_names n has_bridge) = true.
Proof.
  apply forallb_elem. intros name [(i & -> & _)%list_elem_of_fmap|Hb]%elem_of_app.
  - unfold is_plain_filename, has_byte.
    assert (Hno : ∀ c, byte_in 48 57 c = false → existsb (Ascii.eqb c) (bytes_of "partition-") = false →
      existsb (Ascii.eqb c) (bytes_of (partition_dir i)) = false).
    { intros c Hc Hp. rewrite bytes_partition_dir, existsb_app, Hp. cbn.
      apply not_true_is_false. intros (d & Hd & ->%Ascii.eqb_eq)%existsb_exists.
      pose proof (proj2 (padded_spec (N.of_nat i))) as HF. rewrite Forall_forall in HF.
      apply list_elem_of_In, HF in Hd. unfold is_digit in Hd. congruence. }
    rewrite !Hno by done.
    assert (Hne : ∀ s, head (bytes_of s) ≠ Some "p"%char → bool_decide (partition_dir i = s) = false).
    { intros s Hs. apply bool_decide_eq_false. intros <-. by rewrite bytes_partition_dir in Hs. }
    by rewrite !Hne by done.
  - destruct has_bridge; [|by apply not_elem_of_nil in Hb].
    apply list_elem_of_singleton in Hb as ->. by vm_compute.
Qed.

(** ** Paths *)

Lemma bytes_join dir name :
  slashless name → bytes_of (join dir name) = bytes_of dir ++ "/"%char :: bytes_of name.
Proof.
  intros Hs. unfold join. destruct (bytes_of name) as [|c bs] eqn:E; cbn.
  - by rewrite !bytes_of_app, E.
  - destruct (decide (c = "/"%char)) as [->|Hc].
    + exfalso. apply Hs. rewrite E. by left.
    + assert (Hj : (match c with "/"%char => name | _ => dir +:+ "/" +:+ name end) = dir +:+ "/" +:+ name).
      { destruct c as [[] [] [] [] [] [] [] []]; try done. }
      rewrite Hj, !bytes_of_app, E. done.
Qed.

Lemma slash_split a b a' b' :
  "/"%char ∉ a → "/"%char ∉ a' → a ++ "/"%char :: b = a' ++ "/"%char :: b' → a = a' ∧ b = b'.
Proof.
  revert a'. induction a as [|c a IH]; intros [|c' a'] Ha Ha' E; cbn in E.
  - by injection E.
  - injection E as <- _. exfalso. apply Ha'. by left.
  - injection E as -> _. exfalso. apply Ha. by left.
  - injection E as -> E. apply IH in E as [-> ->]; [done|set_solver|set_solver].
Qed.

Lemma sub_path_inj dir n f n' f' :
  slashless n → slashless f → slashless n' → slashless f' →
  join (join dir n) f = join (join dir n') f' → n = n' ∧ f = f'.
Proof.
  intros Hn Hf Hn' Hf' E. apply (f_equal bytes_of) in E. rewrite !bytes_join, <-!app_assoc in E by done.
  apply (inj (app _)) in E. injection E as E. apply slash_split in E as [E1 E2]; [|done..].
  split; by apply (inj bytes_of).
Qed.

Lemma sub_path_top dir n f g :
  slashless n → slashless f → slashless g → join (join dir n) f ≠ join dir g.
Proof.
  intros Hn Hf Hg E. apply (f_equal bytes_of) in E. rewrite !bytes_join, <-!app_assoc in E by done.
  apply (inj (app _)) in E. injection E as E. apply Hg. rewrite <-E. set_solver.
Qed.

Lemma join_inj dir f g : slashless f → slashless g → join dir f = join dir g → f = g.
Proof.
  intros Hf Hg E. apply (f_equal bytes_of) in E. rewrite !bytes_join in E by done.
  apply (inj (app _)) in E. injection E as E. by apply (inj bytes_of).
Qed.

Lemma artifact_slashless f : f ∈ artifact_files → slashless f.
Proof.
  intros Hf. unfold artifact_files in Hf. rewrite !elem_of_cons, elem_of_nil in Hf.
  destruct_or! Hf; subst; try done; unfold slashless; cbn; set_solver.
Qed.

(** ** Reading the disk back *)

(** The files of a disk, as the loader sees them. *)
Definition fs_of (d : disk) : file_system := λ path,
  (λ bs, mkFile true (N.of_nat (length bs)) bs) <$> d !! path.

(** Every file can be read. *)
Definition readable (d : disk) : Prop :=
  ∀ path bs, d !! path = Some bs → N.of_nat (length bs) ≤ CCM_FILE_SIZE_LIMIT_BYTES.

Lemma open_file_spec d path bs log :
  readable d → d !! path = Some bs → open_file (fs_of d) path log = (Ok bs, log ++ [path]).
Proof.
  intros Hr Hp. unfold open_file, read_ccm_file, fs_of, read_capped. rewrite Hp.
  pose proof (Hr _ _ Hp) as Hle. cbn -[CCM_FILE_SIZE_LIMIT_BYTES N.leb].
  rewrite (proj2 (N.ltb_ge _ _) Hle). cbn -[CCM_FILE_SIZE_LIMIT_BYTES N.leb].
  rewrite (proj2 (N.leb_le _ (CCM_FILE_SIZE_LIMIT_BYTES + 1))) by lia.
  by rewrite (proj2 (N.ltb_ge _ _) Hle).
Qed.

(** ** What an emission leaves on the disk *)

Lemma writes_bind_Ok {A B} (m : writes A) (k : A → writes B) d b d' :
  (m ≫= k) d = (Ok b, d') → ∃ a d1, m d = (Ok a, d1) ∧ k a d1 = (Ok b, d').
Proof. unfold mbind, writes_bind. destruct (m d) as [[a|e] d1]; [eauto|done]. Qed.

Lemma pure_w_Ok {A} (r : result emit_error A) d a d' : pure_w r d = (Ok a, d') → r = Ok a ∧ d' = d.
Proof. unfold pure_w. destruct r; cbn; naive_solver. Qed.

Lemma write_file_Ok writable dir name bytes d u d' :
  write_file writable dir name bytes d = (Ok u, d') → d' = <[join dir name := bytes]> d.
Proof. unfold write_file. destruct (writable _); naive_solver. Qed.

Lemma create_dir_Ok creatable dir d u d' : create_dir_all creatable dir d = (Ok u, d') → d' = d.
Proof. unfold create_dir_all. destruct (creatable _); naive_solver. Qed.

Ltac inv_writes :=
  repeat match goal with
  | H : (_ ≫= _) _ = (Ok _, _) |- _ => apply writes_bind_Ok in H as (? & ? & ? & H); cbn beta in H
  | H : pure_w _ _ = (Ok _, _) |- _ => apply pure_w_Ok in H as [H ->]
  | H : create_dir_all _ _ _ = (Ok _, _) |- _ => apply create_dir_Ok in H as ->
  | H : write_file _ _ _ _ _ = (Ok _, _) |- _ => apply write_file_Ok in H as ->
  | H : mret _ _ = (Ok _, _) |- _ => injection H as <- <-
  | H : (let '(_, _) := ?x in _) _ = _ |- _ => destruct x eqn:?; cbn beta iota in H
  end.

Section Emitted.
Context (sha256 : list ascii → list ascii).
Context (to_vec : PreImageManifest → result ParseError (list ascii)).
Context (top_to_vec : TopLevelPreImage → result ParseError (list ascii)).
Context (pm_to_vec : PartitionManifestPreImage → result ParseError (list ascii)).
Context (manifest_to_vec : ManifestOut → list ascii).
Context (symbols_to_vec : Symbols → list ascii).
Context (top_out_to_vec : TopLevelManifestOut → list ascii).
Context (pm_out_to_vec : PartitionManifestOut → list ascii).
Context (creatable writable : string → bool).
Context (samples : nat → nat → option N) (post_rss : nat → option N).
Context (model : ConditionModel) (h : VarOrderHeuristic) (c : Construction) (memo_cap budget : option N).

(** A partition's three files, built from [sub] and with the digest [raw]. *)
Definition emitted (d : disk) (sub_dir : string) (sub : list ConditionExpr) (raw : list ascii) : Prop :=
  ∃ symbols bdd adapt count mj samp,
    compute_variable_order sub h = Some symbols ∧
    build_bdd_bin_via_construction sub symbols c memo_cap budget samp = Ok (bdd, adapt) ∧
    node_count bdd = Some count ∧
    serialize_per_partition_manifest sha256 to_vec manifest_to_vec (bound_model_hash model)
      (u32_cast (N.of_nat (length symbols))) count (serialize_symbols symbols_to_vec symbols) bdd h c =
      Ok (mj, raw) ∧
    d !! join sub_dir "ccm.bdd.bin" = Some bdd ∧
    d !! join sub_dir "ccm.symbols.json" = Some (serialize_symbols symbols_to_vec symbols) ∧
    d !! join sub_dir "ccm.manifest.json" = Some mj.

Lemma emitted_frame d d' sub_dir sub raw :
  (∀ f, f ∈ artifact_files → d' !! join sub_dir f = d !! join sub_dir f) →
  emitted d sub_dir sub raw → emitted d' sub_dir sub raw.
Proof.
  intros Hf (symbols & bdd & adapt & count & mj & samp & ? & ? & ? & ? & H1 & H2 & H3).
  exists symbols, bdd, adapt, count, mj, samp. unfold artifact_files in Hf.
  rewrite !Hf by set_solver. done.
Qed.

Lemma files_distinct dir f g :
  f ∈ artifact_files → g ∈ artifact_files → f ≠ g → join dir f ≠ join dir g.
Proof. intros Hf Hg Hne E. apply Hne. apply join_inj in E; auto using artifact_slashless. Qed.

Notation emit_inner := (emit_partition_inner sha256 to_vec manifest_to_vec symbols_to_vec creatable writable
  samples post_rss).
Notation emit_sel := (emit_selected sha256 to_vec manifest_to_vec symbols_to_vec creatable writable
  samples post_rss).
Notation emit_cl := (emit_clusters sha256 to_vec manifest_to_vec symbols_to_vec creatable writable
  samples post_rss).

(** [d'] agrees with [d] outside the artifact files of [sub_dir]. *)
Definition same_outside (P : string → Prop) (d d' : disk) : Prop :=
  ∀ path, (∀ sub_dir f, P sub_dir → f ∈ artifact_files → path ≠ join sub_dir f) → d' !! path = d !! path.

Lemma same_outside_trans (P Q R : string → Prop) d1 d2 d3 :
  (∀ s, P s → R s) → (∀ s, Q s → R s) →
  same_outside P d1 d2 → same_outside Q d2 d3 → same_outside R d1 d3.
Proof. intros HP HQ H1 H2 path Hp. rewrite H2, H1; eauto. Qed.

Lemma emit_partition_ok sub sub_dir idx d dg d' :
  emit_inner model sub sub_dir h c memo_cap budget idx d = (Ok dg, d') →
  emitted d' sub_dir sub (ccm_hash_raw dg) ∧ same_outside (eq sub_dir) d d'.
Proof.
  unfold emit_partition_inner. intros H. inv_writes.
  assert (Hd : ∀ f g, f ∈ artifact_files → g ∈ artifact_files → f ≠ g → join sub_dir f ≠ join sub_dir g)
    by (intros; by apply files_distinct).
  unfold artifact_files in *. split.
  - repeat match goal with H : ok_or _ _ = Ok _ |- _ => apply ok_or_Ok in H end.
    eexists _, _, _, _, _, _. split_and!; [eassumption..| | |].
    + rewrite !lookup_insert_ne by (apply Hd; set_solver). by rewrite lookup_insert_eq.
    + rewrite lookup_insert_ne by (apply Hd; set_solver). by rewrite lookup_insert_eq.
    + by rewrite lookup_insert_eq.
  - intros path Hp. unfold artifact_files in Hp.
    rewrite !lookup_insert_ne; [done|..]; apply not_eq_sym, Hp; set_solver.
Qed.

Lemma emit_selected_ok parsed indices sub_dir idx d dg d' :
  emit_sel model parsed indices sub_dir h c memo_cap budget idx d = (Ok dg, d') →
  ∃ sub, select_clauses parsed indices = Some sub ∧
    emitted d' sub_dir sub (ccm_hash_raw dg) ∧ same_outside (eq sub_dir) d d'.
Proof.
  unfold emit_selected. destruct (select_clauses _ _) as [sub|]; [|done].
  intros H%emit_partition_ok. eauto.
Qed.

(** The subdirectory of a partition is another one's only if the names agree. *)
Lemma emitted_elsewhere (P : string → Prop) d d' dir n sub raw :
  slashless n → (∀ s, P s → ∃ n', s = join dir n' ∧ slashless n' ∧ n' ≠ n) →
  same_outside P d d' → emitted d (join dir n) sub raw → emitted d' (join dir n) sub raw.
Proof.
  intros Hn HP Hs. apply emitted_frame. intros f Hf. apply Hs. intros s g Hg Hgf E.
  apply HP in Hg as (n' & -> & Hn' & Hne).
  apply sub_path_inj in E as [E _]; auto using artifact_slashless.
Qed.

(** What a run of the cluster loop leaves: a list of the clauses and digest of
    each partition. *)
Lemma emit_clusters_ok parsed dir trigger cs idx acc d acc' d' :
  emit_cl model parsed dir h c memo_cap budget trigger idx cs acc d = (Ok acc', d') →
  ∃ parts,
    ea_hashes acc' = ea_hashes acc ++ (snd <$> parts) ∧
    Forall2 (λ cl p, select_clauses parsed (cl_clauses cl) = Some p.1) cs parts ∧
    Forall2 (λ j p, emitted d' (join dir (partition_dir j)) p.1 p.2) (seq idx (length cs)) parts ∧
    same_outside (λ s, ∃ j, s = join dir (partition_dir j) ∧ (idx ≤ j)%nat) d d'.
Proof.
  revert idx acc d. induction cs as [|cl cs IH]; intros idx acc d H; cbn in H.
  { injection H as <- <-. exists []. rewrite app_nil_r. split_and!; by constructor. }
  apply writes_bind_Ok in H as (dg & d1 & Hd & H).
  apply emit_selected_ok in Hd as (sub & Hsel & Hem & Hout).
  apply IH in H as (parts & Hh & Hs & He & Hf). exists ((sub, ccm_hash_raw dg) :: parts).
  split_and!.
  - cbn in Hh |- *. by rewrite Hh, <-app_assoc.
  - by constructor.
  - cbn. constructor; [|done]. eapply emitted_elsewhere; [apply partition_dir_slashless| |exact Hf|exact Hem].
    intros s (j & -> & Hj). eexists. split; [done|]. split; [apply partition_dir_slashless|].
    intros E%(inj partition_dir). lia.
  - eapply same_outside_trans; [| |exact Hout|exact Hf].
    + intros s <-. exists idx. split; [done|lia].
    + intros s (j & -> & Hj). exists j. split; [done|lia].
Qed.

(** The clauses of each partition, clusters first. *)
Definition partition_indices (plan : PartitionPlan) : list (list nat) :=
  (cl_clauses <$> clusters plan) ++ (br_clauses <$> option_list (bridge plan)).

Definition has_bridge (plan : PartitionPlan) : bool := if bridge plan then true else false.

(** The bridge, when there is one, comes last. *)
Lemma emit_bridge_ok parsed dir trigger plan acc d acc' d' parts :
  (match bridge plan with
   | None => mret acc
   | Some b =>
       digest ← emit_sel model parsed (br_clauses b) (join dir BRIDGE_PARTITION_DIR) h c memo_cap budget
                  (length (clusters plan));
       mret (add_digest acc digest trigger (br_variables b))
   end : writes emit_acc) d = (Ok acc', d') →
  ea_hashes acc = snd <$> parts →
  Forall2 (λ cl p, select_clauses parsed (cl_clauses cl) = Some p.1) (clusters plan) parts →
  Forall2 (λ j p, emitted d (join dir (partition_dir j)) p.1 p.2) (seq 0 (length (clusters plan))) parts →
  ∃ parts',
    ea_hashes acc' = snd <$> parts' ∧
    Forall2 (λ idx p, select_clauses parsed idx = Some p.1) (partition_indices plan) parts' ∧
    Forall2 (λ n p, emitted d' (join dir n) p.1 p.2)
      (partition_names (length (clusters plan)) (has_bridge plan)) parts'.
Proof.
  unfold partition_indices, partition_names, has_bridge. intros H Hh Hs He.
  destruct (bridge plan) as [b|]; inv_writes; cbn.
  - match goal with H : emit_selected _ _ _ _ _ _ _ _ _ _ _ _ _ _ _ _ _ _ = _ |- _ =>
      apply emit_selected_ok in H as (sub & Hsel & Hem & Hout) end.
    eexists (parts ++ [(sub, _)]). split_and!.
    + rewrite Hh, fmap_app. done.
    + apply Forall2_app; [by apply Forall2_fmap_l|]. by constructor.
    + apply Forall2_app; [|by constructor]. apply Forall2_fmap_l. eapply Forall2_impl; [exact He|].
      intros j p Hp. eapply emitted_elsewhere; [apply partition_dir_slashless| |exact Hout|exact Hp].
      intros s <-. exists BRIDGE_PARTITION_DIR. split; [done|]. split; [unfold slashless; cbn; set_solver|].
      intros E. by apply (partition_dir_bridge j).
  - exists parts. rewrite !app_nil_r. split_and!; [done|by apply Forall2_fmap_l..].
Qed.

(** Writing a top-level file leaves the partitions alone. *)
Lemma emitted_top d dir n sub raw f bytes :
  slashless n → slashless f →
  emitted d (join dir n) sub raw → emitted (<[join dir f := bytes]> d) (join dir n) sub raw.
Proof.
  intros Hn Hf. apply emitted_frame. intros g Hg. apply lookup_insert_ne, not_eq_sym.
  apply sub_path_top; auto using artifact_slashless.
Qed.

Lemma name_slashless n b name : name ∈ partition_names n b → slashless name.
Proof.
  intros [(j & -> & _)%list_elem_of_fmap|H]%elem_of_app; [apply partition_dir_slashless|].
  destruct b; [|by apply not_elem_of_nil in H]. apply list_elem_of_singleton in H as ->.
  unfold slashless. cbn. set_solver.
Qed.

Definition emit_all (dir : string) (size : N) : writes EmitBudgetOutcome :=
  emit_multi_part sha256 to_vec top_to_vec pm_to_vec manifest_to_vec symbols_to_vec top_out_to_vec
    pm_out_to_vec creatable writable samples post_rss model dir h c size memo_cap budget.

Lemma emit_all_ok dir size d outcome d' :
  emit_all dir size d = (Ok outcome, d') →
  ∃ parsed plan parts acc top_manifest top_symbols pm,
    parse_condition_model model = Ok parsed ∧ partition parsed size = Some plan ∧
    top_level_files sha256 top_to_vec pm_to_vec symbols_to_vec top_out_to_vec pm_out_to_vec model h c
      (length (clusters plan)) (has_bridge plan) acc = Ok (top_manifest, top_symbols, pm) ∧
    ea_hashes acc = snd <$> parts ∧
    Forall2 (λ idx p, select_clauses parsed idx = Some p.1) (partition_indices plan) parts ∧
    Forall2 (λ n p, emitted d' (join dir n) p.1 p.2)
      (partition_names (length (clusters plan)) (has_bridge plan)) parts ∧
    d' !! join dir "ccm.manifest.json" = Some top_manifest ∧
    d' !! join dir PARTITION_MANIFEST_FILENAME = Some pm.
Proof.
  unfold emit_all, emit_multi_part. intros H.
  apply writes_bind_Ok in H as (parsed & d0 & [Hparse ->]%pure_w_Ok & H).
  apply writes_bind_Ok in H as (plan & d0 & Hplan & H). injection Hplan as Hplan%ok_or_Ok <-.
  apply writes_bind_Ok in H as (u & d0 & ->%create_dir_Ok & H). cbn beta zeta in H.
  apply writes_bind_Ok in H as (acc & d1 & Hc & H).
  apply emit_clusters_ok in Hc as (parts0 & Hh & Hs & He & _). cbn in Hh.
  apply writes_bind_Ok in H as (acc' & d2 & Hb & H).
  eapply emit_bridge_ok in Hb as (parts & Hh' & Hs' & He'); [|done..].
  apply writes_bind_Ok in H as ([[tm ts] pm] & d3 & [Hfiles ->]%pure_w_Ok & H). inv_writes.
  exists parsed, plan, parts, acc', tm, ts, pm. split_and!; try done.
  - eapply Forall2_elem_impl; [exact He'|]. intros n p Hn%name_slashless Hp.
    repeat apply emitted_top; try done; unfold slashless; cbn; set_solver.
  - rewrite lookup_insert_ne, lookup_insert_ne, lookup_insert_eq; [done|..];
      intros E%join_inj; try done; unfold slashless; cbn; set_solver.
  - by rewrite lookup_insert_eq.
Qed.
End Emitted.
