(* ===== verification/MultiPartLoads.v ===== *)
(** * What the compiler emits, the solver loads

    Closes the loop between [MultiPartEmit.v] and [MultiPart.v]: after a
    successful emission the solver's loader accepts the directory, the loaded
    partitions can start a session, and their conjunction is the model. *)
From S2P Require Import Prelude Tokens Ast Implication FacetCompare SelectionEval VarOrder Partitioner.
From S2P Require Import MultiPart Bdd BddLayout BddBytes CcmFormat Emitter Artifact MultiPartEmit.
From S2P Require Import Backend Session SessionProps MultiPartDisk.
Local Open Scope N_scope.

(** The manifest the solver reads from the top-level record. *)
Definition top_read (o : TopLevelManifestOut) : Manifest :=
  {| mf_schema_version := to_schema_version o; mf_ccm_hash := to_ccm_hash o;
     mf_bound_model_hash := to_bound_model_hash o; mf_algorithm := to_algorithm o;
     mf_algorithm_params := to_algorithm_params o; mf_var_count := to_var_count o;
     mf_node_count := to_node_count o;
     mf_construction_wall_time_us := to_construction_wall_time_us o;
     mf_emitted_at := to_emitted_at o; mf_partition_manifest := Some (to_partition_manifest o);
     mf_constraints := to_constraints o |}.

Definition pm_read (o : PartitionManifestOut) : PartitionManifest :=
  mkPartitionManifest (po_schema_version o) (po_partitions o) (po_has_bridge o) (po_top_level_ccm_hash o).

(** A loaded partition that means the conjunction of [sub]. *)
Record denotes (part : PartitionCcm) (sub : list ConditionExpr) (symbols : list symbol) : Prop := {
  dn_order : orders sub symbols;
  dn_names : variable_order (pt_symbols part) = names symbols;
  dn_loadable : loadable part;
  dn_eval : ∀ sigma, table_eval (bp_nodes (pt_bdd part)) (root_of part) (assignment symbols sigma) =
    forallb (eval_atoms (atoms_of sigma)) sub;
}.

Section Loads.
Context (sha256 : list ascii → list ascii).
Context (to_vec : PreImageManifest → result ParseError (list ascii)).
Context (top_to_vec : TopLevelPreImage → result ParseError (list ascii)).
Context (pm_to_vec : PartitionManifestPreImage → result ParseError (list ascii)).
Context (manifest_to_vec : ManifestOut → list ascii).
Context (symbols_to_vec : Symbols → list ascii).
Context (top_out_to_vec : TopLevelManifestOut → list ascii).
Context (pm_out_to_vec : PartitionManifestOut → list ascii).
Context (parse_manifest : list ascii → result ParseError Manifest).
Context (parse_symbols : list ascii → result ParseError Symbols).
Context (parse_partition_manifest : list ascii → result ParseError PartitionManifest).
Context (creatable writable : string → bool).
Context (samples : nat → nat → option N) (post_rss : nat → option N).

(** What the emission relies on of [sha2] and [serde_json], with the two
    top-level documents. *)
Record multi_libraries : Prop := {
  ml_parts : libraries sha256 manifest_to_vec symbols_to_vec parse_manifest parse_symbols;
  ml_top : ∀ o, parse_manifest (json_line (top_out_to_vec o)) = Ok (top_read o);
  ml_pm : ∀ o, parse_partition_manifest (json_line (pm_out_to_vec o)) = Ok (pm_read o);
}.

Context (Hlib : multi_libraries).
Context (model : ConditionModel) (h : VarOrderHeuristic) (c : Construction) (memo_cap budget : option N).

Notation emitted := (emitted sha256 to_vec manifest_to_vec symbols_to_vec model h c memo_cap budget).

Lemma open_bind {B} d path bs (k : list ascii → io B) log :
  readable d → d !! path = Some bs → (open_file (fs_of d) path ≫= k) log = k bs (log ++ [path]).
Proof. intros Hr Hp. unfold mbind, io_bind. by rewrite (open_file_spec _ _ _ _ Hr Hp). Qed.

Lemma pure_bind {A B} (r : result ParseError A) a (k : A → io B) log :
  r = Ok a → (pure_io r ≫= k) log = k a log.
Proof. by intros ->. Qed.

(** The bytes of a partition's table, read back. *)
Lemma built_table sub symbols samp bdd adapt count :
  build_bdd_bin_via_construction sub symbols c memo_cap budget samp = Ok (bdd, adapt) →
  Forall no_comparison sub → Forall (tags_in is_identifier) sub → orders sub symbols →
  N.of_nat (length bdd) ≤ CCM_FILE_SIZE_LIMIT_BYTES → node_count bdd = Some count →
  c = InCrate ∧
  ∃ p root, parse_bdd_bin bdd (N.of_nat (length symbols)) count = Ok p ∧ bp_roots p = [root] ∧
    (root = TERMINAL_TRUE ∨ root = TERMINAL_FALSE ∨ root < N.of_nat (length (bp_nodes p))) ∧
    ∀ sigma, table_eval (bp_nodes p) root (assignment symbols sigma) =
      forallb (eval_atoms (atoms_of sigma)) sub.
Proof.
  intros Hb Hn Ht Ho Hlen Hc. destruct c; [|done]. split; [done|]. cbn in Hb.
  unfold build_bdd_bin_with_memo_cap_rss in Hb. inv_ok.
  match goal with H : build_bdd_bin_with_builder _ _ ?b _ = Ok _ |- _ =>
    assert (Hs := build_spec sub symbols b samp); rewrite H in Hs end.
  destruct Hs as (root & Hser & Hw & Hv & Hval & Hf);
    [by destruct memo_cap, budget; apply wf_init|by destruct memo_cap, budget|done..|].
  destruct (roundtrip_file _ root (N.of_nat (length symbols)) bdd Hw Hval Hv) as
    (count' & p & id & Ec & Ep & Er & Hrange & He); [|done|exact Hlen|].
  { destruct Ho as (_ & _ & Hlt). unfold U32_MAX, TERMINAL_VAR_INDEX in *. lia. }
  rewrite Hc in Ec. injection Ec as <-. exists p, id. split_and!; try done.
  intros sigma. rewrite He, Hf. apply forallb_cong, Forall_forall. intros e Hin. by eapply sem_assignment.
Qed.

(** The files of one partition, read back. *)
Lemma partition_loads d sub_dir sub raw top bound log :
  emitted d sub_dir sub raw → readable d →
  Forall no_comparison sub → Forall (tags_in is_identifier) sub →
  (∀ symbols, compute_variable_order sub h = Some symbols → N.of_nat (length symbols) < U32_MAX) →
  mf_bound_model_hash top = bound_model_hash model →
  decode_hex32 (bytes_of (bound_model_hash model)) = Some bound →
  ∃ part log' symbols,
    load_partition (fs_of d) sha256 to_vec parse_manifest parse_symbols sub_dir top log = (Ok part, log') ∧
    pt_ccm_hash part = raw ∧ c = InCrate ∧ denotes part sub symbols.
Proof.
  intros (symbols & bdd & adapt & count & mj & samp & Hord & Hb & Hc & Hm & Fb & Fs & Fm) Hr Hn Ht Hlt Htop Hbound.
  pose proof (Hlt _ Hord) as Hl. apply order_orders in Hord; [|done].
  pose proof (orders_names _ _ Hord Ht) as Hnd.
  destruct (built_table _ _ _ _ _ _ Hb Hn Ht Hord (Hr _ _ Fb) Hc) as (-> & p & root & Hp & Hroot & Hrange & He).
  rewrite u32_cast_small in Hm by done.
  destruct (load_manifest _ _ _ _ _ _ (ml_parts Hlib) _ _ _ _ _ _ p _ _ Hm) as
    (q & Hq & Hqs & Hqb & Hqr & _ & Hqh); [by eexists|by apply symbols_out_consistent|done|].
  set (part := mkPartition (pc_symbols q) (pc_bdd q) (pc_ccm_hash_bytes q)).
  assert (Hload : ∃ log', load_partition (fs_of d) sha256 to_vec parse_manifest parse_symbols sub_dir top log =
    (Ok part, log')).
  { eexists. unfold load_partition, load_ccm_from_dir.
    unfold mbind at 1. unfold io_bind at 1.
    rewrite (open_bind _ _ _ _ _ Hr Fm), (open_bind _ _ _ _ _ Hr Fs), (open_bind _ _ _ _ _ Hr Fb).
    rewrite Hq. cbn [pure_io]. rewrite Htop.
    rewrite (pure_bind _ bound) by (by rewrite Hbound).
    rewrite (pure_bind _ tt); [reflexivity|]. rewrite bool_decide_true; [done|congruence]. }
  destruct Hload as [log' Hload]. exists part, log', symbols. split_and!; [done|done|done|].
  split; cbn; [done|by rewrite Hqs| |].
  - split; [by eapply load_partition_ok| |].
    + unfold root_of. cbn. by rewrite Hqb, Hroot.
    + cbn. rewrite Hqs. cbn. rewrite length_fmap. unfold U32_MAX in Hl. lia.
  - intros sigma. unfold root_of. cbn. rewrite Hqb, Hroot. cbn. apply He.
Qed.

(** What the loader needs of a partition's clauses. *)
Record small_clauses (sub : list ConditionExpr) : Prop := {
  sc_expanded : Forall no_comparison sub;
  sc_tags : Forall (tags_in is_identifier) sub;
  sc_count : ∀ symbols, compute_variable_order sub h = Some symbols → N.of_nat (length symbols) < U32_MAX;
}.

Lemma partitions_load d dir top bound names parts log :
  Forall2 (λ n p, emitted d (join dir n) p.1 p.2) names parts → readable d →
  Forall (λ p, small_clauses p.1) parts →
  mf_bound_model_hash top = bound_model_hash model →
  decode_hex32 (bytes_of (bound_model_hash model)) = Some bound →
  ∃ loaded log' symss,
    load_partitions (fs_of d) sha256 to_vec parse_manifest parse_symbols dir top names log =
      (Ok loaded, log') ∧
    pt_ccm_hash <$> loaded = snd <$> parts ∧ (names ≠ [] → c = InCrate) ∧
    Forall3 denotes loaded (fst <$> parts) symss.
Proof.
  intros He Hr Hg Htop Hbound. revert log Hg.
  induction He as [|n p names parts Hp _ IH]; intros log Hg; cbn.
  { eexists [], log, []. split_and!; [done..|constructor]. }
  inversion_clear Hg as [|? ? [Hn Ht Hc] Hg'].
  destruct (partition_loads _ _ _ _ top bound log Hp Hr Hn Ht Hc Htop Hbound) as
    (part & log1 & symbols & Hl & Hh & -> & Hd).
  destruct (IH log1 Hg') as (loaded & log2 & symss & Hls & Hhs & _ & Hds).
  exists (part :: loaded), log2, (symbols :: symss). split_and!.
  - unfold mbind, io_bind. rewrite Hl. cbn beta iota. by rewrite Hls.
  - cbn. by rewrite Hh, Hhs.
  - done.
  - by constructor.
Qed.
End Loads.

(** ** The clauses of the partitions are the clauses of the model *)

Lemma selected_elem parsed idx sub :
  select_clauses parsed idx = Some sub → Forall2 (λ i e, parsed !! i = Some e) idx sub.
Proof. intros H. by apply mapM_Some_1 in H. Qed.

Lemma selected_concat (parsed : list ConditionExpr) idxs (subs : list (list ConditionExpr)) :
  Forall2 (λ idx sub, select_clauses parsed idx = Some sub) idxs subs →
  concat idxs ≡ₚ seq 0 (length parsed) →
  ∀ e, e ∈ concat subs ↔ e ∈ parsed.
Proof.
  intros Hs Hp e.
  assert (HF : Forall2 (λ i e, parsed !! i = Some e) (concat idxs) (concat subs)).
  { clear Hp. induction Hs; cbn; [constructor|]. apply Forall2_app; [by apply selected_elem|done]. }
  split.
  - intros [j Hj]%list_elem_of_lookup. destruct (Forall2_lookup_r _ _ _ _ _ HF Hj) as (i & _ & Hi).
    by eapply list_elem_of_lookup_2.
  - intros [i Hi]%list_elem_of_lookup. pose proof (lookup_lt_Some _ _ _ Hi) as Hl.
    assert (Hin : i ∈ concat idxs) by (rewrite Hp; apply elem_of_seq; lia).
    apply list_elem_of_lookup in Hin as [j Hj]. destruct (Forall2_lookup_l _ _ _ _ _ HF Hj) as (e' & Hj' & He').
    simplify_eq. by eapply list_elem_of_lookup_2.
Qed.

Lemma indices_concat clauses plan :
  plan_ok clauses plan → concat (partition_indices plan) ≡ₚ seq 0 (length clauses).
Proof.
  intros Hok. rewrite <-(pl_clauses _ _ Hok). unfold partition_indices, bridge_clauses.
  rewrite concat_app, <-flat_map_concat_map. destruct (bridge plan); cbn; by rewrite ?app_nil_r.
Qed.

Lemma selected_small h parsed idx sub :
  select_clauses parsed idx = Some sub → Forall no_comparison parsed → Forall (tags_in is_identifier) parsed →
  N.of_nat (length (all_variables parsed)) < U32_MAX → small_clauses h sub.
Proof.
  intros Hs%selected_elem Hn Ht Hlt.
  assert (Hin : ∀ e, e ∈ sub → e ∈ parsed).
  { intros e [j Hj]%list_elem_of_lookup. destruct (Forall2_lookup_r _ _ _ _ _ Hs Hj) as (i & _ & Hi).
    by eapply list_elem_of_lookup_2. }
  rewrite Forall_forall in Hn, Ht. split; [apply Forall_forall; eauto..|].
  intros symbols Ho. destruct (var_order_spec sub h) as (order & E & Hd & Hx). simplify_eq.
  enough (length symbols ≤ length (all_variables parsed))%nat by lia.
  apply NoDup_incl_length; [by apply NoDup_ListNoDup|]. intros x Hx'%list_elem_of_In. apply list_elem_of_In.
  apply Hx, elem_of_flat_map in Hx' as (e & He & Hx'). apply elem_all_variables. eauto.
Qed.

(** ** The directory *)

Lemma last_name n b :
  (0 < n)%nat → bool_decide (last (partition_names n b) = Some "partition-bridge") = b.
Proof.
  intros Hn. unfold partition_names. destruct b.
  - by rewrite last_snoc.
  - rewrite app_nil_r. apply bool_decide_eq_false. intros E%last_Some_elem_of.
    apply list_elem_of_fmap in E as (j & E & _). by apply (partition_dir_bridge j).
Qed.

Lemma names_split n b :
  let ns := partition_names n b in
  (if b then (take (length ns - 1) ns, ns !! (length ns - 1)%nat) else (ns, None)) =
  (partition_dir <$> seq 0 n, if b then Some BRIDGE_PARTITION_DIR else None).
Proof.
  cbn. unfold partition_names. destruct b; [|by rewrite app_nil_r].
  rewrite length_app. cbn [length]. rewrite Nat.add_sub. f_equal; [by rewrite take_app_length|].
  by rewrite lookup_app_r, Nat.sub_diag.
Qed.

Section Directory.
Context (sha256 : list ascii → list ascii).
Context (to_vec : PreImageManifest → result ParseError (list ascii)).
Context (top_to_vec : TopLevelPreImage → result ParseError (list ascii)).
Context (pm_to_vec : PartitionManifestPreImage → result ParseError (list ascii)).
Context (manifest_to_vec : ManifestOut → list ascii).
Context (symbols_to_vec : Symbols → list ascii).
Context (top_out_to_vec : TopLevelManifestOut → list ascii).
Context (pm_out_to_vec : PartitionManifestOut → list ascii).
Context (parse_manifest : list ascii → result ParseError Manifest).
Context (parse_symbols : list ascii → result ParseError Symbols).
Context (parse_partition_manifest : list ascii → result ParseError PartitionManifest).
Context (creatable writable : string → bool).
Context (samples : nat → nat → option N) (post_rss : nat → option N).
Context (Hlib : multi_libraries sha256 manifest_to_vec symbols_to_vec top_out_to_vec pm_out_to_vec
  parse_manifest parse_symbols parse_partition_manifest).
Context (model : ConditionModel) (h : VarOrderHeuristic) (c : Construction) (memo_cap budget : option N).

Notation emitted := (emitted sha256 to_vec manifest_to_vec symbols_to_vec model h c memo_cap budget).
Notation load dir d := (load_multi_part (fs_of d) sha256 to_vec top_to_vec pm_to_vec parse_manifest
  parse_symbols parse_partition_manifest dir).

Definition load_bridge (dir : string) (d : disk) (top : Manifest) (o : option string) : io (option PartitionCcm) :=
  match o with
  | Some bname =>
      b ← load_partition (fs_of d) sha256 to_vec parse_manifest parse_symbols (join dir bname) top;
      pure_io (Ok (Some b))
  | None => pure_io (Ok None)
  end.

Lemma bridge_loads dir d top bound (b : bool) parts log :
  readable d → mf_bound_model_hash top = bound_model_hash model →
  decode_hex32 (bytes_of (bound_model_hash model)) = Some bound →
  Forall2 (λ n p, emitted d (join dir n) p.1 p.2) (if b then [BRIDGE_PARTITION_DIR] else []) parts →
  Forall (λ p, small_clauses h p.1) parts →
  ∃ br log' symss,
    load_bridge dir d top (if b then Some BRIDGE_PARTITION_DIR else None) log = (Ok br, log') ∧
    pt_ccm_hash <$> option_list br = snd <$> parts ∧
    Forall3 denotes (option_list br) (fst <$> parts) symss.
Proof.
  intros Hr Htop Hbound He Hg. destruct b.
  - inversion He as [|? p ? ? Hp He']; inversion He'; subst. inversion_clear Hg as [|? ? [Hn Ht Hc] _].
    destruct (partition_loads _ _ _ _ _ _ _ _ _ Hlib model h c memo_cap budget _ _ _ _ top bound log Hp Hr Hn Ht Hc
      Htop Hbound) as (part & log1 & symbols & Hl & Hh & _ & Hd).
    exists (Some part), log1, [symbols]. split_and!; [|cbn; by rewrite Hh|constructor; [done|constructor]].
    unfold load_bridge, mbind, io_bind. by rewrite Hl.
  - inversion He; subst. eexists None, log, []. split_and!; [done..|constructor].
Qed.

(** The loader on the files of an emission. *)
Lemma directory_loads dir d n b acc tm ts pm parts bound :
  (0 < n)%nat → readable d →
  top_level_files sha256 top_to_vec pm_to_vec symbols_to_vec top_out_to_vec pm_out_to_vec model h c n b acc =
    Ok (tm, ts, pm) →
  ea_hashes acc = snd <$> parts →
  Forall2 (λ n p, emitted d (join dir n) p.1 p.2) (partition_names n b) parts →
  Forall (λ p, small_clauses h p.1) parts →
  d !! join dir "ccm.manifest.json" = Some tm → d !! join dir PARTITION_MANIFEST_FILENAME = Some pm →
  decode_hex32 (bytes_of (bound_model_hash model)) = Some bound →
  ∃ m log symss,
    load dir d [] = (Ok m, log) ∧ mp_constraints m = roster model ∧ mp_bound_model_hash m = bound ∧
    length (mp_clusters m) = n ∧
    Forall3 denotes (partitions_of m) (fst <$> parts) symss.
Proof.
  intros Hn Hr Hf Hh He Hg Ft Fp Hbound. unfold top_level_files in Hf.
  apply bind_Ok in Hf as (top_canon & Htc & Hf). apply bind_Ok in Hf as (pm_canon & Hpc & Hf).
  injection Hf as <- <- <-.
  set (raw := sha256 _) in *.
  assert (Hraw : decode_hex32 (bytes_of (string_of (encode_hex32 raw))) = Some raw)
    by (eapply decode_digest, (ml_parts _ _ _ _ _ _ _ _ Hlib)).
  unfold load_multi_part.
  rewrite (open_bind _ _ _ _ _ Hr Ft), (pure_bind _ _ _ _ (ml_top _ _ _ _ _ _ _ _ Hlib _)).
  match goal with |- context [top_read ?o] => set (top := top_read o) end.
  assert (Htop : mf_bound_model_hash top = bound_model_hash model) by done.
  apply Forall2_app_inv_l in He as (ps1 & ps2 & He1 & He2 & ->). apply Forall_app in Hg as [Hg1 Hg2].
  rewrite (pure_bind _ tt) by reflexivity.
  rewrite (pure_bind _ tt) by (subst top; destruct c; reflexivity).
  rewrite (pure_bind _ PARTITION_MANIFEST_FILENAME) by reflexivity.
  rewrite (pure_bind _ tt) by reflexivity.
  rewrite (open_bind _ _ _ _ _ Hr Fp), (pure_bind _ _ _ _ (ml_pm _ _ _ _ _ _ _ _ Hlib _)).
  unfold pm_read. cbn [pm_schema_version pm_partitions pm_has_bridge pm_top_level_ccm_hash
    po_schema_version po_partitions po_has_bridge po_top_level_ccm_hash].
  rewrite (pure_bind _ tt) by reflexivity.
  rewrite (pure_bind _ tt) by (rewrite last_name by done; by destruct b).
  rewrite (pure_bind _ tt) by (rewrite bool_decide_false; [done|]; unfold partition_names; destruct n; [lia|done]).
  rewrite (pure_bind _ tt) by (by rewrite plain_names).
  rewrite names_split. cbn beta iota.
  unfold mbind at 1, io_bind at 1.
  match goal with |- context [load_partitions _ _ _ _ _ _ _ _ ?log] =>
    destruct (partitions_load _ _ _ _ _ _ _ _ _ Hlib model h c memo_cap budget d dir top bound _ _ log He1 Hr Hg1
      Htop Hbound) as (cl & log1 & ss1 & Hl1 & Hh1 & Hc & Hd1) end.
  rewrite Hl1. clear Hl1.
  match goal with |- context [(match ?o with Some bname => _ | None => _ end ≫= _) ?log] =>
    destruct (bridge_loads dir d top bound b ps2 log Hr Htop Hbound He2 Hg2) as (br & log2 & ss2 & Hl2 & Hh2 & Hd2)
  end.
  unfold mbind at 1, io_bind at 1. unfold load_bridge in Hl2. rewrite Hl2. clear Hl2. cbn beta zeta.
  assert (Hhash : compute_top_level_ccm_hash sha256 top_to_vec pm_to_vec top CCM_PARTITION_MANIFEST_SCHEMA_VERSION
    (partition_names n b) b ((pt_ccm_hash <$> cl) ++ (pt_ccm_hash <$> option_list br)) = Ok raw).
  { apply map_err_Ok in Htc, Hpc. unfold compute_top_level_ccm_hash. cbn -[CCM_HASH_DOMAIN_TAG].
    cbn in Htc, Hpc. rewrite Htc. cbn -[CCM_HASH_DOMAIN_TAG]. rewrite Hpc. cbn -[CCM_HASH_DOMAIN_TAG].
    subst raw. by rewrite Hh, Hh1, Hh2, fmap_app. }
  rewrite (pure_bind _ _ _ _ Hhash).
  rewrite (pure_bind _ raw) by (cbn -[decode_hex32 encode_hex32 bytes_of]; by rewrite Hraw).
  rewrite (pure_bind _ tt) by (by rewrite bool_decide_true).
  rewrite (pure_bind _ raw) by (cbn -[decode_hex32 encode_hex32 bytes_of]; by rewrite Hraw).
  rewrite (pure_bind _ tt) by (by rewrite bool_decide_true).
  rewrite (pure_bind _ bound) by (by rewrite Htop, Hbound).
  eexists _, _, (ss1 ++ ss2). split; [reflexivity|]. cbn [mp_constraints mp_bound_model_hash mp_clusters].
  split_and!; [done|done| |].
  - apply Forall3_length_lm in Hd1. rewrite Hd1, length_fmap.
    apply Forall2_length in He1. by rewrite <-He1, length_fmap, length_seq.
  - unfold partitions_of. cbn. rewrite fmap_app. by apply Forall3_app.
Qed.

(** The conjunction of the loaded partitions at an assignment of the facets. *)
Definition parts_hold (parts : list (PartitionCcm * list symbol)) (sigma : gmap string string) : bool :=
  forallb (λ p, table_eval (bp_nodes (pt_bdd p.1)) (root_of p.1) (assignment p.2 sigma)) parts.

Lemma denotes_hold loaded subs symss sigma :
  Forall3 denotes loaded subs symss →
  parts_hold (zip loaded symss) sigma = forallb (eval_atoms (atoms_of sigma)) (concat subs).
Proof.
  induction 1 as [|part sub symbols loaded subs symss Hd _ IH]; [done|]. cbn.
  rewrite forallb_app, <-IH. f_equal. apply Hd.
Qed.

Lemma denotes_loadable loaded subs symss :
  Forall3 denotes loaded subs symss →
  Forall loadable loaded ∧ Forall2 (λ p ss, variable_order (pt_symbols p) = names ss) loaded symss.
Proof. induction 1 as [|part sub symbols loaded subs symss [_ ? ? _] _ [??]]; split; by constructor. Qed.

(** C7: A model split over partitions keeps its meaning.  When the multi-part
    emitter returns, with any cluster size, heuristic and resource limits, the
    solver's loader accepts the directory if its files are small enough to
    read; the roster and the bound hash are the model's, every partition can
    start a session, and the conjunction of the partitions' tables at an
    assignment of the facets is the conjunction of the model's clauses,
    constraints and cardinality conditions. *)
Theorem multi_part_means_model dir size d outcome d' :
  emit_multi_part sha256 to_vec top_to_vec pm_to_vec manifest_to_vec symbols_to_vec top_out_to_vec
    pm_out_to_vec creatable writable samples post_rss model dir h c size memo_cap budget d =
    (Ok outcome, d') →
  readable d' →
  (∀ exprs, parse_condition_model model = Ok exprs → N.of_nat (length (all_variables exprs)) < U32_MAX) →
  ∃ m log raw symss,
    load dir d' [] = (Ok m, log) ∧
    mp_constraints m = roster model ∧
    encode_hex32 (mp_bound_model_hash m) = bytes_of (bound_model_hash model) ∧
    Forall loadable (partitions_of m) ∧
    Forall2 (λ t e, parse_condition_expr t = Ok e) (condition_texts model) raw ∧
    Forall2 (λ p ss, variable_order (pt_symbols p) = names ss) (partitions_of m) symss ∧
    ∀ sigma, covers model raw sigma →
      parts_hold (zip (partitions_of m) symss) sigma = model_holds raw sigma.
Proof.
  intros He Hr Hlt.
  apply emit_all_ok in He as (parsed & plan & parts & acc & tm & ts & pm & Hm & Hplan & Hf & Hh & Hs & Hem & Ft & Fp).
  destruct (partition_spec parsed size) as (plan' & Hplan' & Hok & _). simplify_eq.
  destruct (model_exprs_ok _ _ Hm) as [Hn Ht]. specialize (Hlt _ Hm).
  apply parse_condition_model_Ok in Hm as ([Hh1 Hh2] & raw & Hp & Hx).
  destruct (lower_hex_decodes 32 (bytes_of (bound_model_hash model)) Hh1 Hh2) as [bound Hbound].
  assert (Hbound' : decode_hex32 (bytes_of (bound_model_hash model)) = Some bound)
    by (unfold decode_hex32; by rewrite decide_True).
  destruct (directory_loads dir d' (length (clusters plan)) (has_bridge plan) acc tm ts pm parts bound) as
    (m & log & symss & Hl & Hc & Hb & _ & Hd); try done.
  { pose proof (pl_clusters _ _ Hok). destruct (clusters plan); cbn; [done|lia]. }
  { apply Forall_forall. intros p [j Hj]%list_elem_of_lookup.
    destruct (Forall2_lookup_r _ _ _ _ _ Hs Hj) as (idx & _ & Hsel). by eapply selected_small. }
  destruct (denotes_loadable _ _ _ Hd) as [Hload Hnames].
  exists m, log, raw, symss. split_and!; try done.
  - rewrite Hb. by apply decode_hex32_encode.
  - intros sigma Hcov. rewrite (denotes_hold _ _ _ _ Hd), <-(model_exprs_atoms _ _ _ _ Hx Hcov).
    apply forallb_same_elements. apply (selected_concat parsed (partition_indices plan)).
    + by apply Forall2_fmap_r.
    + by apply indices_concat.
Qed.
End Directory.

(** ** A concrete run

    A codec for the four documents, and a model of three clauses whose last one
    joins the variables of the other two. *)

#[export] Instance ConstraintRosterEntry_eq_dec : EqDecision ConstraintRosterEntry.
Proof. solve_decision. Defined.
#[export] Instance TopLevelManifestOut_eq_dec : EqDecision TopLevelManifestOut.
Proof. solve_decision. Defined.
#[export] Instance PartitionManifestOut_eq_dec : EqDecision PartitionManifestOut.
Proof. solve_decision. Defined.

#[export] Instance ConstraintRosterEntry_countable : Countable ConstraintRosterEntry.
Proof.
  refine (inj_countable' (λ e, (ce_condition e, ce_id e, ce_root_index e))
    (λ '(x, y, z), mkRosterEntry x y z) _). by intros [].
Defined.

#[export] Instance TopLevelManifestOut_countable : Countable TopLevelManifestOut.
Proof.
  refine (inj_countable' (λ o, ((to_algorithm o, to_algorithm_params o, to_bound_model_hash o, to_ccm_hash o),
      (to_constraints o, to_construction_wall_time_us o, to_emitted_at o, to_node_count o),
      (to_partition_manifest o, to_schema_version o, to_var_count o)))
    (λ '((a, b, c, d), (e, f, g, h), (i, j, k)), mkTopOut a b c d e f g h i j k) _). by intros [].
Defined.

#[export] Instance PartitionManifestOut_countable : Countable PartitionManifestOut.
Proof.
  refine (inj_countable' (λ o, (po_has_bridge o, po_partitions o, po_schema_version o, po_top_level_ccm_hash o))
    (λ '(a, b, c, d), mkPmOut a b c d) _). by intros [].
Defined.

Definition toy_manifest_write (o : ManifestOut) : list ascii := toy_write (inl o : ManifestOut + TopLevelManifestOut).
Definition toy_top_write (o : TopLevelManifestOut) : list ascii := toy_write (inr o : ManifestOut + TopLevelManifestOut).
Definition toy_manifest_read (l : list ascii) : result ParseError Manifest :=
  (λ o : ManifestOut + TopLevelManifestOut, match o with inl o => manifest_read o | inr o => top_read o end)
  <$> toy_read l.
Definition toy_pm_read (l : list ascii) : result ParseError PartitionManifest := pm_read <$> toy_read l.

Lemma toy_multi_libraries :
  multi_libraries toy_sha toy_manifest_write toy_write toy_top_write toy_write toy_manifest_read toy_read toy_pm_read.
Proof.
  split; [split|..].
  - intros bs. unfold toy_sha. rewrite length_take, length_app, repeat_length. lia.
  - intros o. unfold toy_manifest_read, toy_read, toy_manifest_write, toy_write.
    by rewrite unbits_bits, countable.decode_encode.
  - intros s. unfold toy_read, toy_write. by rewrite unbits_bits, countable.decode_encode.
  - intros o. unfold toy_manifest_read, toy_read, toy_top_write, toy_write.
    by rewrite unbits_bits, countable.decode_encode.
  - intros o. unfold toy_pm_read, toy_read, toy_write. by rewrite unbits_bits, countable.decode_encode.
Qed.

Definition split_model : ConditionModel :=
  {| bound_model_hash := string_of (repeat "a"%char 64);
     clauses := ["a == 'x' || b == 'x'"; "c == 'x' || d == 'x'"];
     constraints := [("join", "a == 'x' || c == 'x'")];
     cardinality := []; facet_domains := ∅ |}.

#[local] Notation split_run :=
  (emit_multi_part toy_sha (λ _, Ok []) (λ _, Ok []) (λ _, Ok []) toy_manifest_write toy_write toy_top_write toy_write
    (λ _, true) (λ _, true) (λ _ _, None) (λ _, None) split_model "out" FacetNameAscending InCrate 2 None None ∅).

Lemma split_run_ok :
  (match split_run.1 with Ok _ => true | Err _ => false end) = true ∧ readable split_run.2.
Proof.
  split; [vm_compute; reflexivity|].
  assert (H : bool_decide (map_Forall (λ _ bs, N.of_nat (length bs) ≤ CCM_FILE_SIZE_LIMIT_BYTES) split_run.2) = true)
    by (vm_compute; reflexivity).
  apply bool_decide_eq_true in H. intros path bs Hp. exact (H path bs Hp).
Qed.

Lemma split_small exprs :
  parse_condition_model split_model = Ok exprs → N.of_nat (length (all_variables exprs)) < U32_MAX.
Proof.
  intros H. apply (f_equal (λ r, match r with Ok es => N.of_nat (length (all_variables es)) | Err _ => 0 end)) in H.
  cbn beta iota in H. rewrite <-H. vm_compute. reflexivity.
Qed.

Lemma multi_part_means_model_witness :
  ∃ m log, load_multi_part (fs_of split_run.2) toy_sha (λ _, Ok []) (λ _, Ok []) (λ _, Ok []) toy_manifest_read
      toy_read toy_pm_read "out" [] = (Ok m, log) ∧
    mp_constraints m = roster split_model ∧ Forall loadable (partitions_of m).
Proof.
  destruct split_run_ok as [Hok Hr]. destruct split_run as [[outcome|e] d'] eqn:E; [|discriminate Hok].
  destruct (multi_part_means_model toy_sha (λ _, Ok []) (λ _, Ok []) (λ _, Ok []) toy_manifest_write toy_write
    toy_top_write toy_write toy_manifest_read toy_read toy_pm_read (λ _, true) (λ _, true) (λ _ _, None)
    (λ _, None) toy_multi_libraries split_model FacetNameAscending InCrate None None "out" 2 ∅ outcome d' E Hr
    split_small) as (m & log & raw & symss & Hl & Hc & _ & HF & _).
  exists m, log. exact (conj Hl (conj Hc HF)).
Defined.

(** ** Clusters are independent *)

(** Conditions that each read the variables of their own cluster, met one by
    one, are met together. *)
Lemma clusters_combine (P : ClusterSpec → (string → string → bool) → Prop) cs :
  NoDup (flat_map cl_variables cs) →
  (∀ c atom atom', c ∈ cs → (∀ s, s ∈ cl_variables c → atom s.1 s.2 = atom' s.1 s.2) → P c atom → P c atom') →
  Forall (λ c, ∃ atom, P c atom) cs → ∃ atom, Forall (λ c, P c atom) cs.
Proof.
  intros Hd Hext HF. induction HF as [|c cs [atom Ha] _ IH]; [exists (λ _ _, false); constructor|].
  cbn in Hd. apply NoDup_app in Hd as (Hc & Hdisj & Hcs).
  destruct IH as [rest Hrest]; [done|intros; eapply Hext; eauto; by right|].
  exists (λ t v, if decide ((t, v) ∈ cl_variables c) then atom t v else rest t v). constructor.
  - eapply Hext; [by left| |exact Ha]. intros [t v] Hs. cbn. by rewrite decide_True.
  - apply Forall_forall. intros c' Hc'. rewrite Forall_forall in Hrest.
    eapply Hext; [by right| |by apply Hrest]. intros [t v] Hs. cbn. rewrite decide_False; [done|].
    intros Hin. apply (Hdisj _ Hin), elem_of_flat_map. eauto.
Qed.

(** The clauses of a cluster at an assignment of the symbols. *)
Definition cluster_holds (parsed : list ConditionExpr) (idx : list nat) (atom : string → string → bool) : Prop :=
  ∀ i e, i ∈ idx → parsed !! i = Some e → eval_atoms atom e = true.

(** Without a bridge, checking the partitions one at a time is enough.  If
    the plan has no bridge, the clauses can be met together exactly when those
    of each cluster can: what a session checks per cluster is what holds of the
    whole model. *)
Theorem clusters_independent parsed size plan :
  partition parsed size = Some plan → bridge plan = None →
  (∃ atom, forallb (eval_atoms atom) parsed = true) ↔
  Forall (λ c, ∃ atom, cluster_holds parsed (cl_clauses c) atom) (clusters plan).
Proof.
  intros Hp Hb. destruct (partition_spec parsed size) as (plan' & Hp' & Hok & _). simplify_eq. split.
  - intros [atom Ha]. apply Forall_forall. intros c _. exists atom. intros i e _ Hi.
    eapply forallb_elem in Ha; [exact Ha|]. by eapply list_elem_of_lookup_2.
  - intros HF. destruct (clusters_combine (λ c, cluster_holds parsed (cl_clauses c)) (clusters plan)) as [atom Ha].
    + rewrite (pl_variables _ _ Hok). apply NoDup_all_variables.
    + intros c a a' Hc Ha Hh i e Hi He. rewrite <-(Hh i e Hi He). symmetry.
      apply eval_atoms_cong, Forall_forall. intros s Hs. apply Ha. by eapply pl_inside.
    + exact HF.
    + exists atom. apply forallb_elem. intros e [i Hi]%list_elem_of_lookup.
      assert (Hin : i ∈ flat_map cl_clauses (clusters plan) ++ bridge_clauses plan).
      { rewrite (pl_clauses _ _ Hok). apply elem_of_seq. apply lookup_lt_Some in Hi. lia. }
      unfold bridge_clauses in Hin. rewrite Hb, app_nil_r in Hin.
      apply elem_of_flat_map in Hin as (c & Hc & Hi'). rewrite Forall_forall in Ha. by eapply Ha.
Qed.

Lemma clusters_independent_witness :
  bridge demo_plan = None ∧
  ((∃ atom, forallb (eval_atoms atom) demo_clauses = true) ↔
   Forall (λ c, ∃ atom, cluster_holds demo_clauses (cl_clauses c) atom) (clusters demo_plan)).
Proof.
  split; [reflexivity|].
  apply (clusters_independent demo_clauses 2 demo_plan); [vm_compute; reflexivity|reflexivity].
Defined.

(** With a bridge it is not: each partition alone can be met, all of them
    cannot. *)
Example bridge_entangles :
  let p t := Predicate (mkPredicate t OpEq "x") in
  let parsed := [And (p "a") (p "c"); And (p "b") (p "d"); Not (And (p "a") (p "b"))] in
  ∃ plan b, partition parsed 2 = Some plan ∧ bridge plan = Some b ∧
    Forall (λ idx, ∃ atom, cluster_holds parsed idx atom) (partition_indices plan) ∧
    ∀ atom, forallb (eval_atoms atom) parsed = false.
Proof.
  cbv zeta. eexists _, _. split; [vm_compute; reflexivity|]. split; [reflexivity|]. split.
  - cbn. repeat apply Forall_cons_2; [..|apply Forall_nil_2].
    1,2: exists (λ _ _, true); intros i e Hi He; apply list_elem_of_singleton in Hi as ->; by injection He as <-.
    exists (λ _ _, false). intros i e Hi He. apply list_elem_of_singleton in Hi as ->. by injection He as <-.
  - intros atom. cbn. by destruct (atom "a" "x"), (atom "b" "x"), (atom "c" "x"), (atom "d" "x").
Qed.
