(* ===== verification/Text.v ===== *)
(** * String operations of the standard library

    The operations on [&str] that the resolver, the linker and the lowering use:
    [trim] with its Unicode white space, [split], [split_once], [join].  A
    string is its UTF-8 bytes. *)
From S2P Require Import Prelude.

(** ** White space *)

(** Bytes of the white-space characters of two and more bytes: U+0085, U+00A0,
    U+1680, U+2000 to U+200A, U+2028, U+2029, U+202F, U+205F and U+3000. *)
Definition wide_spaces : list (list N) :=
  ([[194; 133]; [194; 160]; [225; 154; 128]; [226; 128; 168]; [226; 128; 169]; [226; 128; 175];
    [226; 129; 159]; [227; 128; 128]] ++ ((λ k, [226; 128; 128 + N.of_nat k]) <$> seq 0 11))%N.

Definition wide_space_bytes : list (list ascii) := map (map ascii_of_N) wide_spaces.

Definition ascii_space (a : ascii) : bool := byte_in 9 13 a || byte_in 32 32 a.

(** How many bytes the white-space character at the head of [l] takes, where
    [wide] lists the characters of several bytes. *)
Definition space_len (wide : list (list ascii)) (l : list ascii) : nat :=
  match l with
  | a :: _ =>
      if ascii_space a then 1
      else
        match list_find (λ w, w `prefix_of` l) wide with
        | Some (_, w) => length w
        | None => 0
        end
  | [] => 0
  end.

Fixpoint trim_with (wide : list (list ascii)) (fuel : nat) (l : list ascii) : list ascii :=
  match fuel with
  | O => l
  | S fuel =>
      match space_len wide l with
      | O => l
      | n => trim_with wide fuel (drop n l)
      end
  end.

Definition trim_start_bytes (l : list ascii) : list ascii := trim_with wide_space_bytes (length l) l.

(** From the end: the same on the reversed bytes. *)
Definition trim_end_bytes (l : list ascii) : list ascii :=
  reverse (trim_with (map reverse wide_space_bytes) (length l) (reverse l)).

Definition trim_start (s : string) : string := string_of (trim_start_bytes (bytes_of s)).
Definition trim_end (s : string) : string := string_of (trim_end_bytes (bytes_of s)).
Definition trim (s : string) : string := string_of (trim_end_bytes (trim_start_bytes (bytes_of s))).

Example trim_example : trim "  a b  " = "a b".
Proof. vm_compute. reflexivity. Qed.
Example trim_wide : trim (string_of (map ascii_of_N [194; 160; 97; 226; 128; 131]%N)) = "a".
Proof. vm_compute. reflexivity. Qed.

(** ** Splitting and joining *)

(** [s.split(c)]: the parts between the occurrences of [c], at least one. *)
Fixpoint split_bytes (c : ascii) (l : list ascii) : list (list ascii) :=
  match l with
  | [] => [[]]
  | a :: l =>
      if Ascii.eqb a c then [] :: split_bytes c l
      else
        match split_bytes c l with
        | part :: parts => (a :: part) :: parts
        | [] => [[a]]
        end
  end.

Definition split (c : ascii) (s : string) : list string := string_of <$> split_bytes c (bytes_of s).

(** [s.split_once(c)]: the parts around the first [c]. *)
Fixpoint split_once_bytes (c : ascii) (l : list ascii) : option (list ascii * list ascii) :=
  match l with
  | [] => None
  | a :: l => if Ascii.eqb a c then Some ([], l) else prod_map (cons a) id <$> split_once_bytes c l
  end.

Definition split_once (c : ascii) (s : string) : option (string * string) :=
  prod_map string_of string_of <$> split_once_bytes c (bytes_of s).

(** [parts.join(sep)]. *)
Fixpoint join_with (sep : string) (parts : list string) : string :=
  match parts with
  | [] => String.EmptyString
  | [p] => p
  | p :: parts => p +:+ sep +:+ join_with sep parts
  end.

(** Splitting gives the parts back: joined with the separator they are the
    string, and none contains it. *)
Lemma split_bytes_spec c l :
  Forall (λ p, c ∉ p) (split_bytes c l) ∧ split_bytes c l ≠ [].
Proof.
  induction l as [|a l [HF Hne]]; cbn; [by repeat constructor; set_solver|].
  destruct (Ascii.eqb_spec a c) as [->|Hac]; [split; [constructor; [set_solver|done]|done]|].
  destruct (split_bytes c l) as [|part parts]; [done|]. split; [|done].
  inversion_clear HF. constructor; [set_solver|done].
Qed.

Lemma split_once_spec c l p q :
  split_once_bytes c l = Some (p, q) ↔ l = p ++ c :: q ∧ c ∉ p.
Proof.
  revert p. induction l as [|a l IH]; intros p; cbn.
  { split; [done|]. intros [E _]. by destruct p. }
  destruct (Ascii.eqb_spec a c) as [->|Hac].
  - split; [intros [= <- <-]; set_solver|]. intros [E Hp]. destruct p as [|b p]; cbn in E; [by simplify_eq|].
    exfalso. simplify_eq. set_solver.
  - rewrite fmap_Some. split.
    + intros ([p' q'] & Hs & [= -> ->]). apply IH in Hs as [-> Hp]. set_solver.
    + intros [E Hp]. destruct p as [|b p]; cbn in E; [by simplify_eq|]. injection E as <- E.
      exists (p, q). split; [apply IH; set_solver|done].
Qed.
