(* ===== verification/Schema.v ===== *)
(** * Model documents

    Models [compiler/src/schema.rs] and [compiler/src/resolved_models.rs]: a
    model declares definitions, components with parameters, artifacts, facets,
    constraints, catalogues and bindings; resolving it gives every component's
    values for one deployment.

    A [HashMap] is a [gmap] whose iteration order the program does not choose:
    it is the class [HashOrder], and the theorems hold for every order.  A
    [BTreeMap] is a [gmap] read out in ascending order ([bt_list]).  A float is
    the bits of its IEEE 754 encoding. *)
From S2P Require Import Prelude.

(** ** Reading maps *)

(** Some order of the entries, as [HashMap]'s iterators give it. *)
Class HashOrder : Type := {
  hash_order {A} : gmap string A → list (string * A);
  hash_order_perm {A} (m : gmap string A) : hash_order m ≡ₚ map_to_list m;
}.

(** Ascending by key. *)
Definition bt_list {A} (m : gmap string A) : list (string * A) :=
  omap (λ k, pair k <$> m !! k) (bt_elements (dom m)).

(** ** Values *)

Inductive Role : Type := Developer | Integrator | Technician | Supervisor | SuperUser.

Inductive SafetyLevel : Type := QM | Sil1 | Sil2 | Sil3 | Sil4.

Inductive Lifecycle : Type := Construction | Startup | Runtime.

Inductive Value : Type :=
  | VInteger (i : Z)
  | VFloat (bits : N)
  | VBoolean (b : bool)
  | VString (s : string).

Record Limits : Type := mkLimits {
  lim_min : option Value;
  lim_max : option Value;
  min_len : option N;
  max_len : option N;
}.

(** [f64::is_finite]: the exponent is not all ones. *)
Definition is_finite (bits : N) : bool := negb (N.land (N.shiftr bits 52) 2047 =? 2047)%N.

(** ** Parameters

    An override block carries a whole parameter, so overrides nest. *)
Inductive Param : Type := mkParameter {
  pm_inherits : option string;
  pm_type : option string;
  pm_unit : option string;
  pm_doc : option string;
  pm_value : option Value;
  pm_facet : option string;
  pm_lifecycle : option Lifecycle;
  pm_safety : option SafetyLevel;
  pm_access : option Role;
  pm_limits : option Limits;
  pm_req_id : option string;
  pm_overrides : list ConditionalBlock;
}
with ConditionalBlock : Type := mkBlock {
  cb_condition : string;
  cb_payload : Param;
}.

(** ** Components and the rest of a document *)

Record Requirement : Type := mkRequirement {
  rq_binding : string;
  rq_accepts : option (list string);
}.

(** The two authored forms of a requirement. *)
Inductive RequirementForm : Type :=
  | Bare (binding : string)
  | Explicit (binding : string) (accepts : option (list string)).

Definition requirement_of_form (f : RequirementForm) : Requirement :=
  match f with
  | Bare binding => mkRequirement binding None
  | Explicit binding accepts => mkRequirement binding accepts
  end.

Record Component : Type := mkComponent {
  cp_type : option string;
  cp_condition : option string;
  depends_on : list string;
  requires : gmap string Requirement;
  params : gmap string Param;
}.

Record Constraint : Type := mkConstraintDecl {
  cn_condition : string;
  cn_doc : option string;
}.

Record Facet : Type := mkFacet {
  fc_values : list string;
  fc_default : option string;
  fc_open : bool;
  fc_doc : option string;
}.

Inductive CatalogueFieldType : Type := FInteger | FFloat | FBoolean | FString.

Record CatalogueField : Type := mkField {
  fd_type : CatalogueFieldType;
  fd_unit : option string;
  fd_doc : option string;
}.

Record Catalogue : Type := mkCatalogue {
  ct_fields : gmap string CatalogueField;
  ct_entries : gmap string (gmap string Value);
  ct_doc : option string;
}.

Record Binding : Type := mkBinding {
  bd_catalogue : string;
  bd_default : option string;
  bd_derive : option (gmap string (gmap string string));
  bd_doc : option string;
}.

Record SchemaArtifact : Type := mkSchemaArtifact {
  ar_name : string;
  ar_version : option string;
  ar_hash : option string;
  ar_source : option string;
  ar_target : option string;
  ar_doc : option string;
}.

Record Config : Type := mkConfig {
  cf_package : string;
  cf_version : string;
  definitions : gmap string Param;
  components : gmap string Component;
  artifacts : gmap string SchemaArtifact;
  facets : gmap string Facet;
  constraints : gmap string Constraint;
  catalogues : gmap string Catalogue;
  bindings : gmap string Binding;
}.

(** ** The resolved model *)

Record ResolvedRequirement : Type := mkResolvedRequirement {
  rr_binding : string;
  rr_entry : string;
  rr_fields : gmap string Value;
}.

Record ResolvedParameter : Type := mkResolvedParameter {
  rp_value : Value;
  rp_type : string;
  rp_facet : option string;
  rp_unit : option string;
  rp_safety : SafetyLevel;
  rp_lifecycle : Lifecycle;
  rp_access : Role;
  rp_req_id : option string;
  rp_doc : option string;
  rp_limits : option Limits;
}.

Record ResolvedComponent : Type := mkResolvedComponent {
  rc_type : string;
  rc_requires : gmap string ResolvedRequirement;
  rc_params : gmap string ResolvedParameter;
}.

Record ResolvedConfig : Type := mkResolvedConfig {
  rf_package : string;
  rf_version : string;
  rf_components : gmap string ResolvedComponent;
}.

(** ** Facts about the orders *)

Definition sorted_order : HashOrder.
Proof. exists (λ A m, map_to_list m). done. Defined.

Lemma elem_hash_order `{HashOrder} {A} (m : gmap string A) k v : (k, v) ∈ hash_order m ↔ m !! k = Some v.
Proof. by rewrite hash_order_perm, elem_of_map_to_list. Qed.

Lemma NoDup_hash_order `{HashOrder} {A} (m : gmap string A) : NoDup (hash_order m).*1.
Proof. rewrite hash_order_perm. apply NoDup_fst_map_to_list. Qed.

Lemma elem_bt_list {A} (m : gmap string A) k v : (k, v) ∈ bt_list m ↔ m !! k = Some v.
Proof.
  unfold bt_list. rewrite list_elem_of_omap. setoid_rewrite elem_of_bt_elements. split.
  - intros (k' & _ & Hv). destruct (m !! k') eqn:E; cbn in Hv; [|done]. by simplify_eq.
  - intros Hv. exists k. rewrite Hv, elem_of_dom. eauto.
Qed.

Lemma bt_list_keys {A} (m : gmap string A) : (bt_list m).*1 = bt_elements (dom m).
Proof.
  unfold bt_list. assert (HF : Forall (λ k, is_Some (m !! k)) (bt_elements (dom m))).
  { apply Forall_forall. intros k Hk%elem_of_bt_elements. by apply elem_of_dom. }
  induction HF as [|k ks [v Hv] _ IH]; cbn; [done|]. rewrite Hv. cbn. by rewrite IH.
Qed.

Lemma NoDup_bt_list {A} (m : gmap string A) : NoDup (bt_list m).*1.
Proof. rewrite bt_list_keys. apply NoDup_bt_elements. Qed.

(** A list of the entries is the map. *)
Lemma list_to_map_entries {A} (m : gmap string A) (l : list (string * A)) :
  NoDup l.*1 → (∀ k v, (k, v) ∈ l ↔ m !! k = Some v) → list_to_map l = m.
Proof.
  intros Hnd Hl. apply map_eq. intros k. destruct (m !! k) as [v|] eqn:E.
  - apply elem_of_list_to_map_1; [done|]. by apply Hl.
  - apply not_elem_of_list_to_map_1. intros ([k' v] & -> & Hin)%list_elem_of_fmap. apply Hl in Hin. cbn in *. congruence.
Qed.

Lemma bt_list_map {A} (m : gmap string A) : list_to_map (bt_list m) = m.
Proof. apply list_to_map_entries; [apply NoDup_bt_list|apply elem_bt_list]. Qed.

Lemma hash_order_map `{HashOrder} {A} (m : gmap string A) : list_to_map (hash_order m) = m.
Proof. apply list_to_map_entries; [apply NoDup_hash_order|apply elem_hash_order]. Qed.

Lemma bt_list_nil {A} (m : gmap string A) : bt_list m = [] ↔ m = ∅.
Proof.
  split; [|by intros ->]. intros E. apply map_empty. intros k. destruct (m !! k) as [v|] eqn:Hk; [|done].
  apply elem_bt_list in Hk. rewrite E in Hk. by apply not_elem_of_nil in Hk.
Qed.

(** ** Induction over nested overrides *)

Section Nested.
Context (P : Param → Prop).
Context (step : ∀ p, Forall (λ b, P (cb_payload b)) (pm_overrides p) → P p).

Fixpoint param_nested (p : Param) : P p :=
  match p with
  | mkParameter i t u d v f l s a lm r bs =>
      step (mkParameter i t u d v f l s a lm r bs)
        ((fix blocks (bs : list ConditionalBlock) : Forall (λ b, P (cb_payload b)) bs :=
            match bs with
            | [] => @List.Forall_nil _ (λ b, P (cb_payload b))
            | mkBlock c q :: bs =>
                @List.Forall_cons _ (λ b, P (cb_payload b)) (mkBlock c q) bs (param_nested q) (blocks bs)
            end) bs)
  end.
End Nested.
