(* ===== verification/Resolver.v ===== *)
(** * Resolving a model for one deployment

    Models [compiler/src/resolver.rs]: scope selectors, the dependency closure of
    a root, and [resolve], which keeps the components whose condition holds,
    delivers the catalogue entries their requirements are bound to, applies the
    overrides of their parameters and settles the safety metadata.

    An [anyhow] error is a constructor per refusal with what its message names.
    The loops that are not structural run on fuel ([dependency_closure],
    [collect_chain_declared_metadata]); the theorems show that it is enough.
    [ensure_override_depth] is of [link_verify.rs]. *)
From S2P Require Import Prelude Tokens Eval Text Schema.

(** ** Errors *)

Inductive resolve_error : Type :=
  | ConditionFailed (e : cond_error)
  | UnrecognizedSelector (token : string)
  | EmptyScope
  | AllCombined
  | NotSnakeCase (ident : string)
  | DoubleUnderscore (ident : string)
  | MissingComponentType (component : string)
  | UndeclaredBinding (component binding slot : string)
  | UndeclaredCatalogue (binding catalogue : string)
  | NotAnEntry (binding entry catalogue : string)
  | RequirementUnbound (binding : string) (sites others : list string)
  | UnknownComponent (id : string)
  | UnknownPlatform (id : string)
  | NotAPlatform (id : string)
  | NoPlatforms
  | MissingComponent (id : string)
  | UnknownDefinition (id : string)
  | OverrideTooDeep (at_path : string)
  | UnitConflict (patch base : string)
  | TypeConflict (patch base : string)
  | InheritanceConflict (base patch : string)
  | FacetWithoutValue (facet : string)
  | MissingValue
  | MissingType
  | ArtifactNotFound (id : string)
  | ArtifactNotString
  | MetadataDropped (path : string) (chain fields : list string)
  | InParameter (param component : string) (e : resolve_error)
  | ClosureFuel.

Definition bail_if {E} (b : bool) (e : E) : result E unit := if b then Err e else Ok tt.

(** ** Scope selectors *)

Inductive ScopeSelector : Type :=
  | SelComponent (id : string)
  | SelPlatform (id : string)
  | SelPlatformAll
  | SelAll.

#[export] Instance ScopeSelector_eq_dec : EqDecision ScopeSelector.
Proof. solve_decision. Defined.

Definition is_ascii_lowercase (a : ascii) : bool := byte_in 97 122 a.
Definition is_ascii_digit (a : ascii) : bool := byte_in 48 57 a.

Fixpoint snake_loop (ident : string) (prev_underscore : bool) (l : list ascii) : result resolve_error unit :=
  match l with
  | [] => Ok tt
  | b :: l =>
      if is_ascii_lowercase b || is_ascii_digit b then snake_loop ident false l
      else if Ascii.eqb b "_"%char then
        if prev_underscore then Err (DoubleUnderscore ident) else snake_loop ident true l
      else Err (NotSnakeCase ident)
  end.

Definition ensure_snake_case_ident (ident : string) : result resolve_error unit :=
  match bytes_of ident with
  | [] => Err (NotSnakeCase ident)
  | b :: bs => if is_ascii_lowercase b then snake_loop ident false (b :: bs) else Err (NotSnakeCase ident)
  end.

(** [token.strip_prefix(p)]. *)
Definition strip_text (p s : string) : option string :=
  if decide (bytes_of p `prefix_of` bytes_of s)
  then Some (string_of (drop (length (bytes_of p)) (bytes_of s))) else None.

Definition named_selector (name : string) : result resolve_error ScopeSelector :=
  _ ← ensure_snake_case_ident name; Ok (SelComponent name).

(** One trimmed, non-empty token. *)
Definition parse_selector (token : string) : result resolve_error ScopeSelector :=
  if decide (token = "all") then Ok SelAll
  else
    match strip_text "//" token with
    | Some name => named_selector name
    | None =>
        match strip_text "component:" token with
        | Some name => named_selector name
        | None =>
            match strip_text "components:" token with
            | Some name => named_selector name
            | None =>
                match strip_text "platform:" token with
                | Some name =>
                    if decide (name = "all") then Ok SelPlatformAll
                    else _ ← ensure_snake_case_ident name; Ok (SelPlatform name)
                | None => Err (UnrecognizedSelector token)
                end
            end
        end
    end.

Definition parse_scope_selectors (input : string) : result resolve_error (list ScopeSelector) :=
  let tokens := filter (λ t, t ≠ String.EmptyString) (trim <$> split ","%char input) in
  selectors ← collect_results parse_selector tokens;
  _ ← bail_if (bool_decide (selectors = [])) EmptyScope;
  _ ← bail_if (bool_decide (SelAll ∈ selectors) && (1 <? length selectors)%nat) AllCombined;
  Ok selectors.

(** ** Requirements *)

Notation unbound_map := (gmap string (gset string)).

Section Tags.
Context (tags : gmap string string).

(** [ResolutionContext::eval]. *)
Definition eval_tags (condition : string) : result resolve_error bool :=
  map_err ConditionFailed (eval_condition condition tags).

Fixpoint resolve_requirements (comp : string) (reqs : list (string * Requirement))
    (bindings : gmap string Binding) (catalogues : gmap string Catalogue)
    (resolved : gmap string ResolvedRequirement) (unbound : unbound_map)
    : result resolve_error (gmap string ResolvedRequirement * unbound_map) :=
  match reqs with
  | [] => Ok (resolved, unbound)
  | (slot, requirement) :: reqs =>
      let binding_id := rq_binding requirement in
      binding ← ok_or (bindings !! binding_id) (UndeclaredBinding comp binding_id slot);
      match tags !! binding_id with
      | None =>
          let sites := default ∅ (unbound !! binding_id) in
          resolve_requirements comp reqs bindings catalogues resolved
            (<[binding_id := {[comp +:+ "." +:+ slot]} ∪ sites]> unbound)
      | Some entry_id =>
          catalogue ← ok_or (catalogues !! bd_catalogue binding)
                        (UndeclaredCatalogue binding_id (bd_catalogue binding));
          fields ← ok_or (ct_entries catalogue !! entry_id)
                     (NotAnEntry binding_id entry_id (bd_catalogue binding));
          resolve_requirements comp reqs bindings catalogues
            (<[slot := mkResolvedRequirement binding_id entry_id fields]> resolved) unbound
      end
  end.

(** ** Overrides *)

Definition MAX_CHAIN_DEPTH : nat := 1000.

Definition ensure_override_depth (depth : nat) (at_path : string) : result resolve_error unit :=
  bail_if (MAX_CHAIN_DEPTH <? depth)%nat (OverrideTooDeep at_path).

(** [if let Some(v) = patch.field { base.field = Some(v) }]. *)
Definition overwrite {A} (patch base : option A) : option A :=
  match patch with Some v => Some v | None => base end.

(** Both present and different. *)
Definition clash (base patch : option string) : option (string * string) :=
  match base, patch with
  | Some b, Some p => if decide (b = p) then None else Some (b, p)
  | _, _ => None
  end.

Definition merge_params (base patch : Param) : result resolve_error Param :=
  _ ← match clash (pm_unit base) (pm_unit patch) with Some (b, p) => Err (UnitConflict p b) | None => Ok tt end;
  _ ← match clash (pm_type base) (pm_type patch) with Some (b, p) => Err (TypeConflict p b) | None => Ok tt end;
  inherits ← match pm_inherits base, pm_inherits patch with
             | None, Some parent => Ok (Some parent)
             | Some existing, Some incoming =>
                 if decide (existing = incoming) then Ok (Some existing)
                 else Err (InheritanceConflict existing incoming)
             | i, None => Ok i
             end;
  Ok (mkParameter inherits
        (overwrite (pm_type patch) (pm_type base))
        (overwrite (pm_unit patch) (pm_unit base))
        (overwrite (pm_doc patch) (pm_doc base))
        (overwrite (pm_value patch) (pm_value base))
        (pm_facet base)
        (overwrite (pm_lifecycle patch) (pm_lifecycle base))
        (overwrite (pm_safety patch) (pm_safety base))
        (overwrite (pm_access patch) (pm_access base))
        (overwrite (pm_limits patch) (pm_limits base))
        (overwrite (pm_req_id patch) (pm_req_id base))
        (pm_overrides base ++ pm_overrides patch)).

(** [std::mem::take(&mut param.overrides)]. *)
Definition take_overrides (p : Param) : Param :=
  mkParameter (pm_inherits p) (pm_type p) (pm_unit p) (pm_doc p) (pm_value p) (pm_facet p)
    (pm_lifecycle p) (pm_safety p) (pm_access p) (pm_limits p) (pm_req_id p) [].

Fixpoint apply_overrides_recursive (path : string) (depth : nat) (p : Param) : result resolve_error Param :=
  match p with
  | mkParameter i t u d v f l s a lm r overrides =>
      _ ← ensure_override_depth depth path;
      (fix blocks (bs : list ConditionalBlock) (base : Param) : result resolve_error Param :=
         match bs with
         | [] => Ok base
         | mkBlock condition payload :: bs =>
             active ← eval_tags condition;
             if active : bool then
               payload ← apply_overrides_recursive path (S depth) payload;
               base ← merge_params base payload;
               blocks bs base
             else blocks bs base
         end) overrides (mkParameter i t u d v f l s a lm r [])
  end.
End Tags.

(** ** Safety metadata *)

Record ChainDeclared : Type := mkChain {
  ch_safety : bool;
  ch_lifecycle : bool;
  ch_access : bool;
  ch_chain : list string;
}.

Definition declares {A} (o : option A) : bool := match o with Some _ => true | None => false end.

Fixpoint chain_loop (fuel : nat) (definitions : gmap string Param) (visited : gset string)
    (current : option string) (d : ChainDeclared) : ChainDeclared :=
  match fuel, current with
  | S fuel, Some id =>
      if decide (id ∈ visited) then d
      else
        let chain := ch_chain d ++ [id] in
        match definitions !! id with
        | None => mkChain (ch_safety d) (ch_lifecycle d) (ch_access d) chain
        | Some def =>
            chain_loop fuel definitions ({[id]} ∪ visited) (pm_inherits def)
              (mkChain (ch_safety d || declares (pm_safety def))
                 (ch_lifecycle d || declares (pm_lifecycle def))
                 (ch_access d || declares (pm_access def)) chain)
        end
  | _, _ => d
  end.

Definition collect_chain_declared_metadata (start_id : string) (definitions : gmap string Param) : ChainDeclared :=
  chain_loop (S (S (size definitions))) definitions ∅ (Some start_id) (mkChain false false false []).

(** The fields the chain declares and the parameter lacks. *)
Definition missing_fields (d : ChainDeclared) (safety : option SafetyLevel) (lifecycle : option Lifecycle)
    (access : option Role) : list string :=
  (if ch_safety d && negb (declares safety) then ["safety"] else []) ++
  (if ch_lifecycle d && negb (declares lifecycle) then ["lifecycle"] else []) ++
  (if ch_access d && negb (declares access) then ["access"] else []).

Definition resolve_safety_metadata (path : string) (inherits : option string) (definitions : gmap string Param)
    (safety : option SafetyLevel) (lifecycle : option Lifecycle) (access : option Role)
    : result resolve_error (SafetyLevel * Lifecycle * Role) :=
  _ ← match inherits with
      | None => Ok tt
      | Some parent_id =>
          let declared := collect_chain_declared_metadata parent_id definitions in
          let missing := missing_fields declared safety lifecycle access in
          bail_if (negb (bool_decide (missing = []))) (MetadataDropped path (ch_chain declared) missing)
      end;
  Ok (default QM safety, default Runtime lifecycle, default Technician access).

(** ** Parameters and components *)

Section Resolve.
Context `{HashOrder} (tags : gmap string string).

Definition resolve_parameter (p : Param) (path : string) (definitions : gmap string Param)
    (artifacts : gmap string SchemaArtifact) : result resolve_error ResolvedParameter :=
  _ ← match pm_inherits p with
      | Some parent_id => bail_if (negb (declares (definitions !! parent_id))) (UnknownDefinition parent_id)
      | None => Ok tt
      end;
  p ← apply_overrides_recursive tags path 0 p;
  value ← match pm_facet p with
          | Some bound_facet =>
              match tags !! bound_facet with
              | Some v => Ok (VString v)
              | None => Err (FacetWithoutValue bound_facet)
              end
          | None => ok_or (pm_value p) MissingValue
          end;
  type ← ok_or (pm_type p) MissingType;
  _ ← (if decide (type = "artifact") then
         match value with
         | VString artifact_id => bail_if (negb (declares (artifacts !! artifact_id))) (ArtifactNotFound artifact_id)
         | _ => Err ArtifactNotString
         end
       else Ok tt);
  '(safety, lifecycle, access) ← resolve_safety_metadata path (pm_inherits p) definitions
                                   (pm_safety p) (pm_lifecycle p) (pm_access p);
  Ok (mkResolvedParameter value type (pm_facet p) (pm_unit p) safety lifecycle access
        (pm_req_id p) (pm_doc p) (pm_limits p)).

Definition param_path (comp param : string) : string := "components." +:+ comp +:+ ".params." +:+ param.

Fixpoint resolve_params (raw : Config) (comp : string) (ps : list (string * Param))
    (resolved : gmap string ResolvedParameter) : result resolve_error (gmap string ResolvedParameter) :=
  match ps with
  | [] => Ok resolved
  | (name, p) :: ps =>
      r ← map_err (InParameter name comp)
            (resolve_parameter p (param_path comp name) (definitions raw) (artifacts raw));
      resolve_params raw comp ps (<[name := r]> resolved)
  end.

(** An included component: its requirements, then its parameters. *)
Definition resolve_included (raw : Config) (name : string) (comp : Component) (unbound : unbound_map)
    : result resolve_error (ResolvedComponent * unbound_map) :=
  comp_type ← ok_or (cp_type comp) (MissingComponentType name);
  '(reqs, unbound) ← resolve_requirements tags name (bt_list (requires comp)) (bindings raw)
                       (catalogues raw) ∅ unbound;
  ps ← resolve_params raw name (hash_order (params comp)) ∅;
  Ok (mkResolvedComponent comp_type reqs ps, unbound).

(** One turn of the component loop: nothing when the condition is false. *)
Definition resolve_component (raw : Config) (name : string) (comp : Component) (unbound : unbound_map)
    : result resolve_error (option ResolvedComponent * unbound_map) :=
  included ← match cp_condition comp with Some cond => eval_tags tags cond | None => Ok true end;
  if negb included then Ok (None, unbound)
  else '(r, unbound) ← resolve_included raw name comp unbound; Ok (Some r, unbound).

Fixpoint resolve_components (raw : Config) (cs : list (string * Component)) (unbound : unbound_map)
    (resolved : gmap string ResolvedComponent)
    : result resolve_error (gmap string ResolvedComponent * unbound_map) :=
  match cs with
  | [] => Ok (resolved, unbound)
  | (name, comp) :: cs =>
      '(r, unbound) ← resolve_component raw name comp unbound;
      resolve_components raw cs unbound
        (match r with Some r => <[name := r]> resolved | None => resolved end)
  end.

Definition resolve (raw : Config) : result resolve_error ResolvedConfig :=
  '(resolved, unbound) ← resolve_components raw (hash_order (components raw)) ∅ ∅;
  match bt_list unbound with
  | (binding, sites) :: others => Err (RequirementUnbound binding (bt_elements sites) others.*1)
  | [] => Ok (mkResolvedConfig (cf_package raw) (cf_version raw) resolved)
  end.

(** ** Scoped resolution *)

Fixpoint closure_loop (fuel : nat) (cs : gmap string Component) (seen : gset string) (stack : list string)
    : result resolve_error (gset string) :=
  match fuel with
  | O => Err ClosureFuel
  | S fuel =>
      match stack with
      | [] => Ok seen
      | node :: stack =>
          if decide (node ∈ seen) then closure_loop fuel cs seen stack
          else
            comp ← ok_or (cs !! node) (MissingComponent node);
            closure_loop fuel cs ({[node]} ∪ seen) (reverse (depends_on comp) ++ stack)
      end
  end.

(** The edges of the dependency graph. *)
Definition edge_count (cs : gmap string Component) : nat :=
  map_fold (λ _ c n, length (depends_on c) + n)%nat 0%nat cs.

Definition dependency_closure (cs : gmap string Component) (root : string) : result resolve_error (gset string) :=
  _ ← bail_if (negb (declares (cs !! root))) (UnknownComponent root);
  closure_loop (S (S (edge_count cs))) cs ∅ [root].

Definition is_platform (c : Component) : bool := bool_decide (cp_type c = Some "platform").

(** The roots one selector names. *)
Definition selector_roots (cs : gmap string Component) (sel : ScopeSelector) : result resolve_error (list string) :=
  match sel with
  | SelComponent id => _ ← bail_if (negb (declares (cs !! id))) (UnknownComponent id); Ok [id]
  | SelPlatform id =>
      comp ← ok_or (cs !! id) (UnknownPlatform id);
      _ ← bail_if (negb (is_platform comp)) (NotAPlatform id);
      Ok [id]
  | SelPlatformAll =>
      let ids := (List.filter (λ c, is_platform c.2) (hash_order cs)).*1 in
      _ ← bail_if (bool_decide (ids = [])) NoPlatforms;
      Ok ids
  | SelAll => Ok []
  end.

(** [roots.dedup()]: neighbours. *)
Fixpoint dedup_roots (l : list string) : list string :=
  match l with
  | x :: ((y :: _) as l) => if decide (x = y) then dedup_roots l else x :: dedup_roots l
  | l => l
  end.

Definition scoped_config (raw : Config) (cs : gmap string Component) : Config :=
  mkConfig (cf_package raw) (cf_version raw) (definitions raw) cs (artifacts raw) ∅ ∅
    (catalogues raw) (bindings raw).

Definition resolve_root (raw : Config) (root : string) : result resolve_error ResolvedConfig :=
  closure ← dependency_closure (components raw) root;
  scoped ← collect_results (λ id, comp ← ok_or (components raw !! id) (MissingComponent id); Ok (id, comp))
             (elements closure);
  resolve (scoped_config raw (list_to_map scoped)).

Fixpoint resolve_roots (raw : Config) (roots : list string) (outputs : gmap string ResolvedConfig)
    : result resolve_error (gmap string ResolvedConfig) :=
  match roots with
  | [] => Ok outputs
  | root :: roots =>
      r ← resolve_root raw root;
      resolve_roots raw roots (<[root := r]> outputs)
  end.

Definition resolve_scoped (raw : Config) (scope : string) : result resolve_error (gmap string ResolvedConfig) :=
  selectors ← parse_scope_selectors scope;
  if decide (selectors = [SelAll]) then r ← resolve raw; Ok {["all" := r]}
  else
    roots ← collect_results (selector_roots (components raw)) selectors;
    resolve_roots raw (dedup_roots (string_sort (concat roots))) ∅.
End Resolve.
