(* ===== verification/ResolverProps.v ===== *)
(** * What resolving a model guarantees

    The theorems about [Resolver.v]: overrides give every field its last active
    value, declared safety metadata is never lost along an inheritance chain,
    the dependency closure is the reachable set, and [resolve] succeeds exactly
    when every included component resolves, in whatever order the components
    are visited. *)
From S2P Require Import Prelude Tokens Eval Text Schema Resolver.

(** ** Overrides *)

Section Overrides.
Context (tags : gmap string string).

Definition active (condition : string) : bool :=
  match eval_condition condition tags with Ok b => b | Err _ => false end.

(** The blocks of a parameter, merged in turn. *)
Fixpoint merge_blocks (rec : Param → result resolve_error Param) (bs : list ConditionalBlock) (base : Param)
    : result resolve_error Param :=
  match bs with
  | [] => Ok base
  | b :: bs =>
      on ← eval_tags tags (cb_condition b);
      if on : bool then payload ← rec (cb_payload b); base ← merge_params base payload; merge_blocks rec bs base
      else merge_blocks rec bs base
  end.

Lemma apply_overrides_eq path depth p :
  apply_overrides_recursive tags path depth p =
    (_ ← ensure_override_depth depth path;
     merge_blocks (apply_overrides_recursive tags path (S depth)) (pm_overrides p) (take_overrides p)).
Proof.
  destruct p as [i t u d v f l s a lm r bs]. cbn [apply_overrides_recursive pm_overrides].
  destruct (ensure_override_depth depth path) as [[]|e]; cbn [mbind result_bind]; [|done].
  change (mkParameter i t u d v f l s a lm r []) with (take_overrides (mkParameter i t u d v f l s a lm r bs)).
  generalize (take_overrides (mkParameter i t u d v f l s a lm r bs)).
  induction bs as [|[c q] bs IH]; intros base; cbn [merge_blocks cb_condition cb_payload]; [done|].
  destruct (eval_tags tags c) as [[]|e]; cbn [mbind result_bind]; [|apply IH|done].
  destruct (apply_overrides_recursive tags path (S depth) q); cbn [mbind result_bind]; [|done].
  destruct (merge_params base a0); cbn [mbind result_bind]; [apply IH|done].
Qed.

(** The value of a field: that of the last active override that sets it, nested
    ones included, else the parameter's own. *)
Section Field.
Context {A : Type} (proj : Param → option A).

Fixpoint effective (p : Param) : option A :=
  match p with
  | mkParameter i t u d v f l s a lm r overrides =>
      (fix blocks (bs : list ConditionalBlock) (acc : option A) : option A :=
         match bs with
         | [] => acc
         | mkBlock condition payload :: bs =>
             blocks bs (if active condition then overwrite (effective payload) acc else acc)
         end) overrides (proj p)
  end.

Definition step_field (acc : option A) (b : ConditionalBlock) : option A :=
  if active (cb_condition b) then overwrite (effective (cb_payload b)) acc else acc.

Lemma effective_eq p : effective p = foldl step_field (proj p) (pm_overrides p).
Proof.
  destruct p as [i t u d v f l s a lm r bs]. cbn [effective pm_overrides].
  generalize (proj (mkParameter i t u d v f l s a lm r bs)).
  induction bs as [|[c q] bs IH]; intros acc; cbn [foldl]; [done|]. rewrite IH. reflexivity.
Qed.
End Field.

(** [q] has the effective fields of [p]. *)
Record settled (p q : Param) : Prop := {
  st_overrides : pm_overrides q = [];
  st_facet : pm_facet q = pm_facet p;
  st_inherits : pm_inherits q = effective pm_inherits p;
  st_type : pm_type q = effective pm_type p;
  st_unit : pm_unit q = effective pm_unit p;
  st_doc : pm_doc q = effective pm_doc p;
  st_value : pm_value q = effective pm_value p;
  st_lifecycle : pm_lifecycle q = effective pm_lifecycle p;
  st_safety : pm_safety q = effective pm_safety p;
  st_access : pm_access q = effective pm_access p;
  st_limits : pm_limits q = effective pm_limits p;
  st_req_id : pm_req_id q = effective pm_req_id p;
}.

(** Merging overwrites field by field. *)
Record merged (base patch q : Param) : Prop := {
  mg_overrides : pm_overrides q = pm_overrides base ++ pm_overrides patch;
  mg_facet : pm_facet q = pm_facet base;
  mg_inherits : pm_inherits q = overwrite (pm_inherits patch) (pm_inherits base);
  mg_type : pm_type q = overwrite (pm_type patch) (pm_type base);
  mg_unit : pm_unit q = overwrite (pm_unit patch) (pm_unit base);
  mg_doc : pm_doc q = overwrite (pm_doc patch) (pm_doc base);
  mg_value : pm_value q = overwrite (pm_value patch) (pm_value base);
  mg_lifecycle : pm_lifecycle q = overwrite (pm_lifecycle patch) (pm_lifecycle base);
  mg_safety : pm_safety q = overwrite (pm_safety patch) (pm_safety base);
  mg_access : pm_access q = overwrite (pm_access patch) (pm_access base);
  mg_limits : pm_limits q = overwrite (pm_limits patch) (pm_limits base);
  mg_req_id : pm_req_id q = overwrite (pm_req_id patch) (pm_req_id base);
}.

Lemma merge_params_spec base patch q : merge_params base patch = Ok q → merged base patch q.
Proof.
  unfold merge_params. intros (_ & _ & (_ & _ & (i & Ei & [= <-])%bind_Ok)%bind_Ok)%bind_Ok.
  split; cbn; try done. destruct (pm_inherits base), (pm_inherits patch); cbn; try (by injection Ei as <-).
  case_decide; [|done]. injection Ei as <-. by subst.
Qed.

Lemma merge_blocks_spec path depth bs :
  Forall (λ b, ∀ q, apply_overrides_recursive tags path depth (cb_payload b) = Ok q → settled (cb_payload b) q) bs →
  ∀ base q, pm_overrides base = [] →
  merge_blocks (apply_overrides_recursive tags path depth) bs base = Ok q →
  pm_overrides q = [] ∧ pm_facet q = pm_facet base ∧
  pm_inherits q = foldl (step_field pm_inherits) (pm_inherits base) bs ∧
  pm_type q = foldl (step_field pm_type) (pm_type base) bs ∧
  pm_unit q = foldl (step_field pm_unit) (pm_unit base) bs ∧
  pm_doc q = foldl (step_field pm_doc) (pm_doc base) bs ∧
  pm_value q = foldl (step_field pm_value) (pm_value base) bs ∧
  pm_lifecycle q = foldl (step_field pm_lifecycle) (pm_lifecycle base) bs ∧
  pm_safety q = foldl (step_field pm_safety) (pm_safety base) bs ∧
  pm_access q = foldl (step_field pm_access) (pm_access base) bs ∧
  pm_limits q = foldl (step_field pm_limits) (pm_limits base) bs ∧
  pm_req_id q = foldl (step_field pm_req_id) (pm_req_id base) bs.
Proof.
  induction 1 as [|b bs Hb _ IH]; intros base q Hnil; cbn [merge_blocks foldl].
  { by intros [= <-]. }
  intros (on & Hon & E)%bind_Ok. unfold step_field, active. unfold eval_tags in Hon.
  destruct (eval_condition (cb_condition b) tags) as [on'|e]; [|done]. injection Hon as ->.
  destruct on; [|by apply IH]. apply bind_Ok in E as (pl & Epl & (base' & Em & E)%bind_Ok).
  specialize (Hb pl Epl). apply merge_params_spec in Em.
  apply IH in E; [|by rewrite (mg_overrides _ _ _ Em), Hnil, (st_overrides _ _ Hb)].
  destruct Hb, Em. rewrite mg_facet0, mg_inherits0, mg_type0, mg_unit0, mg_doc0, mg_value0, mg_lifecycle0, mg_safety0,
    mg_access0, mg_limits0, mg_req_id0 in E.
  rewrite st_inherits0, st_type0, st_unit0, st_doc0, st_value0, st_lifecycle0, st_safety0, st_access0, st_limits0,
    st_req_id0 in E. exact E.
Qed.

Lemma apply_overrides_settled path p : ∀ depth q, apply_overrides_recursive tags path depth p = Ok q → settled p q.
Proof.
  induction p as [p IH] using param_nested. intros depth q. rewrite apply_overrides_eq.
  intros (_ & _ & E)%bind_Ok. apply merge_blocks_spec in E; [|eapply Forall_impl; [exact IH|intros b Hb; apply Hb]|done].
  destruct E as (? & ? & E). destruct_and! E. split; rewrite ?effective_eq; done.
Qed.
End Overrides.

(** ** Inheritance chains *)

Section Chain.
Context (defs : gmap string Param).

Definition inherits (id parent : string) : Prop := ∃ d, defs !! id = Some d ∧ pm_inherits d = Some parent.

(** Some definition on the chain from [id] declares the field. *)
Definition chain_declares {A} (proj : Param → option A) (id : string) : Prop :=
  ∃ id' d, rtc inherits id id' ∧ defs !! id' = Some d ∧ is_Some (proj d).

Lemma chain_declares_step {A} (proj : Param → option A) id d :
  defs !! id = Some d →
  chain_declares proj id ↔ is_Some (proj d) ∨ ∃ parent, pm_inherits d = Some parent ∧ chain_declares proj parent.
Proof.
  intros Hd. split.
  - intros (id' & d' & Hr & Hd' & Hp). inversion Hr as [|? y ? (d0 & Hd0 & Hi) Hr']; subst; simplify_eq; [by left|].
    right. exists y. split; [done|]. by exists id', d'.
  - intros [Hp|(parent & Hi & id' & d' & Hr & Hd' & Hp)]; [by exists id, d; split; [constructor|]|].
    exists id', d'. split_and!; [|done|done]. eapply rtc_l; [|done]. by exists d.
Qed.

Lemma chain_declares_unknown {A} (proj : Param → option A) id : defs !! id = None → ¬ chain_declares proj id.
Proof.
  intros Hn (id' & d & Hr & Hd & _). inversion Hr as [|? y ? (d0 & Hd0 & _) _]; subst; congruence.
Qed.

Lemma declares_true {A} (o : option A) : declares o = true ↔ is_Some o.
Proof. destruct o; cbn; [split; eauto|split; [done|by intros [? ?]]]. Qed.

(** The walk so far: what the visited definitions declare is counted, and from
    them one only gets back or on to [current]. *)
Record walked {A} (proj : Param → option A) (visited : gset string) (current : option string) (b : bool) : Prop := {
  wk_own : ∀ id d, id ∈ visited → defs !! id = Some d → is_Some (proj d) → b = true;
  wk_next : ∀ id parent, id ∈ visited → inherits id parent → parent ∈ visited ∨ current = Some parent;
}.

(** Back at a visited definition, everything was counted. *)
Lemma walked_back {A} (proj : Param → option A) visited id b :
  walked proj visited (Some id) b → id ∈ visited → chain_declares proj id → b = true.
Proof.
  intros Hw Hid (id' & d & Hr & Hd & Hp). apply (wk_own _ _ _ _ Hw id' d); [|done|done].
  assert (Hstay : ∀ x, x ∈ visited → rtc inherits x id' → id' ∈ visited); [|by apply (Hstay id)].
  clear Hr. intros x Hx Hr. induction Hr as [|x y z Hxy _ IH]; [done|]. apply IH; [done|].
  destruct (wk_next _ _ _ _ Hw x y Hx Hxy) as [?|[= <-]]; done.
Qed.

Lemma walked_step {A} (proj : Param → option A) visited id d b :
  walked proj visited (Some id) b → defs !! id = Some d →
  walked proj ({[id]} ∪ visited) (pm_inherits d) (b || declares (proj d)).
Proof.
  intros Hw Hd. split.
  - intros id' d' [->%elem_of_singleton|Hin]%elem_of_union Hd' Hp; apply orb_true_iff.
    + right. simplify_eq. by apply declares_true.
    + left. by eapply Hw.
  - intros id' parent [->%elem_of_singleton|Hin]%elem_of_union Hi.
    + right. destruct Hi as (d' & Hd' & Hi). by simplify_eq.
    + left. destruct (wk_next _ _ _ _ Hw id' parent Hin Hi) as [?|[= ->]]; set_solver.
Qed.

(** One field of the walk. *)
Lemma chain_loop_field {A} (proj : Param → option A) (get : ChainDeclared → bool) :
  (∀ s l a c d, get (mkChain (s || declares (pm_safety d)) (l || declares (pm_lifecycle d))
                       (a || declares (pm_access d)) c) = get (mkChain s l a []) || declares (proj d)) →
  (∀ s l a c, get (mkChain s l a c) = get (mkChain s l a [])) →
  ∀ fuel visited current d,
  visited ⊆ dom defs → (size defs < fuel + size visited)%nat →
  walked proj visited current (get d) →
  get (chain_loop fuel defs visited current d) = true ↔
    get d = true ∨ ∃ c, current = Some c ∧ chain_declares proj c.
Proof.
  intros Hget Hirr. induction fuel as [|fuel IH]; intros visited current [s l a ch] Hsub Hfuel Hw.
  { exfalso. apply subseteq_size in Hsub. rewrite size_dom in Hsub. lia. }
  cbn [chain_loop]. destruct current as [id|]; [|naive_solver].
  case_decide as Hin.
  { split; [by left|]. intros [?|(c & [= <-] & Hc)]; [done|]. by eapply walked_back. }
  cbn [ch_safety ch_lifecycle ch_access ch_chain]. destruct (defs !! id) as [d|] eqn:Hd.
  - rewrite IH.
    + rewrite Hget, (Hirr _ _ _ ch), orb_true_iff, declares_true.
      split.
      * intros [[?|?]|(c & Hc & Hch)]; [by left| |]; right; exists id; (split; [done|]);
          apply (chain_declares_step proj id d Hd); [by left|right; eauto].
      * intros [?|(c & [= <-] & Hc)]; [by left; left|].
        apply (chain_declares_step proj id d Hd) in Hc as [?|?]; [by left; right|by right].
    + apply union_least; [|done]. apply singleton_subseteq_l, elem_of_dom. eauto.
    + rewrite size_union by set_solver. rewrite size_singleton. lia.
    + rewrite Hget, <-(Hirr _ _ _ ch). by apply walked_step.
  - rewrite (Hirr _ _ _ (ch ++ [id])), (Hirr _ _ _ ch). split; [by left|].
    intros [?|(c & [= <-] & Hc)]; [done|]. by apply chain_declares_unknown in Hc.
Qed.

Lemma walked_start {A} (proj : Param → option A) current b : walked proj ∅ current b.
Proof. split; set_solver. Qed.

(** The walk ends and finds exactly the fields some ancestor declares. *)
Lemma collect_chain_spec start :
  let d := collect_chain_declared_metadata start defs in
  (ch_safety d = true ↔ chain_declares pm_safety start) ∧
  (ch_lifecycle d = true ↔ chain_declares pm_lifecycle start) ∧
  (ch_access d = true ↔ chain_declares pm_access start).
Proof.
  unfold collect_chain_declared_metadata. cbn zeta. split_and!; erewrite chain_loop_field;
    first [apply walked_start | apply empty_subseteq | lia | by intros | idtac]; cbn; naive_solver.
Qed.
End Chain.

Lemma missing_nil d safety lifecycle access :
  missing_fields d safety lifecycle access = [] ↔
    (ch_safety d = true → is_Some safety) ∧ (ch_lifecycle d = true → is_Some lifecycle) ∧
    (ch_access d = true → is_Some access).
Proof.
  unfold missing_fields. rewrite <-!declares_true.
  destruct (ch_safety d), (declares safety), (ch_lifecycle d), (declares lifecycle), (ch_access d), (declares access);
    cbn; split; try done; intros; destruct_and?; naive_solver.
Qed.

(** No declared level is lost: a default stands only where no ancestor of the
    parameter declares the field. *)
Lemma safety_metadata_spec path inh defs safety lifecycle access r :
  resolve_safety_metadata path inh defs safety lifecycle access = Ok r →
  r = (default QM safety, default Runtime lifecycle, default Technician access) ∧
  ∀ parent, inh = Some parent →
    (chain_declares defs pm_safety parent → is_Some safety) ∧
    (chain_declares defs pm_lifecycle parent → is_Some lifecycle) ∧
    (chain_declares defs pm_access parent → is_Some access).
Proof.
  unfold resolve_safety_metadata. intros ([] & E & [= <-])%bind_Ok. split; [done|]. intros parent ->.
  unfold bail_if in E. destruct (bool_decide_reflect (missing_fields (collect_chain_declared_metadata parent defs)
    safety lifecycle access = [])) as [Hm|]; [|done]. apply missing_nil in Hm.
  destruct (collect_chain_spec defs parent) as (<- & <- & <-). done.
Qed.

(** ** The dependency closure *)

Section Closure.
Context (cs : gmap string Component).

Definition depends (x y : string) : Prop := ∃ c, cs !! x = Some c ∧ y ∈ depends_on c.

(** The edges of the components not seen yet. *)
Definition unseen (seen : gset string) : gmap string Component := filter (λ kc, kc.1 ∉ seen) cs.

Lemma edge_count_delete (m : gmap string Component) k c :
  m !! k = Some c → edge_count m = (length (depends_on c) + edge_count (delete k m))%nat.
Proof. intros Hk. unfold edge_count. rewrite (map_fold_delete_L _ _ k c); [done| |done]. intros. lia. Qed.

Lemma unseen_step seen k c :
  cs !! k = Some c → k ∉ seen →
  edge_count (unseen seen) = (length (depends_on c) + edge_count (unseen ({[k]} ∪ seen)))%nat.
Proof.
  intros Hk Hs. assert (E : unseen ({[k]} ∪ seen) = delete k (unseen seen)).
  { apply map_eq. intros i. unfold unseen. destruct (decide (i = k)) as [->|Hne].
    - rewrite lookup_delete_eq. apply map_lookup_filter_None. right. intros x _. cbn. set_solver.
    - rewrite lookup_delete_ne by done. destruct (cs !! i) as [x|] eqn:Hx.
      + destruct (decide (i ∈ seen)).
        * rewrite !(proj2 (map_lookup_filter_None _ _ _)); [done|right; set_solver..].
        * rewrite !(proj2 (map_lookup_filter_Some _ _ _ x)); [done|set_solver..].
      + rewrite !(proj2 (map_lookup_filter_None _ _ _)); [done|by left..]. }
  rewrite E. apply edge_count_delete, map_lookup_filter_Some. split; done.
Qed.

Record closing (root : string) (seen : gset string) (stack : list string) : Prop := {
  cl_reach : ∀ x, x ∈ seen ∨ x ∈ stack → rtc depends root x;
  cl_deps : ∀ x y, x ∈ seen → depends x y → y ∈ seen ∨ y ∈ stack;
  cl_known : ∀ x, x ∈ seen → is_Some (cs !! x);
  cl_root : root ∈ seen ∨ root ∈ stack;
}.

Lemma closing_push root seen node stack c :
  closing root seen (node :: stack) → cs !! node = Some c →
  closing root ({[node]} ∪ seen) (reverse (depends_on c) ++ stack).
Proof.
  intros [Hr Hd Hk Hroot] Hc.
  assert (Hnode : rtc depends root node) by (apply Hr; right; by left). split.
  - intros x. rewrite elem_of_union, elem_of_singleton, elem_of_app, elem_of_reverse.
    intros [[->|Hx]|[Hx|Hx]]; [done|apply Hr; by left| |apply Hr; right; by right].
    eapply rtc_r; [done|]. by exists c.
  - intros x y. rewrite elem_of_union, elem_of_singleton, elem_of_app, elem_of_reverse.
    intros [->|Hx] Hxy.
    + destruct Hxy as (c' & Hc' & Hy). simplify_eq. auto.
    + destruct (Hd x y Hx Hxy) as [?|[->|?]%elem_of_cons]; set_solver.
  - intros x [->%elem_of_singleton|Hx]%elem_of_union; [eauto|by apply Hk].
  - set_solver.
Qed.

Lemma closing_drop root seen node stack :
  closing root seen (node :: stack) → node ∈ seen → closing root seen stack.
Proof.
  intros [Hr Hd Hk Hroot] Hn. split; [|intros x y Hx Hxy; destruct (Hd x y Hx Hxy)|done|]; set_solver.
Qed.

Lemma closure_loop_spec root fuel seen stack :
  closing root seen stack → (length stack + edge_count (unseen seen) < fuel)%nat →
  match closure_loop fuel cs seen stack with
  | Ok s => ∀ x, x ∈ s ↔ rtc depends root x
  | Err e => ∃ x, rtc depends root x ∧ cs !! x = None ∧ e = MissingComponent x
  end ∧
  ((∀ x, rtc depends root x → is_Some (cs !! x)) → ∃ s, closure_loop fuel cs seen stack = Ok s).
Proof.
  revert seen stack. induction fuel as [|fuel IH]; intros seen stack Hc Hf; [lia|]. cbn [closure_loop].
  destruct stack as [|node stack].
  { split; [|eauto]. destruct Hc as [Hr Hd Hk Hroot]. intros x. split; [intros Hx; apply Hr; by left|].
    destruct Hroot as [Hroot|Hroot]; [|by apply not_elem_of_nil in Hroot]. intros Hx. clear Hr Hk IH.
    induction Hx as [|x y z Hxy _ IHx]; [done|]. apply IHx.
    destruct (Hd x y Hroot Hxy) as [?|Hy]; [done|by apply not_elem_of_nil in Hy]. }
  cbn in Hf. case_decide as Hin.
  { apply IH; [by eapply closing_drop|lia]. }
  destruct (cs !! node) as [c|] eqn:Hn; cbn.
  - pose proof (unseen_step seen node c Hn Hin) as He. apply IH; [by apply closing_push|].
    rewrite length_app, length_reverse. lia.
  - assert (Hr : rtc depends root node) by (apply (cl_reach _ _ _ Hc); right; by left).
    split; [exists node; done|]. intros Hall. destruct (Hall node Hr) as [? ?]. congruence.
Qed.
End Closure.

Lemma closure_spec cs root :
  match dependency_closure cs root with
  | Ok s => ∀ x, x ∈ s ↔ rtc (depends cs) root x
  | Err e => (cs !! root = None ∧ e = UnknownComponent root) ∨
      ∃ x, rtc (depends cs) root x ∧ cs !! x = None ∧ e = MissingComponent x
  end ∧
  ((∀ x, rtc (depends cs) root x → is_Some (cs !! x)) → ∃ s, dependency_closure cs root = Ok s).
Proof.
  unfold dependency_closure, bail_if. destruct (cs !! root) as [c|] eqn:Hr; cbn [declares negb mbind result_bind].
  2: { split; [by left|]. intros Hall. destruct (Hall root) as [? ?]; [done|]. congruence. }
  destruct (closure_loop_spec cs root (S (S (edge_count cs))) ∅ [root]) as [H1 H2].
  - split; [|set_solver..]. intros x [?| ->%list_elem_of_singleton]; [set_solver|apply rtc_refl].
  - cbn. assert (E : unseen cs ∅ = cs).
    { unfold unseen. apply map_filter_id. intros; cbn; set_solver. }
    rewrite E. lia.
  - split; [|done]. destruct (closure_loop _ _ _ _); [done|by right].
Qed.

(** ** Resolving components *)

Definition ok_of {E A} (r : result E A) : option A := match r with Ok a => Some a | Err _ => None end.

Section Resolving.
Context `{HashOrder} (tags : gmap string string) (raw : Config).

(** The entry a requirement is bound to. *)
Definition deliver (q : Requirement) : option ResolvedRequirement :=
  binding ← bindings raw !! rq_binding q;
  entry ← tags !! rq_binding q;
  catalogue ← catalogues raw !! bd_catalogue binding;
  fields ← ct_entries catalogue !! entry;
  Some (mkResolvedRequirement (rq_binding q) entry fields).

(** The binding is declared and, where it is bound, bound to an entry. *)
Definition requirement_ok (q : Requirement) : Prop :=
  is_Some (bindings raw !! rq_binding q) ∧ (is_Some (tags !! rq_binding q) → is_Some (deliver q)).

(** The sites of unbound bindings. *)
Definition needs (u : unbound_map) (b site : string) : Prop := site ∈ default ∅ (u !! b).
Definition no_empty_sites (u : unbound_map) : Prop := ∀ b sites, u !! b = Some sites → sites ≠ ∅.

Lemma needs_insert u b b' site sites :
  needs (<[b := {[site]} ∪ default ∅ (u !! b)]> u) b' sites ↔ needs u b' sites ∨ b' = b ∧ sites = site.
Proof.
  unfold needs. destruct (decide (b = b')) as [<-|Hne].
  - rewrite lookup_insert_eq. cbn. set_solver.
  - rewrite lookup_insert_ne by done. naive_solver.
Qed.

Lemma no_empty_insert u b site :
  no_empty_sites u → no_empty_sites (<[b := {[site]} ∪ default ∅ (u !! b)]> u).
Proof.
  intros Hu b' sites. destruct (decide (b = b')) as [<-|Hne].
  - rewrite lookup_insert_eq. intros [= <-]. set_solver.
  - rewrite lookup_insert_ne by done. apply Hu.
Qed.

Lemma empty_needs u : no_empty_sites u → (∀ b site, ¬ needs u b site) → u = ∅.
Proof.
  intros Hu Hn. apply map_empty. intros b. destruct (u !! b) as [sites|] eqn:E; [|done]. exfalso.
  apply (Hu b sites E). apply set_eq. intros site. split; [|set_solver]. intros Hs. exfalso. apply (Hn b site).
  unfold needs. by rewrite E.
Qed.

(** What the loop over the requirements of a component does. *)
Lemma requirements_spec comp reqs :
  NoDup reqs.*1 → ∀ resolved u,
  (Forall (λ sq, requirement_ok sq.2) reqs ↔
    ∃ r, resolve_requirements tags comp reqs (bindings raw) (catalogues raw) resolved u = Ok r) ∧
  ∀ resolved' u',
  resolve_requirements tags comp reqs (bindings raw) (catalogues raw) resolved u = Ok (resolved', u') →
  (∀ slot, resolved' !! slot =
     match (list_to_map reqs : gmap string Requirement) !! slot ≫= deliver with
     | Some r => Some r
     | None => resolved !! slot
     end) ∧
  (∀ b site, needs u' b site ↔ needs u b site ∨
     ∃ slot q, (slot, q) ∈ reqs ∧ rq_binding q = b ∧ tags !! b = None ∧ site = comp +:+ "." +:+ slot) ∧
  (no_empty_sites u → no_empty_sites u').
Proof.
  induction reqs as [|[slot q] reqs IH]; intros Hnd resolved u; cbn [resolve_requirements fmap list_fmap fst].
  { split; [split; eauto|]. intros ? ? [= <- <-]. split_and!; [done| |done]. set_solver. }
  cbn in Hnd. apply NoDup_cons in Hnd as [Hni Hnd]. specialize (IH Hnd). rewrite Forall_cons. cbn [snd].
  assert (Hno : (list_to_map reqs : gmap string Requirement) !! slot = None) by (by apply not_elem_of_list_to_map_1).
  unfold requirement_ok at 1, deliver at 1.
  destruct (bindings raw !! rq_binding q) as [binding|] eqn:Eb; cbn [ok_or mbind result_bind option_bind].
  2: { split; [|done]. split; [naive_solver|by intros [? ?]]. }
  destruct (tags !! rq_binding q) as [entry|] eqn:Et; cbn [mbind option_bind].
  2: { destruct (IH resolved (<[rq_binding q := {[comp +:+ "." +:+ slot]} ∪ default ∅ (u !! rq_binding q)]> u))
         as [IH1 IH2]. split.
       { rewrite <-IH1. split; [naive_solver|]. intros. split; [|done]. split; [eauto|by intros [? ?]]. }
       intros resolved' u' E. destruct (IH2 _ _ E) as (Hl & Hu & Hn). split_and!.
       - intros s. rewrite Hl. cbn. destruct (decide (slot = s)) as [<-|Hne].
         + rewrite lookup_insert_eq, Hno. cbn. unfold deliver. by rewrite Eb, Et.
         + by rewrite lookup_insert_ne.
       - intros b site. rewrite Hu, needs_insert. setoid_rewrite elem_of_cons. split.
         + intros [[?|[-> ->]]|(s & q' & ? & ?)]; [by left|right; exists slot, q; naive_solver|right; exists s, q'; naive_solver].
         + intros [?|(s & q' & [[= -> ->]|?] & <- & Ht & ->)]; [by left; left|left; by right|right; naive_solver].
       - intros Hne. by apply Hn, no_empty_insert. }
  destruct (catalogues raw !! bd_catalogue binding) as [cat|] eqn:Ec; cbn [ok_or mbind result_bind option_bind].
  2: { split; [|done]. split; [|by intros [? ?]]. intros [[_ Hd] _]. destruct Hd as [? ?]; [eauto|done]. }
  destruct (ct_entries cat !! entry) as [fields|] eqn:Ef; cbn [ok_or mbind result_bind option_bind].
  2: { split; [|done]. split; [|by intros [? ?]]. intros [[_ Hd] _]. destruct Hd as [? ?]; [eauto|done]. }
  destruct (IH (<[slot := mkResolvedRequirement (rq_binding q) entry fields]> resolved) u) as [IH1 IH2]. split.
  { rewrite <-IH1. split; [naive_solver|]. intros. split; [|done]. eauto. }
  intros resolved' u' E. destruct (IH2 _ _ E) as (Hl & Hu & Hn). split_and!; [| |done].
  - intros s. rewrite Hl. cbn. destruct (decide (slot = s)) as [<-|Hne].
    + rewrite !lookup_insert_eq, Hno. cbn. unfold deliver. by rewrite Eb, Et; cbn; rewrite Ec; cbn; rewrite Ef.
    + by rewrite !lookup_insert_ne.
  - intros b site. rewrite Hu. setoid_rewrite elem_of_cons. split.
    + intros [?|(s & q' & ? & ?)]; [by left|right; exists s, q'; naive_solver].
    + intros [?|(s & q' & [[= -> ->]|?] & <- & Ht & ->)]; [by left|congruence|right; naive_solver].
Qed.

(** The loop over the parameters. *)
Definition param_result (comp name : string) (p : Param) : result resolve_error ResolvedParameter :=
  resolve_parameter tags p (param_path comp name) (definitions raw) (artifacts raw).

Lemma params_spec comp ps :
  NoDup ps.*1 → ∀ acc,
  (Forall (λ np, is_Some (ok_of (param_result comp np.1 np.2))) ps ↔
    ∃ r, resolve_params tags raw comp ps acc = Ok r) ∧
  ∀ r, resolve_params tags raw comp ps acc = Ok r →
  ∀ name, r !! name = match (list_to_map ps : gmap string Param) !! name with
                      | Some p => ok_of (param_result comp name p)
                      | None => acc !! name
                      end.
Proof.
  induction ps as [|[name p] ps IH]; intros Hnd acc; cbn [resolve_params].
  { split; [split; eauto|]. by intros ? [= <-]. }
  cbn in Hnd. apply NoDup_cons in Hnd as [Hni Hnd]. specialize (IH Hnd). rewrite Forall_cons. cbn [fst snd].
  fold (param_result comp name p). destruct (param_result comp name p) as [rp|e] eqn:Ep; cbn [map_err mbind result_bind ok_of].
  2: { split; [|done]. split; [by intros [[? ?] _]|by intros [? ?]]. }
  destruct (IH (<[name := rp]> acc)) as [IH1 IH2]. split.
  { rewrite <-IH1. split; [naive_solver|]. intros. split; eauto. }
  intros r Hr k. rewrite (IH2 r Hr). cbn. destruct (decide (name = k)) as [<-|Hne].
  - rewrite lookup_insert_eq, not_elem_of_list_to_map_1, lookup_insert_eq by done. by rewrite Ep.
  - by rewrite !lookup_insert_ne.
Qed.

(** *** One component *)

Definition included (comp : Component) : Prop := ∀ cond, cp_condition comp = Some cond → eval_condition cond tags = Ok true.
Definition excluded (comp : Component) : Prop := ∃ cond, cp_condition comp = Some cond ∧ eval_condition cond tags = Ok false.

Definition component_ok (name : string) (comp : Component) : Prop :=
  is_Some (cp_type comp) ∧
  (∀ slot q, requires comp !! slot = Some q → requirement_ok q) ∧
  (∀ pn p, params comp !! pn = Some p → is_Some (ok_of (param_result name pn p))).

(** What an included component becomes. *)
Definition resolved_component (name : string) (comp : Component) : ResolvedComponent :=
  mkResolvedComponent (default String.EmptyString (cp_type comp)) (omap deliver (requires comp))
    (map_imap (λ pn p, ok_of (param_result name pn p)) (params comp)).

Definition wanted (name : string) (comp : Component) (b site : string) : Prop :=
  ∃ slot q, requires comp !! slot = Some q ∧ rq_binding q = b ∧ tags !! b = None ∧ site = name +:+ "." +:+ slot.

Lemma included_spec name comp u :
  (component_ok name comp ↔ ∃ r, resolve_included tags raw name comp u = Ok r) ∧
  ∀ r u', resolve_included tags raw name comp u = Ok (r, u') →
  r = resolved_component name comp ∧
  (∀ b site, needs u' b site ↔ needs u b site ∨ wanted name comp b site) ∧ (no_empty_sites u → no_empty_sites u').
Proof.
  unfold resolve_included, component_ok, resolved_component.
  destruct (requirements_spec name (bt_list (requires comp)) (NoDup_bt_list _) ∅ u) as [R1 R2].
  destruct (params_spec name (hash_order (params comp)) (NoDup_hash_order _) ∅) as [P1 P2].
  rewrite bt_list_map in R2. rewrite hash_order_map in P2.
  assert (Hreq : Forall (λ sq, requirement_ok sq.2) (bt_list (requires comp)) ↔
    ∀ slot q, requires comp !! slot = Some q → requirement_ok q).
  { rewrite Forall_forall. setoid_rewrite <-elem_bt_list. split; [intros Hf s q Hin; by apply (Hf (s, q))|].
    intros Hf [s q] Hin. by apply (Hf s). }
  assert (Hpar : Forall (λ np, is_Some (ok_of (param_result name np.1 np.2))) (hash_order (params comp)) ↔
    ∀ pn p, params comp !! pn = Some p → is_Some (ok_of (param_result name pn p))).
  { rewrite Forall_forall. setoid_rewrite <-elem_hash_order. split; [intros Hf s q Hin; by apply (Hf (s, q))|].
    intros Hf [s q] Hin. by apply (Hf s). }
  rewrite <-Hreq, <-Hpar, R1, P1.
  destruct (cp_type comp) as [ty|]; cbn [ok_or mbind result_bind default].
  2: { split; [|done]. split; [by intros [[? ?] _]|by intros [? ?]]. }
  destruct (resolve_requirements _ _ _ _ _ _ _) as [[reqs u1]|e]; cbn [mbind result_bind].
  2: { split; [|done]. split; [by intros (_ & [? ?] & _)|by intros [? ?]]. }
  destruct (resolve_params _ _ _ _ _) as [ps|e]; cbn [mbind result_bind].
  2: { split; [|done]. split; [by intros (_ & _ & [? ?])|by intros [? ?]]. }
  split; [split; eauto|]. intros ? ? [= <- <-]. destruct (R2 _ _ eq_refl) as (Hl & Hu & Hn). split_and!; [|..|done].
  - f_equal; apply map_eq; intros k.
    + rewrite Hl, lookup_omap. destruct (_ ≫= deliver); [done|]. apply lookup_empty.
    + rewrite (P2 _ eq_refl), map_lookup_imap. by destruct (params comp !! k).
  - intros b site. rewrite Hu. unfold wanted. setoid_rewrite elem_bt_list. done.
Qed.

Lemma component_spec name comp u :
  ((excluded comp ∨ included comp ∧ component_ok name comp) ↔ ∃ r, resolve_component tags raw name comp u = Ok r) ∧
  ∀ r u', resolve_component tags raw name comp u = Ok (r, u') →
  (excluded comp ∧ r = None ∧ u' = u ∨
   included comp ∧ r = Some (resolved_component name comp) ∧
   (∀ b site, needs u' b site ↔ needs u b site ∨ wanted name comp b site) ∧
   (no_empty_sites u → no_empty_sites u')).
Proof.
  destruct (included_spec name comp u) as [I1 I2].
  assert (Hin : included comp → ¬ excluded comp →
    ((excluded comp ∨ included comp ∧ component_ok name comp) ↔
       ∃ r, ('(r, v) ← resolve_included tags raw name comp u; Ok (Some r, v)) = Ok r) ∧
    ∀ r u', ('(r, v) ← resolve_included tags raw name comp u; Ok (Some r, v)) = Ok (r, u') →
      included comp ∧ r = Some (resolved_component name comp) ∧
      (∀ b site, needs u' b site ↔ needs u b site ∨ wanted name comp b site) ∧
      (no_empty_sites u → no_empty_sites u')).
  { intros Hi Hx. destruct (resolve_included tags raw name comp u) as [[r u1]|e]; cbn [mbind result_bind].
    - split; [naive_solver|]. intros ? ? [= <- <-]. destruct (I2 _ _ eq_refl) as (-> & ? & ?). done.
    - split; [|done]. split; [|by intros [? ?]]. intros [?|[_ Hok]]; [done|]. by apply I1 in Hok as [? ?]. }
  unfold resolve_component. destruct (cp_condition comp) as [cond|] eqn:Ec; cbn [mbind result_bind].
  - unfold eval_tags. destruct (eval_condition cond tags) as [[]|e] eqn:Ee; cbn [map_err mbind result_bind negb].
    + destruct Hin as [H1 H2]; [intros c; congruence|intros (c & ? & ?); congruence|].
      split; [exact H1|]. intros r u' E. right. by apply H2.
    + split; [split; [eauto|intros _; left; by exists cond]|]. intros ? ? [= <- <-]. left. split; [by exists cond|done].
    + split; [|done]. split; [|by intros [? ?]].
      intros [(c & ? & ?)|[Hi _]]; [congruence|]. specialize (Hi cond Ec). congruence.
  - destruct Hin as [H1 H2]; [intros c; congruence|intros (c & ? & ?); congruence|].
    split; [exact H1|]. intros r u' E. right. by apply H2.
Qed.
(** *** All components *)

Definition includedb (comp : Component) : bool :=
  match cp_condition comp with Some cond => active tags cond | None => true end.

Lemma includedb_spec comp : (included comp → includedb comp = true) ∧ (excluded comp → includedb comp = false).
Proof.
  unfold included, excluded, includedb, active. destruct (cp_condition comp) as [c|].
  - split; [intros Hi; by rewrite Hi|]. intros (c' & [= <-] & ->). done.
  - split; [done|]. by intros (? & ? & _).
Qed.

Definition component_resolves (name : string) (comp : Component) : Prop :=
  excluded comp ∨ included comp ∧ component_ok name comp.

Definition outcome (name : string) (comp : Component) : option ResolvedComponent :=
  if includedb comp then Some (resolved_component name comp) else None.

Lemma components_spec cs :
  NoDup cs.*1 → ∀ u acc,
  (Forall (λ nc, component_resolves nc.1 nc.2) cs ↔ ∃ r, resolve_components tags raw cs u acc = Ok r) ∧
  ∀ m u', resolve_components tags raw cs u acc = Ok (m, u') →
  (∀ name, m !! name = match (list_to_map cs : gmap string Component) !! name ≫= outcome name with
                       | Some r => Some r
                       | None => acc !! name
                       end) ∧
  (∀ b site, needs u' b site ↔ needs u b site ∨
     ∃ name comp, (name, comp) ∈ cs ∧ included comp ∧ wanted name comp b site) ∧
  (no_empty_sites u → no_empty_sites u').
Proof.
  induction cs as [|[name comp] cs IH]; intros Hnd u acc; cbn [resolve_components].
  { split; [split; eauto|]. intros ? ? [= <- <-]. split_and!; [done| |done]. set_solver. }
  cbn in Hnd. apply NoDup_cons in Hnd as [Hni Hnd]. specialize (IH Hnd). rewrite Forall_cons. cbn [fst snd].
  assert (Hno : (list_to_map cs : gmap string Component) !! name = None) by (by apply not_elem_of_list_to_map_1).
  destruct (component_spec name comp u) as [C1 C2]. unfold component_resolves at 1. rewrite C1.
  destruct (resolve_component tags raw name comp u) as [[r u1]|e]; cbn [mbind result_bind].
  2: { split; [|done]. split; [by intros [[? ?] _]|by intros [? ?]]. }
  specialize (C2 _ _ eq_refl). destruct (includedb_spec comp) as [Hi Hx].
  destruct (IH u1 (match r with Some r => <[name := r]> acc | None => acc end)) as [IH1 IH2].
  split; [rewrite <-IH1; naive_solver|]. intros m u' E. destruct (IH2 m u' E) as (Hl & Hu & Hn).
  setoid_rewrite elem_of_cons. destruct C2 as [(Hex & -> & ->)|(Hin & -> & Hu1 & Hn1)]; split_and!.
  - intros k. rewrite Hl. cbn. destruct (decide (name = k)) as [<-|Hne].
    + rewrite lookup_insert_eq, Hno. cbn. unfold outcome. by rewrite (Hx Hex).
    + by rewrite lookup_insert_ne.
  - intros b site. rewrite Hu. split; [naive_solver|].
    intros [?|(n & c & [[= -> ->]|?] & Hc & Hw)]; [by left| |right; naive_solver].
    apply Hi in Hc. apply Hx in Hex. congruence.
  - done.
  - intros k. rewrite Hl. cbn. destruct (decide (name = k)) as [<-|Hne].
    + rewrite !lookup_insert_eq, Hno. cbn. unfold outcome. by rewrite (Hi Hin).
    + by rewrite !lookup_insert_ne.
  - intros b site. rewrite Hu, Hu1. split; [naive_solver|].
    intros [?|(n & c & [[= -> ->]|?] & Hc & Hw)]; [by left; left|left; by right|right; naive_solver].
  - auto.
Qed.

Definition all_wanted (b site : string) : Prop :=
  ∃ name comp, components raw !! name = Some comp ∧ included comp ∧ wanted name comp b site.

Definition model_resolves : Prop := ∀ name comp, components raw !! name = Some comp → component_resolves name comp.

(** What [resolve] does, on every model and in every order. *)
Lemma resolve_cases :
  match resolve tags raw with
  | Ok r => model_resolves ∧ (∀ b site, ¬ all_wanted b site) ∧
      r = mkResolvedConfig (cf_package raw) (cf_version raw) (map_imap outcome (components raw))
  | Err (RequirementUnbound b sites others) =>
      model_resolves → (∀ site, site ∈ sites ↔ all_wanted b site) ∧
        NoDup (b :: others) ∧ ∀ b', b' ∈ b :: others ↔ ∃ site, all_wanted b' site
  | Err _ => ¬ model_resolves
  end.
Proof.
  unfold resolve. destruct (components_spec (hash_order (components raw)) (NoDup_hash_order _) ∅ ∅) as [C1 C2].
  assert (Hall : Forall (λ nc, component_resolves nc.1 nc.2) (hash_order (components raw)) ↔ model_resolves).
  { unfold model_resolves. rewrite Forall_forall. setoid_rewrite <-elem_hash_order.
    split; [intros Hf n c Hin; by apply (Hf (n, c))|]. intros Hf [n c] Hin. by apply (Hf n). }
  rewrite Hall in C1. destruct (resolve_components _ _ _ _ _) as [[m u]|e]; cbn [mbind result_bind].
  2: { assert (Hno : ¬ model_resolves) by (rewrite C1; by intros [? ?]). destruct e; done. }
  destruct (C2 _ _ eq_refl) as (Hl & Hu & Hn). rewrite hash_order_map in Hl.
  assert (Hne : no_empty_sites u) by (apply Hn; intros b s Hs; by rewrite lookup_empty in Hs).
  assert (Hneeds : ∀ b site, needs u b site ↔ all_wanted b site).
  { intros b site. rewrite Hu. unfold all_wanted. setoid_rewrite elem_hash_order. unfold needs at 1.
    rewrite lookup_empty. cbn. set_solver. }
  destruct (bt_list u) as [|[b sites] others] eqn:Eb.
  - apply bt_list_nil in Eb as ->. split_and!; [apply C1; eauto| |].
    + intros b site Hw. apply Hneeds in Hw. unfold needs in Hw. rewrite lookup_empty in Hw. by apply not_elem_of_empty in Hw.
    + f_equal. apply map_eq. intros k. rewrite Hl, map_lookup_imap. by destruct (_ ≫= outcome k).
  - intros _. assert (Hb : u !! b = Some sites) by (apply elem_bt_list; rewrite Eb; by left). split_and!.
    + intros site. rewrite elem_of_bt_elements, <-Hneeds. unfold needs. by rewrite Hb.
    + pose proof (NoDup_bt_list u) as Hnd. by rewrite Eb in Hnd.
    + intros b'. setoid_rewrite <-Hneeds.
      assert (Hk : b' ∈ b :: others.*1 ↔ is_Some (u !! b')).
      { change (b :: others.*1) with ((b, sites) :: others).*1. rewrite <-Eb, bt_list_keys, elem_of_bt_elements.
        by rewrite elem_of_dom. }
      rewrite Hk. unfold needs. split.
      * intros [s Hs]. destruct (set_choose_L s (Hne _ _ Hs)) as [x Hx]. exists x. by rewrite Hs.
      * intros [x Hx]. destruct (u !! b'); [eauto|by apply not_elem_of_empty in Hx].
Qed.

(** Success, exactly. *)
Lemma resolve_Ok r :
  resolve tags raw = Ok r ↔
    model_resolves ∧ (∀ b site, ¬ all_wanted b site) ∧
    r = mkResolvedConfig (cf_package raw) (cf_version raw) (map_imap outcome (components raw)).
Proof.
  pose proof resolve_cases as Hc. destruct (resolve tags raw) as [r'|e].
  - split; [by intros [= <-]|]. intros (_ & _ & ->). destruct Hc as (_ & _ & ->). done.
  - split; [done|]. intros (Hm & Hw & _). exfalso. destruct e; try done.
    destruct (Hc Hm) as (_ & _ & Hb). destruct (proj1 (Hb binding)) as [site Hs]; [by left|]. by apply (Hw binding site).
Qed.
End Resolving.

(** *** Parameters *)

(** What a resolved parameter is. *)
Record parameter_resolved (tags : gmap string string) (defs : gmap string Param)
    (arts : gmap string SchemaArtifact) (p : Param) (r : ResolvedParameter) : Prop := {
  pr_value : match pm_facet p with
             | Some f => ∃ v, tags !! f = Some v ∧ rp_value r = VString v
             | None => effective tags pm_value p = Some (rp_value r)
             end;
  pr_type : effective tags pm_type p = Some (rp_type r);
  pr_facet : rp_facet r = pm_facet p;
  pr_artifact : rp_type r = "artifact" → ∃ id, rp_value r = VString id ∧ is_Some (arts !! id);
  pr_safety : rp_safety r = default QM (effective tags pm_safety p);
  pr_lifecycle : rp_lifecycle r = default Runtime (effective tags pm_lifecycle p);
  pr_access : rp_access r = default Technician (effective tags pm_access p);
  pr_rest : rp_unit r = effective tags pm_unit p ∧ rp_doc r = effective tags pm_doc p ∧
    rp_req_id r = effective tags pm_req_id p ∧ rp_limits r = effective tags pm_limits p;
}.

(** Metadata an ancestor declares is not defaulted. *)
Definition keeps_metadata (tags : gmap string string) (defs : gmap string Param) (p : Param) : Prop :=
  ∀ parent, effective tags pm_inherits p = Some parent →
    (chain_declares defs pm_safety parent → is_Some (effective tags pm_safety p)) ∧
    (chain_declares defs pm_lifecycle parent → is_Some (effective tags pm_lifecycle p)) ∧
    (chain_declares defs pm_access parent → is_Some (effective tags pm_access p)).

Lemma bail_if_Ok {E} b (e : E) : bail_if b e = Ok tt ↔ b = false.
Proof. by destruct b. Qed.

Lemma parameter_spec tags p path defs arts r :
  resolve_parameter tags p path defs arts = Ok r →
  parameter_resolved tags defs arts p r ∧ keeps_metadata tags defs p ∧
  (∀ parent, pm_inherits p = Some parent → is_Some (defs !! parent)).
Proof.
  unfold resolve_parameter. intros ([] & Einh & E)%bind_Ok. apply bind_Ok in E as (q & Eq & E).
  apply apply_overrides_settled in Eq as [_ Hfacet Hinh Hty Hun Hdoc Hval Hlc Hsf Hac Hlm Hrq].
  apply bind_Ok in E as (value & Ev & (ty & Et & ([] & Ea & ([[s l] a] & Em & [= <-])%bind_Ok)%bind_Ok)%bind_Ok).
  apply safety_metadata_spec in Em as [[= -> -> ->] Hm]. rewrite Hfacet in Ev. split_and!.
  - split; cbn [rp_value rp_type rp_facet rp_safety rp_lifecycle rp_access rp_unit rp_doc rp_req_id rp_limits];
      try congruence.
    + destruct (pm_facet p) as [f|].
      * destruct (tags !! f) as [v|]; [|done]. injection Ev as <-. eauto.
      * rewrite <-Hval. destruct (pm_value q); [|done]. by injection Ev as <-.
    + rewrite <-Hty. destruct (pm_type q); [|done]. by injection Et as <-.
    + intros ->. rewrite decide_True in Ea by done. destruct value as [| | |id]; try done.
      apply bail_if_Ok, negb_false_iff, declares_true in Ea. eauto.
    + split_and!; congruence.
  - intros parent Hp. rewrite <-Hinh in Hp. specialize (Hm parent Hp). by rewrite Hsf, Hlc, Hac in Hm.
  - intros parent Hp. rewrite Hp in Einh. by apply bail_if_Ok, negb_false_iff, declares_true in Einh.
Qed.

(** ** The properties *)

(** C3: In whatever order the hash maps are read, resolving succeeds exactly
    when every component is excluded by its condition or has a type, declared
    and catalogued requirements and parameters that resolve, and no included
    component needs a binding the context leaves open; the result then holds
    exactly the included components with what they deliver.  When only bindings
    are missing, the error names the first of them with all its sites and lists
    every other missing binding once. *)
Theorem resolve_exact (H : HashOrder) tags raw :
  (∀ r, resolve tags raw = Ok r ↔
     model_resolves tags raw ∧ (∀ b site, ¬ all_wanted tags raw b site) ∧
     r = mkResolvedConfig (cf_package raw) (cf_version raw) (map_imap (outcome tags raw) (components raw))) ∧
  (model_resolves tags raw → ∀ e, resolve tags raw = Err e →
     ∃ b sites others, e = RequirementUnbound b sites others ∧
       (∀ site, site ∈ sites ↔ all_wanted tags raw b site) ∧
       NoDup (b :: others) ∧ ∀ b', b' ∈ b :: others ↔ ∃ site, all_wanted tags raw b' site).
Proof.
  split; [apply resolve_Ok|]. intros Hm e E. pose proof (resolve_cases tags raw) as Hc. rewrite E in Hc.
  destruct e; try done. eauto 10.
Qed.

(** C35: A resolved parameter has, for every field, the value the last active
    override sets, nested overrides included, or its own; a parameter bound to a
    facet has the facet's selection instead; and no safety level, lifecycle or
    access role that a definition on the inheritance chain declares is replaced
    by the default. *)
Theorem parameter_not_downgraded tags p path defs arts r :
  resolve_parameter tags p path defs arts = Ok r →
  parameter_resolved tags defs arts p r ∧ keeps_metadata tags defs p ∧
  (∀ parent, pm_inherits p = Some parent → is_Some (defs !! parent)).
Proof. apply parameter_spec. Qed.

(** The closure of a root is exactly what it reaches through
    [depends_on]; it fails only on a reachable component that is not declared,
    which it names, and the worklist ends on cyclic graphs too. *)
Theorem dependency_closure_exact cs root :
  match dependency_closure cs root with
  | Ok s => ∀ x, x ∈ s ↔ rtc (depends cs) root x
  | Err e => (cs !! root = None ∧ e = UnknownComponent root) ∨
      ∃ x, rtc (depends cs) root x ∧ cs !! x = None ∧ e = MissingComponent x
  end ∧
  ((∀ x, rtc (depends cs) root x → is_Some (cs !! x)) → ∃ s, dependency_closure cs root = Ok s).
Proof. apply closure_spec. Qed.

(** *** Examples *)

Definition blank : Param := mkParameter None None None None None None None None None None None [].

(** A base definition with a safety level, one that inherits from it. *)
Definition demo_definitions : gmap string Param :=
  {[ "base" := mkParameter None (Some "int") None None None None None (Some Sil3) None None None [];
     "mid" := mkParameter (Some "base") None None None None None None None None None None [] ]}.

Definition demo_override : ConditionalBlock :=
  mkBlock "region == 'eu'" (mkParameter None None None None (Some (VInteger 2)) None None (Some Sil3) None None None []).

(** A parameter whose override raises its value and its level. *)
Definition demo_parameter : Param :=
  mkParameter (Some "mid") (Some "int") None None (Some (VInteger 1)) None None (Some Sil4) None None None
    [demo_override].

Lemma parameter_not_downgraded_witness :
  ∃ r, resolve_parameter {["region" := "eu"]} demo_parameter "p" demo_definitions ∅ = Ok r ∧
    rp_value r = VInteger 2 ∧ keeps_metadata {["region" := "eu"]} demo_definitions demo_parameter.
Proof.
  eexists. split; [vm_compute; reflexivity|]. split; [reflexivity|].
  eapply (parameter_not_downgraded {["region" := "eu"]} demo_parameter "p" demo_definitions ∅).
  vm_compute. reflexivity.
Defined.

(** A level declared two definitions up and dropped is refused. *)
Example dropped_level_refused :
  resolve_parameter ∅
    (mkParameter (Some "mid") (Some "int") None None (Some (VInteger 1)) None None None None None None [])
    "p" demo_definitions ∅ = Err (MetadataDropped "p" ["mid"; "base"] ["safety"]).
Proof. vm_compute. reflexivity. Qed.

(** An override may set [inherits] to a definition that does not exist: the
    existence check sees the parameter before its overrides, so the parameter
    resolves, with every metadata field at its default. *)
Example override_parent_unchecked :
  let p := mkParameter None (Some "int") None None (Some (VInteger 1)) None None None None None None
             [mkBlock "region == 'eu'" (mkParameter (Some "missing") None None None None None None None None None None [])] in
  resolve_parameter {["region" := "eu"]} p "p" demo_definitions ∅ =
    Ok (mkResolvedParameter (VInteger 1) "int" None None QM Runtime Technician None None None).
Proof. vm_compute. reflexivity. Qed.
