(* ===== verification/InterfaceSummary.v ===== *)
(** * Interface summaries

    Models [compiler/src/interface_summary.rs]: what a chunk declares and
    references, as the header the linker reads instead of the chunk, and the
    merge of the summaries of a compile set.

    A summary that is filled in place is passed through the functions that add
    to it. *)
From S2P Require Import Prelude Tokens Ast FacetCompare Text Schema.

(** ** Data *)

Record Exports : Type := mkExports {
  ex_definitions : gset string;
  ex_components : gset string;
  ex_artifacts : gset string;
  ex_facets : gset string;
  ex_bindings : gset string;
  ex_catalogues : gset string;
  ex_constraints : gset string;
}.

Notation import_map := (gmap string (gset string)).

Record Imports : Type := mkImports {
  im_components : import_map;
  im_definitions : import_map;
  im_facets : import_map;
  im_bindings : import_map;
  im_catalogues : import_map;
}.

Record Clause : Type := mkClause {
  cl_id : string;
  cl_condition : string;
}.

Record BindingLink : Type := mkBindingLink {
  bl_catalogue : string;
  bl_default : option string;
  derive_source : option string;
  derive_pairs : list (string * string);
  derive_source_count : nat;
}.

Record RequirementLink : Type := mkRequirementLink {
  rl_component : string;
  rl_slot : string;
  rl_binding : string;
  rl_accepts : option (list string);
  rl_condition : option string;
}.

Record InterfaceSummary : Type := mkSummary {
  is_unit : string;
  is_source_id : string;
  is_exports : Exports;
  is_imports : Imports;
  is_facet_domains : gmap string (list string);
  is_open_facets : gset string;
  is_catalogue_entries : gmap string (list string);
  is_binding_links : gmap string BindingLink;
  is_requirements : list RequirementLink;
  is_clauses : list Clause;
  is_selectors : list Clause;
}.

Notation export_map := (gmap string (list string)).

Record MergedExports : Type := mkMergedExports {
  mx_definitions : export_map;
  mx_components : export_map;
  mx_artifacts : export_map;
  mx_facets : export_map;
  mx_bindings : export_map;
  mx_catalogues : export_map;
  mx_constraints : export_map;
}.

Record MergedSummary : Type := mkMerged {
  ms_units : gset string;
  ms_exports : MergedExports;
  ms_imports : Imports;
  ms_facet_domains : gmap string (list string);
  ms_open_facets : gset string;
  ms_catalogue_entries : gmap string (list string);
  ms_binding_links : gmap string BindingLink;
  ms_requirements : list RequirementLink;
  ms_clauses : list Clause;
  ms_selectors : list Clause;
}.

(** The value domain of a declared facet, or of the facet a binding is. *)
Definition declared_domain (m : MergedSummary) (name : string) : option (list string) :=
  match ms_facet_domains m !! name with
  | Some values => Some values
  | None =>
      link ← ms_binding_links m !! name;
      ms_catalogue_entries m !! bl_catalogue link
  end.

(** ** Filling a summary *)

Definition set_imports (s : InterfaceSummary) (i : Imports) : InterfaceSummary :=
  mkSummary (is_unit s) (is_source_id s) (is_exports s) i (is_facet_domains s) (is_open_facets s)
    (is_catalogue_entries s) (is_binding_links s) (is_requirements s) (is_clauses s) (is_selectors s).

Definition set_links (s : InterfaceSummary) (b : gmap string BindingLink) : InterfaceSummary :=
  mkSummary (is_unit s) (is_source_id s) (is_exports s) (is_imports s) (is_facet_domains s) (is_open_facets s)
    (is_catalogue_entries s) b (is_requirements s) (is_clauses s) (is_selectors s).

Definition set_lists (s : InterfaceSummary) (r : list RequirementLink) (c sel : list Clause) : InterfaceSummary :=
  mkSummary (is_unit s) (is_source_id s) (is_exports s) (is_imports s) (is_facet_domains s) (is_open_facets s)
    (is_catalogue_entries s) (is_binding_links s) r c sel.

(** [fn import]. *)
Definition import (m : import_map) (name importer : string) : import_map :=
  <[name := {[importer]} ∪ default ∅ (m !! name)]> m.

Definition import_component (name importer : string) (s : InterfaceSummary) : InterfaceSummary :=
  let i := is_imports s in
  set_imports s (mkImports (import (im_components i) name importer) (im_definitions i) (im_facets i)
                   (im_bindings i) (im_catalogues i)).
Definition import_definition (name importer : string) (s : InterfaceSummary) : InterfaceSummary :=
  let i := is_imports s in
  set_imports s (mkImports (im_components i) (import (im_definitions i) name importer) (im_facets i)
                   (im_bindings i) (im_catalogues i)).
Definition import_facet (name importer : string) (s : InterfaceSummary) : InterfaceSummary :=
  let i := is_imports s in
  set_imports s (mkImports (im_components i) (im_definitions i) (import (im_facets i) name importer)
                   (im_bindings i) (im_catalogues i)).
Definition import_binding (name importer : string) (s : InterfaceSummary) : InterfaceSummary :=
  let i := is_imports s in
  set_imports s (mkImports (im_components i) (im_definitions i) (im_facets i)
                   (import (im_bindings i) name importer) (im_catalogues i)).
Definition import_catalogue (name importer : string) (s : InterfaceSummary) : InterfaceSummary :=
  let i := is_imports s in
  set_imports s (mkImports (im_components i) (im_definitions i) (im_facets i) (im_bindings i)
                   (import (im_catalogues i) name importer)).

Definition operand_tag (o : ConditionOperand) : string :=
  match o with Symbol tag _ => tag | ComparisonLeft tag => tag | ComparisonRight tag => tag end.

Definition collect_condition_facets (condition importer : string) (s : InterfaceSummary) : InterfaceSummary :=
  let trimmed := trim condition in
  if decide (trimmed = String.EmptyString) then s
  else
    match parse_condition_expr trimmed with
    | Err _ => s
    | Ok expr =>
        let names : gset string := list_to_set (operand_tag <$> for_each_condition_operand expr) in
        foldl (λ s name, import_facet name importer s) s (bt_elements names)
    end.

Definition record_selector (id condition : string) (s : InterfaceSummary) : InterfaceSummary :=
  if decide (trim condition = String.EmptyString) then s
  else set_lists s (is_requirements s) (is_clauses s) (is_selectors s ++ [mkClause id condition]).

(** [n] in decimal. *)
Definition decimal (n : nat) : string := pretty.pretty (N.of_nat n).

Fixpoint collect_parameter_links (p : Param) (path : string) (s : InterfaceSummary) : InterfaceSummary :=
  match p with
  | mkParameter i t u d v f l sf a lm r overrides =>
      let s := match i with Some target => import_definition target path s | None => s end in
      (fix blocks (idx : nat) (bs : list ConditionalBlock) (s : InterfaceSummary) : InterfaceSummary :=
         match bs with
         | [] => s
         | mkBlock condition payload :: bs =>
             let branch := path +:+ ".overrides[" +:+ decimal idx +:+ "]" in
             let s := collect_condition_facets condition branch s in
             let s := record_selector branch condition s in
             blocks (S idx) bs (collect_parameter_links payload branch s)
         end) 0%nat overrides s
  end.

Definition add_requirement (id : string) (c : Component) (s : InterfaceSummary) (sr : string * Requirement)
    : InterfaceSummary :=
  let '(slot, requirement) := sr in
  let s := import_binding (rq_binding requirement) ("components." +:+ id +:+ ".requires." +:+ slot) s in
  set_lists s
    (is_requirements s ++
       [mkRequirementLink id slot (rq_binding requirement) (rq_accepts requirement) (cp_condition c)])
    (is_clauses s) (is_selectors s).

Definition collect_component_links (id : string) (c : Component) (s : InterfaceSummary) : InterfaceSummary :=
  let s := foldl (λ s dep, import_component dep id s) s (depends_on c) in
  let s := match cp_condition c with
           | Some condition =>
               let path := "components." +:+ id in
               record_selector path condition (collect_condition_facets condition path s)
           | None => s
           end in
  let s := foldl (add_requirement id c) s (bt_list (requires c)) in
  foldl (λ s kp, collect_parameter_links kp.2 ("components." +:+ id +:+ ".params." +:+ kp.1) s) s
    (bt_list (params c)).

Definition collect_constraint_links (id : string) (c : Constraint) (s : InterfaceSummary) : InterfaceSummary :=
  let s := set_lists s (is_requirements s) (is_clauses s ++ [mkClause id (cn_condition c)]) (is_selectors s) in
  collect_condition_facets (cn_condition c) ("constraints." +:+ id) s.

(** The link of a binding: its first source, ascending, and that source's pairs. *)
Definition link_of (b : Binding) : BindingLink :=
  match bd_derive b with
  | None => mkBindingLink (bd_catalogue b) (bd_default b) None [] 0
  | Some table =>
      match bt_list table with
      | [] => mkBindingLink (bd_catalogue b) (bd_default b) None [] 0
      | (source, pairs) :: _ =>
          mkBindingLink (bd_catalogue b) (bd_default b) (Some source) (bt_list pairs) (size table)
      end
  end.

Definition collect_binding_links (id : string) (b : Binding) (s : InterfaceSummary) : InterfaceSummary :=
  let s := import_catalogue (bd_catalogue b) id s in
  let link := link_of b in
  let s := match derive_source link with Some source => import_facet source ("bindings." +:+ id) s | None => s end in
  set_links s (<[id := link]> (is_binding_links s)).

(** [a.component.cmp(&b.component).then_with(|| a.slot.cmp(&b.slot))]. *)
Definition requirement_le (a b : RequirementLink) : Prop :=
  match String.compare (rl_component a) (rl_component b) with
  | Lt => True
  | Eq => String.le (rl_slot a) (rl_slot b)
  | Gt => False
  end.

#[export] Instance requirement_le_dec a b : Decision (requirement_le a b).
Proof. unfold requirement_le. destruct (String.compare _ _); apply _. Defined.

Definition clause_le (a b : Clause) : Prop := String.le (cl_id a) (cl_id b).

#[export] Instance clause_le_dec a b : Decision (clause_le a b).
Proof. unfold clause_le. apply _. Defined.

Definition sort_requirements (l : list RequirementLink) : list RequirementLink := merge_sort requirement_le l.
Definition sort_clauses (l : list Clause) : list Clause := merge_sort clause_le l.

Section Summarize.
Context `{HashOrder}.

Definition summarize (c : Config) (source_id : string) : InterfaceSummary :=
  let exports := mkExports (dom (definitions c)) (dom (components c)) (dom (artifacts c)) (dom (facets c))
                   (dom (bindings c)) (dom (catalogues c)) (dom (constraints c)) in
  let s := mkSummary (cf_package c) source_id exports (mkImports ∅ ∅ ∅ ∅ ∅)
             (fc_values <$> facets c)
             (dom (filter (λ kf, fc_open kf.2 = true) (facets c)))
             ((λ cat, bt_elements (dom (ct_entries cat))) <$> catalogues c)
             ∅ [] [] [] in
  let s := foldl (λ s kd, collect_parameter_links kd.2 ("definitions." +:+ kd.1) s) s (bt_list (definitions c)) in
  let s := foldl (λ s kc, collect_component_links kc.1 kc.2 s) s (bt_list (components c)) in
  let s := foldl (λ s kc, collect_constraint_links kc.1 kc.2 s) s (hash_order (constraints c)) in
  let s := foldl (λ s kb, collect_binding_links kb.1 kb.2 s) s (hash_order (bindings c)) in
  set_lists s (sort_requirements (is_requirements s)) (sort_clauses (is_clauses s)) (is_selectors s).
End Summarize.

(** ** Merging *)

Definition merge_exports (ids : gset string) (source_id : string) (out : export_map) : export_map :=
  set_fold (λ id out, <[id := default [] (out !! id) ++ [source_id]]> out) out ids.

Definition merge_imports (from out : import_map) : import_map := union_with (λ a b, Some (a ∪ b)) from out.

(** [entry(name).or_insert_with(value)] for every entry. *)
Definition keep_first {A} (from out : gmap string A) : gmap string A := out ∪ from.

Definition merge_one (m : MergedSummary) (s : InterfaceSummary) : MergedSummary :=
  let x := ms_exports m in
  let e := is_exports s in
  let i := ms_imports m in
  let j := is_imports s in
  mkMerged
    (if decide (is_unit s = String.EmptyString) then ms_units m else {[is_unit s]} ∪ ms_units m)
    (mkMergedExports
       (merge_exports (ex_definitions e) (is_source_id s) (mx_definitions x))
       (merge_exports (ex_components e) (is_source_id s) (mx_components x))
       (merge_exports (ex_artifacts e) (is_source_id s) (mx_artifacts x))
       (merge_exports (ex_facets e) (is_source_id s) (mx_facets x))
       (merge_exports (ex_bindings e) (is_source_id s) (mx_bindings x))
       (merge_exports (ex_catalogues e) (is_source_id s) (mx_catalogues x))
       (merge_exports (ex_constraints e) (is_source_id s) (mx_constraints x)))
    (mkImports
       (merge_imports (im_components j) (im_components i))
       (merge_imports (im_definitions j) (im_definitions i))
       (merge_imports (im_facets j) (im_facets i))
       (merge_imports (im_bindings j) (im_bindings i))
       (merge_imports (im_catalogues j) (im_catalogues i)))
    (keep_first (is_facet_domains s) (ms_facet_domains m))
    (ms_open_facets m ∪ is_open_facets s)
    (keep_first (is_catalogue_entries s) (ms_catalogue_entries m))
    (keep_first (is_binding_links s) (ms_binding_links m))
    (ms_requirements m ++ is_requirements s)
    (ms_clauses m ++ is_clauses s)
    (ms_selectors m ++ is_selectors s).

Definition empty_merged : MergedSummary :=
  mkMerged ∅ (mkMergedExports ∅ ∅ ∅ ∅ ∅ ∅ ∅) (mkImports ∅ ∅ ∅ ∅ ∅) ∅ ∅ ∅ ∅ [] [] [].

Definition merge (summaries : list InterfaceSummary) : MergedSummary :=
  let m := foldl merge_one empty_merged summaries in
  mkMerged (ms_units m) (ms_exports m) (ms_imports m) (ms_facet_domains m) (ms_open_facets m)
    (ms_catalogue_entries m) (ms_binding_links m) (sort_requirements (ms_requirements m))
    (sort_clauses (ms_clauses m)) (ms_selectors m).

(** ** Bindings as facets *)

Definition binding_facet (b : Binding) (c : Catalogue) : Facet :=
  mkFacet (bt_elements (dom (ct_entries c))) (bd_default b) false (bd_doc b).

Definition binding_facets (catalogues : gmap string Catalogue) (bindings : gmap string Binding) : gmap string Facet :=
  omap (λ b, binding_facet b <$> catalogues !! bd_catalogue b) bindings.
