(* ===== verification/LinkVerify.v ===== *)
(** * The checks of a linked model

    Models [compiler/src/link_verify.rs] and [verify_complete_model] with
    [effective_facets] of [compiler/src/compiler_core.rs]: inheritance and
    dependency graphs, the symbol charset, facets and the parameters bound to
    them, constraints, catalogues, authored numbers, and the link checks over
    the merged interfaces.

    A refusal is a constructor with what its message names; diagnostic codes and
    hints are a function of it and are left out.  Walks that recurse once per hop
    stop at [MAX_CHAIN_DEPTH], which is their fuel. *)
From S2P Require Import Prelude Tokens Ast Implication FacetCompare SelectionEval Text Schema Resolver InterfaceSummary.

(** ** Scope *)

Inductive Scope : Type := Complete | UnitLocal.

#[export] Instance Scope_eq_dec : EqDecision Scope.
Proof. solve_decision. Defined.

Definition defers_unresolved (s : Scope) : bool := match s with UnitLocal => true | Complete => false end.

(** ** Errors *)

Inductive ConstraintViolation : Type :=
  | UndeclaredFacet (tag : string)
  | UndeclaredValue (tag value : string)
  | UndeclaredComparand (tag : string).

Inductive verify_error : Type :=
  | DefinitionCycle (cycle : list string)
  | DefinitionTooDeep (at_node : string)
  | InheritsUnknown (node parent : string)
  | DependsOnItself (component : string)
  | DependsOnUnknown (component dep : string)
  | NoComponent (component : string)
  | ImplicationFailed (component dep : string) (e : cond_error)
  | ConditionIncompatible (component dep : string)
  | DependencyCycle (cycle : list string)
  | DependencyTooDeep (at_node : string)
  | FacetIdCharset (id : string)
  | FacetValueCharset (id value : string)
  | CatalogueIdCharset (id : string)
  | EntryIdCharset (id entry : string)
  | BindingIdCharset (id : string)
  | FacetEmpty (id : string)
  | FacetDuplicate (id value : string)
  | FacetDefault (id value : string)
  | ConditionValue (tag value : string)
  | OverrideDepth (owner : string)
  | BindsUndeclared (path facet : string)
  | BindsType (path facet type : string)
  | BindsNoType (path facet : string)
  | BindsValue (path facet : string)
  | BindsOverride (path facet field : string)
  | BoundTwice (facet first second : string)
  | ConstraintParse (id : string) (e : cond_error)
  | ConstraintViolates (id : string) (v : ConstraintViolation)
  | CatalogueNoFields (id : string)
  | CatalogueNoEntries (id : string)
  | CatalogueMissing (id entry field : string)
  | CatalogueType (id entry field : string)
  | CatalogueNonFinite (id entry field : string)
  | CatalogueExtra (id entry field : string)
  | NonFinite (path field : string)
  | DuplicateExport (noun id first second : string)
  | BindingIsFacet (id facet_source binding_source : string)
  | BindingDefaultAndDerive (id : string)
  | BindingCatalogue (id catalogue : string)
  | BindingDefault (id value : string)
  | BindingSources (id : string) (count : nat)
  | BindingSource (id source : string)
  | BindingKey (id key source : string)
  | BindingEntry (id entry : string)
  | RequiresUnknown (component slot binding : string)
  | RequiresEmpty (component slot : string)
  | RequiresTwice (component slot entry : string)
  | RequiresEntry (component slot entry : string)
  | RequiresCondition (component slot : string)
  | NoAcceptableEntry (binding : string) (lists : list string)
  | WalkFuel.

Notation verified := (result verify_error unit).

(** A [for] loop whose body may refuse. *)
Fixpoint check_each {A} (f : A → verified) (l : list A) : verified :=
  match l with
  | [] => Ok tt
  | a :: l => _ ← f a; check_each f l
  end.

Definition depth_ok (depth : nat) (owner : string) : verified :=
  map_err (λ _, OverrideDepth owner) (ensure_override_depth depth owner).

(** ** Graphs *)

Inductive VisitState : Type := Visiting | Done.

#[export] Instance VisitState_eq_dec : EqDecision VisitState.
Proof. solve_decision. Defined.

Notation visit_states := (gmap string VisitState).

(** [stack[stack.iter().position(..).unwrap_or(0)..]] and the node again. *)
Definition cycle_from (stack : list string) (node : string) : list string :=
  match list_find (λ n, n = node) stack with
  | Some (i, _) => drop i stack ++ [node]
  | None => stack ++ [node]
  end.

(** The stack is popped before the walk returns, so it is an argument. *)
Fixpoint detect_definition_cycle (fuel : nat) (definitions : gmap string Param) (scope : Scope)
    (node : string) (states : visit_states) (stack : list string) : result verify_error visit_states :=
  match fuel with
  | O => Err WalkFuel
  | S fuel =>
      match states !! node with
      | Some Visiting => Err (DefinitionCycle (cycle_from stack node))
      | Some Done => Ok states
      | None =>
          let states := <[node := Visiting]> states in
          let stack := stack ++ [node] in
          _ ← bail_if (MAX_CHAIN_DEPTH <? length stack)%nat (DefinitionTooDeep node);
          states ← match definitions !! node ≫= pm_inherits with
                   | Some parent =>
                       match definitions !! parent with
                       | None => _ ← bail_if (negb (defers_unresolved scope)) (InheritsUnknown node parent); Ok states
                       | Some _ => detect_definition_cycle fuel definitions scope parent states stack
                       end
                   | None => Ok states
                   end;
          Ok (<[node := Done]> states)
      end
  end.

Fixpoint visit_all (visit : string → visit_states → result verify_error visit_states) (nodes : list string)
    (states : visit_states) : result verify_error visit_states :=
  match nodes with
  | [] => Ok states
  | n :: nodes => states ← visit n states; visit_all visit nodes states
  end.

Definition walk_fuel : nat := S MAX_CHAIN_DEPTH.

Definition validate_definition_inheritance_scoped (definitions : gmap string Param) (scope : Scope) : verified :=
  _ ← visit_all (λ n states, detect_definition_cycle walk_fuel definitions scope n states [])
        (bt_elements (dom definitions)) ∅;
  Ok tt.

Definition validate_definition_inheritance (definitions : gmap string Param) : verified :=
  validate_definition_inheritance_scoped definitions Complete.

Fixpoint detect_cycle (fuel : nat) (edges : gmap string (list string)) (node : string) (states : visit_states)
    (stack : list string) : result verify_error visit_states :=
  match fuel with
  | O => Err WalkFuel
  | S fuel =>
      match states !! node with
      | Some Visiting => Err (DependencyCycle (cycle_from stack node))
      | Some Done => Ok states
      | None =>
          let states := <[node := Visiting]> states in
          let stack := stack ++ [node] in
          _ ← bail_if (MAX_CHAIN_DEPTH <? length stack)%nat (DependencyTooDeep node);
          states ← match edges !! node with
                   | Some deps => visit_all (λ dep states, detect_cycle fuel edges dep states stack) deps states
                   | None => Ok states
                   end;
          Ok (<[node := Done]> states)
      end
  end.

(** [seen.insert(dep)]: the first of each. *)
Fixpoint first_of_each (seen : gset string) (l : list string) : list string :=
  match l with
  | [] => []
  | x :: l => if decide (x ∈ seen) then first_of_each seen l else x :: first_of_each ({[x]} ∪ seen) l
  end.

Section Dependencies.
Context `{HashOrder}.

Definition check_edge_target (components : gmap string Component) (scope : Scope) (name dep : string) : verified :=
  _ ← bail_if (bool_decide (name = dep)) (DependsOnItself name);
  bail_if (negb (declares (components !! dep)) && negb (defers_unresolved scope)) (DependsOnUnknown name dep).

Definition check_edge_conditions (components : gmap string Component) (scope : Scope) (name : string)
    (comp : Component) (dep : string) : verified :=
  match components !! dep with
  | None => if defers_unresolved scope then Ok tt else Err (NoComponent dep)
  | Some dep_comp =>
      implies ← map_err (ImplicationFailed name dep)
                  (condition_implies_typed (cp_condition comp) (cp_condition dep_comp));
      bail_if (negb implies) (ConditionIncompatible name dep)
  end.

Definition validate_component_dependencies_scoped (components : gmap string Component) (scope : Scope) : verified :=
  let edges := (λ c, first_of_each ∅ (depends_on c)) <$> components in
  _ ← check_each (λ nd, check_each (check_edge_target components scope nd.1) nd.2) (hash_order edges);
  _ ← check_each (λ nd,
        comp ← ok_or (components !! nd.1) (NoComponent nd.1);
        check_each (check_edge_conditions components scope nd.1 comp) nd.2) (hash_order edges);
  _ ← visit_all (λ n states, detect_cycle walk_fuel edges n states []) (bt_elements (dom components)) ∅;
  Ok tt.

Definition validate_component_dependencies (components : gmap string Component) : verified :=
  validate_component_dependencies_scoped components Complete.
End Dependencies.

(** ** Symbols *)

Definition is_alnum_lower (b : ascii) : bool := is_ascii_lowercase b || is_ascii_digit b.

Fixpoint snake_walk (l : list ascii) : bool :=
  match l with
  | [] => true
  | b :: l =>
      if is_alnum_lower b then snake_walk l
      else if Ascii.eqb b "_"%char then
        match l with
        | [] => true
        | next :: l => is_alnum_lower next && snake_walk l
        end
      else false
  end.

Definition is_snake_id (id : string) : bool :=
  match bytes_of id with
  | [] => false
  | first :: l => is_ascii_lowercase first && snake_walk l
  end.

Definition is_token_byte (b : ascii) : bool :=
  is_ascii_lowercase b || is_ascii_digit b || byte_in 65 90 b ||
  Ascii.eqb b "."%char || Ascii.eqb b "_"%char || Ascii.eqb b "-"%char.

Definition is_symbol_token (value : string) : bool :=
  match bytes_of value with [] => false | l => forallb is_token_byte l end.

Definition check_facet_symbols (id : string) (f : Facet) : verified :=
  _ ← bail_if (negb (is_snake_id id)) (FacetIdCharset id);
  check_each (λ v, bail_if (negb (is_symbol_token v)) (FacetValueCharset id v)) (fc_values f).

Definition check_catalogue_symbols (id : string) (c : Catalogue) : verified :=
  _ ← bail_if (negb (is_snake_id id)) (CatalogueIdCharset id);
  check_each (λ e, bail_if (negb (is_snake_id e)) (EntryIdCharset id e)) (bt_elements (dom (ct_entries c))).

Definition check_binding_id (id : string) : verified := bail_if (negb (is_snake_id id)) (BindingIdCharset id).

Definition validate_symbol_charset (facets : gmap string Facet) (catalogues : gmap string Catalogue)
    (bindings : gset string) : verified :=
  _ ← check_each (λ kc, check_catalogue_symbols kc.1 kc.2) (bt_list catalogues);
  _ ← check_each check_binding_id (bt_elements bindings);
  check_each (λ kf, check_facet_symbols kf.1 kf.2) (bt_list facets).

(** ** Conditions of the model *)

Fixpoint collect_parameter_conditions (p : Param) (owner : string) (depth : nat) (out : list string)
    : result verify_error (list string) :=
  match p with
  | mkParameter i t u d v f l s a lm r overrides =>
      _ ← depth_ok depth owner;
      (fix blocks (bs : list ConditionalBlock) (out : list string) : result verify_error (list string) :=
         match bs with
         | [] => Ok out
         | mkBlock condition payload :: bs =>
             out ← collect_parameter_conditions payload owner (S depth) (out ++ [condition]);
             blocks bs out
         end) overrides out
  end.

Fixpoint collect_params_conditions (ps : list (string * Param)) (out : list string) : result verify_error (list string) :=
  match ps with
  | [] => Ok out
  | (id, p) :: ps => out ← collect_parameter_conditions p id 0 out; collect_params_conditions ps out
  end.

Fixpoint collect_components_conditions (cs : list (string * Component)) (out : list string)
    : result verify_error (list string) :=
  match cs with
  | [] => Ok out
  | (_, c) :: cs =>
      let out := match cp_condition c with Some condition => out ++ [condition] | None => out end in
      out ← collect_params_conditions (bt_list (params c)) out;
      collect_components_conditions cs out
  end.

Definition collect_model_conditions (components : gmap string Component) (definitions : gmap string Param)
    : result verify_error (list string) :=
  out ← collect_params_conditions (bt_list definitions) [];
  collect_components_conditions (bt_list components) out.

(** ** Facets *)

(** The first value that is repeated. *)
Fixpoint first_duplicate (seen : gset string) (l : list string) : option string :=
  match l with
  | [] => None
  | x :: l => if decide (x ∈ seen) then Some x else first_duplicate ({[x]} ∪ seen) l
  end.

Definition check_facet_shape (id : string) (f : Facet) : verified :=
  _ ← check_facet_symbols id f;
  _ ← bail_if (bool_decide (fc_values f = [])) (FacetEmpty id);
  _ ← match first_duplicate ∅ (fc_values f) with Some v => Err (FacetDuplicate id v) | None => Ok tt end;
  match fc_default f with
  | Some d => bail_if (negb (bool_decide (d ∈ fc_values f))) (FacetDefault id d)
  | None => Ok tt
  end.

(** Outside the domain of a closed facet. *)
Definition outside_closed (closed : gmap string Facet) (tv : string * string) : bool :=
  match closed !! tv.1 with Some f => negb (bool_decide (tv.2 ∈ fc_values f)) | None => false end.

Definition check_condition_values (closed : gmap string Facet) (condition : string) : verified :=
  let trimmed := trim condition in
  if decide (trimmed = String.EmptyString) then Ok tt
  else
    match parse_condition_expr trimmed with
    | Err _ => Ok tt
    | Ok expr =>
        match List.find (outside_closed closed) (for_each_eq_predicate expr) with
        | Some (tag, value) => Err (ConditionValue tag value)
        | None => Ok tt
        end
    end.

Definition validate_facets (facets : gmap string Facet) (components : gmap string Component)
    (definitions : gmap string Param) : verified :=
  _ ← check_each (λ kf, check_facet_shape kf.1 kf.2) (bt_list facets);
  let closed := filter (λ kf, fc_open kf.2 = false) facets in
  if decide (closed = ∅) then Ok tt
  else
    conditions ← collect_model_conditions components definitions;
    check_each (check_condition_values closed) conditions.

(** ** Parameters bound to facets *)

Fixpoint collect_declared_types (p : Param) (owner : string) (depth : nat) (out : list string)
    : result verify_error (list string) :=
  match p with
  | mkParameter i t u d v f l s a lm r overrides =>
      _ ← depth_ok depth owner;
      let out := match t with Some declared => out ++ [declared] | None => out end in
      (fix blocks (bs : list ConditionalBlock) (out : list string) : result verify_error (list string) :=
         match bs with
         | [] => Ok out
         | mkBlock _ payload :: bs =>
             out ← collect_declared_types payload owner (S depth) out;
             blocks bs out
         end) overrides out
  end.

Fixpoint override_sets_value_or_facet (p : Param) (owner : string) (depth : nat)
    : result verify_error (option string) :=
  match p with
  | mkParameter i t u d v f l s a lm r overrides =>
      _ ← depth_ok depth owner;
      (fix blocks (bs : list ConditionalBlock) : result verify_error (option string) :=
         match bs with
         | [] => Ok None
         | mkBlock _ payload :: bs =>
             if declares (pm_value payload) then Ok (Some "value")
             else if declares (pm_facet payload) then Ok (Some "facet")
             else
               found ← override_sets_value_or_facet payload owner (S depth);
               match found with Some field => Ok (Some field) | None => blocks bs end
         end) overrides
  end.

(** The runtime path of a parameter. *)
Definition runtime_path (comp param : string) : string := "component." +:+ comp +:+ ".param." +:+ param.

Definition check_bound_parameter (facets : gmap string Facet) (scope : Scope) (comp key : string) (p : Param)
    (binders : gmap string string) : result verify_error (gmap string string) :=
  match pm_facet p with
  | None => Ok binders
  | Some facet =>
      let path := runtime_path comp key in
      _ ← bail_if (negb (declares (facets !! facet))) (BindsUndeclared path facet);
      declared_types ← collect_declared_types p key 0 [];
      _ ← match List.find (λ t, negb (bool_decide (t = "string"))) declared_types with
          | Some other => Err (BindsType path facet other)
          | None => bail_if (bool_decide (declared_types = [])) (BindsNoType path facet)
          end;
      _ ← bail_if (declares (pm_value p)) (BindsValue path facet);
      found ← override_sets_value_or_facet p key 0;
      _ ← match found with Some field => Err (BindsOverride path facet field) | None => Ok tt end;
      if defers_unresolved scope then Ok binders
      else
        match binders !! facet with
        | Some first => Err (BoundTwice facet first path)
        | None => Ok (<[facet := path]> binders)
        end
  end.

Fixpoint check_bound_all (facets : gmap string Facet) (scope : Scope) (ps : list (string * string * Param))
    (binders : gmap string string) : result verify_error (gmap string string) :=
  match ps with
  | [] => Ok binders
  | (comp, key, p) :: ps =>
      binders ← check_bound_parameter facets scope comp key p binders;
      check_bound_all facets scope ps binders
  end.

(** Every component's parameters, ascending. *)
Definition all_params (components : gmap string Component) : list (string * string * Param) :=
  flat_map (λ kc, (λ kp, (kc.1, kp.1, kp.2)) <$> bt_list (params kc.2)) (bt_list components).

Definition validate_facet_bindings_scoped (components : gmap string Component) (facets : gmap string Facet)
    (scope : Scope) : verified :=
  _ ← check_bound_all facets scope (all_params components) ∅; Ok tt.

(** ** Constraints *)

Definition operand_violation (facets : gmap string Facet) (o : ConditionOperand) : option ConstraintViolation :=
  match o with
  | Symbol tag value =>
      match facets !! tag with
      | None => Some (UndeclaredFacet tag)
      | Some f =>
          if negb (fc_open f) && negb (bool_decide (value ∈ fc_values f)) then Some (UndeclaredValue tag value)
          else None
      end
  | ComparisonLeft tag => if declares (facets !! tag) then None else Some (UndeclaredFacet tag)
  | ComparisonRight tag => if declares (facets !! tag) then None else Some (UndeclaredComparand tag)
  end.

(** The first operand at fault, in source order. *)
Definition first_violation (facets : gmap string Facet) (e : ConditionExpr) : option ConstraintViolation :=
  head (omap (operand_violation facets) (for_each_condition_operand e)).

Definition deferred (v : ConstraintViolation) : bool :=
  match v with UndeclaredValue _ _ => false | _ => true end.

Definition check_constraint (facets : gmap string Facet) (scope : Scope) (id : string) (c : Constraint) : verified :=
  expr ← map_err (ConstraintParse id) (parse_condition_expr (trim (cn_condition c)));
  match first_violation facets expr with
  | Some v => if defers_unresolved scope && deferred v then Ok tt else Err (ConstraintViolates id v)
  | None => Ok tt
  end.

Definition validate_constraints_scoped (constraints : gmap string Constraint) (facets : gmap string Facet)
    (scope : Scope) : verified :=
  check_each (λ kc, check_constraint facets scope kc.1 kc.2) (bt_list constraints).

Definition validate_constraints (constraints : gmap string Constraint) (facets : gmap string Facet) : verified :=
  validate_constraints_scoped constraints facets Complete.

(** ** Catalogues and numbers *)

Definition value_matches (v : Value) (declared : CatalogueFieldType) : bool :=
  match declared, v with
  | FInteger, VInteger _ => true
  | FFloat, (VFloat _ | VInteger _) => true
  | FBoolean, VBoolean _ => true
  | FString, VString _ => true
  | _, _ => false
  end.

Definition is_non_finite (v : Value) : bool := match v with VFloat bits => negb (is_finite bits) | _ => false end.

Definition check_entry_field (id entry_id : string) (entry : gmap string Value) (kf : string * CatalogueField) : verified :=
  value ← ok_or (entry !! kf.1) (CatalogueMissing id entry_id kf.1);
  _ ← bail_if (negb (value_matches value (fd_type kf.2))) (CatalogueType id entry_id kf.1);
  bail_if (is_non_finite value) (CatalogueNonFinite id entry_id kf.1).

Definition check_entry (id : string) (c : Catalogue) (ke : string * gmap string Value) : verified :=
  _ ← check_each (check_entry_field id ke.1 ke.2) (bt_list (ct_fields c));
  check_each (λ key, bail_if (negb (declares (ct_fields c !! key))) (CatalogueExtra id ke.1 key))
    (bt_elements (dom ke.2)).

Definition check_catalogue (id : string) (c : Catalogue) : verified :=
  _ ← check_catalogue_symbols id c;
  _ ← bail_if (bool_decide (ct_fields c = ∅)) (CatalogueNoFields id);
  _ ← bail_if (bool_decide (ct_entries c = ∅)) (CatalogueNoEntries id);
  check_each (check_entry id c) (bt_list (ct_entries c)).

Definition validate_catalogues (catalogues : gmap string Catalogue) : verified :=
  check_each (λ kc, check_catalogue kc.1 kc.2) (bt_list catalogues).

Definition reject_non_finite (v : option Value) (path field : string) : verified :=
  match v with Some v => bail_if (is_non_finite v) (NonFinite path field) | None => Ok tt end.

Fixpoint validate_parameter_floats (p : Param) (path : string) (depth : nat) : verified :=
  match p with
  | mkParameter i t u d v f l s a lm r overrides =>
      _ ← depth_ok depth path;
      _ ← reject_non_finite v path "value";
      _ ← match lm with
          | Some limits =>
              _ ← reject_non_finite (lim_min limits) path "limits.min";
              reject_non_finite (lim_max limits) path "limits.max"
          | None => Ok tt
          end;
      (fix blocks (idx : nat) (bs : list ConditionalBlock) : verified :=
         match bs with
         | [] => Ok tt
         | mkBlock _ payload :: bs =>
             _ ← validate_parameter_floats payload (path +:+ ".overrides[" +:+ decimal idx +:+ "]") (S depth);
             blocks (S idx) bs
         end) 0%nat overrides
  end.

Definition validate_parameter_values (definitions : gmap string Param) (components : gmap string Component) : verified :=
  _ ← check_each (λ kp, validate_parameter_floats kp.2 ("definitions." +:+ kp.1) 0) (bt_list definitions);
  check_each (λ ckp, validate_parameter_floats ckp.2 (param_path ckp.1.1 ckp.1.2) 0) (all_params components).

(** ** Links *)

Definition check_unique (index : export_map) (noun : string) : verified :=
  check_each (λ ks, match ks.2 with
                    | first :: second :: _ => Err (DuplicateExport noun ks.1 first second)
                    | _ => Ok tt
                    end) (bt_list index).

Definition validate_unique_exports (m : MergedSummary) : verified :=
  let x := ms_exports m in
  _ ← check_unique (mx_components x) "Component";
  _ ← check_unique (mx_definitions x) "Definition";
  _ ← check_unique (mx_artifacts x) "Artifact";
  _ ← check_unique (mx_catalogues x) "Catalogue";
  _ ← check_unique (mx_facets x) "Facet";
  _ ← check_unique (mx_bindings x) "Binding";
  check_each (λ ks,
    match mx_facets x !! ks.1 with
    | Some facet_sources =>
        Err (BindingIsFacet ks.1 (default "<unknown>" (head facet_sources)) (default "<unknown>" (head ks.2)))
    | None => Ok tt
    end) (bt_list (mx_bindings x)).

Definition check_derive_pair (id source : string) (domain entries : list string) (ke : string * string) : verified :=
  _ ← bail_if (negb (bool_decide (ke.1 ∈ domain))) (BindingKey id ke.1 source);
  bail_if (negb (bool_decide (ke.2 ∈ entries))) (BindingEntry id ke.2).

Definition check_binding_link (m : MergedSummary) (scope : Scope) (id : string) (link : BindingLink) : verified :=
  _ ← bail_if (declares (bl_default link) && (0 <? derive_source_count link)%nat) (BindingDefaultAndDerive id);
  match ms_catalogue_entries m !! bl_catalogue link with
  | None => if defers_unresolved scope then Ok tt else Err (BindingCatalogue id (bl_catalogue link))
  | Some entries =>
      _ ← match bl_default link with
          | Some d => bail_if (negb (bool_decide (d ∈ entries))) (BindingDefault id d)
          | None => Ok tt
          end;
      _ ← bail_if (1 <? derive_source_count link)%nat (BindingSources id (derive_source_count link));
      match derive_source link with
      | None => Ok tt
      | Some source =>
          match declared_domain m source with
          | None => if defers_unresolved scope then Ok tt else Err (BindingSource id source)
          | Some domain => check_each (check_derive_pair id source domain entries) (derive_pairs link)
          end
      end
  end.

Definition validate_binding_links (m : MergedSummary) (scope : Scope) : verified :=
  check_each (λ kl, check_binding_link m scope kl.1 kl.2) (bt_list (ms_binding_links m)).

Fixpoint check_accepts (r : RequirementLink) (entries : list string) (seen : gset string) (accepts : list string)
    : verified :=
  match accepts with
  | [] => Ok tt
  | entry :: accepts =>
      _ ← bail_if (bool_decide (entry ∈ seen)) (RequiresTwice (rl_component r) (rl_slot r) entry);
      _ ← bail_if (negb (bool_decide (entry ∈ entries))) (RequiresEntry (rl_component r) (rl_slot r) entry);
      check_accepts r entries ({[entry]} ∪ seen) accepts
  end.

Definition check_requirement_condition (r : RequirementLink) : verified :=
  match rl_condition r with
  | None => Ok tt
  | Some condition =>
      let trimmed := trim condition in
      if decide (trimmed = String.EmptyString) then Ok tt
      else
        match parse_condition_expr trimmed with
        | Err _ => Err (RequiresCondition (rl_component r) (rl_slot r))
        | Ok _ => Ok tt
        end
  end.

Definition check_requirement (m : MergedSummary) (scope : Scope) (r : RequirementLink) : verified :=
  match ms_binding_links m !! rl_binding r with
  | None =>
      if defers_unresolved scope then Ok tt
      else Err (RequiresUnknown (rl_component r) (rl_slot r) (rl_binding r))
  | Some link =>
      let entries := default [] (ms_catalogue_entries m !! bl_catalogue link) in
      match rl_accepts r with
      | None => Ok tt
      | Some accepts =>
          _ ← bail_if (bool_decide (accepts = [])) (RequiresEmpty (rl_component r) (rl_slot r));
          _ ← check_accepts r entries ∅ accepts;
          check_requirement_condition r
      end
  end.

(** [a.join(sep)] of an [accepts] list, with the site. *)
Definition accepts_site (r : RequirementLink) (accepts : list string) : string :=
  rl_component r +:+ "." +:+ rl_slot r +:+ " accepts [" +:+ join_with ", " accepts +:+ "]".

(** The entries every list so far leaves, and the lists. *)
Definition narrow (m : MergedSummary) (st : gmap string (list string) * gmap string (list string))
    (r : RequirementLink) : gmap string (list string) * gmap string (list string) :=
  match rl_accepts r, ms_binding_links m !! rl_binding r with
  | Some accepts, Some link =>
      let '(surviving, narrowed) := st in
      let entry := match surviving !! rl_binding r with
                   | Some entries => entries
                   | None => default [] (ms_catalogue_entries m !! bl_catalogue link)
                   end in
      (<[rl_binding r := List.filter (λ c, bool_decide (c ∈ accepts)) entry]> surviving,
       <[rl_binding r := default [] (narrowed !! rl_binding r) ++ [accepts_site r accepts]]> narrowed)
  | _, _ => st
  end.

Definition validate_accepts_intersection (m : MergedSummary) : verified :=
  let '(surviving, narrowed) := foldl (narrow m) (∅, ∅) (ms_requirements m) in
  check_each (λ be, bail_if (bool_decide (be.2 = [])) (NoAcceptableEntry be.1 (default [] (narrowed !! be.1))))
    (bt_list surviving).

Definition validate_requirements (m : MergedSummary) (scope : Scope) : verified :=
  _ ← check_each (check_requirement m scope) (ms_requirements m);
  validate_accepts_intersection m.

Definition validate_merged_summary (m : MergedSummary) (scope : Scope) : verified :=
  _ ← validate_unique_exports m;
  _ ← validate_binding_links m scope;
  validate_requirements m scope.

Definition validate_link_summary (summaries : list InterfaceSummary) : verified :=
  validate_merged_summary (merge summaries) Complete.

Definition validate_linked_summary (m : MergedSummary) : verified := validate_merged_summary m Complete.

Definition validate_object_summary (m : MergedSummary) : verified := validate_merged_summary m UnitLocal.

(** ** The whole model *)

Definition effective_facets (raw : Config) : gmap string Facet :=
  binding_facets (catalogues raw) (bindings raw) ∪ facets raw.

Definition verify_complete_model `{HashOrder} (raw : Config) (summaries : list InterfaceSummary) : verified :=
  _ ← validate_definition_inheritance (definitions raw);
  _ ← validate_component_dependencies (components raw);
  _ ← validate_catalogues (catalogues raw);
  _ ← validate_parameter_values (definitions raw) (components raw);
  _ ← validate_link_summary summaries;
  let declared := effective_facets raw in
  _ ← validate_facets declared (components raw) (definitions raw);
  _ ← validate_facet_bindings_scoped (components raw) declared Complete;
  validate_constraints (constraints raw) declared.
