(* ===== verification/LinkGraph.v ===== *)
(** * Cycle detection

    The two walks of [LinkVerify.v] over the inheritance graph of the definitions
    and the dependency graph of the components are one depth-first search; the
    search decides acyclicity: an accepted graph has no cycle and no missing
    node, and a refusal names a real cycle, a real missing node or a real chain
    longer than the ceiling. *)
From S2P Require Import Prelude Tokens Ast Implication FacetCompare SelectionEval Text Schema Resolver.
From S2P Require Import ResolverProps InterfaceSummary LinkVerify.

(** ** Walks *)

(** Neighbours in the list are related. *)
Definition is_walk (R : string → string → Prop) (l : list string) : Prop :=
  ∀ i x y, l !! i = Some x → l !! S i = Some y → R x y.

(** A walk of at least one step that comes back. *)
Definition closed_walk (R : string → string → Prop) (l : list string) : Prop :=
  is_walk R l ∧ 2 ≤ length l ∧ head l = last l.

Section Walks.
Context (R : string → string → Prop).

Lemma walk_nil : is_walk R [].
Proof. intros i x y Hx. by rewrite lookup_nil in Hx. Qed.

Lemma walk_drop n l : is_walk R l → is_walk R (drop n l).
Proof.
  intros Hl i x y. rewrite !lookup_drop. intros Hx Hy. apply (Hl (n + i)); [done|]. by rewrite Nat.add_succ_r in Hy.
Qed.

Lemma walk_snoc l n : is_walk R l → (∀ x, last l = Some x → R x n) → is_walk R (l ++ [n]).
Proof.
  intros Hl Hn i x y Hx Hy. destruct (decide (S i < length l)) as [Hlt|Hge].
  - rewrite lookup_app_l in Hx, Hy by lia. by apply (Hl i).
  - assert (S i = length l) as Hi.
    { apply lookup_lt_Some in Hy as Hy'. rewrite length_app in Hy'. cbn in Hy'. lia. }
    rewrite lookup_app_r in Hy by lia. rewrite Hi, Nat.sub_diag in Hy. injection Hy as <-.
    apply Hn. rewrite last_lookup. rewrite lookup_app_l in Hx by lia. rewrite <-Hi. exact Hx.
Qed.

Lemma walk_rtc l x y : is_walk R (x :: l) → last (x :: l) = Some y → rtc R x y.
Proof.
  revert x. induction l as [|z l IH]; intros x Hw Hl; [injection Hl as <-; constructor|].
  eapply rtc_l; [by apply (Hw 0)|]. apply IH; [by apply (walk_drop 1) in Hw|done].
Qed.

(** Such a walk is a cycle. *)
Lemma closed_walk_tc l : closed_walk R l → ∃ x, tc R x x.
Proof.
  intros (Hw & Hlen & He). destruct l as [|x [|y l]]; cbn in Hlen; [lia|lia|]. exists x.
  eapply tc_rtc_r; [apply tc_once, (Hw 0 x y); done|]. apply (walk_rtc l); [by apply (walk_drop 1) in Hw|].
  symmetry. exact He.
Qed.

(** The cycle the walks report. *)
Lemma cycle_from_closed stack node :
  is_walk R stack → node ∈ stack → (∀ x, last stack = Some x → R x node) → closed_walk R (cycle_from stack node).
Proof.
  intros Hw Hin Hl. unfold cycle_from.
  destruct (list_find_elem_of (λ n, n = node) stack node Hin eq_refl) as [[i n] Hf]. rewrite Hf.
  apply list_find_Some in Hf as (Hi & -> & _). apply lookup_lt_Some in Hi as Hlt.
  split_and!.
  - apply walk_snoc; [by apply walk_drop|]. intros x Hx. apply Hl.
    rewrite last_lookup, length_drop, lookup_drop in Hx. rewrite last_lookup, <-Hx. f_equal. lia.
  - rewrite length_app, length_drop. cbn. lia.
  - rewrite last_snoc, head_app. rewrite head_lookup, lookup_drop, Nat.add_0_r, Hi. done.
Qed.
End Walks.

(** ** The search *)

Section Search.
Context (succ : string → result verify_error (list string)).
Context (cyc : list string → verify_error) (deep : string → verify_error).

Fixpoint search (fuel : nat) (node : string) (states : visit_states) (stack : list string)
    : result verify_error visit_states :=
  match fuel with
  | O => Err WalkFuel
  | S fuel =>
      match states !! node with
      | Some Visiting => Err (cyc (cycle_from stack node))
      | Some Done => Ok states
      | None =>
          _ ← bail_if (MAX_CHAIN_DEPTH <? length (stack ++ [node]))%nat (deep node);
          next ← succ node;
          states ← visit_all (λ n states, search fuel n states (stack ++ [node])) next (<[node := Visiting]> states);
          Ok (<[node := Done]> states)
      end
  end.

Definition edge (x y : string) : Prop := ∃ l, succ x = Ok l ∧ y ∈ l.

(** What every call finds and keeps. *)
Record searching (states : visit_states) (stack : list string) : Prop := {
  sg_visiting : ∀ x, states !! x = Some Visiting ↔ x ∈ stack;
  sg_done : ∀ x, states !! x = Some Done → ∃ l, succ x = Ok l ∧ ∀ y, y ∈ l → states !! y = Some Done;
  sg_acyclic : ∀ x, states !! x = Some Done → ¬ tc edge x x;
  sg_nodup : NoDup stack;
  sg_walk : is_walk edge stack;
}.

(** Done nodes stay done. *)
Definition grows (states states' : visit_states) : Prop :=
  ∀ x, states !! x = Some Done → states' !! x = Some Done.

Definition comes_next (stack : list string) (node : string) : Prop := ∀ x, last stack = Some x → edge x node.

(** Why a search refuses. *)
Definition refuses (e : verify_error) : Prop :=
  (∃ c, e = cyc c ∧ closed_walk edge c) ∨
  (∃ n chain, e = deep n ∧ is_walk edge chain ∧ NoDup chain ∧ MAX_CHAIN_DEPTH < length chain ∧ last chain = Some n) ∨
  (∃ x, succ x = Err e).

Lemma done_closed states stack x y :
  searching states stack → states !! x = Some Done → rtc edge x y → states !! y = Some Done.
Proof.
  intros Hs Hx Hr. induction Hr as [|x y z (l & Hl & Hy) _ IH]; [done|]. apply IH.
  destruct (sg_done _ _ Hs x Hx) as (l' & Hl' & Hall). rewrite Hl in Hl'. injection Hl' as <-. auto.
Qed.

Lemma searching_push states stack node :
  searching states stack → states !! node = None → comes_next stack node →
  searching (<[node := Visiting]> states) (stack ++ [node]).
Proof.
  intros Hs Hn Hc. assert (Hni : node ∉ stack) by (rewrite <-(sg_visiting _ _ Hs); by rewrite Hn). split.
  - intros x. rewrite elem_of_app, list_elem_of_singleton, lookup_insert. case_decide; subst.
    + split; auto.
    + rewrite (sg_visiting _ _ Hs). naive_solver.
  - intros x. rewrite lookup_insert. case_decide; [done|]. intros Hx.
    destruct (sg_done _ _ Hs x Hx) as (l & Hl & Hall). exists l. split; [done|]. intros y Hy.
    rewrite lookup_insert_ne; [auto|]. intros <-. rewrite (Hall _ Hy) in Hn. done.
  - intros x. rewrite lookup_insert. case_decide; [done|]. apply Hs.
  - apply NoDup_app. split_and!; [apply Hs| |apply NoDup_singleton]. set_solver.
  - apply walk_snoc; [apply Hs|done].
Qed.

(** Leaving a node whose successors are done. *)
Lemma searching_pop states stack node next :
  searching states (stack ++ [node]) → succ node = Ok next → (∀ y, y ∈ next → states !! y = Some Done) →
  searching (<[node := Done]> states) stack.
Proof.
  intros Hs Hnext Hall.
  pose proof (sg_nodup _ _ Hs) as (Hnd & Hdis & _)%NoDup_app.
  assert (Hni : node ∉ stack) by (intros Hin; by apply (Hdis node Hin), list_elem_of_singleton).
  assert (Hv : states !! node = Some Visiting) by (apply (sg_visiting _ _ Hs); set_solver).
  split.
  - intros x. rewrite lookup_insert. case_decide; subst; [naive_solver|].
    rewrite (sg_visiting _ _ Hs), elem_of_app, list_elem_of_singleton. naive_solver.
  - intros x. rewrite lookup_insert. case_decide; subst.
    + intros _. exists next. split; [done|]. intros y Hy. rewrite lookup_insert. by case_decide; [|apply Hall].
    + intros Hx. destruct (sg_done _ _ Hs x Hx) as (l & Hl & Hd). exists l. split; [done|]. intros y Hy.
      rewrite lookup_insert. by case_decide; [|apply Hd].
  - intros x. rewrite lookup_insert. case_decide; subst; [|apply Hs].
    intros _ Hc. assert (∃ y, edge x y ∧ rtc edge y x) as (y & (l & Hl & Hy) & Hr).
    { inversion Hc as [? ? He|? y ? He Ht]; subst; [exists x; by split; [|constructor]|].
      exists y. split; [done|]. by apply tc_rtc. }
    rewrite Hnext in Hl. injection Hl as <-. apply (done_closed _ _ y x Hs) in Hr; [congruence|]. auto.
  - done.
  - intros i x y Hx Hy. apply (sg_walk _ _ Hs i); by apply lookup_app_l_Some.
Qed.

Definition search_spec (fuel : nat) (node : string) (states : visit_states) (stack : list string) : Prop :=
  match search fuel node states stack with
  | Ok states' => searching states' stack ∧ grows states states' ∧ states' !! node = Some Done
  | Err e => refuses e
  end.

Lemma visit_all_spec fuel stack nodes :
  (∀ node states, searching states stack → comes_next stack node → search_spec fuel node states stack) →
  ∀ states, searching states stack → (∀ n, n ∈ nodes → comes_next stack n) →
  match visit_all (λ n states, search fuel n states stack) nodes states with
  | Ok states' => searching states' stack ∧ grows states states' ∧ ∀ n, n ∈ nodes → states' !! n = Some Done
  | Err e => refuses e
  end.
Proof.
  intros Hstep. induction nodes as [|n nodes IH]; intros states Hs Hnext; cbn [visit_all].
  { split_and!; [done|by intros ?|set_solver]. }
  specialize (Hstep n states Hs (Hnext n (list_elem_of_here _ _))). unfold search_spec in Hstep.
  destruct (search fuel n states stack) as [st|e]; cbn [mbind result_bind]; [|done].
  destruct Hstep as (Hs' & Hg & Hn). specialize (IH st Hs').
  destruct (visit_all _ nodes st) as [st'|e].
  - destruct IH as (H1 & H2 & H3); [set_solver|]. split_and!; [done|by intros x Hx; apply H2, Hg|].
    intros m [->|Hm]%elem_of_cons; auto.
  - apply IH. set_solver.
Qed.

Lemma graph_search_sound fuel node states stack :
  length stack ≤ MAX_CHAIN_DEPTH → MAX_CHAIN_DEPTH < fuel + length stack →
  searching states stack → comes_next stack node → search_spec fuel node states stack.
Proof.
  revert node states stack. induction fuel as [|fuel IH]; intros node states stack Hlen Hfuel Hs Hc; [lia|].
  unfold search_spec. cbn [search]. destruct (states !! node) as [[]|] eqn:En.
  - left. eexists. split; [done|]. apply cycle_from_closed; [apply Hs|by apply (sg_visiting _ _ Hs)|done].
  - split_and!; [done|by intros ?|done].
  - pose proof (searching_push _ _ _ Hs En Hc) as Hs1. unfold bail_if.
    destruct (Nat.ltb_spec MAX_CHAIN_DEPTH (length (stack ++ [node]))) as [Hdeep|Hok]; cbn [mbind result_bind].
    { right. left. exists node, (stack ++ [node]). split_and!; [done|apply Hs1|apply Hs1|done|apply last_snoc]. }
    destruct (succ node) as [next|e] eqn:Enext; cbn [mbind result_bind]; [|right; right; eauto].
    pose proof (visit_all_spec fuel (stack ++ [node]) next) as Hall.
    specialize (Hall ltac:(intros; apply IH; rewrite ?length_app in *; cbn in *; [lia|lia|done|done]) _ Hs1).
    assert (Hnext : ∀ n, n ∈ next → comes_next (stack ++ [node]) n).
    { intros n Hn x. rewrite last_snoc. intros [= <-]. by exists next. }
    specialize (Hall Hnext). destruct (visit_all _ next _) as [st|e]; cbn [mbind result_bind]; [|done].
    destruct Hall as (Hs2 & Hg & Hd). split_and!; [by eapply searching_pop| |apply lookup_insert_eq].
    intros x Hx. rewrite lookup_insert. case_decide; [done|]. apply Hg. rewrite lookup_insert_ne; congruence.
Qed.

Lemma searching_start : searching ∅ [].
Proof. split; try done; [set_solver|apply NoDup_nil_2]. Qed.

(** A whole run: every root searched in turn. *)
Lemma search_roots roots :
  match visit_all (λ n states, search walk_fuel n states []) roots ∅ with
  | Ok _ => ∀ r, r ∈ roots → ¬ tc edge r r ∧ ∀ x, rtc edge r x → ∃ l, succ x = Ok l
  | Err e => refuses e
  end.
Proof.
  pose proof (visit_all_spec walk_fuel [] roots) as Hall.
  assert (Hstep : ∀ node states, searching states [] → comes_next [] node → search_spec walk_fuel node states []).
  { intros. apply graph_search_sound; [cbn; lia|unfold walk_fuel; cbn [length]; lia|done|done]. }
  specialize (Hall Hstep _ searching_start ltac:(by intros n _ x)).
  destruct (visit_all _ roots ∅) as [st|e]; [|done]. destruct Hall as (Hs & _ & Hd). intros r Hr. split.
  - by eapply sg_acyclic; [exact Hs|apply Hd].
  - intros x Hx. apply (done_closed _ _ _ _ Hs (Hd r Hr)) in Hx. destruct (sg_done _ _ Hs x Hx) as (l & Hl & _). eauto.
Qed.
End Search.

(** ** The two graphs *)

Lemma visit_all_ext f g nodes st :
  (∀ n st, f n st = g n st) → visit_all f nodes st = visit_all g nodes st.
Proof.
  intros Hfg. revert st. induction nodes as [|n nodes IH]; intros st; cbn [visit_all]; [done|].
  rewrite Hfg. destruct (g n st); cbn [mbind result_bind]; [apply IH|done].
Qed.

Section Definitions.
Context (defs : gmap string Param) (scope : Scope).

Definition parents (node : string) : result verify_error (list string) :=
  match defs !! node ≫= pm_inherits with
  | Some parent =>
      match defs !! parent with
      | None => _ ← bail_if (negb (defers_unresolved scope)) (InheritsUnknown node parent); Ok []
      | Some _ => Ok [parent]
      end
  | None => Ok []
  end.

Lemma definition_search fuel node st stack :
  detect_definition_cycle fuel defs scope node st stack =
    search parents DefinitionCycle DefinitionTooDeep fuel node st stack.
Proof.
  revert node st stack. induction fuel as [|fuel IH]; intros node st stack; [done|].
  cbn [detect_definition_cycle search]. destruct (st !! node) as [[]|]; [done|done|]. unfold bail_if, parents.
  destruct (MAX_CHAIN_DEPTH <? length (stack ++ [node]))%nat; [done|]. cbn [mbind result_bind].
  destruct (defs !! node ≫= pm_inherits) as [parent|]; [|done].
  destruct (defs !! parent) as [d|]; cbn [mbind result_bind visit_all]; [|by destruct (defers_unresolved scope)].
  rewrite <-IH. by destruct (detect_definition_cycle _ _ _ _ _ _).
Qed.

(** The parent of a definition that is declared here. *)
Definition inherits_here (x y : string) : Prop := inherits defs x y ∧ is_Some (defs !! y).

Lemma parents_edge x y : edge parents x y ↔ inherits_here x y.
Proof.
  assert (Hnil : (∃ l, @Ok verify_error _ [] = Ok l ∧ y ∈ l) ↔ False).
  { split; [|done]. intros (l & [= <-] & Hy). by apply not_elem_of_nil in Hy. }
  unfold edge, inherits_here, inherits, parents. destruct (defs !! x) as [d|] eqn:Ed; cbn.
  2: { rewrite Hnil. split; [done|]. by intros ((d & ? & _) & _). }
  destruct (pm_inherits d) as [p|] eqn:Ep.
  2: { rewrite Hnil. split; [done|]. intros ((d0 & [= <-] & E) & _). congruence. }
  destruct (defs !! p) as [d'|] eqn:Ed'.
  - split; [intros (l & [= <-] & ->%list_elem_of_singleton); eauto 10|].
    intros ((d0 & [= <-] & E) & _). rewrite Ep in E. injection E as <-. exists [p]. by split; [|constructor].
  - split; [|intros ((d0 & [= <-] & E) & [d1 E1]); congruence].
    intros (l & E & Hy). destruct (defers_unresolved scope); cbn in E; [|done]. exfalso. apply Hnil. eauto.
Qed.
End Definitions.

Lemma walk_impl (R S : string → string → Prop) l : (∀ x y, R x y → S x y) → is_walk R l → is_walk S l.
Proof. intros HRS Hl i x y Hx Hy. by apply HRS, (Hl i). Qed.

(** The inheritance check, on every model and in both scopes. *)
Lemma definition_inheritance_spec defs scope :
  match validate_definition_inheritance_scoped defs scope with
  | Ok _ => (∀ x, ¬ tc (inherits_here defs) x x) ∧
      (scope = Complete → ∀ x parent, inherits defs x parent → is_Some (defs !! parent))
  | Err (DefinitionCycle c) => closed_walk (inherits_here defs) c
  | Err (DefinitionTooDeep n) => ∃ chain, is_walk (inherits_here defs) chain ∧ NoDup chain ∧
      MAX_CHAIN_DEPTH < length chain ∧ last chain = Some n
  | Err (InheritsUnknown n parent) => scope = Complete ∧ inherits defs n parent ∧ defs !! parent = None
  | Err _ => False
  end.
Proof.
  unfold validate_definition_inheritance_scoped.
  rewrite (visit_all_ext _ (λ n st, search (parents defs scope) DefinitionCycle DefinitionTooDeep walk_fuel n st []))
    by (intros; apply definition_search).
  pose proof (search_roots (parents defs scope) DefinitionCycle DefinitionTooDeep (bt_elements (dom defs))) as Hs.
  assert (Hedge : ∀ x y, edge (parents defs scope) x y → inherits_here defs x y) by (intros; by eapply parents_edge).
  destruct (visit_all _ _ ∅) as [st|e]; cbn [mbind result_bind].
  - split.
    + intros x Hc. assert (Hx : x ∈ bt_elements (dom defs)).
      { apply elem_of_bt_elements, elem_of_dom. inversion Hc as [? ? ((d & Hd & _) & _)|? ? ? ((d & Hd & _) & _)]; eauto. }
      apply (Hs x Hx). apply (tc_congruence (R := inherits_here defs) id); [|done].
      intros. by apply parents_edge.
    + intros -> x parent (d & Hd & Hp). destruct (Hs x) as [_ Hl]; [apply elem_of_bt_elements, elem_of_dom; eauto|].
      destruct (Hl x) as [l Hx]; [constructor|]. unfold parents in Hx. rewrite Hd in Hx. cbn in Hx. rewrite Hp in Hx.
      destruct (defs !! parent); [eauto|done].
  - destruct Hs as [(c & -> & Hw & Hc)|[(n & chain & -> & Hw & Hr)|(x & Hx)]].
    + split; [|done]. by eapply walk_impl.
    + exists chain. split; [|done]. by eapply walk_impl.
    + unfold parents in Hx. destruct (defs !! x) as [d|] eqn:Ed; cbn in Hx; [|done].
      destruct (pm_inherits d) as [p|] eqn:Ep; [|done]. destruct (defs !! p) eqn:Ed'; [done|].
      destruct scope; cbn in Hx; [|done]. injection Hx as <-. split_and!; [done|by exists d|done].
Qed.

Section Components.
Context (edges : gmap string (list string)).

Definition targets (node : string) : result verify_error (list string) := Ok (default [] (edges !! node)).

Lemma dependency_search fuel node st stack :
  detect_cycle fuel edges node st stack = search targets DependencyCycle DependencyTooDeep fuel node st stack.
Proof.
  revert node st stack. induction fuel as [|fuel IH]; intros node st stack; [done|].
  cbn [detect_cycle search]. destruct (st !! node) as [[]|]; [done|done|]. unfold bail_if, targets.
  destruct (MAX_CHAIN_DEPTH <? length (stack ++ [node]))%nat; [done|]. cbn [mbind result_bind].
  destruct (edges !! node) as [deps|]; cbn [default]; [|done].
  erewrite visit_all_ext; [reflexivity|]. intros. apply IH.
Qed.
End Components.

(** ** Component dependencies *)

Lemma check_each_Ok {A} (f : A → verified) l : check_each f l = Ok tt ↔ ∀ a, a ∈ l → f a = Ok tt.
Proof.
  induction l as [|a l IH]; cbn [check_each]; [split; [by intros _ a Ha%not_elem_of_nil|done]|]. split.
  - intros ([] & Ha & Hl)%bind_Ok b [->|Hb]%elem_of_cons; [done|]. by apply IH.
  - intros Hall. rewrite (Hall a) by constructor. cbn. apply IH. intros b Hb. apply Hall. by constructor.
Qed.

Lemma check_each_Err {A} (f : A → verified) l e : check_each f l = Err e → ∃ a, a ∈ l ∧ f a = Err e.
Proof.
  induction l as [|a l IH]; cbn [check_each]; [done|]. intros [Ha|([] & _ & Hl)]%bind_Err; [exists a; split; [constructor|done]|].
  destruct (IH Hl) as (b & Hb & E). exists b. split; [by constructor|done].
Qed.

Lemma elem_first_of_each seen l x : x ∈ first_of_each seen l ↔ x ∈ l ∧ x ∉ seen.
Proof.
  revert seen. induction l as [|y l IH]; intros seen; cbn [first_of_each]; [set_solver|].
  case_decide as Hy; rewrite ?elem_of_cons, IH, ?elem_of_union, ?elem_of_singleton.
  - split; [naive_solver|]. intros [[->|?] ?]; [done|naive_solver].
  - split; [intros [->|[? ?]]; [naive_solver|naive_solver]|].
    intros [[->|?] ?]; [by left|]. destruct (decide (x = y)); naive_solver.
Qed.

(** What one edge needs. *)
Definition edge_ok (cs : gmap string Component) (scope : Scope) (x y : string) : Prop :=
  x ≠ y ∧ ∀ c, cs !! x = Some c →
    match cs !! y with
    | Some d => condition_implies_typed (cp_condition c) (cp_condition d) = Ok true
    | None => scope = UnitLocal
    end.

Definition dependency_edges (cs : gmap string Component) : gmap string (list string) :=
  (λ c, first_of_each ∅ (depends_on c)) <$> cs.

Lemma depends_edges cs x y : depends cs x y ↔ ∃ l, dependency_edges cs !! x = Some l ∧ y ∈ l.
Proof.
  unfold depends, dependency_edges. setoid_rewrite lookup_fmap. destruct (cs !! x) as [c|]; cbn.
  - split.
    + intros (c' & [= <-] & Hy). eexists. split; [done|]. apply elem_first_of_each. set_solver.
    + intros (l & [= <-] & Hy). exists c. split; [done|]. by apply elem_first_of_each in Hy as [? _].
  - split; by intros (? & ? & ?).
Qed.

Lemma targets_edge cs x y : edge (targets (dependency_edges cs)) x y ↔ depends cs x y.
Proof.
  rewrite depends_edges. unfold edge, targets. split.
  - intros (l & [= <-] & Hy). destruct (dependency_edges cs !! x); [eauto|]. by apply not_elem_of_nil in Hy.
  - intros (l & -> & Hy). eauto.
Qed.

Lemma edge_target_Ok cs scope x y :
  check_edge_target cs scope x y = Ok tt ↔ x ≠ y ∧ (is_Some (cs !! y) ∨ scope = UnitLocal).
Proof.
  unfold check_edge_target. case_bool_decide; cbn [bail_if mbind result_bind]; [naive_solver|].
  rewrite bail_if_Ok, andb_false_iff, !negb_false_iff, declares_true. destruct scope; cbn; naive_solver.
Qed.

Lemma edge_conditions_Ok cs scope x c y :
  check_edge_conditions cs scope x c y = Ok tt ↔
    match cs !! y with
    | Some d => condition_implies_typed (cp_condition c) (cp_condition d) = Ok true
    | None => scope = UnitLocal
    end.
Proof.
  unfold check_edge_conditions. destruct (cs !! y) as [d|]; [|by destruct scope].
  destruct (condition_implies_typed _ _) as [[]|e]; cbn; done.
Qed.

Section DependencyCheck.
Context `{HashOrder} (cs : gmap string Component) (scope : Scope).

Lemma elem_edges x l : (x, l) ∈ hash_order (dependency_edges cs) ↔ dependency_edges cs !! x = Some l.
Proof. apply elem_hash_order. Qed.

Lemma targets_checked :
  check_each (λ nd, check_each (check_edge_target cs scope nd.1) nd.2) (hash_order (dependency_edges cs)) = Ok tt ↔
    ∀ x y, depends cs x y → x ≠ y ∧ (is_Some (cs !! y) ∨ scope = UnitLocal).
Proof.
  rewrite check_each_Ok. setoid_rewrite check_each_Ok. setoid_rewrite edge_target_Ok. setoid_rewrite depends_edges. split.
  - intros Hall x y (l & Hl & Hy). apply (Hall (x, l)); [by apply elem_edges|done].
  - intros Hall [x l] Hl y Hy. apply elem_edges in Hl. cbn in *. eauto.
Qed.

Lemma conditions_checked :
  check_each (λ nd, comp ← ok_or (cs !! nd.1) (NoComponent nd.1);
                    check_each (check_edge_conditions cs scope nd.1 comp) nd.2) (hash_order (dependency_edges cs)) = Ok tt ↔
    ∀ x y c, depends cs x y → cs !! x = Some c →
    match cs !! y with
    | Some d => condition_implies_typed (cp_condition c) (cp_condition d) = Ok true
    | None => scope = UnitLocal
    end.
Proof.
  rewrite check_each_Ok. setoid_rewrite depends_edges. split.
  - intros Hall x y c (l & Hl & Hy) Hc. specialize (Hall (x, l) (proj2 (elem_edges _ _) Hl)). cbn in Hall.
    rewrite Hc in Hall. cbn in Hall. rewrite check_each_Ok in Hall. by apply edge_conditions_Ok with (x := x), Hall.
  - intros Hall [x l] Hl%elem_edges. cbn.
    assert (is_Some (cs !! x)) as [c Hc].
    { unfold dependency_edges in Hl. rewrite lookup_fmap in Hl. destruct (cs !! x); [eauto|done]. }
    rewrite Hc. cbn. apply check_each_Ok. intros y Hy. apply edge_conditions_Ok.
    apply (Hall x y c); [eauto|done].
Qed.

(** A refusal before the search is about an edge. *)
Definition edge_refusal (e : verify_error) : Prop :=
  (∃ x y, depends cs x y ∧ ¬ edge_ok cs scope x y) ∧ (∀ c, e ≠ DependencyCycle c) ∧ ∀ n, e ≠ DependencyTooDeep n.

Lemma edge_source x l : dependency_edges cs !! x = Some l → is_Some (cs !! x).
Proof. unfold dependency_edges. rewrite lookup_fmap. destruct (cs !! x); [eauto|done]. Qed.

Lemma targets_refused e :
  check_each (λ nd, check_each (check_edge_target cs scope nd.1) nd.2) (hash_order (dependency_edges cs)) = Err e →
  edge_refusal e.
Proof.
  intros ([x l] & Hl%elem_edges & (y & Hy & E)%check_each_Err)%check_each_Err. cbn in *. split; [exists x, y; split|].
  - apply depends_edges. eauto.
  - intros [Hne Hok]. assert (Ht : check_edge_target cs scope x y = Ok tt); [|congruence].
    apply edge_target_Ok. split; [done|].
    destruct (edge_source x l Hl) as [c Hc]. specialize (Hok c Hc). destruct (cs !! y); eauto.
  - unfold check_edge_target, bail_if in E. case_bool_decide; cbn in E; [naive_solver|]. destruct (_ && _); naive_solver.
Qed.

Lemma conditions_refused e :
  check_each (λ nd, comp ← ok_or (cs !! nd.1) (NoComponent nd.1);
                    check_each (check_edge_conditions cs scope nd.1 comp) nd.2) (hash_order (dependency_edges cs)) = Err e →
  edge_refusal e.
Proof.
  intros ([x l] & Hl%elem_edges & E)%check_each_Err. cbn in *. destruct (edge_source x l Hl) as [c Hc].
  rewrite Hc in E. cbn in E. apply check_each_Err in E as (y & Hy & E). split; [exists x, y; split|].
  - apply depends_edges. eauto.
  - intros [Hne Hok]. specialize (Hok c Hc). apply edge_conditions_Ok with (x := x) in Hok. congruence.
  - unfold check_edge_conditions in E. destruct (cs !! y); [|destruct scope; cbn in E; naive_solver].
    destruct (condition_implies_typed _ _) as [[]|]; cbn in E; naive_solver.
Qed.

(** Success: every edge is fine and there is no cycle.  A refusal for a cycle
    or a depth shows one. *)
Lemma component_dependencies_spec :
  match validate_component_dependencies_scoped cs scope with
  | Ok _ => (∀ x y, depends cs x y → edge_ok cs scope x y) ∧ ∀ x, ¬ tc (depends cs) x x
  | Err (DependencyCycle c) => closed_walk (depends cs) c
  | Err (DependencyTooDeep n) => ∃ chain, is_walk (depends cs) chain ∧ NoDup chain ∧
      MAX_CHAIN_DEPTH < length chain ∧ last chain = Some n
  | Err _ => ∃ x y, depends cs x y ∧ ¬ edge_ok cs scope x y
  end.
Proof.
  assert (Hbad : ∀ e, edge_refusal e →
    match e with
    | DependencyCycle c => closed_walk (depends cs) c
    | DependencyTooDeep n => ∃ chain, is_walk (depends cs) chain ∧ NoDup chain ∧
        MAX_CHAIN_DEPTH < length chain ∧ last chain = Some n
    | _ => ∃ x y, depends cs x y ∧ ¬ edge_ok cs scope x y
    end).
  { intros e (Hx & Hc & Hd). destruct e; try exact Hx; exfalso; [by eapply Hc|by eapply Hd]. }
  unfold validate_component_dependencies_scoped. fold (dependency_edges cs).
  destruct (check_each (λ nd, check_each _ _) (hash_order (dependency_edges cs))) as [[]|e] eqn:Et; cbn [mbind result_bind];
    [|by apply Hbad, targets_refused].
  pose proof (proj1 targets_checked Et) as Ht.
  destruct (check_each (λ nd, ok_or _ _ ≫= _) (hash_order (dependency_edges cs))) as [[]|e] eqn:Ec; cbn [mbind result_bind];
    [|by apply Hbad, conditions_refused].
  pose proof (proj1 conditions_checked Ec) as Hcond.
  rewrite (visit_all_ext _ (λ n st, search (targets (dependency_edges cs)) DependencyCycle DependencyTooDeep walk_fuel n st []))
    by (intros; apply dependency_search).
  pose proof (search_roots (targets (dependency_edges cs)) DependencyCycle DependencyTooDeep (bt_elements (dom cs))) as Hs.
  assert (Hedge : ∀ x y, edge (targets (dependency_edges cs)) x y → depends cs x y) by (intros; by apply targets_edge).
  destruct (visit_all _ _ ∅) as [st|e]; cbn [mbind result_bind].
  - split; [intros x y Hd; split; [by apply Ht|intros c Hc; by apply (Hcond x y c)]|].
    intros x Hc. assert (Hx : x ∈ bt_elements (dom cs)).
    { apply elem_of_bt_elements, elem_of_dom. inversion Hc as [? ? (c & ? & _)|? ? ? (c & ? & _)]; eauto. }
    apply (Hs x Hx). apply (tc_congruence (R := depends cs) id); [|done]. intros. by apply targets_edge.
  - destruct Hs as [(c & -> & Hw & Hc)|[(n & chain & -> & Hw & Hr)|(x & Hx)]]; [| |done].
    + split; [|done]. by eapply walk_impl.
    + exists chain. split; [|done]. by eapply walk_impl.
Qed.
End DependencyCheck.
