(* ===== verification/LinkVerifyProps.v ===== *)
(** * What a verified model guarantees

    The theorems about [LinkVerify.v] and how its checks serve [Resolver.v]: the
    graphs are acyclic and known, a resolved model contains the dependencies of
    every component it includes, a parameter bound to a facet resolves to the
    facet's selection, the two spellings of the identifier rule agree, and the
    requirements of a verified model can be met. *)
From S2P Require Import Prelude Tokens Ast Eval Implication FacetCompare SelectionEval Text Schema Resolver.
From S2P Require Import ResolverProps InterfaceSummary LinkVerify LinkGraph.

(** ** Conditions *)

Lemma total_for_parts e1 e2 e sigma :
  (∀ t, t ∈ expr_tags e1 ∨ t ∈ expr_tags e2 → t ∈ expr_tags e) → total_for e sigma → total_for e1 sigma ∧ total_for e2 sigma.
Proof. intros Hsub Ht. split; intros t H; apply Ht, Hsub; auto. Qed.

Lemma expr_tags_pair (f : ConditionExpr → ConditionExpr → ConditionExpr) l r t :
  (for_each_predicate (f l r) = for_each_predicate l ++ for_each_predicate r) →
  (for_each_facet_comparison (f l r) = for_each_facet_comparison l ++ for_each_facet_comparison r) →
  t ∈ expr_tags l ∨ t ∈ expr_tags r → t ∈ expr_tags (f l r).
Proof.
  intros Hp Hc. unfold expr_tags. rewrite Hp, Hc, fmap_app, flat_map_app, !elem_of_app. tauto.
Qed.

(** With every tag selected the strict evaluation is the total one. *)
Lemma eval_strict_total e sigma : no_cardinality e → total_for e sigma → eval_strict e sigma = Ok (eval_total e sigma).
Proof.
  induction e as [b|p|e IH|l IHl r IHr|l IHl r IHr|es|es|es|l op r]; cbn [no_cardinality eval_strict eval_total]; intros Hn Ht; try done.
  - destruct (Ht (p_tag p)) as [v Hv]; [unfold expr_tags; cbn; apply list_elem_of_here|].
    unfold lookup_tag, eval_total_predicate. rewrite Hv. cbn. destruct (p_op p); cbn; [done|]. by rewrite bool_decide_not.
  - rewrite (IH Hn Ht). done.
  - apply andb_prop_elim in Hn as [Hl Hr].
    destruct (total_for_parts l r (And l r) sigma) as [Tl Tr]; [intros t; by apply (expr_tags_pair And)|done|].
    rewrite (IHl Hl Tl). cbn. destruct (eval_total l sigma); cbn; [by apply IHr|done].
  - apply andb_prop_elim in Hn as [Hl Hr].
    destruct (total_for_parts l r (Or l r) sigma) as [Tl Tr]; [intros t; by apply (expr_tags_pair Or)|done|].
    rewrite (IHl Hl Tl). cbn. destruct (eval_total l sigma); cbn; [done|by apply IHr].
  - destruct (Ht l) as [x Hx]; [unfold expr_tags; cbn; set_solver|].
    destruct (Ht r) as [y Hy]; [unfold expr_tags; cbn; set_solver|].
    unfold lookup_tag. rewrite Hx, Hy. cbn. destruct op; cbn; [done|]. by rewrite bool_decide_not.
Qed.

(** The value of a condition that evaluates. *)
Lemma eval_condition_total cond tags b :
  eval_condition cond tags = Ok b → ∃ e, parse_condition_expr cond = Ok e ∧ (total_for e tags → eval_total e tags = b).
Proof.
  intros (e & Hp & Hn & He)%eval_condition_sound. exists e. split; [done|]. intros Ht.
  rewrite (eval_strict_total e tags Hn Ht) in He. by injection He.
Qed.

(** ** Dependencies of included components *)

(** The selection binds every tag of the conditions. *)
Definition binds_conditions (cs : gmap string Component) (tags : gmap string string) : Prop :=
  ∀ name c cond e, cs !! name = Some c → cp_condition c = Some cond → parse_condition_expr cond = Ok e → total_for e tags.

Definition condition_expr_of (c : Component) (e : ConditionExpr) : Prop :=
  match cp_condition c with Some cond => parse_condition_expr cond = Ok e | None => e = Bool true end.

(** The conditions at the ends of a dependency compare at most one pair of
    facets. *)
Definition simple_comparisons (cs : gmap string Component) : Prop :=
  ∀ x y cx cy ex ey, depends cs x y → cs !! x = Some cx → cs !! y = Some cy →
    condition_expr_of cx ex → condition_expr_of cy ey → ∃ l r, compares_only l r ex ey.

Section Included.
Context (cs : gmap string Component) (tags : gmap string string).
Context (Hbinds : binds_conditions cs tags) (Hsimple : simple_comparisons cs).

Lemma dependency_not_excluded x y cx cy :
  depends cs x y → cs !! x = Some cx → cs !! y = Some cy → edge_ok cs Complete x y →
  included tags cx → ¬ excluded tags cy.
Proof.
  intros Hd Hx Hy [_ Hok] Hin (cond & Hc & Hev). specialize (Hok cx Hx). rewrite Hy in Hok.
  apply eval_condition_total in Hev as (ey & Hpy & Hty).
  assert (∃ ex, condition_expr_of cx ex ∧ total_for ex tags ∧ eval_total ex tags = true) as (ex & Hex & Htx & Hvx).
  { unfold condition_expr_of, included in *. destruct (cp_condition cx) as [c|] eqn:Ec.
    - destruct (eval_condition_total c tags true (Hin c eq_refl)) as (e & He & Ht). exists e.
      assert (total_for e tags) by (by apply (Hbinds x cx c e)). auto.
    - exists (Bool true). split_and!; [done| |done]. intros t Ht. unfold expr_tags in Ht. by apply not_elem_of_nil in Ht. }
  assert (Hey : condition_expr_of cy ey) by (unfold condition_expr_of; by rewrite Hc).
  destruct (Hsimple x y cx cy ex ey) as (l & r & Hlr); try done.
  assert (total_for ey tags) as Hty' by (by apply (Hbinds y cy cond ey)).
  assert (Himp : condition_expr_implies ex ey = true).
  { unfold condition_implies_typed in Hok. rewrite Hc, Hpy in Hok. cbn [mbind result_bind] in Hok.
    unfold condition_expr_of in Hex.
    destruct (cp_condition cx); [rewrite Hex in Hok|subst ex]; cbn [mbind result_bind] in Hok; congruence. }
  apply (condition_expr_implies_correct ex ey l r Hlr) with (sigma := tags) in Himp; [|done..].
  rewrite (Hty Hty') in Himp. done.
Qed.
End Included.

(** C34: A resolved model contains the dependencies of every component it
    includes: when the dependency check accepts the components, the selection
    binds the tags of their conditions and the two ends of a dependency compare
    at most one pair of facets, no component is resolved without the components
    it depends on. *)
Theorem resolved_closed (H : HashOrder) tags raw r x y :
  validate_component_dependencies (components raw) = Ok tt →
  binds_conditions (components raw) tags → simple_comparisons (components raw) →
  resolve tags raw = Ok r →
  x ∈ dom (rf_components r) → depends (components raw) x y → y ∈ dom (rf_components r).
Proof.
  intros Hv Hb Hs (Hm & _ & ->)%resolve_Ok Hx Hd. cbn in *.
  pose proof (component_dependencies_spec (components raw) Complete) as Hspec.
  unfold validate_component_dependencies in Hv. rewrite Hv in Hspec. destruct Hspec as [Hedge _].
  specialize (Hedge x y Hd). rewrite !elem_of_dom, !map_lookup_imap in *.
  destruct (components raw !! x) as [cx|] eqn:Ex; cbn in Hx; [|by destruct Hx].
  pose proof (proj2 Hedge cx Ex) as Hy.
  destruct (components raw !! y) as [cy|] eqn:Ey; [|done]. cbn. unfold outcome in *.
  destruct (includedb_spec tags cx) as [_ Hxx]. destruct (includedb_spec tags cy) as [Hyi _].
  assert (Hix : included tags cx).
  { destruct (Hm x cx Ex) as [Hex|[? _]]; [|done]. rewrite (Hxx Hex) in Hx. by destruct Hx. }
  destruct (Hm y cy Ey) as [Hex|[Hiy _]]; [|rewrite (Hyi Hiy); eauto].
  exfalso. eapply (dependency_not_excluded (components raw) tags Hb Hs x y cx cy); done.
Qed.

(** ** Identifiers *)

Lemma snake_walk_loop ident l :
  (snake_loop ident false l = Ok tt ↔ snake_walk l = true) ∧
  (snake_loop ident true l = Ok tt ↔ match l with [] => True | b :: l => is_alnum_lower b = true ∧ snake_walk l = true end).
Proof.
  induction l as [|b l [IHf IHt]]; [done|]. unfold is_alnum_lower.
  cbn [snake_loop snake_walk]. unfold is_alnum_lower.
  destruct (is_ascii_lowercase b || is_ascii_digit b) eqn:Eb; [by split; rewrite IHf; naive_solver|].
  destruct (Ascii.eqb b "_"%char); [|split; split; naive_solver]. split; [|split; naive_solver].
  rewrite IHt. destruct l as [|c l]; [done|]. rewrite andb_true_iff. done.
Qed.

(** The identifier rule of the scope selectors and the one of the symbol
    check accept the same strings. *)
Theorem snake_rules_agree id : ensure_snake_case_ident id = Ok tt ↔ is_snake_id id = true.
Proof.
  unfold ensure_snake_case_ident, is_snake_id. destruct (bytes_of id) as [|b l]; [done|].
  destruct (is_ascii_lowercase b) eqn:Eb; cbn [andb]; [|done].
  cbn [snake_loop]. rewrite Eb. cbn [orb]. apply snake_walk_loop.
Qed.

(** ** Override trees *)

(** A parameter and every parameter nested in its overrides. *)
Fixpoint tree (p : Param) : list Param :=
  match p with
  | mkParameter i t u d v f l s a lm r overrides =>
      p :: (fix blocks (bs : list ConditionalBlock) : list Param :=
              match bs with
              | [] => []
              | mkBlock _ payload :: bs => tree payload ++ blocks bs
              end) overrides
  end.

Lemma tree_eq p : tree p = p :: flat_map (λ b, tree (cb_payload b)) (pm_overrides p).
Proof.
  destruct p as [i t u d v f l s a lm r bs]. cbn [tree pm_overrides]. f_equal.
  induction bs as [|[c q] bs IH]; cbn; [done|]. by rewrite IH.
Qed.

(** A field's effective value is set somewhere in the tree. *)
Lemma effective_in_tree tags {A} (proj : Param → option A) p a :
  effective tags proj p = Some a → ∃ q, q ∈ tree p ∧ proj q = Some a.
Proof.
  revert a. induction p as [p IH] using param_nested. intros a. rewrite effective_eq, tree_eq.
  assert (Hfold : ∀ acc, (∀ a, acc = Some a → proj p = Some a ∨ ∃ q, q ∈ flat_map (λ b, tree (cb_payload b)) (pm_overrides p) ∧ proj q = Some a) →
    ∀ bs, (∀ b, b ∈ bs → b ∈ pm_overrides p) →
    foldl (step_field tags proj) acc bs = Some a →
    proj p = Some a ∨ ∃ q, q ∈ flat_map (λ b, tree (cb_payload b)) (pm_overrides p) ∧ proj q = Some a).
  { intros acc Hacc bs. revert acc Hacc. induction bs as [|b bs IHbs]; intros acc Hacc Hsub; cbn [foldl]; [apply Hacc|].
    apply IHbs; [|intros b' Hb'; apply Hsub; by constructor]. intros x. unfold step_field.
    destruct (active tags (cb_condition b)); [|apply Hacc].
    destruct (effective tags proj (cb_payload b)) as [y|] eqn:Ey; cbn [overwrite]; [|apply Hacc]. intros [= ->].
    assert (Hb : b ∈ pm_overrides p) by (apply Hsub; constructor).
    rewrite Forall_forall in IH. destruct (IH b Hb x Ey) as (q & Hq & Hx). right. exists q. split; [|done].
    apply elem_of_flat_map. eauto. }
  intros Ha. apply (Hfold (proj p)) in Ha; [|by left|done].
  destruct Ha as [Ha|(q & Hq & Ha)]; [exists p|exists q]; (split; [|done]); by constructor.
Qed.

(** The recursion over the override blocks, for the collectors. *)
Lemma declared_types_spec p owner : ∀ depth out out',
  collect_declared_types p owner depth out = Ok out' → out' = out ++ omap pm_type (tree p).
Proof.
  induction p as [p IH] using param_nested. intros depth out out'. rewrite tree_eq.
  destruct p as [i t u d v f l s a lm r bs]. cbn [collect_declared_types pm_overrides omap list_omap pm_type] in *.
  intros ([] & _ & E)%bind_Ok.
  assert (Hbs : ∀ out out', (fix blocks (bs : list ConditionalBlock) (out : list string) : result verify_error (list string) :=
      match bs with
      | [] => Ok out
      | mkBlock _ payload :: bs => out ← collect_declared_types payload owner (S depth) out; blocks bs out
      end) bs out = Ok out' → out' = out ++ omap pm_type (flat_map (λ b, tree (cb_payload b)) bs)).
  { clear E. induction IH as [|[c q] bs Hq _ IHbs]; intros o o'; cbn [flat_map cb_payload].
    - intros [= ->]. by rewrite app_nil_r.
    - intros (o1 & E1 & E)%bind_Ok. apply Hq in E1 as ->. apply IHbs in E as ->.
      by rewrite omap_app, app_assoc. }
  apply Hbs in E as ->. destruct t; cbn; [by rewrite <-app_assoc|done].
Qed.

Lemma override_free_spec p owner : ∀ depth,
  override_sets_value_or_facet p owner depth = Ok None →
  ∀ q, q ∈ flat_map (λ b, tree (cb_payload b)) (pm_overrides p) → pm_value q = None ∧ pm_facet q = None.
Proof.
  induction p as [p IH] using param_nested. intros depth.
  destruct p as [i t u d v f l s a lm r bs]. cbn [override_sets_value_or_facet pm_overrides] in *.
  intros ([] & _ & E)%bind_Ok. induction IH as [|[c q] bs Hq _ IHbs]; [set_solver|].
  cbn [cb_payload flat_map] in *. intros x [Hx|Hx]%elem_of_app.
  - destruct (pm_value q) eqn:Ev; cbn in E; [done|]. destruct (pm_facet q) eqn:Ef; cbn in E; [done|].
    apply bind_Ok in E as ([fd|] & E1 & E); [done|]. rewrite tree_eq in Hx.
    apply elem_of_cons in Hx as [->|Hx]; [done|]. by eapply Hq.
  - destruct (declares (pm_value q)); [done|]. destruct (declares (pm_facet q)); [done|].
    apply bind_Ok in E as ([fd|] & E1 & E); [done|]. by apply IHbs.
Qed.

(** ** Parameters bound to facets *)

Record bound_ok (facets : gmap string Facet) (p : Param) (f : string) : Prop := {
  bo_declared : is_Some (facets !! f);
  bo_string : ∀ q t, q ∈ tree p → pm_type q = Some t → t = "string";
  bo_typed : ∃ q, q ∈ tree p ∧ is_Some (pm_type q);
  bo_no_value : ∀ q, q ∈ tree p → pm_value q = None;
  bo_no_rebind : ∀ b q, b ∈ pm_overrides p → q ∈ tree (cb_payload b) → pm_facet q = None;
}.

Lemma bound_parameter_ok facets scope comp key p binders binders' f :
  check_bound_parameter facets scope comp key p binders = Ok binders' → pm_facet p = Some f →
  bound_ok facets p f ∧
  (scope = Complete → binders !! f = None ∧ binders' = <[f := runtime_path comp key]> binders).
Proof.
  unfold check_bound_parameter. intros E Hf. rewrite Hf in E.
  apply bind_Ok in E as ([] & Hd%bail_if_Ok & (types & Ht & ([] & Hs & ([] & Hv%bail_if_Ok & (found & Ho & E)%bind_Ok)%bind_Ok)%bind_Ok)%bind_Ok).
  apply negb_false_iff, declares_true in Hd. apply declared_types_spec in Ht. cbn in Ht. subst types.
  apply bind_Ok in E as ([] & Hfound & E). destruct found; [done|].
  pose proof (override_free_spec _ _ _ Ho) as Hfree.
  destruct (List.find _ _) eqn:Efind; [done|]. apply bail_if_Ok, bool_decide_eq_false in Hs.
  assert (Hv' : pm_value p = None) by (destruct (pm_value p); done). split.
  - split; [done| | | |].
    + intros q t Hq Hqt. pose proof (List.find_none _ _ Efind t) as Hnone.
      assert (Hin : t ∈ omap pm_type (tree p)) by (apply list_elem_of_omap; eauto).
      apply list_elem_of_In in Hin. specialize (Hnone Hin). by apply negb_false_iff, bool_decide_eq_true in Hnone.
    + destruct (omap pm_type (tree p)) as [|t l] eqn:El; [done|].
      assert (Hin : t ∈ omap pm_type (tree p)) by (rewrite El; constructor).
      apply list_elem_of_omap in Hin as (q & Hq & Hqt). eauto.
    + intros q. rewrite tree_eq. intros [->|Hq]%elem_of_cons; [done|]. by apply Hfree.
    + intros b q Hb Hq. apply Hfree. apply elem_of_flat_map. eauto.
  - intros ->. cbn in E. destruct (binders !! f); [done|]. by injection E as <-.
Qed.

(** Every bound parameter is fine, and in a whole model no two share a facet. *)
Lemma bound_all_ok facets scope ps binders binders' :
  check_bound_all facets scope ps binders = Ok binders' →
  (∀ c k p f, (c, k, p) ∈ ps → pm_facet p = Some f → bound_ok facets p f) ∧
  (scope = Complete → NoDup (omap (λ x, pm_facet x.2) ps) ∧ ∀ f, f ∈ omap (λ x, pm_facet x.2) ps → binders !! f = None).
Proof.
  revert binders. induction ps as [|[[c k] p] ps IH]; intros binders; cbn [check_bound_all].
  { intros _. split; [set_solver|]. intros _. split; [apply NoDup_nil_2|set_solver]. }
  intros (b & Eb & E)%bind_Ok. destruct (IH b E) as [IH1 IH2]. cbn [omap list_omap snd].
  destruct (pm_facet p) as [f|] eqn:Ef.
  - destruct (bound_parameter_ok _ _ _ _ _ _ _ f Eb Ef) as [Hok Hb]. split.
    + intros c' k' p' f' [[= -> -> ->]|Hin]%elem_of_cons Hf'; [congruence|by eapply IH1].
    + intros Hs. destruct (Hb Hs) as [Hn ->], (IH2 Hs) as [Hnd Hfresh]. split.
      * apply NoDup_cons. split; [|done]. intros Hin. specialize (Hfresh f Hin). by rewrite lookup_insert_eq in Hfresh.
      * intros f' [->|Hin]%elem_of_cons; [done|]. specialize (Hfresh f' Hin).
        destruct (decide (f = f')); [by subst|]. by rewrite lookup_insert_ne in Hfresh.
  - unfold check_bound_parameter in Eb. rewrite Ef in Eb. injection Eb as <-. split; [|done].
    intros c' k' p' f' [[= -> -> ->]|Hin]%elem_of_cons Hf'; [congruence|by eapply IH1].
Qed.

Lemma elem_all_params cs c k p :
  (c, k, p) ∈ all_params cs ↔ ∃ comp, cs !! c = Some comp ∧ params comp !! k = Some p.
Proof.
  unfold all_params. rewrite elem_of_flat_map. setoid_rewrite list_elem_of_fmap. split.
  - intros ([c' comp] & Hc%elem_bt_list & [k' p'] & [= -> -> ->] & Hp%elem_bt_list). eauto.
  - intros (comp & Hc & Hp). exists (c, comp). split; [by apply elem_bt_list|].
    exists (k, p). split; [done|]. by apply elem_bt_list.
Qed.

Lemma NoDup_omap_inj {A B} (f : A → option B) l x y b :
  NoDup (omap f l) → x ∈ l → y ∈ l → f x = Some b → f y = Some b → x = y.
Proof.
  induction l as [|z l IH]; intros Hnd Hx Hy Hfx Hfy; [by apply not_elem_of_nil in Hx|].
  assert (Hin : ∀ w, w ∈ l → f w = Some b → b ∈ omap f l) by (intros; apply list_elem_of_omap; eauto).
  cbn in Hnd. destruct (f z) as [bz|] eqn:Ez.
  - apply NoDup_cons in Hnd as [Hni Hnd].
    apply elem_of_cons in Hx as [->|Hx], Hy as [->|Hy]; [done| | |by apply IH].
    + exfalso. apply Hni. rewrite Hfx in Ez. injection Ez as <-. eauto.
    + exfalso. apply Hni. rewrite Hfy in Ez. injection Ez as <-. eauto.
  - apply elem_of_cons in Hx as [->|Hx]; [congruence|]. apply elem_of_cons in Hy as [->|Hy]; [congruence|]. by apply IH.
Qed.

(** In a model whose facet bindings are accepted, a parameter bound to a
    facet names a declared facet, resolves under every selection to the string
    the facet is set to with type "string", whatever overrides are active, and
    is the only parameter of the model bound to that facet. *)
Theorem bound_parameter_resolves cs facets c comp k p f :
  validate_facet_bindings_scoped cs facets Complete = Ok tt →
  cs !! c = Some comp → params comp !! k = Some p → pm_facet p = Some f →
  is_Some (facets !! f) ∧
  (∀ tags path defs arts r, resolve_parameter tags p path defs arts = Ok r →
     rp_type r = "string" ∧ ∃ v, tags !! f = Some v ∧ rp_value r = VString v) ∧
  (∀ c' comp' k' p', cs !! c' = Some comp' → params comp' !! k' = Some p' → pm_facet p' = Some f → c' = c ∧ k' = k).
Proof.
  intros (b & E & _)%bind_Ok Hc Hp Hf. apply bound_all_ok in E as [Hall Hone].
  assert (Hin : (c, k, p) ∈ all_params cs) by (apply elem_all_params; eauto).
  pose proof (Hall c k p f Hin Hf) as Hok. split_and!; [apply Hok| |].
  - intros tags path defs arts r (Hr & _)%parameter_spec. destruct Hr as [Hv Ht _ _ _ _ _ _]. rewrite Hf in Hv. split; [|done].
    apply effective_in_tree in Ht as (q & Hq & Ht). by apply (bo_string _ _ _ Hok q).
  - intros c' comp' k' p' Hc' Hp' Hf'. destruct (Hone eq_refl) as [Hnd _].
    assert (Hin' : (c', k', p') ∈ all_params cs) by (apply elem_all_params; eauto).
    pose proof (NoDup_omap_inj _ _ (c', k', p') (c, k, p) f Hnd Hin' Hin Hf' Hf) as [= -> ->]. done.
Qed.

(** ** Constraints *)

Definition operand_declared (facets : gmap string Facet) (o : ConditionOperand) : Prop :=
  match o with
  | Symbol tag value => ∃ f, facets !! tag = Some f ∧ (fc_open f = false → value ∈ fc_values f)
  | ComparisonLeft tag | ComparisonRight tag => is_Some (facets !! tag)
  end.

Lemma operand_violation_None facets o : operand_violation facets o = None ↔ operand_declared facets o.
Proof.
  destruct o as [tag value|tag|tag]; cbn.
  - destruct (facets !! tag) as [f|]; [|split; [done|by intros (? & ? & _)]].
    destruct (fc_open f) eqn:Eo; cbn; [split; [|done]; intros _; exists f; split; [done|congruence]|].
    case_bool_decide as Hin; cbn; split; [by exists f|done|done|].
    intros (f' & [= <-] & Hv). by destruct Hin; apply Hv.
  - rewrite <-declares_true. by destruct (declares _).
  - rewrite <-declares_true. by destruct (declares _).
Qed.

Lemma first_violation_None facets e :
  first_violation facets e = None ↔ ∀ o, o ∈ for_each_condition_operand e → operand_declared facets o.
Proof.
  unfold first_violation. setoid_rewrite <-operand_violation_None.
  induction (for_each_condition_operand e) as [|o os IH]; [split; [by intros _ ? ?%not_elem_of_nil|done]|].
  cbn [omap list_omap]. destruct (operand_violation facets o) as [v|] eqn:Eo.
  - split; [done|]. intros Hall. specialize (Hall o ltac:(constructor)). congruence.
  - rewrite IH. setoid_rewrite elem_of_cons. naive_solver.
Qed.

Definition constraint_ok (facets : gmap string Facet) (c : Constraint) : Prop :=
  ∃ e, parse_condition_expr (trim (cn_condition c)) = Ok e ∧
    ∀ o, o ∈ for_each_condition_operand e → operand_declared facets o.

Lemma constraints_exact constraints facets :
  validate_constraints constraints facets = Ok tt ↔ ∀ id c, constraints !! id = Some c → constraint_ok facets c.
Proof.
  unfold validate_constraints, validate_constraints_scoped. rewrite check_each_Ok.
  assert (Hone : ∀ id c, check_constraint facets Complete id c = Ok tt ↔ constraint_ok facets c).
  { intros id c. unfold check_constraint, constraint_ok. setoid_rewrite <-first_violation_None.
    destruct (parse_condition_expr _) as [e|err]; cbn [map_err mbind result_bind]; [|naive_solver].
    destruct (first_violation facets e) eqn:Ev; cbn; naive_solver. }
  split.
  - intros Hall id c Hc%elem_bt_list. apply (Hone id). by apply (Hall (id, c)).
  - intros Hall [id c] Hc%elem_bt_list. apply Hone. eauto.
Qed.

(** ** Catalogues *)

Record catalogue_ok (id : string) (c : Catalogue) : Prop := {
  co_id : is_snake_id id = true;
  co_entry_ids : ∀ e, is_Some (ct_entries c !! e) → is_snake_id e = true;
  co_fields : ct_fields c ≠ ∅;
  co_entries : ct_entries c ≠ ∅;
  co_complete : ∀ e entry k, ct_entries c !! e = Some entry → is_Some (entry !! k) ↔ is_Some (ct_fields c !! k);
  co_typed : ∀ e entry k fd v, ct_entries c !! e = Some entry → ct_fields c !! k = Some fd → entry !! k = Some v →
    value_matches v (fd_type fd) = true ∧ is_non_finite v = false;
}.

Lemma bail_bind {E A} b (e : E) (m : result E A) a : (_ ← bail_if b e; m) = Ok a ↔ b = false ∧ m = Ok a.
Proof. destruct b; cbn; naive_solver. Qed.

Lemma check_then {A} (m : verified) (k : result verify_error A) a : (_ ← m; k) = Ok a ↔ m = Ok tt ∧ k = Ok a.
Proof. destruct m as [[]|]; cbn; naive_solver. Qed.

Lemma catalogue_symbols_ok id c :
  check_catalogue_symbols id c = Ok tt ↔
    is_snake_id id = true ∧ ∀ e, is_Some (ct_entries c !! e) → is_snake_id e = true.
Proof.
  unfold check_catalogue_symbols. rewrite bail_bind, negb_false_iff, check_each_Ok.
  setoid_rewrite bail_if_Ok. setoid_rewrite negb_false_iff. setoid_rewrite elem_of_bt_elements.
  setoid_rewrite elem_of_dom. done.
Qed.

Lemma entry_field_ok id e entry k fd :
  check_entry_field id e entry (k, fd) = Ok tt ↔
    ∃ v, entry !! k = Some v ∧ value_matches v (fd_type fd) = true ∧ is_non_finite v = false.
Proof.
  unfold check_entry_field. cbn [fst snd]. destruct (entry !! k) as [v|]; cbn [ok_or mbind result_bind]; [|naive_solver].
  change (result_bind ?E ?A ?B ?f ?m) with (m ≫= f). rewrite bail_bind, negb_false_iff, bail_if_Ok. naive_solver.
Qed.

Lemma entry_ok id c e entry :
  check_entry id c (e, entry) = Ok tt ↔
    (∀ k, is_Some (entry !! k) ↔ is_Some (ct_fields c !! k)) ∧
    (∀ k fd v, ct_fields c !! k = Some fd → entry !! k = Some v →
       value_matches v (fd_type fd) = true ∧ is_non_finite v = false).
Proof.
  unfold check_entry. cbn [fst snd]. rewrite check_then, !check_each_Ok.
  setoid_rewrite bail_if_Ok. setoid_rewrite negb_false_iff. setoid_rewrite declares_true.
  setoid_rewrite elem_of_bt_elements. setoid_rewrite elem_of_dom.
  assert (Hf : (∀ a, a ∈ bt_list (ct_fields c) → check_entry_field id e entry a = Ok tt) ↔
    ∀ k fd, ct_fields c !! k = Some fd →
      ∃ v, entry !! k = Some v ∧ value_matches v (fd_type fd) = true ∧ is_non_finite v = false).
  { setoid_rewrite <-(entry_field_ok id e entry). setoid_rewrite <-elem_bt_list. split; [intros Ha k fd; apply Ha|].
    intros Ha [k fd]. apply Ha. }
  rewrite Hf. split.
  - intros [H1 H2]. split; [intros k; split; [apply H2|]|].
    + intros [fd Hfd]. destruct (H1 k fd Hfd) as (v & Hv & _). eauto.
    + intros k fd v Hfd Hv. destruct (H1 k fd Hfd) as (v' & Hv' & ?). simplify_eq. done.
  - intros [H1 H2]. split; [|intros k; apply H1]. intros k fd Hfd.
    destruct (proj2 (H1 k)) as [v Hv]; [eauto|]. exists v. split; [done|]. by apply (H2 k fd v).
Qed.

Lemma catalogue_exact id c : check_catalogue id c = Ok tt ↔ catalogue_ok id c.
Proof.
  unfold check_catalogue. rewrite check_then, catalogue_symbols_ok, !bail_bind, !bool_decide_eq_false, check_each_Ok.
  assert (He : (∀ a, a ∈ bt_list (ct_entries c) → check_entry id c a = Ok tt) ↔
    ∀ e entry, ct_entries c !! e = Some entry → check_entry id c (e, entry) = Ok tt).
  { setoid_rewrite <-elem_bt_list. split; [intros Ha e en; apply Ha|]. intros Ha [e en]. apply Ha. }
  rewrite He. setoid_rewrite entry_ok. split.
  - intros ([H1 H2] & H3 & H4 & H5). split; [done..| |].
    + intros e entry k Hentry. by apply (H5 e).
    + intros e entry k fd v Hentry. by apply (H5 e).
  - intros [H1 H2 H3 H4 H5 H6]. split_and!; try done. intros e entry Hentry. split; [intros k; by apply (H5 e)|].
    intros k fd v. by apply (H6 e).
Qed.

Lemma catalogues_exact cats :
  validate_catalogues cats = Ok tt ↔ ∀ id c, cats !! id = Some c → catalogue_ok id c.
Proof.
  unfold validate_catalogues. rewrite check_each_Ok. setoid_rewrite <-catalogue_exact. setoid_rewrite <-elem_bt_list.
  split; [intros Ha id c; apply (Ha (id, c))|]. intros Ha [id c]. apply Ha.
Qed.

(** ** Facets *)

Record facet_shape (id : string) (f : Facet) : Prop := {
  fs_id : is_snake_id id = true;
  fs_tokens : ∀ v, v ∈ fc_values f → is_symbol_token v = true;
  fs_values : fc_values f ≠ [];
  fs_distinct : NoDup (fc_values f);
  fs_default : ∀ d, fc_default f = Some d → d ∈ fc_values f;
}.

Lemma first_duplicate_None seen l : first_duplicate seen l = None ↔ NoDup l ∧ ∀ x, x ∈ l → x ∉ seen.
Proof.
  revert seen. induction l as [|y l IH]; intros seen; cbn [first_duplicate].
  { split; [|done]. intros _. split; [apply NoDup_nil_2|by intros x ?%not_elem_of_nil]. }
  rewrite NoDup_cons. setoid_rewrite elem_of_cons. case_decide as Hy; [split; [done|]; naive_solver|].
  rewrite IH. setoid_rewrite elem_of_union. setoid_rewrite elem_of_singleton. split.
  - intros [Hnd Hx]. split_and!; [|done|].
    + intros Hin. by destruct (Hx y Hin); left.
    + intros x [->|Hin]; [done|]. intros Hs. by destruct (Hx x Hin); right.
  - intros [[Hni Hnd] Hx]. split; [done|]. intros x Hin [->|Hs]; [done|]. by apply (Hx x); [right|].
Qed.

Lemma facet_shape_exact id f : check_facet_shape id f = Ok tt ↔ facet_shape id f.
Proof.
  unfold check_facet_shape, check_facet_symbols.
  rewrite check_then, bail_bind, bail_bind, negb_false_iff, bool_decide_eq_false, check_each_Ok.
  setoid_rewrite bail_if_Ok. setoid_rewrite negb_false_iff.
  destruct (first_duplicate ∅ (fc_values f)) as [d|] eqn:Ed; cbn [mbind result_bind].
  { split; [naive_solver|]. intros []. assert (first_duplicate ∅ (fc_values f) = None); [|congruence].
    apply first_duplicate_None. split; [done|]. intros ? _. apply not_elem_of_empty. }
  apply first_duplicate_None in Ed as [Hnd _]. split.
  - intros ([H1 H2] & H3 & H4). split; try done. intros d Hd. rewrite Hd in H4.
    by apply bail_if_Ok, negb_false_iff, bool_decide_eq_true in H4.
  - intros [H1 H2 H3 _ H5]. split_and!; try done. destruct (fc_default f); [|done].
    apply bail_if_Ok, negb_false_iff, bool_decide_eq_true. auto.
Qed.

(** *** The conditions of a model *)

(** A condition written anywhere in an override tree. *)
Definition tree_condition (p : Param) (c : string) : Prop :=
  ∃ q b, q ∈ tree p ∧ b ∈ pm_overrides q ∧ c = cb_condition b.

Lemma tree_condition_eq p c :
  tree_condition p c ↔ ∃ b, b ∈ pm_overrides p ∧ (c = cb_condition b ∨ tree_condition (cb_payload b) c).
Proof.
  unfold tree_condition. rewrite tree_eq. setoid_rewrite elem_of_cons. setoid_rewrite elem_of_flat_map. split.
  - intros (q & b & [->|(b' & Hb' & Hq)] & Hb & ->); [by exists b; split; [|left]|].
    exists b'. split; [done|]. right. eauto.
  - intros (b & Hb & [->|(q & b' & Hq & Hb' & ->)]); [exists p, b; auto|]. exists q, b'. split; [|done]. right. eauto.
Qed.

Lemma parameter_conditions_spec p owner : ∀ depth out out',
  collect_parameter_conditions p owner depth out = Ok out' → ∀ c, c ∈ out' ↔ c ∈ out ∨ tree_condition p c.
Proof.
  induction p as [p IH] using param_nested. intros depth out out' E c. rewrite tree_condition_eq.
  destruct p as [i t u d v f l s a lm r bs]. cbn [collect_parameter_conditions pm_overrides] in *.
  apply bind_Ok in E as ([] & _ & E). revert out E.
  induction IH as [|[cond q] bs Hq _ IHbs]; intros out E; setoid_rewrite elem_of_cons || setoid_rewrite elem_of_nil.
  - injection E as ->. split; [by left|]. by intros [?|(b & ? & _)].
  - apply bind_Ok in E as (o1 & E1 & E). rewrite (IHbs _ E). cbn in Hq.
    rewrite (Hq _ _ _ E1), elem_of_app, list_elem_of_singleton. split.
    + intros [[[?|?]|?]|(b & ? & ?)]; [by left|right; exists (mkBlock cond q); auto..|right; exists b; auto].
    + intros [?|(b & [->|?] & [?|?])]; [by left; left; left|..]; cbn in *; eauto 10.
Qed.

Lemma params_conditions_spec ps : ∀ out out',
  collect_params_conditions ps out = Ok out' →
  ∀ c, c ∈ out' ↔ c ∈ out ∨ ∃ id p, (id, p) ∈ ps ∧ tree_condition p c.
Proof.
  induction ps as [|[id p] ps IH]; intros out out'; cbn [collect_params_conditions].
  - intros [= ->] c. split; [by left|]. intros [?|(i & q & ?%not_elem_of_nil & _)]; done.
  - intros (o1 & E1 & E)%bind_Ok c. rewrite (IH _ _ E), (parameter_conditions_spec _ _ _ _ _ E1).
    setoid_rewrite elem_of_cons. split.
    + intros [[?|?]|(i & q & ? & ?)]; [by left|right; exists id, p; auto|right; exists i, q; auto].
    + intros [?|(i & q & [[= -> ->]|?] & ?)]; eauto 10.
Qed.

Definition component_condition (comp : Component) (c : string) : Prop :=
  cp_condition comp = Some c ∨ ∃ k p, params comp !! k = Some p ∧ tree_condition p c.

Lemma components_conditions_spec cs : ∀ out out',
  collect_components_conditions cs out = Ok out' →
  ∀ c, c ∈ out' ↔ c ∈ out ∨ ∃ id comp, (id, comp) ∈ cs ∧ component_condition comp c.
Proof.
  unfold component_condition.
  induction cs as [|[id comp] cs IH]; intros out out'; cbn [collect_components_conditions].
  - intros [= ->] c. split; [by left|]. intros [?|(i & q & ?%not_elem_of_nil & _)]; done.
  - intros (o1 & E1 & E)%bind_Ok c. rewrite (IH _ _ E), (params_conditions_spec _ _ _ E1).
    setoid_rewrite elem_bt_list. setoid_rewrite elem_of_cons.
    assert (Hc : c ∈ match cp_condition comp with Some x => out ++ [x] | None => out end ↔
      c ∈ out ∨ cp_condition comp = Some c).
    { destruct (cp_condition comp); [|split; [by left|by intros [?|?]]].
      rewrite elem_of_app, list_elem_of_singleton. split; [intros [?| ->]; auto|intros [?|[= ->]]; auto]. }
    rewrite Hc. split.
    + intros [[[?|?]|?]|(i & q & ? & ?)]; [by left|right; exists id, comp; auto..|right; exists i, q; auto].
    + intros [?|(i & q & [[= -> ->]|?] & [?|?])]; eauto 10.
Qed.

(** The conditions of definitions and components. *)
Definition model_condition (cs : gmap string Component) (defs : gmap string Param) (c : string) : Prop :=
  (∃ id d, defs !! id = Some d ∧ tree_condition d c) ∨
  (∃ id comp, cs !! id = Some comp ∧ component_condition comp c).

Lemma model_conditions_spec cs defs l :
  collect_model_conditions cs defs = Ok l → ∀ c, c ∈ l ↔ model_condition cs defs c.
Proof.
  intros (o & E1 & E)%bind_Ok c. rewrite (components_conditions_spec _ _ _ E), (params_conditions_spec _ _ _ E1).
  setoid_rewrite elem_bt_list. unfold model_condition. split; [|by intros [?|?]; [left; right|right]].
  intros [[?%not_elem_of_nil|?]|?]; [done|by left|by right].
Qed.

(** A condition compares a closed facet with its declared values only. *)
Definition condition_in_domain (facets : gmap string Facet) (c : string) : Prop :=
  ∀ e tag value f, parse_condition_expr (trim c) = Ok e → (tag, value) ∈ for_each_eq_predicate e →
    facets !! tag = Some f → fc_open f = false → value ∈ fc_values f.

Lemma closed_lookup (facets : gmap string Facet) tag f :
  filter (λ kf : string * Facet, fc_open kf.2 = false) facets !! tag = Some f ↔ facets !! tag = Some f ∧ fc_open f = false.
Proof. rewrite map_lookup_filter_Some. done. Qed.

Lemma condition_values_ok facets c :
  trim c ≠ String.EmptyString →
  check_condition_values (filter (λ kf, fc_open kf.2 = false) facets) c = Ok tt ↔ condition_in_domain facets c.
Proof.
  intros Hne. unfold check_condition_values, condition_in_domain. rewrite decide_False by done.
  destruct (parse_condition_expr (trim c)) as [e|err]; [|split; done].
  destruct (List.find _ _) as [[tag value]|] eqn:Ef.
  - split; [done|]. intros Hall. exfalso. apply List.find_some in Ef as [Hin Ho].
    apply list_elem_of_In in Hin. unfold outside_closed in Ho. cbn [fst snd] in Ho.
    destruct (_ !! tag) as [f|] eqn:El; [|done]. apply closed_lookup in El as [Hl Hop].
    by apply negb_true_iff, bool_decide_eq_false in Ho; destruct Ho; apply (Hall e tag value f).
  - split; [|done]. intros _ e' tag value f [= <-] Hin Hl Hop.
    pose proof (List.find_none _ _ Ef (tag, value)) as Hn. apply list_elem_of_In in Hin. specialize (Hn Hin).
    unfold outside_closed in Hn. cbn [fst snd] in Hn. rewrite (proj2 (closed_lookup facets tag f)) in Hn by done.
    by apply negb_false_iff, bool_decide_eq_true in Hn.
Qed.

Lemma facets_checked facets cs defs :
  validate_facets facets cs defs = Ok tt →
  (∀ id f, facets !! id = Some f → facet_shape id f) ∧
  (∀ c, model_condition cs defs c → trim c ≠ String.EmptyString → condition_in_domain facets c).
Proof.
  unfold validate_facets. intros [Hs Hc]%check_then. rewrite check_each_Ok in Hs. split.
  { intros id f Hf%elem_bt_list. apply facet_shape_exact. by apply (Hs (id, f)). }
  intros c Hm Hne. case_decide as Hcl.
  - intros e tag value f _ _ Hl Hop. assert (Hx := proj2 (closed_lookup facets tag f) (conj Hl Hop)).
    rewrite Hcl in Hx. by rewrite lookup_empty in Hx.
  - apply bind_Ok in Hc as (l & El & Hc). rewrite check_each_Ok in Hc. apply condition_values_ok; [done|].
    apply Hc. by apply (model_conditions_spec _ _ _ El).
Qed.

(** ** Override depth *)

(** A tree whose numbers were checked is not too deep for the resolver. *)
Lemma floats_depth tags p : ∀ path depth, validate_parameter_floats p path depth = Ok tt →
  ∀ path' at_path, apply_overrides_recursive tags path' depth p ≠ Err (OverrideTooDeep at_path).
Proof.
  induction p as [p IH] using param_nested. intros path depth E path' at_path. rewrite apply_overrides_eq.
  destruct p as [i t u d v f l s a lm r bs]. cbn [validate_parameter_floats pm_overrides] in *.
  apply check_then in E as [Hd E]. apply check_then in E as [_ E]. apply check_then in E as [_ E].
  unfold depth_ok, ensure_override_depth in *. destruct (MAX_CHAIN_DEPTH <? depth)%nat; [done|].
  cbn [bail_if mbind result_bind]. generalize (take_overrides (mkParameter i t u d v f l s a lm r bs)).
  revert E. generalize 0%nat. induction IH as [|[cond q] bs Hq _ IHbs]; intros idx E base; cbn [merge_blocks]; [done|].
  apply check_then in E as [Eq E]. cbn [cb_condition cb_payload] in *.
  unfold eval_tags. destruct (eval_condition cond tags) as [[]|]; cbn [map_err mbind result_bind]; [|by eapply IHbs|done].
  destruct (apply_overrides_recursive tags path' (S depth) q) as [pl|e] eqn:Ep; cbn [mbind result_bind].
  - destruct (merge_params base pl) eqn:Em; cbn [mbind result_bind]; [by eapply IHbs|]. unfold merge_params in Em.
    intros [= ->]. destruct (clash (pm_unit base) (pm_unit pl)) as [[]|]; [done|].
    destruct (clash (pm_type base) (pm_type pl)) as [[]|]; [done|]. cbn [mbind result_bind] in Em.
    destruct (pm_inherits base), (pm_inherits pl); cbn [mbind result_bind] in Em; try done. case_decide; done.
  - rewrite <-Ep. by eapply Hq.
Qed.

(** ** Parameter values *)

(** The payloads of a tree of overrides, with their depth. *)
Inductive payload_of : Param → nat → Param → Prop :=
  | po_self p : payload_of p 0 p
  | po_block p b n q : b ∈ pm_overrides p → payload_of (cb_payload b) n q → payload_of p (S n) q.

(** The value and the limits of a payload are no infinities and no NaN. *)
Definition finite_param (p : Param) : Prop :=
  (∀ v, pm_value p = Some v → is_non_finite v = false) ∧
  (∀ l v, pm_limits p = Some l → lim_min l = Some v ∨ lim_max l = Some v → is_non_finite v = false).

Lemma reject_non_finite_Ok v path field : reject_non_finite v path field = Ok tt ↔ ∀ x, v = Some x → is_non_finite x = false.
Proof. destruct v as [v|]; cbn; [rewrite bail_if_Ok|]; split; [by intros ? ? [= <-]|intros Hx; by apply Hx|done|done]. Qed.

Lemma floats_exact p : ∀ path depth,
  validate_parameter_floats p path depth = Ok tt ↔
  ∀ n q, payload_of p n q → (depth + n ≤ MAX_CHAIN_DEPTH)%nat ∧ finite_param q.
Proof.
  induction p as [p IH] using param_nested. intros path depth.
  assert (Hsplit : (∀ n q, payload_of p n q → (depth + n ≤ MAX_CHAIN_DEPTH)%nat ∧ finite_param q) ↔
    ((depth ≤ MAX_CHAIN_DEPTH)%nat ∧ finite_param p) ∧
    ∀ b, b ∈ pm_overrides p → ∀ n q, payload_of (cb_payload b) n q → (S depth + n ≤ MAX_CHAIN_DEPTH)%nat ∧ finite_param q).
  { split.
    - intros Hall. split; [destruct (Hall 0%nat p (po_self p)); split; [lia|done]|]. intros b Hb n q Hq.
      destruct (Hall (S n) q) as [? ?]; [by eapply po_block|]. split; [lia|done].
    - intros [[Hd Hp] Hb] n q Hq. destruct Hq as [p|p b n q Hin Hq]; [split; [lia|done]|]. destruct (Hb b Hin n q Hq). split; [lia|done]. }
  rewrite Hsplit. clear Hsplit. destruct p as [i t u d v f l s a lm r bs]. cbn [validate_parameter_floats pm_overrides] in *.
  rewrite !check_then. unfold depth_ok, ensure_override_depth.
  assert (Hd : map_err (λ _, OverrideDepth path) (bail_if (MAX_CHAIN_DEPTH <? depth)%nat (OverrideTooDeep path)) = Ok tt ↔ (depth ≤ MAX_CHAIN_DEPTH)%nat).
  { destruct (Nat.ltb_spec MAX_CHAIN_DEPTH depth); cbn; split; try done; lia. }
  assert (Hl : (match lm with Some limits => _ ← reject_non_finite (lim_min limits) path "limits.min"; reject_non_finite (lim_max limits) path "limits.max" | None => Ok tt end) = Ok tt ↔
    ∀ l v, lm = Some l → lim_min l = Some v ∨ lim_max l = Some v → is_non_finite v = false).
  { destruct lm as [limits|]; [|split; [by intros _ ? ? ?|done]]. rewrite check_then, !reject_non_finite_Ok. split.
    - intros [? ?] l' v' [= <-] [?|?]; auto.
    - intros Hall. split; intros x Hx; eapply Hall; eauto. }
  rewrite Hd, Hl, reject_non_finite_Ok. unfold finite_param. cbn [pm_value pm_limits].
  assert (Hb : ∀ idx, (fix blocks (idx : nat) (bs : list ConditionalBlock) : verified :=
      match bs with
      | [] => Ok tt
      | mkBlock _ payload :: bs =>
          _ ← validate_parameter_floats payload (path +:+ ".overrides[" +:+ decimal idx +:+ "]") (S depth); blocks (S idx) bs
      end) idx bs = Ok tt ↔
    ∀ b, b ∈ bs → ∀ n q, payload_of (cb_payload b) n q → (S depth + n ≤ MAX_CHAIN_DEPTH)%nat ∧ finite_param q).
  { clear -IH. induction IH as [|[c q] bs Hq _ IHbs]; intros idx; [split; [by intros _ b ?%not_elem_of_nil|done]|].
    rewrite check_then, IHbs. cbn [cb_payload] in Hq. rewrite Hq. setoid_rewrite elem_of_cons. split.
    - intros [H1 H2] b [->|Hb]; [exact H1|by apply H2].
    - intros Hall. split; [apply (Hall (mkBlock c q)); by left|]. intros b Hb. apply Hall. by right. }
  rewrite Hb. unfold finite_param. tauto.
Qed.

(** Every payload of the tree is finite and within the depth ceiling. *)
Definition values_ok (p : Param) : Prop := ∀ n q, payload_of p n q → (n ≤ MAX_CHAIN_DEPTH)%nat ∧ finite_param q.

Lemma parameter_values_exact defs cs :
  validate_parameter_values defs cs = Ok tt ↔
  (∀ id p, defs !! id = Some p → values_ok p) ∧
  (∀ id c k p, cs !! id = Some c → params c !! k = Some p → values_ok p).
Proof.
  unfold validate_parameter_values. rewrite check_then, !check_each_Ok. split.
  - intros [Hd Hc]. split.
    + intros id p Hp%elem_bt_list. specialize (Hd _ Hp). by rewrite floats_exact in Hd.
    + intros id c k p Hcomp Hp. assert (Hin : (id, k, p) ∈ all_params cs) by (apply elem_all_params; eauto).
      specialize (Hc _ Hin). by rewrite floats_exact in Hc.
  - intros [Hd Hc]. split.
    + intros [id p] Hp%elem_bt_list. apply floats_exact. by apply (Hd id).
    + intros [[id k] p] (c & Hcomp & Hp)%elem_all_params. apply floats_exact. by eapply (Hc id c k).
Qed.

(** ** The merged summary *)

Definition unique_index (index : export_map) : Prop := ∀ id owners, index !! id = Some owners → (length owners ≤ 1)%nat.

Lemma check_unique_exact index noun : check_unique index noun = Ok tt ↔ unique_index index.
Proof.
  unfold check_unique, unique_index. rewrite check_each_Ok. split.
  - intros Hall id owners Hin%elem_bt_list. specialize (Hall _ Hin). cbn in Hall. destruct owners as [|? [|? ?]]; cbn; [lia|lia|done].
  - intros Hall [id owners] Hin%elem_bt_list. specialize (Hall _ _ Hin). cbn in *. by destruct owners as [|? [|? ?]]; cbn in *; [..|lia].
Qed.

(** A binding names a declared catalogue, a default or one source facet and not
    both; the default is an entry of the catalogue, and the pairs lead from the
    declared values of the source to entries. *)
Record link_ok (m : MergedSummary) (link : BindingLink) : Prop := {
  lo_either : is_Some (bl_default link) → derive_source_count link = 0%nat;
  lo_one : (derive_source_count link ≤ 1)%nat;
  lo_entries : ∃ entries, ms_catalogue_entries m !! bl_catalogue link = Some entries ∧
    (∀ d, bl_default link = Some d → d ∈ entries) ∧
    ∀ source, derive_source link = Some source →
      ∃ domain, declared_domain m source = Some domain ∧
        ∀ k e, (k, e) ∈ derive_pairs link → k ∈ domain ∧ e ∈ entries;
}.

Lemma link_exact m id link : check_binding_link m Complete id link = Ok tt ↔ link_ok m link.
Proof.
  unfold check_binding_link. rewrite bail_bind, andb_false_iff, Nat.ltb_ge.
  assert (Hdef : declares (bl_default link) = false ∨ (derive_source_count link ≤ 0)%nat ↔
    (is_Some (bl_default link) → derive_source_count link = 0%nat)).
  { destruct (bl_default link); cbn; split; try by left.
    - intros [?|?] _; [done|lia].
    - intros Hx. right. rewrite Hx; [lia|eauto].
    - by intros _ [? ?]. }
  rewrite Hdef. destruct (ms_catalogue_entries m !! bl_catalogue link) as [entries|] eqn:Ee; [|split; [by intros [_ ?]|by intros [_ _ (? & ? & _)]; simplify_eq]].
  rewrite check_then, bail_bind, Nat.ltb_ge.
  assert (Hd : match bl_default link with Some d => bail_if (negb (bool_decide (d ∈ entries))) (BindingDefault id d) | None => Ok tt end = Ok tt ↔
    ∀ d, bl_default link = Some d → d ∈ entries).
  { destruct (bl_default link) as [d|]; [|done]. rewrite bail_if_Ok, negb_false_iff, bool_decide_eq_true. split; [by intros ? ? [= <-]|auto]. }
  assert (Hs : match derive_source link with
    | None => Ok tt
    | Some source => match declared_domain m source with
        | None => if defers_unresolved Complete then Ok tt else Err (BindingSource id source)
        | Some domain => check_each (check_derive_pair id source domain entries) (derive_pairs link) end end = Ok tt ↔
    ∀ source, derive_source link = Some source → ∃ domain, declared_domain m source = Some domain ∧
      ∀ k e, (k, e) ∈ derive_pairs link → k ∈ domain ∧ e ∈ entries).
  { destruct (derive_source link) as [source|]; [|split; [by intros _ ? ?|done]]. destruct (declared_domain m source) as [domain|] eqn:Edom.
    - rewrite check_each_Ok. unfold check_derive_pair. split.
      + intros Hall ? [= <-]. exists domain. split; [done|]. intros k e Hin. specialize (Hall _ Hin). cbn in Hall.
        rewrite bail_bind, bail_if_Ok, !negb_false_iff, !bool_decide_eq_true in Hall. done.
      + intros Hall [k e] Hin. destruct (Hall source eq_refl) as (dm & Hdm & Hp). rewrite Edom in Hdm. injection Hdm as <-. cbn.
        rewrite bail_bind, bail_if_Ok, !negb_false_iff, !bool_decide_eq_true. auto.
    - split; [done|]. intros Hall. destruct (Hall source eq_refl) as (? & ? & _). congruence. }
  rewrite Hd, Hs. split.
  - intros (H1 & H2 & H3 & H4). split; [done|done|]. exists entries. done.
  - intros [H1 H2 (es & Hes & H3 & H4)]. rewrite Ee in Hes. injection Hes as <-. done.
Qed.

(** The entries of the catalogue of a binding. *)
Definition link_entries (m : MergedSummary) (link : BindingLink) : list string := default [] (ms_catalogue_entries m !! bl_catalogue link).

(** A requirement names a binding; the entries it accepts are some, distinct and
    in the catalogue, and then its condition can be read. *)
Definition requirement_ok (m : MergedSummary) (r : RequirementLink) : Prop :=
  ∃ link, ms_binding_links m !! rl_binding r = Some link ∧
    ∀ accepts, rl_accepts r = Some accepts →
      accepts ≠ [] ∧ NoDup accepts ∧ (∀ e, e ∈ accepts → e ∈ link_entries m link) ∧
      ∀ c, rl_condition r = Some c → trim c ≠ String.EmptyString → ∃ g, parse_condition_expr (trim c) = Ok g.

Lemma check_accepts_exact r entries seen accepts :
  check_accepts r entries seen accepts = Ok tt ↔
  NoDup accepts ∧ (∀ e, e ∈ accepts → e ∈ entries) ∧ ∀ e, e ∈ accepts → e ∉ seen.
Proof.
  revert seen. induction accepts as [|a accepts IH]; intros seen; cbn [check_accepts].
  { split; [|done]. intros _. split_and!; [constructor|by intros e ?%not_elem_of_nil..]. }
  rewrite !bail_bind, IH, bool_decide_eq_false, negb_false_iff, bool_decide_eq_true, NoDup_cons. setoid_rewrite elem_of_cons. split.
  - intros (Hs & Ha & Hn & He & Hd). split_and!; [|done|naive_solver|set_solver]. intros Hin. specialize (Hd a Hin). set_solver.
  - intros ([Hni Hn] & He & Hs). split_and!; [naive_solver|naive_solver|done|naive_solver|]. intros e Hin. specialize (Hs e (or_intror Hin)). set_solver.
Qed.

Lemma requirement_exact m r : check_requirement m Complete r = Ok tt ↔ requirement_ok m r.
Proof.
  unfold check_requirement, requirement_ok. destruct (ms_binding_links m !! rl_binding r) as [link|]; [|split; [done|by intros (? & ? & _)]].
  assert (Hc : check_requirement_condition r = Ok tt ↔
    ∀ c, rl_condition r = Some c → trim c ≠ String.EmptyString → ∃ g, parse_condition_expr (trim c) = Ok g).
  { unfold check_requirement_condition. destruct (rl_condition r) as [c|]; [|split; [by intros _ ? ?|done]]. case_decide as Hn.
    - split; [by intros _ ? [= <-]|done].
    - destruct (parse_condition_expr (trim c)) as [g|e] eqn:Ep; split; try done.
      + intros _ ? [= <-] _. eauto.
      + intros Hall. destruct (Hall c eq_refl Hn) as (? & ?). congruence. }
  destruct (rl_accepts r) as [accepts|]; [|split; [intros _; exists link; split; [done|by intros ? ?]|done]].
  rewrite bail_bind, check_then, check_accepts_exact, bool_decide_eq_false, Hc. unfold link_entries. split.
  - intros (H1 & (H2 & H3 & _) & H4). exists link. split; [done|]. by intros ? [= <-].
  - intros (l & [= <-] & Hall). destruct (Hall accepts eq_refl) as (H1 & H2 & H3 & H4). split_and!; try done.
Qed.

(** Some entry of the catalogue is accepted by every requirement on a binding. *)
Definition can_be_met (m : MergedSummary) (id : string) (link : BindingLink) (l : list RequirementLink) : Prop :=
  ∃ e, e ∈ link_entries m link ∧ ∀ r accepts, r ∈ l → rl_binding r = id → rl_accepts r = Some accepts → e ∈ accepts.

Definition narrowed_by (l : list RequirementLink) (id : string) : Prop := ∃ r, r ∈ l ∧ rl_binding r = id ∧ is_Some (rl_accepts r).

Lemma narrow_surviving m l id :
  let surviving := (foldl (narrow m) (∅, ∅) l).1 in
  match ms_binding_links m !! id with
  | None => surviving !! id = None
  | Some link =>
      match surviving !! id with
      | None => ~ narrowed_by l id
      | Some es => narrowed_by l id ∧ ∀ e, e ∈ es ↔ e ∈ link_entries m link ∧
          ∀ r accepts, r ∈ l → rl_binding r = id → rl_accepts r = Some accepts → e ∈ accepts
      end
  end.
Proof.
  unfold narrowed_by. cbn zeta. induction l as [|r l IH] using rev_ind.
  { cbn. destruct (ms_binding_links m !! id); [|done]. rewrite lookup_empty. by intros (? & ?%not_elem_of_nil & _). }
  rewrite foldl_app. cbn [foldl]. destruct (foldl (narrow m) (∅, ∅) l) as [surviving narrowed]. cbn [fst] in IH. unfold narrow.
  assert (Hin : ∀ r0, r0 ∈ l ++ [r] ↔ r0 ∈ l ∨ r0 = r) by (intros; by rewrite elem_of_app, list_elem_of_singleton).
  destruct (rl_accepts r) as [accepts|] eqn:Ea.
  2:{ cbn [fst]. destruct (ms_binding_links m !! id) as [link|]; [|done]. destruct (surviving !! id) as [es|]; setoid_rewrite Hin.
      - destruct IH as [(r' & ? & ? & ?) He]. split; [naive_solver|]. intros e. rewrite He. split; [|naive_solver].
        intros [? Hall]. split; [done|]. intros r0 a [?| ->]; [by eapply Hall|congruence].
      - intros (r0 & [?| ->] & ? & Hs); [apply IH; eauto|]. rewrite Ea in Hs. by destruct Hs. }
  destruct (ms_binding_links m !! rl_binding r) as [lk|] eqn:El.
  2:{ cbn [fst]. destruct (ms_binding_links m !! id) as [link|] eqn:Eid; [|done].
      assert (Hne : rl_binding r ≠ id) by congruence. destruct (surviving !! id) as [es|]; setoid_rewrite Hin.
      - destruct IH as [(r' & ? & ? & ?) He]. split; [naive_solver|]. intros e. rewrite He. naive_solver.
      - intros (r0 & [?| ->] & ? & Hs); [apply IH; eauto|done]. }
  cbn [fst]. destruct (decide (rl_binding r = id)) as [<-|Hne].
  - rewrite El in IH |- *. rewrite lookup_insert_eq. setoid_rewrite Hin. split; [exists r; split; [by right|]; rewrite Ea; eauto|].
    intros e. rewrite list_elem_of_In, List.filter_In, <-list_elem_of_In, bool_decide_eq_true. destruct (surviving !! rl_binding r) as [es|].
    + destruct IH as [_ He]. rewrite He. split.
      * intros [[? Hall] ?]. split; [done|]. intros r0 a [?| ->] ? ?; [by eapply Hall|congruence].
      * intros [? Hall]. split; [split; [done|]|]; naive_solver.
    + fold (link_entries m lk). split.
      * intros [? ?]. split; [done|]. intros r0 a [?| ->] ? ?; [exfalso; apply IH; eauto 10|congruence].
      * intros [? Hall]. split; [done|]. by apply (Hall r); [right|..].
  - rewrite lookup_insert_ne by done. destruct (ms_binding_links m !! id) as [link|]; [|done]. destruct (surviving !! id) as [es|]; setoid_rewrite Hin.
    + destruct IH as [(r' & ? & ? & ?) He]. split; [naive_solver|]. intros e. rewrite He. naive_solver.
    + intros (r0 & [?| ->] & ? & Hs); [apply IH; eauto|done].
Qed.

Lemma intersection_exact m :
  validate_accepts_intersection m = Ok tt ↔
  ∀ id link, ms_binding_links m !! id = Some link → narrowed_by (ms_requirements m) id → can_be_met m id link (ms_requirements m).
Proof.
  unfold validate_accepts_intersection. pose proof (narrow_surviving m (ms_requirements m)) as Hn. cbn zeta in Hn.
  destruct (foldl (narrow m) (∅, ∅) (ms_requirements m)) as [surviving narrowed]. cbn [fst] in Hn. rewrite check_each_Ok. split.
  - intros Hall id link Hl Hr. specialize (Hn id). rewrite Hl in Hn. destruct (surviving !! id) as [es|] eqn:Es; [|done].
    destruct Hn as [_ He]. apply elem_bt_list in Es. specialize (Hall _ Es). cbn in Hall. apply bail_if_Ok, bool_decide_eq_false in Hall.
    destruct es as [|e es]; [done|]. exists e. apply He. constructor.
  - intros Hall [id es] Hin%elem_bt_list. cbn. apply bail_if_Ok, bool_decide_eq_false. intros ->. specialize (Hn id). rewrite Hin in Hn.
    destruct (ms_binding_links m !! id) as [link|] eqn:El; [|done]. destruct Hn as [Hr He]. destruct (Hall id link El Hr) as (e & Hm).
    by apply (not_elem_of_nil e), He.
Qed.

(** What the checks of a merged summary accept. *)
Record summary_ok (m : MergedSummary) : Prop := {
  sk_unique : Forall unique_index [mx_components (ms_exports m); mx_definitions (ms_exports m); mx_artifacts (ms_exports m);
    mx_catalogues (ms_exports m); mx_facets (ms_exports m); mx_bindings (ms_exports m)];
  sk_apart : ∀ id, is_Some (mx_bindings (ms_exports m) !! id) → mx_facets (ms_exports m) !! id = None;
  sk_links : ∀ id link, ms_binding_links m !! id = Some link → link_ok m link;
  sk_requirements : ∀ r, r ∈ ms_requirements m → requirement_ok m r;
  sk_met : ∀ id link, ms_binding_links m !! id = Some link → narrowed_by (ms_requirements m) id →
    can_be_met m id link (ms_requirements m);
}.

Lemma unique_exports_exact m :
  validate_unique_exports m = Ok tt ↔
  Forall unique_index [mx_components (ms_exports m); mx_definitions (ms_exports m); mx_artifacts (ms_exports m);
    mx_catalogues (ms_exports m); mx_facets (ms_exports m); mx_bindings (ms_exports m)] ∧
  ∀ id, is_Some (mx_bindings (ms_exports m) !! id) → mx_facets (ms_exports m) !! id = None.
Proof.
  unfold validate_unique_exports. rewrite !check_then, !check_unique_exact, !Forall_cons, Forall_nil, check_each_Ok.
  assert (Hb : (∀ a, a ∈ bt_list (mx_bindings (ms_exports m)) →
      match mx_facets (ms_exports m) !! a.1 with
      | Some facet_sources => Err (BindingIsFacet a.1 (default "<unknown>" (head facet_sources)) (default "<unknown>" (head a.2)))
      | None => Ok tt
      end = Ok tt) ↔ ∀ id, is_Some (mx_bindings (ms_exports m) !! id) → mx_facets (ms_exports m) !! id = None).
  { split.
    - intros Hall id [l Hl]. apply elem_bt_list in Hl. specialize (Hall _ Hl). cbn in Hall. by destruct (mx_facets _ !! id).
    - intros Hall [id l] Hl%elem_bt_list. cbn. by rewrite Hall by eauto. }
  rewrite Hb. tauto.
Qed.

Lemma summary_exact m : validate_linked_summary m = Ok tt ↔ summary_ok m.
Proof.
  unfold validate_linked_summary, validate_merged_summary, validate_requirements, validate_binding_links.
  rewrite !check_then, unique_exports_exact, intersection_exact, !check_each_Ok. split.
  - intros ((H1 & H2) & H3 & H4 & H5). split; try done.
    + intros id link Hl%elem_bt_list. by apply (link_exact m id), (H3 (id, link)).
    + intros r Hr. by apply requirement_exact, H4.
  - intros [H1 H2 H3 H4 H5]. split_and!; try done.
    + intros [id link] Hl%elem_bt_list. by apply link_exact, (H3 id).
    + intros r Hr. by apply requirement_exact, H4.
Qed.

(** ** The whole model *)

Record verified_model (raw : Config) (summaries : list InterfaceSummary) : Prop := {
  vm_inheritance : ∀ x, ¬ tc (inherits (definitions raw)) x x;
  vm_parents : ∀ x parent, inherits (definitions raw) x parent → is_Some (definitions raw !! parent);
  vm_dependencies : ∀ x, ¬ tc (depends (components raw)) x x;
  vm_edges : ∀ x y, depends (components raw) x y → edge_ok (components raw) Complete x y;
  vm_catalogues : ∀ id c, catalogues raw !! id = Some c → catalogue_ok id c;
  vm_values : (∀ id p, definitions raw !! id = Some p → values_ok p) ∧
    (∀ id c k p, components raw !! id = Some c → params c !! k = Some p → values_ok p);
  vm_summary : summary_ok (merge summaries);
  vm_facets : ∀ id f, effective_facets raw !! id = Some f → facet_shape id f;
  vm_conditions : ∀ c, model_condition (components raw) (definitions raw) c → trim c ≠ String.EmptyString →
    condition_in_domain (effective_facets raw) c;
  vm_bound : ∀ c comp k p f, components raw !! c = Some comp → params comp !! k = Some p → pm_facet p = Some f →
    bound_ok (effective_facets raw) p f;
  vm_constraints : ∀ id c, constraints raw !! id = Some c → constraint_ok (effective_facets raw) c;
}.

Lemma verified_well_formed `{HashOrder} raw summaries :
  verify_complete_model raw summaries = Ok tt → verified_model raw summaries.
Proof.
  unfold verify_complete_model. intros [Hi [Hd [Hc [Hv [Hs [Hf [Hb Hk]%check_then]%check_then]%check_then]%check_then]%check_then]%check_then]%check_then.
  pose proof (definition_inheritance_spec (definitions raw) Complete) as Si.
  unfold validate_definition_inheritance in Hi. rewrite Hi in Si. destruct Si as [Hac Hkn]. specialize (Hkn eq_refl).
  pose proof (component_dependencies_spec (components raw) Complete) as Sd.
  unfold validate_component_dependencies in Hd. rewrite Hd in Sd. destruct Sd as [Hed Hdc].
  apply facets_checked in Hf as [Hsh Hcond]. apply bind_Ok in Hb as (b & Hb & _).
  apply bound_all_ok in Hb as [Hbound _]. split; try done.
  - intros x Hx. apply (Hac x). apply (tc_congruence (R := inherits (definitions raw)) id); [|done].
    intros a y Ha. split; [done|]. by apply (Hkn a).
  - by apply catalogues_exact.
  - by apply parameter_values_exact.
  - by apply summary_exact.
  - intros c comp k p f Hcomp Hp. apply (Hbound c k). apply elem_all_params. eauto.
  - by apply constraints_exact.
Qed.

(** C6: What the whole-model check accepts is well formed.  The parents of
    definitions and the dependencies of components are declared, and neither
    graph has a cycle; the condition of a component implies that of its
    dependencies; catalogues are complete typed tables of finite numbers; the
    values and limits of parameters are finite at every depth of their
    overrides, which is within the ceiling; in the merged summaries exported ids
    are unique and no binding is a facet, every binding names a declared
    catalogue and, if it is derived, one declared source whose values it maps to
    entries, every requirement names a declared binding and accepts entries of
    its catalogue, and the requirements on a binding have an entry in common;
    facets have distinct symbol tokens; conditions and constraints compare closed
    facets with declared values only; and a parameter bound to a facet is a
    string without a value of its own.  (The parents of the parameters of
    components are not checked here.) *)
Theorem verify_complete_model_sound (H : HashOrder) raw summaries :
  verify_complete_model raw summaries = Ok tt → verified_model raw summaries.
Proof. apply verified_well_formed. Qed.

(** The inheritance check decides: it accepts only acyclic chains of
    declared definitions, and a refusal names a real cycle, a real missing
    parent or a real chain longer than the ceiling; it never runs out of fuel. *)
Theorem definition_inheritance_decided defs :
  match validate_definition_inheritance defs with
  | Ok _ => (∀ x, ¬ tc (inherits defs) x x) ∧ ∀ x parent, inherits defs x parent → is_Some (defs !! parent)
  | Err (DefinitionCycle c) => closed_walk (inherits defs) c
  | Err (DefinitionTooDeep n) => ∃ chain, is_walk (inherits defs) chain ∧ NoDup chain ∧
      MAX_CHAIN_DEPTH < length chain ∧ last chain = Some n
  | Err (InheritsUnknown n parent) => inherits defs n parent ∧ defs !! parent = None
  | Err _ => False
  end.
Proof.
  pose proof (definition_inheritance_spec defs Complete) as Hs. unfold validate_definition_inheritance.
  assert (Hsub : ∀ l, is_walk (inherits_here defs) l → is_walk (inherits defs) l) by (intros l; apply walk_impl; by intros ? ? []).
  destruct (validate_definition_inheritance_scoped defs Complete) as [[]|e].
  - destruct Hs as [Hac Hkn]. specialize (Hkn eq_refl). split; [|done]. intros x Hx. apply (Hac x).
    apply (tc_congruence (R := inherits defs) id); [|done]. intros a y Ha. split; [done|]. by apply (Hkn a).
  - destruct e; try done; [destruct Hs as (? & ?); split; auto|destruct Hs as (c & ? & ?); exists c; auto|naive_solver].
Qed.

(** C36: The dependency check decides, in every order of the hash map: it
    accepts exactly acyclic graphs of declared components whose conditions imply
    those of their dependencies, up to the depth ceiling, and a refusal shows a
    cycle, an edge at fault or a chain longer than the ceiling. *)
Theorem component_dependencies_decided (H : HashOrder) cs :
  match validate_component_dependencies cs with
  | Ok _ => (∀ x y, depends cs x y → edge_ok cs Complete x y) ∧ ∀ x, ¬ tc (depends cs) x x
  | Err (DependencyCycle c) => closed_walk (depends cs) c
  | Err (DependencyTooDeep n) => ∃ chain, is_walk (depends cs) chain ∧ NoDup chain ∧
      MAX_CHAIN_DEPTH < length chain ∧ last chain = Some n
  | Err _ => ∃ x y, depends cs x y ∧ ¬ edge_ok cs Complete x y
  end.
Proof. apply component_dependencies_spec. Qed.

(** ** Examples *)

Definition chain_name (i : nat) : string := "d" +:+ decimal (1000 + i).

Definition chain_link (parent : nat) : Param :=
  mkParameter (Some (chain_name parent)) None None None None None None None None None None [].

(** A chain of [n] definitions, each inheriting from its predecessor in the
    alphabet, or from its successor. *)
Definition parents_first (n : nat) : gmap string Param :=
  list_to_map ((chain_name 0, blank) :: ((λ i, (chain_name (S i), chain_link i)) <$> seq 0 (n - 1))).
Definition parents_last (n : nat) : gmap string Param :=
  list_to_map ((chain_name (n - 1), blank) :: ((λ i, (chain_name i, chain_link (S i))) <$> seq 0 (n - 1))).

(** The depth ceiling depends on the spelling of the ids: a chain of 1,200
    definitions is accepted when parents come first in the alphabet, since each
    walk stops at its finished parent, and refused when they come last. *)
Example ceiling_depends_on_names :
  validate_definition_inheritance (parents_first 1200) = Ok tt ∧
  validate_definition_inheritance (parents_last 1200) = Err (DefinitionTooDeep (chain_name 1000)).
Proof. split; vm_compute; reflexivity. Qed.

(** When one unit is checked, an undeclared facet hides a later value
    outside a closed domain: only the first operand at fault is kept, and it is
    then deferred. *)
Example deferred_facet_masks_value :
  let facets := {["region" := mkFacet ["eu"; "us"] None false None]} in
  check_constraint facets UnitLocal "c" (mkConstraintDecl "region == 'mars'" None)
    = Err (ConstraintViolates "c" (UndeclaredValue "region" "mars")) ∧
  check_constraint facets UnitLocal "c" (mkConstraintDecl "tier != 'x' || region == 'mars'" None) = Ok tt.
Proof. split; vm_compute; reflexivity. Qed.

(** A unit that binds a catalogue of another unit and lists what it accepts. *)
Definition foreign_catalogue : MergedSummary :=
  mkMerged ∅ (mkMergedExports ∅ ∅ ∅ ∅ ∅ ∅ ∅) (mkImports ∅ ∅ ∅ ∅ ∅) ∅ ∅ ∅
    {["box" := mkBindingLink "boxes" None None [] 0]}
    [mkRequirementLink "line" "slot" "box" (Some ["small"]) None] [] [].

(** When one unit is checked, a binding to another unit's catalogue is
    deferred to the link, but a requirement on it with an [accepts] list is
    refused, because the entries of the catalogue are taken to be none. *)
Example foreign_catalogue_refused :
  validate_binding_links foreign_catalogue UnitLocal = Ok tt ∧
  validate_object_summary foreign_catalogue = Err (RequiresEntry "line" "slot" "small").
Proof. split; vm_compute; reflexivity. Qed.

(** *** A model that passes *)

Definition demo_bound : Param :=
  mkParameter None (Some "string") None None None (Some "region") None None None None None
    [mkBlock "region == 'eu'" (mkParameter None None (Some "code") None None None None None None None None [])].

Definition demo_app : Component :=
  mkComponent (Some "service") (Some "region == 'eu'") ["base"]
    {["box" := mkRequirement "line_box" (Some ["small"; "large"])]} {["zone" := demo_bound]}.

Definition demo_model : Config :=
  mkConfig "demo" "1.0.0" demo_definitions
    {[ "app" := demo_app;
       "base" := mkComponent (Some "platform") (Some "region == 'eu' || region == 'us'") [] ∅
                   {["size" := demo_parameter]} ]}
    ∅
    {["region" := mkFacet ["eu"; "us"; "asia"] (Some "eu") false None]}
    {["policy" := mkConstraintDecl "region != 'asia' || line_box == 'small'" None]}
    {["boxes" := mkCatalogue {["width" := mkField FInteger None None]}
                   {["small" := {["width" := VInteger 1]}; "large" := {["width" := VInteger 2]}]} None]}
    {["line_box" := mkBinding "boxes" None (Some {["region" := {["eu" := "small"]}]}) None]}.

Definition demo_tags : gmap string string := {["region" := "eu"; "line_box" := "small"]}.

Lemma verify_complete_model_sound_witness :
  verify_complete_model (H := sorted_order) demo_model [summarize (H := sorted_order) demo_model "demo.json"] = Ok tt ∧
  verified_model demo_model [summarize (H := sorted_order) demo_model "demo.json"].
Proof.
  assert (E : verify_complete_model (H := sorted_order) demo_model
    [summarize (H := sorted_order) demo_model "demo.json"] = Ok tt) by (vm_compute; reflexivity).
  split; [exact E|]. exact (verify_complete_model_sound sorted_order _ _ E).
Defined.

Lemma bound_parameter_resolves_witness :
  validate_facet_bindings_scoped (components demo_model) (effective_facets demo_model) Complete = Ok tt ∧
  ∃ r, resolve_parameter demo_tags demo_bound "p" demo_definitions ∅ = Ok r ∧
    rp_type r = "string" ∧ ∃ v, demo_tags !! "region" = Some v ∧ rp_value r = VString v.
Proof.
  assert (E : validate_facet_bindings_scoped (components demo_model) (effective_facets demo_model) Complete = Ok tt)
    by (vm_compute; reflexivity).
  split; [exact E|]. eexists. split; [vm_compute; reflexivity|].
  destruct (bound_parameter_resolves _ _ "app" demo_app "zone" demo_bound "region" E eq_refl eq_refl eq_refl) as (_ & Hr & _).
  apply (Hr demo_tags "p" demo_definitions ∅). vm_compute. reflexivity.
Defined.

Lemma resolved_closed_witness :
  ∃ r, resolve (H := sorted_order) demo_tags demo_model = Ok r ∧ "app" ∈ dom (rf_components r) ∧
    "base" ∈ dom (rf_components r).
Proof.
  eexists. split; [vm_compute; reflexivity|]. split; [apply elem_of_dom; eexists; vm_compute; reflexivity|].
  eapply (resolved_closed sorted_order demo_tags demo_model _ "app" "base").
  - vm_compute. reflexivity.
  - intros name c cond e Hc Hcond He t Ht. unfold demo_model in Hc. cbn [components] in Hc.
    rewrite !lookup_insert_Some, lookup_singleton_Some in Hc. destruct_or? Hc; destruct_and? Hc; subst;
      injection Hcond as <-; vm_compute in He; injection He as <-; unfold expr_tags in Ht; cbn in Ht;
      repeat (apply elem_of_cons in Ht as [->|Ht]; [vm_compute; eauto|]); by apply not_elem_of_nil in Ht.
  - intros x y cx cy ex ey (c & Hc & Hy) Hx Hcy Hex Hey. exists "a", "b". intros l r Hin. exfalso. revert Hin.
    unfold condition_expr_of in *. unfold demo_model in Hx, Hcy. cbn [components] in Hx, Hcy.
    rewrite !lookup_insert_Some, lookup_singleton_Some in Hx, Hcy. destruct_or? Hx; destruct_or? Hcy; destruct_and? Hx;
      destruct_and? Hcy; subst; vm_compute in Hex; vm_compute in Hey; injection Hex as <-; injection Hey as <-;
      cbn; apply not_elem_of_nil.
  - vm_compute. reflexivity.
  - apply elem_of_dom. eexists. vm_compute. reflexivity.
  - exists demo_app. split; [reflexivity|]. constructor.
Defined.
