(* ===== verification/SummaryProps.v ===== *)
(** * What a summary says of its chunk

    The theorems about [InterfaceSummary.v]: which fields each walk changes, and
    with them what the summary of a chunk and the merge of a compile set hold. *)
From S2P Require Import Prelude Tokens Ast FacetCompare Text Schema Resolver ResolverProps InterfaceSummary.
From S2P Require Import LinkVerify LinkVerifyProps.

(** ** Walks that only import *)

(** [s'] is [s] with other imports and selectors. *)
Record keeps (s s' : InterfaceSummary) : Prop := {
  kp_unit : is_unit s' = is_unit s;
  kp_source : is_source_id s' = is_source_id s;
  kp_exports : is_exports s' = is_exports s;
  kp_domains : is_facet_domains s' = is_facet_domains s;
  kp_open : is_open_facets s' = is_open_facets s;
  kp_entries : is_catalogue_entries s' = is_catalogue_entries s;
  kp_links : is_binding_links s' = is_binding_links s;
  kp_requirements : is_requirements s' = is_requirements s;
  kp_clauses : is_clauses s' = is_clauses s;
}.

#[export] Instance keeps_preorder : PreOrder keeps.
Proof. split; [by split|]. intros s1 s2 s3 [] []. split; congruence. Qed.

Lemma foldl_keeps {A} (f : InterfaceSummary → A → InterfaceSummary) l s :
  (∀ s a, keeps s (f s a)) → keeps s (foldl f s l).
Proof.
  intros Hf. revert s. induction l as [|a l IH]; intros s; cbn; [done|]. etransitivity; [apply Hf|apply IH].
Qed.

Lemma import_facet_keeps name importer s : keeps s (import_facet name importer s).
Proof. by split. Qed.

Lemma condition_facets_keeps condition importer s : keeps s (collect_condition_facets condition importer s).
Proof.
  unfold collect_condition_facets. case_decide; [done|]. destruct (parse_condition_expr _); [|done].
  apply foldl_keeps. intros. apply import_facet_keeps.
Qed.

Lemma record_selector_keeps id condition s : keeps s (record_selector id condition s).
Proof. unfold record_selector. case_decide; [done|by split]. Qed.

Lemma parameter_links_keeps p path s : keeps s (collect_parameter_links p path s).
Proof.
  revert p path s. fix IH 1. intros [i t u d v f l sf a lm r overrides] path s. cbn [collect_parameter_links].
  transitivity (match i with Some target => import_definition target path s | None => s end); [by destruct i; split|].
  generalize (match i with Some target => import_definition target path s | None => s end). clear s. generalize 0%nat.
  induction overrides as [|[c q] bs IHbs]; intros idx s; [done|].
  etransitivity; [apply condition_facets_keeps|]. etransitivity; [apply record_selector_keeps|].
  etransitivity; [apply IH|apply IHbs].
Qed.

(** ** Requirements, clauses and links *)

Definition requirements_of (id : string) (c : Component) : list RequirementLink :=
  (λ sr, mkRequirementLink id sr.1 (rq_binding sr.2) (rq_accepts sr.2) (cp_condition c)) <$> bt_list (requires c).

(** [s'] is [s] with other imports and selectors and these lists and links. *)
Record extends (s s' : InterfaceSummary) (links : gmap string BindingLink) (r : list RequirementLink) (c : list Clause)
    : Prop := {
  xt_unit : is_unit s' = is_unit s;
  xt_source : is_source_id s' = is_source_id s;
  xt_exports : is_exports s' = is_exports s;
  xt_domains : is_facet_domains s' = is_facet_domains s;
  xt_open : is_open_facets s' = is_open_facets s;
  xt_entries : is_catalogue_entries s' = is_catalogue_entries s;
  xt_links : is_binding_links s' = links;
  xt_requirements : is_requirements s' = r;
  xt_clauses : is_clauses s' = c;
}.

Lemma keeps_extends s s' : keeps s s' → extends s s' (is_binding_links s) (is_requirements s) (is_clauses s).
Proof. by intros []; split. Qed.

Lemma extends_trans s1 s2 s3 l r c l' r' c' : extends s1 s2 l r c → extends s2 s3 l' r' c' → extends s1 s3 l' r' c'.
Proof. intros [] []. split; congruence. Qed.

Lemma add_requirements id c s l :
  extends s (foldl (add_requirement id c) s l) (is_binding_links s)
    (is_requirements s ++ ((λ sr, mkRequirementLink id sr.1 (rq_binding sr.2) (rq_accepts sr.2) (cp_condition c)) <$> l))
    (is_clauses s).
Proof.
  revert s. induction l as [|[slot rq] l IH]; intros s; cbn [foldl fmap list_fmap]; [rewrite app_nil_r; by split|].
  assert (H0 : extends s (add_requirement id c s (slot, rq)) (is_binding_links s)
    (is_requirements s ++ [mkRequirementLink id slot (rq_binding rq) (rq_accepts rq) (cp_condition c)]) (is_clauses s)) by (by split).
  eapply extends_trans; [exact H0|]. destruct H0 as [_ _ _ _ _ _ <- Hr <-]. cbn [fst snd].
  rewrite (cons_middle _ (is_requirements s)), (assoc_L (++)), <-Hr. apply IH.
Qed.

Lemma component_links id c s :
  extends s (collect_component_links id c s) (is_binding_links s) (is_requirements s ++ requirements_of id c) (is_clauses s).
Proof.
  unfold collect_component_links.
  set (s1 := foldl _ s (depends_on c)). assert (H1 : keeps s s1) by (apply foldl_keeps; intros; by split).
  set (s2 := match cp_condition c with Some _ => _ | None => _ end).
  assert (H2 : keeps s s2).
  { unfold s2. destruct (cp_condition c); [|done]. transitivity s1; [done|].
    etransitivity; [apply condition_facets_keeps|apply record_selector_keeps]. }
  set (s3 := foldl (add_requirement id c) s2 _). pose proof (add_requirements id c s2 (bt_list (requires c))) as H3.
  fold s3 in H3. eapply extends_trans; [by apply keeps_extends|]. eapply extends_trans; [exact H3|].
  destruct H2 as [_ _ _ _ _ _ <- <- <-]. destruct H3 as [_ _ _ _ _ _ <- H3r <-]. unfold requirements_of. rewrite <-H3r.
  apply keeps_extends, foldl_keeps. intros s' kp. apply parameter_links_keeps.
Qed.

Lemma constraint_links id c s :
  extends s (collect_constraint_links id c s) (is_binding_links s) (is_requirements s)
    (is_clauses s ++ [mkClause id (cn_condition c)]).
Proof.
  unfold collect_constraint_links.
  set (s1 := set_lists s (is_requirements s) (is_clauses s ++ [mkClause id (cn_condition c)]) (is_selectors s)).
  eapply (extends_trans s s1); [by split|]. apply (keeps_extends s1), condition_facets_keeps.
Qed.

Lemma binding_links id b s :
  extends s (collect_binding_links id b s) (<[id := link_of b]> (is_binding_links s)) (is_requirements s) (is_clauses s).
Proof. unfold collect_binding_links. by destruct (derive_source (link_of b)); split. Qed.

Lemma foldl_components s l :
  extends s (foldl (λ s kc, collect_component_links kc.1 kc.2 s) s l) (is_binding_links s)
    (is_requirements s ++ flat_map (λ kc, requirements_of kc.1 kc.2) l) (is_clauses s).
Proof.
  revert s. induction l as [|[id c] l IH]; intros s; cbn [foldl flat_map]; [rewrite app_nil_r; by split|].
  pose proof (component_links id c s) as Hc. eapply extends_trans; [exact Hc|].
  destruct Hc as [_ _ _ _ _ _ <- Hr <-]. rewrite (assoc_L (++)). cbn [fst snd]. rewrite <-Hr. apply IH.
Qed.

Lemma foldl_constraints s (l : list (string * Constraint)) :
  extends s (foldl (λ s kc, collect_constraint_links kc.1 kc.2 s) s l) (is_binding_links s) (is_requirements s)
    (is_clauses s ++ ((λ kc, mkClause kc.1 (cn_condition kc.2)) <$> l)).
Proof.
  revert s. induction l as [|[id c] l IH]; intros s; cbn [foldl fmap list_fmap]; [rewrite app_nil_r; by split|].
  pose proof (constraint_links id c s) as Hc. eapply extends_trans; [exact Hc|].
  destruct Hc as [_ _ _ _ _ _ <- <- Hl]. rewrite (cons_middle _ (is_clauses s)), (assoc_L (++)). cbn [fst snd]. rewrite <-Hl. apply IH.
Qed.

Lemma foldl_bindings s l :
  NoDup l.*1 → (∀ k, k ∈ l.*1 → is_binding_links s !! k = None) →
  extends s (foldl (λ s kb, collect_binding_links kb.1 kb.2 s) s l)
    (is_binding_links s ∪ (link_of <$> list_to_map l)) (is_requirements s) (is_clauses s).
Proof.
  revert s. induction l as [|[id b] l IH]; intros s; cbn [foldl fmap list_fmap fst snd].
  { intros _ _. rewrite list_to_map_nil, fmap_empty, (right_id_L ∅ (∪)). by split. }
  intros [Hni Hnd]%NoDup_cons Hnew. pose proof (binding_links id b s) as Hb. eapply extends_trans; [exact Hb|].
  destruct Hb as [_ _ _ _ _ _ Hl <- <-]. rewrite list_to_map_cons, fmap_insert.
  assert (Hid : is_binding_links s !! id = None) by (apply Hnew; constructor).
  rewrite <-(insert_union_r _ _ _ _ Hid), insert_union_l, <-Hl. apply IH; [done|]. intros k Hk. rewrite Hl.
  rewrite lookup_insert_ne; [|by intros ->]. apply Hnew. by constructor.
Qed.

(** ** The summary of a chunk *)

Definition exports_of (c : Config) : Exports :=
  mkExports (dom (definitions c)) (dom (components c)) (dom (artifacts c)) (dom (facets c)) (dom (bindings c))
    (dom (catalogues c)) (dom (constraints c)).

Definition domains_of (c : Config) : gmap string (list string) := fc_values <$> facets c.
Definition open_of (c : Config) : gset string := dom (filter (λ kf : string * Facet, fc_open kf.2 = true) (facets c)).
Definition entries_of (c : Config) : gmap string (list string) := (λ cat, bt_elements (dom (ct_entries cat))) <$> catalogues c.
Definition links_of (c : Config) : gmap string BindingLink := link_of <$> bindings c.
Definition all_requirements (c : Config) : list RequirementLink := flat_map (λ kc, requirements_of kc.1 kc.2) (bt_list (components c)).
Definition all_clauses (c : Config) : list Clause := (λ kc, mkClause kc.1 (cn_condition kc.2)) <$> bt_list (constraints c).

(** A summary of the declarations of [c], up to the order of its lists. *)
Record summary_of (c : Config) (s : InterfaceSummary) : Prop := {
  so_unit : is_unit s = cf_package c;
  so_exports : is_exports s = exports_of c;
  so_domains : is_facet_domains s = domains_of c;
  so_open : is_open_facets s = open_of c;
  so_entries : is_catalogue_entries s = entries_of c;
  so_links : is_binding_links s = links_of c;
  so_requirements : is_requirements s ≡ₚ all_requirements c;
  so_clauses : is_clauses s ≡ₚ all_clauses c;
}.

Lemma hash_bt_perm `{HashOrder} {A} (m : gmap string A) : hash_order m ≡ₚ bt_list m.
Proof.
  apply NoDup_Permutation.
  - eapply NoDup_fmap_1, NoDup_hash_order.
  - eapply NoDup_fmap_1, NoDup_bt_list.
  - intros [k v]. by rewrite elem_hash_order, elem_bt_list.
Qed.

Lemma summarize_spec `{HashOrder} c source : summary_of c (summarize c source) ∧ is_source_id (summarize c source) = source.
Proof.
  unfold summarize.
  set (s0 := mkSummary _ _ _ _ _ _ _ _ _ _ _).
  set (s1 := foldl _ s0 (bt_list (definitions c))).
  assert (H1 : keeps s0 s1) by (apply foldl_keeps; intros s kd; apply parameter_links_keeps).
  set (s2 := foldl _ s1 (bt_list (components c))). pose proof (foldl_components s1 (bt_list (components c))) as H2. fold s2 in H2.
  set (s3 := foldl _ s2 (hash_order (constraints c))).
  pose proof (foldl_constraints s2 (hash_order (constraints c))) as H3. fold s3 in H3.
  set (s4 := foldl _ s3 (hash_order (bindings c))).
  destruct H1 as [U1 S1 E1 D1 O1 C1 L1 R1 K1]. destruct H2 as [U2 S2 E2 D2 O2 C2 L2 R2 K2]. destruct H3 as [U3 S3 E3 D3 O3 C3 L3 R3 K3].
  assert (H4 : extends s3 s4 (is_binding_links s3 ∪ (link_of <$> list_to_map (hash_order (bindings c)))) (is_requirements s3) (is_clauses s3)).
  { apply foldl_bindings; [apply NoDup_hash_order|]. intros k _. rewrite L3, L2, L1. apply lookup_empty. }
  destruct H4 as [U4 S4 E4 D4 O4 C4 L4 R4 K4]. rewrite hash_order_map in L4.
  split; [split|]; cbn.
  - by rewrite U4, U3, U2, U1.
  - by rewrite E4, E3, E2, E1.
  - by rewrite D4, D3, D2, D1.
  - by rewrite O4, O3, O2, O1.
  - by rewrite C4, C3, C2, C1.
  - rewrite L4, L3, L2, L1. cbn. by rewrite (left_id_L ∅ (∪)).
  - unfold sort_requirements. rewrite merge_sort_Permutation, R4, R3, R2, R1. done.
  - unfold sort_clauses. rewrite merge_sort_Permutation, K4, K3, K2, K1. cbn. unfold all_clauses. by rewrite hash_bt_perm.
  - by rewrite S4, S3, S2, S1.
Qed.

(** ** Selectors *)

(** What [record_selector] adds: a selector with no text adds nothing. *)
Definition selector (id condition : string) : list Clause :=
  if decide (trim condition = String.EmptyString) then [] else [mkClause id condition].

(** The conditions of the overrides of a parameter, at every depth. *)
Fixpoint parameter_selectors (p : Param) (path : string) : list Clause :=
  match p with
  | mkParameter _ _ _ _ _ _ _ _ _ _ _ overrides =>
      (fix blocks (idx : nat) (bs : list ConditionalBlock) : list Clause :=
         match bs with
         | [] => []
         | mkBlock condition payload :: bs =>
             let branch := path +:+ ".overrides[" +:+ decimal idx +:+ "]" in
             selector branch condition ++ parameter_selectors payload branch ++ blocks (S idx) bs
         end) 0%nat overrides
  end.

Definition component_selectors (id : string) (c : Component) : list Clause :=
  match cp_condition c with Some condition => selector ("components." +:+ id) condition | None => [] end ++
  flat_map (λ kp, parameter_selectors kp.2 ("components." +:+ id +:+ ".params." +:+ kp.1)) (bt_list (params c)).

Definition definition_selectors (c : Config) : list Clause :=
  flat_map (λ kd, parameter_selectors kd.2 ("definitions." +:+ kd.1)) (bt_list (definitions c)).

(** The conditions that select components and overrides. *)
Definition all_selectors (c : Config) : list Clause :=
  definition_selectors c ++ flat_map (λ kc, component_selectors kc.1 kc.2) (bt_list (components c)).

Lemma foldl_selectors {A} (f : InterfaceSummary → A → InterfaceSummary) (g : A → list Clause) l s :
  (∀ s a, is_selectors (f s a) = is_selectors s ++ g a) → is_selectors (foldl f s l) = is_selectors s ++ flat_map g l.
Proof.
  intros Hf. revert s. induction l as [|a l IH]; intros s; cbn; [by rewrite app_nil_r|]. by rewrite IH, Hf, (assoc_L (++)).
Qed.

Lemma foldl_same_selectors {A} (f : InterfaceSummary → A → InterfaceSummary) l s :
  (∀ s a, is_selectors (f s a) = is_selectors s) → is_selectors (foldl f s l) = is_selectors s.
Proof. intros Hf. revert s. induction l as [|a l IH]; intros s; cbn; [done|]. by rewrite IH, Hf. Qed.

Lemma condition_facets_selectors condition importer s :
  is_selectors (collect_condition_facets condition importer s) = is_selectors s.
Proof.
  unfold collect_condition_facets. case_decide; [done|]. destruct (parse_condition_expr _); [|done].
  by apply foldl_same_selectors.
Qed.

Lemma record_selector_adds id condition s : is_selectors (record_selector id condition s) = is_selectors s ++ selector id condition.
Proof. unfold record_selector, selector. case_decide; [by rewrite app_nil_r|done]. Qed.

Lemma parameter_links_selectors p path s :
  is_selectors (collect_parameter_links p path s) = is_selectors s ++ parameter_selectors p path.
Proof.
  revert p path s. fix IH 1. intros [i t u d v f l sf a lm r overrides] path s. cbn [collect_parameter_links parameter_selectors].
  assert (Hs : is_selectors (match i with Some target => import_definition target path s | None => s end) = is_selectors s) by (by destruct i).
  rewrite <-Hs. clear Hs. generalize (match i with Some target => import_definition target path s | None => s end). clear s. generalize 0%nat.
  induction overrides as [|[c q] bs IHbs]; intros idx s; [by rewrite app_nil_r|].
  by rewrite IHbs, IH, record_selector_adds, condition_facets_selectors, !(assoc_L (++)).
Qed.

Lemma component_links_selectors id c s :
  is_selectors (collect_component_links id c s) = is_selectors s ++ component_selectors id c.
Proof.
  unfold collect_component_links, component_selectors. erewrite foldl_selectors by (intros; apply parameter_links_selectors).
  rewrite (foldl_same_selectors (add_requirement id c)) by (by intros ? [? ?]). rewrite (assoc_L (++)). f_equal.
  destruct (cp_condition c); [rewrite record_selector_adds, condition_facets_selectors; f_equal|rewrite app_nil_r];
    by apply foldl_same_selectors.
Qed.

Lemma summarize_selectors `{HashOrder} c source : is_selectors (summarize c source) = all_selectors c.
Proof.
  unfold summarize. cbn [is_selectors set_lists].
  rewrite (foldl_same_selectors (λ s kb, collect_binding_links kb.1 kb.2 s))
    by (intros s [id b]; unfold collect_binding_links; by destruct (derive_source _)).
  rewrite (foldl_same_selectors (λ s kc, collect_constraint_links kc.1 kc.2 s))
    by (intros s kc; unfold collect_constraint_links; by rewrite condition_facets_selectors).
  erewrite foldl_selectors by (intros s kc; apply component_links_selectors).
  by erewrite foldl_selectors by (intros s kd; apply parameter_links_selectors).
Qed.
