(* ===== verification/ParseContext.v ===== *)
(** * Conditions inside a larger text

    The lowering writes [!(c) || d] around an authored condition [c]; these
    lemmas show that the typed parser of [Ast.v] reads the condition there as it
    reads it alone, and that every symbol a parsed condition names can be
    written back as a predicate. *)
From S2P Require Import Prelude Tokens Ast Implication Rewrite.
Import AstParser.

(** ** Before a closing parenthesis *)

Lemma scan_before {A} (p : A → bool) l a l' : p a = false → scan p (l ++ a :: l') = scan p l.
Proof. intros Ha. induction l as [|x l IH]; cbn; [by rewrite Ha|]. by rewrite IH. Qed.

Lemma scan_app_lt {A} (p : A → bool) l l' : scan p l < length l → scan p (l ++ l') = scan p l.
Proof.
  induction l as [|x l IH]; cbn; [lia|]. destruct (p x); [|done]. intros Hl. rewrite IH; [done|lia].
Qed.

(** An identifier read is the keyword of that name. *)
Lemma ident_keyword bs idx kw e : parse_ident bs idx = (Some kw, e) → starts_with_keyword bs idx kw = true ∧ e = idx + length (bytes_of kw).
Proof.
  intros E. pose proof (parse_ident_bounds _ _ _ _ E) as Hb. unfold parse_ident in E.
  destruct (bs !! idx) as [b|] eqn:Eb; [|done]. destruct (is_ident_start b); [|done].
  injection E as Ev Ee. cbn zeta in Ev. rewrite <-Ee in Hb. unfold from_utf8 in Ev.
  cbn [Nat.add] in *. set (n := scan is_ident_char (drop (S idx) bs)) in *.
  destruct (utf8_valid _); [|done]. injection Ev as <-. rewrite !bytes_of_string_of.
  assert (Hlen : length (slice bs idx (S (idx + n))) = S n) by (unfold slice; rewrite length_take, length_drop; lia).
  rewrite <-Ee. split; [|lia]. unfold starts_with_keyword. rewrite bytes_of_string_of, Hlen.
  replace (idx + S n) with (S (idx + n)) by lia. rewrite !bool_decide_eq_true_2 by (done || lia). cbn.
  destruct (bs !! S (idx + n)) as [c|] eqn:Ec; [|done]. apply negb_true_iff.
  apply (scan_stop _ (drop (S idx) bs)). rewrite lookup_drop. fold n. by replace (S idx + n) with (S (idx + n)) by lia.
Qed.

Section Within.
Context (pre bs tail : list ascii).

Notation k := (length pre).
Notation bs' := (pre ++ bs ++ ")"%char :: tail).

Lemma within_drop idx : idx ≤ length bs → drop (k + idx) bs' = drop idx bs ++ ")"%char :: tail.
Proof.
  intros Hi. rewrite drop_app_ge by lia. replace (k + idx - k) with idx by lia. by rewrite drop_app_le.
Qed.

Lemma within_lookup idx : idx < length bs → bs' !! (k + idx) = bs !! idx.
Proof. intros Hi. rewrite lookup_app_r by lia. rewrite Nat.add_comm, Nat.add_sub. by rewrite lookup_app_l. Qed.

Lemma within_end : bs' !! (k + length bs) = Some ")"%char.
Proof. rewrite lookup_app_r by lia. rewrite Nat.add_comm, Nat.add_sub. by rewrite lookup_app_r, Nat.sub_diag. Qed.

Lemma within_slice i j : j ≤ length bs → slice bs' (k + i) (k + j) = slice bs i j.
Proof.
  intros Hj. unfold slice. replace (k + j - (k + i)) with (j - i) by lia.
  destruct (decide (i ≤ length bs)); [|replace (j - i) with 0 by lia; done].
  rewrite within_drop by done. rewrite take_app_le; [done|]. rewrite length_drop. lia.
Qed.

Lemma within_at idx c : idx ≤ length bs → c ≠ ")"%char → at_byte bs' (k + idx) c = at_byte bs idx c.
Proof.
  intros Hi Hc. unfold at_byte. destruct (decide (idx = length bs)) as [->|Hne].
  - rewrite within_end, lookup_ge_None_2 by lia. by apply Ascii.eqb_neq, not_eq_sym.
  - by rewrite within_lookup by lia.
Qed.

Lemma within_close idx : idx < length bs → at_byte bs' (k + idx) ")"%char = at_byte bs idx ")"%char.
Proof. intros Hi. unfold at_byte. by rewrite within_lookup. Qed.

Lemma within_ws idx : idx ≤ length bs → skip_ws bs' (k + idx) = k + skip_ws bs idx.
Proof. intros Hi. unfold skip_ws. rewrite within_drop, scan_before by done. lia. Qed.

Lemma within_op2 idx a b r i :
  idx ≤ length bs → a ≠ ")"%char → b ≠ ")"%char → consume_op2 bs idx a b = (r, i) →
  consume_op2 bs' (k + idx) a b = (r, k + i).
Proof.
  intros Hi Ha Hb E. unfold consume_op2 in *. rewrite within_at by done.
  destruct (at_byte bs idx a) eqn:Ea; cbn [andb] in *; [|by injection E as <- <-].
  apply at_byte_lt in Ea. replace (S (k + idx)) with (k + S idx) by lia. rewrite within_at by (done || lia).
  destruct (at_byte bs (S idx) b); injection E as <- <-; f_equal; lia.
Qed.

Lemma within_ident idx o i :
  idx ≤ length bs → parse_ident bs idx = (o, i) → parse_ident bs' (k + idx) = (o, k + i).
Proof.
  intros Hi E. unfold parse_ident in *. destruct (decide (idx = length bs)) as [->|Hne].
  - rewrite within_end. rewrite lookup_ge_None_2 in E by lia. injection E as <- <-. done.
  - rewrite within_lookup by lia. destruct (bs !! idx) as [b|] eqn:Eb; [|by injection E as <- <-].
    destruct (is_ident_start b); [|by injection E as <- <-]. injection E as <- <-. cbn zeta.
    replace (S (k + idx)) with (k + S idx) by lia. rewrite within_drop, scan_before by (done || lia).
    rewrite <-Nat.add_assoc, within_slice; [done|].
    pose proof (scan_le is_ident_char (drop (S idx) bs)) as Hs. rewrite length_drop in Hs. lia.
Qed.

Lemma within_operator idx o i :
  idx ≤ length bs → parse_operator bs idx = (Some o, i) → parse_operator bs' (k + idx) = (Some o, k + i).
Proof.
  intros Hi E. pose proof (parse_operator_bounds _ _ _ _ E) as Hb. unfold parse_operator in *.
  replace (S (k + idx)) with (k + S idx) by lia. rewrite !within_at by (done || lia).
  repeat match goal with |- context [if ?c then _ else _] => destruct c end; try done;
    injection E as <- <-; f_equal; lia.
Qed.

Lemma within_keyword idx kw :
  idx ≤ length bs → is_identifier kw → starts_with_keyword bs' (k + idx) kw = starts_with_keyword bs idx kw.
Proof.
  intros Hi Hk. apply eq_iff_eq_true. split; intros E.
  - apply keyword_ident in E; [|done]. destruct (parse_ident bs idx) as [o i] eqn:Ei.
    rewrite (within_ident _ _ _ Hi Ei) in E. injection E as -> _. by apply ident_keyword in Ei as [? _].
  - apply keyword_ident in E; [|done]. apply (within_ident _ _ _ Hi) in E. by apply ident_keyword in E as [? _].
Qed.

Lemma within_bool idx :
  idx ≤ length bs →
  try_consume_bool_literal bs' (k + idx) =
    match try_consume_bool_literal bs idx with Some (v, i) => Some (v, k + i) | None => None end.
Proof.
  intros Hi. unfold try_consume_bool_literal. rewrite !within_keyword by done.
  destruct (starts_with_keyword bs idx "true"); [do 2 f_equal; lia|].
  destruct (starts_with_keyword bs idx "false"); [do 2 f_equal; lia|done].
Qed.

Lemma within_find_keyword idx : idx ≤ length bs → find_keyword bs' (k + idx) = find_keyword bs idx.
Proof. intros Hi. unfold find_keyword. cbn [List.find KEYWORDS]. by rewrite !within_keyword by done. Qed.

Lemma within_literal idx v i :
  parse_quoted_literal bs idx = (Some v, i) → parse_quoted_literal bs' (k + idx) = (Some v, k + i).
Proof.
  intros E. pose proof (parse_quoted_literal_bounds _ _ _ _ E) as Hb. unfold parse_quoted_literal in *.
  rewrite within_lookup by lia. destruct (bs !! idx) as [q|] eqn:Eq; [|done].
  destruct (Ascii.eqb q "'"%char || Ascii.eqb q "034"%char) eqn:Eqq; [|done]. cbn zeta in *.
  replace (S (k + idx)) with (k + S idx) by lia.
  assert (Hs : S idx + scan (λ b, negb (Ascii.eqb b q)) (drop (S idx) bs) < length bs).
  { destruct (bs !! _) eqn:El in E; [|done]. by apply lookup_lt_Some in El. }
  assert (Hscan : scan (λ b, negb (Ascii.eqb b q)) (drop (k + S idx) bs') =
                  scan (λ b, negb (Ascii.eqb b q)) (drop (S idx) bs)).
  { rewrite within_drop by lia. rewrite scan_app_lt; [done|]. rewrite length_drop. lia. }
  rewrite Hscan, <-Nat.add_assoc. set (n := S idx + scan (λ b, negb (Ascii.eqb b q)) (drop (S idx) bs)) in *.
  rewrite within_lookup, within_slice by lia. destruct (bs !! n) as [c|]; [|done].
  destruct (from_utf8 _); [|done]. injection E as <- <-. f_equal. lia.
Qed.

(** A right-hand side that is read as an identifier is not a literal. *)
Lemma within_no_literal idx i rhs j :
  parse_quoted_literal bs idx = (None, i) → parse_ident bs i = (Some rhs, j) →
  i = idx ∧ parse_quoted_literal bs' (k + idx) = (None, k + idx).
Proof.
  intros E Ei. unfold parse_quoted_literal in *.
  assert (Hi : ∃ b, bs !! i = Some b ∧ is_ident_start b = true).
  { unfold parse_ident in Ei. destruct (bs !! i) as [b|]; [|done]. exists b. split; [done|]. by destruct (is_ident_start b). }
  destruct Hi as (b & Hb & Hst). destruct (bs !! idx) as [q|] eqn:Eq; [|injection E as <-; congruence].
  destruct (Ascii.eqb q "'"%char || Ascii.eqb q "034"%char) eqn:Eqq.
  - exfalso. cbn zeta in E. set (n := S idx + _) in E. destruct (bs !! n) as [c|] eqn:Ec; [|injection E as E; congruence].
    destruct (from_utf8 _); [done|]. injection E as E. rewrite E, Hb in Ec. injection Ec as <-. subst i.
    assert (Hstop : negb (Ascii.eqb b q) = false).
    { apply (scan_stop (λ b, negb (Ascii.eqb b q)) (drop (S idx) bs)). by rewrite lookup_drop. }
    apply negb_false_iff, Ascii.eqb_eq in Hstop as ->. apply orb_prop in Eqq as [->%Ascii.eqb_eq| ->%Ascii.eqb_eq]; done.
  - injection E as <-. split; [done|]. apply lookup_lt_Some in Eq as Hlt. rewrite within_lookup by done.
    by rewrite Eq, Eqq.
Qed.

Lemma within_predicate idx e i :
  idx ≤ length bs → parse_predicate bs idx = Ok (e, i) → parse_predicate bs' (k + idx) = Ok (e, k + i).
Proof.
  intros Hi E. unfold parse_predicate in *. pose proof (skip_ws_bounds bs idx) as H0. rewrite within_ws by done.
  destruct (parse_ident bs (skip_ws bs idx)) as [[tag|] i1] eqn:E1; cbn [ok_or mbind result_bind] in E; [|done].
  apply parse_ident_bounds in E1 as H1. rewrite (within_ident _ _ _ (proj2 H0 Hi) E1). cbn [ok_or mbind result_bind].
  pose proof (skip_ws_bounds bs i1) as H2. rewrite within_ws by lia.
  destruct (parse_operator bs (skip_ws bs i1)) as [[op|] i2] eqn:E2; cbn [ok_or mbind result_bind] in E; [|done].
  apply parse_operator_bounds in E2 as H3. rewrite (within_operator (skip_ws bs i1) op i2) by (done || lia). cbn [ok_or mbind result_bind].
  pose proof (skip_ws_bounds bs i2) as H4. rewrite within_ws by lia.
  destruct (parse_quoted_literal bs (skip_ws bs i2)) as [[v|] i3] eqn:E3.
  - rewrite (within_literal _ _ _ E3). by injection E as <- <-.
  - destruct (parse_ident bs i3) as [[rhs|] i4] eqn:E4; cbn [ok_or mbind result_bind] in E; [|done].
    destruct (within_no_literal _ _ _ _ E3 E4) as [-> ->]. rewrite (within_ident (skip_ws bs i2) (Some rhs) i4) by (done || lia).
    cbn [ok_or mbind result_bind]. by injection E as <- <-.
Qed.

(** The whole parser: what it reads in [bs] it reads in the larger text, with
    at least as much fuel. *)
Lemma within_parser fuel : ∀ fuel', fuel ≤ fuel' →
  (∀ idx e i, idx ≤ length bs → parse_or bs fuel idx = Ok (e, i) → parse_or bs' fuel' (k + idx) = Ok (e, k + i)) ∧
  (∀ idx x e i, idx ≤ length bs → or_loop bs fuel x idx = Ok (e, i) → or_loop bs' fuel' x (k + idx) = Ok (e, k + i)) ∧
  (∀ idx e i, idx ≤ length bs → parse_and bs fuel idx = Ok (e, i) → parse_and bs' fuel' (k + idx) = Ok (e, k + i)) ∧
  (∀ idx x e i, idx ≤ length bs → and_loop bs fuel x idx = Ok (e, i) → and_loop bs' fuel' x (k + idx) = Ok (e, k + i)) ∧
  (∀ idx e i, idx ≤ length bs → parse_unary bs fuel idx = Ok (e, i) → parse_unary bs' fuel' (k + idx) = Ok (e, k + i)) ∧
  (∀ idx e i, idx ≤ length bs → parse_primary bs fuel idx = Ok (e, i) → parse_primary bs' fuel' (k + idx) = Ok (e, k + i)) ∧
  (∀ idx o, idx ≤ length bs → try_parse_cardinality bs fuel idx = Ok o →
     try_parse_cardinality bs' fuel' (k + idx) = Ok (match o with Some (e, i) => Some (e, k + i) | None => None end)) ∧
  (∀ idx kw args es i, idx ≤ length bs → parse_cardinality_args bs fuel kw args idx = Ok (es, i) →
     parse_cardinality_args bs' fuel' kw args (k + idx) = Ok (es, k + i)).
Proof.
  induction fuel as [|fuel IH]; intros fuel' Hle; [repeat split; done|].
  destruct fuel' as [|fuel']; [lia|].
  destruct (IH fuel' ltac:(lia)) as (IHor & IHol & IHand & IHal & IHun & IHpr & IHtc & IHca). clear IH.
  destruct (parser_bounds bs fuel) as (Bor & Bol & Band & Bal & Bun & Bpr & Btc & Bca).
  split_and!.
  - intros idx e i Hi E. cbn in E |- *. apply bind_Ok in E as ([e1 i1] & E1 & E).
    rewrite (IHand _ _ _ Hi E1). cbn. apply IHol; [|done]. apply Band in E1; [lia|done].
  - intros idx x e i Hi E. cbn in E |- *. pose proof (skip_ws_bounds bs idx) as Hw. rewrite within_ws by done.
    destruct (consume_op2 bs (skip_ws bs idx) "|" "|") as [more j] eqn:Ec.
    rewrite (within_op2 (skip_ws bs idx) _ _ more j); [|lia|done|done|done]. destruct more.
    + apply consume_op2_true in Ec as [-> Hj]. apply bind_Ok in E as ([e1 i1] & E1 & E).
      rewrite (IHand _ _ _ Hj E1). cbn. apply IHol; [|done]. apply Band in E1; [lia|done].
    + apply consume_op2_false in Ec as ->. by injection E as <- <-.
  - intros idx e i Hi E. cbn in E |- *. apply bind_Ok in E as ([e1 i1] & E1 & E).
    rewrite (IHun _ _ _ Hi E1). cbn. apply IHal; [|done]. apply Bun in E1; [lia|done].
  - intros idx x e i Hi E. cbn in E |- *. pose proof (skip_ws_bounds bs idx) as Hw. rewrite within_ws by done.
    destruct (consume_op2 bs (skip_ws bs idx) "&" "&") as [more j] eqn:Ec.
    rewrite (within_op2 (skip_ws bs idx) _ _ more j); [|lia|done|done|done]. destruct more.
    + apply consume_op2_true in Ec as [-> Hj]. apply bind_Ok in E as ([e1 i1] & E1 & E).
      rewrite (IHun _ _ _ Hj E1). cbn. apply IHal; [|done]. apply Bun in E1; [lia|done].
    + apply consume_op2_false in Ec as ->. by injection E as <- <-.
  - intros idx e i Hi E. cbn in E |- *. pose proof (skip_ws_bounds bs idx) as Hw. rewrite within_ws by done.
    rewrite within_at by (done || lia). destruct (at_byte bs (skip_ws bs idx) "!") eqn:Eb; [|by apply IHpr; [lia|]].
    apply at_byte_lt in Eb. replace (S (k + skip_ws bs idx)) with (k + S (skip_ws bs idx)) by lia.
    rewrite within_at by (done || lia). destruct (at_byte bs (S (skip_ws bs idx)) "="); [by apply IHpr; [lia|]|].
    apply bind_Ok in E as ([e1 i1] & E1 & E). rewrite (IHun _ _ _ Eb E1). cbn. by injection E as <- <-.
  - intros idx e i Hi E. cbn -[decide] in E |- *. pose proof (skip_ws_bounds bs idx) as Hw. rewrite !within_ws by done.
    destruct (decide (length bs ≤ skip_ws bs idx)) as [|Hlt]; [done|].
    rewrite decide_False by (rewrite !length_app; cbn; lia). rewrite within_at by (done || lia).
    destruct (at_byte bs (skip_ws bs idx) "(") eqn:Eb.
    + apply bind_Ok in E as ([e1 i1] & E1 & E). replace (S (k + skip_ws bs idx)) with (k + S (skip_ws bs idx)) by lia.
      rewrite (IHor (S (skip_ws bs idx)) e1 i1) by (done || lia). cbn. apply Bor in E1 as [_ Hi1]; [|lia]. cbn beta zeta iota in E.
      pose proof (skip_ws_bounds bs i1) as Hw1. rewrite within_ws by done.
      destruct (at_byte bs (skip_ws bs i1) ")") eqn:Ec; [|done]. apply at_byte_lt in Ec as Hc.
      rewrite within_close, Ec by done. injection E as <- <-. do 2 f_equal. lia.
    + rewrite within_bool by lia. destruct (try_consume_bool_literal bs (skip_ws bs idx)) as [[v j]|]; [by injection E as <- <-|].
      apply bind_Ok in E as (o & Eo & E). rewrite (IHtc (skip_ws bs idx) o) by (done || lia). cbn. destruct o as [[e1 i1]|]; [by injection E as <- <-|].
      apply within_predicate; [lia|done].
  - intros idx o Hi E. cbn in E |- *. rewrite within_find_keyword by done.
    destruct (find_keyword bs idx) as [kw|] eqn:Ef; [|by injection E as <-].
    apply find_keyword_Some in Ef as [Ef _]. apply starts_with_keyword_bounds in Ef.
    rewrite <-Nat.add_assoc, within_ws by done. pose proof (skip_ws_bounds bs (idx + length (bytes_of kw))) as Hw.
    rewrite within_at by (done || lia). destruct (at_byte bs _ "(") eqn:Eb; [|by injection E as <-].
    apply at_byte_lt in Eb. apply bind_Ok in E as ([es i1] & E1 & E).
    replace (S (k + skip_ws bs (idx + length (bytes_of kw)))) with (k + S (skip_ws bs (idx + length (bytes_of kw)))) by lia.
    rewrite (IHca _ _ _ _ _ Eb E1). cbn. by injection E as <-.
  - intros idx kw args es i Hi E. cbn in E |- *. apply bind_Ok in E as ([e1 i1] & E1 & E).
    rewrite (IHor _ _ _ Hi E1). cbn. apply Bor in E1 as [_ Hi1]; [|lia]. cbn beta zeta iota in E.
    pose proof (skip_ws_bounds bs i1) as Hw. rewrite within_ws by done.
    destruct (bs !! skip_ws bs i1) as [b|] eqn:Eb; [|done]. apply lookup_lt_Some in Eb as Hlt.
    rewrite within_lookup by done. rewrite Eb. destruct (Ascii.eqb b ",") eqn:Ecomma.
    + replace (S (k + skip_ws bs i1)) with (k + S (skip_ws bs i1)) by lia.
      pose proof (skip_ws_bounds bs (S (skip_ws bs i1))) as Hw1. rewrite within_ws by lia.
      destruct (at_byte bs (skip_ws bs (S (skip_ws bs i1))) ")") eqn:Ecl; [done|].
      apply Bca in E as Hb; [|lia]. 
      rewrite within_close, Ecl by lia. apply IHca; [lia|done].
    + destruct (Ascii.eqb b ")"); [|done]. destruct (decide _); [done|]. injection E as <- <-. do 2 f_equal. lia.
Qed.
End Within.

(** ** The symbols of a parsed condition *)

Notation squote := "'"%char.
Notation dquote := "034"%char.

(** A value some pair of quotes can hold. *)
Definition literal_spelled (v : string) : Prop :=
  utf8_valid (bytes_of v) = true ∧ (squote ∉ bytes_of v ∨ dquote ∉ bytes_of v).

Definition symbol_spelled (p : ConditionPredicate) : Prop := facet_name (p_tag p) ∧ literal_spelled (p_value p).

Definition symbols_spelled (e : ConditionExpr) : Prop := Forall symbol_spelled (for_each_predicate e).

Section Symbols.
Context (bs : list ascii).

Lemma literal_spelled_parsed idx v i : parse_quoted_literal bs idx = (Some v, i) → literal_spelled v.
Proof.
  unfold parse_quoted_literal. destruct (bs !! idx) as [q|]; [|done].
  destruct (Ascii.eqb q squote || Ascii.eqb q dquote) eqn:Eq; [|done]. cbn zeta.
  set (n := scan _ _). destruct (bs !! (S idx + n)); [|done]. unfold from_utf8. destruct (utf8_valid _) eqn:Eu; [|done].
  intros [= <- _]. split; [by rewrite bytes_of_string_of|]. rewrite bytes_of_string_of.
  assert (Hq : q ∉ slice bs (S idx) (S idx + n)).
  { unfold slice. replace (S idx + n - S idx) with n by lia. intros Hin.
    pose proof (scan_take (λ b, negb (Ascii.eqb b q)) (drop (S idx) bs)) as Hf. rewrite Forall_forall in Hf.
    specialize (Hf q Hin). cbn in Hf. by rewrite Ascii.eqb_refl in Hf. }
  apply orb_prop in Eq as [->%Ascii.eqb_eq| ->%Ascii.eqb_eq]; [by left|by right].
Qed.

Lemma predicate_symbols idx e i :
  skip_ws bs idx = idx → try_consume_bool_literal bs idx = None → parse_predicate bs idx = Ok (e, i) → symbols_spelled e.
Proof.
  intros Hw Hb E. unfold parse_predicate in E. rewrite Hw in E.
  destruct (parse_ident bs idx) as [[tag|] i1] eqn:E1; [cbn in E|done].
  assert (Ht : facet_name tag).
  { unfold facet_name. rewrite !andb_True. split_and!; [by eapply parse_ident_identifier| |];
      apply Is_true_true, negb_true_iff, bool_decide_eq_false; intros ->; apply ident_keyword in E1 as [E1 _];
      unfold try_consume_bool_literal in Hb; rewrite E1 in Hb; [done|].
    by destruct (starts_with_keyword bs idx "true"). }
  destruct (parse_operator bs _) as [[op|] i2]; [cbn in E|done].
  destruct (parse_quoted_literal bs _) as [[v|] i3] eqn:E3.
  - injection E as <- _. apply Forall_singleton. split; [done|]. by eapply literal_spelled_parsed.
  - destruct (parse_ident bs i3) as [[rhs|] i4]; [cbn in E|done]. injection E as <- _. apply Forall_nil_2.
Qed.

Lemma symbols_spelled_list (f : list ConditionExpr → ConditionExpr) es :
  for_each_predicate (f es) = flat_map for_each_predicate es → Forall symbols_spelled es → symbols_spelled (f es).
Proof.
  intros Hf H. unfold symbols_spelled. rewrite Hf. apply Forall_flat_map. exact H.
Qed.

Lemma symbols_cardinality kw es : Forall symbols_spelled es → symbols_spelled (cardinality_expr kw es).
Proof. intros H. unfold cardinality_expr. repeat case_decide; by apply symbols_spelled_list. Qed.

Definition yields_symbols (r : result cond_error (ConditionExpr * nat)) : Prop :=
  ∀ e i, r = Ok (e, i) → symbols_spelled e.

Lemma parser_symbols fuel :
  (∀ idx, yields_symbols (parse_or bs fuel idx)) ∧
  (∀ idx x, symbols_spelled x → yields_symbols (or_loop bs fuel x idx)) ∧
  (∀ idx, yields_symbols (parse_and bs fuel idx)) ∧
  (∀ idx x, symbols_spelled x → yields_symbols (and_loop bs fuel x idx)) ∧
  (∀ idx, yields_symbols (parse_unary bs fuel idx)) ∧
  (∀ idx, yields_symbols (parse_primary bs fuel idx)) ∧
  (∀ idx e i, try_parse_cardinality bs fuel idx = Ok (Some (e, i)) → symbols_spelled e) ∧
  (∀ idx kw args es i, Forall symbols_spelled args →
     parse_cardinality_args bs fuel kw args idx = Ok (es, i) → Forall symbols_spelled es).
Proof.
  induction fuel as [|fuel (IHor & IHol & IHand & IHal & IHun & IHpr & IHtc & IHca)]; [repeat split; done|].
  split_and!.
  - intros idx e i H. cbn in H. inv_ok. apply IHand in H0. by eapply IHol.
  - intros idx x Hx e i H. cbn in H. destruct (consume_op2 _ _ _ _) as [[] j]; inv_ok; [|done].
    apply IHand in H0. eapply IHol; [|done]. by apply Forall_app.
  - intros idx e i H. cbn in H. inv_ok. apply IHun in H0. by eapply IHal.
  - intros idx x Hx e i H. cbn in H. destruct (consume_op2 _ _ _ _) as [[] j]; inv_ok; [|done].
    apply IHun in H0. eapply IHal; [|done]. by apply Forall_app.
  - intros idx e i H. cbn in H. destruct (at_byte bs _ "!"%char); [|by eapply IHpr].
    destruct (at_byte bs _ "="%char); [by eapply IHpr|]. inv_ok. by apply IHun in H0.
  - intros idx e i H. cbn in H. destruct (decide _); [done|].
    destruct (at_byte bs _ "("%char).
    + inv_ok. destruct (at_byte bs _ ")"%char); inv_ok. by apply IHor in H0.
    + destruct (try_consume_bool_literal bs _) as [[v j]|] eqn:Eb; inv_ok; [apply Forall_nil_2|].
      destruct x as [r|]; inv_ok; [by apply IHtc in H0|]. apply predicate_symbols in H; [done|apply skip_ws_idem|done].
  - intros idx e i H. cbn in H. destruct (find_keyword _ _) as [kw|]; [|done].
    destruct (at_byte bs _ "("%char); inv_ok. apply IHca in H0; [|apply Forall_nil_2]. by apply symbols_cardinality.
  - intros idx kw args es i Ha H. cbn in H. inv_ok. apply IHor in H0.
    assert (Ha' : Forall symbols_spelled (args ++ [c])) by (apply Forall_app; split; [done|by apply Forall_singleton]).
    destruct (bs !! _) as [b|]; [|done]. destruct (Ascii.eqb b ","%char).
    + destruct (at_byte bs _ ")"%char); [done|]. by eapply IHca.
    + destruct (Ascii.eqb b ")"%char); [|done]. destruct (decide _); by inv_ok.
Qed.
End Symbols.

Lemma parse_symbols c e : parse_condition_expr c = Ok e → symbols_spelled e.
Proof.
  unfold parse_condition_expr. intros ([e1 i1] & E1 & E)%bind_Ok. destruct (decide _); [|done]. injection E as <-.
  by apply (parser_symbols (bytes_of c)) in E1.
Qed.

(** ** Operand texts *)

(** The parser reads [s] as the operand [e], wherever it stands. *)
Definition operand_text (s : string) (e : ConditionExpr) : Prop := ∀ bs idx r fuel,
  drop idx bs = bytes_of s ++ r → follows PUnary r → 8 * (length bs - idx) + 3 ≤ fuel →
  parse_unary bs fuel idx = Ok (e, idx + length (bytes_of s)).

(** No leading blank. *)
Definition starts_tight (s : string) : Prop := ∃ b r, bytes_of s = b :: r ∧ is_ascii_whitespace b = false.

Lemma serialized_operand e : spellable e → canon e = e → operand_text (serialize e PUnary) e.
Proof.
  intros Hs Hc bs idx r fuel Hd Hf Hfu. destruct (reads_all bs e Hs) as (Hu & _ & _).
  rewrite (Hu idx r fuel) by done. by rewrite Hc.
Qed.

(** A predicate in either pair of quotes. *)
Definition quoted_text (q : ascii) (p : ConditionPredicate) : string :=
  p_tag p +:+ " " +:+ op_text (p_op p) +:+ " " +:+ string_of [q] +:+ p_value p +:+ string_of [q].

Lemma parse_quoted_at bs idx q v r :
  drop idx bs = q :: bytes_of v ++ q :: r → Ascii.eqb q squote || Ascii.eqb q dquote = true →
  q ∉ bytes_of v → utf8_valid (bytes_of v) = true →
  parse_quoted_literal bs idx = (Some v, idx + length (bytes_of v) + 2).
Proof.
  intros Hd Hq Hni Hu. unfold parse_quoted_literal. rewrite (drop_lookup _ _ _ _ Hd), Hq. cbn zeta.
  pose proof (drop_step _ _ _ _ Hd) as Hd1. rewrite Hd1, scan_app_stop.
  - pose proof (drop_move _ _ _ _ Hd1) as Hd2. cbn [Nat.add] in *. rewrite (drop_lookup _ _ _ _ Hd2). unfold slice.
    replace (S (idx + length (bytes_of v)) - S idx) with (length (bytes_of v)) by lia. rewrite Hd1, take_app_length.
    unfold from_utf8. rewrite Hu, string_of_bytes_of. f_equal. lia.
  - apply Forall_forall. intros x Hx. apply Is_true_true, negb_true_iff, Ascii.eqb_neq. intros ->. done.
  - by rewrite Ascii.eqb_refl.
Qed.

Lemma quoted_operand q p :
  facet_name (p_tag p) → Ascii.eqb q squote || Ascii.eqb q dquote = true → q ∉ bytes_of (p_value p) →
  utf8_valid (bytes_of (p_value p)) = true → operand_text (quoted_text q p) (Predicate p).
Proof.
  intros Ht Hq Hni Hu bs idx r fuel Hd Hf Hfu. unfold quoted_text in *.
  rewrite !bytes_of_app, !bytes_of_string_of in Hd. rewrite <-!(assoc_L (++)) in Hd.
  rewrite (parse_unary_predicate _ _ _ _ _ _ Ht Hd) by lia.
  assert (Hid : is_identifier (p_tag p)) by (by apply andb_True in Ht as [[? _]%andb_True _]).
  destruct (parse_predicate_prefix bs _ _ q (bytes_of (p_value p) ++ [q] ++ r) _ Hid Hd) as (aop & Hop & -> & Hd').
  { by apply orb_prop in Hq as [->%Ascii.eqb_eq| ->%Ascii.eqb_eq]. }
  rewrite (parse_quoted_at _ _ _ _ r Hd') by done. unfold to_public_atom. cbn [a_tag a_op a_value]. rewrite Hop.
  destruct p as [t o v]; cbn [p_tag p_op p_value]. do 2 f_equal.
  rewrite !bytes_of_app, !bytes_of_string_of, !length_app. destruct o; cbn; lia.
Qed.

Lemma parse_and_operand bs s e idx r fuel :
  operand_text s e → drop idx bs = bytes_of s ++ r → follows PAnd r → 8 * (length bs - idx) + 4 ≤ fuel →
  parse_and bs fuel idx = Ok (e, skip_ws bs (idx + length (bytes_of s))).
Proof.
  intros He Hd Hf Hfu. destruct fuel as [|[|fuel]]; [lia..|].
  change (parse_and bs (S (S fuel)) idx) with ('(e, i) ← parse_unary bs (S fuel) idx; and_loop bs (S fuel) e i).
  rewrite (He bs idx r (S fuel)); [|done|by eapply follows_weaken|lia]. cbn [mbind result_bind].
  by apply (and_loop_stop _ _ _ _ r); [apply drop_move|].
Qed.

(** One operand alone. *)
Lemma parse_operand s e : operand_text s e → parse_condition_expr s = Ok e.
Proof.
  intros He. unfold parse_condition_expr. set (bs := bytes_of s).
  assert (Hd : drop 0 bs = bytes_of s ++ []) by (by rewrite app_nil_r).
  unfold parse_fuel. replace (8 * length bs + 8) with (S (S (8 * length bs + 6))) by lia.
  change (parse_or bs (S (S (8 * length bs + 6))) 0)
    with ('(e, i) ← parse_and bs (S (8 * length bs + 6)) 0; or_loop bs (S (8 * length bs + 6)) e i).
  rewrite (parse_and_operand bs s e 0 []); [|done|done|constructor|lia]. cbn [mbind result_bind Nat.add].
  fold bs. assert (Hw : skip_ws bs (length bs) = length bs) by (rewrite skip_ws_drop, drop_all; cbn; lia).
  rewrite Hw, (or_loop_stop _ _ _ _ []); [|by rewrite drop_all|constructor]. cbn [mbind result_bind].
  by rewrite !Hw, decide_True.
Qed.

(** Two operands. *)
Lemma parse_disjunction s1 e1 s2 e2 :
  operand_text s1 e1 → operand_text s2 e2 → starts_tight s2 →
  parse_condition_expr (s1 +:+ " || " +:+ s2) = Ok (Or e1 e2).
Proof.
  intros H1 H2 (b & r & Hb & Hbw). unfold parse_condition_expr. set (bs := bytes_of (s1 +:+ " || " +:+ s2)).
  assert (Hd : drop 0 bs = bytes_of s1 ++ bytes_of " || " ++ bytes_of s2) by (unfold bs; by rewrite !bytes_of_app).
  assert (Hlen : length bs = length (bytes_of s1) + 4 + length (bytes_of s2)).
  { unfold bs. rewrite !bytes_of_app, !length_app. cbn. lia. }
  unfold parse_fuel. replace (8 * length bs + 8) with (S (S (8 * length bs + 6))) by lia.
  change (parse_or bs (S (S (8 * length bs + 6))) 0)
    with ('(e, i) ← parse_and bs (S (8 * length bs + 6)) 0; or_loop bs (S (8 * length bs + 6)) e i).
  rewrite (parse_and_operand bs s1 e1 0 (bytes_of " || " ++ bytes_of s2)); [|done|done|by constructor|lia].
  cbn [mbind result_bind Nat.add]. pose proof (drop_move _ _ _ _ Hd) as Hd1. cbn [Nat.add] in Hd1.
  rewrite (or_loop_more bs _ _ _ _ Hd1). unfold or_from. set (i := length (bytes_of s1)) in *.
  assert (Hd3 : drop (i + 3) bs = " "%char :: bytes_of s2).
  { rewrite <-(app_nil_r (bytes_of s2)). apply (drop_move _ i (bytes_of " ||")). rewrite Hd1. by rewrite app_nil_r. }
  rewrite <-parse_and_skip, (skip_ws_space bs _ b r) by (done || by rewrite Hd3, Hb).
  replace (S (i + 3)) with (i + 4) by lia.
  assert (Hd4 : drop (i + 4) bs = bytes_of s2 ++ []).
  { rewrite app_nil_r. replace (i + 4) with (S (i + 3)) by lia. by eapply drop_step. }
  rewrite (parse_and_operand bs s2 e2 (i + 4) []); [|done|done|constructor|lia]. cbn [mbind result_bind].
  replace (i + 4 + length (bytes_of s2)) with (length bs) by lia.
  assert (Hw : skip_ws bs (length bs) = length bs) by (rewrite skip_ws_drop, drop_all; cbn; lia).
  replace (8 * length bs + 6) with (S (8 * length bs + 5)) by lia.
  rewrite Hw, (or_loop_stop _ _ _ _ []); [|by rewrite drop_all|constructor]. cbn [mbind result_bind].
  by rewrite !Hw, decide_True.
Qed.

(** A negated condition in parentheses. *)
Lemma guard_operand c e : parse_condition_expr c = Ok e → operand_text ("!(" +:+ c +:+ ")") (Not e).
Proof.
  intros Hc bs idx r fuel Hd Hf Hfu. rewrite !bytes_of_app in Hd. rewrite <-!(assoc_L (++)) in Hd.
  cbn [bytes_of String.list_ascii_of_string app] in Hd. fold (bytes_of c) in Hd.
  pose proof (drop_len _ _ ("!" :: "(" :: bytes_of c)%char (")"%char :: r) Hd) as Hlen. cbn [length] in Hlen.
  unfold parse_condition_expr in Hc. apply bind_Ok in Hc as ([e1 i1] & E1 & Hc).
  destruct (decide (skip_ws (bytes_of c) i1 = length (bytes_of c))) as [Hend|]; [|done]. injection Hc as ->.
  apply (parser_bounds (bytes_of c)) in E1 as Hb; [|lia].
  set (pre := take (idx + 2) bs).
  assert (Hpre : length pre = idx + 2) by (unfold pre; rewrite length_take; lia).
  assert (Hbs : bs = pre ++ bytes_of c ++ ")"%char :: r).
  { unfold pre. rewrite <-(take_drop (idx + 2) bs) at 1. f_equal.
    apply (drop_move _ idx ("!" :: "(" :: nil)%char (bytes_of c ++ ")"%char :: r)). exact Hd. }
  clearbody pre. destruct fuel as [|[|[|fuel]]]; [lia..|].
  assert (E2 : parse_or bs fuel (S (S idx)) = Ok (e, idx + 2 + i1)).
  { replace (S (S idx)) with (length pre + 0) by lia. rewrite <-Hpre, Hbs.
    apply (within_parser pre (bytes_of c) r (parse_fuel (length (bytes_of c)))); [|lia|done].
    unfold parse_fuel. lia. }
  assert (Hw1 : skip_ws bs (idx + 2 + i1) = idx + 2 + length (bytes_of c)).
  { rewrite <-Hpre, Hbs, within_ws by lia. by rewrite Hend. }
  assert (Hcl : at_byte bs (idx + 2 + length (bytes_of c)) ")" = true).
  { unfold at_byte. rewrite Hbs, <-Hpre, within_end. done. }
  assert (Hop : drop (S idx) bs = "("%char :: bytes_of c ++ ")"%char :: r) by (by eapply drop_step).
  cbn -[decide]. rewrite (skip_ws_operand bs _ _ _ Hd) by done. rewrite !at_byte_drop, Hd, Hop. cbn -[decide].
  rewrite !(skip_ws_operand bs _ _ _ Hop) by done. rewrite !Hop. cbn -[decide].
  rewrite decide_False by lia. rewrite E2. cbn [mbind result_bind]. rewrite Hw1, Hcl. cbn [mbind result_bind].
  do 2 f_equal. rewrite !bytes_of_app, !length_app. cbn. lia.
Qed.
