(* ===== verification/Lowering.v ===== *)
(** * From declarations to the constraint model

    Models [compiler/src/lowering.rs] and, of [compiler/src/compiler_core.rs],
    the functions from [declared_facets_from_summary] to [facet_ne_predicate]:
    a binding's [derive] table and a requirement's [accepts] list become root
    conjuncts in the condition grammar, declared facets become cardinality
    conjuncts, and selectors contribute their symbols only. *)
From S2P Require Import Prelude Tokens Ast FacetCompare SelectionEval Emitter Text Schema Resolver InterfaceSummary.

(** ** Predicates *)

Definition dquoted (value : string) : string := string_of ["034"%char] +:+ value +:+ string_of ["034"%char].

Definition facet_eq_predicate (name value : string) : string :=
  if decide ("'"%char ∈ bytes_of value) then name +:+ " == " +:+ dquoted value
  else name +:+ " == '" +:+ value +:+ "'".

Definition facet_ne_predicate (name value : string) : string :=
  if decide ("'"%char ∈ bytes_of value) then name +:+ " != " +:+ dquoted value
  else name +:+ " != '" +:+ value +:+ "'".

(** ** Lowered conjuncts *)

Record LoweredConjunct : Type := mkLowered {
  lc_id : string;
  lc_condition : string;
  lc_origin : string;
}.

Definition DERIVE_ATTRIBUTION_PREFIX : string := "derive:".
Definition ACCEPTS_ATTRIBUTION_PREFIX : string := "accepts:".

Definition derive_attribution_id (binding source source_value : string) : string :=
  DERIVE_ATTRIBUTION_PREFIX +:+ binding +:+ ":" +:+ source +:+ "=" +:+ source_value.

Definition accepts_attribution_id (component slot : string) : string :=
  ACCEPTS_ATTRIBUTION_PREFIX +:+ component +:+ "." +:+ slot.

Definition accepts_disjunction (binding : string) (accepts : list string) : string :=
  match facet_eq_predicate binding <$> accepts with
  | [d] => d
  | ds => "any_of(" +:+ join_with ", " ds +:+ ")"
  end.

Definition guarded (condition : option string) (conjunct : string) : string :=
  match trim <$> condition with
  | Some condition =>
      if decide (condition = String.EmptyString) then conjunct else "!(" +:+ condition +:+ ") || " +:+ conjunct
  | None => conjunct
  end.

Definition derive_conjunct (id source : string) (ve : string * string) : LoweredConjunct :=
  mkLowered (derive_attribution_id id source ve.1)
    (facet_ne_predicate source ve.1 +:+ " || " +:+ facet_eq_predicate id ve.2) id.

Definition derive_conjuncts (bindings : gmap string Binding) : list LoweredConjunct :=
  flat_map (λ ib,
    match bd_derive ib.2 with
    | None => []
    | Some table =>
        flat_map (λ sp, derive_conjunct ib.1 sp.1 <$> bt_list sp.2) (bt_list table)
    end) (bt_list bindings).

Definition accepts_conjunct (component slot binding : string) (condition : option string) (accepts : list string)
    : LoweredConjunct :=
  mkLowered (accepts_attribution_id component slot) (guarded condition (accepts_disjunction binding accepts)) component.

(** An absent or empty list asserts nothing. *)
Definition accepted (component slot binding : string) (condition : option string) (accepts : option (list string))
    : list LoweredConjunct :=
  match accepts with
  | None | Some [] => []
  | Some accepts => [accepts_conjunct component slot binding condition accepts]
  end.

Definition accepts_conjuncts (components : gmap string Component) : list LoweredConjunct :=
  flat_map (λ ic,
    flat_map (λ sr, accepted ic.1 sr.1 (rq_binding sr.2) (cp_condition ic.2) (rq_accepts sr.2))
      (bt_list (requires ic.2))) (bt_list components).

Definition lowered_root_conjuncts (bindings : gmap string Binding) (components : gmap string Component)
    : list LoweredConjunct :=
  derive_conjuncts bindings ++ accepts_conjuncts components.

Definition link_conjuncts (il : string * BindingLink) : list LoweredConjunct :=
  match derive_source il.2 with
  | None => []
  | Some source => derive_conjunct il.1 source <$> derive_pairs il.2
  end.

Definition requirement_conjuncts (r : RequirementLink) : list LoweredConjunct :=
  accepted (rl_component r) (rl_slot r) (rl_binding r) (rl_condition r) (rl_accepts r).

Definition lowered_root_conjuncts_from_summary (binding_links : gmap string BindingLink)
    (requirements : list RequirementLink) : list LoweredConjunct :=
  flat_map link_conjuncts (bt_list binding_links) ++ flat_map requirement_conjuncts requirements.

(** ** Reading a conjunct back *)

Inductive Attribution : Type :=
  | Derive (binding source source_value entry : string)
  | Accepts (component slot : string) (entries : list string).

Definition is_quote (b : ascii) : bool := Ascii.eqb b "'"%char || Ascii.eqb b "034"%char.

(** Index of the parenthesis that closes the consumed one, outside literals. *)
Fixpoint balanced_loop (idx depth : nat) (quote : option ascii) (l : list ascii) : option nat :=
  match l with
  | [] => None
  | ch :: l =>
      match quote with
      | Some q => balanced_loop (S idx) depth (if Ascii.eqb ch q then None else quote) l
      | None =>
          if is_quote ch then balanced_loop (S idx) depth (Some ch) l
          else if Ascii.eqb ch "("%char then balanced_loop (S idx) (S depth) None l
          else if Ascii.eqb ch ")"%char then
            match depth with O => Some idx | S depth => balanced_loop (S idx) depth None l end
          else balanced_loop (S idx) depth None l
      end
  end.

Definition balanced_paren_end (text : string) : option nat := balanced_loop 0 0 None (bytes_of text).

Fixpoint quoted_loop (fuel : nat) (rest : list ascii) : list string :=
  match fuel with
  | O => []
  | S fuel =>
      let start := scan (λ b, negb (is_quote b)) rest in
      match rest !! start with
      | None => []
      | Some quote =>
          let body := drop (S start) rest in
          let stop := scan (λ b, negb (Ascii.eqb b quote)) body in
          match body !! stop with
          | None => []
          | Some _ => string_of (take stop body) :: quoted_loop fuel (drop (S stop) body)
          end
      end
  end.

Definition quoted_literals (text : string) : list string :=
  quoted_loop (S (length (bytes_of text))) (bytes_of text).

Definition last_quoted_literal (text : string) : option string :=
  match reverse (bytes_of (trim_end text)) with
  | [] => None
  | quote :: body =>
      if is_quote quote then
        let start := scan (λ b, negb (Ascii.eqb b quote)) body in
        match body !! start with
        | None => None
        | Some _ => Some (string_of (reverse (take start body)))
        end
      else None
  end.

Definition unguard (condition : string) : string :=
  match strip_text "!(" condition with
  | None => condition
  | Some rest =>
      match balanced_paren_end rest with
      | None => condition
      | Some stop =>
          let after := trim_start (string_of (drop (S stop) (bytes_of rest))) in
          match strip_text "||" after with
          | Some payload => trim_start payload
          | None => condition
          end
      end
  end.

Definition accepted_entries (condition : string) : list string :=
  let payload := unguard (trim condition) in
  match strip_text "any_of(" payload with
  | Some args =>
      match balanced_paren_end args with
      | Some stop => quoted_literals (string_of (take stop (bytes_of args)))
      | None => []
      end
  | None => match last_quoted_literal payload with Some l => [l] | None => [] end
  end.

Definition describe_attribution (id condition : string) : option Attribution :=
  match strip_text DERIVE_ATTRIBUTION_PREFIX id with
  | Some rest =>
      '(binding, tail) ← split_once ":"%char rest;
      '(source, source_value) ← split_once "="%char tail;
      entry ← last_quoted_literal condition;
      Some (Derive binding source source_value entry)
  | None =>
      match strip_text ACCEPTS_ATTRIBUTION_PREFIX id with
      | Some rest =>
          '(component, slot) ← split_once "."%char rest;
          match accepted_entries condition with
          | [] => None
          | entries => Some (Accepts component slot entries)
          end
      | None => None
      end
  end.

Example describe_derive :
  let c := derive_conjunct "line_box" "site" ("factory_a", "c1") in
  lc_id c = "derive:line_box:site=factory_a" ∧ lc_condition c = "site != 'factory_a' || line_box == 'c1'" ∧
  describe_attribution (lc_id c) (lc_condition c) = Some (Derive "line_box" "site" "factory_a" "c1").
Proof. vm_compute. done. Qed.

Example describe_accepts :
  let c := accepts_conjunct "cell" "box" "line_box" (Some " any_of(a == ')', b == 'y') ") ["c1"; "c2"] in
  lc_condition c = "!(any_of(a == ')', b == 'y')) || any_of(line_box == 'c1', line_box == 'c2')" ∧
  describe_attribution (lc_id c) (lc_condition c) = Some (Accepts "cell" "box" ["c1"; "c2"]).
Proof. vm_compute. done. Qed.

(** ** The constraint model *)

(** The facet a binding is, from its catalogue's roster. *)
Definition link_facet (m : MergedSummary) (link : BindingLink) : option Facet :=
  (λ entries, mkFacet entries (bl_default link) false None) <$> ms_catalogue_entries m !! bl_catalogue link.

Definition declared_facets_from_summary (m : MergedSummary) : gmap string Facet :=
  omap (link_facet m) (ms_binding_links m) ∪
  map_imap (λ name values, Some (mkFacet values None (bool_decide (name ∈ ms_open_facets m)) None)) (ms_facet_domains m).

Definition synthesize_symbol_introduction (name value : string) : string :=
  facet_eq_predicate name value +:+ " || " +:+ facet_ne_predicate name value.

(** [seen.insert(..)]: the first of each, in order. *)
Fixpoint first_seen {A} `{Countable A} (seen : gset A) (l : list A) : list A :=
  match l with
  | [] => []
  | x :: l => if decide (x ∈ seen) then first_seen seen l else x :: first_seen ({[x]} ∪ seen) l
  end.

Definition synthesize_selector_symbols (expr : ConditionExpr) : list string :=
  (λ tv, synthesize_symbol_introduction tv.1 tv.2) <$> first_seen ∅ (for_each_predicate_symbol expr).

Definition synthesize_facet_clauses (facets : gmap string Facet) : list string :=
  flat_map (λ nf, synthesize_symbol_introduction nf.1 <$> fc_values nf.2) (bt_list facets).

(** The clauses one selector contributes. *)
Definition selector_clauses (selector : Clause) : list string :=
  let trimmed := trim (cl_condition selector) in
  if decide (trimmed = String.EmptyString) then []
  else match parse_condition_expr trimmed with Ok expr => synthesize_selector_symbols expr | Err _ => [] end.

Definition ccm_clauses (selectors : list Clause) (declared : gmap string Facet) : list string :=
  first_seen ∅ (flat_map selector_clauses selectors) ++ synthesize_facet_clauses declared.

Definition ccm_constraints (m : MergedSummary) : list (string * string) :=
  bt_list (foldl (λ acc c, <[cl_id c := cl_condition c]> acc) ∅ (ms_clauses m)) ++
  ((λ l, (lc_id l, lc_condition l)) <$> lowered_root_conjuncts_from_summary (ms_binding_links m) (ms_requirements m)).

Definition facet_cardinality (nf : string * Facet) : list string :=
  let '(name, f) := nf in
  if fc_open f then
    (λ ab, facet_ne_predicate name ab.1 +:+ " || " +:+ facet_ne_predicate name ab.2) <$> index_pairs (fc_values f)
  else
    match fc_values f with
    | [] => []
    | [v] => [facet_eq_predicate name v]
    | values => ["exactly_one_of(" +:+ join_with ", " (facet_eq_predicate name <$> values) +:+ ")"]
    end.

Definition synthesize_facet_cardinality (facets : gmap string Facet) : list string :=
  flat_map facet_cardinality (bt_list facets).

Definition collect_facet_domains (facets : gmap string Facet) : gmap string (list string) := fc_values <$> facets.

Definition condition_model_from_summary (model_hash : string) (m : MergedSummary) : ConditionModel :=
  let declared := declared_facets_from_summary m in
  mkModel model_hash (ccm_clauses (ms_selectors m) declared) (ccm_constraints m)
    (synthesize_facet_cardinality declared) (collect_facet_domains declared).

(** The first pair whose symbol cannot be written in the grammar. *)
Definition unrepresentable_facet_symbol (domains : gmap string (list string)) : option (string * string) :=
  head (flat_map (λ nv,
    match List.find (λ v, match parse_condition_expr (synthesize_symbol_introduction nv.1 v) with
                          | Ok _ => false | Err _ => true end) nv.2 with
    | Some v => [(nv.1, v)]
    | None => []
    end) (bt_list domains)).
