(* ===== verification/LoweringProps.v ===== *)
(** * What the lowered model means

    The theorems about [Lowering.v]: every text the compiler synthesizes parses
    as the expression it is written for, whatever the authored symbols are; the
    constraint model built from verified interfaces holds at a selection exactly
    when the authored constraints, the [derive] tables and the [accepts] lists of
    the included components hold there; and a lowered conjunct can be read back. *)
From S2P Require Import Bdd BddLayout BddBytes CcmFormat.
From S2P Require Import Prelude Tokens Ast Eval Implication FacetCompare SelectionEval Rewrite VarOrder Emitter.
From S2P Require Import Text Schema Resolver ResolverProps InterfaceSummary LinkVerify LinkGraph.
From S2P Require Import LinkVerifyProps ParseContext Lowering.

(** ** Symbols *)

Lemma token_literal v : is_symbol_token v = true → literal_text v.
Proof.
  unfold is_symbol_token, literal_text. intros H.
  assert (Hall : forallb is_token_byte (bytes_of v) = true) by (by destruct (bytes_of v)).
  rewrite forallb_elem in Hall. apply andb_True. split.
  - apply bool_decide_pack. intros Hin. specialize (Hall _ Hin). by vm_compute in Hall.
  - apply Is_true_true, utf8_valid_ascii, Forall_forall. intros x Hx. specialize (Hall x Hx).
    by destruct x as [[] [] [] [] [] [] [] []].
Qed.

Lemma literal_text_spelled v : literal_text v → literal_spelled v.
Proof. intros [Hq%bool_decide_unpack Hu%Is_true_true]%andb_True. split; [done|by left]. Qed.

Lemma snake_walk_chars l : snake_walk l = true → forallb is_ident_char l = true.
Proof.
  assert (Hc : ∀ b, is_alnum_lower b = true → is_ident_char b = true).
  { intros b. by destruct b as [[] [] [] [] [] [] [] []]. }
  revert l. fix IH 1. intros [|b l]; [done|]. cbn [snake_walk forallb]. destruct (is_alnum_lower b) eqn:Eb.
  - intros Hl. rewrite (Hc b Eb). by apply IH.
  - destruct (Ascii.eqb_spec b "_") as [->|]; [|done]. destruct l as [|c l]; [done|].
    intros [Hn Hl]%andb_prop. cbn [forallb]. rewrite (Hc c Hn). by apply IH.
Qed.

Lemma snake_facet_name id : is_snake_id id = true → id ≠ "true" → id ≠ "false" → facet_name id.
Proof.
  intros Hs Ht Hf. unfold facet_name, is_identifier. unfold is_snake_id in Hs.
  destruct (bytes_of id) as [|b l]; [done|]. apply andb_prop in Hs as [Hb Hl].
  rewrite !bool_decide_eq_false_2 by done. cbn. rewrite !andb_true_r. apply Is_true_true, andb_true_intro.
  split; [done|]. by apply snake_walk_chars.
Qed.

(** ** Predicate texts *)

Definition eqp (name value : string) : ConditionExpr := Predicate (mkPredicate name OpEq value).
Definition nep (name value : string) : ConditionExpr := Predicate (mkPredicate name OpNotEq value).

Lemma eq_text name value :
  facet_eq_predicate name value =
    quoted_text (if decide ("'"%char ∈ bytes_of value) then "034"%char else "'"%char) (mkPredicate name OpEq value).
Proof. unfold facet_eq_predicate, quoted_text, dquoted. case_decide; reflexivity. Qed.

Lemma ne_text name value :
  facet_ne_predicate name value =
    quoted_text (if decide ("'"%char ∈ bytes_of value) then "034"%char else "'"%char) (mkPredicate name OpNotEq value).
Proof. unfold facet_ne_predicate, quoted_text, dquoted. case_decide; reflexivity. Qed.

Lemma quote_ok value :
  literal_spelled value →
  let q := if decide ("'"%char ∈ bytes_of value) then "034"%char else "'"%char in
  Ascii.eqb q "'" || Ascii.eqb q "034" = true ∧ q ∉ bytes_of value ∧ utf8_valid (bytes_of value) = true.
Proof. intros [Hu Hq]. cbn zeta. case_decide; [|done]. destruct Hq; done. Qed.

Lemma eq_operand name value :
  facet_name name → literal_spelled value → operand_text (facet_eq_predicate name value) (eqp name value).
Proof. intros Hn Hv. destruct (quote_ok value Hv) as (H1 & H2 & H3). rewrite eq_text. by apply quoted_operand. Qed.

Lemma ne_operand name value :
  facet_name name → literal_spelled value → operand_text (facet_ne_predicate name value) (nep name value).
Proof. intros Hn Hv. destruct (quote_ok value Hv) as (H1 & H2 & H3). rewrite ne_text. by apply quoted_operand. Qed.

Lemma ident_start_tight b : is_ident_start b = true → is_ascii_whitespace b = false.
Proof. by destruct b as [[] [] [] [] [] [] [] []]. Qed.

Lemma name_tight name s : facet_name name → starts_tight (name +:+ s).
Proof.
  intros [[Hid _]%andb_True _]%andb_True. apply identifier_head in Hid as (b & r & Hb & Hs).
  exists b, (r ++ bytes_of s). split; [by rewrite bytes_of_app, Hb|]. by apply ident_start_tight.
Qed.

Lemma eq_tight name value : facet_name name → starts_tight (facet_eq_predicate name value).
Proof. intros Hn. unfold facet_eq_predicate. case_decide; by apply name_tight. Qed.

Lemma ne_tight name value : facet_name name → starts_tight (facet_ne_predicate name value).
Proof. intros Hn. unfold facet_ne_predicate. case_decide; by apply name_tight. Qed.

Lemma introduction_text name value :
  facet_name name → literal_spelled value →
  parse_condition_expr (synthesize_symbol_introduction name value) = Ok (Or (eqp name value) (nep name value)).
Proof.
  intros Hn Hv. unfold synthesize_symbol_introduction.
  apply parse_disjunction; [by apply eq_operand|by apply ne_operand|by apply ne_tight].
Qed.

(** No symbol can break out of the clause it is written into: for every
    facet name the grammar can spell and every value some quotes can hold, the
    synthesized introduction parses as exactly the equality and the inequality
    of that facet and that value. *)
Theorem introduction_parses name value :
  facet_name name → literal_spelled value →
  parse_condition_expr (synthesize_symbol_introduction name value) = Ok (Or (eqp name value) (nep name value)).
Proof. apply introduction_text. Qed.

Lemma introduction_parses_witness :
  facet_name "any_of" ∧
  parse_condition_expr (synthesize_symbol_introduction "any_of" "it's") = Ok (Or (eqp "any_of" "it's") (nep "any_of" "it's")).
Proof.
  split; [by vm_compute|]. apply introduction_parses; [by vm_compute|]. split; [reflexivity|]. right.
  intros Hin. apply list_elem_of_In in Hin. cbn in Hin. by destruct_or? Hin.
Defined.

(** The two names the charset rule lets through and the grammar cannot
    spell: a facet called [true] or [false] passes the identifier rule, and its
    introduction does not parse. *)
Example keyword_facet_unrepresentable :
  check_facet_symbols "true" (mkFacet ["a"] None false None) = Ok tt ∧
  unrepresentable_facet_symbol {["true" := ["a"]]} = Some ("true", "a").
Proof. split; vm_compute; reflexivity. Qed.

(** A constraint is validated on its trimmed text and emitted as it was written:
    a leading vertical tab, which [trim] removes and the grammar's whitespace
    does not include, passes the check and does not parse in the model. *)
Example padded_constraint_unparsed :
  let text := string_of ["011"%char] +:+ "region == 'eu'" in
  check_constraint {["region" := mkFacet ["eu"; "us"] None false None]} Complete "c" (mkConstraintDecl text None) = Ok tt ∧
  match parse_condition_expr text with Ok _ => False | Err _ => True end.
Proof. split; vm_compute; done. Qed.

(** ** Lists of predicates *)

Lemma join_concat sep l : join_with sep l = join sep l.
Proof.
  unfold join. induction l as [|x l IH]; [done|]. destruct l as [|y l]; [done|].
  cbn [join_with String.concat] in *. by rewrite IH.
Qed.

Lemma eq_serialized name value : literal_text value → facet_eq_predicate name value = serialize (eqp name value) POr.
Proof.
  intros [Hq%bool_decide_unpack _]%andb_True. unfold facet_eq_predicate. rewrite decide_False by done. reflexivity.
Qed.

Lemma eq_list_serialized name values :
  Forall literal_text values →
  facet_eq_predicate name <$> values = map (λ e, serialize e POr) (eqp name <$> values).
Proof. induction 1 as [|v values Hv _ IH]; cbn; [done|]. by rewrite eq_serialized, IH. Qed.

Lemma spellable_list name values :
  facet_name name → Forall literal_text values → forallb spellable (eqp name <$> values).
Proof.
  intros Hn. induction 1 as [|v values Hv _ IH]; cbn [fmap list_fmap forallb]; [done|].
  apply andb_True. split; [|done]. by apply andb_True.
Qed.

Lemma canon_list name (values : list string) : canon <$> (eqp name <$> values) = eqp name <$> values.
Proof. induction values as [|v values IH]; cbn; [done|]. by rewrite IH. Qed.

(** [any_of] and [exactly_one_of] over the equalities of a facet. *)
Lemma any_of_operand name values :
  facet_name name → Forall literal_text values → 2 ≤ length values →
  operand_text ("any_of(" +:+ join_with ", " (facet_eq_predicate name <$> values) +:+ ")") (AnyOf (eqp name <$> values)).
Proof.
  intros Hn Hv Hl. rewrite join_concat, eq_list_serialized by done.
  apply (serialized_operand (AnyOf (eqp name <$> values))).
  - cbn [spellable]. apply andb_True. split; [|by apply spellable_list]. rewrite length_fmap. by apply Is_true_true, Nat.leb_le.
  - cbn [canon]. f_equal. apply canon_list.
Qed.

Lemma exactly_one_operand name values :
  facet_name name → Forall literal_text values → 2 ≤ length values →
  operand_text ("exactly_one_of(" +:+ join_with ", " (facet_eq_predicate name <$> values) +:+ ")")
    (ExactlyOneOf (eqp name <$> values)).
Proof.
  intros Hn Hv Hl. rewrite join_concat, eq_list_serialized by done.
  apply (serialized_operand (ExactlyOneOf (eqp name <$> values))).
  - cbn [spellable]. apply andb_True. split; [|by apply spellable_list]. rewrite length_fmap. by apply Is_true_true, Nat.leb_le.
  - cbn [canon]. f_equal. apply canon_list.
Qed.

(** The expression of an [accepts] list. *)
Definition accepts_expr (binding : string) (accepts : list string) : ConditionExpr :=
  match accepts with [e] => eqp binding e | _ => AnyOf (eqp binding <$> accepts) end.

Lemma accepts_operand binding accepts :
  facet_name binding → Forall literal_text accepts → accepts ≠ [] →
  operand_text (accepts_disjunction binding accepts) (accepts_expr binding accepts) ∧
  starts_tight (accepts_disjunction binding accepts).
Proof.
  intros Hn Hv Hne. unfold accepts_disjunction. destruct accepts as [|a [|b l]]; [done| |]; cbn [fmap list_fmap].
  - split; [|by apply eq_tight]. apply eq_operand; [done|]. inversion Hv. by apply literal_text_spelled.
  - split; [|by exists "a"%char, (bytes_of ("ny_of(" +:+ join_with ", "
      (facet_eq_predicate binding a :: facet_eq_predicate binding b :: (facet_eq_predicate binding <$> l)) +:+ ")"))].
    apply (any_of_operand binding (a :: b :: l)); [done|done|cbn; lia].
Qed.

(** The expression a guarded conjunct parses as. *)
Definition guarded_expr (guard : option ConditionExpr) (e : ConditionExpr) : ConditionExpr :=
  match guard with Some g => Or (Not g) e | None => e end.

(** The guard of a component: its condition, unless absent or blank. *)
Definition guard_of (condition : option string) (guard : option ConditionExpr) : Prop :=
  match trim <$> condition with
  | None => guard = None
  | Some c => if decide (c = String.EmptyString) then guard = None
              else ∃ g, parse_condition_expr c = Ok g ∧ guard = Some g
  end.

Lemma guarded_parses condition guard s e :
  guard_of condition guard → operand_text s e → starts_tight s →
  parse_condition_expr (guarded condition s) = Ok (guarded_expr guard e).
Proof.
  intros Hg Hs Ht. unfold guard_of, guarded in *. destruct (trim <$> condition) as [c|]; [|subst; by apply parse_operand].
  destruct (decide (c = String.EmptyString)); [subst; by apply parse_operand|].
  destruct Hg as (g & Hg & ->). replace ("!(" +:+ c +:+ ") || " +:+ s) with (("!(" +:+ c +:+ ")") +:+ " || " +:+ s).
  - apply parse_disjunction; [by apply guard_operand|done|done].
  - apply bytes_of_inj. rewrite !bytes_of_app. by rewrite <-!(assoc_L (++)).
Qed.

(** ** Meaning of the parts *)

Section Meaning.
Context (sigma : gmap string string).

Lemma eqp_eval name value : eval_total (eqp name value) sigma = bool_decide (sigma !! name = Some value).
Proof.
  cbn. unfold eval_total_predicate. cbn. destruct (sigma !! name) as [v|]; [|done].
  apply bool_decide_ext. split; [by intros ->|by intros [= ->]].
Qed.

Lemma nep_eval name value v :
  sigma !! name = Some v → eval_total (nep name value) sigma = negb (bool_decide (sigma !! name = Some value)).
Proof.
  intros Hv. cbn. unfold eval_total_predicate. cbn. rewrite Hv, <-bool_decide_not.
  apply bool_decide_ext. split; [congruence|]. intros Hne ->. done.
Qed.

Lemma introduction_true name value :
  is_Some (sigma !! name) → eval_total (Or (eqp name value) (nep name value)) sigma = true.
Proof.
  intros [v Hv]. cbn [eval_total]. change (eval_total_predicate (mkPredicate name OpEq value) sigma) with (eval_total (eqp name value) sigma).
  change (eval_total_predicate (mkPredicate name OpNotEq value) sigma) with (eval_total (nep name value) sigma).
  rewrite eqp_eval, (nep_eval _ _ v) by done. by destruct (bool_decide _).
Qed.

Lemma derive_eval source k id entry :
  is_Some (sigma !! source) →
  eval_total (Or (nep source k) (eqp id entry)) sigma = true ↔ (sigma !! source = Some k → sigma !! id = Some entry).
Proof.
  intros [v Hv]. cbn [eval_total].
  change (eval_total_predicate (mkPredicate source OpNotEq k) sigma) with (eval_total (nep source k) sigma).
  change (eval_total_predicate (mkPredicate id OpEq entry) sigma) with (eval_total (eqp id entry) sigma).
  rewrite orb_true_iff, (nep_eval _ _ v), eqp_eval, negb_true_iff, bool_decide_eq_true, bool_decide_eq_false by done.
  destruct (decide (sigma !! source = Some k)); tauto.
Qed.

Lemma accepts_eval binding accepts :
  eval_total (accepts_expr binding accepts) sigma = true ↔ ∃ e, e ∈ accepts ∧ sigma !! binding = Some e.
Proof.
  assert (Hany : eval_total (AnyOf (eqp binding <$> accepts)) sigma = true ↔ ∃ e, e ∈ accepts ∧ sigma !! binding = Some e).
  { cbn [eval_total]. rewrite existsb_exists. setoid_rewrite <-list_elem_of_In. setoid_rewrite list_elem_of_fmap. split.
    - intros (x & (e & -> & He) & Hx). exists e. split; [done|]. rewrite eqp_eval in Hx. by apply bool_decide_eq_true in Hx.
    - intros (e & He & Hs). exists (eqp binding e). split; [eauto|]. rewrite eqp_eval. by apply bool_decide_eq_true. }
  unfold accepts_expr. destruct accepts as [|a [|b l]]; [exact Hany| |exact Hany].
  rewrite eqp_eval, bool_decide_eq_true. split; [exists a; split; [constructor|done]|].
  by intros (e & ->%list_elem_of_singleton & ?).
Qed.

Lemma guarded_eval guard e :
  eval_total (guarded_expr guard e) sigma = true ↔
    ((∀ g, guard = Some g → eval_total g sigma = true) → eval_total e sigma = true).
Proof.
  destruct guard as [g|]; cbn [guarded_expr].
  - cbn [eval_total]. destruct (eval_total g sigma) eqn:Eg; cbn.
    + split; [done|]. intros H. apply H. by intros ? [= <-].
    + split; [|done]. intros _ H. specialize (H g eq_refl). congruence.
  - split; [done|]. intros H. by apply H.
Qed.

(** A facet that has one of its values satisfies its cardinality. *)
Lemma exactly_one_true name values v :
  NoDup values → v ∈ values → sigma !! name = Some v → eval_total (ExactlyOneOf (eqp name <$> values)) sigma = true.
Proof.
  intros Hnd Hv Hs. cbn [eval_total]. apply Nat.eqb_eq.
  assert (Hf : List.filter (λ c, eval_total c sigma) (eqp name <$> values) = eqp name <$> (filter (λ x, x = v) values)).
  { clear Hnd Hv. induction values as [|x values IH]; [done|]. cbn [fmap list_fmap List.filter].
    rewrite eqp_eval, Hs, filter_cons, IH. case_bool_decide as Hx; [injection Hx as ->|]; case_decide; try done; congruence. }
  rewrite Hf, length_fmap. clear Hf. induction values as [|x values IH]; [by apply not_elem_of_nil in Hv|].
  apply NoDup_cons in Hnd as [Hni Hnd]. rewrite filter_cons. case_decide as Hx.
  - subst x. cbn. f_equal. assert (E : filter (λ x, x = v) values = []); [|by rewrite E].
    destruct (filter _ values) as [|y l] eqn:E; [done|].
    assert (Hy : y ∈ filter (λ x, x = v) values) by (rewrite E; constructor). by apply list_elem_of_filter in Hy as [-> ?].
  - apply elem_of_cons in Hv as [->|Hv]; [done|]. by apply IH.
Qed.

Lemma pair_true name a b v :
  a ≠ b → sigma !! name = Some v → eval_total (Or (nep name a) (nep name b)) sigma = true.
Proof.
  intros Hab Hv. cbn [eval_total].
  change (eval_total_predicate (mkPredicate name OpNotEq a) sigma) with (eval_total (nep name a) sigma).
  change (eval_total_predicate (mkPredicate name OpNotEq b) sigma) with (eval_total (nep name b) sigma).
  rewrite !(nep_eval _ _ v), Hv by done. repeat case_bool_decide; cbn; congruence.
Qed.
End Meaning.

(** ** What the links of a verified summary give *)

Definition named (id : string) (values : list string) : Prop :=
  facet_name id ∧ Forall (λ v, is_symbol_token v = true) values ∧ NoDup values.

(** Declared facets and bindings are spelled with symbols. *)
Record well_named (m : MergedSummary) : Prop := {
  wn_facets : ∀ id values, ms_facet_domains m !! id = Some values → named id values;
  wn_bindings : ∀ id link values, ms_binding_links m !! id = Some link →
    ms_catalogue_entries m !! bl_catalogue link = Some values → named id values;
}.

Lemma domain_named m id values : well_named m → declared_domain m id = Some values → named id values.
Proof.
  intros Hw. unfold declared_domain. destruct (ms_facet_domains m !! id) as [vs|] eqn:E.
  - intros [= ->]. by apply (wn_facets _ Hw).
  - destruct (ms_binding_links m !! id) as [link|] eqn:El; cbn; [|done]. by apply (wn_bindings _ Hw).
Qed.

Lemma declared_lookup m id f :
  declared_facets_from_summary m !! id = Some f →
  (∃ link values, ms_binding_links m !! id = Some link ∧ ms_catalogue_entries m !! bl_catalogue link = Some values ∧
     f = mkFacet values (bl_default link) false None) ∨
  (∃ values, ms_facet_domains m !! id = Some values ∧ f = mkFacet values None (bool_decide (id ∈ ms_open_facets m)) None).
Proof.
  unfold declared_facets_from_summary. rewrite lookup_union_Some_raw, lookup_omap, map_lookup_imap.
  intros [H|[_ H]].
  - destruct (ms_binding_links m !! id) as [link|]; cbn in H; [|done]. unfold link_facet in H.
    apply fmap_Some in H as (values & Hv & ->). left. eauto.
  - destruct (ms_facet_domains m !! id) as [values|]; cbn in H; [|done]. injection H as <-. right. eauto.
Qed.

Lemma declared_named m id f : well_named m → declared_facets_from_summary m !! id = Some f → named id (fc_values f).
Proof.
  intros Hw [(link & values & Hl & Hv & ->)|(values & Hv & ->)]%declared_lookup; cbn.
  - by apply (wn_bindings _ Hw id link).
  - by apply (wn_facets _ Hw).
Qed.

Lemma named_literals id values : named id values → Forall literal_text values.
Proof. intros (_ & H & _). eapply Forall_impl; [exact H|]. intros v Hv. by apply token_literal. Qed.

Lemma named_literal id values v : named id values → v ∈ values → literal_text v.
Proof. intros H Hv. apply named_literals in H. rewrite Forall_forall in H. by apply H. Qed.

Lemma binding_link_ok m id link :
  check_binding_link m Complete id link = Ok tt →
  ∃ entries, ms_catalogue_entries m !! bl_catalogue link = Some entries ∧
    ∀ source, derive_source link = Some source →
    ∃ domain, declared_domain m source = Some domain ∧
      ∀ k e, (k, e) ∈ derive_pairs link → k ∈ domain ∧ e ∈ entries.
Proof.
  unfold check_binding_link. rewrite bail_bind. intros [_ E].
  destruct (ms_catalogue_entries m !! bl_catalogue link) as [entries|]; [|done]. exists entries. split; [done|].
  apply check_then in E as [_ E]. apply bail_bind in E as [_ E]. intros source Hs. rewrite Hs in E.
  destruct (declared_domain m source) as [domain|]; [|done]. exists domain. split; [done|].
  intros k e Hin. rewrite check_each_Ok in E. specialize (E (k, e) Hin). unfold check_derive_pair in E. cbn in E.
  apply bail_bind in E as [Hk He]. apply bail_if_Ok in He.
  apply negb_false_iff, bool_decide_eq_true in Hk. apply negb_false_iff, bool_decide_eq_true in He. done.
Qed.

Lemma accepts_ok r entries seen accepts :
  check_accepts r entries seen accepts = Ok tt → ∀ e, e ∈ accepts → e ∈ entries.
Proof.
  revert seen. induction accepts as [|a accepts IH]; intros seen; cbn [check_accepts]; [by intros _ e ?%not_elem_of_nil|].
  rewrite !bail_bind. intros (_ & Ha & E) e [->|He]%elem_of_cons; [|by apply (IH _ E)].
  by apply negb_false_iff, bool_decide_eq_true in Ha.
Qed.

Lemma requirement_link_ok m r :
  check_requirement m Complete r = Ok tt →
  ∃ link, ms_binding_links m !! rl_binding r = Some link ∧
    ∀ accepts, rl_accepts r = Some accepts →
      accepts ≠ [] ∧ (∀ e, e ∈ accepts → e ∈ default [] (ms_catalogue_entries m !! bl_catalogue link)) ∧
      ∃ guard, guard_of (rl_condition r) guard.
Proof.
  unfold check_requirement. destruct (ms_binding_links m !! rl_binding r) as [link|]; [|done]. intros E.
  exists link. split; [done|]. intros accepts Ha. rewrite Ha in E. apply bail_bind in E as [Hne E].
  apply bool_decide_eq_false in Hne. apply check_then in E as [Hacc E]. split_and!; [done|by eapply accepts_ok|].
  unfold check_requirement_condition, guard_of in *. destruct (rl_condition r) as [c|]; cbn [fmap option_fmap option_map]; [|eauto].
  destruct (decide (trim c = String.EmptyString)); [eauto|]. destruct (parse_condition_expr (trim c)) as [g|]; [eauto|done].
Qed.

(** Everything the lowering reads from a linked summary. *)
Lemma linked_summary_ok m :
  validate_linked_summary m = Ok tt →
  (∀ id link, ms_binding_links m !! id = Some link → check_binding_link m Complete id link = Ok tt) ∧
  (∀ r, r ∈ ms_requirements m → check_requirement m Complete r = Ok tt).
Proof.
  unfold validate_linked_summary, validate_merged_summary. intros [_ [Hb Hr]%check_then]%check_then.
  unfold validate_binding_links in Hb. rewrite check_each_Ok in Hb. apply check_then in Hr as [Hr _].
  rewrite check_each_Ok in Hr. split; [|done]. intros id link Hl. apply (Hb (id, link)). by apply elem_bt_list.
Qed.

(** ** The texts of the model *)

(** Holding means every text does. *)
Lemma model_holds_texts texts raw sigma :
  Forall2 (λ t e, parse_condition_expr t = Ok e) texts raw →
  model_holds raw sigma = true ↔ ∀ t e, t ∈ texts → parse_condition_expr t = Ok e → eval_total e sigma = true.
Proof.
  unfold model_holds. induction 1 as [|t e texts raw He _ IH]; cbn [forallb]; [|cbn beta in He].
  { split; [by intros _ t e ?%not_elem_of_nil|done]. }
  rewrite andb_true_iff, IH. setoid_rewrite elem_of_cons. split.
  - intros [H1 H2] t' e' [->|Hin] Hp; [rewrite He in Hp; by injection Hp as <-|by apply (H2 t')].
  - intros Hall. split; [by apply (Hall t); [left|]|]. intros t' e' Hin. apply Hall. by right.
Qed.

Lemma texts_total texts raw sigma t e :
  Forall2 (λ t e, parse_condition_expr t = Ok e) texts raw → Forall (λ e, total_for e sigma) raw →
  t ∈ texts → parse_condition_expr t = Ok e → total_for e sigma.
Proof.
  induction 1 as [|t' e' texts raw He _ IH]; intros Htot Hin Hp; [by apply not_elem_of_nil in Hin|].
  apply Forall_cons in Htot as [H1 H2]. apply elem_of_cons in Hin as [->|Hin]; [|by apply IH].
  cbn beta in He. rewrite He in Hp. by injection Hp as <-.
Qed.

Lemma elem_first_seen {A} `{Countable A} seen (l : list A) x : x ∈ first_seen seen l → x ∈ l.
Proof.
  revert seen. induction l as [|y l IH]; intros seen; cbn [first_seen]; [done|].
  case_decide; [intros Hx%IH; by constructor|]. intros [->|Hx%IH]%elem_of_cons; by constructor.
Qed.

Lemma predicates_visited e : visit_predicates e = for_each_predicate e.
Proof.
  induction e as [b|p|e IH|l r IHl IHr|l r IHl IHr|es IH|es IH|es IH|l op r] using ConditionExpr_ind';
    cbn; try done; try congruence; (induction IH as [|e es He _ IHes]; cbn; [done|by rewrite He, IHes]).
Qed.

(** Every clause introduces a symbol. *)
Lemma clause_introduces m t :
  well_named m → t ∈ ccm_clauses (ms_selectors m) (declared_facets_from_summary m) →
  ∃ name value, t = synthesize_symbol_introduction name value ∧ facet_name name ∧ literal_spelled value.
Proof.
  intros Hw. unfold ccm_clauses. rewrite elem_of_app. intros [Ht%elem_first_seen|Ht].
  - apply elem_of_flat_map in Ht as (sel & _ & Ht). unfold selector_clauses in Ht. case_decide; [by apply not_elem_of_nil in Ht|].
    destruct (parse_condition_expr (trim (cl_condition sel))) as [e|] eqn:Ep; [|by apply not_elem_of_nil in Ht].
    apply list_elem_of_fmap in Ht as ([n v] & -> & Hin%elem_first_seen). cbn. exists n, v. split; [done|].
    unfold for_each_predicate_symbol in Hin. rewrite predicates_visited in Hin.
    apply list_elem_of_fmap in Hin as (p & [= -> ->] & Hp). apply parse_symbols in Ep. unfold symbols_spelled in Ep.
    rewrite Forall_forall in Ep. by apply Ep.
  - apply elem_of_flat_map in Ht as ([n f] & Hf%elem_bt_list & Ht). cbn in Ht.
    apply list_elem_of_fmap in Ht as (v & -> & Hv). exists n, v. apply declared_named in Hf; [|done].
    split_and!; [done|apply Hf|]. by eapply literal_text_spelled, named_literal.
Qed.

(** Every cardinality conjunct is true where the facets have declared values. *)
Definition selects (m : MergedSummary) (sigma : gmap string string) : Prop :=
  ∀ id f, declared_facets_from_summary m !! id = Some f →
    ∃ v, sigma !! id = Some v ∧ (fc_open f = false → v ∈ fc_values f).

Lemma elem_index_pairs {A} (l : list A) a b : NoDup l → (a, b) ∈ index_pairs l → a ∈ l ∧ b ∈ l ∧ a ≠ b.
Proof.
  induction l as [|x l IH]; cbn [index_pairs]; [by intros _ ?%not_elem_of_nil|].
  intros [Hni Hnd]%NoDup_cons [Hin|Hin]%elem_of_app.
  - apply list_elem_of_fmap in Hin as (y & [= -> ->] & Hy). split_and!; [constructor|by constructor|by intros ->].
  - destruct (IH Hnd Hin) as (? & ? & ?). split_and!; [by constructor|by constructor|done].
Qed.

Lemma cardinality_true m sigma t e :
  well_named m → selects m sigma → t ∈ synthesize_facet_cardinality (declared_facets_from_summary m) →
  parse_condition_expr t = Ok e → eval_total e sigma = true.
Proof.
  intros Hw Hs Ht Hp. apply elem_of_flat_map in Ht as ([n f] & Hf%elem_bt_list & Ht). cbn [fst snd] in Hf.
  destruct (Hs n f Hf) as (v & Hv & Hin). apply declared_named in Hf; [|done].
  pose proof (named_literals _ _ Hf) as Hlit. destruct Hf as (Hn & Htok & Hnd).
  unfold facet_cardinality in Ht. destruct (fc_open f).
  - apply list_elem_of_fmap in Ht as ([a b] & -> & Hab). cbn [fst snd] in Hp.
    apply elem_index_pairs in Hab as (Ha & Hb & Hne); [|done]. rewrite Forall_forall in Hlit.
    rewrite (parse_disjunction _ (nep n a) _ (nep n b)) in Hp; [|by apply ne_operand; [|apply literal_text_spelled, Hlit]..|by apply ne_tight].
    injection Hp as <-. by apply (pair_true sigma n a b v).
  - specialize (Hin eq_refl). destruct (fc_values f) as [|a [|b l]] eqn:Ef; [by apply not_elem_of_nil in Ht| |].
    + apply list_elem_of_singleton in Ht as ->. apply list_elem_of_singleton in Hin as ->.
      rewrite (parse_operand _ (eqp n a)) in Hp; [|apply eq_operand; [done|]; inversion Hlit; by apply literal_text_spelled].
      injection Hp as <-. rewrite eqp_eval. by apply bool_decide_eq_true.
    + apply list_elem_of_singleton in Ht as ->.
      rewrite (parse_operand _ _ (exactly_one_operand n (a :: b :: l) Hn Hlit ltac:(cbn; lia))) in Hp.
      injection Hp as <-. by apply (exactly_one_true sigma n (a :: b :: l) v).
Qed.

(** The introductions are true where the tags have values. *)
Lemma clauses_true m sigma t e :
  well_named m → t ∈ ccm_clauses (ms_selectors m) (declared_facets_from_summary m) →
  parse_condition_expr t = Ok e → total_for e sigma → eval_total e sigma = true.
Proof.
  intros Hw (n & v & -> & Hn & Hv)%clause_introduces Hp Htot; [|done].
  rewrite (introduction_text n v Hn Hv) in Hp. injection Hp as <-. apply introduction_true, Htot. constructor.
Qed.

(** ** The authored constraints *)

Lemma clauses_insert cs (acc : gmap string string) id t :
  foldl (λ acc c, <[cl_id c := cl_condition c]> acc) acc cs !! id = Some t →
  (∃ c, c ∈ cs ∧ cl_id c = id ∧ cl_condition c = t) ∨ acc !! id = Some t ∧ id ∉ (cl_id <$> cs).
Proof.
  revert acc. induction cs as [|c cs IH]; intros acc; cbn [foldl].
  { intros H. right. split; [done|]. apply not_elem_of_nil. }
  intros [(c' & ? & ? & ?)|[H Hni]]%IH; [left; exists c'; split_and!; [by constructor|done..]|].
  apply lookup_insert_Some in H as [[<- <-]|[Hne H]]; [left; exists c; split_and!; [constructor|done..]|].
  right. split; [done|]. cbn. apply not_elem_of_cons. done.
Qed.

Lemma clauses_kept cs (acc : gmap string string) id :
  id ∉ (cl_id <$> cs) → foldl (λ acc c, <[cl_id c := cl_condition c]> acc) acc cs !! id = acc !! id.
Proof.
  revert acc. induction cs as [|c cs IH]; intros acc; [done|]. cbn. intros [Hne Hni]%not_elem_of_cons.
  rewrite IH by done. by apply lookup_insert_ne.
Qed.

Lemma clauses_present cs (acc : gmap string string) c :
  NoDup (cl_id <$> cs) → c ∈ cs →
  foldl (λ acc c, <[cl_id c := cl_condition c]> acc) acc cs !! cl_id c = Some (cl_condition c).
Proof.
  revert acc. induction cs as [|d cs IH]; intros acc; [by intros _ ?%not_elem_of_nil|].
  cbn. intros [Hni Hnd]%NoDup_cons [->|Hc]%elem_of_cons; [|by apply IH].
  rewrite clauses_kept by done. by apply lookup_insert_eq.
Qed.

(** With unique ids, the named constraints are the clauses, each once. *)
Lemma elem_named_clauses cs t :
  NoDup (cl_id <$> cs) →
  t ∈ (snd <$> bt_list (foldl (λ acc c, <[cl_id c := cl_condition c]> acc) (∅ : gmap string string) cs)) ↔
  ∃ c, c ∈ cs ∧ cl_condition c = t.
Proof.
  intros Hnd. rewrite list_elem_of_fmap. split.
  - intros ([id t'] & -> & [(c & Hc & _ & Ht)|[H _]]%elem_bt_list%clauses_insert); [eauto|].
    by rewrite lookup_empty in H.
  - intros (c & Hc & <-). exists (cl_id c, cl_condition c). split; [done|]. by apply elem_bt_list, clauses_present.
Qed.

(** ** What the model means *)

(** A component with no condition, or a blank one, is always included. *)
Definition included_at (sigma : gmap string string) (condition : option string) : Prop :=
  ∀ c g, condition = Some c → trim c ≠ String.EmptyString → parse_condition_expr (trim c) = Ok g →
    eval_total g sigma = true.

(** What the declarations ask of a selection, without texts. *)
Record obeys (m : MergedSummary) (sigma : gmap string string) : Prop := {
  ob_constraints : ∀ c e, c ∈ ms_clauses m → parse_condition_expr (cl_condition c) = Ok e → eval_total e sigma = true;
  ob_derive : ∀ id link source k entry, ms_binding_links m !! id = Some link → derive_source link = Some source →
    (k, entry) ∈ derive_pairs link → sigma !! source = Some k → sigma !! id = Some entry;
  ob_accepts : ∀ r accepts, r ∈ ms_requirements m → rl_accepts r = Some accepts → included_at sigma (rl_condition r) →
    ∃ e, e ∈ accepts ∧ sigma !! rl_binding r = Some e;
}.

Lemma guard_included sigma condition guard :
  guard_of condition guard → included_at sigma condition ↔ (∀ g, guard = Some g → eval_total g sigma = true).
Proof.
  unfold guard_of, included_at. destruct condition as [c|]; cbn [fmap option_fmap option_map].
  - destruct (decide (trim c = String.EmptyString)) as [He|Hne].
    + intros ->. split; [done|]. by intros _ c' g [= <-].
    + intros (g & Hg & ->). split.
      * intros H g' [= <-]. by apply (H c).
      * intros H c' g' [= <-] _ Hp. rewrite Hg in Hp. injection Hp as <-. by apply H.
  - intros ->. done.
Qed.

Lemma declared_assigned m sigma id domain :
  selects m sigma → declared_domain m id = Some domain → is_Some (sigma !! id).
Proof.
  intros Hs. unfold declared_domain.
  assert (H : is_Some (declared_facets_from_summary m !! id) → is_Some (sigma !! id)).
  { intros [f Hf]. destruct (Hs id f Hf) as (v & Hsv & _). eauto. }
  intros Hd. apply H. unfold declared_facets_from_summary. rewrite lookup_union_is_Some, lookup_omap, map_lookup_imap.
  destruct (ms_facet_domains m !! id); [right; cbn; eauto|].
  destruct (ms_binding_links m !! id) as [link|]; cbn in *; [|done]. left. unfold link_facet. by rewrite Hd.
Qed.

Lemma derive_conjunct_holds m sigma id link source k entry :
  validate_linked_summary m = Ok tt → well_named m → selects m sigma →
  ms_binding_links m !! id = Some link → derive_source link = Some source → (k, entry) ∈ derive_pairs link →
  parse_condition_expr (lc_condition (derive_conjunct id source (k, entry))) = Ok (Or (nep source k) (eqp id entry)) ∧
  (eval_total (Or (nep source k) (eqp id entry)) sigma = true ↔ (sigma !! source = Some k → sigma !! id = Some entry)).
Proof.
  intros [Hb _]%linked_summary_ok Hw Hs Hl Hd Hin.
  destruct (binding_link_ok m id link (Hb _ _ Hl)) as (entries & He & Hsrc).
  destruct (Hsrc source Hd) as (domain & Hdom & Hpairs). destruct (Hpairs k entry Hin) as [Hk Hen].
  pose proof (domain_named _ _ _ Hw Hdom) as Hns. pose proof (wn_bindings _ Hw _ _ _ Hl He) as Hnb. split.
  - apply parse_disjunction; cbn [fst snd].
    + apply ne_operand; [apply Hns|]. apply literal_text_spelled, (named_literal _ _ _ Hns), Hk.
    + apply eq_operand; [apply Hnb|]. apply literal_text_spelled, (named_literal _ _ _ Hnb), Hen.
    + apply eq_tight, Hnb.
  - apply derive_eval. by eapply declared_assigned.
Qed.

Lemma accepts_conjunct_holds m sigma r accepts :
  validate_linked_summary m = Ok tt → well_named m → r ∈ ms_requirements m → rl_accepts r = Some accepts →
  accepts ≠ [] ∧ ∃ e,
    parse_condition_expr (guarded (rl_condition r) (accepts_disjunction (rl_binding r) accepts)) = Ok e ∧
    (eval_total e sigma = true ↔
      (included_at sigma (rl_condition r) → ∃ v, v ∈ accepts ∧ sigma !! rl_binding r = Some v)).
Proof.
  intros [Hb Hr]%linked_summary_ok Hw Hin Ha.
  destruct (requirement_link_ok m r (Hr _ Hin)) as (link & Hl & Hacc).
  destruct (Hacc accepts Ha) as (Hne & Hen & guard & Hg).
  destruct (binding_link_ok m _ link (Hb _ _ Hl)) as (entries & He & _). rewrite He in Hen. cbn in Hen.
  pose proof (wn_bindings _ Hw _ _ _ Hl He) as Hn.
  destruct (accepts_operand (rl_binding r) accepts) as [Hop Ht]; [apply Hn| |done|].
  { apply Forall_forall. intros v Hv. eapply named_literal; [done|by apply Hen]. }
  split; [done|]. exists (guarded_expr guard (accepts_expr (rl_binding r) accepts)).
  split; [by apply guarded_parses|]. by rewrite guarded_eval, accepts_eval, (guard_included _ _ _ Hg).
Qed.

(** The lowered texts and the declarations they come from. *)
Lemma elem_lowered m t :
  t ∈ (lc_condition <$> lowered_root_conjuncts_from_summary (ms_binding_links m) (ms_requirements m)) ↔
  (∃ id link source k entry, ms_binding_links m !! id = Some link ∧ derive_source link = Some source ∧
     (k, entry) ∈ derive_pairs link ∧ t = lc_condition (derive_conjunct id source (k, entry))) ∨
  (∃ r accepts, r ∈ ms_requirements m ∧ rl_accepts r = Some accepts ∧ accepts ≠ [] ∧
     t = guarded (rl_condition r) (accepts_disjunction (rl_binding r) accepts)).
Proof.
  unfold lowered_root_conjuncts_from_summary. rewrite fmap_app, elem_of_app, !list_elem_of_fmap. split.
  - intros [(c & -> & Hc)|(c & -> & Hc)]; apply elem_of_flat_map in Hc as (x & Hx & Hc).
    + left. destruct x as [id link]. apply elem_bt_list in Hx. unfold link_conjuncts in Hc. cbn [fst snd] in *.
      destruct (derive_source link) as [source|] eqn:Es; [|by apply not_elem_of_nil in Hc].
      apply list_elem_of_fmap in Hc as ([k en] & -> & Hp). by exists id, link, source, k, en.
    + right. unfold requirement_conjuncts, accepted in Hc.
      destruct (rl_accepts x) as [[|a l]|] eqn:Ea; [by apply not_elem_of_nil in Hc| |by apply not_elem_of_nil in Hc].
      apply list_elem_of_singleton in Hc as ->. by exists x, (a :: l).
  - intros [(id & link & source & k & en & Hl & Hs & Hp & ->)|(r & accepts & Hr & Ha & Hne & ->)].
    + left. exists (derive_conjunct id source (k, en)). split; [done|]. apply elem_of_flat_map.
      exists (id, link). split; [by apply elem_bt_list|]. unfold link_conjuncts. cbn. rewrite Hs.
      apply list_elem_of_fmap. eauto.
    + right. exists (accepts_conjunct (rl_component r) (rl_slot r) (rl_binding r) (rl_condition r) accepts).
      split; [done|]. apply elem_of_flat_map. exists r. split; [done|]. unfold requirement_conjuncts, accepted.
      rewrite Ha. destruct accepts; [done|]. by apply list_elem_of_singleton.
Qed.

Lemma elem_condition_texts h m t :
  NoDup (cl_id <$> ms_clauses m) →
  t ∈ condition_texts (condition_model_from_summary h m) ↔
  t ∈ ccm_clauses (ms_selectors m) (declared_facets_from_summary m) ∨
  ((∃ c, c ∈ ms_clauses m ∧ cl_condition c = t) ∨
   t ∈ (lc_condition <$> lowered_root_conjuncts_from_summary (ms_binding_links m) (ms_requirements m))) ∨
  t ∈ synthesize_facet_cardinality (declared_facets_from_summary m).
Proof.
  intros Hnd. unfold condition_texts, condition_model_from_summary. cbn [Emitter.clauses Emitter.constraints Emitter.cardinality].
  unfold ccm_constraints. by rewrite fmap_app, !elem_of_app, elem_named_clauses, <-list_fmap_compose.
Qed.

Lemma lowered_holds h m raw sigma :
  validate_linked_summary m = Ok tt → well_named m → NoDup (cl_id <$> ms_clauses m) →
  Forall2 (λ t e, parse_condition_expr t = Ok e) (condition_texts (condition_model_from_summary h m)) raw →
  Forall (λ e, total_for e sigma) raw → selects m sigma →
  model_holds raw sigma = true ↔ obeys m sigma.
Proof.
  intros Hv Hw Hnd Hp Htot Hs. rewrite (model_holds_texts _ _ _ Hp). setoid_rewrite elem_condition_texts; [|done].
  split.
  - intros H. split.
    + intros c e Hc He. apply (H (cl_condition c) e); [right; left; left; eauto|done].
    + intros id link source k entry Hl Hd Hin.
      destruct (derive_conjunct_holds m sigma id link source k entry) as [Hpe Hev]; [done..|]. apply Hev.
      eapply H; [|exact Hpe]. right. left. right. apply elem_lowered. left. by exists id, link, source, k, entry.
    + intros r accepts Hr Ha. destruct (accepts_conjunct_holds m sigma r accepts Hv Hw Hr Ha) as (Hne & e & Hpe & Hev).
      apply Hev. eapply H; [|exact Hpe]. right. left. right. apply elem_lowered. right. by exists r, accepts.
  - intros Ho t e Ht He. destruct Ht as [Ht|[[(c & Hc & <-)|Ht]|Ht]].
    + eapply clauses_true; [done|done|done|]. eapply texts_total; [exact Hp|exact Htot| |exact He].
      apply elem_condition_texts; [done|by left].
    + by eapply ob_constraints.
    + apply elem_lowered in Ht as [(id & link & source & k & entry & Hl & Hd & Hin & ->)|(r & accepts & Hr & Ha & Hne & ->)].
      * destruct (derive_conjunct_holds m sigma id link source k entry) as [Hpe Hev]; [done..|].
        rewrite Hpe in He. injection He as <-. apply Hev. by eapply ob_derive.
      * destruct (accepts_conjunct_holds m sigma r accepts Hv Hw Hr Ha) as (_ & e' & Hpe & Hev).
        rewrite Hpe in He. injection He as <-. apply Hev. by eapply ob_accepts.
    + by eapply cardinality_true.
Qed.

(** The compiled artifact enforces the declarations.  For a linked summary that
    passes verification, whose facets and bindings are spelled with symbols and
    whose constraint ids are unique: when the emitter returns bytes for the
    model lowered from it, the solver's reader accepts them, and the table it
    reads holds at a selection (every declared facet has a value, a declared
    one when the facet is closed) exactly when the authored constraints hold,
    every [derive] row fixes its binding, and every included component's
    [accepts] list has the selected entry. *)
Theorem artifact_obeys_declarations model_hash m exprs h symbols cap budget samples bytes st :
  validate_linked_summary m = Ok tt → well_named m → NoDup (cl_id <$> ms_clauses m) →
  parse_condition_model (condition_model_from_summary model_hash m) = Ok exprs →
  compute_variable_order exprs h = Some symbols → (N.of_nat (length symbols) < U32_MAX)%N →
  build_bdd_bin_with_builder exprs symbols (with_memo_cap_and_rss_budget cap budget) samples = Ok (bytes, st) →
  (N.of_nat (length (nodes st)) + 2 < TERMINAL_TRUE)%N →
  ∃ raw count p root,
    Forall2 (λ t e, parse_condition_expr t = Ok e) (condition_texts (condition_model_from_summary model_hash m)) raw ∧
    node_count bytes = Some count ∧
    parse_bdd_bin bytes (N.of_nat (length symbols)) count = Ok p ∧ bp_roots p = [root] ∧
    ∀ sigma, covers (condition_model_from_summary model_hash m) raw sigma → selects m sigma →
      table_eval (bp_nodes p) root (assignment symbols sigma) = true ↔ obeys m sigma.
Proof.
  intros Hv Hw Hnd Hm Hord Hlen Hb Hn.
  destruct (emitted_table _ _ _ _ _ _ _ _ _ Hm Hord Hlen Hb Hn) as (raw & count & p & root & Hraw & Hc & Hp & Hr & He).
  exists raw, count, p, root. split_and!; try done. intros sigma Hcov Hs. rewrite (He sigma Hcov).
  eapply lowered_holds; try done. eapply Forall_impl; [exact Hcov|]. by intros e [? _].
Qed.

(** *** A verified model, lowered and emitted *)

Definition demo_linked : MergedSummary := merge [summarize (H := sorted_order) demo_model "demo.json"].
Definition demo_ccm : ConditionModel := condition_model_from_summary (string_of (repeat "a"%char 64)) demo_linked.
Definition demo_exprs : list ConditionExpr :=
  match parse_condition_model demo_ccm with Ok es => es | Err _ => [] end.
Definition demo_symbols : list symbol := default [] (compute_variable_order demo_exprs Force).

#[export] Instance named_dec id values : Decision (named id values).
Proof. unfold named. apply _. Defined.

Lemma demo_named : well_named demo_linked.
Proof.
  assert (Hf : map_Forall (λ id values, named id values) (ms_facet_domains demo_linked)) by compute_done.
  assert (Hb : forallb (λ il, match ms_catalogue_entries demo_linked !! bl_catalogue il.2 with
    | Some values => bool_decide (named il.1 values) | None => true end) (map_to_list (ms_binding_links demo_linked)) = true)
    by (vm_compute; reflexivity).
  rewrite forallb_elem in Hb. split; [exact Hf|]. intros id link values Hl%elem_of_map_to_list Hv.
  specialize (Hb _ Hl). cbn [fst snd] in Hb. rewrite Hv in Hb. by apply bool_decide_eq_true in Hb.
Qed.

Lemma demo_covers raw :
  Forall2 (λ t e, parse_condition_expr t = Ok e) (condition_texts demo_ccm) raw → covers demo_ccm raw demo_tags.
Proof.
  intros H%parse_clauses_Ok. destruct (collect_results parse_clause (condition_texts demo_ccm)) as [es|] eqn:E; [|done].
  injection H as <-. assert (Hc : Forall (λ e, Forall (λ t, is_Some (demo_tags !! t)) (expr_tags e) ∧
    length (for_each_facet_comparison e) = 0%nat) es).
  { vm_compute in E. injection E as <-. compute_done. }
  eapply Forall_impl; [exact Hc|]. intros e [Ht Hl]. unfold total_for, within_domains. split; [by apply Forall_forall|].
  by destruct (for_each_facet_comparison e).
Qed.

Lemma demo_selects : selects demo_linked demo_tags.
Proof.
  assert (H : forallb (λ nf, match demo_tags !! nf.1 with
    | Some v => fc_open nf.2 || bool_decide (v ∈ fc_values nf.2) | None => false end)
    (map_to_list (declared_facets_from_summary demo_linked)) = true) by (vm_compute; reflexivity).
  rewrite forallb_elem in H. intros id f Hf%elem_of_map_to_list. specialize (H _ Hf). cbn [fst snd] in H.
  destruct (demo_tags !! id) as [v|]; [|done].
  exists v. split; [done|]. intros Ho. rewrite Ho in H. by apply bool_decide_eq_true in H.
Qed.

Lemma artifact_obeys_declarations_witness :
  ∃ bytes st count p root,
    build_bdd_bin_with_builder demo_exprs demo_symbols (with_memo_cap_and_rss_budget 1 None) (λ _, None) = Ok (bytes, st) ∧
    node_count bytes = Some count ∧ parse_bdd_bin bytes (N.of_nat (length demo_symbols)) count = Ok p ∧ bp_roots p = [root] ∧
    (table_eval (bp_nodes p) root (assignment demo_symbols demo_tags) = true ↔ obeys demo_linked demo_tags).
Proof.
  assert (Hb : ∃ bytes st, build_bdd_bin_with_builder demo_exprs demo_symbols
    (with_memo_cap_and_rss_budget 1 None) (λ _, None) = Ok (bytes, st) ∧ bool_decide (length (nodes st) < 1000) = true).
  { eexists _, _. split; vm_compute; reflexivity. }
  destruct Hb as (bytes & st & Hb & Hn).
  destruct (artifact_obeys_declarations (string_of (repeat "a"%char 64)) demo_linked demo_exprs Force demo_symbols 1 None
    (λ _, None) bytes st) as (raw & count & p & root & Hraw & Hc & Hp & Hr & He).
  - vm_compute. reflexivity.
  - exact demo_named.
  - compute_done.
  - vm_compute. reflexivity.
  - vm_compute. reflexivity.
  - vm_compute. reflexivity.
  - exact Hb.
  - apply bool_decide_eq_true in Hn. unfold TERMINAL_TRUE. lia.
  - exists bytes, st, count, p, root.
    exact (conj Hb (conj Hc (conj Hp (conj Hr (He _ (demo_covers raw Hraw) demo_selects))))).
Defined.
