(* ===== verification/Ir.v ===== *)
(** * The compiled package

    Models [compiler/src/ir.rs], [compiler/src/ingest_merge.rs] and, of
    [compiler/src/link_emit.rs], the writing of a package: chunks addressed by
    the hash of what they hold, the index of which chunk declares what, the
    identity of the model as the hash of that index, and the integrity check of
    a package on disk.

    SHA-256 and [serde_json] are the class [IrCodec].  The disk is a map from
    paths to contents; [None] is a file that exists and cannot be read. *)
From S2P Require Import Prelude BddBytes Text Schema InterfaceSummary Resolver.
Local Open Scope N_scope.

(** ** Data *)

(** [serde_json::Value]. *)
Inductive Json : Type :=
  | JNull
  | JBool (b : bool)
  | JNumber (text : string)
  | JString (s : string)
  | JArray (l : list Json)
  | JObject (fields : list (string * Json)).

Definition IR_FORMAT_VERSION : N := 4.
Definition CMP_MANIFEST_SCHEMA_VERSION : N := 1.
Definition CMP_HASH_ALGO : string := "sha256".
Definition CMP_CANONICALIZATION_VERSION : N := 3.
Definition CMP_DEFAULT_MANIFEST_FILENAME : string := "cmp.manifest.json".
Definition CMP_DEFAULT_INDEX_REF : string := "index.cfir.json".
Definition CMP_DEFAULT_CHUNK_SET_REF : string := ".".

Record IrChunk : Type := mkIrChunk {
  ik_format_version : N;
  ik_chunk_hash : string;
  ik_source_id : string;
  ik_definitions : gmap string Param;
  ik_components : gmap string Component;
  ik_artifacts : gmap string SchemaArtifact;
  ik_facets : gmap string Facet;
  ik_constraints : gmap string Constraint;
  ik_catalogues : gmap string Catalogue;
  ik_bindings : gmap string Binding;
  ik_metadata : option Json;
}.

Record IrChunkRef : Type := mkChunkRef {
  cr_chunk_hash : string;
  cr_source_id : string;
}.

Notation id_index := (gmap string string).

Record IrIndex : Type := mkIndex {
  ix_format_version : N;
  ix_chunks : list IrChunkRef;
  component_index : id_index;
  definition_index : id_index;
  artifact_index : id_index;
  facet_index : id_index;
  catalogue_index : id_index;
  binding_index : id_index;
  ix_config_hash : string;
}.

Record IrIndexContent : Type := mkContent {
  xc_format_version : N;
  xc_chunks : list string;
  xc_component_index : id_index;
  xc_definition_index : id_index;
  xc_artifact_index : id_index;
  xc_facet_index : id_index;
  xc_catalogue_index : id_index;
  xc_binding_index : id_index;
}.

Record CmpManifestStats : Type := mkStats {
  st_source_count : N;
  st_chunk_count : N;
  st_definition_count : N;
  st_component_count : N;
  st_artifact_count : N;
}.

Record CmpManifest : Type := mkCmpManifest {
  cm_schema_version : N;
  cm_model_hash : string;
  cm_ir_format_version : N;
  cm_index_ref : string;
  cm_chunk_set_ref : string;
  cm_config_hash : string;
  cm_hash_algo : string;
  cm_canonicalization_version : N;
  cm_created_at : string;
  cm_stats : option CmpManifestStats;
}.

(** The seven maps a chunk's address is computed from. *)
Record ChunkPreimage : Type := mkPreimage {
  pi_definitions : gmap string Param;
  pi_components : gmap string Component;
  pi_artifacts : gmap string SchemaArtifact;
  pi_facets : gmap string Facet;
  pi_constraints : gmap string Constraint;
  pi_catalogues : gmap string Catalogue;
  pi_bindings : gmap string Binding;
}.

(** ** Errors *)

Inductive Namespace : Type :=
  NsComponent | NsDefinition | NsArtifact | NsFacet | NsCatalogue | NsBinding.

Inductive ir_error : Type :=
  | PreimageUnserializable
  | IndexUnserializable
  | ChunkUnserializable
  | DuplicateChunkHash (hash : string)
  | ReferencesUnknownChunk (ns : Namespace) (id hash : string)
  | MissingChunk (hash : string)
  | ChunkUnreadable (hash : string)
  | ChunkUnparsable (hash : string)
  | UnsupportedFormat (hash : string) (version : N)
  | ChunkHashMismatch (index_hash chunk_hash : string)
  | ChunkSourceMismatch (hash index_source chunk_source : string)
  | ChunkContentAddressMismatch (stored recomputed : string)
  | IndexPointsElsewhere (ns : Namespace) (id hash other : string)
  | MissingFromIndex (ns : Namespace) (id hash : string)
  | NotInChunk (ns : Namespace) (id hash : string)
  | PackageDirFailed (dir : string)
  | PackageWriteFailed (path : string).

(** ** Hashes *)

Class IrCodec : Type := {
  sha256 : list ascii → list ascii;
  (** [to_value] and [to_string] of a preimage. *)
  preimage_json : ChunkPreimage → option (list ascii);
  content_json : IrIndexContent → option (list ascii);
  (** [to_value] and [to_vec] of a chunk. *)
  chunk_json : IrChunk → option (list ascii);
  index_pretty : IrIndex → list ascii;
  manifest_pretty : CmpManifest → list ascii;
  parse_chunk : list ascii → option IrChunk;
}.

Definition hex_char (nibble : N) : ascii :=
  if nibble <=? 9 then byte (48 + nibble)
  else if nibble <=? 15 then byte (97 + (nibble - 10))
  else "?"%char.

(** The chunk a configuration is emitted as, and the seven maps of either. *)
Definition entities_from_config (c : Config) : ChunkPreimage :=
  mkPreimage (definitions c) (components c) (artifacts c) (facets c) (constraints c) (catalogues c) (bindings c).

Definition chunk_preimage (c : IrChunk) : ChunkPreimage :=
  mkPreimage (ik_definitions c) (ik_components c) (ik_artifacts c) (ik_facets c) (ik_constraints c) (ik_catalogues c)
    (ik_bindings c).

Definition ir_chunk_from_config (source_id chunk_hash : string) (c : Config) : IrChunk :=
  let e := entities_from_config c in
  mkIrChunk IR_FORMAT_VERSION chunk_hash source_id (pi_definitions e) (pi_components e) (pi_artifacts e) (pi_facets e)
    (pi_constraints e) (pi_catalogues e) (pi_bindings e) None.

Definition preimage_chunks (chunks : list IrChunkRef) : list string := cr_chunk_hash <$> chunks.

Section Hashes.
Context `{IrCodec}.

Definition sha256_hex (bytes : list ascii) : string :=
  string_of (flat_map (λ b, [hex_char (N.shiftr (N_of_ascii b) 4); hex_char (N.land (N_of_ascii b) 15)]) (sha256 bytes)).

Definition hash_chunk_preimage (p : ChunkPreimage) : result ir_error string :=
  canonical ← ok_or (preimage_json p) PreimageUnserializable;
  Ok (sha256_hex canonical).

Definition chunk_hash_from_config (c : Config) : result ir_error string := hash_chunk_preimage (entities_from_config c).
Definition chunk_hash_of_chunk (c : IrChunk) : result ir_error string := hash_chunk_preimage (chunk_preimage c).

Definition hash_index_content (c : IrIndexContent) : result ir_error string :=
  json ← ok_or (content_json c) IndexUnserializable;
  Ok (sha256_hex json).

Definition from_parts (chunks : list IrChunkRef)
    (component_index definition_index artifact_index facet_index catalogue_index binding_index : id_index)
    : result ir_error IrIndex :=
  let content := mkContent IR_FORMAT_VERSION (preimage_chunks chunks) component_index definition_index artifact_index
                   facet_index catalogue_index binding_index in
  config_hash ← hash_index_content content;
  Ok (mkIndex IR_FORMAT_VERSION chunks component_index definition_index artifact_index facet_index catalogue_index
        binding_index config_hash).

Definition index_content (i : IrIndex) : IrIndexContent :=
  mkContent (ix_format_version i) (preimage_chunks (ix_chunks i)) (component_index i) (definition_index i)
    (artifact_index i) (facet_index i) (catalogue_index i) (binding_index i).

Definition compute_config_hash (i : IrIndex) : result ir_error string := hash_index_content (index_content i).

(** [len() as u32]. *)
Definition len_u32 (n : nat) : N := N.of_nat n mod 2 ^ 32.

Definition manifest_from_index (i : IrIndex) : CmpManifest :=
  mkCmpManifest CMP_MANIFEST_SCHEMA_VERSION (ix_config_hash i) (ix_format_version i) CMP_DEFAULT_INDEX_REF
    CMP_DEFAULT_CHUNK_SET_REF (ix_config_hash i) CMP_HASH_ALGO CMP_CANONICALIZATION_VERSION "1970-01-01T00:00:00Z"
    (Some (mkStats (len_u32 (length (ix_chunks i))) (len_u32 (length (ix_chunks i)))
             (len_u32 (size (definition_index i))) (len_u32 (size (component_index i)))
             (len_u32 (size (artifact_index i))))).

Definition chunk_file_bytes (c : IrChunk) : result ir_error (list ascii) := ok_or (chunk_json c) ChunkUnserializable.
End Hashes.

(** ** The index *)

Record IndexInput : Type := mkInput {
  ii_chunk_hash : string;
  ii_source_id : string;
  ii_exports : Exports;
}.

(** [insert(id, chunk_hash)] for every id. *)
Definition index_ids (hash : string) (ids : gset string) (index : id_index) : id_index :=
  foldl (λ index id, <[id := hash]> index) index (bt_elements ids).

Definition index_all (ids : Exports → gset string) (inputs : list IndexInput) : id_index :=
  foldl (λ index i, index_ids (ii_chunk_hash i) (ids (ii_exports i)) index) ∅ inputs.

Definition chunk_ref_le (a b : IrChunkRef) : Prop := String.le (cr_chunk_hash a) (cr_chunk_hash b).

#[export] Instance chunk_ref_le_dec a b : Decision (chunk_ref_le a b).
Proof. unfold chunk_ref_le. apply _. Defined.

Definition build_index `{IrCodec} (inputs : list IndexInput) : result ir_error IrIndex :=
  let chunk_refs := (λ i, mkChunkRef (ii_chunk_hash i) (ii_source_id i)) <$> inputs in
  from_parts (merge_sort chunk_ref_le chunk_refs) (index_all ex_components inputs) (index_all ex_definitions inputs)
    (index_all ex_artifacts inputs) (index_all ex_facets inputs) (index_all ex_catalogues inputs)
    (index_all ex_bindings inputs).

(** ** Integrity *)

Notation package_disk := (gmap string (option (list ascii))).

(** A loop of checks that stops at the first refusal. *)
Fixpoint for_each {E A} (f : A → result E unit) (l : list A) : result E unit :=
  match l with
  | [] => Ok tt
  | a :: l => _ ← f a; for_each f l
  end.

Definition namespaces : list Namespace := [NsComponent; NsDefinition; NsArtifact; NsFacet; NsCatalogue; NsBinding].

Definition index_of (i : IrIndex) (ns : Namespace) : id_index :=
  match ns with
  | NsComponent => component_index i
  | NsDefinition => definition_index i
  | NsArtifact => artifact_index i
  | NsFacet => facet_index i
  | NsCatalogue => catalogue_index i
  | NsBinding => binding_index i
  end.

Definition ids_of (c : IrChunk) (ns : Namespace) : gset string :=
  match ns with
  | NsComponent => dom (ik_components c)
  | NsDefinition => dom (ik_definitions c)
  | NsArtifact => dom (ik_artifacts c)
  | NsFacet => dom (ik_facets c)
  | NsCatalogue => dom (ik_catalogues c)
  | NsBinding => dom (ik_bindings c)
  end.

(** [HashMap::insert] of every reference, refusing a repeated hash. *)
Fixpoint collect_refs (refs : gset string) (chunks : list IrChunkRef) : result ir_error (gset string) :=
  match chunks with
  | [] => Ok refs
  | c :: chunks =>
      if decide (cr_chunk_hash c ∈ refs) then Err (DuplicateChunkHash (cr_chunk_hash c))
      else collect_refs ({[cr_chunk_hash c]} ∪ refs) chunks
  end.

Definition check_known (i : IrIndex) (refs : gset string) (ns : Namespace) : result ir_error unit :=
  for_each (λ kh, bail_if (negb (bool_decide (kh.2 ∈ refs))) (ReferencesUnknownChunk ns kh.1 kh.2)) (bt_list (index_of i ns)).

(** The iteration order of a [HashSet]. *)
Definition set_order `{HashOrder} (s : gset string) : list string := (hash_order (gset_to_gmap tt s)).*1.

(** Everything the chunk declares is indexed under it. *)
Definition check_indexed `{HashOrder} (i : IrIndex) (hash : string) (c : IrChunk) (ns : Namespace) : result ir_error unit :=
  for_each (λ id,
    match index_of i ns !! id with
    | Some other => bail_if (negb (bool_decide (other = hash))) (IndexPointsElsewhere ns id hash other)
    | None => Err (MissingFromIndex ns id hash)
    end) (set_order (ids_of c ns)).

(** Everything indexed under the chunk is declared by it. *)
Definition check_declared `{HashOrder} (i : IrIndex) (hash : string) (c : IrChunk) (ns : Namespace) : result ir_error unit :=
  for_each (λ id, bail_if (negb (bool_decide (id ∈ ids_of c ns))) (NotInChunk ns id hash))
    (set_order (dom (filter (λ kh, kh.2 = hash) (index_of i ns)))).

Definition chunk_path (dir hash : string) : string := dir +:+ "/chunk-" +:+ hash +:+ ".cfir".

Section Integrity.
Context `{IrCodec} `{HashOrder}.

Definition load_chunk (d : package_disk) (path hash : string) : result ir_error IrChunk :=
  bytes ← ok_or (mjoin (d !! path)) (ChunkUnreadable hash);
  ok_or (parse_chunk bytes) (ChunkUnparsable hash).

Definition check_chunk (i : IrIndex) (dir : string) (d : package_disk) (r : IrChunkRef) : result ir_error IrChunk :=
  let hash := cr_chunk_hash r in
  let path := chunk_path dir hash in
  _ ← bail_if (negb (bool_decide (is_Some (d !! path)))) (MissingChunk hash);
  c ← load_chunk d path hash;
  _ ← bail_if (negb (ik_format_version c =? IR_FORMAT_VERSION)) (UnsupportedFormat hash (ik_format_version c));
  _ ← bail_if (negb (bool_decide (ik_chunk_hash c = hash))) (ChunkHashMismatch hash (ik_chunk_hash c));
  _ ← bail_if (negb (bool_decide (ik_source_id c = cr_source_id r)))
        (ChunkSourceMismatch hash (cr_source_id r) (ik_source_id c));
  recomputed ← chunk_hash_of_chunk c;
  _ ← bail_if (negb (bool_decide (recomputed = hash))) (ChunkContentAddressMismatch hash recomputed);
  _ ← for_each (check_indexed i hash c) namespaces;
  _ ← for_each (check_declared i hash c) namespaces;
  Ok c.

Definition verify_index_integrity_loading (i : IrIndex) (dir : string) (d : package_disk)
    : result ir_error (list IrChunk) :=
  refs ← collect_refs ∅ (ix_chunks i);
  _ ← for_each (check_known i refs) namespaces;
  collect_results (check_chunk i dir d) (ix_chunks i).

Definition verify_index_integrity (i : IrIndex) (dir : string) (d : package_disk) : result ir_error unit :=
  (λ _, tt) <$> verify_index_integrity_loading i dir d.
End Integrity.
