(* ===== verification/IrProps.v ===== *)
(** * What an accepted package is

    The theorems about [Ir.v]: the integrity check accepts exactly the packages
    in which every chunk holds what its name is the hash of and the index says
    of every id which chunk declares it; the package the compiler writes is
    accepted and reads back; the identity of a model is a function of what its
    chunks declare. *)
From S2P Require Import Prelude Text Schema InterfaceSummary Resolver ResolverProps LinkVerifyProps Ir.

(** ** Loops of checks *)

Lemma for_each_Ok {E A} (f : A → result E unit) l : for_each f l = Ok tt ↔ ∀ a, a ∈ l → f a = Ok tt.
Proof.
  induction l as [|a l IH]; cbn [for_each]; [split; [by intros _ a ?%not_elem_of_nil|done]|].
  rewrite bind_Ok. setoid_rewrite elem_of_cons. split.
  - intros ([] & Ha & Hl) b [->|Hb]; [done|]. by apply IH.
  - intros Hall. exists tt. split; [by apply Hall; left|]. apply IH. intros b Hb. apply Hall. by right.
Qed.

Lemma elem_namespaces ns : ns ∈ namespaces.
Proof. unfold namespaces. destruct ns; set_solver. Qed.

Lemma elem_set_order `{HashOrder} (s : gset string) x : x ∈ set_order s ↔ x ∈ s.
Proof.
  unfold set_order. rewrite list_elem_of_fmap. split.
  - intros ([k []] & -> & Hk%elem_hash_order). by apply lookup_gset_to_gmap_Some in Hk as [? _].
  - intros Hx. exists (x, tt). split; [done|]. apply elem_hash_order. by apply lookup_gset_to_gmap_Some.
Qed.

Lemma negb_decide_Ok {E} (P : Prop) `{Decision P} (e : E) : bail_if (negb (bool_decide P)) e = Ok tt ↔ P.
Proof. rewrite bail_if_Ok, negb_false_iff. apply bool_decide_eq_true. Qed.

Lemma bail_then {E A} (P : Prop) `{Decision P} (e : E) (m : result E A) a :
  (_ ← bail_if (negb (bool_decide P)) e; m) = Ok a ↔ P ∧ m = Ok a.
Proof. rewrite bail_bind, negb_false_iff. by rewrite bool_decide_eq_true. Qed.

Lemma for_each_then {E A B} (f : A → result E unit) l (m : result E B) b :
  (_ ← for_each f l; m) = Ok b ↔ (∀ a, a ∈ l → f a = Ok tt) ∧ m = Ok b.
Proof. rewrite bind_Ok, <-for_each_Ok. split; [intros ([] & ? & ?)|intros []]; eauto. Qed.

Lemma collect_refs_Ok refs chunks s :
  collect_refs refs chunks = Ok s ↔
  NoDup (preimage_chunks chunks) ∧ (∀ h, h ∈ preimage_chunks chunks → h ∉ refs) ∧ s = list_to_set (preimage_chunks chunks) ∪ refs.
Proof.
  revert refs. induction chunks as [|c chunks IH]; intros refs; cbn.
  { split; [|intros (_ & _ & ->); f_equal; set_solver]. intros [= <-]. split_and!; [constructor|set_solver|set_solver]. }
  rewrite NoDup_cons. case_decide as Hin.
  - split; [done|]. intros (_ & Hni & _). exfalso. apply (Hni (cr_chunk_hash c)); [constructor|done].
  - rewrite IH. unfold preimage_chunks. split.
    + intros (Hnd & Hni & ->). split_and!; [|done|set_solver|set_solver]. intros Hc. apply (Hni _ Hc). set_solver.
    + intros ([Hc Hnd] & Hni & ->). split_and!; [done|set_solver|set_solver].
Qed.

(** ** Accepted packages *)

(** A chunk file that holds what its name is the hash of, under an index that
    lists exactly what it declares. *)
Record chunk_ok `{IrCodec} (i : IrIndex) (dir : string) (d : package_disk) (r : IrChunkRef) (c : IrChunk) : Prop := {
  ck_file : ∃ bytes, d !! chunk_path dir (cr_chunk_hash r) = Some (Some bytes) ∧ parse_chunk bytes = Some c;
  ck_version : ik_format_version c = IR_FORMAT_VERSION;
  ck_hash : ik_chunk_hash c = cr_chunk_hash r;
  ck_source : ik_source_id c = cr_source_id r;
  ck_address : chunk_hash_of_chunk c = Ok (cr_chunk_hash r);
  ck_index : ∀ ns id, id ∈ ids_of c ns ↔ index_of i ns !! id = Some (cr_chunk_hash r);
}.

Record package_ok `{IrCodec} (i : IrIndex) (dir : string) (d : package_disk) (chunks : list IrChunk) : Prop := {
  pk_unique : NoDup (preimage_chunks (ix_chunks i));
  pk_known : ∀ ns id hash, index_of i ns !! id = Some hash → hash ∈ preimage_chunks (ix_chunks i);
  pk_chunks : Forall2 (chunk_ok i dir d) (ix_chunks i) chunks;
}.

Section Accepted.
Context `{IrCodec} `{HashOrder}.

Lemma load_chunk_Ok d path hash c :
  load_chunk d path hash = Ok c ↔ ∃ bytes, d !! path = Some (Some bytes) ∧ parse_chunk bytes = Some c.
Proof.
  unfold load_chunk. rewrite bind_Ok. destruct (d !! path) as [[bytes|]|]; cbn.
  - split.
    + intros (b & [= <-] & Hp). destruct (parse_chunk bytes) eqn:E; cbn in Hp; [|done]. injection Hp as ->. eauto.
    + intros (b & [= <-] & Hp). exists bytes. rewrite Hp. done.
  - split; [by intros (? & ? & ?)|by intros (? & ? & ?)].
  - split; [by intros (? & ? & ?)|by intros (? & ? & ?)].
Qed.

Lemma check_indexed_Ok i hash c ns :
  check_indexed i hash c ns = Ok tt ↔ ∀ id, id ∈ ids_of c ns → index_of i ns !! id = Some hash.
Proof.
  unfold check_indexed. rewrite for_each_Ok. setoid_rewrite elem_set_order. apply forall_proper. intros id.
  destruct (index_of i ns !! id) as [other|]; [|split; intros Hf Hin; by specialize (Hf Hin)].
  rewrite negb_decide_Ok. split; intros Hf Hin; specialize (Hf Hin); congruence.
Qed.

Lemma check_declared_Ok i hash c ns :
  check_declared i hash c ns = Ok tt ↔ ∀ id, index_of i ns !! id = Some hash → id ∈ ids_of c ns.
Proof.
  unfold check_declared. rewrite for_each_Ok. setoid_rewrite elem_set_order. apply forall_proper. intros id.
  rewrite negb_decide_Ok, elem_of_dom. split; intros Hf Hin; apply Hf.
  - exists hash. by apply map_lookup_filter_Some.
  - destruct Hin as [h Hh]. by apply map_lookup_filter_Some in Hh as [? <-].
Qed.

Lemma check_chunk_Ok i dir d r c : check_chunk i dir d r = Ok c ↔ chunk_ok i dir d r c.
Proof.
  unfold check_chunk. rewrite bail_then, bind_Ok. setoid_rewrite load_chunk_Ok. split.
  - intros (_ & c' & Hf & E). apply bail_bind in E as [Hv E]. apply negb_false_iff, N.eqb_eq in Hv.
    apply bail_then in E as [Hh E]. apply bail_then in E as [Hs E]. apply bind_Ok in E as (h & Ha & E).
    apply bail_then in E as [-> E]. apply for_each_then in E as [Hi E]. apply for_each_then in E as [Hd [= ->]].
    split; try done. intros ns id. split.
    + by apply check_indexed_Ok, Hi, elem_namespaces.
    + by apply check_declared_Ok, Hd, elem_namespaces.
  - intros [Hf Hv Hh Hs Ha Hi]. split; [destruct Hf as (b & -> & _); eauto|]. exists c. split; [done|].
    apply bail_bind. split; [by apply negb_false_iff, N.eqb_eq|]. apply bail_then. split; [done|].
    apply bail_then. split; [done|]. apply bind_Ok. exists (cr_chunk_hash r). split; [done|].
    apply bail_then. split; [done|]. apply for_each_then. split; [|apply for_each_then; split; [|done]]; intros ns _.
    + apply check_indexed_Ok. intros id. by rewrite Hi.
    + apply check_declared_Ok. intros id. by rewrite Hi.
Qed.

Lemma integrity_Ok i dir d chunks : verify_index_integrity_loading i dir d = Ok chunks ↔ package_ok i dir d chunks.
Proof.
  unfold verify_index_integrity_loading. rewrite bind_Ok. setoid_rewrite collect_refs_Ok. setoid_rewrite for_each_then.
  setoid_rewrite collect_results_Ok.
  assert (Hk : ∀ refs, (∀ ns, ns ∈ namespaces → check_known i refs ns = Ok tt) ↔
    ∀ ns id hash, index_of i ns !! id = Some hash → hash ∈ refs).
  { intros refs. unfold check_known. setoid_rewrite for_each_Ok. setoid_rewrite negb_decide_Ok. split.
    - intros Hall ns id hash Hi. apply (Hall ns (elem_namespaces ns) (id, hash)). by apply elem_bt_list.
    - intros Hall ns _ [id hash] Hi. cbn. apply (Hall ns id). by apply elem_bt_list. }
  setoid_rewrite Hk. split.
  - intros (refs & (Hnd & _ & ->) & Hkn & Hc). split; [done| |].
    + intros ns id hash Hi. specialize (Hkn ns id hash Hi). set_solver.
    + eapply Forall2_impl; [exact Hc|]. intros r c. apply check_chunk_Ok.
  - intros [Hnd Hkn Hc]. exists (list_to_set (preimage_chunks (ix_chunks i)) ∪ ∅). split_and!; [done|set_solver|done| |].
    + intros ns id hash Hi. specialize (Hkn ns id hash Hi). set_solver.
    + eapply Forall2_impl; [exact Hc|]. intros r c. apply check_chunk_Ok.
Qed.
End Accepted.

(** A package is accepted exactly when it is coherent, whatever order the
    hash sets are read in: no chunk is listed twice, every index entry points to
    a listed chunk, every listed chunk can be read, has the format, hash and
    source the index says, hashes to its own name, and declares exactly the
    ids the index lists under it.  The chunks are returned in index order. *)
Theorem package_accepted_exact `{IrCodec} (Ho : HashOrder) i dir d chunks :
  verify_index_integrity_loading i dir d = Ok chunks ↔ package_ok i dir d chunks.
Proof. apply integrity_Ok. Qed.

(** In an accepted package every indexed id is declared by one chunk and by the
    one the index names. *)
Lemma package_ok_owner `{IrCodec} i dir d chunks ns id hash :
  package_ok i dir d chunks → index_of i ns !! id = Some hash →
  ∃ c, c ∈ chunks ∧ id ∈ ids_of c ns ∧ ∀ c', c' ∈ chunks → id ∈ ids_of c' ns → c' = c.
Proof.
  intros [Hnd Hkn Hc] Hi. pose proof (Hkn _ _ _ Hi) as Hin. apply list_elem_of_fmap in Hin as (r & -> & Hr).
  apply list_elem_of_lookup in Hr as [k Hr]. destruct (Forall2_lookup_l _ _ _ _ _ Hc Hr) as (c & Hck & Hok).
  exists c. split_and!; [by eapply list_elem_of_lookup_2|by apply (ck_index _ _ _ _ _ Hok)|].
  intros c' [k' Hc']%list_elem_of_lookup Hid. destruct (Forall2_lookup_r _ _ _ _ _ Hc Hc') as (r' & Hr' & Hok').
  apply (ck_index _ _ _ _ _ Hok') in Hid. assert (k = k') as <-; [|congruence].
  eapply (NoDup_lookup _ _ _ (cr_chunk_hash r) Hnd); unfold preimage_chunks; rewrite list_lookup_fmap, ?Hr, ?Hr'; [done|].
  cbn. congruence.
Qed.
