(* ===== verification/Ingest.v ===== *)
(** * Ingesting chunks

    Models the [Compiler] of [compiler/src/compiler_core.rs]: authored chunks
    are parsed, merged into one repository and recorded with their content
    address, and the package of the whole is written ([emit_ir], with
    [link_emit.rs]'s [link_chunks_of], [build_package_index] and
    [write_package]).

    The repository is changed in place, so a refusal leaves what was merged
    before it: the state is returned with the error.  The TOML and JSON readers
    are parameters. *)
From S2P Require Import Prelude Text Schema InterfaceSummary Resolver LinkVerify Ir.

(** ** Formats *)

Inductive ChunkFormat : Type := Toml | JsonChunk.

Definition detect_chunk_format (content : string) : ChunkFormat :=
  match bytes_of (trim_start content) with
  | ch :: _ => if Ascii.eqb ch "{"%char then JsonChunk else Toml
  | [] => Toml
  end.

(** ** State *)

Record SourceChunk : Type := mkSourceChunk {
  sc_source_id : string;
  sc_chunk_hash : string;
  sc_config : Config;
}.

Record Compiler : Type := mkCompiler {
  repository : Config;
  chunks : list SourceChunk;
}.

Inductive DeclKind : Type :=
  KDefinition | KArtifact | KComponent | KFacet | KConstraint | KCatalogue | KBinding.

Inductive ingest_error : Type :=
  | TomlUnparsable
  | JsonUnparsable
  | AuthoredInherits (path : string)
  | DuplicateSource (source_id : string)
  | DuplicateId (kind : DeclKind) (id : string)
  | FacetIsBinding (id : string)
  | BindingIsFacet (id : string)
  | AddressFailed (e : ir_error)
  | DuplicateContent (existing source_id hash : string).

(** An operation on the repository that keeps its changes when it fails. *)
Definition merging : Type := Config → result ingest_error unit * Config.

Definition then_merge (m1 m2 : merging) : merging := λ r,
  match m1 r with
  | (Ok _, r) => m2 r
  | (Err e, r) => (Err e, r)
  end.
Infix ";;;" := then_merge (at level 60, right associativity) : cfx_scope.
Local Open Scope cfx_scope.

(** ** Authored [inherits] *)

Fixpoint reject_inherits_in_parameter (p : Param) (path : string) : result ingest_error unit :=
  match p with
  | mkParameter i t u d v f l s a lm r overrides =>
      match i with
      | Some _ => Err (AuthoredInherits path)
      | None =>
          (fix blocks (idx : nat) (bs : list ConditionalBlock) : result ingest_error unit :=
             match bs with
             | [] => Ok tt
             | mkBlock _ payload :: bs =>
                 _ ← reject_inherits_in_parameter payload (path +:+ ".overrides[" +:+ decimal idx +:+ "]");
                 blocks (S idx) bs
             end) 0%nat overrides
      end
  end.

Definition reject_authored_inherits `{HashOrder} (c : Config) : result ingest_error unit :=
  _ ← for_each (λ kp, reject_inherits_in_parameter kp.2 ("definitions." +:+ kp.1)) (hash_order (definitions c));
  for_each (λ kc,
    for_each (λ kp, reject_inherits_in_parameter kp.2 ("components." +:+ kc.1 +:+ ".params." +:+ kp.1))
      (hash_order (params kc.2))) (hash_order (components c)).

(** ** Merging *)

(** One loop of [merge_partial]: a key that is taken, or that [clash] refuses,
    stops it. *)
Fixpoint merge_entries {A} (kind : DeclKind) (clash : string → option ingest_error) (l : list (string * A))
    (m : gmap string A) : result ingest_error unit * gmap string A :=
  match l with
  | [] => (Ok tt, m)
  | (key, value) :: l =>
      if decide (is_Some (m !! key)) then (Err (DuplicateId kind key), m)
      else
        match clash key with
        | Some e => (Err e, m)
        | None => merge_entries kind clash l (<[key := value]> m)
        end
  end.

Definition no_clash (_ : string) : option ingest_error := None.

Section Merge.
Context `{HashOrder}.

Definition merge_definitions (p : Config) : merging := λ r,
  let '(res, m) := merge_entries KDefinition no_clash (hash_order (definitions p)) (definitions r) in
  (res, mkConfig (cf_package r) (cf_version r) m (components r) (artifacts r) (facets r) (constraints r)
          (catalogues r) (bindings r)).

Definition merge_artifacts (p : Config) : merging := λ r,
  let '(res, m) := merge_entries KArtifact no_clash (hash_order (artifacts p)) (artifacts r) in
  (res, mkConfig (cf_package r) (cf_version r) (definitions r) (components r) m (facets r) (constraints r)
          (catalogues r) (bindings r)).

Definition merge_components (p : Config) : merging := λ r,
  let '(res, m) := merge_entries KComponent no_clash (hash_order (components p)) (components r) in
  (res, mkConfig (cf_package r) (cf_version r) (definitions r) m (artifacts r) (facets r) (constraints r)
          (catalogues r) (bindings r)).

Definition merge_facets (p : Config) : merging := λ r,
  let clash key := if decide (is_Some (bindings r !! key)) then Some (FacetIsBinding key) else None in
  let '(res, m) := merge_entries KFacet clash (hash_order (facets p)) (facets r) in
  (res, mkConfig (cf_package r) (cf_version r) (definitions r) (components r) (artifacts r) m (constraints r)
          (catalogues r) (bindings r)).

Definition merge_constraints (p : Config) : merging := λ r,
  let '(res, m) := merge_entries KConstraint no_clash (hash_order (constraints p)) (constraints r) in
  (res, mkConfig (cf_package r) (cf_version r) (definitions r) (components r) (artifacts r) (facets r) m
          (catalogues r) (bindings r)).

Definition merge_catalogues (p : Config) : merging := λ r,
  let '(res, m) := merge_entries KCatalogue no_clash (hash_order (catalogues p)) (catalogues r) in
  (res, mkConfig (cf_package r) (cf_version r) (definitions r) (components r) (artifacts r) (facets r) (constraints r)
          m (bindings r)).

Definition merge_bindings (p : Config) : merging := λ r,
  let clash key := if decide (is_Some (facets r !! key)) then Some (BindingIsFacet key) else None in
  let '(res, m) := merge_entries KBinding clash (hash_order (bindings p)) (bindings r) in
  (res, mkConfig (cf_package r) (cf_version r) (definitions r) (components r) (artifacts r) (facets r) (constraints r)
          (catalogues r) m).

Definition merge_partial (p : Config) : merging :=
  merge_definitions p ;;; merge_artifacts p ;;; merge_components p ;;; merge_facets p ;;; merge_constraints p ;;;
  merge_catalogues p ;;; merge_bindings p.
End Merge.

(** ** The compiler *)

Definition new_repository : Config := mkConfig "merged_root" "0.0.0" ∅ ∅ ∅ ∅ ∅ ∅ ∅.
Definition new_compiler : Compiler := mkCompiler new_repository [].

Section Ingest.
Context `{HashOrder} `{IrCodec}.
Context (toml_from_str json_from_str : string → option Config).

Definition add_parsed_chunk (source_id : string) (partial : Config) (c : Compiler) : result ingest_error unit * Compiler :=
  if existsb (λ k, bool_decide (sc_source_id k = source_id)) (chunks c) then (Err (DuplicateSource source_id), c)
  else
    let '(merged, r) := merge_partial partial (repository c) in
    let c := mkCompiler r (chunks c) in
    match merged with
    | Err e => (Err e, c)
    | Ok _ =>
        match chunk_hash_from_config partial with
        | Err e => (Err (AddressFailed e), c)
        | Ok hash =>
            match List.find (λ k, bool_decide (sc_chunk_hash k = hash)) (chunks c) with
            | Some existing => (Err (DuplicateContent (sc_source_id existing) source_id hash), c)
            | None => (Ok tt, mkCompiler r (chunks c ++ [mkSourceChunk source_id hash partial]))
            end
        end
    end.

Definition add_chunk_with_source (source_id content : string) (c : Compiler) : result ingest_error unit * Compiler :=
  match toml_from_str content with
  | None => (Err TomlUnparsable, c)
  | Some partial =>
      match reject_authored_inherits partial with
      | Err e => (Err e, c)
      | Ok _ => add_parsed_chunk source_id partial c
      end
  end.

Definition add_chunk_json_with_source (source_id content : string) (c : Compiler) : result ingest_error unit * Compiler :=
  match json_from_str content with
  | None => (Err JsonUnparsable, c)
  | Some partial => add_parsed_chunk source_id partial c
  end.

Definition add_chunk_auto (source_id content : string) (c : Compiler) : result ingest_error unit * Compiler :=
  match detect_chunk_format content with
  | JsonChunk => add_chunk_json_with_source source_id content c
  | Toml => add_chunk_with_source source_id content c
  end.

Definition add_chunk_json (content : string) (c : Compiler) : result ingest_error unit * Compiler :=
  add_chunk_json_with_source ("inline-" +:+ decimal (length (chunks c))) content c.

(** The sources of a request, one after the other. *)
Fixpoint ingest (sources : list (string * string)) (c : Compiler) : result ingest_error unit * Compiler :=
  match sources with
  | [] => (Ok tt, c)
  | (source_id, content) :: sources =>
      match add_chunk_auto source_id content c with
      | (Ok _, c) => ingest sources c
      | (Err e, c) => (Err e, c)
      end
  end.

Definition interface_summaries (c : Compiler) : list InterfaceSummary :=
  (λ k, summarize (sc_config k) (sc_source_id k)) <$> chunks c.

Definition link_and_verify (c : Compiler) : verified := verify_complete_model (repository c) (interface_summaries c).
End Ingest.

(** ** Writing the package *)

Record LinkChunk : Type := mkLinkChunk {
  lk_chunk_hash : string;
  lk_source_id : string;
  lk_exports : Exports;
  lk_bytes : list ascii;
}.

Section Package.
Context `{HashOrder} `{IrCodec}.

Definition link_chunk (k : SourceChunk) (s : InterfaceSummary) : result ir_error LinkChunk :=
  bytes ← chunk_file_bytes (ir_chunk_from_config (sc_source_id k) (sc_chunk_hash k) (sc_config k));
  Ok (mkLinkChunk (sc_chunk_hash k) (sc_source_id k) (is_exports s) bytes).

Definition link_chunks_of (c : Compiler) (summaries : list InterfaceSummary) : result ir_error (list LinkChunk) :=
  collect_results (λ ks, link_chunk ks.1 ks.2) (combine (chunks c) summaries).

Definition build_package_index (l : list LinkChunk) : result ir_error IrIndex :=
  build_index ((λ k, mkInput (lk_chunk_hash k) (lk_source_id k) (lk_exports k)) <$> l).

Context (creatable writable : string → bool).

(** A write to the disk, which keeps what was written before a failure. *)
Definition put (path : string) (bytes : list ascii) (d : package_disk) : result ir_error unit * package_disk :=
  if writable path then (Ok tt, <[path := Some bytes]> d) else (Err (PackageWriteFailed path), d).

Fixpoint put_chunks (dir : string) (l : list LinkChunk) (d : package_disk) : result ir_error unit * package_disk :=
  match l with
  | [] => (Ok tt, d)
  | k :: l =>
      match put (chunk_path dir (lk_chunk_hash k)) (lk_bytes k) d with
      | (Ok _, d) => put_chunks dir l d
      | (Err e, d) => (Err e, d)
      end
  end.

Definition write_package (dir : string) (l : list LinkChunk) (i : IrIndex) (d : package_disk)
    : result ir_error unit * package_disk :=
  if creatable dir then
    match put_chunks dir l d with
    | (Err e, d) => (Err e, d)
    | (Ok _, d) =>
        match put (dir +:+ "/" +:+ CMP_DEFAULT_INDEX_REF) (index_pretty i) d with
        | (Err e, d) => (Err e, d)
        | (Ok _, d) =>
            match verify_index_integrity i dir d with
            | Err e => (Err e, d)
            | Ok _ =>
                put (dir +:+ "/" +:+ CMP_DEFAULT_MANIFEST_FILENAME) (manifest_pretty (manifest_from_index i)) d
            end
        end
    end
  else (Err (PackageDirFailed dir), d).

Inductive emit_ir_error : Type :=
  | NotVerified (e : verify_error)
  | PackageError (e : ir_error).

Definition emit_ir (c : Compiler) (dir : string) (d : package_disk) : result emit_ir_error IrIndex * package_disk :=
  let summaries := interface_summaries c in
  match verify_complete_model (repository c) summaries with
  | Err e => (Err (NotVerified e), d)
  | Ok _ =>
      match link_chunks_of c summaries with
      | Err e => (Err (PackageError e), d)
      | Ok l =>
          match build_package_index l with
          | Err e => (Err (PackageError e), d)
          | Ok i =>
              let '(res, d) := write_package dir l i d in
              (match res with Ok _ => Ok i | Err e => Err (PackageError e) end, d)
          end
      end
  end.
End Package.
