(* ===== verification/IngestProps.v ===== *)
(** * What ingestion accepts, and what it writes

    The theorems about [Ingest.v]: a list of sources is accepted exactly when
    the chunks can be read and declare different things, in whatever order they
    come and the hash maps are read; the package written from them is accepted
    by the integrity check and reads back; and the identity of the model does
    not depend on the order or the names of the sources. *)
From S2P Require Import Prelude Text Schema InterfaceSummary Resolver ResolverProps LinkVerify LinkVerifyProps.
From S2P Require Import SummaryProps Ir IrProps Ingest.

(** ** Pairs of a list *)

(** A symmetric relation between all pairs does not depend on the order. *)
Lemma ord_pairs_perm {A} (R : A → A → Prop) `{!Symmetric R} l l' :
  l ≡ₚ l' → List.ForallOrdPairs R l → List.ForallOrdPairs R l'.
Proof.
  induction 1 as [|x l l' Hp IH|x y l|l1 l2 l3 _ IH1 _ IH2]; intros Hl; [done| | |auto].
  - inversion Hl; subst. constructor; [|by apply IH]. by rewrite <-Hp.
  - inversion Hl as [|? ? Hy Hl']; subst. inversion Hl' as [|? ? Hx Hl'']; subst. inversion Hy; subst.
    constructor; [|constructor; done]. constructor; [by symmetry|done].
Qed.

Lemma ord_pairs_app {A} (R : A → A → Prop) l x :
  List.ForallOrdPairs R (l ++ [x]) ↔ List.ForallOrdPairs R l ∧ Forall (λ y, R y x) l.
Proof.
  induction l as [|a l IH]; cbn.
  - split; [intros _; split; constructor|intros _; repeat constructor].
  - rewrite Forall_cons. split.
    + inversion 1 as [|? ? Ha Hl]; subst. apply Forall_app in Ha as [Ha Hx]. rewrite Forall_singleton in Hx.
      apply IH in Hl as [Hl Hf]. split; [by constructor|]. split; [exact Hx|exact Hf].
    + intros [Hl [Hx Hf]]. inversion Hl as [|? ? Ha Hl']; subst. constructor; [|by apply IH].
      apply Forall_app. split; [done|]. by rewrite Forall_singleton.
Qed.

Lemma ord_pairs_lookup {A} (R : A → A → Prop) `{!Symmetric R} l x y :
  List.ForallOrdPairs R l → x ∈ l → y ∈ l → x = y ∨ R x y.
Proof.
  induction 1 as [|a l Ha Hl IH]; [by intros ?%not_elem_of_nil|]. rewrite Forall_forall in Ha.
  intros [->|Hx]%elem_of_cons [->|Hy]%elem_of_cons; [by left|right; by apply Ha|right; symmetry; by apply Ha|by apply IH].
Qed.

(** ** One loop *)

Lemma merge_entries_list {A} kind clash (l : list (string * A)) m m' :
  NoDup l.*1 →
  merge_entries kind clash l m = (Ok tt, m') ↔
  (∀ k, k ∈ l.*1 → m !! k = None ∧ clash k = None) ∧ m' = m ∪ list_to_map l.
Proof.
  revert m. induction l as [|[k v] l IH]; intros m; cbn [merge_entries fmap list_fmap fst].
  { intros _. rewrite list_to_map_nil, (right_id_L ∅ (∪)). split; [intros [= <-]; split; [by intros k ?%not_elem_of_nil|done]|by intros [_ ->]]. }
  intros [Hni Hnd]%NoDup_cons. case_decide as Hk.
  { split; [done|]. intros [Hall _]. destruct (Hall k) as [Hn _]; [constructor|]. rewrite Hn in Hk. by destruct Hk. }
  apply eq_None_not_Some in Hk. destruct (clash k) as [e|] eqn:Ec.
  { split; [done|]. intros [Hall _]. destruct (Hall k) as [_ Hn]; [constructor|]. congruence. }
  rewrite IH by done. rewrite list_to_map_cons. setoid_rewrite elem_of_cons.
  assert (Hu : <[k:=v]> m ∪ list_to_map l = m ∪ <[k:=v]> (list_to_map l)).
  { by rewrite <-insert_union_l, <-insert_union_r. }
  rewrite Hu. split; intros [Hall ->]; (split; [|done]).
  - intros j [->|Hj]; [done|]. destruct (Hall j Hj) as [Hn Hc]. split; [|done]. by apply lookup_insert_None in Hn as [? _].
  - intros j Hj. destruct (Hall j (or_intror Hj)) as [Hn Hc]. split; [|done].
    rewrite lookup_insert_ne; [done|]. by intros ->.
Qed.

(** The loop accepts exactly new keys, and takes them all, in any order. *)
Lemma merge_entries_Ok `{HashOrder} {A} kind clash (p m m' : gmap string A) :
  merge_entries kind clash (hash_order p) m = (Ok tt, m') ↔
  p ##ₘ m ∧ (∀ k, is_Some (p !! k) → clash k = None) ∧ m' = m ∪ p.
Proof.
  rewrite merge_entries_list by apply NoDup_hash_order. rewrite hash_order_map, map_disjoint_alt.
  assert (Hk : ∀ k, k ∈ (hash_order p).*1 ↔ is_Some (p !! k)).
  { intros k. rewrite list_elem_of_fmap. split.
    - intros ([k' v] & -> & Hv%elem_hash_order). eauto.
    - intros [v Hv]. exists (k, v). split; [done|]. by apply elem_hash_order. }
  setoid_rewrite Hk. split.
  - intros [Hall ->]. split_and!; [|naive_solver|done]. intros k. destruct (p !! k) eqn:E; [|by left]. right.
    apply Hall. by rewrite E.
  - intros (Hd & Hc & ->). split; [|done]. intros k Hp. split; [|by apply Hc]. destruct (Hd k) as [Hn|]; [|done].
    rewrite Hn in Hp. by destruct Hp.
Qed.

(** ** Merging a chunk *)

(** What two declarations must not share: an id of the same kind, and facets
    and bindings are one kind. *)
Record apart (p r : Config) : Prop := {
  ap_definitions : definitions p ##ₘ definitions r;
  ap_artifacts : artifacts p ##ₘ artifacts r;
  ap_components : components p ##ₘ components r;
  ap_facets : facets p ##ₘ facets r;
  ap_constraints : constraints p ##ₘ constraints r;
  ap_catalogues : catalogues p ##ₘ catalogues r;
  ap_bindings : bindings p ##ₘ bindings r;
  ap_facet_binding : dom (facets p) ## dom (bindings r);
  ap_binding_facet : dom (bindings p) ## dom (facets r);
}.

#[export] Instance apart_sym : Symmetric apart.
Proof. intros p r []. by split. Qed.

(** Within a chunk no binding is called like a facet. *)
Definition facets_apart (p : Config) : Prop := dom (bindings p) ## dom (facets p).

(** The repository with one more chunk. *)
Definition join_config (r p : Config) : Config :=
  mkConfig (cf_package r) (cf_version r) (definitions r ∪ definitions p) (components r ∪ components p)
    (artifacts r ∪ artifacts p) (facets r ∪ facets p) (constraints r ∪ constraints p) (catalogues r ∪ catalogues p)
    (bindings r ∪ bindings p).

Lemma then_merge_Ok m1 m2 r r' :
  then_merge m1 m2 r = (Ok tt, r') ↔ ∃ r1, m1 r = (Ok tt, r1) ∧ m2 r1 = (Ok tt, r').
Proof.
  unfold then_merge. destruct (m1 r) as [[[]|e] r1]; split.
  - intros Hr. by exists r1.
  - by intros (? & [= <-] & ?).
  - done.
  - by intros (? & ? & ?).
Qed.

Lemma clash_none {A} (m : gmap string A) (e : string → ingest_error) (s : gset string) :
  (∀ k, k ∈ s → (if decide (is_Some (m !! k)) then Some (e k) else None) = None) ↔ s ## dom m.
Proof.
  rewrite elem_of_disjoint. split.
  - intros Hall k Hk Hm%elem_of_dom. specialize (Hall k Hk). by case_decide.
  - intros Hall k Hk. case_decide as Hm; [|done]. apply elem_of_dom in Hm. by destruct (Hall k Hk Hm).
Qed.

Lemma keys_none {A B} (p : gmap string A) (clash : string → option B) :
  (∀ k, is_Some (p !! k) → clash k = None) ↔ ∀ k, k ∈ dom p → clash k = None.
Proof. split; intros Hall k Hk; by apply Hall, elem_of_dom. Qed.

Section Merged.
Context `{HashOrder}.

Lemma merge_partial_Ok p r r' :
  merge_partial p r = (Ok tt, r') ↔ apart p r ∧ facets_apart p ∧ r' = join_config r p.
Proof.
  unfold merge_partial. split.
  - repeat (setoid_rewrite then_merge_Ok || idtac). intros (r1 & E1 & r2 & E2 & r3 & E3 & r4 & E4 & r5 & E5 & r6 & E6 & E7).
    unfold merge_definitions in E1. destruct (merge_entries _ _ _ _) as [? m1] eqn:F1 in E1. injection E1 as -> <-.
    unfold merge_artifacts in E2. cbn in E2. destruct (merge_entries _ _ _ _) as [? m2] eqn:F2 in E2. injection E2 as -> <-.
    unfold merge_components in E3. cbn in E3. destruct (merge_entries _ _ _ _) as [? m3] eqn:F3 in E3. injection E3 as -> <-.
    unfold merge_facets in E4. cbn in E4. destruct (merge_entries _ _ _ _) as [? m4] eqn:F4 in E4. injection E4 as -> <-.
    unfold merge_constraints in E5. cbn in E5. destruct (merge_entries _ _ _ _) as [? m5] eqn:F5 in E5. injection E5 as -> <-.
    unfold merge_catalogues in E6. cbn in E6. destruct (merge_entries _ _ _ _) as [? m6] eqn:F6 in E6. injection E6 as -> <-.
    unfold merge_bindings in E7. cbn in E7. destruct (merge_entries _ _ _ _) as [? m7] eqn:F7 in E7. injection E7 as -> <-.
    apply merge_entries_Ok in F1 as (? & _ & ->), F2 as (? & _ & ->), F3 as (? & _ & ->), F4 as (? & C4 & ->),
      F5 as (? & _ & ->), F6 as (? & _ & ->), F7 as (? & C7 & ->).
    assert (D4 : dom (facets p) ## dom (bindings r))
      by (apply (clash_none _ FacetIsBinding); intros k Hk; by apply C4, elem_of_dom).
    assert (D7 : dom (bindings p) ## dom (facets r ∪ facets p))
      by (apply (clash_none _ BindingIsFacet); intros k Hk; by apply C7, elem_of_dom).
    rewrite dom_union_L in D7. unfold facets_apart. split_and!; [split; try done; set_solver|set_solver|done].
  - intros ([] & Hf & ->). unfold facets_apart in Hf.
    assert (Hstep : ∀ m1 m2 r r1 r', m1 r = (Ok tt, r1) → m2 r1 = (Ok tt, r') → then_merge m1 m2 r = (Ok tt, r')).
    { intros m1 m2 x x1 x' Hx1 Hx2. apply then_merge_Ok. eauto. }
    assert (Hin : ∀ {A} kind clash (a m : gmap string A), a ##ₘ m → (∀ k, k ∈ dom a → clash k = None) →
      merge_entries kind clash (hash_order a) m = (Ok tt, m ∪ a)).
    { intros A kind clash a m Hd Hc. apply merge_entries_Ok. by rewrite keys_none. }
    eapply Hstep; [unfold merge_definitions; rewrite Hin by done; reflexivity|].
    eapply Hstep; [unfold merge_artifacts; cbn; rewrite Hin by done; reflexivity|].
    eapply Hstep; [unfold merge_components; cbn; rewrite Hin by done; reflexivity|].
    eapply Hstep; [unfold merge_facets; cbn; rewrite Hin; [reflexivity|done|]; by apply (clash_none _ FacetIsBinding)|].
    eapply Hstep; [unfold merge_constraints; cbn; rewrite Hin by done; reflexivity|].
    eapply Hstep; [unfold merge_catalogues; cbn; rewrite Hin by done; reflexivity|].
    unfold merge_bindings. cbn. rewrite Hin; [done|done|]. apply (clash_none _ BindingIsFacet). rewrite dom_union_L. set_solver.
Qed.
End Merged.

(** ** Joined repositories *)

Lemma apart_join p r q : apart p (join_config r q) ↔ apart p r ∧ apart p q.
Proof.
  split.
  - intros []. cbn in *. rewrite ?map_disjoint_union_r, ?dom_union_L in *. destruct_and!. split; split; try done; set_solver.
  - intros [[] []]. split; cbn; rewrite ?map_disjoint_union_r, ?dom_union_L; try done; set_solver.
Qed.

Lemma apart_new p : apart p new_repository.
Proof. split; cbn; try apply map_disjoint_empty_r; rewrite dom_empty_L; set_solver. Qed.

Definition joined (r : Config) (l : list Config) : Config := foldl join_config r l.

Lemma apart_joined p r l : apart p (joined r l) ↔ apart p r ∧ Forall (apart p) l.
Proof.
  revert r. induction l as [|q l IH]; intros r; cbn; [rewrite Forall_nil; tauto|].
  unfold joined in *. rewrite IH, apart_join, Forall_cons. tauto.
Qed.

Lemma union_swap {A} (a b c : gmap string A) : b ##ₘ c → a ∪ b ∪ c = a ∪ c ∪ b.
Proof. intros Hd. by rewrite <-!(assoc_L (∪)), (map_union_comm b c). Qed.

Lemma join_swap r p q : apart p q → join_config (join_config r p) q = join_config (join_config r q) p.
Proof. intros []. unfold join_config. cbn. f_equal; by apply union_swap. Qed.

Lemma joined_perm r l l' : l ≡ₚ l' → List.ForallOrdPairs apart l → joined r l = joined r l'.
Proof.
  intros Hp. revert r. induction Hp as [|x l l' Hp IH|x y l|l1 l2 l3 H1 IH1 H2 IH2]; intros r Hl; [done| | |].
  - inversion Hl; subst. cbn. by apply IH.
  - inversion Hl as [|? ? Hy Hl']; subst. inversion Hy; subst. cbn. unfold joined. by rewrite join_swap.
  - rewrite IH1 by done. apply IH2. by eapply ord_pairs_perm; [apply _|exact H1|].
Qed.

(** ** Recorded chunks *)

Definition chunk_apart (k k' : SourceChunk) : Prop :=
  sc_source_id k ≠ sc_source_id k' ∧ sc_chunk_hash k ≠ sc_chunk_hash k' ∧ apart (sc_config k) (sc_config k').

#[export] Instance chunk_apart_sym : Symmetric chunk_apart.
Proof. intros k k' (? & ? & ?). split_and!; [done|done|by symmetry]. Qed.

(** Chunks that can be in one model: pairwise apart, each under its address. *)
Record chunks_ok `{IrCodec} (ks : list SourceChunk) : Prop := {
  cs_apart : List.ForallOrdPairs chunk_apart ks;
  cs_facets : Forall (λ k, facets_apart (sc_config k)) ks;
  cs_address : Forall (λ k, chunk_hash_from_config (sc_config k) = Ok (sc_chunk_hash k)) ks;
}.

Definition compiled (ks : list SourceChunk) : Compiler := mkCompiler (joined new_repository (sc_config <$> ks)) ks.

Lemma chunks_ok_perm `{IrCodec} ks ks' : ks ≡ₚ ks' → chunks_ok ks → chunks_ok ks'.
Proof. intros Hp [Ha Hf Hh]. split; [by eapply ord_pairs_perm; [apply _|exact Hp|]|by rewrite <-Hp|by rewrite <-Hp]. Qed.

Lemma configs_apart ks : List.ForallOrdPairs chunk_apart ks → List.ForallOrdPairs apart (sc_config <$> ks).
Proof.
  induction 1 as [|k ks Hk _ IH]; cbn; [constructor|]. constructor; [|done]. apply Forall_fmap.
  eapply Forall_impl; [exact Hk|]. by intros k' (_ & _ & ?).
Qed.

Section Accepts.
Context `{HashOrder} `{IrCodec}.
Context (toml_from_str json_from_str : string → option Config).

(** What a source is read as. *)
Definition source_config (content : string) : option Config :=
  match detect_chunk_format content with
  | JsonChunk => json_from_str content
  | Toml =>
      p ← toml_from_str content;
      match reject_authored_inherits p with Ok _ => Some p | Err _ => None end
  end.

Definition source_chunk (s : string * string) (k : SourceChunk) : Prop :=
  sc_source_id k = s.1 ∧ source_config s.2 = Some (sc_config k) ∧ chunk_hash_from_config (sc_config k) = Ok (sc_chunk_hash k).

Lemma add_chunk_auto_Ok sid content c c' :
  add_chunk_auto toml_from_str json_from_str sid content c = (Ok tt, c') ↔
  ∃ p, source_config content = Some p ∧ add_parsed_chunk sid p c = (Ok tt, c').
Proof.
  unfold add_chunk_auto, source_config, add_chunk_with_source, add_chunk_json_with_source.
  destruct (detect_chunk_format content).
  - destruct (toml_from_str content) as [p|]; cbn; [|split; [done|by intros (? & ? & ?)]].
    destruct (reject_authored_inherits p); [naive_solver|split; [done|by intros (? & ? & ?)]].
  - destruct (json_from_str content) as [p|]; [naive_solver|split; [done|by intros (? & ? & ?)]].
Qed.

Lemma add_parsed_chunk_Ok sid p c c' :
  add_parsed_chunk sid p c = (Ok tt, c') ↔
  ∃ hash, chunk_hash_from_config p = Ok hash ∧
    Forall (λ k, sc_source_id k ≠ sid ∧ sc_chunk_hash k ≠ hash) (chunks c) ∧
    apart p (repository c) ∧ facets_apart p ∧
    c' = mkCompiler (join_config (repository c) p) (chunks c ++ [mkSourceChunk sid hash p]).
Proof.
  unfold add_parsed_chunk. destruct (existsb _ (chunks c)) eqn:Es.
  { split; [done|]. intros (hash & _ & Hf & _). apply existsb_exists in Es as (k & Hk%list_elem_of_In & Heq).
    apply bool_decide_eq_true in Heq. rewrite Forall_forall in Hf. by destruct (Hf k Hk). }
  assert (Hsrc : Forall (λ k, sc_source_id k ≠ sid) (chunks c)).
  { apply Forall_forall. intros k Hk Heq. apply not_true_iff_false in Es. apply Es, existsb_exists.
    exists k. split; [by apply list_elem_of_In|]. by apply bool_decide_eq_true. }
  destruct (merge_partial p (repository c)) as [res r] eqn:Em. destruct res as [[]|e].
  2: { split; [done|]. intros (hash & _ & _ & Ha & Hf & _).
       assert (E : merge_partial p (repository c) = (Ok tt, join_config (repository c) p)) by (by apply merge_partial_Ok).
       by rewrite E in Em. }
  apply merge_partial_Ok in Em as (Ha & Hf & ->). destruct (chunk_hash_from_config p) as [hash|e]; [|split; [done|by intros (? & ? & ?)]].
  cbn [chunks]. destruct (List.find _ (chunks c)) as [k|] eqn:Ef.
  - split; [done|]. intros (h & [= <-] & Hall & _). apply List.find_some in Ef as [Hk%list_elem_of_In Heq].
    apply bool_decide_eq_true in Heq. rewrite Forall_forall in Hall. by destruct (Hall k Hk).
  - split.
    + intros [= <-]. exists hash. split_and!; try done. apply Forall_and. split; [done|]. apply Forall_forall. intros k Hk Heq.
      apply list_elem_of_In in Hk. by apply (List.find_none _ _ Ef), bool_decide_eq_false in Hk.
    + by intros (h & [= <-] & _ & _ & _ & ->).
Qed.

Lemma chunks_ok_snoc ks k :
  chunks_ok (ks ++ [k]) ↔ chunks_ok ks ∧ facets_apart (sc_config k) ∧
    chunk_hash_from_config (sc_config k) = Ok (sc_chunk_hash k) ∧ Forall (λ k', chunk_apart k' k) ks.
Proof.
  split.
  - intros [Ha Hf Hh]. apply ord_pairs_app in Ha as [Ha Hk]. rewrite !Forall_app, !Forall_singleton in *. destruct_and!. done.
  - intros ([Ha Hf Hh] & Hfk & Hhk & Hk). split; [by apply ord_pairs_app|..]; rewrite Forall_app, Forall_singleton; done.
Qed.

Lemma compiled_snoc ks k :
  compiled (ks ++ [k]) = mkCompiler (join_config (repository (compiled ks)) (sc_config k)) (ks ++ [k]).
Proof. unfold compiled, joined. cbn. by rewrite fmap_app, foldl_app. Qed.

Lemma add_compiled sid content ks c :
  chunks_ok ks →
  add_chunk_auto toml_from_str json_from_str sid content (compiled ks) = (Ok tt, c) ↔
  ∃ k, source_chunk (sid, content) k ∧ chunks_ok (ks ++ [k]) ∧ c = compiled (ks ++ [k]).
Proof.
  intros Hok. rewrite add_chunk_auto_Ok. setoid_rewrite add_parsed_chunk_Ok. cbn [compiled repository chunks].
  setoid_rewrite chunks_ok_snoc. setoid_rewrite compiled_snoc. split.
  - intros (p & Hp & hash & Hh & Hall & Ha & Hf & ->). exists (mkSourceChunk sid hash p).
    apply apart_joined in Ha as [_ Ha]. rewrite Forall_fmap in Ha. split_and!; try done.
    eapply Forall_impl; [apply Forall_and; split; [exact Hall|exact Ha]|]. intros k [[? ?] Hap]. split_and!; [done|done|]. apply apart_sym. exact Hap.
  - intros ([s h p] & (Hs & Hp & Hh) & (_ & Hf & _ & Hk) & ->). cbn in *. subst s. exists p. split; [done|]. exists h.
    split_and!; try done.
    + eapply Forall_impl; [exact Hk|]. by intros k (? & ? & _).
    + apply apart_joined. split; [apply apart_new|]. rewrite Forall_fmap. eapply Forall_impl; [exact Hk|].
      intros k (_ & _ & Hap). apply apart_sym. exact Hap.
Qed.

Lemma ingest_compiled sources ks c :
  chunks_ok ks →
  ingest toml_from_str json_from_str sources (compiled ks) = (Ok tt, c) ↔
  ∃ ks', Forall2 source_chunk sources ks' ∧ chunks_ok (ks ++ ks') ∧ c = compiled (ks ++ ks').
Proof.
  revert ks. induction sources as [|[sid content] sources IH]; intros ks Hok; cbn [ingest].
  { split.
    - intros [= <-]. exists []. rewrite app_nil_r. split_and!; [constructor|done|done].
    - intros (ks' & Hr & _ & ->). inversion Hr; subst. by rewrite app_nil_r. }
  destruct (add_chunk_auto _ _ sid content (compiled ks)) as [[[]|e] c1] eqn:Ea.
  - apply add_compiled in Ea as (k & Hk & Hok' & ->); [|done]. rewrite IH by done. setoid_rewrite <-(assoc_L (++)). split.
    + intros (ks' & Hr & Hc & ->). exists (k :: ks'). split_and!; [by constructor|done|done].
    + intros (ks' & Hr & Hc & ->). inversion Hr as [|? k' ? ks'' Hk' Hr']; subst. exists ks''.
      assert (k = k') as ->; [|done]. destruct k as [s h p], k' as [s' h' p'], Hk as (Hs & Hp & Hh), Hk' as (Hs' & Hp' & Hh').
      cbn in *. congruence.
  - split; [done|]. intros (ks' & Hr & Hc & _). exfalso. inversion Hr as [|? k ? ks'' Hk Hr']; subst.
    assert (Hc' : chunks_ok (ks ++ [k])).
    { rewrite cons_middle, (assoc_L (++)) in Hc. destruct Hc as [Ha Hf Hh]. rewrite Forall_app in Hf, Hh. split; [|naive_solver..].
      clear -Ha. induction ks'' as [|x ks'' IH] using rev_ind; [by rewrite app_nil_r in Ha|].
      rewrite (assoc_L (++)) in Ha. apply ord_pairs_app in Ha as [Ha _]. by apply IH. }
    assert (E : add_chunk_auto toml_from_str json_from_str sid content (compiled ks) = (Ok tt, compiled (ks ++ [k])))
      by (apply add_compiled; eauto). by rewrite E in Ea.
Qed.
End Accepts.

(** ** The index of a model *)

Definition ns_exports (ns : Namespace) (e : Exports) : gset string :=
  match ns with
  | NsComponent => ex_components e
  | NsDefinition => ex_definitions e
  | NsArtifact => ex_artifacts e
  | NsFacet => ex_facets e
  | NsCatalogue => ex_catalogues e
  | NsBinding => ex_bindings e
  end.

Lemma index_ids_lookup hash ids m id :
  index_ids hash ids m !! id = if decide (id ∈ ids) then Some hash else m !! id.
Proof.
  unfold index_ids. assert (Hl : ∀ l (m : gmap string string), foldl (λ index id, <[id := hash]> index) m l !! id =
    if decide (id ∈ l) then Some hash else m !! id).
  { clear m. induction l as [|x l IH]; intros m; cbn [foldl].
    - rewrite decide_False; [done|]. apply not_elem_of_nil.
    - rewrite IH. destruct (decide (id ∈ l)) as [Hin|Hin]; [rewrite decide_True; [done|by constructor]|].
      destruct (decide (id = x)) as [->|Hne]; [rewrite decide_True by constructor; by apply lookup_insert_eq|].
      rewrite decide_False; [by apply lookup_insert_ne|]. by rewrite elem_of_cons; intros []. }
  rewrite Hl. apply decide_ext. apply elem_of_bt_elements.
Qed.

(** An id that one chunk at most declares is indexed under that chunk. *)
Lemma index_all_Some f inputs id hash :
  (∀ i j, i ∈ inputs → j ∈ inputs → id ∈ f (ii_exports i) → id ∈ f (ii_exports j) → ii_chunk_hash i = ii_chunk_hash j) →
  index_all f inputs !! id = Some hash ↔ ∃ i, i ∈ inputs ∧ id ∈ f (ii_exports i) ∧ ii_chunk_hash i = hash.
Proof.
  unfold index_all. induction inputs as [|x inputs IH] using rev_ind; intros Hone; cbn.
  { rewrite lookup_empty. split; [done|]. by intros (i & ?%not_elem_of_nil & _). }
  rewrite foldl_app. cbn [foldl]. rewrite index_ids_lookup. setoid_rewrite elem_of_app. setoid_rewrite list_elem_of_singleton.
  case_decide as Hx.
  - split; [intros [= <-]; exists x; eauto|]. intros (i & Hi & Hid & <-). f_equal. apply Hone; [set_solver|set_solver|done|done].
  - rewrite IH; [|intros i j Hi Hj; apply Hone; set_solver]. naive_solver.
Qed.

(** The chunk a source chunk is written as. *)
Definition written (k : SourceChunk) : IrChunk := ir_chunk_from_config (sc_source_id k) (sc_chunk_hash k) (sc_config k).

Definition linked_as `{IrCodec} (k : SourceChunk) (x : LinkChunk) : Prop :=
  chunk_json (written k) = Some (lk_bytes x) ∧
  lk_chunk_hash x = sc_chunk_hash k ∧ lk_source_id x = sc_source_id k ∧ lk_exports x = exports_of (sc_config k).

Lemma combine_fmap {A B} (f : A → B) l : combine l (f <$> l) = (λ a, (a, f a)) <$> l.
Proof. induction l as [|a l IH]; cbn; [done|]. by rewrite IH. Qed.

Lemma link_chunks_Ok `{HashOrder} `{IrCodec} c l :
  link_chunks_of c (interface_summaries c) = Ok l ↔ Forall2 linked_as (chunks c) l.
Proof.
  unfold link_chunks_of, interface_summaries. rewrite combine_fmap, collect_results_Ok, Forall2_fmap_l.
  assert (Hk : ∀ k x, link_chunk k (summarize (sc_config k) (sc_source_id k)) = Ok x ↔ linked_as k x).
  { intros k x. unfold link_chunk, chunk_file_bytes, linked_as, written.
    destruct (summarize_spec (sc_config k) (sc_source_id k)) as [[_ -> _ _ _ _ _ _] _].
    destruct (chunk_json _) as [bytes|]; cbn; [|naive_solver]. split; [by intros [= <-]|].
    destruct x as [xh xs xe xb]. cbn. by intros ([= ->] & -> & -> & ->). }
  split; intros HF; (eapply Forall2_impl; [exact HF|]); intros k x; apply Hk.
Qed.

(** Which chunk the index names. *)
Lemma namespace_apart ns p q id : apart p q → id ∈ ns_exports ns (exports_of p) → id ∈ ns_exports ns (exports_of q) → False.
Proof.
  intros Hap. assert (Hd : ∀ A (m1 m2 : gmap string A), m1 ##ₘ m2 → id ∈ dom m1 → id ∈ dom m2 → False).
  { intros A m1 m2 Hm [v Hv]%elem_of_dom [w Hw]%elem_of_dom. by eapply (proj1 (map_disjoint_spec m1 m2)). }
  destruct Hap. destruct ns; cbn; by apply Hd.
Qed.

Lemma build_index_Ok `{IrCodec} inputs i :
  build_index inputs = Ok i →
  ix_chunks i = merge_sort chunk_ref_le ((λ i, mkChunkRef (ii_chunk_hash i) (ii_source_id i)) <$> inputs) ∧
  (∀ ns, index_of i ns = index_all (ns_exports ns) inputs) ∧
  compute_config_hash i = Ok (ix_config_hash i).
Proof.
  unfold build_index, from_parts, compute_config_hash. intros (h & Hh & [= <-])%bind_Ok. cbn. split_and!; [done| |done]. by intros [].
Qed.

Lemma linked_inputs `{IrCodec} ks l i :
  Forall2 linked_as ks l →
  i ∈ ((λ k, mkInput (lk_chunk_hash k) (lk_source_id k) (lk_exports k)) <$> l) ↔
  ∃ k, k ∈ ks ∧ i = mkInput (sc_chunk_hash k) (sc_source_id k) (exports_of (sc_config k)).
Proof.
  intros HF. rewrite list_elem_of_fmap. split.
  - intros (x & -> & Hx). apply list_elem_of_lookup in Hx as [n Hx]. destruct (Forall2_lookup_r _ _ _ _ _ HF Hx) as (k & Hk & _ & E1 & E2 & E3).
    exists k. split; [by eapply list_elem_of_lookup_2|]. by rewrite E1, E2, E3.
  - intros (k & Hk & ->). apply list_elem_of_lookup in Hk as [n Hk]. destruct (Forall2_lookup_l _ _ _ _ _ HF Hk) as (x & Hx & _ & E1 & E2 & E3).
    exists x. split; [by rewrite E1, E2, E3|by eapply list_elem_of_lookup_2].
Qed.

Lemma package_index_lookup `{IrCodec} ks l i ns id hash :
  chunks_ok ks → Forall2 linked_as ks l → build_package_index l = Ok i →
  index_of i ns !! id = Some hash ↔ ∃ k, k ∈ ks ∧ id ∈ ns_exports ns (exports_of (sc_config k)) ∧ sc_chunk_hash k = hash.
Proof.
  intros Hok HF (_ & -> & _)%build_index_Ok. rewrite index_all_Some.
  - setoid_rewrite (linked_inputs _ _ _ HF). split; [intros (x & (k & Hk & ->) & ? & ?); eauto|].
    intros (k & Hk & ? & ?). exists (mkInput (sc_chunk_hash k) (sc_source_id k) (exports_of (sc_config k))). eauto.
  - setoid_rewrite (linked_inputs _ _ _ HF). intros x y (k & Hk & ->) (k' & Hk' & ->) Hx Hy. cbn in *.
    destruct (ord_pairs_lookup _ _ _ _ (cs_apart _ Hok) Hk Hk') as [->|(_ & _ & Hap)]; [done|].
    by destruct (namespace_apart ns _ _ id Hap Hx Hy).
Qed.

Lemma linked_refs `{IrCodec} ks l :
  Forall2 linked_as ks l →
  (λ i, mkChunkRef (ii_chunk_hash i) (ii_source_id i)) <$> ((λ k, mkInput (lk_chunk_hash k) (lk_source_id k) (lk_exports k)) <$> l)
    = (λ k, mkChunkRef (sc_chunk_hash k) (sc_source_id k)) <$> ks.
Proof. induction 1 as [|k x ks l (_ & E1 & E2 & _) _ IH]; cbn; [done|]. by rewrite <-IH, E1, E2. Qed.

(** ** The written package *)

Lemma chunk_path_inj dir : Inj (=) (=) (chunk_path dir).
Proof.
  intros h h' E. apply (f_equal bytes_of) in E. unfold chunk_path in E. rewrite !bytes_of_app in E.
  apply app_inv_head, app_inv_head, app_inv_tail in E. by apply bytes_of_inj.
Qed.

Lemma chunk_path_other dir h s : strip_text "/chunk-" s = None → chunk_path dir h ≠ dir +:+ s.
Proof.
  intros Hs E. apply (f_equal bytes_of) in E. unfold chunk_path in E. rewrite !bytes_of_app in E. apply app_inv_head in E.
  assert (Hs' : s = "/chunk-" +:+ h +:+ ".cfir") by (apply bytes_of_inj; by rewrite !bytes_of_app). subst s. by cbn in Hs.
Qed.

Section Written.
Context `{HashOrder} `{IrCodec}.
Context (creatable writable : string → bool).
Context (Hwr : ∀ path, writable path = true).

Lemma put_Ok path bytes d : put writable path bytes d = (Ok tt, <[path := Some bytes]> d).
Proof. unfold put. by rewrite Hwr. Qed.

Lemma put_chunks_Ok dir l d :
  NoDup (lk_chunk_hash <$> l) →
  ∃ d', put_chunks writable dir l d = (Ok tt, d') ∧
    (∀ x, x ∈ l → d' !! chunk_path dir (lk_chunk_hash x) = Some (Some (lk_bytes x))) ∧
    (∀ path, (∀ x, x ∈ l → path ≠ chunk_path dir (lk_chunk_hash x)) → d' !! path = d !! path).
Proof.
  revert d. induction l as [|x l IH]; intros d; cbn [put_chunks fmap list_fmap].
  { intros _. exists d. split_and!; [done|by intros x ?%not_elem_of_nil|done]. }
  intros [Hni Hnd]%NoDup_cons. rewrite put_Ok. destruct (IH (<[chunk_path dir (lk_chunk_hash x):=Some (lk_bytes x)]> d) Hnd) as (d' & -> & Hin & Hout).
  exists d'. split_and!; [done| |].
  - intros y [->|Hy]%elem_of_cons; [|by apply Hin]. rewrite Hout; [by apply lookup_insert_eq|].
    intros y Hy E%chunk_path_inj. apply Hni. rewrite E. apply list_elem_of_fmap. eauto.
  - intros path Hp. rewrite Hout; [|intros y Hy; apply Hp; by constructor]. apply lookup_insert_ne. symmetry. apply Hp. constructor.
Qed.

(** A disk with the files of the chunks is an accepted package. *)
Lemma written_ok ks l i dir d :
  chunks_ok ks → Forall2 linked_as ks l → build_package_index l = Ok i →
  (∀ k bytes, k ∈ ks → chunk_json (written k) = Some bytes → parse_chunk bytes = Some (written k)) →
  (∀ x, x ∈ l → d !! chunk_path dir (lk_chunk_hash x) = Some (Some (lk_bytes x))) →
  ∃ cs, package_ok i dir d cs ∧ cs ≡ₚ (written <$> ks).
Proof.
  intros Hok HF Hi Hparse Hd. pose proof (build_index_Ok _ _ Hi) as (Hch & _ & _).
  rewrite (linked_refs _ _ HF) in Hch.
  assert (Hp : ix_chunks i ≡ₚ (λ k, mkChunkRef (sc_chunk_hash k) (sc_source_id k)) <$> ks) by (rewrite Hch; apply merge_sort_Permutation).
  pose (ref := λ k, mkChunkRef (sc_chunk_hash k) (sc_source_id k)).
  destruct (Permutation_map_inv ref ks Hp) as (ks' & Hks' & Hpk).
  assert (Hok' : chunks_ok ks') by (eapply chunks_ok_perm; [|done]; by symmetry).
  exists (written <$> ks'). split; [|by rewrite Hpk]. split.
  - unfold preimage_chunks. rewrite Hks'. change (map ref ks') with (ref <$> ks'). rewrite <-list_fmap_compose.
    destruct Hok' as [Ha _ _]. clear -Ha. induction Ha as [|k ks Hk _ IH]; cbn; [constructor|]. apply NoDup_cons. split; [|done].
    intros (k' & E & Hk')%list_elem_of_fmap. rewrite Forall_forall in Hk. destruct (Hk k' Hk') as (_ & Hne & _). by apply Hne.
  - intros ns id hash. rewrite (package_index_lookup ks l i) by done. intros (k & Hk & _ & <-). unfold preimage_chunks.
    rewrite Hp, <-list_fmap_compose. apply list_elem_of_fmap. by exists k.
  - rewrite Hks'. change (map ref ks') with (ref <$> ks'). apply Forall2_fmap, Forall_Forall2_diag, Forall_forall. intros k Hk.
    assert (Hk0 : k ∈ ks) by (by rewrite Hpk). apply list_elem_of_lookup in Hk0 as Hn. destruct Hn as [n Hn].
    destruct (Forall2_lookup_l _ _ _ _ _ HF Hn) as (x & Hx & Hj & Hxe & _). split; try done.
    + exists (lk_bytes x). split; [|by apply Hparse]. apply list_elem_of_lookup_2 in Hx. rewrite <-(Hd x Hx). cbn. by rewrite Hxe.
    + destruct Hok as [_ _ Hh]. rewrite Forall_forall in Hh. by apply (Hh k Hk0).
    + intros ns id. rewrite (package_index_lookup ks l i) by done.
      assert (E : ids_of (written k) ns = ns_exports ns (exports_of (sc_config k))) by (by destruct ns). rewrite E. split; [eauto|].
      intros (k' & Hk' & Hid & Heq). cbn in Heq. destruct (ord_pairs_lookup _ _ _ _ (cs_apart _ Hok) Hk0 Hk') as [->|(_ & Hne & _)]; [done|].
      congruence.
Qed.
End Written.

(** ** The properties *)

Lemma reject_inherits_order (Ho Ho' : HashOrder) p :
  reject_authored_inherits (H := Ho) p = Ok tt ↔ reject_authored_inherits (H := Ho') p = Ok tt.
Proof.
  assert (Hx : ∀ Ho : HashOrder, reject_authored_inherits (H := Ho) p = Ok tt ↔
    (∀ k q, definitions p !! k = Some q → reject_inherits_in_parameter q ("definitions." +:+ k) = Ok tt) ∧
    (∀ i c k q, components p !! i = Some c → params c !! k = Some q →
       reject_inherits_in_parameter q ("components." +:+ i +:+ ".params." +:+ k) = Ok tt)).
  { intros Hx. unfold reject_authored_inherits. rewrite for_each_then, for_each_Ok. setoid_rewrite for_each_Ok. split.
    - intros [H1 H2]. split.
      + intros k q Hq. apply (H1 (k, q)). by apply elem_hash_order.
      + intros i c k q Hc Hq. apply (H2 (i, c)) with (a := (k, q)); by apply elem_hash_order.
    - intros [H1 H2]. split.
      + intros [k q] Hq. apply H1. by apply elem_hash_order.
      + intros [i c] Hc [k q] Hq. apply (H2 i c); by apply elem_hash_order. }
  by rewrite !Hx.
Qed.

Lemma source_chunk_order (Ho Ho' : HashOrder) (Hc : IrCodec) toml json s k :
  source_chunk (H := Ho) toml json s k → source_chunk (H := Ho') toml json s k.
Proof.
  intros (Hs & Hp & Hh). split_and!; [done| |done]. unfold source_config in *. destruct (detect_chunk_format s.2); [|done].
  destruct (toml s.2) as [p|]; cbn in *; [|done]. pose proof (reject_inherits_order Ho Ho' p) as Hiff.
  destruct (reject_authored_inherits (H := Ho) p) as [[]|]; [|done]. by rewrite (proj1 Hiff eq_refl).
Qed.

(** C10: A list of sources is ingested exactly when every source can be read, no two
    of them have the same source id, the same content or an id of the same kind
    in common, and no binding is called like a facet; the compiler then holds
    the union of the chunks.  Neither the order of the sources nor the order the
    hash maps are read in matters. *)
Theorem ingest_exact (Ho Ho' : HashOrder) (Hc : IrCodec) toml json sources c :
  (ingest (H := Ho) toml json sources new_compiler = (Ok tt, c) ↔
     ∃ ks, Forall2 (source_chunk (H := Ho) toml json) sources ks ∧ chunks_ok ks ∧ c = compiled ks) ∧
  (∀ sources', sources ≡ₚ sources' → ingest (H := Ho) toml json sources new_compiler = (Ok tt, c) →
     ∃ c', ingest (H := Ho') toml json sources' new_compiler = (Ok tt, c') ∧
       repository c' = repository c ∧ chunks c' ≡ₚ chunks c).
Proof.
  assert (Hnew : chunks_ok []) by (repeat constructor).
  split; [apply (ingest_compiled toml json sources [] c Hnew)|]. intros sources' Hp Hi.
  apply (ingest_compiled toml json sources [] c Hnew) in Hi as (ks & Hr & Hok & ->).
  destruct (Permutation_Forall2 Hp Hr) as (ks' & Hpk & Hr'). exists (compiled ks'). split_and!.
  - apply (ingest_compiled (H := Ho') toml json sources' [] (compiled ks') Hnew). exists ks'. split_and!; [|by eapply chunks_ok_perm|done].
    eapply Forall2_impl; [exact Hr'|]. intros s k. apply source_chunk_order.
  - symmetry. apply joined_perm; [by rewrite Hpk|]. apply configs_apart, Hok.
  - cbn. by symmetry.
Qed.

(** What a successful emission leaves on disk. *)
Lemma package_written (Ho : HashOrder) (Hc : IrCodec) toml json creatable writable sources c dir d :
  ingest toml json sources new_compiler = (Ok tt, c) →
  link_and_verify c = Ok tt →
  (∀ k, k ∈ chunks c → ∃ bytes, chunk_json (written k) = Some bytes ∧ parse_chunk bytes = Some (written k)) →
  (∀ content, is_Some (content_json content)) → creatable dir = true → (∀ path, writable path = true) →
  ∃ i d' cs, emit_ir creatable writable c dir d = (Ok i, d') ∧
    verify_index_integrity_loading i dir d' = Ok cs ∧ cs ≡ₚ (written <$> chunks c) ∧
    d' !! (dir +:+ "/" +:+ CMP_DEFAULT_INDEX_REF) = Some (Some (index_pretty i)).
Proof.
  intros Hi Hv Hbytes Hcont Hcr Hwr. assert (Hnew : chunks_ok []) by (repeat constructor).
  apply (ingest_compiled toml json sources [] c Hnew) in Hi as (ks & _ & Hok & ->). cbn [app] in *.
  assert (Hl : ∃ l, Forall2 linked_as ks l).
  { change (chunks (compiled ks)) with ks in Hbytes. clear -Hbytes. induction ks as [|k ks IH]; [eexists; constructor|].
    destruct IH as [l Hl]; [intros k' Hk'; apply Hbytes; by constructor|]. destruct (Hbytes k) as (b & Hb & _); [constructor|].
    exists (mkLinkChunk (sc_chunk_hash k) (sc_source_id k) (exports_of (sc_config k)) b :: l). by constructor. }
  destruct Hl as [l Hl]. assert (Hb : ∃ i, build_package_index l = Ok i).
  { unfold build_package_index, build_index, from_parts, hash_index_content.
    match goal with |- context [content_json ?x] => destruct (Hcont x) as [bytes ->] end. cbn. eauto. }
  destruct Hb as [i Hb].
  assert (Hparse : ∀ k bytes, k ∈ ks → chunk_json (written k) = Some bytes → parse_chunk bytes = Some (written k)).
  { intros k bytes Hk Hj. destruct (Hbytes k Hk) as (b & Hb' & Hp). congruence. }
  assert (Hnd : NoDup (lk_chunk_hash <$> l)).
  { destruct Hok as [Ha _ _]. clear -Ha Hl. induction Hl as [|k x ks l (_ & Hx & _) Hl IH]; cbn; [constructor|].
    inversion Ha as [|? ? Hk Ha']; subst. apply NoDup_cons. split; [|by apply IH]. intros (y & E & Hy)%list_elem_of_fmap.
    apply list_elem_of_lookup in Hy as [n Hy]. destruct (Forall2_lookup_r _ _ _ _ _ Hl Hy) as (k' & Hk' & _ & Hy' & _).
    rewrite Forall_forall in Hk. apply list_elem_of_lookup_2 in Hk'. destruct (Hk k' Hk') as (_ & Hne & _). congruence. }
  destruct (put_chunks_Ok writable Hwr dir l d Hnd) as (d1 & Hput & Hin & _).
  assert (Hstay : ∀ s bs (d : package_disk), strip_text "/chunk-" s = None →
    (∀ x, x ∈ l → d !! chunk_path dir (lk_chunk_hash x) = Some (Some (lk_bytes x))) →
    ∀ x, x ∈ l → <[dir +:+ s := bs]> d !! chunk_path dir (lk_chunk_hash x) = Some (Some (lk_bytes x))).
  { intros s bs d2 Hs H2 x Hx. rewrite lookup_insert_ne; [by apply H2|]. symmetry. by apply chunk_path_other. }
  set (d2 := <[dir +:+ "/" +:+ CMP_DEFAULT_INDEX_REF := Some (index_pretty i)]> d1).
  set (d3 := <[dir +:+ "/" +:+ CMP_DEFAULT_MANIFEST_FILENAME := Some (manifest_pretty (manifest_from_index i))]> d2).
  assert (H2 := Hstay _ (Some (index_pretty i)) d1 (eq_refl : strip_text "/chunk-" ("/" +:+ CMP_DEFAULT_INDEX_REF) = None) Hin).
  assert (H3 := Hstay _ (Some (manifest_pretty (manifest_from_index i))) d2
    (eq_refl : strip_text "/chunk-" ("/" +:+ CMP_DEFAULT_MANIFEST_FILENAME) = None) H2).
  destruct (written_ok ks l i dir d2 Hok Hl Hb Hparse H2) as (cs2 & Hp2 & _).
  destruct (written_ok ks l i dir d3 Hok Hl Hb Hparse H3) as (cs3 & Hp3 & Hperm).
  exists i, d3, cs3. split_and!; [|by apply integrity_Ok|done|].
  2: { unfold d3, d2. rewrite lookup_insert_ne; [by rewrite lookup_insert_eq|]. intros E. apply (inj (String.append dir)) in E. done. }
  unfold emit_ir, link_and_verify in *. rewrite Hv.
  rewrite (proj2 (link_chunks_Ok (compiled ks) l) Hl), Hb. unfold write_package. rewrite Hcr, Hput, put_Ok by done.
  fold d2. unfold verify_index_integrity. rewrite (proj2 (integrity_Ok i dir d2 cs2) Hp2). cbn. by rewrite put_Ok.
Qed.

(** The compiler's own package is never refused: when the sources are ingested
    and verified, the chunks can be serialized and read back and the disk can be
    written, the package is written, the integrity check accepts it, and it
    holds exactly the ingested chunks. *)
Theorem package_complete (Ho : HashOrder) (Hc : IrCodec) toml json creatable writable sources c dir d :
  ingest toml json sources new_compiler = (Ok tt, c) →
  link_and_verify c = Ok tt →
  (∀ k, k ∈ chunks c → ∃ bytes, chunk_json (written k) = Some bytes ∧ parse_chunk bytes = Some (written k)) →
  (∀ content, is_Some (content_json content)) → creatable dir = true → (∀ path, writable path = true) →
  ∃ i d' cs, emit_ir creatable writable c dir d = (Ok i, d') ∧
    verify_index_integrity_loading i dir d' = Ok cs ∧ cs ≡ₚ (written <$> chunks c).
Proof.
  intros Hi Hv Hb Hcont Hcr Hw. destruct (package_written Ho Hc toml json creatable writable sources c dir d Hi Hv Hb Hcont Hcr Hw)
    as (i & d' & cs & He & Hl & Hp & _). eauto 10.
Qed.

(** The seven maps of every chunk. *)
Definition contents (c : Compiler) : list ChunkPreimage := (λ k, entities_from_config (sc_config k)) <$> chunks c.

Lemma sorted_hashes l : Sorted chunk_ref_le l → Sorted String.le (cr_chunk_hash <$> l).
Proof.
  induction 1 as [|r l _ IH Hr]; cbn; [constructor|]. constructor; [done|]. destruct Hr; cbn; by constructor.
Qed.

Lemma chunk_ref_le_total : Total chunk_ref_le.
Proof. intros a b. unfold chunk_ref_le. apply (total String.le). Qed.

(** The hashes of chunks with the same contents, in index order. *)
Lemma hashes_sorted_unique (l l' : list IrChunkRef) :
  cr_chunk_hash <$> l ≡ₚ cr_chunk_hash <$> l' →
  preimage_chunks (merge_sort chunk_ref_le l) = preimage_chunks (merge_sort chunk_ref_le l').
Proof.
  intros Hp. pose proof chunk_ref_le_total. unfold preimage_chunks. apply (Sorted_unique String.le).
  - apply sorted_hashes, Sorted_merge_sort. apply _.
  - apply sorted_hashes, Sorted_merge_sort. apply _.
  - by rewrite !(merge_sort_Permutation chunk_ref_le).
Qed.

Lemma exports_of_entities p q : entities_from_config p = entities_from_config q → exports_of p = exports_of q.
Proof. unfold entities_from_config, exports_of. intros [= -> -> -> -> -> -> ->]. done. Qed.

Lemma same_contents `{IrCodec} ks ks' k :
  chunks_ok ks → chunks_ok ks' → contents (compiled ks) ≡ₚ contents (compiled ks') → k ∈ ks →
  ∃ k', k' ∈ ks' ∧ sc_chunk_hash k' = sc_chunk_hash k ∧ exports_of (sc_config k') = exports_of (sc_config k).
Proof.
  intros [_ _ Hh] [_ _ Hh'] Hp Hk. assert (Hin : entities_from_config (sc_config k) ∈ contents (compiled ks')).
  { rewrite <-Hp. apply list_elem_of_fmap. by exists k. }
  apply list_elem_of_fmap in Hin as (k' & E & Hk'). exists k'. split; [done|]. rewrite Forall_forall in Hh, Hh'.
  specialize (Hh k Hk). specialize (Hh' k' Hk'). cbn in *. unfold chunk_hash_from_config in *. rewrite E in Hh.
  split; [congruence|]. by apply exports_of_entities.
Qed.

Lemma contents_hashes `{IrCodec} ks ks' :
  chunks_ok ks → chunks_ok ks' → contents (compiled ks) ≡ₚ contents (compiled ks') → sc_chunk_hash <$> ks ≡ₚ sc_chunk_hash <$> ks'.
Proof.
  intros [_ _ Hh] [_ _ Hh'] Hp.
  assert (Hx : ∀ l, Forall (λ k, chunk_hash_from_config (sc_config k) = Ok (sc_chunk_hash k)) l →
    sc_chunk_hash <$> l = (λ p, match hash_chunk_preimage p with Ok h => h | Err _ => "" end) <$> contents (compiled l)).
  { intros l Hl. unfold contents, compiled. cbn. rewrite <-list_fmap_compose. induction Hl as [|k l Hk _ IH]; cbn; [done|].
    rewrite IH. f_equal. unfold chunk_hash_from_config in Hk. by rewrite Hk. }
  by rewrite (Hx ks Hh), (Hx ks' Hh'), Hp.
Qed.

(** The identity of a model is a function of what its chunks declare: two
    ingested source lists with the same contents, in any order and under any
    source ids, package names and versions, have the same model hash. *)
Theorem identity_of_contents (Ho Ho' : HashOrder) (Hc : IrCodec) toml json sources sources' c c' l l' i i' :
  ingest (H := Ho) toml json sources new_compiler = (Ok tt, c) →
  ingest (H := Ho') toml json sources' new_compiler = (Ok tt, c') →
  contents c ≡ₚ contents c' →
  link_chunks_of c (interface_summaries (H := Ho) c) = Ok l → build_package_index l = Ok i →
  link_chunks_of c' (interface_summaries (H := Ho') c') = Ok l' → build_package_index l' = Ok i' →
  ix_config_hash i = ix_config_hash i'.
Proof.
  assert (Hnew : chunks_ok []) by (repeat constructor). intros Hi Hi' Hp Hl Hb Hl' Hb'.
  apply (ingest_compiled (H := Ho) toml json sources [] c Hnew) in Hi as (ks & _ & Hok & ->).
  apply (ingest_compiled (H := Ho') toml json sources' [] c' Hnew) in Hi' as (ks' & _ & Hok' & ->). cbn [app] in *.
  apply link_chunks_Ok in Hl, Hl'. cbn [compiled chunks] in Hl, Hl'.
  destruct (build_index_Ok _ _ Hb) as (Hc1 & _ & Hh). destruct (build_index_Ok _ _ Hb') as (Hc1' & _ & Hh').
  assert (Hidx : ∀ ns, index_of i ns = index_of i' ns).
  { intros ns. apply map_eq. intros id. apply option_eq. intros h.
    rewrite (package_index_lookup ks l i), (package_index_lookup ks' l' i') by done. split.
    - intros (k & Hk & Hid & <-). destruct (same_contents ks ks' k) as (k' & Hk' & Eh & Ee); try done.
      exists k'. split_and!; [done|by rewrite Ee|done].
    - intros (k & Hk & Hid & <-). destruct (same_contents ks' ks k) as (k' & Hk' & Eh & Ee); try done.
      exists k'. split_and!; [done|by rewrite Ee|done]. }
  assert (Hch : preimage_chunks (ix_chunks i) = preimage_chunks (ix_chunks i')).
  { rewrite Hc1, Hc1', (linked_refs ks l), (linked_refs ks' l') by done. apply hashes_sorted_unique.
    rewrite <-!list_fmap_compose. by apply contents_hashes. }
  assert (Hcont : index_content i = index_content i').
  { pose proof (Hidx NsComponent) as H1. pose proof (Hidx NsDefinition) as H2. pose proof (Hidx NsArtifact) as H3.
    pose proof (Hidx NsFacet) as H4. pose proof (Hidx NsCatalogue) as H5. pose proof (Hidx NsBinding) as H6. cbn in *.
    unfold index_content. rewrite Hch, H1, H2, H3, H4, H5, H6. f_equal.
    unfold build_package_index, build_index, from_parts in Hb, Hb'.
    apply bind_Ok in Hb as (? & _ & [= <-]). by apply bind_Ok in Hb' as (? & _ & [= <-]). }
  unfold compute_config_hash in *. rewrite Hcont in Hh. congruence.
Qed.

(** ** Examples *)

Definition demo_tool : Config :=
  mkConfig "tools" "2.0.0" ∅ {["tool" := mkComponent (Some "service") (Some "region == 'us'") ["base"] ∅ ∅]} ∅ ∅ ∅ ∅ ∅.

Definition demo_json (content : string) : option Config :=
  if decide (content = "{demo}") then Some demo_model else if decide (content = " {tool}") then Some demo_tool else None.

Definition demo_names (p : ChunkPreimage) : list ascii :=
  bytes_of (join_with "," (bt_elements (dom (pi_components p) ∪ dom (pi_definitions p)))).

(** A codec that knows the two chunks: it writes a chunk as its source id. *)
Definition demo_base : IrCodec :=
  {| sha256 := λ bs, bs; preimage_json := λ p, Some (demo_names p);
     content_json := λ c, Some (bytes_of (join_with "," (xc_chunks c)));
     chunk_json := λ c, Some (bytes_of (ik_source_id c)); index_pretty := λ _, []; manifest_pretty := λ _, [];
     parse_chunk := λ _, None |}.

Definition demo_hash (p : Config) : string :=
  match chunk_hash_from_config (H := demo_base) p with Ok h => h | Err _ => "" end.

Definition demo_chunks : list SourceChunk :=
  [mkSourceChunk "demo.json" (demo_hash demo_model) demo_model; mkSourceChunk "tool.json" (demo_hash demo_tool) demo_tool].

Definition demo_codec : IrCodec :=
  {| sha256 := λ bs, bs; preimage_json := λ p, Some (demo_names p);
     content_json := λ c, Some (bytes_of (join_with "," (xc_chunks c)));
     chunk_json := λ c, Some (bytes_of (ik_source_id c)); index_pretty := λ _, []; manifest_pretty := λ _, [];
     parse_chunk := λ bs, written <$> List.find (λ k, bool_decide (sc_source_id k = string_of bs)) demo_chunks |}.

Definition demo_sources : list (string * string) := [("demo.json", "{demo}"); ("tool.json", " {tool}")].
Definition demo_compiler : Compiler :=
  (ingest (H := sorted_order) (H0 := demo_codec) (λ _, None) demo_json demo_sources new_compiler).2.

Lemma demo_ingested :
  ingest (H := sorted_order) (H0 := demo_codec) (λ _, None) demo_json demo_sources new_compiler = (Ok tt, demo_compiler).
Proof. vm_compute. reflexivity. Qed.

Lemma package_complete_witness :
  ∃ i d' cs, emit_ir (H := sorted_order) (H0 := demo_codec) (λ _, true) (λ _, true) demo_compiler "out" ∅ = (Ok i, d') ∧
    verify_index_integrity_loading (H := demo_codec) (H0 := sorted_order) i "out" d' = Ok cs ∧
    cs ≡ₚ (written <$> chunks demo_compiler).
Proof.
  eapply (package_complete sorted_order demo_codec (λ _, None) demo_json (λ _, true) (λ _, true) demo_sources demo_compiler "out" ∅).
  - exact demo_ingested.
  - vm_compute. reflexivity.
  - intros k Hk. assert (E : chunks demo_compiler = demo_chunks) by (vm_compute; reflexivity). rewrite E in Hk.
    exists (bytes_of (sc_source_id k)). unfold demo_chunks in Hk. rewrite !elem_of_cons, elem_of_nil in Hk.
    destruct_or! Hk; subst; (split; vm_compute; reflexivity) || done.
  - intros content. by eexists.
  - reflexivity.
  - reflexivity.
Defined.

Definition demo_reversed : Compiler :=
  (ingest (H := sorted_order) (H0 := demo_codec) (λ _, None) demo_json
     [("b", " {tool}"); ("a", "{demo}")] new_compiler).2.

Definition demo_links (c : Compiler) : list LinkChunk :=
  match link_chunks_of (H0 := demo_codec) c (interface_summaries (H := sorted_order) c) with Ok l => l | Err _ => [] end.

Definition demo_index (c : Compiler) : result ir_error IrIndex := build_package_index (H0 := demo_codec) (demo_links c).

Lemma identity_of_contents_witness :
  ∃ i i', demo_index demo_compiler = Ok i ∧ demo_index demo_reversed = Ok i' ∧ ix_config_hash i = ix_config_hash i'.
Proof.
  assert (Hi : ∃ i, demo_index demo_compiler = Ok i) by (eexists; vm_compute; reflexivity).
  assert (Hi' : ∃ i', demo_index demo_reversed = Ok i') by (eexists; vm_compute; reflexivity).
  destruct Hi as [i Hi], Hi' as [i' Hi']. exists i, i'. split; [exact Hi|]. split; [exact Hi'|].
  refine (identity_of_contents sorted_order sorted_order demo_codec (λ _, None) demo_json demo_sources
    [("b", " {tool}"); ("a", "{demo}")] demo_compiler demo_reversed (demo_links demo_compiler) (demo_links demo_reversed) i i'
    demo_ingested _ _ _ Hi _ Hi').
  - vm_compute. reflexivity.
  - assert (E : contents demo_compiler = [entities_from_config demo_model; entities_from_config demo_tool]) by (vm_compute; reflexivity).
    assert (E' : contents demo_reversed = [entities_from_config demo_tool; entities_from_config demo_model]) by (vm_compute; reflexivity).
    rewrite E, E'. apply Permutation_swap.
  - vm_compute. reflexivity.
  - vm_compute. reflexivity.
Defined.

(** A refused chunk leaves what was merged before the refusal: its definitions
    are in the repository, the chunk is not recorded, and the corrected chunk is
    refused for them. *)
Example refused_chunk_remains :
  let blank := mkParameter None (Some "int") None None None None None None None None None [] in
  let clash := mkConfig "p" "1" {["speed" := blank]} {["base" := demo_app]} ∅ ∅ ∅ ∅ ∅ in
  let fixed := mkConfig "p" "1" {["speed" := blank]} ∅ ∅ ∅ ∅ ∅ ∅ in
  let '(refused, c) := add_parsed_chunk (H := sorted_order) (H0 := demo_codec) "p.json" clash demo_compiler in
  refused = Err (DuplicateId KComponent "base") ∧ chunks c = chunks demo_compiler ∧
  (add_parsed_chunk (H := sorted_order) (H0 := demo_codec) "p.json" fixed c).1 = Err (DuplicateId KDefinition "speed").
Proof. vm_compute. done. Qed.
