(* ===== verification/Object.v ===== *)
(** * Objects

    Models [compiler/src/object.rs], [compiler/src/object_compile.rs],
    [compiler/src/link_lock.rs] and [summarize_ir_chunk] of
    [compiler/src/interface_summary.rs]: one unit's interface as a header with
    its own hash, the compilation of a unit against the headers of others, and
    the pins of a lockfile.

    The JSON of headers and lockfiles is the class [ObjectCodec]. *)
From S2P Require Import Prelude Text Schema InterfaceSummary Resolver LinkVerify Ir Ingest.
Local Open Scope N_scope.

Definition OBJECT_FORMAT_VERSION : N := 1.
Definition OBJECT_HEADER_FILENAME : string := "object.json".

(** ** Data *)

Record ObjectImports : Type := mkObjectImports {
  oi_components : gset string;
  oi_definitions : gset string;
  oi_facets : gset string;
  oi_bindings : gset string;
  oi_catalogues : gset string;
}.

Record InterfaceRef : Type := mkInterfaceRef {
  if_unit : string;
  if_object_hash : string;
}.

Record ObjectHeader : Type := mkHeader {
  oh_format_version : N;
  oh_unit : string;
  oh_chunk_hashes : list string;
  oh_exports : Exports;
  oh_imports : ObjectImports;
  oh_facet_domains : gmap string (list string);
  oh_open_facets : gset string;
  oh_catalogue_entries : gmap string (list string);
  oh_binding_links : gmap string BindingLink;
  oh_requirements : list RequirementLink;
  oh_clauses : list Clause;
  oh_selectors : list Clause;
  oh_interfaces : list InterfaceRef;
  oh_object_hash : string;
}.

#[export] Instance Exports_eq_dec : EqDecision Exports.
Proof. solve_decision. Defined.
#[export] Instance ObjectImports_eq_dec : EqDecision ObjectImports.
Proof. solve_decision. Defined.
#[export] Instance Clause_eq_dec : EqDecision Clause.
Proof. solve_decision. Defined.
#[export] Instance BindingLink_eq_dec : EqDecision BindingLink.
Proof. solve_decision. Defined.
#[export] Instance RequirementLink_eq_dec : EqDecision RequirementLink.
Proof. solve_decision. Defined.
#[export] Instance InterfaceRef_eq_dec : EqDecision InterfaceRef.
Proof. solve_decision. Defined.

(** The header without its hash. *)
Record ObjectHeaderPreimage : Type := mkHeaderPreimage {
  hp_format_version : N;
  hp_unit : string;
  hp_chunk_hashes : list string;
  hp_exports : Exports;
  hp_imports : ObjectImports;
  hp_facet_domains : gmap string (list string);
  hp_open_facets : gset string;
  hp_catalogue_entries : gmap string (list string);
  hp_binding_links : gmap string BindingLink;
  hp_requirements : list RequirementLink;
  hp_clauses : list Clause;
  hp_selectors : list Clause;
  hp_interfaces : list InterfaceRef;
}.

Record LockEntry : Type := mkLockEntry {
  le_object_hash : string;
  le_source : string;
}.

Record LockFile : Type := mkLockFile {
  lf_schema_version : N;
  lf_objects : gmap string LockEntry;
}.

(** [serde_json] for these types; [to_vec_pretty] and [from_slice]. *)
Class ObjectCodec : Type := {
  header_preimage_json : ObjectHeaderPreimage → list ascii;
  header_pretty : ObjectHeader → list ascii;
  parse_header : list ascii → option ObjectHeader;
  lock_pretty : LockFile → list ascii;
  parse_lock : list ascii → option LockFile;
}.

(** ** Building a header *)

(** The ids referenced and not declared. *)
Definition collect_imports (summaries : list InterfaceSummary) (e : Exports) : ObjectImports :=
  let referenced (f : Imports → import_map) : gset string := ⋃ ((λ s, dom (f (is_imports s))) <$> summaries) in
  mkObjectImports
    (filter (λ id, id ∉ ex_components e) (referenced im_components))
    (filter (λ id, id ∉ ex_definitions e) (referenced im_definitions))
    (filter (λ id, id ∉ ex_facets e ∧ id ∉ ex_bindings e) (referenced im_facets))
    (filter (λ id, id ∉ ex_bindings e) (referenced im_bindings))
    (filter (λ id, id ∉ ex_catalogues e) (referenced im_catalogues)).

Definition union_exports (a b : Exports) : Exports :=
  mkExports (ex_definitions a ∪ ex_definitions b) (ex_components a ∪ ex_components b) (ex_artifacts a ∪ ex_artifacts b)
    (ex_facets a ∪ ex_facets b) (ex_bindings a ∪ ex_bindings b) (ex_catalogues a ∪ ex_catalogues b)
    (ex_constraints a ∪ ex_constraints b).

(** [derive(PartialOrd)] on the two fields. *)
Definition interface_le (a b : InterfaceRef) : Prop :=
  match String.compare (if_unit a) (if_unit b) with
  | Lt => True
  | Eq => String.le (if_object_hash a) (if_object_hash b)
  | Gt => False
  end.

#[export] Instance interface_le_dec a b : Decision (interface_le a b).
Proof. unfold interface_le. destruct (String.compare _ _); apply _. Defined.

(** [Vec::dedup]: the first of each run of equals. *)
Fixpoint dedup {A} `{EqDecision A} (l : list A) : list A :=
  match l with
  | x :: ((y :: _) as l') => if decide (x = y) then dedup l' else x :: dedup l'
  | l => l
  end.

Definition header_preimage (h : ObjectHeader) : ObjectHeaderPreimage :=
  mkHeaderPreimage (oh_format_version h) (oh_unit h) (oh_chunk_hashes h) (oh_exports h) (oh_imports h)
    (oh_facet_domains h) (oh_open_facets h) (oh_catalogue_entries h) (oh_binding_links h) (oh_requirements h)
    (oh_clauses h) (oh_selectors h) (oh_interfaces h).

Definition set_object_hash (h : ObjectHeader) (hash : string) : ObjectHeader :=
  mkHeader (oh_format_version h) (oh_unit h) (oh_chunk_hashes h) (oh_exports h) (oh_imports h)
    (oh_facet_domains h) (oh_open_facets h) (oh_catalogue_entries h) (oh_binding_links h) (oh_requirements h)
    (oh_clauses h) (oh_selectors h) (oh_interfaces h) hash.

Section Headers.
Context `{IrCodec} `{ObjectCodec}.

Definition compute_object_hash (h : ObjectHeader) : string := sha256_hex (header_preimage_json (header_preimage h)).

Definition from_summaries (unit : string) (chunk_hashes : list string) (summaries : list InterfaceSummary)
    (interfaces : list InterfaceRef) : ObjectHeader :=
  let exports := foldl (λ e s, union_exports e (is_exports s)) (mkExports ∅ ∅ ∅ ∅ ∅ ∅ ∅) summaries in
  let header :=
    mkHeader OBJECT_FORMAT_VERSION unit chunk_hashes exports (collect_imports summaries exports)
      (foldl (λ m s, keep_first (is_facet_domains s) m) ∅ summaries)
      (foldl (λ o s, o ∪ is_open_facets s) ∅ summaries)
      (foldl (λ m s, keep_first (is_catalogue_entries s) m) ∅ summaries)
      (foldl (λ m s, keep_first (is_binding_links s) m) ∅ summaries)
      (sort_requirements (mjoin (is_requirements <$> summaries)))
      (mjoin (is_clauses <$> summaries)) (mjoin (is_selectors <$> summaries))
      (dedup (merge_sort interface_le interfaces)) String.EmptyString in
  set_object_hash header (compute_object_hash header).

Definition as_interface_ref (h : ObjectHeader) : InterfaceRef := mkInterfaceRef (oh_unit h) (oh_object_hash h).

Definition to_canonical_json (h : ObjectHeader) : list ascii := header_pretty h ++ ["010"%char].

Inductive object_error : Type :=
  | HeaderUnreadable (dir : string)
  | HeaderUnparsable (dir : string)
  | HeaderVersion (dir : string) (version : N)
  | HeaderEdited (dir recomputed recorded : string).

Definition header_path (dir : string) : string := dir +:+ "/" +:+ OBJECT_HEADER_FILENAME.

Definition read_from_dir (d : package_disk) (dir : string) : result object_error ObjectHeader :=
  bytes ← ok_or (mjoin (d !! header_path dir)) (HeaderUnreadable dir);
  h ← ok_or (parse_header bytes) (HeaderUnparsable dir);
  _ ← bail_if (negb (oh_format_version h =? OBJECT_FORMAT_VERSION)) (HeaderVersion dir (oh_format_version h));
  let recomputed := compute_object_hash h in
  _ ← bail_if (negb (bool_decide (recomputed = oh_object_hash h))) (HeaderEdited dir recomputed (oh_object_hash h));
  Ok h.
End Headers.

Inductive HeaderField : Type :=
  FormatVersion | Unit | ChunkHashes | ExportsField | ImportsField | FacetDomains | OpenFacets | CatalogueEntries
  | BindingLinks | Requirements | Clauses | Selectors | Interfaces.

Definition first_difference (a b : ObjectHeader) : option HeaderField :=
  fst <$> List.find (λ fa, negb fa.2)
    [(FormatVersion, oh_format_version a =? oh_format_version b);
     (Unit, bool_decide (oh_unit a = oh_unit b));
     (ChunkHashes, bool_decide (oh_chunk_hashes a = oh_chunk_hashes b));
     (ExportsField, bool_decide (oh_exports a = oh_exports b));
     (ImportsField, bool_decide (oh_imports a = oh_imports b));
     (FacetDomains, bool_decide (oh_facet_domains a = oh_facet_domains b));
     (OpenFacets, bool_decide (oh_open_facets a = oh_open_facets b));
     (CatalogueEntries, bool_decide (oh_catalogue_entries a = oh_catalogue_entries b));
     (BindingLinks, bool_decide (oh_binding_links a = oh_binding_links b));
     (Requirements, bool_decide (oh_requirements a = oh_requirements b));
     (Clauses, bool_decide (oh_clauses a = oh_clauses b));
     (Selectors, bool_decide (oh_selectors a = oh_selectors b));
     (Interfaces, bool_decide (oh_interfaces a = oh_interfaces b))].

(** A chunk's summary; its unit is not recorded in it. *)
Definition summarize_ir_chunk `{HashOrder} (c : IrChunk) : InterfaceSummary :=
  summarize (mkConfig String.EmptyString String.EmptyString (ik_definitions c) (ik_components c) (ik_artifacts c)
    (ik_facets c) (ik_constraints c) (ik_catalogues c) (ik_bindings c)) (ik_source_id c).

(** ** Compiling a unit *)

Inductive compile_object_error : Type :=
  | NoSources
  | UnitMismatch (first first_unit other other_unit : string)
  | IngestFailed (source : string) (e : ingest_error)
  | ObjectNotVerified (e : verify_error).

Definition unit_name (ks : list SourceChunk) : result compile_object_error string :=
  match ks with
  | [] => Err NoSources
  | first :: _ =>
      match List.find (λ k, negb (bool_decide (cf_package (sc_config k) = cf_package (sc_config first)))) ks with
      | Some k => Err (UnitMismatch (sc_source_id first) (cf_package (sc_config first)) (sc_source_id k) (cf_package (sc_config k)))
      | None => Ok (cf_package (sc_config first))
      end
  end.

Record ExternalDeclarations : Type := mkExternal {
  xd_facet_domains : gmap string (list string);
  xd_catalogue_entries : gmap string (list string);
  xd_binding_links : gmap string BindingLink;
}.

Definition from_headers (headers : list ObjectHeader) : ExternalDeclarations :=
  foldl (λ x h, mkExternal (keep_first (oh_facet_domains h) (xd_facet_domains x))
                  (keep_first (oh_catalogue_entries h) (xd_catalogue_entries x))
                  (keep_first (oh_binding_links h) (xd_binding_links x))) (mkExternal ∅ ∅ ∅) headers.

(** An interface's facets, all of them as closed ones; a binding replaces a
    facet of its name. *)
Definition external_facets (x : ExternalDeclarations) : gmap string Facet :=
  omap (λ link, (λ entries, mkFacet entries (bl_default link) false None) <$> xd_catalogue_entries x !! bl_catalogue link)
    (xd_binding_links x) ∪ ((λ values, mkFacet values None false None) <$> xd_facet_domains x).

Definition add_external (x : ExternalDeclarations) (m : MergedSummary) : MergedSummary :=
  mkMerged (ms_units m) (ms_exports m) (ms_imports m) (keep_first (xd_facet_domains x) (ms_facet_domains m))
    (ms_open_facets m) (keep_first (xd_catalogue_entries x) (ms_catalogue_entries m))
    (keep_first (xd_binding_links x) (ms_binding_links m)) (ms_requirements m) (ms_clauses m) (ms_selectors m).

Definition verify_object `{HashOrder} (repo : Config) (summaries : list InterfaceSummary) (x : ExternalDeclarations)
    : verified :=
  _ ← validate_definition_inheritance_scoped (definitions repo) UnitLocal;
  _ ← validate_component_dependencies_scoped (components repo) UnitLocal;
  _ ← validate_catalogues (catalogues repo);
  _ ← validate_parameter_values (definitions repo) (components repo);
  _ ← validate_object_summary (add_external x (merge summaries));
  let declared := facets repo ∪ (binding_facets (catalogues repo) (bindings repo) ∪ external_facets x) in
  _ ← validate_facets declared (components repo) (definitions repo);
  _ ← validate_constraints_scoped (constraints repo) declared UnitLocal;
  validate_facet_bindings_scoped (components repo) declared UnitLocal.

Definition source_chunk_le (a b : SourceChunk) : Prop := String.le (sc_chunk_hash a) (sc_chunk_hash b).

#[export] Instance source_chunk_le_dec a b : Decision (source_chunk_le a b).
Proof. unfold source_chunk_le. apply _. Defined.

Section CompileObject.
Context `{HashOrder} `{IrCodec} `{ObjectCodec}.
Context (toml_from_str json_from_str : string → option Config).

(** Ingesting the sources, with the source an error belongs to. *)
Fixpoint ingest_object (sources : list (string * string)) (c : Compiler) : result compile_object_error Compiler :=
  match sources with
  | [] => Ok c
  | (source_id, content) :: sources =>
      match add_chunk_auto toml_from_str json_from_str source_id content c with
      | (Ok _, c) => ingest_object sources c
      | (Err e, _) => Err (IngestFailed source_id e)
      end
  end.

(** The header of a unit, before anything is written. *)
Definition compile_object (sources : list (string * string)) (interfaces : list ObjectHeader)
    : result compile_object_error ObjectHeader :=
  c ← ingest_object sources new_compiler;
  unit ← unit_name (chunks c);
  let external := from_headers interfaces in
  let ordered := merge_sort source_chunk_le (chunks c) in
  let summaries := (λ k, summarize (sc_config k) (sc_source_id k)) <$> ordered in
  _ ← map_err ObjectNotVerified (verify_object (repository c) summaries external);
  Ok (from_summaries unit (sc_chunk_hash <$> ordered) summaries (as_interface_ref <$> interfaces)).
End CompileObject.

(** ** Lockfiles *)

Definition LOCK_SCHEMA_VERSION : N := 1.

Inductive lock_error : Type :=
  | LockUnreadable
  | LockUnparsable
  | LockVersion (version : N)
  | LockUnitName (unit : string)
  | LockMismatch (unit pinned linked : string)
  | LockUnpinned (unit linked : string)
  | LockUnlinked (unit : string)
  | LockDiffers
  | LockWriteFailed.

(** The loop of [check_unit_name]: no two underscores in a row. *)
Fixpoint unit_loop (previous_was_underscore : bool) (l : list ascii) : bool :=
  match l with
  | [] => true
  | b :: l =>
      if is_ascii_lowercase b || is_ascii_digit b then unit_loop false l
      else if Ascii.eqb b "_"%char then if previous_was_underscore then false else unit_loop true l
      else false
  end.

Definition check_unit_name (unit : string) : bool :=
  match bytes_of unit with
  | [] => false
  | b :: l => is_ascii_lowercase b && unit_loop false l
  end.

Section Lock.
Context `{ObjectCodec}.

Definition read_lock (d : package_disk) (path : string) : result lock_error LockFile :=
  bytes ← ok_or (mjoin (d !! path)) LockUnreadable;
  lock ← ok_or (parse_lock bytes) LockUnparsable;
  _ ← bail_if (negb (lf_schema_version lock =? LOCK_SCHEMA_VERSION)) (LockVersion (lf_schema_version lock));
  _ ← for_each (λ ue, bail_if (negb (check_unit_name ue.1)) (LockUnitName ue.1)) (bt_list (lf_objects lock));
  Ok lock.

(** Pairs in tuple order, which is how the headers' references are ordered. *)
Definition check_lock (lock : LockFile) (headers : list ObjectHeader) (allow_extra : bool) : result lock_error unit :=
  let linked := merge_sort interface_le (as_interface_ref <$> headers) in
  _ ← for_each (λ r,
        match lf_objects lock !! if_unit r with
        | Some entry => bail_if (negb (bool_decide (le_object_hash entry = if_object_hash r)))
                          (LockMismatch (if_unit r) (le_object_hash entry) (if_object_hash r))
        | None => Err (LockUnpinned (if_unit r) (if_object_hash r))
        end) linked;
  if allow_extra then Ok tt
  else
    let present : gset string := list_to_set (if_unit <$> linked) in
    for_each (λ ue, bail_if (negb (bool_decide (ue.1 ∈ present))) (LockUnlinked ue.1)) (bt_list (lf_objects lock)).

Definition lock_of (headers : list ObjectHeader) (sources : gmap string string) : LockFile :=
  mkLockFile LOCK_SCHEMA_VERSION
    (foldl (λ m h, <[oh_unit h := mkLockEntry (oh_object_hash h) (default String.EmptyString (sources !! oh_unit h))]> m) ∅ headers).

Definition lock_bytes (headers : list ObjectHeader) (sources : gmap string string) : list ascii :=
  lock_pretty (lock_of headers sources) ++ ["010"%char].

Definition write_lock (writable : string → bool) (path : string) (headers : list ObjectHeader) (sources : gmap string string)
    (force : bool) (d : package_disk) : result lock_error unit * package_disk :=
  let bytes := lock_bytes headers sources in
  let write := if writable path then (Ok tt, <[path := Some bytes]> d) else (Err LockWriteFailed, d) in
  match d !! path with
  | Some existing =>
      if force then write
      else
        match existing with
        | None => (Err LockUnreadable, d)
        | Some existing => if decide (existing = bytes) then write else (Err LockDiffers, d)
        end
  | None => write
  end.
End Lock.
