(* ===== verification/Link.v ===== *)
(** * Linking

    Models [compiler/src/link.rs] and [compiler/src/link_load.rs]: the checks
    that are answered from object headers alone, the merged summary the
    constraint model is built from, and the reading of the chunk files with the
    check that a header says what they say.  [compile] runs the same stages over
    headers made in memory, one per unit. *)
From S2P Require Import Prelude Emitter Text Schema InterfaceSummary Resolver LinkVerify Lowering Ir Ingest Object.
Local Open Scope N_scope.

Inductive ImportKind : Type := IComponent | IDefinition | IBinding | ICatalogue.

Inductive link_error : Type :=
  | LinkDuplicateUnit (unit hash1 hash2 : string)
  | LinkDuplicateId (kind : DeclKind) (id unit1 unit2 : string)
  | LinkUnresolvedImport (kind : ImportKind) (unit id : string)
  | LinkInterfaceMismatch (unit interface compiled_against linked : string)
  | LinkInvalid (e : verify_error)
  | ObjectCorrupt (e : object_error)
  | ChunkCorrupt (unit hash : string) (e : ir_error)
  | HeaderDiffers (unit : string) (field : option HeaderField)
  | HeaderOmits (unit : string) (kind : DeclKind) (id : string)
  | HeaderInvents (unit : string) (kind : DeclKind) (id : string).

(** ** In-memory objects *)

Section InMemory.
Context `{IrCodec} `{ObjectCodec}.

(** The rows of a unit, in chunk order. *)
Definition unit_rows (rows : list (SourceChunk * InterfaceSummary)) (unit : string) : list (string * InterfaceSummary) :=
  (λ ks, (sc_chunk_hash ks.1, ks.2)) <$> filter (λ ks, cf_package (sc_config ks.1) = unit) rows.

Definition row_le (a b : string * InterfaceSummary) : Prop := String.le a.1 b.1.

#[export] Instance row_le_dec a b : Decision (row_le a b).
Proof. unfold row_le. apply _. Defined.

Definition unit_header (rows : list (SourceChunk * InterfaceSummary)) (unit : string) : ObjectHeader :=
  let sorted := merge_sort row_le (unit_rows rows unit) in
  from_summaries unit (fst <$> sorted) (snd <$> sorted) [].

Definition in_memory_headers (chunks : list SourceChunk) (summaries : list InterfaceSummary) : list ObjectHeader :=
  let rows := combine chunks summaries in
  let units : gset string := list_to_set ((λ ks, cf_package (sc_config ks.1)) <$> rows) in
  unit_header rows <$> bt_elements units.
End InMemory.

(** ** Stage 1 *)

Definition unit_le (a b : ObjectHeader) : Prop := String.le (oh_unit a) (oh_unit b).

#[export] Instance unit_le_dec a b : Decision (unit_le a b).
Proof. unfold unit_le. apply _. Defined.

(** [windows(2)]. *)
Fixpoint check_adjacent (l : list ObjectHeader) : result link_error unit :=
  match l with
  | a :: ((b :: _) as l') =>
      _ ← bail_if (bool_decide (oh_unit a = oh_unit b)) (LinkDuplicateUnit (oh_unit a) (oh_object_hash a) (oh_object_hash b));
      check_adjacent l'
  | _ => Ok tt
  end.

Definition order_objects (headers : list ObjectHeader) : result link_error (list ObjectHeader) :=
  let ordered := merge_sort unit_le headers in
  _ ← check_adjacent ordered;
  Ok ordered.

Definition declare (index : export_map) (ids : gset string) (unit : string) : export_map :=
  foldl (λ index id, <[id := default [] (index !! id) ++ [unit]]> index) index (bt_elements ids).

Definition import_ids (index : import_map) (ids : gset string) (unit : string) : import_map :=
  foldl (λ index id, <[id := {[unit]} ∪ default ∅ (index !! id)]> index) index (bt_elements ids).

Definition merge_header (m : MergedSummary) (h : ObjectHeader) : MergedSummary :=
  let x := ms_exports m in
  let e := oh_exports h in
  let i := ms_imports m in
  let j := oh_imports h in
  let unit := oh_unit h in
  mkMerged ({[unit]} ∪ ms_units m)
    (mkMergedExports (declare (mx_definitions x) (ex_definitions e) unit) (declare (mx_components x) (ex_components e) unit)
       (declare (mx_artifacts x) (ex_artifacts e) unit) (declare (mx_facets x) (ex_facets e) unit)
       (declare (mx_bindings x) (ex_bindings e) unit) (declare (mx_catalogues x) (ex_catalogues e) unit)
       (declare (mx_constraints x) (ex_constraints e) unit))
    (mkImports (import_ids (im_components i) (oi_components j) unit) (import_ids (im_definitions i) (oi_definitions j) unit)
       (import_ids (im_facets i) (oi_facets j) unit) (import_ids (im_bindings i) (oi_bindings j) unit)
       (import_ids (im_catalogues i) (oi_catalogues j) unit))
    (keep_first (oh_facet_domains h) (ms_facet_domains m))
    (ms_open_facets m ∪ oh_open_facets h)
    (keep_first (oh_catalogue_entries h) (ms_catalogue_entries m))
    (keep_first (oh_binding_links h) (ms_binding_links m))
    (ms_requirements m ++ oh_requirements h) (ms_clauses m ++ oh_clauses h) (ms_selectors m ++ oh_selectors h).

Definition merge_headers (ordered : list ObjectHeader) : MergedSummary :=
  let m := foldl merge_header empty_merged ordered in
  mkMerged (ms_units m) (ms_exports m) (ms_imports m) (ms_facet_domains m) (ms_open_facets m)
    (ms_catalogue_entries m) (ms_binding_links m) (sort_requirements (ms_requirements m))
    (sort_clauses (ms_clauses m)) (ms_selectors m).

Definition check_once (ki : DeclKind * export_map) : result link_error unit :=
  for_each (λ iu,
    match iu.2 with
    | unit1 :: unit2 :: _ => Err (LinkDuplicateId ki.1 iu.1 unit1 unit2)
    | _ => Ok tt
    end) (bt_list ki.2).

Definition export_namespaces (x : MergedExports) : list (DeclKind * export_map) :=
  [(KDefinition, mx_definitions x); (KComponent, mx_components x); (KArtifact, mx_artifacts x); (KFacet, mx_facets x);
   (KBinding, mx_bindings x); (KCatalogue, mx_catalogues x); (KConstraint, mx_constraints x)].

Definition check_duplicate_ids (m : MergedSummary) : result link_error unit :=
  for_each check_once (export_namespaces (ms_exports m)).

Definition obligations (m : MergedSummary) : list (ImportKind * import_map * export_map) :=
  [(IComponent, im_components (ms_imports m), mx_components (ms_exports m));
   (IDefinition, im_definitions (ms_imports m), mx_definitions (ms_exports m));
   (IBinding, im_bindings (ms_imports m), mx_bindings (ms_exports m));
   (ICatalogue, im_catalogues (ms_imports m), mx_catalogues (ms_exports m))].

Definition check_provided (o : ImportKind * import_map * export_map) : result link_error unit :=
  let '(kind, imports, exports) := o in
  for_each (λ ii,
    bail_if (negb (bool_decide (is_Some (exports !! ii.1))))
      (LinkUnresolvedImport kind (default "<unknown>" (head (bt_elements ii.2))) ii.1)) (bt_list imports).

Definition check_unresolved_imports (m : MergedSummary) : result link_error unit := for_each check_provided (obligations m).

Definition check_reference (linked : gmap string string) (owner : string) (r : InterfaceRef) : result link_error unit :=
  match linked !! if_unit r with
  | None => Ok tt
  | Some hash => bail_if (negb (bool_decide (hash = if_object_hash r)))
                   (LinkInterfaceMismatch owner (if_unit r) (if_object_hash r) hash)
  end.

Definition check_interface_hashes (ordered : list ObjectHeader) : result link_error unit :=
  let linked : gmap string string := foldl (λ m h, <[oh_unit h := oh_object_hash h]> m) ∅ ordered in
  for_each (λ h, for_each (check_reference linked (oh_unit h)) (oh_interfaces h)) ordered.

Definition link_stage_headers (headers : list ObjectHeader) : result link_error MergedSummary :=
  ordered ← order_objects headers;
  let merged := merge_headers ordered in
  _ ← check_duplicate_ids merged;
  _ ← check_unresolved_imports merged;
  _ ← check_interface_hashes ordered;
  _ ← map_err LinkInvalid (validate_linked_summary merged);
  Ok merged.

Definition link_stage_model (model_hash : string) (m : MergedSummary) : ConditionModel :=
  condition_model_from_summary model_hash m.

(** ** Reading the objects *)

Section Load.
Context `{IrCodec} `{ObjectCodec} `{HashOrder}.

Definition read_headers (d : package_disk) (dirs : list string) : result link_error (list ObjectHeader) :=
  collect_results (λ dir, map_err ObjectCorrupt (read_from_dir d dir)) dirs.

Definition read_chunk (d : package_disk) (dir unit chunk_hash : string) : result link_error (IrChunk * list ascii) :=
  map_err (ChunkCorrupt unit chunk_hash) (
    bytes ← ok_or (mjoin (d !! chunk_path dir chunk_hash)) (ChunkUnreadable chunk_hash);
    parsed ← ok_or (parse_chunk bytes) (ChunkUnparsable chunk_hash);
    _ ← bail_if (negb (ik_format_version parsed =? IR_FORMAT_VERSION)) (UnsupportedFormat chunk_hash (ik_format_version parsed));
    _ ← bail_if (negb (bool_decide (ik_chunk_hash parsed = chunk_hash))) (ChunkHashMismatch chunk_hash (ik_chunk_hash parsed));
    recomputed ← chunk_hash_of_chunk parsed;
    _ ← bail_if (negb (bool_decide (recomputed = chunk_hash))) (ChunkContentAddressMismatch chunk_hash recomputed);
    Ok (parsed, bytes)).

Definition chunk_exports (c : IrChunk) : Exports :=
  mkExports (dom (ik_definitions c)) (dom (ik_components c)) (dom (ik_artifacts c)) (dom (ik_facets c)) (dom (ik_bindings c))
    (dom (ik_catalogues c)) (dom (ik_constraints c)).

Definition check_declares (owner : string) (declared header : Exports) : result link_error unit :=
  for_each (λ kfl,
    let '(kind, found, listed) := (kfl : DeclKind * gset string * gset string) in
    match bt_elements (found ∖ listed) with
    | id :: _ => Err (HeaderOmits owner kind id)
    | [] =>
        match bt_elements (listed ∖ found) with
        | id :: _ => Err (HeaderInvents owner kind id)
        | [] => Ok tt
        end
    end)
    [(KDefinition, ex_definitions declared, ex_definitions header); (KComponent, ex_components declared, ex_components header);
     (KArtifact, ex_artifacts declared, ex_artifacts header); (KFacet, ex_facets declared, ex_facets header);
     (KConstraint, ex_constraints declared, ex_constraints header); (KCatalogue, ex_catalogues declared, ex_catalogues header);
     (KBinding, ex_bindings declared, ex_bindings header)].

Definition check_header_matches_bodies (h : ObjectHeader) (summaries : list InterfaceSummary) : result link_error unit :=
  let expected := from_summaries (oh_unit h) (oh_chunk_hashes h) summaries (oh_interfaces h) in
  if decide (oh_object_hash expected = oh_object_hash h) then Ok tt
  else
    let field := first_difference expected h in
    _ ← match field with
        | Some ExportsField => check_declares (oh_unit h) (oh_exports expected) (oh_exports h)
        | _ => Ok tt
        end;
    Err (HeaderDiffers (oh_unit h) field).

(** [insert] of every entry: a later chunk replaces an earlier one. *)
Definition merge_into (r : Config) (c : IrChunk) : Config :=
  mkConfig (cf_package r) (cf_version r) (ik_definitions c ∪ definitions r) (ik_components c ∪ components r)
    (ik_artifacts c ∪ artifacts r) (ik_facets c ∪ facets r) (ik_constraints c ∪ constraints r)
    (ik_catalogues c ∪ catalogues r) (ik_bindings c ∪ bindings r).

Record LinkedModel : Type := mkLinkedModel {
  lm_chunks : list LinkChunk;
  lm_repository : Config;
  lm_summaries : list InterfaceSummary;
}.

Definition load_chunk_of (d : package_disk) (dir unit : string) (m : LinkedModel) (chunk_hash : string)
    : result link_error LinkedModel :=
  '(parsed, bytes) ← read_chunk d dir unit chunk_hash;
  Ok (mkLinkedModel (lm_chunks m ++ [mkLinkChunk chunk_hash (ik_source_id parsed) (chunk_exports parsed) bytes])
        (merge_into (lm_repository m) parsed) (lm_summaries m ++ [summarize_ir_chunk parsed])).

(** A loop that threads a value and stops at the first error. *)
Fixpoint try_fold {E A B} (f : B → A → result E B) (b : B) (l : list A) : result E B :=
  match l with
  | [] => Ok b
  | a :: l => b ← f b a; try_fold f b l
  end.

Definition load_object (d : package_disk) (m : LinkedModel) (dh : string * ObjectHeader) : result link_error LinkedModel :=
  let '(dir, h) := dh in
  let unit_summaries_from := length (lm_summaries m) in
  m ← try_fold (load_chunk_of d dir (oh_unit h)) m (oh_chunk_hashes h);
  _ ← check_header_matches_bodies h (drop unit_summaries_from (lm_summaries m));
  Ok m.

Definition load_chunks (d : package_disk) (dirs : list string) (headers : list ObjectHeader) : result link_error LinkedModel :=
  try_fold (load_object d)
    (mkLinkedModel [] (mkConfig String.EmptyString String.EmptyString ∅ ∅ ∅ ∅ ∅ ∅ ∅) []) (combine dirs headers).
End Load.
