(* ===== verification/LinkProps.v ===== *)
(** * What a link accepts

    The theorems about [Object.v] and [Link.v]: the header stage accepts exactly
    the sets of objects in which units and ids are declared once, imports are
    provided and interfaces are the ones compiled against, in whatever order the
    objects are given; a lock pins exactly the set it was written for; and a
    loaded object's header says what its chunk files say. *)
From S2P Require Import Prelude Text Schema InterfaceSummary Resolver ResolverProps LinkVerify LinkGraph LinkVerifyProps.
From S2P Require Import Lowering SummaryProps Ir IrProps Ingest IngestProps Object Link.

(** ** Orders *)

#[export] Instance unit_le_total : Total unit_le.
Proof. intros a b. unfold unit_le. apply (total String.le). Qed.
#[export] Instance unit_le_trans : Transitive unit_le.
Proof. intros a b c. unfold unit_le. apply (transitivity (R := String.le)). Qed.

(** Sorting by distinct units gives one list. *)
Lemma sorted_units_unique hs hs' :
  hs ≡ₚ hs' → NoDup (oh_unit <$> hs) → merge_sort unit_le hs = merge_sort unit_le hs'.
Proof.
  intros Hp Hnd. apply (Sorted_unique_strong unit_le).
  - intros a b Ha Hb H1 H2. rewrite (merge_sort_Permutation unit_le) in Ha, Hb. rewrite <-Hp in Hb.
    assert (Hu : oh_unit a = oh_unit b) by (by apply (anti_symm String.le)).
    apply list_elem_of_lookup in Ha as [i Ha], Hb as [j Hb]. assert (i = j) as <-; [|congruence].
    eapply (NoDup_lookup _ _ _ (oh_unit a) Hnd); rewrite list_lookup_fmap, ?Ha, ?Hb; [done|]. cbn. by rewrite Hu.
  - apply Sorted_merge_sort, _.
  - apply Sorted_merge_sort, _.
  - by rewrite !(merge_sort_Permutation unit_le).
Qed.

Lemma check_adjacent_cons a b l :
  check_adjacent (a :: b :: l) =
  (_ ← bail_if (bool_decide (oh_unit a = oh_unit b)) (LinkDuplicateUnit (oh_unit a) (oh_object_hash a) (oh_object_hash b));
   check_adjacent (b :: l)).
Proof. reflexivity. Qed.

Lemma check_adjacent_Ok l : Sorted unit_le l → check_adjacent l = Ok tt ↔ NoDup (oh_unit <$> l).
Proof.
  intros Hs%Sorted_StronglySorted; [|apply _]. induction Hs as [|a l Hs IH Ha]; [split; [constructor|done]|].
  destruct l as [|b l]; [split; [intros _; apply NoDup_singleton|done]|]. rewrite check_adjacent_cons, bail_bind, IH.
  change (oh_unit <$> a :: b :: l) with (oh_unit a :: (oh_unit <$> b :: l)). rewrite NoDup_cons, bool_decide_eq_false.
  split; intros [H1 H2]; (split; [|done]).
  - intros (c & Hc & Hin)%list_elem_of_fmap. rewrite Forall_forall in Ha. apply elem_of_cons in Hin as Hin'.
    destruct Hin' as [->|Hin']; [done|]. inversion Hs as [|? ? _ Hb]; subst. rewrite Forall_forall in Hb.
    apply H1. apply (anti_symm String.le); [apply Ha; constructor|]. rewrite Hc. by apply Hb.
  - intros Hab. apply H1. rewrite Hab. constructor.
Qed.

Lemma order_objects_Ok hs ordered :
  order_objects hs = Ok ordered ↔ NoDup (oh_unit <$> hs) ∧ ordered = merge_sort unit_le hs.
Proof.
  unfold order_objects. rewrite bind_Ok.
  assert (Hs : Sorted unit_le (merge_sort unit_le hs)) by apply Sorted_merge_sort, _.
  assert (Hnd : NoDup (oh_unit <$> merge_sort unit_le hs) ↔ NoDup (oh_unit <$> hs)) by (by rewrite (merge_sort_Permutation unit_le)).
  split.
  - intros ([] & Hc & [= <-]). apply check_adjacent_Ok in Hc; [|done]. split; [by apply Hnd|done].
  - intros [Hu ->]. exists tt. split; [|done]. apply check_adjacent_Ok; [done|]. by apply Hnd.
Qed.

(** ** Merged exports and imports *)

(** The units that declare an id, in order. *)
Definition declarers (f : ObjectHeader → gset string) (hs : list ObjectHeader) (id : string) : list string :=
  oh_unit <$> filter (λ h, id ∈ f h) hs.

Lemma declare_lookup index ids unit id :
  declare index ids unit !! id = if decide (id ∈ ids) then Some (default [] (index !! id) ++ [unit]) else index !! id.
Proof.
  unfold declare. rewrite <-(decide_ext (id ∈ bt_elements ids) (id ∈ ids)) by apply elem_of_bt_elements.
  pose proof (NoDup_bt_elements ids) as Hnd. revert index. induction (bt_elements ids) as [|x l IH]; intros index; cbn [foldl].
  { rewrite decide_False; [done|]. apply not_elem_of_nil. }
  apply NoDup_cons in Hnd as [Hni Hnd]. rewrite IH by done. destruct (decide (id = x)) as [->|Hne].
  - rewrite decide_False by done. rewrite decide_True by constructor. by rewrite lookup_insert_eq.
  - rewrite !lookup_insert_ne by done. apply decide_ext. rewrite elem_of_cons. naive_solver.
Qed.

Lemma foldl_declare (f : ObjectHeader → gset string) hs index id :
  foldl (λ m h, declare m (f h) (oh_unit h)) index hs !! id =
  match declarers f hs id with
  | [] => index !! id
  | us => Some (default [] (index !! id) ++ us)
  end.
Proof.
  revert index. induction hs as [|h hs IH]; intros index; cbn [foldl]; [done|]. rewrite IH, declare_lookup. unfold declarers.
  rewrite filter_cons. case_decide as Hin; [|done]. cbn. destruct (oh_unit <$> filter _ hs); [done|].
  by rewrite <-(assoc_L (++)).
Qed.

Lemma import_ids_dom index ids unit : dom (import_ids index ids unit) = dom index ∪ ids.
Proof.
  unfold import_ids. assert (Hl : ∀ l (m : import_map), dom (foldl (λ index id, <[id := {[unit]} ∪ default ∅ (index !! id)]> index) m l)
    = dom m ∪ list_to_set l).
  { induction l as [|x l IH]; intros m; cbn [foldl list_to_set]; [set_solver|]. rewrite IH, dom_insert_L. set_solver. }
  rewrite Hl. f_equal. apply set_eq. intros x. by rewrite elem_of_list_to_set, elem_of_bt_elements.
Qed.

Definition export_field (kind : DeclKind) (e : Exports) : gset string :=
  match kind with
  | KDefinition => ex_definitions e
  | KArtifact => ex_artifacts e
  | KComponent => ex_components e
  | KFacet => ex_facets e
  | KConstraint => ex_constraints e
  | KCatalogue => ex_catalogues e
  | KBinding => ex_bindings e
  end.

Definition merged_field (kind : DeclKind) (x : MergedExports) : export_map :=
  match kind with
  | KDefinition => mx_definitions x
  | KArtifact => mx_artifacts x
  | KComponent => mx_components x
  | KFacet => mx_facets x
  | KConstraint => mx_constraints x
  | KCatalogue => mx_catalogues x
  | KBinding => mx_bindings x
  end.

Definition import_field (kind : ImportKind) (i : ObjectImports) : gset string :=
  match kind with
  | IComponent => oi_components i
  | IDefinition => oi_definitions i
  | IBinding => oi_bindings i
  | ICatalogue => oi_catalogues i
  end.

Definition merged_import (kind : ImportKind) (i : Imports) : import_map :=
  match kind with
  | IComponent => im_components i
  | IDefinition => im_definitions i
  | IBinding => im_bindings i
  | ICatalogue => im_catalogues i
  end.

Definition provider (kind : ImportKind) : DeclKind :=
  match kind with IComponent => KComponent | IDefinition => KDefinition | IBinding => KBinding | ICatalogue => KCatalogue end.

Lemma merged_exports_fold kind hs m :
  merged_field kind (ms_exports (foldl merge_header m hs)) =
  foldl (λ x h, declare x (export_field kind (oh_exports h)) (oh_unit h)) (merged_field kind (ms_exports m)) hs.
Proof. revert m. induction hs as [|h hs IH]; intros m; cbn [foldl]; [done|]. rewrite IH. by destruct kind. Qed.

Lemma merged_exports_lookup kind hs id :
  merged_field kind (ms_exports (merge_headers hs)) !! id =
  match declarers (λ h, export_field kind (oh_exports h)) hs id with [] => None | us => Some us end.
Proof.
  change (ms_exports (merge_headers hs)) with (ms_exports (foldl merge_header empty_merged hs)).
  rewrite merged_exports_fold, (foldl_declare (λ h, export_field kind (oh_exports h))).
  assert (E : merged_field kind (ms_exports empty_merged) !! id = None) by (by destruct kind; apply lookup_empty).
  rewrite E. by destruct (declarers _ hs id).
Qed.

Lemma merged_imports_dom kind hs :
  dom (merged_import kind (ms_imports (merge_headers hs))) = ⋃ ((λ h, import_field kind (oh_imports h)) <$> hs).
Proof.
  change (ms_imports (merge_headers hs)) with (ms_imports (foldl merge_header empty_merged hs)).
  assert (Hl : ∀ m, dom (merged_import kind (ms_imports (foldl merge_header m hs))) =
    dom (merged_import kind (ms_imports m)) ∪ ⋃ ((λ h, import_field kind (oh_imports h)) <$> hs)).
  { induction hs as [|h hs IH]; intros m; cbn [foldl fmap list_fmap union_list foldr]; [set_solver|].
    rewrite IH. assert (E : dom (merged_import kind (ms_imports (merge_header m h))) =
      dom (merged_import kind (ms_imports m)) ∪ import_field kind (oh_imports h)) by (destruct kind; apply import_ids_dom).
    rewrite E. set_solver. }
  rewrite Hl. assert (E : dom (merged_import kind (ms_imports empty_merged)) = ∅) by (destruct kind; apply dom_empty_L).
  rewrite E. set_solver.
Qed.

(** ** The header stage *)

(** A set of objects that fit together. *)
Record linkable (hs : list ObjectHeader) : Prop := {
  lk_units : NoDup (oh_unit <$> hs);
  lk_once : ∀ kind h h' id, h ∈ hs → h' ∈ hs → id ∈ export_field kind (oh_exports h) →
    id ∈ export_field kind (oh_exports h') → h = h';
  lk_provided : ∀ kind h id, h ∈ hs → id ∈ import_field kind (oh_imports h) →
    ∃ h', h' ∈ hs ∧ id ∈ export_field (provider kind) (oh_exports h');
  lk_interfaces : ∀ h r h', h ∈ hs → r ∈ oh_interfaces h → h' ∈ hs → oh_unit h' = if_unit r →
    oh_object_hash h' = if_object_hash r;
}.

Lemma linkable_perm hs hs' : hs ≡ₚ hs' → linkable hs → linkable hs'.
Proof.
  intros Hp [Hu Ho Hpr Hi]. split.
  - by rewrite <-Hp.
  - intros kind h h' id. rewrite <-!Hp. apply Ho.
  - intros kind h id. setoid_rewrite <-Hp. apply Hpr.
  - intros h r h'. rewrite <-!Hp. apply Hi.
Qed.

(** At most one element of a list without duplicates satisfies [P]. *)
Lemma filter_at_most_one {A} (P : A → Prop) `{∀ x, Decision (P x)} (l : list A) :
  NoDup l → (match filter P l with _ :: _ :: _ => False | _ => True end) ↔ ∀ x y, x ∈ l → y ∈ l → P x → P y → x = y.
Proof.
  intros Hnd. assert (Hf : ∀ x, x ∈ filter P l ↔ P x ∧ x ∈ l) by (intros; apply list_elem_of_filter).
  assert (Hn : NoDup (filter P l)) by (by apply NoDup_filter). destruct (filter P l) as [|a [|b k]] eqn:E.
  - split; [|done]. intros _ x y Hx _ Px _. exfalso. apply (not_elem_of_nil x). apply Hf. done.
  - split; [|done]. intros _ x y Hx Hy Px Py. rewrite (proj1 (list_elem_of_singleton x a)), (proj1 (list_elem_of_singleton y a)); [done|by apply Hf..].
  - split; [done|]. intros Hall. apply NoDup_cons in Hn as [Hni _]. apply Hni.
    destruct (proj1 (Hf a)) as [Pa Ha]; [constructor|]. destruct (proj1 (Hf b)) as [Pb Hb]; [repeat constructor|].
    rewrite (Hall a b) by done. constructor.
Qed.

Lemma check_duplicate_ids_Ok hs :
  NoDup hs → check_duplicate_ids (merge_headers hs) = Ok tt ↔
  ∀ kind h h' id, h ∈ hs → h' ∈ hs → id ∈ export_field kind (oh_exports h) → id ∈ export_field kind (oh_exports h') → h = h'.
Proof.
  intros Hnd. unfold check_duplicate_ids. rewrite for_each_Ok.
  assert (Hk : ∀ kind, check_once (kind, merged_field kind (ms_exports (merge_headers hs))) = Ok tt ↔
    ∀ h h' id, h ∈ hs → h' ∈ hs → id ∈ export_field kind (oh_exports h) → id ∈ export_field kind (oh_exports h') → h = h').
  { intros kind. unfold check_once. cbn [fst snd]. rewrite for_each_Ok.
    assert (Hid : ∀ id, (match declarers (λ h, export_field kind (oh_exports h)) hs id with _ :: _ :: _ => False | _ => True end) ↔
      ∀ h h', h ∈ hs → h' ∈ hs → id ∈ export_field kind (oh_exports h) → id ∈ export_field kind (oh_exports h') → h = h').
    { intros id. rewrite <-(filter_at_most_one (λ h, id ∈ export_field kind (oh_exports h)) hs Hnd). unfold declarers.
      by destruct (filter _ hs) as [|? [|? ?]]. }
    split.
    - intros Hall h h' id Hh Hh' Hi Hi'. apply (proj1 (Hid id)); [|done..].
      pose proof (merged_exports_lookup kind hs id) as E. destruct (declarers _ hs id) as [|u [|u' us]]; [done..|].
      specialize (Hall (id, u :: u' :: us)). cbn in Hall. discriminate Hall. by apply elem_bt_list.
    - intros Hall [id us] Hin%elem_bt_list. cbn. rewrite merged_exports_lookup in Hin.
      assert (Hx : match declarers (λ h, export_field kind (oh_exports h)) hs id with _ :: _ :: _ => False | _ => True end)
        by (apply Hid; intros; by eapply Hall). destruct (declarers _ hs id) as [|u [|u' us']]; [done|by injection Hin as <-|done]. }
  unfold export_namespaces. split.
  - intros Hall kind. apply Hk, Hall. destruct kind; cbn; set_solver.
  - intros Hall [kind index] Hin. assert (E : index = merged_field kind (ms_exports (merge_headers hs))).
    { rewrite !elem_of_cons, elem_of_nil in Hin. by destruct_or! Hin; simplify_eq. }
    subst index. apply Hk. intros h h' id. apply Hall.
Qed.

Lemma declarers_elem f hs id : declarers f hs id ≠ [] ↔ ∃ h, h ∈ hs ∧ id ∈ f h.
Proof.
  unfold declarers. split.
  - intros Hne. destruct (filter (λ h, id ∈ f h) hs) as [|h l] eqn:E; [done|].
    assert (Hh : h ∈ filter (λ h, id ∈ f h) hs) by (rewrite E; constructor). apply list_elem_of_filter in Hh as [? ?]. eauto.
  - intros (h & Hh & Hid). assert (Hin : h ∈ filter (λ h, id ∈ f h) hs) by (by apply list_elem_of_filter).
    destruct (filter _ hs); [by apply not_elem_of_nil in Hin|done].
Qed.

Lemma check_unresolved_imports_Ok hs :
  check_unresolved_imports (merge_headers hs) = Ok tt ↔
  ∀ kind h id, h ∈ hs → id ∈ import_field kind (oh_imports h) → ∃ h', h' ∈ hs ∧ id ∈ export_field (provider kind) (oh_exports h').
Proof.
  unfold check_unresolved_imports. rewrite for_each_Ok.
  assert (Hk : ∀ kind, check_provided (kind, merged_import kind (ms_imports (merge_headers hs)),
      merged_field (provider kind) (ms_exports (merge_headers hs))) = Ok tt ↔
    ∀ h id, h ∈ hs → id ∈ import_field kind (oh_imports h) → ∃ h', h' ∈ hs ∧ id ∈ export_field (provider kind) (oh_exports h')).
  { intros kind. unfold check_provided. rewrite for_each_Ok.
    assert (Hd : ∀ id, is_Some (merged_field (provider kind) (ms_exports (merge_headers hs)) !! id) ↔
      ∃ h', h' ∈ hs ∧ id ∈ export_field (provider kind) (oh_exports h')).
    { intros id. rewrite merged_exports_lookup, <-(declarers_elem (λ h, export_field (provider kind) (oh_exports h))).
      destruct (declarers _ hs id); split; naive_solver eauto. }
    assert (Hi : ∀ id, is_Some (merged_import kind (ms_imports (merge_headers hs)) !! id) ↔
      ∃ h, h ∈ hs ∧ id ∈ import_field kind (oh_imports h)).
    { intros id. rewrite <-elem_of_dom, merged_imports_dom, elem_of_union_list. setoid_rewrite list_elem_of_fmap. naive_solver. }
    split.
    - intros Hall h id Hh Hid. apply Hd. destruct (proj2 (Hi id)) as [x Hx]; [eauto|].
      eapply negb_decide_Ok, (Hall (id, x)). by apply elem_bt_list.
    - intros Hall [id x] Hin%elem_bt_list. apply negb_decide_Ok, Hd. destruct (proj1 (Hi id)) as (h & Hh & Hid); [eauto|].
      by apply (Hall h). }
  unfold obligations. split.
  - intros Hall kind. apply Hk, Hall. destruct kind; cbn; set_solver.
  - intros Hall o Hin. assert (Ho : ∃ kind, o = (kind, merged_import kind (ms_imports (merge_headers hs)),
      merged_field (provider kind) (ms_exports (merge_headers hs)))).
    { rewrite !elem_of_cons, elem_of_nil in Hin. destruct Hin as [->|[->|[->|[->|[]]]]];
        [by exists IComponent|by exists IDefinition|by exists IBinding|by exists ICatalogue]. }
    destruct Ho as [kind ->]. apply Hk. intros h id. apply Hall.
Qed.

Lemma linked_lookup (hs : list ObjectHeader) u hash :
  NoDup (oh_unit <$> hs) →
  foldl (λ m h, <[oh_unit h := oh_object_hash h]> m) (∅ : gmap string string) hs !! u = Some hash ↔
  ∃ h, h ∈ hs ∧ oh_unit h = u ∧ oh_object_hash h = hash.
Proof.
  induction hs as [|h hs IH] using rev_ind; intros Hnd; [split; [done|by intros (? & ?%not_elem_of_nil & _)]|].
  rewrite fmap_app in Hnd. apply NoDup_app in Hnd as (Hnd & Hni & _). rewrite foldl_app. cbn [foldl].
  rewrite lookup_insert_Some, IH by done. setoid_rewrite elem_of_app. setoid_rewrite list_elem_of_singleton. split.
  - intros [[<- <-]|[Hne (h' & ? & ? & ?)]]; [exists h; eauto|exists h'; eauto].
  - intros (h' & [Hin| ->] & Hu & Hh); [right|left; done]. split; [|eauto]. intros E. apply (Hni (oh_unit h')).
    + apply list_elem_of_fmap. eauto.
    + rewrite Hu, <-E. constructor.
Qed.

Lemma check_interface_hashes_Ok hs :
  NoDup (oh_unit <$> hs) → check_interface_hashes hs = Ok tt ↔
  ∀ h r h', h ∈ hs → r ∈ oh_interfaces h → h' ∈ hs → oh_unit h' = if_unit r → oh_object_hash h' = if_object_hash r.
Proof.
  intros Hnd. unfold check_interface_hashes. rewrite for_each_Ok. setoid_rewrite for_each_Ok. unfold check_reference. split.
  - intros Hall h r h' Hh Hr Hh' Hu. specialize (Hall h Hh r Hr). cbn beta in Hall.
    rewrite (proj2 (linked_lookup hs (if_unit r) (oh_object_hash h') Hnd)) in Hall by eauto. by apply negb_decide_Ok in Hall.
  - intros Hall h Hh r Hr. destruct (_ !! if_unit r) as [hash|] eqn:E; [|done]. apply (linked_lookup hs) in E as (h' & Hh' & Hu & <-); [|done].
    apply negb_decide_Ok. by apply (Hall h r h').
Qed.

Lemma NoDup_units hs : NoDup (oh_unit <$> hs) → NoDup hs.
Proof. apply NoDup_fmap_1. Qed.

Lemma link_stage_Ok hs m :
  link_stage_headers hs = Ok m ↔
  linkable hs ∧ m = merge_headers (merge_sort unit_le hs) ∧ validate_linked_summary m = Ok tt.
Proof.
  unfold link_stage_headers. rewrite bind_Ok. setoid_rewrite order_objects_Ok.
  assert (Hp : merge_sort unit_le hs ≡ₚ hs) by apply merge_sort_Permutation. set (o := merge_sort unit_le hs) in *.
  assert (Hv : ∀ m0, (_ ← map_err LinkInvalid (validate_linked_summary m0); Ok m0) = Ok m ↔ m = m0 ∧ validate_linked_summary m = Ok tt).
  { intros m0. rewrite bind_Ok. split.
    - intros ([] & E & [= <-]). split; [done|]. by destruct (validate_linked_summary m0) as [[]|].
    - intros [-> E]. exists tt. by rewrite E. }
  split.
  - intros (ordered & [Hu ->] & E). apply bind_Ok in E as ([] & Hd & E). apply bind_Ok in E as ([] & Hi & E).
    apply bind_Ok in E as ([] & Hf & E). apply Hv in E as [-> E].
    assert (Huo : NoDup (oh_unit <$> o)) by (by rewrite Hp). rewrite check_duplicate_ids_Ok in Hd by (by apply NoDup_units).
    rewrite check_interface_hashes_Ok in Hf by done. rewrite check_unresolved_imports_Ok in Hi.
    split; [|done]. by apply (linkable_perm o hs Hp).
  - intros (Hl & -> & E). apply (linkable_perm hs o) in Hl as Hlo; [|by symmetry]. destruct Hlo as [Hu Ho Hpr Hi].
    exists o. split; [split; [apply Hl|done]|]. apply bind_Ok. exists tt. split; [by rewrite check_duplicate_ids_Ok by (by apply NoDup_units)|].
    apply bind_Ok. exists tt. split; [by rewrite check_unresolved_imports_Ok|]. apply bind_Ok. exists tt.
    split; [by rewrite check_interface_hashes_Ok|]. by apply Hv.
Qed.

(** C8: The header stage accepts exactly the sets of objects whose units and
    exported ids are unique, whose imports some object provides, whose
    interfaces, when linked, are the versions compiled against, and whose merged
    declarations are in order ([summary_ok]): every binding names a catalogue of
    the set and derives entries of it from one declared source, every requirement
    names a binding and accepts entries of its catalogue, the requirements on a
    binding have an entry in common, and no binding is a facet; and the merged
    model does not depend on the order in which the objects are given. *)
Theorem link_accepts_exact hs m :
  (link_stage_headers hs = Ok m ↔
     linkable hs ∧ m = merge_headers (merge_sort unit_le hs) ∧ summary_ok m) ∧
  (∀ hs', hs ≡ₚ hs' → link_stage_headers hs = Ok m ↔ link_stage_headers hs' = Ok m).
Proof.
  split; [rewrite <-summary_exact; apply link_stage_Ok|]. intros hs' Hp. rewrite !link_stage_Ok. split; intros (Hl & -> & E).
  - split; [by eapply linkable_perm|]. by rewrite <-(sorted_units_unique hs hs' Hp (lk_units _ Hl)).
  - split; [by eapply linkable_perm|]. by rewrite <-(sorted_units_unique hs' hs (symmetry Hp) (lk_units _ Hl)).
Qed.

(** ** Locks *)

Lemma check_lock_Ok lock hs extra :
  check_lock lock hs extra = Ok tt ↔
  (∀ h, h ∈ hs → ∃ e, lf_objects lock !! oh_unit h = Some e ∧ le_object_hash e = oh_object_hash h) ∧
  (extra = true ∨ ∀ u, is_Some (lf_objects lock !! u) → u ∈ (oh_unit <$> hs)).
Proof.
  unfold check_lock. set (linked := merge_sort interface_le (as_interface_ref <$> hs)).
  assert (Hl : ∀ r, r ∈ linked ↔ ∃ h, h ∈ hs ∧ r = as_interface_ref h).
  { intros r. unfold linked. rewrite (merge_sort_Permutation interface_le), list_elem_of_fmap. naive_solver. }
  assert (Hu : ∀ u, u ∈ (if_unit <$> linked) ↔ u ∈ (oh_unit <$> hs)).
  { intros u. rewrite !list_elem_of_fmap. setoid_rewrite Hl. split; [intros (r & -> & h & Hh & ->); eauto|].
    intros (h & -> & Hh). exists (as_interface_ref h). eauto. }
  rewrite for_each_then. apply Morphisms_Prop.and_iff_morphism.
  - split.
    + intros Hall h Hh. specialize (Hall (as_interface_ref h)). cbn in Hall. destruct (lf_objects lock !! oh_unit h) as [e|].
      * exists e. split; [done|]. eapply negb_decide_Ok, Hall, Hl. eauto.
      * discriminate Hall. apply Hl. eauto.
    + intros Hall r (h & Hh & ->)%Hl. cbn. destruct (Hall h Hh) as (e & -> & He). by apply negb_decide_Ok.
  - destruct extra; [naive_solver|]. rewrite for_each_Ok. split.
    + intros Hall. right. intros u [e He]. specialize (Hall (u, e)). cbn in Hall. rewrite negb_decide_Ok, elem_of_list_to_set, Hu in Hall.
      apply Hall. by apply elem_bt_list.
    + intros [|Hall]; [done|]. intros [u e] Hin%elem_bt_list. cbn. rewrite negb_decide_Ok, elem_of_list_to_set, Hu. apply Hall. eauto.
Qed.

Lemma lock_of_lookup hs sources u e :
  NoDup (oh_unit <$> hs) →
  lf_objects (lock_of hs sources) !! u = Some e ↔
  ∃ h, h ∈ hs ∧ oh_unit h = u ∧ e = mkLockEntry (oh_object_hash h) (default String.EmptyString (sources !! u)).
Proof.
  unfold lock_of. cbn [lf_objects]. induction hs as [|h hs IH] using rev_ind; intros Hnd.
  { split; [done|]. by intros (? & ?%not_elem_of_nil & _). }
  rewrite fmap_app in Hnd. apply NoDup_app in Hnd as (Hnd & Hni & _). rewrite foldl_app. cbn [foldl].
  rewrite lookup_insert_Some, IH by done. setoid_rewrite elem_of_app. setoid_rewrite list_elem_of_singleton. split.
  - intros [[<- <-]|[Hne (h' & ? & ? & ?)]]; [exists h; eauto|exists h'; eauto].
  - intros (h' & [Hin| ->] & Hu & He); [right|left; by subst]. split; [|eauto]. intros E. apply (Hni (oh_unit h')).
    + apply list_elem_of_fmap. eauto.
    + rewrite Hu, <-E. constructor.
Qed.

(** A lock pins the set it was written for: a set of objects passes the lock of
    another exactly when it has the same units at the same hashes, whatever the
    order, the notes on sources and the number of copies. *)
Theorem lock_pins_set hs hs' sources :
  NoDup (oh_unit <$> hs) →
  check_lock (lock_of hs sources) hs' false = Ok tt ↔
  ∀ r, r ∈ (as_interface_ref <$> hs') ↔ r ∈ (as_interface_ref <$> hs).
Proof.
  intros Hnd. rewrite check_lock_Ok. setoid_rewrite (lock_of_lookup hs sources _ _ Hnd). setoid_rewrite list_elem_of_fmap. split.
  - intros [Hp [|Hall]]; [done|]. intros r. split.
    + intros (h & -> & Hh). destruct (Hp h Hh) as (e & (h0 & H0 & Hu & ->) & He). exists h0. split; [|done].
      unfold as_interface_ref. cbn in He. congruence.
    + intros (h & -> & Hh). destruct (Hall (oh_unit h)) as (h' & Hu & Hh').
      { eexists. apply (lock_of_lookup hs sources _ _ Hnd). eauto. }
      destruct (Hp h' Hh') as (e & (h0 & H0 & Hu0 & ->) & He). exists h'. split; [|done].
      assert (h0 = h) as ->.
      { apply list_elem_of_lookup in H0 as [i Hi], Hh as [j Hj]. assert (i = j) as <-; [|congruence].
        eapply (NoDup_lookup _ _ _ (oh_unit h) Hnd); rewrite list_lookup_fmap, ?Hi, ?Hj; cbn; congruence. }
      unfold as_interface_ref. cbn in He. congruence.
  - intros Hr. split.
    + intros h Hh. destruct (proj1 (Hr (as_interface_ref h))) as (h0 & E & H0); [eauto|].
      unfold as_interface_ref in E. injection E as E1 E2. eexists. split; [exists h0; eauto|]. cbn. by rewrite E2.
    + right. intros u [e (h & Hh & <- & _)%(lock_of_lookup hs sources _ _ Hnd)].
      destruct (proj2 (Hr (as_interface_ref h))) as (h' & E & Hh'); [eauto|].
      unfold as_interface_ref in E. injection E as E1 E2. eauto.
Qed.

(** ** Loaded objects *)

Section Loaded.
Context `{IrCodec} `{ObjectCodec} `{HashOrder}.

(** The chunk file of a unit, read and checked against its name. *)
Definition chunk_read (d : package_disk) (dir hash : string) (c : IrChunk) : Prop :=
  (∃ bytes, d !! chunk_path dir hash = Some (Some bytes) ∧ parse_chunk bytes = Some c) ∧
  ik_format_version c = IR_FORMAT_VERSION ∧ ik_chunk_hash c = hash ∧ chunk_hash_of_chunk c = Ok hash.

Lemma link_err_Ok {E F A} (f : E → F) (m : result E A) a : map_err f m = Ok a ↔ m = Ok a.
Proof. destruct m; cbn; naive_solver. Qed.

Lemma link_ok_or {E A} (o : option A) (e : E) a : ok_or o e = Ok a ↔ o = Some a.
Proof. destruct o; cbn; naive_solver. Qed.

Lemma read_chunk_Ok d dir u hash c bytes : read_chunk d dir u hash = Ok (c, bytes) → chunk_read d dir hash c.
Proof.
  unfold read_chunk. rewrite link_err_Ok. intros (bs & Hb & E)%bind_Ok. apply link_ok_or in Hb.
  apply bind_Ok in E as (p & Hp & E). apply link_ok_or in Hp. apply bail_bind in E as [Hv E]. apply negb_false_iff, N.eqb_eq in Hv.
  apply bail_then in E as [Hh E]. apply bind_Ok in E as (h & Ha & E). apply bail_then in E as [-> [= <- <-]].
  split_and!; try done. exists bs. split; [|done]. destruct (d !! chunk_path dir hash) as [[b|]|]; cbn in Hb; congruence.
Qed.

Lemma load_chunks_of_Ok d dir u hashes m m' :
  try_fold (load_chunk_of d dir u) m hashes = Ok m' →
  ∃ cs, Forall2 (chunk_read d dir) hashes cs ∧ lm_summaries m' = lm_summaries m ++ (summarize_ir_chunk <$> cs).
Proof.
  revert m. induction hashes as [|hash hashes IH]; intros m; cbn [try_fold].
  { intros [= <-]. exists []. split; [constructor|]. by rewrite app_nil_r. }
  intros (m1 & E & E')%bind_Ok. unfold load_chunk_of in E. apply bind_Ok in E as ([c bytes] & Hr & [= <-]).
  destruct (IH _ E') as (cs & HF & Hs). exists (c :: cs). split; [constructor; [by eapply read_chunk_Ok|done]|].
  rewrite Hs. cbn. by rewrite <-(assoc_L (++)).
Qed.

(** The header of a loaded object, rebuilt from its chunk files. *)
Definition rebuilt (h : ObjectHeader) (cs : list IrChunk) : ObjectHeader :=
  from_summaries (oh_unit h) (oh_chunk_hashes h) (summarize_ir_chunk <$> cs) (oh_interfaces h).

Lemma load_object_Ok d m dir h m' :
  load_object d m (dir, h) = Ok m' →
  ∃ cs, Forall2 (chunk_read d dir) (oh_chunk_hashes h) cs ∧ oh_object_hash (rebuilt h cs) = oh_object_hash h.
Proof.
  unfold load_object. intros (m1 & E & E')%bind_Ok. apply load_chunks_of_Ok in E as (cs & HF & Hs). exists cs. split; [done|].
  apply bind_Ok in E' as ([] & Hc & _). rewrite Hs, drop_app_length in Hc. unfold check_header_matches_bodies in Hc.
  fold (rebuilt h cs) in Hc. case_decide; [done|]. apply bind_Ok in Hc as (? & _ & ?). done.
Qed.

Lemma load_chunks_objects d dirs hs m dir h :
  load_chunks d dirs hs = Ok m → (dir, h) ∈ combine dirs hs →
  ∃ cs, Forall2 (chunk_read d dir) (oh_chunk_hashes h) cs ∧ oh_object_hash (rebuilt h cs) = oh_object_hash h.
Proof.
  unfold load_chunks. generalize (mkLinkedModel [] (mkConfig String.EmptyString String.EmptyString ∅ ∅ ∅ ∅ ∅ ∅ ∅) []).
  induction (combine dirs hs) as [|dh l IH]; intros m0; cbn [try_fold]; [by intros _ ?%not_elem_of_nil|].
  intros (m1 & E & E')%bind_Ok [<-|Hin]%elem_of_cons; [by eapply load_object_Ok|by eapply IH].
Qed.

Lemma read_headers_hash d dirs hs dir h :
  read_headers d dirs = Ok hs → (dir, h) ∈ combine dirs hs →
  oh_format_version h = OBJECT_FORMAT_VERSION ∧ compute_object_hash h = oh_object_hash h.
Proof.
  unfold read_headers. rewrite collect_results_Ok. induction 1 as [|x y dirs hs Hx _ IH]; [by intros ?%not_elem_of_nil|].
  cbn [combine]. intros [[= -> ->]|Hin]%elem_of_cons; [|by apply IH]. apply link_err_Ok in Hx. unfold read_from_dir in Hx.
  apply bind_Ok in Hx as (b & _ & E). apply bind_Ok in E as (p & _ & E). apply bail_bind in E as [Hv E].
  apply negb_false_iff, N.eqb_eq in Hv. by apply bail_then in E as [Hh [= <-]].
Qed.
End Loaded.

(** What a loaded object's header says is what its chunk files say.  When the
    headers of a link were read and the chunks loaded, every chunk file holds
    what its name is the hash of, and, unless the header hash collides with the
    hash of the rebuilt header, the header is exactly the one rebuilt from the
    chunk files: exports, imports, domains, entries, links, requirements,
    clauses and selectors. *)
Theorem header_matches_bodies (Hc : IrCodec) (Hoc : ObjectCodec) (Ho : HashOrder) d dirs hs m dir h :
  read_headers d dirs = Ok hs → load_chunks d dirs hs = Ok m → (dir, h) ∈ combine dirs hs →
  (∀ cs, compute_object_hash h = compute_object_hash (rebuilt h cs) → header_preimage h = header_preimage (rebuilt h cs)) →
  ∃ cs, Forall2 (chunk_read d dir) (oh_chunk_hashes h) cs ∧ h = rebuilt h cs.
Proof.
  intros Hr Hl Hin Hcol. destruct (load_chunks_objects _ _ _ _ _ _ Hl Hin) as (cs & HF & Heq). exists cs. split; [done|].
  destruct (read_headers_hash _ _ _ _ _ Hr Hin) as [_ Hh].
  assert (Hre : compute_object_hash (rebuilt h cs) = oh_object_hash (rebuilt h cs)) by reflexivity.
  assert (Hp : header_preimage h = header_preimage (rebuilt h cs)) by (apply Hcol; congruence).
  clear -Hp Heq. destruct h as [fv u ch ex im fd opn ce bl rq cl sel ifs oh]. unfold rebuilt in *.
  set (r := from_summaries _ _ _ _) in *. clearbody r. destruct r. cbn in Heq. unfold header_preimage in Hp. cbn in Hp.
  injection Hp. intros. by subst.
Qed.

(** ** Examples *)

#[export] Instance ObjectHeaderPreimage_eq_dec : EqDecision ObjectHeaderPreimage.
Proof. solve_decision. Defined.

Definition demo_chunk : SourceChunk := mkSourceChunk "tool.json" (demo_hash demo_tool) demo_tool.

(** A codec that tells one header from all others. *)
Definition demo_base_codec (known : option ObjectHeaderPreimage) (header : option ObjectHeader) : ObjectCodec :=
  {| header_preimage_json := λ p, if decide (Some p = known) then [] else bytes_of "other";
     header_pretty := λ h, bytes_of (oh_unit h);
     parse_header := λ bs, if decide (bs = bytes_of "tools") then header else None;
     lock_pretty := λ _, []; parse_lock := λ _, None |}.

Definition demo_build (codec : ObjectCodec) : ObjectHeader :=
  from_summaries (H := demo_codec) (H0 := codec) "tools" [demo_hash demo_tool]
    [summarize_ir_chunk (H := sorted_order) (written demo_chunk)] [].

Definition demo_preimage : ObjectHeaderPreimage := header_preimage (demo_build (demo_base_codec None None)).
Definition demo_header : ObjectHeader := demo_build (demo_base_codec (Some demo_preimage) None).
Definition demo_object_codec : ObjectCodec := demo_base_codec (Some demo_preimage) (Some demo_header).

Definition demo_disk : package_disk :=
  {["obj/object.json" := Some (bytes_of "tools"); chunk_path "obj" (demo_hash demo_tool) := Some (bytes_of "tool.json")]}.

Lemma demo_header_known : header_preimage demo_header = demo_preimage.
Proof. vm_compute. reflexivity. Qed.

Lemma demo_header_hash : compute_object_hash (H := demo_codec) (H0 := demo_object_codec) demo_header = "".
Proof. vm_compute. reflexivity. Qed.

(** The only header whose hash is empty is the known one. *)
Lemma demo_hash_known known header h :
  compute_object_hash (H := demo_codec) (H0 := demo_base_codec (Some known) header) h = "" → header_preimage h = known.
Proof.
  unfold compute_object_hash. cbn [header_preimage_json demo_base_codec]. case_decide as Hp; [by injection Hp|]. intros E. by vm_compute in E.
Qed.

Lemma header_matches_bodies_witness :
  ∃ cs, Forall2 (chunk_read (H := demo_codec) demo_disk "obj") (oh_chunk_hashes demo_header) cs ∧
    demo_header = rebuilt (H := demo_codec) (H0 := demo_object_codec) (H1 := sorted_order) demo_header cs.
Proof.
  eapply (header_matches_bodies demo_codec demo_object_codec sorted_order demo_disk ["obj"] [demo_header] _ "obj" demo_header).
  - vm_compute. reflexivity.
  - vm_compute. reflexivity.
  - constructor.
  - intros cs E. rewrite demo_header_known. symmetry.
    refine (demo_hash_known demo_preimage (Some demo_header) _ _). exact (eq_trans (eq_sym E) demo_header_hash).
Defined.

Lemma lock_pins_set_witness :
  check_lock (lock_of [demo_header] ∅) [demo_header; demo_header] false = Ok tt.
Proof.
  apply (lock_pins_set [demo_header] [demo_header; demo_header] ∅); [apply NoDup_singleton|].
  intros r. cbn. rewrite !elem_of_cons, !elem_of_nil. tauto.
Defined.

(** A parameter of a component that inherits from an unknown definition passes
    the whole-model check, which looks at the parents of definitions only, and
    is then refused by the header stage. *)
Example unknown_parent_passes_verify :
  let p := mkParameter (Some "missing") (Some "int") None None (Some (VInteger 1)) None None None None None None [] in
  let c := mkConfig "pack" "1" ∅ {["c" := mkComponent (Some "service") None [] ∅ {["speed" := p]}]} ∅ ∅ ∅ ∅ ∅ in
  let s := summarize (H := sorted_order) c "c.json" in
  verify_complete_model (H := sorted_order) c [s] = Ok tt ∧
  link_stage_headers (in_memory_headers (H := demo_codec) (H0 := demo_object_codec) [mkSourceChunk "c.json" "h" c] [s]) =
    Err (LinkUnresolvedImport IDefinition "pack" "missing").
Proof. split; vm_compute; reflexivity. Qed.
