(* ===== verification/LinkModel.v ===== *)
(** * The linked model is the ingested one

    The merged summary the constraint model is built from describes the
    repository, on both paths: the merge of the chunks' summaries, which the
    whole-model check reads, and the merge of the units' headers, which the link
    stages read.  With it the verified repository links, and the compiled
    artifact enforces what the repository declares. *)
From S2P Require Import Bdd BddLayout BddBytes CcmFormat.
From S2P Require Import Prelude Tokens Ast Eval Implication FacetCompare SelectionEval Rewrite VarOrder Emitter Text Schema.
From S2P Require Import Resolver ResolverProps InterfaceSummary LinkVerify LinkGraph LinkVerifyProps SummaryProps.
From S2P Require Import ParseContext Lowering LoweringProps Ir IrProps Ingest IngestProps Object Link LinkProps.

(** ** Unions of disjoint maps *)

Definition gather {A} (ms : list (gmap string A)) : gmap string A := foldl (∪) ∅ ms.

Lemma gather_nil {A} : gather ([] : list (gmap string A)) = ∅.
Proof. done. Qed.

Lemma gather_from {A} (m : gmap string A) ms : foldl (∪) m ms = m ∪ gather ms.
Proof.
  unfold gather. revert m. induction ms as [|x ms IH]; intros m; cbn [foldl]; [by rewrite (right_id_L ∅ (∪))|].
  rewrite IH, (IH (∅ ∪ x)), (left_id_L ∅ (∪)). by rewrite (assoc_L (∪)).
Qed.

Lemma gather_cons {A} (m : gmap string A) ms : gather (m :: ms) = m ∪ gather ms.
Proof. unfold gather. cbn [foldl]. by rewrite (left_id_L ∅ (∪)), gather_from. Qed.

Lemma gather_app {A} (l1 l2 : list (gmap string A)) : gather (l1 ++ l2) = gather l1 ∪ gather l2.
Proof. unfold gather. rewrite foldl_app. apply gather_from. Qed.

Lemma gather_join {A} (ls : list (list (gmap string A))) : gather (gather <$> ls) = gather (mjoin ls).
Proof. induction ls as [|l ls IH]; [done|]. rewrite fmap_cons, gather_cons, IH. cbn [mjoin list_join]. by rewrite gather_app. Qed.

Lemma gather_keep {A B} (f : B → gmap string A) (l : list B) m :
  foldl (λ m x, keep_first (f x) m) m l = m ∪ gather (f <$> l).
Proof.
  revert m. induction l as [|x l IH]; intros m; cbn [foldl fmap list_fmap]; [by rewrite gather_nil, (right_id_L ∅ (∪))|].
  rewrite IH, gather_cons. unfold keep_first. by rewrite (assoc_L (∪)).
Qed.

Notation disjoint_maps := (List.ForallOrdPairs (map_disjoint (M := gmap string))).

Lemma gather_disjoint {A} (m : gmap string A) ms : m ##ₘ gather ms ↔ Forall (λ x, m ##ₘ x) ms.
Proof.
  induction ms as [|x ms IH]; [split; [constructor|intros _; apply map_disjoint_empty_r]|].
  rewrite gather_cons, map_disjoint_union_r, IH, Forall_cons. done.
Qed.

Lemma gather_Some {A} (ms : list (gmap string A)) k v :
  disjoint_maps ms → gather ms !! k = Some v ↔ ∃ m, m ∈ ms ∧ m !! k = Some v.
Proof.
  induction 1 as [|m ms Hm _ IH]; [split; [done|by intros (? & ?%not_elem_of_nil & _)]|].
  rewrite gather_cons, lookup_union_Some by (by apply gather_disjoint). rewrite IH. setoid_rewrite elem_of_cons. naive_solver.
Qed.

Lemma gather_perm {A} (ms ms' : list (gmap string A)) : ms ≡ₚ ms' → disjoint_maps ms → gather ms = gather ms'.
Proof.
  intros Hp Hd. 
  assert (Hd' : disjoint_maps ms') by (eapply ord_pairs_perm; [|exact Hp|exact Hd]; by intros a b). apply map_eq. intros k. apply option_eq. intros v.
  rewrite !gather_Some by done. by setoid_rewrite Hp.
Qed.

Lemma gather_fmap {A B} (f : A → B) (ms : list (gmap string A)) :
  f <$> gather ms = gather ((λ m : gmap string A, f <$> m) <$> ms).
Proof. induction ms as [|m ms IH]; [apply fmap_empty|]. rewrite fmap_cons, !gather_cons, map_fmap_union. by rewrite IH. Qed.

Lemma bt_list_union {A} (m1 m2 : gmap string A) : m1 ##ₘ m2 → bt_list (m1 ∪ m2) ≡ₚ bt_list m1 ++ bt_list m2.
Proof.
  intros Hd. apply NoDup_Permutation.
  - eapply NoDup_fmap_1, NoDup_bt_list.
  - apply NoDup_app. split_and!; [eapply NoDup_fmap_1, NoDup_bt_list| |eapply NoDup_fmap_1, NoDup_bt_list].
    intros [k v] H1%elem_bt_list H2%elem_bt_list. by eapply (proj1 (map_disjoint_spec m1 m2)).
  - intros [k v]. by rewrite elem_of_app, !elem_bt_list, lookup_union_Some.
Qed.

Lemma bt_list_gather {A} (ms : list (gmap string A)) : disjoint_maps ms → bt_list (gather ms) ≡ₚ mjoin (bt_list <$> ms).
Proof.
  induction 1 as [|m ms Hm _ IH]; [rewrite gather_nil; by rewrite (proj2 (bt_list_nil (∅ : gmap string A)) eq_refl)|].
  rewrite gather_cons, bt_list_union by (by apply gather_disjoint). rewrite IH. done.
Qed.

(** ** The repository *)

Lemma joined_field {A} (f : Config → gmap string A) r l :
  (∀ a b, f (join_config a b) = f a ∪ f b) → f (joined r l) = f r ∪ gather (f <$> l).
Proof.
  intros Hf. unfold joined. revert r. induction l as [|p l IH]; intros r; cbn [foldl fmap list_fmap].
  { by rewrite gather_nil, (right_id_L ∅ (∪)). }
  by rewrite IH, Hf, gather_cons, (assoc_L (∪)).
Qed.

Lemma repository_field {A} (f : Config → gmap string A) ks :
  (∀ a b, f (join_config a b) = f a ∪ f b) → f new_repository = ∅ →
  f (repository (compiled ks)) = gather (f <$> (sc_config <$> ks)).
Proof. intros Hf Hn. cbn. by rewrite (joined_field f), Hn, (left_id_L ∅ (∪)). Qed.

(** A kind of declarations that chunks do not share. *)
Lemma chunks_disjoint {A} (f : Config → gmap string A) ks :
  (∀ p q, apart p q → f p ##ₘ f q) → List.ForallOrdPairs chunk_apart ks → disjoint_maps (f <$> (sc_config <$> ks)).
Proof.
  intros Hf. induction 1 as [|k ks Hk _ IH]; cbn; [constructor|]. constructor; [|done].
  apply Forall_fmap, Forall_fmap. eapply Forall_impl; [exact Hk|]. intros k' (_ & _ & Ha). by apply Hf.
Qed.

Lemma no_binding_is_facet ks k k' id :
  List.ForallOrdPairs chunk_apart ks → Forall (λ k, facets_apart (sc_config k)) ks → k ∈ ks → k' ∈ ks →
  id ∈ dom (bindings (sc_config k)) → id ∈ dom (facets (sc_config k')) → False.
Proof.
  intros Ha Hf Hk Hk' Hb Hfa. apply list_elem_of_In in Hk as Hk1, Hk' as Hk2.
  destruct (List.ForallOrdPairs_In Ha _ _ Hk1 Hk2) as [->|[(_ & _ & Hap)|(_ & _ & Hap)]].
  - rewrite Forall_forall in Hf. by apply (Hf k' Hk' id).
  - by apply (ap_binding_facet _ _ Hap id).
  - by apply (ap_facet_binding _ _ Hap id).
Qed.

Lemma chunks_facets_apart ks :
  List.ForallOrdPairs chunk_apart ks → Forall (λ k, facets_apart (sc_config k)) ks →
  dom (bindings (repository (compiled ks))) ## dom (facets (repository (compiled ks))).
Proof.
  intros Ha Hf id. rewrite (repository_field bindings), (repository_field facets) by done. rewrite !elem_of_dom.
  intros [b Hb] [f Hfa].
  apply gather_Some in Hb as (mb & (p & -> & Hp)%list_elem_of_fmap & Hb); [|by apply (chunks_disjoint bindings ks); [apply ap_bindings|]].
  apply gather_Some in Hfa as (mf & (q & -> & Hq)%list_elem_of_fmap & Hfa); [|by apply (chunks_disjoint facets ks); [apply ap_facets|]].
  apply list_elem_of_fmap in Hp as (k & -> & Hk). apply list_elem_of_fmap in Hq as (k' & -> & Hk').
  apply elem_of_dom_2 in Hb, Hfa. by eapply (no_binding_is_facet ks k k').
Qed.

Lemma ingested_apart `{IrCodec} ks :
  chunks_ok ks → dom (bindings (repository (compiled ks))) ## dom (facets (repository (compiled ks))).
Proof. intros [Ha Hf _]. by apply chunks_facets_apart. Qed.

(** The ids a repository declares are the ones its chunks declare. *)
Lemma exports_repository kind ks id :
  id ∈ export_field kind (exports_of (repository (compiled ks))) ↔ ∃ k, k ∈ ks ∧ id ∈ export_field kind (exports_of (sc_config k)).
Proof.
  assert (Hj : ∀ l r, id ∈ export_field kind (exports_of (joined r l)) ↔
    id ∈ export_field kind (exports_of r) ∨ ∃ c, c ∈ l ∧ id ∈ export_field kind (exports_of c)).
  { induction l as [|c l IH]; intros r; cbn [joined foldl]; [set_solver|]. fold (joined (join_config r c) l). rewrite IH.
    assert (E : id ∈ export_field kind (exports_of (join_config r c)) ↔
      id ∈ export_field kind (exports_of r) ∨ id ∈ export_field kind (exports_of c)) by (destruct kind; cbn; set_solver).
    rewrite E. setoid_rewrite elem_of_cons. naive_solver. }
  cbn [repository compiled]. rewrite Hj. setoid_rewrite list_elem_of_fmap.
  assert (Hn : id ∉ export_field kind (exports_of new_repository)) by (destruct kind; cbn; set_solver). naive_solver.
Qed.

(** ** Grouping rows by unit *)

Lemma filter_or_perm {A} (P Q : A → Prop) `{∀ x, Decision (P x)} `{∀ x, Decision (Q x)} (l : list A) :
  (∀ x, P x → ¬ Q x) → filter P l ++ filter Q l ≡ₚ filter (λ x, P x ∨ Q x) l.
Proof.
  intros Hpq. induction l as [|x l IH]; [done|]. rewrite !filter_cons.
  destruct (decide (P x)) as [Hp|Hp], (decide (Q x)) as [Hq|Hq].
  - by destruct (Hpq x Hp).
  - rewrite decide_True by (by left). cbn. by rewrite IH.
  - rewrite decide_True by (by right). rewrite <-Permutation_middle. by rewrite IH.
  - rewrite decide_False by tauto. done.
Qed.

Lemma filter_whole {A} (P : A → Prop) `{∀ x, Decision (P x)} (l : list A) : (∀ x, x ∈ l → P x) → filter P l = l.
Proof.
  induction l as [|x l IH]; intros Hl; [done|]. rewrite filter_cons, decide_True by (apply Hl; constructor).
  f_equal. apply IH. intros y Hy. apply Hl. by constructor.
Qed.

Lemma group_perm {A} (key : A → string) (l : list A) us :
  NoDup us → mjoin ((λ u, filter (λ x, key x = u) l) <$> us) ≡ₚ filter (λ x, key x ∈ us) l.
Proof.
  induction us as [|u us IH]; intros Hnd.
  { cbn. assert (E : filter (λ x, key x ∈ []) l = []); [|by rewrite E]. induction l as [|x l IHl]; [done|].
    rewrite filter_cons, decide_False; [done|]. apply not_elem_of_nil. }
  apply NoDup_cons in Hnd as [Hni Hnd]. cbn. rewrite IH by done.
  rewrite (filter_or_perm (λ x, key x = u) (λ x, key x ∈ us)) by (by intros x ->).
  assert (E : filter (λ x, key x = u ∨ key x ∈ us) l = filter (λ x, key x ∈ u :: us) l); [|by rewrite E].
  apply list_filter_iff. intros x. by rewrite elem_of_cons.
Qed.

(** ** Sorting by key *)

Lemma string_le_compare s t : String.le s t ↔ String.compare s t ≠ Gt.
Proof. unfold String.le, String.leb. destruct (String.compare s t); split; done. Qed.

Lemma compare_same s : String.compare s s = Eq.
Proof. pose proof (String.compare_antisym s s) as H. by destruct (String.compare s s). Qed.

Lemma requirement_le_spec a b :
  requirement_le a b ↔ String.le (rl_component a) (rl_component b) ∧
    (rl_component a = rl_component b → String.le (rl_slot a) (rl_slot b)).
Proof.
  unfold requirement_le. rewrite (string_le_compare (rl_component a)).
  destruct (String.compare (rl_component a) (rl_component b)) eqn:Ec; split.
  - intros Hs. done.
  - intros [_ Hs]. by apply Hs, String.compare_eq_iff.
  - intros _. split; [done|]. intros E. rewrite E, compare_same in Ec. done.
  - done.
  - done.
  - by intros [Hn _].
Qed.

#[export] Instance requirement_le_total : Total requirement_le.
Proof.
  intros a b. rewrite !requirement_le_spec.
  destruct (total String.le (rl_component a) (rl_component b)), (total String.le (rl_slot a) (rl_slot b)),
    (decide (rl_component a = rl_component b)) as [E|E]; try (left; naive_solver); try (right; naive_solver).
  - right. rewrite E. split; [done|done].
  - left. rewrite E. done.
Qed.

#[export] Instance requirement_le_trans : Transitive requirement_le.
Proof.
  intros a b c. rewrite !requirement_le_spec. intros [H1 H2] [H3 H4]. split; [by etransitivity|].
  intros E. assert (E1 : rl_component a = rl_component b) by (apply (anti_symm String.le); [done|by rewrite E]).
  etransitivity; [by apply H2|]. apply H4. congruence.
Qed.

#[export] Instance clause_le_total : Total clause_le.
Proof. intros a b. unfold clause_le. apply (total String.le). Qed.
#[export] Instance clause_le_trans : Transitive clause_le.
Proof. intros a b c. unfold clause_le. apply (transitivity (R := String.le)). Qed.

(** Requirements and clauses of a configuration have distinct keys. *)
Lemma elem_all_requirements c r :
  r ∈ all_requirements c ↔ ∃ id comp slot rq, components c !! id = Some comp ∧ requires comp !! slot = Some rq ∧
    r = mkRequirementLink id slot (rq_binding rq) (rq_accepts rq) (cp_condition comp).
Proof.
  unfold all_requirements. rewrite elem_of_flat_map. unfold requirements_of. setoid_rewrite list_elem_of_fmap. split.
  - intros ([id comp] & Hc%elem_bt_list & [slot rq] & -> & Hr%elem_bt_list). cbn in *. eauto 10.
  - intros (id & comp & slot & rq & Hc & Hr & ->). exists (id, comp). split; [by apply elem_bt_list|].
    exists (slot, rq). split; [done|]. by apply elem_bt_list.
Qed.

Lemma elem_all_clauses c cl : cl ∈ all_clauses c ↔ ∃ id k, constraints c !! id = Some k ∧ cl = mkClause id (cn_condition k).
Proof.
  unfold all_clauses. rewrite list_elem_of_fmap. split.
  - intros ([id k] & -> & Hk%elem_bt_list). eauto.
  - intros (id & k & Hk & ->). exists (id, k). split; [done|]. by apply elem_bt_list.
Qed.

Lemma sorted_requirements_unique c l l' :
  Sorted requirement_le l → Sorted requirement_le l' → l ≡ₚ all_requirements c → l' ≡ₚ all_requirements c → l = l'.
Proof.
  intros Hs Hs' Hp Hp'. apply (Sorted_unique_strong requirement_le); [|done|done|by rewrite Hp, Hp'].
  intros a b Ha Hb H1 H2. rewrite Hp in Ha. rewrite Hp' in Hb. rewrite requirement_le_spec in H1, H2.
  assert (Ec : rl_component a = rl_component b) by (apply (anti_symm String.le); naive_solver).
  assert (Es : rl_slot a = rl_slot b) by (apply (anti_symm String.le); naive_solver).
  apply elem_all_requirements in Ha as (id & comp & slot & rq & Hc & Hr & ->), Hb as (id' & comp' & slot' & rq' & Hc' & Hr' & ->).
  cbn in Ec, Es. subst. rewrite Hc in Hc'. injection Hc' as <-. rewrite Hr in Hr'. injection Hr' as <-. done.
Qed.

Lemma all_clauses_ids c : NoDup (cl_id <$> all_clauses c).
Proof.
  unfold all_clauses. rewrite <-list_fmap_compose. change (NoDup ((λ kc, kc.1) <$> bt_list (constraints c))). apply NoDup_bt_list.
Qed.

Lemma sorted_clauses_unique c l l' :
  Sorted clause_le l → Sorted clause_le l' → l ≡ₚ all_clauses c → l' ≡ₚ all_clauses c → l = l'.
Proof.
  intros Hs Hs' Hp Hp'. apply (Sorted_unique_strong clause_le); [|done|done|by rewrite Hp, Hp'].
  intros a b Ha Hb H1 H2. rewrite Hp in Ha. rewrite Hp' in Hb.
  assert (E : cl_id a = cl_id b) by (by apply (anti_symm String.le)).
  apply elem_all_clauses in Ha as (id & k & Hk & ->), Hb as (id' & k' & Hk' & ->). cbn in E. subst. congruence.
Qed.

(** ** Merged summaries *)

(** The summaries that declare an id. *)
Definition declaring (kind : DeclKind) (id : string) (L : list InterfaceSummary) : list InterfaceSummary :=
  filter (λ s, id ∈ export_field kind (is_exports s)) L.

(** What a merge records of an id that [n] summaries declare: nothing, or some
    owner for it and not more of them than that. *)
Definition declared (n : nat) (owners : option (list string)) : Prop :=
  match owners with Some l => (1 ≤ length l ≤ n)%nat | None => n = 0%nat end.

(** The fields of a merge that the checks and the model read, over a list of
    summaries. *)
Record collects (L : list InterfaceSummary) (m : MergedSummary) : Prop := {
  co_domains : ms_facet_domains m = gather (is_facet_domains <$> L);
  co_open : ms_open_facets m = ⋃ (is_open_facets <$> L);
  co_entries : ms_catalogue_entries m = gather (is_catalogue_entries <$> L);
  co_links : ms_binding_links m = gather (is_binding_links <$> L);
  co_requirements : ms_requirements m ≡ₚ mjoin (is_requirements <$> L);
  co_requirements_sorted : Sorted requirement_le (ms_requirements m);
  co_clauses : ms_clauses m ≡ₚ mjoin (is_clauses <$> L);
  co_clauses_sorted : Sorted clause_le (ms_clauses m);
  co_selectors : ms_selectors m ≡ₚ mjoin (is_selectors <$> L);
  co_exports : ∀ kind id, declared (length (declaring kind id L)) (merged_field kind (ms_exports m) !! id);
}.

Lemma merge_exports_lookup ids source out id :
  merge_exports ids source out !! id =
    if decide (id ∈ ids) then Some (default [] (out !! id) ++ [source]) else out !! id.
Proof.
  assert (Hf : (id ∈ ids → merge_exports ids source out !! id = Some (default [] (out !! id) ++ [source])) ∧
    (id ∉ ids → merge_exports ids source out !! id = out !! id)).
  { unfold merge_exports. revert id. apply (set_fold_ind_L (λ m (X : gset string), ∀ id,
      (id ∈ X → m !! id = Some (default [] (out !! id) ++ [source])) ∧ (id ∉ X → m !! id = out !! id))).
    - intros id. split; [set_solver|done].
    - intros x X m Hx IH id. destruct (decide (id = x)) as [->|Hne].
      + rewrite lookup_insert_eq. split; [|set_solver]. intros _. by rewrite (proj2 (IH x) Hx).
      + rewrite lookup_insert_ne by done. split; intros Hid; apply IH; set_solver. }
  case_decide; by apply Hf.
Qed.

Lemma merge_exports_fold kind L m id :
  let x := merged_field kind (ms_exports m) !! id in
  merged_field kind (ms_exports (foldl merge_one m L)) !! id =
  match declaring kind id L with [] => x | ss => Some (default [] x ++ (is_source_id <$> ss)) end.
Proof.
  revert m. induction L as [|s L IH]; intros m; cbn [foldl]; [done|]. unfold declaring. rewrite filter_cons. cbn zeta.
  assert (E : merged_field kind (ms_exports (merge_one m s)) !! id =
    merge_exports (export_field kind (is_exports s)) (is_source_id s) (merged_field kind (ms_exports m)) !! id) by (by destruct kind).
  rewrite IH, E, merge_exports_lookup. unfold declaring. case_decide; [|done]. cbn.
  destruct (filter _ L); cbn; [done|]. by rewrite <-(assoc_L (++)).
Qed.

Lemma merge_collects L : collects L (merge L).
Proof.
  assert (Hd : ∀ m, ms_facet_domains (foldl merge_one m L) = foldl (λ m s, keep_first (is_facet_domains s) m) (ms_facet_domains m) L)
    by (induction L as [|s L IH]; intros m; cbn [foldl]; [done|by rewrite IH]).
  assert (He : ∀ m, ms_catalogue_entries (foldl merge_one m L) = foldl (λ m s, keep_first (is_catalogue_entries s) m) (ms_catalogue_entries m) L)
    by (clear Hd; induction L as [|s L IH]; intros m; cbn [foldl]; [done|by rewrite IH]).
  assert (Hl : ∀ m, ms_binding_links (foldl merge_one m L) = foldl (λ m s, keep_first (is_binding_links s) m) (ms_binding_links m) L)
    by (clear Hd He; induction L as [|s L IH]; intros m; cbn [foldl]; [done|by rewrite IH]).
  assert (Ho : ∀ m, ms_open_facets (foldl merge_one m L) = ms_open_facets m ∪ ⋃ (is_open_facets <$> L))
    by (clear Hd He Hl; induction L as [|s L IH]; intros m; cbn [foldl fmap list_fmap union_list foldr]; [set_solver|rewrite IH; cbn; set_solver]).
  assert (Hr : ∀ m, ms_requirements (foldl merge_one m L) = ms_requirements m ++ mjoin (is_requirements <$> L))
    by (clear Hd He Hl Ho; induction L as [|s L IH]; intros m; cbn [foldl]; [by rewrite app_nil_r|rewrite IH; cbn; by rewrite (assoc_L (++))]).
  assert (Hc : ∀ m, ms_clauses (foldl merge_one m L) = ms_clauses m ++ mjoin (is_clauses <$> L))
    by (clear Hd He Hl Ho Hr; induction L as [|s L IH]; intros m; cbn [foldl]; [by rewrite app_nil_r|rewrite IH; cbn; by rewrite (assoc_L (++))]).
  assert (Hs : ∀ m, ms_selectors (foldl merge_one m L) = ms_selectors m ++ mjoin (is_selectors <$> L))
    by (clear Hd He Hl Ho Hr Hc; induction L as [|s L IH]; intros m; cbn [foldl]; [by rewrite app_nil_r|rewrite IH; cbn; by rewrite (assoc_L (++))]).
  unfold merge. split; cbn [ms_exports ms_selectors ms_facet_domains ms_open_facets ms_catalogue_entries ms_binding_links ms_requirements ms_clauses].
  - rewrite Hd, gather_keep. apply (left_id_L ∅ (∪)).
  - rewrite Ho. cbn. set_solver.
  - rewrite He, gather_keep. apply (left_id_L ∅ (∪)).
  - rewrite Hl, gather_keep. apply (left_id_L ∅ (∪)).
  - unfold sort_requirements. by rewrite (merge_sort_Permutation requirement_le), Hr.
  - apply Sorted_merge_sort, _.
  - unfold sort_clauses. by rewrite (merge_sort_Permutation clause_le), Hc.
  - apply Sorted_merge_sort, _.
  - by rewrite Hs.
  - intros kind id. rewrite merge_exports_fold. assert (E : merged_field kind (ms_exports empty_merged) !! id = None)
      by (destruct kind; apply lookup_empty). rewrite E. unfold declared. destruct (declaring kind id L) as [|s ss]; [done|].
    cbn [default]. rewrite length_app, length_fmap. cbn. lia.
Qed.

Lemma merge_headers_fields hs :
  ms_facet_domains (merge_headers hs) = gather (oh_facet_domains <$> hs) ∧
  ms_open_facets (merge_headers hs) = ⋃ (oh_open_facets <$> hs) ∧
  ms_catalogue_entries (merge_headers hs) = gather (oh_catalogue_entries <$> hs) ∧
  ms_binding_links (merge_headers hs) = gather (oh_binding_links <$> hs) ∧
  ms_requirements (merge_headers hs) ≡ₚ mjoin (oh_requirements <$> hs) ∧
  ms_clauses (merge_headers hs) ≡ₚ mjoin (oh_clauses <$> hs) ∧
  ms_selectors (merge_headers hs) = mjoin (oh_selectors <$> hs).
Proof.
  assert (Hd : ∀ m, ms_facet_domains (foldl merge_header m hs) = foldl (λ m s, keep_first (oh_facet_domains s) m) (ms_facet_domains m) hs)
    by (induction hs as [|s hs IH]; intros m; cbn [foldl]; [done|by rewrite IH]).
  assert (He : ∀ m, ms_catalogue_entries (foldl merge_header m hs) = foldl (λ m s, keep_first (oh_catalogue_entries s) m) (ms_catalogue_entries m) hs)
    by (clear Hd; induction hs as [|s hs IH]; intros m; cbn [foldl]; [done|by rewrite IH]).
  assert (Hl : ∀ m, ms_binding_links (foldl merge_header m hs) = foldl (λ m s, keep_first (oh_binding_links s) m) (ms_binding_links m) hs)
    by (clear Hd He; induction hs as [|s hs IH]; intros m; cbn [foldl]; [done|by rewrite IH]).
  assert (Ho : ∀ m, ms_open_facets (foldl merge_header m hs) = ms_open_facets m ∪ ⋃ (oh_open_facets <$> hs))
    by (clear Hd He Hl; induction hs as [|s hs IH]; intros m; cbn [foldl fmap list_fmap union_list foldr]; [set_solver|rewrite IH; cbn; set_solver]).
  assert (Hr : ∀ m, ms_requirements (foldl merge_header m hs) = ms_requirements m ++ mjoin (oh_requirements <$> hs))
    by (clear Hd He Hl Ho; induction hs as [|s hs IH]; intros m; cbn [foldl]; [by rewrite app_nil_r|rewrite IH; cbn; by rewrite (assoc_L (++))]).
  assert (Hc : ∀ m, ms_clauses (foldl merge_header m hs) = ms_clauses m ++ mjoin (oh_clauses <$> hs))
    by (clear Hd He Hl Ho Hr; induction hs as [|s hs IH]; intros m; cbn [foldl]; [by rewrite app_nil_r|rewrite IH; cbn; by rewrite (assoc_L (++))]).
  assert (Hs : ∀ m, ms_selectors (foldl merge_header m hs) = ms_selectors m ++ mjoin (oh_selectors <$> hs))
    by (clear Hd He Hl Ho Hr Hc; induction hs as [|s hs IH]; intros m; cbn [foldl]; [by rewrite app_nil_r|rewrite IH; cbn; by rewrite (assoc_L (++))]).
  unfold merge_headers. cbn [ms_selectors ms_facet_domains ms_open_facets ms_catalogue_entries ms_binding_links ms_requirements ms_clauses]. split_and!.
  - rewrite Hd, gather_keep. apply (left_id_L ∅ (∪)).
  - rewrite Ho. cbn. set_solver.
  - rewrite He, gather_keep. apply (left_id_L ∅ (∪)).
  - rewrite Hl, gather_keep. apply (left_id_L ∅ (∪)).
  - unfold sort_requirements. by rewrite (merge_sort_Permutation requirement_le), Hr.
  - unfold sort_clauses. by rewrite (merge_sort_Permutation clause_le), Hc.
  - by rewrite Hs.
Qed.

(** ** Both merges describe the repository *)

(** A merged summary of the declarations of [raw]: requirements and constraints
    in key order, the selectors in some order, and one owner for each declared
    id. *)
Record describes (raw : Config) (m : MergedSummary) : Prop := {
  ds_domains : ms_facet_domains m = domains_of raw;
  ds_open : ms_open_facets m = open_of raw;
  ds_entries : ms_catalogue_entries m = entries_of raw;
  ds_links : ms_binding_links m = links_of raw;
  ds_requirements : ms_requirements m = merge_sort requirement_le (all_requirements raw);
  ds_clauses : ms_clauses m = merge_sort clause_le (all_clauses raw);
  ds_selectors : ms_selectors m ≡ₚ all_selectors raw;
  ds_exports : ∀ kind id,
    match merged_field kind (ms_exports m) !! id with
    | Some owners => length owners = 1%nat ∧ id ∈ export_field kind (exports_of raw)
    | None => id ∉ export_field kind (exports_of raw)
    end;
}.

Lemma elem_open_of c id : id ∈ open_of c ↔ ∃ f, facets c !! id = Some f ∧ fc_open f = true.
Proof.
  unfold open_of. rewrite elem_of_dom. unfold is_Some. setoid_rewrite map_lookup_filter_Some. done.
Qed.

Lemma flat_map_perm {A B} (f : A → list B) l l' : l ≡ₚ l' → flat_map f l ≡ₚ flat_map f l'.
Proof. intros Hp. by apply Permutation_flat_map. Qed.

Lemma flat_map_join {A B} (f : A → list B) ls : flat_map f (mjoin ls) = mjoin (flat_map f <$> ls).
Proof. induction ls as [|l ls IH]; [done|]. change (flat_map f (l ++ mjoin ls) = flat_map f l ++ mjoin (flat_map f <$> ls)). by rewrite flat_map_app, IH. Qed.

Lemma fmap_join {A B} (f : A → B) (ls : list (list A)) : f <$> mjoin ls = mjoin (fmap f <$> ls).
Proof. induction ls as [|l ls IH]; [done|]. change (f <$> (l ++ mjoin ls) = (f <$> l) ++ mjoin (fmap f <$> ls)). by rewrite fmap_app, IH. Qed.

Lemma join_perm {A} (ls ls' : list (list A)) : Forall2 Permutation ls ls' → mjoin ls ≡ₚ mjoin ls'.
Proof. induction 1 as [|l l' ls ls' Hl _ IH]; [done|]. change (l ++ mjoin ls ≡ₚ l' ++ mjoin ls'). by rewrite Hl, IH. Qed.

Lemma join_swap_perm {A} (ls ls' : list (list A)) : ls ≡ₚ ls' → mjoin ls ≡ₚ mjoin ls'.
Proof. induction 1 as [|l ls ls' _ IH|l k ls|? ? ? _ IH1 _ IH2]; cbn; [done|by rewrite IH|by rewrite !(assoc_L (++)), (Permutation_app_comm k l)|by rewrite IH1]. Qed.

Section Describes.
Context `{HashOrder}.
Implicit Types ks : list SourceChunk.

Notation summary k := (summarize (sc_config k) (sc_source_id k)).

Lemma summaries_field {A} (f : InterfaceSummary → A) (g : Config → A) ks :
  (∀ c s, summary_of c s → f s = g c) → f <$> interface_summaries (compiled ks) = g <$> (sc_config <$> ks).
Proof.
  intros Hf. unfold interface_summaries. cbn. rewrite <-!list_fmap_compose. apply list_fmap_ext. intros i k _. cbn.
  apply Hf, summarize_spec.
Qed.

Lemma summaries_lists {A} (f : InterfaceSummary → list A) (g : Config → list A) ks :
  (∀ c s, summary_of c s → f s ≡ₚ g c) →
  mjoin (f <$> interface_summaries (compiled ks)) ≡ₚ mjoin (g <$> (sc_config <$> ks)).
Proof.
  intros Hf. apply join_perm. unfold interface_summaries. cbn. rewrite <-!list_fmap_compose.
  induction ks as [|k ks IH]; [constructor|]. cbn. constructor; [|done]. apply Hf, summarize_spec.
Qed.

(** A kind of declarations summed up per chunk is that of the repository. *)
Lemma gather_repository {A B} (f : Config → gmap string A) (g : A → B) ks :
  (∀ a b, f (join_config a b) = f a ∪ f b) → f new_repository = ∅ →
  gather ((λ c, g <$> f c) <$> (sc_config <$> ks)) = g <$> f (repository (compiled ks)).
Proof. intros Hf Hn. rewrite (repository_field f) by done. rewrite gather_fmap. by rewrite <-!list_fmap_compose. Qed.

Lemma lists_repository {A B} (f : Config → gmap string A) (g : list (string * A) → list B) ks :
  (∀ a b, f (join_config a b) = f a ∪ f b) → f new_repository = ∅ → (∀ p q, apart p q → f p ##ₘ f q) →
  List.ForallOrdPairs chunk_apart ks →
  (∀ l l', l ≡ₚ l' → g l ≡ₚ g l') → (∀ ls, g (mjoin ls) = mjoin (g <$> ls)) →
  mjoin ((λ c, g (bt_list (f c))) <$> (sc_config <$> ks)) ≡ₚ g (bt_list (f (repository (compiled ks)))).
Proof.
  intros Hf Hn Ha Hks Hp Hj. rewrite (repository_field f) by done.
  rewrite (Hp _ _ (bt_list_gather _ (chunks_disjoint f ks Ha Hks))), Hj, <-!list_fmap_compose. done.
Qed.

Lemma open_repository ks :
  List.ForallOrdPairs chunk_apart ks → ⋃ (open_of <$> (sc_config <$> ks)) = open_of (repository (compiled ks)).
Proof.
  intros Hks. apply set_eq. intros id. rewrite elem_of_union_list, elem_open_of.
  rewrite (repository_field facets) by done.
  setoid_rewrite gather_Some; [|by apply (chunks_disjoint facets ks); [apply ap_facets|]].
  setoid_rewrite list_elem_of_fmap. split.
  - intros (X & (c & -> & Hc) & Hid). apply elem_open_of in Hid as (f & Hf & Ho). exists f. split; [|done].
    exists (facets c). split; [by exists c|done].
  - intros (f & (m & (c & -> & Hc) & Hm) & Ho). exists (open_of c). split; [by exists c|]. apply elem_open_of. eauto.
Qed.

Lemma join_both {A} (fs gs : list (list A)) (l : list (list A * list A)) :
  fs = fst <$> l → gs = snd <$> l → mjoin ((λ p, p.1 ++ p.2) <$> l) ≡ₚ mjoin fs ++ mjoin gs.
Proof.
  intros -> ->. induction l as [|[f g] l IH]; [done|]. rewrite !fmap_cons.
  change ((f ++ g) ++ mjoin ((λ p, p.1 ++ p.2) <$> l) ≡ₚ (f ++ mjoin (fst <$> l)) ++ g ++ mjoin (snd <$> l)).
  rewrite IH. solve_Permutation.
Qed.

Lemma selectors_repository ks :
  List.ForallOrdPairs chunk_apart ks → mjoin (all_selectors <$> (sc_config <$> ks)) ≡ₚ all_selectors (repository (compiled ks)).
Proof.
  intros Hks. unfold all_selectors, definition_selectors.
  pose proof (lists_repository definitions (flat_map (λ kd, parameter_selectors kd.2 ("definitions." +:+ kd.1))) ks) as H1.
  pose proof (lists_repository components (flat_map (λ kc, component_selectors kc.1 kc.2)) ks) as H2.
  rewrite <-H1, <-H2; try done; try apply flat_map_perm; try apply flat_map_join; [|apply ap_components|apply ap_definitions].
  rewrite <-(join_both _ _ ((λ c, (flat_map (λ kd, parameter_selectors kd.2 ("definitions." +:+ kd.1)) (bt_list (definitions c)),
     flat_map (λ kc, component_selectors kc.1 kc.2) (bt_list (components c)))) <$> (sc_config <$> ks))); [|by rewrite <-!list_fmap_compose..].
  by rewrite <-!list_fmap_compose.
Qed.

(** At most one of the summaries of disjoint chunks declares an id, and one does
    exactly when the repository does. *)
Lemma declaring_chunks kind ks id :
  List.ForallOrdPairs chunk_apart ks →
  (length (declaring kind id (interface_summaries (compiled ks))) ≤ 1)%nat ∧
  (declaring kind id (interface_summaries (compiled ks)) = [] ↔ id ∉ export_field kind (exports_of (repository (compiled ks)))).
Proof.
  intros Hks. rewrite exports_repository. unfold declaring, interface_summaries. cbn [chunks compiled].
  assert (Hf : ∀ p q, apart p q → export_field kind (exports_of p) ## export_field kind (exports_of q))
    by (intros p q []; destruct kind; cbn; by apply map_disjoint_dom).
  assert (He : ∀ k, export_field kind (is_exports (summary k)) = export_field kind (exports_of (sc_config k)))
    by (intros k; by rewrite (so_exports _ _ (proj1 (summarize_spec (sc_config k) (sc_source_id k))))).
  assert (Hnil : ∀ ks, filter (λ s, id ∈ export_field kind (is_exports s)) ((λ k, summary k) <$> ks) = [] ↔
    ~ ∃ k, k ∈ ks ∧ id ∈ export_field kind (exports_of (sc_config k))).
  { clear -He. intros ks. split.
    - intros E (k & Hk & Hid). rewrite <-He in Hid. apply (not_elem_of_nil (summary k)). rewrite <-E.
      apply list_elem_of_filter. split; [done|]. by apply (list_elem_of_fmap_2 (λ k, summary k)).
    - intros Hn. apply elem_of_nil_inv. intros s [Hid (k & -> & Hk)%list_elem_of_fmap]%list_elem_of_filter. apply Hn. rewrite He in Hid. eauto. }
  split; [|apply Hnil]. induction Hks as [|k ks Hk _ IH]; [cbn; lia|]. rewrite fmap_cons, filter_cons. case_decide as Hid; [|done].
  rewrite (proj2 (Hnil ks)); [done|]. intros (k' & Hk' & Hid'). rewrite He in Hid. rewrite Forall_forall in Hk.
  destruct (Hk k' Hk') as (_ & _ & Ha). by apply (Hf _ _ Ha id).
Qed.

(** The fields of a merge do not depend on the order of the summaries. *)
Lemma collects_describes ks L m :
  List.ForallOrdPairs chunk_apart ks → L ≡ₚ interface_summaries (compiled ks) → collects L m →
  describes (repository (compiled ks)) m.
Proof.
  intros Hks HL [Hd Ho He Hl Hr Hrs Hc Hcs Hse Hex].
  assert (Hg : ∀ A B (f : InterfaceSummary → gmap string B) (g : Config → gmap string A) (k : A → B),
    (∀ c s, summary_of c s → f s = k <$> g c) → (∀ a b, g (join_config a b) = g a ∪ g b) → g new_repository = ∅ →
    (∀ p q, apart p q → g p ##ₘ g q) → gather (f <$> L) = k <$> g (repository (compiled ks))).
  { intros A B f g k Hf Hj Hn Ha. rewrite <-(gather_repository g k ks) by done.
    rewrite <-(summaries_field f) by done. symmetry. apply gather_perm; [by rewrite HL|].
    rewrite (summaries_field f (λ c, k <$> g c)) by done. apply (chunks_disjoint (λ c, k <$> g c)); [|done].
    intros p q Hpq. apply map_disjoint_fmap. by apply Ha. }
  split.
  - rewrite Hd. by apply (Hg _ _ _ facets); [apply so_domains| | |apply ap_facets].
  - rewrite Ho, <-open_repository, <-(summaries_field is_open_facets open_of) by (done || apply so_open).
    apply leibniz_equiv. by rewrite HL.
  - rewrite He. by apply (Hg _ _ _ catalogues); [apply so_entries| | |apply ap_catalogues].
  - rewrite Hl. by apply (Hg _ _ _ bindings); [apply so_links| | |apply ap_bindings].
  - apply (sorted_requirements_unique (repository (compiled ks))); [done|apply Sorted_merge_sort, _| |apply merge_sort_Permutation].
    rewrite Hr, (join_swap_perm _ (is_requirements <$> interface_summaries (compiled ks))) by (by rewrite HL).
    rewrite (summaries_lists is_requirements all_requirements) by apply so_requirements.
    apply (lists_repository components (flat_map (λ kc, requirements_of kc.1 kc.2))); try done;
      [apply ap_components|apply flat_map_perm|apply flat_map_join].
  - apply (sorted_clauses_unique (repository (compiled ks))); [done|apply Sorted_merge_sort, _| |apply merge_sort_Permutation].
    rewrite Hc, (join_swap_perm _ (is_clauses <$> interface_summaries (compiled ks))) by (by rewrite HL).
    rewrite (summaries_lists is_clauses all_clauses) by apply so_clauses.
    apply (lists_repository constraints (fmap (λ kc, mkClause kc.1 (cn_condition kc.2)))); try done;
      [apply ap_constraints|intros l l' Hp; by rewrite Hp|apply fmap_join].
  - rewrite Hse, <-selectors_repository, (join_swap_perm _ (is_selectors <$> interface_summaries (compiled ks))) by (done || by rewrite HL).
    assert (E : is_selectors <$> interface_summaries (compiled ks) = all_selectors <$> (sc_config <$> ks)); [|by rewrite E].
    unfold interface_summaries. cbn. rewrite <-!list_fmap_compose. apply list_fmap_ext. intros i k _. apply summarize_selectors.
  - intros kind id. specialize (Hex kind id). destruct (declaring_chunks kind ks id Hks) as [H1 H0].
    assert (Hlen : length (declaring kind id L) = length (declaring kind id (interface_summaries (compiled ks))))
      by (unfold declaring; by rewrite HL). rewrite Hlen in Hex.
    destruct (merged_field kind (ms_exports m) !! id) as [l|]; cbn [declared] in Hex.
    + split; [lia|]. apply dec_stable. intros Hn. apply H0 in Hn. rewrite Hn in Hex. cbn in Hex. lia.
    + apply H0. by apply length_zero_iff_nil.
Qed.

(** The summaries of a unit, in chunk order. *)
Definition unit_summaries (rows : list (SourceChunk * InterfaceSummary)) (u : string) : list InterfaceSummary :=
  snd <$> merge_sort row_le (unit_rows rows u).

Lemma unit_summaries_perm ks us :
  NoDup us → (∀ k, k ∈ ks → cf_package (sc_config k) ∈ us) →
  mjoin (unit_summaries (combine ks (interface_summaries (compiled ks))) <$> us) ≡ₚ interface_summaries (compiled ks).
Proof.
  intros Hnd Hall. set (rows := combine _ _).
  assert (Hrows : rows = (λ k, (k, summary k)) <$> ks) by (apply combine_fmap).
  transitivity (snd <$> mjoin ((λ u, filter (λ ks : SourceChunk * InterfaceSummary, cf_package (sc_config ks.1) = u) rows) <$> us)).
  - rewrite fmap_join, <-list_fmap_compose. apply join_perm, Forall2_fmap, Forall_Forall2_diag, Forall_true. intros u.
    unfold unit_summaries, unit_rows. cbn. rewrite (merge_sort_Permutation row_le), <-list_fmap_compose. done.
  - rewrite (group_perm (λ ks : SourceChunk * InterfaceSummary, cf_package (sc_config ks.1))) by done.
    rewrite filter_whole; [|by rewrite Hrows; intros ? (k & -> & Hk)%list_elem_of_fmap; apply Hall].
    rewrite Hrows. unfold interface_summaries. cbn. rewrite <-list_fmap_compose. done.
Qed.

Context `{IrCodec} `{ObjectCodec}.

Lemma in_memory_units ks :
  ∃ us, NoDup us ∧ (∀ k, k ∈ ks → cf_package (sc_config k) ∈ us) ∧
    merge_sort unit_le (in_memory_headers ks (interface_summaries (compiled ks))) =
    unit_header (combine ks (interface_summaries (compiled ks))) <$> us.
Proof.
  unfold in_memory_headers. set (rows := combine _ _). set (units := list_to_set _ : gset string).
  pose proof (merge_sort_Permutation unit_le (unit_header rows <$> bt_elements units)) as Hp.
  apply Permutation_map_inv in Hp as (us & E & Hp). exists us. split_and!; [|..|exact E].
  - rewrite <-Hp. apply NoDup_bt_elements.
  - intros k Hk. rewrite <-Hp. apply elem_of_bt_elements. unfold units. apply elem_of_list_to_set, list_elem_of_fmap.
    exists (k, summary k). split; [done|]. unfold rows, interface_summaries. cbn [chunks compiled]. rewrite combine_fmap.
    apply list_elem_of_fmap. by exists k.
Qed.

Lemma unit_exports kind rows u id :
  id ∈ export_field kind (oh_exports (unit_header rows u)) ↔ ∃ s, s ∈ unit_summaries rows u ∧ id ∈ export_field kind (is_exports s).
Proof.
  change (oh_exports (unit_header rows u)) with
    (foldl (λ e s, union_exports e (is_exports s)) (mkExports ∅ ∅ ∅ ∅ ∅ ∅ ∅) (unit_summaries rows u)).
  assert (Hf : ∀ L e, id ∈ export_field kind (foldl (λ e s, union_exports e (is_exports s)) e L) ↔
    id ∈ export_field kind e ∨ ∃ s, s ∈ L ∧ id ∈ export_field kind (is_exports s)).
  { induction L as [|s L IH]; intros e; cbn [foldl]; [set_solver|]. rewrite IH.
    assert (E : id ∈ export_field kind (union_exports e (is_exports s)) ↔
      id ∈ export_field kind e ∨ id ∈ export_field kind (is_exports s)) by (destruct kind; cbn; set_solver).
    rewrite E. setoid_rewrite elem_of_cons. naive_solver. }
  rewrite Hf. assert (Hn : id ∉ export_field kind (mkExports ∅ ∅ ∅ ∅ ∅ ∅ ∅)) by (destruct kind; cbn; set_solver). naive_solver.
Qed.

(** Not more units declare an id than chunks do, and some unit does when a chunk does. *)
Lemma units_declaring kind id rows us :
  let hs := filter (λ h, id ∈ export_field kind (oh_exports h)) (unit_header rows <$> us) in
  let ss := declaring kind id (mjoin (unit_summaries rows <$> us)) in
  (length hs ≤ length ss)%nat ∧ (hs = [] → length ss = 0%nat).
Proof.
  cbn zeta. induction us as [|u us [IH1 IH2]]; [done|]. rewrite !fmap_cons.
  change (mjoin (unit_summaries rows u :: (unit_summaries rows <$> us))) with (unit_summaries rows u ++ mjoin (unit_summaries rows <$> us)).
  unfold declaring in *. rewrite filter_cons, filter_app, length_app. case_decide as Hid.
  - split; [|done]. cbn. apply unit_exports in Hid as (s & Hs & Hid).
    assert (Hin : s ∈ filter (λ s, id ∈ export_field kind (is_exports s)) (unit_summaries rows u)) by (by apply list_elem_of_filter).
    destruct (filter _ (unit_summaries rows u)); [by apply not_elem_of_nil in Hin|cbn; lia].
  - assert (E : filter (λ s, id ∈ export_field kind (is_exports s)) (unit_summaries rows u) = []).
    { apply elem_of_nil_inv. intros s [Hs Hin]%list_elem_of_filter. apply Hid, unit_exports. eauto. }
    rewrite E. cbn. done.
Qed.

Lemma merge_headers_collects ks :
  ∃ L, L ≡ₚ interface_summaries (compiled ks) ∧
    collects L (merge_headers (merge_sort unit_le (in_memory_headers ks (interface_summaries (compiled ks))))).
Proof.
  destruct (in_memory_units ks) as (us & Hnd & Hall & ->). set (rows := combine _ _).
  exists (mjoin (unit_summaries rows <$> us)). split; [by apply unit_summaries_perm|].
  destruct (merge_headers_fields (unit_header rows <$> us)) as (Hd & Ho & He & Hl & Hr & Hc & Hs).
  assert (Hg : ∀ A (f : InterfaceSummary → gmap string A) (g : ObjectHeader → gmap string A),
    (∀ u, g (unit_header rows u) = foldl (λ m s, keep_first (f s) m) ∅ (unit_summaries rows u)) →
    gather (g <$> (unit_header rows <$> us)) = gather (f <$> mjoin (unit_summaries rows <$> us))).
  { intros A f g Hf. rewrite fmap_join, <-gather_join, <-!list_fmap_compose. f_equal. apply list_fmap_ext. intros i u _. cbn.
    rewrite Hf, gather_keep. apply (left_id_L ∅ (∪)). }
  assert (Hj : ∀ A (f : InterfaceSummary → list A) (g : ObjectHeader → list A),
    (∀ u, g (unit_header rows u) ≡ₚ mjoin (f <$> unit_summaries rows u)) →
    mjoin (g <$> (unit_header rows <$> us)) ≡ₚ mjoin (f <$> mjoin (unit_summaries rows <$> us))).
  { intros A f g Hf. clear -Hf. induction us as [|u us IH]; [done|]. rewrite !fmap_cons.
    change (g (unit_header rows u) ++ mjoin (g <$> (unit_header rows <$> us)) ≡ₚ
      mjoin (f <$> (unit_summaries rows u ++ mjoin (unit_summaries rows <$> us)))).
    rewrite fmap_app, join_app. by rewrite Hf, IH. }
  split.
  - rewrite Hd. by apply Hg.
  - rewrite Ho. clear. induction us as [|u us IH]; [done|]. rewrite !fmap_cons.
    change (⋃ (oh_open_facets (unit_header rows u) :: (oh_open_facets <$> (unit_header rows <$> us))) =
      ⋃ (is_open_facets <$> (unit_summaries rows u ++ mjoin (unit_summaries rows <$> us)))).
    rewrite fmap_app, union_list_app_L, union_list_cons, IH. f_equal.
    assert (Hf : ∀ L (o : gset string), foldl (λ o s, o ∪ is_open_facets s) o L = o ∪ ⋃ (is_open_facets <$> L)).
    { clear. induction L as [|s L IH]; intros o; cbn; [set_solver|]. rewrite IH. set_solver. }
    cbn [oh_open_facets unit_header]. unfold unit_header, from_summaries. cbn. rewrite Hf. apply (left_id_L ∅ (∪)).
  - rewrite He. by apply Hg.
  - rewrite Hl. by apply Hg.
  - rewrite Hr. apply Hj. intros u. unfold unit_header, from_summaries. cbn. apply merge_sort_Permutation.
  - apply Sorted_merge_sort, _.
  - rewrite Hc. apply Hj. done.
  - apply Sorted_merge_sort, _.
  - rewrite Hs. apply Hj. done.
  - intros kind id. rewrite merged_exports_lookup.
    pose proof (units_declaring kind id rows us) as [Hle Hno]. unfold declared, declarers.
    destruct (filter (λ h, id ∈ export_field kind (oh_exports h)) (unit_header rows <$> us)) as [|h l]; cbn in *; [by apply Hno|].
    rewrite length_fmap. lia.
Qed.

Lemma whole_describes ks :
  chunks_ok ks → describes (repository (compiled ks)) (merge (interface_summaries (compiled ks))).
Proof. intros [Ha _ _]. eapply collects_describes; [done|reflexivity|apply merge_collects]. Qed.

Lemma linked_describes ks :
  chunks_ok ks →
  describes (repository (compiled ks))
    (merge_headers (merge_sort unit_le (in_memory_headers ks (interface_summaries (compiled ks))))).
Proof. intros [Ha _ _]. destruct (merge_headers_collects ks) as (L & HL & HC). by eapply collects_describes. Qed.
End Describes.

(** Constraint models that are the same up to the order of the clauses that
    introduce the symbols. *)
Record same_model (a b : ConditionModel) : Prop := {
  sm_hash : bound_model_hash a = bound_model_hash b;
  sm_clauses : clauses a ≡ₚ clauses b;
  sm_constraints : Emitter.constraints a = Emitter.constraints b;
  sm_cardinality : cardinality a = cardinality b;
  sm_domains : facet_domains a = facet_domains b;
}.

(** What the checks and the model read is in the description. *)
Lemma described_checks raw m m' scope :
  describes raw m → describes raw m' →
  validate_binding_links m' scope = validate_binding_links m scope ∧ validate_requirements m' scope = validate_requirements m scope.
Proof. intros [] []. destruct m, m'. cbn in *. subst. split; reflexivity. Qed.

(** A description has unique exports when no binding has the id of a facet. *)
Lemma described_unique raw m :
  describes raw m → dom (bindings raw) ## dom (facets raw) → validate_unique_exports m = Ok tt.
Proof.
  intros Hd Hap. pose proof (ds_exports _ _ Hd) as Hx.
  assert (Hone : ∀ kind, unique_index (merged_field kind (ms_exports m))).
  { intros kind id l Hl. specialize (Hx kind id). rewrite Hl in Hx. destruct Hx as [-> _]. done. }
  apply unique_exports_exact. split.
  { rewrite !Forall_cons. split_and!; [apply (Hone KComponent)|apply (Hone KDefinition)|apply (Hone KArtifact)|apply (Hone KCatalogue)
      |apply (Hone KFacet)|apply (Hone KBinding)|constructor]. }
  intros id [l Hl]. pose proof (Hx KBinding id) as Hb. pose proof (Hx KFacet id) as Hf. cbn in Hb, Hf. rewrite Hl in Hb.
  destruct (mx_facets (ms_exports m) !! id); [|done]. exfalso. apply (Hap id); [apply Hb|apply Hf].
Qed.

(** A description declares no id twice. *)
Lemma described_once raw m : describes raw m → check_duplicate_ids m = Ok tt.
Proof.
  intros Hd. pose proof (ds_exports _ _ Hd) as Hx. unfold check_duplicate_ids. apply for_each_Ok. intros [kind index] Hin.
  assert (E : index = merged_field kind (ms_exports m)).
  { unfold export_namespaces in Hin. rewrite !elem_of_cons, elem_of_nil in Hin. by destruct_or! Hin; simplify_eq. }
  subst index. unfold check_once. apply for_each_Ok. intros [id l] Hl%elem_bt_list. cbn in *. specialize (Hx kind id). rewrite Hl in Hx.
  destruct Hx as [Hlen _]. by destruct l as [|? [|? ?]].
Qed.

(** ** The model of a description *)

Lemma first_seen_spec {A} `{Countable A} (l : list A) seen :
  NoDup (first_seen seen l) ∧ ∀ x, x ∈ first_seen seen l ↔ x ∈ l ∧ x ∉ seen.
Proof.
  revert seen. induction l as [|y l IH]; intros seen; cbn [first_seen].
  { split; [constructor|]. intros x. split; [by intros ?%not_elem_of_nil|by intros [?%not_elem_of_nil _]]. }
  case_decide as Hy.
  - destruct (IH seen) as [Hn Hx]. split; [done|]. intros x. rewrite Hx, elem_of_cons. naive_solver.
  - destruct (IH ({[y]} ∪ seen)) as [Hn Hx]. split; [constructor; [rewrite Hx; set_solver|done]|].
    intros x. rewrite !elem_of_cons, Hx. destruct (decide (x = y)) as [->|]; set_solver.
Qed.

Lemma first_seen_perm {A} `{Countable A} (l l' : list A) : l ≡ₚ l' → first_seen ∅ l ≡ₚ first_seen ∅ l'.
Proof.
  intros Hp. apply NoDup_Permutation; [apply first_seen_spec..|]. intros x. rewrite !(proj2 (first_seen_spec _ _)). by rewrite Hp.
Qed.

Lemma described_declared raw m m' : describes raw m → describes raw m' → declared_facets_from_summary m' = declared_facets_from_summary m.
Proof. intros [] []. destruct m, m'. cbn in *. subst. reflexivity. Qed.

Lemma described_model raw m m' hash :
  describes raw m → describes raw m' →
  same_model (condition_model_from_summary hash m') (condition_model_from_summary hash m).
Proof.
  intros Hd Hd'. pose proof (described_declared _ _ _ Hd Hd') as E. unfold condition_model_from_summary. rewrite E. split; cbn; [done| |..].
  - unfold ccm_clauses. apply Permutation_app; [|done]. apply first_seen_perm, flat_map_perm.
    by rewrite (ds_selectors _ _ Hd), (ds_selectors _ _ Hd').
  - unfold ccm_constraints. by rewrite (ds_clauses _ _ Hd), (ds_clauses _ _ Hd'), (ds_links _ _ Hd), (ds_links _ _ Hd'),
      (ds_requirements _ _ Hd), (ds_requirements _ _ Hd').
  - done.
  - done.
Qed.

(** ** Separate units *)

Lemma ingested `{HashOrder} `{IrCodec} toml_from_str json_from_str sources c :
  ingest toml_from_str json_from_str sources new_compiler = (Ok tt, c) → ∃ ks, chunks_ok ks ∧ c = compiled ks.
Proof.
  intros Hi. change new_compiler with (compiled []) in Hi. apply ingest_compiled in Hi as (ks & _ & Hks & ->); [eauto|].
  split; constructor.
Qed.

(** C4: Splitting a model into units does not change it.  For sources that are
    ingested, the merge of the chunks' summaries and the merge of the units'
    headers are both descriptions of the merged repository: the same facet
    domains, open facets, catalogue rosters and binding links, its requirements
    and constraints in the same order, its selectors, and one owner for each
    declared id.  So the checks of a merged summary (unique exports, binding
    links and requirements) give the same verdict on both, the same error
    included, no id is declared by two units, and the constraint model lowered
    from the headers is the one lowered from the chunks: the same hash,
    constraints, cardinality conjuncts and domains, and the same clauses up to
    their order. *)
Theorem split_into_units (Ho : HashOrder) (Hc : IrCodec) (Hoc : ObjectCodec) toml_from_str json_from_str sources c hash scope :
  ingest toml_from_str json_from_str sources new_compiler = (Ok tt, c) →
  let whole := merge (interface_summaries c) in
  let linked := merge_headers (merge_sort unit_le (in_memory_headers (chunks c) (interface_summaries c))) in
  describes (repository c) whole ∧ describes (repository c) linked ∧
  validate_merged_summary linked scope = validate_merged_summary whole scope ∧
  check_duplicate_ids linked = Ok tt ∧
  same_model (link_stage_model hash linked) (condition_model_from_summary hash whole).
Proof.
  intros (ks & Hks & ->)%ingested whole linked. pose proof (whole_describes ks Hks) as Hw. pose proof (linked_describes ks Hks) as Hl.
  destruct (described_checks _ _ _ scope Hw Hl) as [Hb Hr]. pose proof (ingested_apart ks Hks) as Hap.
  split; [exact Hw|]. split; [exact Hl|]. split; [|split; [by eapply described_once|by eapply described_model]].
  pose proof (described_unique _ _ Hl Hap) as Ul. pose proof (described_unique _ _ Hw Hap) as Uw. fold whole in Uw, Hb, Hr.
  change (merge_headers _) with linked in Ul, Hb, Hr. unfold validate_merged_summary. by rewrite Ul, Uw, Hb, Hr.
Qed.

Lemma split_into_units_witness :
  let rows := interface_summaries (H := sorted_order) demo_compiler in
  let headers := in_memory_headers (H := demo_codec) (H0 := demo_object_codec) (chunks demo_compiler) rows in
  length headers = 2%nat ∧
  same_model (link_stage_model "aa" (merge_headers (merge_sort unit_le headers))) (condition_model_from_summary "aa" (merge rows)).
Proof.
  split; [vm_compute; reflexivity|].
  apply (split_into_units sorted_order demo_codec demo_object_codec (λ _, None) demo_json demo_sources demo_compiler "aa" Complete).
  exact demo_ingested.
Defined.
