(* ===== verification/EndToEnd.v ===== *)
(** * From the sources to the table

    The pipeline end to end: sources are ingested, the model is verified, its
    summary is lowered to a condition model, the emitter writes a decision
    diagram and the solver's reader loads it.  The table it loads answers what
    the sources declare. *)
From S2P Require Import Bdd BddLayout BddBytes CcmFormat.
From S2P Require Import Prelude Tokens Ast Eval Implication FacetCompare SelectionEval Rewrite VarOrder Emitter Text Schema.
From S2P Require Import Resolver ResolverProps InterfaceSummary LinkVerify LinkGraph LinkVerifyProps SummaryProps.
From S2P Require Import ParseContext Lowering LoweringProps Ir IrProps Ingest IngestProps Object Link LinkProps LinkModel.

(** ** What a configuration declares of a selection *)

(** Every facet and binding has a value, a declared one when it is closed. *)
Definition selects_from (raw : Config) (sigma : gmap string string) : Prop :=
  ∀ id f, effective_facets raw !! id = Some f → ∃ v, sigma !! id = Some v ∧ (fc_open f = false → v ∈ fc_values f).

Record complies (raw : Config) (sigma : gmap string string) : Prop := {
  cy_constraints : ∀ id c e, Schema.constraints raw !! id = Some c → parse_condition_expr (cn_condition c) = Ok e →
    eval_total e sigma = true;
  cy_derive : ∀ id b rows source table k entry, bindings raw !! id = Some b → bd_derive b = Some rows →
    rows !! source = Some table → table !! k = Some entry → sigma !! source = Some k → sigma !! id = Some entry;
  cy_accepts : ∀ id comp slot rq accepts, components raw !! id = Some comp → requires comp !! slot = Some rq →
    rq_accepts rq = Some accepts → included_at sigma (cp_condition comp) →
    ∃ e, e ∈ accepts ∧ sigma !! rq_binding rq = Some e;
}.

(** No facet or binding is called like a literal of the grammar. *)
Definition no_keyword (raw : Config) : Prop :=
  ∀ id, id ∈ dom (facets raw) ∪ dom (bindings raw) → id ≠ "true" ∧ id ≠ "false".

(** ** The description of a verified repository *)

Section Verified.
Context (raw : Config) (m : MergedSummary).
Hypothesis Hd : describes raw m.
Hypothesis Hapart : dom (bindings raw) ## dom (facets raw).

Lemma domain_declared id values :
  ms_facet_domains m !! id = Some values →
  ∃ f, effective_facets raw !! id = Some f ∧ fc_values f = values ∧ facets raw !! id = Some f.
Proof using Hd Hapart.
  rewrite (ds_domains _ _ Hd). unfold domains_of. rewrite lookup_fmap_Some. intros (f & <- & Hf). exists f. split_and!; [|done|done].
  unfold effective_facets. rewrite lookup_union_r; [done|]. unfold binding_facets. apply eq_None_not_Some.
  intros [x Hx]. apply lookup_omap_Some in Hx as (b & _ & Hb). apply (Hapart id); by eapply elem_of_dom_2.
Qed.

Lemma link_declared id link values :
  ms_binding_links m !! id = Some link → ms_catalogue_entries m !! bl_catalogue link = Some values →
  ∃ b, bindings raw !! id = Some b ∧ link = link_of b ∧
    ∃ f, effective_facets raw !! id = Some f ∧ fc_values f = values ∧ fc_open f = false.
Proof using Hd.
  rewrite (ds_links _ _ Hd), (ds_entries _ _ Hd). unfold links_of, entries_of. rewrite !lookup_fmap_Some.
  intros (b & <- & Hb) (cat & <- & Hc). exists b. split_and!; [done|done|].
  assert (Ecat : bl_catalogue (link_of b) = bd_catalogue b).
  { unfold link_of. destruct (bd_derive b) as [t|]; [|done]. by destruct (bt_list t) as [|[? ?] ?]. }
  rewrite Ecat in Hc. exists (binding_facet b cat). split_and!; [|done|done]. unfold effective_facets. apply lookup_union_Some_l.
  unfold binding_facets. rewrite lookup_omap, Hb. cbn. by rewrite Hc.
Qed.

Lemma description_named summaries : verified_model raw summaries → no_keyword raw → well_named m.
Proof using Hd Hapart.
  intros Hv Hk.
  assert (Hn : ∀ id f, effective_facets raw !! id = Some f → id ∈ dom (facets raw) ∪ dom (bindings raw) → named id (fc_values f)).
  { intros id f Hf Hin. destruct (vm_facets _ _ Hv id f Hf) as [Hs Ht _ Hnd _]. destruct (Hk id Hin). split_and!; [by apply snake_facet_name| |done].
    by apply Forall_forall. }
  split.
  - intros id values Hf. destruct (domain_declared id values Hf) as (f & He & <- & Hr). apply Hn; [done|].
    apply elem_of_union_l. by eapply elem_of_dom_2.
  - intros id link values Hl He. destruct (link_declared id link values Hl He) as (b & Hb & _ & f & Hf & <- & _). apply Hn; [done|].
    apply elem_of_union_r. by eapply elem_of_dom_2.
Qed.

Lemma description_selects sigma : selects_from raw sigma → selects m sigma.
Proof using Hd Hapart.
  intros Hs id f Hf. apply declared_lookup in Hf as [(link & values & Hl & He & ->)|(values & Hv & ->)]; cbn.
  - destruct (link_declared id link values Hl He) as (b & _ & _ & f & Hf & <- & Ho). destruct (Hs id f Hf) as (v & Hv & Hc).
    exists v. split; [done|]. intros _. by apply Hc.
  - destruct (domain_declared id values Hv) as (f & Hf & <- & Hr). destruct (Hs id f Hf) as (v & Hval & Hc). exists v. split; [done|].
    intros Ho. apply Hc. apply not_true_iff_false. intros Ht. apply bool_decide_eq_false in Ho. apply Ho.
    rewrite (ds_open _ _ Hd). apply elem_open_of. eauto.
Qed.

(** A checked link has one [derive] source at most. *)
Lemma one_source id link : check_binding_link m Complete id link = Ok tt → derive_source_count link ≤ 1.
Proof using.
  clear. unfold check_binding_link. rewrite bail_bind. intros [_ E].
  destruct (ms_catalogue_entries m !! bl_catalogue link) as [entries|]; [|done].
  apply check_then in E as [_ E]. apply bail_bind in E as [E _]. apply Nat.ltb_ge in E. lia.
Qed.

Lemma derive_rows b source k entry :
  derive_source_count (link_of b) ≤ 1 →
  (derive_source (link_of b) = Some source ∧ (k, entry) ∈ derive_pairs (link_of b)) ↔
  ∃ rows table, bd_derive b = Some rows ∧ rows !! source = Some table ∧ table !! k = Some entry.
Proof using.
  clear. unfold link_of. destruct (bd_derive b) as [rows|]; [|cbn; naive_solver].
  destruct (bt_list rows) as [|[s t] l] eqn:El; cbn.
  - apply bt_list_nil in El as ->. intros _. split; [naive_solver|]. intros (? & ? & [= <-] & Hn & _). by rewrite lookup_empty in Hn.
  - intros Hsz. assert (Hrow : ∀ s' t', rows !! s' = Some t' ↔ s' = s ∧ t' = t).
    { assert (l = []) as ->.
      { destruct l as [|x l]; [done|]. assert (Hlen : length (bt_list rows) = size rows).
        { rewrite <-(length_map_to_list rows). apply Permutation_length. apply NoDup_Permutation;
            [eapply NoDup_fmap_1, NoDup_bt_list|apply NoDup_map_to_list|].
          intros [a b']. by rewrite elem_bt_list, elem_of_map_to_list. }
        rewrite El in Hlen. cbn in Hlen. lia. }
      intros s' t'. rewrite <-elem_bt_list, El, list_elem_of_singleton. naive_solver. }
    rewrite elem_bt_list. split.
    + intros ([= <-] & Hk). exists rows, t. split_and!; [done|by apply Hrow|done].
    + intros (? & table & [= <-] & [-> ->]%Hrow & Hk). done.
Qed.

Lemma description_complies sigma : validate_linked_summary m = Ok tt → obeys m sigma ↔ complies raw sigma.
Proof using Hd.
  intros [Hl _]%linked_summary_ok. split.
  - intros [Hc Hde Ha]. split.
    + intros id c e Hk. apply (Hc (mkClause id (cn_condition c))). rewrite (ds_clauses _ _ Hd), (merge_sort_Permutation clause_le).
      apply elem_all_clauses. eauto.
    + intros id b rows source table k entry Hb Hrows Ht Hk Hs. assert (Hlk : ms_binding_links m !! id = Some (link_of b))
        by (rewrite (ds_links _ _ Hd); unfold links_of; by rewrite lookup_fmap, Hb).
      assert (Hr : derive_source (link_of b) = Some source ∧ (k, entry) ∈ derive_pairs (link_of b))
        by (apply derive_rows; [by eapply one_source, Hl|eauto]). destruct Hr as [Hsrc Hp]. by eapply Hde.
    + intros id comp slot rq accepts Hcomp Hrq Hacc Hinc.
      apply (Ha (mkRequirementLink id slot (rq_binding rq) (rq_accepts rq) (cp_condition comp)) accepts); [|done|done].
      rewrite (ds_requirements _ _ Hd), (merge_sort_Permutation requirement_le). apply elem_all_requirements. eauto 10.
  - intros [Hc Hde Ha]. split.
    + intros c e. rewrite (ds_clauses _ _ Hd), (merge_sort_Permutation clause_le). intros (id & k & Hk & ->)%elem_all_clauses. by apply (Hc id k).
    + intros id link source k entry Hlk Hsrc Hp Hs. pose proof (one_source _ _ (Hl id link Hlk)) as H1.
      rewrite (ds_links _ _ Hd) in Hlk. unfold links_of in Hlk. apply lookup_fmap_Some in Hlk as (b & <- & Hb).
      destruct (proj1 (derive_rows b source k entry H1) (conj Hsrc Hp)) as (rows & table & ? & ? & ?). by eapply Hde.
    + intros r accepts. rewrite (ds_requirements _ _ Hd), (merge_sort_Permutation requirement_le).
      intros (id & comp & slot & rq & Hcomp & Hrq & ->)%elem_all_requirements. cbn. by eapply Ha.
Qed.
End Verified.

(** ** The pipeline *)

(** Verification includes the link checks on the merged summaries. *)
Lemma verified_linked `{HashOrder} raw summaries :
  verify_complete_model raw summaries = Ok tt → validate_linked_summary (merge summaries) = Ok tt.
Proof.
  unfold verify_complete_model. intros [_ [_ [_ [_ [Hl _]%check_then]%check_then]%check_then]%check_then]%check_then. exact Hl.
Qed.

(** C2: From the sources to the table.  Sources are ingested and verified, no
    facet or binding is called [true] or [false], the condition model lowered
    from the chunks' summaries parses and the emitter returns bytes: then the
    solver's reader accepts the bytes, and the table it reads holds at a
    selection of the declared facets and bindings exactly when the repository's
    constraints hold, every [derive] row fixes its binding and every included
    component's [accepts] lists have the selected entry. *)
Theorem sources_to_table (Ho : HashOrder) (Hc : IrCodec) toml_from_str json_from_str sources c model_hash exprs h symbols
    cap budget samples bytes st :
  ingest toml_from_str json_from_str sources new_compiler = (Ok tt, c) → link_and_verify c = Ok tt → no_keyword (repository c) →
  let model := condition_model_from_summary model_hash (merge (interface_summaries c)) in
  parse_condition_model model = Ok exprs →
  compute_variable_order exprs h = Some symbols → (N.of_nat (length symbols) < U32_MAX)%N →
  build_bdd_bin_with_builder exprs symbols (with_memo_cap_and_rss_budget cap budget) samples = Ok (bytes, st) →
  (N.of_nat (length (nodes st)) + 2 < TERMINAL_TRUE)%N →
  ∃ raw count p root,
    Forall2 (λ t e, parse_condition_expr t = Ok e) (condition_texts model) raw ∧ node_count bytes = Some count ∧
    parse_bdd_bin bytes (N.of_nat (length symbols)) count = Ok p ∧ bp_roots p = [root] ∧
    ∀ sigma, covers model raw sigma → selects_from (repository c) sigma →
      table_eval (bp_nodes p) root (assignment symbols sigma) = true ↔ complies (repository c) sigma.
Proof.
  intros (ks & Hks & ->)%ingested Hv Hk model Hm Hord Hlen Hb Hn. unfold link_and_verify in Hv.
  pose proof (whole_describes ks Hks) as Hd. pose proof (ingested_apart ks Hks) as Hap.
  pose proof (verified_linked _ _ Hv) as Hl. apply verified_well_formed in Hv.
  destruct (emitted_table _ _ _ _ _ _ _ _ _ Hm Hord Hlen Hb Hn) as (raw & count & p & root & Hraw & Hcnt & Hp & Hr & He).
  exists raw, count, p, root. split_and!; try done. intros sigma Hcov Hs. rewrite (He sigma Hcov).
  rewrite <-(description_complies _ _ Hd sigma Hl). eapply lowered_holds; try done.
  - by eapply description_named.
  - rewrite (ds_clauses _ _ Hd), (merge_sort_Permutation clause_le). apply all_clauses_ids.
  - eapply Forall_impl; [exact Hcov|]. by intros e [? _].
  - by eapply description_selects.
Qed.

(** *** Two chunks, compiled *)

Definition demo_whole : MergedSummary := merge (interface_summaries (H := sorted_order) demo_compiler).
Definition demo_model_of : ConditionModel := condition_model_from_summary (string_of (repeat "a"%char 64)) demo_whole.
Definition demo_parsed : list ConditionExpr :=
  match parse_condition_model demo_model_of with Ok es => es | Err _ => [] end.
Definition demo_order : list symbol := default [] (compute_variable_order demo_parsed Force).

Lemma demo_sources_cover raw :
  Forall2 (λ t e, parse_condition_expr t = Ok e) (condition_texts demo_model_of) raw → covers demo_model_of raw demo_tags.
Proof.
  intros H%parse_clauses_Ok. destruct (collect_results parse_clause (condition_texts demo_model_of)) as [es|] eqn:E; [|done].
  injection H as <-. assert (Hc : Forall (λ e, Forall (λ t, is_Some (demo_tags !! t)) (expr_tags e) ∧
    length (for_each_facet_comparison e) = 0%nat) es).
  { vm_compute in E. injection E as <-. compute_done. }
  eapply Forall_impl; [exact Hc|]. intros e [Ht Hl]. unfold total_for, within_domains. split; [by apply Forall_forall|].
  by destruct (for_each_facet_comparison e).
Qed.

Lemma demo_sources_select : selects_from (repository demo_compiler) demo_tags.
Proof.
  assert (H : forallb (λ nf, match demo_tags !! nf.1 with
    | Some v => fc_open nf.2 || bool_decide (v ∈ fc_values nf.2) | None => false end)
    (map_to_list (effective_facets (repository demo_compiler))) = true) by (vm_compute; reflexivity).
  rewrite forallb_elem in H. intros id f Hf%elem_of_map_to_list. specialize (H _ Hf). cbn [fst snd] in H.
  destruct (demo_tags !! id) as [v|]; [|done].
  exists v. split; [done|]. intros Ho. rewrite Ho in H. by apply bool_decide_eq_true in H.
Qed.

Lemma demo_no_keyword : no_keyword (repository demo_compiler).
Proof.
  set (names := dom (facets (repository demo_compiler)) ∪ dom (bindings (repository demo_compiler))).
  assert (Ht : bool_decide ("true" ∈ names) = false) by (vm_compute; reflexivity).
  assert (Hf : bool_decide ("false" ∈ names) = false) by (vm_compute; reflexivity).
  apply bool_decide_eq_false in Ht, Hf. intros id Hin. split; intros ->; [by apply Ht|by apply Hf].
Qed.

Lemma sources_to_table_witness :
  ∃ bytes st count p root,
    build_bdd_bin_with_builder demo_parsed demo_order (with_memo_cap_and_rss_budget 1 None) (λ _, None) = Ok (bytes, st) ∧
    node_count bytes = Some count ∧ parse_bdd_bin bytes (N.of_nat (length demo_order)) count = Ok p ∧ bp_roots p = [root] ∧
    (table_eval (bp_nodes p) root (assignment demo_order demo_tags) = true ↔ complies (repository demo_compiler) demo_tags).
Proof.
  assert (Hb : ∃ bytes st, build_bdd_bin_with_builder demo_parsed demo_order
    (with_memo_cap_and_rss_budget 1 None) (λ _, None) = Ok (bytes, st) ∧ bool_decide (length (nodes st) < 1000) = true).
  { eexists _, _. split; vm_compute; reflexivity. }
  destruct Hb as (bytes & st & Hb & Hn).
  destruct (sources_to_table sorted_order demo_codec (λ _, None) demo_json demo_sources demo_compiler
    (string_of (repeat "a"%char 64)) demo_parsed Force demo_order 1 None (λ _, None) bytes st demo_ingested)
    as (raw & count & p & root & Hraw & Hc & Hp & Hr & He).
  - vm_compute. reflexivity.
  - exact demo_no_keyword.
  - vm_compute. reflexivity.
  - vm_compute. reflexivity.
  - vm_compute. reflexivity.
  - exact Hb.
  - apply bool_decide_eq_true in Hn. unfold TERMINAL_TRUE. lia.
  - exists bytes, st, count, p, root.
    exact (conj Hb (conj Hc (conj Hp (conj Hr (He _ (demo_sources_cover raw Hraw) demo_sources_select))))).
Defined.
