(* ===== verification/Reverify.v ===== *)
(** * Checking a written package again

    Models [verify_ir_dir] of [compiler/src/compiler_core.rs]: the index of a
    package directory is read, the integrity of its chunks is checked, the
    chunks are merged into one model, refusing an id two chunks declare, and the
    whole-model checks run over it.  The list of checks is spelled out here as
    it is in the source, beside that of [verify_complete_model].

    The package the compiler wrote passes: what is read back describes the
    ingested model. *)
From S2P Require Import Bdd BddLayout BddBytes CcmFormat.
From S2P Require Import Prelude Tokens Ast Eval Implication FacetCompare SelectionEval Rewrite VarOrder Emitter Text Schema.
From S2P Require Import Resolver ResolverProps InterfaceSummary LinkVerify LinkGraph LinkVerifyProps SummaryProps.
From S2P Require Import ParseContext Lowering LoweringProps Ir IrProps Ingest IngestProps Object Link LinkProps LinkModel EndToEnd.

Inductive reverify_error : Type :=
  | IndexUnreadable
  | IndexUnparsable
  | PackageCorrupt (e : ir_error)
  | InManyChunks (kind : DeclKind) (id : string)
  | PackageInvalid (e : verify_error).

(** [for (id, x) in from { if into.insert(id, x).is_some() { bail! } }]. *)
Definition insert_once {A} (kind : DeclKind) (into from : gmap string A) : result reverify_error (gmap string A) :=
  try_fold (λ m ix, match m !! ix.1 with Some _ => Err (InManyChunks kind ix.1) | None => Ok (<[ix.1 := ix.2]> m) end)
    into (bt_list from).

(** The seven maps and the summaries read so far. *)
Definition empty_maps : Config := mkConfig String.EmptyString String.EmptyString ∅ ∅ ∅ ∅ ∅ ∅ ∅.

Definition add_maps (r : Config) (c : IrChunk) : result reverify_error Config :=
  ds ← insert_once KDefinition (definitions r) (ik_definitions c);
  cs ← insert_once KComponent (components r) (ik_components c);
  ars ← insert_once KArtifact (artifacts r) (ik_artifacts c);
  fs ← insert_once KFacet (facets r) (ik_facets c);
  ks ← insert_once KConstraint (Schema.constraints r) (ik_constraints c);
  ts ← insert_once KCatalogue (catalogues r) (ik_catalogues c);
  bs ← insert_once KBinding (bindings r) (ik_bindings c);
  Ok (mkConfig (cf_package r) (cf_version r) ds cs ars fs ks ts bs).

Section VerifyIrDir.
Context `{HashOrder} `{IrCodec}.
Context (parse_index : list ascii → option IrIndex).

Definition load_index (d : package_disk) (path : string) : result reverify_error IrIndex :=
  bytes ← ok_or (mjoin (d !! path)) IndexUnreadable;
  ok_or (parse_index bytes) IndexUnparsable.

Definition read_maps (d : package_disk) (dir : string) (st : Config * list InterfaceSummary) (r : IrChunkRef)
    : result reverify_error (Config * list InterfaceSummary) :=
  c ← map_err PackageCorrupt (load_chunk d (chunk_path dir (cr_chunk_hash r)) (cr_chunk_hash r));
  maps ← add_maps st.1 c;
  Ok (maps, st.2 ++ [summarize_ir_chunk c]).

Definition verify_maps (definitions : gmap string Param) (components : gmap string Component) (facets : gmap string Facet)
    (constraints : gmap string Constraint) (catalogues : gmap string Catalogue) (bindings : gmap string Binding)
    (summaries : list InterfaceSummary) : verified :=
  _ ← validate_definition_inheritance definitions;
  _ ← validate_component_dependencies components;
  _ ← validate_catalogues catalogues;
  _ ← validate_parameter_values definitions components;
  _ ← validate_link_summary summaries;
  let facets := binding_facets catalogues bindings ∪ facets in
  _ ← validate_facets facets components definitions;
  _ ← validate_facet_bindings_scoped components facets Complete;
  validate_constraints constraints facets.

Definition verify_ir_dir (dir : string) (d : package_disk) : result reverify_error unit :=
  i ← load_index d (dir +:+ "/" +:+ CMP_DEFAULT_INDEX_REF);
  _ ← map_err PackageCorrupt (verify_index_integrity i dir d);
  '(r, summaries) ← try_fold (read_maps d dir) (empty_maps, []) (ix_chunks i);
  map_err PackageInvalid
    (verify_maps (definitions r) (components r) (facets r) (Schema.constraints r) (catalogues r) (bindings r) summaries).
End VerifyIrDir.

(** The two spellings of the list agree: what a package is checked against is
    what a repository is checked against. *)
Lemma verify_maps_parity `{HashOrder} r summaries :
  verify_maps (definitions r) (components r) (facets r) (Schema.constraints r) (catalogues r) (bindings r) summaries =
  verify_complete_model r summaries.
Proof. reflexivity. Qed.

(** ** Merging the chunks *)

Lemma insert_once_Ok {A} kind (into from m : gmap string A) :
  insert_once kind into from = Ok m ↔ into ##ₘ from ∧ m = into ∪ from.
Proof.
  unfold insert_once.
  assert (Hl : ∀ l (into : gmap string A) m, NoDup l.*1 →
    try_fold (λ m ix, match m !! ix.1 with Some _ => Err (InManyChunks kind ix.1) | None => Ok (<[ix.1 := ix.2]> m) end) into l = Ok m ↔
    into ##ₘ list_to_map l ∧ m = into ∪ list_to_map l).
  { clear. induction l as [|[k v] l IH]; intros into m Hnd; cbn [try_fold fst snd list_to_map foldr].
    - split; [intros [= <-]; split; [apply map_disjoint_empty_r|by rewrite (right_id_L ∅ (∪))]|].
      intros [_ ->]. by rewrite (right_id_L ∅ (∪)).
    - apply NoDup_cons in Hnd as [Hni Hnd].
      assert (Hk : list_to_map l !! k = (None : option A)) by (by apply not_elem_of_list_to_map).
      destruct (into !! k) as [w|] eqn:Ew; cbn.
      { split; [done|]. intros [Hd _]. apply map_disjoint_insert_r in Hd as [Hn _]. congruence. }
      rewrite IH by done. rewrite map_disjoint_insert_l, map_disjoint_insert_r. split.
      + intros [[_ Hd] ->]. split; [done|]. by rewrite <-insert_union_l, <-insert_union_r.
      + intros [[_ Hd] ->]. split; [done|]. by rewrite <-insert_union_l, <-insert_union_r. }
  rewrite Hl by apply NoDup_bt_list.
  assert (E : list_to_map (bt_list from) = from) by apply bt_list_map. by rewrite E.
Qed.

(** The configuration a chunk file holds. *)
Definition chunk_config (c : IrChunk) : Config :=
  mkConfig String.EmptyString String.EmptyString (ik_definitions c) (ik_components c) (ik_artifacts c) (ik_facets c)
    (ik_constraints c) (ik_catalogues c) (ik_bindings c).

(** No id of a kind is declared twice. *)
Record once (p r : Config) : Prop := {
  on_definitions : definitions p ##ₘ definitions r;
  on_components : components p ##ₘ components r;
  on_artifacts : artifacts p ##ₘ artifacts r;
  on_facets : facets p ##ₘ facets r;
  on_constraints : Schema.constraints p ##ₘ Schema.constraints r;
  on_catalogues : catalogues p ##ₘ catalogues r;
  on_bindings : bindings p ##ₘ bindings r;
}.

Lemma add_maps_Ok r c r' : add_maps r c = Ok r' ↔ once r (chunk_config c) ∧ r' = join_config r (chunk_config c).
Proof.
  unfold add_maps. rewrite bind_Ok. setoid_rewrite bind_Ok. setoid_rewrite bind_Ok. setoid_rewrite bind_Ok.
  setoid_rewrite bind_Ok. setoid_rewrite bind_Ok. setoid_rewrite bind_Ok. setoid_rewrite insert_once_Ok. split.
  - intros (? & [? ->] & ? & [? ->] & ? & [? ->] & ? & [? ->] & ? & [? ->] & ? & [? ->] & ? & [? ->] & [= <-]). done.
  - intros [[] ->]. cbn in *. do 7 (eexists; split; [done|]). done.
Qed.

Lemma once_join r p q : once (join_config r p) q ↔ once r q ∧ once p q.
Proof.
  split.
  - intros []. cbn in *. rewrite ?map_disjoint_union_l in *. destruct_and!. by repeat split.
  - intros [[] []]. split; cbn; by rewrite map_disjoint_union_l.
Qed.

Lemma once_empty q : once empty_maps q.
Proof. split; apply map_disjoint_empty_l. Qed.

Section Exact.
Context `{HashOrder} `{IrCodec}.
Context (parse_index : list ascii → option IrIndex).

Lemma read_maps_Ok d dir refs cs r summaries r' summaries' :
  Forall2 (λ x c, load_chunk d (chunk_path dir (cr_chunk_hash x)) (cr_chunk_hash x) = Ok c) refs cs →
  try_fold (read_maps d dir) (r, summaries) refs = Ok (r', summaries') ↔
  Forall (λ c, once r (chunk_config c)) cs ∧ List.ForallOrdPairs once (chunk_config <$> cs) ∧
  r' = joined r (chunk_config <$> cs) ∧ summaries' = summaries ++ (summarize_ir_chunk <$> cs).
Proof.
  intros HF. revert r summaries. induction HF as [|x c refs cs Hx _ IH]; intros r summaries; cbn [try_fold fmap list_fmap].
  - split; [intros [= <- <-]; rewrite app_nil_r; split_and!; by try constructor|]. intros (_ & _ & -> & ->). by rewrite app_nil_r.
  - assert (Er : read_maps d dir (r, summaries) x = (maps ← add_maps r c; Ok (maps, summaries ++ [summarize_ir_chunk c])))
      by (unfold read_maps; by rewrite Hx).
    rewrite Er, bind_Ok. split.
    + intros ([r1 s1] & (r2 & Ha & [= <- <-])%bind_Ok & E). apply add_maps_Ok in Ha as [Ha ->].
      apply IH in E as (Hr & Hcs & -> & ->). setoid_rewrite once_join in Hr. apply Forall_and in Hr as [Hr Hc].
      split_and!; [by constructor|constructor; [by apply Forall_fmap|done]|done|]. by rewrite <-(assoc_L (++)).
    + intros (Hr & Hcs & -> & ->). apply Forall_cons in Hr as [Hc Hr]. inversion Hcs as [|? ? Hc' Hcs']; subst.
      exists (join_config r (chunk_config c), summaries ++ [summarize_ir_chunk c]). split.
      { apply bind_Ok. eexists. split; [by apply add_maps_Ok|done]. }
      apply IH. split_and!; [|done|done|by rewrite <-(assoc_L (++))]. setoid_rewrite once_join. apply Forall_and. split; [done|].
      by rewrite Forall_fmap in Hc'.
Qed.

Lemma verify_ir_dir_Ok dir d :
  verify_ir_dir parse_index dir d = Ok tt ↔
  ∃ bytes i cs, d !! (dir +:+ "/" +:+ CMP_DEFAULT_INDEX_REF) = Some (Some bytes) ∧ parse_index bytes = Some i ∧
    package_ok i dir d cs ∧ List.ForallOrdPairs once (chunk_config <$> cs) ∧
    verify_complete_model (joined empty_maps (chunk_config <$> cs)) (summarize_ir_chunk <$> cs) = Ok tt.
Proof.
  assert (Hload : ∀ i cs, package_ok i dir d cs →
    Forall2 (λ x c, load_chunk d (chunk_path dir (cr_chunk_hash x)) (cr_chunk_hash x) = Ok c) (ix_chunks i) cs).
  { intros i cs Hp%integrity_Ok. unfold verify_index_integrity_loading in Hp.
    apply bind_Ok in Hp as (refs & _ & Hp). apply bind_Ok in Hp as (_ & _ & Hp%collect_results_Ok).
    eapply Forall2_impl; [exact Hp|]. intros x c Hx. unfold check_chunk in Hx. apply bind_Ok in Hx as (_ & _ & Hx).
    apply bind_Ok in Hx as (c' & Hl & Hx). repeat (apply bind_Ok in Hx as (? & _ & Hx)). by injection Hx as <-. }
  unfold verify_ir_dir, load_index, verify_index_integrity. split.
  - intros (i & (bytes & Hb & Hi)%bind_Ok & E)%bind_Ok. apply link_ok_or in Hb, Hi.
    apply bind_Ok in E as (u & Hv & E). apply link_err_Ok in Hv.
    destruct (verify_index_integrity_loading i dir d) as [cs|] eqn:Hp; [|done]. apply integrity_Ok in Hp.
    apply bind_Ok in E as ([r s] & Hr & E). apply (read_maps_Ok d dir _ cs) in Hr as (_ & Hcs & -> & ->); [|by apply Hload].
    apply link_err_Ok in E. rewrite verify_maps_parity in E. exists bytes, i, cs. split_and!; try done.
    destruct (d !! _) as [[bs|]|]; cbn in Hb; congruence.
  - intros (bytes & i & cs & Hb & Hi & Hp & Hcs & Hv). rewrite Hb. cbn. rewrite Hi. cbn.
    rewrite (proj2 (integrity_Ok i dir d cs) Hp). cbn.
    assert (Hm : try_fold (read_maps d dir) (empty_maps, []) (ix_chunks i) =
      Ok (joined empty_maps (chunk_config <$> cs), summarize_ir_chunk <$> cs)).
    { apply (read_maps_Ok d dir _ cs); [by apply Hload|]. split_and!; [|exact Hcs|done|done].
      apply Forall_true. intros. apply once_empty. }
    rewrite Hm. cbn. by rewrite link_err_Ok, verify_maps_parity.
Qed.
End Exact.

(** C9: Checking a package again accepts exactly the coherent packages: the index
    reads, its chunks pass the integrity check, no kind of declaration has an id
    in two chunks, and the whole-model checks accept the union of the chunks. *)
Theorem reverify_exact (Ho : HashOrder) (Hc : IrCodec) parse_index dir d :
  verify_ir_dir parse_index dir d = Ok tt ↔
  ∃ bytes i cs, d !! (dir +:+ "/" +:+ CMP_DEFAULT_INDEX_REF) = Some (Some bytes) ∧ parse_index bytes = Some i ∧
    package_ok i dir d cs ∧ List.ForallOrdPairs once (chunk_config <$> cs) ∧
    verify_complete_model (joined empty_maps (chunk_config <$> cs)) (summarize_ir_chunk <$> cs) = Ok tt.
Proof. apply verify_ir_dir_Ok. Qed.

(** ** The compiler's own package *)

(** A chunk as it is read back: the package and version are not stored. *)
Definition unnamed (c : Config) : Config :=
  mkConfig String.EmptyString String.EmptyString (definitions c) (components c) (artifacts c) (facets c) (Schema.constraints c)
    (catalogues c) (bindings c).

Definition reread (k : SourceChunk) : SourceChunk := mkSourceChunk (sc_source_id k) (sc_chunk_hash k) (unnamed (sc_config k)).

Lemma joined_unnamed r l : joined r (unnamed <$> l) = joined r l.
Proof. unfold joined. revert r. induction l as [|p l IH]; intros r; cbn; [done|]. by rewrite IH. Qed.

Lemma unnamed_joined r l : joined (unnamed r) l = unnamed (joined r l).
Proof. unfold joined. revert r. induction l as [|p l IH]; intros r; cbn; [done|]. by rewrite <-IH. Qed.

Lemma reread_apart ks : List.ForallOrdPairs chunk_apart ks → List.ForallOrdPairs chunk_apart (reread <$> ks).
Proof.
  induction 1 as [|k ks Hk _ IH]; cbn; [constructor|]. constructor; [|done]. apply Forall_fmap.
  eapply Forall_impl; [exact Hk|]. intros k' (? & ? & []). by repeat split.
Qed.

Lemma apart_once l : List.ForallOrdPairs apart l → List.ForallOrdPairs once l.
Proof.
  induction 1 as [|p l Hp _ IH]; constructor; [|done]. eapply Forall_impl; [exact Hp|]. intros q []. by split.
Qed.

(** The link checks accept the summaries of the chunks that are read back, in
    any order, when they accepted those of the ingested chunks. *)
Lemma reread_linked `{HashOrder} `{IrCodec} ks ks' :
  ks ≡ₚ ks' → chunks_ok ks → validate_link_summary (interface_summaries (compiled ks)) = Ok tt →
  validate_link_summary (interface_summaries (compiled (reread <$> ks'))) = Ok tt.
Proof.
  intros Hp Hok Hv. pose proof (chunks_ok_perm _ _ Hp Hok) as [Ha' Hf' _]. apply reread_apart in Ha' as Ha2.
  assert (Er : repository (compiled (reread <$> ks')) = repository (compiled ks)).
  { cbn. rewrite <-list_fmap_compose. change (sc_config ∘ reread) with (unnamed ∘ sc_config). rewrite list_fmap_compose, joined_unnamed.
    symmetry. apply joined_perm; [by rewrite Hp|]. apply configs_apart, Hok. }
  assert (Hd : describes (repository (compiled ks)) (merge (interface_summaries (compiled (reread <$> ks'))))).
  { rewrite <-Er. eapply collects_describes; [done|reflexivity|apply merge_collects]. }
  destruct (described_checks _ _ _ Complete (whole_describes ks Hok) Hd) as [Eb Eq].
  unfold validate_link_summary, validate_merged_summary in *. apply check_then in Hv as [_ Hv].
  rewrite (described_unique _ _ Hd) by (by apply ingested_apart). cbn [mbind result_bind]. rewrite Eb, Eq. exact Hv.
Qed.

(** A summary list is read by the link checks alone. *)
Lemma verify_other_summaries `{HashOrder} r S S' :
  verify_complete_model r S = Ok tt → validate_link_summary S' = Ok tt → verify_complete_model (unnamed r) S' = Ok tt.
Proof.
  unfold verify_complete_model. cbn [definitions components catalogues bindings facets Schema.constraints unnamed].
  change (effective_facets (unnamed r)) with (effective_facets r). intros Hv HS. rewrite HS.
  apply check_then in Hv as [-> Hv]. apply check_then in Hv as [-> Hv]. apply check_then in Hv as [-> Hv].
  apply check_then in Hv as [-> Hv]. apply check_then in Hv as [_ Hv]. exact Hv.
Qed.

Lemma verified_summaries `{HashOrder} r S : verify_complete_model r S = Ok tt → validate_link_summary S = Ok tt.
Proof. exact (verified_linked r S). Qed.

(** C5: A package that was emitted is accepted when it is checked again: when the
    sources are ingested and verified, the chunks and the index can be
    serialized and read back and the disk can be written, the package is
    written, and [verify_ir_dir] on it succeeds — the chunks come back in
    another order and without their package names, and every check still
    passes. *)
Theorem written_package_reverified (Ho : HashOrder) (Hc : IrCodec) toml json creatable writable parse_index sources c dir d :
  ingest toml json sources new_compiler = (Ok tt, c) → link_and_verify c = Ok tt →
  (∀ k, k ∈ chunks c → ∃ bytes, chunk_json (written k) = Some bytes ∧ parse_chunk bytes = Some (written k)) →
  (∀ content, is_Some (content_json content)) → (∀ i d', emit_ir creatable writable c dir d = (Ok i, d') → parse_index (index_pretty i) = Some i) →
  creatable dir = true → (∀ path, writable path = true) →
  ∃ i d', emit_ir creatable writable c dir d = (Ok i, d') ∧ verify_ir_dir parse_index dir d' = Ok tt.
Proof.
  intros Hi Hv Hb Hcont Hidx Hcr Hw.
  destruct (package_written Ho Hc toml json creatable writable sources c dir d Hi Hv Hb Hcont Hcr Hw)
    as (i & d' & cs & He & Hl & Hp & Hf). exists i, d'. split; [done|].
  apply ingested in Hi as (ks & Hok & ->). cbn [chunks compiled] in Hp.
  apply Permutation_map_inv in Hp as (ks' & -> & Hp).
  apply verify_ir_dir_Ok. exists (index_pretty i), i, (written <$> ks'). split_and!; [done|by eapply Hidx|by apply integrity_Ok|..].
  - rewrite <-list_fmap_compose. change (chunk_config ∘ written) with (sc_config ∘ reread). rewrite list_fmap_compose.
    apply apart_once, configs_apart, reread_apart, (chunks_ok_perm _ _ Hp Hok).
  - rewrite <-!list_fmap_compose. change (chunk_config ∘ written) with (unnamed ∘ sc_config). rewrite list_fmap_compose, joined_unnamed.
    change empty_maps with (unnamed new_repository). rewrite unnamed_joined.
    rewrite <-(joined_perm new_repository (sc_config <$> ks)); [|by rewrite Hp|apply configs_apart, Hok].
    eapply verify_other_summaries; [exact Hv|].
    assert (E : (summarize_ir_chunk ∘ written) <$> ks' = interface_summaries (compiled (reread <$> ks'))).
    { unfold interface_summaries. cbn. rewrite <-list_fmap_compose. done. }
    rewrite E. by eapply reread_linked; [exact Hp|exact Hok|eapply verified_summaries].
Qed.

Definition demo_parse_index (bytes : list ascii) : option IrIndex :=
  match (emit_ir (H := sorted_order) (H0 := demo_codec) (λ _, true) (λ _, true) demo_compiler "out" ∅).1 with
  | Ok i => Some i
  | Err _ => None
  end.

Lemma written_package_reverified_witness :
  ∃ i d', emit_ir (H := sorted_order) (H0 := demo_codec) (λ _, true) (λ _, true) demo_compiler "out" ∅ = (Ok i, d') ∧
    verify_ir_dir (H := sorted_order) (H0 := demo_codec) demo_parse_index "out" d' = Ok tt.
Proof.
  eapply (written_package_reverified sorted_order demo_codec (λ _, None) demo_json (λ _, true) (λ _, true) demo_parse_index
    demo_sources demo_compiler "out" ∅).
  - exact demo_ingested.
  - vm_compute. reflexivity.
  - intros k Hk. assert (E : chunks demo_compiler = demo_chunks) by (vm_compute; reflexivity). rewrite E in Hk.
    exists (bytes_of (sc_source_id k)). unfold demo_chunks in Hk. rewrite !elem_of_cons, elem_of_nil in Hk.
    destruct_or! Hk; subst; (split; vm_compute; reflexivity) || done.
  - intros content. by eexists.
  - intros i d' E. unfold demo_parse_index. by rewrite E.
  - reflexivity.
  - reflexivity.
Defined.
