(* ===== verification/Attribution.v ===== *)
(** * Naming the constraints behind a conflict

    Models [compiler/src/loader_api/unsat_attribution.rs] and the data of
    [contracts.rs] it writes.  A clause of an unsatisfiable core is read as the
    partial assignment it forbids; a declared constraint is named when no value
    that the clause leaves open can satisfy it. *)
From S2P Require Import Prelude Tokens Ast Implication SelectionEval Rewrite Schema.
Local Open Scope N_scope.

(** ** Data *)

Record ConstraintFacet : Type := mkFacet { cf_facet : string; cf_option : string }.

Inductive ConstraintKind : Type := KindSelection | KindModelRule.
#[export] Instance ConstraintKind_eq_dec : EqDecision ConstraintKind.
Proof. solve_decision. Defined.

Record ConflictingConstraint : Type := mkConflicting {
  cc_kind : ConstraintKind;
  cc_facets : list ConstraintFacet;
  cc_summary : string;
  cc_constraint_id : option string;
}.

Record UnsatCore : Type := mkUnsatCore {
  uc_rejected : ConstraintFacet;
  uc_conflicting_constraints : list ConflictingConstraint;
  uc_minimal : bool;
  uc_note : string;
}.

Record DeclaredConstraint : Type := mkDeclared {
  dc_id : string;
  dc_condition : string;
  dc_root_index : N;
}.

Record CoreClause : Type := mkCoreClause {
  kc_kind : ConstraintKind;
  kc_facets : list ConstraintFacet;
  kc_summary : string;
  kc_forbidden : list (ConstraintFacet * bool);
}.

Definition ClosedFacetDomains : Type := gmap string (gset string).

Definition declared_values (domains : ClosedFacetDomains) (facet : string) : option (gset string) := domains !! facet.

Record NamedConstraint : Type := mkNamed {
  nc_condition : string;
  nc_facets : gset (string * string);
}.

Definition MODEL_OVER_CONSTRAINED_SUMMARY : string :=
  "the model is over-constrained here; no declared constraint accounts for this conflict".

Definition to_facet (p : string * string) : ConstraintFacet := mkFacet p.1 p.2.

(** The order of pairs of strings, and of the keys of named constraints. *)
Definition pair_le (a b : string * string) : Prop :=
  match String.compare a.1 b.1 with Lt => True | Eq => String.le a.2 b.2 | Gt => False end.
#[export] Instance pair_le_dec a b : Decision (pair_le a b).
Proof. unfold pair_le. destruct (String.compare a.1 b.1); apply _. Defined.

Definition key_le (a b : (N * string) * NamedConstraint) : Prop :=
  a.1.1 < b.1.1 ∨ a.1.1 = b.1.1 ∧ String.le a.1.2 b.1.2.
#[export] Instance key_le_dec a b : Decision (key_le a b).
Proof. unfold key_le. apply _. Defined.

Definition pairs_in_order (s : gset (string * string)) : list (string * string) := merge_sort pair_le (elements s).
Definition named_in_order (m : gmap (N * string) NamedConstraint) : list ((N * string) * NamedConstraint) :=
  merge_sort key_le (map_to_list m).

(** ** What a clause leaves open *)

Definition pinned_to (open : gmap string (gset string)) (facet : string) : option string :=
  values ← open !! facet;
  match bt_elements values with [v] => Some v | _ => None end.

Definition rule_out (facet value : string) (negated : gmap string (gset string)) : gmap string (gset string) :=
  <[facet := {[value]} ∪ default ∅ (negated !! facet)]> negated.

(** The loop over the literals. *)
Fixpoint read_literals (literals : list (ConstraintFacet * bool)) (open negated : gmap string (gset string))
    : option (gmap string (gset string) * gmap string (gset string)) :=
  match literals with
  | [] => Some (open, negated)
  | (f, asserted) :: literals =>
      if asserted : bool then
        match pinned_to open (cf_facet f) with
        | Some existing =>
            if decide (existing = cf_option f) then read_literals literals (<[cf_facet f := {[cf_option f]}]> open) negated
            else None
        | None => read_literals literals (<[cf_facet f := {[cf_option f]}]> open) negated
        end
      else read_literals literals open (rule_out (cf_facet f) (cf_option f) negated)
  end.

(** One facet that is mentioned negatively. *)
Definition narrow (domains : ClosedFacetDomains) (open : gmap string (gset string)) (fr : string * gset string)
    : gmap string (gset string) :=
  match open !! fr.1 with
  | Some _ => open
  | None =>
      match declared_values domains fr.1 with
      | None => open
      | Some declared =>
          let remaining := filter (λ v, v ∉ fr.2) declared in
          if decide (remaining = ∅) then open else <[fr.1 := remaining]> open
      end
  end.

Definition forbidden_candidates (literals : list (ConstraintFacet * bool)) (domains : ClosedFacetDomains)
    : option (gmap string (gset string)) :=
  '(open, negated) ← read_literals literals ∅ ∅;
  Some (foldl (narrow domains) open (bt_list negated)).

Definition pinned_assignment (open : gmap string (gset string)) : gmap string string :=
  omap (λ values, match bt_elements values with [v] => Some v | _ => None end) open.

(** ** Violated declarations *)

Definition is_violated (open : gmap string (gset string)) (d : DeclaredConstraint) : bool :=
  match parse_condition_expr (dc_condition d) with
  | Ok e => is_contradicted e (Restricted open)
  | Err _ => false
  end.

Definition declaration_le (a b : DeclaredConstraint) : Prop :=
  dc_root_index a < dc_root_index b ∨ dc_root_index a = dc_root_index b ∧ String.le (dc_id a) (dc_id b).
#[export] Instance declaration_le_dec a b : Decision (declaration_le a b).
Proof. unfold declaration_le. apply _. Defined.

Definition violated_declarations (roster : list DeclaredConstraint) (open : gmap string (gset string)) : list DeclaredConstraint :=
  merge_sort declaration_le (List.filter (is_violated open) roster).

Definition record_unattributed (facets : list ConstraintFacet) (out : gset (string * string)) : gset (string * string) :=
  list_to_set ((λ f, (cf_facet f, cf_option f)) <$> facets) ∪ out.

(** The choices a constraint talks about. *)
Definition choices_of (condition : string) (assignment : gmap string string) : gset (string * string) :=
  match condition_identifiers condition with
  | Ok ids => list_to_set (omap (λ tag, pair tag <$> assignment !! tag) (bt_elements (tags ids)))
  | Err _ => ∅
  end.

Definition record_hit (into : gmap (N * string) NamedConstraint) (d : DeclaredConstraint) (assignment : gmap string string)
    : gmap (N * string) NamedConstraint :=
  let key := (dc_root_index d, dc_id d) in
  let entry := default (mkNamed (dc_condition d) ∅) (into !! key) in
  <[key := mkNamed (nc_condition entry) (choices_of (dc_condition d) assignment ∪ nc_facets entry)]> into.

(** ** Attribution *)

Record attribution : Type := mkAttribution {
  at_relevant : gmap (N * string) NamedConstraint;
  at_all : gmap (N * string) NamedConstraint;
  at_unattributed : gset (string * string);
}.

Definition record_one (without : gmap string (gset string)) (assignment : gmap string string) (a : attribution)
    (d : DeclaredConstraint) : attribution :=
  mkAttribution (if is_violated without d then at_relevant a else record_hit (at_relevant a) d assignment)
    (record_hit (at_all a) d assignment) (at_unattributed a).

(** One model clause. *)
Definition attribute_clause (rejected : ConstraintFacet) (roster : list DeclaredConstraint) (domains : ClosedFacetDomains)
    (a : attribution) (clause : CoreClause) : attribution :=
  let unattributed := mkAttribution (at_relevant a) (at_all a) (record_unattributed (kc_facets clause) (at_unattributed a)) in
  match forbidden_candidates (kc_forbidden clause) domains with
  | None => unattributed
  | Some open =>
      match violated_declarations roster open with
      | [] => unattributed
      | hits =>
          let without :=
            if decide (pinned_to open (cf_facet rejected) = Some (cf_option rejected)) then delete (cf_facet rejected) open
            else open in
          foldl (record_one without (pinned_assignment open)) a hits
      end
  end.

Definition is_kind (k : ConstraintKind) (c : CoreClause) : bool := bool_decide (kc_kind c = k).

Definition named_entry (e : (N * string) * NamedConstraint) : ConflictingConstraint :=
  mkConflicting KindModelRule (to_facet <$> pairs_in_order (nc_facets e.2)) (nc_condition e.2) (Some e.1.2).

Definition attribute_core_clauses (clauses : list CoreClause) (rejected : ConstraintFacet) (roster : list DeclaredConstraint)
    (domains : ClosedFacetDomains) : list ConflictingConstraint :=
  let selections := (λ c, mkConflicting KindSelection (kc_facets c) (kc_summary c) None) <$> List.filter (is_kind KindSelection) clauses in
  let rules := List.filter (is_kind KindModelRule) clauses in
  let a := foldl (attribute_clause rejected roster domains) (mkAttribution ∅ ∅ ∅) rules in
  let named := if decide (at_relevant a = ∅) then at_all a else at_relevant a in
  selections ++
  if decide (named = ∅) then
    match rules with
    | [] => []
    | _ => [mkConflicting KindModelRule (to_facet <$> pairs_in_order (at_unattributed a)) MODEL_OVER_CONSTRAINED_SUMMARY None]
    end
  else named_entry <$> named_in_order named.

(** ** What a name means *)

(** A configuration that a clause forbids. *)
Definition forbids (literals : list (ConstraintFacet * bool)) (sigma : gmap string string) : Prop :=
  Forall (λ l, if l.2 : bool then sigma !! cf_facet l.1 = Some (cf_option l.1) else sigma !! cf_facet l.1 ≠ Some (cf_option l.1)) literals.

(** Closed facets have declared values. *)
Definition in_domains (domains : ClosedFacetDomains) (sigma : gmap string string) : Prop :=
  ∀ f declared, domains !! f = Some declared → ∃ v, sigma !! f = Some v ∧ v ∈ declared.

Definition open_for (sigma : gmap string string) (open : gmap string (gset string)) : Prop :=
  ∀ f values, open !! f = Some values → ∃ v, sigma !! f = Some v ∧ v ∈ values.

Definition ruled_for (sigma : gmap string string) (negated : gmap string (gset string)) : Prop :=
  ∀ f values v, negated !! f = Some values → v ∈ values → sigma !! f ≠ Some v.

Lemma open_for_insert sigma open f v : sigma !! f = Some v → open_for sigma open → open_for sigma (<[f := {[v]}]> open).
Proof. intros Hv Ho g values. rewrite lookup_insert_Some. intros [[<- <-]|[_ Hg]]; [|by apply Ho]. exists v. set_solver. Qed.

Lemma ruled_for_insert sigma negated f v : sigma !! f ≠ Some v → ruled_for sigma negated → ruled_for sigma (rule_out f v negated).
Proof.
  intros Hv Hr g values x. unfold rule_out. rewrite lookup_insert_Some. intros [[<- <-]|[_ Hg]]; [|by eapply Hr].
  rewrite elem_of_union, elem_of_singleton. intros [->|Hx]; [done|]. destruct (negated !! f) eqn:E; [by eapply Hr|set_solver].
Qed.

Lemma read_literals_for sigma literals open negated open' negated' :
  forbids literals sigma → open_for sigma open → ruled_for sigma negated →
  read_literals literals open negated = Some (open', negated') → open_for sigma open' ∧ ruled_for sigma negated'.
Proof.
  revert open negated. induction literals as [|[f []] literals IH]; intros open negated; cbn; intros Hf Ho Hr E; [by simplify_eq|..];
    apply Forall_cons in Hf as [Hl Hf]; cbn in Hl.
  - assert (Hn : open_for sigma (<[cf_facet f := {[cf_option f]}]> open)) by by apply open_for_insert.
    destruct (pinned_to open (cf_facet f)); [case_decide; [|done]|]; by apply (IH _ _ Hf Hn Hr).
  - by apply (IH _ _ Hf Ho (ruled_for_insert _ _ _ _ Hl Hr)).
Qed.

Lemma narrow_for sigma domains open f values :
  in_domains domains sigma → (∀ v, v ∈ values → sigma !! f ≠ Some v) → open_for sigma open → open_for sigma (narrow domains open (f, values)).
Proof.
  intros Hd Hv Ho. unfold narrow, declared_values. cbn. destruct (open !! f); [done|]. destruct (domains !! f) as [declared|] eqn:Ed; [|done].
  case_decide; [done|]. destruct (Hd _ _ Ed) as (v & Hs & Hin). intros g S. rewrite lookup_insert_Some. intros [[<- <-]|[_ Hg]]; [|by apply Ho].
  exists v. split; [done|]. apply elem_of_filter. split; [|done]. intros Hx. by apply (Hv v).
Qed.

Lemma forbidden_candidates_for sigma literals domains open :
  forbids literals sigma → in_domains domains sigma → forbidden_candidates literals domains = Some open → open_for sigma open.
Proof.
  intros Hf Hd. unfold forbidden_candidates. intros ([open0 negated] & Er & E)%bind_Some. simplify_eq.
  destruct (read_literals_for sigma literals ∅ ∅ open0 negated) as [Ho Hr]; [done|by intros ??|by intros ???|done|].
  assert (Hl : Forall (λ fr, ∀ v, v ∈ fr.2 → sigma !! fr.1 ≠ Some v) (bt_list negated)).
  { apply Forall_forall. intros [f S] Hin%elem_bt_list v Hv. by eapply Hr. }
  clear Er Hr. revert open0 Ho. induction Hl as [|[f S] l Hx _ IH]; intros open0 Ho; cbn; [done|]. apply IH. by apply narrow_for.
Qed.

(** Every configuration the clause forbids breaks the constraint. *)
Definition blames (domains : ClosedFacetDomains) (clause : CoreClause) (d : DeclaredConstraint) : Prop :=
  ∃ e, parse_condition_expr (dc_condition d) = Ok e ∧
    ∀ sigma, forbids (kc_forbidden clause) sigma → in_domains domains sigma → total_for e sigma → eval_total e sigma = false.

(** Every configuration the clause forbids makes the choice. *)
Definition pins (domains : ClosedFacetDomains) (clause : CoreClause) (choice : string * string) : Prop :=
  ∀ sigma, forbids (kc_forbidden clause) sigma → in_domains domains sigma → sigma !! choice.1 = Some choice.2.

Lemma violated_blames domains clause open d :
  forbidden_candidates (kc_forbidden clause) domains = Some open → is_violated open d = true → blames domains clause d.
Proof.
  intros Ho. unfold is_violated, blames. destruct (parse_condition_expr (dc_condition d)) as [e|]; [|done]. intros Hv. exists e. split; [done|].
  intros sigma Hf Hd Ht. eapply is_contradicted_sound; [done| |done]. intros f values Hop _. by eapply forbidden_candidates_for.
Qed.

Lemma single_element (values : gset string) v : bt_elements values = [v] → ∀ x, x ∈ values → x = v.
Proof. intros E x Hx. apply elem_of_bt_elements in Hx. rewrite E in Hx. by apply list_elem_of_singleton in Hx. Qed.

Lemma pinned_pins domains clause open condition choice :
  forbidden_candidates (kc_forbidden clause) domains = Some open → choice ∈ choices_of condition (pinned_assignment open) → pins domains clause choice.
Proof.
  intros Ho. unfold choices_of, pins. destruct (condition_identifiers condition) as [ids|]; [|set_solver].
  rewrite elem_of_list_to_set, list_elem_of_omap. intros (tag & _ & Ht). unfold pinned_assignment in Ht.
  rewrite lookup_omap in Ht. destruct (open !! tag) as [values|] eqn:Eo; cbn in Ht; [|done].
  destruct (bt_elements values) as [|v [|]] eqn:Eb; cbn in Ht; [done| |done]. simplify_eq. intros sigma Hf Hd. cbn.
  destruct (forbidden_candidates_for _ _ _ _ Hf Hd Ho _ _ Eo) as (x & Hx & Hin). by rewrite (single_element _ _ Eb _ Hin) in Hx.
Qed.

Section Attribution.
Context (rejected : ConstraintFacet) (roster : list DeclaredConstraint) (domains : ClosedFacetDomains) (clauses : list CoreClause).

(** An entry earned its name. *)
Definition earned (key : N * string) (n : NamedConstraint) : Prop :=
  (∃ d clause, d ∈ roster ∧ clause ∈ clauses ∧ kc_kind clause = KindModelRule ∧ key = (dc_root_index d, dc_id d) ∧
     nc_condition n = dc_condition d ∧ blames domains clause d) ∧
  ∀ choice, choice ∈ nc_facets n → ∃ clause, clause ∈ clauses ∧ kc_kind clause = KindModelRule ∧ pins domains clause choice.

Lemma record_hit_earned m d clause open :
  d ∈ roster → clause ∈ clauses → kc_kind clause = KindModelRule → forbidden_candidates (kc_forbidden clause) domains = Some open →
  is_violated open d = true → map_Forall earned m → map_Forall earned (record_hit m d (pinned_assignment open)).
Proof.
  intros Hd Hc Hk Ho Hv Hm. unfold record_hit. apply map_Forall_insert_2; [|done].
  assert (Hnew : ∀ choice, choice ∈ choices_of (dc_condition d) (pinned_assignment open) →
    ∃ clause, clause ∈ clauses ∧ kc_kind clause = KindModelRule ∧ pins domains clause choice).
  { intros choice Hin. exists clause. split_and!; [done..|]. by eapply pinned_pins. }
  destruct (m !! (dc_root_index d, dc_id d)) as [n|] eqn:E; cbn.
  - destruct (Hm _ _ E) as [H1 H2]. split; [done|]. intros choice [?|?]%elem_of_union; [by apply Hnew|by apply H2].
  - split; [|intros choice [?|?]%elem_of_union; [by apply Hnew|set_solver]].
    exists d, clause. split_and!; try done. by eapply violated_blames.
Qed.

Definition all_earned (a : attribution) : Prop := map_Forall earned (at_relevant a) ∧ map_Forall earned (at_all a).

Lemma attribute_clause_earned a clause :
  clause ∈ clauses → kc_kind clause = KindModelRule → all_earned a → all_earned (attribute_clause rejected roster domains a clause).
Proof.
  intros Hc Hk Ha. unfold attribute_clause. destruct (forbidden_candidates _ _) as [open|] eqn:Ho; [|done].
  assert (Hh : Forall (λ d, d ∈ roster ∧ is_violated open d = true) (violated_declarations roster open)).
  { apply Forall_forall. intros d. unfold violated_declarations. rewrite (merge_sort_Permutation declaration_le).
    rewrite !list_elem_of_In. apply List.filter_In. }
  destruct (violated_declarations roster open) as [|d0 ds] eqn:Ev; [done|].
  generalize (if decide (pinned_to open (cf_facet rejected) = Some (cf_option rejected)) then delete (cf_facet rejected) open else open).
  intros without. clear Ev. revert a Ha. induction Hh as [|d l [Hd Hv] _ IH]; intros a [Hr Hl]; cbn; [done|]. apply IH. split; cbn.
  - destruct (is_violated without d); [done|]. by eapply record_hit_earned.
  - by eapply record_hit_earned.
Qed.

Lemma attribution_earned :
  all_earned (foldl (attribute_clause rejected roster domains) (mkAttribution ∅ ∅ ∅) (List.filter (is_kind KindModelRule) clauses)).
Proof.
  assert (Hf : Forall (λ c, c ∈ clauses ∧ kc_kind c = KindModelRule) (List.filter (is_kind KindModelRule) clauses)).
  { apply Forall_forall. intros c [Hin Hk%bool_decide_eq_true]%list_elem_of_In%List.filter_In. by rewrite list_elem_of_In. }
  generalize (List.filter (is_kind KindModelRule) clauses) Hf. clear Hf. intros l Hf.
  assert (Ha : all_earned (mkAttribution ∅ ∅ ∅)) by (split; apply map_Forall_empty).
  revert Ha. generalize (mkAttribution ∅ ∅ ∅). induction Hf as [|c l [Hin Hk] _ IH]; intros a Ha; cbn; [done|].
  apply IH. by apply attribute_clause_earned.
Qed.
End Attribution.

(** C30: A constraint that an explanation names is a declared one and is broken by
    every configuration that some clause of the core forbids, and each choice
    listed with it is one that a clause of the core makes: no policy is named that
    the conflict does not break. *)
Theorem attribution_sound clauses rejected roster domains entry id :
  entry ∈ attribute_core_clauses clauses rejected roster domains → cc_constraint_id entry = Some id →
  cc_kind entry = KindModelRule ∧
  (∃ d clause, d ∈ roster ∧ clause ∈ clauses ∧ kc_kind clause = KindModelRule ∧
     dc_id d = id ∧ cc_summary entry = dc_condition d ∧ blames domains clause d) ∧
  ∀ f, f ∈ cc_facets entry →
    ∃ clause, clause ∈ clauses ∧ kc_kind clause = KindModelRule ∧ pins domains clause (cf_facet f, cf_option f).
Proof.
  unfold attribute_core_clauses. pose proof (attribution_earned rejected roster domains clauses) as [Hr Hl]. cbn zeta.
  set (a := foldl _ _ _) in *. set (named := if decide (at_relevant a = ∅) then at_all a else at_relevant a).
  assert (Hn : map_Forall (earned roster domains clauses) named) by (unfold named; by case_decide).
  rewrite elem_of_app. intros [(c & -> & _)%list_elem_of_fmap|Hin] Hid; [done|].
  case_decide as Hnil; [destruct (List.filter _ clauses); [by apply not_elem_of_nil in Hin|apply list_elem_of_singleton in Hin; by subst]|].
  apply list_elem_of_fmap in Hin as ([key n] & -> & Hin). unfold named_in_order in Hin. rewrite (merge_sort_Permutation key_le) in Hin.
  apply elem_of_map_to_list in Hin. destruct (Hn _ _ Hin) as [(d & clause & ? & ? & ? & -> & ? & ?) Hc]. cbn in Hid |- *. simplify_eq.
  split; [done|]. split; [exists d, clause; split_and!; done|]. intros f ([f' o] & -> & Hf)%list_elem_of_fmap. apply Hc.
  unfold pairs_in_order in Hf. rewrite (merge_sort_Permutation pair_le) in Hf. by apply elem_of_elements in Hf.
Qed.

(** ** When nothing is named *)

Definition accounted (roster : list DeclaredConstraint) (domains : ClosedFacetDomains) (c : CoreClause) : bool :=
  match forbidden_candidates (kc_forbidden c) domains with
  | Some open => existsb (is_violated open) roster
  | None => false
  end.

Lemma violated_nil roster open : violated_declarations roster open = [] ↔ existsb (is_violated open) roster = false.
Proof.
  unfold violated_declarations. split.
  - intros E. pose proof (merge_sort_Permutation declaration_le (List.filter (is_violated open) roster)) as Hp. rewrite E in Hp.
    apply Permutation_nil_l in Hp. induction roster as [|d roster IH]; cbn in *; [done|]. destruct (is_violated open d); [done|]. by apply IH.
  - intros E. assert (Hn : List.filter (is_violated open) roster = []); [|by rewrite Hn].
    induction roster as [|d roster IH]; cbn in *; [done|]. apply orb_false_iff in E as [-> E]. by apply IH.
Qed.

Lemma record_one_all without assignment l a :
  at_all (foldl (record_one without assignment) a l) = ∅ ↔ at_all a = ∅ ∧ l = [].
Proof.
  revert a. induction l as [|d l IH]; intros a; cbn; [naive_solver|]. rewrite IH. cbn. split; [|naive_solver].
  intros [E _]. unfold record_hit in E. by apply insert_non_empty in E.
Qed.

Lemma record_one_dom without assignment l a :
  dom (at_relevant a) ⊆ dom (at_all a) →
  dom (at_relevant (foldl (record_one without assignment) a l)) ⊆ dom (at_all (foldl (record_one without assignment) a l)).
Proof.
  revert a. induction l as [|d l IH]; intros a Ha; cbn; [done|]. apply IH. cbn. unfold record_hit.
  destruct (is_violated without d); rewrite ?dom_insert; set_solver.
Qed.

Lemma attribute_clause_all rejected roster domains a c :
  (at_all (attribute_clause rejected roster domains a c) = ∅ ↔ at_all a = ∅ ∧ accounted roster domains c = false) ∧
  (dom (at_relevant a) ⊆ dom (at_all a) →
   dom (at_relevant (attribute_clause rejected roster domains a c)) ⊆ dom (at_all (attribute_clause rejected roster domains a c))).
Proof.
  unfold attribute_clause, accounted. destruct (forbidden_candidates _ _) as [open|]; [|by split; [naive_solver|]].
  pose proof (violated_nil roster open) as Hv. destruct (violated_declarations roster open) as [|d ds].
  - rewrite (proj1 Hv eq_refl). split; [cbn; tauto|done].
  - split; [rewrite record_one_all|apply record_one_dom]. split; [naive_solver|]. intros [_ E]. by apply Hv in E.
Qed.

Lemma attribution_all rejected roster domains l a :
  dom (at_relevant a) ⊆ dom (at_all a) →
  let a' := foldl (attribute_clause rejected roster domains) a l in
  (at_all a' = ∅ ↔ at_all a = ∅ ∧ existsb (accounted roster domains) l = false) ∧ dom (at_relevant a') ⊆ dom (at_all a').
Proof.
  revert a. induction l as [|c l IH]; intros a Ha; cbn; [split; [naive_solver|done]|].
  destruct (attribute_clause_all rejected roster domains a c) as [H1 H2]. destruct (IH _ (H2 Ha)) as [H3 H4]. split; [|done].
  rewrite H3, H1, orb_false_iff. naive_solver.
Qed.

(** The model is called over-constrained exactly when the core has a rule of the
    model and no declared constraint accounts for any of them. *)
Theorem over_constrained_exact clauses rejected roster domains :
  let rules := List.filter (is_kind KindModelRule) clauses in
  (∃ entry, entry ∈ attribute_core_clauses clauses rejected roster domains ∧ cc_kind entry = KindModelRule ∧ cc_constraint_id entry = None) ↔
  rules ≠ [] ∧ existsb (accounted roster domains) rules = false.
Proof.
  cbn zeta. unfold attribute_core_clauses. set (rules := List.filter (is_kind KindModelRule) clauses).
  destruct (attribution_all rejected roster domains rules (mkAttribution ∅ ∅ ∅)) as [He Hd]; [done|]. cbn zeta in *.
  set (a := foldl _ _ rules) in *. set (named := if decide (at_relevant a = ∅) then at_all a else at_relevant a).
  assert (Hn : named = ∅ ↔ existsb (accounted roster domains) rules = false).
  { unfold named. case_decide as Hr; [rewrite He; naive_solver|]. split; [done|].
    intros E. destruct Hr. apply dom_empty_iff_L. assert (Hall : at_all a = ∅) by (by apply He). rewrite Hall, dom_empty_L in Hd. set_solver. }
  split.
  - intros (entry & Hin & Hk & Hid). apply elem_of_app in Hin as [(c & -> & _)%list_elem_of_fmap|Hin]; [done|].
    case_decide as Hnil; [|by apply list_elem_of_fmap in Hin as (e & -> & _)]. apply Hn in Hnil. split; [|done].
    destruct rules; [by apply not_elem_of_nil in Hin|done].
  - intros [Hr Hx%Hn]. rewrite decide_True by done. destruct rules as [|c rules']; [done|]. eexists. split; [apply elem_of_app; right; by left|done].
Qed.

(** ** A rule about production *)

Definition forbids_debug : DeclaredConstraint := mkDeclared "prod_forbids_debug" "!(env == 'prod' && debug == 'on')" 0.
Definition debug_clause : CoreClause :=
  mkCoreClause KindModelRule [] "relating" [(mkFacet "env" "prod", true); (mkFacet "debug" "off", false); (mkFacet "beta" "off", false)].
Definition debug_domains : ClosedFacetDomains := {[ "debug" := {["on"; "off"]}; "env" := {["prod"; "dev"]} ]}.
Definition debug_entry : ConflictingConstraint :=
  mkConflicting KindModelRule [mkFacet "debug" "on"; mkFacet "env" "prod"] "!(env == 'prod' && debug == 'on')" (Some "prod_forbids_debug").

Lemma attribution_sound_witness :
  attribute_core_clauses [debug_clause] (mkFacet "debug" "on") [forbids_debug] debug_domains = [debug_entry] ∧
  cc_kind debug_entry = KindModelRule ∧
  ∃ clause, clause ∈ [debug_clause] ∧ pins debug_domains clause ("debug", "on").
Proof.
  assert (E : attribute_core_clauses [debug_clause] (mkFacet "debug" "on") [forbids_debug] debug_domains = [debug_entry]) by by vm_compute.
  split; [exact E|]. destruct (attribution_sound [debug_clause] (mkFacet "debug" "on") [forbids_debug] debug_domains debug_entry "prod_forbids_debug")
    as (H1 & _ & H2); [rewrite E; apply list_elem_of_singleton; reflexivity|reflexivity|]. split; [exact H1|]. destruct (H2 (mkFacet "debug" "on")) as (clause & ? & _ & ?); [apply list_elem_of_here|]. exists clause. by split.
Defined.
