(* ===== verification/Override.v ===== *)
(** * Governance of overrides

    Models [compiler/src/runtime_api/override_intent.rs] and [authority.rs]: what
    an override is for, how it may end, how long it may live, and who may act on
    it. *)
From S2P Require Import Prelude Schema.
Local Open Scope N_scope.

Definition RT_U64_MAX : N := 0xFFFFFFFFFFFFFFFF.

(** [u64::saturating_add]. *)
Definition saturating_add (a b : N) : N := N.min (a + b) RT_U64_MAX.

(** ** Intents and outcomes *)

Inductive OverrideIntent : Type := Experimental | Compensating.

Inductive TerminalEvent : Type := SessionLeaseExpiry | HardCap | SoftwareUpgrade | ValueEqualsBase.

Inductive UpgradeRevalidation : Type :=
  | ValidAgainstNewModel
  | NeedsReview
  | ParameterObsoleted
  | ConvergedToBase.

Inductive TerminalOutcome : Type :=
  | SilentRevert
  | Survive
  | Escalate
  | Wipe
  | Carry
  | Surface
  | AbsorbAndLog (keep_linkage : bool).

#[export] Instance OverrideIntent_eq_dec : EqDecision OverrideIntent.
Proof. solve_decision. Defined.

Definition default_override_intent : OverrideIntent := Experimental.

Definition is_silent (o : TerminalOutcome) : bool :=
  match o with
  | SilentRevert | Wipe | AbsorbAndLog false => true
  | _ => false
  end.

Definition upgrade_reconcile (intent : OverrideIntent) (revalidation : UpgradeRevalidation) : TerminalOutcome :=
  match intent with
  | Experimental => Wipe
  | Compensating =>
      match revalidation with
      | ValidAgainstNewModel => Carry
      | NeedsReview => Surface
      | ParameterObsoleted => Surface
      | ConvergedToBase => AbsorbAndLog true
      end
  end.

Definition override_terminal_outcome (event : TerminalEvent) (intent : OverrideIntent) : TerminalOutcome :=
  match event, intent with
  | SessionLeaseExpiry, Experimental => SilentRevert
  | SessionLeaseExpiry, Compensating => Survive
  | HardCap, Experimental => SilentRevert
  | HardCap, Compensating => Escalate
  | SoftwareUpgrade, Experimental => upgrade_reconcile Experimental NeedsReview
  | SoftwareUpgrade, Compensating => upgrade_reconcile Compensating NeedsReview
  | ValueEqualsBase, Experimental => AbsorbAndLog false
  | ValueEqualsBase, Compensating => AbsorbAndLog true
  end.

(** ** Time bounds *)

Definition HARD_CAP_MAX_MS : N := 365 * 24 * 60 * 60 * 1000.

Record OverrideTimeBounds : Type := mkTimeBounds {
  session_lease_ms : N;
  hard_cap_ms : N;
}.

Definition new_time_bounds (lease cap : N) : option OverrideTimeBounds :=
  if HARD_CAP_MAX_MS <? cap then None else Some (mkTimeBounds lease cap).

Definition hard_cap_within_limit (b : OverrideTimeBounds) : bool := hard_cap_ms b <=? HARD_CAP_MAX_MS.

Definition hard_cap_deadline_unix_ms (b : OverrideTimeBounds) (now : N) : N := saturating_add now (hard_cap_ms b).

Definition renew_hard_cap_deadline_unix_ms (b : OverrideTimeBounds) (now : N) : N := hard_cap_deadline_unix_ms b now.

Record OverrideDeadlines : Type := mkDeadlines {
  od_session_lease : N;
  od_hard_cap : N;
}.

Definition deadlines_unix_ms (b : OverrideTimeBounds) (now : N) : OverrideDeadlines :=
  mkDeadlines (saturating_add now (session_lease_ms b)) (hard_cap_deadline_unix_ms b now).

(** The bound a schedule entry stands for. *)
Inductive AutoResetDeadlineKind : Type := LeaseExpiryKind | HardCapKind.

#[export] Instance AutoResetDeadlineKind_eq_dec : EqDecision AutoResetDeadlineKind.
Proof. solve_decision. Defined.

Definition terminal_event_for_deadline_kind (kind : AutoResetDeadlineKind) : TerminalEvent :=
  match kind with LeaseExpiryKind => SessionLeaseExpiry | HardCapKind => HardCap end.

(** ** Authority *)

Definition E_AUTHORITY_ROLE_DENIED : string := "E_AUTHORITY_ROLE_DENIED".

Inductive AuthorityRole : Type := Operator | Owner.

Definition from_wire (role : string) : option AuthorityRole :=
  if decide (role = "operator") then Some Operator
  else if decide (role = "owner") then Some Owner
  else None.

Inductive AuthorityAction : Type := CreateOverride | LocalCommit | PromoteToBase.

Record AuthorityDenial : Type := mkDenial {
  dn_code : string;
  dn_message : string;
}.

Definition role_denied : AuthorityDenial := mkDenial E_AUTHORITY_ROLE_DENIED "role is not authorized for this action".

Record AuthorityDecision : Type := mkDecision {
  allowed : bool;
  raises_review_item : bool;
  denial : option AuthorityDenial;
}.

Definition allow (raises : bool) : AuthorityDecision := mkDecision true raises None.
Definition deny : AuthorityDecision := mkDecision false false (Some role_denied).

Definition authorize (role : AuthorityRole) (action : AuthorityAction) : AuthorityDecision :=
  match role, action with
  | Operator, CreateOverride | Owner, CreateOverride => allow false
  | Operator, LocalCommit | Owner, LocalCommit => allow true
  | Owner, PromoteToBase => allow false
  | Operator, PromoteToBase => deny
  end.

Definition authorize_wire_role (role : string) (action : AuthorityAction) : AuthorityDecision :=
  match from_wire role with
  | Some known => authorize known action
  | None => deny
  end.

Record RaisedReviewItem : Type := mkReviewItem {
  ri_actor : string;
  ri_unit : string;
  ri_path : string;
  ri_action : AuthorityAction;
  ri_reason : option string;
  ri_timestamp_unix_ms : N;
}.

Definition local_commit_review_item (decision : AuthorityDecision) (actor unit path : string) (reason : option string)
    (timestamp : N) : option RaisedReviewItem :=
  if negb (allowed decision && raises_review_item decision) then None
  else Some (mkReviewItem actor unit path LocalCommit reason timestamp).

(** ** What the tables guarantee *)

(** A compensating override never ends silently: not at a bound, not on
    convergence and, whatever its revalidation says, not on an upgrade. *)
Lemma compensating_never_silent event revalidation :
  is_silent (override_terminal_outcome event Compensating) = false ∧ is_silent (upgrade_reconcile Compensating revalidation) = false.
Proof. split; [by destruct event|by destruct revalidation]. Qed.

(** At either bound the outcome is silent for experimental overrides alone. *)
Lemma bound_silent kind intent :
  is_silent (override_terminal_outcome (terminal_event_for_deadline_kind kind) intent) = bool_decide (intent = Experimental).
Proof. by destruct kind, intent. Qed.

(** No deadline is more than a year away. *)
Lemma hard_cap_bounded lease cap b now :
  new_time_bounds lease cap = Some b → hard_cap_deadline_unix_ms b now <= now + HARD_CAP_MAX_MS.
Proof.
  unfold new_time_bounds, hard_cap_deadline_unix_ms, saturating_add. destruct (N.ltb_spec HARD_CAP_MAX_MS cap); [done|].
  intros [= <-]. cbn [hard_cap_ms]. lia.
Qed.

(** Only an owner promotes, an unknown role does nothing, a denied action raises
    nothing, and every allowed local commit raises a review item. *)
Lemma authority_sound role action :
  let d := authorize_wire_role role action in
  (allowed d = true ↔ denial d = None) ∧ (raises_review_item d = true → allowed d = true) ∧
  (allowed d = true → action = PromoteToBase → role = "owner") ∧
  (allowed d = true → role = "operator" ∨ role = "owner") ∧
  (allowed d = true → action = LocalCommit → ∀ actor unit path reason t,
    is_Some (local_commit_review_item d actor unit path reason t)).
Proof.
  unfold authorize_wire_role, from_wire. repeat case_decide; subst; destruct action; cbn; naive_solver.
Qed.
