(* ===== verification/Runtime.v ===== *)
(** * The runtime snapshot

    Models the data of [compiler/src/runtime_api/contracts.rs] and the shared
    operations of [shared_ops.rs]: a snapshot of a resolved model with the
    values that were committed and the values that were written and not yet
    committed (the dirty ones), the schedule of their automatic resets, the event
    bus and the audit log; its normalization, its validation, the write, the
    reset and the identity of a configuration.

    An overlay is a map of maps, by scope root and by path.  [u64] counters
    saturate as in the source.  The fields of a snapshot that no operation
    changes are one record ([SnapshotHead]).  A diagnostic is its code and the
    entity it names; its message and hint are left out.  [serde_json] and SHA-256
    are the class [RuntimeCodec]; the clock is an argument of the operations. *)
From Stdlib Require Import SpecFloat.
From S2P Require Import Prelude Attribution Text Schema Resolver Ir Override.
Local Open Scope N_scope.

(** ** Maps of maps *)

Notation overlay A := (gmap string (gmap string A)).

Definition get2 {A} (m : overlay A) (scope path : string) : option A := m !! scope ≫= (.!! path).

(** [entry(scope).or_default().insert(path, v)]. *)
Definition put2 {A} (scope path : string) (v : A) (m : overlay A) : overlay A :=
  <[scope := <[path := v]> (default ∅ (m !! scope))]> m.

(** [remove(path)], and the scope too when it has become empty. *)
Definition del2 {A} (scope path : string) (m : overlay A) : overlay A :=
  match m !! scope with
  | None => m
  | Some entries =>
      let entries := delete path entries in
      if decide (entries = ∅) then delete scope m else <[scope := entries]> m
  end.

(** Scope roots and paths in order. *)
Definition pairs2 {A} (m : overlay A) : list (string * string) :=
  flat_map (λ se, pair se.1 <$> (bt_list se.2).*1) (bt_list m).

(** ** Data *)

Record DirtyEntryMetadata : Type := mkMetadata {
  dm_actor : string;
  dm_reason : option string;
  dm_dirty_since : N;
  dm_reset_deadline : option N;
  dm_hard_cap_deadline : option N;
  dm_generation : N;
  dm_intent : OverrideIntent;
}.

Record AutoResetPathPolicy : Type := mkPathPolicy {
  pp_enabled : option bool;
  pp_timeout_ms : option N;
}.

Record AutoResetPolicy : Type := mkPolicy {
  ap_enabled : bool;
  ap_default_timeout_ms : N;
  ap_per_path_overrides : gmap string AutoResetPathPolicy;
  ap_policy_revision : N;
}.

Record AutoResetScheduleEntry : Type := mkEntry {
  se_scope_root : string;
  se_path : string;
  se_generation : N;
  se_deadline : N;
  se_kind : AutoResetDeadlineKind;
}.

Inductive RuntimeEventKind : Type :=
  | RuntimeOpened | ParameterChanged | DirtyStateChanged | ResetApplied | RollbackApplied | CommitApplied
  | SyncStateChanged | SyncConflictDetected | SyncConflictResolved | SyncApplyCompleted | OverrideEscalated.

Inductive SyncApplySource : Type := Backend | DirectPush.

Inductive RuntimeEventPayload : Type :=
  | PlRuntimeOpened (scope_root : string)
  | PlParameterChanged (scope_root path : string) (generation : N)
  | PlDirtyStateChanged (scope_root path : string) (dirty : bool) (generation : N)
  | PlResetApplied (scope_root path cause : string) (generation : N)
  | PlRollbackApplied (rolled_back_paths : list string)
  | PlCommitApplied (commit_id : string) (changed_paths : list string)
  | PlSyncStateChanged (state : string) (summary : option string)
  | PlSyncConflictDetected (conflict_paths : list string)
  | PlSyncConflictResolved (conflict_paths applied_paths : list string) (source : SyncApplySource)
  | PlSyncApplyCompleted (source : SyncApplySource) (base target : string) (applied_paths conflict_paths : list string)
  | PlOverrideEscalated (scope_root path : string) (intent : OverrideIntent) (event : TerminalEvent) (generation : N).

Record RuntimeEvent : Type := mkEvent {
  ev_event_id : string;
  ev_sequence : N;
  ev_kind : RuntimeEventKind;
  ev_scope : string;
  ev_timestamp : N;
  ev_actor : option string;
  ev_reason : option string;
  ev_old_value_hash : option string;
  ev_new_value_hash : option string;
  ev_payload : RuntimeEventPayload;
}.

Record RuntimeEventBusState : Type := mkBus {
  eb_next_sequence : N;
  eb_buffer_capacity : N;
  eb_events : list RuntimeEvent;
  eb_dropped_events : N;
}.

Inductive RuntimeAuditEventKind : Type := AuditWrite | AuditReset | AuditCommit | AuditSyncApply | AuditDirectPush | AuditEscalation.

Record RuntimeAuditEvent : Type := mkAudit {
  au_event_id : string;
  au_sequence : N;
  au_kind : RuntimeAuditEventKind;
  au_scope : string;
  au_timestamp : N;
  au_actor : string;
  au_reason : option string;
  au_committed_id : string;
  au_working_id : string;
  au_base_id : option string;
  au_target_id : option string;
  au_changed_paths : list string;
}.

Inductive RuntimeSyncState : Type := Idle | Checking | Pulling | Applying | SyncError | Offline.

Record Diagnostic : Type := mkDiagnostic {
  dg_code : string;
  dg_entity : string;
}.

Record RuntimeSyncStatus : Type := mkSync {
  sy_state : RuntimeSyncState;
  sy_last_successful : option N;
  sy_pending_update_summary : option string;
  sy_diagnostics : list Diagnostic;
}.

(** What no operation changes. *)
Record SnapshotHead : Type := mkHead {
  sh_schema_version : N;
  sh_model_hash : string;
  sh_ccm_ref : string;
  sh_resolve_hash : string;
  sh_scope : string;
  sh_context_tags : gmap string string;
  sh_choices : gmap string string;
  sh_closed_facet_domains : ClosedFacetDomains;
  sh_resolved_output : gmap string ResolvedConfig;
  sh_component_dependencies : gmap string (gmap string (list string));
  sh_resolved_artifacts : gmap string SchemaArtifact;
  sh_persistence_format_version : N;
}.

Record RuntimeSnapshot : Type := mkSnapshot {
  rs_head : SnapshotHead;
  committed_overlay : overlay Value;
  dirty_overlay : overlay Value;
  dirty_generations : overlay N;
  dirty_metadata : overlay DirtyEntryMetadata;
  auto_reset_policy : AutoResetPolicy;
  pending : list AutoResetScheduleEntry;
  event_bus : RuntimeEventBusState;
  sync_status : RuntimeSyncStatus;
  audit_events : list RuntimeAuditEvent;
  audit_next_sequence : N;
  audit_uploaded_sequence : N;
  persistence_journal_sequence : N;
}.

Notation resolved_output s := (sh_resolved_output (rs_head s)).
Notation resolved_artifacts s := (sh_resolved_artifacts (rs_head s)).

(** ** Assignments to fields *)

Definition set_dirty (s : RuntimeSnapshot) (o : overlay Value) (g : overlay N) (m : overlay DirtyEntryMetadata)
    (p : list AutoResetScheduleEntry) : RuntimeSnapshot :=
  mkSnapshot (rs_head s) (committed_overlay s) o g m (auto_reset_policy s) p (event_bus s) (sync_status s) (audit_events s)
    (audit_next_sequence s) (audit_uploaded_sequence s) (persistence_journal_sequence s).

Definition set_pending (s : RuntimeSnapshot) (p : list AutoResetScheduleEntry) : RuntimeSnapshot :=
  set_dirty s (dirty_overlay s) (dirty_generations s) (dirty_metadata s) p.

Definition set_committed (s : RuntimeSnapshot) (c : overlay Value) : RuntimeSnapshot :=
  mkSnapshot (rs_head s) c (dirty_overlay s) (dirty_generations s) (dirty_metadata s) (auto_reset_policy s) (pending s)
    (event_bus s) (sync_status s) (audit_events s) (audit_next_sequence s) (audit_uploaded_sequence s)
    (persistence_journal_sequence s).

Definition set_policy (s : RuntimeSnapshot) (p : AutoResetPolicy) : RuntimeSnapshot :=
  mkSnapshot (rs_head s) (committed_overlay s) (dirty_overlay s) (dirty_generations s) (dirty_metadata s) p (pending s)
    (event_bus s) (sync_status s) (audit_events s) (audit_next_sequence s) (audit_uploaded_sequence s)
    (persistence_journal_sequence s).

Definition set_bus (s : RuntimeSnapshot) (b : RuntimeEventBusState) : RuntimeSnapshot :=
  mkSnapshot (rs_head s) (committed_overlay s) (dirty_overlay s) (dirty_generations s) (dirty_metadata s)
    (auto_reset_policy s) (pending s) b (sync_status s) (audit_events s) (audit_next_sequence s) (audit_uploaded_sequence s)
    (persistence_journal_sequence s).

Definition set_sync (s : RuntimeSnapshot) (y : RuntimeSyncStatus) : RuntimeSnapshot :=
  mkSnapshot (rs_head s) (committed_overlay s) (dirty_overlay s) (dirty_generations s) (dirty_metadata s)
    (auto_reset_policy s) (pending s) (event_bus s) y (audit_events s) (audit_next_sequence s) (audit_uploaded_sequence s)
    (persistence_journal_sequence s).

Definition set_audit (s : RuntimeSnapshot) (events : list RuntimeAuditEvent) (next uploaded : N) : RuntimeSnapshot :=
  mkSnapshot (rs_head s) (committed_overlay s) (dirty_overlay s) (dirty_generations s) (dirty_metadata s)
    (auto_reset_policy s) (pending s) (event_bus s) (sync_status s) events next uploaded (persistence_journal_sequence s).

Definition bump_journal (s : RuntimeSnapshot) : RuntimeSnapshot :=
  mkSnapshot (rs_head s) (committed_overlay s) (dirty_overlay s) (dirty_generations s) (dirty_metadata s)
    (auto_reset_policy s) (pending s) (event_bus s) (sync_status s) (audit_events s) (audit_next_sequence s)
    (audit_uploaded_sequence s) (saturating_add (persistence_journal_sequence s) 1).

(** ** Constants *)

Definition PRODUCT_SCHEMA_VERSION : N := 5.

Definition E_RUNTIME_UNSUPPORTED_SCHEMA_VERSION : string := "E_RUNTIME_UNSUPPORTED_SCHEMA_VERSION".
Definition E_RUNTIME_OPEN_INVALID : string := "E_RUNTIME_OPEN_INVALID".
Definition E_RUNTIME_UNKNOWN_SCOPE : string := "E_RUNTIME_UNKNOWN_SCOPE".
Definition E_RUNTIME_UNKNOWN_PATH : string := "E_RUNTIME_UNKNOWN_PATH".
Definition E_RUNTIME_TYPE_MISMATCH : string := "E_RUNTIME_TYPE_MISMATCH".
Definition E_RUNTIME_LIMIT_VIOLATION : string := "E_RUNTIME_LIMIT_VIOLATION".
Definition E_RUNTIME_LIFECYCLE_IMMUTABLE : string := "E_RUNTIME_LIFECYCLE_IMMUTABLE".
Definition E_RUNTIME_ARTIFACT_UNKNOWN : string := "E_RUNTIME_ARTIFACT_UNKNOWN".
Definition E_RUNTIME_DIRTY_INVALID : string := "E_RUNTIME_DIRTY_INVALID".
Definition E_RUNTIME_EVENT_INVALID : string := "E_RUNTIME_EVENT_INVALID".
Definition E_RUNTIME_COMMIT_INVALID : string := "E_RUNTIME_COMMIT_INVALID".
Definition E_RUNTIME_COMMIT_BASE_MISMATCH : string := "E_RUNTIME_COMMIT_BASE_MISMATCH".
Definition E_RUNTIME_COMMIT_TARGET_HASH_MISMATCH : string := "E_RUNTIME_COMMIT_TARGET_HASH_MISMATCH".
Definition E_RUNTIME_SYNC_INVALID : string := "E_RUNTIME_SYNC_INVALID".
Definition E_RUNTIME_AUDIT_INVALID : string := "E_RUNTIME_AUDIT_INVALID".
Definition DEFAULT_DIRTY_ACTOR : string := "runtime_api.set_parameter".
Definition DEFAULT_SYSTEM_ACTOR : string := "system/unknown".

Definition default_persistence_format_version : N := 1.
Definition default_auto_reset_enabled : bool := true.
Definition default_auto_reset_timeout_ms : N := 30000.
Definition default_event_next_sequence : N := 1.
Definition default_event_buffer_capacity : N := 512.
Definition default_audit_next_sequence : N := 1.

Notation runtime A := (result Diagnostic A).

(** ** Text *)

Definition blank (s : string) : bool := bool_decide (trim s = String.EmptyString).

Definition sanitize_optional_text (t : option string) : option string :=
  s ← t; if blank s then None else Some (trim s).

Definition canonical_runtime_path (scope_root path : string) : string := scope_root +:+ "/" +:+ path.

Definition hex_digit (n : N) : ascii :=
  if n <? 10 then ascii_of_N (48 + n) else ascii_of_N (87 + n).

(** [{:016x}]. *)
Definition hex16 (n : N) : string :=
  string_of ((λ i, hex_digit (N.land (N.shiftr n (4 * (15 - N.of_nat i))) 15)) <$> seq 0 16).

Definition is_sha256_hex (s : string) : bool :=
  bool_decide (length (bytes_of s) = 64%nat) &&
  forallb (λ b, let n := N_of_ascii b in ((48 <=? n) && (n <=? 57)) || ((97 <=? n) && (n <=? 102))) (bytes_of s).

(** [slice::dedup_by]: the first of every run stays. *)
Fixpoint dedup_after {A} (same : A → A → bool) (last : A) (l : list A) : list A :=
  match l with
  | [] => []
  | x :: l => if same x last then dedup_after same last l else x :: dedup_after same x l
  end.

Definition dedup_by {A} (same : A → A → bool) (l : list A) : list A :=
  match l with
  | [] => []
  | x :: l => x :: dedup_after same x l
  end.

Definition sort_paths (l : list string) : list string :=
  dedup_by (λ a b, bool_decide (a = b)) (merge_sort String.le l).

(** ** Values *)

Notation f64 := spec_float.

(** The number the bits of a double stand for. *)
Definition f64_of_bits (bits : N) : f64 :=
  let sign := N.testbit bits 63 in
  let exponent := N.land (N.shiftr bits 52) 2047 in
  let fraction := N.land bits (N.ones 52) in
  if exponent =? 0 then
    match fraction with N0 => S754_zero sign | Npos m => S754_finite sign m (-1074)%Z end
  else if exponent =? 2047 then
    if fraction =? 0 then S754_infinity sign else S754_nan
  else
    match fraction + N.shiftl 1 52 with
    | N0 => S754_zero sign
    | Npos m => S754_finite sign m (Z.of_N exponent - 1075)
    end.

(** [i as f64]. *)
Definition f64_of_int (i : Z) : f64 := binary_normalize 53 1024 i 0 false.

Definition numeric_value (v : Value) : option f64 :=
  match v with
  | VInteger i => Some (f64_of_int i)
  | VFloat bits => Some (f64_of_bits bits)
  | _ => None
  end.

(** The derived [PartialEq]. *)
Definition value_eqb (a b : Value) : bool :=
  match a, b with
  | VInteger i, VInteger j => Z.eqb i j
  | VFloat x, VFloat y => SFeqb (f64_of_bits x) (f64_of_bits y)
  | VBoolean x, VBoolean y => Bool.eqb x y
  | VString x, VString y => bool_decide (x = y)
  | _, _ => false
  end.

Definition value_kind (v : Value) : string :=
  match v with
  | VInteger _ => "integer"
  | VFloat _ => "float"
  | VBoolean _ => "boolean"
  | VString _ => "string"
  end.

Definition is_value_compatible_with_type (type : string) (v : Value) : bool :=
  if decide (type = "int" ∨ type = "integer") then match v with VInteger _ => true | _ => false end
  else if decide (type = "float") then match v with VInteger _ | VFloat _ => true | _ => false end
  else if decide (type = "bool" ∨ type = "boolean") then match v with VBoolean _ => true | _ => false end
  else if decide (type = "string") then match v with VString _ => true | _ => false end
  else if decide (type = "artifact") then match v with VString t => negb (blank t) | _ => false end
  else true.

Definition validate_limits (path : string) (v : Value) (limits : option Limits) : runtime unit :=
  match limits with
  | None => Ok tt
  | Some l =>
      _ ← match min_len l, v with
          | Some n, VString t => bail_if (N.of_nat (length (bytes_of t)) <? n) (mkDiagnostic E_RUNTIME_LIMIT_VIOLATION path)
          | _, _ => Ok tt
          end;
      _ ← match max_len l, v with
          | Some n, VString t => bail_if (n <? N.of_nat (length (bytes_of t))) (mkDiagnostic E_RUNTIME_LIMIT_VIOLATION path)
          | _, _ => Ok tt
          end;
      match numeric_value v with
      | None => Ok tt
      | Some x =>
          _ ← match lim_min l ≫= numeric_value with
              | Some lo => bail_if (SFltb x lo) (mkDiagnostic E_RUNTIME_LIMIT_VIOLATION path)
              | None => Ok tt
              end;
          match lim_max l ≫= numeric_value with
          | Some hi => bail_if (SFltb hi x) (mkDiagnostic E_RUNTIME_LIMIT_VIOLATION path)
          | None => Ok tt
          end
      end
  end.

(** ** Paths *)

Definition parse_parameter_path (path : string) : option (string * string) :=
  match split "."%char path with
  | [prefix; component_id; param_token; param_key] =>
      if decide (prefix = "component" ∧ param_token = "param" ∧ trim component_id ≠ String.EmptyString ∧
                 trim param_key ≠ String.EmptyString)
      then Some (component_id, param_key) else None
  | _ => None
  end.

Definition parameter_path (component_id param_key : string) : string :=
  "component." +:+ component_id +:+ ".param." +:+ param_key.

Definition unknown_path : Diagnostic := mkDiagnostic E_RUNTIME_UNKNOWN_PATH "request.path".

Definition find_parameter_in_scope (s : RuntimeSnapshot) (scope_root path : string) : runtime ResolvedParameter :=
  '(component_id, param_key) ← ok_or (parse_parameter_path path) unknown_path;
  resolved ← ok_or (resolved_output s !! scope_root) (mkDiagnostic E_RUNTIME_UNKNOWN_SCOPE "runtime_snapshot.resolved_output");
  component ← ok_or (rf_components resolved !! component_id) unknown_path;
  ok_or (rc_params component !! param_key) unknown_path.

Definition find_parameter_scope_root (s : RuntimeSnapshot) (component_id param_key : string) : runtime string :=
  let matches := List.filter (λ sr,
    match rf_components sr.2 !! component_id with
    | Some component => bool_decide (is_Some (rc_params component !! param_key))
    | None => false
    end) (bt_list (resolved_output s)) in
  match matches with
  | [] => Err unknown_path
  | [(scope_root, _)] => Ok scope_root
  | _ => Err (mkDiagnostic E_RUNTIME_OPEN_INVALID "request.path")
  end.

Definition sorted_parameter_paths (r : ResolvedConfig) : list string :=
  flat_map (λ ic, parameter_path ic.1 <$> (bt_list (rc_params ic.2)).*1) (bt_list (rf_components r)).

Record ResolvedRuntimePath : Type := mkRuntimePath {
  rp_scope_root : string;
  rp_path : string;
  rp_canonical : string;
}.

Definition resolve_runtime_path (s : RuntimeSnapshot) (raw_path entity : string) : runtime ResolvedRuntimePath :=
  match split_once "/"%char raw_path with
  | Some (scope_root, path) =>
      if blank scope_root || blank path then Err (mkDiagnostic E_RUNTIME_UNKNOWN_PATH entity)
      else
        _ ← find_parameter_in_scope s scope_root path;
        Ok (mkRuntimePath scope_root path (canonical_runtime_path scope_root path))
  | None =>
      '(component_id, param_key) ← ok_or (parse_parameter_path raw_path) (mkDiagnostic E_RUNTIME_UNKNOWN_PATH entity);
      scope_root ← find_parameter_scope_root s component_id param_key;
      Ok (mkRuntimePath scope_root raw_path (canonical_runtime_path scope_root raw_path))
  end.

(** ** Effective values *)

Definition effective_parameter_value (s : RuntimeSnapshot) (scope_root path : string) (baseline : Value) : Value :=
  match get2 (dirty_overlay s) scope_root path with
  | Some v => v
  | None => default baseline (get2 (committed_overlay s) scope_root path)
  end.

Definition committed_parameter_value (s : RuntimeSnapshot) (scope_root path : string) (baseline : Value) : Value :=
  default baseline (get2 (committed_overlay s) scope_root path).

(** ** The schedule of resets *)

Definition then_compare (a b : comparison) : comparison := match a with Eq => b | _ => a end.

Definition kind_rank (k : AutoResetDeadlineKind) : N := match k with LeaseExpiryKind => 0 | HardCapKind => 1 end.

Definition due_compare (a b : AutoResetScheduleEntry) : comparison :=
  then_compare (N.compare (se_deadline a) (se_deadline b))
    (then_compare (String.compare (se_scope_root a) (se_scope_root b))
       (then_compare (String.compare (se_path a) (se_path b)) (N.compare (se_generation a) (se_generation b)))).

Definition entry_compare (a b : AutoResetScheduleEntry) : comparison :=
  then_compare (due_compare a b) (N.compare (kind_rank (se_kind a)) (kind_rank (se_kind b))).

Definition entry_le (a b : AutoResetScheduleEntry) : Prop := entry_compare a b ≠ Gt.

#[export] Instance entry_le_dec a b : Decision (entry_le a b).
Proof. unfold entry_le. apply _. Defined.

Definition same_entry (a b : AutoResetScheduleEntry) : bool :=
  bool_decide (se_deadline a = se_deadline b ∧ se_scope_root a = se_scope_root b ∧ se_path a = se_path b ∧
               se_generation a = se_generation b ∧ se_kind a = se_kind b).

Definition sort_and_dedup_schedule_entries (l : list AutoResetScheduleEntry) : list AutoResetScheduleEntry :=
  dedup_by same_entry (merge_sort entry_le l).

Record ResolvedAutoResetPolicy : Type := mkResolvedPolicy {
  ra_enabled : bool;
  ra_timeout_ms : N;
}.

Definition resolve_auto_reset_for_path (policy : AutoResetPolicy) (scope_root path : string) : ResolvedAutoResetPolicy :=
  let overrides := ap_per_path_overrides policy in
  let entry := match overrides !! canonical_runtime_path scope_root path with
               | Some e => Some e
               | None => overrides !! path
               end in
  mkResolvedPolicy (default (ap_enabled policy) (entry ≫= pp_enabled))
    (default (ap_default_timeout_ms policy) (entry ≫= pp_timeout_ms)).

Definition lease_deadline (s : RuntimeSnapshot) (scope_root path : string) (now : N) : option N :=
  let policy := resolve_auto_reset_for_path (auto_reset_policy s) scope_root path in
  if ra_enabled policy then Some (saturating_add now (ra_timeout_ms policy)) else None.

(** ** Normalization *)

Definition event_le (a b : RuntimeEvent) : Prop := ev_sequence a <= ev_sequence b.
#[export] Instance event_le_dec a b : Decision (event_le a b).
Proof. unfold event_le. apply _. Defined.

Definition audit_le (a b : RuntimeAuditEvent) : Prop := au_sequence a <= au_sequence b.
#[export] Instance audit_le_dec a b : Decision (audit_le a b).
Proof. unfold audit_le. apply _. Defined.

Definition normalize_event_bus_state (b : RuntimeEventBusState) : RuntimeEventBusState :=
  let capacity := if eb_buffer_capacity b =? 0 then default_event_buffer_capacity else eb_buffer_capacity b in
  let next := if eb_next_sequence b =? 0 then default_event_next_sequence else eb_next_sequence b in
  let events := dedup_by (λ x y, ev_sequence x =? ev_sequence y) (merge_sort event_le (eb_events b)) in
  let overflow := (length events - N.to_nat (N.max capacity 1))%nat in
  let events := drop overflow events in
  let next := match last events with
              | Some e => if next <=? ev_sequence e then saturating_add (ev_sequence e) 1 else next
              | None => next
              end in
  mkBus next capacity events (saturating_add (eb_dropped_events b) (N.of_nat overflow)).

Definition normalize_sync_status (y : RuntimeSyncStatus) : RuntimeSyncStatus :=
  mkSync (sy_state y) (sy_last_successful y) (sanitize_optional_text (sy_pending_update_summary y)) (sy_diagnostics y).

Definition or_default (s d : string) : string := if blank s then d else s.

(** One record of the log; the next sequence number is threaded through. *)
Definition normalize_audit_event (next : N) (e : RuntimeAuditEvent) : N * RuntimeAuditEvent :=
  let '(sequence, next) := if au_sequence e =? 0 then (next, saturating_add next 1) else (au_sequence e, next) in
  (next,
   mkAudit (or_default (au_event_id e) ("audit-" +:+ hex16 sequence)) sequence (au_kind e) (au_scope e) (au_timestamp e)
     (or_default (au_actor e) DEFAULT_SYSTEM_ACTOR) (sanitize_optional_text (au_reason e)) (au_committed_id e)
     (au_working_id e) (sanitize_optional_text (au_base_id e)) (sanitize_optional_text (au_target_id e))
     (sort_paths (au_changed_paths e))).

Fixpoint normalize_audit_events (next : N) (l : list RuntimeAuditEvent) : N * list RuntimeAuditEvent :=
  match l with
  | [] => (next, [])
  | e :: l =>
      let '(next, e) := normalize_audit_event next e in
      let '(next, l) := normalize_audit_events next l in
      (next, e :: l)
  end.

Definition normalize_audit_state (s : RuntimeSnapshot) : RuntimeSnapshot :=
  let next := if audit_next_sequence s =? 0 then default_audit_next_sequence else audit_next_sequence s in
  let events := dedup_by (λ x y, au_sequence x =? au_sequence y) (merge_sort audit_le (audit_events s)) in
  let '(next, events) := normalize_audit_events next events in
  match last events with
  | Some e =>
      set_audit s events (if next <=? au_sequence e then saturating_add (au_sequence e) 1 else next)
        (if au_sequence e <? audit_uploaded_sequence s then au_sequence e else audit_uploaded_sequence s)
  | None => set_audit s events next 0
  end.

Definition recorded_generation (s : RuntimeSnapshot) (scope_root path : string) : option N :=
  match get2 (dirty_generations s) scope_root path with
  | Some g => Some g
  | None => dm_generation <$> get2 (dirty_metadata s) scope_root path
  end.

Definition normalized_metadata (s : RuntimeSnapshot) (now : N) (scope_root path : string) (generation : N) : DirtyEntryMetadata :=
  let m := default (mkMetadata DEFAULT_DIRTY_ACTOR None now None None generation default_override_intent)
             (get2 (dirty_metadata s) scope_root path) in
  mkMetadata (or_default (dm_actor m) DEFAULT_DIRTY_ACTOR) (sanitize_optional_text (dm_reason m))
    (if dm_dirty_since m =? 0 then now else dm_dirty_since m)
    (match dm_reset_deadline m with Some d => Some d | None => lease_deadline s scope_root path now end)
    (dm_hard_cap_deadline m) generation (dm_intent m).

(** The generations and the metadata after one dirty path. *)
Definition normalize_dirty_path (s : RuntimeSnapshot) (now : N) (st : overlay N * overlay DirtyEntryMetadata)
    (sp : string * string) : overlay N * overlay DirtyEntryMetadata :=
  let generation := N.max (default 0 (recorded_generation s sp.1 sp.2)) 1 in
  (put2 sp.1 sp.2 generation st.1, put2 sp.1 sp.2 (normalized_metadata s now sp.1 sp.2 generation) st.2).

(** An entry per bound of a dirty path. *)
Definition schedule_of (scope_root path : string) (m : DirtyEntryMetadata) : list AutoResetScheduleEntry :=
  match dm_reset_deadline m with
  | Some d => [mkEntry scope_root path (dm_generation m) d LeaseExpiryKind]
  | None => []
  end ++
  match dm_hard_cap_deadline m with
  | Some d => [mkEntry scope_root path (dm_generation m) d HardCapKind]
  | None => []
  end.

Definition schedule_all (metadata : overlay DirtyEntryMetadata) : list AutoResetScheduleEntry :=
  flat_map (λ se, flat_map (λ pm, schedule_of se.1 pm.1 pm.2) (bt_list se.2)) (bt_list metadata).

Definition is_dirty (s : RuntimeSnapshot) (scope_root path : string) : bool :=
  bool_decide (is_Some (get2 (dirty_overlay s) scope_root path)).

Definition normalize_runtime_snapshot_state (s : RuntimeSnapshot) (now : N) : RuntimeSnapshot :=
  let s := set_bus s (normalize_event_bus_state (event_bus s)) in
  let s := set_sync s (normalize_sync_status (sync_status s)) in
  let s := normalize_audit_state s in
  let '(generations, metadata) := foldl (normalize_dirty_path s now) (dirty_generations s, ∅) (pairs2 (dirty_overlay s)) in
  let kept := List.filter (λ e, is_dirty s (se_scope_root e) (se_path e)) (pending s) in
  set_dirty s (dirty_overlay s) generations metadata (sort_and_dedup_schedule_entries (kept ++ schedule_all metadata)).

(** ** Validation *)

Definition validate_artifact (s : RuntimeSnapshot) (p : ResolvedParameter) (v : Value) (entity : string) : runtime unit :=
  if decide (rp_type p = "artifact") then
    match v with
    | VString id =>
        if blank id then Err (mkDiagnostic E_RUNTIME_TYPE_MISMATCH entity)
        else bail_if (negb (bool_decide (is_Some (resolved_artifacts s !! trim id)))) (mkDiagnostic E_RUNTIME_ARTIFACT_UNKNOWN entity)
    | _ => Err (mkDiagnostic E_RUNTIME_TYPE_MISMATCH entity)
    end
  else Ok tt.

Definition validate_value (s : RuntimeSnapshot) (p : ResolvedParameter) (path : string) (v : Value) (entity : string)
    : runtime unit :=
  _ ← bail_if (negb (is_value_compatible_with_type (rp_type p) v)) (mkDiagnostic E_RUNTIME_TYPE_MISMATCH entity);
  _ ← validate_limits path v (rp_limits p);
  validate_artifact s p v entity.

Definition validate_overlay_values (s : RuntimeSnapshot) (o : overlay Value) (root : string) : runtime unit :=
  for_each (λ se,
    _ ← bail_if (negb (bool_decide (is_Some (resolved_output s !! se.1)))) (mkDiagnostic E_RUNTIME_UNKNOWN_SCOPE (root +:+ "." +:+ se.1));
    for_each (λ pv,
      p ← find_parameter_in_scope s se.1 pv.1;
      validate_value s p pv.1 pv.2 (root +:+ "." +:+ se.1 +:+ "." +:+ pv.1)) (bt_list se.2)) (bt_list o).

Definition validate_generation_overlay (s : RuntimeSnapshot) : runtime unit :=
  for_each (λ se,
    _ ← bail_if (negb (bool_decide (is_Some (resolved_output s !! se.1))))
          (mkDiagnostic E_RUNTIME_UNKNOWN_SCOPE ("runtime_snapshot.dirty_generations." +:+ se.1));
    for_each (λ pg, (λ _, tt) <$> find_parameter_in_scope s se.1 pg.1) (bt_list se.2)) (bt_list (dirty_generations s)).

Definition before (deadline : option N) (since : N) : bool := match deadline with Some d => d <? since | None => false end.

Definition validate_metadata (s : RuntimeSnapshot) (scope_root path : string) (m : DirtyEntryMetadata) : runtime unit :=
  let invalid := mkDiagnostic E_RUNTIME_DIRTY_INVALID ("runtime_snapshot.dirty_metadata." +:+ scope_root +:+ "." +:+ path) in
  _ ← find_parameter_in_scope s scope_root path;
  _ ← bail_if (blank (dm_actor m)) invalid;
  _ ← bail_if (dm_generation m =? 0) invalid;
  _ ← match get2 (dirty_generations s) scope_root path with
      | Some g => bail_if (negb (g =? dm_generation m)) invalid
      | None => Ok tt
      end;
  _ ← bail_if (before (dm_reset_deadline m) (dm_dirty_since m)) invalid;
  bail_if (before (dm_hard_cap_deadline m) (dm_dirty_since m)) invalid.

Definition validate_dirty_metadata_overlay (s : RuntimeSnapshot) : runtime unit :=
  for_each (λ se,
    _ ← bail_if (negb (bool_decide (is_Some (resolved_output s !! se.1))))
          (mkDiagnostic E_RUNTIME_DIRTY_INVALID ("runtime_snapshot.dirty_metadata." +:+ se.1));
    for_each (λ pm, validate_metadata s se.1 pm.1 pm.2) (bt_list se.2)) (bt_list (dirty_metadata s)).

Definition validate_auto_reset_policy (s : RuntimeSnapshot) : runtime unit :=
  for_each (λ kp, bail_if (blank kp.1) (mkDiagnostic E_RUNTIME_DIRTY_INVALID "runtime_snapshot.auto_reset_policy.per_path_overrides"))
    (bt_list (ap_per_path_overrides (auto_reset_policy s))).

Fixpoint validate_schedule (s : RuntimeSnapshot) (previous : option AutoResetScheduleEntry) (l : list AutoResetScheduleEntry)
    : runtime unit :=
  let invalid := mkDiagnostic E_RUNTIME_DIRTY_INVALID "runtime_snapshot.auto_reset_scheduler.pending" in
  match l with
  | [] => Ok tt
  | e :: l =>
      _ ← bail_if (se_generation e =? 0) invalid;
      _ ← find_parameter_in_scope s (se_scope_root e) (se_path e);
      _ ← match previous with
          | Some p => bail_if (bool_decide (due_compare e p = Lt)) invalid
          | None => Ok tt
          end;
      validate_schedule s (Some e) l
  end.

Definition validate_auto_reset_scheduler (s : RuntimeSnapshot) : runtime unit := validate_schedule s None (pending s).

(** Every sequence number is above the one before it. *)
Fixpoint ascending (last : N) (l : list N) : bool :=
  match l with
  | [] => true
  | x :: l => (last <? x) && ascending x l
  end.

Definition validate_event_bus (s : RuntimeSnapshot) : runtime unit :=
  let b := event_bus s in
  let invalid := mkDiagnostic E_RUNTIME_EVENT_INVALID in
  _ ← bail_if (eb_buffer_capacity b =? 0) (invalid "runtime_snapshot.event_bus.buffer_capacity");
  _ ← bail_if (eb_next_sequence b =? 0) (invalid "runtime_snapshot.event_bus.next_sequence");
  _ ← bail_if (negb (ascending 0 (ev_sequence <$> eb_events b))) (invalid "runtime_snapshot.event_bus.events");
  match last (eb_events b) with
  | Some e => bail_if (eb_next_sequence b <=? ev_sequence e) (invalid "runtime_snapshot.event_bus.next_sequence")
  | None => Ok tt
  end.

Definition validate_sync_status (s : RuntimeSnapshot) : runtime unit :=
  let y := sync_status s in
  _ ← bail_if (bool_decide (sy_last_successful y = Some 0))
        (mkDiagnostic E_RUNTIME_SYNC_INVALID "runtime_snapshot.sync_status.last_successful_sync_unix_ms");
  bail_if (match sy_pending_update_summary y with Some t => blank t | None => false end)
    (mkDiagnostic E_RUNTIME_SYNC_INVALID "runtime_snapshot.sync_status.pending_update_summary").

(** [windows(2).any(|w| w[0] >= w[1])] is false. *)
Fixpoint strictly_sorted (l : list string) : bool :=
  match l with
  | a :: ((b :: _) as l') => bool_decide (String.compare a b = Lt) && strictly_sorted l'
  | _ => true
  end.

Fixpoint validate_audit_events (last : N) (l : list RuntimeAuditEvent) : runtime unit :=
  let invalid := mkDiagnostic E_RUNTIME_AUDIT_INVALID in
  match l with
  | [] => Ok tt
  | e :: l =>
      _ ← bail_if (au_sequence e =? 0) (invalid "runtime_snapshot.audit_events");
      _ ← bail_if (au_sequence e <=? last) (invalid "runtime_snapshot.audit_events");
      _ ← bail_if (blank (au_actor e)) (invalid "runtime_snapshot.audit_events.actor");
      _ ← bail_if (negb (strictly_sorted (au_changed_paths e))) (invalid "runtime_snapshot.audit_events.changed_paths");
      validate_audit_events (au_sequence e) l
  end.

Definition validate_audit_log (s : RuntimeSnapshot) : runtime unit :=
  let invalid := mkDiagnostic E_RUNTIME_AUDIT_INVALID in
  _ ← validate_audit_events 0 (audit_events s);
  _ ← match last (audit_events s) with
      | Some e => bail_if (au_sequence e <? audit_uploaded_sequence s) (invalid "runtime_snapshot.audit_uploaded_sequence")
      | None => bail_if (negb (audit_uploaded_sequence s =? 0)) (invalid "runtime_snapshot.audit_uploaded_sequence")
      end;
  bail_if (audit_next_sequence s =? 0) (invalid "runtime_snapshot.audit_next_sequence").

Definition validate_runtime_snapshot (s : RuntimeSnapshot) : runtime unit :=
  let h := rs_head s in
  _ ← bail_if (negb (sh_schema_version h =? PRODUCT_SCHEMA_VERSION))
        (mkDiagnostic E_RUNTIME_UNSUPPORTED_SCHEMA_VERSION "runtime_snapshot.schema_version");
  _ ← bail_if (negb (is_sha256_hex (sh_model_hash h))) (mkDiagnostic E_RUNTIME_OPEN_INVALID "runtime_snapshot.model_hash");
  _ ← bail_if (negb (is_sha256_hex (sh_resolve_hash h))) (mkDiagnostic E_RUNTIME_OPEN_INVALID "runtime_snapshot.resolve_hash");
  _ ← bail_if (sh_persistence_format_version h =? 0)
        (mkDiagnostic E_RUNTIME_OPEN_INVALID "runtime_snapshot.persistence_format_version");
  _ ← validate_overlay_values s (committed_overlay s) "runtime_snapshot.committed_overlay";
  _ ← validate_overlay_values s (dirty_overlay s) "runtime_snapshot.dirty_overlay";
  _ ← validate_generation_overlay s;
  _ ← validate_dirty_metadata_overlay s;
  _ ← validate_auto_reset_policy s;
  _ ← validate_auto_reset_scheduler s;
  _ ← validate_event_bus s;
  _ ← validate_sync_status s;
  validate_audit_log s.

(** ** Hashes *)

Record IdentityLeafCanonical : Type := mkLeaf {
  lf_scope_root : string;
  lf_path : string;
  lf_type : string;
  lf_unit : option string;
  lf_lifecycle : Lifecycle;
  lf_value : Value;
}.

Record RuntimeConfigurationIdentity : Type := mkIdentity {
  id_committed : string;
  id_working : string;
  id_diff_hash : string;
  id_dirty_diff_hash : string;
}.

Inductive RuntimeDeltaChangeKind : Type := DeltaSet | DeltaDelete | DeltaMetadata.

Record RuntimeDeltaPathChange : Type := mkDelta {
  dc_path : string;
  dc_kind : RuntimeDeltaChangeKind;
  dc_before_leaf_hash : option string;
  dc_after_leaf_hash : option string;
  dc_before_value : option Value;
  dc_after_value : option Value;
}.

(** What the id of a commit manifest is the hash of. *)
Record ManifestPreimage : Type := mkManifestPreimage {
  mp_schema_version : N;
  mp_journal_sequence : N;
  mp_base : string;
  mp_target : string;
  mp_changed_paths : list RuntimeDeltaPathChange;
  mp_actor : string;
  mp_reason : option string;
}.

(** [serde_json::to_vec] of what is hashed, and the lowercase hex of SHA-256. *)
Class RuntimeCodec : Type := {
  rt_sha256_hex : list ascii → string;
  value_json : Value → option (list ascii);
  leaf_json : IdentityLeafCanonical → option (list ascii);
  diff_json : gmap string Value → option (list ascii);
  manifest_json : ManifestPreimage → option (list ascii);
}.

Section Shared.
Context `{RuntimeCodec}.

Definition value_hash (v : Value) : option string := rt_sha256_hex <$> value_json v.

Definition identity_leaf_hash (scope_root path : string) (p : ResolvedParameter) (v : Value) : runtime string :=
  bytes ← ok_or (leaf_json (mkLeaf scope_root path (rp_type p) (rp_unit p) (rp_lifecycle p) v))
            (mkDiagnostic E_RUNTIME_OPEN_INVALID path);
  Ok (rt_sha256_hex bytes).

Definition leaf_le (a b : string * string) : Prop := String.le a.1 b.1.
#[export] Instance leaf_le_dec a b : Decision (leaf_le a b).
Proof. unfold leaf_le. apply _. Defined.

Definition root_hash_from_leaves (leaves : list (string * string)) : string :=
  rt_sha256_hex (bytes_of (join_with (string_of ["010"%char])
    ((λ ph, ph.1 +:+ ":" +:+ ph.2) <$> merge_sort leaf_le leaves))).

(** Leaves of the committed and of the working configuration, and what differs
    from the baseline and from the committed values. *)
Record IdentityLeaves : Type := mkLeaves {
  il_committed : list (string * string);
  il_working : list (string * string);
  il_committed_diff : gmap string Value;
  il_dirty_diff : gmap string Value;
}.

Definition identity_leaf (s : RuntimeSnapshot) (st : IdentityLeaves) (sp : string * string) : runtime IdentityLeaves :=
  let '(scope_root, path) := sp in
  p ← find_parameter_in_scope s scope_root path;
  let committed := committed_parameter_value s scope_root path (rp_value p) in
  let working := effective_parameter_value s scope_root path (rp_value p) in
  let canonical := canonical_runtime_path scope_root path in
  committed_hash ← identity_leaf_hash scope_root path p committed;
  working_hash ← identity_leaf_hash scope_root path p working;
  Ok (mkLeaves (il_committed st ++ [(canonical, committed_hash)]) (il_working st ++ [(canonical, working_hash)])
        (if value_eqb committed (rp_value p) then il_committed_diff st else <[canonical := committed]> (il_committed_diff st))
        (if value_eqb working committed then il_dirty_diff st else <[canonical := working]> (il_dirty_diff st))).

Definition all_parameter_paths (s : RuntimeSnapshot) : list (string * string) :=
  flat_map (λ sr, pair sr.1 <$> sorted_parameter_paths sr.2) (bt_list (resolved_output s)).

Fixpoint identity_leaves (s : RuntimeSnapshot) (st : IdentityLeaves) (l : list (string * string)) : runtime IdentityLeaves :=
  match l with
  | [] => Ok st
  | sp :: l => st ← identity_leaf s st sp; identity_leaves s st l
  end.

Definition compute_configuration_identity (s : RuntimeSnapshot) : runtime RuntimeConfigurationIdentity :=
  leaves ← identity_leaves s (mkLeaves [] [] ∅ ∅) (all_parameter_paths s);
  diff ← ok_or (diff_json (il_committed_diff leaves)) (mkDiagnostic E_RUNTIME_OPEN_INVALID "runtime_snapshot.committed_overlay");
  dirty_diff ← ok_or (diff_json (il_dirty_diff leaves)) (mkDiagnostic E_RUNTIME_OPEN_INVALID "runtime_snapshot.dirty_overlay");
  Ok (mkIdentity (root_hash_from_leaves (il_committed leaves)) (root_hash_from_leaves (il_working leaves))
        (rt_sha256_hex diff) (rt_sha256_hex dirty_diff)).

(** ** Events and audit records *)

Fixpoint make_room (capacity : N) (events : list RuntimeEvent) (dropped : N) : list RuntimeEvent * N :=
  match events with
  | [] => ([], dropped)
  | _ :: rest =>
      if capacity <=? N.of_nat (length events) then make_room capacity rest (saturating_add dropped 1)
      else (events, dropped)
  end.

Definition emit_runtime_event (s : RuntimeSnapshot) (kind : RuntimeEventKind) (now : N) (actor reason : option string)
    (old_value new_value : option Value) (payload : RuntimeEventPayload) : string * RuntimeSnapshot :=
  let b := event_bus s in
  let capacity := if eb_buffer_capacity b =? 0 then default_event_buffer_capacity else eb_buffer_capacity b in
  let sequence := if eb_next_sequence b =? 0 then default_event_next_sequence else eb_next_sequence b in
  let event := mkEvent ("evt-" +:+ hex16 sequence) sequence kind (sh_scope (rs_head s)) now (sanitize_optional_text actor)
                 (sanitize_optional_text reason) (old_value ≫= value_hash) (new_value ≫= value_hash) payload in
  let '(events, dropped) := make_room (N.max capacity 1) (eb_events b) (eb_dropped_events b) in
  (ev_event_id event, set_bus s (mkBus (saturating_add sequence 1) capacity (events ++ [event]) dropped)).

Definition append_audit_event (s : RuntimeSnapshot) (kind : RuntimeAuditEventKind) (now : N) (actor : string)
    (reason : option string) (changed_paths : list string) (identity : RuntimeConfigurationIdentity)
    (base target : option string) : string * RuntimeSnapshot :=
  let sequence := N.max (audit_next_sequence s) 1 in
  let event_id := "audit-" +:+ hex16 sequence in
  let event := mkAudit event_id sequence kind (sh_scope (rs_head s)) now
                 (if blank actor then DEFAULT_SYSTEM_ACTOR else trim actor) (sanitize_optional_text reason)
                 (id_committed identity) (id_working identity) (sanitize_optional_text base) (sanitize_optional_text target)
                 (sort_paths changed_paths) in
  (event_id, set_audit s (audit_events s ++ [event]) (saturating_add sequence 1) (audit_uploaded_sequence s)).

(** ** Writes and resets *)

Definition clear_dirty_entry (s : RuntimeSnapshot) (scope_root path : string) (generation : N) : RuntimeSnapshot :=
  set_dirty s (del2 scope_root path (dirty_overlay s)) (del2 scope_root path (dirty_generations s))
    (del2 scope_root path (dirty_metadata s))
    (List.filter (λ e, negb (bool_decide (se_scope_root e = scope_root ∧ se_path e = path) && (se_generation e <=? generation)))
       (pending s)).

Definition apply_dirty_write (s : RuntimeSnapshot) (scope_root path : string) (v : Value) (now : N) (actor : string)
    (reason : option string) (intent : OverrideIntent) : DirtyEntryMetadata * RuntimeSnapshot :=
  let next := saturating_add (default 0 (get2 (dirty_generations s) scope_root path)) 1 in
  let m := mkMetadata actor (sanitize_optional_text reason) now (lease_deadline s scope_root path now) None next intent in
  let queue := match dm_reset_deadline m with
               | Some d => sort_and_dedup_schedule_entries (pending s ++ [mkEntry scope_root path next d LeaseExpiryKind])
               | None => pending s
               end in
  (m, bump_journal (set_dirty s (put2 scope_root path v (dirty_overlay s)) (put2 scope_root path next (dirty_generations s))
                      (put2 scope_root path m (dirty_metadata s)) queue)).

Definition deadline_of (m : DirtyEntryMetadata) (kind : AutoResetDeadlineKind) : option N :=
  match kind with LeaseExpiryKind => dm_reset_deadline m | HardCapKind => dm_hard_cap_deadline m end.

Definition validate_due_schedule_entry (s : RuntimeSnapshot) (e : AutoResetScheduleEntry) : option (DirtyEntryMetadata * Value) :=
  g ← get2 (dirty_generations s) (se_scope_root e) (se_path e);
  if negb (g =? se_generation e) then None
  else
    m ← get2 (dirty_metadata s) (se_scope_root e) (se_path e);
    if negb (dm_generation m =? se_generation e) || negb (bool_decide (deadline_of m (se_kind e) = Some (se_deadline e))) then None
    else
      v ← get2 (dirty_overlay s) (se_scope_root e) (se_path e);
      Some (m, v).

Definition revert_due_entry (s : RuntimeSnapshot) (e : AutoResetScheduleEntry) (now : N) (cause : string)
    : runtime RuntimeSnapshot :=
  match validate_due_schedule_entry s e with
  | None => Ok s
  | Some (m, old_value) =>
      let '(scope_root, path) := (se_scope_root e, se_path e) in
      p ← find_parameter_in_scope s scope_root path;
      let s := clear_dirty_entry s scope_root path (se_generation e) in
      let new_value := effective_parameter_value s scope_root path (rp_value p) in
      let s := bump_journal s in
      let '(_, s) := emit_runtime_event s ResetApplied now (Some (dm_actor m)) (dm_reason m) (Some old_value) (Some new_value)
                       (PlResetApplied scope_root path cause (se_generation e)) in
      let '(_, s) := emit_runtime_event s DirtyStateChanged now (Some (dm_actor m)) (dm_reason m) None None
                       (PlDirtyStateChanged scope_root path false (se_generation e)) in
      identity ← compute_configuration_identity s;
      Ok (append_audit_event s AuditReset now (dm_actor m) (dm_reason m) [canonical_runtime_path scope_root path] identity None None).2
  end.

(** [take_while(deadline <= now).count()]. *)
Fixpoint due_count (now : N) (l : list AutoResetScheduleEntry) : nat :=
  match l with
  | e :: l => if se_deadline e <=? now then S (due_count now l) else 0
  | [] => 0
  end.

Fixpoint revert_all (s : RuntimeSnapshot) (l : list AutoResetScheduleEntry) (now : N) (cause : string) : runtime RuntimeSnapshot :=
  match l with
  | [] => Ok s
  | e :: l => s ← revert_due_entry s e now cause; revert_all s l now cause
  end.

Definition apply_due_auto_resets (s : RuntimeSnapshot) (now : N) : runtime RuntimeSnapshot :=
  let queue := sort_and_dedup_schedule_entries (pending s) in
  let n := due_count now queue in
  match pending s, n with
  | [], _ => Ok s
  | _, O => Ok (set_pending s queue)
  | _, _ => revert_all (set_pending s (drop n queue)) (take n queue) now "timeout"
  end.

(** Dirty paths, by canonical path. *)
Record DirtyPathSelection : Type := mkSelection {
  sl_scope_root : string;
  sl_path : string;
  sl_canonical : string;
  sl_generation : N;
}.

Definition selection_le (a b : DirtyPathSelection) : Prop := String.le (sl_canonical a) (sl_canonical b).
#[export] Instance selection_le_dec a b : Decision (selection_le a b).
Proof. unfold selection_le. apply _. Defined.

Definition collect_dirty_path_selections (s : RuntimeSnapshot) : list DirtyPathSelection :=
  merge_sort selection_le ((λ sp, mkSelection sp.1 sp.2 (canonical_runtime_path sp.1 sp.2)
    (N.max (default 1 (recorded_generation s sp.1 sp.2)) 1)) <$> pairs2 (dirty_overlay s)).
End Shared.
