(* ===== verification/RuntimeOps.v ===== *)
(** * Reads, writes and the reset policy of the runtime

    Models [compiler/src/runtime_api/write_reset_ops.rs] and the parameter read of
    [shared_ops.rs].  An operation takes a snapshot by value and returns the
    new one or a diagnostic: a failed operation returns no snapshot, so it leaves
    the caller's as it was. *)
From S2P Require Import Prelude Text Schema Resolver Ir Override Runtime.
Local Open Scope N_scope.

Section Ops.
Context `{RuntimeCodec}.

Definition check_version (version : N) : runtime unit :=
  bail_if (negb (version =? PRODUCT_SCHEMA_VERSION)) (mkDiagnostic E_RUNTIME_UNSUPPORTED_SCHEMA_VERSION "request.schema_version").

(** How every operation that may change the dirty values begins. *)
Definition prepare (s : RuntimeSnapshot) (now : N) : runtime RuntimeSnapshot :=
  let s := normalize_runtime_snapshot_state s now in
  _ ← validate_runtime_snapshot s;
  apply_due_auto_resets s now.

(** ** Reads *)

Record RuntimeArtifactBinding : Type := mkArtifactBinding {
  ra_artifact_id : string;
  ra_artifact : SchemaArtifact;
}.

Record RuntimeRequirementBinding : Type := mkRequirementBinding {
  rq_slot : string;
  rq_bound : string;
  rq_entry : string;
}.

Record RuntimeParameterPayload : Type := mkPayload {
  py_path : string;
  py_component_id : string;
  py_param_key : string;
  py_type : string;
  py_value : Value;
  py_facet : option string;
  py_unit : option string;
  py_safety : SafetyLevel;
  py_lifecycle : Lifecycle;
  py_access : Role;
  py_req_id : option string;
  py_doc : option string;
  py_limits : option Limits;
  py_artifact : option RuntimeArtifactBinding;
  py_requires : option RuntimeRequirementBinding;
}.

Definition effective_parameter (p : ResolvedParameter) (s : RuntimeSnapshot) (scope_root path : string) : ResolvedParameter :=
  mkResolvedParameter (effective_parameter_value s scope_root path (rp_value p)) (rp_type p) (rp_facet p) (rp_unit p)
    (rp_safety p) (rp_lifecycle p) (rp_access p) (rp_req_id p) (rp_doc p) (rp_limits p).

Definition artifact_binding (artifacts : gmap string SchemaArtifact) (path : string) (p : ResolvedParameter)
    : runtime (option RuntimeArtifactBinding) :=
  if decide (rp_type p = "artifact") then
    match rp_value p with
    | VString t =>
        if blank t then Err (mkDiagnostic E_RUNTIME_ARTIFACT_UNKNOWN path)
        else
          a ← ok_or (artifacts !! trim t) (mkDiagnostic E_RUNTIME_ARTIFACT_UNKNOWN path);
          Ok (Some (mkArtifactBinding (trim t) a))
    | _ => Err (mkDiagnostic E_RUNTIME_ARTIFACT_UNKNOWN path)
    end
  else Ok None.

Definition parameter_payload (component_id param_key : string) (p : ResolvedParameter) (artifacts : gmap string SchemaArtifact)
    : runtime RuntimeParameterPayload :=
  let path := parameter_path component_id param_key in
  artifact ← artifact_binding artifacts path p;
  Ok (mkPayload path component_id param_key (rp_type p) (rp_value p) (rp_facet p) (rp_unit p) (rp_safety p) (rp_lifecycle p)
        (rp_access p) (rp_req_id p) (rp_doc p) (rp_limits p) artifact None).

Definition parse_requirement_path (path : string) : option (string * string * string) :=
  match split "."%char path with
  | [prefix; component_id; requires_token; slot; field] =>
      if decide (prefix = "component" ∧ requires_token = "requires" ∧ trim component_id ≠ String.EmptyString ∧
                 trim slot ≠ String.EmptyString ∧ trim field ≠ String.EmptyString)
      then Some (component_id, slot, field) else None
  | _ => None
  end.

Definition requirement_field (component_id slot field : string) (r : ResolvedConfig) : option (ResolvedRequirement * Value) :=
  component ← rf_components r !! component_id;
  requirement ← rc_requires component !! slot;
  v ← rr_fields requirement !! field;
  Some (requirement, v).

Definition find_requirement_payload (s : RuntimeSnapshot) (path component_id slot field : string)
    : runtime RuntimeParameterPayload :=
  match omap (λ sr, requirement_field component_id slot field sr.2) (bt_list (resolved_output s)) with
  | [] => Err unknown_path
  | [(requirement, v)] =>
      Ok (mkPayload path component_id field (value_kind v) v None None QM Construction SuperUser None None None None
            (Some (mkRequirementBinding slot (rr_binding requirement) (rr_entry requirement))))
  | _ => Err (mkDiagnostic E_RUNTIME_OPEN_INVALID "request.path")
  end.

Definition find_parameter_payload (s : RuntimeSnapshot) (path : string) : runtime RuntimeParameterPayload :=
  match parse_requirement_path path with
  | Some (component_id, slot, field) => find_requirement_payload s path component_id slot field
  | None =>
      '(component_id, param_key) ← ok_or (parse_parameter_path path) unknown_path;
      scope_root ← find_parameter_scope_root s component_id param_key;
      p ← find_parameter_in_scope s scope_root path;
      parameter_payload component_id param_key (effective_parameter p s scope_root path) (resolved_artifacts s)
  end.

(** ** Writes *)

Record ValidatedRuntimeWrite : Type := mkValidated {
  vw_scope_root : string;
  vw_component_id : string;
  vw_param_key : string;
  vw_path : string;
  vw_baseline : ResolvedParameter;
}.

Definition validate_runtime_write (s : RuntimeSnapshot) (path : string) (v : Value) (entity : string) (enforce_lifecycle : bool)
    : runtime ValidatedRuntimeWrite :=
  '(component_id, param_key) ← ok_or (parse_parameter_path path) (mkDiagnostic E_RUNTIME_UNKNOWN_PATH entity);
  scope_root ← find_parameter_scope_root s component_id param_key;
  p ← find_parameter_in_scope s scope_root path;
  _ ← bail_if (enforce_lifecycle && negb (match rp_lifecycle p with Runtime => true | _ => false end))
        (mkDiagnostic E_RUNTIME_LIFECYCLE_IMMUTABLE path);
  _ ← validate_value s p path v path;
  Ok (mkValidated scope_root component_id param_key path p).

(** One write with its two events; the new generation. *)
Definition write_parameter (s : RuntimeSnapshot) (w : ValidatedRuntimeWrite) (v : Value) (now : N) (actor : string)
    (reason : option string) (intent : OverrideIntent) : N * RuntimeSnapshot :=
  let '(scope_root, path) := (vw_scope_root w, vw_path w) in
  let previous := effective_parameter_value s scope_root path (rp_value (vw_baseline w)) in
  let '(m, s) := apply_dirty_write s scope_root path v now actor reason intent in
  let updated := effective_parameter_value s scope_root path (rp_value (vw_baseline w)) in
  let '(_, s) := emit_runtime_event s ParameterChanged now (Some actor) reason (Some previous) (Some updated)
                   (PlParameterChanged scope_root path (dm_generation m)) in
  let '(_, s) := emit_runtime_event s DirtyStateChanged now (Some actor) reason None None
                   (PlDirtyStateChanged scope_root path true (dm_generation m)) in
  (dm_generation m, s).

Definition set_parameter (version : N) (s : RuntimeSnapshot) (path : string) (v : Value) (intent : OverrideIntent)
    (actor reason : option string) (now : N) : runtime (RuntimeSnapshot * RuntimeParameterPayload) :=
  _ ← check_version version;
  s ← prepare s now;
  w ← validate_runtime_write s path v "request.path" true;
  let actor := default DEFAULT_DIRTY_ACTOR (sanitize_optional_text actor) in
  let reason := sanitize_optional_text reason in
  let '(_, s) := write_parameter s w v now actor reason intent in
  identity ← compute_configuration_identity s;
  let '(_, s) := append_audit_event s AuditWrite now actor reason [canonical_runtime_path (vw_scope_root w) path] identity None None in
  _ ← validate_runtime_snapshot s;
  payload ← parameter_payload (vw_component_id w) (vw_param_key w) (effective_parameter (vw_baseline w) s (vw_scope_root w) path)
              (resolved_artifacts s);
  Ok (s, payload).

Fixpoint validate_writes (s : RuntimeSnapshot) (writes : list (string * Value)) : runtime (list (ValidatedRuntimeWrite * Value)) :=
  match writes with
  | [] => Ok []
  | (path, v) :: writes =>
      w ← validate_runtime_write s path v "request.writes" true;
      ws ← validate_writes s writes;
      Ok ((w, v) :: ws)
  end.

(** The writes one after the other: the greatest generation, the changed paths. *)
Fixpoint write_all (s : RuntimeSnapshot) (ws : list (ValidatedRuntimeWrite * Value)) (now : N) (actor : string)
    (reason : option string) (intent : OverrideIntent) (generation : N) (changed : list string)
    : N * list string * RuntimeSnapshot :=
  match ws with
  | [] => (generation, changed, s)
  | (w, v) :: ws =>
      let '(g, s) := write_parameter s w v now actor reason intent in
      write_all s ws now actor reason intent (N.max generation g)
        (changed ++ [canonical_runtime_path (vw_scope_root w) (vw_path w)])
  end.

Definition check_expected (expected : option string) (current : string) (invalid mismatch : Diagnostic) : runtime unit :=
  match expected with
  | None => Ok tt
  | Some e =>
      _ ← bail_if (negb (is_sha256_hex e)) invalid;
      bail_if (negb (bool_decide (e = current))) mismatch
  end.

Definition set_parameters_atomically (version : N) (s : RuntimeSnapshot) (writes : list (string * Value)) (actor : string)
    (reason expected_working : option string) (intent : OverrideIntent) (now : N) : runtime (RuntimeSnapshot * N) :=
  _ ← check_version version;
  let actor := trim actor in
  _ ← bail_if (bool_decide (actor = String.EmptyString)) (mkDiagnostic E_RUNTIME_DIRTY_INVALID "request.actor");
  let reason := sanitize_optional_text reason in
  _ ← bail_if (bool_decide (length writes = 0%nat)) (mkDiagnostic E_RUNTIME_DIRTY_INVALID "request.writes");
  s ← prepare s now;
  identity ← compute_configuration_identity s;
  _ ← check_expected expected_working (id_working identity)
        (mkDiagnostic E_RUNTIME_DIRTY_INVALID "request.expected_working_configuration_id")
        (mkDiagnostic E_RUNTIME_DIRTY_INVALID "request.expected_working_configuration_id");
  ws ← validate_writes s writes;
  let '(generation, changed, s) := write_all s ws now actor reason intent 0 [] in
  identity ← compute_configuration_identity s;
  let '(_, s) := append_audit_event s AuditWrite now actor reason (sort_paths changed) identity None None in
  _ ← validate_runtime_snapshot s;
  Ok (s, generation).

(** ** Dirty paths and the reset policy *)

Definition normalize_scope_root (scope : string) : option string :=
  match strip_text "component:" scope with
  | Some scope_root => if blank scope_root then None else Some (trim scope_root)
  | None => if blank scope then None else Some (trim scope)
  end.

Definition unknown_scope : Diagnostic := mkDiagnostic E_RUNTIME_UNKNOWN_SCOPE "request.scope_root".

Definition list_dirty_parameters (version : N) (s : RuntimeSnapshot) (scope_root : string) (now : N)
    : runtime (string * list string) :=
  _ ← check_version version;
  s ← prepare s now;
  scope_root ← ok_or (normalize_scope_root scope_root) unknown_scope;
  _ ← bail_if (negb (bool_decide (is_Some (resolved_output s !! scope_root)))) unknown_scope;
  Ok (scope_root,
      sort_paths (sl_canonical <$> List.filter (λ d, bool_decide (sl_scope_root d = scope_root)) (collect_dirty_path_selections s))).

Definition get_dirty_metadata (version : N) (s : RuntimeSnapshot) (path : string) (now : N)
    : runtime (ResolvedRuntimePath * option DirtyEntryMetadata) :=
  _ ← check_version version;
  s ← prepare s now;
  r ← resolve_runtime_path s path "request.path";
  Ok (r, get2 (dirty_metadata s) (rp_scope_root r) (rp_path r)).

Definition set_auto_reset_policy (version : N) (s : RuntimeSnapshot) (policy : AutoResetPolicy) (now : N)
    : runtime (RuntimeSnapshot * AutoResetPolicy) :=
  _ ← check_version version;
  s ← prepare s now;
  _ ← bail_if (ap_default_timeout_ms policy =? 0)
        (mkDiagnostic E_RUNTIME_DIRTY_INVALID "request.auto_reset_policy.default_timeout_ms");
  let policy := mkPolicy (ap_enabled policy) (ap_default_timeout_ms policy) (ap_per_path_overrides policy)
                  (saturating_add (ap_policy_revision (auto_reset_policy s)) 1) in
  let s := normalize_runtime_snapshot_state (set_policy s policy) now in
  _ ← validate_runtime_snapshot s;
  Ok (s, policy).

Definition get_auto_reset_policy (version : N) (s : RuntimeSnapshot) : runtime AutoResetPolicy :=
  _ ← check_version version;
  _ ← validate_runtime_snapshot s;
  Ok (auto_reset_policy s).
End Ops.
