(* ===== verification/RuntimeCommit.v ===== *)
(** * Rollback, commit, identity, events and the lifecycle driver

    Models [compiler/src/runtime_api/commit_identity_ops.rs] and
    [lifecycle_driver_ops.rs].  The commit reads the clock a second time for its
    event: [now'].  The request field [terminal_event] of the driver is not read
    by it and is left out. *)
From S2P Require Import Prelude Text Schema Resolver Ir Override Runtime RuntimeOps.
Local Open Scope N_scope.

Section Commit.
Context `{RuntimeCodec}.

(** ** Rollback *)

Inductive RollbackMode : Type := All | Subset.

(** One requested path: dirty, with a generation. *)
Definition select_path (s : RuntimeSnapshot) (raw_path : string) : runtime DirtyPathSelection :=
  r ← resolve_runtime_path s raw_path "request.paths";
  let '(scope_root, path) := (rp_scope_root r, rp_path r) in
  _ ← bail_if (negb (is_dirty s scope_root path)) (mkDiagnostic E_RUNTIME_DIRTY_INVALID "request.paths");
  let generation := default 0 (recorded_generation s scope_root path) in
  _ ← bail_if (generation =? 0) (mkDiagnostic E_RUNTIME_DIRTY_INVALID "runtime_snapshot.dirty_generations");
  Ok (mkSelection scope_root path (rp_canonical r) generation).

(** The selections by canonical path; a path named twice counts once. *)
Fixpoint select_paths (s : RuntimeSnapshot) (by_path : gmap string DirtyPathSelection) (paths : list string)
    : runtime (gmap string DirtyPathSelection) :=
  match paths with
  | [] => Ok by_path
  | path :: paths =>
      d ← select_path s path;
      select_paths s (<[sl_canonical d := d]> by_path) paths
  end.

Definition rollback_selections (s : RuntimeSnapshot) (mode : RollbackMode) (paths : list string)
    : runtime (list DirtyPathSelection) :=
  match mode with
  | All => Ok (collect_dirty_path_selections s)
  | Subset =>
      _ ← bail_if (bool_decide (length paths = 0%nat)) (mkDiagnostic E_RUNTIME_DIRTY_INVALID "request.paths");
      by_path ← select_paths s ∅ paths;
      Ok (bt_list by_path).*2
  end.

Definition rollback_entry (s : RuntimeSnapshot) (d : DirtyPathSelection) (now : N) (actor : string) (reason : option string)
    : runtime (RuntimeSnapshot * list string) :=
  let '(scope_root, path) := (sl_scope_root d, sl_path d) in
  match get2 (dirty_overlay s) scope_root path with
  | None => Ok (s, [])
  | Some old_value =>
      p ← find_parameter_in_scope s scope_root path;
      let s := clear_dirty_entry s scope_root path (sl_generation d) in
      let new_value := effective_parameter_value s scope_root path (rp_value p) in
      let '(_, s) := emit_runtime_event s ResetApplied now (Some actor) reason (Some old_value) (Some new_value)
                       (PlResetApplied scope_root path "rollback" (sl_generation d)) in
      let '(_, s) := emit_runtime_event s DirtyStateChanged now (Some actor) reason None None
                       (PlDirtyStateChanged scope_root path false (sl_generation d)) in
      Ok (s, [sl_canonical d])
  end.

Fixpoint rollback_entries (s : RuntimeSnapshot) (l : list DirtyPathSelection) (now : N) (actor : string) (reason : option string)
    : runtime (RuntimeSnapshot * list string) :=
  match l with
  | [] => Ok (s, [])
  | d :: l =>
      '(s, done) ← rollback_entry s d now actor reason;
      '(s, rest) ← rollback_entries s l now actor reason;
      Ok (s, done ++ rest)
  end.

Record RollbackDirtyResult : Type := mkRollback {
  rb_snapshot : RuntimeSnapshot;
  rb_rolled_back : list string;
  rb_remaining : list string;
  rb_event_id : option string;
}.

(** The event and the record of a rollback that changed something. *)
Definition record_rollback (s : RuntimeSnapshot) (rolled_back : list string) (now : N) (actor : string) (reason : option string)
    : runtime (RuntimeSnapshot * option string) :=
  match rolled_back with
  | [] => Ok (s, None)
  | _ =>
      let '(event_id, s) := emit_runtime_event (bump_journal s) RollbackApplied now (Some actor) reason None None
                              (PlRollbackApplied rolled_back) in
      identity ← compute_configuration_identity s;
      Ok ((append_audit_event s AuditReset now actor reason rolled_back identity None None).2, Some event_id)
  end.

Definition rollback_dirty (version : N) (s : RuntimeSnapshot) (mode : RollbackMode) (paths : list string) (actor : string)
    (reason : option string) (now : N) : runtime RollbackDirtyResult :=
  _ ← check_version version;
  let actor := trim actor in
  _ ← bail_if (bool_decide (actor = String.EmptyString)) (mkDiagnostic E_RUNTIME_DIRTY_INVALID "request.actor");
  let reason := sanitize_optional_text reason in
  s ← prepare s now;
  selections ← rollback_selections s mode paths;
  '(s, done) ← rollback_entries s selections now actor reason;
  let rolled_back := sort_paths done in
  '(s, event_id) ← record_rollback s rolled_back now actor reason;
  _ ← validate_runtime_snapshot s;
  Ok (mkRollback s rolled_back (sl_canonical <$> collect_dirty_path_selections s) event_id).

(** ** Commit *)

Definition check_hint (s : RuntimeSnapshot) (dirty : list DirtyPathSelection) (raw_path : string) : runtime unit :=
  r ← resolve_runtime_path s raw_path "request.changed_paths_hint";
  bail_if (negb (bool_decide (rp_canonical r ∈ sl_canonical <$> dirty)))
    (mkDiagnostic E_RUNTIME_COMMIT_INVALID "request.changed_paths_hint").

(** A value equal to the baseline needs no committed entry. *)
Definition commit_value (s : RuntimeSnapshot) (scope_root path : string) (p : ResolvedParameter) (v : Value) : RuntimeSnapshot :=
  set_committed s (if value_eqb v (rp_value p) then del2 scope_root path (committed_overlay s)
                   else put2 scope_root path v (committed_overlay s)).

Definition commit_entry (s : RuntimeSnapshot) (d : DirtyPathSelection) (now : N) (actor : string) (reason : option string)
    : runtime (RuntimeSnapshot * list RuntimeDeltaPathChange) :=
  let '(scope_root, path) := (sl_scope_root d, sl_path d) in
  p ← find_parameter_in_scope s scope_root path;
  let before_value := committed_parameter_value s scope_root path (rp_value p) in
  match get2 (dirty_overlay s) scope_root path with
  | None => Ok (s, [])
  | Some after_value =>
      let s := commit_value s scope_root path p after_value in
      let s := clear_dirty_entry s scope_root path (sl_generation d) in
      let '(_, s) := emit_runtime_event s DirtyStateChanged now (Some actor) reason None None
                       (PlDirtyStateChanged scope_root path false (sl_generation d)) in
      if value_eqb before_value after_value then Ok (s, [])
      else
        before_hash ← identity_leaf_hash scope_root path p before_value;
        after_hash ← identity_leaf_hash scope_root path p after_value;
        Ok (s, [mkDelta (sl_canonical d) DeltaSet (Some before_hash) (Some after_hash) (Some before_value) (Some after_value)])
  end.

Fixpoint commit_entries (s : RuntimeSnapshot) (l : list DirtyPathSelection) (now : N) (actor : string) (reason : option string)
    : runtime (RuntimeSnapshot * list RuntimeDeltaPathChange) :=
  match l with
  | [] => Ok (s, [])
  | d :: l =>
      '(s, changes) ← commit_entry s d now actor reason;
      '(s, rest) ← commit_entries s l now actor reason;
      Ok (s, changes ++ rest)
  end.

Definition change_le (a b : RuntimeDeltaPathChange) : Prop := String.le (dc_path a) (dc_path b).
#[export] Instance change_le_dec a b : Decision (change_le a b).
Proof. unfold change_le. apply _. Defined.

Record RuntimeDeltaManifest : Type := mkManifest {
  mf_schema_version : N;
  mf_manifest_id : string;
  mf_base : string;
  mf_target : string;
  mf_changed_paths : list RuntimeDeltaPathChange;
  mf_created_at : N;
  mf_actor : string;
  mf_reason : option string;
}.

Record CommitConfigurationResult : Type := mkCommit {
  cm_snapshot : RuntimeSnapshot;
  cm_commit_id : string;
  cm_manifest : RuntimeDeltaManifest;
}.

Definition emit_commit_event (s : RuntimeSnapshot) (now : N) (actor reason : option string) (commit_id : string)
    (changed_paths : list string) : RuntimeSnapshot :=
  (emit_runtime_event s CommitApplied now actor reason None None (PlCommitApplied commit_id (sort_paths changed_paths))).2.

Definition emit_sync_state_event (s : RuntimeSnapshot) (now : N) (state : string) (summary : option string) : RuntimeSnapshot :=
  (emit_runtime_event s SyncStateChanged now None None None None (PlSyncStateChanged state summary)).2.

(** From the values committed to the result. *)
Definition seal_commit (s : RuntimeSnapshot) (base : string) (changes : list RuntimeDeltaPathChange) (actor : string)
    (reason : option string) (now now' : N) : runtime CommitConfigurationResult :=
  let changes := merge_sort change_le changes in
  let s := bump_journal s in
  identity ← compute_configuration_identity s;
  _ ← bail_if (negb (bool_decide (id_committed identity = id_working identity)))
        (mkDiagnostic E_RUNTIME_COMMIT_TARGET_HASH_MISMATCH "runtime_snapshot");
  let target := id_committed identity in
  let sequence := persistence_journal_sequence s in
  bytes ← ok_or (manifest_json (mkManifestPreimage PRODUCT_SCHEMA_VERSION sequence base target changes actor reason))
            (mkDiagnostic E_RUNTIME_COMMIT_INVALID "runtime_snapshot");
  let commit_id := "commit-" +:+ hex16 sequence in
  let manifest := mkManifest PRODUCT_SCHEMA_VERSION (rt_sha256_hex bytes) base target changes now actor reason in
  let s := emit_commit_event s now' (Some actor) reason commit_id (dc_path <$> changes) in
  let '(_, s) := append_audit_event s AuditCommit now actor reason (dc_path <$> changes) identity (Some base) (Some target) in
  _ ← validate_runtime_snapshot s;
  Ok (mkCommit s commit_id manifest).

Definition commit_configuration (version : N) (s : RuntimeSnapshot) (actor : string) (reason expected_base : option string)
    (changed_paths_hint : list string) (now now' : N) : runtime CommitConfigurationResult :=
  _ ← check_version version;
  let actor := trim actor in
  _ ← bail_if (bool_decide (actor = String.EmptyString)) (mkDiagnostic E_RUNTIME_COMMIT_INVALID "request.actor");
  let reason := sanitize_optional_text reason in
  s ← prepare s now;
  identity ← compute_configuration_identity s;
  let base := id_committed identity in
  _ ← check_expected expected_base base
        (mkDiagnostic E_RUNTIME_COMMIT_INVALID "request.expected_base_configuration_id")
        (mkDiagnostic E_RUNTIME_COMMIT_BASE_MISMATCH "request.expected_base_configuration_id");
  let dirty := collect_dirty_path_selections s in
  _ ← for_each (check_hint s dirty) changed_paths_hint;
  '(s, changes) ← commit_entries s dirty now actor reason;
  seal_commit s base changes actor reason now now'.

(** ** Identity and events *)

Definition get_configuration_identity (version : N) (s : RuntimeSnapshot) : runtime RuntimeConfigurationIdentity :=
  _ ← check_version version;
  _ ← validate_runtime_snapshot s;
  compute_configuration_identity s.

#[export] Instance event_kind_eq_dec : EqDecision RuntimeEventKind.
Proof. solve_decision. Defined.

Record SubscribeEventsResult : Type := mkSubscribed {
  sb_next_sequence : N;
  sb_dropped_events : N;
  sb_events : list RuntimeEvent;
}.

(** An empty set of kinds lets every kind pass. *)
Definition wanted (from : N) (kinds : list RuntimeEventKind) (e : RuntimeEvent) : bool :=
  (from <? ev_sequence e) && match kinds with [] => true | _ => bool_decide (ev_kind e ∈ kinds) end.

Definition subscribe_events (version : N) (s : RuntimeSnapshot) (from max_events : N) (kinds : list RuntimeEventKind) (now : N)
    : runtime SubscribeEventsResult :=
  _ ← check_version version;
  let s := normalize_runtime_snapshot_state s now in
  _ ← validate_runtime_snapshot s;
  let b := event_bus s in
  Ok (mkSubscribed (eb_next_sequence b) (eb_dropped_events b)
        (take (N.to_nat (N.max max_events 1)) (List.filter (wanted from kinds) (eb_events b)))).

(** ** The lifecycle driver *)

Definition disarm (m : DirtyEntryMetadata) (kind : AutoResetDeadlineKind) : DirtyEntryMetadata :=
  let '(lease, cap) := match kind with
                       | LeaseExpiryKind => (None, dm_hard_cap_deadline m)
                       | HardCapKind => (dm_reset_deadline m, None)
                       end in
  mkMetadata (dm_actor m) (dm_reason m) (dm_dirty_since m) lease cap (dm_generation m) (dm_intent m).

Definition escalate_compensating_entry (s : RuntimeSnapshot) (e : AutoResetScheduleEntry) (m : DirtyEntryMetadata)
    (event : TerminalEvent) (now : N) : runtime (string * RuntimeSnapshot) :=
  let '(scope_root, path) := (se_scope_root e, se_path e) in
  let '(_, s) := emit_runtime_event s OverrideEscalated now (Some (dm_actor m)) (dm_reason m) None None
                   (PlOverrideEscalated scope_root path (dm_intent m) event (se_generation e)) in
  identity ← compute_configuration_identity s;
  let '(audit_id, s) := append_audit_event s AuditEscalation now (dm_actor m) (dm_reason m)
                          [canonical_runtime_path scope_root path] identity None None in
  let metadata := match get2 (dirty_metadata s) scope_root path with
                  | Some current => put2 scope_root path (disarm current (se_kind e)) (dirty_metadata s)
                  | None => dirty_metadata s
                  end in
  Ok (audit_id, set_dirty s (dirty_overlay s) (dirty_generations s) metadata (pending s)).

Definition drop_schedule_entry (s : RuntimeSnapshot) (e : AutoResetScheduleEntry) : RuntimeSnapshot :=
  set_pending s (List.filter (λ q, negb (bool_decide (se_scope_root q = se_scope_root e ∧ se_path q = se_path e) &&
                                         (se_generation q <=? se_generation e))) (pending s)).

Record DriveOverrideLifecycleResult : Type := mkDrive {
  dr_snapshot : RuntimeSnapshot;
  dr_reverted : list string;
  dr_escalated : list string;
  dr_audit_ids : list string;
}.

Definition drive_entry (r : DriveOverrideLifecycleResult) (e : AutoResetScheduleEntry) (now : N)
    : runtime DriveOverrideLifecycleResult :=
  let s := dr_snapshot r in
  match validate_due_schedule_entry s e with
  | None => Ok r
  | Some (m, _) =>
      let event := terminal_event_for_deadline_kind (se_kind e) in
      let canonical := canonical_runtime_path (se_scope_root e) (se_path e) in
      if is_silent (override_terminal_outcome event (dm_intent m)) then
        s ← revert_due_entry s e now "lease_expiry";
        Ok (mkDrive s (dr_reverted r ++ [canonical]) (dr_escalated r) (dr_audit_ids r))
      else
        '(audit_id, s) ← escalate_compensating_entry s e m event now;
        Ok (mkDrive (drop_schedule_entry s e) (dr_reverted r) (dr_escalated r ++ [canonical]) (dr_audit_ids r ++ [audit_id]))
  end.

Fixpoint drive_entries (r : DriveOverrideLifecycleResult) (l : list AutoResetScheduleEntry) (now : N)
    : runtime DriveOverrideLifecycleResult :=
  match l with
  | [] => Ok r
  | e :: l => r ← drive_entry r e now; drive_entries r l now
  end.

Definition drive_override_lifecycle (version : N) (s : RuntimeSnapshot) (now : N) : runtime DriveOverrideLifecycleResult :=
  _ ← check_version version;
  let s := normalize_runtime_snapshot_state s now in
  _ ← validate_runtime_snapshot s;
  match pending s with
  | [] => Ok (mkDrive s [] [] [])
  | _ =>
      let queue := sort_and_dedup_schedule_entries (pending s) in
      match due_count now queue with
      | O => Ok (mkDrive (set_pending s queue) [] [] [])
      | n => drive_entries (mkDrive (set_pending s (drop n queue)) [] [] []) (take n queue) now
      end
  end.
End Commit.
