(* ===== verification/RuntimeProps.v ===== *)
(** * What the operations of the runtime do to the values

    The overlays as finite maps from a scope root and a path; what normalization,
    the automatic resets, the write, the rollback, the commit and the lifecycle
    driver change in them, exactly and on every path. *)
From S2P Require Import Prelude Text Schema Resolver Ir Override Runtime RuntimeOps RuntimeCommit.
Local Open Scope N_scope.

(** ** Maps of maps *)

Definition at2 (scope path scope' path' : string) : Prop := scope = scope' ∧ path = path'.
#[export] Instance at2_dec a b c d : Decision (at2 a b c d).
Proof. unfold at2. apply _. Defined.

Lemma get2_put2 {A} scope path (v : A) o scope' path' :
  get2 (put2 scope path v o) scope' path' = if decide (at2 scope path scope' path') then Some v else get2 o scope' path'.
Proof.
  unfold get2, put2, at2. destruct (decide (scope = scope')) as [<-|Hs].
  - rewrite lookup_insert_eq. cbn. destruct (decide (path = path')) as [<-|Hp].
    + rewrite lookup_insert_eq. by rewrite decide_True.
    + rewrite lookup_insert_ne by done. rewrite decide_False by naive_solver. by destruct (o !! scope); cbn; rewrite ?lookup_empty.
  - rewrite lookup_insert_ne by done. by rewrite decide_False by naive_solver.
Qed.

Lemma get2_del2 {A} scope path (o : overlay A) scope' path' :
  get2 (del2 scope path o) scope' path' = if decide (at2 scope path scope' path') then None else get2 o scope' path'.
Proof.
  unfold get2, del2, at2. destruct (o !! scope) as [entries|] eqn:Eo.
  - destruct (decide (scope = scope')) as [<-|Hs].
    + transitivity (delete path entries !! path').
      { destruct (decide (delete path entries = ∅)) as [Hd|]; [rewrite lookup_delete_eq, Hd; cbn; by rewrite lookup_empty|by rewrite lookup_insert_eq]. }
      destruct (decide (path = path')) as [<-|Hp].
      * rewrite lookup_delete_eq. by rewrite decide_True.
      * rewrite lookup_delete_ne by done. rewrite decide_False by naive_solver. by rewrite Eo.
    + rewrite (decide_False (P := scope = scope' ∧ path = path')) by naive_solver.
      case_decide; by rewrite ?lookup_delete_ne, ?lookup_insert_ne by done.
  - case_decide as Hd; [|done]. destruct Hd as [<- <-]. by rewrite Eo.
Qed.

Lemma elem_pairs2 {A} (o : overlay A) scope path : (scope, path) ∈ pairs2 o ↔ is_Some (get2 o scope path).
Proof.
  unfold pairs2, get2. rewrite list_elem_of_In, in_flat_map. split.
  - intros ([scope' entries] & Hs%list_elem_of_In%elem_bt_list & Hp%list_elem_of_In). cbn in Hp.
    apply list_elem_of_fmap in Hp as (path' & [= <- <-] & ([? v] & -> & Hv%elem_bt_list)%list_elem_of_fmap).
    rewrite Hs. cbn. by rewrite Hv.
  - intros [v Hv]. destruct (o !! scope) as [entries|] eqn:Eo; [|done]. cbn in Hv.
    exists (scope, entries). split; [by apply list_elem_of_In, elem_bt_list|]. apply list_elem_of_In. cbn.
    apply list_elem_of_fmap_2. apply list_elem_of_fmap. exists (path, v). split; [done|]. by apply elem_bt_list.
Qed.

Lemma get2_foldl_put2 {A} (f : string * string → A) l o scope path :
  get2 (foldl (λ o sp, put2 sp.1 sp.2 (f sp) o) o l) scope path =
  if decide ((scope, path) ∈ l) then Some (f (scope, path)) else get2 o scope path.
Proof.
  revert o. induction l as [|[a b] l IH]; intros o; [done|]. cbn [foldl]. rewrite IH, get2_put2. cbn [fst snd].
  destruct (decide ((scope, path) ∈ l)) as [Hl|Hl]; [rewrite decide_True; [done|by right]|].
  destruct (decide (at2 a b scope path)) as [[<- <-]|Hab].
  - rewrite decide_True; [done|left].
  - rewrite decide_False; [done|]. rewrite elem_of_cons. intros [[= -> ->]|?]; [by apply Hab|done].
Qed.

(** ** Sorted lists without repetitions *)

Lemma elem_dedup_after {A} (same : A → A → bool) x y l :
  (∀ a b, same a b = true → a = b) → y ∈ x :: dedup_after same x l ↔ y ∈ x :: l.
Proof.
  intros Hs. revert x. induction l as [|z l IH]; intros x; [done|]. cbn. destruct (same z x) eqn:E.
  - apply Hs in E as ->. rewrite IH, !elem_of_cons. naive_solver.
  - rewrite elem_of_cons, IH, !elem_of_cons. naive_solver.
Qed.

Lemma elem_dedup_by {A} (same : A → A → bool) y l : (∀ a b, same a b = true → a = b) → y ∈ dedup_by same l ↔ y ∈ l.
Proof. intros Hs. destruct l; [done|]. by apply elem_dedup_after. Qed.

Lemma Sorted_dedup_after {A} (R : relation A) `{!Transitive R} same x l :
  Sorted R (x :: l) → Sorted R (x :: dedup_after same x l).
Proof.
  revert x. induction l as [|z l IH]; intros x Hl; [done|]. cbn. apply Sorted_inv in Hl as [Hl Hx].
  apply HdRel_inv in Hx. destruct (same z x).
  - apply IH. apply Sorted_inv in Hl as [Hl Hz]. constructor; [done|]. destruct Hz; constructor. by trans z.
  - constructor; [by apply IH|by constructor].
Qed.

Lemma Sorted_dedup_by {A} (R : relation A) `{!Transitive R} same l : Sorted R l → Sorted R (dedup_by same l).
Proof. destruct l; [done|]. by apply Sorted_dedup_after. Qed.

(** ** The schedule *)

Lemma then_compare_Eq a b : then_compare a b = Eq ↔ a = Eq ∧ b = Eq.
Proof. destruct a; naive_solver. Qed.

Lemma same_entry_eq a b : same_entry a b = true → a = b.
Proof. intros (? & ? & ? & ? & ?)%bool_decide_eq_true. destruct a, b; cbn in *; by subst. Qed.

Lemma then_compare_opp a b : CompOpp (then_compare a b) = then_compare (CompOpp a) (CompOpp b).
Proof. by destruct a. Qed.

Lemma due_compare_opp a b : due_compare a b = CompOpp (due_compare b a).
Proof.
  unfold due_compare. rewrite !then_compare_opp.
  by rewrite (N.compare_antisym (se_deadline b)), (String.compare_antisym (se_scope_root a)), (String.compare_antisym (se_path a)),
    (N.compare_antisym (se_generation b)).
Qed.

Lemma entry_compare_opp a b : entry_compare a b = CompOpp (entry_compare b a).
Proof.
  unfold entry_compare. by rewrite then_compare_opp, due_compare_opp, (N.compare_antisym (kind_rank (se_kind b))).
Qed.

#[export] Instance entry_le_total : Total entry_le.
Proof. intros a b. unfold entry_le. rewrite (entry_compare_opp b a). by destruct (entry_compare a b); [left|left|right]. Qed.

Lemma sort_entries_elem l e : e ∈ sort_and_dedup_schedule_entries l ↔ e ∈ l.
Proof.
  unfold sort_and_dedup_schedule_entries. rewrite elem_dedup_by by apply same_entry_eq. by rewrite (merge_sort_Permutation entry_le).
Qed.

Definition earlier (a b : AutoResetScheduleEntry) : Prop := se_deadline a <= se_deadline b.
#[export] Instance earlier_trans : Transitive earlier.
Proof. intros a b c. unfold earlier. lia. Qed.

Lemma entry_le_earlier a b : entry_le a b → earlier a b.
Proof.
  unfold entry_le, entry_compare, due_compare, earlier. intros Hc. apply N.compare_le_iff. intros Hg. apply Hc. by rewrite Hg.
Qed.

Lemma sort_entries_earlier l : StronglySorted earlier (sort_and_dedup_schedule_entries l).
Proof.
  apply Sorted_StronglySorted; [exact _|]. apply Sorted_dedup_by; [exact _|].
  pose proof (Sorted_merge_sort entry_le l) as Hs. induction Hs as [|x l' Hs IH Hx]; constructor; [done|].
  destruct Hx; constructor. by apply entry_le_earlier.
Qed.

(** The prefix of a schedule that is drained holds the entries that are due. *)
Lemma due_prefix now l : StronglySorted earlier l → ∀ e, e ∈ take (due_count now l) l ↔ e ∈ l ∧ se_deadline e <= now.
Proof.
  induction l as [|x l IH]; intros Hl e; cbn; [set_solver|]. inversion Hl as [|? ? Hl' Hx]; subst.
  destruct (N.leb_spec (se_deadline x) now) as [Hd|Hd]; cbn.
  - rewrite !elem_of_cons, IH by done. naive_solver.
  - rewrite elem_of_nil, elem_of_cons. split; [done|]. intros [[->|He] Hn]; [lia|].
    rewrite Forall_forall in Hx. specialize (Hx e He). unfold earlier in Hx. lia.
Qed.

(** ** What an operation leaves alone *)

(** The state of one dirty path. *)
Definition slot (s : RuntimeSnapshot) (scope path : string) : option N * option DirtyEntryMetadata * option Value :=
  (get2 (dirty_generations s) scope path, get2 (dirty_metadata s) scope path, get2 (dirty_overlay s) scope path).

(** Everything but the dirty values: the events and the log only grow. *)
Record frame (s s' : RuntimeSnapshot) : Prop := mkFrame {
  frame_head : rs_head s' = rs_head s;
  frame_committed : committed_overlay s' = committed_overlay s;
  frame_policy : auto_reset_policy s' = auto_reset_policy s;
  frame_audit : audit_events s `prefix_of` audit_events s';
}.

#[export] Instance frame_preorder : PreOrder frame.
Proof.
  split; [by intros s; split|]. intros s1 s2 s3 [H1 H2 H3 H4] [H5 H6 H7 H8]. split; [congruence..|]. by trans (audit_events s2).
Qed.

(** And nothing of the dirty values either. *)
Record quiet (s s' : RuntimeSnapshot) : Prop := mkQuiet {
  quiet_frame : frame s s';
  quiet_slot : ∀ scope path, slot s' scope path = slot s scope path;
  quiet_pending : pending s' = pending s;
}.

#[export] Instance quiet_preorder : PreOrder quiet.
Proof.
  split; [by intros s; split|]. intros s1 s2 s3 [H1 H2 H3] [H4 H5 H6]. split; [by trans s2| |congruence].
  intros scope path. by rewrite H5.
Qed.

Lemma quiet_bump s : quiet s (bump_journal s).
Proof. done. Qed.

Lemma quiet_audit s events next uploaded : audit_events s `prefix_of` events → quiet s (set_audit s events next uploaded).
Proof. by repeat split. Qed.

Section Reports.
Context `{RuntimeCodec}.

Lemma emit_quiet s kind now actor reason old new payload id s' :
  emit_runtime_event s kind now actor reason old new payload = (id, s') → quiet s s'.
Proof. unfold emit_runtime_event. destruct (make_room _ _ _). by intros [= <- <-]. Qed.

Lemma audit_quiet s kind now actor reason changed identity base target id s' :
  append_audit_event s kind now actor reason changed identity base target = (id, s') → quiet s s'.
Proof. intros [= <- <-]. apply quiet_audit. by apply prefix_app_r. Qed.

Lemma audit_last s kind now actor reason path identity base target id s' :
  append_audit_event s kind now actor reason [path] identity base target = (id, s') →
  ∃ a, last (audit_events s') = Some a ∧ au_kind a = kind ∧ au_changed_paths a = [path].
Proof. intros [= <- <-]. cbn. rewrite last_snoc. by eexists. Qed.

End Reports.

Ltac quiet_tac :=
  repeat first
  [ reflexivity
  | match goal with
    | H : emit_runtime_event _ _ _ _ _ _ _ _ = (_, ?t) |- quiet _ ?t => etrans; [|exact (emit_quiet _ _ _ _ _ _ _ _ _ _ H)]
    | H : append_audit_event _ _ _ _ _ _ _ _ _ = (_, ?t) |- quiet _ ?t => etrans; [|exact (audit_quiet _ _ _ _ _ _ _ _ _ _ _ H)]
    | |- quiet _ (set_audit ?t _ _ _) => etrans; [|apply quiet_audit; by apply prefix_app_r]
    | |- quiet _ (bump_journal ?t) => etrans; [|apply quiet_bump]
    end ].

Section Effects.
Context `{RuntimeCodec}.

Lemma clear_slot s scope path g scope' path' :
  slot (clear_dirty_entry s scope path g) scope' path' =
  if decide (at2 scope path scope' path') then (None, None, None) else slot s scope' path'.
Proof. unfold slot. cbn. rewrite !get2_del2. by case_decide. Qed.

(** Whether an entry of the schedule still stands for the dirty value it was made for. *)
Definition fires (s : RuntimeSnapshot) (e : AutoResetScheduleEntry) : bool :=
  bool_decide (is_Some (validate_due_schedule_entry s e)).

Lemma fires_slot s s' e :
  slot s' (se_scope_root e) (se_path e) = slot s (se_scope_root e) (se_path e) →
  validate_due_schedule_entry s' e = validate_due_schedule_entry s e.
Proof. unfold slot, validate_due_schedule_entry. intros [= -> -> ->]. done. Qed.

Lemma fires_metadata s e m v :
  validate_due_schedule_entry s e = Some (m, v) →
  slot s (se_scope_root e) (se_path e) = (Some (se_generation e), Some m, Some v) ∧
  dm_generation m = se_generation e ∧ deadline_of m (se_kind e) = Some (se_deadline e).
Proof.
  unfold validate_due_schedule_entry, slot. intros Hv. inv_ok. case_hyp Hv; [done|]. inv_ok. case_hyp Hv; [done|]. inv_ok.
  apply orb_false_iff in Heqb0 as [Hg%negb_false_iff%N.eqb_eq Hd%negb_false_iff%bool_decide_eq_true].
  apply negb_false_iff, N.eqb_eq in Heqb. subst. repeat match goal with H : get2 _ _ _ = _ |- _ => rewrite H; clear H end. done.
Qed.

(** ** Resets *)

Lemma revert_due_quiet s e now cause s' :
  revert_due_entry s e now cause = Ok s' →
  quiet (if fires s e then clear_dirty_entry s (se_scope_root e) (se_path e) (se_generation e) else s) s'.
Proof.
  unfold revert_due_entry, fires. destruct (validate_due_schedule_entry s e) as [[m old]|] eqn:Ev; intros Hr.
  - rewrite bool_decide_true by eauto. inv_ok. quiet_tac.
  - rewrite bool_decide_false by by intros [? ?]. by inv_ok.
Qed.

Lemma revert_due_slot s e now cause s' scope path :
  revert_due_entry s e now cause = Ok s' →
  slot s' scope path = if decide (at2 (se_scope_root e) (se_path e) scope path ∧ fires s e = true) then (None, None, None)
                       else slot s scope path.
Proof.
  intros Hr. rewrite (quiet_slot _ _ (revert_due_quiet _ _ _ _ _ Hr)). destruct (fires s e); [rewrite clear_slot|].
  - apply decide_ext. naive_solver.
  - by rewrite decide_False by naive_solver.
Qed.

Lemma revert_due_frame s e now cause s' : revert_due_entry s e now cause = Ok s' → frame s s'.
Proof. intros Hr%revert_due_quiet%quiet_frame. etrans; [|exact Hr]. by destruct (fires s e). Qed.

(** Whether one of the entries fires on a path. *)
Definition hit (s : RuntimeSnapshot) (l : list AutoResetScheduleEntry) (scope path : string) : Prop :=
  Exists (λ e, at2 (se_scope_root e) (se_path e) scope path ∧ fires s e = true) l.
#[export] Instance hit_dec s l scope path : Decision (hit s l scope path).
Proof. unfold hit. apply _. Defined.

Lemma hit_slot s s' l scope path : slot s' scope path = slot s scope path → hit s' l scope path ↔ hit s l scope path.
Proof.
  intros Hs. unfold hit. rewrite !Exists_exists. f_equiv. intros e. apply and_iff_compat_l.
  unfold at2, fires. split; intros [[<- <-] Hf]; (split; [done|]).
  - by rewrite <-(fires_slot _ _ _ Hs).
  - by rewrite (fires_slot _ _ _ Hs).
Qed.

Lemma hit_empty s l scope path : slot s scope path = (None, None, None) → ¬ hit s l scope path.
Proof.
  intros Hs. unfold hit. rewrite Exists_exists. intros (e & _ & [<- <-] & [[m v] Hv]%bool_decide_eq_true).
  apply fires_metadata in Hv as [Hv _]. congruence.
Qed.

Lemma revert_all_slot s l now cause s' scope path :
  revert_all s l now cause = Ok s' → slot s' scope path = if decide (hit s l scope path) then (None, None, None) else slot s scope path.
Proof.
  revert s. induction l as [|e l IH]; intros s; cbn [revert_all].
  - intros [= <-]. by rewrite decide_False by (by intros ?%Exists_nil).
  - intros Hr. apply bind_Ok in Hr as (s1 & H1 & Hr). rewrite (IH _ Hr). pose proof (revert_due_slot _ _ _ _ _ scope path H1) as Hs.
    destruct (decide (at2 (se_scope_root e) (se_path e) scope path ∧ fires s e = true)) as [Hd|Hd].
    + rewrite decide_False by by apply hit_empty. rewrite decide_True by (by left). done.
    + rewrite (decide_ext _ _ _ _ (hit_slot _ _ l _ _ Hs)), Hs. apply decide_ext. unfold hit. rewrite Exists_cons. naive_solver.
Qed.

Lemma revert_all_frame s l now cause s' : revert_all s l now cause = Ok s' → frame s s'.
Proof.
  revert s. induction l as [|e l IH]; intros s; cbn [revert_all]; [by intros [= <-]|].
  intros Hr. apply bind_Ok in Hr as (s1 & H1%revert_due_frame & Hr). etrans; [done|by apply IH].
Qed.


(** ** Normalization *)

Lemma normalize_audit_shape s : ∃ events next uploaded, normalize_audit_state s = set_audit s events next uploaded.
Proof. unfold normalize_audit_state. destruct (normalize_audit_events _ _). destruct (last _); eauto. Qed.

(** What normalization makes of the generation and the metadata of a dirty path. *)
Definition generation_of (s : RuntimeSnapshot) (scope path : string) : N := N.max (default 0 (recorded_generation s scope path)) 1.
Definition metadata_of (s : RuntimeSnapshot) (now : N) (scope path : string) : DirtyEntryMetadata :=
  normalized_metadata s now scope path (generation_of s scope path).

Lemma normalize_dirty_split s now o m l :
  foldl (normalize_dirty_path s now) (o, m) l =
  (foldl (λ o sp, put2 sp.1 sp.2 (generation_of s sp.1 sp.2) o) o l, foldl (λ m sp, put2 sp.1 sp.2 (metadata_of s now sp.1 sp.2) m) m l).
Proof. revert o m. induction l as [|sp l IH]; intros o m; [done|]. cbn [foldl]. by rewrite <-IH. Qed.

Lemma normalize_state_slot s now scope path :
  slot (normalize_runtime_snapshot_state s now) scope path =
  match get2 (dirty_overlay s) scope path with
  | Some v => (Some (generation_of s scope path), Some (metadata_of s now scope path), Some v)
  | None => (get2 (dirty_generations s) scope path, None, None)
  end.
Proof.
  unfold normalize_runtime_snapshot_state. destruct (normalize_audit_shape (set_sync (set_bus s (normalize_event_bus_state (event_bus s)))
    (normalize_sync_status (sync_status (set_bus s (normalize_event_bus_state (event_bus s))))))) as (ev & n & u & ->).
  rewrite normalize_dirty_split. unfold slot. cbn [dirty_generations dirty_metadata dirty_overlay set_dirty set_audit set_sync set_bus].
  rewrite (get2_foldl_put2 (λ sp, generation_of _ sp.1 sp.2)), (get2_foldl_put2 (λ sp, metadata_of _ now sp.1 sp.2)).
  destruct (get2 (dirty_overlay s) scope path) as [v|] eqn:E.
  - rewrite !decide_True by (apply elem_pairs2; by rewrite E). done.
  - rewrite !decide_False by (rewrite elem_pairs2, E; by intros [? ?]). done.
Qed.

Lemma normalize_state_values s now :
  let s' := normalize_runtime_snapshot_state s now in
  dirty_overlay s' = dirty_overlay s ∧ rs_head s' = rs_head s ∧ committed_overlay s' = committed_overlay s ∧
  auto_reset_policy s' = auto_reset_policy s.
Proof.
  unfold normalize_runtime_snapshot_state. destruct (normalize_audit_shape (set_sync (set_bus s (normalize_event_bus_state (event_bus s)))
    (normalize_sync_status (sync_status (set_bus s (normalize_event_bus_state (event_bus s))))))) as (ev & n & u & ->).
  rewrite normalize_dirty_split. done.
Qed.

(** Every bound of a dirty path is in the schedule of a normalized snapshot. *)
Lemma schedule_of_elem scope path m e :
  e ∈ schedule_of scope path m ↔
  ∃ d, deadline_of m (se_kind e) = Some d ∧ e = mkEntry scope path (dm_generation m) d (se_kind e).
Proof.
  unfold schedule_of. rewrite elem_of_app. destruct e as [sc p g d k]. cbn. destruct (dm_reset_deadline m) eqn:E1, (dm_hard_cap_deadline m) eqn:E2, k; cbn;
    rewrite ?E1, ?E2, ?list_elem_of_singleton, ?elem_of_nil; naive_solver.
Qed.

Lemma schedule_all_elem metadata scope path m e :
  get2 metadata scope path = Some m → e ∈ schedule_of scope path m → e ∈ schedule_all metadata.
Proof.
  unfold get2, schedule_all. intros Hm He. destruct (metadata !! scope) as [entries|] eqn:Es; [|done]. cbn in Hm.
  apply list_elem_of_In, in_flat_map. exists (scope, entries). split; [by apply list_elem_of_In, elem_bt_list|].
  apply in_flat_map. exists (path, m). split; [by apply list_elem_of_In, elem_bt_list|]. by apply list_elem_of_In.
Qed.

Lemma normalize_state_scheduled s now scope path m e :
  get2 (dirty_metadata (normalize_runtime_snapshot_state s now)) scope path = Some m → e ∈ schedule_of scope path m →
  e ∈ pending (normalize_runtime_snapshot_state s now).
Proof.
  unfold normalize_runtime_snapshot_state. destruct (foldl _ _ _) as [g md]. cbn. intros Hm He.
  apply sort_entries_elem, elem_of_app. right. by eapply schedule_all_elem.
Qed.

(** ** The bounds that are due *)

Definition expired (m : DirtyEntryMetadata) (now : N) : bool :=
  match dm_reset_deadline m with Some d => d <=? now | None => false end ||
  match dm_hard_cap_deadline m with Some d => d <=? now | None => false end.

Lemma expired_true m now : expired m now = true ↔ ∃ kind d, deadline_of m kind = Some d ∧ d <= now.
Proof.
  unfold expired. rewrite orb_true_iff. split.
  - intros [Hd|Hd]; [exists LeaseExpiryKind|exists HardCapKind]; cbn; case_hyp Hd; try done; apply N.leb_le in Hd; eauto.
  - intros ([|] & d & Hk & Hd%N.leb_le); cbn in Hk; rewrite Hk; auto.
Qed.

(** The entries a pass over the schedule takes out. *)
Definition due_entries (s : RuntimeSnapshot) (now : N) : list AutoResetScheduleEntry :=
  let queue := sort_and_dedup_schedule_entries (pending s) in take (due_count now queue) queue.

Lemma due_entries_elem s now e : e ∈ due_entries s now ↔ e ∈ pending s ∧ se_deadline e <= now.
Proof. unfold due_entries. by rewrite (due_prefix _ _ (sort_entries_earlier _)), sort_entries_elem. Qed.

Lemma entry_fires s scope path g m v kind d :
  slot s scope path = (Some g, Some m, Some v) → dm_generation m = g → deadline_of m kind = Some d →
  validate_due_schedule_entry s (mkEntry scope path g d kind) = Some (m, v).
Proof.
  unfold slot, validate_due_schedule_entry. cbn [se_scope_root se_path se_generation se_kind se_deadline].
  intros [= -> -> ->] Hg Hd. cbn. rewrite Hg, N.eqb_refl. cbn. by rewrite bool_decide_true by done.
Qed.

Lemma due_hit s now scope path :
  let s0 := normalize_runtime_snapshot_state s now in
  hit s0 (due_entries s0 now) scope path ↔ is_Some (get2 (dirty_overlay s) scope path) ∧ expired (metadata_of s now scope path) now = true.
Proof.
  intros s0. pose proof (normalize_state_slot s now scope path) as Hs. fold s0 in Hs. unfold hit. rewrite Exists_exists, expired_true. split.
  - intros (e & [_ He]%due_entries_elem & [<- <-] & [[m v] (Hf & Hg & Hd)%fires_metadata]%bool_decide_eq_true).
    rewrite Hs in Hf. destruct (get2 (dirty_overlay s) _ _) as [v'|]; [|done]. injection Hf as Hgen <- <-. eauto.
  - intros ([v Hv] & kind & d & Hk & Hd). rewrite Hv in Hs.
    exists (mkEntry scope path (generation_of s scope path) d kind). split.
    + apply due_entries_elem. split; [|done]. injection Hs as _ Hm _. eapply normalize_state_scheduled; [exact Hm|].
      apply schedule_of_elem. exists d. done.
    + split; [done|]. unfold fires. rewrite (entry_fires _ _ _ _ _ _ _ _ Hs) by done. by apply bool_decide_true.
Qed.

(** A pass over the schedule: [apply_due_auto_resets] and the driver drain the same entries. *)
Lemma apply_due_slot s now s' scope path :
  apply_due_auto_resets s now = Ok s' →
  frame s s' ∧ slot s' scope path = if decide (hit s (due_entries s now) scope path) then (None, None, None) else slot s scope path.
Proof.
  unfold apply_due_auto_resets. set (q := sort_and_dedup_schedule_entries (pending s)). intros Hr.
  assert (Hno : due_count now q = 0%nat → ¬ hit s (due_entries s now) scope path).
  { intros Hn. unfold due_entries. fold q. rewrite Hn. by intros ?%Exists_nil. }
  destruct (pending s) as [|e l] eqn:Ep; [|destruct (due_count now q) as [|n] eqn:En].
  - injection Hr as <-. by rewrite decide_False by by apply Hno.
  - injection Hr as <-. by rewrite decide_False by auto.
  - rewrite <-En in *. split; [etrans; [|by eapply revert_all_frame]; done|]. rewrite (revert_all_slot _ _ _ _ _ _ _ Hr).
    unfold due_entries. rewrite Ep. fold q. change (slot (set_pending ?t _)) with (slot t).
    apply decide_ext. by apply hit_slot.
Qed.

(** How every operation of the runtime begins: a dirty value that has reached a
    bound is dropped, whatever its intent; every other one stays, normalized. *)
Lemma prepare_slot s now s' scope path :
  prepare s now = Ok s' →
  slot s' scope path =
  match get2 (dirty_overlay s) scope path with
  | Some v =>
      if expired (metadata_of s now scope path) now then (None, None, None)
      else (Some (generation_of s scope path), Some (metadata_of s now scope path), Some v)
  | None => (get2 (dirty_generations s) scope path, None, None)
  end.
Proof.
  unfold prepare. intros Hr. inv_ok. apply (apply_due_slot _ _ _ scope path) in Hr as [_ ->].
  rewrite (decide_ext _ _ _ _ (due_hit s now scope path)), normalize_state_slot.
  destruct (get2 (dirty_overlay s) scope path) as [v|]; [|by rewrite decide_False by by intros [[? ?] _]].
  destruct (expired _ _); [by rewrite decide_True by eauto|by rewrite decide_False by naive_solver].
Qed.

Lemma prepare_overlay s now s' scope path :
  prepare s now = Ok s' →
  get2 (dirty_overlay s') scope path =
    if expired (metadata_of s now scope path) now then None else get2 (dirty_overlay s) scope path.
Proof.
  intros Hr. pose proof (prepare_slot _ _ _ scope path Hr) as Hs.
  destruct (get2 (dirty_overlay s) scope path), (expired _ _); by injection Hs.
Qed.

Lemma prepare_values s now s' :
  prepare s now = Ok s' → rs_head s' = rs_head s ∧ committed_overlay s' = committed_overlay s ∧ auto_reset_policy s' = auto_reset_policy s.
Proof.
  unfold prepare. intros Hr. inv_ok. apply (apply_due_slot _ _ _ String.EmptyString String.EmptyString) in Hr as [[Hh Hc Hp _] _].
  pose proof (normalize_state_values s now) as (_ & ? & ? & ?). repeat split; congruence.
Qed.

(** ** The driver *)

Lemma escalate_effect s e m event now id s' :
  escalate_compensating_entry s e m event now = Ok (id, s') →
  (∃ s1, quiet s s1 ∧
     s' = set_dirty s1 (dirty_overlay s1) (dirty_generations s1)
            (match get2 (dirty_metadata s1) (se_scope_root e) (se_path e) with
             | Some c => put2 (se_scope_root e) (se_path e) (disarm c (se_kind e)) (dirty_metadata s1)
             | None => dirty_metadata s1
             end) (pending s1)) ∧
  ∃ a, last (audit_events s') = Some a ∧ au_kind a = AuditEscalation ∧
       au_changed_paths a = [canonical_runtime_path (se_scope_root e) (se_path e)].
Proof.
  unfold escalate_compensating_entry. intros Hr. inv_ok. split.
  - eexists. split; [|reflexivity]. quiet_tac.
  - match goal with H : append_audit_event _ _ _ _ _ _ _ _ _ = _ |- _ => exact (audit_last _ _ _ _ _ _ _ _ _ _ _ H) end.
Qed.

(** What one due entry does to the path it stands for. *)
Definition driven (m : DirtyEntryMetadata) (v : Value) (e : AutoResetScheduleEntry) :=
  if decide (dm_intent m = Experimental) then (None, None, None)
  else (Some (se_generation e), Some (disarm m (se_kind e)), Some v).

Lemma drive_entry_effect r e now r' :
  drive_entry r e now = Ok r' →
  frame (dr_snapshot r) (dr_snapshot r') ∧
  ∀ scope path, slot (dr_snapshot r') scope path =
    match validate_due_schedule_entry (dr_snapshot r) e with
    | Some (m, v) => if decide (at2 (se_scope_root e) (se_path e) scope path) then driven m v e else slot (dr_snapshot r) scope path
    | None => slot (dr_snapshot r) scope path
    end.
Proof.
  unfold drive_entry, driven. destruct (validate_due_schedule_entry (dr_snapshot r) e) as [[m v]|] eqn:Ev; [|by intros [= <-]].
  rewrite bound_silent. destruct (decide (dm_intent m = Experimental)) as [Hi|Hi].
  - rewrite bool_decide_true by done. intros Hr. inv_ok. cbn. split; [by eapply revert_due_frame|]. intros scope path.
    rewrite (revert_due_slot _ _ _ _ _ _ _ ltac:(eassumption)). apply decide_ext. unfold fires. rewrite Ev, bool_decide_true by eauto. naive_solver.
  - rewrite bool_decide_false by done. intros Hr. inv_ok. cbn.
    match goal with H : escalate_compensating_entry _ _ _ _ _ = _ |- _ => apply escalate_effect in H as [(s1 & Hq & ->) _] end.
    split; [etrans; [apply (quiet_frame _ _ Hq)|done]|]. intros scope path. pose proof (fires_metadata _ _ _ _ Ev) as [Hs _].
    pose proof (quiet_slot _ _ Hq scope path) as Hq1. pose proof (quiet_slot _ _ Hq (se_scope_root e) (se_path e)) as Hq2.
    rewrite Hs in Hq2. injection Hq2 as Hg Hm Hv.
    change (slot (drop_schedule_entry ?t e)) with (slot t). unfold slot at 1. cbn. rewrite Hm, get2_put2.
    case_decide as Ha; [destruct Ha as [<- <-]; by rewrite Hg, Hv|exact Hq1].
Qed.

Lemma drive_entry_other r e now r' scope path :
  drive_entry r e now = Ok r' → ¬ (at2 (se_scope_root e) (se_path e) scope path ∧ fires (dr_snapshot r) e = true) →
  slot (dr_snapshot r') scope path = slot (dr_snapshot r) scope path.
Proof.
  intros [_ ->]%drive_entry_effect Hd. destruct (validate_due_schedule_entry _ e) as [[m v]|] eqn:Ev; [|done].
  apply decide_False. intros Ha. apply Hd. split; [done|]. unfold fires. rewrite Ev. by apply bool_decide_true.
Qed.

Lemma drive_entry_reports r e now r' :
  drive_entry r e now = Ok r' →
  (∀ c, c ∈ dr_escalated r → c ∈ dr_escalated r') ∧ (∀ c, c ∈ dr_reverted r → c ∈ dr_reverted r') ∧
  ∀ m v, validate_due_schedule_entry (dr_snapshot r) e = Some (m, v) →
    let c := canonical_runtime_path (se_scope_root e) (se_path e) in
    if decide (dm_intent m = Experimental) then c ∈ dr_reverted r'
    else c ∈ dr_escalated r' ∧
         ∃ a, a ∈ audit_events (dr_snapshot r') ∧ au_kind a = AuditEscalation ∧ au_changed_paths a = [c].
Proof.
  unfold drive_entry. destruct (validate_due_schedule_entry (dr_snapshot r) e) as [[m v]|] eqn:Ev; [|by intros [= <-]].
  rewrite bound_silent. intros Hr. destruct (decide (dm_intent m = Experimental)) as [Hi|Hi].
  - rewrite bool_decide_true in Hr by done. inv_ok. cbn. split_and!; [done|intros c ?; apply elem_of_app; by left|].
    intros m' v' [= <- <-]. rewrite decide_True by done. apply elem_of_app. right. by left.
  - rewrite bool_decide_false in Hr by done. inv_ok. cbn. split_and!; [intros c ?; apply elem_of_app; by left|done|].
    intros m' v' [= <- <-]. rewrite decide_False by done. split; [apply elem_of_app; right; by left|].
    match goal with H : escalate_compensating_entry _ _ _ _ _ = _ |- _ => apply escalate_effect in H as [_ (a & Ha & ?)] end.
    exists a. split; [|done]. by apply last_Some_elem_of.
Qed.

Lemma driven_keeps r e now r' scope path g m v :
  drive_entry r e now = Ok r' → slot (dr_snapshot r) scope path = (Some g, Some m, Some v) → dm_intent m = Compensating →
  ∃ m', slot (dr_snapshot r') scope path = (Some g, Some m', Some v) ∧ dm_intent m' = Compensating.
Proof.
  intros [_ ->]%drive_entry_effect Hs Hm. destruct (validate_due_schedule_entry (dr_snapshot r) e) as [[me ve]|] eqn:Ev; [|eauto].
  case_decide as Ha; [|eauto]. destruct Ha as [<- <-]. apply fires_metadata in Ev as [Ev _]. rewrite Hs in Ev. injection Ev as -> <- <-.
  unfold driven. rewrite decide_False by congruence. eexists. split; [done|]. by destruct (se_kind e).
Qed.

(** A compensating override keeps its generation and its value. *)
Lemma drive_entries_keep l r now r' scope path g m v :
  drive_entries r l now = Ok r' → slot (dr_snapshot r) scope path = (Some g, Some m, Some v) → dm_intent m = Compensating →
  ∃ m', slot (dr_snapshot r') scope path = (Some g, Some m', Some v) ∧ dm_intent m' = Compensating.
Proof.
  revert r m. induction l as [|e l IH]; intros r m; cbn [drive_entries]; [intros [= <-]; eauto|].
  intros Hr Hs Hm. apply bind_Ok in Hr as (r1 & H1 & Hr). destruct (driven_keeps _ _ _ _ _ _ _ _ _ H1 Hs Hm) as (m1 & ? & ?). eauto.
Qed.

Definition compensating (s : RuntimeSnapshot) (scope path : string) : Prop :=
  match get2 (dirty_metadata s) scope path with Some m => dm_intent m = Compensating | None => False end.

(** Every other path is left as by the resets. *)
Lemma drive_entries_revert l r now r' scope path :
  drive_entries r l now = Ok r' → ¬ compensating (dr_snapshot r) scope path →
  slot (dr_snapshot r') scope path = if decide (hit (dr_snapshot r) l scope path) then (None, None, None) else slot (dr_snapshot r) scope path.
Proof.
  revert r. induction l as [|e l IH]; intros r; cbn [drive_entries].
  - intros [= <-] _. by rewrite decide_False by (by intros ?%Exists_nil).
  - intros Hr Hc. apply bind_Ok in Hr as (r1 & H1 & Hr).
    destruct (decide (at2 (se_scope_root e) (se_path e) scope path ∧ fires (dr_snapshot r) e = true)) as [[[<- <-] Hf]|Hd].
    + apply drive_entry_effect in H1 as [_ H1]. specialize (H1 (se_scope_root e) (se_path e)). rewrite (decide_True (P := hit _ (e :: l) _ _)) by by left. apply bool_decide_eq_true in Hf as [[m v] Hv]. rewrite Hv, decide_True in H1 by done.
      apply fires_metadata in Hv as [Hv _]. unfold compensating in Hc. injection Hv as _ Hm _. rewrite Hm in Hc.
      unfold driven in H1. rewrite decide_True in H1 by (by destruct (dm_intent m)). rewrite (IH _ Hr), H1.
      * by rewrite decide_False by by apply hit_empty.
      * unfold compensating. injection H1 as _ -> _. auto.
    + pose proof (drive_entry_other _ _ _ _ _ _ H1 Hd) as Hs. rewrite (IH _ Hr), (decide_ext _ _ _ _ (hit_slot _ _ l _ _ Hs)), Hs.
      * apply decide_ext. unfold hit. rewrite Exists_cons. naive_solver.
      * unfold compensating in *. injection Hs as _ -> _. done.
Qed.

(** What the driver reports of the paths it acted on. *)
Definition reported (r : DriveOverrideLifecycleResult) (intent : OverrideIntent) (scope path : string) : Prop :=
  let c := canonical_runtime_path scope path in
  match intent with
  | Experimental => c ∈ dr_reverted r
  | Compensating => c ∈ dr_escalated r ∧
      ∃ a, a ∈ audit_events (dr_snapshot r) ∧ au_kind a = AuditEscalation ∧ au_changed_paths a = [c]
  end.

Lemma reported_mono r e now r' intent scope path :
  drive_entry r e now = Ok r' → reported r intent scope path → reported r' intent scope path.
Proof.
  intros Hr. pose proof (drive_entry_effect _ _ _ _ Hr) as [[_ _ _ Hp] _]. apply drive_entry_reports in Hr as (He & Hv & _).
  destruct intent; cbn; [auto|]. intros (Hc & a & Ha & ?). split; [auto|]. exists a. split; [|done].
  destruct Hp as [k ->]. apply elem_of_app. by left.
Qed.

Lemma reported_mono_all l r now r' intent scope path :
  drive_entries r l now = Ok r' → reported r intent scope path → reported r' intent scope path.
Proof.
  revert r. induction l as [|e l IH]; intros r; cbn [drive_entries]; [by intros [= <-]|].
  intros Hr Hp. apply bind_Ok in Hr as (r1 & H1 & Hr). eapply IH, reported_mono; done.
Qed.

Lemma drive_entries_report l r now r' scope path m :
  drive_entries r l now = Ok r' → get2 (dirty_metadata (dr_snapshot r)) scope path = Some m → hit (dr_snapshot r) l scope path →
  reported r' (dm_intent m) scope path.
Proof.
  revert r. induction l as [|e l IH]; intros r; cbn [drive_entries]; [by intros _ _ ?%Exists_nil|].
  intros Hr Hm Hh. apply bind_Ok in Hr as (r1 & H1 & Hr).
  destruct (decide (at2 (se_scope_root e) (se_path e) scope path ∧ fires (dr_snapshot r) e = true)) as [[[<- <-] Hf]|Hd].
  - eapply reported_mono_all; [done|]. apply bool_decide_eq_true in Hf as [[me v] Hv].
    apply drive_entry_reports in H1 as (_ & _ & H1). specialize (H1 _ _ Hv). apply fires_metadata in Hv as [Hv _].
    injection Hv as _ Hm' _. rewrite Hm in Hm'. injection Hm' as <-. unfold reported. by destruct (dm_intent m).
  - apply Exists_cons in Hh as [Hh|Hh]; [done|]. pose proof (drive_entry_other _ _ _ _ _ _ H1 Hd) as Hs.
    eapply IH; [done| |by apply (hit_slot _ _ l _ _ Hs)]. injection Hs as _ -> _. done.
Qed.

Lemma drive_entries_frame l r now r' : drive_entries r l now = Ok r' → frame (dr_snapshot r) (dr_snapshot r').
Proof.
  revert r. induction l as [|e l IH]; intros r; cbn [drive_entries]; [by intros [= <-]|].
  intros Hr. apply bind_Ok in Hr as (r1 & [H1 _]%drive_entry_effect & Hr). etrans; [done|by apply IH].
Qed.

(** The driver is a pass over the due entries of the normalized snapshot. *)
Lemma drive_is_pass version s now r :
  drive_override_lifecycle version s now = Ok r →
  let s0 := normalize_runtime_snapshot_state s now in
  ∃ s1, (∀ scope path, slot s1 scope path = slot s0 scope path) ∧ frame s0 s1 ∧
        drive_entries (mkDrive s1 [] [] []) (due_entries s0 now) now = Ok r.
Proof.
  intros Hr s0. unfold drive_override_lifecycle in Hr. inv_ok. fold s0 in Hr.
  unfold due_entries. set (q := sort_and_dedup_schedule_entries (pending s0)) in *.
  destruct (pending s0) as [|e l] eqn:Ep; [|destruct (due_count now q) as [|n] eqn:En].
  - injection Hr as <-. exists s0. by subst q.
  - injection Hr as <-. by exists (set_pending s0 q).
  - by exists (set_pending s0 (drop (S n) q)).
Qed.

(** C21: A pass of the driver: an experimental override that has reached a bound is
    dropped and reported as reverted; a compensating one keeps its value, is
    reported as escalated and has a record in the log; every other override, and
    every committed value, is as before. *)
Theorem driver_spares_compensating version s now r :
  drive_override_lifecycle version s now = Ok r →
  committed_overlay (dr_snapshot r) = committed_overlay s ∧
  ∀ scope path,
    let m := metadata_of s now scope path in
    let due := expired m now in
    get2 (dirty_overlay (dr_snapshot r)) scope path =
      (if due && bool_decide (dm_intent m = Experimental) then None else get2 (dirty_overlay s) scope path) ∧
    (is_Some (get2 (dirty_overlay s) scope path) → due = true → reported r (dm_intent m) scope path).
Proof.
  intros (s1 & Hs1 & Hf & Hr)%drive_is_pass. pose proof (normalize_state_values s now) as (_ & _ & Hc & _). split.
  { pose proof (drive_entries_frame _ _ _ _ Hr) as Hf'. cbn in Hf'. rewrite (frame_committed _ _ Hf'), (frame_committed _ _ Hf). done. }
  intros scope path m due. pose proof (normalize_state_slot s now scope path) as Hn. rewrite <-Hs1 in Hn.
  pose proof (due_hit s now scope path) as Hh. cbn zeta in Hh. rewrite <-(hit_slot _ _ _ _ _ (Hs1 scope path)) in Hh. fold m due in Hh.
  destruct (get2 (dirty_overlay s) scope path) as [v|] eqn:Ev.
  - split; [|intros _ Hd; injection Hn as _ Hm _; eapply (drive_entries_report _ _ _ _ _ _ _ Hr); [exact Hm|apply Hh; eauto]].
    destruct (decide (dm_intent m = Experimental)) as [Hi|Hi].
    + rewrite bool_decide_true, andb_true_r by done. pose proof (drive_entries_revert _ _ _ _ scope path Hr) as Hx. cbn in Hx.
      rewrite Hn in Hx. specialize (Hx ltac:(unfold compensating; injection Hn as _ -> _; fold m; congruence)).
      destruct due eqn:Ed.
      * rewrite decide_True in Hx by (apply Hh; eauto). by injection Hx.
      * rewrite decide_False in Hx by (rewrite Hh; by intros [_ ?]). by injection Hx.
    + rewrite bool_decide_false, andb_false_r by done. destruct (drive_entries_keep _ _ _ _ scope path _ _ _ Hr Hn) as (m' & Hx & _).
      { fold m. by destruct (dm_intent m). }
      by injection Hx.
  - split; [|by intros [? ?]]. pose proof (drive_entries_revert _ _ _ _ scope path Hr) as Hx. cbn in Hx. rewrite Hn in Hx.
    specialize (Hx ltac:(unfold compensating; injection Hn as _ -> _; auto)). rewrite decide_False in Hx by (rewrite Hh; by intros [[? ?] _]).
    injection Hx as _ _ ->. by destruct (_ && _).
Qed.

(** The resets that run before every other operation drop each override that has
    reached a bound and leave the others, and every committed value, as they
    were.  The intent plays no part: a compensating override is dropped too. *)
Theorem resets_ignore_intent s now s' :
  prepare s now = Ok s' →
  committed_overlay s' = committed_overlay s ∧
  ∀ scope path,
    get2 (dirty_overlay s') scope path =
      if expired (metadata_of s now scope path) now then None else get2 (dirty_overlay s) scope path.
Proof.
  intros Hr. split; [by apply prepare_values in Hr as (_ & ? & _)|]. intros scope path. by apply prepare_overlay.
Qed.
End Effects.
