(* ===== verification/RuntimeCommitProps.v ===== *)
(** * Writes, rollbacks and commits

    A write changes the value of its path and of no other; the writes of an atomic
    request are in effect together, the last one of a path winning; a rollback
    restores the committed values; a commit makes the working values the committed
    ones, and its check of the two identities never fails. *)
From S2P Require Import Prelude Text Schema Resolver ResolverProps Ir Override Runtime RuntimeOps RuntimeCommit RuntimeProps.
Local Open Scope N_scope.

Section Writes.
Context `{RuntimeCodec}.

(** ** Writes *)

Definition written (s : RuntimeSnapshot) (scope path : string) (v : Value) (now : N) (actor : string) (reason : option string)
    (intent : OverrideIntent) : option N * option DirtyEntryMetadata * option Value :=
  let g := saturating_add (default 0 (get2 (dirty_generations s) scope path)) 1 in
  (Some g, Some (mkMetadata actor (sanitize_optional_text reason) now (lease_deadline s scope path now) None g intent), Some v).

Lemma write_slot s w v now actor reason intent g s' scope path :
  write_parameter s w v now actor reason intent = (g, s') →
  frame s s' ∧
  slot s' scope path = if decide (at2 (vw_scope_root w) (vw_path w) scope path)
                       then written s scope path v now actor reason intent else slot s scope path.
Proof.
  unfold write_parameter, apply_dirty_write. intros Hw.
  destruct (emit_runtime_event _ ParameterChanged _ _ _ _ _ _) as [i1 s1] eqn:E1.
  destruct (emit_runtime_event _ DirtyStateChanged _ _ _ _ _ _) as [i2 s2] eqn:E2. injection Hw as _ <-.
  assert (Hq : quiet (apply_dirty_write s (vw_scope_root w) (vw_path w) v now actor reason intent).2 s2) by quiet_tac.
  split; [etrans; [|apply (quiet_frame _ _ Hq)]; done|].
  rewrite (quiet_slot _ _ Hq). unfold slot, apply_dirty_write. cbn. rewrite !get2_put2. case_decide as Ha; [|done]. by destruct Ha as [<- <-].
Qed.

Lemma find_head s s' scope path : rs_head s' = rs_head s → find_parameter_in_scope s' scope path = find_parameter_in_scope s scope path.
Proof. unfold find_parameter_in_scope. by intros ->. Qed.

Lemma validate_value_head s s' p path v entity : rs_head s' = rs_head s → validate_value s' p path v entity = validate_value s p path v entity.
Proof. unfold validate_value, validate_artifact. by intros ->. Qed.

Lemma validate_write_sound s path v entity w :
  validate_runtime_write s path v entity true = Ok w →
  vw_path w = path ∧ find_parameter_in_scope s (vw_scope_root w) path = Ok (vw_baseline w) ∧ rp_lifecycle (vw_baseline w) = Runtime ∧
  validate_value s (vw_baseline w) path v path = Ok tt.
Proof.
  unfold validate_runtime_write. intros Hw. inv_ok. repeat match goal with u : unit |- _ => destruct u end.
  cbn. split_and!; [done|done| |done].
  match goal with H : bail_if _ _ = _ |- _ => apply bail_if_Ok in H end. by destruct (rp_lifecycle _).
Qed.

Lemma payload_value component key p artifacts payload : parameter_payload component key p artifacts = Ok payload → py_value payload = rp_value p.
Proof. unfold parameter_payload. intros Hp. by inv_ok. Qed.

Lemma set_parameter_effect version s path v intent actor reason now s' payload :
  set_parameter version s path v intent actor reason now = Ok (s', payload) →
  ∃ scope p m,
    find_parameter_in_scope s scope path = Ok p ∧ rp_lifecycle p = Runtime ∧ validate_value s p path v path = Ok tt ∧
    py_value payload = v ∧ committed_overlay s' = committed_overlay s ∧
    get2 (dirty_metadata s') scope path = Some m ∧ dm_intent m = intent ∧ dm_dirty_since m = now ∧
    dm_reset_deadline m = lease_deadline s scope path now ∧
    ∀ scope' path', get2 (dirty_overlay s') scope' path' =
      if decide (at2 scope path scope' path') then Some v
      else if expired (metadata_of s now scope' path') now then None else get2 (dirty_overlay s) scope' path'.
Proof.
  unfold set_parameter. intros Hr. inv_ok. rename x0 into s1, x1 into w.
  match goal with H : prepare _ _ = _ |- _ => rename H into Hp end. pose proof (prepare_values _ _ _ Hp) as (Hh & Hc & Hpol).
  match goal with H : validate_runtime_write _ _ _ _ _ = _ |- _ => apply validate_write_sound in H as (<- & Hfind & Hlife & Hval) end.
  match goal with H : write_parameter _ _ _ _ _ _ _ = (_, ?t) |- _ => pose proof (λ scope path, write_slot _ _ _ _ _ _ _ _ _ scope path H) as Hw; set (s2 := t) in * end.
  match goal with H : append_audit_event _ _ _ _ _ _ _ _ _ = _ |- _ => apply audit_quiet in H; rename H into Hq end.
  match goal with H : parameter_payload _ _ _ _ = _ |- _ => apply payload_value in H as Hv end.
  destruct (Hw (vw_scope_root w) (vw_path w)) as [Hf Hown]. rewrite decide_True in Hown by done.
  rewrite <-(quiet_slot _ _ Hq) in Hown. unfold written in Hown. injection Hown as _ Hm Ho.
  exists (vw_scope_root w), (vw_baseline w). eexists.
  split_and!; [by rewrite <-(find_head _ _ _ _ Hh)|done|by rewrite <-(validate_value_head _ _ _ _ _ _ Hh)| | |exact Hm|done|done| |].
  - rewrite Hv. cbn. unfold effective_parameter_value. by rewrite Ho.
  - by rewrite (frame_committed _ _ (quiet_frame _ _ Hq)), (frame_committed _ _ Hf).
  - cbn. unfold lease_deadline. by rewrite Hpol.
  - intros scope' path'. destruct (Hw scope' path') as [_ Hx]. rewrite <-(quiet_slot _ _ Hq) in Hx.
    rewrite <-(prepare_overlay _ _ _ _ _ Hp). case_decide; by injection Hx.
Qed.

(** C24: A write that succeeds: the parameter exists, is writable at runtime and
    accepts the value; the value is in effect and is what the call returns, with
    the lease the policy gives; every other path is as the resets that run first
    leave it, and no committed value changes. *)
Theorem set_parameter_in_effect version s path v intent actor reason now s' payload :
  set_parameter version s path v intent actor reason now = Ok (s', payload) →
  ∃ scope p m,
    find_parameter_in_scope s scope path = Ok p ∧ rp_lifecycle p = Runtime ∧ validate_value s p path v path = Ok tt ∧
    py_value payload = v ∧ committed_overlay s' = committed_overlay s ∧
    get2 (dirty_metadata s') scope path = Some m ∧ dm_intent m = intent ∧ dm_dirty_since m = now ∧
    dm_reset_deadline m = lease_deadline s scope path now ∧
    ∀ scope' path', get2 (dirty_overlay s') scope' path' =
      if decide (at2 scope path scope' path') then Some v
      else if expired (metadata_of s now scope' path') now then None else get2 (dirty_overlay s) scope' path'.
Proof. apply set_parameter_effect. Qed.

(** ** Atomic writes *)

(** The last write to a path. *)
Fixpoint last_write (ws : list (ValidatedRuntimeWrite * Value)) (scope path : string) : option Value :=
  match ws with
  | [] => None
  | (w, v) :: ws =>
      match last_write ws scope path with
      | Some v' => Some v'
      | None => if decide (at2 (vw_scope_root w) (vw_path w) scope path) then Some v else None
      end
  end.

Lemma write_all_overlay ws s now actor reason intent g changed g' changed' s' scope path :
  write_all s ws now actor reason intent g changed = (g', changed', s') →
  frame s s' ∧
  get2 (dirty_overlay s') scope path =
    match last_write ws scope path with Some v => Some v | None => get2 (dirty_overlay s) scope path end.
Proof.
  revert s g changed. induction ws as [|[w v] ws IH]; intros s g changed; cbn [write_all last_write]; [by intros [= _ _ <-]|].
  destruct (write_parameter s w v now actor reason intent) as [g1 s1] eqn:E1. intros [Hf Ho]%IH.
  apply (write_slot _ _ _ _ _ _ _ _ _ scope path) in E1 as [Hf1 E1]. split; [by trans s1|]. rewrite Ho.
  destruct (last_write ws scope path); [done|]. case_decide; by injection E1.
Qed.

Lemma validate_writes_sound s writes ws :
  validate_writes s writes = Ok ws →
  Forall2 (λ pv wv, wv.2 = pv.2 ∧ vw_path wv.1 = pv.1 ∧ find_parameter_in_scope s (vw_scope_root wv.1) pv.1 = Ok (vw_baseline wv.1) ∧
    rp_lifecycle (vw_baseline wv.1) = Runtime ∧ validate_value s (vw_baseline wv.1) pv.1 pv.2 pv.1 = Ok tt) writes ws.
Proof.
  revert ws. induction writes as [|[path v] writes IH]; intros ws Hw; cbn [validate_writes] in Hw; inv_ok; constructor; [|by apply IH].
  split; [done|]. by eapply validate_write_sound.
Qed.

(** An atomic request that succeeds: every write was valid before the first one
    took effect, all of them are in effect with the last one of a path winning, and
    every other path is as the resets leave it. *)
Theorem atomic_writes_in_effect version s writes actor reason expected intent now s' g :
  set_parameters_atomically version s writes actor reason expected intent now = Ok (s', g) →
  ∃ ws,
    Forall2 (λ pv wv, wv.2 = pv.2 ∧ vw_path wv.1 = pv.1 ∧ find_parameter_in_scope s (vw_scope_root wv.1) pv.1 = Ok (vw_baseline wv.1) ∧
      rp_lifecycle (vw_baseline wv.1) = Runtime ∧ validate_value s (vw_baseline wv.1) pv.1 pv.2 pv.1 = Ok tt) writes ws ∧
    committed_overlay s' = committed_overlay s ∧
    ∀ scope path, get2 (dirty_overlay s') scope path =
      match last_write ws scope path with
      | Some v => Some v
      | None => if expired (metadata_of s now scope path) now then None else get2 (dirty_overlay s) scope path
      end.
Proof.
  unfold set_parameters_atomically. intros Hr. inv_ok.
  match goal with H : prepare _ _ = _ |- _ => rename H into Hp end. pose proof (prepare_values _ _ _ Hp) as (Hh & Hc & _).
  match goal with H : validate_writes _ _ = Ok ?l |- _ => apply validate_writes_sound in H as Hv; exists l end.
  match goal with H : write_all _ _ _ _ _ _ _ _ = _ |- _ => pose proof (λ scope path, write_all_overlay _ _ _ _ _ _ _ _ _ _ _ scope path H) as Hw end.
  match goal with H : append_audit_event _ _ _ _ _ _ _ _ _ = _ |- _ => apply audit_quiet in H; rename H into Hq end. split_and!.
  - eapply Forall2_impl; [exact Hv|]. intros pv wv (? & ? & Hfind & ? & Hval).
    rewrite (find_head _ _ _ _ Hh) in Hfind. rewrite (validate_value_head _ _ _ _ _ _ Hh) in Hval. done.
  - destruct (Hw String.EmptyString String.EmptyString) as [Hf _]. by rewrite (frame_committed _ _ (quiet_frame _ _ Hq)), (frame_committed _ _ Hf).
  - intros scope path. destruct (Hw scope path) as [_ Hx]. pose proof (quiet_slot _ _ Hq scope path) as Hs. injection Hs as _ _ ->. rewrite Hx.
    by rewrite (prepare_overlay _ _ _ _ _ Hp).
Qed.

(** ** Selections *)

Definition selected (l : list DirtyPathSelection) (scope path : string) : Prop :=
  Exists (λ d, at2 (sl_scope_root d) (sl_path d) scope path) l.
#[export] Instance selected_dec l scope path : Decision (selected l scope path).
Proof. unfold selected. apply _. Defined.

Lemma collect_selected s scope path : selected (collect_dirty_path_selections s) scope path ↔ is_Some (get2 (dirty_overlay s) scope path).
Proof.
  unfold selected, collect_dirty_path_selections. rewrite (merge_sort_Permutation selection_le), <-elem_pairs2, Exists_exists. split.
  - intros (d & ([a b] & -> & Hp)%list_elem_of_fmap & [<- <-]). done.
  - intros Hp. eexists. split; [by apply list_elem_of_fmap_2|]. done.
Qed.

Lemma no_selection s : collect_dirty_path_selections s = [] ↔ ∀ scope path, get2 (dirty_overlay s) scope path = None.
Proof.
  split.
  - intros Hc scope path. apply eq_None_not_Some. rewrite <-collect_selected, Hc. by intros ?%Exists_nil.
  - intros Hn. destruct (collect_dirty_path_selections s) as [|d l] eqn:Ec; [done|].
    assert (Hd : selected (collect_dirty_path_selections s) (sl_scope_root d) (sl_path d)) by (rewrite Ec; by left).
    apply collect_selected in Hd as [v Hv]. by rewrite Hn in Hv.
Qed.

(** ** Rollback *)

Lemma rollback_entry_effect s d now actor reason s' done scope path :
  rollback_entry s d now actor reason = Ok (s', done) →
  frame s s' ∧
  get2 (dirty_overlay s') scope path =
    if decide (at2 (sl_scope_root d) (sl_path d) scope path) then None else get2 (dirty_overlay s) scope path.
Proof.
  unfold rollback_entry. destruct (get2 (dirty_overlay s) (sl_scope_root d) (sl_path d)) as [old|] eqn:Eo; intros Hr; inv_ok.
  - assert (Hq : quiet (clear_dirty_entry s (sl_scope_root d) (sl_path d) (sl_generation d)) s') by quiet_tac.
    split; [etrans; [|apply (quiet_frame _ _ Hq)]; done|].
    pose proof (quiet_slot _ _ Hq scope path) as Hs. rewrite clear_slot in Hs. case_decide; by injection Hs.
  - split; [done|]. case_decide as Ha; [|done]. by destruct Ha as [<- <-].
Qed.

Lemma rollback_entries_effect l s now actor reason s' done scope path :
  rollback_entries s l now actor reason = Ok (s', done) →
  frame s s' ∧ get2 (dirty_overlay s') scope path = if decide (selected l scope path) then None else get2 (dirty_overlay s) scope path.
Proof.
  revert s s' done. induction l as [|d l IH]; intros s s' done; cbn [rollback_entries]; intros Hr; inv_ok.
  - split; [done|]. by rewrite decide_False by (by intros ?%Exists_nil).
  - match goal with H : rollback_entry _ _ _ _ _ = _ |- _ => apply (rollback_entry_effect _ _ _ _ _ _ _ scope path) in H as [Hf1 He1] end.
    match goal with H : rollback_entries _ _ _ _ _ = _ |- _ => apply IH in H as [Hf2 He2] end. split; [by etrans|].
    rewrite He2, He1. unfold selected. rewrite (decide_ext _ _ _ _ (Exists_cons _ d l)). by repeat case_decide; naive_solver.
Qed.

Lemma record_rollback_quiet s l now actor reason s' id : record_rollback s l now actor reason = Ok (s', id) → quiet s s'.
Proof. unfold record_rollback. destruct l; intros Hr; inv_ok; [done|]. quiet_tac. Qed.

Lemma rollback_is_selection version s mode paths actor reason now r :
  rollback_dirty version s mode paths actor reason now = Ok r →
  ∃ s1 l, prepare s now = Ok s1 ∧ rollback_selections s1 mode paths = Ok l ∧ committed_overlay (rb_snapshot r) = committed_overlay s ∧
    rb_remaining r = sl_canonical <$> collect_dirty_path_selections (rb_snapshot r) ∧
    ∀ scope path, get2 (dirty_overlay (rb_snapshot r)) scope path =
      if decide (selected l scope path) then None else get2 (dirty_overlay s1) scope path.
Proof.
  unfold rollback_dirty. intros Hr. inv_ok. do 2 eexists. split_and!; [done|done| |done|].
  all: match goal with H : record_rollback _ _ _ _ _ = _ |- _ => apply record_rollback_quiet in H; rename H into Hq end.
  all: match goal with H : rollback_entries _ _ _ _ _ = _ |- _ => pose proof (λ scope path, rollback_entries_effect _ _ _ _ _ _ _ scope path H) as He end.
  - destruct (He String.EmptyString String.EmptyString) as [Hf _]. cbn. rewrite (frame_committed _ _ (quiet_frame _ _ Hq)), (frame_committed _ _ Hf).
    by eapply prepare_values.
  - intros scope path. cbn. pose proof (quiet_slot _ _ Hq scope path) as Hs. injection Hs as _ _ ->. apply He.
Qed.

(** A full rollback leaves no dirty path: every parameter has its committed value,
    and the committed values are the ones before. *)
Theorem rollback_restores version s paths actor reason now r :
  rollback_dirty version s All paths actor reason now = Ok r →
  committed_overlay (rb_snapshot r) = committed_overlay s ∧ rb_remaining r = [] ∧
  ∀ scope path baseline,
    effective_parameter_value (rb_snapshot r) scope path baseline = committed_parameter_value s scope path baseline.
Proof.
  intros (s1 & l & Hp & Hl & Hc & Hrem & Ho)%rollback_is_selection. cbn in Hl. injection Hl as <-.
  assert (Hn : ∀ scope path, get2 (dirty_overlay (rb_snapshot r)) scope path = None).
  { intros scope path. rewrite Ho. case_decide as Hs; [done|]. rewrite collect_selected in Hs. by apply eq_None_not_Some. }
  split_and!; [done|by rewrite Hrem, (proj2 (no_selection _) Hn)|].
  intros scope path baseline. unfold effective_parameter_value. by rewrite Hn, Hc.
Qed.

(** ** Commit *)

(** The committed entry a value leaves: none when it is the baseline. *)
Definition settle (v baseline : Value) : option Value := if value_eqb v baseline then None else Some v.

Lemma commit_entry_quiet s d now actor reason s' changes :
  commit_entry s d now actor reason = Ok (s', changes) →
  ∃ p, find_parameter_in_scope s (sl_scope_root d) (sl_path d) = Ok p ∧
    match get2 (dirty_overlay s) (sl_scope_root d) (sl_path d) with
    | Some v => quiet (clear_dirty_entry (commit_value s (sl_scope_root d) (sl_path d) p v) (sl_scope_root d) (sl_path d) (sl_generation d)) s'
    | None => s' = s
    end.
Proof.
  unfold commit_entry. intros Hr. apply bind_Ok in Hr as (p & Hp & Hr). exists p. split; [done|].
  destruct (get2 (dirty_overlay s) (sl_scope_root d) (sl_path d)) as [v|]; [|by inv_ok].
  destruct (emit_runtime_event _ _ _ _ _ _ _ _) as [id s1] eqn:Ee. apply emit_quiet in Ee. destruct (value_eqb _ v) in Hr; by inv_ok.
Qed.

Lemma commit_entry_head s d now actor reason s' changes :
  commit_entry s d now actor reason = Ok (s', changes) → rs_head s' = rs_head s.
Proof.
  intros (p & _ & Hq)%commit_entry_quiet. destruct (get2 _ _ _); [|by subst]. by rewrite (frame_head _ _ (quiet_frame _ _ Hq)).
Qed.

Lemma commit_entry_effect s d now actor reason s' changes scope path p :
  commit_entry s d now actor reason = Ok (s', changes) → find_parameter_in_scope s scope path = Ok p →
  let here := at2 (sl_scope_root d) (sl_path d) scope path in
  get2 (dirty_overlay s') scope path = (if decide here then None else get2 (dirty_overlay s) scope path) ∧
  get2 (committed_overlay s') scope path =
    match get2 (dirty_overlay s) scope path with
    | Some v => if decide here then settle v (rp_value p) else get2 (committed_overlay s) scope path
    | None => get2 (committed_overlay s) scope path
    end.
Proof.
  intros (pd & Hpd & Ee)%commit_entry_quiet Hfind here.
  destruct (get2 (dirty_overlay s) (sl_scope_root d) (sl_path d)) as [v|] eqn:Eo.
  - rewrite (frame_committed _ _ (quiet_frame _ _ Ee)).
    pose proof (quiet_slot _ _ Ee scope path) as Hs. rewrite clear_slot in Hs. split; [unfold here; case_decide; by injection Hs|].
    cbn [committed_overlay clear_dirty_entry set_dirty commit_value set_committed]. subst here. unfold settle.
    destruct (decide (at2 (sl_scope_root d) (sl_path d) scope path)) as [[<- <-]|Ha].
    + rewrite Eo. assert (pd = p) as -> by congruence. destruct (value_eqb v (rp_value p)); rewrite ?get2_del2, ?get2_put2; by rewrite decide_True.
    + transitivity (get2 (committed_overlay s) scope path); [|by destruct (get2 (dirty_overlay s) scope path)].
      destruct (value_eqb v (rp_value pd)); rewrite ?get2_del2, ?get2_put2; by rewrite decide_False.
  - subst s' here. case_decide as Ha; [destruct Ha as [<- <-]; by rewrite Eo|].
    split; [done|]. by destruct (get2 (dirty_overlay _) scope path).
Qed.

Lemma commit_entries_effect l s now actor reason s' changes :
  commit_entries s l now actor reason = Ok (s', changes) →
  rs_head s' = rs_head s ∧
  ∀ scope path p, find_parameter_in_scope s scope path = Ok p →
  get2 (dirty_overlay s') scope path = (if decide (selected l scope path) then None else get2 (dirty_overlay s) scope path) ∧
  get2 (committed_overlay s') scope path =
    match get2 (dirty_overlay s) scope path with
    | Some v => if decide (selected l scope path) then settle v (rp_value p) else get2 (committed_overlay s) scope path
    | None => get2 (committed_overlay s) scope path
    end.
Proof.
  revert s changes. induction l as [|d l IH]; intros s changes; cbn [commit_entries]; intros Hr; inv_ok.
  - split; [done|]. intros scope path p _. rewrite !decide_False by (by intros ?%Exists_nil). split; [done|]. by case_match.
  - match goal with H : commit_entry _ _ _ _ _ = _ |- _ => rename H into He end.
    match goal with H : commit_entries _ _ _ _ _ = _ |- _ => apply IH in H as [Hh Hrest] end.
    match type of He with _ = Ok (?t, _) => rename t into s1 end.
    pose proof (commit_entry_head _ _ _ _ _ _ _ He) as Hh1. split; [congruence|]. intros scope path p Hfind.
    pose proof (commit_entry_effect _ _ _ _ _ _ _ _ _ _ He Hfind) as (Hd & Hc). rewrite <-(find_head _ _ _ _ Hh1) in Hfind.
    destruct (Hrest _ _ _ Hfind) as [Hd' Hc']. rewrite Hd', Hc', Hd, Hc. unfold selected.
    destruct (get2 (dirty_overlay s) scope path); rewrite !(decide_ext _ _ _ _ (Exists_cons _ d l)).
    all: destruct (decide (at2 (sl_scope_root d) (sl_path d) scope path)) as [Ha|Ha], (decide (Exists _ l)) as [Hl|Hl].
    all: first [rewrite !(decide_True (P := _ ∨ _)) by auto|rewrite !(decide_False (P := _ ∨ _)) by by intros [?|?]].
    all: by destruct (decide _).
Qed.

Definition settled (s : RuntimeSnapshot) : Prop :=
  ∀ scope path p, find_parameter_in_scope s scope path = Ok p → get2 (dirty_overlay s) scope path = None.

Lemma identity_leaves_agree s st l st' :
  settled s → il_committed st = il_working st → identity_leaves s st l = Ok st' → il_committed st' = il_working st'.
Proof.
  intros Hn. revert st. induction l as [|[scope path] l IH]; intros st Hst; cbn [identity_leaves]; intros Hr; [by inv_ok|].
  apply bind_Ok in Hr as (st1 & Hst1 & Hr). eapply IH; [|exact Hr]. unfold identity_leaf in Hst1. apply bind_Ok in Hst1 as (p & Hp & Hst1).
  unfold effective_parameter_value in Hst1. rewrite (Hn _ _ _ Hp) in Hst1.
  change (default (rp_value p) (get2 (committed_overlay s) scope path)) with (committed_parameter_value s scope path (rp_value p)) in Hst1.
  apply bind_Ok in Hst1 as (h1 & E1 & (h2 & E2 & Hst1)%bind_Ok). rewrite E1 in E2. injection E2 as <-. injection Hst1 as <-. cbn. by rewrite Hst.
Qed.

Lemma identities_agree s i : settled s → compute_configuration_identity s = Ok i → id_committed i = id_working i.
Proof.
  unfold compute_configuration_identity. intros Hn Hr. inv_ok. cbn. f_equal. by eapply identity_leaves_agree; [..|eassumption].
Qed.

Lemma identity_leaves_quiet s s' st l : quiet s s' → identity_leaves s' st l = identity_leaves s st l.
Proof.
  intros [Hf Hs _]. revert st. induction l as [|[scope path] l IH]; intros st; [done|]. cbn [identity_leaves].
  enough (identity_leaf s' st (scope, path) = identity_leaf s st (scope, path)) as -> by (destruct (identity_leaf s st _); cbn; auto).
  unfold identity_leaf, committed_parameter_value, effective_parameter_value. rewrite (find_head _ _ _ _ (frame_head _ _ Hf)).
  specialize (Hs scope path). injection Hs as _ _ ->. by rewrite (frame_committed _ _ Hf).
Qed.

Lemma identity_quiet s s' : quiet s s' → compute_configuration_identity s' = compute_configuration_identity s.
Proof.
  intros Hq. unfold compute_configuration_identity. rewrite (identity_leaves_quiet _ _ _ _ Hq). unfold all_parameter_paths.
  by rewrite (frame_head _ _ (quiet_frame _ _ Hq)).
Qed.

(** What is hashed for the committed value of a parameter. *)
Definition committed_leaf (s : RuntimeSnapshot) (sp : string * string) : option (list ascii) :=
  match find_parameter_in_scope s sp.1 sp.2 with
  | Ok p => leaf_json (mkLeaf sp.1 sp.2 (rp_type p) (rp_unit p) (rp_lifecycle p) (committed_parameter_value s sp.1 sp.2 (rp_value p)))
  | Err _ => None
  end.

Definition leaf_of (s : RuntimeSnapshot) (sp : string * string) : string * string :=
  (canonical_runtime_path sp.1 sp.2, rt_sha256_hex (default [] (committed_leaf s sp))).

Lemma identity_leaves_committed s st l st' :
  identity_leaves s st l = Ok st' →
  il_committed st' = il_committed st ++ (leaf_of s <$> l) ∧ Forall (λ sp, is_Some (committed_leaf s sp)) l.
Proof.
  revert st. induction l as [|[scope path] l IH]; intros st; cbn [identity_leaves]; intros Hr; [inv_ok; by rewrite app_nil_r|].
  apply bind_Ok in Hr as (st1 & Hst & Hr). apply IH in Hr as [-> Hl]. unfold identity_leaf in Hst. apply bind_Ok in Hst as (p & Hp & Hst).
  apply bind_Ok in Hst as (h1 & E1 & (h2 & _ & Hst)%bind_Ok). injection Hst as <-. cbn [il_committed].
  unfold identity_leaf_hash in E1. apply bind_Ok in E1 as (bytes & Eb & E1). injection E1 as <-.
  assert (Hc : committed_leaf s (scope, path) = Some bytes).
  { unfold committed_leaf. cbn. rewrite Hp. by destruct (leaf_json _); [injection Eb as ->|]. }
  split; [|constructor; [by rewrite Hc|done]]. rewrite <-app_assoc. cbn. unfold leaf_of at 2. by rewrite Hc.
Qed.

Lemma identity_committed s i :
  compute_configuration_identity s = Ok i →
  id_committed i = root_hash_from_leaves (leaf_of s <$> all_parameter_paths s) ∧
  Forall (λ sp, is_Some (committed_leaf s sp)) (all_parameter_paths s).
Proof.
  unfold compute_configuration_identity. intros Hr. apply bind_Ok in Hr as (st & Hst & Hr). apply identity_leaves_committed in Hst as [Hc Hl].
  inv_ok. cbn. by rewrite Hc.
Qed.

(** The identity of the committed values depends on the model and on those values alone. *)
Lemma identity_committed_values s s' i i' :
  rs_head s' = rs_head s → committed_overlay s' = committed_overlay s →
  compute_configuration_identity s = Ok i → compute_configuration_identity s' = Ok i' → id_committed i' = id_committed i.
Proof.
  intros Hh Hc [-> _]%identity_committed [-> _]%identity_committed. unfold all_parameter_paths. rewrite Hh. f_equal.
  apply list_fmap_ext. intros _ sp _. unfold leaf_of, committed_leaf, committed_parameter_value. by rewrite (find_head _ _ _ _ Hh), Hc.
Qed.

(** The change that a commit records for a path with an override: from the
    committed value to the one of the override, when they differ, each with the
    hash of its leaf. *)
Definition change_at (s : RuntimeSnapshot) (scope path : string) (c : RuntimeDeltaPathChange) : Prop :=
  ∃ p v before_hash after_hash,
    let before := committed_parameter_value s scope path (rp_value p) in
    find_parameter_in_scope s scope path = Ok p ∧ get2 (dirty_overlay s) scope path = Some v ∧ value_eqb before v = false ∧
    identity_leaf_hash scope path p before = Ok before_hash ∧ identity_leaf_hash scope path p v = Ok after_hash ∧
    c = mkDelta (canonical_runtime_path scope path) DeltaSet (Some before_hash) (Some after_hash) (Some before) (Some v).

Definition canonical_selection (d : DirtyPathSelection) : Prop := sl_canonical d = canonical_runtime_path (sl_scope_root d) (sl_path d).

Lemma collect_canonical s : Forall canonical_selection (collect_dirty_path_selections s).
Proof.
  unfold collect_dirty_path_selections. rewrite (merge_sort_Permutation selection_le), Forall_forall.
  by intros d (sp & -> & _)%list_elem_of_fmap.
Qed.

Lemma commit_entry_changes s d now actor reason s' changes c :
  canonical_selection d → commit_entry s d now actor reason = Ok (s', changes) →
  c ∈ changes ↔ change_at s (sl_scope_root d) (sl_path d) c.
Proof.
  unfold commit_entry, change_at. intros Hd Hr. apply bind_Ok in Hr as (p & Hp & Hr). rewrite Hp.
  destruct (get2 (dirty_overlay s) (sl_scope_root d) (sl_path d)) as [v|]; [|inv_ok; split; [by intros ?%not_elem_of_nil|by intros (? & ? & ? & ? & ? & ? & _)]].
  destruct (emit_runtime_event _ _ _ _ _ _ _ _) as [id s1]. destruct (value_eqb _ v) eqn:Ev in Hr.
  - inv_ok. split; [by intros ?%not_elem_of_nil|]. intros (p' & v' & ? & ? & Hp' & Hv & Hn & _). injection Hp' as <-. injection Hv as <-. congruence.
  - apply bind_Ok in Hr as (h1 & E1 & (h2 & E2 & Hr)%bind_Ok). injection Hr as _ <-. rewrite list_elem_of_singleton, Hd. split.
    + intros ->. by exists p, v, h1, h2.
    + intros (p' & v' & h1' & h2' & Hp' & Hv & _ & E1' & E2' & ->). injection Hp' as <-. injection Hv as <-. congruence.
Qed.

(** Committing one path leaves the change of every other as it was. *)
Lemma change_at_later s d now actor reason s' changes scope path c :
  commit_entry s d now actor reason = Ok (s', changes) →
  change_at s' scope path c ↔ change_at s scope path c ∧ ~ at2 (sl_scope_root d) (sl_path d) scope path.
Proof.
  intros Hr. pose proof (commit_entry_head _ _ _ _ _ _ _ Hr) as Hh. unfold change_at. rewrite (find_head _ _ _ _ Hh).
  destruct (find_parameter_in_scope s scope path) as [p|] eqn:Hp; [|split; [intros (? & ? & ? & ? & ? & _)|intros ((? & ? & ? & ? & ? & _) & _)]; done].
  destruct (commit_entry_effect _ _ _ _ _ _ _ _ _ _ Hr Hp) as [-> Hc]. unfold committed_parameter_value. rewrite Hc.
  destruct (decide (at2 _ _ _ _)) as [Ha|Ha].
  - split; [by intros (? & ? & ? & ? & ? & ? & _)|by intros [_ ?]].
  - assert (Hx : match get2 (dirty_overlay s) scope path with Some _ => get2 (committed_overlay s) scope path | None => get2 (committed_overlay s) scope path end
      = get2 (committed_overlay s) scope path) by (by destruct (get2 (dirty_overlay s) scope path)).
    rewrite Hx. split; [done|by intros [? _]].
Qed.

Lemma commit_entries_changes l s now actor reason s' changes c :
  Forall canonical_selection l → commit_entries s l now actor reason = Ok (s', changes) →
  c ∈ changes ↔ ∃ scope path, selected l scope path ∧ change_at s scope path c.
Proof.
  intros Hl. revert s changes. induction Hl as [|d l Hd _ IH]; intros s changes; cbn [commit_entries]; intros Hr.
  - inv_ok. split; [by intros ?%not_elem_of_nil|by intros (? & ? & ?%Exists_nil & _)].
  - apply bind_Ok in Hr as ([s1 c1] & He & Hr). apply bind_Ok in Hr as ([s2 c2] & Hrest & Hr). injection Hr as -> <-.
    rewrite elem_of_app, (commit_entry_changes _ _ _ _ _ _ _ _ Hd He), (IH _ _ Hrest). split.
    + intros [Hc|(scope & path & Hs & [Hc _]%(change_at_later _ _ _ _ _ _ _ _ _ _ He))].
      * exists (sl_scope_root d), (sl_path d). split; [by left|done].
      * exists scope, path. split; [by right|done].
    + intros (scope & path & Hs & Hc). destruct (decide (at2 (sl_scope_root d) (sl_path d) scope path)) as [[<- <-]|Ha]; [by left|right].
      exists scope, path. apply Exists_cons in Hs as [?|?]; [done|]. split; [done|]. by apply (change_at_later _ _ _ _ _ _ _ _ _ _ He).
Qed.

#[export] Instance change_le_transitive : Transitive change_le.
Proof. unfold change_le. intros a b c. apply (transitivity (R := String.le)). Qed.

#[export] Instance change_le_total : Total change_le.
Proof. intros a b. apply (total String.le). Qed.

(** The same for all the paths that have an override once the resets are done. *)
Lemma commit_changes s now s1 actor reason s' changes c :
  prepare s now = Ok s1 → commit_entries s1 (collect_dirty_path_selections s1) now actor reason = Ok (s', changes) →
  c ∈ changes ↔ ∃ scope path, expired (metadata_of s now scope path) now = false ∧ change_at s scope path c.
Proof.
  intros Hp Hr. rewrite (commit_entries_changes _ _ _ _ _ _ _ _ (collect_canonical _) Hr).
  pose proof (prepare_values _ _ _ Hp) as (Hh & Hc & _). do 2 (apply exist_proper; intros ?).
  rewrite collect_selected. unfold change_at, committed_parameter_value. rewrite (find_head _ _ _ _ Hh), Hc, (prepare_overlay _ _ _ _ _ Hp).
  destruct (expired _ _); [split; [by intros [[] _]|by intros [? _]]|]. split; [by intros [_ ?]|].
  intros [_ Hx]. split; [|done]. destruct Hx as (? & ? & ? & ? & _ & -> & _). done.
Qed.

Lemma seal_commit_quiet s base changes actor reason now now' r :
  seal_commit s base changes actor reason now now' = Ok r →
  quiet s (cm_snapshot r) ∧ mf_base (cm_manifest r) = base ∧ mf_changed_paths (cm_manifest r) = merge_sort change_le changes ∧
  ∃ i, compute_configuration_identity (cm_snapshot r) = Ok i ∧ id_committed i = mf_target (cm_manifest r) ∧ id_committed i = id_working i.
Proof.
  unfold seal_commit, emit_commit_event. intros Hr. inv_ok. repeat match goal with u : unit |- _ => destruct u end. cbn [cm_snapshot cm_manifest].
  destruct (emit_runtime_event _ _ _ _ _ _ _ _) as [id s1] eqn:Ee in *. cbn [snd] in *.
  assert (Hq : quiet s r0) by quiet_tac. split_and!; [done..|]. eexists. split; [rewrite (identity_quiet _ _ Hq), <-(identity_quiet _ _ (quiet_bump s)); eassumption|].
  split; [done|]. match goal with H : bail_if (negb (bool_decide (_ = _))) _ = _ |- _ => by apply bail_if_Ok, negb_false_iff, bool_decide_eq_true in H end.
Qed.

Lemma commit_settles s now actor reason s' changes :
  commit_entries s (collect_dirty_path_selections s) now actor reason = Ok (s', changes) →
  settled s' ∧ rs_head s' = rs_head s ∧
  ∀ scope path p, find_parameter_in_scope s scope path = Ok p →
    get2 (committed_overlay s') scope path =
      match get2 (dirty_overlay s) scope path with Some v => settle v (rp_value p) | None => get2 (committed_overlay s) scope path end.
Proof.
  intros [Hh He]%commit_entries_effect. split_and!; [|done|].
  - intros scope path p Hp. rewrite (find_head _ _ _ _ Hh) in Hp. destruct (He _ _ _ Hp) as [-> _]. case_decide as Hs; [done|].
    rewrite collect_selected in Hs. by apply eq_None_not_Some.
  - intros scope path p Hp. destruct (He _ _ _ Hp) as [_ ->]. destruct (get2 (dirty_overlay s) scope path) as [v|] eqn:Ev; [|done].
    apply decide_True. by apply collect_selected.
Qed.

(** C20: A commit that succeeds: no parameter is dirty any more; each has as its
    committed value the one that was in effect once the resets had run (the
    baseline when the two compare equal); the manifest leads from the identity
    of the old committed configuration (the one computed after the resets, which
    leave the committed values alone, and the one of the snapshot given where it
    has one), which is the expected one where the caller names one, to the
    identity of the new one; and its changed paths are, in order, exactly the
    paths with an override that the resets left and that differs from the
    committed value, each with the two values and the hashes of their leaves. *)
Theorem commit_publishes version s actor reason expected hint now now' r :
  commit_configuration version s actor reason expected hint now now' = Ok r →
  settled (cm_snapshot r) ∧
  (∀ scope path p, find_parameter_in_scope s scope path = Ok p →
    committed_parameter_value (cm_snapshot r) scope path (rp_value p) =
      if expired (metadata_of s now scope path) now then committed_parameter_value s scope path (rp_value p)
      else match get2 (dirty_overlay s) scope path with
           | Some v => if value_eqb v (rp_value p) then rp_value p else v
           | None => committed_parameter_value s scope path (rp_value p)
           end) ∧
  (∃ s0 i, prepare s now = Ok s0 ∧ committed_overlay s0 = committed_overlay s ∧
    compute_configuration_identity s0 = Ok i ∧ mf_base (cm_manifest r) = id_committed i) ∧
  (∀ i, compute_configuration_identity s = Ok i → mf_base (cm_manifest r) = id_committed i) ∧
  (∀ e, expected = Some e → mf_base (cm_manifest r) = e) ∧
  (∀ c, c ∈ mf_changed_paths (cm_manifest r) ↔
    ∃ scope path, expired (metadata_of s now scope path) now = false ∧ change_at s scope path c) ∧
  StronglySorted change_le (mf_changed_paths (cm_manifest r)) ∧
  ∃ i, compute_configuration_identity (cm_snapshot r) = Ok i ∧ id_committed i = mf_target (cm_manifest r) ∧ id_committed i = id_working i.
Proof.
  unfold commit_configuration. intros Hr. inv_ok.
  match goal with H : prepare _ _ = _ |- _ => rename H into Hp end. pose proof (prepare_values _ _ _ Hp) as (Hh & Hc & _).
  match goal with H : commit_entries _ _ _ _ _ = _ |- _ => rename H into Hce; pose proof Hce as (Hs & Hh' & Hv)%commit_settles end.
  match goal with H : seal_commit _ _ _ _ _ _ _ = _ |- _ => apply seal_commit_quiet in H as (Hq & Hbase & Hch & Hi) end.
  match goal with H : compute_configuration_identity _ = Ok ?j |- _ => rename H into Hi0, j into i0 end.
  split; [|split; [|split; [|split; [|split; [|split; [|split; [|done]]]]]]].
  - intros scope path p Hf. pose proof (quiet_slot _ _ Hq scope path) as Hx. injection Hx as _ _ ->. apply (Hs _ _ p).
    by rewrite <-(find_head _ _ _ _ (frame_head _ _ (quiet_frame _ _ Hq))).
  - intros scope path p Hf. rewrite <-(find_head _ _ _ _ Hh) in Hf. unfold committed_parameter_value, settle in *.
    rewrite (frame_committed _ _ (quiet_frame _ _ Hq)), (Hv _ _ _ Hf), (prepare_overlay _ _ _ _ _ Hp), Hc.
    destruct (expired _ _); [done|]. destruct (get2 (dirty_overlay s) scope path) as [v|]; [|done]. by destruct (value_eqb v _).
  - by exists x1, i0.
  - intros i Hi1. rewrite Hbase. by apply (identity_committed_values s x1).
  - intros e ->. rewrite Hbase. match goal with H : check_expected _ _ _ _ = _ |- _ => rename H into Hx end. cbn in Hx. inv_ok.
    repeat match goal with u : unit |- _ => destruct u end. by apply bail_if_Ok, negb_false_iff, bool_decide_eq_true in Hx.
  - intros c. rewrite Hch, (merge_sort_Permutation change_le). by eapply commit_changes.
  - rewrite Hch. apply StronglySorted_merge_sort; apply _.
Qed.

(** The check that ends a commit never fails: once the dirty values are committed
    the identities of the committed and of the working configuration agree. *)
Theorem commit_never_diverges s now actor reason s' changes i :
  commit_entries s (collect_dirty_path_selections s) now actor reason = Ok (s', changes) →
  compute_configuration_identity (bump_journal s') = Ok i → id_committed i = id_working i.
Proof.
  intros (Hs & _)%commit_settles Hi. rewrite (identity_quiet _ _ (quiet_bump s')) in Hi. by eapply identities_agree.
Qed.
End Writes.
