(* ===== verification/RuntimeValid.v ===== *)
(** * Valid snapshots stay valid

    [validate_runtime_snapshot] as an invariant: what it accepts, and that writes,
    resets, escalations, events and log records keep it as long as the sequence
    numbers do not reach the end of their range. *)
From S2P Require Import Prelude Text Schema Resolver ResolverProps Ir IrProps Override Runtime RuntimeOps RuntimeCommit RuntimeProps RuntimeCommitProps.
Local Open Scope N_scope.

(** ** Lexicographic comparisons *)

Record comparison_ok {A} (c : A → A → comparison) : Prop := {
  cmp_eq_l : ∀ x y z, c x y = Eq → c x z = c y z;
  cmp_eq_r : ∀ x y z, c x y = Eq → c z x = c z y;
  cmp_opp : ∀ x y, c x y = CompOpp (c y x);
  cmp_trans : ∀ x y z, c x y = Lt → c y z = Lt → c x z = Lt;
}.

Lemma lex_ok {A} (c1 c2 : A → A → comparison) :
  comparison_ok c1 → comparison_ok c2 → comparison_ok (λ x y, then_compare (c1 x y) (c2 x y)).
Proof.
  intros H1 H2. split.
  - intros x y z [E1 E2]%then_compare_Eq. by rewrite (cmp_eq_l _ H1 _ _ _ E1), (cmp_eq_l _ H2 _ _ _ E2).
  - intros x y z [E1 E2]%then_compare_Eq. by rewrite (cmp_eq_r _ H1 _ _ _ E1), (cmp_eq_r _ H2 _ _ _ E2).
  - intros x y. rewrite then_compare_opp, (cmp_opp _ H1 x y), (cmp_opp _ H2 x y). done.
  - intros x y z. destruct (c1 x y) eqn:Exy; cbn; [|destruct (c1 y z) eqn:Eyz; cbn|done].
    + rewrite (cmp_eq_l _ H1 _ _ z Exy). destruct (c1 y z); cbn; [apply (cmp_trans _ H2)|done..].
    + rewrite <-(cmp_eq_r _ H1 _ _ x Eyz), Exy. done.
    + rewrite (cmp_trans _ H1 _ _ _ Exy Eyz). done.
    + done.
Qed.

Lemma key_N_ok {A} (f : A → N) : comparison_ok (λ x y, N.compare (f x) (f y)).
Proof.
  split; try (intros x y z ->%N.compare_eq; done); [intros; apply N.compare_antisym|].
  intros x y z. rewrite !N.compare_lt_iff. lia.
Qed.

Lemma key_string_ok {A} (f : A → string) : comparison_ok (λ x y, String.compare (f x) (f y)).
Proof.
  split; try (intros x y z ->%String.compare_eq_iff; done); [intros; apply String.compare_antisym|].
  intros x y z Hxy Hyz. assert (Hle : String.le (f x) (f z)).
  { trans (f y); unfold String.le, String.leb; [by rewrite Hxy|by rewrite Hyz]. }
  unfold String.le, String.leb in Hle. destruct (String.compare (f x) (f z)) eqn:Exz; [|done|done].
  apply String.compare_eq_iff in Exz. rewrite String.compare_antisym, <-Exz, Hxy in Hyz. done.
Qed.

Lemma due_compare_ok : comparison_ok due_compare.
Proof. unfold due_compare. repeat apply lex_ok; try apply key_N_ok; apply key_string_ok. Qed.

Definition due_le (a b : AutoResetScheduleEntry) : Prop := due_compare b a ≠ Lt.

#[export] Instance due_le_trans : Transitive due_le.
Proof.
  intros a b c. unfold due_le. pose proof due_compare_ok as K. intros Hab Hbc Hca. destruct (due_compare b a) eqn:Eba; [|done|].
  - by rewrite (cmp_eq_r _ K _ _ c Eba) in Hbc.
  - rewrite (cmp_opp _ K) in Eba. destruct (due_compare a b) eqn:Eab; try done. by rewrite (cmp_trans _ K _ _ _ Hca Eab) in Hbc.
Qed.

(** ** Overlays *)

Definition known (s : RuntimeSnapshot) (scope : string) : Prop := is_Some (resolved_output s !! scope).

(** Every scope of the overlay is known and every entry meets [P]. *)
Record overlay_ok {A} (K : string → Prop) (P : string → string → A → Prop) (o : overlay A) : Prop := mkOverlayOk {
  ok_scopes : ∀ scope, is_Some (o !! scope) → K scope;
  ok_entries : ∀ scope path v, get2 o scope path = Some v → P scope path v;
}.

Lemma overlay_ok_impl {A} K P (K' : string → Prop) (P' : string → string → A → Prop) o :
  (∀ scope, K scope → K' scope) → (∀ scope path v, get2 o scope path = Some v → P scope path v → P' scope path v) →
  overlay_ok K P o → overlay_ok K' P' o.
Proof. intros HK HP [H1 H2]. split; eauto. Qed.

Lemma overlay_ok_del {A} K (P : string → string → A → Prop) o scope path : overlay_ok K P o → overlay_ok K P (del2 scope path o).
Proof.
  intros [H1 H2]. split.
  - intros scope' Hs. apply H1. unfold del2 in Hs. destruct (o !! scope) as [entries|] eqn:Eo; [|done].
    case_decide; [by apply lookup_delete_is_Some in Hs as [_ Hs]|].
    apply lookup_insert_is_Some in Hs as [<-|[_ Hs]]; [by rewrite Eo|done].
  - intros scope' path' v. rewrite get2_del2. case_decide; [done|auto].
Qed.

Lemma overlay_ok_put {A} K (P : string → string → A → Prop) o scope path v :
  K scope → P scope path v → overlay_ok K P o → overlay_ok K P (put2 scope path v o).
Proof.
  intros Hk Hp [H1 H2]. split.
  - intros scope' Hs. unfold put2 in Hs. apply lookup_insert_is_Some in Hs as [<-|[_ Hs]]; auto.
  - intros scope' path' v'. rewrite get2_put2. case_decide as Ha; [|auto]. destruct Ha as [<- <-]. by intros [= <-].
Qed.

(** The loops of the validation over an overlay. *)
Lemma validate_overlay_spec {E A} (known' : string → bool) (e : string → E) (f : string → string * A → result E unit) (o : overlay A) :
  for_each (λ se, _ ← bail_if (negb (known' se.1)) (e se.1); for_each (f se.1) (bt_list se.2)) (bt_list o) = Ok tt ↔
  overlay_ok (λ scope, known' scope = true) (λ scope path v, f scope (path, v) = Ok tt) o.
Proof.
  rewrite for_each_Ok. split.
  - intros Ho. split.
    + intros scope [entries Hs]. specialize (Ho (scope, entries) ltac:(by apply elem_bt_list)). cbn in Ho. by destruct (known' scope).
    + intros scope path v Hv. unfold get2 in Hv. destruct (o !! scope) as [entries|] eqn:Es; [|done]. cbn in Hv.
      specialize (Ho (scope, entries) ltac:(by apply elem_bt_list)). cbn in Ho. destruct (known' scope); [|done].
      change (for_each (f scope) (bt_list entries) = Ok tt) in Ho. rewrite for_each_Ok in Ho. apply Ho. by apply elem_bt_list.
  - intros [H1 H2] [scope entries] Hs%elem_bt_list. cbn. rewrite H1 by eauto. cbn. change (for_each (f scope) (bt_list entries) = Ok tt).
    apply for_each_Ok. intros [path v] Hv%elem_bt_list. apply H2. unfold get2. by rewrite Hs.
Qed.

(** ** The schedule *)

Definition is_Ok {E A} (m : result E A) : Prop := match m with Ok _ => True | Err _ => False end.

Definition entry_ok (s : RuntimeSnapshot) (e : AutoResetScheduleEntry) : Prop :=
  se_generation e ≠ 0 ∧ is_Ok (find_parameter_in_scope s (se_scope_root e) (se_path e)).

Definition schedule_ok (s : RuntimeSnapshot) (l : list AutoResetScheduleEntry) : Prop := Forall (entry_ok s) l ∧ StronglySorted due_le l.

Lemma validate_schedule_spec s previous l :
  validate_schedule s previous l = Ok tt ↔
  Forall (entry_ok s) l ∧ Sorted due_le l ∧ match previous with Some p => HdRel due_le p l | None => True end.
Proof.
  revert previous. induction l as [|e l IH]; intros previous; cbn [validate_schedule].
  - split; [|done]. intros _. split_and!; [constructor..|]. destruct previous; constructor.
  - rewrite Forall_cons. unfold entry_ok at 1. destruct (N.eqb_spec (se_generation e) 0) as [Hg|Hg]; cbn; [naive_solver|].
    destruct (find_parameter_in_scope s (se_scope_root e) (se_path e)) as [p|d]; cbn; [|naive_solver].
    assert (Hp : (match previous with Some p => bail_if (bool_decide (due_compare e p = Lt)) (mkDiagnostic E_RUNTIME_DIRTY_INVALID "runtime_snapshot.auto_reset_scheduler.pending") | None => Ok tt end = Ok tt
                  ↔ match previous with Some p => due_le p e | None => True end)).
    { destruct previous as [p'|]; [|done]. rewrite bail_if_Ok, bool_decide_eq_false. done. }
    destruct (match previous with Some _ => _ | None => _ end) as [[]|d]; cbn.
    + rewrite IH. destruct Hp as [Hp _]. specialize (Hp eq_refl). split.
      * intros (? & ? & ?). split_and!; [done|done|done|by constructor|]. destruct previous; [by constructor|done].
      * intros ((_ & ?) & [? ?]%Sorted_inv & _). done.
    + split; [done|]. intros (_ & _ & Hh). destruct previous as [p'|]; [|by destruct Hp as [_ Hp]; discriminate Hp].
      apply HdRel_inv in Hh. by apply Hp in Hh.
Qed.

Lemma schedule_spec s : validate_auto_reset_scheduler s = Ok tt ↔ schedule_ok s (pending s).
Proof.
  unfold validate_auto_reset_scheduler, schedule_ok. rewrite validate_schedule_spec. split.
  - intros (? & ? & _). split; [done|]. apply Sorted_StronglySorted; [exact _|done].
  - intros [? ?]. split_and!; [done|by apply StronglySorted_Sorted|done].
Qed.

Lemma schedule_ok_filter s f l : schedule_ok s l → schedule_ok s (List.filter f l).
Proof.
  intros [H1 H2]. induction H2 as [|e l Hs IH He]; cbn; [split; constructor|]. apply Forall_cons in H1 as [? ?].
  destruct (IH ltac:(done)) as [IH1 IH2]. destruct (f e); [|done]. split; [by constructor|]. constructor; [done|].
  apply Forall_forall. intros x Hx%list_elem_of_In%filter_In. rewrite Forall_forall in He. apply He. apply list_elem_of_In, Hx.
Qed.

Lemma entry_le_due a b : entry_le a b → due_le a b.
Proof.
  unfold entry_le, entry_compare, due_le. rewrite (due_compare_opp b a). by destruct (due_compare a b).
Qed.

Lemma schedule_ok_sort s l : Forall (entry_ok s) l → schedule_ok s (sort_and_dedup_schedule_entries l).
Proof.
  intros Hl. split.
  - apply Forall_forall. intros e. rewrite sort_entries_elem. rewrite Forall_forall in Hl. apply Hl.
  - apply Sorted_StronglySorted; [exact _|]. apply Sorted_dedup_by; [exact _|].
    pose proof (Sorted_merge_sort entry_le l) as Hs. induction Hs as [|x l' Hs IH Hx]; constructor; [done|].
    destruct Hx; constructor. by apply entry_le_due.
Qed.

Lemma schedule_ok_drop s n l : schedule_ok s l → schedule_ok s (drop n l).
Proof.
  intros [H1 H2]. split; [by apply Forall_drop|]. clear H1. revert n. induction H2 as [|e l Hs IH He]; intros [|n]; cbn; [constructor..| |apply IH].
  by constructor.
Qed.

(** ** Sequence numbers *)

Lemma ascending_weaken lo lo' l : lo' <= lo → ascending lo l = true → ascending lo' l = true.
Proof. destruct l as [|x l]; cbn; [done|]. rewrite !andb_true_iff, !N.ltb_lt. intros ? []. split; [lia|done]. Qed.

Lemma ascending_drop lo n l : ascending lo l = true → ascending lo (drop n l) = true.
Proof.
  revert lo n. induction l as [|x l IH]; intros lo [|n]; cbn; try done. rewrite andb_true_iff, N.ltb_lt. intros [Hx Hl].
  apply IH. by eapply ascending_weaken; [|exact Hl]; lia.
Qed.

Lemma ascending_snoc lo l x :
  ascending lo (l ++ [x]) = true ↔ ascending lo l = true ∧ default lo (last l) < x.
Proof.
  revert lo. induction l as [|y l IH]; intros lo; cbn; [rewrite andb_true_r, N.ltb_lt; naive_solver|].
  rewrite !andb_true_iff, IH. destruct l as [|z l]; cbn; [naive_solver|]. destruct (last (z :: l)) eqn:El; [naive_solver|].
  by apply last_None in El.
Qed.

(** ** The event bus *)

Definition bus_ok (b : RuntimeEventBusState) : Prop :=
  eb_buffer_capacity b ≠ 0 ∧ eb_next_sequence b ≠ 0 ∧ ascending 0 (ev_sequence <$> eb_events b) = true ∧
  default 0 (last (ev_sequence <$> eb_events b)) < eb_next_sequence b.

Lemma validate_bus_spec s : validate_event_bus s = Ok tt ↔ bus_ok (event_bus s).
Proof.
  unfold validate_event_bus, bus_ok. rewrite fmap_last.
  destruct (N.eqb_spec (eb_buffer_capacity (event_bus s)) 0); cbn; [naive_solver|].
  destruct (N.eqb_spec (eb_next_sequence (event_bus s)) 0); cbn; [naive_solver|].
  destruct (ascending 0 _); cbn; [|naive_solver]. destruct (last (eb_events _)) as [e|]; cbn; [|naive_solver lia].
  rewrite bail_if_Ok, N.leb_gt. naive_solver.
Qed.

Lemma make_room_drop capacity events dropped : ∃ n, (make_room capacity events dropped).1 = drop n events.
Proof.
  revert dropped. induction events as [|e events IH]; intros dropped; cbn; [by exists 0%nat|].
  destruct (_ <=? _); [|by exists 0%nat]. destruct (IH (saturating_add dropped 1)) as [n ->]. by exists (S n).
Qed.

Lemma last_drop_le n l lo : ascending lo l = true → default lo (last (drop n l)) <= default lo (last l).
Proof.
  revert n lo. induction l as [|x l IH]; intros [|n] lo; cbn [drop]; try done. cbn [ascending]. rewrite andb_true_iff, N.ltb_lt.
  intros [Hx Hl]. specialize (IH n x Hl). rewrite (last_cons x l).
  destruct (last (drop n l)), (last l); cbn in *; lia.
Qed.

(** ** Trimming twice *)

Lemma trim_with_done wide fuel l : (length l <= fuel)%nat → space_len wide (trim_with wide fuel l) = 0%nat.
Proof.
  revert l. induction fuel as [|fuel IH]; intros l Hl; cbn; [by destruct l; [|cbn in Hl; lia]|].
  destruct (space_len wide l) as [|n] eqn:Es; [done|]. apply IH. rewrite length_drop. lia.
Qed.

Lemma trim_with_stop wide fuel l : space_len wide l = 0%nat → trim_with wide fuel l = l.
Proof. destruct fuel; cbn; [done|]. by intros ->. Qed.

Lemma trim_with_suffix wide fuel l : ∃ k, l = k ++ trim_with wide fuel l.
Proof.
  revert l. induction fuel as [|fuel IH]; intros l; cbn; [by exists []|]. destruct (space_len wide l) as [|n]; [by exists []|].
  destruct (IH (drop (S n) l)) as [k Hk]. exists (take (S n) l ++ k). rewrite <-app_assoc, <-Hk. symmetry. apply take_drop.
Qed.

Lemma space_len_prefix wide k l : (∀ w, w ∈ wide → w ≠ []) → k ≠ [] → k `prefix_of` l → space_len wide l = 0%nat → space_len wide k = 0%nat.
Proof.
  intros Hw Hk [k' ->]. destruct k as [|a k]; [done|]. cbn. destruct (ascii_space a); [done|].
  destruct (list_find _ wide) as [[i w]|] eqn:E1; intros Hl.
  - apply list_find_Some in E1 as (E1 & Hp & _). destruct w; [by apply list_elem_of_lookup_2, Hw in E1|done].
  - apply list_find_None in E1. destruct (list_find (λ w, w `prefix_of` a :: k) wide) as [[i w]|] eqn:E2; [|done].
    apply list_find_Some in E2 as (E2 & Hp & _). rewrite Forall_forall in E1. exfalso. eapply E1; [by eapply list_elem_of_lookup_2|].
    etrans; [exact Hp|]. by exists k'.
Qed.

Lemma blank_trim s : blank (trim s) = blank s.
Proof.
  unfold blank. apply bool_decide_ext. split; [|intros ->; done].
  set (y := trim_start_bytes (bytes_of s)). set (z := trim_end_bytes y). change (trim s) with (string_of z).
  intros Hz. destruct (decide (z = [])) as [->|Hne]; [done|]. exfalso. apply Hne.
  assert (Hy : space_len wide_space_bytes y = 0%nat) by (by apply trim_with_done).
  assert (Hzy : z `prefix_of` y).
  { destruct (trim_with_suffix (map reverse wide_space_bytes) (length y) (reverse y)) as [k Hk].
    exists (reverse k). unfold z, trim_end_bytes. by rewrite <-reverse_app, <-Hk, reverse_involutive. }
  assert (Hz0 : space_len wide_space_bytes z = 0%nat).
  { eapply space_len_prefix; [|exact Hne|exact Hzy|exact Hy]. apply Forall_forall, (bool_decide_unpack _). by vm_compute. }
  unfold trim in Hz. rewrite bytes_of_string_of in Hz. unfold trim_start_bytes in Hz. rewrite (trim_with_stop _ _ _ Hz0) in Hz.
  assert (He : trim_end_bytes z = z).
  { unfold trim_end_bytes. rewrite trim_with_stop; [apply reverse_involutive|]. unfold z, trim_end_bytes. rewrite reverse_involutive.
    apply trim_with_done. by rewrite length_reverse. }
  rewrite He in Hz. apply (f_equal bytes_of) in Hz. by rewrite bytes_of_string_of in Hz.
Qed.

(** ** The log *)

Lemma strictly_sorted_dedup x l :
  Sorted String.le (x :: l) → strictly_sorted (x :: dedup_after (λ a b, bool_decide (a = b)) x l) = true.
Proof.
  revert x. induction l as [|y l IH]; intros x Hs; [done|]. apply Sorted_inv in Hs as [Hl Hxy%HdRel_inv]. cbn [dedup_after].
  case_bool_decide as Hd; [subst; by apply IH|]. change (strictly_sorted (x :: y :: ?k)) with (bool_decide (String.compare x y = Lt) && strictly_sorted (y :: k)).
  rewrite IH, andb_true_r by done. apply bool_decide_true. unfold String.le, String.leb in Hxy.
  destruct (String.compare x y) eqn:Ec; [|done|done]. apply String.compare_eq_iff in Ec. by subst.
Qed.

Lemma sort_paths_strict l : strictly_sorted (sort_paths l) = true.
Proof.
  unfold sort_paths. pose proof (Sorted_merge_sort String.le l) as Hs. destruct (merge_sort String.le l); [done|]. by apply strictly_sorted_dedup.
Qed.

Definition record_ok (e : RuntimeAuditEvent) : Prop := blank (au_actor e) = false ∧ strictly_sorted (au_changed_paths e) = true.

Lemma validate_audit_events_spec lo l :
  validate_audit_events lo l = Ok tt ↔ Forall record_ok l ∧ ascending lo (au_sequence <$> l) = true.
Proof.
  revert lo. induction l as [|e l IH]; intros lo; cbn [validate_audit_events fmap list_fmap ascending]; [naive_solver|].
  rewrite Forall_cons, andb_true_iff, N.ltb_lt. unfold record_ok at 1.
  destruct (N.eqb_spec (au_sequence e) 0); cbn; [naive_solver lia|].
  destruct (N.leb_spec (au_sequence e) lo); cbn; [naive_solver lia|].
  destruct (blank (au_actor e)); cbn; [naive_solver|]. destruct (strictly_sorted _); cbn; [|naive_solver].
  rewrite IH. naive_solver.
Qed.

(** Beyond what is validated: the next number is above those in use. *)
Definition audit_ok (s : RuntimeSnapshot) : Prop :=
  Forall record_ok (audit_events s) ∧ ascending 0 (au_sequence <$> audit_events s) = true ∧
  audit_uploaded_sequence s <= default 0 (last (au_sequence <$> audit_events s)) ∧
  default 0 (last (au_sequence <$> audit_events s)) < audit_next_sequence s.

Lemma validate_audit_spec s :
  validate_audit_log s = Ok tt ∧ default 0 (last (au_sequence <$> audit_events s)) < audit_next_sequence s ↔ audit_ok s.
Proof.
  unfold validate_audit_log, audit_ok. rewrite fmap_last. pose proof (validate_audit_events_spec 0 (audit_events s)) as Hv.
  destruct (validate_audit_events 0 (audit_events s)) as [[]|d]; cbn; [|naive_solver].
  destruct (last (audit_events s)) as [e|]; cbn.
  - destruct (N.ltb_spec (au_sequence e) (audit_uploaded_sequence s)); cbn; [naive_solver lia|].
    destruct (N.eqb_spec (audit_next_sequence s) 0); cbn; [naive_solver lia|]. naive_solver.
  - destruct (N.eqb_spec (audit_uploaded_sequence s) 0); cbn; [|naive_solver lia].
    destruct (N.eqb_spec (audit_next_sequence s) 0); cbn; [naive_solver lia|]. naive_solver lia.
Qed.

Section Valid.
Context `{RuntimeCodec}.

Lemma emit_bus s kind now actor reason old new payload id s' :
  emit_runtime_event s kind now actor reason old new payload = (id, s') → bus_ok (event_bus s) →
  eb_next_sequence (event_bus s) < RT_U64_MAX →
  bus_ok (event_bus s') ∧ eb_next_sequence (event_bus s') = eb_next_sequence (event_bus s) + 1.
Proof.
  unfold emit_runtime_event. intros He (H1 & H2 & H3 & H4) Hroom. apply N.eqb_neq in H1, H2. rewrite H1, H2 in He. apply N.eqb_neq in H1, H2.
  destruct (make_room_drop (N.max (eb_buffer_capacity (event_bus s)) 1) (eb_events (event_bus s)) (eb_dropped_events (event_bus s))) as [n Hn].
  destruct (make_room _ _ _) as [events dropped]. cbn in Hn. subst events. injection He as <- <-. cbn.
  assert (Hs : saturating_add (eb_next_sequence (event_bus s)) 1 = eb_next_sequence (event_bus s) + 1) by (unfold saturating_add; lia).
  rewrite Hs. split; [|done]. unfold bus_ok. cbn. rewrite fmap_app, fmap_drop. cbn. split_and!; [done|lia| |].
  - apply ascending_snoc. split; [by apply ascending_drop|]. pose proof (last_drop_le n _ _ H3). lia.
  - rewrite last_snoc. cbn. lia.
Qed.

Lemma append_audit_ok s kind now actor reason changed identity base target id s' :
  append_audit_event s kind now actor reason changed identity base target = (id, s') → audit_ok s → audit_next_sequence s < RT_U64_MAX →
  audit_ok s' ∧ audit_next_sequence s' = audit_next_sequence s + 1.
Proof.
  unfold append_audit_event. intros [= <- <-] (H1 & H2 & H3 & H4) Hroom. cbn.
  assert (Hm : N.max (audit_next_sequence s) 1 = audit_next_sequence s) by lia. rewrite Hm.
  assert (Hs : saturating_add (audit_next_sequence s) 1 = audit_next_sequence s + 1) by (unfold saturating_add; lia). rewrite Hs.
  split; [|done]. unfold audit_ok. cbn. rewrite fmap_app. cbn. rewrite last_snoc. cbn. split_and!; [|by apply ascending_snoc|lia|lia].
  apply Forall_app. split; [done|]. constructor; [|done]. split; cbn; [|apply sort_paths_strict].
  destruct (blank actor) eqn:Eb; [by vm_compute|by rewrite blank_trim].
Qed.

(** ** Valid snapshots *)

Lemma then_Ok {E} (m k : result E unit) : (_ ← m; k) = Ok tt ↔ m = Ok tt ∧ k = Ok tt.
Proof. destruct m as [[]|]; cbn; naive_solver. Qed.

Definition value_ok (s : RuntimeSnapshot) (scope path : string) (v : Value) : Prop :=
  ∃ p, find_parameter_in_scope s scope path = Ok p ∧ validate_value s p path v path = Ok tt.

Definition metadata_ok (s : RuntimeSnapshot) (scope path : string) (m : DirtyEntryMetadata) : Prop :=
  is_Ok (find_parameter_in_scope s scope path) ∧ blank (dm_actor m) = false ∧ dm_generation m ≠ 0 ∧
  (∀ g, get2 (dirty_generations s) scope path = Some g → g = dm_generation m) ∧
  before (dm_reset_deadline m) (dm_dirty_since m) = false ∧ before (dm_hard_cap_deadline m) (dm_dirty_since m) = false.

Record valid (s : RuntimeSnapshot) : Prop := mkValid {
  valid_head : sh_schema_version (rs_head s) = PRODUCT_SCHEMA_VERSION ∧ is_sha256_hex (sh_model_hash (rs_head s)) = true ∧
    is_sha256_hex (sh_resolve_hash (rs_head s)) = true ∧ sh_persistence_format_version (rs_head s) ≠ 0;
  valid_committed : overlay_ok (known s) (value_ok s) (committed_overlay s);
  valid_dirty : overlay_ok (known s) (value_ok s) (dirty_overlay s);
  valid_generations : overlay_ok (known s) (λ scope path _, is_Ok (find_parameter_in_scope s scope path)) (dirty_generations s);
  valid_metadata : overlay_ok (known s) (metadata_ok s) (dirty_metadata s);
  valid_policy : validate_auto_reset_policy s = Ok tt;
  valid_schedule : schedule_ok s (pending s);
  valid_bus : bus_ok (event_bus s);
  valid_sync : validate_sync_status s = Ok tt;
  valid_audit : audit_ok s;
}.

Lemma validate_value_entity s p path v e e' : validate_value s p path v e = Ok tt → validate_value s p path v e' = Ok tt.
Proof.
  unfold validate_value, validate_artifact. destruct (is_value_compatible_with_type _ _); cbn; [|done].
  destruct (validate_limits _ _ _); cbn; [|done]. case_decide; [|done]. destruct v; try done. destruct (blank _); [done|]. by case_bool_decide.
Qed.

Lemma overlay_ok_iff {A} (K K' : string → Prop) (P P' : string → string → A → Prop) o :
  (∀ scope, K scope ↔ K' scope) → (∀ scope path v, P scope path v ↔ P' scope path v) → overlay_ok K P o ↔ overlay_ok K' P' o.
Proof. intros HK HP. split; apply overlay_ok_impl; firstorder. Qed.

Lemma known_spec s scope : bool_decide (is_Some (resolved_output s !! scope)) = true ↔ known s scope.
Proof. apply bool_decide_eq_true. Qed.

Lemma validate_values_spec s o root : validate_overlay_values s o root = Ok tt ↔ overlay_ok (known s) (value_ok s) o.
Proof.
  unfold validate_overlay_values.
  etransitivity; [exact (validate_overlay_spec (λ scope, bool_decide (is_Some (resolved_output s !! scope))) (λ scope, mkDiagnostic E_RUNTIME_UNKNOWN_SCOPE (root +:+ "." +:+ scope))
    (λ scope pv, p ← find_parameter_in_scope s scope pv.1; validate_value s p pv.1 pv.2 (root +:+ "." +:+ scope +:+ "." +:+ pv.1)) _)|].
  apply overlay_ok_iff; [apply known_spec|]. intros scope path v. unfold value_ok. cbn. split.
  - intros (p & Hp & Hv)%bind_Ok. exists p. split; [done|]. by eapply validate_value_entity.
  - intros (p & Hp & Hv). apply bind_Ok. exists p. split; [done|]. by eapply validate_value_entity.
Qed.

Lemma validate_generations_spec s :
  validate_generation_overlay s = Ok tt ↔ overlay_ok (known s) (λ scope path _, is_Ok (find_parameter_in_scope s scope path)) (dirty_generations s).
Proof.
  unfold validate_generation_overlay.
  etransitivity; [exact (validate_overlay_spec (λ scope, bool_decide (is_Some (resolved_output s !! scope)))
    (λ scope, mkDiagnostic E_RUNTIME_UNKNOWN_SCOPE ("runtime_snapshot.dirty_generations." +:+ scope))
    (λ scope (pg : string * N), (λ _, tt) <$> find_parameter_in_scope s scope pg.1) _)|].
  apply overlay_ok_iff; [apply known_spec|]. intros scope path g. cbn. by destruct (find_parameter_in_scope s scope path).
Qed.

Lemma validate_metadata_spec s scope path m : validate_metadata s scope path m = Ok tt ↔ metadata_ok s scope path m.
Proof.
  unfold validate_metadata, metadata_ok. destruct (find_parameter_in_scope s scope path); cbn; [|naive_solver].
  destruct (blank (dm_actor m)); cbn; [naive_solver|]. destruct (N.eqb_spec (dm_generation m) 0); cbn; [naive_solver|].
  destruct (get2 (dirty_generations s) scope path) as [g|]; cbn; [destruct (N.eqb_spec g (dm_generation m)); cbn; [|naive_solver]|].
  all: destruct (before (dm_reset_deadline m) _); cbn; [naive_solver|]; destruct (before _ _); cbn; naive_solver.
Qed.

Lemma validate_metadata_overlay_spec s : validate_dirty_metadata_overlay s = Ok tt ↔ overlay_ok (known s) (metadata_ok s) (dirty_metadata s).
Proof.
  unfold validate_dirty_metadata_overlay.
  etransitivity; [exact (validate_overlay_spec (λ scope, bool_decide (is_Some (resolved_output s !! scope)))
    (λ scope, mkDiagnostic E_RUNTIME_DIRTY_INVALID ("runtime_snapshot.dirty_metadata." +:+ scope))
    (λ scope pm, validate_metadata s scope pm.1 pm.2) _)|].
  apply overlay_ok_iff; [apply known_spec|]. intros scope path m. apply validate_metadata_spec.
Qed.

(** The validation accepts the valid snapshots, but for the next number of the log. *)
Lemma valid_spec s :
  valid s ↔ validate_runtime_snapshot s = Ok tt ∧ default 0 (last (au_sequence <$> audit_events s)) < audit_next_sequence s.
Proof.
  unfold validate_runtime_snapshot. rewrite !then_Ok, !bail_if_Ok, !negb_false_iff, N.eqb_eq, N.eqb_neq, !validate_values_spec, validate_generations_spec,
    validate_metadata_overlay_spec, schedule_spec, validate_bus_spec. pose proof (validate_audit_spec s) as Ha. split.
  - intros [(? & ? & ? & ?) ? ? ? ? ? ? ? ? [? ?]%Ha]. split_and!; assumption.
  - intros [(? & ? & ? & ? & ? & ? & ? & ? & ? & ? & ? & ? & ?) ?]. split; [by split_and!|assumption..|by apply Ha].
Qed.

(** ** What keeps a snapshot valid *)

(** [n] more numbers can be given out by the bus and by the log. *)
Definition room (n : N) (s : RuntimeSnapshot) : Prop :=
  eb_next_sequence (event_bus s) + n <= RT_U64_MAX ∧ audit_next_sequence s + n <= RT_U64_MAX.

Lemma emit_valid s kind now actor reason old new payload id s' n :
  emit_runtime_event s kind now actor reason old new payload = (id, s') → valid s → room (n + 1) s → valid s' ∧ room n s'.
Proof.
  intros He Hv [Hr1 Hr2]. pose proof (emit_bus _ _ _ _ _ _ _ _ _ _ He (valid_bus _ Hv) ltac:(lia)) as [Hb Hn].
  unfold emit_runtime_event in He. destruct (make_room _ _ _). injection He as _ <-.
  split; [destruct Hv; by split|]. unfold room. rewrite Hn. cbn. lia.
Qed.

Lemma audit_valid s kind now actor reason changed identity base target id s' n :
  append_audit_event s kind now actor reason changed identity base target = (id, s') → valid s → room (n + 1) s → valid s' ∧ room n s'.
Proof.
  intros He Hv [Hr1 Hr2]. pose proof (append_audit_ok _ _ _ _ _ _ _ _ _ _ _ He (valid_audit _ Hv) ltac:(lia)) as [Hb Hn].
  injection He as _ <-. split; [destruct Hv; by split|]. unfold room. rewrite Hn. cbn. lia.
Qed.

Lemma metadata_ok_generations s o g m p scope path md :
  (∀ x, get2 g scope path = Some x → get2 (dirty_generations s) scope path = Some x) →
  metadata_ok s scope path md → metadata_ok (set_dirty s o g m p) scope path md.
Proof. intros Hg (? & ? & ? & Hx & ? & ?). split_and!; [done..| |done|done]. intros x Hx'. by apply Hx, Hg. Qed.

Lemma clear_valid s scope path g : valid s → valid (clear_dirty_entry s scope path g).
Proof.
  intros [Hh Hc Hd Hg Hm Hp Hsch Hb Hsy Ha]. split; try done; cbn.
  - by apply overlay_ok_del.
  - by apply overlay_ok_del.
  - apply overlay_ok_del. revert Hm. apply overlay_ok_impl; [done|]. intros scope' path' md _. apply metadata_ok_generations.
    intros x. rewrite get2_del2. by case_decide.
  - by apply schedule_ok_filter.
Qed.

Lemma pending_valid s l : valid s → schedule_ok s l → valid (set_pending s l).
Proof. intros [] Hl. by split. Qed.

Lemma find_known s scope path p : find_parameter_in_scope s scope path = Ok p → known s scope.
Proof.
  unfold find_parameter_in_scope, known. intros Hp. inv_ok. destruct (resolved_output s !! scope); [eauto|done].
Qed.

Lemma put_metadata_valid s scope path m :
  valid s → metadata_ok s scope path m → valid (set_dirty s (dirty_overlay s) (dirty_generations s) (put2 scope path m (dirty_metadata s)) (pending s)).
Proof.
  intros [] Hm. split; try done. cbn. apply overlay_ok_put; [|by apply metadata_ok_generations|].
  - destruct Hm as [Hf _]. destruct (find_parameter_in_scope s scope path) eqn:E; [by eapply find_known|done].
  - eapply overlay_ok_impl; [..|exact valid_metadata0]; [done|]. intros. by apply metadata_ok_generations.
Qed.

Lemma disarm_ok s scope path m kind : metadata_ok s scope path m → metadata_ok s scope path (disarm m kind).
Proof. intros (? & ? & ? & ? & ? & ?). unfold disarm. destruct kind; by split_and!. Qed.

(** A write of an admissible value. *)
Lemma write_valid s scope path v now actor reason intent :
  valid s → value_ok s scope path v → blank actor = false → now <= RT_U64_MAX →
  valid (apply_dirty_write s scope path v now actor reason intent).2.
Proof.
  intros [Hh Hc Hd Hg Hm Hp Hsch Hb Hsy Ha] Hv Hact Hnow. assert (Hf := Hv). destruct Hf as (p & Hf & _). pose proof (find_known _ _ _ _ Hf) as Hk.
  unfold apply_dirty_write. set (g := saturating_add (default 0 (get2 (dirty_generations s) scope path)) 1).
  assert (Hg0 : g ≠ 0) by (unfold g, saturating_add, RT_U64_MAX; lia).
  split; try done; cbn [snd set_dirty bump_journal dirty_overlay dirty_generations dirty_metadata pending].
  - by apply overlay_ok_put.
  - apply overlay_ok_put; [done| |done]. change (is_Ok (find_parameter_in_scope s scope path)). by rewrite Hf.
  - assert (Hg' : ∀ scope' path', ¬ at2 scope path scope' path' → ∀ x, get2 (put2 scope path g (dirty_generations s)) scope' path' = Some x →
        get2 (dirty_generations s) scope' path' = Some x) by (intros ? ? Hn x; by rewrite get2_put2, decide_False).
    split.
    + intros scope' Hs. unfold put2 in Hs. apply lookup_insert_is_Some in Hs as [<-|[_ Hs]]; [done|]. by apply (ok_scopes _ _ _ Hm).
    + intros scope' path' md. rewrite get2_put2. case_decide as Ha'.
      * destruct Ha' as [<- <-]. intros [= <-]. split_and!; cbn [dm_actor dm_generation dm_reset_deadline dm_hard_cap_deadline dm_dirty_since before]; try done.
        -- change (is_Ok (find_parameter_in_scope s scope path)). by rewrite Hf.
        -- intros x. cbn. rewrite get2_put2, decide_True by done. by intros [= <-].
        -- unfold lease_deadline. destruct (ra_enabled _); cbn; [|done]. apply N.ltb_ge. unfold saturating_add. lia.
      * intros Hmd. apply (metadata_ok_generations s); [by apply Hg'|]. by apply (ok_entries _ _ _ Hm).
  - destruct (lease_deadline s scope path now); [|done]. apply schedule_ok_sort. apply Forall_app. split; [apply Hsch|].
    constructor; [|done]. split; [done|]. change (is_Ok (find_parameter_in_scope s scope path)). by rewrite Hf.
Qed.

Lemma bump_valid s : valid s → valid (bump_journal s).
Proof. by intros []. Qed.

Lemma room_less n k s : room (n + k) s → room n s.
Proof. unfold room. lia. Qed.

(** An entry of the schedule that is acted on needs three numbers. *)
Lemma revert_due_valid s e now cause s' n :
  revert_due_entry s e now cause = Ok s' → valid s → room (n + 3) s → valid s' ∧ room n s'.
Proof.
  unfold revert_due_entry. intros Hr Hv Hroom. destruct (validate_due_schedule_entry s e) as [[m old]|];
    [|injection Hr as <-; split; [done|by eapply room_less]].
  apply bind_Ok in Hr as (p & _ & Hr).
  destruct (emit_runtime_event _ ResetApplied _ _ _ _ _ _) as [i1 s1] eqn:E1.
  destruct (emit_runtime_event _ DirtyStateChanged _ _ _ _ _ _) as [i2 s2] eqn:E2.
  apply bind_Ok in Hr as (identity & _ & Hr).
  destruct (append_audit_event _ _ _ _ _ _ _ _ _) as [i3 s3] eqn:E3. injection Hr as <-.
  apply (emit_valid _ _ _ _ _ _ _ _ _ _ (n + 2)) in E1 as [V1 R1]; [|by apply bump_valid, clear_valid|unfold room in *; cbn; lia].
  apply (emit_valid _ _ _ _ _ _ _ _ _ _ (n + 1)) in E2 as [V2 R2]; [|done|by rewrite <-N.add_assoc].
  by eapply audit_valid.
Qed.

Lemma escalate_valid s e m event now id s' n :
  escalate_compensating_entry s e m event now = Ok (id, s') → valid s → room (n + 3) s → valid s' ∧ room n s'.
Proof.
  unfold escalate_compensating_entry. intros Hr Hv Hroom.
  destruct (emit_runtime_event _ OverrideEscalated _ _ _ _ _ _) as [i1 s1] eqn:E1. apply bind_Ok in Hr as (identity & _ & Hr).
  destruct (append_audit_event _ _ _ _ _ _ _ _ _) as [i2 s2] eqn:E2. injection Hr as <- <-.
  apply (emit_valid _ _ _ _ _ _ _ _ _ _ (n + 2)) in E1 as [V1 R1]; [|done|unfold room in *; lia].
  apply (audit_valid _ _ _ _ _ _ _ _ _ _ _ (n + 1)) in E2 as [V2 R2]; [|done|by rewrite <-N.add_assoc].
  split; [|by eapply room_less]. destruct (get2 (dirty_metadata s2) (se_scope_root e) (se_path e)) as [c|] eqn:Ec.
  - apply put_metadata_valid; [done|]. apply disarm_ok. by apply (ok_entries _ _ _ (valid_metadata _ V2)).
  - by destruct V2.
Qed.

Lemma drive_entry_valid r e now r' n :
  drive_entry r e now = Ok r' → valid (dr_snapshot r) → room (n + 3) (dr_snapshot r) → valid (dr_snapshot r') ∧ room n (dr_snapshot r').
Proof.
  unfold drive_entry. intros Hr Hv Hroom. destruct (validate_due_schedule_entry _ e) as [[m old]|];
    [|injection Hr as <-; split; [done|by eapply room_less]].
  destruct (is_silent _); inv_ok; cbn.
  - by eapply revert_due_valid.
  - match goal with H : escalate_compensating_entry _ _ _ _ _ = _ |- _ => eapply escalate_valid in H as [V R]; [|done|done] end.
    split; [|done]. apply pending_valid; [done|]. apply schedule_ok_filter, (valid_schedule _ V).
Qed.

Lemma revert_all_valid l s now cause s' n :
  revert_all s l now cause = Ok s' → valid s → room (n + 3 * N.of_nat (length l)) s → valid s' ∧ room n s'.
Proof.
  revert s. induction l as [|e l IH]; intros s; cbn [revert_all length]; intros Hr Hv Hroom.
  - injection Hr as <-. by rewrite N.add_0_r in Hroom.
  - apply bind_Ok in Hr as (s1 & H1 & Hr). apply (revert_due_valid _ _ _ _ _ (n + 3 * N.of_nat (length l))) in H1 as [V1 R1]; [by eapply IH|done|].
    unfold room in *. lia.
Qed.

Lemma drive_entries_valid l r now r' n :
  drive_entries r l now = Ok r' → valid (dr_snapshot r) → room (n + 3 * N.of_nat (length l)) (dr_snapshot r) →
  valid (dr_snapshot r') ∧ room n (dr_snapshot r').
Proof.
  revert r. induction l as [|e l IH]; intros r; cbn [drive_entries length]; intros Hr Hv Hroom.
  - injection Hr as <-. by rewrite N.add_0_r in Hroom.
  - apply bind_Ok in Hr as (r1 & H1 & Hr). apply (drive_entry_valid _ _ _ _ (n + 3 * N.of_nat (length l))) in H1 as [V1 R1]; [by eapply IH|done|].
    unfold room in *. lia.
Qed.

(** ** Passes over the schedule *)

Lemma validated_next s : validate_runtime_snapshot s = Ok tt → audit_next_sequence s ≠ 0.
Proof.
  unfold validate_runtime_snapshot, validate_audit_log. rewrite !then_Ok, !bail_if_Ok. intros (_ & _ & _ & _ & _ & _ & _ & _ & _ & _ & _ & _ & _ & _ & Hn).
  by apply N.eqb_neq.
Qed.

(** A validated normalized snapshot is valid: normalization puts the next number
    of the log above the others. *)
Lemma normalized_valid s now :
  let s0 := normalize_runtime_snapshot_state s now in validate_runtime_snapshot s0 = Ok tt → room 1 s0 → valid s0.
Proof.
  intros s0 Hv [_ Hr]. apply valid_spec. split; [done|]. apply validated_next in Hv. subst s0. unfold normalize_runtime_snapshot_state in *.
  rewrite normalize_dirty_split in *. cbn in *. unfold normalize_audit_state in *. destruct (normalize_audit_events _ _) as [next events].
  rewrite fmap_last. destruct (last events) as [e|] eqn:El; cbn in *; rewrite El; cbn; [|lia].
  destruct (N.leb_spec next (au_sequence e)); [|done]. unfold saturating_add in *. lia.
Qed.

(** Room for a pass over the whole schedule, and [n] numbers more. *)
Definition pass_room (n : N) (s : RuntimeSnapshot) : Prop := room (n + 1 + 3 * N.of_nat (length (pending s))) s.

Lemma length_dedup_by {A} (same : A → A → bool) l : (length (dedup_by same l) <= length l)%nat.
Proof.
  destruct l as [|x l]; [done|]. cbn. apply le_n_S. revert x. induction l as [|y l IH]; intros x; cbn; [done|].
  destruct (same y x); cbn; [specialize (IH x)|specialize (IH y)]; lia.
Qed.

Lemma length_due_entries s now : (length (due_entries s now) <= length (pending s))%nat.
Proof.
  unfold due_entries, sort_and_dedup_schedule_entries. rewrite length_take. pose proof (length_dedup_by same_entry (merge_sort entry_le (pending s))) as Hd.
  rewrite (Permutation_length (merge_sort_Permutation entry_le (pending s))) in Hd. lia.
Qed.

Lemma sorted_pending_valid s n : valid s → valid (set_pending s (drop n (sort_and_dedup_schedule_entries (pending s)))).
Proof. intros Hv. apply pending_valid; [done|]. apply schedule_ok_drop, schedule_ok_sort, (valid_schedule _ Hv). Qed.

Lemma prepare_valid s now s' n :
  prepare s now = Ok s' → pass_room n (normalize_runtime_snapshot_state s now) → valid s' ∧ room n s'.
Proof.
  unfold prepare. intros Hr Hroom. inv_ok. destruct x. set (s0 := normalize_runtime_snapshot_state s now) in *.
  assert (Hv : valid s0) by (apply normalized_valid; [done|unfold pass_room, room in *; fold s0; lia]).
  unfold apply_due_auto_resets in Hr. pose proof (length_due_entries s0 now) as Hl. unfold due_entries in Hl.
  set (q := sort_and_dedup_schedule_entries (pending s0)) in *. unfold pass_room, room in Hroom.
  assert (Hq : ∀ k, valid (set_pending s0 (drop k q))) by (intros; by apply sorted_pending_valid).
  destruct (pending s0) as [|e l] eqn:Ep; [injection Hr as <-; split; [done|unfold room; lia]|].
  destruct (due_count now q) as [|k] eqn:En; [injection Hr as <-; split; [apply (Hq 0%nat)|unfold room; cbn; lia]|].
  eapply revert_all_valid; [exact Hr|apply Hq|]. unfold room. cbn [set_pending set_dirty event_bus audit_next_sequence]. lia.
Qed.

(** A pass of the driver leaves a snapshot that the validation accepts, although
    the driver does not validate its result, when the sequence numbers suffice. *)
Theorem driver_keeps_valid version s now r :
  drive_override_lifecycle version s now = Ok r → pass_room 0 (normalize_runtime_snapshot_state s now) →
  validate_runtime_snapshot (dr_snapshot r) = Ok tt.
Proof.
  unfold drive_override_lifecycle. intros Hr Hroom. inv_ok. destruct x0. set (s0 := normalize_runtime_snapshot_state s now) in *.
  assert (Hv : valid s0) by (apply normalized_valid; [done|unfold pass_room, room in *; fold s0; lia]).
  pose proof (length_due_entries s0 now) as Hl. unfold due_entries in Hl.
  set (q := sort_and_dedup_schedule_entries (pending s0)) in *. unfold pass_room, room in Hroom.
  assert (Hq : ∀ k, valid (set_pending s0 (drop k q))) by (intros; by apply sorted_pending_valid).
  apply valid_spec. destruct (pending s0) as [|e l] eqn:Ep; [by injection Hr as <-|].
  destruct (due_count now q) as [|k] eqn:En; [injection Hr as <-; apply (Hq 0%nat)|].
  eapply (drive_entries_valid _ _ _ _ 0); [exact Hr|apply Hq|]. unfold room. cbn [dr_snapshot set_pending set_dirty event_bus audit_next_sequence]. lia.
Qed.

(** ** When a write is refused *)

Lemma write_parameter_valid s w v now actor reason intent g s' n :
  write_parameter s w v now actor reason intent = (g, s') → valid s → value_ok s (vw_scope_root w) (vw_path w) v → blank actor = false →
  now <= RT_U64_MAX → room (n + 2) s → valid s' ∧ room n s'.
Proof.
  unfold write_parameter. intros Hw Hv Hval Hact Hnow Hroom.
  pose proof (write_valid s (vw_scope_root w) (vw_path w) v now actor reason intent Hv Hval Hact Hnow) as V0.
  destruct (apply_dirty_write _ _ _ _ _ _ _ _) as [m s0] eqn:E0. cbn [snd] in V0.
  destruct (emit_runtime_event _ ParameterChanged _ _ _ _ _ _) as [i1 s1] eqn:E1.
  destruct (emit_runtime_event _ DirtyStateChanged _ _ _ _ _ _) as [i2 s2] eqn:E2. injection Hw as _ <-.
  apply (emit_valid _ _ _ _ _ _ _ _ _ _ (n + 1)) in E1 as [V1 R1]; [|done|].
  - by eapply emit_valid.
  - unfold apply_dirty_write in E0. injection E0 as _ <-. unfold room in *. cbn. lia.
Qed.

Lemma payload_total s scope path component key p v artifacts :
  validate_artifact s p v path = Ok tt → artifacts = resolved_artifacts s → effective_parameter_value s scope path (rp_value p) = v →
  is_Ok (parameter_payload component key (effective_parameter p s scope path) artifacts).
Proof.
  unfold validate_artifact, parameter_payload, artifact_binding. intros Hv -> He. cbn. rewrite He.
  case_decide; [|done]. destruct v as [|?|?|id]; try done. destruct (blank id); [done|]. cbn in Hv. case_bool_decide as Hs; [|done].
  destruct Hs as [a ->]. done.
Qed.

Lemma actor_present actor : blank (default DEFAULT_DIRTY_ACTOR (sanitize_optional_text actor)) = false.
Proof.
  destruct actor as [a|]; cbn; [|by vm_compute]. destruct (blank a) eqn:Eb; cbn; [by vm_compute|by rewrite blank_trim].
Qed.

Ltac red_bind := cbn [mbind result_bind fst snd is_Ok] in *.

(** C25: With sequence numbers to spare, a write is refused only when the snapshot
    cannot be prepared, the write itself is not admissible, or the identity of the
    new configuration cannot be computed: the validation that closes the
    operation and the payload it returns never fail. *)
Theorem write_refused_only s path v intent actor reason now :
  now <= RT_U64_MAX → pass_room 3 (normalize_runtime_snapshot_state s now) →
  let actor' := default DEFAULT_DIRTY_ACTOR (sanitize_optional_text actor) in
  is_Ok (set_parameter PRODUCT_SCHEMA_VERSION s path v intent actor reason now) ↔
  ∃ s1 w, prepare s now = Ok s1 ∧ validate_runtime_write s1 path v "request.path" true = Ok w ∧
    is_Ok (compute_configuration_identity (write_parameter s1 w v now actor' (sanitize_optional_text reason) intent).2).
Proof.
  intros Hnow Hroom actor'. unfold set_parameter. fold actor'.
  change (check_version PRODUCT_SCHEMA_VERSION) with (Ok tt : runtime unit). red_bind. split.
  - destruct (prepare s now) as [s1|d] eqn:Ep; red_bind; [|done].
    destruct (validate_runtime_write s1 path v "request.path" true) as [w|d] eqn:Ew; red_bind; [|done].
    intros Hr. exists s1, w. split_and!; [done..|].
    destruct (write_parameter _ _ _ _ _ _ _) as [g s2] eqn:E2. red_bind. by destruct (compute_configuration_identity s2).
  - intros (s1 & w & Ep & Ew & Hi). rewrite Ep. red_bind. rewrite Ew. red_bind.
    destruct (prepare_valid _ _ _ _ Ep Hroom) as [V1 R1]. apply validate_write_sound in Ew as (<- & Hf & _ & Hval).
    destruct (write_parameter s1 w v now actor' (sanitize_optional_text reason) intent) as [g s2] eqn:E2. red_bind.
    destruct (compute_configuration_identity s2) as [identity|d]; [|done]. red_bind.
    pose proof (write_slot _ _ _ _ _ _ _ _ _ (vw_scope_root w) (vw_path w) E2) as [Hfr Hs]. rewrite decide_True in Hs by done.
    apply (write_parameter_valid _ _ _ _ _ _ _ _ _ 1) in E2 as [V2 R2]; [|done|by exists (vw_baseline w)|apply actor_present|done|done].
    destruct (append_audit_event s2 _ _ _ _ _ _ _ _) as [i3 s3] eqn:E3. pose proof (audit_quiet _ _ _ _ _ _ _ _ _ _ _ E3) as Hq.
    apply (audit_valid _ _ _ _ _ _ _ _ _ _ _ 0) in E3 as [V3 _]; [|done|done]. apply valid_spec in V3 as [-> _]. red_bind.
    assert (Hh : rs_head s3 = rs_head s1) by (rewrite (frame_head _ _ (quiet_frame _ _ Hq)); apply (frame_head _ _ Hfr)).
    assert (Hp : is_Ok (parameter_payload (vw_component_id w) (vw_param_key w) (effective_parameter (vw_baseline w) s3 (vw_scope_root w) (vw_path w)) (resolved_artifacts s3))).
    { apply (payload_total _ _ _ _ _ _ v); [|done|].
      - unfold validate_value in Hval. rewrite !then_Ok in Hval. destruct Hval as (_ & _ & Hart). unfold validate_artifact in *. by rewrite Hh.
      - rewrite <-(quiet_slot _ _ Hq) in Hs. injection Hs as _ _ Ho. unfold effective_parameter_value. by rewrite Ho. }
    destruct (parameter_payload _ _ _ _); [done|done].
Qed.
End Valid.
