(* ===== verification/RuntimeDemo.v ===== *)
(** * A device at work

    A snapshot of one component with two overrides past their lease, a compensating
    one and an experimental one, and the theorems on the runtime at it. *)
From S2P Require Import Prelude Text Schema Resolver Ir Override Runtime RuntimeOps RuntimeCommit RuntimeProps RuntimeCommitProps RuntimeValid.
Local Open Scope N_scope.

Definition demo_hash : string := string_of (replicate 64 "a"%char).

#[local] Instance demo_codec : RuntimeCodec := {|
  rt_sha256_hex := λ _, demo_hash;
  value_json := λ _, Some [];
  leaf_json := λ _, Some [];
  diff_json := λ _, Some [];
  manifest_json := λ _, Some [];
|}.

Definition demo_parameter (i : Z) : ResolvedParameter :=
  mkResolvedParameter (VInteger i) "int" None None QM Runtime Technician None None None.

Definition demo_head : SnapshotHead :=
  mkHead PRODUCT_SCHEMA_VERSION demo_hash "ccm" demo_hash "line" ∅ ∅ ∅
    {[ "line" := mkResolvedConfig "plant" "1" {[ "pump" := mkResolvedComponent "pump" ∅ {[ "gain" := demo_parameter 1; "speed" := demo_parameter 2; "mode" := demo_parameter 3 ]} ]} ]}
    ∅ ∅ 1.

Definition gain : string := "component.pump.param.gain".
Definition speed : string := "component.pump.param.speed".
Definition mode : string := "component.pump.param.mode".

Definition demo_metadata (intent : OverrideIntent) : DirtyEntryMetadata := mkMetadata "ann" None 5 (Some 10) None 1 intent.

Definition demo : RuntimeSnapshot :=
  mkSnapshot demo_head {[ "line" := {[ gain := VInteger 4 ]} ]}
    {[ "line" := {[ gain := VInteger 8; speed := VInteger 9 ]} ]}
    {[ "line" := {[ gain := 1; speed := 1 ]} ]}
    {[ "line" := {[ gain := demo_metadata Compensating; speed := demo_metadata Experimental ]} ]}
    (mkPolicy true 30000 ∅ 0) [] (mkBus 1 512 [] 0) (mkSync Idle None None []) [] 1 0 0.

Definition after {A} (m : runtime A) (P : A → Prop) : Prop := match m with Ok a => P a | Err _ => False end.

Lemma after_intro {A} (m : runtime A) (P : A → Prop) : is_Ok m → (∀ a, m = Ok a → P a) → after m P.
Proof. destruct m; cbn; [eauto|done]. Qed.

Lemma after_two {A B C} (m : runtime A) (f : A → runtime B) (g : A → B → runtime C) :
  is_Ok (a ← m; b ← f a; g a b) → ∃ a b, m = Ok a ∧ f a = Ok b ∧ is_Ok (g a b).
Proof. destruct m as [a|]; cbn; [|done]. destruct (f a) as [b|] eqn:E; cbn; [|done]. by exists a, b. Qed.

(** The driver keeps the compensating override and reports it; the experimental one ends. *)
Lemma driver_spares_compensating_witness :
  after (drive_override_lifecycle 5 demo 20) (λ r,
    get2 (dirty_overlay (dr_snapshot r)) "line" gain = Some (VInteger 8) ∧ reported r Compensating "line" gain ∧
    get2 (dirty_overlay (dr_snapshot r)) "line" speed = None ∧ reported r Experimental "line" speed).
Proof.
  apply after_intro; [by vm_compute|]. intros r Hr. apply driver_spares_compensating in Hr as [_ Hr].
  destruct (Hr "line" gain) as [H1 H2]. destruct (Hr "line" speed) as [H3 H4].
  assert (E1 : dm_intent (metadata_of demo 20 "line" gain) = Compensating) by (vm_compute; reflexivity).
  assert (E2 : dm_intent (metadata_of demo 20 "line" speed) = Experimental) by (vm_compute; reflexivity).
  assert (E3 : get2 (dirty_overlay demo) "line" gain = Some (VInteger 8)) by (vm_compute; reflexivity).
  assert (E4 : get2 (dirty_overlay demo) "line" speed = Some (VInteger 9)) by (vm_compute; reflexivity).
  assert (D1 : expired (metadata_of demo 20 "line" gain) 20 = true) by (vm_compute; reflexivity).
  assert (D2 : expired (metadata_of demo 20 "line" speed) 20 = true) by (vm_compute; reflexivity).
  rewrite D1, E1, E3 in *. rewrite D2, E2, E4 in *. split_and!; [exact H1| |exact H3|]; eauto.
Defined.

(** Any other operation at the same time drops both. *)
Lemma resets_ignore_intent_witness :
  after (prepare demo 20) (λ s', get2 (dirty_overlay s') "line" gain = None ∧ get2 (dirty_overlay s') "line" speed = None).
Proof.
  apply after_intro; [by vm_compute|]. intros s' Hs. apply resets_ignore_intent in Hs as [_ Hs].
  rewrite (Hs "line" gain), (Hs "line" speed). split; by vm_compute.
Defined.

Lemma set_parameter_in_effect_witness :
  after (set_parameter 5 demo mode (VInteger 7) Experimental (Some "bob") None 8) (λ r,
    py_value r.2 = VInteger 7 ∧ committed_overlay r.1 = committed_overlay demo).
Proof.
  apply after_intro; [by vm_compute|]. intros [s' payload] Hr.
  apply set_parameter_in_effect in Hr as (scope & p & m & _ & _ & _ & ? & ? & _). done.
Defined.

Lemma atomic_writes_in_effect_witness :
  after (set_parameters_atomically 5 demo [(mode, VInteger 7); (mode, VInteger 6)] "bob" None None Experimental 8) (λ r,
    committed_overlay r.1 = committed_overlay demo ∧ get2 (dirty_overlay r.1) "line" speed = Some (VInteger 9)).
Proof.
  apply after_intro; [by vm_compute|]. intros [s' g] Hr.
  apply atomic_writes_in_effect in Hr as (ws & Hws & Hc & Ho). split; [done|]. rewrite Ho.
  inversion Hws as [|? [w1 v1] ? ? (_ & E1 & _) Hws1]; subst. inversion Hws1 as [|? [w2 v2] ? ? (_ & E2 & _) Hws2]; subst. inversion Hws2; subst.
  cbn in E1, E2. cbn. unfold at2. rewrite E1, E2. rewrite !decide_False by (intros [_ ?]; done). by vm_compute.
Defined.

Lemma rollback_restores_witness :
  after (rollback_dirty 5 demo All [] "bob" None 8) (λ r,
    rb_remaining r = [] ∧ effective_parameter_value (rb_snapshot r) "line" gain (VInteger 1) = VInteger 4).
Proof.
  apply after_intro; [by vm_compute|]. intros r Hr. apply rollback_restores in Hr as (_ & ? & Hv). split; [done|]. rewrite Hv. by vm_compute.
Defined.

Lemma commit_publishes_witness :
  after (commit_configuration 5 demo "bob" None None [] 8 9) (λ r,
    settled (cm_snapshot r) ∧ committed_parameter_value (cm_snapshot r) "line" gain (VInteger 1) = VInteger 8 ∧
    mf_base (cm_manifest r) = demo_hash ∧ Exists (change_at demo "line" gain) (mf_changed_paths (cm_manifest r))).
Proof.
  apply after_intro; [by vm_compute|]. intros r Hr. apply commit_publishes in Hr as (? & Hv & _ & Hb & _ & Hc & _). split; [done|].
  specialize (Hv "line" gain (demo_parameter 1) ltac:(by vm_compute)). cbn [rp_value demo_parameter] in Hv. split; [rewrite Hv; by vm_compute|].
  split.
  - destruct (compute_configuration_identity demo) as [i|] eqn:Ei; [|by vm_compute in Ei]. rewrite (Hb i eq_refl).
    assert (Hd : after (compute_configuration_identity demo) (λ i, id_committed i = demo_hash)) by (by vm_compute). by rewrite Ei in Hd.
  - assert (Hg : ∃ c, change_at demo "line" gain c).
    { do 5 eexists. split_and!; [vm_compute; reflexivity..|reflexivity]. }
    destruct Hg as [c Hg]. apply Exists_exists. exists c. split; [|exact Hg]. apply Hc. exists "line", gain. split; [by vm_compute|exact Hg].
Defined.

Lemma commit_never_diverges_witness :
  after (commit_entries demo (collect_dirty_path_selections demo) 8 "bob" None) (λ r,
    after (compute_configuration_identity (bump_journal r.1)) (λ i, id_committed i = id_working i)).
Proof.
  assert (Hi : is_Ok (r ← commit_entries demo (collect_dirty_path_selections demo) 8 "bob" None; compute_configuration_identity (bump_journal r.1)))
    by by vm_compute.
  apply after_intro; [by vm_compute|]. intros [s' changes] Hr. rewrite Hr in Hi.
  apply after_intro; [exact Hi|]. intros i Hi'. exact (commit_never_diverges _ _ _ _ _ _ _ Hr Hi').
Defined.

Lemma driver_keeps_valid_witness :
  after (drive_override_lifecycle 5 demo 20) (λ r, validate_runtime_snapshot (dr_snapshot r) = Ok tt).
Proof.
  apply after_intro; [by vm_compute|]. intros r Hr. apply (driver_keeps_valid _ _ _ _ Hr). split; apply N.leb_le; vm_compute; reflexivity.
Defined.

Lemma write_refused_only_witness : is_Ok (set_parameter PRODUCT_SCHEMA_VERSION demo mode (VInteger 7) Experimental None None 8).
Proof.
  assert (Hi : is_Ok (s1 ← prepare demo 8; w ← validate_runtime_write s1 mode (VInteger 7) "request.path" true;
    compute_configuration_identity (write_parameter s1 w (VInteger 7) 8 DEFAULT_DIRTY_ACTOR None Experimental).2)) by by vm_compute.
  assert (Hnow : 8 <= RT_U64_MAX) by by apply N.leb_le.
  assert (Hroom : pass_room 3 (normalize_runtime_snapshot_state demo 8)) by (split; apply N.leb_le; vm_compute; reflexivity).
  exact (proj2 (write_refused_only demo mode (VInteger 7) Experimental None None 8 Hnow Hroom) (after_two _ _ _ Hi)).
Defined.

(** An override that the driver escalated is armed again by the next operation,
    and the one after its lease drops it. *)
Example escalated_then_dropped :
  after (drive_override_lifecycle 5 demo 20) (λ r,
    after (set_parameter 5 (dr_snapshot r) mode (VInteger 7) Experimental None None 30) (λ p1,
      (dm_reset_deadline <$> get2 (dirty_metadata p1.1) "line" gain) = Some (Some 30030) ∧
      get2 (dirty_overlay p1.1) "line" gain = Some (VInteger 8) ∧
      after (set_parameter 5 p1.1 mode (VInteger 7) Experimental None None 30030) (λ p2,
        get2 (dirty_overlay p2.1) "line" gain = None))).
Proof. by vm_compute. Qed.
