(* ===== verification/RuntimeSync.v ===== *)
(** * Opening, reading and synchronizing a snapshot

    Models [compiler/src/runtime_api/open_read_ops.rs] and [sync_ops.rs], the
    checks of [shared_ops.rs] they use and the recipe of [resolve_hash.rs].  An
    operation that reads the clock again for an event has an argument per reading.
    [serde_json] on what is decoded and hashed here is the class [SyncCodec]. *)
From S2P Require Import Prelude Attribution Text Schema Resolver Ir Override Runtime RuntimeOps RuntimeCommit.
Local Open Scope N_scope.

Definition E_RUNTIME_HASH_MISMATCH : string := "E_RUNTIME_HASH_MISMATCH".
Definition E_RUNTIME_SYNC_BASE_MISMATCH : string := "E_RUNTIME_SYNC_BASE_MISMATCH".
Definition E_RUNTIME_SYNC_BEFORE_HASH_MISMATCH : string := "E_RUNTIME_SYNC_BEFORE_HASH_MISMATCH".
Definition E_RUNTIME_SYNC_TARGET_HASH_MISMATCH : string := "E_RUNTIME_SYNC_TARGET_HASH_MISMATCH".
Definition E_RUNTIME_SYNC_FULL_SNAPSHOT_REQUIRED : string := "E_RUNTIME_SYNC_FULL_SNAPSHOT_REQUIRED".
Definition E_RUNTIME_SYNC_CONFLICT_OVERRIDDEN : string := "E_RUNTIME_SYNC_CONFLICT_OVERRIDDEN".
Definition E_RUNTIME_SYNC_TRANSPORT_DISCONNECTED : string := "E_RUNTIME_SYNC_TRANSPORT_DISCONNECTED".
Definition E_RUNTIME_SYNC_PAYLOAD_INVALID : string := "E_RUNTIME_SYNC_PAYLOAD_INVALID".

(** [as u32]. *)
Definition as_u32 (n : N) : N := n mod 2 ^ 32.

(** ** The hash of a resolution *)

Record SelectionStateCanonical : Type := mkStateCanonical {
  st_schema_version : N;
  st_model_hash : string;
  st_scope : string;
  st_context_tags : gmap string string;
  st_choices : gmap string string;
}.

Record ResolveHashCanonical : Type := mkResolveCanonical {
  rh_schema_version : N;
  rh_model_hash : string;
  rh_scope : string;
  rh_selection_state : SelectionStateCanonical;
  rh_resolved_output : Json;
  rh_defaulted_choices : gmap string string;
  rh_implied_choices : gmap string string;
}.

(** What the name of an offline bundle is the hash of. *)
Record BundlePreimage : Type := mkBundlePreimage {
  bp_schema_version : N;
  bp_scope : string;
  bp_committed : string;
  bp_working : string;
  bp_uploaded : N;
  bp_dirty_paths : list string;
  bp_event_ids : list string;
}.

Class SyncCodec : Type := {
  resolve_json : ResolveHashCanonical → option (list ascii);
  bundle_json : BundlePreimage → option (list ascii);
  decode_output : Json → option (gmap string ResolvedConfig);
}.

Definition field_le (a b : string * Json) : Prop := String.le a.1 b.1.
#[export] Instance field_le_dec a b : Decision (field_le a b).
Proof. unfold field_le. apply _. Defined.

(** Objects with their fields in order; the fields of an object differ in name. *)
Fixpoint canonicalize_json_value (v : Json) : Json :=
  match v with
  | JObject fields => JObject (merge_sort field_le (map (λ kv, (kv.1, canonicalize_json_value kv.2)) fields))
  | JArray l => JArray (map canonicalize_json_value l)
  | other => other
  end.

Section Sync.
Context `{RuntimeCodec} `{SyncCodec}.

Definition compute_resolve_hash (model_hash scope : string) (context_tags choices : gmap string string) (output : Json)
    (defaulted implied : gmap string string) : option string :=
  rt_sha256_hex <$> resolve_json (mkResolveCanonical PRODUCT_SCHEMA_VERSION model_hash scope
    (mkStateCanonical PRODUCT_SCHEMA_VERSION model_hash scope context_tags choices)
    (canonicalize_json_value output) defaulted implied).

(** ** Open *)

Definition check_dependency_ids (config : ResolvedConfig) (entity component_id : string) (ids : list string) : runtime unit :=
  let invalid := mkDiagnostic E_RUNTIME_OPEN_INVALID entity in
  let present id := bool_decide (is_Some (rf_components config !! id)) in
  _ ← bail_if (negb (present component_id)) invalid;
  _ ← bail_if (negb (strictly_sorted ids)) invalid;
  for_each (λ id, bail_if (negb (present id)) invalid) ids.

Definition validate_resolved_component_dependencies (output : gmap string ResolvedConfig)
    (dependencies : gmap string (gmap string (list string))) : runtime unit :=
  for_each (λ sd,
    config ← ok_or (output !! sd.1) (mkDiagnostic E_RUNTIME_OPEN_INVALID "request.resolved_component_dependencies");
    for_each (λ cd, check_dependency_ids config
                      ("request.resolved_component_dependencies." +:+ sd.1 +:+ "." +:+ cd.1) cd.1 cd.2) (bt_list sd.2))
    (bt_list dependencies).

Definition validate_artifact_reference (artifacts : gmap string SchemaArtifact) (path : string) (p : ResolvedParameter) : runtime unit :=
  (λ _, tt) <$> artifact_binding artifacts path p.

Definition validate_artifact_references (output : gmap string ResolvedConfig) (artifacts : gmap string SchemaArtifact) : runtime unit :=
  for_each (λ sr,
    for_each (λ ic,
      for_each (λ kp, validate_artifact_reference artifacts (parameter_path ic.1 kp.1) kp.2) (bt_list (rc_params ic.2)))
      (bt_list (rf_components sr.2)))
    (bt_list output).

Record RuntimeOpenRequest : Type := mkOpenRequest {
  ro_schema_version : N;
  ro_model_hash : string;
  ro_ccm_ref : string;
  ro_resolve_hash : string;
  ro_scope : string;
  ro_resolved_output : Json;
  ro_component_dependencies : gmap string (gmap string (list string));
  ro_resolved_artifacts : gmap string SchemaArtifact;
  ro_context_tags : gmap string string;
  ro_choices : gmap string string;
  ro_defaulted_choices : gmap string string;
  ro_implied_choices : gmap string string;
  ro_closed_facet_domains : ClosedFacetDomains;
  ro_committed_overlay : overlay Value;
  ro_dirty_overlay : overlay Value;
  ro_dirty_generations : overlay N;
  ro_dirty_metadata : overlay DirtyEntryMetadata;
  ro_auto_reset_policy : AutoResetPolicy;
  ro_pending : list AutoResetScheduleEntry;
  ro_event_bus : RuntimeEventBusState;
  ro_sync_status : RuntimeSyncStatus;
  ro_audit_events : list RuntimeAuditEvent;
  ro_audit_next_sequence : N;
  ro_audit_uploaded_sequence : N;
  ro_persistence_format_version : N;
  ro_persistence_journal_sequence : N;
}.

Definition expected_resolve_hash (r : RuntimeOpenRequest) : option string :=
  compute_resolve_hash (ro_model_hash r) (ro_scope r) (ro_context_tags r) (ro_choices r) (ro_resolved_output r)
    (ro_defaulted_choices r) (ro_implied_choices r).

Definition snapshot_of_request (r : RuntimeOpenRequest) (output : gmap string ResolvedConfig) : RuntimeSnapshot :=
  mkSnapshot
    (mkHead PRODUCT_SCHEMA_VERSION (ro_model_hash r) (ro_ccm_ref r) (ro_resolve_hash r) (ro_scope r) (ro_context_tags r)
       (ro_choices r) (ro_closed_facet_domains r) output (ro_component_dependencies r) (ro_resolved_artifacts r)
       (ro_persistence_format_version r))
    (ro_committed_overlay r) (ro_dirty_overlay r) (ro_dirty_generations r) (ro_dirty_metadata r) (ro_auto_reset_policy r)
    (ro_pending r) (ro_event_bus r) (ro_sync_status r) (ro_audit_events r) (ro_audit_next_sequence r)
    (ro_audit_uploaded_sequence r) (ro_persistence_journal_sequence r).

Definition runtime_open (r : RuntimeOpenRequest) (now : N) : runtime RuntimeSnapshot :=
  let invalid := mkDiagnostic E_RUNTIME_OPEN_INVALID in
  _ ← check_version (ro_schema_version r);
  _ ← bail_if (negb (is_sha256_hex (ro_model_hash r))) (invalid "request.model_hash");
  _ ← bail_if (negb (is_sha256_hex (ro_resolve_hash r))) (invalid "request.resolve_hash");
  scope_root ← ok_or (normalize_scope_root (ro_scope r)) (invalid "request.scope");
  output ← ok_or (decode_output (ro_resolved_output r)) (invalid "request.resolved_output");
  _ ← bail_if (negb (bool_decide (is_Some (output !! scope_root)))) (mkDiagnostic E_RUNTIME_UNKNOWN_SCOPE "request.scope");
  _ ← validate_resolved_component_dependencies output (ro_component_dependencies r);
  _ ← validate_artifact_references output (ro_resolved_artifacts r);
  computed ← ok_or (expected_resolve_hash r) (invalid "request.resolve_hash");
  _ ← bail_if (negb (bool_decide (computed = ro_resolve_hash r))) (mkDiagnostic E_RUNTIME_HASH_MISMATCH "request.resolve_hash");
  s ← prepare (snapshot_of_request r output) now;
  let '(_, s) := emit_runtime_event s RuntimeOpened now None None None None (PlRuntimeOpened scope_root) in
  _ ← validate_runtime_snapshot s;
  Ok s.

(** ** Read *)

Record ScopeMetadata : Type := mkScopeMetadata {
  sm_component_count : N;
  sm_parameter_count : N;
  sm_artifact_count : N;
}.

Definition scope_root_of (s : RuntimeSnapshot) (scope_root : string) : runtime (string * ResolvedConfig) :=
  scope_root ← ok_or (normalize_scope_root scope_root) unknown_scope;
  config ← ok_or (resolved_output s !! scope_root) unknown_scope;
  Ok (scope_root, config).

(** The artifact an artifact parameter names in effect. *)
Definition effective_artifact (s : RuntimeSnapshot) (scope_root path : string) (p : ResolvedParameter) : option string :=
  if decide (rp_type p = "artifact") then
    match effective_parameter_value s scope_root path (rp_value p) with
    | VString id => if blank id then None else Some (trim id)
    | _ => None
    end
  else None.

Definition get_scope_metadata (version : N) (s : RuntimeSnapshot) (scope_root : string) : runtime (string * ScopeMetadata) :=
  _ ← check_version version;
  _ ← validate_runtime_snapshot s;
  '(scope_root, config) ← scope_root_of s scope_root;
  let artifacts := list_to_set (C := gset string) (flat_map (λ ic,
    omap (λ kp, effective_artifact s scope_root (parameter_path ic.1 kp.1) kp.2) (bt_list (rc_params ic.2)))
    (bt_list (rf_components config))) in
  let parameters := foldl (λ n ic, as_u32 (n + as_u32 (N.of_nat (size (rc_params ic.2))))) 0 (bt_list (rf_components config)) in
  Ok (scope_root, mkScopeMetadata (as_u32 (N.of_nat (size (rf_components config)))) parameters (as_u32 (N.of_nat (size artifacts)))).

Definition list_parameters (version : N) (s : RuntimeSnapshot) (scope_root : string) : runtime (string * list string) :=
  _ ← check_version version;
  _ ← validate_runtime_snapshot s;
  '(scope_root, config) ← scope_root_of s scope_root;
  Ok (scope_root, sorted_parameter_paths config).

Definition get_parameter (version : N) (s : RuntimeSnapshot) (path : string) : runtime RuntimeParameterPayload :=
  _ ← check_version version;
  _ ← validate_runtime_snapshot s;
  find_parameter_payload s path.

(** ** Synchronization *)

Definition with_state (s : RuntimeSnapshot) (state : RuntimeSyncState) : RuntimeSnapshot :=
  let y := sync_status s in
  set_sync s (mkSync state (sy_last_successful y) (sy_pending_update_summary y) (sy_diagnostics y)).

(** The state "idle" with what is pending, and its event. *)
Definition become_idle (s : RuntimeSnapshot) (last : option N) (summary : option string) (diagnostics : list Diagnostic) (clock : N)
    : RuntimeSnapshot :=
  emit_sync_state_event (set_sync s (mkSync Idle last summary diagnostics)) clock "idle" summary.

Definition offline : Diagnostic := mkDiagnostic E_RUNTIME_SYNC_TRANSPORT_DISCONNECTED "request.backend_connected".

Definition check_for_updates (version : N) (s : RuntimeSnapshot) (connected : bool) (summary : option string) (now t1 t2 : N)
    : runtime RuntimeSnapshot :=
  _ ← check_version version;
  s ← prepare s now;
  let s :=
    if connected then
      let s := emit_sync_state_event (with_state s Checking) t1 "checking" None in
      become_idle s (sy_last_successful (sync_status s)) (sanitize_optional_text summary) [] t2
    else
      let y := sync_status s in
      emit_sync_state_event (set_sync s (mkSync Offline (sy_last_successful y) (sy_pending_update_summary y) [offline]))
        t1 "offline" (Some "backend_disconnected") in
  _ ← validate_runtime_snapshot s;
  Ok s.

Record PullUpdateWrite : Type := mkPullWrite {
  pw_path : string;
  pw_value : Value;
  pw_before_leaf_hash : option string;
  pw_after_leaf_hash : option string;
}.

Record PreparedPullUpdate : Type := mkPrepared {
  pp_validated : ValidatedRuntimeWrite;
  pp_value : Value;
  pp_canonical : string;
  pp_was_dirty : bool;
  pp_generation : N;
}.

Definition check_hex (h : option string) (entity : string) : runtime unit :=
  match h with
  | Some h => bail_if (negb (is_sha256_hex h)) (mkDiagnostic E_RUNTIME_SYNC_PAYLOAD_INVALID entity)
  | None => Ok tt
  end.

Definition check_same (expected : option string) (actual : string) (d : Diagnostic) : runtime unit :=
  match expected with
  | Some e => bail_if (negb (bool_decide (e = actual))) d
  | None => Ok tt
  end.

Definition prepare_update (s : RuntimeSnapshot) (full_snapshot : bool) (seen : gset string) (write : PullUpdateWrite)
    : runtime (PreparedPullUpdate * gset string) :=
  w ← validate_runtime_write s (pw_path write) (pw_value write) "request.writes" false;
  let '(scope_root, path, p) := (vw_scope_root w, vw_path w, vw_baseline w) in
  let canonical := canonical_runtime_path scope_root path in
  _ ← bail_if (bool_decide (canonical ∈ seen)) (mkDiagnostic E_RUNTIME_SYNC_INVALID "request.writes");
  let before := sanitize_optional_text (pw_before_leaf_hash write) in
  let after := sanitize_optional_text (pw_after_leaf_hash write) in
  let before_mismatch := mkDiagnostic E_RUNTIME_SYNC_BEFORE_HASH_MISMATCH "request.writes.before_leaf_hash" in
  _ ← bail_if (negb full_snapshot && bool_decide (before = None)) before_mismatch;
  _ ← check_hex before "request.writes.before_leaf_hash";
  _ ← check_hex after "request.writes.after_leaf_hash";
  before_hash ← identity_leaf_hash scope_root path p (committed_parameter_value s scope_root path (rp_value p));
  _ ← check_same before before_hash before_mismatch;
  after_hash ← identity_leaf_hash scope_root path p (pw_value write);
  _ ← check_same after after_hash (mkDiagnostic E_RUNTIME_SYNC_TARGET_HASH_MISMATCH "request.writes.after_leaf_hash");
  Ok (mkPrepared w (pw_value write) canonical (is_dirty s scope_root path) (default 1 (recorded_generation s scope_root path)),
      {[canonical]} ∪ seen).

Fixpoint prepare_updates (s : RuntimeSnapshot) (full_snapshot : bool) (seen : gset string) (writes : list PullUpdateWrite)
    : runtime (list PreparedPullUpdate) :=
  match writes with
  | [] => Ok []
  | write :: writes =>
      '(u, seen) ← prepare_update s full_snapshot seen write;
      us ← prepare_updates s full_snapshot seen writes;
      Ok (u :: us)
  end.

(** One update: the committed value, and the dirty one that it replaces. *)
Definition apply_update (s : RuntimeSnapshot) (u : PreparedPullUpdate) (now : N) (actor : string) (reason : option string)
    : RuntimeSnapshot :=
  let w := pp_validated u in
  let '(scope_root, path, p) := (vw_scope_root w, vw_path w, vw_baseline w) in
  let previous := effective_parameter_value s scope_root path (rp_value p) in
  let s := commit_value s scope_root path p (pp_value u) in
  let s :=
    if pp_was_dirty u then
      (emit_runtime_event (clear_dirty_entry s scope_root path (pp_generation u)) DirtyStateChanged now (Some actor) reason None None
         (PlDirtyStateChanged scope_root path false (pp_generation u))).2
    else s in
  let updated := effective_parameter_value s scope_root path (rp_value p) in
  (emit_runtime_event s ParameterChanged now (Some actor) reason (Some previous) (Some updated)
     (PlParameterChanged scope_root path (pp_generation u))).2.

Definition apply_updates (s : RuntimeSnapshot) (us : list PreparedPullUpdate) (now : N) (actor : string) (reason : option string)
    : RuntimeSnapshot :=
  foldl (λ s u, apply_update s u now actor reason) s us.

Record PullUpdatesResult : Type := mkPull {
  pu_snapshot : RuntimeSnapshot;
  pu_applied : list string;
  pu_conflicts : list string;
  pu_base : string;
  pu_target : string;
  pu_audit_id : option string;
}.

(** The checks on the identifiers of a payload. *)
Definition check_ids (full_snapshot : bool) (base target : option string) (current : string) : runtime unit :=
  let missing := mkDiagnostic E_RUNTIME_SYNC_FULL_SNAPSHOT_REQUIRED in
  _ ← bail_if (negb full_snapshot && bool_decide (base = None)) (missing "request.base_configuration_id");
  _ ← bail_if (negb full_snapshot && bool_decide (target = None)) (missing "request.target_configuration_id");
  _ ← check_hex base "request.base_configuration_id";
  _ ← (if full_snapshot then Ok tt
       else check_same base current (mkDiagnostic E_RUNTIME_SYNC_BASE_MISMATCH "request.base_configuration_id"));
  check_hex target "request.target_configuration_id".

Definition target_mismatch : Diagnostic := mkDiagnostic E_RUNTIME_SYNC_TARGET_HASH_MISMATCH "request.target_configuration_id".

Definition emit_unless_empty (paths : list string) (s : RuntimeSnapshot) (kind : RuntimeEventKind) (now : N) (actor : string)
    (reason : option string) (payload : RuntimeEventPayload) : RuntimeSnapshot :=
  match paths with
  | [] => s
  | _ => (emit_runtime_event s kind now (Some actor) reason None None payload).2
  end.

Definition audit_kind (source : SyncApplySource) : RuntimeAuditEventKind :=
  match source with Backend => AuditSyncApply | DirectPush => AuditDirectPush end.

(** The updates of a payload that has some. *)
Definition pull_writes (s : RuntimeSnapshot) (base : string) (target summary : option string) (source : SyncApplySource)
    (us : list PreparedPullUpdate) (actor : string) (reason : option string) (now t2 t3 : N) : runtime PullUpdatesResult :=
  let s := emit_sync_state_event (with_state s Applying) t2 "applying" None in
  let conflicts := sort_paths (pp_canonical <$> List.filter pp_was_dirty us) in
  let s := emit_unless_empty conflicts s SyncConflictDetected now actor reason (PlSyncConflictDetected conflicts) in
  let s := apply_updates s us now actor reason in
  let applied := sort_paths (pp_canonical <$> us) in
  identity ← compute_configuration_identity s;
  _ ← check_same target (id_committed identity) target_mismatch;
  let warning := match conflicts with
                 | [] => []
                 | _ => [mkDiagnostic E_RUNTIME_SYNC_CONFLICT_OVERRIDDEN "request.writes"]
                 end in
  let s := become_idle s (Some now) summary warning t3 in
  let s := emit_unless_empty conflicts s SyncConflictResolved now actor reason (PlSyncConflictResolved conflicts applied source) in
  let '(_, s) := emit_runtime_event s SyncApplyCompleted now (Some actor) reason None None
                   (PlSyncApplyCompleted source base (id_committed identity) applied conflicts) in
  let '(audit_id, s) := append_audit_event s (audit_kind source) now actor reason applied identity (Some base)
                          (Some (id_committed identity)) in
  _ ← validate_runtime_snapshot s;
  Ok (mkPull s applied conflicts base (id_committed identity) (Some audit_id)).

Definition pull_updates (version : N) (s : RuntimeSnapshot) (actor : string) (reason : option string) (connected : bool)
    (source : SyncApplySource) (writes : list PullUpdateWrite) (base : option string) (full_snapshot : bool)
    (summary target : option string) (now t1 t2 t3 : N) : runtime PullUpdatesResult :=
  _ ← check_version version;
  let actor := trim actor in
  _ ← bail_if (bool_decide (actor = String.EmptyString)) (mkDiagnostic E_RUNTIME_SYNC_INVALID "request.actor");
  let reason := sanitize_optional_text reason in
  s ← prepare s now;
  _ ← bail_if (negb connected && match source with DirectPush => false | Backend => true end) offline;
  let s := emit_sync_state_event (with_state s Pulling) t1 "pulling" None in
  identity ← compute_configuration_identity s;
  let current := id_committed identity in
  let base := sanitize_optional_text base in
  let target := sanitize_optional_text target in
  _ ← check_ids full_snapshot base target current;
  let summary := sanitize_optional_text summary in
  match writes with
  | [] =>
      _ ← check_same target current target_mismatch;
      Ok (mkPull (become_idle s (Some now) summary [] t3) [] [] current current None)
  | _ =>
      us ← prepare_updates s full_snapshot ∅ writes;
      pull_writes s current target summary source us actor reason now t2 t3
  end.

Definition get_sync_status (version : N) (s : RuntimeSnapshot) : runtime RuntimeSyncStatus :=
  _ ← check_version version;
  _ ← validate_runtime_snapshot s;
  Ok (sync_status s).

(** ** The log *)

Definition pending_events (s : RuntimeSnapshot) : list RuntimeAuditEvent :=
  List.filter (λ e, audit_uploaded_sequence s <? au_sequence e) (audit_events s).

Record PushAuditEventsResult : Type := mkPush {
  ps_snapshot : RuntimeSnapshot;
  ps_pushed : list string;
  ps_pending_count : N;
  ps_last_uploaded : N;
}.

Definition push_audit_events (version : N) (s : RuntimeSnapshot) (connected : bool) (max_events now : N) : runtime PushAuditEventsResult :=
  _ ← check_version version;
  let s := normalize_runtime_snapshot_state s now in
  _ ← validate_runtime_snapshot s;
  if negb connected then
    Ok (mkPush s [] (as_u32 (N.of_nat (length (pending_events s)))) (audit_uploaded_sequence s))
  else
    let pushed := take (N.to_nat (N.max max_events 1)) (pending_events s) in
    let last_uploaded := match last pushed with Some e => au_sequence e | None => audit_uploaded_sequence s end in
    let s := if audit_uploaded_sequence s <? last_uploaded then set_audit s (audit_events s) (audit_next_sequence s) last_uploaded else s in
    Ok (mkPush s (au_event_id <$> pushed) (as_u32 (N.of_nat (length (pending_events s)))) last_uploaded).

Record OfflineReconciliationBundle : Type := mkBundle {
  ob_bundle_id : string;
  ob_generated_at : N;
  ob_committed : string;
  ob_working : string;
  ob_dirty_paths : list string;
  ob_uploaded : N;
  ob_pending_count : N;
  ob_pending_events : list RuntimeAuditEvent;
  ob_sync_status : RuntimeSyncStatus;
}.

Definition export_pending_sync_bundle (version : N) (s : RuntimeSnapshot) (max_events now : N) : runtime OfflineReconciliationBundle :=
  _ ← check_version version;
  let s := normalize_runtime_snapshot_state s now in
  _ ← validate_runtime_snapshot s;
  identity ← compute_configuration_identity s;
  let dirty_paths := sl_canonical <$> collect_dirty_path_selections s in
  let events := take (N.to_nat (N.max max_events 1)) (pending_events s) in
  bytes ← ok_or (bundle_json (mkBundlePreimage PRODUCT_SCHEMA_VERSION (sh_scope (rs_head s)) (id_committed identity)
                   (id_working identity) (audit_uploaded_sequence s) dirty_paths (au_event_id <$> events)))
            (mkDiagnostic E_RUNTIME_SYNC_INVALID "runtime_snapshot");
  Ok (mkBundle ("offline-sync-" +:+ string_of (take 16 (bytes_of (rt_sha256_hex bytes)))) now (id_committed identity)
        (id_working identity) dirty_paths (audit_uploaded_sequence s) (as_u32 (N.of_nat (length (pending_events s)))) events
        (sync_status s)).
End Sync.
