(* ===== verification/RuntimeSyncProps.v ===== *)
(** * What synchronization guarantees

    A pull commits the values it carries, drops the overrides they replace and
    touches nothing else; configurations with the same identity have the same
    committed values, so that replicas agree after a commit and a pull; and the
    upload of the log hands out each record once and in order. *)
From S2P Require Import Prelude Text Schema Resolver ResolverProps Ir IrProps Override Runtime RuntimeOps RuntimeCommit RuntimeProps RuntimeCommitProps RuntimeValid RuntimeSync.
Local Open Scope N_scope.

(** ** Sorting by a key *)

Section SortMap.
Context {A B} (R : relation A) (S : relation B) `{!∀ x y, Decision (R x y)} `{!∀ x y, Decision (S x y)}.
Context (f : A → B) (Hf : ∀ x y, R x y ↔ S (f x) (f y)).

Lemma list_merge_fmap l1 l2 : list_merge S (f <$> l1) (f <$> l2) = f <$> list_merge R l1 l2.
Proof.
  revert l2. induction l1 as [|x l1 IH1]; intros l2; [by destruct l2|].
  induction l2 as [|y l2 IH2]; [done|]. rewrite !fmap_cons, !list_merge_cons.
  destruct (decide (R x y)) as [Hr|Hr]; [rewrite decide_True by by apply Hf|rewrite decide_False by by rewrite <-Hf]; cbn; f_equal.
  - apply (IH1 (y :: l2)).
  - exact IH2.
Qed.

Definition fmap_stack (st : list (option (list A))) : list (option (list B)) := map (option_map (map f)) st.

Lemma merge_list_to_stack_fmap st l : merge_list_to_stack S (fmap_stack st) (f <$> l) = fmap_stack (merge_list_to_stack R st l).
Proof.
  revert l. induction st as [|[l'|] st IH]; intros l; [done| |done]. cbn. f_equal.
  change (map f l') with (f <$> l'). rewrite list_merge_fmap. apply IH.
Qed.

Lemma merge_stack_fmap st : merge_stack S (fmap_stack st) = f <$> merge_stack R st.
Proof.
  induction st as [|[l|] st IH]; [done| |exact IH].
  change (list_merge S (f <$> l) (merge_stack S (fmap_stack st)) = f <$> list_merge R l (merge_stack R st)). rewrite IH. apply list_merge_fmap.
Qed.

Lemma merge_sort_fmap l : merge_sort S (f <$> l) = f <$> merge_sort R l.
Proof.
  unfold merge_sort. change (@nil (option (list B))) with (fmap_stack []).
  generalize (@nil (option (list A))). induction l as [|x l IH]; intros st; [apply merge_stack_fmap|].
  cbn [merge_sort_aux fmap list_fmap]. rewrite <-IH. f_equal. apply (merge_list_to_stack_fmap st [x]).
Qed.
End SortMap.

(** ** Identities *)

Section Sync.
Context `{RuntimeCodec} `{SyncCodec}.

Definition leaf_line (ph : string * string) : string := ph.1 +:+ ":" +:+ ph.2.

(** Lines with the same paths and hashes of one length are determined by their text. *)
Lemma join_lines_inj {A} (key h1 h2 : A → string) l :
  (∀ a, length (bytes_of (h1 a)) = length (bytes_of (h2 a))) →
  join_with (string_of ["010"%char]) ((λ a, leaf_line (key a, h1 a)) <$> l) =
  join_with (string_of ["010"%char]) ((λ a, leaf_line (key a, h2 a)) <$> l) →
  Forall (λ a, h1 a = h2 a) l.
Proof.
  intros Hlen. induction l as [|a l IH]; [done|]. cbn [fmap list_fmap]. intros Hj.
  assert (Hb : bytes_of (leaf_line (key a, h1 a)) = bytes_of (leaf_line (key a, h2 a)) ∧
    (l ≠ [] → join_with (string_of ["010"%char]) ((λ a, leaf_line (key a, h1 a)) <$> l) =
              join_with (string_of ["010"%char]) ((λ a, leaf_line (key a, h2 a)) <$> l))).
  { apply (f_equal bytes_of) in Hj.
    assert (Hl : length (bytes_of (leaf_line (key a, h1 a))) = length (bytes_of (leaf_line (key a, h2 a)))).
    { unfold leaf_line. cbn. rewrite !bytes_of_app, !length_app, Hlen. done. }
    destruct l as [|b l]; [by cbn in Hj|]. cbn [fmap list_fmap join_with] in Hj.
    rewrite !bytes_of_app in Hj. apply app_inj_1 in Hj as [Hj1 Hj2]; [|done]. split; [done|]. intros _.
    apply app_inj_1 in Hj2 as [_ Hj2]; [|done]. by apply (f_equal string_of) in Hj2; rewrite !string_of_bytes_of in Hj2. }
  destruct Hb as [Hb Hrest]. constructor.
  - unfold leaf_line in Hb. cbn in Hb. rewrite !bytes_of_app in Hb. apply app_inj_1 in Hb as [_ Hb]; [|done].
    apply app_inj_1 in Hb as [_ Hb]; [|done]. by apply (f_equal string_of) in Hb; rewrite !string_of_bytes_of in Hb.
  - destruct l; [done|]. apply IH. by apply Hrest.
Qed.

Definition path_le (a b : string * string) : Prop := String.le (canonical_runtime_path a.1 a.2) (canonical_runtime_path b.1 b.2).
#[export] Instance path_le_dec a b : Decision (path_le a b).
Proof. unfold path_le. apply _. Defined.

(** The text whose hash is the identity of the committed configuration: a line
    with the path and the leaf hash of every parameter, in the order of the paths. *)
Definition identity_text (s : RuntimeSnapshot) : list ascii :=
  bytes_of (join_with (string_of ["010"%char]) ((λ sp, leaf_line (leaf_of s sp)) <$> merge_sort path_le (all_parameter_paths s))).

(** The texts that are hashed for that identity: the leaf of every parameter and
    the lines made of their hashes. *)
Definition hashed_texts (s : RuntimeSnapshot) : list (list ascii) :=
  identity_text s :: omap (committed_leaf s) (all_parameter_paths s).

(** No text hashed for the one identity collides with one hashed for the other. *)
Definition told_apart (s1 s2 : RuntimeSnapshot) : Prop :=
  Forall (λ x, Forall (λ y, rt_sha256_hex x = rt_sha256_hex y → x = y) (hashed_texts s2)) (hashed_texts s1).

Lemma told_apart_eq s1 s2 x y :
  told_apart s1 s2 → x ∈ hashed_texts s1 → y ∈ hashed_texts s2 → rt_sha256_hex x = rt_sha256_hex y → x = y.
Proof.
  unfold told_apart. rewrite Forall_forall. intros Ha Hx Hy. specialize (Ha _ Hx). cbn in Ha. rewrite Forall_forall in Ha. by apply Ha.
Qed.

Lemma leaf_hashed s sp b : sp ∈ all_parameter_paths s → committed_leaf s sp = Some b → b ∈ hashed_texts s.
Proof. intros Hsp Hb. right. apply list_elem_of_omap. by exists sp. Qed.

Lemma root_hash_leaves s :
  root_hash_from_leaves (leaf_of s <$> all_parameter_paths s) = rt_sha256_hex (identity_text s).
Proof.
  unfold root_hash_from_leaves. rewrite (merge_sort_fmap path_le leaf_le (leaf_of s)) by done. unfold identity_text.
  by rewrite <-list_fmap_compose.
Qed.

(** Two snapshots of one model with the same identity of their committed
    configurations have the same committed leaf at every parameter, as long as
    the texts hashed for the two identities do not collide. *)
Lemma same_identity_same_leaves s1 s2 i1 i2 :
  (∀ bytes, length (bytes_of (rt_sha256_hex bytes)) = 64%nat) → told_apart s1 s2 →
  resolved_output s1 = resolved_output s2 → compute_configuration_identity s1 = Ok i1 → compute_configuration_identity s2 = Ok i2 →
  id_committed i1 = id_committed i2 →
  ∀ sp, sp ∈ all_parameter_paths s1 → committed_leaf s1 sp = committed_leaf s2 sp.
Proof.
  intros Hlen Hap Ho [E1 L1]%identity_committed [E2 L2]%identity_committed He sp Hsp.
  assert (Hp : all_parameter_paths s2 = all_parameter_paths s1) by (unfold all_parameter_paths; by rewrite Ho).
  rewrite E1, E2, !root_hash_leaves in He.
  apply (told_apart_eq _ _ _ _ Hap) in He; [|by left..]. unfold identity_text in He. rewrite Hp in *.
  apply (f_equal string_of) in He. rewrite !string_of_bytes_of in He.
  apply (join_lines_inj (λ sp, canonical_runtime_path sp.1 sp.2) (λ sp, (leaf_of s1 sp).2) (λ sp, (leaf_of s2 sp).2)) in He;
    [|intros x; cbn; by rewrite !Hlen].
  rewrite (merge_sort_Permutation path_le), Forall_forall in He. specialize (He sp Hsp).
  rewrite Forall_forall in L1, L2. destruct (L1 sp Hsp) as [b1 B1], (L2 sp Hsp) as [b2 B2].
  unfold leaf_of in He. cbn in He. rewrite B1, B2 in He |- *. f_equal. cbn in He.
  eapply told_apart_eq; [exact Hap|by eapply leaf_hashed|eapply leaf_hashed; [|exact B2]; by rewrite Hp|done].
Qed.

(** ** Updates *)

Lemma quiet_sync s y : quiet s (set_sync s y).
Proof. done. Qed.

Lemma emit_quiet_2 s kind now actor reason old new payload : quiet s (emit_runtime_event s kind now actor reason old new payload).2.
Proof. destruct (emit_runtime_event _ _ _ _ _ _ _ _) as [id s'] eqn:E. by eapply emit_quiet. Qed.

Lemma sync_event_quiet s clock state summary : quiet s (emit_sync_state_event s clock state summary).
Proof. apply emit_quiet_2. Qed.

Lemma become_idle_quiet s last summary diagnostics clock : quiet s (become_idle s last summary diagnostics clock).
Proof. etrans; [apply quiet_sync|apply sync_event_quiet]. Qed.

Lemma emit_unless_empty_quiet paths s kind now actor reason payload : quiet s (emit_unless_empty paths s kind now actor reason payload).
Proof. destruct paths; [done|apply emit_quiet_2]. Qed.

Definition update_at (u : PreparedPullUpdate) (scope path : string) : Prop :=
  at2 (vw_scope_root (pp_validated u)) (vw_path (pp_validated u)) scope path.
#[export] Instance update_at_dec u scope path : Decision (update_at u scope path).
Proof. unfold update_at. apply _. Defined.

Definition update_clean (s : RuntimeSnapshot) (u : PreparedPullUpdate) : Prop :=
  pp_was_dirty u = false → get2 (dirty_overlay s) (vw_scope_root (pp_validated u)) (vw_path (pp_validated u)) = None.

Lemma apply_update_effect s u now actor reason scope path :
  update_clean s u →
  let s' := apply_update s u now actor reason in
  rs_head s' = rs_head s ∧
  get2 (dirty_overlay s') scope path = (if decide (update_at u scope path) then None else get2 (dirty_overlay s) scope path) ∧
  get2 (committed_overlay s') scope path =
    if decide (update_at u scope path) then settle (pp_value u) (rp_value (vw_baseline (pp_validated u)))
    else get2 (committed_overlay s) scope path.
Proof.
  intros Hc s'. set (w := pp_validated u). set (s1 := commit_value s (vw_scope_root w) (vw_path w) (vw_baseline w) (pp_value u)).
  assert (Hq : quiet (if pp_was_dirty u then clear_dirty_entry s1 (vw_scope_root w) (vw_path w) (pp_generation u) else s1) s').
  { unfold s', apply_update. fold w s1. destruct (pp_was_dirty u); [etrans; [|apply emit_quiet_2]; apply emit_quiet_2|apply emit_quiet_2]. }
  rewrite (frame_head _ _ (quiet_frame _ _ Hq)), (frame_committed _ _ (quiet_frame _ _ Hq)).
  pose proof (quiet_slot _ _ Hq scope path) as Hs.
  assert (Hcom : get2 (committed_overlay s1) scope path =
    if decide (update_at u scope path) then settle (pp_value u) (rp_value (vw_baseline w)) else get2 (committed_overlay s) scope path).
  { unfold s1, commit_value, settle, update_at. cbn. fold w. destruct (value_eqb _ _); by rewrite ?get2_del2, ?get2_put2. }
  split_and!; [by destruct (pp_was_dirty u)| |by destruct (pp_was_dirty u)].
  destruct (pp_was_dirty u) eqn:Ed; [rewrite clear_slot in Hs|]; destruct (decide (update_at u scope path)) as [Ha|Ha].
  - rewrite decide_True in Hs by exact Ha. by injection Hs.
  - rewrite decide_False in Hs by exact Ha. by injection Hs.
  - injection Hs as _ _ ->. destruct Ha as [<- <-]. by apply Hc.
  - by injection Hs.
Qed.

(** The value an update gives to a path. *)
Fixpoint update_of (us : list PreparedPullUpdate) (scope path : string) : option PreparedPullUpdate :=
  match us with
  | [] => None
  | u :: us => match update_of us scope path with
               | Some u' => Some u'
               | None => if decide (update_at u scope path) then Some u else None
               end
  end.

Lemma apply_updates_effect us s now actor reason scope path :
  Forall (update_clean s) us →
  let s' := apply_updates s us now actor reason in
  rs_head s' = rs_head s ∧
  get2 (dirty_overlay s') scope path = match update_of us scope path with Some _ => None | None => get2 (dirty_overlay s) scope path end ∧
  get2 (committed_overlay s') scope path =
    match update_of us scope path with
    | Some u => settle (pp_value u) (rp_value (vw_baseline (pp_validated u)))
    | None => get2 (committed_overlay s) scope path
    end.
Proof.
  intros Hcl. cbn zeta. revert s Hcl. induction us as [|u us IH]; intros s Hcl; [done|]. apply Forall_cons in Hcl as [Hu Hus].
  unfold apply_updates. cbn [foldl]. fold (apply_updates (apply_update s u now actor reason) us now actor reason).
  pose proof (apply_update_effect s u now actor reason scope path Hu) as (Hh & Hd & Hc).
  destruct (IH (apply_update s u now actor reason)) as (Hh' & Hd' & Hc').
  { eapply Forall_impl; [exact Hus|]. intros x Hx Hw. specialize (Hx Hw).
    destruct (apply_update_effect s u now actor reason (vw_scope_root (pp_validated x)) (vw_path (pp_validated x)) Hu) as (_ & -> & _). destruct (decide (update_at u (vw_scope_root (pp_validated x)) (vw_path (pp_validated x)))); [reflexivity|exact Hx]. }
  rewrite Hh', Hd', Hc', Hh, Hd, Hc. cbn [update_of]. destruct (update_of us scope path); [done|]. by case_decide.
Qed.

Lemma validate_write_found s path v entity lifecycle w :
  validate_runtime_write s path v entity lifecycle = Ok w →
  vw_path w = path ∧ find_parameter_in_scope s (vw_scope_root w) path = Ok (vw_baseline w) ∧ validate_value s (vw_baseline w) path v path = Ok tt.
Proof.
  unfold validate_runtime_write. intros Hw. inv_ok. repeat match goal with u : unit |- _ => destruct u end. cbn. done.
Qed.

(** An update and the write it was made of: the parameter exists and accepts the
    value, and a hash given for the value it replaces is that of the committed one. *)
Record admitted (s : RuntimeSnapshot) (write : PullUpdateWrite) (u : PreparedPullUpdate) : Prop := mkAdmitted {
  ad_value : pp_value u = pw_value write;
  ad_path : vw_path (pp_validated u) = pw_path write;
  ad_canonical : pp_canonical u = canonical_runtime_path (vw_scope_root (pp_validated u)) (vw_path (pp_validated u));
  ad_found : find_parameter_in_scope s (vw_scope_root (pp_validated u)) (pw_path write) = Ok (vw_baseline (pp_validated u));
  ad_valid : validate_value s (vw_baseline (pp_validated u)) (pw_path write) (pw_value write) (pw_path write) = Ok tt;
  ad_before : ∀ h, sanitize_optional_text (pw_before_leaf_hash write) = Some h →
    let '(scope, path, p) := (vw_scope_root (pp_validated u), pw_path write, vw_baseline (pp_validated u)) in
    identity_leaf_hash scope path p (committed_parameter_value s scope path (rp_value p)) = Ok h;
}.

Lemma check_same_Ok e a d : check_same e a d = Ok tt ↔ ∀ h, e = Some h → h = a.
Proof.
  destruct e as [h|]; cbn; [|split; [intros _ ? ?; done|done]]. rewrite bail_if_Ok, negb_false_iff, bool_decide_eq_true. naive_solver.
Qed.

Lemma prepare_update_sound s full seen write u seen' :
  prepare_update s full seen write = Ok (u, seen') →
  admitted s write u ∧ pp_was_dirty u = is_dirty s (vw_scope_root (pp_validated u)) (vw_path (pp_validated u)) ∧
  pp_canonical u ∉ seen ∧ seen' = {[pp_canonical u]} ∪ seen.
Proof.
  unfold prepare_update. intros Hr. apply bind_Ok in Hr as (w & Hw & Hr). apply validate_write_found in Hw as (Hp & Hf & Hv).
  inv_ok. repeat match goal with x : unit |- _ => destruct x end. cbn [pp_validated pp_value pp_canonical pp_was_dirty].
  match goal with H : bail_if (bool_decide (_ ∈ _)) _ = _ |- _ => apply bail_if_Ok, bool_decide_eq_false in H end.
  match goal with H : check_same (sanitize_optional_text (pw_before_leaf_hash write)) _ _ = _ |- _ => rename H into Hb end. rewrite check_same_Ok in Hb.
  split_and!; [|done..]. split; cbn [pp_validated pp_value pp_canonical]; try done. intros h Hh. rewrite <-Hp. rewrite (Hb _ Hh). done.
Qed.

Lemma prepare_updates_sound s full writes seen us :
  prepare_updates s full seen writes = Ok us →
  Forall2 (admitted s) writes us ∧
  Forall (λ u, pp_was_dirty u = is_dirty s (vw_scope_root (pp_validated u)) (vw_path (pp_validated u)) ∧ pp_canonical u ∉ seen) us ∧
  NoDup (pp_canonical <$> us).
Proof.
  revert seen us. induction writes as [|write writes IH]; intros seen us; cbn [prepare_updates]; intros Hr; inv_ok.
  - split_and!; constructor.
  - match goal with H : prepare_update _ _ _ _ = _ |- _ => apply prepare_update_sound in H as (Ha & Hd & Hs & ->) end.
    match goal with H : prepare_updates _ _ _ _ = _ |- _ => apply IH in H as (IH1 & IH2 & IH3) end. split_and!.
    + by constructor.
    + constructor; [done|]. eapply Forall_impl; [exact IH2|]. set_solver.
    + cbn. constructor; [|done]. intros (u' & Hu & Hin)%list_elem_of_fmap. rewrite Forall_forall in IH2. apply IH2 in Hin as [_ Hin]. set_solver.
Qed.

Lemma pull_writes_effect s base target summary source us actor reason now t2 t3 r :
  pull_writes s base target summary source us actor reason now t2 t3 = Ok r →
  ∃ s1, quiet s s1 ∧ quiet (apply_updates s1 us now actor reason) (pu_snapshot r) ∧
    pu_conflicts r = sort_paths (pp_canonical <$> List.filter pp_was_dirty us) ∧ pu_base r = base ∧
    (∀ t, target = Some t → pu_target r = t) ∧
    ∃ i, compute_configuration_identity (pu_snapshot r) = Ok i ∧ id_committed i = pu_target r.
Proof.
  unfold pull_writes. set (conflicts := sort_paths (pp_canonical <$> List.filter pp_was_dirty us)).
  set (s1 := emit_unless_empty conflicts _ SyncConflictDetected _ _ _ _). set (s2 := apply_updates s1 us now actor reason).
  intros Hr. apply bind_Ok in Hr as (i & Hi & Hr). apply bind_Ok in Hr as ([] & Ht & Hr). rewrite check_same_Ok in Ht.
  destruct (emit_runtime_event _ SyncApplyCompleted _ _ _ _ _ _) as [e1 s3] eqn:E3.
  destruct (append_audit_event _ _ _ _ _ _ _ _ _) as [a1 s4] eqn:E4. apply bind_Ok in Hr as ([] & _ & Hr). injection Hr as <-. cbn.
  assert (Hq : quiet s2 s4).
  { etrans; [|exact (audit_quiet _ _ _ _ _ _ _ _ _ _ _ E4)]. etrans; [|exact (emit_quiet _ _ _ _ _ _ _ _ _ _ E3)].
    etrans; [apply become_idle_quiet|apply emit_unless_empty_quiet]. }
  exists s1. split_and!; [|done|done|done| |].
  - etrans; [|apply emit_unless_empty_quiet]. etrans; [apply quiet_sync|apply sync_event_quiet].
  - intros t Et. symmetry. by apply Ht.
  - exists i. by rewrite (identity_quiet _ _ Hq).
Qed.

Lemma quiet_clean s s' us :
  quiet s s' → Forall (λ u, pp_was_dirty u = is_dirty s (vw_scope_root (pp_validated u)) (vw_path (pp_validated u))) us →
  Forall (update_clean s') us.
Proof.
  intros Hq Hu. eapply Forall_impl; [exact Hu|]. intros u Hd Hf. cbn in Hd. rewrite Hf in Hd.
  pose proof (quiet_slot _ _ Hq (vw_scope_root (pp_validated u)) (vw_path (pp_validated u))) as Hs. injection Hs as _ _ ->.
  symmetry in Hd. apply bool_decide_eq_false in Hd. by apply eq_None_not_Some.
Qed.

Lemma admitted_head s s' write u :
  rs_head s' = rs_head s → committed_overlay s' = committed_overlay s → admitted s' write u → admitted s write u.
Proof.
  intros Hh Hc [H1 H2 H3 H4 H5 H6]. split; try done.
  - by rewrite <-(find_head _ _ _ _ Hh).
  - by rewrite <-(validate_value_head _ _ _ _ _ _ Hh).
  - unfold committed_parameter_value in *. by rewrite <-Hc.
Qed.

(** An update says that its path was dirty exactly when the path had an override
    that the resets at the start of the pull left. *)
Definition dirty_when_pulled (s : RuntimeSnapshot) (now : N) (u : PreparedPullUpdate) : Prop :=
  let '(scope, path) := (vw_scope_root (pp_validated u), vw_path (pp_validated u)) in
  pp_was_dirty u = true ↔
  expired (metadata_of s now scope path) now = false ∧ is_Some (get2 (dirty_overlay s) scope path).

Lemma prepared_dirty s now s1 s2 us :
  prepare s now = Ok s1 → quiet s1 s2 →
  Forall (λ u, pp_was_dirty u = is_dirty s2 (vw_scope_root (pp_validated u)) (vw_path (pp_validated u))) us →
  Forall (dirty_when_pulled s now) us.
Proof.
  intros Hp Hq Hu. eapply Forall_impl; [exact Hu|]. intros u Hd. cbn in Hd. unfold dirty_when_pulled. rewrite Hd.
  set (scope := vw_scope_root (pp_validated u)). set (path := vw_path (pp_validated u)). unfold is_dirty. rewrite bool_decide_eq_true.
  pose proof (quiet_slot _ _ Hq scope path) as Hs. injection Hs as _ _ ->. rewrite (prepare_overlay _ _ _ _ _ Hp).
  destruct (expired _ _); [|naive_solver]. split; [by intros []|by intros [? _]].
Qed.

Lemma pull_effect version s actor reason connected source writes base full summary target now t1 t2 t3 r :
  pull_updates version s actor reason connected source writes base full summary target now t1 t2 t3 = Ok r →
  rs_head (pu_snapshot r) = rs_head s ∧ ∃ us,
    Forall2 (admitted s) writes us ∧ NoDup (pp_canonical <$> us) ∧ Forall (dirty_when_pulled s now) us ∧
    (∀ scope path, get2 (committed_overlay (pu_snapshot r)) scope path =
      match update_of us scope path with
      | Some u => settle (pp_value u) (rp_value (vw_baseline (pp_validated u)))
      | None => get2 (committed_overlay s) scope path
      end) ∧
    (∀ scope path, get2 (dirty_overlay (pu_snapshot r)) scope path =
      match update_of us scope path with
      | Some _ => None
      | None => if expired (metadata_of s now scope path) now then None else get2 (dirty_overlay s) scope path
      end) ∧
    pu_conflicts r = sort_paths (pp_canonical <$> List.filter pp_was_dirty us) ∧
    (∀ t, sanitize_optional_text target = Some t → pu_target r = t) ∧
    ∃ i, compute_configuration_identity (pu_snapshot r) = Ok i ∧ id_committed i = pu_target r.
Proof.
  unfold pull_updates. intros Hr. inv_ok. repeat match goal with x : unit |- _ => destruct x end.
  match goal with H : prepare _ _ = Ok ?t |- _ => rename H into Hp, t into s1 end. pose proof (prepare_values _ _ _ Hp) as (Hh & Hc & _).
  match goal with H : compute_configuration_identity ?t = _ |- _ => rename H into Hi; set (s2 := t) in * end.
  assert (Hq : quiet s1 s2) by (etrans; [apply quiet_sync|apply sync_event_quiet]).
  destruct writes as [|write writes].
  - inv_ok. destruct x. match goal with H : check_same _ _ _ = _ |- _ => rename H into Ht end. rewrite check_same_Ok in Ht. cbn [pu_snapshot pu_conflicts pu_target].
    pose proof (become_idle_quiet s2 (Some now) (sanitize_optional_text summary) [] t3) as Hq'.
    assert (Hqq : quiet s1 (become_idle s2 (Some now) (sanitize_optional_text summary) [] t3)) by (by etrans).
    split; [by rewrite (frame_head _ _ (quiet_frame _ _ Hqq))|]. exists []. split_and!; [constructor|constructor|constructor| | |done| |].
    + intros scope path. by rewrite (frame_committed _ _ (quiet_frame _ _ Hqq)), Hc.
    + intros scope path. pose proof (quiet_slot _ _ Hqq scope path) as Hs. injection Hs as _ _ ->. by apply prepare_overlay.
    + intros t Et. symmetry. by apply Ht.
    + eexists. split; [by rewrite (identity_quiet _ _ Hq')|done].
  - apply bind_Ok in Hr as (us & Hus & Hr). apply prepare_updates_sound in Hus as (Ha & Hd & Hn).
    apply pull_writes_effect in Hr as (s3 & Hq3 & Hq4 & Hcf & _ & Ht & Hid).
    assert (Hcl : Forall (update_clean s3) us) by (eapply quiet_clean; [exact Hq3|]; eapply Forall_impl; [exact Hd|]; by intros u []).
    pose proof (λ scope path, apply_updates_effect us s3 now (trim actor) (sanitize_optional_text reason) scope path Hcl) as He.
    assert (H13 : quiet s1 s3) by (by etrans).
    split; [rewrite (frame_head _ _ (quiet_frame _ _ Hq4)); destruct (He String.EmptyString String.EmptyString) as (-> & _); by rewrite (frame_head _ _ (quiet_frame _ _ H13))|].
    exists us. split_and!; [|done| | | |done|done|done].
    + eapply Forall2_impl; [exact Ha|]. intros wr u. apply admitted_head; [by rewrite (frame_head _ _ (quiet_frame _ _ Hq)), Hh|].
      by rewrite (frame_committed _ _ (quiet_frame _ _ Hq)), Hc.
    + eapply prepared_dirty; [exact Hp|exact Hq|]. eapply Forall_impl; [exact Hd|]. by intros u [].
    + intros scope path. rewrite (frame_committed _ _ (quiet_frame _ _ Hq4)). destruct (He scope path) as (_ & _ & ->).
      by rewrite (frame_committed _ _ (quiet_frame _ _ H13)), Hc.
    + intros scope path. pose proof (quiet_slot _ _ Hq4 scope path) as Hs. injection Hs as _ _ ->. destruct (He scope path) as (_ & -> & _).
      pose proof (quiet_slot _ _ H13 scope path) as Hs. injection Hs as _ _ ->. by rewrite (prepare_overlay _ _ _ _ _ Hp).
Qed.

(** C23: A pull that succeeds: the writes are admissible and name each path once; a
    path they name has the value they give as its committed value (none is stored
    when it is the baseline) and is not dirty any more; every other path is as the
    resets leave it; the conflicts are exactly the named paths that had an override
    which the resets left ([dirty_when_pulled]), in order; and the
    committed configuration has the identity the payload promised. *)
Theorem pull_in_effect version s actor reason connected source writes base full summary target now t1 t2 t3 r :
  pull_updates version s actor reason connected source writes base full summary target now t1 t2 t3 = Ok r →
  ∃ us,
    Forall2 (admitted s) writes us ∧ NoDup (pp_canonical <$> us) ∧ Forall (dirty_when_pulled s now) us ∧
    (∀ scope path, get2 (committed_overlay (pu_snapshot r)) scope path =
      match update_of us scope path with
      | Some u => settle (pp_value u) (rp_value (vw_baseline (pp_validated u)))
      | None => get2 (committed_overlay s) scope path
      end) ∧
    (∀ scope path, get2 (dirty_overlay (pu_snapshot r)) scope path =
      match update_of us scope path with
      | Some _ => None
      | None => if expired (metadata_of s now scope path) now then None else get2 (dirty_overlay s) scope path
      end) ∧
    pu_conflicts r = sort_paths (pp_canonical <$> List.filter pp_was_dirty us) ∧
    (∀ t, sanitize_optional_text target = Some t → pu_target r = t) ∧
    ∃ i, compute_configuration_identity (pu_snapshot r) = Ok i ∧ id_committed i = pu_target r.
Proof. intros Hr. exact (proj2 (pull_effect _ _ _ _ _ _ _ _ _ _ _ _ _ _ _ _ Hr)). Qed.

Lemma commit_identity version s actor reason expected hint now now' r :
  commit_configuration version s actor reason expected hint now now' = Ok r →
  rs_head (cm_snapshot r) = rs_head s ∧
  ∃ i, compute_configuration_identity (cm_snapshot r) = Ok i ∧ id_committed i = mf_target (cm_manifest r).
Proof.
  unfold commit_configuration. intros Hr. inv_ok.
  match goal with H : prepare _ _ = _ |- _ => pose proof (prepare_values _ _ _ H) as (Hh & _ & _) end.
  match goal with H : commit_entries _ _ _ _ _ = _ |- _ => apply commit_settles in H as (_ & Hh' & _) end.
  match goal with H : seal_commit _ _ _ _ _ _ _ = _ |- _ => apply seal_commit_quiet in H as (Hq & _ & _ & i & ? & ? & _) end.
  split; [by rewrite (frame_head _ _ (quiet_frame _ _ Hq)), Hh', Hh|by exists i].
Qed.

(** C22: A configuration that one device commits and another of the same model pulls
    under the identity of the commit's manifest is one configuration: every
    parameter has the same committed leaf (its type, unit, lifecycle and committed
    value as they are hashed) on both, as long as SHA-256 tells apart the texts it
    was applied to for the two identities: the leaves of the two devices and the
    two lists of their hashes. *)
Theorem replicas_agree version sA actorA reasonA expected hint nowA nowA' rA
    version' sB actorB reasonB connected source writes base full summary target nowB t1 t2 t3 rB :
  (∀ bytes, length (bytes_of (rt_sha256_hex bytes)) = 64%nat) →
  told_apart (cm_snapshot rA) (pu_snapshot rB) →
  resolved_output sA = resolved_output sB →
  commit_configuration version sA actorA reasonA expected hint nowA nowA' = Ok rA →
  pull_updates version' sB actorB reasonB connected source writes base full summary target nowB t1 t2 t3 = Ok rB →
  sanitize_optional_text target = Some (mf_target (cm_manifest rA)) →
  ∀ sp, sp ∈ all_parameter_paths sA →
    committed_leaf (cm_snapshot rA) sp = committed_leaf (pu_snapshot rB) sp.
Proof.
  intros Hlen Hap Ho (HhA & iA & HiA & HtA)%commit_identity (HhB & us & _ & _ & _ & _ & _ & _ & Ht & iB & HiB & HtB)%pull_effect Htarget.
  apply Ht in Htarget. assert (Ho' : resolved_output (cm_snapshot rA) = resolved_output (pu_snapshot rB)) by (by rewrite HhA, HhB).
  assert (Hp : all_parameter_paths sA = all_parameter_paths (cm_snapshot rA)) by (unfold all_parameter_paths; by rewrite HhA).
  rewrite Hp. eapply same_identity_same_leaves; eauto. congruence.
Qed.

(** ** The log *)

Lemma ascending_sorted {A} (f : A → N) lo l :
  ascending lo (f <$> l) = true → Forall (λ e, lo < f e) l ∧ StronglySorted (λ a b, f a < f b) l.
Proof.
  revert lo. induction l as [|e l IH]; intros lo; cbn; [repeat constructor|]. rewrite andb_true_iff, N.ltb_lt. intros [He Hl].
  apply IH in Hl as [Hf Hs]. split; [|by constructor]. constructor; [done|]. eapply Forall_impl; [exact Hf|]. cbn. lia.
Qed.

Lemma filter_keeps_all {A} (p : A → bool) l : Forall (λ e, p e = true) l → List.filter p l = l.
Proof. induction 1 as [|e l He _ IH]; cbn; [done|]. by rewrite He, IH. Qed.

Lemma filter_drops_all {A} (p : A → bool) l : Forall (λ e, p e = false) l → List.filter p l = [].
Proof. induction 1 as [|e l He _ IH]; cbn; [done|]. by rewrite He. Qed.

(** What is above the number of the [n]-th element of a sorted list comes after it. *)
Lemma filter_above_take {A} (f : A → N) n l e :
  StronglySorted (λ a b, f a < f b) l → last (take n l) = Some e → List.filter (λ x, f e <? f x) l = drop n l.
Proof.
  intros Hs [k Hk]%last_Some. rewrite <-(take_drop n l) in Hs |- * at 1. rewrite Hk in Hs |- *. rewrite <-app_assoc in Hs |- *.
  rewrite !List.filter_app. cbn. rewrite N.ltb_irrefl. apply StronglySorted_app in Hs as (Hkr & _ & Hr).
  apply StronglySorted_inv in Hr as [_ Hr]. rewrite filter_drops_all, filter_keeps_all; [done|..].
  - eapply Forall_impl; [exact Hr|]. cbn. intros x. by rewrite N.ltb_lt.
  - rewrite Forall_forall. intros x Hx. apply N.ltb_ge. specialize (Hkr x e Hx ltac:(set_solver)). lia.
Qed.

Lemma filter_filter_above {A} (f : A → N) u v l :
  u <= v → List.filter (λ x, v <? f x) (List.filter (λ x, u <? f x) l) = List.filter (λ x, v <? f x) l.
Proof.
  intros Huv. induction l as [|e l IH]; cbn; [done|]. destruct (N.ltb_spec u (f e)); cbn; [by rewrite IH|].
  destruct (N.ltb_spec v (f e)); [lia|done].
Qed.

Lemma filter_sorted {A} (R : A → A → Prop) (p : A → bool) l : StronglySorted R l → StronglySorted R (List.filter p l).
Proof.
  induction 1 as [|e l _ IH He]; cbn; [constructor|]. destruct (p e); [|done]. constructor; [done|].
  rewrite Forall_forall in *. intros x [Hx _]%list_elem_of_In%List.filter_In. by apply He, list_elem_of_In.
Qed.

Lemma pending_sorted s : validate_runtime_snapshot s = Ok tt → StronglySorted (λ a b, au_sequence a < au_sequence b) (pending_events s).
Proof.
  unfold validate_runtime_snapshot, validate_audit_log. intros Hv. rewrite !then_Ok in Hv. destruct_and!.
  match goal with H : validate_audit_events _ _ = _ |- _ => apply validate_audit_events_spec in H as [_ [_ Ha]%ascending_sorted] end.
  by apply filter_sorted.
Qed.

(** A push to a backend that answers uploads the oldest records that are not
    uploaded yet, at most [max_events] of them but one at least when there are
    any, each once and in order: what is pending before is what was pushed and,
    behind it, what is pending after.  The log itself is kept, and the count of
    what is left is exact below 2^32. *)
Theorem push_uploads_in_order version s max_events now r :
  push_audit_events version s true max_events now = Ok r →
  let s0 := normalize_runtime_snapshot_state s now in
  ∃ pushed, ps_pushed r = au_event_id <$> pushed ∧
    pending_events s0 = pushed ++ pending_events (ps_snapshot r) ∧
    length pushed = Nat.min (N.to_nat (N.max max_events 1)) (length (pending_events s0)) ∧
    audit_events (ps_snapshot r) = audit_events s0 ∧
    audit_uploaded_sequence s0 <= ps_last_uploaded r ∧ audit_uploaded_sequence (ps_snapshot r) = ps_last_uploaded r ∧
    ps_pending_count r = as_u32 (N.of_nat (length (pending_events (ps_snapshot r)))).
Proof.
  unfold push_audit_events. cbn zeta. set (s0 := normalize_runtime_snapshot_state s now). intros Hr. inv_ok.
  repeat match goal with x : unit |- _ => destruct x end.
  match goal with H : validate_runtime_snapshot _ = _ |- _ => rename H into Hv end.
  cbn [negb] in Hr. injection Hr as <-. cbn [ps_snapshot ps_pushed ps_pending_count ps_last_uploaded].
  assert (Hn : N.to_nat (N.max max_events 1) ≠ 0%nat) by lia. revert Hn. generalize (N.to_nat (N.max max_events 1)). intros n Hn.
  apply pending_sorted in Hv. destruct (last (take n (pending_events s0))) as [e|] eqn:El.
  - assert (Hu : audit_uploaded_sequence s0 < au_sequence e).
    { assert (He : e ∈ pending_events s0) by (apply last_Some in El as [k Hk]; rewrite <-(take_drop n (pending_events s0)), Hk; set_solver).
      apply list_elem_of_In in He. unfold pending_events in He. apply List.filter_In in He as [_ He]. by apply N.ltb_lt in He. }
    pose proof (filter_above_take au_sequence n _ e Hv El) as Hd. unfold pending_events in Hd at 1. rewrite filter_filter_above in Hd by lia.
    apply N.ltb_lt in Hu as Hu'. rewrite Hu'. eexists. split; [done|].
    assert (Hp : pending_events (set_audit s0 (audit_events s0) (audit_next_sequence s0) (au_sequence e)) = drop n (pending_events s0)) by exact Hd.
    rewrite Hp, take_drop, length_take. split_and!; [done..|lia|done|done].
  - apply last_None in El. rewrite El, N.ltb_irrefl. exists [].
    assert (Hnil : pending_events s0 = []) by (destruct n; [done|]; by destruct (pending_events s0)).
    rewrite Hnil. split_and!; try done. cbn. lia.
Qed.
End Sync.
