(* ===== verification/RuntimeSyncDemo.v ===== *)
(** * Two devices of one model

    The device of [RuntimeDemo] commits its overrides, a second one pulls what it
    published and uploads its log.  The hash here reads a text as a number in base
    31, modulo 2^16. *)
From S2P Require Import Prelude Text Schema Resolver Ir Override Runtime RuntimeOps RuntimeCommit RuntimeProps RuntimeCommitProps RuntimeValid RuntimeSync RuntimeSyncProps RuntimeDemo.
Local Open Scope N_scope.

Definition toy_number (bytes : list ascii) : N := foldl (λ h c, N.land (h * 31 + N_of_ascii c) 65535) 1 bytes.
Definition toy_hash (bytes : list ascii) : string := string_of (replicate 48 "0"%char ++ bytes_of (hex16 (toy_number bytes))).

Definition toy_value (v : Value) : list ascii :=
  match v with VInteger z => bytes_of (hex16 (Z.to_N z)) | VString s => bytes_of s | _ => [] end.

#[local] Instance toy_codec : RuntimeCodec := {|
  rt_sha256_hex := toy_hash;
  value_json := λ v, Some (toy_value v);
  leaf_json := λ l, Some (bytes_of (lf_path l) ++ toy_value (lf_value l));
  diff_json := λ d, Some (concat ((λ kv, bytes_of kv.1 ++ toy_value kv.2) <$> map_to_list d));
  manifest_json := λ _, Some [];
|}.

Definition device : RuntimeSnapshot :=
  mkSnapshot demo_head {[ "line" := {[ mode := VInteger 5 ]} ]} {[ "line" := {[ gain := VInteger 3 ]} ]} {[ "line" := {[ gain := 1 ]} ]}
    {[ "line" := {[ gain := demo_metadata Experimental ]} ]}
    (mkPolicy true 30000 ∅ 0) [] (mkBus 1 512 [] 0) (mkSync Idle None None []) [] 1 0 0.

Definition publish := commit_configuration 5 demo "bob" None None [] 8 9.
Definition published : string := Eval vm_compute in match publish with Ok r => mf_target (cm_manifest r) | Err _ => "failed" end.
Definition update (path : string) (i : Z) : PullUpdateWrite := mkPullWrite path (VInteger i) None None.
Definition adopt := pull_updates 5 device "eve" None true Backend [update gain 8; update speed 9; update mode 3] None true None (Some published) 8 8 8 8.

Example adopted : is_Ok publish ∧ is_Ok adopt.
Proof. split; vm_compute; exact I. Qed.

Lemma toy_length bytes : length (bytes_of (toy_hash bytes)) = 64%nat.
Proof. unfold toy_hash. by rewrite bytes_of_string_of, length_app, length_replicate. Qed.

Lemma after_run {A} (m : runtime A) : is_Ok m → ∃ a, m = Ok a.
Proof. destruct m as [a|]; [by exists a|done]. Qed.

(** The hypothesis of [replicas_agree] on the two devices, as a test. *)
Definition told_apartb (s1 s2 : RuntimeSnapshot) : bool :=
  forallb (λ x, forallb (λ y, bool_decide (rt_sha256_hex x = rt_sha256_hex y → x = y)) (hashed_texts s2)) (hashed_texts s1).

Lemma told_apart_true s1 s2 : told_apartb s1 s2 → told_apart s1 s2.
Proof.
  unfold told_apartb, told_apart. intros H1%forallb_True. eapply Forall_impl; [exact H1|]. intros x H2%forallb_True.
  eapply Forall_impl; [exact H2|]. intros y Hy. by apply (bool_decide_unpack _ Hy).
Qed.

(** What the second device has afterwards. *)
Lemma pull_in_effect_witness :
  after adopt (λ r, ∃ us, Forall2 (admitted device) [update gain 8; update speed 9; update mode 3] us ∧
    get2 (committed_overlay (pu_snapshot r)) "line" gain =
      match update_of us "line" gain with Some u => settle (pp_value u) (rp_value (vw_baseline (pp_validated u))) | None => None end ∧
    pu_target r = published ∧ pu_conflicts r = sort_paths (pp_canonical <$> List.filter pp_was_dirty us) ∧
    Forall (dirty_when_pulled device 8) us ∧ length (pu_conflicts r) = 1%nat).
Proof.
  apply after_intro; [vm_compute; exact I|]. intros r Hr. unfold adopt in Hr. destruct (pull_in_effect _ _ _ _ _ _ _ _ _ _ _ _ _ _ _ _ Hr) as (us & H1 & _ & H4 & H2 & _ & H5 & H3 & _).
  assert (Hl : length (pu_conflicts r) = 1%nat).
  { assert (Hm : after adopt (λ r, length (pu_conflicts r) = 1%nat)) by (vm_compute; reflexivity). unfold adopt in Hm. by rewrite Hr in Hm. }
  exists us. split_and!; [exact H1| |apply H3; vm_compute; reflexivity|exact H5|exact H4|exact Hl]. rewrite (H2 "line" gain). destruct (update_of us "line" gain); [reflexivity|vm_compute; reflexivity].
Defined.

Lemma replicas_agree_witness :
  ∃ rA rB, publish = Ok rA ∧ adopt = Ok rB ∧ told_apart (cm_snapshot rA) (pu_snapshot rB) ∧ length (hashed_texts (cm_snapshot rA)) = 4%nat ∧
    ∀ sp, sp ∈ all_parameter_paths demo → committed_leaf (cm_snapshot rA) sp = committed_leaf (pu_snapshot rB) sp.
Proof.
  destruct (after_run publish) as [rA HA]; [vm_compute; exact I|]. destruct (after_run adopt) as [rB HB]; [vm_compute; exact I|].
  assert (Ht : sanitize_optional_text (Some published) = Some (mf_target (cm_manifest rA))).
  { assert (Hm : after publish (λ r, sanitize_optional_text (Some published) = Some (mf_target (cm_manifest r)))) by (vm_compute; reflexivity).
    rewrite HA in Hm. exact Hm. }
  assert (Hap : told_apart (cm_snapshot rA) (pu_snapshot rB) ∧ length (hashed_texts (cm_snapshot rA)) = 4%nat).
  { assert (Hm : after publish (λ rA, after adopt (λ rB, told_apartb (cm_snapshot rA) (pu_snapshot rB) ∧
                   length (hashed_texts (cm_snapshot rA)) = 4%nat))) by (vm_compute; split; [exact I|reflexivity]).
    rewrite HA, HB in Hm. destruct Hm as [Hm Hl]. split; [by apply told_apart_true|exact Hl]. }
  destruct Hap as [Hap Hl]. exists rA, rB. split; [exact HA|]. split; [exact HB|]. split; [exact Hap|]. split; [exact Hl|].
  unfold publish in HA. unfold adopt in HB.
  exact (replicas_agree 5 demo _ _ _ _ _ _ rA 5 device _ _ _ _ _ _ _ _ _ _ _ _ _ rB toy_length Hap eq_refl HA HB Ht).
Defined.

(** Its log after the pull: one record, which a push uploads. *)
Definition upload := r ← adopt; push_audit_events 5 (pu_snapshot r) true 0 9.

Lemma push_uploads_in_order_witness :
  after adopt (λ r, after (push_audit_events 5 (pu_snapshot r) true 0 9) (λ p, ∃ pushed,
    ps_pushed p = au_event_id <$> pushed ∧
    pending_events (normalize_runtime_snapshot_state (pu_snapshot r) 9) = pushed ++ pending_events (ps_snapshot p))).
Proof.
  assert (Hu : is_Ok upload) by (vm_compute; exact I). unfold upload in Hu.
  apply after_intro; [vm_compute; exact I|]. intros r Hr. rewrite Hr in Hu. apply after_intro; [exact Hu|]. intros p Hp.
  destruct (push_uploads_in_order _ _ _ _ _ Hp) as (pushed & H1 & H2 & _). exists pushed. split; [exact H1|exact H2].
Defined.
