(* ===== verification/CcmLoad.v ===== *)
(** * Finding the compiled model on disk

    Models [Ccm::load_from_cmp] of [solver/src/ccm.rs] with [resolve_ccm_dir] of
    [ccm_format.rs] and [looks_like_multi_part_dir] of [ccm_multi_part.rs].  A
    path that names no compiled model gives the empty one; SHA-256 and the JSON
    readers and writers of the loader are the class [CcmCodec]. *)
From S2P Require Import Prelude Text CcmFormat MultiPart.
Local Open Scope N_scope.

(** What [stat] says of each path. *)
Record disk : Type := mkDisk {
  dk_files : file_system;
  dk_is_dir : string → bool;
}.

Class CcmCodec : Type := {
  cd_sha256 : list ascii → list ascii;
  cd_to_vec : PreImageManifest → result ParseError (list ascii);
  cd_top_to_vec : TopLevelPreImage → result ParseError (list ascii);
  cd_pm_to_vec : PartitionManifestPreImage → result ParseError (list ascii);
  cd_parse_manifest : list ascii → result ParseError Manifest;
  cd_parse_symbols : list ascii → result ParseError Symbols;
  cd_parse_partition_manifest : list ascii → result ParseError PartitionManifest;
}.

(** A path read backwards, without separators and [.] at its end. *)
Fixpoint strip_end (r : list ascii) : list ascii :=
  match r with
  | a :: ((b :: _) as rest) => if Ascii.eqb a "/" || Ascii.eqb a "." && Ascii.eqb b "/" then strip_end rest else r
  | _ => r
  end.

Fixpoint drop_name (r : list ascii) : list ascii :=
  match r with
  | a :: rest => if Ascii.eqb a "/" then r else drop_name rest
  | [] => []
  end.

(** [Path::parent]; the parent of a bare name is written [.], the same directory. *)
Definition parent (path : string) : option string :=
  match strip_end (reverse (bytes_of path)) with
  | [] | ["/"%char] => None
  | r => Some (match strip_end (drop_name r) with [] => "." | p => string_of (reverse p) end)
  end.

Definition is_file (d : disk) (path : string) : bool :=
  match dk_files d path with Some e => fe_is_file e | None => false end.

Definition resolve_ccm_dir (d : disk) (path : string) : option string :=
  match dk_files d path with
  | None => None
  | Some _ =>
      dir ← (if dk_is_dir d path then Some path else parent path);
      if is_file d (join dir "ccm.manifest.json") then Some dir else None
  end.

Definition looks_like_multi_part_dir (d : disk) (dir : string) : bool := is_file d (join dir "partition-manifest.json").

Section Load.
Context `{CcmCodec}.

Definition load_from_cmp (d : disk) (path : string) : result ParseError Ccm :=
  match resolve_ccm_dir d path with
  | None => Ok empty_ccm
  | Some dir =>
      if looks_like_multi_part_dir d dir then
        from_multi_part <$> (load_multi_part (dk_files d) cd_sha256 cd_to_vec cd_top_to_vec cd_pm_to_vec cd_parse_manifest
                               cd_parse_symbols cd_parse_partition_manifest dir []).1
      else Err UnsupportedSchemaVersion
  end.

Lemma load_from_cmp_cases d path c :
  load_from_cmp d path = Ok c →
  c = empty_ccm ∨ ∃ dir m, resolve_ccm_dir d path = Some dir ∧ c = from_multi_part m ∧ Forall partition_ok (partitions_of m).
Proof.
  unfold load_from_cmp. destruct (resolve_ccm_dir d path) as [dir|]; [|intros [= <-]; by left].
  destruct (looks_like_multi_part_dir d dir); [|done]. intros Hc. right. exists dir.
  destruct (load_multi_part _ _ _ _ _ _ _ _ dir []) as [[m|e] log] eqn:Em; cbn in Hc; [|done]. injection Hc as <-.
  exists m. split_and!; [done..|]. by apply load_multi_part_sound in Em as (top & pm & _ & _ & _ & _ & _ & _ & _ & ?).
Qed.
End Load.

Example parent_of_file : parent "models/pump/ccm.manifest.json" = Some "models/pump".
Proof. reflexivity. Qed.
Example parent_of_name : parent "ccm.manifest.json" = Some ".".
Proof. reflexivity. Qed.
Example parent_of_root : parent "/" = None.
Proof. reflexivity. Qed.
