(* ===== verification/Enforce.v ===== *)
(** * Constraints at run time

    Models [runtime/src/solver_validation.rs] and [write_enforcement.rs], and the
    conversion of cores of [session_compose/src/lib.rs]: a snapshot is opened only
    with a usable compiled model, and a write or a commit that the runtime API
    accepts is refused after all when the facet values the snapshot then holds
    contradict the model.  The session is that of [Session.v], generic in its
    backend; a diagnostic is its code and the entity it is about. *)
From S2P Require Import Prelude Text Schema Resolver Ir BddBytes CcmFormat MultiPart Backend Session SatBackend Mus Explain CcmLoad.
From S2P Require Import Attribution Override Runtime RuntimeOps RuntimeCommit RuntimeSync.
Local Open Scope N_scope.

Definition E_SELECTION_UNKNOWN_FACET : string := "E_SELECTION_UNKNOWN_FACET".
Definition E_SELECTION_INVALID_OPTION : string := "E_SELECTION_INVALID_OPTION".
Definition E_SELECTION_CONFLICT : string := "E_SELECTION_CONFLICT".
Definition E_SELECTION_UNSATISFIABLE : string := "E_SELECTION_UNSATISFIABLE".
Definition E_SELECTION_ENGINE_DIVERGENCE : string := "E_SELECTION_ENGINE_DIVERGENCE".
Definition CONSTRAINT_ENTITY_PATH_PREFIX : string := "constraints/".
Definition E_RUNTIME_OPEN_SOLVER_MODEL_UNAVAILABLE : string := "E_RUNTIME_OPEN_SOLVER_MODEL_UNAVAILABLE".
Definition E_RUNTIME_OPEN_FACET_DOMAIN_UNKNOWN : string := "E_RUNTIME_OPEN_FACET_DOMAIN_UNKNOWN".

Definition starts_with (prefix s : string) : bool := bool_decide (is_Some (strip_prefix prefix s)).

(** ** Cores as the compiler reports them *)

Definition atom_to_facet (a : LabeledAtom) : ConstraintFacet := mkFacet (la_facet a) (la_value a).

Definition kind_to_constraint_kind (k : CoreConstraintKind) : ConstraintKind :=
  match k with Selection => KindSelection | ModelRule => KindModelRule end.

Definition summarize_constraint (c : LabeledConstraint) : string :=
  let atoms := join_with ", " ((λ a, la_facet a +:+ "." +:+ la_value a) <$> lc_atoms c) in
  match lc_kind c with
  | Selection => "blocked by your earlier choice: " +:+ atoms
  | ModelRule => "relating " +:+ atoms
  end.

Definition constraint_to_core_clause (c : LabeledConstraint) : CoreClause :=
  mkCoreClause (kind_to_constraint_kind (lc_kind c)) (atom_to_facet <$> lc_atoms c) (summarize_constraint c)
    ((λ l, (atom_to_facet (ll_atom l), asserted l)) <$> lc_forbidden c).

Definition labeled_core_to_unsat_core (core : LabeledCore) (roster : list ConstraintRosterEntry) (domains : ClosedFacetDomains)
    : UnsatCore :=
  let declared := (λ e, mkDeclared (ce_id e) (ce_condition e) (ce_root_index e)) <$> roster in
  let rejected := atom_to_facet (Explain.rejected core) in
  mkUnsatCore rejected
    (attribute_core_clauses (constraint_to_core_clause <$> conflicting_constraints core) rejected declared domains)
    (minimal core) "one minimal explanation; other minimal cores may exist".

(** ** What a session knows *)

Definition bound_facet (s : RuntimeSnapshot) (path : string) : option string :=
  match split "."%char path with
  | [component; component_id; param; param_key] =>
      if decide (component = "component" ∧ param = "param") then
        match omap (λ sc : string * ResolvedConfig, c ← rf_components sc.2 !! component_id; rc_params c !! param_key)
                (bt_list (resolved_output s)) with
        | [p] => rp_facet p
        | _ => None
        end
      else None
  | _ => None
  end.

Record DivergentBinding : Type := mkDivergent { db_facet : string; db_first : string; db_second : string }.

Fixpoint tier_from_pairs (pairs : list (string * string)) (tier : gmap string string)
    : result DivergentBinding (gmap string string) :=
  match pairs with
  | [] => Ok tier
  | (facet, option) :: pairs =>
      match tier !! facet with
      | Some existing =>
          if decide (existing = option) then tier_from_pairs pairs tier else Err (mkDivergent facet existing option)
      | None => tier_from_pairs pairs (<[facet := option]> tier)
      end
  end.

Definition overlay_tier (s : RuntimeSnapshot) (o : overlay Value) : result DivergentBinding (gmap string string) :=
  tier_from_pairs (omap (λ pv : string * Value,
    match pv.2 with
    | VString option => (λ facet, (facet, option)) <$> bound_facet s pv.1
    | _ => None
    end) (flat_map (λ sv, bt_list sv.2) (bt_list o))) ∅.

Definition baseline_tier (s : RuntimeSnapshot) : result DivergentBinding (gmap string string) :=
  tier_from_pairs (omap (λ kp : string * ResolvedParameter,
    match rp_facet kp.2, rp_value kp.2 with
    | Some facet, VString option => Some (facet, option)
    | _, _ => None
    end) (flat_map (λ ic, bt_list (rc_params ic.2)) (flat_map (λ sc, bt_list (rf_components sc.2)) (bt_list (resolved_output s))))) ∅.

Definition facet_in (c : Ccm) (facet : string) : bool :=
  match symbols c with
  | Some y => existsb (starts_with (facet +:+ ".")) (cs_variable_order y)
  | None => false
  end.

Section Enforce.
Context {B : Type} `{SolverBackend B} {T : Type} `{SatBackend T} `{RuntimeCodec} `{SyncCodec} `{CcmCodec}.
Context (d : disk).

Definition load_ccm (path : string) : result ParseError Ccm := load_from_cmp d path.

Definition facet_present (session : Session B) (facet : string) : bool := facet_in (ccm session) facet.

(** The tiers in order; the first that has a facet decides. *)
Definition session_assignment (session : Session B) (s : RuntimeSnapshot) : result DivergentBinding (gmap string string) :=
  dirty ← overlay_tier s (dirty_overlay s);
  committed ← overlay_tier s (committed_overlay s);
  baseline ← baseline_tier s;
  Ok (foldl (λ assignment tier, foldl (λ assignment fo,
        if bool_decide (is_Some (assignment !! fo.1)) || negb (facet_present session fo.1) then assignment
        else <[fo.1 := fo.2]> assignment) assignment (bt_list tier))
      ∅ [dirty; committed; sh_choices (rs_head s); baseline]).

(** ** Opening *)

Definition ccm_usable_for_open (ccm_ref : string) : bool :=
  let ccm_ref := trim ccm_ref in
  if decide (ccm_ref = String.EmptyString) then false
  else match load_ccm ccm_ref with
       | Err _ => false
       | Ok c => match new (B := B) c with
                 | Err _ => false
                 | Ok session => bool_decide (is_Some (symbols (ccm session)))
                 end
       end.

Definition hex_digit_lower (b : ascii) : option N :=
  let n := N_of_ascii b in
  if (48 <=? n) && (n <=? 57) then Some (n - 48)
  else if (97 <=? n) && (n <=? 102) then Some (n - 97 + 10)
  else None.

Definition decode_sha256_hex (hex : string) : option (list ascii) :=
  let bytes := bytes_of hex in
  if decide (length bytes ≠ 64%nat) then None
  else mapM (λ index,
    high ← bytes !! (index * 2)%nat ≫= hex_digit_lower;
    low ← bytes !! (index * 2 + 1)%nat ≫= hex_digit_lower;
    Some (byte (N.lor (N.shiftl high 4) low))) (seq 0 32).

Definition ccm_bound_to_model (c : Ccm) (model_hash : string) : bool :=
  match decode_sha256_hex model_hash with
  | Some claimed => bool_decide (claimed = bound_model_hash c)
  | None => false
  end.

Definition unknown_facet_domain_symbol (s : RuntimeSnapshot) (c : Ccm) : option string :=
  if decide (sh_closed_facet_domains (rs_head s) = ∅) then None
  else
    y ← symbols c;
    head (List.filter (λ symbol, bool_decide (symbol ∉ cs_variable_order y))
            (flat_map (λ fv, (λ value, fv.1 +:+ "." +:+ value) <$> bt_elements fv.2) (bt_list (sh_closed_facet_domains (rs_head s))))).

Definition solver_model_error : Diagnostic :=
  mkDiagnostic E_RUNTIME_OPEN_SOLVER_MODEL_UNAVAILABLE "runtime_open_request.ccm_ref".

Definition runtime_open_with_solver_validation (r : RuntimeOpenRequest) (now : N) : runtime RuntimeSnapshot :=
  s ← runtime_open r now;
  _ ← bail_if (negb (ccm_usable_for_open (sh_ccm_ref (rs_head s)))) solver_model_error;
  c ← map_err (λ _, solver_model_error) (load_ccm (trim (sh_ccm_ref (rs_head s))));
  _ ← bail_if (negb (ccm_bound_to_model c (sh_model_hash (rs_head s)))) solver_model_error;
  match unknown_facet_domain_symbol s c with
  | Some _ => Err (mkDiagnostic E_RUNTIME_OPEN_FACET_DOMAIN_UNKNOWN "runtime_open_request.closed_facet_domains")
  | None => Ok s
  end.

(** ** Writing *)

Record ConstraintRejection : Type := mkRejection {
  cr_diagnostic : Diagnostic;
  cr_core : option UnsatCore;
  cr_core_facets : gset string;
}.

Definition explain_core (session : Session B) (facet option : string) (domains : ClosedFacetDomains) : Datatypes.option UnsatCore :=
  match explain_rejection (T := T) session facet option with
  | Ok (mkExplanation true (Some core)) => Some (labeled_core_to_unsat_core core (constraint_roster (ccm session)) domains)
  | _ => None
  end.

Definition named_constraint (core : UnsatCore) : option (string * string) :=
  head (omap (λ c, (λ id, (id, cc_summary c)) <$> cc_constraint_id c) (uc_conflicting_constraints core)).

Definition core_facets (core : UnsatCore) : gset string :=
  {[cf_facet (uc_rejected core)]} ∪ list_to_set (flat_map (λ c, cf_facet <$> cc_facets c) (uc_conflicting_constraints core)).

(** The entity a conflict is reported on. *)
Definition conflict_entity (core : option UnsatCore) (otherwise : string) : string :=
  match core ≫= named_constraint with
  | Some (id, _) => CONSTRAINT_ENTITY_PATH_PREFIX +:+ id
  | None => otherwise
  end.

Definition conflict_rejection (core : option UnsatCore) (otherwise : string) : ConstraintRejection :=
  mkRejection (mkDiagnostic E_SELECTION_CONFLICT (conflict_entity core otherwise)) core (default ∅ (core_facets <$> core)).

Definition write_conflict (session : Session B) (facet option write_path : string) (domains : ClosedFacetDomains) : ConstraintRejection :=
  conflict_rejection (explain_core session facet option domains) write_path.

Definition pre_existing_conflict (session : Session B) (facet option : string) (written_paths : list string)
    (domains : ClosedFacetDomains) : ConstraintRejection :=
  conflict_rejection (explain_core session facet option domains) (default ("facet:" +:+ facet) (head written_paths)).

Definition divergent_binding_rejection (b : DivergentBinding) : ConstraintRejection :=
  mkRejection (mkDiagnostic E_SELECTION_ENGINE_DIVERGENCE ("facet:" +:+ db_facet b)) None ∅.

Definition typed_rejection (code write_path : string) : ConstraintRejection := mkRejection (mkDiagnostic code write_path) None ∅.

Definition solver_fault_rejection (param_key : string) : ConstraintRejection :=
  mkRejection (mkDiagnostic E_SELECTION_ENGINE_DIVERGENCE ("facet:" +:+ param_key)) None ∅.

(** What the operation did not write, in order. *)
Fixpoint replay_others (session : Session B) (operation_facets : gset string) (written_paths : list string)
    (domains : ClosedFacetDomains) (l : list (string * string)) : result ConstraintRejection (Session B) :=
  match l with
  | [] => Ok session
  | (facet, option) :: l =>
      if decide (facet ∈ operation_facets) then replay_others session operation_facets written_paths domains l
      else
        match apply session facet option with
        | (Ok _, session) => replay_others session operation_facets written_paths domains l
        | (Err (UnknownFacet _), session) | (Err (UnknownOption _ _), session) =>
            replay_others session operation_facets written_paths domains l
        | (Err (Conflict facet value), session) => Err (pre_existing_conflict session facet value written_paths domains)
        | (Err _, _) => Err (solver_fault_rejection facet)
        end
  end.

(** What it wrote. *)
Fixpoint replay_written (session : Session B) (operation_facets : gset string) (assignment : gmap string string)
    (domains : ClosedFacetDomains) (l : list (string * string)) : result ConstraintRejection (Session B) :=
  match l with
  | [] => Ok session
  | (path, facet) :: l =>
      if decide (facet ∉ operation_facets) then replay_written session operation_facets assignment domains l
      else
        match assignment !! facet with
        | None => replay_written session operation_facets assignment domains l
        | Some option =>
            match apply session facet option with
            | (Err (Conflict facet value), session) => Err (write_conflict session facet value path domains)
            | (Err (UnknownOption _ _), _) => Err (typed_rejection E_SELECTION_INVALID_OPTION path)
            | (Err (UnknownFacet _), _) => Err (typed_rejection E_SELECTION_UNKNOWN_FACET path)
            | (Err _, _) => Err (solver_fault_rejection facet)
            | (Ok _, session) =>
                match valid_options session facet with
                | Ok options =>
                    if (Session.count options =? 0)%nat then Err (typed_rejection E_SELECTION_UNSATISFIABLE path)
                    else replay_written session operation_facets assignment domains l
                | Err _ => replay_written session operation_facets assignment domains l
                end
            end
        end
  end.

Definition written_le (a b : string * string) : Prop := String.le a.1 b.1.
#[export] Instance written_le_dec a b : Decision (written_le a b).
Proof. unfold written_le. apply _. Defined.

Definition written_facets (s : RuntimeSnapshot) (written_paths : list string) : list (string * string) :=
  merge_sort written_le (omap (λ path, pair path <$> bound_facet s path) written_paths).

Definition rejection_of {A} (r : result ConstraintRejection A) : option ConstraintRejection :=
  match r with Ok _ => None | Err rejection => Some rejection end.

Definition enforce_write_constraints (s : RuntimeSnapshot) (written_paths : list string) : option ConstraintRejection :=
  let written := written_facets s written_paths in
  let fail_closed := solver_fault_rejection ∘ snd <$> head written in
  match load_ccm (trim (sh_ccm_ref (rs_head s))) with
  | Err _ => fail_closed
  | Ok c =>
      match new c with
      | Err _ => fail_closed
      | Ok session =>
          let operation_facets := list_to_set (List.filter (facet_present session) written.*2) in
          if decide (written_paths ≠ [] ∧ operation_facets = ∅) then None
          else
            match session_assignment session s with
            | Err divergence => Some (divergent_binding_rejection divergence)
            | Ok assignment =>
                if decide (assignment = ∅) then None
                else rejection_of (
                  session ← replay_others session operation_facets written_paths (sh_closed_facet_domains (rs_head s)) (bt_list assignment);
                  replay_written session operation_facets assignment (sh_closed_facet_domains (rs_head s)) written)
            end
      end
  end.

(** ** The three commands *)

(** The operation's own refusal, or one by the constraints: its diagnostic, the
    core of a conflict and the paths of a batch that take part in it. *)
Inductive refusal : Type :=
  | OperationRefused (x : Diagnostic)
  | ConstraintRefused (x : Diagnostic) (core : option UnsatCore) (rejected_paths : list string).

Definition set_parameter_with_solver_validation (version : N) (s : RuntimeSnapshot) (path : string) (v : Value) (intent : OverrideIntent)
    (actor reason : option string) (now : N) : result refusal (RuntimeSnapshot * RuntimeParameterPayload) :=
  '(s, payload) ← map_err OperationRefused (set_parameter version s path v intent actor reason now);
  match enforce_write_constraints s [path] with
  | Some rejection => Err (ConstraintRefused (cr_diagnostic rejection) (cr_core rejection) [])
  | None => Ok (s, payload)
  end.

(** The writes that take part in the violation. *)
Definition participating (s : RuntimeSnapshot) (paths : list string) (facets : gset string) : list string :=
  let touched := List.filter (λ path, match bound_facet s path with Some facet => bool_decide (facet ∈ facets) | None => false end) paths in
  sort_paths (match touched with [] => paths | _ => touched end).

Definition set_parameters_atomically_with_solver_validation (version : N) (s : RuntimeSnapshot) (writes : list (string * Value))
    (actor : string) (reason expected_working : option string) (intent : OverrideIntent) (now : N)
    : result refusal (RuntimeSnapshot * N) :=
  '(s, generation) ← map_err OperationRefused (set_parameters_atomically version s writes actor reason expected_working intent now);
  match enforce_write_constraints s writes.*1 with
  | Some rejection => Err (ConstraintRefused (cr_diagnostic rejection) (cr_core rejection) (participating s writes.*1 (cr_core_facets rejection)))
  | None => Ok (s, generation)
  end.

Definition commit_configuration_with_solver_validation (version : N) (s : RuntimeSnapshot) (actor : string)
    (reason expected_base : option string) (changed_paths_hint : list string) (now now' : N) : result refusal CommitConfigurationResult :=
  r ← map_err OperationRefused (commit_configuration version s actor reason expected_base changed_paths_hint now now');
  match enforce_write_constraints (cm_snapshot r) [] with
  | Some rejection => Err (ConstraintRefused (cr_diagnostic rejection) (cr_core rejection) [])
  | None => Ok r
  end.
End Enforce.
