(* ===== verification/EnforceProps.v ===== *)
(** * What enforcement guarantees

    A write or commit that is accepted leaves the facet values a snapshot knows
    compatible with the model; one that is refused as a conflict does not; and a
    snapshot that is opened has one usable model, the one it is bound to. *)
From S2P Require Import Prelude Text Schema Resolver Ir Bdd BddBytes CcmFormat MultiPart Backend Session SessionProps SatBackend Mus Explain CuddBackend SessionTrace CcmLoad.
From S2P Require Import ResolverProps Attribution Override Runtime RuntimeOps RuntimeCommit RuntimeProps RuntimeCommitProps RuntimeSync Enforce.
Local Open Scope N_scope.

(** ** Tables look at their own variables *)

Lemma table_eval_below var_count nodes id rho rho' :
  canonical_table var_count nodes → (∀ i, i < var_count → rho i = rho' i) → table_eval nodes id rho = table_eval nodes id rho'.
Proof.
  intros Hct E. unfold table_eval. generalize (S (length nodes)). intros fuel. revert id. induction fuel as [|fuel IH]; intros id; cbn; [done|].
  destruct (id =? TERMINAL_FALSE); [done|]. destruct (id =? TERMINAL_TRUE); [done|]. destruct (nodes !! N.to_nat id) as [n|] eqn:En; [|done].
  destruct (N.eqb_spec (bn_var_index n) TERMINAL_VAR_INDEX) as [|Hv]; [done|]. apply (ct_node _ _ Hct) in En. unfold node_ok in En.
  rewrite decide_False in En by done. destruct En as (Hlt & _). rewrite E by done. by rewrite !IH.
Qed.

(** A model with a symbol table of its own has one partition. *)
Lemma single_partition m y :
  symbols (from_multi_part m) = Some y →
  ∃ p, mp_clusters m = [p] ∧ mp_bridge m = None ∧ cs_variable_order y = variable_order (pt_symbols p).
Proof.
  unfold from_multi_part. destruct (mp_bridge m) as [b|]; [done|]. destruct (mp_clusters m) as [|p [|]]; cbn; [done| |done].
  intros [= <-]. by exists p.
Qed.

Section Single.
Context {B : Type} `{BackendContract B}.
Context (m : MultiPartCcm) (p : PartitionCcm).
Context (Hm : mp_clusters m = [p]) (Hb : mp_bridge m = None) (Hload : loadable p).

Notation order := (variable_order (pt_symbols p)).

Definition position (c : string) : option N := a_var (apart_of 0 p) c.

(** The table and the selections [cs]. *)
Definition chosen (cs : list string) (rho : N → bool) : bool :=
  table_eval (bp_nodes (pt_bdd p)) (root_of p) rho && forallb (λ c, match position c with Some v => rho v | None => true end) cs.

(** The session has the selections [cs], together possible. *)
Record holding (s : Session B) (cs : list string) : Prop := {
  hd_ccm : ccm s = from_multi_part m;
  hd_refines : ∃ a ap, refines s a ∧ a_parts a = [ap] ∧ a_order ap = order ∧ ∀ rho, a_fun ap rho = chosen cs rho;
  hd_known : Forall (λ c, c ∈ order) cs;
  hd_sat : cs ≠ [] → satisfiable_fun (chosen cs);
}.

Lemma partitions_single : partitions_of m = [p].
Proof. unfold partitions_of. by rewrite Hm, Hb. Qed.

Lemma holding_new s : new (from_multi_part m) = Ok s → holding s [].
Proof.
  intros Hn. pose proof (new_spec (B := B) (from_multi_part m) m) as Hs. rewrite Hn in Hs.
  destruct Hs as (Hr & _ & _); [unfold from_multi_part; by rewrite Hm, Hb|rewrite partitions_single; constructor; [done|constructor]|rewrite Hm; vm_compute; done|].
  split; [by apply new_ccm in Hn| |constructor|done]. exists (a_initial m), (apart_of 0 p). split_and!; [done| |done|].
  - unfold a_initial. rewrite Hm, Hb. done.
  - intros rho. unfold chosen. cbn. by rewrite andb_true_r.
Qed.

Lemma position_Some c : is_Some (position c) ↔ c ∈ order.
Proof.
  unfold position. split.
  - intros [v Hv%a_var_Some]. by eapply list_elem_of_lookup_2.
  - intros [i Hi]%list_elem_of_lookup. exists (N.of_nat i). apply a_var_lookup; [apply (po_names _ (la_ok _ Hload))|done].
Qed.

Lemma chosen_snoc cs c rho v : position c = Some v → chosen (cs ++ [c]) rho = chosen cs rho && rho v.
Proof. intros Hv. unfold chosen. rewrite forallb_app. cbn [forallb]. by rewrite Hv, andb_true_r, andb_assoc. Qed.

Lemma holding_unsymbolled s cs : holding s cs → unsymbolled s = false.
Proof. intros Hh. unfold unsymbolled. rewrite (hd_ccm _ _ Hh). unfold from_multi_part. by rewrite Hm, Hb. Qed.

(** One selection. *)
Lemma apply_holding s cs facet value :
  holding s cs →
  let c := facet +:+ "." +:+ value in
  match apply s facet value with
  | (Ok _, s') => c ∈ order ∧ holding s' (cs ++ [c])
  | (Err e, s') =>
      holding s' cs ∧
      match e with
      | UnknownOption _ _ => c ∉ order
      | Conflict _ _ => c ∈ order ∧ ∀ rho, chosen (cs ++ [c]) rho = false
      | BackendFailed _ => True
      | _ => False
      end
  end.
Proof.
  intros Hh. cbn zeta. pose proof Hh as [Hc (a & ap & Hr & Hp & Ho & Hf) Hk Hs].
  pose proof (session_apply_spec s a facet value Hr (holding_unsymbolled s cs Hh)) as Ha. pose proof (apply_ccm s facet value) as Hccm.
  set (c := facet +:+ "." +:+ value) in *. assert (Hvar : a_var ap c = position c) by (unfold a_var, position, a_var; by rewrite Ho).
  assert (Hown : a_owners a c = if decide (is_Some (position c)) then [ap] else []).
  { unfold a_owners. rewrite Hp. cbn. rewrite Hvar. case_decide; [by rewrite bool_decide_eq_true_2|by rewrite bool_decide_eq_false_2]. }
  destruct (apply s facet value) as [[u|e] s']; cbn in Ha, Hccm.
  - destruct Ha as (Hr' & Hne & Hsel & _). fold c in Hne, Hsel, Hr'. rewrite Hown in Hne, Hsel. case_decide as Hd; [|done].
    assert (Hin : c ∈ order) by by apply position_Some. split; [done|]. destruct Hd as [v Hv].
    assert (Hch : ∀ rho, a_fun (a_select c ap) rho = chosen (cs ++ [c]) rho).
    { intros rho. unfold a_select. rewrite Hvar, Hv. cbn. by rewrite Hf, (chosen_snoc _ _ _ _ Hv). }
    split; [by rewrite Hccm| |apply Forall_app; by repeat constructor|].
    + exists (a_apply a c), (a_select c ap). split_and!; [done|by cbn; rewrite Hp|unfold a_select; by destruct (a_var ap c)|done].
    + intros _ Hno. apply Forall_cons_1 in Hsel as [Hsel _]. apply (Hsel v); [by rewrite Hvar|]. intros rho.
      by rewrite Hf, <-(chosen_snoc _ _ _ _ Hv).
  - destruct Ha as [(Hr' & _) He].
    assert (Hh' : holding s' cs) by (split; [by rewrite Hccm|by exists a, ap|done|done]). split; [done|].
    destruct e; try done; fold c in He; rewrite Hown in He.
    + destruct He as (_ & _ & He). case_decide as Hd; [done|]. by rewrite position_Some in Hd.
    + destruct He as (_ & _ & q & v & Hq & Hv & Hno). case_decide; [|by apply not_elem_of_nil in Hq].
      apply list_elem_of_singleton in Hq as ->. rewrite Hvar in Hv. split; [by apply position_Some|]. intros rho. by rewrite (chosen_snoc _ _ _ _ Hv), <-Hf.
    + case_decide; cbn in He; lia.
Qed.

(** ** Replaying *)

Definition symbol (fo : string * string) : string := fo.1 +:+ "." +:+ fo.2.

(** The symbols of the table among the pairs. *)
Definition known (l : list (string * string)) : list string := filter (λ c, c ∈ order) (symbol <$> l).

Lemma known_app l k : known (l ++ k) = known l ++ known k.
Proof. unfold known. by rewrite fmap_app, filter_app. Qed.

Lemma known_cons fo l : known (fo :: l) = known [fo] ++ known l.
Proof. apply (known_app [fo]). Qed.

Lemma known_in fo : symbol fo ∈ order → known [fo] = [symbol fo].
Proof. intros Hin. unfold known. cbn. by rewrite decide_True. Qed.

Lemma known_out fo : symbol fo ∉ order → known [fo] = [].
Proof. intros Hin. unfold known. cbn. by rewrite decide_False. Qed.

Lemma chosen_false_more cs cs' : cs ⊆ cs' → (∀ rho, chosen cs rho = false) → ∀ rho, chosen cs' rho = false.
Proof.
  intros Hsub Hno rho. specialize (Hno rho). unfold chosen in *. destruct (table_eval _ _ rho); [|done]. cbn [andb] in *.
  apply not_true_iff_false. intros Ha. rewrite forallb_forall in Ha. apply not_true_iff_false in Hno. apply Hno.
  apply forallb_forall. intros c Hc. apply Ha, list_elem_of_In, Hsub. by apply list_elem_of_In.
Qed.

Lemma prefix_subseteq {A} (l k : list A) : l ⊆ l ++ k.
Proof. intros x. rewrite elem_of_app. by left. Qed.

Context {T : Type} `{SatBackend T}.

(** A refusal as a conflict means that the selections [cs] contradict the table. *)
Definition conflict_means (r : ConstraintRejection) (cs : list string) : Prop :=
  dg_code (cr_diagnostic r) = E_SELECTION_CONFLICT → ∀ rho, chosen cs rho = false.

Lemma conflict_means_more r cs cs' : cs ⊆ cs' → conflict_means r cs → conflict_means r cs'.
Proof. intros Hsub Hr Hc. apply (chosen_false_more cs); [done|]. by apply Hr. Qed.

Lemma no_conflict code entity core facets cs : code ≠ E_SELECTION_CONFLICT → conflict_means (mkRejection (mkDiagnostic code entity) core facets) cs.
Proof. intros Hn Hc. done. Qed.

Definition others (ops : gset string) (l : list (string * string)) : list (string * string) := filter (λ fo, fo.1 ∉ ops) l.

Lemma replay_others_holding ops paths domains l s cs :
  holding s cs →
  match replay_others (T := T) s ops paths domains l with
  | Ok s' => holding s' (cs ++ known (others ops l))
  | Err r => conflict_means r (cs ++ known (others ops l))
  end.
Proof.
  revert s cs. induction l as [|[facet option] l IH]; intros s cs Hh; cbn [replay_others]; [by rewrite app_nil_r|]. unfold others. rewrite filter_cons. fold (others ops l).
  cbn [fst]. case_decide as Hd; [rewrite decide_False by tauto; by apply IH|]. rewrite decide_True by done. rewrite known_cons.
  pose proof (apply_holding s cs facet option Hh) as Ha. cbn zeta in Ha. change (facet +:+ "." +:+ option) with (symbol (facet, option)) in Ha.
  destruct (apply s facet option) as [[u|e] s'].
  - destruct Ha as [Hin Hh']. rewrite (known_in _ Hin), app_assoc. by apply IH.
  - destruct Ha as [Hh' He]. destruct e as [b|f|f v|f v|msg|]; try done.
    + rewrite (known_out _ He). cbn [app]. by apply IH.
    + destruct He as [Hin He]. rewrite (known_in _ Hin), app_assoc.
      apply (conflict_means_more _ (cs ++ [symbol (facet, option)])); [apply prefix_subseteq|]. by intros _.
Qed.

(** What was written, with the values the assignment has for it. *)
Definition assigned (ops : gset string) (assignment : gmap string string) (l : list (string * string)) : list (string * string) :=
  omap (λ pf, if decide (pf.2 ∈ ops) then pair pf.2 <$> assignment !! pf.2 else None) l.

Lemma replay_written_holding ops assignment domains l s cs :
  holding s cs →
  match replay_written (T := T) s ops assignment domains l with
  | Ok s' => Forall (λ fo, symbol fo ∈ order) (assigned ops assignment l) ∧ holding s' (cs ++ known (assigned ops assignment l))
  | Err r => conflict_means r (cs ++ known (assigned ops assignment l))
  end.
Proof.
  revert s cs. induction l as [|[path facet] l IH]; intros s cs Hh; cbn [replay_written assigned omap list_omap]; [by rewrite app_nil_r|].
  cbn [snd]. fold (assigned ops assignment l). case_decide as Hd; [rewrite decide_False by done; by apply IH|]. rewrite decide_True by tauto.
  destruct (assignment !! facet) as [option|]; cbn [fmap option_fmap option_map]; [|by apply IH]. rewrite known_cons.
  pose proof (apply_holding s cs facet option Hh) as Ha. cbn zeta in Ha. change (facet +:+ "." +:+ option) with (symbol (facet, option)) in Ha.
  destruct (apply s facet option) as [[u|e] s'].
  - destruct Ha as [Hin Hh']. rewrite (known_in _ Hin), app_assoc.
    assert (IH' : match replay_written (T := T) s' ops assignment domains l with
      | Ok s'0 => Forall (λ fo, symbol fo ∈ order) ((facet, option) :: assigned ops assignment l) ∧
                  holding s'0 ((cs ++ [symbol (facet, option)]) ++ known (assigned ops assignment l))
      | Err r => conflict_means r ((cs ++ [symbol (facet, option)]) ++ known (assigned ops assignment l))
      end).
    { specialize (IH s' _ Hh'). destruct (replay_written _ _ _ _ _); [|done]. destruct IH. split; [by constructor|done]. }
    destruct (valid_options s' facet) as [options|]; [|done]. destruct (_ =? 0)%nat; [by apply no_conflict|done].
  - destruct Ha as [Hh' He]. destruct e as [b|f|f v|f v|msg|]; try done.
    destruct He as [Hin He]. rewrite (known_in _ Hin), app_assoc.
    apply (conflict_means_more _ (cs ++ [symbol (facet, option)])); [apply prefix_subseteq|]. by intros _.
Qed.

(** ** Selections and configurations *)

Lemma feasible_chosen pins cs tau : feasible m pins tau → (∀ c, c ∈ cs → c ∈ pins) → chosen cs (locals p tau) = true.
Proof.
  intros [Hp Hpins] Hsub. unfold chosen. rewrite partitions_single in Hp by done. apply Forall_cons_1 in Hp as [Hp _]. unfold part_holds in Hp.
  apply andb_true_iff. split; [exact Hp|]. apply forallb_forall. intros c Hc%list_elem_of_In. destruct (position c) as [v|] eqn:Ev; [|done].
  apply a_var_Some in Ev. cbn in Ev. unfold locals. rewrite Ev. cbn. by apply Hpins, Hsub.
Qed.

Definition named_by (rho : N → bool) (c : string) : bool := match position c with Some v => rho v | None => false end.

Lemma chosen_feasible (pins : gset string) cs rho :
  chosen cs rho = true → Forall (λ c, c ∈ order) cs → (∀ c, c ∈ pins → c ∈ cs) → feasible m pins (named_by rho).
Proof.
  intros [Ht Hc]%andb_true_iff Hk Hsub. split.
  - rewrite partitions_single. constructor; [|constructor]. unfold part_holds. rewrite <-Ht.
    apply (table_eval_below _ _ _ _ _ (po_table _ (la_ok _ Hload))). intros i Hi. rewrite (po_vars _ (la_ok _ Hload)) in Hi.
    destruct (lookup_lt_is_Some_2 order (N.to_nat i)) as [c Ec]; [lia|]. rewrite Ec. cbn. unfold named_by, position.
    rewrite (a_var_lookup _ c (N.to_nat i)), N2Nat.id; [done|apply (po_names _ (la_ok _ Hload))|done].
  - intros c Hin%Hsub. rewrite forallb_forall in Hc. specialize (Hc c). rewrite <-list_elem_of_In in Hc. specialize (Hc Hin).
    rewrite Forall_forall in Hk. apply Hk, position_Some in Hin as [v Hv]. unfold named_by. by rewrite Hv in Hc |- *.
Qed.
End Single.

(** ** Enforcement *)

(** The selections of the model among the facet values a snapshot knows. *)
Definition pins_of (p : PartitionCcm) (assignment : gmap string string) : gset string := list_to_set (known p (bt_list assignment)).

Lemma elem_known p l c : c ∈ known p l ↔ c ∈ variable_order (pt_symbols p) ∧ ∃ fo, c = symbol fo ∧ fo ∈ l.
Proof. unfold known. rewrite list_elem_of_filter, list_elem_of_fmap. done. Qed.

Lemma replayed_pins p ops assignment written c :
  (∀ f, f ∈ ops → f ∈ written.*2) →
  c ∈ known p (others ops (bt_list assignment)) ++ known p (assigned ops assignment written) ↔ c ∈ pins_of p assignment.
Proof.
  intros Hops. unfold pins_of. rewrite elem_of_list_to_set, elem_of_app, !elem_known. split.
  - intros [(Ho & [f o] & -> & Hin)|(Ho & [f o] & -> & Hin)]; (split; [done|]); exists (f, o); (split; [done|]).
    + by apply list_elem_of_filter in Hin as [_ Hin].
    + unfold assigned in Hin. apply list_elem_of_omap in Hin as ([path g] & _ & Hin). cbn in Hin. case_decide; [|done].
      apply fmap_Some in Hin as (o' & Ho' & [= -> ->]). by apply elem_bt_list.
  - intros (Ho & [f o] & -> & Hin). destruct (decide (f ∈ ops)) as [Hf|Hf].
    + right. split; [done|]. exists (f, o). split; [done|]. pose proof (Hops f Hf) as Hw. apply list_elem_of_fmap in Hw. destruct Hw as ([path g] & Eg & Hw). cbn in Eg. subst g.
      unfold assigned. apply list_elem_of_omap. exists (path, f). split; [done|]. cbn. rewrite decide_True by done. apply elem_bt_list in Hin. cbn [snd]. by rewrite Hin.
    + left. split; [done|]. exists (f, o). split; [done|]. by apply list_elem_of_filter.
Qed.

Definition consistent (m : MultiPartCcm) (pins : gset string) : Prop := ¬ ∀ tau, ¬ feasible m pins tau.

Section Enforcement.
Context {B : Type} `{BackendContract B} {T : Type} `{SatBackend T} `{RuntimeCodec} `{SyncCodec} `{CcmCodec} (d : disk).
Context (m : MultiPartCcm) (p : PartitionCcm).
Context (Hm : mp_clusters m = [p]) (Hb : mp_bridge m = None) (Hload : loadable p).

(** The replay, from a new session. *)
Lemma replay_decides (session : Session B) ops paths domains assignment written :
  new (from_multi_part m) = Ok session → (∀ f, f ∈ ops → f ∈ written.*2) →
  match (s ← replay_others (T := T) session ops paths domains (bt_list assignment); replay_written (T := T) s ops assignment domains written) with
  | Ok _ =>
      (pins_of p assignment = ∅ ∨ consistent m (pins_of p assignment)) ∧
      Forall (λ fo, symbol fo ∈ variable_order (pt_symbols p)) (assigned ops assignment written)
  | Err r => dg_code (cr_diagnostic r) = E_SELECTION_CONFLICT → ∀ tau, ¬ feasible m (pins_of p assignment) tau
  end.
Proof.
  intros Hn Hops. pose proof (λ c, replayed_pins p ops assignment written c Hops) as Hpins.
  set (cs := known p (others ops (bt_list assignment)) ++ known p (assigned ops assignment written)) in *.
  assert (Hno : ∀ r, conflict_means p r cs → dg_code (cr_diagnostic r) = E_SELECTION_CONFLICT → ∀ tau, ¬ feasible m (pins_of p assignment) tau).
  { intros r Hr Hc tau Hf. pose proof (feasible_chosen m p Hm Hb _ cs tau Hf) as Ht. rewrite (Hr Hc) in Ht. discriminate Ht. intros c. apply Hpins. }
  pose proof (replay_others_holding m p Hm Hb Hload (T := T) ops paths domains (bt_list assignment) session [] (holding_new m p Hm Hb Hload session Hn)) as Hro.
  destruct (replay_others _ _ _ _ _) as [s1|r]; cbn [mbind result_bind]; [|apply Hno; eapply conflict_means_more; [apply prefix_subseteq|exact Hro]].
  pose proof (replay_written_holding m p Hm Hb Hload (T := T) ops assignment domains written s1 _ Hro) as Hrw.
  destruct (replay_written _ _ _ _ _) as [s2|r]; [|by apply Hno]. destruct Hrw as [Hk Hh]. split; [|done].
  destruct (decide (pins_of p assignment = ∅)) as [|Hne]; [by left|right]. intros Hinf.
  apply (hd_sat _ _ _ _ Hh); [intros E; apply Hne; apply set_eq; intros c; rewrite <-Hpins; unfold cs; cbn [app] in E; rewrite E; set_solver|].
  intros rho. apply not_true_iff_false. intros Hc. apply (Hinf (named_by p rho)).
  apply (chosen_feasible m p Hm Hb Hload (pins_of p assignment) _ rho Hc (hd_known _ _ _ _ Hh)). intros c. apply Hpins.
Qed.

(** Whether the constraints govern an operation. *)
Definition governed (s : RuntimeSnapshot) (paths : list string) : Prop :=
  paths = [] ∨ ∃ path f, path ∈ paths ∧ bound_facet s path = Some f ∧ facet_in (from_multi_part m) f = true.

Lemma elem_written s paths path f : (path, f) ∈ written_facets s paths ↔ path ∈ paths ∧ bound_facet s path = Some f.
Proof.
  unfold written_facets. rewrite (merge_sort_Permutation written_le), list_elem_of_omap. split.
  - intros (path' & Hin & Hf). apply fmap_Some in Hf as (f' & Hf' & [= -> ->]). done.
  - intros [Hin Hf]. exists path. by rewrite Hf.
Qed.

Lemma enforce_decides (session : Session B) s paths assignment :
  load_ccm d (trim (sh_ccm_ref (rs_head s))) = Ok (from_multi_part m) → new (from_multi_part m) = Ok session →
  session_assignment session s = Ok assignment → governed s paths →
  match enforce_write_constraints (B := B) (T := T) d s paths with
  | None =>
      (pins_of p assignment = ∅ ∨ consistent m (pins_of p assignment)) ∧
      ∀ path f o, path ∈ paths → bound_facet s path = Some f → facet_in (from_multi_part m) f = true → assignment !! f = Some o →
        f +:+ "." +:+ o ∈ variable_order (pt_symbols p)
  | Some r => dg_code (cr_diagnostic r) = E_SELECTION_CONFLICT → ∀ tau, ¬ feasible m (pins_of p assignment) tau
  end.
Proof.
  intros Hl Hn Ha Hg. unfold enforce_write_constraints. rewrite Hl, Hn, Ha. cbn zeta.
  set (written := written_facets s paths). set (ops := list_to_set (List.filter (facet_present session) written.*2) : gset string).
  assert (Hccm : ccm session = from_multi_part m) by by apply new_ccm in Hn.
  assert (Hops : ∀ f, f ∈ ops ↔ f ∈ written.*2 ∧ facet_in (from_multi_part m) f = true).
  { intros f. unfold ops. rewrite elem_of_list_to_set, list_elem_of_In, List.filter_In, <-list_elem_of_In. unfold facet_present. by rewrite Hccm. }
  assert (Hwr : ∀ path f, path ∈ paths → bound_facet s path = Some f → facet_in (from_multi_part m) f = true → f ∈ ops).
  { intros path f Hin Hf Hp. apply Hops. split; [|done]. apply list_elem_of_fmap. exists (path, f). split; [done|]. by apply elem_written. }
  case_decide as Hd; [exfalso; destruct Hd as [Hd1 Hd2]; destruct Hg as [|(path & f & Hin & Hf & Hp)]; [done|];
    pose proof (Hwr _ _ Hin Hf Hp) as Hx; rewrite Hd2 in Hx; set_solver|].
  case_decide as He.
  { subst assignment. split; [left; unfold pins_of, bt_list; apply set_eq; intros c; rewrite elem_of_list_to_set, elem_known|].
    - split; [|set_solver]. intros (_ & fo & _ & Hin). by apply not_elem_of_nil in Hin.
    - intros path f o _ _ _ Ho. by rewrite lookup_empty in Ho. }
  pose proof (replay_decides session ops paths (sh_closed_facet_domains (rs_head s)) assignment written Hn) as Hr.
  destruct (_ ≫= _) as [s'|r]; cbn [rejection_of].
  - destruct Hr as [Hc Hk]; [intros f Hf; by apply Hops|]. split; [done|]. intros path f o Hin Hf Hp Ho.
    rewrite Forall_forall in Hk. apply (Hk (f, o)). unfold assigned. apply list_elem_of_omap. exists (path, f).
    split; [by apply elem_written|]. cbn. rewrite decide_True by by eapply Hwr. by rewrite Ho.
  - apply Hr. intros f Hf. by apply Hops.
Qed.
End Enforcement.

(** ** What a session knows *)

Lemma tier_from_pairs_spec pairs tier tier' :
  tier_from_pairs pairs tier = Ok tier' →
  tier ⊆ tier' ∧ (∀ f o, (f, o) ∈ pairs → tier' !! f = Some o) ∧ ∀ f o, tier' !! f = Some o → tier !! f = Some o ∨ (f, o) ∈ pairs.
Proof.
  revert tier. induction pairs as [|[g v] pairs IH]; intros tier; cbn; [intros [= <-]; set_solver|].
  destruct (tier !! g) as [e|] eqn:Eg.
  - case_decide as Hd; [subst e|done]. intros (H1 & H2 & H3)%IH. split_and!; [done| |set_solver].
    intros f o [[= -> ->]|Hin]%elem_of_cons; [|by apply H2]. by eapply lookup_weaken.
  - intros (H1 & H2 & H3)%IH. split_and!.
    + etrans; [|exact H1]. by apply insert_subseteq.
    + intros f o [[= -> ->]|Hin]%elem_of_cons; [|by apply H2]. eapply lookup_weaken; [|exact H1]. apply lookup_insert_eq.
    + intros f o Ho. destruct (H3 f o Ho) as [[[<- <-]|[_ ?]]%lookup_insert_Some|?]; set_solver.
Qed.

Section Known.
Context (present : string → bool).

(** One tier over what is known already. *)
Definition add_tier (assignment tier : gmap string string) : gmap string string :=
  foldl (λ assignment fo, if bool_decide (is_Some (assignment !! fo.1)) || negb (present fo.1) then assignment
                          else <[fo.1 := fo.2]> assignment) assignment (bt_list tier).

Lemma add_tier_lookup assignment tier f :
  add_tier assignment tier !! f = match assignment !! f with Some o => Some o | None => if present f then tier !! f else None end.
Proof.
  assert (E : tier !! f = (list_to_map (bt_list tier) : gmap string string) !! f) by (by rewrite bt_list_map). rewrite E.
  unfold add_tier. pose proof (NoDup_bt_list tier) as Hnd. clear E. revert assignment.
  induction (bt_list tier) as [|[g o] l IH]; intros assignment; cbn [foldl].
  - cbn. rewrite lookup_empty. destruct (assignment !! f), (present f); done.
  - cbn in Hnd. apply NoDup_cons in Hnd as [Hg Hnd]. rewrite (IH Hnd). cbn [fst snd list_to_map foldr]. rewrite lookup_insert.
    destruct (bool_decide (is_Some (assignment !! g))) eqn:Eb; cbn [orb].
    + apply bool_decide_eq_true in Eb as [o' Eo]. destruct (decide (g = f)) as [->|]; [by rewrite Eo|done].
    + apply bool_decide_eq_false, eq_None_not_Some in Eb. destruct (present g) eqn:Ep; cbn [negb].
      * rewrite lookup_insert. destruct (decide (g = f)) as [->|]; [by rewrite Eb, Ep|done].
      * destruct (decide (g = f)) as [->|]; [by rewrite Eb, Ep|done].
Qed.
End Known.

Section Written.
Context {B : Type} `{BackendContract B} {T : Type} `{SatBackend T} `{RuntimeCodec} `{SyncCodec} `{CcmCodec} (d : disk).

(** A facet of the model has the value of the first of the tiers that has one:
    the overrides, the committed values, the choices, the baseline. *)
Lemma assignment_tiers (session : Session B) s assignment :
  session_assignment session s = Ok assignment →
  ∃ dirty committed baseline,
    overlay_tier s (dirty_overlay s) = Ok dirty ∧ overlay_tier s (committed_overlay s) = Ok committed ∧ baseline_tier s = Ok baseline ∧
    ∀ f, assignment !! f =
      if facet_present session f then head (omap (.!! f) [dirty; committed; sh_choices (rs_head s); baseline]) else None.
Proof.
  unfold session_assignment. intros (dirty & Hd & (committed & Hc & (baseline & Hb & Ha)%bind_Ok)%bind_Ok)%bind_Ok. injection Ha as <-.
  exists dirty, committed, baseline. split_and!; [done..|]. intros f.
  transitivity (add_tier (facet_present session) (add_tier (facet_present session) (add_tier (facet_present session)
    (add_tier (facet_present session) ∅ dirty) committed) (sh_choices (rs_head s))) baseline !! f); [reflexivity|].
  rewrite !add_tier_lookup, lookup_empty. destruct (facet_present session f); [|done]. cbn [omap list_omap].
  destruct (dirty !! f); [done|]. destruct (committed !! f); [done|]. destruct (sh_choices (rs_head s) !! f); [done|]. by destruct (baseline !! f).
Qed.

Lemma overlay_tier_has s o tier scope path f v :
  overlay_tier s o = Ok tier → get2 o scope path = Some (VString v) → bound_facet s path = Some f → tier !! f = Some v.
Proof.
  unfold overlay_tier. intros (_ & Hin & _)%tier_from_pairs_spec Hg Hf. apply Hin. apply list_elem_of_omap. exists (path, VString v). split.
  - apply elem_of_flat_map. unfold get2 in Hg. apply bind_Some in Hg as (values & Hs & Hv). exists (scope, values).
    split; [by apply elem_bt_list|]. by apply elem_bt_list.
  - cbn. by rewrite Hf.
Qed.

Context (m : MultiPartCcm) (p : PartitionCcm).

(** C28: A write to a parameter that stands for a facet of the model is accepted only
    if the option is one of the model's and the model has a configuration with it
    and all the other facet values the snapshot then knows. *)
Theorem accepted_write_satisfiable (session : Session B) version s path v intent actor reason now s' payload f :
  mp_clusters m = [p] → mp_bridge m = None → loadable p →
  set_parameter_with_solver_validation (B := B) (T := T) d version s path (VString v) intent actor reason now = Ok (s', payload) →
  load_ccm d (trim (sh_ccm_ref (rs_head s'))) = Ok (from_multi_part m) → new (from_multi_part m) = Ok session →
  bound_facet s' path = Some f → facet_in (from_multi_part m) f = true →
  ∃ assignment, session_assignment session s' = Ok assignment ∧ assignment !! f = Some v ∧
    f +:+ "." +:+ v ∈ pins_of p assignment ∧ consistent m (pins_of p assignment).
Proof.
  intros Hm Hb Hload Hs Hl Hn Hf Hp. unfold set_parameter_with_solver_validation in Hs. apply bind_Ok in Hs as ([s1 payload1] & Hs & He).
  destruct (enforce_write_constraints d s1 [path]) as [r|] eqn:Ee; [done|]. injection He as <- <-.
  destruct (set_parameter _ _ _ _ _ _ _ _) as [[s2 payload2]|x] eqn:Hset; cbn in Hs; [injection Hs as -> ->|done].
  apply set_parameter_effect in Hset as (scope & q & md & _ & _ & _ & _ & _ & _ & _ & _ & _ & Ho).
  specialize (Ho scope path). rewrite decide_True in Ho by done.
  assert (Hccm : ccm session = from_multi_part m) by by apply new_ccm in Hn.
  destruct (session_assignment session s1) as [assignment|x] eqn:Ha.
  - exists assignment. split; [done|]. destruct (assignment_tiers _ _ _ Ha) as (dirty & committed & baseline & Hd & _ & _ & Hlook).
    assert (Hv : assignment !! f = Some v).
    { rewrite Hlook. unfold facet_present. rewrite Hccm, Hp. cbn [omap list_omap]. by rewrite (overlay_tier_has _ _ _ _ _ _ _ Hd Ho Hf). }
    pose proof (enforce_decides d m p Hm Hb Hload (T := T) session s1 [path] assignment Hl Hn Ha) as Hdec.
    rewrite Ee in Hdec. destruct Hdec as [Hc Hk]; [right; exists path, f; split_and!; [by left|done|done]|].
    assert (Hin : f +:+ "." +:+ v ∈ pins_of p assignment).
    { unfold pins_of. rewrite elem_of_list_to_set, elem_known. split; [by eapply Hk; [left|..]|]. exists (f, v). split; [done|]. by apply elem_bt_list. }
    split_and!; [done|done|]. destruct Hc as [Hc|Hc]; [|done]. rewrite Hc in Hin. set_solver.
  - exfalso. unfold enforce_write_constraints in Ee. rewrite Hl, Hn in Ee. cbn zeta in Ee. rewrite Ha in Ee. case_decide as Hdd; [|done].
    destruct Hdd as [_ Hdd]. assert (Hx : f ∈ (∅ : gset string)); [|set_solver]. rewrite <-Hdd.
    rewrite elem_of_list_to_set, list_elem_of_In, List.filter_In, <-list_elem_of_In. unfold facet_present. rewrite Hccm. split; [|done].
    apply list_elem_of_fmap. exists (path, f). split; [done|]. apply elem_written. split; [by left|done].
Qed.

(** C27: Enforcement decides: when the constraints govern an operation, it is accepted
    only if the facet values that the snapshot then knows and the model has
    contradict nothing, and refused as a conflict only if no configuration of the
    model has them. *)
Theorem enforcement_decides (session : Session B) s paths assignment :
  mp_clusters m = [p] → mp_bridge m = None → loadable p →
  load_ccm d (trim (sh_ccm_ref (rs_head s))) = Ok (from_multi_part m) → new (from_multi_part m) = Ok session →
  session_assignment session s = Ok assignment → governed m s paths →
  match enforce_write_constraints (B := B) (T := T) d s paths with
  | None => pins_of p assignment = ∅ ∨ consistent m (pins_of p assignment)
  | Some r => dg_code (cr_diagnostic r) = E_SELECTION_CONFLICT → ∀ tau, ¬ feasible m (pins_of p assignment) tau
  end.
Proof.
  intros Hm Hb Hload Hl Hn Ha Hg. pose proof (enforce_decides d m p Hm Hb Hload (T := T) session s paths assignment Hl Hn Ha Hg) as Hdec.
  by destruct (enforce_write_constraints d s paths); [|destruct Hdec].
Qed.
End Written.

(** ** Opening *)

Lemma hex_digit_same b : hex_digit_lower b = CcmFormat.hex_digit_lower b.
Proof. by destruct b as [[] [] [] [] [] [] [] []]; vm_compute. Qed.

Lemma decode_pairs_seq n k bs :
  (2 * (k + n) ≤ length bs)%nat →
  mapM (λ index, high ← bs !! (index * 2)%nat ≫= hex_digit_lower; low ← bs !! (index * 2 + 1)%nat ≫= hex_digit_lower;
                 Some (byte (N.lor (N.shiftl high 4) low))) (seq k n) = decode_pairs n (drop (2 * k) bs).
Proof.
  revert k. induction n as [|n IH]; intros k Hl; [done|]. cbn [seq mapM decode_pairs].
  destruct (lookup_lt_is_Some_2 bs (k * 2)) as [a Ea]; [lia|]. destruct (lookup_lt_is_Some_2 bs (k * 2 + 1)) as [b Eb]; [lia|].
  replace (2 * k)%nat with (k * 2)%nat by lia. rewrite (drop_S bs a (k * 2) Ea), (drop_S bs b (S (k * 2))) by (by rewrite <-Eb; f_equal; lia).
  rewrite Ea, Eb. cbn [mbind option_bind]. rewrite (hex_digit_same a), (hex_digit_same b). destruct (CcmFormat.hex_digit_lower a); [|done].
  destruct (CcmFormat.hex_digit_lower b); [|done]. cbn [mbind option_bind]. rewrite IH by lia. by replace (2 * S k)%nat with (S (S (k * 2))) by lia.
Qed.

(** The runtime reads digests as the loader does. *)
Lemma decode_same hex : decode_sha256_hex hex = decode_hex32 (bytes_of hex).
Proof.
  unfold decode_sha256_hex, decode_hex32. case_decide as Hl; [by rewrite decide_False|].
  rewrite decide_True by done. by rewrite (decode_pairs_seq 32 0) by (cbn; lia).
Qed.

Section Opening.
Context {B : Type} `{BackendContract B} `{RuntimeCodec} `{SyncCodec} `{CcmCodec} (d : disk).

(** C29: A snapshot that is opened has a usable model: its reference loads as a model
    of one partition, checked by the loader and bound to the model hash of the
    snapshot, and every closed value it was given is a symbol of that model. *)
Theorem open_has_model r now s :
  runtime_open_with_solver_validation (B := B) d r now = Ok s →
  runtime_open r now = Ok s ∧
  ∃ m p,
    load_ccm d (trim (sh_ccm_ref (rs_head s))) = Ok (from_multi_part m) ∧ mp_clusters m = [p] ∧ mp_bridge m = None ∧ partition_ok p ∧
    encode_hex32 (mp_bound_model_hash m) = bytes_of (sh_model_hash (rs_head s)) ∧
    ∀ f values v, sh_closed_facet_domains (rs_head s) !! f = Some values → v ∈ values → f +:+ "." +:+ v ∈ variable_order (pt_symbols p).
Proof.
  unfold runtime_open_with_solver_validation. intros (s0 & Ho & Hr)%bind_Ok.
  apply bind_Ok in Hr as ([] & Hu & Hr). apply bail_if_Ok, negb_false_iff in Hu.
  apply bind_Ok in Hr as (c & Hc & Hr). apply bind_Ok in Hr as ([] & Hbound & Hr). apply bail_if_Ok, negb_false_iff in Hbound.
  destruct (unknown_facet_domain_symbol s0 c) eqn:Eu; [done|]. injection Hr as <-. split; [done|].
  destruct (load_ccm d (trim (sh_ccm_ref (rs_head s0)))) as [c'|] eqn:Hl; cbn in Hc; [injection Hc as ->|done].
  unfold ccm_usable_for_open in Hu. case_decide; [done|]. rewrite Hl in Hu. destruct (new c) as [session|] eqn:Hn; [|done].
  apply bool_decide_eq_true in Hu. apply new_ccm in Hn. rewrite Hn in Hu. destruct Hu as [y Hy].
  apply load_from_cmp_cases in Hl as [->|(dir & m & _ & -> & Hok)]; [done|]. exists m.
  destruct (single_partition m y Hy) as (p & Hm & Hb & Hyo). exists p. split_and!; [done..| | |].
  - unfold partitions_of in Hok. rewrite Hm, Hb in Hok. by apply Forall_cons_1 in Hok as [Hok _].
  - unfold ccm_bound_to_model in Hbound. rewrite decode_same in Hbound. destruct (decode_hex32 _) as [claimed|] eqn:Ed; [|done].
    apply bool_decide_eq_true in Hbound. apply decode_hex32_encode in Ed. rewrite <-Ed. f_equal. unfold from_multi_part in Hbound. by rewrite Hm, Hb in Hbound.
  - intros f values v Hf Hv. rewrite <-Hyo. unfold unknown_facet_domain_symbol in Eu.
    rewrite decide_False in Eu by (intros E; rewrite E in Hf; by apply (lookup_empty_Some f values) in Hf). rewrite Hy in Eu. cbn [mbind option_bind] in Eu.
    apply dec_stable. intros Hno. apply head_None in Eu. apply (not_elem_of_nil (f +:+ "." +:+ v)). rewrite <-Eu.
    rewrite list_elem_of_In, List.filter_In, <-list_elem_of_In. split; [|by apply bool_decide_eq_true].
    apply elem_of_flat_map. exists (f, values). split; [by apply elem_bt_list|]. apply list_elem_of_fmap. exists v. split; [done|]. by apply elem_of_bt_elements.
Qed.
End Opening.
