(* ===== verification/EnforceDemo.v ===== *)
(** * A device and its model

    Two parameters stand for the facets [a] and [b] of a model that forbids
    [a.x] with [b.x]; the model is read from a small disk by the loader, and the
    theorems of [EnforceProps] are applied to the writes of the device. *)
From S2P Require Import Prelude Text Schema Resolver Ir Bdd BddLayout BddBytes CcmFormat MultiPart Backend CuddBackend Session SessionProps SatBackend Mus Explain SessionTrace CcmLoad.
From S2P Require Import Attribution Override Runtime RuntimeOps RuntimeCommit RuntimeCommitProps RuntimeValid RuntimeSync RuntimeDemo RuntimeSyncDemo Enforce EnforceProps.
Local Open Scope N_scope.

(** ** The disk *)

Definition pair_raw : list RawNode := [mkRaw 2 1 0; mkRaw 0 1 2].

Definition pair_symbols : Symbols :=
  mkSymbols 2 ["a.x"; "a.y"; "b.x"; "b.y"] {["a.x" := 0; "a.y" := 1; "b.x" := 2; "b.y" := 3]} ["a.x"; "a.y"; "b.x"; "b.y"].

Definition pair_manifest (top : bool) : Manifest :=
  {| CcmFormat.mf_schema_version := 2; mf_ccm_hash := mf_ccm_hash toy_manifest; mf_bound_model_hash := mf_bound_model_hash toy_manifest;
     mf_algorithm := "robdd-handrolled-v1"; mf_algorithm_params := ∅; mf_var_count := 4; mf_node_count := 4;
     mf_construction_wall_time_us := 0; mf_emitted_at := EmptyString;
     mf_partition_manifest := if top then Some "partition-manifest.json" else None;
     mf_constraints := if top then [mkRosterEntry "!(a == 'x' && b == 'x')" "apart" 0] else [] |}.

#[local] Instance pair_codec : CcmCodec := {|
  cd_sha256 := toy_sha;
  cd_to_vec := λ _, Ok zero_hash;
  cd_top_to_vec := λ _, Ok zero_hash;
  cd_pm_to_vec := λ _, Ok [];
  cd_parse_manifest := λ bs, Ok (pair_manifest (bool_decide (bs = bytes_of "top")));
  cd_parse_symbols := λ _, Ok pair_symbols;
  cd_parse_partition_manifest := λ _, Ok (mkPartitionManifest 2 ["partition-0000"] false (mf_ccm_hash toy_manifest));
|}.

Definition pair_disk : disk := mkDisk (λ path,
  Some (mkFile true 0
    (if decide (path = "d/ccm.manifest.json") then bytes_of "top"
     else if decide (path = "d/partition-0000/ccm.bdd.bin") then encode_canonical_to_bytes 4 (table_of pair_raw) 3 else [])))
  (λ path, bool_decide (path = "d")).

Definition pair_part : PartitionCcm := mkPartition pair_symbols (CcmFormat.mkPayload 4 4 [3] (table_of pair_raw)) (toy_sha CCM_HASH_DOMAIN_TAG).

Definition pair_model : MultiPartCcm :=
  mkMultiPart (toy_sha CCM_HASH_DOMAIN_TAG) (repeat "000"%char 32) 2 (CcmFormat.mf_constraints (pair_manifest true)) [pair_part] None.

Lemma pair_load : load_ccm pair_disk "d" = Ok (from_multi_part pair_model).
Proof. vm_compute. reflexivity. Qed.

Lemma pair_loadable : loadable pair_part.
Proof.
  split; [split|..].
  - apply checks_canonical. split; vm_compute; reflexivity.
  - reflexivity.
  - cbn. apply (bool_decide_unpack _). vm_compute. exact I.
  - cbn. lia.
  - cbn. lia.
  - cbn. lia.
Qed.

Definition pair_session : Session (CuddBackend BddBuilder N) :=
  match new (from_multi_part pair_model) with Ok s => s | Err _ => mkSession empty_ccm [] [] [] end.

Lemma pair_new : new (from_multi_part pair_model) = Ok pair_session.
Proof. vm_compute. reflexivity. Qed.

(** ** The device *)

#[local] Existing Instance toy_codec.

Definition pair_parameter (facet value : string) : ResolvedParameter :=
  mkResolvedParameter (VString value) "string" (Some facet) None QM Runtime Technician None None None.

Definition pair_output : gmap string ResolvedConfig :=
  {[ "line" := mkResolvedConfig "plant" "1" {[ "pump" := mkResolvedComponent "pump" ∅ {[ "pa" := pair_parameter "a" "y"; "pb" := pair_parameter "b" "x" ]} ]} ]}.

Definition pa : string := "component.pump.param.pa".
Definition pb : string := "component.pump.param.pb".

Definition zeros : string := string_of (replicate 64 "0"%char).

Definition pair_device : RuntimeSnapshot :=
  mkSnapshot (mkHead PRODUCT_SCHEMA_VERSION zeros "d" demo_hash "line" ∅ ∅ {["a" := {["x"; "y"]}]} pair_output ∅ ∅ 1)
    ∅ ∅ ∅ ∅ (mkPolicy true 30000 ∅ 0) [] (mkBus 1 512 [] 0) (mkSync Idle None None []) [] 1 0 0.

Definition put (s : RuntimeSnapshot) (path v : string) (now : N) :=
  set_parameter_with_solver_validation (B := CuddBackend BddBuilder N) (T := demo_sat) pair_disk 5 s path (VString v) Experimental None None now.

Definition refused {A} (r : result refusal A) : string * string :=
  match r with Err (OperationRefused x) | Err (ConstraintRefused x _ _) => (dg_code x, dg_entity x) | Ok _ => ("none", "none") end.

(** The refusal names the constraint of the model that forbids the write. *)
Example put_conflict : refused (put pair_device pa "x" 8) = (E_SELECTION_CONFLICT, "constraints/apart").
Proof. vm_compute. reflexivity. Qed.

Example put_unknown_option : refused (put pair_device pa "z" 8) = (E_SELECTION_INVALID_OPTION, pa).
Proof. vm_compute. reflexivity. Qed.

Lemma done_run {E A} (m : result E A) : is_Ok m → ∃ a, m = Ok a.
Proof. destruct m as [a|]; [by exists a|done]. Qed.

Definition holds_of {E A} (m : result E A) (P : A → bool) : bool := match m with Ok a => P a | Err _ => false end.

Lemma holds_of_Ok {E A} (m : result E A) (P : A → bool) a : holds_of m P = true → m = Ok a → P a = true.
Proof. by intros H ->. Qed.

Lemma accepted_write_satisfiable_witness :
  ∃ s' payload assignment, put pair_device pb "y" 8 = Ok (s', payload) ∧ session_assignment pair_session s' = Ok assignment ∧
    assignment !! "b" = Some "y" ∧ consistent pair_model (pins_of pair_part assignment).
Proof.
  destruct (done_run (put pair_device pb "y" 8)) as [[s' payload] Hr]; [vm_compute; exact I|].
  assert (Hl : bool_decide (trim (sh_ccm_ref (rs_head s')) = "d") = true).
  { refine (holds_of_Ok _ (λ r, bool_decide (trim (sh_ccm_ref (rs_head r.1)) = "d")) _ _ Hr). vm_compute. reflexivity. }
  assert (Hf : bool_decide (bound_facet s' pb = Some "b") = true).
  { refine (holds_of_Ok _ (λ r, bool_decide (bound_facet r.1 pb = Some "b")) _ _ Hr). vm_compute. reflexivity. }
  apply bool_decide_eq_true in Hl, Hf.
  assert (Hload : load_ccm pair_disk (trim (sh_ccm_ref (rs_head s'))) = Ok (from_multi_part pair_model)) by (rewrite Hl; exact pair_load).
  assert (Hp : facet_in (from_multi_part pair_model) "b" = true) by (vm_compute; reflexivity).
  destruct (accepted_write_satisfiable pair_disk pair_model pair_part pair_session _ _ _ _ _ _ _ _ _ _ _ eq_refl eq_refl pair_loadable
    Hr Hload pair_new Hf Hp) as (assignment & Ha & Hv & _ & Hc).
  exists s', payload, assignment. exact (conj Hr (conj Ha (conj Hv Hc))).
Defined.

(** The device with both [x], written without enforcement. *)
Definition both_x : RuntimeSnapshot :=
  mkSnapshot (rs_head pair_device) ∅ {[ "line" := {[ pa := VString "x" ]} ]} {[ "line" := {[ pa := 1 ]} ]}
    {[ "line" := {[ pa := mkMetadata "ann" None 5 (Some 10) None 1 Experimental ]} ]}
    (mkPolicy true 30000 ∅ 0) [] (mkBus 1 512 [] 0) (mkSync Idle None None []) [] 1 0 0.

Lemma enforcement_decides_witness :
  ∃ assignment, session_assignment pair_session both_x = Ok assignment ∧ ∀ tau, ¬ feasible pair_model (pins_of pair_part assignment) tau.
Proof.
  destruct (done_run (session_assignment pair_session both_x)) as [assignment Ha]; [vm_compute; exact I|]. exists assignment. split; [exact Ha|].
  assert (Hl : load_ccm pair_disk (trim (sh_ccm_ref (rs_head both_x))) = Ok (from_multi_part pair_model)) by exact pair_load.
  pose proof (enforcement_decides (T := demo_sat) pair_disk pair_model pair_part pair_session both_x [pa] assignment eq_refl eq_refl
    pair_loadable Hl pair_new Ha) as Hd.
  assert (Hg : governed pair_model both_x [pa]).
  { right. exists pa, "a". split_and!; [by left|vm_compute; reflexivity|vm_compute; reflexivity]. }
  specialize (Hd Hg). assert (He : dg_code ∘ cr_diagnostic <$> enforce_write_constraints (B := CuddBackend BddBuilder N) (T := demo_sat)
    pair_disk both_x [pa] = Some E_SELECTION_CONFLICT) by (vm_compute; reflexivity).
  destruct (enforce_write_constraints pair_disk both_x [pa]) as [r|]; [|discriminate He]. apply Hd. injection He as He. exact He.
Defined.

(** ** A commit that enforced writes do not protect *)

Definition commit_pair (s : RuntimeSnapshot) (now : N) :=
  commit_configuration_with_solver_validation (B := CuddBackend BddBuilder N) (T := demo_sat) pair_disk 5 s "bob" None None [] now now.

(** Every write went through enforcement, and the commit is refused: the lease of
    the first override ends, its facet falls back to the baseline, and the second
    write contradicts that. *)
Example commit_refused_after_enforced_writes :
  match put pair_device pb "y" 100 with
  | Ok (s1, _) =>
      match put s1 pa "x" 20000 with
      | Ok (s2, _) => is_Ok (commit_pair s2 20001) ∧ refused (commit_pair s2 40000) = (E_SELECTION_CONFLICT, "constraints/apart")
      | Err _ => False
      end
  | Err _ => False
  end.
Proof. vm_compute. split; [exact I|reflexivity]. Qed.

(** ** Opening the device *)

#[local] Instance pair_sync : SyncCodec := {|
  resolve_json := λ _, Some [];
  bundle_json := λ _, Some [];
  decode_output := λ _, Some pair_output;
|}.

Definition open_request : RuntimeOpenRequest :=
  mkOpenRequest PRODUCT_SCHEMA_VERSION zeros "d" (toy_hash []) "line" JNull ∅ ∅ ∅ ∅ ∅ ∅ {["a" := {["x"; "y"]}]} ∅ ∅ ∅ ∅
    (mkPolicy true 30000 ∅ 0) [] (mkBus 1 512 [] 0) (mkSync Idle None None []) [] 1 0 1 0.

Definition open_pair (r : RuntimeOpenRequest) (now : N) : runtime RuntimeSnapshot :=
  runtime_open_with_solver_validation (B := CuddBackend BddBuilder N) pair_disk r now.

Lemma open_has_model_witness :
  ∃ s m p, open_pair open_request 8 = Ok s ∧ load_ccm pair_disk (trim (sh_ccm_ref (rs_head s))) = Ok (from_multi_part m) ∧ mp_clusters m = [p].
Proof.
  destruct (done_run (open_pair open_request 8)) as [s Hs]; [vm_compute; exact I|].
  destruct (open_has_model pair_disk open_request 8 s Hs) as (_ & m & p & Hl & Hm & _). exists s, m, p. exact (conj Hs (conj Hl Hm)).
Defined.

(** A value the model does not know is refused. *)
Definition open_unknown : RuntimeOpenRequest :=
  mkOpenRequest PRODUCT_SCHEMA_VERSION zeros "d" (toy_hash []) "line" JNull ∅ ∅ ∅ ∅ ∅ ∅ {["a" := {["x"; "z"]}]} ∅ ∅ ∅ ∅
    (mkPolicy true 30000 ∅ 0) [] (mkBus 1 512 [] 0) (mkSync Idle None None []) [] 1 0 1 0.

Example open_refused :
  match open_pair open_unknown 8 with Err x => dg_code x | Ok _ => "none" end = E_RUNTIME_OPEN_FACET_DOMAIN_UNKNOWN.
Proof. vm_compute. reflexivity. Qed.

(** ** Models of several partitions

    A model whose constraints fall into several clusters has no symbol table of its
    own: it loads and a session over it selects, but for the runtime it has no facet. *)
Example split_model_has_no_facets :
  symbols (from_multi_part chain_model) = None ∧ facet_in (from_multi_part chain_model) "a" = false ∧
  match chain_session with Ok s => (apply s "a" "x").1 = Ok tt | Err _ => False end.
Proof. vm_compute. split_and!; reflexivity. Qed.
