(* ===== verification/Loader.v ===== *)
(** * The loader

    Models [compiler/src/loader_api]: opening a compiled package
    ([open_model_ops.rs]), the model that selections are checked against and the
    one that is resolved ([shared_ops.rs]), the selection state and the
    operations on it ([selection_ops.rs]), and resolving a selection
    ([resolve_ops.rs]).  A diagnostic is its code, source and entity; the texts of
    messages and hints are left out, and so is an id whose text imitates a
    message of the resolver.  The disk maps a path to what a read of it gives. *)
From S2P Require Import Prelude Text Tokens Ast SelectionEval Schema Resolver InterfaceSummary LinkVerify Lowering Ir Ingest Link Reverify.
From S2P Require Import Attribution Override Runtime RuntimeSync CcmLoad Enforce.
Local Open Scope N_scope.

Definition E_LOADER_UNSUPPORTED_SCHEMA_VERSION : string := "E_LOADER_UNSUPPORTED_SCHEMA_VERSION".
Definition E_LOADER_MANIFEST_INVALID : string := "E_LOADER_MANIFEST_INVALID".
Definition E_LOADER_MANIFEST_INCONSISTENT : string := "E_LOADER_MANIFEST_INCONSISTENT".
Definition E_LOADER_INDEX_INVALID : string := "E_LOADER_INDEX_INVALID".
Definition E_SELECTION_STATE_INVALID : string := "E_SELECTION_STATE_INVALID".
Definition E_RESOLVE_SCOPE_INVALID : string := "E_RESOLVE_SCOPE_INVALID".
Definition E_RESOLVE_MODEL_INVALID : string := "E_RESOLVE_MODEL_INVALID".
Definition E_RESOLVE_CONTEXT_UNSATISFIED : string := "E_RESOLVE_CONTEXT_UNSATISFIED".
Definition E_RESOLVE_FACET_UNBOUND : string := "E_RESOLVE_FACET_UNBOUND".
Definition E_RESOLVE_FAILED : string := "E_RESOLVE_FAILED".

Record LoaderDiagnostic : Type := mkLoaderDiagnostic {
  ld_code : string;
  ld_source_id : option string;
  ld_entity_path : option string;
}.

Definition plain_diagnostic (code : string) : LoaderDiagnostic := mkLoaderDiagnostic code None None.

Record ModelHandle : Type := mkHandle {
  mh_model_hash : string;
  mh_cmp_manifest_ref : string;
  mh_index_ref : string;
  mh_chunk_set_ref : string;
  mh_ccm_ref : string;
}.

Record SelectionState : Type := mkState {
  ss_schema_version : N;
  ss_model_hash : string;
  ss_scope : string;
  ss_context_tags : gmap string string;
  ss_choices : gmap string string;
  ss_selection_state_hash : string;
}.

Record SelectionDelta : Type := mkDelta { sd_facet : string; sd_option : string }.

Record SelectionConstraint : Type := mkSelectionConstraint {
  sc_id : string;
  sc_condition : string;
  sc_expr : ConditionExpr;
  sc_source : string;
}.

Record SelectionConstraintModel : Type := mkSelectionModel {
  facet_domains : gmap string (gset string);
  sm_conditions : list ConditionExpr;
  sm_declared_values : gmap string (gset string);
  facet_defaults : gmap string string;
  facet_open : gmap string bool;
  sm_constraints : list SelectionConstraint;
}.

Definition default_selection_model : SelectionConstraintModel := mkSelectionModel ∅ [] ∅ ∅ ∅ [].

Record ResolveModel : Type := mkResolveModel {
  rm_config : Config;
  rm_constraint_sources : gmap string string;
  rm_lowered_conjuncts : list (string * string);
}.

Record LoadedPackage : Type := mkLoaded {
  lp_index : IrIndex;
  lp_chunks : list IrChunk;
  lp_model_handle : ModelHandle;
}.

Inductive load_error : Type :=
  | IndexNotLoaded (e : reverify_error)
  | IntegrityFailed (e : ir_error)
  | SymbolRefused (e : verify_error)
  | UnparsedExpression (id : string)
  | AcrossChunks (kind : string) (id : string).

(** The formats the loader reads and hashes. *)
Class LoaderCodec : Type := {
  state_json : SelectionStateCanonical → option (list ascii);
  output_value : gmap string ResolvedConfig → option Json;
  output_json : N * string * Json → option (list ascii);
  parse_cmp_manifest : list ascii → option CmpManifest;
  parse_index : list ascii → option IrIndex;
}.

(** ** Paths *)

Definition is_absolute (path : string) : bool := starts_with "/" path.

(** [base.join(path)]. *)
Definition path_join (base path : string) : string :=
  if is_absolute path then path
  else if decide (base = String.EmptyString) then path
  else if bool_decide (head (reverse (bytes_of base)) = Some "/"%char) then base +:+ path
  else base +:+ "/" +:+ path.

(** [path.parent()], the empty path for a bare name. *)
Definition parent_dir (path : string) : option string :=
  match strip_end (reverse (bytes_of path)) with
  | [] | ["/"%char] => None
  | r => Some (string_of (reverse (strip_end (drop_name r))))
  end.

(** The directory a path names, with and without [.] at its end. *)
Definition same_dir (path : string) : string := string_of (reverse (strip_end (reverse (bytes_of path)))).

Definition resolve_ref (base_dir reference : string) : string :=
  if is_absolute reference then reference else path_join base_dir reference.

(** ** Constraints of a selection *)

Definition add_values (values : list string) (domain : option (gset string)) : gset string :=
  list_to_set values ∪ default ∅ domain.

Definition seed_facet (m : SelectionConstraintModel) (nf : string * Facet) : SelectionConstraintModel :=
  let '(name, f) := nf in
  mkSelectionModel (<[name := add_values (fc_values f) (facet_domains m !! name)]> (facet_domains m)) (sm_conditions m)
    (<[name := add_values (fc_values f) (sm_declared_values m !! name)]> (sm_declared_values m))
    (match fc_default f with Some d => <[name := d]> (facet_defaults m) | None => facet_defaults m end)
    (<[name := fc_open f]> (facet_open m)) (sm_constraints m).

Definition seed_facet_domains_from_declarations (fs : gmap string Facet) (m : SelectionConstraintModel) : SelectionConstraintModel :=
  foldl seed_facet m (bt_list fs).

Definition widen (domains : gmap string (gset string)) (tv : string * string) : gmap string (gset string) :=
  <[tv.1 := add_values [tv.2] (domains !! tv.1)]> domains.

Definition register_facet_domains (e : ConditionExpr) (m : SelectionConstraintModel) : SelectionConstraintModel :=
  mkSelectionModel (foldl widen (facet_domains m) (for_each_eq_predicate e)) (sm_conditions m) (sm_declared_values m)
    (facet_defaults m) (facet_open m) (sm_constraints m).

Definition push_condition (e : ConditionExpr) (m : SelectionConstraintModel) : SelectionConstraintModel :=
  mkSelectionModel (facet_domains m) (sm_conditions m ++ [e]) (sm_declared_values m) (facet_defaults m) (facet_open m) (sm_constraints m).

Definition register_condition (condition : string) (m : SelectionConstraintModel) : SelectionConstraintModel :=
  match parse_condition_expr condition with
  | Err _ => m
  | Ok e => push_condition e (register_facet_domains e m)
  end.

Fixpoint register_parameter_conditions (p : Param) (m : SelectionConstraintModel) : SelectionConstraintModel :=
  match p with
  | mkParameter i t u d v f l s a lm r overrides =>
      (fix blocks (bs : list ConditionalBlock) (m : SelectionConstraintModel) : SelectionConstraintModel :=
         match bs with
         | [] => m
         | mkBlock condition payload :: bs =>
             blocks bs (register_parameter_conditions payload (register_condition condition m))
         end) overrides m
  end.

Definition register_component (c : Component) (m : SelectionConstraintModel) : SelectionConstraintModel :=
  foldl (λ m kp, register_parameter_conditions kp.2 m)
    (match cp_condition c with Some condition => register_condition condition m | None => m end) (bt_list (params c)).

Definition push_constraint (c : SelectionConstraint) (m : SelectionConstraintModel) : SelectionConstraintModel :=
  mkSelectionModel (facet_domains m) (sm_conditions m) (sm_declared_values m) (facet_defaults m) (facet_open m) (sm_constraints m ++ [c]).

Definition read_constraint (source : string) (m : SelectionConstraintModel) (ic : string * Constraint)
    : result load_error SelectionConstraintModel :=
  let '(id, c) := ic in
  e ← map_err (λ _, UnparsedExpression id) (parse_condition_expr (cn_condition c));
  _ ← bail_if (existsb (λ seen, bool_decide (sc_id seen = id)) (sm_constraints m)) (AcrossChunks "constraint" id);
  Ok (push_constraint (mkSelectionConstraint id (cn_condition c) e source) m).

(** What the walk over the chunks gathers. *)
Record walk_state : Type := mkWalk {
  ws_model : SelectionConstraintModel;
  ws_catalogues : gmap string Catalogue;
  ws_bindings : gmap string Binding;
  ws_components : gmap string Component;
  ws_binding_sources : gmap string string;
  ws_component_sources : gmap string string;
}.

Definition with_model (w : walk_state) (m : SelectionConstraintModel) : walk_state :=
  mkWalk m (ws_catalogues w) (ws_bindings w) (ws_components w) (ws_binding_sources w) (ws_component_sources w).

(** Every id of the map under the source of its chunk. *)
Definition sources_for {A} (source : string) (m : gmap string A) : gmap string string := (λ _, source) <$> m.

Definition gather (source : string) (c : IrChunk) (w : walk_state) : walk_state :=
  mkWalk (ws_model w) (ik_catalogues c ∪ ws_catalogues w) (ik_bindings c ∪ ws_bindings w) (ik_components c ∪ ws_components w)
    (sources_for source (ik_bindings c) ∪ ws_binding_sources w) (sources_for source (ik_components c) ∪ ws_component_sources w).

Definition walk_chunk (w : walk_state) (rc : IrChunkRef * IrChunk) : result load_error walk_state :=
  let '(r, c) := rc in
  let w := gather (cr_source_id r) c w in
  _ ← map_err SymbolRefused (for_each (λ nf, check_facet_symbols nf.1 nf.2) (bt_list (ik_facets c)));
  m ← try_fold (read_constraint (cr_source_id r)) (seed_facet_domains_from_declarations (ik_facets c) (ws_model w))
        (bt_list (ik_constraints c));
  let m := foldl (λ m kp, register_parameter_conditions kp.2 m) m (bt_list (ik_definitions c)) in
  Ok (with_model w (foldl (λ m kc, register_component kc.2 m) m (bt_list (ik_components c)))).

Definition constraint_le (a b : SelectionConstraint) : Prop := String.le (sc_id a) (sc_id b).
#[export] Instance constraint_le_dec a b : Decision (constraint_le a b).
Proof. unfold constraint_le. apply _. Defined.

Definition sort_constraints (m : SelectionConstraintModel) : SelectionConstraintModel :=
  mkSelectionModel (facet_domains m) (sm_conditions m) (sm_declared_values m) (facet_defaults m) (facet_open m)
    (merge_sort constraint_le (sm_constraints m)).

(** The chunk that declared what a conjunct comes from. *)
Definition conjunct_source (binding_sources component_sources : gmap string string) (l : LoweredConjunct) : option string :=
  if starts_with DERIVE_ATTRIBUTION_PREFIX (lc_id l) then binding_sources !! lc_origin l else component_sources !! lc_origin l.

Definition add_conjunct (w : walk_state) (m : SelectionConstraintModel) (l : LoweredConjunct)
    : result load_error SelectionConstraintModel :=
  e ← map_err (λ _, UnparsedExpression (lc_id l)) (parse_condition_expr (lc_condition l));
  Ok (push_constraint (mkSelectionConstraint (lc_id l) (lc_condition l) e
        (default String.EmptyString (conjunct_source (ws_binding_sources w) (ws_component_sources w) l))) m).

Definition load_selection_constraint_model_from (p : LoadedPackage) : result load_error SelectionConstraintModel :=
  w ← try_fold walk_chunk (mkWalk default_selection_model ∅ ∅ ∅ ∅ ∅) (zip (ix_chunks (lp_index p)) (lp_chunks p));
  let projected := binding_facets (ws_catalogues w) (ws_bindings w) in
  _ ← map_err SymbolRefused (validate_symbol_charset projected (ws_catalogues w) (dom (ws_bindings w)));
  let m := sort_constraints (seed_facet_domains_from_declarations projected (ws_model w)) in
  try_fold (add_conjunct w) m (lowered_root_conjuncts (ws_bindings w) (ws_components w)).

Definition closed_facet_domains_from (p : LoadedPackage) : result load_error ClosedFacetDomains :=
  m ← load_selection_constraint_model_from p;
  Ok (filter (λ fv, facet_open m !! fv.1 = Some false) (sm_declared_values m)).

(** ** The model that is resolved *)

Definition add_unique {A} (kind : string) (into from : gmap string A) : result load_error (gmap string A) :=
  try_fold (λ m ix, match m !! ix.1 with Some _ => Err (AcrossChunks kind ix.1) | None => Ok (<[ix.1 := ix.2]> m) end)
    into (bt_list from).

Record merge_state : Type := mkMerge {
  ms_config : Config;
  ms_constraint_sources : gmap string string;
  ms_binding_sources : gmap string string;
  ms_component_sources : gmap string string;
}.

Definition merge_chunk (s : merge_state) (rc : IrChunkRef * IrChunk) : result load_error merge_state :=
  let '(r, c) := rc in
  let g := ms_config s in
  fs ← add_unique "facet" (facets g) (ik_facets c);
  ks ← add_unique "constraint" (Schema.constraints g) (ik_constraints c);
  ts ← add_unique "catalogue" (catalogues g) (ik_catalogues c);
  bs ← add_unique "binding" (bindings g) (ik_bindings c);
  ds ← add_unique "definition" (definitions g) (ik_definitions c);
  cs ← add_unique "component" (components g) (ik_components c);
  ars ← add_unique "artifact" (artifacts g) (ik_artifacts c);
  Ok (mkMerge (mkConfig (cf_package g) (cf_version g) ds cs ars fs ks ts bs)
        (sources_for (cr_source_id r) (ik_constraints c) ∪ ms_constraint_sources s)
        (sources_for (cr_source_id r) (ik_bindings c) ∪ ms_binding_sources s)
        (sources_for (cr_source_id r) (ik_components c) ∪ ms_component_sources s)).

Definition merged_root : Config := mkConfig "merged_root" "0.0.0" ∅ ∅ ∅ ∅ ∅ ∅ ∅.

Definition with_facets (c : Config) (fs : gmap string Facet) : Config :=
  mkConfig (cf_package c) (cf_version c) (definitions c) (components c) (artifacts c) fs (Schema.constraints c) (catalogues c) (bindings c).

Definition note_conjunct (s : merge_state) (sources : gmap string string) (l : LoweredConjunct) : gmap string string :=
  match conjunct_source (ms_binding_sources s) (ms_component_sources s) l with
  | Some source => <[lc_id l := source]> sources
  | None => sources
  end.

Definition load_resolve_model_from (p : LoadedPackage) : result load_error ResolveModel :=
  s ← try_fold merge_chunk (mkMerge merged_root ∅ ∅ ∅) (zip (ix_chunks (lp_index p)) (lp_chunks p));
  let g := ms_config s in
  let fs := binding_facets (catalogues g) (bindings g) ∪ facets g in
  _ ← map_err SymbolRefused (validate_symbol_charset fs (catalogues g) (dom (bindings g)));
  let lowered := lowered_root_conjuncts (bindings g) (components g) in
  Ok (mkResolveModel (with_facets g fs) (foldl (note_conjunct s) (ms_constraint_sources s) lowered)
        ((λ l, (lc_id l, lc_condition l)) <$> lowered)).

(** ** Options *)

Definition first_violated_constraint (m : SelectionConstraintModel) (assignment : gmap string string) : option SelectionConstraint :=
  head (List.filter (λ c, negb (not_contradicted (sc_expr c) assignment)) (sm_constraints m)).

Definition option_is_valid (m : SelectionConstraintModel) (assignments : gmap string string) (facet option : string) : bool :=
  let candidate := <[facet := option]> assignments in
  if bool_decide (is_Some (first_violated_constraint m candidate)) then false
  else if existsb (λ c, is_pure_conjunction c && mentions_eq c facet option && not_contradicted c candidate) (sm_conditions m) then true
  else if bool_decide (option ∈ default ∅ (sm_declared_values m !! facet)) then
    match assignments !! facet with Some bound => bool_decide (bound = option) | None => true end
  else false.

Definition facet_domain (m : SelectionConstraintModel) (assignments : gmap string string) (facet : string) : option (gset string) :=
  match facet_domains m !! facet with
  | Some domain => Some (match assignments !! facet with Some selected => {[selected]} ∪ domain | None => domain end)
  | None => (λ selected, {[selected]}) <$> assignments !! facet
  end.

Definition valid_options_for_facet (m : SelectionConstraintModel) (assignments : gmap string string) (facet : string)
    (domain : gset string) : list string :=
  if decide (facet_domains m !! facet = None) then bt_elements domain
  else List.filter (option_is_valid m assignments facet) (bt_elements domain).

(** ** The state *)

Definition choice_screen (m : SelectionConstraintModel) (fo : string * string) : list LoaderDiagnostic :=
  match facet_domains m !! fo.1 with
  | None => [plain_diagnostic E_SELECTION_UNKNOWN_FACET]
  | Some domain => if decide (fo.2 ∈ domain) then [] else [plain_diagnostic E_SELECTION_INVALID_OPTION]
  end.

Definition tag_screen (m : SelectionConstraintModel) (fo : string * string) : list LoaderDiagnostic :=
  if decide (facet_open m !! fo.1 = Some false) then
    match sm_declared_values m !! fo.1 with
    | None => []
    | Some declared => if decide (fo.2 ∈ declared) then [] else [plain_diagnostic E_SELECTION_INVALID_OPTION]
    end
  else [].

Definition screen_selection_assignments (m : SelectionConstraintModel) (s : SelectionState) : list LoaderDiagnostic :=
  flat_map (choice_screen m) (bt_list (ss_choices s)) ++ flat_map (tag_screen m) (bt_list (ss_context_tags s)).

Definition merge_choice (merged : gmap string string) (fo : string * string) : result string (gmap string string) :=
  match merged !! fo.1 with
  | Some existing => if decide (existing = fo.2) then Ok (<[fo.1 := fo.2]> merged) else Err fo.1
  | None => Ok (<[fo.1 := fo.2]> merged)
  end.

Definition merge_assignments (s : SelectionState) : result string (gmap string string) :=
  try_fold merge_choice (ss_context_tags s) (bt_list (ss_choices s)).

Record SelectionOptions : Type := mkSelectionOptions {
  so_valid_options : list string;
  so_default : option string;
  so_declared_open : option bool;
  so_pruned_options : option (list string);
}.

Record RejectionReason : Type := mkReason {
  rj_code : string;
  rj_blocking_choices : gmap string string;
  rj_unsat_core : option UnsatCore;
}.

Definition reason (code : string) : RejectionReason := mkReason code ∅ None.

Definition build_unsat_reason (s : SelectionState) : RejectionReason := mkReason E_SELECTION_UNSATISFIABLE (ss_choices s) None.

Definition rejection_to_diagnostic (facet option : string) (r : RejectionReason) : LoaderDiagnostic :=
  mkLoaderDiagnostic (rj_code r) None (Some ("selection." +:+ facet +:+ "=" +:+ option)).

Definition constraint_violation_diagnostic (id : string) (source_id : option string) : LoaderDiagnostic :=
  mkLoaderDiagnostic E_SELECTION_CONFLICT source_id (Some (CONSTRAINT_ENTITY_PATH_PREFIX +:+ id)).

(** Why a choice is not offered. *)
Definition classify_rejection_reason (m : SelectionConstraintModel) (s : SelectionState) (assignments : gmap string string)
    (d : SelectionDelta) : RejectionReason :=
  let clash existing := mkReason E_SELECTION_CONFLICT {[sd_facet d := existing]} None in
  if decide (trim (sd_facet d) = String.EmptyString) then reason E_SELECTION_UNKNOWN_FACET
  else if decide (trim (sd_option d) = String.EmptyString) then reason E_SELECTION_INVALID_OPTION
  else
    match List.filter (λ existing, bool_decide (existing ≠ sd_option d))
            (omap (.!! sd_facet d) [ss_context_tags s; ss_choices s]) with
    | existing :: _ => clash existing
    | [] =>
        match facet_domains m !! sd_facet d with
        | None => reason E_SELECTION_UNKNOWN_FACET
        | Some domain =>
            if decide (sd_option d ∉ domain) then reason E_SELECTION_INVALID_OPTION
            else if decide (sd_option d ∈ valid_options_for_facet m assignments (sd_facet d) domain) then reason E_SELECTION_CONFLICT
            else build_unsat_reason s
        end
    end.

(** ** Resolving *)

Definition implied_screen (c : Config) (fo : string * string) : list LoaderDiagnostic :=
  match facets c !! fo.1 with
  | None => [plain_diagnostic E_SELECTION_UNKNOWN_FACET]
  | Some f => if decide (fo.2 ∈ fc_values f) then [] else [plain_diagnostic E_SELECTION_INVALID_OPTION]
  end.

Definition screen_implied_choices (m : ResolveModel) (implied : gmap string string) : list LoaderDiagnostic :=
  flat_map (implied_screen (rm_config m)) (bt_list implied).

Definition parse_constraint (m : ResolveModel) (ic : string * string) : result LoaderDiagnostic (string * ConditionExpr) :=
  e ← map_err (λ _, mkLoaderDiagnostic E_RESOLVE_MODEL_INVALID (rm_constraint_sources m !! ic.1)
                      (Some (CONSTRAINT_ENTITY_PATH_PREFIX +:+ ic.1)))
        (parse_condition_expr ic.2);
  Ok (ic.1, e).

Definition violated_constraint_ids (l : list (string * ConditionExpr)) (assignment : gmap string string) : list string :=
  (List.filter (λ ie, negb (not_contradicted ie.2 assignment)) l).*1.

Definition evaluate_constraints (m : ResolveModel) (assignment : gmap string string) : result LoaderDiagnostic (list LoaderDiagnostic) :=
  parsed ← collect_results (parse_constraint m) (((λ ic, (ic.1, cn_condition ic.2)) <$> bt_list (Schema.constraints (rm_config m)))
             ++ rm_lowered_conjuncts m);
  Ok ((λ id, constraint_violation_diagnostic id (rm_constraint_sources m !! id)) <$> violated_constraint_ids parsed assignment).

(** The declared defaults. *)
Definition declared_defaults (c : Config) : gmap string string := omap fc_default (facets c).

Definition defaulted_choices (c : Config) (assignments implied : gmap string string) : gmap string string :=
  filter (λ fo, assignments !! fo.1 = None ∧ implied !! fo.1 = None) (declared_defaults c).

(** Defaults, what is implied, then tags and choices. *)
Definition total_assignment (c : Config) (assignments implied : gmap string string) : gmap string string :=
  assignments ∪ (implied ∪ declared_defaults c).

Definition extract_resolved_component_dependencies (c : Config) (output : gmap string ResolvedConfig)
    : gmap string (gmap string (list string)) :=
  (λ r, map_imap (λ id _,
     Some (sort_paths (List.filter (λ dep, bool_decide (is_Some (rf_components r !! dep)))
       (default [] (depends_on <$> components c !! id))))) (rf_components r)) <$> output.

Fixpoint resolve_cause (e : resolve_error) : resolve_error := match e with InParameter _ _ e => resolve_cause e | e => e end.

Definition unbound_requirement (e : resolve_error) : bool := match resolve_cause e with RequirementUnbound _ _ _ => true | _ => false end.

Definition missing_tag (e : resolve_error) : option string :=
  match resolve_cause e with ConditionFailed (MissingTag tag) => Some tag | _ => None end.

Definition map_resolve_error (e : resolve_error) : LoaderDiagnostic :=
  match e with
  | UnrecognizedSelector _ | EmptyScope | AllCombined | UnknownComponent _ | UnknownPlatform _ | NotAPlatform _ | NoPlatforms =>
      plain_diagnostic E_RESOLVE_SCOPE_INVALID
  | _ =>
      match resolve_cause e with
      | ConditionFailed _ => plain_diagnostic E_RESOLVE_CONTEXT_UNSATISFIED
      | _ => plain_diagnostic E_RESOLVE_FAILED
      end
  end.

Definition map_resolve_error_with_facets (e : resolve_error) (fs : gmap string Facet) : LoaderDiagnostic :=
  if unbound_requirement e then plain_diagnostic E_RESOLVE_FACET_UNBOUND
  else
    match missing_tag e ≫= (fs !!.) with
    | Some f => if decide (fc_default f = None) then plain_diagnostic E_RESOLVE_FACET_UNBOUND else map_resolve_error e
    | None => map_resolve_error e
    end.

Record ResolveOk : Type := mkResolveOk {
  rk_context_tags : gmap string string;
  rk_choices : gmap string string;
  rk_defaulted_choices : gmap string string;
  rk_implied_choices : gmap string string;
  rk_closed_facet_domains : ClosedFacetDomains;
  rk_component_dependencies : gmap string (gmap string (list string));
  rk_resolved_artifacts : gmap string SchemaArtifact;
  rk_resolve_hash : string;
  rk_resolved_output_hash : string;
  rk_resolved_output : Json;
}.

(** A refusal shows the values that were not chosen where the constraints refuse. *)
Record ResolveFailure : Type := mkResolveFailure {
  rx_defaulted : gmap string string;
  rx_implied : gmap string string;
  rx_diagnostics : list LoaderDiagnostic;
}.

Notation loader := (result (list LoaderDiagnostic)).

Section Loader.
Context `{HashOrder} `{IrCodec} `{RuntimeCodec} `{SyncCodec} `{LoaderCodec}.
Context (d : package_disk).

Definition compute_selection_state_hash (s : SelectionState) : option string :=
  rt_sha256_hex <$> state_json (mkStateCanonical (ss_schema_version s) (ss_model_hash s) (ss_scope s) (ss_context_tags s) (ss_choices s)).

Definition canonical_selection_state (model_hash scope : string) (context_tags choices : gmap string string) : option SelectionState :=
  let sealed := mkState PRODUCT_SCHEMA_VERSION model_hash scope context_tags choices in
  sealed <$> compute_selection_state_hash (sealed String.EmptyString).

Definition validate_selection_state (h : ModelHandle) (scope : string) (s : SelectionState)
    : result LoaderDiagnostic (gmap string string) :=
  let invalid := plain_diagnostic E_SELECTION_STATE_INVALID in
  _ ← bail_if (negb (ss_schema_version s =? PRODUCT_SCHEMA_VERSION)) invalid;
  _ ← bail_if (bool_decide (trim scope = String.EmptyString)) invalid;
  _ ← bail_if (negb (bool_decide (ss_model_hash s = mh_model_hash h))) invalid;
  _ ← bail_if (negb (bool_decide (ss_scope s = scope))) invalid;
  expected ← ok_or (compute_selection_state_hash s) invalid;
  _ ← bail_if (negb (bool_decide (expected = ss_selection_state_hash s))) invalid;
  map_err (λ _, invalid) (merge_assignments s).

Definition load_package (h : ModelHandle) : result load_error LoadedPackage :=
  index ← map_err IndexNotLoaded (load_index parse_index d (mh_index_ref h));
  chunks ← map_err IntegrityFailed (verify_index_integrity_loading index (same_dir (mh_chunk_set_ref h)) d);
  Ok (mkLoaded index chunks h).

Definition load_selection_constraint_model (h : ModelHandle) : result load_error SelectionConstraintModel :=
  p ← load_package h; load_selection_constraint_model_from p.

Definition closed_facet_domains (h : ModelHandle) : result load_error ClosedFacetDomains :=
  p ← load_package h; closed_facet_domains_from p.

Definition selection_state_is_valid (h : ModelHandle) (scope : string) (s : SelectionState) : bool :=
  match validate_selection_state h scope s with Ok _ => true | Err _ => false end.

Definition selection_state_is_admissible (h : ModelHandle) (s : SelectionState) : bool :=
  match load_selection_constraint_model h with
  | Ok m => bool_decide (screen_selection_assignments m s = [])
  | Err _ => false
  end.

Definition list_selection_facets (h : ModelHandle) : result load_error (list string) :=
  (λ m, (bt_list (facet_domains m)).*1) <$> load_selection_constraint_model h.

Definition require_version (version : N) : loader unit :=
  bail_if (negb (version =? PRODUCT_SCHEMA_VERSION)) [plain_diagnostic E_LOADER_UNSUPPORTED_SCHEMA_VERSION].

(** The model of a handle, or the diagnostic that it cannot be loaded. *)
Definition selection_model (h : ModelHandle) : loader SelectionConstraintModel :=
  map_err (λ _, [mkLoaderDiagnostic E_LOADER_INDEX_INVALID (Some (mh_index_ref h)) None]) (load_selection_constraint_model h).

Definition screened (diagnostics : list LoaderDiagnostic) : loader unit :=
  bail_if (bool_decide (diagnostics ≠ [])) diagnostics.

Definition initialize_selection_state (version : N) (h : ModelHandle) (scope : string) (context_tags : gmap string string)
    : loader SelectionState :=
  _ ← require_version version;
  _ ← bail_if (bool_decide (trim scope = String.EmptyString)) [plain_diagnostic E_SELECTION_STATE_INVALID];
  _ ← selection_model h;
  ok_or (canonical_selection_state (mh_model_hash h) scope context_tags ∅) [plain_diagnostic E_SELECTION_STATE_INVALID].

Definition get_selection_options (version : N) (h : ModelHandle) (scope : string) (s : SelectionState) (facet : string)
    (include_pruned_reasons : bool) : loader SelectionOptions :=
  _ ← require_version version;
  assignments ← map_err (λ x, [x]) (validate_selection_state h scope s);
  _ ← bail_if (bool_decide (trim facet = String.EmptyString)) [plain_diagnostic E_SELECTION_UNKNOWN_FACET];
  m ← selection_model h;
  _ ← screened (screen_selection_assignments m s);
  domain ← ok_or (facet_domain m assignments facet) [plain_diagnostic E_SELECTION_UNKNOWN_FACET];
  let valid := valid_options_for_facet m assignments facet domain in
  Ok (mkSelectionOptions valid (facet_defaults m !! facet) (facet_open m !! facet)
        (if include_pruned_reasons then Some (List.filter (λ o, bool_decide (o ∉ valid)) (bt_elements domain)) else None)).

(** The choice against the model and the other assignments. *)
Definition adjudicate (m : SelectionConstraintModel) (s : SelectionState) (assignments : gmap string string) (x : SelectionDelta)
    : loader SelectionState :=
  let reject r := [rejection_to_diagnostic (sd_facet x) (sd_option x) r] in
  domain ← ok_or (facet_domains m !! sd_facet x) [plain_diagnostic E_SELECTION_UNKNOWN_FACET];
  _ ← bail_if (bool_decide (sd_option x ∉ domain)) [plain_diagnostic E_SELECTION_INVALID_OPTION];
  _ ← match first_violated_constraint m (<[sd_facet x := sd_option x]> assignments) with
      | Some c => Err [constraint_violation_diagnostic (sc_id c) (Some (sc_source c))]
      | None => Ok tt
      end;
  _ ← bail_if (bool_decide (sd_option x ∉ valid_options_for_facet m assignments (sd_facet x) domain)) (reject (build_unsat_reason s));
  ok_or (canonical_selection_state (ss_model_hash s) (ss_scope s) (ss_context_tags s) (<[sd_facet x := sd_option x]> (ss_choices s)))
    [plain_diagnostic E_SELECTION_STATE_INVALID].

Definition apply_selection (version : N) (h : ModelHandle) (scope : string) (s : SelectionState) (x : SelectionDelta)
    : loader SelectionState :=
  let clash existing := [rejection_to_diagnostic (sd_facet x) (sd_option x)
                           (mkReason E_SELECTION_CONFLICT {[sd_facet x := existing]} None)] in
  _ ← require_version version;
  _ ← bail_if (bool_decide (trim (sd_facet x) = String.EmptyString)) [plain_diagnostic E_SELECTION_UNKNOWN_FACET];
  _ ← bail_if (bool_decide (trim (sd_option x) = String.EmptyString)) [plain_diagnostic E_SELECTION_INVALID_OPTION];
  assignments ← map_err (λ x, [x]) (validate_selection_state h scope s);
  m ← selection_model h;
  _ ← screened (screen_selection_assignments m s);
  _ ← match ss_context_tags s !! sd_facet x with
      | Some existing => bail_if (negb (bool_decide (existing = sd_option x))) (clash existing)
      | None => Ok tt
      end;
  match ss_choices s !! sd_facet x with
  | Some existing => if decide (existing = sd_option x) then Ok s else Err (clash existing)
  | None => adjudicate m s assignments x
  end.

(** Always a refusal: the reason is the answer. *)
Definition explain_rejection (version : N) (h : ModelHandle) (scope : string) (s : SelectionState) (x : SelectionDelta)
    : RejectionReason :=
  if negb (version =? PRODUCT_SCHEMA_VERSION) then reason E_LOADER_UNSUPPORTED_SCHEMA_VERSION
  else
    match validate_selection_state h scope s with
    | Err diagnostic => reason (ld_code diagnostic)
    | Ok assignments =>
        match load_selection_constraint_model h with
        | Err _ => reason E_LOADER_INDEX_INVALID
        | Ok m =>
            match screen_selection_assignments m s with
            | first :: _ => reason (ld_code first)
            | [] => classify_rejection_reason m s assignments x
            end
        end
    end.

(** ** Resolving a selection *)

Definition screen_selection_state_from (p : LoadedPackage) (s : SelectionState) : list LoaderDiagnostic :=
  match load_selection_constraint_model_from p with
  | Ok m => screen_selection_assignments m s
  | Err _ =>
      match load_resolve_model_from p with
      | Err _ => []
      | Ok _ => [mkLoaderDiagnostic E_RESOLVE_MODEL_INVALID (Some (mh_index_ref (lp_model_handle p))) None]
      end
  end.

Definition loader_resolve_hash (model_hash scope : string) (s : SelectionState) (output : Json) (defaulted implied : gmap string string)
    : option string :=
  rt_sha256_hex <$> resolve_json (mkResolveCanonical PRODUCT_SCHEMA_VERSION model_hash scope
    (mkStateCanonical (ss_schema_version s) (ss_model_hash s) (ss_scope s) (ss_context_tags s) (ss_choices s)) output defaulted implied).

Definition compute_resolved_output_hash (scope : string) (output : Json) : option string :=
  rt_sha256_hex <$> output_json (PRODUCT_SCHEMA_VERSION, scope, output).

Definition canonicalize_resolved_output (output : gmap string ResolvedConfig) : option Json :=
  canonicalize_json_value <$> output_value output.

Definition failed (diagnostics : list LoaderDiagnostic) : ResolveFailure := mkResolveFailure ∅ ∅ diagnostics.

Definition model_invalid (h : ModelHandle) : ResolveFailure :=
  failed [mkLoaderDiagnostic E_RESOLVE_MODEL_INVALID (Some (mh_index_ref h)) None].

(** What the resolver gives under the total assignment, sealed. *)
Definition resolve_and_seal (p : LoadedPackage) (model : ResolveModel) (h : ModelHandle) (scope : string) (s : SelectionState)
    (assignments implied : gmap string string) : result ResolveFailure ResolveOk :=
  let c := rm_config model in
  let defaulted := defaulted_choices c assignments implied in
  output ← map_err (λ e, failed [map_resolve_error_with_facets e (facets c)]) (resolve_scoped (total_assignment c assignments implied) c scope);
  value ← ok_or (canonicalize_resolved_output output) (failed [plain_diagnostic E_RESOLVE_FAILED]);
  hash ← ok_or (loader_resolve_hash (mh_model_hash h) scope s value defaulted implied) (failed [plain_diagnostic E_RESOLVE_FAILED]);
  output_hash ← ok_or (compute_resolved_output_hash scope value) (failed [plain_diagnostic E_RESOLVE_FAILED]);
  Ok (mkResolveOk (ss_context_tags s) (ss_choices s) defaulted implied
        (match closed_facet_domains_from p with Ok domains => domains | Err _ => ∅ end)
        (extract_resolved_component_dependencies c output) (artifacts c) hash output_hash value).

Definition resolve_from_selection (version : N) (h : ModelHandle) (scope : string) (s : SelectionState) (implied : gmap string string)
    : result ResolveFailure ResolveOk :=
  _ ← map_err failed (require_version version);
  assignments ← map_err (λ x, failed [x]) (validate_selection_state h scope s);
  p ← map_err (λ _, model_invalid h) (load_package h);
  _ ← map_err failed (screened (screen_selection_state_from p s));
  model ← map_err (λ _, model_invalid h) (load_resolve_model_from p);
  _ ← map_err (mkResolveFailure ∅ implied) (screened (screen_implied_choices model implied));
  let defaulted := defaulted_choices (rm_config model) assignments implied in
  violations ← map_err (λ x, mkResolveFailure defaulted implied [x])
                 (evaluate_constraints model (total_assignment (rm_config model) assignments implied));
  _ ← map_err (mkResolveFailure defaulted implied) (screened violations);
  resolve_and_seal p model h scope s assignments implied.

(** ** Opening a package *)

Definition load_cmp_manifest (path : string) : option CmpManifest := bytes ← mjoin (d !! path); parse_cmp_manifest bytes.

Definition validate_manifest (m : CmpManifest) : bool :=
  (cm_schema_version m =? CMP_MANIFEST_SCHEMA_VERSION) && (cm_ir_format_version m =? IR_FORMAT_VERSION) &&
  bool_decide (cm_hash_algo m = CMP_HASH_ALGO) && (cm_canonicalization_version m =? CMP_CANONICALIZATION_VERSION) &&
  bool_decide (cm_model_hash m = cm_config_hash m) && negb (bool_decide (trim (cm_index_ref m) = String.EmptyString)) &&
  negb (bool_decide (trim (cm_chunk_set_ref m) = String.EmptyString)).

Definition index_stats (i : IrIndex) : N * N * N * N * N :=
  (len_u32 (length (ix_chunks i)), len_u32 (length (ix_chunks i)), len_u32 (size (definition_index i)),
   len_u32 (size (component_index i)), len_u32 (size (artifact_index i))).

Definition manifest_stats (s : CmpManifestStats) : N * N * N * N * N :=
  (st_source_count s, st_chunk_count s, st_definition_count s, st_component_count s, st_artifact_count s).

Definition open_model (version : N) (cmp_manifest_ref : string) : loader ModelHandle :=
  let inconsistent := [mkLoaderDiagnostic E_LOADER_MANIFEST_INCONSISTENT (Some cmp_manifest_ref) None] in
  let invalid_at path := [mkLoaderDiagnostic E_LOADER_INDEX_INVALID (Some path) None] in
  _ ← require_version version;
  m ← ok_or (load_cmp_manifest cmp_manifest_ref) [mkLoaderDiagnostic E_LOADER_MANIFEST_INVALID (Some cmp_manifest_ref) None];
  _ ← bail_if (negb (validate_manifest m)) inconsistent;
  let manifest_dir := default "." (parent_dir cmp_manifest_ref) in
  let index_path := resolve_ref manifest_dir (cm_index_ref m) in
  let chunk_dir := resolve_ref manifest_dir (cm_chunk_set_ref m) in
  index ← map_err (λ _, invalid_at index_path) (load_index parse_index d index_path);
  _ ← bail_if (negb (ix_format_version index =? cm_ir_format_version m)) inconsistent;
  computed ← map_err (λ _, invalid_at index_path) (compute_config_hash index);
  _ ← bail_if (negb (bool_decide (computed = ix_config_hash index))) (invalid_at index_path);
  _ ← bail_if (negb (bool_decide (ix_config_hash index = cm_config_hash m ∧ ix_config_hash index = cm_model_hash m))) inconsistent;
  _ ← map_err (λ _, invalid_at chunk_dir) (verify_index_integrity index (same_dir chunk_dir) d);
  _ ← match cm_stats m with
      | Some stats => bail_if (negb (bool_decide (index_stats index = manifest_stats stats))) inconsistent
      | None => Ok tt
      end;
  Ok (mkHandle (cm_model_hash m) cmp_manifest_ref index_path chunk_dir (path_join manifest_dir "ccm")).
End Loader.
