(* ===== verification/LoaderProps.v ===== *)
(** * What the loader guarantees

    A state that the loader made passes its own checks, the options it lists are
    those it applies, and the model that selections are checked against and the one
    that is resolved have the same constraints. *)
From S2P Require Import Prelude Text Tokens Ast SelectionEval Schema Resolver ResolverProps InterfaceSummary LinkVerify Lowering Ir Ingest Link Reverify.
From S2P Require Import Attribution Override Runtime RuntimeProps RuntimeSync CcmLoad Enforce Loader.
Local Open Scope N_scope.

(** ** Tags and choices *)

Lemma merge_choices_Ok l merged m :
  NoDup l.*1 → try_fold merge_choice merged l = Ok m →
  (∀ f o t, (f, o) ∈ l → merged !! f = Some t → t = o) ∧ m = list_to_map l ∪ merged.
Proof.
  revert merged. induction l as [|[f o] l IH]; intros merged Hnd; cbn; [intros [= <-]; split; [set_solver|by rewrite (left_id_L ∅ _)]|].
  cbn in Hnd. apply NoDup_cons in Hnd as [Hf Hnd]. intros (merged' & Hm & Hr)%bind_Ok.
  assert (E : merged' = <[f := o]> merged ∧ ∀ t, merged !! f = Some t → t = o).
  { unfold merge_choice in Hm. cbn in Hm. destruct (merged !! f) as [t|]; [case_decide|]; naive_solver. }
  destruct E as [-> Ho]. apply IH in Hr as [Hl ->]; [|done]. split.
  - intros g v t [[= -> ->]|Hin]%elem_of_cons Ht; [by apply Ho|]. apply (Hl g v t Hin). rewrite lookup_insert_ne; [done|].
    intros ->. apply Hf, list_elem_of_fmap. by exists (g, v).
  - apply map_eq. intros g. rewrite !lookup_union. destruct (decide (g = f)) as [->|Hne].
    + rewrite (not_elem_of_list_to_map_1 l f Hf), !lookup_insert_eq. by destruct (merged !! f).
    + by rewrite !lookup_insert_ne.
Qed.

Lemma merge_choices_run l merged :
  NoDup l.*1 → (∀ f o t, (f, o) ∈ l → merged !! f = Some t → t = o) → ∃ m, try_fold merge_choice merged l = Ok m.
Proof.
  revert merged. induction l as [|[f o] l IH]; intros merged Hnd Hl; cbn; [eauto|].
  cbn in Hnd. apply NoDup_cons in Hnd as [Hf Hnd].
  assert (E : merge_choice merged (f, o) = Ok (<[f := o]> merged)).
  { unfold merge_choice. cbn. destruct (merged !! f) as [t|] eqn:Et; [|done]. rewrite (Hl f o t); [by rewrite decide_True|set_solver|done]. }
  rewrite E. cbn. apply IH; [done|]. intros g v t Hin. rewrite lookup_insert_ne; [apply Hl; set_solver|].
  intros ->. apply Hf, list_elem_of_fmap. by exists (g, v).
Qed.

(** Tags and choices merge when they agree, and the choices come first. *)
Lemma merge_assignments_spec s m :
  merge_assignments s = Ok m ↔
  (∀ f o t, ss_choices s !! f = Some o → ss_context_tags s !! f = Some t → t = o) ∧ m = ss_choices s ∪ ss_context_tags s.
Proof.
  unfold merge_assignments. split.
  - intros [Hl ->]%merge_choices_Ok; [|apply NoDup_bt_list]. rewrite bt_list_map. split; [|done].
    intros f o t Ho. apply Hl. by apply elem_bt_list.
  - intros [Hl ->]. destruct (merge_choices_run (bt_list (ss_choices s)) (ss_context_tags s)) as [m Hm];
      [apply NoDup_bt_list|intros f o t Hin%elem_bt_list; by apply Hl|]. rewrite Hm.
    apply merge_choices_Ok in Hm as [_ ->]; [|apply NoDup_bt_list]. by rewrite bt_list_map.
Qed.

(** ** Screens *)

Lemma flat_map_nil {A B} (f : A → list B) l : flat_map f l = [] ↔ ∀ x, x ∈ l → f x = [].
Proof. induction l as [|y l IH]; cbn; [set_solver|]. rewrite app_nil, IH. set_solver. Qed.

(** What the model admits of a state. *)
Lemma screen_empty m s :
  screen_selection_assignments m s = [] ↔
  (∀ f o, ss_choices s !! f = Some o → ∃ domain, facet_domains m !! f = Some domain ∧ o ∈ domain) ∧
  (∀ f o declared, ss_context_tags s !! f = Some o → facet_open m !! f = Some false → sm_declared_values m !! f = Some declared → o ∈ declared).
Proof.
  unfold screen_selection_assignments. rewrite app_nil, !flat_map_nil. f_equiv.
  - split.
    + intros Hall f o Ho. specialize (Hall (f, o)). rewrite elem_bt_list in Hall. specialize (Hall Ho). unfold choice_screen in Hall. cbn in Hall.
      destruct (facet_domains m !! f) as [domain|]; [|done]. exists domain. by case_decide.
    + intros Hall [f o] Ho%elem_bt_list. destruct (Hall f o Ho) as (domain & Hd & Hin). unfold choice_screen. cbn. rewrite Hd. by rewrite decide_True.
  - split.
    + intros Hall f o declared Ho Hc Hd. specialize (Hall (f, o)). rewrite elem_bt_list in Hall. specialize (Hall Ho). unfold tag_screen in Hall. cbn in Hall.
      rewrite decide_True, Hd in Hall by done. by case_decide.
    + intros Hall [f o] Ho%elem_bt_list. unfold tag_screen. cbn. case_decide; [|done]. destruct (sm_declared_values m !! f) as [declared|] eqn:Ed; [|done].
      rewrite decide_True; [done|by eapply Hall].
Qed.

Lemma first_violated_None m a : first_violated_constraint m a = None ↔ ∀ c, c ∈ sm_constraints m → not_contradicted (sc_expr c) a = true.
Proof.
  unfold first_violated_constraint. rewrite head_None. split.
  - intros E c Hc. apply not_false_iff_true. intros Hf. apply (not_elem_of_nil c). rewrite <-E. rewrite list_elem_of_In, List.filter_In, <-list_elem_of_In.
    split; [done|]. by rewrite Hf.
  - intros Hall. destruct (List.filter _ _) as [|c l] eqn:E; [done|]. assert (Hc : c ∈ c :: l) by left. rewrite <-E, list_elem_of_In, List.filter_In, <-list_elem_of_In in Hc.
    destruct Hc as [Hc Hn]. by rewrite (Hall c Hc) in Hn.
Qed.

Lemma screened_Ok ds : screened ds = Ok tt ↔ ds = [].
Proof. unfold screened, bail_if. by case_bool_decide. Qed.

Lemma screened_Ok' ds u : screened ds = Ok u ↔ ds = [].
Proof. destruct u. apply screened_Ok. Qed.

Lemma bail_if_Ok' {E} b (e : E) u : bail_if b e = Ok u ↔ b = false.
Proof. destruct u. apply bail_if_Ok. Qed.

Lemma given_Ok {E A} (o : option A) (e : E) a : ok_or o e = Ok a ↔ o = Some a.
Proof. destruct o; cbn; naive_solver. Qed.

(** Running an operation backwards. *)
Ltac inv_loader :=
  inv_ok;
  repeat match goal with
  | H : bail_if _ _ = Ok _ |- _ => apply bail_if_Ok' in H
  | H : negb _ = false |- _ => apply negb_false_iff in H
  | H : negb _ = true |- _ => apply negb_true_iff in H
  | H : bool_decide _ = true |- _ => apply bool_decide_eq_true in H
  | H : bool_decide _ = false |- _ => apply bool_decide_eq_false in H
  | H : (_ =? _) = true |- _ => apply N.eqb_eq in H
  | H : screened _ = Ok _ |- _ => apply screened_Ok' in H
  | H : ok_or _ _ = Ok _ |- _ => apply given_Ok in H
  | H : map_err _ _ = Ok _ |- _ => apply map_err_Ok in H
  end.

(** ** States *)

Section States.
Context `{HashOrder} `{IrCodec} `{RuntimeCodec} `{SyncCodec} `{LoaderCodec}.
Context (d : package_disk) (h : ModelHandle) (scope : string).

Lemma canonical_state_Some model_hash sc tags choices s :
  canonical_selection_state model_hash sc tags choices = Some s →
  ss_schema_version s = PRODUCT_SCHEMA_VERSION ∧ ss_model_hash s = model_hash ∧ ss_scope s = sc ∧ ss_context_tags s = tags ∧ ss_choices s = choices ∧
  compute_selection_state_hash s = Some (ss_selection_state_hash s).
Proof. unfold canonical_selection_state. intros (hash & Hh & ->)%fmap_Some. done. Qed.

(** The integrity of a state. *)
Lemma validate_state_spec s m :
  validate_selection_state h scope s = Ok m ↔
  ss_schema_version s = PRODUCT_SCHEMA_VERSION ∧ trim scope ≠ String.EmptyString ∧ ss_model_hash s = mh_model_hash h ∧ ss_scope s = scope ∧
  compute_selection_state_hash s = Some (ss_selection_state_hash s) ∧ merge_assignments s = Ok m.
Proof.
  unfold validate_selection_state. split.
  - intros Hv. inv_loader. simplify_eq. by split_and!.
  - intros (E1 & Hne & E2 & E3 & E4 & E5). rewrite E1, E2, E3, E4, E5, N.eqb_refl. rewrite (bool_decide_eq_false_2 (trim scope = String.EmptyString)) by done. cbn.
    repeat (rewrite bool_decide_eq_true_2 by reflexivity; cbn). done.
Qed.

Lemma selection_model_Ok m : selection_model d h = Ok m ↔ load_selection_constraint_model d h = Ok m.
Proof. unfold selection_model. destruct (load_selection_constraint_model d h); cbn; naive_solver. Qed.

(** What an application that succeeds has checked and done. *)
Lemma apply_selection_Ok version s x s' :
  apply_selection d version h scope s x = Ok s' →
  ∃ assignments m, validate_selection_state h scope s = Ok assignments ∧ load_selection_constraint_model d h = Ok m ∧
    screen_selection_assignments m s = [] ∧ (∀ t, ss_context_tags s !! sd_facet x = Some t → t = sd_option x) ∧
    (s' = s ∧ ss_choices s !! sd_facet x = Some (sd_option x) ∨
     ss_choices s !! sd_facet x = None ∧
     ∃ domain, facet_domains m !! sd_facet x = Some domain ∧ sd_option x ∈ domain ∧
       first_violated_constraint m (<[sd_facet x := sd_option x]> assignments) = None ∧
       sd_option x ∈ valid_options_for_facet m assignments (sd_facet x) domain ∧
       canonical_selection_state (ss_model_hash s) (ss_scope s) (ss_context_tags s) (<[sd_facet x := sd_option x]> (ss_choices s)) = Some s').
Proof.
  unfold apply_selection. intros Hr. inv_loader. rewrite selection_model_Ok in *.
  eexists _, _. split_and!; [eassumption..| |].
  - intros t Ht. rewrite Ht in *. inv_loader. done.
  - destruct (ss_choices s !! sd_facet x) as [existing|]; [case_decide; [simplify_eq; by left|done]|]. right. split; [done|].
    unfold adjudicate in *. inv_loader. eexists. destruct (first_violated_constraint _ _); [done|].
    split_and!; [eassumption|by apply dec_stable|done|by apply dec_stable|done].
Qed.

(** C17: A state that an application gives passes the checks of every operation: it is
    sealed for the handle and the scope, and the model admits each of its choices
    and tags; it has the choice and nothing else has changed. *)
Theorem applied_state_accepted version s x s' :
  apply_selection d version h scope s x = Ok s' →
  selection_state_is_valid h scope s' = true ∧ selection_state_is_admissible d h s' = true ∧
  ss_context_tags s' = ss_context_tags s ∧ ss_choices s' = <[sd_facet x := sd_option x]> (ss_choices s).
Proof.
  intros (assignments & m & Hv & Hm & Hscreen & Htag & Hs')%apply_selection_Ok. unfold selection_state_is_valid, selection_state_is_admissible.
  rewrite Hm. destruct Hs' as [[-> Hc]|(Hc & domain & Hd & Hin & _ & _ & Hs')].
  - rewrite Hv, bool_decide_eq_true_2 by done. split_and!; [done..|]. symmetry. by apply insert_id.
  - apply validate_state_spec in Hv as (_ & Hsc & Hmh & Hss & _ & [Hagree ->]%merge_assignments_spec).
    apply canonical_state_Some in Hs' as (E1 & E2 & E3 & E4 & E5 & E6). rewrite E4, E5. split_and!; [| |done..].
    + assert (Hok : validate_selection_state h scope s' = Ok (ss_choices s' ∪ ss_context_tags s')); [|by rewrite Hok].
      apply validate_state_spec. split_and!; [done..|congruence|congruence|done|]. apply merge_assignments_spec. split; [|done].
      rewrite E4, E5. intros f o t [[<- <-]|[_ Ho]]%lookup_insert_Some Ht; [by apply Htag|by eapply Hagree].
    + apply bool_decide_eq_true_2, screen_empty. apply screen_empty in Hscreen as [Hch Htags]. rewrite E4, E5. split; [|done].
      intros f o [[<- <-]|[_ Ho]]%lookup_insert_Some; [by exists domain|by apply Hch].
Qed.

Lemma options_Ok version s facet pruned r :
  get_selection_options d version h scope s facet pruned = Ok r →
  ∃ assignments m domain, version = PRODUCT_SCHEMA_VERSION ∧ validate_selection_state h scope s = Ok assignments ∧ trim facet ≠ String.EmptyString ∧
    load_selection_constraint_model d h = Ok m ∧ screen_selection_assignments m s = [] ∧ facet_domain m assignments facet = Some domain ∧
    so_valid_options r = valid_options_for_facet m assignments facet domain.
Proof.
  unfold get_selection_options. intros Hr. inv_loader. rewrite selection_model_Ok in *. unfold require_version in *. inv_loader.
  eexists _, _, _. split_and!; [eassumption..|done].
Qed.

Lemma elem_valid_options m assignments facet domain o :
  facet_domains m !! facet = Some domain → assignments !! facet = None →
  o ∈ valid_options_for_facet m assignments facet domain ↔ o ∈ domain ∧ option_is_valid m assignments facet o = true.
Proof.
  intros Hd Ha. unfold valid_options_for_facet. rewrite decide_False by (by rewrite Hd).
  by rewrite list_elem_of_In, List.filter_In, <-list_elem_of_In, elem_of_bt_elements.
Qed.

Lemma option_valid_unviolated m assignments facet o :
  option_is_valid m assignments facet o = true → first_violated_constraint m (<[facet := o]> assignments) = None.
Proof. unfold option_is_valid. case_bool_decide as Hd; [done|]. intros _. by apply eq_None_not_Some. Qed.

(** C18: The options listed for a facet that has no value yet are those that can be
    applied. *)
Theorem options_are_applicable version s facet pruned r o :
  (∀ c, is_Some (state_json c)) →
  get_selection_options d version h scope s facet pruned = Ok r →
  ss_context_tags s !! facet = None → ss_choices s !! facet = None → trim o ≠ String.EmptyString →
  o ∈ so_valid_options r ↔ ∃ s', apply_selection d version h scope s (mkDelta facet o) = Ok s'.
Proof.
  intros Hjson (assignments & m & domain & -> & Hv & Hf & Hm & Hscreen & Hd & ->)%options_Ok Htag Hch Ho.
  assert (Ha : assignments !! facet = None).
  { apply validate_state_spec in Hv as (_ & _ & _ & _ & _ & [_ ->]%merge_assignments_spec). by rewrite lookup_union, Htag, Hch. }
  unfold facet_domain in Hd. destruct (facet_domains m !! facet) as [domain'|] eqn:Ed; [|by rewrite Ha in Hd]. rewrite Ha in Hd. simplify_eq.
  split.
  - intros Hin. pose proof Hin as Hin'. apply elem_valid_options in Hin' as [Hdom Hval]; [|done..].
    unfold apply_selection, require_version. rewrite N.eqb_refl, Hv. cbn [sd_facet sd_option negb bail_if mbind result_bind map_err].
    rewrite !bool_decide_eq_false_2 by done. cbn [bail_if mbind result_bind].
    rewrite (proj2 (selection_model_Ok m) Hm). cbn [mbind result_bind]. rewrite (proj2 (screened_Ok _) Hscreen). cbn [mbind result_bind].
    rewrite Htag, Hch. cbn [mbind result_bind]. unfold adjudicate. cbn [sd_facet sd_option]. rewrite Ed. cbn [ok_or mbind result_bind].
    rewrite bool_decide_eq_false_2 by tauto. cbn [bail_if mbind result_bind]. rewrite (option_valid_unviolated _ _ _ _ Hval). cbn [mbind result_bind].
    rewrite bool_decide_eq_false_2 by tauto. cbn [bail_if mbind result_bind]. unfold canonical_selection_state, compute_selection_state_hash.
    destruct (Hjson (mkStateCanonical PRODUCT_SCHEMA_VERSION (ss_model_hash s) (ss_scope s) (ss_context_tags s) (<[facet := o]> (ss_choices s)))) as [bytes Hb].
    cbn [ss_schema_version ss_model_hash ss_scope ss_context_tags ss_choices]. rewrite Hb. by eexists.
  - intros [s' (assignments' & m' & Hv' & Hm' & _ & _ & Hs')%apply_selection_Ok]. cbn in Hs'. rewrite Hv in Hv'. injection Hv' as <-. rewrite Hm in Hm'. injection Hm' as <-.
    destruct Hs' as [[_ Hx]|(_ & domain2 & Hd2 & _ & _ & Hin & _)]; [by rewrite Hch in Hx|]. rewrite Ed in Hd2. by injection Hd2 as ->.
Qed.
End States.
