(* ===== verification/LoaderAgree.v ===== *)
(** * Two readers of one package

    The loader builds one model to check selections against and another to resolve
    them.  Here: they have the same constraints in the same order, so a selection
    and a resolution are refused for the same constraint. *)
From S2P Require Import Prelude Text Tokens Ast SelectionEval Schema Resolver ResolverProps InterfaceSummary LinkVerify Lowering Ir Ingest Link Reverify LinkModel.
From S2P Require Import Attribution Override Runtime RuntimeProps RuntimeSync CcmLoad Enforce Loader LoaderProps.
Local Open Scope N_scope.

(** ** Walks *)

Lemma try_fold_same {E F A B} (f : B → A → result E B) (g : B → A → result F B) l b r :
  (∀ b a r, f b a = Ok r ↔ g b a = Ok r) → try_fold f b l = Ok r ↔ try_fold g b l = Ok r.
Proof. intros E0. revert b. induction l as [|a l IH]; intros b; cbn; [naive_solver|]. rewrite !bind_Ok. setoid_rewrite E0. by setoid_rewrite IH. Qed.

Lemma add_unique_Ok {A} kind (into from m : gmap string A) : add_unique kind into from = Ok m ↔ into ##ₘ from ∧ m = into ∪ from.
Proof.
  rewrite <-(insert_once_Ok KFacet). unfold add_unique, insert_once. apply try_fold_same. intros b [k v] r. cbn. destruct (b !! k); naive_solver.
Qed.

(** A property that each step keeps. *)
Lemma try_fold_inv {E A B} (f : B → A → result E B) (P : B → list A → Prop) l b r :
  P b [] → (∀ b done a b', P b done → f b a = Ok b' → P b' (done ++ [a])) → try_fold f b l = Ok r → P r l.
Proof.
  intros H0 Hstep. assert (Hgen : ∀ done b, P b done → try_fold f b l = Ok r → P r (done ++ l)).
  { clear b H0. induction l as [|a l IH]; intros done b Hp; cbn; [intros [= <-]; by rewrite app_nil_r|].
    intros (b' & Hb & Hr)%bind_Ok. rewrite cons_middle, app_assoc. eapply IH; [|exact Hr]. by eapply Hstep. }
  by apply (Hgen []).
Qed.

(** ** The constraints of the selection model *)

Definition label (c : SelectionConstraint) : string * string := (sc_id c, sc_condition c).
Definition authored (ic : string * Constraint) : string * string := (ic.1, cn_condition ic.2).
Definition well_parsed (c : SelectionConstraint) : Prop := parse_condition_expr (sc_condition c) = Ok (sc_expr c).

Lemma foldl_same {A B C} (g : B → C) (f : B → A → B) l b : (∀ b a, g (f b a) = g b) → g (foldl f b l) = g b.
Proof. intros Hf. revert b. induction l as [|a l IH]; intros b; cbn; [done|]. by rewrite IH, Hf. Qed.

Lemma seed_constraints fs m : sm_constraints (seed_facet_domains_from_declarations fs m) = sm_constraints m.
Proof. apply (foldl_same sm_constraints). by intros m' [name f]. Qed.

Lemma register_condition_constraints c m : sm_constraints (register_condition c m) = sm_constraints m.
Proof. unfold register_condition. by destruct (parse_condition_expr c). Qed.

Lemma register_parameter_constraints p : ∀ m, sm_constraints (register_parameter_conditions p m) = sm_constraints m.
Proof.
  induction p as [p IH] using param_nested. destruct p as [i t u d v f l s a lm r overrides]. cbn in IH |- *. induction IH as [|[c q] bs Hq _ IHbs]; intros m; [done|].
  cbn in Hq. by rewrite IHbs, Hq, register_condition_constraints.
Qed.

Lemma register_component_constraints c m : sm_constraints (register_component c m) = sm_constraints m.
Proof.
  unfold register_component. rewrite (foldl_same sm_constraints) by (intros; apply register_parameter_constraints).
  destruct (cp_condition c); [apply register_condition_constraints|done].
Qed.

Lemma read_constraints_Ok source cs m m' :
  try_fold (read_constraint source) m cs = Ok m' →
  label <$> sm_constraints m' = (label <$> sm_constraints m) ++ (authored <$> cs) ∧
  (Forall well_parsed (sm_constraints m) → Forall well_parsed (sm_constraints m')) ∧
  (NoDup (sc_id <$> sm_constraints m) → NoDup (sc_id <$> sm_constraints m')).
Proof.
  apply (try_fold_inv _ (λ m' cs, label <$> sm_constraints m' = (label <$> sm_constraints m) ++ (authored <$> cs) ∧
    (Forall well_parsed (sm_constraints m) → Forall well_parsed (sm_constraints m')) ∧
    (NoDup (sc_id <$> sm_constraints m) → NoDup (sc_id <$> sm_constraints m')))).
  - by rewrite app_nil_r.
  - intros m1 rest [id c] m2 (El & Hw & Hn) Hr. unfold read_constraint in Hr. inv_loader. cbn [sm_constraints push_constraint].
    rewrite !fmap_app, El. split_and!.
    + by rewrite <-app_assoc.
    + intros Hw0. apply Forall_app. split; [by apply Hw|]. by repeat constructor.
    + intros Hn0. cbn. apply NoDup_app. split_and!; [by apply Hn| |apply NoDup_singleton]. intros id' Hin Hid'%list_elem_of_singleton. subst id'.
      match goal with H : existsb _ _ = false |- _ => apply not_true_iff_false in H; apply H end. apply existsb_exists.
      apply list_elem_of_fmap in Hin as (seen & -> & Hin). exists seen. rewrite <-list_elem_of_In. split; [done|]. by apply bool_decide_eq_true.
Qed.

Notation chunk_pairs := (list (IrChunkRef * IrChunk)).

Definition later_wins {A} (f : IrChunk → gmap string A) (l : chunk_pairs) : gmap string A := foldl (λ acc rc, f rc.2 ∪ acc) ∅ l.

Lemma later_wins_snoc {A} (f : IrChunk → gmap string A) l rc : later_wins f (l ++ [rc]) = f rc.2 ∪ later_wins f l.
Proof. unfold later_wins. by rewrite foldl_app. Qed.

(** What the walk has gathered. *)
Record walked (w : walk_state) (l : chunk_pairs) : Prop := {
  wk_catalogues : ws_catalogues w = later_wins ik_catalogues l;
  wk_bindings : ws_bindings w = later_wins ik_bindings l;
  wk_components : ws_components w = later_wins ik_components l;
  wk_labels : label <$> sm_constraints (ws_model w) = mjoin ((λ rc, authored <$> bt_list (ik_constraints rc.2)) <$> l);
  wk_parsed : Forall well_parsed (sm_constraints (ws_model w));
  wk_distinct : NoDup (sc_id <$> sm_constraints (ws_model w));
}.

Lemma walk_Ok l w : try_fold walk_chunk (mkWalk default_selection_model ∅ ∅ ∅ ∅ ∅) l = Ok w → walked w l.
Proof.
  apply (try_fold_inv _ walked); [by split; try constructor|]. intros w1 rest [r c] w2 [H1 H2 H3 H4 H5 H6] Hr. unfold walk_chunk in Hr. inv_loader.
  match goal with H : try_fold (read_constraint _) _ _ = Ok _ |- _ => apply read_constraints_Ok in H as (El & Hw & Hn) end.
  rewrite seed_constraints in El, Hw, Hn. cbn [gather ws_model] in El, Hw, Hn.
  assert (Ec : ∀ m, sm_constraints (foldl (λ m kc, register_component kc.2 m)
    (foldl (λ m kp, register_parameter_conditions kp.2 m) m (bt_list (ik_definitions c))) (bt_list (ik_components c))) = sm_constraints m).
  { intros m. rewrite (foldl_same sm_constraints) by (intros; apply register_component_constraints).
    apply (foldl_same sm_constraints). intros; apply register_parameter_constraints. }
  split; cbn [with_model gather ws_model ws_catalogues ws_bindings ws_components]; rewrite ?later_wins_snoc, ?Ec; cbn [snd].
  - by rewrite H1.
  - by rewrite H2.
  - by rewrite H3.
  - rewrite El, H4, fmap_app, join_app. cbn. by rewrite app_nil_r.
  - by apply Hw.
  - by apply Hn.
Qed.

(** ** The constraints of the resolve model *)

Record merged (s : merge_state) (l : chunk_pairs) : Prop := {
  mg_catalogues : catalogues (ms_config s) = later_wins ik_catalogues l;
  mg_bindings : bindings (ms_config s) = later_wins ik_bindings l;
  mg_components : components (ms_config s) = later_wins ik_components l;
  mg_constraints : bt_list (Schema.constraints (ms_config s)) ≡ₚ mjoin ((λ rc, bt_list (ik_constraints rc.2)) <$> l);
}.

Lemma merge_Ok l s : try_fold merge_chunk (mkMerge merged_root ∅ ∅ ∅) l = Ok s → merged s l.
Proof.
  apply (try_fold_inv _ merged); [by split|]. intros s1 rest [r c] s2 [H1 H2 H3 H4] Hr. unfold merge_chunk in Hr. inv_loader.
  repeat match goal with H : add_unique _ _ _ = Ok _ |- _ => apply add_unique_Ok in H as [? ->] end.
  split; cbn [ms_config catalogues bindings components Schema.constraints]; rewrite ?later_wins_snoc; cbn [snd].
  - rewrite <-H1. by apply map_union_comm.
  - rewrite <-H2. by apply map_union_comm.
  - rewrite <-H3. by apply map_union_comm.
  - rewrite fmap_app, join_app. cbn. rewrite app_nil_r, <-H4. by apply bt_list_union.
Qed.

(** ** In order *)

Definition first_le (a b : string * string) : Prop := String.le a.1 b.1.

#[local] Instance first_le_trans : Transitive first_le.
Proof. intros a b c. unfold first_le. apply transitivity. Qed.

#[local] Instance constraint_le_total : Total constraint_le.
Proof. intros a b. unfold constraint_le. apply total, _. Qed.

Lemma sorted_labels l : Sorted constraint_le l → Sorted first_le (label <$> l).
Proof. induction 1 as [|c l Hs IH Hd]; cbn; constructor; [done|]. by inversion Hd; constructor. Qed.

Lemma sorted_authored (m : gmap string Constraint) : Sorted first_le (authored <$> bt_list m).
Proof.
  assert (Hs : Sorted String.le ((authored <$> bt_list m).*1)).
  { rewrite <-list_fmap_compose. change (Sorted String.le (fst <$> bt_list m)). rewrite bt_list_keys. apply Sorted_merge_sort. apply _. }
  induction (authored <$> bt_list m) as [|x l IH]; cbn in Hs; constructor; inversion Hs as [|? ? Hl Hd]; subst; [by apply IH|].
  destruct l; constructor. by inversion Hd.
Qed.

Lemma same_order l (m : gmap string Constraint) :
  label <$> l ≡ₚ authored <$> bt_list m → label <$> merge_sort constraint_le l = authored <$> bt_list m.
Proof.
  intros Hp. apply (Sorted_unique_strong first_le); [|apply sorted_labels, Sorted_merge_sort, _|apply sorted_authored|by rewrite (merge_sort_Permutation constraint_le)].
  intros x y Hx Hy Hxy Hyx. rewrite (merge_sort_Permutation constraint_le), Hp in Hx. apply list_elem_of_fmap in Hx as ([k c] & -> & Hx), Hy as ([k' c'] & -> & Hy).
  assert (E : k = k') by (apply (anti_symm String.le); done). subst k'. apply elem_bt_list in Hx, Hy. by simplify_eq.
Qed.

Lemma add_conjuncts_Ok w ls m m' :
  try_fold (add_conjunct w) m ls = Ok m' →
  label <$> sm_constraints m' = (label <$> sm_constraints m) ++ ((λ l, (lc_id l, lc_condition l)) <$> ls) ∧
  (Forall well_parsed (sm_constraints m) → Forall well_parsed (sm_constraints m')).
Proof.
  apply (try_fold_inv _ (λ m' ls, label <$> sm_constraints m' = (label <$> sm_constraints m) ++ ((λ l, (lc_id l, lc_condition l)) <$> ls) ∧
    (Forall well_parsed (sm_constraints m) → Forall well_parsed (sm_constraints m')))); [by rewrite app_nil_r|].
  intros m1 rest l m2 [El Hw] Hr. unfold add_conjunct in Hr. inv_loader. cbn [sm_constraints push_constraint].
  rewrite !fmap_app, El. split; [by rewrite <-app_assoc|]. intros Hw0. apply Forall_app. split; [by apply Hw|]. by repeat constructor.
Qed.

Lemma fmap_mjoin {A B C} (g : B → C) (f : A → list B) l : g <$> mjoin (f <$> l) = mjoin ((λ a, g <$> f a) <$> l).
Proof. induction l as [|a l IH]; cbn; [done|]. rewrite fmap_app. f_equal. exact IH. Qed.

(** What a resolution evaluates. *)
Definition asserted_texts (m : ResolveModel) : list (string * string) :=
  (authored <$> bt_list (Schema.constraints (rm_config m))) ++ rm_lowered_conjuncts m.

Lemma labels_agree p sm rm :
  load_selection_constraint_model_from p = Ok sm → load_resolve_model_from p = Ok rm →
  label <$> sm_constraints sm = asserted_texts rm ∧ Forall well_parsed (sm_constraints sm).
Proof.
  unfold load_selection_constraint_model_from, load_resolve_model_from. intros Hs Hr. inv_loader.
  match goal with H : try_fold walk_chunk _ _ = Ok _ |- _ => apply walk_Ok in H as [W1 W2 W3 W4 W5 W6] end.
  match goal with H : try_fold merge_chunk _ _ = Ok _ |- _ => apply merge_Ok in H as [G1 G2 G3 G4] end.
  apply add_conjuncts_Ok in Hs as [El Hw]. unfold asserted_texts. cbn [rm_config with_facets Schema.constraints rm_lowered_conjuncts].
  cbn [sort_constraints sm_constraints] in El, Hw. rewrite seed_constraints in El, Hw. split.
  - rewrite El, W2, W3, G2, G3. f_equal. apply same_order. rewrite W4, G4.
    by rewrite fmap_mjoin.
  - apply Hw. by rewrite (merge_sort_Permutation constraint_le).
Qed.

(** ** The same verdict *)

Lemma collect_parsed rm l cs :
  Forall well_parsed cs → label <$> cs = l → collect_results (parse_constraint rm) l = Ok ((λ c, (sc_id c, sc_expr c)) <$> cs).
Proof.
  intros Hw <-. induction Hw as [|c cs Hc _ IH]; [done|]. cbn [fmap list_fmap collect_results].
  assert (E : parse_constraint rm (label c) = Ok (sc_id c, sc_expr c)); [|rewrite E; cbn [mbind result_bind]; by rewrite IH].
  unfold parse_constraint. cbn [label fst snd]. unfold well_parsed in Hc. by rewrite Hc.
Qed.

Lemma evaluate_agrees p sm rm a :
  load_selection_constraint_model_from p = Ok sm → load_resolve_model_from p = Ok rm →
  evaluate_constraints rm a =
    Ok ((λ c, constraint_violation_diagnostic (sc_id c) (rm_constraint_sources rm !! sc_id c)) <$>
          List.filter (λ c, negb (not_contradicted (sc_expr c) a)) (sm_constraints sm)).
Proof.
  intros Hs Hr. destruct (labels_agree p sm rm Hs Hr) as [El Hw]. unfold evaluate_constraints. fold authored. fold (asserted_texts rm).
  rewrite (collect_parsed rm _ _ Hw El). cbn. f_equal. unfold violated_constraint_ids. rewrite <-!list_fmap_compose.
  clear El Hw. induction (sm_constraints sm) as [|c l IH]; [done|]. cbn. destruct (not_contradicted (sc_expr c) a); cbn; [|f_equal]; apply IH.
Qed.

(** A selection and a resolution are refused for the same constraint: for a package
    that both readers accept, the first constraint that an assignment breaks on the
    way in is the first that resolving it would report, and there is none exactly
    when resolving reports none. *)
Theorem same_first_violation p sm rm a :
  load_selection_constraint_model_from p = Ok sm → load_resolve_model_from p = Ok rm →
  ∃ violations, evaluate_constraints rm a = Ok violations ∧
    (λ x, (ld_code x, ld_entity_path x)) <$> head violations =
    (λ c, (E_SELECTION_CONFLICT, Some (CONSTRAINT_ENTITY_PATH_PREFIX +:+ sc_id c))) <$> first_violated_constraint sm a.
Proof.
  intros Hs Hr. rewrite (evaluate_agrees p sm rm a Hs Hr). eexists. split; [done|]. unfold first_violated_constraint.
  by destruct (List.filter _ (sm_constraints sm)).
Qed.
