(* ===== verification/LoaderResolve.v ===== *)
(** * What resolving a selection guarantees

    A resolution succeeds only when every constraint of the package holds under the
    values it resolved with; it says where each of them came from; and the runtime
    accepts what it gives. *)
From S2P Require Import Prelude Text Tokens Ast Eval Implication SelectionEval Schema Resolver ResolverProps InterfaceSummary LinkVerify Lowering Ir Ingest Link Reverify LinkModel.
From S2P Require Import Attribution Override Runtime RuntimeOps RuntimeProps RuntimeSync CcmLoad Enforce Loader LoaderProps LoaderAgree.
Local Open Scope N_scope.

(** ** Total assignments *)

Definition definite (t : Ternary) : Prop := t ≠ TUnknown.

Lemma definite_not t : definite t → definite (Ternary.not t).
Proof. by destruct t. Qed.
Lemma definite_and t t' : definite t → definite t' → definite (Ternary.and t t').
Proof. by destruct t, t'. Qed.
Lemma definite_or t t' : definite t → definite t' → definite (Ternary.or t t').
Proof. by destruct t, t'. Qed.
Lemma definite_bool b : definite (Ternary.from_bool b).
Proof. by destruct b. Qed.
#[local] Hint Resolve definite_not definite_and definite_or definite_bool : core.

Lemma definite_foldl {A} (f : Ternary → A → Ternary) l t :
  definite t → (∀ t a, a ∈ l → definite t → definite (f t a)) → definite (foldl f t l).
Proof. revert t. induction l as [|a l IH]; intros t Ht Hf; cbn; [done|]. apply IH; [apply Hf; [left|done]|]. intros t' a' Hin. apply Hf. by right. Qed.

Lemma index_pairs_elem {A} (l : list A) x y : (x, y) ∈ index_pairs l → x ∈ l ∧ y ∈ l.
Proof.
  induction l as [|a l IH]; cbn; [set_solver|]. rewrite elem_of_app. intros [Hin|Hin]; [|set_solver].
  apply list_elem_of_In, in_map_iff in Hin as (z & [= -> ->] & Hz%list_elem_of_In). set_solver.
Qed.

Lemma definite_list es sigma :
  Forall (λ e, total_for e sigma → definite (eval_partial e (Bound sigma))) es → total_for (AnyOf es) sigma →
  ∀ t, t ∈ map (λ c, eval_partial c (Bound sigma)) es → definite t.
Proof.
  intros IH Ht t Hin. apply list_elem_of_In, in_map_iff in Hin as (e & <- & He%list_elem_of_In). rewrite Forall_forall in IH. apply IH; [done|].
  intros x Hx. apply Ht. by eapply expr_tags_list.
Qed.

Lemma eval_definite e sigma : total_for e sigma → definite (eval_partial e (Bound sigma)).
Proof.
  induction e as [b|p|e IH|l r IHl IHr|l r IHl IHr|es IH|es IH|es IH|l op r] using ConditionExpr_ind'; intros Ht; cbn; auto.
  - destruct (Ht (p_tag p)) as [x Hx]; [by left|]. unfold eval_predicate. cbn. rewrite Hx. destruct (p_op p); auto.
  - apply definite_and; [apply IHl|apply IHr]; eapply total_for_sub; [|done| |done]; intros t; rewrite expr_tags_binary; auto.
  - apply definite_or; [apply IHl|apply IHr]; eapply total_for_sub; [|done| |done]; intros t Hin; apply (expr_tags_binary l r); auto.
  - apply definite_foldl; [done|]. intros t a Ha Hd. apply definite_or; [done|]. by apply (definite_list es sigma IH Ht).
  - apply definite_foldl; [done|]. intros t a Ha Hd. apply definite_and; [done|]. by apply (definite_list es sigma IH Ht).
  - pose proof (definite_list es sigma IH Ht) as Hl. unfold eval_exactly_one_of. apply definite_and.
    + apply definite_foldl; [done|]. intros t a Ha Hd. apply definite_or; auto.
    + apply definite_foldl; [done|]. intros t [x y] [Hx Hy]%index_pairs_elem Hd. auto.
  - destruct (Ht l) as [x Hx]; [by left|]. destruct (Ht r) as [y Hy]; [by right; left|]. rewrite Hx, Hy. destruct op; auto.
Qed.

(** With every facet of a condition bound, not being contradicted is holding. *)
Lemma not_contradicted_holds e sigma : total_for e sigma → not_contradicted e sigma = true → eval_total e sigma = true.
Proof.
  intros Ht Hn. pose proof (eval_partial_approx e (Bound sigma) sigma) as Ha. pose proof (eval_definite e sigma Ht) as Hd.
  unfold not_contradicted, is_contradicted in Hn. apply negb_true_iff, bool_decide_eq_false in Hn.
  destruct (eval_partial e (Bound sigma)) eqn:E; [|done|done]. apply Ha; [by intros f v|done].
Qed.

(** ** The constraints of a resolution *)

Section Resolution.
Context `{HashOrder} `{IrCodec} `{RuntimeCodec} `{SyncCodec} `{LoaderCodec}.
Context (d : package_disk) (h : ModelHandle) (scope : string).

(** The values a result was resolved with. *)
Definition resolved_with (r : ResolveOk) : gmap string string :=
  rk_choices r ∪ (rk_context_tags r ∪ (rk_implied_choices r ∪ rk_defaulted_choices r)).

Lemma sealed_Ok p model s assignments implied r :
  resolve_and_seal p model h scope s assignments implied = Ok r →
  ∃ output, resolve_scoped (total_assignment (rm_config model) assignments implied) (rm_config model) scope = Ok output ∧
    canonicalize_resolved_output output = Some (rk_resolved_output r) ∧
    loader_resolve_hash (mh_model_hash h) scope s (rk_resolved_output r) (rk_defaulted_choices r) implied = Some (rk_resolve_hash r) ∧
    rk_context_tags r = ss_context_tags s ∧ rk_choices r = ss_choices s ∧ rk_implied_choices r = implied ∧
    rk_defaulted_choices r = defaulted_choices (rm_config model) assignments implied ∧
    rk_component_dependencies r = extract_resolved_component_dependencies (rm_config model) output ∧
    rk_resolved_artifacts r = artifacts (rm_config model) ∧
    rk_closed_facet_domains r = match closed_facet_domains_from p with Ok domains => domains | Err _ => ∅ end.
Proof. unfold resolve_and_seal. intros Hr. inv_loader. eexists. split_and!; try done. Qed.

Lemma resolution_Ok version s implied r :
  resolve_from_selection d version h scope s implied = Ok r →
  ∃ assignments p model, validate_selection_state h scope s = Ok assignments ∧ load_package d h = Ok p ∧
    screen_selection_state_from p s = [] ∧ load_resolve_model_from p = Ok model ∧ screen_implied_choices model implied = [] ∧
    evaluate_constraints model (total_assignment (rm_config model) assignments implied) = Ok [] ∧
    resolve_and_seal p model h scope s assignments implied = Ok r.
Proof.
  unfold resolve_from_selection. intros Hr. inv_loader. inv_loader. subst. eexists _, _, _. split_and!; try done.
Qed.

Lemma total_resolved model s assignments implied r p :
  validate_selection_state h scope s = Ok assignments → resolve_and_seal p model h scope s assignments implied = Ok r →
  total_assignment (rm_config model) assignments implied = resolved_with r.
Proof.
  intros (_ & _ & _ & _ & _ & [_ ->]%merge_assignments_spec)%validate_state_spec (output & _ & _ & _ & E1 & E2 & E3 & E4 & _)%sealed_Ok.
  unfold resolved_with, total_assignment. rewrite E1, E2, E3, E4. rewrite <-!(assoc_L (∪)). apply map_eq. intros f. rewrite !lookup_union.
  assert (Hd : ss_choices s !! f = None → ss_context_tags s !! f = None → implied !! f = None →
    defaulted_choices (rm_config model) (ss_choices s ∪ ss_context_tags s) implied !! f = declared_defaults (rm_config model) !! f).
  { intros Ec Et Ei. unfold defaulted_choices. rewrite map_lookup_filter. destruct (declared_defaults (rm_config model) !! f); cbn; [|done].
    rewrite option_guard_True; [done|]. by rewrite lookup_union, Ec, Et. }
  destruct (ss_choices s !! f), (ss_context_tags s !! f), (implied !! f);
    [destruct (declared_defaults _ !! f), (defaulted_choices _ _ _ !! f); done..|by rewrite Hd].
Qed.

Lemma collect_results_elem {E A B} (f : A → result E B) l r a : collect_results f l = Ok r → a ∈ l → ∃ b, f a = Ok b ∧ b ∈ r.
Proof.
  revert r. induction l as [|x l IH]; intros r; cbn; [set_solver|]. intros (b & Hb & (bs & Hbs & [= <-])%bind_Ok)%bind_Ok [->|Hin]%elem_of_cons.
  - exists b. set_solver.
  - destruct (IH _ Hbs Hin) as (b' & ? & ?). exists b'. set_solver.
Qed.

Lemma evaluate_none model a id text :
  evaluate_constraints model a = Ok [] → (id, text) ∈ asserted_texts model →
  ∃ e, parse_condition_expr text = Ok e ∧ not_contradicted e a = true.
Proof.
  unfold evaluate_constraints. fold authored. fold (asserted_texts model). intros (parsed & Hp & Hv)%bind_Ok Hin.
  destruct (collect_results_elem _ _ _ _ Hp Hin) as ([id' e] & He & Hin'). unfold parse_constraint in He. inv_loader. exists e. split; [done|].
  cbn in *. apply not_false_iff_true. intros Hn. apply fmap_nil_inv in Hv. unfold violated_constraint_ids in Hv. apply fmap_nil_inv in Hv.
  apply (not_elem_of_nil (id', e)). rewrite <-Hv, list_elem_of_In, List.filter_In, <-list_elem_of_In. split; [done|]. cbn. by rewrite Hn.
Qed.

(** C15: A resolution succeeds only under the constraints: the output is that of the
    resolver under the values the result records; each constraint of the package,
    declared, derived or from an accepts list, parses and is not contradicted by
    them, and holds where they bind its facets; and a value is recorded as a
    default only where nothing was chosen, tagged or implied. *)
Theorem resolution_lawful version s implied r :
  resolve_from_selection d version h scope s implied = Ok r →
  ∃ p model output, load_package d h = Ok p ∧ load_resolve_model_from p = Ok model ∧
    resolve_scoped (resolved_with r) (rm_config model) scope = Ok output ∧ canonicalize_resolved_output output = Some (rk_resolved_output r) ∧
    (∀ id text, (id, text) ∈ asserted_texts model →
      ∃ e, parse_condition_expr text = Ok e ∧ not_contradicted e (resolved_with r) = true ∧
        (total_for e (resolved_with r) → eval_total e (resolved_with r) = true)) ∧
    ∀ f, is_Some (rk_defaulted_choices r !! f) → rk_choices r !! f = None ∧ rk_context_tags r !! f = None ∧ rk_implied_choices r !! f = None.
Proof.
  intros (assignments & p & model & Hv & Hp & _ & Hm & _ & He & Hr)%resolution_Ok. pose proof (total_resolved _ _ _ _ _ _ Hv Hr) as Ht. rewrite Ht in He.
  pose proof Hr as (output & Ho & Hc & _ & E1 & E2 & E3 & E4 & _)%sealed_Ok. rewrite Ht in Ho. exists p, model, output. split_and!; [done..| |].
  - intros id text Hin. destruct (evaluate_none _ _ _ _ He Hin) as (e & Hpe & Hn). exists e. split_and!; [done..|]. intros. by apply not_contradicted_holds.
  - intros f [v Hf]. rewrite E4 in Hf. unfold defaulted_choices in Hf. apply map_lookup_filter_Some in Hf as [_ [Ha Hi]]. cbn in Ha, Hi.
    apply validate_state_spec in Hv as (_ & _ & _ & _ & _ & [_ ->]%merge_assignments_spec). apply lookup_union_None in Ha. rewrite E1, E2, E3. naive_solver.
Qed.
End Resolution.
