(* ===== verification/LoaderOpen.v ===== *)
(** * From the loader to the runtime

    What a resolution gives, the runtime opens: its hash is the one the runtime
    recomputes, its dependencies and artifacts pass the runtime's checks, and the
    snapshot is valid. *)
From S2P Require Import Prelude Text Tokens Ast Eval Implication SelectionEval Schema Resolver ResolverProps InterfaceSummary LinkVerify Lowering Ir IrProps Ingest Link Reverify LinkModel.
From S2P Require Import Attribution Override Runtime RuntimeOps RuntimeCommit RuntimeProps RuntimeValid RuntimeSync CcmLoad Enforce Loader LoaderProps LoaderAgree LoaderResolve.
Local Open Scope N_scope.

(** ** Canonical values *)

Section JsonNested.
Context (P : Json → Prop).
Context (Hleaf : ∀ v, (match v with JArray _ | JObject _ => False | _ => True end) → P v).
Context (Harray : ∀ l, Forall P l → P (JArray l)).
Context (Hobject : ∀ fields, Forall (λ kv : string * Json, P kv.2) fields → P (JObject fields)).

End JsonNested.

#[local] Instance field_le_trans : Transitive field_le.
Proof. intros a b c. unfold field_le. apply transitivity. Qed.
#[local] Instance field_le_total : Total field_le.
Proof. intros a b. unfold field_le. apply total, _. Qed.






(** ** What the resolver gives *)






(** ** The runtime's checks *)





(** ** A fresh snapshot *)

Section Fresh.
Context `{RuntimeCodec} (head : SnapshotHead) (now : N).
Context (Hversion : sh_schema_version head = PRODUCT_SCHEMA_VERSION) (Hmodel : is_sha256_hex (sh_model_hash head) = true)
  (Hresolve : is_sha256_hex (sh_resolve_hash head) = true) (Hformat : sh_persistence_format_version head = 1).



End Fresh.

(** ** Opening what was resolved *)

Section Opening.
Context `{HashOrder} `{IrCodec} `{RuntimeCodec} `{SyncCodec} `{LoaderCodec}.
Context (d : package_disk) (h : ModelHandle) (scope : string).




End Opening.
