(* ===== verification/LoaderPackage.v ===== *)
(** * From the compiler to the loader

    A package the compiler emitted is opened, and what is opened can be loaded. *)
From S2P Require Import Prelude Text Tokens Ast Schema Resolver ResolverProps InterfaceSummary LinkVerify Lowering Ir IrProps Ingest IngestProps Link Reverify.
From S2P Require Import Attribution Override Runtime RuntimeSync CcmLoad Enforce Loader LoaderProps.
Local Open Scope N_scope.

(** ** Paths *)

(** A directory written without separators or [.] at its end. *)
Definition plain_dir (dir : string) : Prop := dir ≠ String.EmptyString ∧ dir ≠ "/" ∧ same_dir dir = dir.

Definition backwards (s : string) : list ascii := reverse (bytes_of s).

Lemma backwards_app s t : backwards (s +:+ t) = backwards t ++ backwards s.
Proof. unfold backwards. by rewrite bytes_of_app, reverse_app. Qed.

Lemma same_dir_stripped dir : same_dir dir = dir → strip_end (backwards dir) = backwards dir.
Proof.
  unfold same_dir, backwards. intros E. apply (f_equal bytes_of) in E. rewrite bytes_of_string_of in E. apply (f_equal reverse) in E. by rewrite reverse_involutive in E.
Qed.

Lemma strip_end_length l : (length (strip_end l) ≤ length l)%nat.
Proof.
  induction l as [|a l IH]; [done|]. destruct l as [|b l]; [done|].
  change (strip_end (a :: b :: l)) with (if Ascii.eqb a "/" || Ascii.eqb a "." && Ascii.eqb b "/" then strip_end (b :: l) else a :: b :: l).
  destruct (_ || _); [|done]. cbn [length] in *. lia.
Qed.

(** A plain directory does not end in a separator. *)
Lemma plain_last dir : plain_dir dir → ∃ a r, backwards dir = a :: r ∧ a ≠ "/"%char.
Proof.
  intros (Hne & Hroot & Hs%same_dir_stripped). destruct (backwards dir) as [|a r] eqn:E.
  - exfalso. apply Hne. apply bytes_of_inj. unfold backwards in E. apply (f_equal reverse) in E. by rewrite reverse_involutive in E.
  - exists a, r. split; [done|]. intros ->. destruct r as [|b r].
    + apply Hroot. apply bytes_of_inj. unfold backwards in E. apply (f_equal reverse) in E. by rewrite reverse_involutive in E.
    + pose proof (strip_end_length (b :: r)) as Hlen. change (strip_end ("/"%char :: b :: r)) with (strip_end (b :: r)) in Hs. rewrite Hs in Hlen. cbn in Hlen. lia.
Qed.

Lemma parent_of_file_in dir : plain_dir dir → parent_dir (dir +:+ "/" +:+ CMP_DEFAULT_MANIFEST_FILENAME) = Some dir.
Proof.
  intros Hp. pose proof (plain_last dir Hp) as (a & r & Er & Ha). destruct Hp as (_ & _ & Hs%same_dir_stripped). unfold parent_dir.
  change (reverse (bytes_of (dir +:+ "/" +:+ CMP_DEFAULT_MANIFEST_FILENAME))) with (backwards (dir +:+ ("/" +:+ CMP_DEFAULT_MANIFEST_FILENAME))).
  rewrite backwards_app, Er. change (backwards ("/" +:+ CMP_DEFAULT_MANIFEST_FILENAME)) with (reverse (bytes_of "/cmp.manifest.json")). cbn [reverse].
  vm_compute (reverse (bytes_of "/cmp.manifest.json")). cbn.
  transitivity (Some (string_of (reverse (strip_end (a :: r))))); [reflexivity|]. rewrite <-Er, Hs. unfold backwards. by rewrite reverse_involutive, string_of_bytes_of.
Qed.

Lemma join_plain dir name : plain_dir dir → is_absolute name = false → path_join dir name = dir +:+ "/" +:+ name.
Proof.
  intros Hp Hn. pose proof (plain_last dir Hp) as (a & r & Er & Ha). destruct Hp as (Hne & _ & _). unfold path_join. rewrite Hn, decide_False by done.
  unfold backwards in Er. rewrite Er. cbn. rewrite bool_decide_eq_false_2; [done|]. by intros [= ->].
Qed.

Lemma same_dir_dot dir : plain_dir dir → same_dir (dir +:+ "/.") = dir.
Proof.
  intros Hp. pose proof (plain_last dir Hp) as (a & r & Er & Ha). destruct Hp as (_ & _ & Hs%same_dir_stripped). unfold same_dir.
  change (reverse (bytes_of (dir +:+ "/."))) with (backwards (dir +:+ "/.")). rewrite backwards_app, Er.
  transitivity (string_of (reverse (strip_end (a :: r)))); [reflexivity|]. rewrite <-Er, Hs. unfold backwards. by rewrite reverse_involutive, string_of_bytes_of.
Qed.

(** ** Packages *)

Section Packages.
Context `{HashOrder} `{IrCodec} `{LoaderCodec}.

(** A file that is no chunk does not change the package. *)
Lemma package_ok_insert i dir d s bytes cs : strip_text "/chunk-" s = None → package_ok i dir d cs → package_ok i dir (<[dir +:+ s := bytes]> d) cs.
Proof.
  intros Hs [? ? Hck]. split; [done..|]. eapply Forall2_impl; [exact Hck|]. intros r c [(b & Hb & Hp) ? ? ? ? ?]. split; try done.
  exists b. split; [|done]. rewrite lookup_insert_ne; [done|]. intros E. by apply (chunk_path_other dir (cr_chunk_hash r) s Hs).
Qed.

(** What the emission of a package leaves on the disk. *)
Lemma emitted creatable writable c dir d i d' :
  emit_ir creatable writable c dir d = (Ok i, d') →
  compute_config_hash i = Ok (ix_config_hash i) ∧ ix_format_version i = IR_FORMAT_VERSION ∧
  d' !! (dir +:+ "/" +:+ CMP_DEFAULT_INDEX_REF) = Some (Some (index_pretty i)) ∧
  d' !! (dir +:+ "/" +:+ CMP_DEFAULT_MANIFEST_FILENAME) = Some (Some (manifest_pretty (manifest_from_index i))) ∧
  ∃ cs, package_ok i dir d' cs.
Proof.
  unfold emit_ir. destruct (verify_complete_model _ _); [|done]. destruct (link_chunks_of _ _) as [l|]; [|done].
  destruct (build_package_index l) as [i'|] eqn:Eb; [|done]. unfold write_package. destruct (creatable dir); [|done].
  destruct (put_chunks _ _ _ _) as [[u|e] d1]; [|done]. unfold put at 1. destruct (writable _); [|done].
  destruct (verify_index_integrity i' dir _) as [[]|] eqn:Ev; [|done]. unfold put. destruct (writable _); [|done]. intros [= <- <-].
  pose proof Eb as (_ & _ & Hh)%build_index_Ok. split_and!; [done| | | |].
  - unfold build_package_index, build_index, from_parts in Eb. by apply bind_Ok in Eb as (hash & _ & [= <-]).
  - rewrite lookup_insert_ne; [apply lookup_insert_eq|]. intros E. apply (f_equal bytes_of) in E. rewrite !bytes_of_app in E. by apply app_inv_head in E.
  - apply lookup_insert_eq.
  - unfold verify_index_integrity in Ev. destruct (verify_index_integrity_loading _ _ _) as [cs|] eqn:El; [|done]. exists cs.
    by apply package_ok_insert, integrity_Ok.
Qed.

(** What is opened can be loaded, and is the package of the index it names. *)
Lemma opened_loads d version path hd :
  open_model d version path = Ok hd →
  ∃ p, load_package d hd = Ok p ∧ ix_config_hash (lp_index p) = mh_model_hash hd ∧ compute_config_hash (lp_index p) = Ok (mh_model_hash hd).
Proof.
  unfold open_model. intros Ho. inv_loader. unfold verify_index_integrity in *. destruct (verify_index_integrity_loading _ _ _) as [cs|] eqn:El; [|done].
  destruct_and!. match goal with Hl : load_index _ _ _ = Ok ?index |- _ => exists (mkLoaded index cs (mkHandle (cm_model_hash x0) path
    (resolve_ref (default "." (parent_dir path)) (cm_index_ref x0)) (resolve_ref (default "." (parent_dir path)) (cm_chunk_set_ref x0))
    (path_join (default "." (parent_dir path)) "ccm"))); unfold load_package; cbn [mh_index_ref mh_chunk_set_ref]; rewrite Hl end.
  cbn [map_err mbind result_bind]. rewrite El. cbn. split_and!; congruence.
Qed.

(** C19: What the compiler emits, the loader opens and loads: the handle has the hash of
    the index that was written, and the package it names is that index with its
    chunks. *)
Theorem emitted_package_opens creatable writable c dir d i d' :
  emit_ir creatable writable c dir d = (Ok i, d') → plain_dir dir →
  parse_index (index_pretty i) = Some i → parse_cmp_manifest (manifest_pretty (manifest_from_index i)) = Some (manifest_from_index i) →
  ∃ hd p, open_model d' PRODUCT_SCHEMA_VERSION (dir +:+ "/" +:+ CMP_DEFAULT_MANIFEST_FILENAME) = Ok hd ∧
    mh_model_hash hd = ix_config_hash i ∧ mh_ccm_ref hd = dir +:+ "/ccm" ∧ load_package d' hd = Ok p ∧ lp_index p = i.
Proof.
  intros (Hhash & Hver & Hidx & Hman & cs & Hpk)%emitted Hdir Hpi Hpm. apply integrity_Ok in Hpk.
  set (path := dir +:+ "/" +:+ CMP_DEFAULT_MANIFEST_FILENAME) in *.
  set (hd := mkHandle (ix_config_hash i) path (dir +:+ "/" +:+ CMP_DEFAULT_INDEX_REF) (dir +:+ "/.") (dir +:+ "/ccm")).
  assert (Hload : load_index parse_index d' (dir +:+ "/" +:+ CMP_DEFAULT_INDEX_REF) = Ok i) by (unfold load_index; rewrite Hidx; cbn; by rewrite Hpi).
  pose proof (parent_of_file_in dir Hdir) as Hparent. fold path in Hparent. exists hd, (mkLoaded i cs hd). split_and!; try done.
  - unfold open_model, require_version, load_cmp_manifest. rewrite N.eqb_refl, Hman. cbn [mjoin option_join negb bail_if mbind result_bind option_bind]. rewrite Hpm.
    cbn [ok_or mbind result_bind]. assert (Hvm : validate_manifest (manifest_from_index i) = true).
    { unfold validate_manifest, manifest_from_index. cbn [cm_schema_version cm_ir_format_version cm_hash_algo cm_canonicalization_version cm_model_hash cm_config_hash cm_index_ref cm_chunk_set_ref].
      rewrite Hver, (bool_decide_eq_true_2 (ix_config_hash i = ix_config_hash i)) by done. vm_compute. reflexivity. }
    rewrite Hvm. cbn [negb bail_if mbind result_bind]. rewrite (Hparent : parent_dir path = Some dir).
    cbn [default from_option id manifest_from_index cm_index_ref cm_chunk_set_ref cm_ir_format_version cm_config_hash cm_model_hash cm_stats].
    unfold resolve_ref. change (is_absolute CMP_DEFAULT_INDEX_REF) with false. change (is_absolute CMP_DEFAULT_CHUNK_SET_REF) with false. cbn iota.
    rewrite !join_plain by done. rewrite Hload. cbn [map_err mbind result_bind]. rewrite N.eqb_refl. cbn [negb bail_if mbind result_bind].
    rewrite Hhash. cbn [map_err mbind result_bind]. rewrite !bool_decide_eq_true_2 by done. cbn [negb bail_if mbind result_bind].
    change (dir +:+ "/" +:+ CMP_DEFAULT_CHUNK_SET_REF) with (dir +:+ "/."). rewrite (same_dir_dot dir Hdir). unfold verify_index_integrity. rewrite Hpk.
    done.
  - unfold load_package. cbn [hd mh_index_ref mh_chunk_set_ref]. rewrite Hload. cbn [map_err mbind result_bind]. by rewrite (same_dir_dot dir Hdir), Hpk.
Qed.
End Packages.
