(* ===== verification/LoaderDemo.v ===== *)
(** * A package, its selections and its device

    The package of [LinkVerifyProps]' model is compiled, opened, configured, resolved
    and handed to the runtime; the theorems of the loader are applied to it. *)
From S2P Require Import Prelude Text Tokens Ast Schema Resolver InterfaceSummary LinkVerify LinkVerifyProps Lowering Ir Ingest IngestProps Link Reverify.
From S2P Require Import Attribution Override Runtime RuntimeOps RuntimeSync RuntimeSyncDemo CcmLoad Enforce Loader LoaderProps LoaderAgree LoaderResolve LoaderOpen LoaderPackage.
Local Open Scope N_scope.

(** ** Formats

    Formats that know this one model. *)

#[local] Existing Instance sorted_order.
#[local] Existing Instance toy_codec.

Definition plant_base : IrCodec :=
  {| sha256 := λ _, replicate 32 "000"%char; preimage_json := λ _, Some []; content_json := λ _, Some []; chunk_json := λ _, Some [];
     index_pretty := λ _, bytes_of "index"; manifest_pretty := λ _, bytes_of "manifest"; parse_chunk := λ _, None |}.

Definition plant_chunk : IrChunk :=
  written (mkSourceChunk "demo.json" (match chunk_hash_from_config (H := plant_base) demo_model with Ok hash => hash | Err _ => "none" end) demo_model).

#[local] Instance plant_codec : IrCodec :=
  {| sha256 := λ _, replicate 32 "000"%char; preimage_json := λ _, Some []; content_json := λ _, Some []; chunk_json := λ _, Some [];
     index_pretty := λ _, bytes_of "index"; manifest_pretty := λ _, bytes_of "manifest"; parse_chunk := λ _, Some plant_chunk |}.

Definition plant_compiler : Compiler :=
  (ingest (λ _, None) (λ _, Some demo_model) [("demo.json", "{demo}")] new_compiler).2.

Definition plant_emission := emit_ir (λ _, true) (λ _, true) plant_compiler "out" ∅.

Definition plant_disk : package_disk := plant_emission.2.

Definition plant_index : IrIndex :=
  match plant_emission.1 with Ok i => i | Err _ => mkIndex 0 [] ∅ ∅ ∅ ∅ ∅ ∅ "none" end.

Lemma plant_emitted : emit_ir (λ _, true) (λ _, true) plant_compiler "out" ∅ = (Ok plant_index, plant_disk).
Proof. vm_compute. reflexivity. Qed.

(** ** The loader's formats *)

Definition plant_scope : string := "component:app".

Definition plant_handle : ModelHandle := mkHandle (ix_config_hash plant_index) "out/cmp.manifest.json" "out/index.cfir.json" "out/." "out/ccm".

Definition plant_package : LoadedPackage := mkLoaded plant_index [plant_chunk] plant_handle.

Definition plant_model : ResolveModel :=
  match load_resolve_model_from plant_package with Ok m => m | Err _ => mkResolveModel merged_root ∅ [] end.

Definition plant_output : gmap string ResolvedConfig :=
  match resolve_scoped {["region" := "eu"; "line_box" := "small"]} (rm_config plant_model) plant_scope with Ok output => output | Err _ => ∅ end.

#[local] Instance Value_eq_dec : EqDecision Value.
Proof. solve_decision. Defined.
#[local] Instance Limits_eq_dec : EqDecision Limits.
Proof. solve_decision. Defined.
#[local] Instance Role_eq_dec : EqDecision Role.
Proof. solve_decision. Defined.
#[local] Instance SafetyLevel_eq_dec : EqDecision SafetyLevel.
Proof. solve_decision. Defined.
#[local] Instance Lifecycle_eq_dec : EqDecision Lifecycle.
Proof. solve_decision. Defined.
#[local] Instance ResolvedParameter_eq_dec : EqDecision ResolvedParameter.
Proof. solve_decision. Defined.
#[local] Instance ResolvedRequirement_eq_dec : EqDecision ResolvedRequirement.
Proof. solve_decision. Defined.
#[local] Instance ResolvedComponent_eq_dec : EqDecision ResolvedComponent.
Proof. solve_decision. Defined.
#[local] Instance ResolvedConfig_eq_dec : EqDecision ResolvedConfig.
Proof. solve_decision. Defined.

#[local] Instance plant_loader : LoaderCodec := {|
  state_json := λ c, Some (concat ((λ kv, bytes_of kv.1 ++ bytes_of kv.2) <$> map_to_list (st_choices c)));
  output_value := λ output, if decide (output = plant_output) then Some (JObject [("root", JString "app"); ("output", JBool true)]) else None;
  output_json := λ _, Some [];
  parse_cmp_manifest := λ _, Some (manifest_from_index plant_index);
  parse_index := λ _, Some plant_index;
|}.

#[local] Instance plant_sync : SyncCodec := {|
  resolve_json := λ _, Some [];
  bundle_json := λ _, Some [];
  decode_output := λ _, Some plant_output;
|}.

(** ** Opening *)

Lemma plain_out : plain_dir "out".
Proof. split_and!; [done|done|vm_compute; reflexivity]. Qed.

Lemma emitted_package_opens_witness :
  ∃ hd p, open_model plant_disk PRODUCT_SCHEMA_VERSION "out/cmp.manifest.json" = Ok hd ∧ load_package plant_disk hd = Ok p ∧ lp_index p = plant_index.
Proof.
  assert (Hi : parse_index (index_pretty plant_index) = Some plant_index) by reflexivity.
  assert (Hm : parse_cmp_manifest (manifest_pretty (manifest_from_index plant_index)) = Some (manifest_from_index plant_index)) by reflexivity.
  destruct (emitted_package_opens (λ _, true) (λ _, true) plant_compiler "out" ∅ plant_index plant_disk plant_emitted plain_out Hi Hm)
    as (hd & p & Ho & _ & _ & Hl & E).
  exists hd, p. exact (conj Ho (conj Hl E)).
Defined.

Example opened_handle : open_model plant_disk PRODUCT_SCHEMA_VERSION "out/cmp.manifest.json" = Ok plant_handle.
Proof. vm_compute. reflexivity. Qed.

(** ** Selecting *)

Definition start : loader SelectionState := initialize_selection_state plant_disk PRODUCT_SCHEMA_VERSION plant_handle plant_scope ∅.

Definition choose (s : SelectionState) (facet option : string) : loader SelectionState :=
  apply_selection plant_disk PRODUCT_SCHEMA_VERSION plant_handle plant_scope s (mkDelta facet option).

Definition fresh_state : SelectionState :=
  match start with Ok s => s | Err _ => mkState 0 "none" "none" ∅ ∅ "none" end.

Definition offered (s : SelectionState) (facet : string) : list string :=
  match get_selection_options plant_disk PRODUCT_SCHEMA_VERSION plant_handle plant_scope s facet false with Ok r => so_valid_options r | Err _ => [] end.

Definition in_state (m : loader SelectionState) (s : SelectionState) : SelectionState := match m with Ok s' => s' | Err _ => s end.

Definition in_asia : SelectionState := in_state (choose fresh_state "region" "asia") fresh_state.
Definition in_eu : SelectionState := in_state (choose fresh_state "region" "eu") fresh_state.
Definition chosen : SelectionState := in_state (choose in_eu "line_box" "small") fresh_state.

Example offers :
  (offered fresh_state "region", offered in_asia "line_box", offered in_eu "line_box") = (["asia"; "eu"; "us"], ["small"], ["small"]).
Proof. vm_compute. reflexivity. Qed.

(** A refused choice names the constraint and its source. *)
Example asia_needs_small :
  choose in_asia "line_box" "large" = Err [mkLoaderDiagnostic E_SELECTION_CONFLICT (Some "demo.json") (Some "constraints/policy")].
Proof. vm_compute. reflexivity. Qed.

Lemma loaded_run {E A} (m : result E A) : match m with Ok _ => True | Err _ => False end → ∃ a, m = Ok a.
Proof. destruct m as [a|]; [by exists a|done]. Qed.

Lemma applied_state_accepted_witness :
  ∃ s, choose in_asia "line_box" "small" = Ok s ∧ selection_state_is_valid plant_handle plant_scope s = true ∧
    selection_state_is_admissible plant_disk plant_handle s = true.
Proof.
  destruct (loaded_run (choose in_asia "line_box" "small")) as [s Hs]; [vm_compute; exact I|]. exists s.
  pose proof Hs as Ha. unfold choose in Ha. destruct (applied_state_accepted plant_disk plant_handle plant_scope _ _ _ _ Ha) as (Hv & Hd & _). exact (conj Hs (conj Hv Hd)).
Defined.

Lemma options_are_applicable_witness : ∃ s, choose in_asia "line_box" "small" = Ok s.
Proof.
  destruct (loaded_run (get_selection_options plant_disk PRODUCT_SCHEMA_VERSION plant_handle plant_scope in_asia "line_box" false)) as [r Hr]; [vm_compute; exact I|].
  assert (Hjson : ∀ c, is_Some (state_json c)) by (intros c; eexists; reflexivity).
  refine (proj1 (options_are_applicable plant_disk plant_handle plant_scope _ in_asia "line_box" false r "small" Hjson Hr _ _ _) _).
  - vm_compute. reflexivity.
  - vm_compute. reflexivity.
  - vm_compute. discriminate.
  - assert (Ho : offered in_asia "line_box" = so_valid_options r) by (unfold offered; rewrite Hr; reflexivity). rewrite <-Ho.
    assert (E : offered in_asia "line_box" = ["small"]) by (vm_compute; reflexivity). rewrite E. left.
Defined.

(** ** Resolving *)

Lemma same_first_violation_witness :
  ∃ violations, evaluate_constraints plant_model {["region" := "asia"; "line_box" := "large"]} = Ok violations ∧
    head ((λ x, ld_entity_path x) <$> violations) = Some (Some "constraints/policy").
Proof.
  destruct (loaded_run (load_selection_constraint_model_from plant_package)) as [sm Hs]; [vm_compute; exact I|].
  assert (Hr : load_resolve_model_from plant_package = Ok plant_model) by (vm_compute; reflexivity).
  destruct (same_first_violation plant_package sm plant_model {["region" := "asia"; "line_box" := "large"]} Hs Hr) as (violations & He & Hv).
  exists violations. split; [exact He|].
  assert (Hf : sc_id <$> first_violated_constraint sm {["region" := "asia"; "line_box" := "large"]} = Some "policy").
  { assert (Hc : match load_selection_constraint_model_from plant_package with
      | Ok sm => sc_id <$> first_violated_constraint sm {["region" := "asia"; "line_box" := "large"]} | Err _ => None end = Some "policy") by (vm_compute; reflexivity).
    rewrite Hs in Hc. exact Hc. }
  destruct (first_violated_constraint sm _) as [c|]; [|discriminate Hf]. injection Hf as Hf. destruct violations as [|x l]; [discriminate Hv|].
  cbn in Hv |- *. rewrite Hf in Hv. injection Hv as _ ->. reflexivity.
Defined.

Definition resolved (s : SelectionState) : result ResolveFailure ResolveOk :=
  resolve_from_selection plant_disk PRODUCT_SCHEMA_VERSION plant_handle plant_scope s ∅.

Lemma resolution_lawful_witness :
  ∃ r p model output, resolved chosen = Ok r ∧ load_package plant_disk plant_handle = Ok p ∧ load_resolve_model_from p = Ok model ∧
    resolve_scoped (resolved_with r) (rm_config model) plant_scope = Ok output.
Proof.
  destruct (loaded_run (resolved chosen)) as [r Hr]; [vm_compute; exact I|].
  destruct (resolution_lawful plant_disk plant_handle plant_scope _ _ _ _ Hr) as (p & model & output & Hp & Hm & Ho & _).
  exists r, p, model, output. exact (conj Hr (conj Hp (conj Hm Ho))).
Defined.

(** ** The device *)





(** A platform resolves under its own name, and the runtime looks for the selector:
    what was resolved for a platform is not opened as it is. *)
Example platform_scope_not_a_root :
  match resolve_scoped {["region" := "eu"]} (rm_config plant_model) "platform:base" with
  | Ok output => is_Some (output !! "base") ∧ normalize_scope_root "platform:base" = Some "platform:base" ∧ output !! "platform:base" = None
  | Err _ => False
  end.
Proof. vm_compute. split_and!; [by eexists|reflexivity|reflexivity]. Qed.
