(* ===== verification/Compose.v ===== *)
(** * Solver and compiler together

    Models [session_compose/src/lib.rs]: the four commands of the product read the
    compiled constraint model of a package through a session of the solver and
    the package itself through the loader.  The compiler decides whether a state
    is valid and admissible, the solver whether it is satisfiable; the resolution
    is the loader's, with the values that the constraints force.  The package and
    the constraint model are read from the same directory, each through its own
    view of the disk; the texts of messages are left out. *)
From S2P Require Import Prelude Text Schema Resolver Ir Lowering Bdd BddBytes CcmFormat MultiPart Backend Session SatBackend Mus Explain CcmLoad.
From S2P Require Import Attribution Override Runtime RuntimeSync Enforce Loader.
Local Open Scope N_scope.

Definition E_SELECTION_SOLVER_MODEL_UNAVAILABLE : string := "E_SELECTION_SOLVER_MODEL_UNAVAILABLE".
Definition E_RESOLVE_SOLVER_MODEL_UNAVAILABLE : string := "E_RESOLVE_SOLVER_MODEL_UNAVAILABLE".

Definition fault_diagnostic (code entity_path : string) : LoaderDiagnostic := mkLoaderDiagnostic code None (Some entity_path).

Definition unavailable (code : string) : LoaderDiagnostic := fault_diagnostic code "model_handle.ccm_ref".

(** The facet and the option are named in the message. *)
Definition selection_conflict_diagnostic (facet option : string) : LoaderDiagnostic := plain_diagnostic E_SELECTION_CONFLICT.

Inductive EnvReplay : Type :=
  | Accepted
  | Rejected (facet option : string)
  | Skew (facet option : string)
  | Fault.

Inductive SolverModel (S : Type) : Type :=
  | Usable (session : S) (replay : EnvReplay)
  | ModelSkew (facet option : string)
  | Unavailable.
Arguments Usable {S}.
Arguments ModelSkew {S}.
Arguments Unavailable {S}.

Inductive SatVerdict : Type :=
  | Satisfiable
  | Unsatisfiable (facet option : string)
  | SatSkew (facet option : string)
  | SatUnavailable
  | SatFault.

Definition is_closed_facet (closed : ClosedFacetDomains) (facet : string) : bool :=
  existsb (λ fv, bool_decide (fv.1 = facet)) (bt_list closed).

Definition model_from_replay {S} (session : S) (replay : EnvReplay) : SolverModel S :=
  match replay with
  | Fault => Unavailable
  | Skew facet option => ModelSkew facet option
  | Accepted | Rejected _ _ => Usable session replay
  end.

(** The options of the solver, and the compiler's answer for everything else. *)
Definition merge_valid_options (legacy : loader SelectionOptions) (valid : list string) : loader SelectionOptions :=
  (λ r, mkSelectionOptions valid (so_default r) (so_declared_open r) (so_pruned_options r)) <$> legacy.

Definition recompute_pruned (legacy : loader SelectionOptions) (valid : list string) : loader SelectionOptions :=
  (λ r, mkSelectionOptions (so_valid_options r) (so_default r) (so_declared_open r)
          (List.filter (λ o, bool_decide (o ∉ valid)) <$> so_pruned_options r)) <$> legacy.

Definition resolve_conflict (facet option : string) : ResolveFailure := failed [selection_conflict_diagnostic facet option].

(** A state that the solver refuses does not resolve. *)
Definition assert_unsatisfiable (composed : result ResolveFailure ResolveOk) (facet option : string) : result ResolveFailure ResolveOk :=
  match composed with
  | Ok _ => Err (resolve_conflict facet option)
  | Err x =>
      match rx_diagnostics x with
      | first :: rest =>
          if decide (ld_code first = E_RESOLVE_FACET_UNBOUND)
          then Err (mkResolveFailure (rx_defaulted x) (rx_implied x)
                 (mkLoaderDiagnostic (ld_code (selection_conflict_diagnostic facet option)) (ld_source_id first) (ld_entity_path first) :: rest))
          else Err x
      | [] => Err x
      end
  end.

Definition explain_error (d : LoaderDiagnostic) : RejectionReason := mkReason (ld_code d) ∅ None.

Definition explain_rejected_ok (core : UnsatCore) : RejectionReason :=
  mkReason E_SELECTION_UNSATISFIABLE
    (foldl (λ m f, <[cf_facet f := cf_option f]> m) ∅
       (flat_map cc_facets (List.filter (λ c, bool_decide (cc_kind c = KindSelection)) (uc_conflicting_constraints core))))
    (Some core).

Section Compose.
Context {B : Type} `{SolverBackend B} {T : Type} `{SatBackend T}.
Context `{HashOrder} `{IrCodec} `{RuntimeCodec} `{SyncCodec} `{LoaderCodec} `{CcmCodec}.
Context (d : package_disk) (files : disk).

Definition facet_present (session : Session B) (facet : string) : bool := facet_in (ccm session) facet.

(** ** The environment *)

Fixpoint replay_all (session : Session B) (closed : ClosedFacetDomains) (outcome : EnvReplay) (l : list (string * string))
    : EnvReplay * Session B :=
  match l with
  | [] => (outcome, session)
  | (facet, option) :: l =>
      if negb (facet_present session facet) then replay_all session closed outcome l
      else
        match Session.apply session facet option with
        | (Ok _, session) => replay_all session closed outcome l
        | (Err (Conflict _ _), session) =>
            replay_all session closed (match outcome with Accepted => Rejected facet option | _ => outcome end) l
        | (Err (UnknownOption _ _), session) =>
            if is_closed_facet closed facet then (Skew facet option, session) else replay_all session closed outcome l
        | (Err (UnknownFacet _), session) => (Skew facet option, session)
        | (Err _, session) => (Fault, session)
        end
  end.

(** Tags, then choices. *)
Definition apply_environment (session : Session B) (s : SelectionState) (closed : ClosedFacetDomains) : EnvReplay * Session B :=
  replay_all session closed Accepted (bt_list (ss_context_tags s) ++ bt_list (ss_choices s)).

Definition load_solver_ccm (ccm_ref : string) : option Ccm :=
  let ccm_ref := trim ccm_ref in
  if decide (ccm_ref = String.EmptyString) then None
  else match load_ccm files ccm_ref with Ok c => Some c | Err _ => None end.

Definition session_from_handle (ccm_ref : string) (s : SelectionState) (closed : ClosedFacetDomains) : SolverModel (Session B) :=
  let ccm_ref := trim ccm_ref in
  if decide (ccm_ref = String.EmptyString) then Unavailable
  else
    match load_ccm files ccm_ref with
    | Err _ => Unavailable
    | Ok c =>
        match new c with
        | Err _ => Unavailable
        | Ok session =>
            if decide (symbols (ccm session) = None) then Unavailable
            else let '(replay, session) := apply_environment session s closed in model_from_replay session replay
        end
    end.

Definition closed_or_default (h : ModelHandle) : ClosedFacetDomains :=
  match closed_facet_domains d h with Ok domains => domains | Err _ => ∅ end.

(** ** Options and selections *)

Definition options (version : N) (h : ModelHandle) (scope : string) (s : SelectionState) (facet : string) (include_pruned_reasons : bool)
    : loader SelectionOptions :=
  let legacy := get_selection_options d version h scope s facet include_pruned_reasons in
  if negb (version =? PRODUCT_SCHEMA_VERSION) || bool_decide (trim facet = String.EmptyString)
     || negb (selection_state_is_valid h scope s) || negb (selection_state_is_admissible d h s)
  then legacy
  else
    match session_from_handle (mh_ccm_ref h) s (closed_or_default h) with
    | Usable _ (Rejected f o) => match legacy with Err x => Err x | Ok _ => Err [selection_conflict_diagnostic f o] end
    | Usable session _ =>
        if negb (facet_present session facet) then legacy
        else
          match valid_options session facet with
          | Err _ => Err [unavailable E_SELECTION_ENGINE_DIVERGENCE]
          | Ok opts =>
              merge_valid_options (if include_pruned_reasons then recompute_pruned legacy (Session.options opts) else legacy) (Session.options opts)
          end
    | ModelSkew _ _ => Err [unavailable E_SELECTION_ENGINE_DIVERGENCE]
    | Unavailable => Err [unavailable E_SELECTION_SOLVER_MODEL_UNAVAILABLE]
    end.

(** The compiler's refusal, or that of the solver. *)
Definition refused_by_solver {A} (legacy : loader A) (facet option : string) : loader A :=
  match legacy with Err x => Err x | Ok _ => Err [selection_conflict_diagnostic facet option] end.

Definition apply (version : N) (h : ModelHandle) (scope : string) (s : SelectionState) (x : SelectionDelta) : loader SelectionState :=
  let facet := sd_facet x in
  let option := sd_option x in
  let legacy := apply_selection d version h scope s x in
  if negb (version =? PRODUCT_SCHEMA_VERSION) || bool_decide (trim facet = String.EmptyString) || bool_decide (trim option = String.EmptyString)
     || bool_decide (is_Some (ss_context_tags s !! facet)) || bool_decide (is_Some (ss_choices s !! facet))
     || negb (selection_state_is_valid h scope s) || negb (selection_state_is_admissible d h s)
  then legacy
  else
    match session_from_handle (mh_ccm_ref h) s (closed_or_default h) with
    | Usable _ (Rejected f o) => refused_by_solver legacy f o
    | Usable session _ =>
        if negb (facet_present session facet) then legacy
        else
          match (Session.apply session facet option).1 with
          | Ok _ =>
              match canonical_selection_state (ss_model_hash s) (ss_scope s) (ss_context_tags s) (<[facet := option]> (ss_choices s)) with
              | Some next => Ok next
              | None => legacy
              end
          | Err (Conflict _ _) | Err (UnknownOption _ _) | Err (UnknownFacet _) => refused_by_solver legacy facet option
          | Err _ => Err [unavailable E_SELECTION_ENGINE_DIVERGENCE]
          end
    | ModelSkew _ _ => Err [unavailable E_SELECTION_ENGINE_DIVERGENCE]
    | Unavailable => Err [unavailable E_SELECTION_SOLVER_MODEL_UNAVAILABLE]
    end.

(** ** Resolving *)

Definition solver_sat_gate (c : Ccm) (s : SelectionState) (closed : ClosedFacetDomains) : SatVerdict :=
  match new (B := B) c with
  | Err _ => SatUnavailable
  | Ok session =>
      if decide (symbols (ccm session) = None) then SatUnavailable
      else
        match (apply_environment session s closed).1 with
        | Accepted => Satisfiable
        | Rejected facet option => Unsatisfiable facet option
        | Skew facet option => SatSkew facet option
        | Fault => SatFault
        end
  end.

(** One round: the facets without a value that have one option left get it. *)
Fixpoint infer_round (s : SelectionState) (roster : list (string * gset string)) (session : Session B) (implied : gmap string string)
    (bound : bool) : option (Session B * gmap string string * bool) :=
  match roster with
  | [] => Some (session, implied, bound)
  | (facet, declared) :: roster =>
      if bool_decide (is_Some (ss_context_tags s !! facet)) || bool_decide (is_Some (ss_choices s !! facet))
         || bool_decide (is_Some (implied !! facet))
      then infer_round s roster session implied bound
      else
        match valid_options session facet with
        | Err _ => None
        | Ok opts =>
            match Session.options opts with
            | [] => None
            | [only] =>
                if decide (only ∈ declared) then
                  match Session.apply session facet only with
                  | (Err _, _) => None
                  | (Ok _, session) => infer_round s roster session (<[facet := only]> implied) true
                  end
                else infer_round s roster session implied bound
            | _ => infer_round s roster session implied bound
            end
        end
  end.

(** Until a round binds nothing; [None] when the rounds run out. *)
Fixpoint infer_loop (fuel : nat) (s : SelectionState) (roster : list (string * gset string)) (session : Session B)
    (implied : gmap string string) : option (gmap string string) :=
  match fuel with
  | O => None
  | S fuel =>
      match infer_round s roster session implied false with
      | None => Some ∅
      | Some (session, implied, true) => infer_loop fuel s roster session implied
      | Some (_, implied, false) => Some implied
      end
  end.

Definition roster_of (session : Session B) (domains : ClosedFacetDomains) : list (string * gset string) :=
  List.filter (λ fv, facet_present session fv.1) (bt_list domains).

Definition inference (c : Ccm) (domains : ClosedFacetDomains) (s : SelectionState) : option (gmap string string) :=
  if decide (domains = ∅) then Some ∅
  else
    match new (B := B) c with
    | Err _ => Some ∅
    | Ok session =>
        if decide (symbols (ccm session) = None) then Some ∅
        else
          match apply_environment session s domains with
          | (Accepted, session) => infer_loop (S (length (roster_of session domains))) s (roster_of session domains) session ∅
          | _ => Some ∅
          end
    end.

Definition infer_forced_bindings (c : Ccm) (domains : ClosedFacetDomains) (s : SelectionState) : gmap string string :=
  default ∅ (inference c domains s).

Definition resolve (version : N) (h : ModelHandle) (scope : string) (s : SelectionState) (implied : gmap string string)
    : result ResolveFailure ResolveOk :=
  if negb (version =? PRODUCT_SCHEMA_VERSION) || negb (selection_state_is_valid h scope s) || negb (selection_state_is_admissible d h s)
  then resolve_from_selection d version h scope s implied
  else
    match load_solver_ccm (mh_ccm_ref h) with
    | None => Err (failed [unavailable E_RESOLVE_SOLVER_MODEL_UNAVAILABLE])
    | Some c =>
        let closed := closed_or_default h in
        match solver_sat_gate c s closed with
        | Satisfiable => resolve_from_selection d version h scope s (infer_forced_bindings c closed s)
        | Unsatisfiable facet option =>
            assert_unsatisfiable (resolve_from_selection d version h scope s (infer_forced_bindings c closed s)) facet option
        | SatSkew _ _ | SatUnavailable | SatFault => Err (failed [unavailable E_RESOLVE_SOLVER_MODEL_UNAVAILABLE])
        end
    end.

(** ** Explaining: an answer, or why there is none *)

Definition explain (version : N) (h : ModelHandle) (scope : string) (s : SelectionState) (x : SelectionDelta)
    : result RejectionReason RejectionReason :=
  let facet := sd_facet x in
  let option := sd_option x in
  let legacy := explain_rejection d version h scope s x in
  if decide (rj_code legacy ∈ [E_LOADER_UNSUPPORTED_SCHEMA_VERSION; E_SELECTION_STATE_INVALID; E_LOADER_INDEX_INVALID]) then Err legacy
  else if negb (selection_state_is_admissible d h s) then Err legacy
  else
    let domains := closed_or_default h in
    match session_from_handle (mh_ccm_ref h) s domains with
    | Usable _ (Rejected f o) => Err (explain_error (selection_conflict_diagnostic f o))
    | Usable session _ =>
        match Explain.explain_rejection (T := T) session facet option with
        | Ok (mkExplanation true (Some core)) => Ok (explain_rejected_ok (labeled_core_to_unsat_core core (constraint_roster (ccm session)) domains))
        | Ok (mkExplanation true None) => Err (explain_error (unavailable E_SELECTION_ENGINE_DIVERGENCE))
        | Ok (mkExplanation false _) => Ok legacy
        | Err (UnknownOption _ _) | Err (UnknownFacet _) => Ok legacy
        | Err _ => Err (explain_error (unavailable E_SELECTION_ENGINE_DIVERGENCE))
        end
    | ModelSkew _ _ => Err (explain_error (unavailable E_SELECTION_ENGINE_DIVERGENCE))
    | Unavailable => Err (explain_error (unavailable E_SELECTION_SOLVER_MODEL_UNAVAILABLE))
    end.
End Compose.
