(* ===== verification/ComposeProps.v ===== *)
(** * What solver and compiler together guarantee

    For a package whose constraint model has one partition: the options that are
    listed are those some configuration of the model has, a selection that is
    accepted has one, a resolution is of a state that has one, and the values it
    adds are the only ones left. *)
From S2P Require Import Prelude Text Schema Resolver ResolverProps Ir Lowering Bdd BddBytes CcmFormat MultiPart Backend Session SessionProps SatBackend Mus Explain CuddBackend SessionTrace CcmLoad.
From S2P Require Import Attribution Override Runtime RuntimeProps RuntimeSync Enforce EnforceProps Loader LoaderProps LoaderAgree LoaderResolve Compose.
Local Open Scope N_scope.

Section Single.
Context {B : Type} `{BackendContract B}.
Context (m : MultiPartCcm) (p : PartitionCcm).
Context (Hm : mp_clusters m = [p]) (Hb : mp_bridge m = None) (Hload : loadable p).

Notation order := (variable_order (pt_symbols p)).
Notation holding := (holding m p).

(** ** Symbols *)

Lemma single_symbols : ∃ y, symbols (from_multi_part m) = Some y ∧ cs_variable_order y = order.
Proof. unfold from_multi_part. rewrite Hm, Hb. by eexists. Qed.

Lemma symbol_prefix facet o : symbol (facet, o) = (facet +:+ ".") +:+ o.
Proof. unfold symbol. apply (inj bytes_of). by rewrite !bytes_of_app, <-app_assoc. Qed.

(** The model has the facet when it has an option of it. *)
Lemma facet_in_spec facet : facet_in (from_multi_part m) facet = true ↔ ∃ o, symbol (facet, o) ∈ order.
Proof.
  unfold facet_in. destruct single_symbols as (y & -> & ->). rewrite existsb_exists. split.
  - intros (c & Hc%list_elem_of_In & Hs). unfold starts_with in Hs. apply bool_decide_eq_true in Hs as [o Ho%strip_prefix_spec]. exists o. by rewrite symbol_prefix, <-Ho.
  - intros [o Ho]. exists (symbol (facet, o)). split; [by apply list_elem_of_In|]. apply bool_decide_eq_true. exists o. apply strip_prefix_spec, symbol_prefix.
Qed.

Lemma present_spec s cs facet : holding s cs → facet_present s facet = true ↔ ∃ o, symbol (facet, o) ∈ order.
Proof. intros Hh. unfold facet_present. rewrite (hd_ccm _ _ _ _ Hh). apply facet_in_spec. Qed.

(** ** Options *)

Lemma options_holding s cs facet :
  holding s cs →
  match valid_options s facet with
  | Ok vo => ∀ o, o ∈ Session.options vo ↔ symbol (facet, o) ∈ order ∧ satisfiable_fun (chosen p (cs ++ [symbol (facet, o)]))
  | Err e => e = UnknownFacet facet ∧ facet_present s facet = false ∨ e = BackendFailed OutOfCapacity
  end.
Proof.
  intros Hh. pose proof (hd_refines _ _ _ _ Hh) as (a & ap & Hr & Hp & Ho & Hf).
  pose proof (valid_options_lemma s a facet Hr (holding_unsymbolled m p Hm Hb s cs Hh)) as Hv. rewrite Hp in Hv.
  assert (Hhas : a_has_facet (facet +:+ ".") ap ↔ ∃ o, symbol (facet, o) ∈ order).
  { unfold a_has_facet. rewrite Ho. split; intros [o Hin]; exists o; [by rewrite symbol_prefix|by rewrite <-symbol_prefix]. }
  destruct (valid_options s facet) as [vo|e].
  - destruct Hv as (_ & Hex & Hv). apply Exists_cons in Hex. rewrite Exists_nil in Hex. destruct Hex as [Hex|[]]. intros o. rewrite Hv, Forall_singleton.
    change (facet +:+ "." +:+ o) with (symbol (facet, o)). unfold a_allows. unfold a_var. rewrite Ho. fold (position p (symbol (facet, o))). split.
    + intros Ha. destruct (Ha Hex) as (v & Hpos & Hsat). assert (Hin : symbol (facet, o) ∈ order) by by apply (position_Some p Hload). split; [done|].
      intros Hno. apply Hsat. intros rho. by rewrite Hf, <-(chosen_snoc p cs _ rho v Hpos).
    + intros [Hin Hsat] _. apply (position_Some p Hload) in Hin as [v Hpos]. exists v. split; [done|]. intros Hno. apply Hsat. intros rho.
      by rewrite (chosen_snoc p cs _ rho v Hpos), <-Hf.
  - destruct Hv as [[-> Hv]| ->]; [left|by right]. split; [done|]. apply not_true_iff_false. rewrite (present_spec s cs facet Hh), <-Hhas. by apply Forall_cons_1 in Hv as [Hv _].
Qed.

(** ** The environment *)

(** The outcome of a replay over the selections [cs]. *)
Lemma replay_all_holding closed l s cs outcome :
  holding s cs →
  match replay_all s closed outcome l with
  | (Accepted, s') => outcome = Accepted ∧ holding s' (cs ++ known p l)
  | (Rejected _ _, _) => outcome = Accepted → ∀ rho, chosen p (cs ++ known p l) rho = false
  | _ => True
  end.
Proof.
  revert s cs outcome. induction l as [|[facet option] l IH]; intros s cs outcome Hh; cbn [replay_all].
  { destruct outcome; try done. by rewrite app_nil_r. }
  rewrite known_cons. destruct (facet_present s facet) eqn:Hp; cbn [negb].
  - pose proof (apply_holding m p Hm Hb Hload s cs facet option Hh) as Ha. cbn zeta in Ha. change (facet +:+ "." +:+ option) with (symbol (facet, option)) in Ha.
    destruct (Session.apply s facet option) as [[u|e] s'].
    + destruct Ha as [Hin Hh']. rewrite (known_in p _ Hin), app_assoc. by apply IH.
    + destruct Ha as [Hh' He]. destruct e as [b|f|f v|f v|msg|]; try done.
      * rewrite (known_out p _ He). destruct (is_closed_facet closed facet); [done|]. by apply IH.
      * destruct He as [Hin Hno]. rewrite (known_in p _ Hin), app_assoc.
        assert (Hc : ∀ rho, chosen p ((cs ++ [symbol (facet, option)]) ++ known p l) rho = false)
          by (apply (chosen_false_more p (cs ++ [symbol (facet, option)])); [apply prefix_subseteq|done]).
        specialize (IH s' cs (match outcome with Accepted => Rejected facet option | _ => outcome end) Hh').
        destruct (replay_all _ _ _ _) as [[] s'']; try done. destruct IH as [IH _]. by destruct outcome.
  - rewrite (known_out p); [by apply IH|]. intros Hin. apply not_true_iff_false in Hp. apply Hp, (present_spec s cs facet Hh). by exists option.
Qed.

(** Selections that hold together in some configuration. *)
Lemma satisfiable_consistent (pins : gset string) cs :
  (∀ c, c ∈ pins ↔ c ∈ cs) → Forall (λ c, c ∈ order) cs → satisfiable_fun (chosen p cs) ↔ consistent m pins.
Proof.
  intros Hpins Hk. split.
  - intros Hsat Hinf. apply Hsat. intros rho. apply not_true_iff_false. intros Hc. apply (Hinf (named_by p rho)).
    apply (chosen_feasible m p Hm Hb Hload pins cs rho Hc Hk). intros c. apply Hpins.
  - intros Hcons Hno. apply Hcons. intros tau Hf. pose proof (feasible_chosen m p Hm Hb _ cs tau Hf) as Hc. rewrite Hno in Hc. discriminate Hc. intros c. apply Hpins.
Qed.

Definition agree (s : SelectionState) : Prop := ∀ f o t, ss_choices s !! f = Some o → ss_context_tags s !! f = Some t → t = o.

Definition environment (s : SelectionState) : gmap string string := ss_choices s ∪ ss_context_tags s.

Definition env_list (s : SelectionState) : list (string * string) := bt_list (ss_context_tags s) ++ bt_list (ss_choices s).

(** Tags and choices that agree are replayed as one assignment. *)
Lemma env_pins s c : agree s → c ∈ pins_of p (environment s) ↔ c ∈ known p (env_list s).
Proof.
  intros Hag. unfold pins_of, env_list. rewrite elem_of_list_to_set, !elem_known. apply and_iff_compat_l. split; intros ([f o] & -> & Hin); exists (f, o); (split; [done|]).
  - apply elem_bt_list in Hin. unfold environment in Hin. rewrite elem_of_app, !elem_bt_list. apply lookup_union_Some_raw in Hin. naive_solver.
  - rewrite elem_of_app, !elem_bt_list in Hin. apply elem_bt_list. unfold environment. apply lookup_union_Some_raw. destruct Hin as [Ht|Hc]; [|by left].
    destruct (ss_choices s !! f) as [o'|] eqn:Ec; [|by right]. left. by rewrite (Hag f o' o Ec Ht).
Qed.

Lemma known_known l : Forall (λ c, c ∈ order) (known p l).
Proof. apply Forall_forall. intros c Hc. by apply elem_known in Hc as [Hc _]. Qed.

Lemma environment_replayed s0 s closed :
  new (from_multi_part m) = Ok s0 → agree s →
  match apply_environment s0 s closed with
  | (Accepted, s') => holding s' (known p (env_list s)) ∧ (pins_of p (environment s) = ∅ ∨ consistent m (pins_of p (environment s)))
  | (Rejected _ _, _) => ∀ tau, ¬ feasible m (pins_of p (environment s)) tau
  | _ => True
  end.
Proof.
  intros Hn Hag. pose proof (holding_new m p Hm Hb Hload s0 Hn) as Hh. pose proof (replay_all_holding closed (env_list s) s0 [] Accepted Hh) as Hr. cbn [app] in Hr.
  unfold apply_environment. fold (env_list s). destruct (replay_all _ _ _ _) as [[] s']; try done.
  - destruct Hr as [_ Hr]. split; [done|]. destruct (decide (known p (env_list s) = [])) as [E|E].
    + left. apply set_eq. intros c. rewrite (env_pins s c Hag), E. set_solver.
    + right. apply (satisfiable_consistent _ (known p (env_list s))); [intros c; by apply env_pins|apply known_known|]. by apply (hd_sat _ _ _ _ Hr).
  - intros tau Hf. pose proof (feasible_chosen m p Hm Hb _ (known p (env_list s)) tau Hf) as Hc. rewrite Hr in Hc by done. discriminate Hc. intros c. by apply env_pins.
Qed.
End Single.

(** ** Options and selections *)

Section Commands.
Context {B : Type} `{BackendContract B} {T : Type} `{SatBackend T}.
Context `{HashOrder} `{IrCodec} `{RuntimeCodec} `{SyncCodec} `{LoaderCodec} `{CcmCodec}.
Context (d : package_disk) (files : disk) (h : ModelHandle) (scope : string).
Context (m : MultiPartCcm) (p : PartitionCcm).
Context (Hm : mp_clusters m = [p]) (Hb : mp_bridge m = None) (Hload : loadable p).
Context (Hccm : load_ccm files (trim (mh_ccm_ref h)) = Ok (from_multi_part m)).

Lemma valid_agree s : selection_state_is_valid h scope s = true → agree s.
Proof.
  unfold selection_state_is_valid. destruct (validate_selection_state h scope s) as [a|] eqn:Hv; [|done]. intros _.
  by apply validate_state_spec in Hv as (_ & _ & _ & _ & _ & [Hag _]%merge_assignments_spec).
Qed.

Lemma session_usable s closed :
  agree s →
  match session_from_handle (B := B) files (mh_ccm_ref h) s closed with
  | Usable session Accepted =>
      EnforceProps.holding m p session (known p (env_list s)) ∧ (pins_of p (environment s) = ∅ ∨ consistent m (pins_of p (environment s)))
  | Usable _ (Rejected _ _) => ∀ tau, ¬ feasible m (pins_of p (environment s)) tau
  | Usable _ _ => False
  | _ => True
  end.
Proof.
  intros Hag. unfold session_from_handle. case_decide; [done|]. rewrite Hccm. destruct (new (from_multi_part m)) as [s0|] eqn:Hn; [|done].
  case_decide; [done|]. pose proof (environment_replayed m p Hm Hb Hload s0 s closed Hn Hag) as Hr.
  destruct (apply_environment s0 s closed) as [[] s']; cbn; done.
Qed.

Lemma and_iff_compat_l_weak (P Q R : Prop) : (P → Q ↔ R) → (P ∧ Q) ↔ (P ∧ R).
Proof. tauto. Qed.

(** The selections with one more. *)
Lemma env_insert s facet option c :
  environment s !! facet = None → agree s → symbol (facet, option) ∈ variable_order (pt_symbols p) →
  c ∈ pins_of p (<[facet := option]> (environment s)) ↔ c ∈ known p (env_list s) ++ [symbol (facet, option)].
Proof.
  intros Hf Hag Hin. unfold pins_of. rewrite elem_of_list_to_set, elem_of_app, list_elem_of_singleton, <-(env_pins p s c Hag).
  unfold pins_of. rewrite elem_of_list_to_set, !elem_known. split.
  - intros (Ho & [f o] & -> & [[<- <-]|[_ Ho']]%elem_bt_list%lookup_insert_Some); [by right|left]. split; [done|]. exists (f, o). split; [done|]. by apply elem_bt_list.
  - intros [(Ho & [f o] & -> & Hi%elem_bt_list)| ->].
    + split; [done|]. exists (f, o). split; [done|]. apply elem_bt_list. rewrite lookup_insert_ne; [done|]. intros ->. congruence.
    + split; [done|]. exists (facet, option). split; [done|]. apply elem_bt_list, lookup_insert_eq.
Qed.

Lemma env_insert_out s facet option :
  environment s !! facet = None → symbol (facet, option) ∉ variable_order (pt_symbols p) →
  pins_of p (<[facet := option]> (environment s)) = pins_of p (environment s).
Proof.
  intros Hf Hout. apply set_eq. intros c. unfold pins_of. rewrite !elem_of_list_to_set, !elem_known. apply and_iff_compat_l_weak. intros Hin.
  split; intros ([f o] & -> & Hi%elem_bt_list); exists (f, o); (split; [done|]); apply elem_bt_list.
  - apply lookup_insert_Some in Hi as [[<- <-]|[_ Hi]]; done.
  - rewrite lookup_insert_ne; [done|]. intros ->. congruence.
Qed.

(** An option of the model that some configuration with the state has. *)
Definition open_to (s : SelectionState) (facet option : string) : Prop :=
  symbol (facet, option) ∈ variable_order (pt_symbols p) ∧ consistent m (pins_of p (<[facet := option]> (environment s))).

Lemma open_to_spec (session : Session B) s facet option :
  EnforceProps.holding m p session (known p (env_list s)) → agree s → environment s !! facet = None →
  open_to s facet option ↔
  symbol (facet, option) ∈ variable_order (pt_symbols p) ∧ satisfiable_fun (chosen p (known p (env_list s) ++ [symbol (facet, option)])).
Proof.
  intros Hh Hag Hf. unfold open_to. split; intros [Hin Hs]; (split; [done|]).
  - apply (satisfiable_consistent m p Hm Hb Hload (pins_of p (<[facet := option]> (environment s))) (known p (env_list s) ++ [symbol (facet, option)])); [intros c; by apply env_insert| |done].
    apply Forall_app. split; [apply known_known|by repeat constructor].
  - apply (satisfiable_consistent m p Hm Hb Hload (pins_of p (<[facet := option]> (environment s))) (known p (env_list s) ++ [symbol (facet, option)])); [intros c; by apply env_insert| |done].
    apply Forall_app. split; [apply known_known|by repeat constructor].
Qed.

(** The options listed for a facet of the model that has no value yet are exactly
    those that some configuration of the model has together with the tags and
    choices of the state. *)

(** The conditions under which a command asks the solver. *)
Lemma gate_open {A} (bad : bool) (legacy answer : loader A) r :
  (if bad then legacy else answer) = Ok r → (∀ a, legacy = Ok a → bad = false) → bad = false ∧ answer = Ok r.
Proof. destruct bad; [|done]. intros -> Hl. by specialize (Hl r eq_refl). Qed.

Lemma admissible_screen s am :
  load_selection_constraint_model d h = Ok am → screen_selection_assignments am s = [] → selection_state_is_admissible d h s = true.
Proof. intros Hl Hs. unfold selection_state_is_admissible. by rewrite Hl, bool_decide_eq_true_2. Qed.

Lemma valid_of s a : validate_selection_state h scope s = Ok a → selection_state_is_valid h scope s = true.
Proof. intros Hv. unfold selection_state_is_valid. by rewrite Hv. Qed.

(** C13: The options listed for a facet of the model that has no value yet are exactly
    those that some configuration of the model has together with the tags and
    choices of the state. *)
Theorem composed_options_exact version s facet pruned r option :
  options (B := B) d files version h scope s facet pruned = Ok r → facet_in (from_multi_part m) facet = true →
  ss_context_tags s !! facet = None → ss_choices s !! facet = None →
  option ∈ so_valid_options r ↔ open_to s facet option.
Proof.
  intros Hr Hin Ht Hc. assert (Hnone : environment s !! facet = None) by (unfold environment; by rewrite lookup_union, Ht, Hc).
  apply gate_open in Hr as [Hbad Hr].
  2:{ intros a (assignments & am & domain & -> & Hv & Hf & Ham & Hs & _)%options_Ok.
      rewrite N.eqb_refl, (valid_of s assignments Hv), (admissible_screen s am Ham Hs), bool_decide_eq_false_2; done. }
  apply orb_false_iff in Hbad as [Hbad _]. apply orb_false_iff in Hbad as [_ Hv%negb_false_iff]. pose proof (valid_agree s Hv) as Hag.
  pose proof (session_usable s (closed_or_default d h) Hag) as Hu. destruct (session_from_handle _ _ _ _) as [session []|f o|]; try done.
  - destruct Hu as [Hh _]. assert (Hp : facet_present session facet = true) by (unfold facet_present; by rewrite (hd_ccm _ _ _ _ Hh)).
    rewrite Hp in Hr. cbn [negb] in Hr. pose proof (options_holding m p Hm Hb Hload session _ facet Hh) as Ho.
    destruct (valid_options session facet) as [vo|e]; [|done]. rewrite (open_to_spec session s facet option Hh Hag Hnone), <-Ho.
    unfold merge_valid_options in Hr. destruct pruned; cbn in Hr.
    + destruct (recompute_pruned _ _); cbn in Hr; [|done]. by injection Hr as <-.
    + destruct (get_selection_options _ _ _ _ _ _ _); cbn in Hr; [|done]. by injection Hr as <-.
  - by destruct (get_selection_options _ _ _ _ _ _ _).
Qed.

(** C12: A selection that is accepted leaves the tags alone and adds the choice to the
    state.  Where the model knows the facet, the option is one of the model's and
    some configuration has all the tags and choices; where it does not, the
    compiler's check decided alone, and some configuration has what the state
    names in the model, when it names anything there or the model has a
    configuration at all. *)
Theorem composed_selection_satisfiable version s facet option s' :
  apply (B := B) d files version h scope s (mkDelta facet option) = Ok s' → ss_context_tags s !! facet = None → ss_choices s !! facet = None →
  ss_context_tags s' = ss_context_tags s ∧ ss_choices s' = <[facet := option]> (ss_choices s) ∧
  if facet_in (from_multi_part m) facet then symbol (facet, option) ∈ pins_of p (environment s') ∧ consistent m (pins_of p (environment s'))
  else pins_of p (environment s') ≠ ∅ ∨ consistent m ∅ → consistent m (pins_of p (environment s')).
Proof.
  intros Hr Ht Hc. assert (Hnone : environment s !! facet = None) by (unfold environment; by rewrite lookup_union, Ht, Hc).
  assert (Hnew : ∀ s', ss_context_tags s' = ss_context_tags s → ss_choices s' = <[facet := option]> (ss_choices s) → environment s' = <[facet := option]> (environment s)).
  { intros s1 E1 E2. unfold environment. by rewrite E1, E2, insert_union_l. }
  assert (Hlegacy : apply_selection d version h scope s (mkDelta facet option) = Ok s' → ss_context_tags s' = ss_context_tags s ∧ ss_choices s' = <[facet := option]> (ss_choices s)).
  { intros (assignments & am & _ & _ & _ & _ & [[_ Hx]|(_ & domain & _ & _ & _ & _ & Hs)])%apply_selection_Ok; [cbn in Hx; congruence|].
    by apply canonical_state_Some in Hs as (_ & _ & _ & E1 & E2 & _). }
  apply gate_open in Hr as [Hbad Hr].
  2:{ cbn [sd_facet sd_option]. intros a Ha. pose proof Ha as Ha'. apply apply_selection_Ok in Ha as (assignments & am & Hv & Ham & Hs & _).
      rewrite (valid_of s assignments Hv), (admissible_screen s am Ham Hs), Ht, Hc. unfold apply_selection, require_version in Ha'. inv_loader. subst version.
      rewrite N.eqb_refl, !bool_decide_eq_false_2; [done|by intros []..|done|done]. }
  cbn [sd_facet sd_option] in Hbad, Hr. apply orb_false_iff in Hbad as [Hbad _]. apply orb_false_iff in Hbad as [_ Hv%negb_false_iff]. pose proof (valid_agree s Hv) as Hag.
  pose proof (session_usable s (closed_or_default d h) Hag) as Hu. destruct (session_from_handle _ _ _ _) as [session []|f o|]; try done.
  2:{ unfold refused_by_solver in Hr. by destruct (apply_selection _ _ _ _ _ _). }
  destruct Hu as [Hh Hpins]. assert (Hp : facet_present session facet = facet_in (from_multi_part m) facet) by (unfold facet_present; by rewrite (hd_ccm _ _ _ _ Hh)).
  rewrite Hp in Hr. destruct (facet_in (from_multi_part m) facet) eqn:Hin; cbn [negb] in Hr.
  - pose proof (apply_holding m p Hm Hb Hload session _ facet option Hh) as Ha. cbn zeta in Ha. change (facet +:+ "." +:+ option) with (symbol (facet, option)) in Ha.
    destruct (Session.apply session facet option) as [[u|e] session']; cbn [fst] in Hr.
    + destruct Ha as [Hord Hh']. assert (Hs : ss_context_tags s' = ss_context_tags s ∧ ss_choices s' = <[facet := option]> (ss_choices s)).
      { destruct (canonical_selection_state _ _ _ _) as [next|] eqn:En; [|by apply Hlegacy]. injection Hr as <-.
        by apply canonical_state_Some in En as (_ & _ & _ & E1 & E2 & _). }
      destruct Hs as [E1 E2]. rewrite (Hnew s' E1 E2). split_and!; [done..| |].
      * apply (env_insert s facet option _ Hnone Hag Hord). apply elem_of_app. right. by apply list_elem_of_singleton.
      * apply (open_to_spec session s facet option Hh Hag Hnone). split; [done|]. apply (hd_sat _ _ _ _ Hh'). by destruct (known p (env_list s)).
    + destruct e; try done; unfold refused_by_solver in Hr; by destruct (apply_selection _ _ _ _ _ _).
  - destruct (Hlegacy Hr) as [E1 E2]. split_and!; [done..|]. rewrite (Hnew s' E1 E2), (env_insert_out s facet option Hnone); [destruct Hpins as [E|?]; [rewrite E; by intros [?|?]|done]|].
    intros Hord. apply not_true_iff_false in Hin. apply Hin, (facet_in_spec m p Hm Hb). by exists option.
Qed.
End Commands.
