(* ===== verification/ComposeResolve.v ===== *)
(** * Inference and resolution

    The inference of forced values ends, what it adds holds in every configuration
    that the tags and choices leave, and a resolution that succeeds is of a state
    that the model has. *)
From S2P Require Import Prelude Text Schema Resolver ResolverProps Ir Lowering Bdd BddBytes CcmFormat MultiPart Backend Session SessionProps SatBackend Mus Explain CuddBackend SessionTrace CcmLoad.
From S2P Require Import Attribution Override Runtime RuntimeProps RuntimeSync Enforce EnforceProps Loader LoaderProps LoaderAgree LoaderResolve Compose ComposeProps.
Local Open Scope N_scope.

(** ** Termination *)

Section Rounds.
Context {B : Type} `{SolverBackend B}.

(** A round keeps what was implied; when it binds, one facet of the roster more. *)
Lemma round_grows s roster (session : Session B) implied bound session' implied' bound' :
  infer_round s roster session implied bound = Some (session', implied', bound') →
  implied ⊆ implied' ∧ (bound' = true → bound = true ∨ ∃ f, f ∈ roster.*1 ∧ implied !! f = None ∧ is_Some (implied' !! f)).
Proof.
  revert session implied bound. induction roster as [|[facet declared] roster IH]; intros session implied bound; cbn [infer_round]; [intros [= <- <- <-]; auto|].
  assert (Hskip : infer_round s roster session implied bound = Some (session', implied', bound') →
    implied ⊆ implied' ∧ (bound' = true → bound = true ∨ ∃ f, f ∈ facet :: roster.*1 ∧ implied !! f = None ∧ is_Some (implied' !! f))).
  { intros [Hi Hb]%IH. split; [done|]. intros Ht. destruct (Hb Ht) as [|(f & Hf & ?)]; [by left|right]. exists f. set_solver. }
  case_match eqn:Hg; [done|]. apply orb_false_iff in Hg as [_ Hg]. apply bool_decide_eq_false, eq_None_not_Some in Hg.
  destruct (valid_options session facet) as [vo|]; [|done]. destruct (Session.options vo) as [|only [|? ?]]; [done| |done].
  case_decide; [|done]. destruct (Session.apply session facet only) as [[u|e] s2]; [|done]. intros [Hi _]%IH.
  split; [etrans; [|exact Hi]; by apply insert_subseteq|]. intros _. right. exists facet. split_and!; [cbn; set_solver|done|].
  exists only. eapply lookup_weaken; [apply lookup_insert_eq|exact Hi].
Qed.

(** The facets of the roster without an implied value. *)
Definition pending (roster : list (string * gset string)) (implied : gmap string string) : nat :=
  length (filter (λ fv : string * gset string, implied !! fv.1 = None) roster).

Lemma pending_grows roster implied implied' :
  implied ⊆ implied' →
  (pending roster implied' ≤ pending roster implied)%nat ∧
  ((∃ f, f ∈ roster.*1 ∧ implied !! f = None ∧ is_Some (implied' !! f)) → (pending roster implied' < pending roster implied)%nat).
Proof.
  intros Hi. unfold pending. induction roster as [|[g values] roster [IH1 IH2]]; [split; [done|]; intros (f & Hf & _); by apply not_elem_of_nil in Hf|].
  rewrite !filter_cons. cbn [fst]. destruct (implied' !! g) as [v'|] eqn:E'.
  - rewrite (decide_False (P := Some v' = None)) by done. case_decide as Hg; cbn [length]; (split; [lia|]).
    + intros _. lia.
    + intros (f & [->|Hf]%elem_of_cons & Hn & Hs); [done|]. apply IH2. by exists f.
  - rewrite (decide_True (P := None = None)) by done. assert (E : implied !! g = None) by (by eapply lookup_weaken_None).
    rewrite decide_True by done. cbn [length]. split; [lia|]. intros (f & [->|Hf]%elem_of_cons & Hn & Hs); [cbn in Hs; rewrite E' in Hs; by destruct Hs|].
    apply -> Nat.succ_lt_mono. apply IH2. by exists f.
Qed.

Lemma loop_ends fuel s roster (session : Session B) implied : (pending roster implied < fuel)%nat → is_Some (infer_loop fuel s roster session implied).
Proof.
  revert session implied. induction fuel as [|fuel IH]; intros session implied Hf; [lia|]. cbn [infer_loop].
  destruct (infer_round s roster session implied false) as [[[session' implied'] []]|] eqn:Er; [|by eexists..].
  apply round_grows in Er as [Hi Hg]. apply IH. destruct (pending_grows roster implied implied' Hi) as [_ Hlt].
  destruct (Hg eq_refl) as [|Hx]; [done|]. specialize (Hlt Hx). lia.
Qed.

(** The inference of forced values ends within one round for each closed facet of
    the model and one more, whatever the backend answers. *)
Theorem inference_ends c domains s : is_Some (inference (B := B) c domains s).
Proof.
  unfold inference. case_decide; [by eexists|]. destruct (new c) as [session|]; [|by eexists]. case_decide; [by eexists|].
  destruct (apply_environment session s domains) as [[] session']; [|by eexists..]. apply loop_ends. unfold pending.
  apply Nat.lt_succ_r. apply length_filter.
Qed.
End Rounds.

(** ** What is implied *)

Section Inference.
Context {B : Type} `{BackendContract B}.
Context (m : MultiPartCcm) (p : PartitionCcm).
Context (Hm : mp_clusters m = [p]) (Hb : mp_bridge m = None) (Hload : loadable p).
Context (s : SelectionState) (Hag : agree s) (full : list (string * gset string)).

Notation order := (variable_order (pt_symbols p)).
Notation pins := (pins_of p (environment s)).

(** Each facet of the roster has a value. *)
Definition covers (tau : string → bool) : Prop := ∀ f values, (f, values) ∈ full → ∃ w, symbol (f, w) ∈ order ∧ tau (symbol (f, w)) = true.

(** The session has the state and the implied values, and they are forced. *)
Record implies (session : Session B) (implied : gmap string string) : Prop := {
  im_holding : ∃ cs, EnforceProps.holding m p session cs ∧ ∀ c, c ∈ cs ↔ c ∈ pins ∨ ∃ f v, implied !! f = Some v ∧ c = symbol (f, v);
  im_known : ∀ f v, implied !! f = Some v → symbol (f, v) ∈ order ∧ environment s !! f = None ∧ ∃ values, (f, values) ∈ full ∧ v ∈ values;
  im_forced : ∀ tau, feasible m pins tau → covers tau → ∀ f v, implied !! f = Some v → tau (symbol (f, v)) = true;
}.

Lemma implies_start session : EnforceProps.holding m p session (known p (env_list s)) → implies session ∅.
Proof.
  intros Hh. split.
  - exists (known p (env_list s)). split; [done|]. intros c. rewrite <-(env_pins p s c Hag). split; [by left|]. intros [|(f & v & Hf & _)]; [done|]. by rewrite lookup_empty in Hf.
  - intros f v Hf. by rewrite lookup_empty in Hf.
  - intros tau _ _ f v Hf. by rewrite lookup_empty in Hf.
Qed.

(** The one option left is forced. *)
Lemma implies_step session implied facet values vo only session' :
  implies session implied → (facet, values) ∈ full → environment s !! facet = None → implied !! facet = None → only ∈ values →
  valid_options session facet = Ok vo → Session.options vo = [only] → Session.apply session facet only = (Ok tt, session') →
  implies session' (<[facet := only]> implied).
Proof.
  intros [(cs & Hh & Hcs) Hk Hf] Hfull Henv Hnone Honly Hvo Hopts Happly.
  pose proof (options_holding m p Hm Hb Hload session cs facet Hh) as Ho. rewrite Hvo in Ho.
  pose proof (apply_holding m p Hm Hb Hload session cs facet only Hh) as Ha. cbn zeta in Ha. rewrite Happly in Ha. change (facet +:+ "." +:+ only) with (symbol (facet, only)) in Ha.
  destruct Ha as [Hin Hh']. split.
  - exists (cs ++ [symbol (facet, only)]). split; [done|]. intros c. rewrite elem_of_app, list_elem_of_singleton, Hcs. split.
    + intros [[Hc|(f & v & Hv & ->)]| ->]; [by left|right|right].
      * exists f, v. split; [|done]. rewrite lookup_insert_ne; [done|]. intros ->. congruence.
      * exists facet, only. split; [apply lookup_insert_eq|done].
    + intros [Hc|(f & v & [[<- <-]|[_ Hv]]%lookup_insert_Some & ->)]; [by left; left|by right|left; right]. by exists f, v.
  - intros f v [[<- <-]|[_ Hv]]%lookup_insert_Some; [|by apply Hk]. split_and!; [done..|]. by exists values.
  - intros tau Hfe Hcov f v [[<- <-]|[_ Hv]]%lookup_insert_Some; [|by eapply Hf]. destruct (Hcov facet values Hfull) as (w & Hw & Htau).
    enough (Hx : w ∈ Session.options vo) by (rewrite Hopts in Hx; apply list_elem_of_singleton in Hx as ->; done).
    apply Ho. split; [done|]. intros Hno.
    assert (Hfe' : feasible m (list_to_set (cs ++ [symbol (facet, w)])) tau).
    { destruct Hfe as [Hp Hpins]. split; [done|]. intros c. rewrite elem_of_list_to_set, elem_of_app, list_elem_of_singleton, Hcs.
      intros [[Hc|(f & v & Hv & ->)]| ->]; [by apply Hpins|by eapply Hf|done]. }
    pose proof (feasible_chosen m p Hm Hb _ (cs ++ [symbol (facet, w)]) tau Hfe') as Hc. rewrite Hno in Hc. discriminate Hc. intros c. by rewrite elem_of_list_to_set.
Qed.

Lemma round_implies roster session implied bound session' implied' bound' :
  (∀ fv, fv ∈ roster → fv ∈ full) → implies session implied →
  infer_round s roster session implied bound = Some (session', implied', bound') → implies session' implied'.
Proof.
  revert session implied bound. induction roster as [|[facet values] roster IH]; intros session implied bound Hsub Hi; cbn [infer_round]; [by intros [= <- <- <-]|].
  assert (Hsub' : ∀ fv, fv ∈ roster → fv ∈ full) by set_solver. case_match eqn:Hg; [by apply IH|].
  apply orb_false_iff in Hg as [[Ht Hc]%orb_false_iff Hn]. apply bool_decide_eq_false, eq_None_not_Some in Ht, Hc, Hn.
  destruct (valid_options session facet) as [vo|] eqn:Hvo; [|done]. destruct (Session.options vo) as [|only [|? ?]] eqn:Ho; [done| |by apply IH].
  case_decide; [|by apply IH]. destruct (Session.apply session facet only) as [[[]|e] session1] eqn:Ha; [|done]. apply IH; [done|].
  eapply implies_step; try done; [apply Hsub; left|]. unfold environment. by rewrite lookup_union, Hc, Ht.
Qed.

Lemma loop_implies fuel session implied implied' :
  implies session implied → infer_loop fuel s full session implied = Some implied' → implied' = ∅ ∨ ∃ session', implies session' implied'.
Proof.
  revert session implied. induction fuel as [|fuel IH]; intros session implied Hi; cbn [infer_loop]; [done|].
  destruct (infer_round s full session implied false) as [[[session1 implied1] []]|] eqn:Er.
  - apply IH. eapply round_implies; [|exact Hi|exact Er]. done.
  - intros [= <-]. right. exists session1. eapply round_implies; [|exact Hi|exact Er]. done.
  - intros [= <-]. by left.
Qed.

(** What is implied holds with the state in some configuration. *)
Lemma implies_consistent session implied :
  implies session implied → pins_of p (implied ∪ environment s) = ∅ ∨ consistent m (pins_of p (implied ∪ environment s)).
Proof.
  intros [(cs & Hh & Hcs) Hk _].
  assert (E : ∀ c, c ∈ pins_of p (implied ∪ environment s) ↔ c ∈ cs).
  { intros c. rewrite Hcs. unfold pins_of. rewrite !elem_of_list_to_set, !elem_known. split.
    - intros (Ho & [f v] & -> & [Hf|[_ Hf]]%elem_bt_list%lookup_union_Some_raw); [right; by exists f, v|left]. split; [done|]. exists (f, v). split; [done|]. by apply elem_bt_list.
    - intros [(Ho & [f v] & -> & Hf%elem_bt_list)|(f & v & Hf & ->)].
      + split; [done|]. exists (f, v). split; [done|]. apply elem_bt_list, lookup_union_Some_raw. destruct (implied !! f) as [w|] eqn:Ew; [|by right].
        destruct (Hk f w Ew) as (_ & Hx & _). congruence.
      + split; [by apply Hk|]. exists (f, v). split; [done|]. by apply elem_bt_list, lookup_union_Some_raw; left. }
  destruct (decide (cs = [])) as [->|Hne].
  - left. apply set_eq. intros c. rewrite E. set_solver.
  - right. apply (satisfiable_consistent m p Hm Hb Hload (pins_of p (implied ∪ environment s)) cs E (hd_known _ _ _ _ Hh)). by apply (hd_sat _ _ _ _ Hh).
Qed.
End Inference.

(** ** Resolving *)

Section Resolving.
Context {B : Type} `{BackendContract B}.
Context `{HashOrder} `{IrCodec} `{RuntimeCodec} `{SyncCodec} `{LoaderCodec} `{CcmCodec}.
Context (d : package_disk) (files : disk) (h : ModelHandle) (scope : string).
Context (m : MultiPartCcm) (p : PartitionCcm).

(** The model gives every closed facet that it knows a value. *)
Definition gives_values (domains : ClosedFacetDomains) (tau : string → bool) : Prop :=
  ∀ f values, domains !! f = Some values → facet_in (from_multi_part m) f = true →
    ∃ w, symbol (f, w) ∈ variable_order (pt_symbols p) ∧ tau (symbol (f, w)) = true.

Lemma resolution_screened version s implied r :
  resolve_from_selection d version h scope s implied = Ok r →
  version = PRODUCT_SCHEMA_VERSION ∧ selection_state_is_valid h scope s = true ∧ selection_state_is_admissible d h s = true ∧ rk_implied_choices r = implied.
Proof.
  intros Hr. pose proof Hr as (assignments & pk & model & Hv & Hp & Hs & Hm & _ & _ & Hseal)%resolution_Ok.
  apply sealed_Ok in Hseal as (output & _ & _ & _ & _ & _ & Ei & _). split_and!; [|by eapply valid_of| |done].
  - unfold resolve_from_selection, require_version in Hr. by inv_loader.
  - unfold screen_selection_state_from in Hs. destruct (load_selection_constraint_model_from pk) as [am|] eqn:Ea; [|by rewrite Hm in Hs].
    eapply (admissible_screen d h s am); [|done]. unfold load_selection_constraint_model. rewrite Hp. cbn. done.
Qed.

Lemma resolve_gate version s implied r :
  resolve (B := B) d files version h scope s implied = Ok r →
  ∃ c, load_ccm files (trim (mh_ccm_ref h)) = Ok c ∧ solver_sat_gate (B := B) c s (closed_or_default d h) = Satisfiable ∧ selection_state_is_valid h scope s = true ∧
    resolve_from_selection d version h scope s (infer_forced_bindings (B := B) c (closed_or_default d h) s) = Ok r.
Proof.
  unfold resolve. destruct (negb _ || _ || _) eqn:Hbad.
  { intros (-> & Hv & Ha & _)%resolution_screened. by rewrite N.eqb_refl, Hv, Ha in Hbad. }
  apply orb_false_iff in Hbad as [[_ Hv%negb_false_iff]%orb_false_iff _]. unfold load_solver_ccm. case_decide; [done|].
  destruct (load_ccm files (trim (mh_ccm_ref h))) as [c|]; [|done]. destruct (solver_sat_gate c s _) eqn:Eg; try done.
  - intros Hr. by exists c.
  - unfold assert_unsatisfiable. destruct (resolve_from_selection _ _ _ _ _ _) as [|x]; [done|]. destruct (rx_diagnostics x); [done|]. by case_decide.
Qed.

Lemma accepted_gate c s closed :
  solver_sat_gate (B := B) c s closed = Satisfiable →
  ∃ session session', new (B := B) c = Ok session ∧ symbols (ccm session) ≠ None ∧ apply_environment session s closed = (Accepted, session').
Proof.
  unfold solver_sat_gate. destruct (new c) as [session|]; [|done]. case_decide; [done|]. destruct (apply_environment session s closed) as [[] session'] eqn:Ea; try done.
  intros _. by exists session, session'.
Qed.

(** C11: A resolution that succeeds is the loader's with the values that were added.
    When the tags, choices and added values name anything in the model, or the
    model has a configuration at all, some configuration of the model has them
    all; and each value that was added is one that every configuration with the
    tags and choices has, as far as it gives every closed facet a value. *)
Theorem composed_resolution version s implied r :
  mp_clusters m = [p] → mp_bridge m = None → loadable p → load_ccm files (trim (mh_ccm_ref h)) = Ok (from_multi_part m) →
  resolve (B := B) d files version h scope s implied = Ok r →
  resolve_from_selection d version h scope s (rk_implied_choices r) = Ok r ∧
  (let pins := pins_of p (rk_implied_choices r ∪ environment s) in pins ≠ ∅ ∨ consistent m ∅ → consistent m pins) ∧
  ∀ tau, feasible m (pins_of p (environment s)) tau → gives_values (closed_or_default d h) tau →
    ∀ f v, rk_implied_choices r !! f = Some v → tau (symbol (f, v)) = true.
Proof.
  intros Hm Hb Hload Hccm (c & Hc & Hgate & Hv & Hr)%resolve_gate. rewrite Hccm in Hc. injection Hc as <-.
  pose proof (valid_agree h scope s Hv) as Hag. pose proof (resolution_screened _ _ _ _ Hr) as (_ & _ & _ & Ei). rewrite Ei. split; [done|].
  destruct (accepted_gate _ _ _ Hgate) as (s0 & s1 & Hn & Hsym & Henv).
  pose proof (environment_replayed m p Hm Hb Hload s0 s (closed_or_default d h) Hn Hag) as Hrep. rewrite Henv in Hrep. destruct Hrep as [Hh Hcons]. cbn zeta.
  enough (Hall : (pins_of p (infer_forced_bindings (B := B) (from_multi_part m) (closed_or_default d h) s ∪ environment s) = ∅ ∨
      consistent m (pins_of p (infer_forced_bindings (B := B) (from_multi_part m) (closed_or_default d h) s ∪ environment s))) ∧
    ∀ tau, feasible m (pins_of p (environment s)) tau → gives_values (closed_or_default d h) tau →
      ∀ f v, infer_forced_bindings (B := B) (from_multi_part m) (closed_or_default d h) s !! f = Some v → tau (symbol (f, v)) = true).
  { destruct Hall as [[E|Hc] Hall]; (split; [|exact Hall]); [rewrite E; by intros [?|?]|done]. }
  unfold infer_forced_bindings, inference. rewrite Hn, Henv, (decide_False (P := symbols (ccm s0) = None)) by done.
  assert (Hzero : (pins_of p (∅ ∪ environment s) = ∅ ∨ consistent m (pins_of p (∅ ∪ environment s))) ∧
    ∀ tau, feasible m (pins_of p (environment s)) tau → gives_values (closed_or_default d h) tau →
      ∀ f v, (∅ : gmap string string) !! f = Some v → tau (symbol (f, v)) = true).
  { rewrite (left_id_L ∅ _). split; [done|]. intros tau _ _ f v Hf. by rewrite lookup_empty in Hf. }
  case_decide; [done|]. set (roster := roster_of s1 (closed_or_default d h)).
  destruct (infer_loop (S (length roster)) s roster s1 ∅) as [found|] eqn:El; cbn [default]; [|done].
  apply (loop_implies m p Hm Hb Hload s Hag roster) in El; [|by apply implies_start].
  destruct El as [->|[s2 Hi]]; [done|]. split; [by eapply implies_consistent|]. intros tau Hf Hgives. apply (im_forced _ _ _ _ _ _ Hi tau Hf).
  intros f values Hin. unfold roster, roster_of in Hin. rewrite list_elem_of_In, List.filter_In, <-list_elem_of_In in Hin. destruct Hin as [Hin%elem_bt_list Hp].
  apply (Hgives f values Hin). unfold facet_present in Hp. by rewrite (hd_ccm _ _ _ _ Hh) in Hp.
Qed.
End Resolving.
