(* ===== verification/ComposeExplain.v ===== *)
(** * Explanations and selections

    The command that explains a rejection and the command that selects agree. *)
From S2P Require Import Prelude Text Schema Resolver ResolverProps Ir Lowering Bdd BddBytes CcmFormat MultiPart Backend Session SessionProps SatBackend Mus Explain ExplainProps CuddBackend SessionTrace CcmLoad.
From S2P Require Import Attribution Override Runtime RuntimeProps RuntimeSync Enforce EnforceProps Loader LoaderProps LoaderAgree LoaderResolve Compose ComposeProps.
Local Open Scope N_scope.

(** A session records the selections it made and no others. *)
Lemma apply_committed {B} `{SolverBackend B} (s : Session B) facet value :
  unsymbolled s = false →
  match Session.apply s facet value with
  | (Ok _, s') => ∃ n, committed s' = committed s ++ [mkCommitted (symbol (facet, value)) n]
  | (Err _, s') => committed s' = committed s
  end.
Proof.
  intros Hu. unfold Session.apply. rewrite Hu. cbn zeta. destruct (find_touched _ _ _) as [|t ts]; [done|]. destruct (_ <? _)%nat; [done|].
  destruct (stage_all _ _ _ _) as [[staged|e] ps]; [|done]. destruct (commit_all _ _ _ _) as [[ps' u]|]; [|done]. cbn. by eexists.
Qed.

Section Explaining.
Context {B : Type} `{BackendContract B} {T : Type} `{SatContract T}.
Context `{HashOrder} `{IrCodec} `{RuntimeCodec} `{SyncCodec} `{LoaderCodec} `{CcmCodec}.
Context (d : package_disk) (files : disk) (h : ModelHandle) (scope : string).
Context (m : MultiPartCcm) (p : PartitionCcm).
Context (Hm : mp_clusters m = [p]) (Hb : mp_bridge m = None) (Hload : loadable p).
Context (Hccm : load_ccm files (trim (mh_ccm_ref h)) = Ok (from_multi_part m)).

Lemma pinned_snoc (s s' : Session B) c n x : committed s' = committed s ++ [mkCommitted c n] → x ∈ pinned_symbols s' ↔ x ∈ pinned_symbols s ∨ x = c.
Proof. intros E. unfold pinned_symbols. rewrite E, fmap_app, list_to_set_app_L. cbn. set_solver. Qed.

(** A replay that is accepted pins the symbols of the model among its pairs. *)
Lemma replay_all_pinned closed l (s : Session B) cs outcome s' :
  EnforceProps.holding m p s cs → reaches m s → replay_all s closed outcome l = (Accepted, s') →
  reaches m s' ∧ ∀ c, c ∈ pinned_symbols s' ↔ c ∈ pinned_symbols s ∨ c ∈ known p l.
Proof.
  revert s cs outcome. induction l as [|[facet option] l IH]; intros s cs outcome Hh Hr; cbn [replay_all]; [intros [= _ <-]; set_solver|].
  rewrite known_cons. destruct (facet_present s facet) eqn:Hp; cbn [negb].
  - pose proof (apply_holding m p Hm Hb Hload s cs facet option Hh) as Ha. cbn zeta in Ha. change (facet +:+ "." +:+ option) with (symbol (facet, option)) in Ha.
    pose proof (apply_committed s facet option (holding_unsymbolled m p Hm Hb s cs Hh)) as Hc. pose proof (reach_apply m s facet option Hr) as Hr'.
    destruct (Session.apply s facet option) as [[u|e] s1]; cbn [snd] in Hr'.
    + destruct Ha as [Hin Hh']. destruct Hc as [n Hc]. rewrite (known_in p _ Hin). intros [Hx Hpin]%(IH s1 (cs ++ [symbol (facet, option)])); [|done..]. split; [done|].
      intros c. rewrite Hpin, (pinned_snoc s s1 _ n c Hc), elem_of_app, list_elem_of_singleton. tauto.
    + destruct Ha as [Hh' He]. assert (Hsame : pinned_symbols s1 = pinned_symbols s) by (unfold pinned_symbols; by rewrite Hc).
      destruct e as [b|f|f v|f v|msg|]; try done.
      * rewrite (known_out p _ He). destruct (is_closed_facet closed facet); [done|]. intros [Hx Hpin]%(IH s1 cs); [|done..]. split; [done|]. intros c. by rewrite Hpin, Hsame.
      * intros Hrep. exfalso. pose proof (replay_all_holding m p Hm Hb Hload closed l s1 cs (match outcome with Accepted => Rejected facet option | _ => outcome end) Hh') as Hx.
        rewrite Hrep in Hx. destruct Hx as [Hx _]. by destruct outcome.
  - rewrite (known_out p); [by apply (IH s cs outcome)|]. intros Hin. apply not_true_iff_false in Hp. apply Hp, (present_spec m p Hm Hb s cs facet Hh). by exists option.
Qed.

Lemma session_pinned s closed session :
  agree s → session_from_handle (B := B) files (mh_ccm_ref h) s closed = Usable session Accepted →
  reaches m session ∧ ∀ c, c ∈ pinned_symbols session ↔ c ∈ known p (env_list s).
Proof.
  intros Hag. unfold session_from_handle. case_decide; [done|]. rewrite Hccm. destruct (new (from_multi_part m)) as [s0|] eqn:Hn; [|done].
  case_decide; [done|]. destruct (apply_environment s0 s closed) as [[] s'] eqn:Ea; cbn; intros [= <-].
  assert (Hr : reaches m s0) by (eapply reach_new; [|exact Hn]; unfold from_multi_part; by rewrite Hm, Hb).
  destruct (replay_all_pinned closed (env_list s) s0 [] Accepted s' (holding_new m p Hm Hb Hload s0 Hn) Hr Ea) as [Hx Hpin]. split; [done|].
  assert (Hempty : pinned_symbols s0 = ∅).
  { pose proof (new_spec (B := B) (from_multi_part m) m) as Hs. rewrite Hn in Hs. unfold pinned_symbols.
    destruct Hs as (_ & _ & ->); [unfold from_multi_part; by rewrite Hm, Hb|rewrite (partitions_single m p Hm Hb); constructor; [done|constructor]|rewrite Hm; done|done]. }
  intros c. rewrite Hpin, Hempty. set_solver.
Qed.

Lemma model_symbols_single c : c ∈ model_symbols m ↔ c ∈ variable_order (pt_symbols p).
Proof. unfold model_symbols. rewrite elem_of_bt_elements, elem_of_list_to_set, (partitions_single m p Hm Hb). cbn. by rewrite app_nil_r. Qed.

Lemma legacy_no_core version s x : rj_unsat_core (explain_rejection d version h scope s x) = None.
Proof. unfold explain_rejection. repeat (case_match; try done). unfold classify_rejection_reason in *. repeat (case_match; try done). Qed.

(** C14: An answer about an option of the model for a facet without a value is an
    explanation with a core exactly when no configuration of the model has the
    option together with the tags and choices of the state. *)
Theorem composed_explanation_exact version s facet option reason :
  explain (B := B) (T := T) d files version h scope s (mkDelta facet option) = Ok reason → selection_state_is_valid h scope s = true → fits_u32 m →
  symbol (facet, option) ∈ variable_order (pt_symbols p) → ss_context_tags s !! facet = None → ss_choices s !! facet = None →
  is_Some (rj_unsat_core reason) ↔ ¬ open_to m p s facet option.
Proof.
  intros He Hv Hfit Hin Ht Hc. assert (Hnone : environment s !! facet = None) by (unfold environment; by rewrite lookup_union, Ht, Hc).
  pose proof (valid_agree h scope s Hv) as Hag. unfold explain in He. case_decide; [done|]. destruct (negb _); [done|]. cbn [sd_facet sd_option] in He.
  pose proof (session_usable files h m p Hm Hb Hload Hccm s (closed_or_default d h) Hag) as Hu.
  destruct (session_from_handle _ _ _ _) as [session []|f o|] eqn:Es; try done. destruct (session_pinned s _ session Hag Es) as [Hr Hpin].
  assert (Hpart : partitions_of m = [p]) by exact (partitions_single m p Hm Hb).
  assert (Hx : explained m (pinned_symbols session) facet option (Explain.explain_rejection (T := T) session facet option)).
  { destruct (reaches_tracks m session) as [a Ha]; [rewrite Hpart; constructor; [done|constructor]|rewrite Hm; done|done|]. apply explain_spec; [apply Ha|done]. }
  assert (Hopen : ∀ tau, feasible m (pins_of p (<[facet := option]> (environment s))) tau ↔ feasible m (pinned_symbols session) tau ∧ tau (symbol (facet, option)) = true).
  { intros tau. unfold feasible. split.
    - intros [Hp Hpins]. split_and!; [done| |].
      + intros c Hc'%Hpin. apply Hpins, env_insert; [done..|]. apply elem_of_app. by left.
      + apply Hpins, env_insert; [done..|]. apply elem_of_app. right. by apply list_elem_of_singleton.
    - intros [[Hp Hpins] Htau]. split; [done|]. intros c. rewrite env_insert by done. rewrite elem_of_app, list_elem_of_singleton. intros [Hc'| ->]; [|done]. by apply Hpins, Hpin. }
  unfold explained in Hx. change (facet +:+ "." +:+ option) with (symbol (facet, option)) in Hx.
  destruct (Explain.explain_rejection session facet option) as [r|e].
  - destruct Hx as [_ [[-> (tau & Hf & Htau)]|(core & -> & _ & Hno)]]; injection He as <-.
    + rewrite legacy_no_core. split; [by intros []|]. intros Hn. exfalso. apply Hn. split; [done|]. intros Hinf. apply (Hinf tau). by apply Hopen.
    + cbn. split; [|by eexists]. intros _ [_ Hcons]. apply Hcons. intros tau [Hf Htau]%Hopen. by rewrite Hno in Htau.
  - destruct Hx as [[_ Hg]|[Hn _]]; [|exfalso; by apply Hn, model_symbols_single]. exfalso. unfold gave_up in Hg. rewrite !elem_of_cons, elem_of_nil in Hg. destruct_or! Hg; subst e; done.
Qed.
End Explaining.
