(* ===== verification/ComposeDemo.v ===== *)
(** * A package with its constraint model

    A package with the facets [a] and [b] of [EnforceDemo]'s model, which forbids
    [a.x] with [b.x]: with [a] chosen as [x], [y] is the only option left for [b],
    an option [x] is explained, and a resolution adds [b] as [y].  A second
    package has a constraint that nothing satisfies, and resolves. *)
From S2P Require Import Prelude Text Schema Resolver InterfaceSummary LinkVerify VarOrder Emitter Lowering Ir Ingest IngestProps Link Reverify Bdd BddBytes CcmFormat MultiPart Backend CuddBackend Session SessionProps SatBackend Mus Explain ExplainProps SessionTrace CcmLoad.
From S2P Require Import Attribution Override Runtime RuntimeSync RuntimeSyncDemo Enforce EnforceProps EnforceDemo Loader LoaderProps LoaderResolve Compose ComposeProps ComposeResolve ComposeExplain.
Local Open Scope N_scope.

#[local] Existing Instance sorted_order.
#[local] Existing Instance toy_codec.
#[local] Existing Instance pair_codec.

Definition choice_of (facet : string) : Param :=
  mkParameter None (Some "string") None None None (Some facet) None None None None None [].

Definition pair_config : Config :=
  mkConfig "pair" "1.0.0" ∅ {["pump" := mkComponent (Some "pump") None [] ∅ {["pa" := choice_of "a"; "pb" := choice_of "b"]}]} ∅
    {["a" := Schema.mkFacet ["x"; "y"] None false None; "b" := Schema.mkFacet ["x"; "y"] None false None]}
    {["apart" := mkConstraintDecl "!(a == 'x' && b == 'x')" None]} ∅ ∅.

Definition one_base : IrCodec :=
  {| sha256 := λ _, replicate 32 "000"%char; preimage_json := λ _, Some []; content_json := λ _, Some []; chunk_json := λ _, Some [];
     index_pretty := λ _, bytes_of "index"; manifest_pretty := λ _, bytes_of "manifest"; parse_chunk := λ _, None |}.

Definition pair_chunk : IrChunk :=
  written (mkSourceChunk "pair.json" (match chunk_hash_from_config (H := one_base) pair_config with Ok hash => hash | Err _ => "none" end) pair_config).

#[local] Instance pair_ir : IrCodec :=
  {| sha256 := λ _, replicate 32 "000"%char; preimage_json := λ _, Some []; content_json := λ _, Some []; chunk_json := λ _, Some [];
     index_pretty := λ _, bytes_of "index"; manifest_pretty := λ _, bytes_of "manifest"; parse_chunk := λ _, Some pair_chunk |}.

Definition pair_emission := emit_ir (λ _, true) (λ _, true) (ingest (λ _, None) (λ _, Some pair_config) [("pair.json", "{pair}")] new_compiler).2 "out" ∅.

Definition pair_package : package_disk := pair_emission.2.

Definition pair_index : IrIndex := match pair_emission.1 with Ok i => i | Err _ => Ir.mkIndex 0 [] ∅ ∅ ∅ ∅ ∅ ∅ "none" end.

#[local] Instance pair_loader : LoaderCodec := {|
  state_json := λ c, Some (concat ((λ kv, bytes_of kv.1 ++ bytes_of kv.2) <$> map_to_list (st_choices c)));
  output_value := λ _, Some JNull;
  output_json := λ _, Some [];
  parse_cmp_manifest := λ _, Some (manifest_from_index pair_index);
  parse_index := λ _, Some pair_index;
|}.

#[local] Instance pair_resolved : SyncCodec := {|
  resolve_json := λ _, Some [];
  bundle_json := λ _, Some [];
  decode_output := λ _, None;
|}.

Definition pair_handle : ModelHandle := mkHandle (ix_config_hash pair_index) "out/cmp.manifest.json" "out/index.cfir.json" "out/." "d".

Definition scope_pump : string := "component:pump".

Definition select (s : SelectionState) (facet option : string) : loader SelectionState :=
  Compose.apply (B := CuddBackend BddBuilder N) pair_package pair_disk PRODUCT_SCHEMA_VERSION pair_handle scope_pump s (mkDelta facet option).

Definition offer (s : SelectionState) (facet : string) : loader SelectionOptions :=
  Compose.options (B := CuddBackend BddBuilder N) pair_package pair_disk PRODUCT_SCHEMA_VERSION pair_handle scope_pump s facet true.

Definition why (s : SelectionState) (facet option : string) : result RejectionReason RejectionReason :=
  Compose.explain (B := CuddBackend BddBuilder N) (T := demo_sat) pair_package pair_disk PRODUCT_SCHEMA_VERSION pair_handle scope_pump s (mkDelta facet option).

Definition settle (s : SelectionState) : result ResolveFailure ResolveOk :=
  Compose.resolve (B := CuddBackend BddBuilder N) pair_package pair_disk PRODUCT_SCHEMA_VERSION pair_handle scope_pump s ∅.

Definition nothing_chosen : SelectionState :=
  match initialize_selection_state pair_package PRODUCT_SCHEMA_VERSION pair_handle scope_pump ∅ with Ok s => s | Err _ => mkState 0 "none" "none" ∅ ∅ "none" end.

Definition a_is_x : SelectionState := match select nothing_chosen "a" "x" with Ok s => s | Err _ => nothing_chosen end.

Example b_left :
  match offer a_is_x "b" with Ok r => (so_valid_options r, so_pruned_options r) = (["y"], Some ["x"]) | Err _ => False end ∧
  match settle a_is_x with Ok r => rk_implied_choices r = {["b" := "y"]} | Err _ => False end ∧
  match why a_is_x "b" "x" with Ok r => rj_code r = E_SELECTION_UNSATISFIABLE ∧ rj_blocking_choices r = {["a" := "x"]} | Err _ => False end.
Proof. vm_compute. split_and!; reflexivity. Qed.

Lemma ran {E A} (r : result E A) : match r with Ok _ => True | Err _ => False end → ∃ a, r = Ok a.
Proof. destruct r as [a|]; [by exists a|done]. Qed.

Lemma pair_ccm : load_ccm pair_disk (trim (mh_ccm_ref pair_handle)) = Ok (from_multi_part pair_model).
Proof. exact pair_load. Qed.

Lemma composed_options_exact_witness :
  (∃ r, offer a_is_x "b" = Ok r ∧ "y" ∈ so_valid_options r) ∧ open_to pair_model pair_part a_is_x "b" "y".
Proof.
  destruct (ran (offer a_is_x "b")) as [r Hr]; [vm_compute; exact I|].
  assert (Hy : match offer a_is_x "b" with Ok r => bool_decide ("y" ∈ so_valid_options r) | Err _ => false end = true) by (vm_compute; reflexivity).
  rewrite Hr in Hy. apply bool_decide_eq_true in Hy. split; [exists r; exact (conj Hr Hy)|]. unfold offer in Hr.
  refine (proj1 (composed_options_exact pair_package pair_disk pair_handle scope_pump pair_model pair_part eq_refl eq_refl pair_loadable pair_ccm
    PRODUCT_SCHEMA_VERSION a_is_x "b" true r "y" Hr _ _ _) Hy); vm_compute; reflexivity.
Defined.

Lemma composed_selection_satisfiable_witness :
  ∃ s, select a_is_x "b" "y" = Ok s ∧ consistent pair_model (pins_of pair_part (environment s)).
Proof.
  destruct (ran (select a_is_x "b" "y")) as [s Hs]; [vm_compute; exact I|]. exists s. split; [exact Hs|]. unfold select in Hs.
  assert (Ht : ss_context_tags a_is_x !! "b" = None) by (vm_compute; reflexivity).
  assert (Hc : ss_choices a_is_x !! "b" = None) by (vm_compute; reflexivity).
  destruct (composed_selection_satisfiable pair_package pair_disk pair_handle scope_pump pair_model pair_part eq_refl eq_refl pair_loadable pair_ccm
    PRODUCT_SCHEMA_VERSION a_is_x "b" "y" s Hs Ht Hc) as (_ & _ & Hx).
  assert (Hf : facet_in (from_multi_part pair_model) "b" = true) by (vm_compute; reflexivity). rewrite Hf in Hx. exact (proj2 Hx).
Defined.

(** The configuration with [a.x] and [b.y]; that it has [b.y] is what was implied. *)
Definition x_then_y (c : string) : bool := bool_decide (c ∈ ["a.x"; "b.y"]).

Lemma composed_resolution_witness :
  feasible pair_model (pins_of pair_part (environment a_is_x)) x_then_y ∧
  gives_values pair_model pair_part (closed_or_default pair_package pair_handle) x_then_y ∧
  (∃ r, settle a_is_x = Ok r ∧ rk_implied_choices r !! "b" = Some "y") ∧ x_then_y "b.y" = true.
Proof.
  destruct (ran (settle a_is_x)) as [r Hr]; [vm_compute; exact I|].
  assert (Hi : match settle a_is_x with Ok r => bool_decide (rk_implied_choices r !! "b" = Some "y") | Err _ => false end = true) by (vm_compute; reflexivity).
  rewrite Hr in Hi. apply bool_decide_eq_true in Hi.
  assert (Hf : feasible pair_model (pins_of pair_part (environment a_is_x)) x_then_y).
  { split; [constructor; [vm_compute; reflexivity|constructor]|]. assert (E : pins_of pair_part (environment a_is_x) = {["a.x"]}) by (vm_compute; reflexivity).
    rewrite E. intros c Hc. apply elem_of_singleton in Hc as ->. vm_compute. reflexivity. }
  assert (Hg : gives_values pair_model pair_part (closed_or_default pair_package pair_handle) x_then_y).
  { assert (E : dom (closed_or_default pair_package pair_handle) =@{gset string} {["a"; "b"]}) by (vm_compute; reflexivity).
    intros f values Hv _. assert (Hd : f ∈ ({["a"; "b"]} : gset string)) by (rewrite <-E; apply elem_of_dom; exists values; exact Hv).
    apply elem_of_union in Hd as [->%elem_of_singleton| ->%elem_of_singleton].
    - exists "x". split; [apply (bool_decide_unpack _); vm_compute; exact I|vm_compute; reflexivity].
    - exists "y". split; [apply (bool_decide_unpack _); vm_compute; exact I|vm_compute; reflexivity]. }
  split; [exact Hf|]. split; [exact Hg|]. split; [exists r; exact (conj Hr Hi)|]. unfold settle in Hr.
  exact (proj2 (proj2 (composed_resolution pair_package pair_disk pair_handle scope_pump pair_model pair_part PRODUCT_SCHEMA_VERSION a_is_x ∅ r
    eq_refl eq_refl pair_loadable pair_ccm Hr)) x_then_y Hf Hg "b" "y" Hi).
Defined.

Lemma composed_explanation_exact_witness :
  (∃ reason, why a_is_x "b" "x" = Ok reason ∧ is_Some (rj_unsat_core reason)) ∧ ¬ open_to pair_model pair_part a_is_x "b" "x".
Proof.
  destruct (ran (why a_is_x "b" "x")) as [reason Hr]; [vm_compute; exact I|].
  assert (Hc : match why a_is_x "b" "x" with Ok r => bool_decide (is_Some (rj_unsat_core r)) | Err _ => false end = true) by (vm_compute; reflexivity).
  rewrite Hr in Hc. apply bool_decide_eq_true in Hc. split; [exists reason; exact (conj Hr Hc)|]. unfold why in Hr.
  refine (proj1 (composed_explanation_exact (T := demo_sat) pair_package pair_disk pair_handle scope_pump pair_model pair_part eq_refl eq_refl pair_loadable pair_ccm
    PRODUCT_SCHEMA_VERSION a_is_x "b" "x" reason Hr _ _ _ _ _) Hc).
  - vm_compute. reflexivity.
  - vm_compute. discriminate.
  - apply (bool_decide_unpack _). vm_compute. exact I.
  - vm_compute. reflexivity.
  - vm_compute. reflexivity.
Defined.

(** ** A model without configurations *)

(** The constraint of [void_config] cannot hold, since [a] has one value at most,
    and its table is the terminal false. *)
Definition void_config : Config :=
  mkConfig "void" "1.0.0" ∅ {["pump" := mkComponent (Some "pump") None [] ∅ ∅]} ∅
    {["a" := Schema.mkFacet ["x"; "y"] None false None]} {["never" := mkConstraintDecl "a == 'x' && a == 'y'" None]} ∅ ∅.

Definition void_symbols : Symbols := mkSymbols 2 ["a.x"; "a.y"] {["a.x" := 0; "a.y" := 1]} ["a.x"; "a.y"].

Definition void_manifest (top : bool) : Manifest :=
  {| CcmFormat.mf_schema_version := 2; mf_ccm_hash := mf_ccm_hash toy_manifest; mf_bound_model_hash := mf_bound_model_hash toy_manifest;
     mf_algorithm := "robdd-handrolled-v1"; mf_algorithm_params := ∅; mf_var_count := 2; mf_node_count := 2;
     mf_construction_wall_time_us := 0; mf_emitted_at := EmptyString;
     mf_partition_manifest := if top then Some "partition-manifest.json" else None;
     mf_constraints := if top then [mkRosterEntry "a == 'x' && a == 'y'" "never" 0] else [] |}.

Definition void_codec : CcmCodec := {|
  cd_sha256 := toy_sha;
  cd_to_vec := λ _, Ok zero_hash;
  cd_top_to_vec := λ _, Ok zero_hash;
  cd_pm_to_vec := λ _, Ok [];
  cd_parse_manifest := λ bs, Ok (void_manifest (bool_decide (bs = bytes_of "top")));
  cd_parse_symbols := λ _, Ok void_symbols;
  cd_parse_partition_manifest := λ _, Ok (mkPartitionManifest 2 ["partition-0000"] false (mf_ccm_hash toy_manifest));
|}.

Definition void_disk : disk := mkDisk (λ path,
  Some (mkFile true 0
    (if decide (path = "d/ccm.manifest.json") then bytes_of "top"
     else if decide (path = "d/partition-0000/ccm.bdd.bin") then encode_canonical_to_bytes 2 (table_of []) TERMINAL_FALSE else [])))
  (λ path, bool_decide (path = "d")).

Definition void_part : PartitionCcm := mkPartition void_symbols (CcmFormat.mkPayload 2 2 [TERMINAL_FALSE] (table_of [])) (toy_sha CCM_HASH_DOMAIN_TAG).

Definition void_model : MultiPartCcm :=
  mkMultiPart (toy_sha CCM_HASH_DOMAIN_TAG) (repeat "000"%char 32) 2 (CcmFormat.mf_constraints (void_manifest true)) [void_part] None.

Definition void_chunk : IrChunk :=
  written (mkSourceChunk "void.json" (match chunk_hash_from_config (H := one_base) void_config with Ok hash => hash | Err _ => "none" end) void_config).

Definition void_ir : IrCodec :=
  {| sha256 := λ _, replicate 32 "000"%char; preimage_json := λ _, Some []; content_json := λ _, Some []; chunk_json := λ _, Some [];
     index_pretty := λ _, bytes_of "index"; manifest_pretty := λ _, bytes_of "manifest"; parse_chunk := λ _, Some void_chunk |}.

Definition void_emission :=
  emit_ir (H0 := void_ir) (λ _, true) (λ _, true)
    (ingest (H0 := void_ir) (λ _, None) (λ _, Some void_config) [("void.json", "{void}")] new_compiler).2 "out" ∅.

Definition void_index : IrIndex := match void_emission.1 with Ok i => i | Err _ => Ir.mkIndex 0 [] ∅ ∅ ∅ ∅ ∅ ∅ "none" end.

Definition void_loader : LoaderCodec := {|
  state_json := λ c, Some [];
  output_value := λ _, Some JNull;
  output_json := λ _, Some [];
  parse_cmp_manifest := λ _, Some (manifest_from_index void_index);
  parse_index := λ _, Some void_index;
|}.

#[local] Existing Instance void_codec.
#[local] Existing Instance void_ir.
#[local] Existing Instance void_loader.

Definition void_handle : ModelHandle := mkHandle (ix_config_hash void_index) "out/cmp.manifest.json" "out/index.cfir.json" "out/." "d".

Definition void_state : SelectionState :=
  match initialize_selection_state void_emission.2 PRODUCT_SCHEMA_VERSION void_handle scope_pump ∅ with
  | Ok s => s
  | Err _ => mkState 0 "none" "none" ∅ ∅ "none"
  end.

Lemma void_ccm : load_ccm void_disk (trim (mh_ccm_ref void_handle)) = Ok (from_multi_part void_model).
Proof. vm_compute. reflexivity. Qed.

(** What the emitter writes for [void_config] is the table of the disk. *)
Definition void_table : option (list ascii) :=
  match parse_condition_model (condition_model_from_summary zeros (merge [summarize void_config "void.json"])) with
  | Ok exprs =>
      symbols ← compute_variable_order exprs Force;
      match build_bdd_bin_with_builder exprs symbols default_builder (λ _, None) with Ok (bytes, _) => Some bytes | Err _ => None end
  | Err _ => None
  end.

Example void_table_emitted : void_table = Some (encode_canonical_to_bytes 2 (table_of []) TERMINAL_FALSE).
Proof. vm_compute. reflexivity. Qed.

(** No assignment satisfies the model, and a resolution of the empty selection
    succeeds: the gate finds it satisfiable, because it only replays the values
    the environment names and a new session is not asked whether the model has a
    configuration. *)
Example void_model_resolves :
  (∀ pins, ~ consistent void_model pins) ∧
  solver_sat_gate (B := CuddBackend BddBuilder N) (from_multi_part void_model) void_state (closed_or_default void_emission.2 void_handle) = Satisfiable ∧
  match Compose.resolve (B := CuddBackend BddBuilder N) void_emission.2 void_disk PRODUCT_SCHEMA_VERSION void_handle scope_pump void_state ∅ with
  | Ok _ => True
  | Err _ => False
  end.
Proof.
  split; [|split; [vm_compute; reflexivity|vm_compute; exact I]]. intros pins Hc. apply Hc. intros tau [Ht _].
  apply Forall_inv in Ht. by vm_compute in Ht.
Qed.
